(* ===== verification/_CoqProject ===== *)
-Q . S2P
Prelude.v
CInt.v
Digits.v
Bignum.v
BigAdd.v
BigMul.v
BigDiv.v
BigBits.v
BigStr.v
Fixnum.v
Integers.v
Qsort.v
StTable.v
Ivars.v
Marshal.v
Random.v
VmsCmdLine.v
VmsSelect.v
Digest.v
Md5.v
Sha1.v
Rmd160.v
Sha2.v
Babble.v
DigestObject.v
PackText.v
Pack.v
PackRound.v
PackSafe.v
ArrayMem.v
Array.v
ArrayInv.v
ArrayOps.v
ArrayRefine.v
ArrayIter.v
ArrayNest.v
ArrayBounds.v
StrSearch.v
HashTable.v
Hash.v
HashInv.v
HashSafe.v
HashWalk.v
HashMap.v
StrTr.v
StrSucc.v
StrDump.v
StrEdit.v
StrLines.v
Sprintf.v
SprintfSafe.v
