(* ===== verification/Prelude.v ===== *)
(** * Verification of the OpenVMS port of Ruby 1.8 (src/ruby)

    ** The program

    src/ruby is the C interpreter of Ruby 1.8 with the files of its OpenVMS
    port (vms.c, vms/).  The interpreter proper is a tree walker (eval.c) over
    tagged words; around it stand the run-time libraries this development is
    about: integers of any size, hash tables and Hashes, arrays, strings, sorting, random numbers,
    binary serialisation ([Marshal]), the template language of [pack], the message
    digests, and what the port adds, the reading of the command line and a
    [select] for descriptors that are not sockets.  They meet in few places:
    Fixnum operators hand results that overflow to the Bignums, [Marshal] and
    [pack] read and write Bignums, every digest runs behind the interface of
    digest.c, and BubbleBabble prints a digest.  The files here follow these
    lines; a file requires those of the parts its part calls.

    ** Conventions

    C integers are [Z] with the wrap-around of each assignment written out
    (CInt.v); the configuration is src/ruby/vms/config.h: [int], [long] and
    pointers of 32 bits, 16-bit Bignum digits, little-endian words, no [long
    long].  [char] is signed.  A call that can fail has the type [outcome]
    below: a value, a Ruby exception, behaviour C does not define (reading or
    writing outside a block, a table indexed with a negative number), or a
    hand-over to code outside the model (floating point, methods of other
    objects).  [Undefined] is never a convenience of the model: a theorem that
    gives [Ok] or excludes [Undefined] is a memory safety statement.  Buffers
    are lists, so an allocation that fails is modelled only where the code
    tests a size.  A loop is structural where it walks over a list; otherwise
    it has fuel, and the theorem about it shows that the fuel given by its
    caller is enough: the number of digits, bits or characters left in the
    Bignum and text loops, the length of the template in [pack] and [unpack],
    the number of objects plus one in [w_object], twice the length of the
    source plus two in [r_object], the number of elements in [ruby_qsort], the
    entries and bins in a walk over a hash table.  State is passed explicitly
    as the record of the struct the code changes.

    ** Integers: CInt, Digits, Bignum, BigAdd, BigMul, BigDiv, BigBits, BigStr,
    Fixnum, Integers (bignum.c, numeric.c, compar.c, ruby.h)

    A Bignum is its sign and digits ([RBignum]), a [VALUE] a Fixnum or a
    Bignum; [value] is the integer it stands for and [canonical] the invariant
    that an integer is a Fixnum exactly when it fits.  Each operator is the
    digit loop of the code, and is proved to return the canonical integer of
    the mathematical result: sums and differences, products, powers, quotient
    and remainder by Knuth's algorithm D in all of Ruby's variants, and, or
    and the shifts in two's complement; text in bases 2 to 36 and back.  Where
    the code fails (the complement of some numbers, exclusive or, a right shift
    by all digits, very long numbers in [rb_big2str]) the theorem states the
    exact condition and what happens beyond it.  Fixnum operators are proved
    against the same results, with the overflow into Bignums and the iteration
    methods.  [Integers] (with compar.c) puts both classes together, through
    coercion and the tables of methods: an expression over integers has the
    canonical integer of its value, and the loops [upto], [downto], [times] and
    [step] visit an arithmetic progression that may leave the Fixnums.

    ** Containers: StTable (st.c), Qsort (util.c)

    [StTable] is the chained hash table with the addresses of its entries; it
    refines an association map, through rehashing and copying, and [st_foreach],
    a machine that takes a step for an entry or the head of a bin, never reads
    a freed entry when the callback, which may change the table in any way,
    asks for the check.  [Qsort] is the quicksort
    without recursion, with its stack of regions, medians and exchange
    routines; it permutes the elements for every comparison that is a function of
    the two elements and sorts for an order, and its stack of 32 regions is large enough.

    ** Arrays: ArrayMem, Array, ArrayInv, ArrayOps, ArrayRefine, ArrayIter,
    ArrayNest, ArrayBounds (array.c, gc.c, range.c)

    Arrays share blocks of elements until they are written.  [ArrayMem] has
    two heaps, of array objects and of blocks whose words may be unwritten,
    the allocator with a machine that may refuse any size, and the monad of
    the operations, whose results tell an exception, which leaves the memory
    as it is at that point, from an access outside a block ([Crash]).  [Array]
    is array.c function by function, [ArrayIter] the methods that call blocks
    and [==], with fuel because a block can keep a loop going, [ArrayNest] the
    methods that look into nested arrays.  [ArrayInv] states the invariant of
    sharing ([wf]: every block has one owner, and an array that shares points
    into the block of its hidden owner), the abstraction [abs] to a map from
    arrays to lists, and the rules of a small program logic; [ArrayOps] has a
    triple for each operation; [ArrayRefine] draws the conclusion: any program
    of array operations whose arguments are in range does what it does on lists,
    where nothing is shared, until memory runs out.  [ArrayIter] shows that no iterator crashes whatever
    its block does to the array, and what the iterators compute; [ArrayNest]
    that flatten flattens, with the number of arrays as a bound of its depth.
    [ArrayBounds] is about the indices and lengths the checks of the code let
    through, with exact ranges for stores and slices.

    ** Hashes: HashTable, Hash, HashInv, HashSafe, HashWalk, HashMap (hash.c,
    with parts of object.c)

    The class [Hash] over the tables of [StTable].  Hash objects and tables are
    two heaps ([Hash]), and a freed table's address may be given out again, so
    that [rehash] under a running loop is seen as it is; keys are words whose
    methods [hash] and [eql?] are parameters with the laws [ObjectLaws] of an
    equivalence, string keys are compared and hashed by [StrSearch].  [HashTable]
    reads a table as a list of pairs with distinct keys and follows [st_foreach]
    along chains that stay.  [HashInv] has the invariant (every Hash owns a table,
    and the flag that asks for a sweep is set only while a loop runs) and a rule
    for each method;
    [HashSafe] a language of programs whose blocks and default procs are programs
    again, none of which follows a pointer to what is freed.  [HashWalk] shows
    what loops visit, and what deleting loops leave and sweep out, [HashMap] that programs
    without blocks do on the tables what they do on lists of pairs whose order
    does not count, with enough fuel: a loop takes one round for an entry and one
    for the head of a bin.

    ** Strings: StrSearch, StrTr, StrSucc, StrDump, StrEdit, StrLines (string.c,
    re.c, with parts of parse.y, util.c and regex.c)

    A string is the list of its bytes; where the code writes in place the
    definition works on a block with the NUL behind the bytes.  [StrSearch]
    compares and searches: the rolling hash finds the first occurrence and
    nothing is read outside the strings, but for bytes that are negative
    [char]s when case is ignored.  [StrTr] has the generator of character
    sequences as a machine; its specification reads the string into items, and
    [tr], [delete], [squeeze] and [count] are proved against that.  [StrSucc]
    shows [succ] to be the next value of an odometer whose wheels are the
    letters and digits, from which [upto] ends, with a bound on its rounds.
    [StrDump] writes literals and reads them with the lexer of parse.y: what is
    dumped is read back in every character encoding, unless the length of the
    literal wraps around.  [StrEdit] replaces and
    takes parts, with the sums that overflow, repeats, pads and changes case;
    [StrLines] cuts into lines and fields.

    ** Formatted output: Sprintf, SprintfSafe (sprintf.c)

    [Sprintf] is the interpreter of format strings, with numbered and starred
    arguments and the buffer that grows by doubling; a loop that does not end is
    the result [None].  A field is a list in the specification: signed numbers
    are read back from it, and the digits after the dots of a negative number
    are its two's complement, but for the cases the examples name.
    [SprintfSafe] follows the format through all directives: with formats and
    arguments of bounded size nothing is written outside the buffer and the
    doubling ends, up to where a Float directive or an object with a conversion
    of its own is handed over; the bounds leave room for 256 directives of four
    megabytes.

    ** Serialisation: Ivars (variable.c), Marshal (marshal.c), PackText, Pack,
    PackRound, PackSafe (pack.c)

    [Ivars] keeps the instance variables of an object in a table of [StTable]
    under the IDs of their names; the numbers [rb_intern] gives are a parameter,
    with the class [Symbols].  [Marshal] dumps and loads object graphs in a heap
    with addresses, so that sharing and cycles are kept; loading what was dumped
    gives an isomorphic graph, whose objects may list their variables in another
    order, since that depends on the chains of the table; loading any bytes
    terminates, with a bound on the recursion that is never reached (the depth of
    the C stack is not modelled), and the theorem on short strings gives the
    over-read of truncated data.  [PackText] has base64, uuencode,
    quoted-printable and UTF-8 with their buffers: each decoder inverts its
    encoder, and the UTF-8 reader accepts canonical encodings only.  [Pack] has
    the two interpreters of templates; [PackRound] shows that numbers in all
    integer directives (BER integers of any size among them) and digit strings
    come back; [PackSafe] that neither interpreter leaves its strings, but for
    the cases its examples name, and ends in a result or an exception unless the
    template has a pointer or, for [pack], a Float, [M] or an object with a
    conversion of its own.  A Float that is unpacked stays in the form of its
    bytes.

    ** Digests: Digest, Md5, Sha1, Rmd160, Sha2, Babble, DigestObject
    (ext/digest)

    The class [rb_digest_metadata] is the function table of digest.h and
    [DigestLaws] the contract an implementation gives to the framework: the
    context after any updates represents the concatenated message.  The four
    algorithm files prove it, each against the loop of the standard it
    implements, for messages in any pieces (within the bounds on one piece the
    bit counters need), and make it an instance; [DigestObject] proves the
    methods of digest objects once, from the laws.  [Babble] is the encoder of
    bubblebabble.c, which is injective and fits its buffer.

    ** Random (random.c), VmsCmdLine and VmsSelect (vms.c)

    The generator's block-wise refresh is the recurrence of MT19937 and
    tempering is invertible.  [VmsCmdLine] flattens an argument vector into a
    command line and parses it again, which gives the arguments back, and
    expands wild cards in a doubly linked list.  [VmsSelect] splits the
    descriptor sets and counts what is ready.  The file name matcher, the
    socket test, the system's [select], and what [sprintf] does where its
    destination is one of its strings are parameters.

    ** Not modelled

    The parser, the evaluator, classes and methods, the garbage collector
    (which scans the machine stack), regular expressions, ranges and
    structures, input and output, processes and time, and the extensions that
    bind external libraries.  Floating point is [Delegate] everywhere: [Float],
    [rand], packing Floats, the directives of formats for Floats, Floats in
    [Marshal].  Of [Marshal] user-defined formats, Structs, Hashes, Regexps
    and Classes are left out, of [pack] the addresses of [p] and [P], of
    digest.c the lookup of the function table and classes written in Ruby, of
    array.c the methods that use hashes (-, &, |, uniq), text (join, inspect),
    <=> and sort!, whose algorithm is in Qsort, of hash.c text, sort, ENV and
    keys whose methods have effects, of string.c what takes regular expressions
    and the sharing of blocks, of the lexer all but double-quoted literals on
    one line.  src/ferret-0.11.4, src/rails-1.1.6 and the other directories
    beside src/ruby are packages shipped with it. *)

From Stdlib Require Import ZArith Lia List Bool.
Import ListNotations.

(** ** Outcomes

    A C function of the interpreter either returns, raises a Ruby exception
    with [rb_raise], runs into behaviour the C language leaves undefined (an
    access outside an allocated block), or hands the call over to floating
    point arithmetic or to the coercion protocol, which are outside the
    model. *)

Inductive rb_error :=
  | ZeroDivisionError
  | RangeError
  | ArgumentError
  | NoMemoryError
  | RuntimeError
  | TypeError
  | IndexError
  | SecurityError
  | SyntaxError.

Inductive outcome (A : Type) : Type :=
  | Ok (a : A)
  | Raise (e : rb_error)
  | Undefined
  | Delegate.
Arguments Ok {A} a.
Arguments Raise {A} e.
Arguments Undefined {A}.
Arguments Delegate {A}.

Definition bind {A C : Type} (m : outcome A) (k : A -> outcome C) : outcome C :=
  match m with
  | Ok a => k a
  | Raise e => Raise e
  | Undefined => Undefined
  | Delegate => Delegate
  end.

Declare Scope outcome_scope.
Delimit Scope outcome_scope with outcome.
Notation "x <- m ;; k" := (bind m (fun x => k))
  (at level 62, m at next level, right associativity) : outcome_scope.
Notation "' p <- m ;; k" := (bind m (fun p => k))
  (at level 62, p pattern, m at next level, right associativity) : outcome_scope.

Lemma bind_Ok_inv {A C} (m : outcome A) (k : A -> outcome C) c :
  bind m k = Ok c -> exists a, m = Ok a /\ k a = Ok c.
Proof. destruct m; simpl; intros H; try discriminate; eauto. Qed.

Lemma bind_assoc {A C D} (m : outcome A) (f : A -> outcome C) (g : C -> outcome D) :
  bind (bind m f) g = bind m (fun a => bind (f a) g).
Proof. now destruct m. Qed.

(** ** Tactics *)

(** Case analysis on the boolean a conditional of the goal or of a hypothesis
    tests, with the reflected proposition in the context. *)
Ltac case_bool b :=
  match type of b with
  | bool => let E := fresh "E" in destruct b eqn:E
  end.

Ltac breflect :=
  repeat match goal with
  | H : (_ && _)%bool = true |- _ => apply andb_prop in H; destruct H
  | H : (_ || _)%bool = false |- _ => apply orb_false_elim in H; destruct H
  | H : (_ || _)%bool = true |- _ => apply orb_prop in H
  | H : (_ && _)%bool = false |- _ => apply andb_false_iff in H
  | H : negb _ = true |- _ => apply negb_true_iff in H
  | H : negb _ = false |- _ => apply negb_false_iff in H
  | H : (_ =? _)%Z = true |- _ => apply Z.eqb_eq in H
  | H : (_ =? _)%Z = false |- _ => apply Z.eqb_neq in H
  | H : (_ <? _)%Z = true |- _ => apply Z.ltb_lt in H
  | H : (_ <? _)%Z = false |- _ => apply Z.ltb_ge in H
  | H : (_ <=? _)%Z = true |- _ => apply Z.leb_le in H
  | H : (_ <=? _)%Z = false |- _ => apply Z.leb_gt in H
  | H : (_ >? _)%Z = true |- _ => rewrite Z.gtb_ltb in H; apply Z.ltb_lt in H
  | H : (_ >? _)%Z = false |- _ => rewrite Z.gtb_ltb in H; apply Z.ltb_ge in H
  | H : (_ >=? _)%Z = true |- _ => rewrite Z.geb_leb in H; apply Z.leb_le in H
  | H : (_ >=? _)%Z = false |- _ => rewrite Z.geb_leb in H; apply Z.leb_gt in H
  | H : (_ =? _)%nat = true |- _ => apply Nat.eqb_eq in H
  | H : (_ =? _)%nat = false |- _ => apply Nat.eqb_neq in H
  | H : (_ <? _)%nat = true |- _ => apply Nat.ltb_lt in H
  | H : (_ <? _)%nat = false |- _ => apply Nat.ltb_ge in H
  | H : (_ <=? _)%nat = true |- _ => apply Nat.leb_le in H
  | H : (_ <=? _)%nat = false |- _ => apply Nat.leb_gt in H
  end.

Ltac splits := repeat match goal with |- _ /\ _ => split end.

Ltac case_if :=
  match goal with
  | |- context [if ?b then _ else _] => case_bool b
  | H : context [if ?b then _ else _] |- _ => case_bool b
  end; breflect.

(** ** Lists *)

(** [A.update l i x] as C writes [l[i] = x] inside the block. *)
Fixpoint list_set {A} (l : list A) (i : nat) (x : A) : list A :=
  match l, i with
  | [], _ => []
  | _ :: t, O => x :: t
  | h :: t, S i' => h :: list_set t i' x
  end.

Lemma list_set_length {A} (l : list A) i x : length (list_set l i x) = length l.
Proof. revert i; induction l; intros [|i]; simpl; auto. Qed.

Lemma list_set_nth {A} (l : list A) i j x d :
  (i < length l)%nat ->
  nth j (list_set l i x) d = if (j =? i)%nat then x else nth j l d.
Proof.
  revert i j; induction l as [|h t IH]; intros i j Hi; simpl in *; [lia|].
  destruct i as [|i], j as [|j]; simpl; auto.
  apply IH; lia.
Qed.

Lemma list_set_app {A} (l : list A) i x :
  (i < length l)%nat -> list_set l i x = firstn i l ++ x :: skipn (S i) l.
Proof.
  revert i; induction l as [|h t IH]; intros i Hi; simpl in *; [lia|].
  destruct i as [|i]; simpl; [reflexivity|]. rewrite IH by lia. reflexivity.
Qed.

Lemma app_inj_length {A} (a c b d : list A) :
  length a = length c -> a ++ b = c ++ d -> a = c /\ b = d.
Proof.
  revert c; induction a as [|x a IH]; intros [|y c] HL H; simpl in *; try discriminate; auto.
  injection H as -> H. destruct (IH c) as [-> ->]; auto.
Qed.

Lemma nth_firstn_lt {A} (l : list A) n i d :
  (i < n)%nat -> nth i (firstn n l) d = nth i l d.
Proof.
  revert n i; induction l as [|h t IH]; intros [|n] [|i] H; simpl; auto; try lia.
  apply IH; lia.
Qed.

Lemma nth_skipn_add {A} (l : list A) n i d :
  nth i (skipn n l) d = nth (n + i) l d.
Proof.
  revert n; induction l as [|h t IH]; intros [|n]; simpl; auto.
  now destruct i.
Qed.

Lemma Forall_firstn' {A} (P : A -> Prop) n l : Forall P l -> Forall P (firstn n l).
Proof. intros H; revert n; induction H; intros [|n]; simpl; constructor; auto. Qed.

Lemma Forall_skipn' {A} (P : A -> Prop) n l : Forall P l -> Forall P (skipn n l).
Proof. intros H; revert n; induction H; intros [|n]; simpl; auto. Qed.

Lemma Forall_list_set {A} (P : A -> Prop) l i x :
  Forall P l -> P x -> Forall P (list_set l i x).
Proof.
  intros H Hx; revert i; induction H; intros [|i]; simpl; constructor; auto.
Qed.

Lemma Forall_nth_default {A} (P : A -> Prop) l i d : Forall P l -> P d -> P (nth i l d).
Proof. intros H Hd; revert i; induction H; intros [|i]; simpl; auto. Qed.

Lemma Forall_repeat' {A} (P : A -> Prop) x n : P x -> Forall P (repeat x n).
Proof. intros; induction n; simpl; constructor; auto. Qed.

Create HintDb lists discriminated.
#[export] Hint Resolve Forall_firstn' Forall_skipn' Forall_list_set Forall_repeat' : lists.
#[export] Hint Rewrite @list_set_length @length_app @length_rev @repeat_length
  @length_firstn @length_skipn @length_map : lists.
