(* ===== verification/CInt.v ===== *)
(** * Machine integers of the OpenVMS configuration

    src/ruby/vms/config.h fixes [SIZEOF_INT = SIZEOF_LONG = SIZEOF_VOIDP = 4]
    and [SIZEOF_SHORT = 2], and does not define [HAVE_LONG_LONG].  C integers
    are [Z] with their wrap-around written out: [u16] and [u32] reduce a value
    as an assignment to an unsigned type does, [s32] as the two's complement
    assignment to [int] or [long] does.  The tagged-pointer macros of
    src/ruby/ruby.h for Fixnums are here too. *)

From Stdlib Require Import ZArith Lia List Bool.
From S2P Require Import Prelude.
Import ListNotations.
Local Open Scope Z_scope.

Definition uwrap (w z : Z) : Z := z mod 2 ^ w.
Definition swrap (w z : Z) : Z := (z + 2 ^ (w - 1)) mod 2 ^ w - 2 ^ (w - 1).

Definition u8 (z : Z) : Z := z mod 256.
Definition s8 (z : Z) : Z := (z + 128) mod 256 - 128.
Definition u16 (z : Z) : Z := z mod 65536.
Definition u32 (z : Z) : Z := z mod 4294967296.
Definition s32 (z : Z) : Z := (z + 2147483648) mod 4294967296 - 2147483648.

Definition LONG_MAX : Z := 2147483647.
Definition LONG_MIN : Z := -2147483648.

(** [RSHIFT(x,y)] is [(x)>>y] (vms/config.h): arithmetic on signed operands,
    logical on unsigned ones, which are never negative here. *)
Definition RSHIFT (x y : Z) : Z := Z.shiftr x y.

(** The C remainder and quotient truncate. *)
Definition cdiv (a b : Z) : Z := Z.quot a b.
Definition cmod (a b : Z) : Z := Z.rem a b.

(** ruby.h: Fixnums are 31-bit integers tagged in the low bit of a [VALUE]. *)
Definition FIXNUM_MAX : Z := RSHIFT LONG_MAX 1.
Definition FIXNUM_MIN : Z := RSHIFT LONG_MIN 1.
Definition FIXNUM_FLAG : Z := 1.
Definition LONG2FIX (i : Z) : Z := u32 (Z.lor (Z.shiftl (s32 i) 1) FIXNUM_FLAG).
Definition FIX2LONG (x : Z) : Z := RSHIFT (s32 x) 1.
Definition FIXNUM_P (f : Z) : bool := negb (Z.land f FIXNUM_FLAG =? 0).
Definition POSFIXABLE (f : Z) : bool := f <=? FIXNUM_MAX.
Definition NEGFIXABLE (f : Z) : bool := FIXNUM_MIN <=? f.
Definition FIXABLE (f : Z) : bool := POSFIXABLE f && NEGFIXABLE f.

Lemma u8_bound z : 0 <= u8 z < 256.
Proof. unfold u8; apply Z.mod_pos_bound; lia. Qed.
Lemma u16_bound z : 0 <= u16 z < 65536.
Proof. unfold u16; apply Z.mod_pos_bound; lia. Qed.
Lemma u32_bound z : 0 <= u32 z < 4294967296.
Proof. unfold u32; apply Z.mod_pos_bound; lia. Qed.
Lemma s32_bound z : -2147483648 <= s32 z < 2147483648.
Proof. unfold s32; pose proof (Z.mod_pos_bound (z + 2147483648) 4294967296); lia. Qed.

Lemma u8_small z : 0 <= z < 256 -> u8 z = z.
Proof. intros; unfold u8; apply Z.mod_small; lia. Qed.
Lemma u16_small z : 0 <= z < 65536 -> u16 z = z.
Proof. intros; unfold u16; apply Z.mod_small; lia. Qed.
Lemma u32_small z : 0 <= z < 4294967296 -> u32 z = z.
Proof. intros; unfold u32; apply Z.mod_small; lia. Qed.
Lemma s32_small z : -2147483648 <= z < 2147483648 -> s32 z = z.
Proof. intros; unfold s32; rewrite Z.mod_small; lia. Qed.

Lemma s32_u32 z : s32 (u32 z) = s32 z.
Proof. unfold s32, u32. now rewrite Zplus_mod_idemp_l. Qed.

Lemma u32_s32 z : u32 (s32 z) = u32 z.
Proof.
  unfold s32, u32. rewrite Zminus_mod_idemp_l. f_equal; lia.
Qed.

Lemma s32_eqm z : exists k, s32 z = z + k * 4294967296.
Proof.
  unfold s32. exists (- ((z + 2147483648) / 4294967296)).
  pose proof (Z.div_mod (z + 2147483648) 4294967296); lia.
Qed.

Lemma u32_eqm z : exists k, u32 z = z + k * 4294967296.
Proof.
  unfold u32. exists (- (z / 4294967296)).
  pose proof (Z.div_mod z 4294967296); lia.
Qed.

Lemma RSHIFT_16 z : RSHIFT z 16 = z / 65536.
Proof. unfold RSHIFT. now rewrite Z.shiftr_div_pow2 by lia. Qed.

Lemma FIXNUM_MAX_eq : FIXNUM_MAX = 1073741823. Proof. reflexivity. Qed.
Lemma FIXNUM_MIN_eq : FIXNUM_MIN = -1073741824. Proof. reflexivity. Qed.

Lemma FIXABLE_iff z : FIXABLE z = true <-> -1073741824 <= z <= 1073741823.
Proof.
  unfold FIXABLE, POSFIXABLE, NEGFIXABLE. rewrite FIXNUM_MAX_eq, FIXNUM_MIN_eq.
  rewrite andb_true_iff, !Z.leb_le. lia.
Qed.

Lemma lor_double_1 i : Z.lor (Z.shiftl i 1) 1 = 2 * i + 1.
Proof.
  apply Z.bits_inj'; intros n Hn.
  rewrite Z.lor_spec. destruct (Z.eq_dec n 0) as [->|Hn0].
  - rewrite Z.testbit_odd_0. now rewrite Z.shiftl_spec_low by lia.
  - replace n with (Z.succ (n - 1)) by lia.
    rewrite Z.testbit_odd_succ by lia.
    rewrite Z.shiftl_spec by lia.
    replace (Z.succ (n - 1) - 1) with (n - 1) by lia.
    rewrite (Z.bits_above_log2 1) by (simpl; lia). apply orb_false_r.
Qed.

(** Tagging a value and untagging it gives the value reduced to 31 bits: the
    identity exactly on [FIXABLE] values. *)
Lemma FIX2LONG_LONG2FIX i : FIX2LONG (LONG2FIX i) = (i + 1073741824) mod 2147483648 - 1073741824.
Proof.
  unfold FIX2LONG, LONG2FIX, RSHIFT, FIXNUM_FLAG.
  rewrite lor_double_1, s32_u32, Z.shiftr_div_pow2 by lia.
  unfold s32. Z.div_mod_to_equations. lia.
Qed.

Lemma FIX2LONG_LONG2FIX_small i : FIXABLE i = true -> FIX2LONG (LONG2FIX i) = i.
Proof.
  rewrite FIXABLE_iff, FIX2LONG_LONG2FIX; intros.
  rewrite Z.mod_small; lia.
Qed.

Lemma FIX2LONG_fixable v : FIXABLE (FIX2LONG v) = true.
Proof.
  rewrite FIXABLE_iff. unfold FIX2LONG, RSHIFT. pose proof (s32_bound v).
  rewrite Z.shiftr_div_pow2 by lia. change (2 ^ 1) with 2.
  pose proof (Z.div_mod (s32 v) 2). pose proof (Z.mod_pos_bound (s32 v) 2). lia.
Qed.

(** Bits that do not overlap are added by [or]. *)
Lemma lor_add_low a d n : 0 <= n -> 0 <= a < 2 ^ n -> Z.lor a (d * 2 ^ n) = a + d * 2 ^ n.
Proof.
  intros Hn Ha. rewrite <- Z.lxor_lor, <- Z.add_nocarry_lxor; auto.
  all: apply Z.bits_inj'; intros m Hm; rewrite Z.land_spec, Z.bits_0, Z.mul_pow2_bits by lia.
  all: destruct (Z.lt_ge_cases m n); [rewrite (Z.testbit_neg_r d) by lia; apply andb_false_r|].
  all: replace a with (a mod 2 ^ n) by (apply Z.mod_small; lia).
  all: now rewrite Z.mod_pow2_bits_high by lia.
Qed.

Lemma land_pow2 a n : 0 <= n -> Z.land a (2 ^ n) = if Z.testbit a n then 2 ^ n else 0.
Proof.
  intros Hn. apply Z.bits_inj'; intros m Hm.
  rewrite Z.land_spec, Z.pow2_bits_eqb by lia.
  destruct (Z.eqb_spec n m) as [->|Hne].
  - rewrite andb_true_r. destruct (Z.testbit a m); [now rewrite Z.pow2_bits_true|now rewrite Z.bits_0].
  - rewrite andb_false_r. destruct (Z.testbit a n); [|now rewrite Z.bits_0].
    symmetry. now apply Z.pow2_bits_false.
Qed.

(** *** Bytes, least significant first *)

Fixpoint le_val (bs : list Z) : Z :=
  match bs with
  | [] => 0
  | b :: bs => b + 256 * le_val bs
  end.

Definition byte (c : Z) : Prop := 0 <= c < 256.

Lemma le_val_bound bs : Forall byte bs -> 0 <= le_val bs < 256 ^ Z.of_nat (length bs).
Proof.
  induction 1 as [|b bs Hb H IH]; cbn [le_val length]; [cbn; lia|].
  rewrite Nat2Z.inj_succ, Z.pow_succ_r by lia. unfold byte in Hb. lia.
Qed.

Lemma pow256_bits n : 256 ^ Z.of_nat n = 2 ^ (8 * Z.of_nat n).
Proof. now rewrite Z.pow_mul_r by lia. Qed.

Lemma byte_high_bit b n : byte b -> 8 <= n -> Z.testbit b n = false.
Proof.
  unfold byte. intros H Hn. replace b with (b mod 2 ^ 8) by (apply Z.mod_small; lia). now apply Z.mod_pow2_bits_high.
Qed.

(** Bit [n] of a number is bit [n mod 8] of its byte [n / 8]. *)
Lemma le_val_bits bs n : Forall byte bs -> 0 <= n ->
  Z.testbit (le_val bs) n = Z.testbit (nth (Z.to_nat (n / 8)) bs 0) (n mod 8).
Proof.
  intros H; revert n; induction H as [|b bs Hb H IH]; intros n Hn; cbn [le_val].
  - rewrite Z.bits_0. destruct (Z.to_nat _); now rewrite Z.bits_0.
  - change 256 with (2 ^ 8). rewrite (Z.mul_comm (2 ^ 8)), <- lor_add_low, Z.lor_spec, Z.mul_pow2_bits by (unfold byte in Hb; lia).
    destruct (Z.lt_ge_cases n 8).
    + rewrite Z.div_small, Z.mod_small, (Z.testbit_neg_r _ (n - 8)) by lia. cbn [Z.to_nat nth]. apply orb_false_r.
    + rewrite (byte_high_bit b n), IH by (auto; lia).
      replace n with (n - 8 + 1 * 8) at 3 4 by lia. rewrite Z.div_add, Z.mod_add by lia.
      replace (Z.to_nat ((n - 8) / 8 + 1)) with (S (Z.to_nat ((n - 8) / 8))).
      2:{ pose proof (Z.div_pos (n - 8) 8). lia. }
      reflexivity.
Qed.

Create HintDb cint discriminated.
#[export] Hint Resolve u8_bound u16_bound u32_bound s32_bound : cint.
#[export] Hint Rewrite u8_small u16_small u32_small s32_small using lia : cint.

(** Removes every wrap whose argument [lia] can bound. *)
Ltac unwrap := autorewrite with cint in *.
