(* ===== verification/Digits.v ===== *)
(** * Digit lists

    The digit macros of src/ruby/bignum.c and the arithmetic of little-endian
    lists of 16-bit digits ([BDIGIT] is [unsigned short], [BDIGIT_DBL] is
    [unsigned long] in this configuration: defines.h, third branch). *)

From Stdlib Require Import ZArith Lia List Bool.
From S2P Require Import Prelude CInt.
Import ListNotations.
Local Open Scope Z_scope.

#[global] Arguments Z.mul : simpl never.
#[global] Arguments Z.add : simpl never.

Definition SIZEOF_BDIGITS : Z := 2.
Definition BITSPERDIG : Z := 16.
Definition BIGRAD : Z := 65536.
Definition BIGUP (x : Z) : Z := u32 (Z.shiftl x BITSPERDIG).
Definition BIGDN (x : Z) : Z := RSHIFT x BITSPERDIG.
Definition BIGLO (x : Z) : Z := Z.land x (BIGRAD - 1).

(** ** Values *)

Definition digit (d : Z) : Prop := 0 <= d < BIGRAD.

Fixpoint eval (ds : list Z) : Z :=
  match ds with
  | [] => 0
  | d :: ds' => d + BIGRAD * eval ds'
  end.

(** [radix n] is the weight of digit [n]. *)
Definition radix (n : nat) : Z := BIGRAD ^ Z.of_nat n.

Lemma BIGLO_eq x : BIGLO x = x mod BIGRAD.
Proof. unfold BIGLO, BIGRAD. change (65536 - 1) with (Z.ones 16). now rewrite Z.land_ones by lia. Qed.

Lemma BIGDN_eq x : BIGDN x = x / BIGRAD.
Proof. apply RSHIFT_16. Qed.

Lemma BIGUP_eq x : 0 <= x < BIGRAD -> BIGUP x = BIGRAD * x.
Proof.
  unfold BIGUP, BIGRAD, BITSPERDIG; intros. rewrite Z.shiftl_mul_pow2 by lia.
  change (2 ^ 16) with 65536. rewrite u32_small; lia.
Qed.

Lemma BIGLO_digit x : digit (BIGLO x).
Proof. rewrite BIGLO_eq. apply Z.mod_pos_bound. reflexivity. Qed.

Lemma BIGLO_BIGDN x : BIGLO x + BIGRAD * BIGDN x = x.
Proof. rewrite BIGLO_eq, BIGDN_eq. pose proof (Z.div_mod x BIGRAD). unfold BIGRAD in *; lia. Qed.

Lemma BIGDN_bound x lo hi : lo * BIGRAD <= x < (hi + 1) * BIGRAD -> lo <= BIGDN x <= hi.
Proof.
  rewrite BIGDN_eq; unfold BIGRAD; intros.
  pose proof (Z.div_mod x 65536). pose proof (Z.mod_pos_bound x 65536). lia.
Qed.

Lemma BIGLO_small x : digit x -> BIGLO x = x.
Proof. intros; rewrite BIGLO_eq; now apply Z.mod_small. Qed.

Lemma digit_0 : digit 0. Proof. unfold digit, BIGRAD; lia. Qed.

Lemma radix_0 : radix 0 = 1. Proof. reflexivity. Qed.
Lemma radix_S n : radix (S n) = BIGRAD * radix n.
Proof. unfold radix. rewrite Nat2Z.inj_succ, Z.pow_succ_r; lia. Qed.
Lemma radix_pos n : 0 < radix n.
Proof. apply Z.pow_pos_nonneg; unfold BIGRAD; lia. Qed.
Lemma radix_add n m : radix (n + m) = radix n * radix m.
Proof. unfold radix. rewrite Nat2Z.inj_add, Z.pow_add_r; lia. Qed.
Lemma radix_mono n m : (n <= m)%nat -> radix n <= radix m.
Proof. intros; apply Z.pow_le_mono_r; unfold BIGRAD; lia. Qed.
Lemma radix_even n : radix (S n) = 2 * (32768 * radix n).
Proof. rewrite radix_S; unfold BIGRAD; lia. Qed.
Lemma radix_shift n : radix n = 2 ^ (16 * Z.of_nat n).
Proof. unfold radix, BIGRAD. change 65536 with (2 ^ 16). rewrite <- Z.pow_mul_r; lia. Qed.

Lemma eval_app a b : eval (a ++ b) = eval a + radix (length a) * eval b.
Proof.
  induction a as [|d a IH]; cbn [eval length app].
  - rewrite radix_0; lia.
  - rewrite IH, radix_S. ring.
Qed.

Lemma eval_cons d ds : eval (d :: ds) = d + BIGRAD * eval ds.
Proof. reflexivity. Qed.

Lemma eval_snoc ds d : eval (ds ++ [d]) = eval ds + radix (length ds) * d.
Proof. rewrite eval_app; simpl; lia. Qed.

Lemma eval_repeat_0 n : eval (repeat 0 n) = 0.
Proof. induction n; simpl; lia. Qed.

Lemma eval_nonneg ds : Forall digit ds -> 0 <= eval ds.
Proof. induction 1; simpl; unfold digit, BIGRAD in *; lia. Qed.

Lemma eval_bound ds : Forall digit ds -> 0 <= eval ds < radix (length ds).
Proof.
  induction 1 as [|d ds Hd _ IH]; simpl.
  - rewrite radix_0; lia.
  - rewrite radix_S. unfold digit, BIGRAD in *; lia.
Qed.

Lemma eval_firstn_skipn n ds :
  (n <= length ds)%nat -> eval ds = eval (firstn n ds) + radix n * eval (skipn n ds).
Proof.
  intros H. rewrite <- (firstn_skipn n ds) at 1. rewrite eval_app, length_firstn.
  now replace (Nat.min n (length ds)) with n by lia.
Qed.

Lemma eval_list_set ds i x :
  (i < length ds)%nat -> eval (list_set ds i x) = eval ds + radix i * (x - nth i ds 0).
Proof.
  revert i; induction ds as [|d ds IH]; intros i Hi; simpl in *; [lia|].
  destruct i as [|i]; simpl.
  - rewrite radix_0; lia.
  - rewrite IH by lia. rewrite radix_S; ring.
Qed.

(** Two lists of digits of the same length are equal when their values are. *)
Lemma eval_inj a b :
  Forall digit a -> Forall digit b -> length a = length b -> eval a = eval b -> a = b.
Proof.
  intros Ha; revert b; induction Ha as [|d a Hd Ha IH]; intros b Hb HL HE.
  - now destruct b.
  - destruct Hb as [|d' b Hd' Hb]; [discriminate|].
    simpl in *. assert (d = d' /\ eval a = eval b) as [-> HE'].
    { unfold digit, BIGRAD in *. lia. }
    f_equal. apply IH; auto.
Qed.

(** Comparing from the top digit down. *)
Lemma eval_lt_top a b x y :
  length a = length b -> Forall digit a -> Forall digit b -> x < y ->
  eval (a ++ [x]) < eval (b ++ [y]).
Proof.
  intros HL Ha Hb Hxy. rewrite !eval_snoc, HL.
  pose proof (eval_bound a Ha). pose proof (eval_bound b Hb). rewrite HL in *. nia.
Qed.

Lemma eval_top_nonzero ds d :
  Forall digit ds -> 0 < d -> radix (length ds) <= eval (ds ++ [d]).
Proof.
  intros H Hd. rewrite eval_snoc. pose proof (eval_bound ds H). nia.
Qed.

(** ** Shared loops *)

(** [num = 1; do { num += ds[i]; ds[i++] = BIGLO(num); num = BIGDN(num); }
    while (i < len)] on a [BDIGIT_DBL num]. *)
Fixpoint propagate (ds : list Z) (num : Z) : list Z * Z :=
  match ds with
  | [] => ([], num)
  | d :: ds' =>
      let n := u32 (num + d) in
      let '(out, c) := propagate ds' (BIGDN n) in
      (BIGLO n :: out, c)
  end.

Lemma propagate_spec ds num :
  Forall digit ds -> digit num ->
  let '(out, c) := propagate ds num in
  eval out + radix (length ds) * c = eval ds + num /\
  length out = length ds /\ Forall digit out.
Proof.
  intros H; revert num; induction H as [|d ds Hd Hds IH]; intros num Hn; simpl.
  - rewrite radix_0; repeat split; auto; lia.
  - unfold digit, BIGRAD in Hd, Hn. rewrite u32_small by lia.
    pose proof (BIGDN_bound (num + d) 0 1 ltac:(unfold BIGRAD; lia)).
    specialize (IH (BIGDN (num + d)) ltac:(unfold digit, BIGRAD; lia)).
    destruct (propagate ds (BIGDN (num + d))) as [out c]. destruct IH as (HE & HL & HF).
    simpl. rewrite radix_S, HL. repeat split; auto using BIGLO_digit.
    pose proof (BIGLO_BIGDN (num + d)). unfold BIGRAD in *. lia.
Qed.

(** The number of digits left after the zero digits at the top are dropped:
    [while (len-- && !ds[len]);  ++len]. *)
Fixpoint strip (ds : list Z) : list Z :=
  match ds with
  | [] => []
  | d :: ds' =>
      match strip ds' with
      | [] => if d =? 0 then [] else [d]
      | r => d :: r
      end
  end.

Definition normalized (ds : list Z) : Prop := last ds 1 <> 0.

Lemma eval_strip ds : eval (strip ds) = eval ds.
Proof.
  induction ds as [|d ds IH]; simpl; [reflexivity|].
  destruct (strip ds) as [|d' r] eqn:E.
  - simpl in IH. destruct (d =? 0) eqn:E0; breflect; simpl; lia.
  - rewrite !eval_cons in *. lia.
Qed.

Lemma strip_prefix ds : exists n, ds = strip ds ++ repeat 0 n.
Proof.
  induction ds as [|d ds [n IH]]; simpl.
  - now exists O.
  - destruct (strip ds) as [|d' r] eqn:E.
    + destruct (d =? 0) eqn:E0; breflect.
      * exists (S n). simpl. subst d. f_equal. exact IH.
      * exists n. simpl. f_equal. exact IH.
    + exists n. simpl. f_equal. exact IH.
Qed.

Lemma strip_digits ds : Forall digit ds -> Forall digit (strip ds).
Proof.
  intros H. destruct (strip_prefix ds) as [n Hn]. rewrite Hn in H.
  apply Forall_app in H. tauto.
Qed.

Lemma strip_normalized ds : normalized (strip ds).
Proof.
  unfold normalized. induction ds as [|d ds IH]; simpl; [lia|].
  destruct (strip ds) as [|d' r] eqn:E.
  - destruct (d =? 0) eqn:E0; breflect; simpl; lia.
  - exact IH.
Qed.

Lemma strip_id ds : normalized ds -> strip ds = ds.
Proof.
  unfold normalized; induction ds as [|d ds IH]; intros H; simpl; [reflexivity|].
  destruct ds as [|d' ds].
  - simpl in *. destruct (d =? 0) eqn:E; breflect; [contradiction|reflexivity].
  - rewrite IH; auto.
Qed.

Lemma strip_length ds : (length (strip ds) <= length ds)%nat.
Proof.
  destruct (strip_prefix ds) as [n Hn]. rewrite Hn at 2.
  rewrite length_app. lia.
Qed.

Lemma normalized_lower ds :
  Forall digit ds -> ds <> [] -> normalized ds -> radix (length ds - 1) <= eval ds.
Proof.
  intros H HN Hn. destruct (exists_last HN) as (t & x & ->).
  unfold normalized in Hn. rewrite last_last in Hn.
  rewrite length_app; simpl length. replace (length t + 1 - 1)%nat with (length t) by lia.
  apply Forall_app in H as [Ht Hx]. inversion Hx; subst.
  apply eval_top_nonzero; auto. unfold digit in *; lia.
Qed.

Lemma normalized_zero ds : Forall digit ds -> normalized ds -> eval ds = 0 -> ds = [].
Proof.
  intros H Hn HE. destruct ds as [|d ds]; auto.
  pose proof (normalized_lower (d :: ds) H ltac:(discriminate) Hn).
  pose proof (radix_pos (length (d :: ds) - 1)). lia.
Qed.

Lemma eval_length_le a b :
  Forall digit a -> Forall digit b -> normalized a -> normalized b ->
  (length a < length b)%nat -> eval a < eval b.
Proof.
  intros Ha Hb Na Nb HL. destruct b as [|d b]; [simpl in HL; lia|].
  pose proof (normalized_lower _ Hb ltac:(discriminate) Nb).
  pose proof (eval_bound a Ha).
  pose proof (radix_mono (length a) (length (d :: b) - 1)). simpl length in *. lia.
Qed.

Create HintDb digits discriminated.
#[export] Hint Resolve BIGLO_digit digit_0 strip_digits : digits.
#[export] Hint Resolve Forall_firstn' Forall_skipn' Forall_list_set Forall_repeat' : digits.

(** Closes the goals digit loops leave: a linear relation between values, a
    list of digits, a length. *)
Ltac digit_fin :=
  splits; solve [ unfold digit, BIGRAD in *; lia
        | auto with digits
        | constructor; auto with digits
        | simpl; lia ].
