(* ===== verification/Bignum.v ===== *)
(** * Bignum objects: representation, normalisation, conversions

    Data and the operations of src/ruby/bignum.c that build, normalise and
    unbox integers.  A [struct RBignum] is its sign and its first [len] digits;
    a [VALUE] that is an integer is an immediate Fixnum or a reference to a
    Bignum, anything else is [Obj]. *)

From Stdlib Require Import ZArith Lia List Bool.
From S2P Require Import Prelude CInt Digits.
Import ListNotations.
Local Open Scope Z_scope.
Local Open Scope outcome_scope.

(** ruby.h: [struct RBignum { char sign; long len; BDIGIT *digits }]. *)
Record RBignum := mkBig { sign : bool; digits : list Z }.

Inductive VALUE :=
  | Fix (n : Z)
  | Big (b : RBignum)
  | Obj (id : Z).

Definition len (b : RBignum) : Z := Z.of_nat (length (digits b)).
Definition set_sign (s : bool) (b : RBignum) : RBignum := mkBig s (digits b).

Definition BIGZEROP (b : RBignum) : bool :=
  match digits b with
  | [] => true
  | [d] => d =? 0
  | _ => false
  end.

(** [while (len--) { num = BIGUP(num) + ds[len]; }] on a [long num]. *)
Definition join_long (ds : list Z) : Z :=
  fold_right (fun d num => s32 (u32 (BIGUP num + d))) 0 ds.

(** The same loop on a [BDIGIT_DBL num]. *)
Definition join_dbl (ds : list Z) : Z :=
  fold_right (fun d num => u32 (BIGUP num + d)) 0 ds.

Definition bignorm (x : VALUE) : VALUE :=
  match x with
  | Big b =>
      let ds := strip (digits b) in
      let x' := Big (mkBig (sign b) ds) in
      if Z.of_nat (length ds) * SIZEOF_BDIGITS <=? 4 then
        let num := join_long ds in
        if 0 <=? num then
          if sign b then
            if POSFIXABLE num then Fix num else x'
          else if NEGFIXABLE (- num) then Fix (- num) else x'
        else x'
      else x'
  | _ => x
  end.

Definition rb_uint2big (n : Z) : RBignum :=
  let d0 := BIGLO n in
  let d1 := BIGLO (BIGDN n) in
  mkBig true (if d1 =? 0 then [d0] else [d0; d1]).

Definition rb_int2big (n : Z) : RBignum :=
  if n <? 0 then set_sign false (rb_uint2big (u32 (s32 (- n))))
  else rb_uint2big (u32 n).

Definition rb_uint2inum (n : Z) : VALUE :=
  if POSFIXABLE n then Fix n else Big (rb_uint2big n).

Definition rb_int2inum (n : Z) : VALUE :=
  if FIXABLE n then Fix n else Big (rb_int2big n).

(** The switch on [TYPE(y)] that opens the binary operators. *)
Definition int_operand (y : VALUE) : outcome RBignum :=
  match y with
  | Fix n => Ok (rb_int2big n)
  | Big b => Ok b
  | Obj _ => Delegate
  end.

Definition big2ulong (x : RBignum) : outcome Z :=
  if 4 / SIZEOF_BDIGITS <? len x then Raise RangeError
  else Ok (join_dbl (digits x)).

Definition rb_big2ulong_pack (x : RBignum) : outcome Z :=
  num <- big2ulong x ;;
  Ok (if sign x then num else u32 (- num)).

Definition rb_big2ulong (x : RBignum) : outcome Z :=
  num <- big2ulong x ;;
  if sign x then Ok num
  else if s32 num <? 0 then Raise RangeError
  else Ok (u32 (- num)).

Definition rb_big2long (x : RBignum) : outcome Z :=
  num <- big2ulong x ;;
  if (s32 num <? 0) && (sign x || negb (s32 num =? LONG_MIN)) then Raise RangeError
  else Ok (if sign x then s32 num else s32 (- s32 num)).

(** numeric.c [rb_num2long] on integers. *)
Definition NUM2LONG (v : VALUE) : outcome Z :=
  match v with
  | Fix n => Ok n
  | Big b => rb_big2long b
  | Obj _ => Delegate
  end.

(** ** Mathematical value and well-formedness *)

Definition big_val (b : RBignum) : Z := if sign b then eval (digits b) else - eval (digits b).

Definition value (v : VALUE) : Z :=
  match v with
  | Fix n => n
  | Big b => big_val b
  | Obj id => id
  end.

Definition integral (v : VALUE) : Prop :=
  match v with Obj _ => False | _ => True end.

(** What the operators may assume of an operand that is already unboxed. *)
Definition big_ok (b : RBignum) : Prop :=
  Forall digit (digits b) /\ digits b <> [] /\
  (normalized (digits b) \/ digits b = [0]).

(** The invariant of integer values the interpreter hands around: an integer
    is a Fixnum when it fits in 31 bits, and otherwise a Bignum without
    leading zero digits. *)
Definition canonical (v : VALUE) : Prop :=
  match v with
  | Fix n => FIXABLE n = true
  | Big b => Forall digit (digits b) /\ normalized (digits b) /\ FIXABLE (big_val b) = false
  | Obj _ => True
  end.

Lemma join_dbl_eq ds :
  Forall digit ds -> (length ds <= 2)%nat -> join_dbl ds = eval ds.
Proof.
  intros H HL. destruct ds as [|a [|b [|c ds]]]; simpl in HL; try lia; [reflexivity| |];
    repeat match goal with H : Forall _ (_ :: _) |- _ => inversion H; subst; clear H end;
    unfold digit in *; cbn [join_dbl fold_right eval];
    rewrite ?(BIGUP_eq 0) by (unfold BIGRAD; lia);
    unfold BIGRAD in *.
  - rewrite u32_small; lia.
  - rewrite (u32_small (_ + b)) by lia.
    rewrite BIGUP_eq by (unfold BIGRAD; lia). unfold BIGRAD. rewrite u32_small; lia.
Qed.

Lemma join_long_eq ds :
  Forall digit ds -> (length ds <= 2)%nat -> join_long ds = s32 (eval ds).
Proof.
  intros H HL. destruct ds as [|a [|b [|c ds]]]; simpl in HL; try lia; [reflexivity| |];
    repeat match goal with H : Forall _ (_ :: _) |- _ => inversion H; subst; clear H end;
    unfold digit in *; cbn [join_long fold_right eval];
    rewrite ?(BIGUP_eq 0) by (unfold BIGRAD; lia);
    rewrite !s32_u32; unfold BIGRAD in *.
  - f_equal; lia.
  - rewrite (s32_small (_ + b)) by lia.
    rewrite BIGUP_eq by (unfold BIGRAD; lia). unfold BIGRAD. f_equal; lia.
Qed.

(** Normalisation keeps the value and establishes the invariant. *)
Lemma bignorm_spec b :
  Forall digit (digits b) ->
  integral (bignorm (Big b)) /\ canonical (bignorm (Big b)) /\
  value (bignorm (Big b)) = big_val b.
Proof.
  intros H. unfold bignorm.
  pose proof (strip_digits _ H) as Hs. pose proof (strip_normalized (digits b)) as Hn.
  pose proof (eval_strip (digits b)) as He. pose proof (eval_bound _ Hs) as Hb.
  set (ds := strip (digits b)) in *.
  assert (Hbig : FIXABLE (big_val b) = false ->
    integral (Big (mkBig (sign b) ds)) /\ canonical (Big (mkBig (sign b) ds)) /\
    value (Big (mkBig (sign b) ds)) = big_val b).
  { intros HF. unfold canonical, value, big_val, integral in *. simpl. rewrite He. repeat split; auto. }
  assert (HFix : forall z, FIXABLE z = true -> z = big_val b ->
    integral (Fix z) /\ canonical (Fix z) /\ value (Fix z) = big_val b).
  { intros; repeat split; auto. }
  destruct (Z.of_nat (length ds) * SIZEOF_BDIGITS <=? 4) eqn:EL; unfold SIZEOF_BDIGITS in EL; breflect.
  - rewrite join_long_eq by (auto; lia).
    assert (HB : eval ds < 4294967296).
    { pose proof (radix_mono (length ds) 2 ltac:(lia)). change (radix 2) with 4294967296 in *. lia. }
    destruct (Z.ltb_spec (eval ds) 2147483648).
    + rewrite s32_small by lia. replace (0 <=? eval ds) with true by (symmetry; apply Z.leb_le; lia).
      destruct (sign b) eqn:Es; unfold POSFIXABLE, NEGFIXABLE; rewrite ?FIXNUM_MAX_eq, ?FIXNUM_MIN_eq;
        unfold big_val in *; rewrite Es in *; case_if;
        try (apply HFix; [apply FIXABLE_iff|]; lia);
        apply Hbig; apply not_true_is_false; rewrite FIXABLE_iff; lia.
    + replace (0 <=? s32 (eval ds)) with false.
      2:{ symmetry; apply Z.leb_gt. unfold s32.
          replace (eval ds + 2147483648) with (eval ds - 2147483648 + 1 * 4294967296) by lia.
          rewrite Z.mod_add, Z.mod_small; lia. }
      apply Hbig. apply not_true_is_false. rewrite FIXABLE_iff.
      unfold big_val. rewrite <- He. destruct (sign b); lia.
  - apply Hbig. apply not_true_is_false. rewrite FIXABLE_iff. unfold big_val. rewrite <- He.
    pose proof (normalized_lower ds Hs) as HL.
    assert (ds <> []) by (intros ->; simpl in EL; lia).
    specialize (HL ltac:(auto) Hn).
    pose proof (radix_mono 2 (length ds - 1) ltac:(lia)). change (radix 2) with 4294967296 in *.
    destruct (sign b); lia.
Qed.

(** On a value that satisfies the invariant normalisation does nothing, so
    the in-place update of [len] in [bignorm] is never seen through an alias. *)
Lemma bignorm_canonical v : canonical v -> bignorm v = v.
Proof.
  destruct v as [n|b|o]; auto. intros (Hd & Hn & HF).
  destruct (bignorm_spec b Hd) as (_ & HC & HV).
  unfold bignorm in *. rewrite (strip_id _ Hn) in *.
  assert (HX : forall z, value (Fix z) = big_val b -> canonical (Fix z) -> Fix z = Big b).
  { simpl; intros z -> HC'. congruence. }
  assert (HB : Big (mkBig (sign b) (digits b)) = Big b) by (now destruct b).
  repeat case_if; auto.
Qed.

Lemma uint2big_spec n :
  0 <= n < 4294967296 ->
  big_ok (rb_uint2big n) /\ eval (digits (rb_uint2big n)) = n /\ sign (rb_uint2big n) = true.
Proof.
  intros Hn. unfold rb_uint2big.
  pose proof (BIGLO_BIGDN n) as H1.
  assert (H2 : BIGLO (BIGDN n) = BIGDN n).
  { apply BIGLO_small. pose proof (BIGDN_bound n 0 65535). unfold digit, BIGRAD in *; lia. }
  assert (H3 : digit (BIGLO n)) by auto with digits.
  assert (H4 : digit (BIGLO (BIGDN n))) by auto with digits.
  rewrite H2 in *. unfold big_ok. destruct (BIGDN n =? 0) eqn:E; breflect; simpl.
  - repeat split; auto; try discriminate; try lia.
    destruct (Z.eq_dec (BIGLO n) 0) as [->|]; [now right|left; unfold normalized; simpl; auto].
  - repeat split; auto; try discriminate; try lia.
Qed.

Lemma int2big_spec n :
  LONG_MIN <= n <= LONG_MAX ->
  big_ok (rb_int2big n) /\ big_val (rb_int2big n) = n.
Proof.
  unfold LONG_MIN, LONG_MAX; intros Hn. unfold rb_int2big. destruct (n <? 0) eqn:E; breflect.
  - rewrite u32_s32, u32_small by lia.
    destruct (uint2big_spec (- n) ltac:(lia)) as (HO & HE & HS).
    unfold big_ok, big_val, set_sign in *; cbn [digits sign] in *. rewrite HE. split; [tauto|lia].
  - rewrite u32_small by lia.
    destruct (uint2big_spec n ltac:(lia)) as (HO & HE & HS).
    unfold big_val. rewrite HS, HE. auto.
Qed.

Lemma int2big_sign n : sign (rb_int2big n) = (0 <=? n).
Proof.
  unfold rb_int2big. destruct (n <? 0) eqn:E; breflect; simpl; symmetry.
  - apply Z.leb_gt; lia.
  - apply Z.leb_le; lia.
Qed.

Lemma canonical_big_ok b : canonical (Big b) -> big_ok b.
Proof.
  intros (Hd & Hn & HF). repeat split; auto. intros H.
  unfold big_val in HF. rewrite H in HF. destruct (sign b); discriminate.
Qed.

(** [returns r z]: the operator returns the integer [z] in the
    representation the interpreter's invariant asks for. *)
Definition returns (r : outcome VALUE) (z : Z) : Prop :=
  exists v, r = Ok v /\ integral v /\ canonical v /\ value v = z.

Lemma returns_bignorm b z :
  Forall digit (digits b) -> big_val b = z -> returns (Ok (bignorm (Big b))) z.
Proof.
  intros H <-. exists (bignorm (Big b)). split; [reflexivity|now apply bignorm_spec].
Qed.

Lemma returns_Fix n : FIXABLE n = true -> returns (Ok (Fix n)) n.
Proof. intros; exists (Fix n); repeat split; auto. Qed.

Lemma returns_Fix' n m : FIXABLE n = true -> n = m -> returns (Ok (Fix n)) m.
Proof. intros H <-. now apply returns_Fix. Qed.

(** Unboxing an operand keeps its value. *)
Lemma int_operand_spec v :
  integral v -> canonical v ->
  exists b, int_operand v = Ok b /\ big_ok b /\ big_val b = value v.
Proof.
  destruct v as [n|b|o]; simpl; intros HI HC; [| |contradiction].
  - apply FIXABLE_iff in HC. exists (rb_int2big n). split; auto.
    apply int2big_spec. unfold LONG_MIN, LONG_MAX; lia.
  - exists b. repeat split; auto; now apply canonical_big_ok.
Qed.

Lemma big_ok_digits b : big_ok b -> Forall digit (digits b).
Proof. now intros (H & _). Qed.

(** Two canonical integers with the same value are the same [VALUE] as far as
    their sign and digits go. *)
Lemma canonical_unique v w :
  integral v -> integral w -> canonical v -> canonical w -> value v = value w -> v = w.
Proof.
  destruct v as [n|[s ds]|o], w as [m|[s' ds']|o']; simpl; try contradiction; intros _ _ HV HW HE.
  - now f_equal.
  - destruct HW as (_ & _ & HF). congruence.
  - destruct HV as (_ & _ & HF). congruence.
  - destruct HV as (Hd & Hn & HF), HW as (Hd' & Hn' & HF').
    unfold big_val in *; simpl in *.
    pose proof (eval_nonneg _ Hd). pose proof (eval_nonneg _ Hd').
    assert (HF0 : eval ds <> 0) by (intros HZ; rewrite HZ in HF; destruct s; discriminate).
    assert (s = s' /\ eval ds = eval ds') as [-> HE'] by (destruct s, s'; split; (reflexivity || lia)).
    f_equal; f_equal. apply eval_inj; auto.
    destruct (Nat.lt_trichotomy (length ds) (length ds')) as [HL|[HL|HL]]; auto;
      apply eval_length_le in HL; auto; lia.
Qed.

Lemma big2ulong_spec x :
  Forall digit (digits x) ->
  big2ulong x = if 2 <? len x then Raise RangeError else Ok (eval (digits x)).
Proof.
  intros H. unfold big2ulong. change (4 / SIZEOF_BDIGITS) with 2.
  destruct (2 <? len x) eqn:E; auto. breflect. unfold len in E.
  rewrite join_dbl_eq; auto; lia.
Qed.

(** Unboxing to [long] raises exactly outside the range of [long]. *)
Lemma NUM2LONG_ok v :
  integral v -> canonical v ->
  NUM2LONG v = if (LONG_MIN <=? value v) && (value v <=? LONG_MAX) then Ok (value v) else Raise RangeError.
Proof.
  destruct v as [n|b|o]; simpl; intros HI HC; [| |contradiction].
  - apply FIXABLE_iff in HC. unfold LONG_MIN, LONG_MAX.
    replace (-2147483648 <=? n) with true by (symmetry; apply Z.leb_le; lia).
    replace (n <=? 2147483647) with true by (symmetry; apply Z.leb_le; lia). reflexivity.
  - destruct HC as (Hd & Hn & HF). unfold rb_big2long. rewrite big2ulong_spec by auto.
    pose proof (eval_bound _ Hd) as Bb. unfold len, LONG_MIN, LONG_MAX, big_val.
    destruct (2 <? Z.of_nat (length (digits b))) eqn:E; breflect; cbn [bind].
    + assert (HL : 4294967296 <= eval (digits b)).
      { pose proof (normalized_lower _ Hd ltac:(intros HX; rewrite HX in E; simpl in E; lia) Hn).
        pose proof (radix_mono 2 (length (digits b) - 1) ltac:(lia)). change (radix 2) with 4294967296 in *. lia. }
      symmetry. destruct (sign b);
        repeat match goal with |- context [?a <=? ?c] => destruct (Z.leb_spec a c) end; auto; lia.
    + pose proof (radix_mono (length (digits b)) 2 ltac:(lia)). change (radix 2) with 4294967296 in *.
      assert (Hs : s32 (eval (digits b)) = if eval (digits b) <? 2147483648 then eval (digits b) else eval (digits b) - 4294967296).
      { destruct (eval (digits b) <? 2147483648) eqn:E1; breflect; [apply s32_small; lia|].
        unfold s32. replace (eval (digits b) + 2147483648) with (eval (digits b) - 2147483648 + 1 * 4294967296) by lia.
        rewrite Z.mod_add, Z.mod_small; lia. }
      rewrite Hs. set (e := eval (digits b)) in *. clearbody e.
      assert (Hm : s32 (- (-2147483648)) = -2147483648) by reflexivity.
      destruct (e <? 2147483648) eqn:E1; destruct (sign b); cbn [orb]; breflect.
      all: repeat match goal with |- context [?a <? ?c] => destruct (Z.ltb_spec a c) end; try lia.
      all: repeat match goal with |- context [?a <=? ?c] => destruct (Z.leb_spec a c) end; try lia.
      all: repeat match goal with |- context [?a =? ?c] => destruct (Z.eqb_spec a c) end; try lia.
      all: cbn [andb negb]; try reflexivity.
      * f_equal. apply s32_small. lia.
      * f_equal. replace e with 2147483648 by lia. reflexivity.
Qed.

(** An operand whose sign is negative is not a negative zero. *)
Lemma int_operand_neg y b :
  integral y -> canonical y -> int_operand y = Ok b -> sign b = false -> value y < 0.
Proof.
  destruct y as [n|c|o]; simpl; intros HI HC HO HS; [| |contradiction]; injection HO as <-.
  - rewrite int2big_sign in HS. apply Z.leb_gt in HS. lia.
  - destruct HC as (Hd & Hn & HF). pose proof (eval_nonneg _ Hd).
    unfold big_val in *. rewrite HS in *. assert (eval (digits c) <> 0); [|lia].
    intros HZ. rewrite HZ in HF. discriminate.
Qed.

Create HintDb bignum discriminated.
#[export] Hint Resolve canonical_big_ok big_ok_digits returns_bignorm returns_Fix : bignum.

(** Destructs the outcome of unboxing a canonical operand. *)
Ltac unbox y b :=
  let Hb := fresh "Hok_" b in let Ho := fresh "Hop_" b in let Hv := fresh "Hval_" b in
  destruct (int_operand_spec y) as (b & Ho & Hb & Hv); [assumption|assumption|];
  rewrite Ho; cbn [bind].

(** Side conditions on a given Bignum. *)
Ltac concrete :=
  repeat match goal with
  | |- _ /\ _ => split
  | |- True => exact I
  | |- Forall digit _ => repeat (apply Forall_cons; [unfold digit, BIGRAD; lia|]); apply Forall_nil
  | |- digits _ <> [] => discriminate
  | |- normalized _ \/ _ => left
  | |- normalized _ => unfold normalized; cbn; discriminate
  | |- FIXABLE _ = _ => reflexivity
  | |- canonical _ => hnf
  | |- integral _ => exact I
  | |- big_ok _ => hnf
  end.

(** ** Properties *)

(** C3: [bignorm] gives every integer one representation: the result is
    canonical (a Fixnum exactly when the value fits in 31 bits, no leading zero
    digit otherwise), has the value of the digits, and two digit strings are
    normalised to the same [VALUE] exactly when they denote the same
    integer. *)
Theorem bignorm_unique a b :
  Forall digit (digits a) -> Forall digit (digits b) ->
  canonical (bignorm (Big a)) /\ value (bignorm (Big a)) = big_val a /\
  (bignorm (Big a) = bignorm (Big b) <-> big_val a = big_val b).
Proof.
  intros Ha Hb. destruct (bignorm_spec a Ha) as (Ia & Ca & Va), (bignorm_spec b Hb) as (Ib & Cb & Vb).
  splits; [exact Ca|exact Va|]. split; intros E.
  - now rewrite <- Va, <- Vb, E.
  - apply canonical_unique; auto. congruence.
Qed.

Lemma bignorm_unique_witness :
  bignorm (Big (mkBig true [1; 2; 0; 0])) = bignorm (Big (mkBig true [1; 2])) <-> 131073 = 131073.
Proof. refine (proj2 (proj2 (bignorm_unique (mkBig true [1; 2; 0; 0]) (mkBig true [1; 2]) _ _))); concrete. Defined.
