(* ===== verification/BigAdd.v ===== *)
(** * Bignum addition, subtraction, negation and comparison

    [bigsub], [bigadd], [rb_big_plus], [rb_big_minus], [rb_big_uminus],
    [rb_big_abs], [rb_big_cmp], [rb_big_eq], [rb_big_eql], [rb_big_hash] and
    [rb_big_size] of src/ruby/bignum.c. *)

From Stdlib Require Import ZArith Lia List Bool.
From S2P Require Import Prelude CInt Digits Bignum.
Import ListNotations.
Local Open Scope Z_scope.
Local Open Scope outcome_scope.

(** ** Operations *)

(** [while (num && i < len) { num += ds[i]; z[i++] = BIGLO(num); num = BIGDN(num); }]
    followed by [while (i < len) z[i] = ds[i++]]; [wrap] is the width of [num]. *)
Fixpoint carry_loop (wrap : Z -> Z) (ds : list Z) (num : Z) : list Z * Z :=
  match ds with
  | [] => ([], num)
  | d :: ds' =>
      if num =? 0 then (ds, num)
      else
        let n := wrap (num + d) in
        let '(out, c) := carry_loop wrap ds' (BIGDN n) in
        (BIGLO n :: out, c)
  end.

(** The first loop of [bigadd]; [xs] is the shorter operand. *)
Fixpoint add_loop (xs ys : list Z) (num : Z) : list Z * Z :=
  match xs, ys with
  | x :: xs', y :: ys' =>
      let n := u32 (num + (x + y)) in
      let '(out, c) := add_loop xs' ys' (BIGDN n) in
      (BIGLO n :: out, c)
  | _, _ => carry_loop u32 ys num
  end.

(** The first loop of [bigsub]; [ys] is the shorter operand. *)
Fixpoint sub_loop (xs ys : list Z) (num : Z) : list Z * Z :=
  match ys, xs with
  | y :: ys', x :: xs' =>
      let n := s32 (num + (x - y)) in
      let '(out, c) := sub_loop xs' ys' (BIGDN n) in
      (BIGLO n :: out, c)
  | _, _ => carry_loop s32 xs num
  end.

(** The scan from the top digit that looks for the larger of two digit lists
    of the same length; the arguments are reversed lists. *)
Fixpoint scan_top (xs ys : list Z) : comparison :=
  match xs, ys with
  | x :: xs', y :: ys' =>
      if y <? x then Gt else if x <? y then Lt else scan_top xs' ys'
  | _, _ => Eq
  end.

(** Whether [bigsub] swaps its operands. *)
Definition bigsub_swap (x y : RBignum) : bool :=
  if len x <? len y then true
  else if len x =? len y then
    match scan_top (rev (digits x)) (rev (digits y)) with
    | Lt => true
    | _ => false
    end
  else false.

Definition bigsub (x y : RBignum) : RBignum :=
  if bigsub_swap x y
  then mkBig false (fst (sub_loop (digits y) (digits x) 0))
  else mkBig true (fst (sub_loop (digits x) (digits y) 0)).

Definition bigadd (x y : RBignum) (sgn : bool) : RBignum :=
  let sgn := Bool.eqb sgn (sign y) in
  if negb (Bool.eqb (sign x) sgn) then
    if sgn then bigsub y x else bigsub x y
  else
    let '(x', y') := if len y <? len x then (y, x) else (x, y) in
    let '(out, num) := add_loop (digits x') (digits y') 0 in
    mkBig sgn (out ++ [u16 num]).

Definition rb_big_plus (x : RBignum) (y : VALUE) : outcome VALUE :=
  y <- int_operand y ;;
  Ok (bignorm (Big (bigadd x y true))).

Definition rb_big_minus (x : RBignum) (y : VALUE) : outcome VALUE :=
  y <- int_operand y ;;
  Ok (bignorm (Big (bigadd x y false))).

Definition rb_big_uminus (x : RBignum) : VALUE :=
  bignorm (Big (mkBig (negb (sign x)) (digits x))).

Definition rb_big_abs (x : RBignum) : VALUE :=
  if negb (sign x) then Big (set_sign true x) else Big x.

Definition rb_big_cmp (x : RBignum) (y : VALUE) : outcome Z :=
  y <- int_operand y ;;
  Ok (if sign x && negb (sign y) then 1
      else if negb (sign x) && sign y then -1
      else if len x <? len y then (if sign x then -1 else 1)
      else if len y <? len x then (if sign x then 1 else -1)
      else match scan_top (rev (digits x)) (rev (digits y)) with
           | Eq => 0
           | Gt => if sign x then 1 else -1
           | Lt => if sign x then -1 else 1
           end).

(** [MEMCMP] of two digit blocks of the same length. *)
Fixpoint digits_eqb (xs ys : list Z) : bool :=
  match xs, ys with
  | x :: xs', y :: ys' => (x =? y) && digits_eqb xs' ys'
  | _, _ => true
  end.

Definition big_same (x y : RBignum) : bool :=
  if negb (Bool.eqb (sign x) (sign y)) then false
  else if negb (len x =? len y) then false
  else digits_eqb (digits x) (digits y).

Definition rb_big_eq (x : RBignum) (y : VALUE) : outcome bool :=
  y <- int_operand y ;;
  Ok (big_same x y).

Definition rb_big_eql (x : RBignum) (y : VALUE) : bool :=
  match y with
  | Big y => big_same x y
  | _ => false
  end.

Definition rb_big_hash (x : RBignum) : Z :=
  LONG2FIX (fold_left Z.lxor (digits x) 0).

Definition rb_big_size (x : RBignum) : VALUE := Fix (len x * SIZEOF_BDIGITS).

(** ** Loops *)

Lemma carry_loop_u32 ds num :
  Forall digit ds -> digit num ->
  let '(out, c) := carry_loop u32 ds num in
  eval out + radix (length ds) * c = eval ds + num /\
  length out = length ds /\ Forall digit out /\ digit c.
Proof.
  intros H; revert num; induction H as [|d ds Hd Hds IH]; intros num Hn; simpl.
  - rewrite radix_0; digit_fin.
  - destruct (num =? 0) eqn:E; breflect.
    + subst; digit_fin.
    + rewrite u32_small by digit_fin.
      pose proof (BIGDN_bound (num + d) 0 1 ltac:(digit_fin)).
      specialize (IH (BIGDN (num + d)) ltac:(digit_fin)).
      destruct (carry_loop u32 ds (BIGDN (num + d))) as [out c].
      destruct IH as (HE & HL & HF & HC).
      pose proof (BIGLO_BIGDN (num + d)). simpl. rewrite radix_S, HL.
      digit_fin.
Qed.

Lemma add_loop_spec xs ys num :
  Forall digit xs -> Forall digit ys -> (length xs <= length ys)%nat -> digit num ->
  let '(out, c) := add_loop xs ys num in
  eval out + radix (length ys) * c = eval xs + eval ys + num /\
  length out = length ys /\ Forall digit out /\ digit c.
Proof.
  intros Hx; revert ys num; induction Hx as [|x xs Hx Hxs IH]; intros ys num Hy HL Hn.
  - cbn [add_loop]. pose proof (carry_loop_u32 ys num Hy Hn).
    destruct (carry_loop u32 ys num); cbn [eval]; intuition lia.
  - destruct Hy as [|y ys Hy Hys]; [simpl in HL; lia|]. simpl in HL.
    simpl. rewrite u32_small by digit_fin.
    pose proof (BIGDN_bound (num + (x + y)) 0 2 ltac:(digit_fin)).
    specialize (IH ys (BIGDN (num + (x + y))) Hys ltac:(lia) ltac:(digit_fin)).
    destruct (add_loop xs ys (BIGDN (num + (x + y)))) as [out c].
    destruct IH as (HE & HL' & HF & HC).
    pose proof (BIGLO_BIGDN (num + (x + y))). simpl. rewrite radix_S, HL'.
    digit_fin.
Qed.

Lemma carry_loop_s32 ds num :
  Forall digit ds -> -1 <= num <= 0 ->
  let '(out, c) := carry_loop s32 ds num in
  eval out + radix (length ds) * c = eval ds + num /\
  length out = length ds /\ Forall digit out /\ -1 <= c <= 0.
Proof.
  intros H; revert num; induction H as [|d ds Hd Hds IH]; intros num Hn; simpl.
  - rewrite radix_0; digit_fin.
  - destruct (num =? 0) eqn:E; breflect.
    + subst; digit_fin.
    + rewrite s32_small by digit_fin.
      pose proof (BIGDN_bound (num + d) (-1) 0 ltac:(digit_fin)).
      specialize (IH (BIGDN (num + d)) ltac:(lia)).
      destruct (carry_loop s32 ds (BIGDN (num + d))) as [out c].
      destruct IH as (HE & HL & HF & HC).
      pose proof (BIGLO_BIGDN (num + d)). simpl. rewrite radix_S, HL.
      digit_fin.
Qed.

Lemma sub_loop_spec xs ys num :
  Forall digit xs -> Forall digit ys -> (length ys <= length xs)%nat -> -1 <= num <= 0 ->
  let '(out, c) := sub_loop xs ys num in
  eval out + radix (length xs) * c = eval xs - eval ys + num /\
  length out = length xs /\ Forall digit out /\ -1 <= c <= 0.
Proof.
  intros Hx Hy; revert xs num Hx; induction Hy as [|y ys Hy Hys IH]; intros xs num Hx HL Hn.
  - pose proof (carry_loop_s32 xs num Hx Hn).
    replace (sub_loop xs [] num) with (carry_loop s32 xs num) by (now destruct xs).
    destruct (carry_loop s32 xs num); cbn [eval]; intuition lia.
  - destruct Hx as [|x xs Hx Hxs]; [simpl in HL; lia|]. simpl in HL.
    simpl. rewrite s32_small by digit_fin.
    pose proof (BIGDN_bound (num + (x - y)) (-1) 0 ltac:(digit_fin)).
    specialize (IH xs (BIGDN (num + (x - y))) Hxs ltac:(lia) ltac:(lia)).
    destruct (sub_loop xs ys (BIGDN (num + (x - y)))) as [out c].
    destruct IH as (HE & HL' & HF & HC).
    pose proof (BIGLO_BIGDN (num + (x - y))). simpl. rewrite radix_S, HL'.
    digit_fin.
Qed.

(** A subtraction that does not go below zero leaves no borrow. *)
Lemma sub_loop_ge xs ys :
  Forall digit xs -> Forall digit ys -> (length ys <= length xs)%nat -> eval ys <= eval xs ->
  eval (fst (sub_loop xs ys 0)) = eval xs - eval ys /\
  Forall digit (fst (sub_loop xs ys 0)) /\ length (fst (sub_loop xs ys 0)) = length xs.
Proof.
  intros Hx Hy HL Hge. pose proof (sub_loop_spec xs ys 0 Hx Hy HL ltac:(lia)) as H.
  destruct (sub_loop xs ys 0) as [out c]. destruct H as (HE & HL' & HF & HC). simpl.
  pose proof (eval_bound out HF). rewrite HL' in *.
  assert (c = 0) by nia. subst c. repeat split; auto; lia.
Qed.

Lemma scan_top_spec xs ys :
  Forall digit xs -> Forall digit ys -> length xs = length ys ->
  scan_top xs ys = Z.compare (eval (rev xs)) (eval (rev ys)).
Proof.
  intros Hx; revert ys; induction Hx as [|x xs Hx Hxs IH]; intros ys Hy HL.
  - destruct ys; [|discriminate]. symmetry. apply Z.compare_refl.
  - destruct Hy as [|y ys Hy Hys]; [discriminate|]. simpl in HL. injection HL as HL.
    simpl. destruct (y <? x) eqn:E1; breflect; [|destruct (x <? y) eqn:E2; breflect].
    + symmetry. apply Z.compare_gt_iff. apply eval_lt_top; auto using Forall_rev.
      now rewrite !length_rev.
    + symmetry. apply Z.compare_lt_iff. apply eval_lt_top; auto using Forall_rev.
      now rewrite !length_rev.
    + assert (x = y) by lia. subst y. rewrite !eval_snoc, !length_rev, HL, IH by auto.
      destruct (Z.compare_spec (eval (rev xs)) (eval (rev ys)));
        symmetry; [apply Z.compare_eq_iff|apply Z.compare_lt_iff|apply Z.compare_gt_iff]; lia.
Qed.

Lemma scan_top_rev_spec xs ys :
  Forall digit xs -> Forall digit ys -> length xs = length ys ->
  scan_top (rev xs) (rev ys) = Z.compare (eval xs) (eval ys).
Proof.
  intros. rewrite scan_top_spec; auto using Forall_rev; rewrite ?length_rev; auto.
  now rewrite !rev_involutive.
Qed.

(** ** Sums and differences *)

(** The magnitudes are ordered by their lengths where these differ. *)
Definition length_ordered (x y : RBignum) : Prop :=
  (len x < len y -> eval (digits x) <= eval (digits y)) /\
  (len y < len x -> eval (digits y) <= eval (digits x)).

Lemma bigsub_spec x y :
  Forall digit (digits x) -> Forall digit (digits y) -> length_ordered x y ->
  Forall digit (digits (bigsub x y)) /\
  big_val (bigsub x y) = eval (digits x) - eval (digits y).
Proof.
  intros Hx Hy [H1 H2]. unfold bigsub.
  assert (HS : if bigsub_swap x y
    then (length (digits x) <= length (digits y))%nat /\ eval (digits x) <= eval (digits y)
    else (length (digits y) <= length (digits x))%nat /\ eval (digits y) <= eval (digits x)).
  { unfold bigsub_swap. destruct (len x <? len y) eqn:E1; breflect.
    - unfold len in *; split; auto; lia.
    - destruct (len x =? len y) eqn:E2; breflect.
      + unfold len in E2. rewrite scan_top_rev_spec by (auto; lia).
        destruct (Z.compare_spec (eval (digits x)) (eval (digits y))); split; lia.
      + unfold len in *; split; [lia|]. apply H2; lia. }
  destruct (bigsub_swap x y); destruct HS as [HL HE];
    (edestruct sub_loop_ge as (He & Hd & _); [| |exact HL|exact HE|]; auto);
    unfold big_val; simpl; rewrite He; split; auto; lia.
Qed.

Lemma big_ok_ordered x y : big_ok x -> big_ok y -> length_ordered x y.
Proof.
  intros (Hx & Nx & Ox) (Hy & Ny & Oy).
  assert (HH : forall a b : list Z, Forall digit a -> Forall digit b -> a <> [] ->
    normalized b \/ b = [0] -> normalized a \/ a = [0] ->
    (length a < length b)%nat -> eval a <= eval b).
  { intros a b Ha Hb Na [Ob| ->] [Oa| ->] HL; try (pose proof (eval_nonneg _ Hb); simpl in *; lia).
    - apply Z.lt_le_incl. now apply eval_length_le.
    - simpl in HL. destruct a; [contradiction|simpl in HL; lia]. }
  unfold length_ordered, len; split; intros HL; apply HH; auto; lia.
Qed.

Lemma bigadd_spec x y s :
  Forall digit (digits x) -> Forall digit (digits y) ->
  (sign x = Bool.eqb s (sign y) \/ length_ordered x y) ->
  Forall digit (digits (bigadd x y s)) /\
  big_val (bigadd x y s) = if s then big_val x + big_val y else big_val x - big_val y.
Proof.
  intros Hx Hy HO. unfold bigadd.
  destruct (Bool.eqb (sign x) (Bool.eqb s (sign y))) eqn:E; simpl negb; cbv iota.
  - apply eqb_prop in E.
    set (p := if len y <? len x then (y, x) else (x, y)).
    assert (HP : (length (digits (fst p)) <= length (digits (snd p)))%nat /\
      eval (digits (fst p)) + eval (digits (snd p)) = eval (digits x) + eval (digits y) /\
      Forall digit (digits (fst p)) /\ Forall digit (digits (snd p))).
    { unfold p; destruct (len y <? len x) eqn:El; breflect; unfold len in El; simpl; repeat split; auto; lia. }
    destruct p as [x' y']; simpl in HP. destruct HP as (HL & HE & Hx' & Hy').
    pose proof (add_loop_spec _ _ 0 Hx' Hy' HL digit_0) as HA.
    destruct (add_loop (digits x') (digits y') 0) as [out num]. destruct HA as (Ha & Hl & Hd & Hc).
    rewrite u16_small by exact Hc. unfold big_val; cbn [digits sign]. rewrite eval_snoc, Hl. split.
    + apply Forall_app; auto.
    + destruct s, (sign x), (sign y); simpl in *; try discriminate; lia.
  - assert (HO' : length_ordered x y).
    { destruct HO as [HO|]; auto. rewrite HO, eqb_reflx in E. discriminate. }
    assert (HO'' : length_ordered y x) by (destruct HO'; split; auto).
    destruct (bigsub_spec x y Hx Hy HO') as (Hd1 & Hv1).
    destruct (bigsub_spec y x Hy Hx HO'') as (Hd2 & Hv2).
    destruct s, (sign x) eqn:Ex, (sign y) eqn:Ey; simpl in *; try discriminate; split; auto;
      rewrite ?Hv1, ?Hv2; unfold big_val; rewrite Ex, Ey; lia.
Qed.

Lemma rb_big_plus_ok x y :
  big_ok x -> integral y -> canonical y -> returns (rb_big_plus x y) (big_val x + value y).
Proof.
  intros Hx HI HC. unfold rb_big_plus. unbox y b.
  destruct (bigadd_spec x b true) as (Hd & Hv); auto using big_ok_ordered with bignum.
  apply returns_bignorm; auto. lia.
Qed.

Lemma rb_big_minus_ok x y :
  big_ok x -> integral y -> canonical y -> returns (rb_big_minus x y) (big_val x - value y).
Proof.
  intros Hx HI HC. unfold rb_big_minus. unbox y b.
  destruct (bigadd_spec x b false) as (Hd & Hv); auto using big_ok_ordered with bignum.
  apply returns_bignorm; auto. lia.
Qed.

(** ** Comparison *)

Lemma canonical_nonzero x : canonical (Big x) -> 0 < eval (digits x).
Proof.
  intros (Hd & Hn & HF). pose proof (eval_nonneg _ Hd).
  assert (eval (digits x) <> 0); [|lia].
  intros HZ. unfold big_val in HF. rewrite HZ in HF. destruct (sign x); discriminate.
Qed.

Lemma int_operand_sign y b :
  integral y -> canonical y -> int_operand y = Ok b -> sign b = (0 <=? value y).
Proof.
  destruct y as [n|c|o]; simpl; intros HI HC HO; [| |contradiction]; injection HO as <-.
  - apply int2big_sign.
  - pose proof (canonical_nonzero _ HC). unfold big_val. destruct (sign c); symmetry;
      [apply Z.leb_le|apply Z.leb_gt]; lia.
Qed.

Definition cmp_int (a b : Z) : Z :=
  match a ?= b with Lt => -1 | Eq => 0 | Gt => 1 end.

(** Also for a receiver that is not canonical, as [rb_big_coerce] makes them. *)
Lemma rb_big_cmp_signed x y :
  big_ok x -> sign x = (0 <=? big_val x) -> integral y -> canonical y ->
  rb_big_cmp x y = Ok (cmp_int (big_val x) (value y)).
Proof.
  intros Ox Sx HI HC. unfold rb_big_cmp. unbox y b. f_equal.
  pose proof (int_operand_sign y b HI HC Hop_b) as HS. rewrite <- Hval_b in *. clear Hop_b Hval_b.
  pose proof (big_ok_digits _ Ox) as Dx. pose proof (big_ok_digits _ Hok_b) as Db.
  pose proof (eval_nonneg _ Db). pose proof (eval_nonneg _ Dx).
  assert (H1 : forall u v, big_ok u -> big_ok v -> len u < len v -> eval (digits u) < eval (digits v)).
  { clear. unfold len. intros u v (Du & Nu & Hu) (Dv & _ & Hv) HL. destruct Hv as [Hv|Hv].
    - destruct Hu as [Hu|Hu]; [apply eval_length_le; auto; lia|]. rewrite Hu in *.
      change (eval [0]) with (eval []). apply eval_length_le; auto; [discriminate|simpl in *; lia].
    - rewrite Hv in *. destruct (digits u); [contradiction|simpl in *; lia]. }
  pose proof (H1 x b Ox Hok_b) as Hlt. pose proof (H1 b x Hok_b Ox) as Hgt. clear H1.
  unfold cmp_int, big_val in *.
  destruct (sign x) eqn:Ex, (sign b) eqn:Eb; simpl; symmetry in HS, Sx;
    rewrite ?Z.leb_le, ?Z.leb_gt in HS, Sx;
    try (symmetry; first
      [ rewrite (proj2 (Z.compare_gt_iff _ _)) by lia; reflexivity
      | rewrite (proj2 (Z.compare_lt_iff _ _)) by lia; reflexivity ]).
  all: destruct (len x <? len b) eqn:E1; breflect;
    [ specialize (Hlt E1) | destruct (len b <? len x) eqn:E2; breflect; [specialize (Hgt E2)|] ].
  all: try rewrite scan_top_rev_spec by (auto; unfold len in *; lia).
  all: repeat match goal with |- context [?a ?= ?b] => destruct (Z.compare_spec a b) end; lia.
Qed.

Lemma rb_big_cmp_ok x y :
  canonical (Big x) -> integral y -> canonical y ->
  rb_big_cmp x y = Ok (cmp_int (big_val x) (value y)).
Proof.
  intros Hx. apply rb_big_cmp_signed; [now apply canonical_big_ok|].
  now apply (int_operand_sign (Big x) x I Hx).
Qed.

Lemma digits_eqb_spec xs ys : length xs = length ys -> digits_eqb xs ys = true <-> xs = ys.
Proof.
  revert ys; induction xs as [|x xs IH]; intros [|y ys] HL; simpl; try discriminate.
  - tauto.
  - rewrite andb_true_iff, Z.eqb_eq, IH by (simpl in HL; lia).
    split; [intros [-> ->]; auto|intros H; injection H; auto].
Qed.

Lemma big_same_spec x y : big_same x y = true <-> x = y.
Proof.
  unfold big_same, len. destruct x as [s xs], y as [t ys]; simpl.
  destruct (eqb s t) eqn:E1; simpl; [apply eqb_prop in E1; subst t|].
  - destruct (Z.of_nat (length xs) =? Z.of_nat (length ys)) eqn:E2; breflect; simpl.
    + rewrite digits_eqb_spec by lia. split; [intros ->; auto|intros H; injection H; auto].
    + split; [discriminate|]. intros H; injection H as ->. lia.
  - split; [discriminate|]. intros H; injection H as -> _. rewrite eqb_reflx in E1. discriminate.
Qed.

Lemma rb_big_eq_ok x y :
  canonical (Big x) -> integral y -> canonical y ->
  rb_big_eq x y = Ok (big_val x =? value y).
Proof.
  intros Hx HI HC. unfold rb_big_eq. destruct y as [n|b|o]; simpl; [| |contradiction]; f_equal;
    apply eq_true_iff_eq; rewrite big_same_spec, Z.eqb_eq.
  - simpl in HC. destruct (int2big_spec n) as (_ & HV).
    { apply FIXABLE_iff in HC. unfold LONG_MIN, LONG_MAX; lia. }
    destruct Hx as (_ & _ & HF). split; [intros -> | intros HE]; [|congruence].
    rewrite HV in HF. congruence.
  - split; [congruence|]. intros HE.
    assert (Big x = Big b) as HB by (apply canonical_unique; simpl; auto). now injection HB.
Qed.

Lemma rb_big_uminus_ok x :
  big_ok x -> returns (Ok (rb_big_uminus x)) (- big_val x).
Proof.
  intros Hx. apply returns_bignorm; [simpl; auto with bignum|].
  unfold big_val; simpl. destruct (sign x); simpl; lia.
Qed.

(** ** Properties *)

(** [rb_big_plus] and [rb_big_minus] compute the exact sum and difference
    of a Bignum and any integer, normalised. *)
Theorem big_plus_minus x y :
  big_ok x -> integral y -> canonical y ->
  returns (rb_big_plus x y) (big_val x + value y) /\ returns (rb_big_minus x y) (big_val x - value y).
Proof. intros Hx Iy Cy. split; [now apply rb_big_plus_ok|now apply rb_big_minus_ok]. Qed.

Lemma big_plus_minus_witness :
  returns (rb_big_plus (mkBig true [0; 0; 1]) (Fix (-1))) 4294967295 /\
  returns (rb_big_minus (mkBig true [0; 0; 1]) (Fix (-1))) 4294967297.
Proof. apply (big_plus_minus (mkBig true [0; 0; 1]) (Fix (-1))); concrete. Defined.

(** [rb_big_cmp] is the order of the integers and [rb_big_eq] their
    equality; on Bignums [rb_big_eql] says the same, and equal Bignums have the
    same [rb_big_hash]. *)
Theorem big_cmp_eq x y :
  canonical (Big x) -> integral y -> canonical y ->
  rb_big_cmp x y = Ok (cmp_int (big_val x) (value y)) /\
  rb_big_eq x y = Ok (big_val x =? value y) /\
  (forall b, y = Big b -> rb_big_eql x y = (big_val x =? value y) /\
    (rb_big_eql x y = true -> rb_big_hash x = rb_big_hash b)).
Proof.
  intros Cx Iy Cy. splits; [now apply rb_big_cmp_ok|now apply rb_big_eq_ok|].
  intros b ->. unfold rb_big_eql. cbn [value].
  assert (E : big_same x b = (big_val x =? big_val b)).
  { apply eq_true_iff_eq. rewrite big_same_spec, Z.eqb_eq. split; [congruence|]. intros E.
    assert (EV : Big x = Big b) by (apply canonical_unique; cbn; auto). congruence. }
  split; [exact E|]. intros H. apply big_same_spec in H. congruence.
Qed.

Lemma big_cmp_eq_witness :
  rb_big_cmp (mkBig true [0; 0; 1]) (Big (mkBig false [0; 0; 1])) = Ok 1.
Proof. refine (proj1 (big_cmp_eq (mkBig true [0; 0; 1]) (Big (mkBig false [0; 0; 1])) _ _ _)); concrete. Defined.
