(* ===== verification/BigMul.v ===== *)
(** * Bignum multiplication and powers

    [rb_big_mul] and the integer branch of [rb_big_pow] of src/ruby/bignum.c. *)

From Stdlib Require Import ZArith Lia List Bool.
From S2P Require Import Prelude CInt Digits Bignum.
Import ListNotations.
Local Open Scope Z_scope.
Local Open Scope outcome_scope.

(** ** Operations *)

(** One pass of the inner loop of [rb_big_mul]: adds [dd * ys] to [zs], the
    digits of [z] from position [i] on, and stores the last carry behind them
    ([if (n) zds[i + j] = n]). *)
Fixpoint mul_inner (dd n : Z) (zs ys : list Z) : list Z :=
  match zs, ys with
  | z :: zs', y :: ys' =>
      let ee := u32 (n + u32 (dd * y)) in
      let n := u32 (z + ee) in
      (if ee =? 0 then z else BIGLO n) :: mul_inner dd (BIGDN n) zs' ys'
  | z :: zs', [] => (if n =? 0 then z else u16 n) :: zs'
  | [], _ => []
  end.

(** The outer loop; the digits of [z] below position [i] are final. *)
Fixpoint mul_outer (xs ys zs : list Z) : list Z :=
  match xs with
  | [] => zs
  | dd :: xs' =>
      match (if dd =? 0 then zs else mul_inner dd 0 zs ys) with
      | z :: zs' => z :: mul_outer xs' ys zs'
      | [] => []
      end
  end.

Definition bigmul (x y : RBignum) : RBignum :=
  mkBig (Bool.eqb (sign x) (sign y))
    (mul_outer (digits x) (digits y)
       (repeat 0 (length (digits x) + length (digits y) + 1))).

Definition rb_big_mul (x y : VALUE) : outcome VALUE :=
  x <- int_operand x ;;
  y <- int_operand y ;;
  Ok (bignorm (Big (bigmul x y))).

(** [while (yy % 2 == 0) { yy /= 2; x = rb_big_mul(x, x); }] *)
Fixpoint pow_square (fuel : nat) (yy : Z) (x : VALUE) : outcome (Z * VALUE) :=
  match fuel with
  | O => Undefined
  | S fuel =>
      if cmod yy 2 =? 0 then
        x <- rb_big_mul x x ;;
        pow_square fuel (cdiv yy 2) x
      else Ok (yy, x)
  end.

(** [for (;;) { yy -= 1; if (yy == 0) break; ...; z = rb_big_mul(z, x); }] *)
Fixpoint pow_loop (fuel : nat) (yy : Z) (z x : VALUE) : outcome VALUE :=
  match fuel with
  | O => Undefined
  | S fuel =>
      let yy := yy - 1 in
      if yy =? 0 then Ok z
      else
        '(yy, x) <- pow_square 32 yy x ;;
        z <- rb_big_mul z x ;;
        pow_loop fuel yy z x
  end.

(** A positive Fixnum exponent is below [2 ^ 30]; 32 rounds are enough. *)
Definition rb_big_pow (x : RBignum) (y : VALUE) : outcome VALUE :=
  match y with
  | Fix yy =>
      if yy =? 0 then Ok (Fix 1)
      else if 0 <? yy then
        z <- pow_loop 32 yy (Big x) (Big x) ;;
        Ok (bignorm z)
      else Delegate
  | _ => Delegate
  end.

(** ** Products *)

Lemma mul_inner_spec dd n a c rest ys :
  digit dd -> 0 <= n < BIGRAD -> c = 0 -> Forall digit a -> Forall digit ys ->
  length a = length ys ->
  exists a' c', mul_inner dd n (a ++ c :: rest) ys = a' ++ c' :: rest /\
    eval a' + radix (length a) * c' = eval a + n + dd * eval ys /\
    Forall digit a' /\ digit c' /\ length a' = length a.
Proof.
  intros Hdd Hn -> Ha; revert n Hn ys; induction Ha as [|z a Hz Ha IH]; intros n Hn ys Hy HL.
  - destruct ys; [|discriminate]. exists [], n. simpl.
    destruct (n =? 0) eqn:E; breflect; [subst|rewrite u16_small by digit_fin];
      rewrite radix_0; repeat split; auto; lia.
  - destruct Hy as [|y ys Hy Hys]; [discriminate|]. simpl in HL. injection HL as HL.
    assert (HB : 0 <= dd * y <= 65535 * 65535) by (unfold digit, BIGRAD in *; nia).
    cbn [mul_inner app]. unfold BIGRAD in Hn.
    rewrite (u32_small (dd * y)), (u32_small (n + dd * y)) by lia.
    rewrite (u32_small (z + (n + dd * y))) by digit_fin.
    set (m := z + (n + dd * y)).
    pose proof (BIGDN_bound m 0 65535 ltac:(unfold m; digit_fin)) as HD.
    destruct (IH (BIGDN m) ltac:(digit_fin) ys Hys HL) as (a' & c' & HE & HV & HFa & HFc & HLa).
    rewrite HE. exists (BIGLO m :: a'), c'.
    assert (HX : (if n + dd * y =? 0 then z else BIGLO m) = BIGLO m).
    { destruct (n + dd * y =? 0) eqn:E; breflect; auto.
      symmetry. unfold m. rewrite E, Z.add_0_r. now apply BIGLO_small. }
    rewrite HX. cbn [app length eval]. rewrite radix_S.
    pose proof (BIGLO_BIGDN m). unfold m in *.
    splits; [reflexivity| |digit_fin|exact HFc|now f_equal].
    unfold BIGRAD in *. nia.
Qed.

Lemma mul_outer_spec xs ys a :
  Forall digit xs -> Forall digit ys -> Forall digit a -> length a = length ys ->
  let zs := mul_outer xs ys (a ++ repeat 0 (length xs + 1)) in
  eval zs = eval a + eval xs * eval ys /\ Forall digit zs.
Proof.
  intros Hx Hy; revert a; induction Hx as [|dd xs Hdd Hxs IH]; intros a Ha HL.
  - cbn [mul_outer length eval Nat.add]. rewrite eval_app, eval_repeat_0.
    split; [lia|]. apply Forall_app; split; digit_fin.
  - cbn [mul_outer length Nat.add]. set (k := (length xs + 1)%nat) in *.
    change (repeat 0 (S k)) with (0 :: repeat 0 k).
    assert (HS : exists a' c', (if dd =? 0 then a ++ 0 :: repeat 0 k
        else mul_inner dd 0 (a ++ 0 :: repeat 0 k) ys) = a' ++ c' :: repeat 0 k /\
        eval a' + radix (length a) * c' = eval a + dd * eval ys /\
        Forall digit a' /\ digit c' /\ length a' = length a).
    { destruct (dd =? 0) eqn:E; breflect.
      - subst. exists a, 0. repeat split; auto; digit_fin.
      - destruct (mul_inner_spec dd 0 a 0 (repeat 0 k) ys) as (a' & c' & HE & HV & HR);
          auto; [digit_fin|]. exists a', c'. split; [exact HE|split; [lia|exact HR]]. }
    destruct HS as (a' & c' & HE & HV & Ha' & Hc' & HL'). rewrite HE.
    destruct (a' ++ [c']) as [|z t] eqn:Et; [destruct a'; discriminate|].
    assert (Hall : a' ++ c' :: repeat 0 k = z :: t ++ repeat 0 k).
    { change (c' :: repeat 0 k) with ([c'] ++ repeat 0 k). now rewrite app_assoc, Et. }
    rewrite Hall. simpl.
    assert (Hzt : Forall digit (z :: t)).
    { rewrite <- Et. apply Forall_app; split; digit_fin. }
    inversion Hzt as [|? ? Hz Ht]; subst.
    assert (Lt : length t = length ys).
    { apply (f_equal (@length Z)) in Et. rewrite length_app in Et. simpl in Et. lia. }
    destruct (IH t Ht Lt) as [HEv HFv]. split; [|digit_fin].
    rewrite HEv. apply (f_equal eval) in Et. rewrite eval_snoc, HL' in Et. cbn [eval] in Et. lia.
Qed.

Lemma bigmul_spec x y :
  Forall digit (digits x) -> Forall digit (digits y) ->
  Forall digit (digits (bigmul x y)) /\ big_val (bigmul x y) = big_val x * big_val y.
Proof.
  intros Hx Hy. unfold bigmul.
  replace (length (digits x) + length (digits y) + 1)%nat
    with (length (digits y) + (length (digits x) + 1))%nat by lia.
  rewrite repeat_app.
  destruct (mul_outer_spec (digits x) (digits y) (repeat 0 (length (digits y)))) as [HE HF];
    auto; [digit_fin|now rewrite repeat_length|].
  split; [exact HF|]. unfold big_val; cbn [digits sign]. rewrite HE, eval_repeat_0.
  destruct (sign x), (sign y); simpl; lia.
Qed.

Lemma rb_big_mul_ok x y :
  integral x -> canonical x -> integral y -> canonical y ->
  returns (rb_big_mul x y) (value x * value y).
Proof.
  intros HIx HCx HIy HCy. unfold rb_big_mul. unbox x a. unbox y b.
  destruct (bigmul_spec a b) as [Hd Hv]; auto with bignum.
  apply returns_bignorm; auto. congruence.
Qed.

(** [fix_mul] hands [rb_int2big(a)] over, which need not be canonical. *)
Lemma rb_big_mul_big_ok x y :
  big_ok x -> big_ok y -> returns (rb_big_mul (Big x) (Big y)) (big_val x * big_val y).
Proof.
  intros Hx Hy. destruct (bigmul_spec x y) as [Hd Hv]; auto with bignum.
  now apply returns_bignorm.
Qed.

(** ** Powers *)

(** What the loop of [rb_big_pow] may assume of [x] and [z]: they unbox. *)
Definition unboxes (v : VALUE) : Prop :=
  exists b, int_operand v = Ok b /\ big_ok b /\ big_val b = value v.

Lemma canonical_unboxes v : integral v -> canonical v -> unboxes v.
Proof. intros; now apply int_operand_spec. Qed.

Lemma big_unboxes b : big_ok b -> unboxes (Big b).
Proof. intros; exists b; auto. Qed.

Lemma rb_big_mul_unboxes x y :
  unboxes x -> unboxes y ->
  exists v, rb_big_mul x y = Ok v /\ integral v /\ canonical v /\ unboxes v /\
    value v = value x * value y.
Proof.
  intros (a & Ha & Oa & Va) (b & Hb & Ob & Vb). unfold rb_big_mul. rewrite Ha, Hb. cbn [bind].
  destruct (bigmul_spec a b) as [Hd Hv]; auto with bignum.
  destruct (returns_bignorm _ _ Hd Hv) as (v & Hr & HI & HC & HV).
  exists v. repeat split; auto using canonical_unboxes. congruence.
Qed.

Lemma pow_square_spec fuel yy x :
  unboxes x -> 0 < yy < 2 ^ Z.of_nat fuel ->
  exists k x', pow_square fuel yy x = Ok (k, x') /\ unboxes x' /\
    Z.odd k = true /\ 0 < k <= yy /\ (Z.odd yy = false -> 2 * k <= yy) /\
    value x' ^ k = value x ^ yy.
Proof.
  revert yy x; induction fuel as [|fuel IH]; intros yy x Hx Hy; [simpl in Hy; lia|].
  cbn [pow_square]. unfold cmod, cdiv. rewrite Z.rem_mod_nonneg by lia.
  rewrite Zmod_odd. destruct (Z.odd yy) eqn:Eo; cbn [Z.eqb].
  - exists yy, x. repeat split; auto; lia.
  - destruct (rb_big_mul_unboxes x x Hx Hx) as (v & Hr & _ & _ & Hu & Hv). rewrite Hr. cbn [bind].
    rewrite Nat2Z.inj_succ, Z.pow_succ_r in Hy by lia.
    rewrite Z.quot_div_nonneg by lia.
    assert (Hh : yy = 2 * (yy / 2)).
    { pose proof (Z.div_mod yy 2). rewrite Zmod_odd, Eo in *. lia. }
    destruct (IH (yy / 2) v Hu) as (k & x' & HE & Hu' & Ho & Hk & _ & HV); [lia|].
    exists k, x'. repeat split; auto; try lia.
    rewrite HV, Hv. rewrite Hh at 2. rewrite Z.pow_mul_r by lia. f_equal. lia.
Qed.

Lemma pow_loop_spec fuel yy z x :
  unboxes z -> unboxes x -> 0 < yy < 2 ^ Z.of_nat fuel -> yy <= FIXNUM_MAX ->
  (Z.odd yy = true \/ 2 * yy < 2 ^ Z.of_nat fuel) ->
  exists v, pow_loop fuel yy z x = Ok v /\ unboxes v /\
    (v = z \/ canonical v /\ integral v) /\
    value v = value z * value x ^ (yy - 1).
Proof.
  rewrite FIXNUM_MAX_eq.
  revert yy z x; induction fuel as [|fuel IH]; intros yy z x Hz Hx Hy HM Ho; [simpl in Hy; lia|].
  cbn [pow_loop]. destruct (yy - 1 =? 0) eqn:E; breflect.
  - exists z. rewrite E, Z.pow_0_r. repeat split; auto; lia.
  - destruct (pow_square_spec 32 (yy - 1) x Hx) as (k & x' & HE & Hu & Hok & Hk & Hhalf & HV).
    { change (2 ^ Z.of_nat 32) with 4294967296. lia. }
    rewrite HE. cbn [bind].
    destruct (rb_big_mul_unboxes z x' Hz Hu) as (w & Hr & HI & HC & Hw & Hv). rewrite Hr. cbn [bind].
    rewrite Nat2Z.inj_succ, Z.pow_succ_r in * by lia.
    assert (Hlt : k < 2 ^ Z.of_nat fuel).
    { destruct Ho as [Ho|Ho]; [|lia]. assert (2 * k <= yy - 1); [|lia].
      apply Hhalf. rewrite Z.sub_1_r, Z.odd_pred, <- Z.negb_odd, Ho. reflexivity. }
    destruct (IH k w x') as (v & HEv & Huv & HCv & HVv); auto; try lia.
    exists v. split; [exact HEv|]. split; [exact Huv|]. split.
    + right. destruct HCv as [-> | HCv]; tauto.
    + rewrite HVv, Hv. rewrite <- HV.
      replace k with (Z.succ (k - 1)) at 2 by lia. rewrite Z.pow_succ_r by lia. ring.
Qed.

Lemma rb_big_pow_ok x n :
  big_ok x -> FIXABLE n = true -> 0 <= n -> returns (rb_big_pow x (Fix n)) (big_val x ^ n).
Proof.
  intros Hx HF Hn. apply FIXABLE_iff in HF. unfold rb_big_pow.
  destruct (n =? 0) eqn:E; breflect.
  - subst n. now apply returns_Fix.
  - replace (0 <? n) with true by (symmetry; apply Z.ltb_lt; lia).
    destruct (pow_loop_spec 32 n (Big x) (Big x)) as (v & HE & _ & HC & HV); auto using big_unboxes;
      rewrite ?FIXNUM_MAX_eq; change (2 ^ Z.of_nat 32) with 4294967296; try lia.
    rewrite HE. cbn [bind].
    assert (HV' : value v = big_val x ^ n).
    { rewrite HV. cbn [value]. replace n with (Z.succ (n - 1)) at 2 by lia. rewrite Z.pow_succ_r; lia. }
    destruct HC as [-> | [HC HI]].
    + apply returns_bignorm; auto with bignum.
    + rewrite bignorm_canonical by auto. exists v. auto.
Qed.

(** ** Properties *)

(** [rb_big_mul] is exact multiplication, for Fixnum and Bignum operands
    in any combination; the schoolbook loops never lose a carry. *)
Theorem big_mul_exact x y :
  integral x -> canonical x -> integral y -> canonical y ->
  returns (rb_big_mul x y) (value x * value y).
Proof. apply rb_big_mul_ok. Qed.

Lemma big_mul_exact_witness :
  returns (rb_big_mul (Big (mkBig false [65535; 65535; 65535])) (Big (mkBig true [65535; 65535])))
    (-281474976710655 * 4294967295).
Proof.
  apply (big_mul_exact (Big (mkBig false [65535; 65535; 65535])) (Big (mkBig true [65535; 65535]))); concrete.
Defined.

(** [rb_big_pow] by repeated squaring is exponentiation for every Fixnum
    exponent that is not negative, and its loops end. *)
Theorem big_pow_exact x n :
  big_ok x -> FIXABLE n = true -> 0 <= n -> returns (rb_big_pow x (Fix n)) (big_val x ^ n).
Proof. apply rb_big_pow_ok. Qed.

Lemma big_pow_exact_witness : returns (rb_big_pow (mkBig false [0; 0; 3]) (Fix 5)) ((-12884901888) ^ 5).
Proof. apply (big_pow_exact (mkBig false [0; 0; 3]) 5); [concrete|reflexivity|lia]. Defined.
