(* ===== verification/BigDiv.v ===== *)
(** * Bignum division

    [bigdivrem] (Knuth's algorithm D on 16-bit digits), [bigdivmod] and the
    operators built on them: [rb_big_div], [rb_big_modulo],
    [rb_big_remainder], [rb_big_divmod] of src/ruby/bignum.c. *)

From Stdlib Require Import ZArith Lia List Bool.
From S2P Require Import Prelude CInt Digits Bignum BigAdd.
Import ListNotations.
Local Open Scope Z_scope.
Local Open Scope outcome_scope.

(** ** Operations *)

(** The single-digit divisor: [t2 = BIGUP(t2) + zds[i]; zds[i] = t2 / dd;
    t2 %= dd], from the top digit down. *)
Fixpoint div1_loop (dd : Z) (ds : list Z) : list Z * Z :=
  match ds with
  | [] => ([], 0)
  | d :: ds' =>
      let '(out, t2) := div1_loop dd ds' in
      let t2 := u32 (BIGUP t2 + d) in
      (u16 (t2 / dd) :: out, t2 mod dd)
  end.

(** [while ((q & (1<<(BITSPERDIG-1))) == 0) { q <<= 1; dd++; }] *)
Fixpoint norm_shift (fuel : nat) (q dd : Z) : Z :=
  match fuel with
  | O => dd
  | S fuel =>
      if Z.land q 32768 =? 0 then norm_shift fuel (u16 (Z.shiftl q 1)) (dd + 1) else dd
  end.

(** [t2 += (BDIGIT_DBL)ds[j]<<dd; out[j++] = BIGLO(t2); t2 = BIGDN(t2);] *)
Fixpoint shl_loop (dd : Z) (ds : list Z) (t2 : Z) : list Z * Z :=
  match ds with
  | [] => ([], t2)
  | d :: ds' =>
      let t2 := u32 (t2 + u32 (Z.shiftl d dd)) in
      let '(out, c) := shl_loop dd ds' (BIGDN t2) in
      (BIGLO t2 :: out, c)
  end.

(** [t2 = (t2 | zds[i]) >> dd; q = zds[i]; zds[i] = BIGLO(t2); t2 = BIGUP(q);]
    from the top digit down, starting with [t2 = init]. *)
Fixpoint shr_loop (dd init : Z) (ds : list Z) : list Z * Z :=
  match ds with
  | [] => ([], init)
  | d :: ds' =>
      let '(out, t2) := shr_loop dd init ds' in
      (BIGLO (Z.shiftr (Z.lor t2 d) dd) :: out, BIGUP d)
  end.

(** "multiply and subtract" *)
Fixpoint mulsub_loop (q : Z) (zs ys : list Z) (num t2 : Z) : list Z * Z * Z :=
  match zs, ys with
  | z :: zs', y :: ys' =>
      let t2 := u32 (t2 + u32 (y * q)) in
      let ee := u32 (num - BIGLO t2) in
      let num := s32 (u32 (z + ee)) in
      let '(out, num', t2') := mulsub_loop q zs' ys' (BIGDN num) (BIGDN t2) in
      ((if ee =? 0 then z else BIGLO num) :: out, num', t2')
  | _, _ => ([], num, t2)
  end.

(** One pass of "add back". *)
Fixpoint addback (zs ys : list Z) (num : Z) : list Z * Z :=
  match zs, ys with
  | z :: zs', y :: ys' =>
      let ee := u32 (num + y) in
      let num := s32 (u32 (z + ee)) in
      let '(out, num') := addback zs' ys' (BIGDN num) in
      ((if ee =? 0 then z else BIGLO num) :: out, num')
  | _, _ => ([], num)
  end.

(** [while (num) { i = 0; num = 0; q--; ...; num--; }] *)
Fixpoint addback_loop (fuel : nat) (zs ys : list Z) (num q : Z) : outcome (list Z * Z) :=
  if num =? 0 then Ok (zs, q)
  else
    match fuel with
    | O => Undefined
    | S fuel =>
        let '(zs, num) := addback zs ys 0 in
        addback_loop fuel zs ys (num - 1) (u16 (q - 1))
    end.

(** The guess of the quotient digit from the two top digits. *)
Definition qhat (zj zj1 ytop : Z) : Z :=
  if zj =? ytop then BIGRAD - 1 else u16 (u32 (BIGUP zj + zj1) / ytop).

(** One round of the main loop at position [j]; two rounds of "add back" are
    the most there can be. *)
Definition div_step (ys zs : list Z) (j : nat) : outcome (list Z) :=
  let ny := length ys in
  let slice := firstn ny (skipn (j - ny) zs) in
  let zj := nth j zs 0 in
  let q := qhat zj (nth (j - 1) zs 0) (nth (ny - 1) ys 0) in
  '(slice, q) <-
    (if q =? 0 then Ok (slice, q)
     else
       let '(out, num, t2) := mulsub_loop q slice ys 0 0 in
       addback_loop 2 out ys (s32 (u32 (num + u32 (zj - t2)))) q) ;;
  Ok (firstn (j - ny) zs ++ slice ++ [q] ++ skipn (j + 1) zs).

(** [do { ... } while (--j >= ny)], [n] rounds from [j = ny + n - 1]. *)
Fixpoint div_loop (n : nat) (ys zs : list Z) : outcome (list Z) :=
  match n with
  | O => Ok zs
  | S n => zs <- div_step ys zs (length ys + n) ;; div_loop n ys zs
  end.

(** [while (--ny && !zds[ny]); ++ny;] *)
Definition strip1 (ds : list Z) : list Z :=
  match strip ds with
  | [] => firstn 1 ds
  | r => r
  end.

(** The branch of [bigdivrem] for divisors of two digits or more; [yds] has
    lost its leading zeros ([while (!yds[ny-1]) ny--]). *)
Definition divrem_long (x y : RBignum) : outcome (RBignum * RBignum) :=
  let nx := length (digits x) in
  let yds := strip (digits y) in
  let ny := length yds in
  let extra := if (nx =? ny)%nat then [0] else [] in
  let dd := norm_shift 16 (nth (ny - 1) yds 0) 0 in
  let '(yds, zds) :=
    if dd =? 0 then (yds, digits x ++ [0] ++ extra)
    else
      let '(out, t2) := shl_loop dd (digits x) 0 in
      (fst (shl_loop dd yds 0), out ++ [u16 t2] ++ extra) in
  zds <- div_loop (length zds - ny) yds zds ;;
  let md := strip1 (firstn ny zds) in
  Ok (mkBig (Bool.eqb (sign x) (sign y)) (skipn ny zds),
      mkBig (sign x) (if dd =? 0 then md else fst (shr_loop dd 0 md))).

Definition bigdivrem (x y : RBignum) : outcome (RBignum * RBignum) :=
  let nx := length (digits x) in
  let ny := length (digits y) in
  if BIGZEROP y then Raise ZeroDivisionError
  else if (nx <? ny)%nat
       || ((nx =? ny)%nat && (nth (nx - 1) (digits x) 0 <? nth (ny - 1) (digits y) 0))
  then Ok (rb_int2big 0, x)
  else if (ny =? 1)%nat then
    let '(zds, t2) := div1_loop (nth 0 (digits y) 0) (digits x) in
    Ok (mkBig (Bool.eqb (sign x) (sign y)) zds, set_sign (sign x) (rb_uint2big t2))
  else divrem_long x y.

Definition bigdivmod (x y : RBignum) : outcome (RBignum * RBignum) :=
  '(dv, md) <- bigdivrem x y ;;
  if negb (Bool.eqb (sign x) (sign y)) && negb (BIGZEROP md)
  then Ok (bigadd dv (rb_int2big 1) false, bigadd md y true)
  else Ok (dv, md).

Definition rb_big_div (x : RBignum) (y : VALUE) : outcome VALUE :=
  y <- int_operand y ;;
  '(z, _) <- bigdivmod x y ;;
  Ok (bignorm (Big z)).

Definition rb_big_modulo (x : RBignum) (y : VALUE) : outcome VALUE :=
  y <- int_operand y ;;
  '(_, z) <- bigdivmod x y ;;
  Ok (bignorm (Big z)).

Definition rb_big_remainder (x : RBignum) (y : VALUE) : outcome VALUE :=
  y <- int_operand y ;;
  '(_, z) <- bigdivrem x y ;;
  Ok (bignorm (Big z)).

Definition rb_big_divmod (x : RBignum) (y : VALUE) : outcome (VALUE * VALUE) :=
  y <- int_operand y ;;
  '(dv, md) <- bigdivmod x y ;;
  Ok (bignorm (Big dv), bignorm (Big md)).

(** ** Digit loops *)

Lemma div1_loop_spec dd ds :
  digit dd -> 0 < dd -> Forall digit ds ->
  let '(out, r) := div1_loop dd ds in
  eval ds = dd * eval out + r /\ 0 <= r < dd /\ Forall digit out /\ length out = length ds.
Proof.
  intros Hd Hp; induction 1 as [|d ds Hd' Hds IH]; simpl.
  - repeat split; auto; lia.
  - destruct (div1_loop dd ds) as [out r]. destruct IH as (HE & HR & HF & HL).
    unfold digit, BIGRAD in Hd, Hd'.
    rewrite BIGUP_eq by (unfold BIGRAD; lia). unfold BIGRAD. rewrite u32_small by lia.
    set (t := 65536 * r + d).
    assert (Ht : 0 <= t / dd < 65536).
    { split; [apply Z.div_pos; unfold t; lia|]. apply Z.div_lt_upper_bound; unfold t; nia. }
    rewrite u16_small by auto. cbn [eval length].
    pose proof (Z.div_mod t dd). pose proof (Z.mod_pos_bound t dd).
    splits; [unfold BIGRAD; unfold t in *; nia|lia|lia| |congruence].
    constructor; auto.
Qed.

Lemma digit_top_bit d : digit d -> (Z.land d 32768 =? 0) = (d <? 32768).
Proof.
  intros H. change (Z.land d 32768) with (Z.land d (2 ^ 15)). rewrite land_pow2 by lia.
  rewrite Z.testbit_odd, Z.shiftr_div_pow2 by lia. change (2 ^ 15) with 32768.
  unfold digit, BIGRAD in H. destruct (Z.ltb_spec d 32768).
  - rewrite Z.div_small by lia. reflexivity.
  - replace (d / 32768) with 1; [reflexivity|]. apply Z.div_unique with (d - 32768); lia.
Qed.

Lemma norm_shift_spec fuel q dd :
  0 < q < 65536 -> 32768 <= q * 2 ^ Z.of_nat fuel ->
  dd <= norm_shift fuel q dd <= dd + Z.of_nat fuel /\
  32768 <= q * 2 ^ (norm_shift fuel q dd - dd) < 65536.
Proof.
  revert q dd; induction fuel as [|fuel IH]; intros q dd Hq Hf.
  - simpl in *. rewrite Z.sub_diag, Z.pow_0_r. lia.
  - cbn [norm_shift]. rewrite digit_top_bit by digit_fin.
    destruct (q <? 32768) eqn:E; breflect.
    + rewrite Z.shiftl_mul_pow2, Z.pow_1_r, u16_small by lia.
      rewrite Nat2Z.inj_succ, Z.pow_succ_r in Hf by lia.
      destruct (IH (q * 2) (dd + 1)) as [H1 H2]; [lia|lia|].
      set (r := norm_shift fuel (q * 2) (dd + 1)) in *.
      replace (r - dd) with (Z.succ (r - (dd + 1))) by lia.
      rewrite Z.pow_succ_r by lia. split; lia.
    + rewrite Z.sub_diag, Z.pow_0_r. lia.
Qed.

Lemma norm_shift_digit q :
  0 < q < 65536 -> 0 <= norm_shift 16 q 0 <= 15 /\ 32768 <= q * 2 ^ norm_shift 16 q 0 < 65536.
Proof.
  intros Hq. destruct (norm_shift_spec 16 q 0 Hq) as [H1 H2].
  - change (2 ^ Z.of_nat 16) with 65536. lia.
  - rewrite Z.sub_0_r in H2. split; [|exact H2]. split; [lia|].
    destruct (Z.le_gt_cases (norm_shift 16 q 0) 15); auto.
    pose proof (Z.pow_le_mono_r 2 16 (norm_shift 16 q 0)). change (2 ^ 16) with 65536 in *. nia.
Qed.

Lemma shl_loop_spec dd ds t2 :
  0 <= dd <= 15 -> Forall digit ds -> 0 <= t2 < 2 ^ dd ->
  let '(out, c) := shl_loop dd ds t2 in
  eval out + radix (length ds) * c = eval ds * 2 ^ dd + t2 /\
  0 <= c < 2 ^ dd /\ Forall digit out /\ length out = length ds.
Proof.
  intros Hdd H; revert t2; induction H as [|d ds Hd Hds IH]; intros t2 Ht.
  - simpl. rewrite radix_0. repeat split; auto; lia.
  - cbn [shl_loop]. pose proof (Z.pow_le_mono_r 2 dd 15). change (2 ^ 15) with 32768 in *.
    unfold digit, BIGRAD in Hd. rewrite Z.shiftl_mul_pow2 by lia.
    rewrite (u32_small (d * _)), u32_small by nia.
    set (m := t2 + d * 2 ^ dd).
    assert (HD : 0 <= BIGDN m < 2 ^ dd).
    { rewrite BIGDN_eq. unfold BIGRAD, m.
      split; [apply Z.div_pos; nia|apply Z.div_lt_upper_bound; nia]. }
    specialize (IH (BIGDN m) HD). destruct (shl_loop dd ds (BIGDN m)) as [out c].
    destruct IH as (HE & HC & HF & HL). cbn [eval length]. rewrite radix_S.
    pose proof (BIGLO_BIGDN m).
    splits; [unfold m, BIGRAD in *; nia|lia|lia|digit_fin|congruence].
Qed.

Lemma lor_disjoint_digit e d : digit d -> Z.lor (BIGRAD * e) d = BIGRAD * e + d.
Proof.
  intros Hd. rewrite Z.lor_comm, Z.mul_comm. change BIGRAD with (2 ^ 16).
  rewrite lor_add_low; [lia|lia|exact Hd].
Qed.

(** One digit of a right shift: [e] is the low digit of the rest [n]. *)
Lemma shr_digit dd n e d r :
  0 <= dd <= 15 -> digit d -> n mod BIGRAD = e -> 0 < r ->
  ((BIGRAD * n + d) / 2 ^ dd) mod (BIGRAD * r) =
    ((BIGRAD * e + d) / 2 ^ dd) mod BIGRAD + BIGRAD * ((n / 2 ^ dd) mod r).
Proof.
  intros Hdd Hd He Hr. unfold BIGRAD in *. unfold digit, BIGRAD in Hd.
  assert (H2 : 65536 = 2 ^ dd * 2 ^ (16 - dd)) by (rewrite <- Z.pow_add_r by lia; now rewrite Zplus_minus).
  pose proof (Z.pow_pos_nonneg 2 dd). pose proof (Z.pow_pos_nonneg 2 (16 - dd)).
  rewrite Z.rem_mul_r by lia. f_equal.
  - rewrite (Z.div_mod n 65536) at 1 by lia. rewrite He.
    replace (65536 * (65536 * (n / 65536) + e) + d)
      with (65536 * e + d + (2 ^ (16 - dd) * (65536 * (n / 65536))) * 2 ^ dd).
    2:{ rewrite (Z.mul_comm _ (2 ^ dd)), (Z.mul_assoc (2 ^ dd)), <- H2. ring. }
    rewrite Z.div_add by lia.
    replace (2 ^ (16 - dd) * (65536 * (n / 65536))) with (2 ^ (16 - dd) * (n / 65536) * 65536) by ring.
    now rewrite Z.mod_add by lia.
  - f_equal. f_equal. rewrite Z.div_div, (Z.mul_comm (2 ^ dd)), <- Z.div_div by lia.
    f_equal. symmetry. apply Z.div_unique with d; lia.
Qed.

(** The right shift of a digit list [ds ++ [c]] by less than a digit, [c]
    itself not being stored. *)
Lemma shr_loop_spec dd c ds :
  0 <= dd <= 15 -> digit c -> Forall digit ds ->
  eval (fst (shr_loop dd (BIGUP c) ds)) =
    (eval (ds ++ [c]) / 2 ^ dd) mod radix (length ds) /\
  Forall digit (fst (shr_loop dd (BIGUP c) ds)) /\
  length (fst (shr_loop dd (BIGUP c) ds)) = length ds /\
  snd (shr_loop dd (BIGUP c) ds) = BIGUP (eval (ds ++ [c]) mod BIGRAD).
Proof.
  intros Hdd Hc; induction 1 as [|d ds Hd Hds IH].
  - simpl. rewrite radix_0, Z.mod_1_r. splits; auto. f_equal. symmetry.
    rewrite Z.mul_0_r, Z.add_0_r. now apply Z.mod_small.
  - cbn [shr_loop]. destruct (shr_loop dd (BIGUP c) ds) as [out t2]. cbn [fst snd] in *.
    destruct IH as (HE & HF & HL & HT). cbn [eval app length]. rewrite HT, HE, HL, radix_S.
    rewrite (BIGUP_eq (_ mod _)) by (apply Z.mod_pos_bound; reflexivity).
    splits; [|digit_fin|reflexivity|].
    + rewrite lor_disjoint_digit, BIGLO_eq, Z.shiftr_div_pow2, (Z.add_comm d) by (auto; lia).
      symmetry. apply shr_digit; auto using radix_pos.
    + f_equal. apply (Z.mod_unique _ _ (eval (ds ++ [c]))); [left; exact Hd|ring].
Qed.

Lemma mulsub_loop_spec q zs ys num t2 :
  digit q -> Forall digit zs -> Forall digit ys -> length zs = length ys ->
  -1 <= num <= 0 -> digit t2 ->
  let '(out, num', t2') := mulsub_loop q zs ys num t2 in
  eval out + radix (length zs) * (num' - t2') = eval zs - q * eval ys + num - t2 /\
  -1 <= num' <= 0 /\ digit t2' /\ Forall digit out /\ length out = length zs.
Proof.
  intros Hq Hz; revert ys num t2; induction Hz as [|z zs Hz Hzs IH]; intros ys num t2 Hy HL Hn Ht.
  - destruct ys; [|discriminate]. simpl. rewrite radix_0. splits; auto; lia.
  - destruct Hy as [|y ys Hy Hys]; [discriminate|]. simpl in HL. injection HL as HL.
    cbn [mulsub_loop]. assert (HB : 0 <= y * q <= 65535 * 65535) by (unfold digit, BIGRAD in *; nia).
    rewrite (u32_small (y * q)) by lia. rewrite (u32_small (t2 + y * q)) by digit_fin.
    set (t := t2 + y * q). pose proof (BIGLO_digit t) as Hlo.
    set (m := z + (num - BIGLO t)).
    assert (Hm : s32 (u32 (z + u32 (num - BIGLO t))) = m).
    { rewrite s32_u32. destruct (u32_eqm (num - BIGLO t)) as [k ->].
      rewrite Z.add_assoc. unfold s32. rewrite <- Z.add_assoc, (Z.add_comm (k * _)), Z.add_assoc.
      rewrite Z.mod_add by lia. apply s32_small. unfold m, digit, BIGRAD in *; lia. }
    assert (He : (if u32 (num - BIGLO t) =? 0 then z else BIGLO m) = BIGLO m).
    { destruct (u32 (num - BIGLO t) =? 0) eqn:E; breflect; auto.
      symmetry. replace m with z; [now apply BIGLO_small|].
      unfold m. destruct (u32_eqm (num - BIGLO t)) as [k Hk].
      unfold digit, BIGRAD in *. lia. }
    rewrite Hm, He.
    pose proof (BIGDN_bound m (-1) 0 ltac:(unfold m, digit, BIGRAD in *; lia)) as Hdm.
    pose proof (BIGDN_bound t 0 65535 ltac:(unfold t; digit_fin)) as Hdt.
    specialize (IH ys (BIGDN m) (BIGDN t) Hys HL Hdm ltac:(digit_fin)).
    destruct (mulsub_loop q zs ys (BIGDN m) (BIGDN t)) as [[out num'] t2'].
    destruct IH as (HE & Hn' & Ht' & HF & HLo). cbn [eval length]. rewrite radix_S.
    pose proof (BIGLO_BIGDN m). pose proof (BIGLO_BIGDN t).
    digit_fin.
Qed.

Lemma addback_spec zs ys num :
  Forall digit zs -> Forall digit ys -> length zs = length ys -> 0 <= num <= 1 ->
  let '(out, num') := addback zs ys num in
  eval out + radix (length zs) * num' = eval zs + eval ys + num /\
  0 <= num' <= 1 /\ Forall digit out /\ length out = length zs.
Proof.
  intros Hz; revert ys num; induction Hz as [|z zs Hz Hzs IH]; intros ys num Hy HL Hn.
  - destruct ys; [|discriminate]. simpl. rewrite radix_0. splits; auto; lia.
  - destruct Hy as [|y ys Hy Hys]; [discriminate|]. simpl in HL. injection HL as HL.
    cbn [addback]. rewrite (u32_small (num + y)), s32_u32, s32_small by digit_fin.
    set (m := z + (num + y)).
    assert (He : (if num + y =? 0 then z else BIGLO m) = BIGLO m).
    { destruct (num + y =? 0) eqn:E; breflect; auto.
      symmetry. unfold m. rewrite E, Z.add_0_r. now apply BIGLO_small. }
    rewrite He. pose proof (BIGDN_bound m 0 1 ltac:(unfold m; digit_fin)) as Hdm.
    specialize (IH ys (BIGDN m) Hys HL Hdm).
    destruct (addback zs ys (BIGDN m)) as [out num'].
    destruct IH as (HE & Hn' & HF & HLo). cbn [eval length]. rewrite radix_S.
    pose proof (BIGLO_BIGDN m).
    digit_fin.
Qed.

(** ** The main loop *)

Lemma addback_loop_spec fuel zs ys num q v :
  Forall digit zs -> Forall digit ys -> length zs = length ys ->
  eval zs + radix (length zs) * num = v -> -1 <= num <= 0 -> 0 < eval ys ->
  - Z.of_nat fuel * eval ys <= v < eval ys -> digit q -> 0 <= v + q * eval ys ->
  exists zs' q', addback_loop fuel zs ys num q = Ok (zs', q') /\
    eval zs' = v + (q - q') * eval ys /\ 0 <= eval zs' < eval ys /\
    Forall digit zs' /\ length zs' = length zs /\ digit q'.
Proof.
  revert zs num q v; induction fuel as [|fuel IH]; intros zs num q v Hz Hy HL HV Hn HY Hv Hq Hge;
    pose proof (eval_bound zs Hz) as Hb; cbn [addback_loop].
  - destruct (num =? 0) eqn:E; breflect; [|nia].
    exists zs, q. subst num. splits; auto; lia.
  - destruct (num =? 0) eqn:E; breflect.
    + exists zs, q. subst num. splits; auto; lia.
    + assert (num = -1) by lia. subst num.
      pose proof (addback_spec zs ys 0 Hz Hy HL ltac:(lia)) as HA.
      destruct (addback zs ys 0) as [out num']. destruct HA as (HE & Hn' & HF & HLo).
      assert (Hq1 : 1 <= q) by nia. rewrite u16_small by digit_fin.
      destruct (IH out (num' - 1) (q - 1) (v + eval ys)) as (zs' & q' & HE' & Hev & HR);
        auto; try (rewrite ?HLo; lia); try digit_fin.
      exists zs', q'. rewrite HLo in HR. split; [exact HE'|]. split; [lia|exact HR].
Qed.

Lemma qhat_spec zj zj1 ytop :
  digit zj -> digit zj1 -> 32768 <= ytop < BIGRAD -> zj <= ytop ->
  digit (qhat zj zj1 ytop) /\ qhat zj zj1 ytop * ytop <= BIGRAD * zj + zj1 /\
  (forall k, k < BIGRAD -> k * ytop <= BIGRAD * zj + zj1 -> k <= qhat zj zj1 ytop).
Proof.
  intros Hj Hj1 Hy Hle. unfold qhat. destruct (zj =? ytop) eqn:E; breflect.
  - unfold digit, BIGRAD in *. splits; [lia|lia|nia|intros; lia].
  - rewrite BIGUP_eq by auto. unfold digit, BIGRAD in *. rewrite u32_small by lia.
    set (t := 65536 * zj + zj1).
    assert (Ht : 0 <= t / ytop < 65536).
    { split; [apply Z.div_pos; unfold t; lia|]. apply Z.div_lt_upper_bound; unfold t; nia. }
    rewrite u16_small by auto. splits; try lia.
    + rewrite Z.mul_comm. apply Z.mul_div_le; lia.
    + intros k _ Hk. apply Z.div_le_lower_bound; lia.
Qed.

Lemma split_last_nth (l : list Z) n :
  length l = S n -> l = firstn n l ++ [nth n l 0].
Proof.
  revert n; induction l as [|a l IH]; intros [|n] H; simpl in *; try discriminate.
  - destruct l; [reflexivity|discriminate].
  - rewrite <- IH; auto.
Qed.

(** The estimate [qhat] exceeds the quotient digit by two at most: the
    remainder [v] it leaves is above [- radix ny]. *)
Lemma qhat_remainder lo0 zj1 zj ys0 ytop :
  Forall digit lo0 -> digit zj1 -> digit zj -> Forall digit ys0 ->
  length lo0 = length ys0 -> 32768 <= ytop < BIGRAD ->
  let r := eval (lo0 ++ [zj1]) + radix (S (length ys0)) * zj in
  let y := eval (ys0 ++ [ytop]) in
  let q := qhat zj zj1 ytop in
  r < y * BIGRAD ->
  digit q /\ - radix (S (length ys0)) < r - q * y < y /\ radix (S (length ys0)) <= 2 * y.
Proof.
  intros Hlo Hz1 Hz Hys HL Hyt r y q Hr.
  pose proof (eval_bound lo0 Hlo) as Bl. pose proof (eval_bound ys0 Hys) as By.
  rewrite HL in Bl. unfold r, y in *. rewrite !eval_snoc, HL, radix_S in *.
  set (w := radix (length ys0)) in *. pose proof (radix_pos (length ys0)) as Hw. fold w in Hw.
  unfold digit in Hz, Hz1.
  assert (Hle : zj <= ytop) by (unfold BIGRAD in *; nia).
  destruct (qhat_spec zj zj1 ytop Hz Hz1 Hyt Hle) as (Hq & Hlow & Hup). fold q in Hq, Hlow, Hup.
  set (rr := eval lo0 + w * zj1 + BIGRAD * w * zj) in *.
  set (yy := eval ys0 + w * ytop) in *.
  assert (Hyy : 0 < yy) by (unfold yy; nia).
  assert (Hrr : 0 <= rr) by (unfold rr, BIGRAD; nia).
  splits; [exact Hq| | |unfold yy, BIGRAD in *; nia].
  - assert (w * (q * ytop) <= w * (BIGRAD * zj + zj1)) by (apply Z.mul_le_mono_nonneg_l; lia).
    assert (q * eval ys0 <= 65535 * (w - 1)) by (unfold digit, BIGRAD in Hq; nia).
    unfold rr, yy, BIGRAD in *. nia.
  - pose proof (Z.div_mod rr yy ltac:(lia)) as Hdm. pose proof (Z.mod_pos_bound rr yy Hyy) as Hmb.
    assert (Hk : rr / yy <= q).
    { apply Hup; [apply Z.div_lt_upper_bound; lia|].
      assert (0 <= rr / yy) by (apply Z.div_pos; lia).
      set (k := rr / yy) in *.
      assert (0 <= eval ys0 * k) by (apply Z.mul_nonneg_nonneg; lia).
      assert (Hyk : yy * k = eval ys0 * k + w * (k * ytop)) by (unfold yy; ring).
      apply Z.lt_succ_r, (Z.mul_lt_mono_pos_l w); [exact Hw|].
      replace (w * Z.succ (BIGRAD * zj + zj1)) with (rr - eval lo0 + w) by (unfold rr; ring). lia. }
    nia.
Qed.

Lemma nth_firstn_skipn (l : list Z) i n k :
  (k < n)%nat -> nth k (firstn n (skipn i l)) 0 = nth (i + k) l 0.
Proof. intros. now rewrite nth_firstn_lt, nth_skipn_add by lia. Qed.

Lemma div_step_spec ys zs j :
  Forall digit ys -> Forall digit zs -> (1 <= length ys <= j)%nat -> (j < length zs)%nat ->
  32768 <= nth (length ys - 1) ys 0 ->
  let lo := firstn (length ys) (skipn (j - length ys) zs) in
  let r := eval lo + radix (length ys) * nth j zs 0 in
  r < eval ys * BIGRAD ->
  exists lo' q,
    div_step ys zs j = Ok (firstn (j - length ys) zs ++ lo' ++ [q] ++ skipn (j + 1) zs) /\
    r = q * eval ys + eval lo' /\ 0 <= eval lo' < eval ys /\
    Forall digit lo' /\ digit q /\ length lo' = length ys.
Proof.
  intros Hy Hz Hny Hj Htop lo r Hr.
  assert (Hlo : Forall digit lo) by (unfold lo; auto with digits).
  assert (Llo : length lo = length ys) by (unfold lo; rewrite length_firstn, length_skipn; lia).
  assert (Hzj : digit (nth j zs 0)) by (apply Forall_nth_default; auto with digits).
  unfold div_step. fold lo.
  replace (nth (j - 1) zs 0) with (nth (length ys - 1) lo 0)
    by (unfold lo; rewrite nth_firstn_skipn by lia; f_equal; lia).
  destruct (length ys) as [|n1] eqn:Eny; [lia|].
  replace (S n1 - 1)%nat with n1 in * by lia.
  pose proof (split_last_nth lo n1 Llo) as Slo. pose proof (split_last_nth ys n1 Eny) as Sys.
  assert (Hzj1 : digit (nth n1 lo 0)) by (apply Forall_nth_default; auto with digits).
  assert (Hyt : digit (nth n1 ys 0)) by (apply Forall_nth_default; auto with digits).
  assert (L1 : length (firstn n1 lo) = length (firstn n1 ys)) by (rewrite !length_firstn; lia).
  destruct (qhat_remainder (firstn n1 lo) (nth n1 lo 0) (nth j zs 0) (firstn n1 ys) (nth n1 ys 0))
    as (Hq & Hv & H2y); auto with digits; [unfold digit in Hyt; lia| |].
  { rewrite <- Slo, <- Sys. replace (S (length (firstn n1 ys))) with (S n1) by (rewrite length_firstn; lia). exact Hr. }
  rewrite <- Slo, <- Sys in Hv. rewrite <- Sys in H2y.
  replace (S (length (firstn n1 ys))) with (S n1) in * by (rewrite length_firstn; lia).
  fold r in Hv. set (q0 := qhat (nth j zs 0) (nth n1 lo 0) (nth n1 ys 0)) in *.
  pose proof (eval_bound lo Hlo) as Blo. rewrite Llo in Blo.
  pose proof (eval_bound ys Hy) as Bys. rewrite Eny in Bys.
  destruct (q0 =? 0) eqn:E; breflect; cbn [bind].
  - exists lo, q0. rewrite E in *. unfold digit in Hzj.
    assert (nth j zs 0 = 0) by (unfold r in Hv; nia).
    splits; auto; try digit_fin; unfold r in *; lia.
  - pose proof (mulsub_loop_spec q0 lo ys 0 0 Hq Hlo Hy ltac:(lia) ltac:(lia) digit_0) as HM.
    destruct (mulsub_loop q0 lo ys 0 0) as [[out num] t2].
    destruct HM as (HE & Hn & Ht2 & HF & HLo). rewrite Llo in *.
    assert (HN : s32 (u32 (num + u32 (nth j zs 0 - t2))) = num + (nth j zs 0 - t2)).
    { unfold u32. rewrite Zplus_mod_idemp_r. fold (u32 (num + (nth j zs 0 - t2))).
      rewrite s32_u32, s32_small; auto. unfold digit, BIGRAD in *; lia. }
    rewrite HN. set (nn := num + (nth j zs 0 - t2)) in *.
    assert (HEv : eval out + radix (length out) * nn = r - q0 * eval ys) by (rewrite HLo; unfold nn, r; lia).
    pose proof (eval_bound out HF) as Bo.
    assert (Hnn : -1 <= nn <= 0) by (rewrite HLo in *; nia).
    destruct (addback_loop_spec 2 out ys nn q0 (r - q0 * eval ys)) as (lo' & q & HA & Hev & Hr' & HF' & HL' & Hq');
      auto; try lia; [unfold r, digit in *; nia|].
    rewrite HA. cbn [bind]. exists lo', q. splits; auto; lia.
Qed.

(** After the rounds from the top down to position [n], the digits of [zs]
    from [ny + n] on are quotient digits and those below the remainder. *)
Lemma div_loop_spec n ys zs :
  Forall digit ys -> Forall digit zs -> (1 <= length ys)%nat ->
  (length ys + n <= length zs)%nat -> 32768 <= nth (length ys - 1) ys 0 ->
  let low := firstn (length ys + n) zs in
  eval low < eval ys * radix n ->
  exists lo' qs,
    div_loop n ys zs = Ok (lo' ++ qs ++ skipn (length ys + n) zs) /\
    eval low = eval qs * eval ys + eval lo' /\ 0 <= eval lo' < eval ys /\
    Forall digit lo' /\ Forall digit qs /\ length lo' = length ys /\ length qs = n.
Proof.
  intros Hy; revert zs; induction n as [|n IH]; intros zs Hz Hny HL Htop low Hlow.
  - exists low, []. cbn [div_loop app eval length]. unfold low in *.
    rewrite Nat.add_0_r in *. rewrite radix_0 in Hlow.
    pose proof (eval_nonneg (firstn (length ys) zs) ltac:(auto with digits)).
    splits; auto with digits; try lia. rewrite firstn_skipn; auto.
    rewrite length_firstn; lia.
  - cbn [div_loop]. set (j := (length ys + n)%nat).
    assert (Hlow' : low = firstn n zs ++ firstn (length ys) (skipn n zs) ++ [nth j zs 0]).
    { unfold low. replace (length ys + S n)%nat with (n + S (length ys))%nat by lia.
      rewrite (split_last_nth (firstn (n + S (length ys)) zs) (n + length ys)%nat)
        by (rewrite length_firstn; lia).
      rewrite firstn_firstn, nth_firstn_lt by lia.
      replace (Nat.min (n + length ys) (n + S (length ys))) with (n + length ys)%nat by lia.
      rewrite app_assoc. f_equal; [|f_equal; f_equal; unfold j; lia].
      rewrite <- (firstn_skipn n (firstn (n + length ys) zs)).
      rewrite firstn_firstn, skipn_firstn_comm. f_equal; f_equal; lia. }
    assert (Hjn : (j - length ys)%nat = n) by (unfold j; lia).
    pose proof (eval_nonneg (firstn n zs) ltac:(auto with digits)) as Hn0.
    assert (Ln : length (firstn n zs) = n) by (rewrite length_firstn; lia).
    assert (Ls : length (firstn (length ys) (skipn n zs)) = length ys)
      by (rewrite length_firstn, length_skipn; lia).
    assert (Elow : eval low = eval (firstn n zs) + radix n *
      (eval (firstn (length ys) (skipn n zs)) + radix (length ys) * nth j zs 0)).
    { rewrite Hlow', eval_app, Ln, eval_snoc, Ls. reflexivity. }
    rewrite radix_S in Hlow. pose proof (radix_pos n) as Hrn.
    destruct (div_step_spec ys zs j) as (lo' & q & HE & Hr & Hb & Hlo' & Hq & HLo');
      auto; try (unfold j; lia); rewrite Hjn in *; [nia|].
    rewrite HE. cbn [bind].
    assert (Hzs' : Forall digit (firstn n zs ++ lo' ++ [q] ++ skipn (j + 1) zs)).
    { rewrite !Forall_app. splits; auto with digits. }
    assert (Hf : firstn j (firstn n zs ++ lo' ++ [q] ++ skipn (j + 1) zs) = firstn n zs ++ lo').
    { rewrite app_assoc, firstn_app. replace (j - length (firstn n zs ++ lo'))%nat with O
        by (rewrite length_app; unfold j; lia).
      rewrite firstn_all2 by (rewrite length_app; unfold j; lia). now rewrite firstn_O, app_nil_r. }
    assert (Hs : skipn j (firstn n zs ++ lo' ++ [q] ++ skipn (j + 1) zs) = q :: skipn (j + 1) zs).
    { rewrite app_assoc, skipn_app. replace (j - length (firstn n zs ++ lo'))%nat with O
        by (rewrite length_app; unfold j; lia).
      rewrite skipn_all2 by (rewrite length_app; unfold j; lia). reflexivity. }
    pose proof (eval_bound (firstn n zs) ltac:(auto with digits)) as Bn. rewrite Ln in Bn.
    destruct (IH (firstn n zs ++ lo' ++ [q] ++ skipn (j + 1) zs)) as (lo2 & qs & HE2 & Hv2 & Hb2 & Hl2 & Hq2 & HL2 & HLq);
      auto.
    { rewrite !length_app, length_skipn. simpl. unfold j in *; lia. }
    { fold j. rewrite Hf, eval_app, Ln. nia. }
    fold j in HE2, Hv2. rewrite Hf, eval_app, Ln in Hv2. rewrite Hs in HE2.
    exists lo2, (qs ++ [q]). rewrite HE2, eval_snoc, HLq. splits; auto with digits; try lia.
    + replace (length ys + S n)%nat with (j + 1)%nat by (unfold j; lia).
      now rewrite <- app_assoc.
    + apply Forall_app; auto.
    + rewrite length_app; simpl; lia.
Qed.

(** ** Division with remainder *)

Lemma strip1_spec ds :
  Forall digit ds -> ds <> [] ->
  Forall digit (strip1 ds) /\ eval (strip1 ds) = eval ds /\
  (length (strip1 ds) <= length ds)%nat /\ strip1 ds <> [] /\
  (eval ds = 0 -> strip1 ds = [0]).
Proof.
  intros H HN. unfold strip1. pose proof (eval_strip ds) as HE. pose proof (strip_length ds).
  pose proof (strip_digits ds H) as Hd. pose proof (strip_normalized ds) as Hn.
  destruct (strip ds) as [|d r] eqn:E.
  - destruct (strip_prefix ds) as [n Hp]. rewrite E in Hp. simpl in Hp.
    destruct ds as [|d0 ds]; [contradiction|]. destruct n; [discriminate|]. injection Hp as -> Hp.
    cbn [firstn eval length] in *. splits; auto using digit_0; try discriminate; lia.
  - splits; auto; [discriminate|]. intros HZ. rewrite HZ in HE.
    apply normalized_zero in HE; auto. discriminate.
Qed.

(** The scaled operands the main loop starts from. *)
Record scaled (xs ys yds zds : list Z) (dd : Z) (extra : nat) : Prop := {
  sc_dd : 0 <= dd <= 15;
  sc_y : eval yds = eval ys * 2 ^ dd;
  sc_yd : Forall digit yds;
  sc_yl : length yds = length ys;
  sc_top : 32768 <= nth (length yds - 1) yds 0;
  sc_z : eval zds = eval xs * 2 ^ dd;
  sc_zd : Forall digit zds;
  sc_zl : length zds = (length xs + 1 + extra)%nat
}.

Lemma nth_top_eval ds :
  Forall digit ds -> (1 <= length ds)%nat ->
  let top := nth (length ds - 1) ds 0 in
  digit top /\ radix (length ds - 1) * top <= eval ds < radix (length ds - 1) * (top + 1).
Proof.
  intros H HL top. assert (Ht : digit top) by (apply Forall_nth_default; auto with digits).
  split; auto. rewrite (split_last_nth ds (length ds - 1)) at 2 3 by lia.
  rewrite eval_snoc. fold top.
  assert (L : length (firstn (length ds - 1) ds) = (length ds - 1)%nat) by (rewrite length_firstn; lia).
  pose proof (eval_bound (firstn (length ds - 1) ds) ltac:(auto with digits)) as Hb.
  rewrite L in *. nia.
Qed.

Lemma scale_divisor ys :
  Forall digit ys -> ys <> [] -> normalized ys ->
  let dd := norm_shift 16 (nth (length ys - 1) ys 0) 0 in
  let yds := fst (shl_loop dd ys 0) in
  0 <= dd <= 15 /\ eval yds = eval ys * 2 ^ dd /\ Forall digit yds /\ length yds = length ys /\
  32768 <= nth (length yds - 1) yds 0.
Proof.
  intros H HN Hn dd yds.
  assert (HL : (1 <= length ys)%nat) by (destruct ys; [contradiction|simpl; lia]).
  destruct (nth_top_eval ys H HL) as [Ht Hb]. set (top := nth (length ys - 1) ys 0) in *.
  assert (Htop : 0 < top < 65536).
  { unfold digit, BIGRAD in Ht. split; [|lia]. pose proof (normalized_lower ys H HN Hn).
    pose proof (radix_pos (length ys - 1)). nia. }
  destruct (norm_shift_digit top Htop) as [Hdd Hs]. fold dd in Hdd, Hs.
  pose proof (shl_loop_spec dd ys 0 Hdd H) as HS.
  assert (H2 : 0 <= 0 < 2 ^ dd) by (pose proof (Z.pow_pos_nonneg 2 dd); lia).
  specialize (HS H2). unfold yds. destruct (shl_loop dd ys 0) as [out c]. simpl fst.
  destruct HS as (HE & HC & HF & HLo).
  set (w := radix (length ys - 1)) in *. assert (Hw : 0 < w) by apply radix_pos.
  assert (Hr : radix (length ys) = BIGRAD * w) by (unfold w; rewrite <- radix_S; f_equal; lia).
  assert (H16 : (top + 1) * 2 ^ dd <= 65536).
  { assert (HD : 65536 = 2 ^ (16 - dd) * 2 ^ dd) by (rewrite <- Z.pow_add_r by lia; now rewrite Z.sub_add).
    rewrite HD. apply Z.mul_le_mono_nonneg_r; [lia|].
    assert (top < 2 ^ (16 - dd)); [|lia]. apply (Z.mul_lt_mono_pos_r (2 ^ dd)); lia. }
  pose proof (eval_bound out HF) as Bo. rewrite HLo, Hr in Bo. rewrite Hr in HE.
  assert (Hup : eval ys * 2 ^ dd < BIGRAD * w) by (unfold BIGRAD; nia).
  assert (Hlow : 32768 * w <= eval ys * 2 ^ dd) by nia.
  assert (c = 0) by (unfold BIGRAD in *; nia). subst c.
  splits; auto; try lia. rewrite HLo.
  destruct (nth_top_eval out HF ltac:(lia)) as [_ Hbo]. rewrite HLo in Hbo. fold w in Hbo. nia.
Qed.

Lemma shl_loop_0 ds : Forall digit ds -> fst (shl_loop 0 ds 0) = ds.
Proof.
  induction 1 as [|d ds Hd _ IH]; [reflexivity|]. cbn [shl_loop].
  rewrite Z.shiftl_0_r. rewrite (u32_small d), u32_small by digit_fin.
  assert (HB : BIGDN (0 + d) = 0) by (pose proof (BIGDN_bound (0 + d) 0 0 ltac:(digit_fin)); lia).
  rewrite HB. destruct (shl_loop 0 ds 0) as [out c]. simpl in *. rewrite IH, BIGLO_small by exact Hd.
  reflexivity.
Qed.

Definition long_zds (dd : Z) (xs extra : list Z) : list Z :=
  if dd =? 0 then xs ++ [0] ++ extra
  else fst (shl_loop dd xs 0) ++ [u16 (snd (shl_loop dd xs 0))] ++ extra.

Lemma scaled_operands xs ys e :
  Forall digit xs -> Forall digit ys -> ys <> [] -> normalized ys ->
  let dd := norm_shift 16 (nth (length ys - 1) ys 0) 0 in
  scaled xs ys (fst (shl_loop dd ys 0)) (long_zds dd xs (repeat 0 e)) dd e.
Proof.
  intros Hx Hy HN Hn dd. destruct (scale_divisor ys Hy HN Hn) as (Hdd & HE & HF & HL & HT).
  fold dd in Hdd, HE, HF, HL, HT. split; auto; unfold long_zds; destruct (dd =? 0) eqn:E; breflect.
  1: rewrite E, !eval_app, eval_repeat_0, Z.pow_0_r; simpl; lia.
  all: pose proof (shl_loop_spec dd xs 0 Hdd Hx ltac:(pose proof (Z.pow_pos_nonneg 2 dd); lia)) as HS.
  all: destruct (shl_loop dd xs 0) as [out c]; destruct HS as (HE' & HC & HF' & HL'); cbn [fst snd].
  all: pose proof (Z.pow_le_mono_r 2 dd 15 ltac:(lia) ltac:(lia)); change (2 ^ 15) with 32768 in *.
  - rewrite u16_small, !eval_app, eval_repeat_0, HL' by lia. simpl. lia.
  - rewrite !Forall_app; splits; auto with digits.
  - rewrite !Forall_app; splits; auto with digits. constructor; auto.
    rewrite u16_small; unfold digit, BIGRAD; lia.
  - rewrite !length_app, repeat_length. simpl. lia.
  - rewrite !length_app, repeat_length, HL'. simpl. lia.
Qed.

Definition divrem_result (x y d m : RBignum) : Prop :=
  Forall digit (digits d) /\ Forall digit (digits m) /\
  eval (digits x) = eval (digits d) * eval (digits y) + eval (digits m) /\
  0 <= eval (digits m) < eval (digits y) /\
  (length (digits m) <= length (digits y))%nat /\
  (eval (digits m) = 0 -> BIGZEROP m = true) /\
  sign m = sign x /\
  (sign d = Bool.eqb (sign x) (sign y) \/ d = rb_int2big 0).

Lemma divrem_long_unfold x y :
  big_ok y -> (2 <= length (digits y))%nat ->
  let dd := norm_shift 16 (nth (length (digits y) - 1) (digits y) 0) 0 in
  let e := if (length (digits x) =? length (digits y))%nat then 1%nat else O in
  let yds := fst (shl_loop dd (digits y) 0) in
  let zds := long_zds dd (digits x) (repeat 0 e) in
  divrem_long x y =
    (zds' <- div_loop (length zds - length (digits y)) yds zds ;;
     let md := strip1 (firstn (length (digits y)) zds') in
     Ok (mkBig (Bool.eqb (sign x) (sign y)) (skipn (length (digits y)) zds'),
         mkBig (sign x) (if dd =? 0 then md else fst (shr_loop dd 0 md)))).
Proof.
  intros (Hd & HN & Hn) HL dd e yds zds. unfold divrem_long.
  destruct Hn as [Hn|Hn]; [|rewrite Hn in HL; simpl in HL; lia].
  rewrite (strip_id _ Hn). fold dd. unfold yds, zds, long_zds, e.
  destruct (dd =? 0) eqn:E; breflect.
  - rewrite E, shl_loop_0 by auto. now destruct (_ =? _)%nat.
  - destruct (shl_loop dd (digits x) 0). now destruct (_ =? _)%nat.
Qed.

Lemma divrem_long_spec x y :
  Forall digit (digits x) -> big_ok y ->
  (2 <= length (digits y) <= length (digits x))%nat ->
  exists d m, divrem_long x y = Ok (d, m) /\ divrem_result x y d m.
Proof.
  intros Hx Hy HL. rewrite divrem_long_unfold by (auto; lia).
  destruct Hy as (Hyd & HN & Hn).
  destruct Hn as [Hn|Hn]; [|rewrite Hn in HL; simpl in HL; lia].
  set (e := if (length (digits x) =? length (digits y))%nat then 1%nat else O).
  pose proof (scaled_operands (digits x) (digits y) e Hx Hyd HN Hn) as HS. cbv zeta in HS.
  set (dd := norm_shift 16 (nth (length (digits y) - 1) (digits y) 0) 0) in *.
  set (yds := fst (shl_loop dd (digits y) 0)) in *.
  set (zds := long_zds dd (digits x) (repeat 0 e)) in *.
  destruct HS as [Hdd HyE HyF HyL Htop HzE HzF HzL]. cbv zeta.
  pose proof (Z.pow_pos_nonneg 2 dd ltac:(lia) ltac:(lia)) as Hp.
  set (n := (length zds - length (digits y))%nat).
  assert (Hfull : firstn (length yds + n) zds = zds) by (apply firstn_all2; unfold n; lia).
  destruct (div_loop_spec n yds zds) as (lo & qs & HE & Hv & Hb & Hlo & Hqs & HLlo & HLq);
    auto; try (unfold n; lia).
  { rewrite Hfull, HzE, HyE.
    destruct (nth_top_eval yds HyF ltac:(lia)) as [_ [Hge _]]. rewrite HyE, HyL in *.
    pose proof (eval_bound _ Hx) as Bx.
    pose proof (Z.pow_le_mono_r 2 dd 15 ltac:(lia) ltac:(lia)) as H15. change (2 ^ 15) with 32768 in H15.
    assert (Hr : radix (length (digits x)) <= radix (length (digits y) - 1) * radix n).
    { rewrite <- radix_add. apply radix_mono. unfold n; lia. }
    pose proof (radix_pos (length (digits y) - 1)). pose proof (radix_pos n).
    apply Z.lt_le_trans with (32768 * (radix (length (digits y) - 1) * radix n)); [nia|].
    rewrite Z.mul_assoc. apply Z.mul_le_mono_nonneg_r; nia. }
  rewrite HE. cbn [bind]. rewrite Hfull in Hv.
  rewrite (skipn_all2 zds), app_nil_r by (unfold n; lia).
  assert (Hf : firstn (length (digits y)) (lo ++ qs) = lo).
  { rewrite firstn_app, HLlo, HyL, Nat.sub_diag, firstn_O, app_nil_r. apply firstn_all2; lia. }
  assert (Hsk : skipn (length (digits y)) (lo ++ qs) = qs).
  { rewrite skipn_app, HLlo, HyL, Nat.sub_diag, skipn_all2 by lia. reflexivity. }
  rewrite Hf, Hsk.
  assert (lo <> []) by (intros ->; simpl in HLlo; lia).
  destruct (strip1_spec lo Hlo) as (Hsd & Hse & Hsl & Hsn & Hs0); auto.
  set (md := strip1 lo) in *.
  set (ms := if dd =? 0 then md else fst (shr_loop dd 0 md)).
  assert (Hlo2 : eval lo = (eval (digits x) - eval qs * eval (digits y)) * 2 ^ dd).
  { rewrite HzE, HyE in Hv. lia. }
  assert (Hms : Forall digit ms /\ eval ms = eval (digits x) - eval qs * eval (digits y) /\
    length ms = length md /\ (eval lo = 0 -> ms = [0])).
  { unfold ms. destruct (dd =? 0) eqn:E; breflect.
    - splits; auto. rewrite Hse, Hlo2, E, Z.pow_0_r. lia.
    - pose proof (shr_loop_spec dd 0 md Hdd digit_0 Hsd) as (H1 & H2 & H3 & _).
      change (BIGUP 0) with 0 in *. rewrite eval_snoc, Hse in H1.
      pose proof (eval_bound md Hsd) as Bm. rewrite Hse in Bm.
      rewrite Z.mul_0_r, Z.add_0_r, Hlo2, Z.div_mul in H1 by lia.
      rewrite Hlo2 in Bm. rewrite Z.mod_small in H1 by nia.
      splits; auto. intros HZ. rewrite (Hs0 HZ) in *.
      destruct (fst (shr_loop dd 0 [0])) as [|a [|b l]]; simpl in H3; try discriminate.
      rewrite HZ in Hlo2. simpl in H1. f_equal. nia. }
  destruct Hms as (Hm1 & Hm2 & Hm3 & Hm4).
  eexists _, _. split; [reflexivity|]. unfold divrem_result; cbn [digits sign].
  rewrite HyE in Hb. splits; auto; try lia; try nia.
  intros HZ. unfold BIGZEROP; cbn [digits]. rewrite Hm4; [reflexivity|]. rewrite Hlo2, <- Hm2, HZ. lia.
Qed.

Lemma BIGZEROP_spec y : big_ok y -> BIGZEROP y = (eval (digits y) =? 0).
Proof.
  intros (Hd & HN & Hn). unfold BIGZEROP. destruct (digits y) as [|a [|b l]] eqn:E; [contradiction| |].
  - simpl. f_equal. lia.
  - symmetry. apply Z.eqb_neq. intros HZ. destruct Hn as [Hn|Hn]; [|discriminate].
    apply normalized_zero in HZ; [discriminate|auto|auto].
Qed.

Lemma shorter_smaller x y :
  big_ok x -> big_ok y -> eval (digits y) <> 0 ->
  (length (digits x) < length (digits y))%nat -> eval (digits x) < eval (digits y).
Proof.
  intros (Hx & Nx & Ox) (Hy & Ny & Oy) HZ HL.
  destruct Oy as [Oy|Oy]; [|rewrite Oy in HZ; simpl in HZ; lia].
  pose proof (eval_nonneg _ Hy).
  destruct Ox as [Ox|Ox]; [now apply eval_length_le|rewrite Ox; simpl; lia].
Qed.

Lemma early_smaller x y :
  big_ok x -> big_ok y -> eval (digits y) <> 0 ->
  let nx := length (digits x) in let ny := length (digits y) in
  (nx <? ny)%nat || ((nx =? ny)%nat && (nth (nx - 1) (digits x) 0 <? nth (ny - 1) (digits y) 0)) = true ->
  eval (digits x) < eval (digits y) /\ (nx <= ny)%nat.
Proof.
  intros Hx Hy HZ nx ny HB. apply orb_prop in HB as [HB|HB]; breflect.
  - split; [|lia]. now apply shorter_smaller.
  - split; [|lia]. destruct Hx as (Hx & Nx & _), Hy as (Hy & Ny & _). unfold nx, ny in *.
    assert (1 <= length (digits x))%nat by (destruct (digits x); [contradiction|simpl; lia]).
    destruct (nth_top_eval (digits x) Hx ltac:(lia)) as [_ [_ Hb]].
    destruct (nth_top_eval (digits y) Hy ltac:(lia)) as [_ [Hb' _]].
    rewrite H in *. pose proof (radix_pos (length (digits y) - 1)). nia.
Qed.

Lemma bigdivrem_ok x y :
  big_ok x -> big_ok y -> eval (digits y) <> 0 ->
  exists d m, bigdivrem x y = Ok (d, m) /\ divrem_result x y d m.
Proof.
  intros Hx Hy HZ. pose proof (big_ok_digits _ Hx) as Dx. pose proof (big_ok_digits _ Hy) as Dy.
  pose proof (eval_nonneg _ Dy) as Py. pose proof (eval_nonneg _ Dx) as Px.
  unfold bigdivrem. rewrite BIGZEROP_spec by auto.
  replace (eval (digits y) =? 0) with false by (symmetry; now apply Z.eqb_neq).
  match goal with |- context [if ?c then _ else _] => destruct c eqn:E end.
  - destruct (early_smaller x y Hx Hy HZ E) as [HE HL].
    exists (rb_int2big 0), x. split; [reflexivity|].
    destruct (int2big_spec 0) as (O0 & V0); [unfold LONG_MIN, LONG_MAX; lia|].
    unfold divrem_result. change (eval (digits (rb_int2big 0))) with 0.
    splits; auto with bignum; try lia.
    intros HZx. rewrite BIGZEROP_spec by auto. now apply Z.eqb_eq.
  - apply orb_false_elim in E as [E _]. breflect.
    destruct (length (digits y) =? 1)%nat eqn:E1; breflect.
    + destruct (digits y) as [|dd [|b l]] eqn:Ey; try discriminate.
      cbn [nth]. inversion Dy as [|? ? Hdd _]; subst. cbn [eval] in *.
      pose proof (div1_loop_spec dd (digits x) Hdd ltac:(lia) Dx) as HS.
      destruct (div1_loop dd (digits x)) as [zds t2]. destruct HS as (HE & Hr & HF & HL).
      destruct (uint2big_spec t2) as (O2 & V2 & S2); [unfold digit, BIGRAD in Hdd; lia|].
      eexists _, _. split; [reflexivity|]. unfold divrem_result; cbn [digits sign set_sign].
      rewrite Ey, V2. cbn [eval length].
      splits; auto with bignum; try lia.
      * unfold rb_uint2big. unfold digit, BIGRAD in Hdd.
        replace (BIGDN t2) with 0 by (pose proof (BIGDN_bound t2 0 0); unfold BIGRAD in *; lia).
        change (BIGLO 0 =? 0) with true. simpl. lia.
      * intros ->. reflexivity.
    + apply divrem_long_spec; auto. destruct Hy as (_ & Ny & _).
      destruct (digits y) as [|a [|b l]] eqn:Ey; [contradiction|simpl in E1; lia|simpl in *; lia].
Qed.

Lemma divrem_value x y d m :
  divrem_result x y d m ->
  big_val d = (if Bool.eqb (sign x) (sign y) then 1 else -1) * eval (digits d).
Proof.
  intros (_ & _ & _ & _ & _ & _ & _ & HS). unfold big_val.
  destruct HS as [-> | ->]; [destruct (Bool.eqb (sign x) (sign y)); lia|].
  change (eval (digits (rb_int2big 0))) with 0. destruct (sign _), (Bool.eqb _ _); lia.
Qed.

(** Truncated division. *)
Lemma divrem_quot_rem x y d m :
  divrem_result x y d m ->
  big_val d = Z.quot (big_val x) (big_val y) /\ big_val m = Z.rem (big_val x) (big_val y).
Proof.
  intros HR. rewrite (divrem_value _ _ _ _ HR).
  destruct HR as (Hd & Hm & HE & Hr & HL & HZ & HSm & HS).
  pose proof (eval_nonneg _ Hd).
  assert (HQ : eval (digits d) = Z.quot (eval (digits x)) (eval (digits y)))
    by (apply Z.quot_unique with (eval (digits m)); nia).
  assert (HM : eval (digits m) = Z.rem (eval (digits x)) (eval (digits y)))
    by (apply Z.rem_unique with (eval (digits d)); nia).
  unfold big_val. rewrite HSm.
  destruct (sign x), (sign y); simpl;
    rewrite ?Z.quot_opp_l, ?Z.quot_opp_r, ?Z.rem_opp_l, ?Z.rem_opp_r by lia; lia.
Qed.

Lemma bigdivmod_ok x y :
  big_ok x -> big_ok y -> eval (digits y) <> 0 ->
  exists d m, bigdivmod x y = Ok (d, m) /\
    Forall digit (digits d) /\ Forall digit (digits m) /\
    big_val d = big_val x / big_val y /\ big_val m = big_val x mod big_val y.
Proof.
  intros Hx Hy HZ. destruct (bigdivrem_ok x y Hx Hy HZ) as (d & m & HB & HR).
  unfold bigdivmod. rewrite HB. cbn [bind].
  pose proof (divrem_value _ _ _ _ HR) as Vd.
  destruct HR as (Hd & Hm & HE & Hr & HL & HZm & HSm & HS).
  assert (HBZ : BIGZEROP m = (eval (digits m) =? 0)).
  { destruct (eval (digits m) =? 0) eqn:E; breflect; auto.
    apply not_true_is_false. intros HB'. apply E. unfold BIGZEROP in HB'.
    destruct (digits m) as [|a [|b l]]; [reflexivity| |discriminate]. breflect. simpl; lia. }
  pose proof (eval_nonneg _ Hd).
  assert (Vm : big_val m = if sign x then eval (digits m) else - eval (digits m))
    by (unfold big_val; now rewrite HSm).
  destruct (negb (Bool.eqb (sign x) (sign y)) && negb (BIGZEROP m)) eqn:E; rewrite HBZ in E.
  - apply andb_prop in E as [E1 E2]. breflect.
    destruct (bigadd_spec d (rb_int2big 1) false Hd) as (Hd1 & Hv1).
    { repeat constructor; unfold digit, BIGRAD; simpl; lia. }
    { destruct HS as [HS| ->]; [left; rewrite HS, E1; reflexivity|right].
      unfold length_ordered, len; simpl; lia. }
    destruct (bigadd_spec m y true Hm (big_ok_digits _ Hy)) as (Hm1 & Hvm1).
    { right. unfold length_ordered, len. lia. }
    eexists _, _. split; [reflexivity|]. splits; auto; rewrite ?Hv1, ?Hvm1, ?Vd, ?Vm, ?E1;
      change (big_val (rb_int2big 1)) with 1; unfold big_val;
      destruct (sign x), (sign y); simpl in E1; try discriminate.
    + apply Z.div_unique with (eval (digits m) - eval (digits y)); lia.
    + apply Z.div_unique with (eval (digits y) - eval (digits m)); lia.
    + apply Z.mod_unique with (- eval (digits d) - 1); lia.
    + apply Z.mod_unique with (- eval (digits d) - 1); lia.
  - exists d, m. split; [reflexivity|]. splits; auto; rewrite ?Vd, ?Vm; unfold big_val;
      destruct (sign x), (sign y); simpl in *; breflect.
    all: try (apply Z.div_unique with (eval (digits m)); lia).
    all: try (apply Z.div_unique with (- eval (digits m)); lia).
    all: try (apply Z.mod_unique with (eval (digits d)); lia).
    all: apply Z.mod_unique with (- eval (digits d)); lia.
Qed.

(** ** Operators *)

Lemma eval_zero_val b : eval (digits b) <> 0 <-> big_val b <> 0.
Proof. unfold big_val; destruct (sign b); lia. Qed.

Lemma bigdivrem_zero x y : big_ok y -> big_val y = 0 -> bigdivrem x y = Raise ZeroDivisionError.
Proof.
  intros Hy HZ. unfold bigdivrem. rewrite BIGZEROP_spec by auto.
  replace (eval (digits y) =? 0) with true; [reflexivity|].
  symmetry. apply Z.eqb_eq. unfold big_val in HZ. destruct (sign y); lia.
Qed.

Lemma rb_big_div_ok x y :
  big_ok x -> integral y -> canonical y -> value y <> 0 ->
  returns (rb_big_div x y) (big_val x / value y).
Proof.
  intros Hx HI HC HZ. unfold rb_big_div. unbox y b. rewrite <- Hval_b in *.
  destruct (bigdivmod_ok x b) as (d & m & HB & Hd & Hm & Vd & Vm); auto; [now apply eval_zero_val|].
  rewrite HB. cbn [bind]. now apply returns_bignorm.
Qed.

Lemma rb_big_modulo_ok x y :
  big_ok x -> integral y -> canonical y -> value y <> 0 ->
  returns (rb_big_modulo x y) (big_val x mod value y).
Proof.
  intros Hx HI HC HZ. unfold rb_big_modulo. unbox y b. rewrite <- Hval_b in *.
  destruct (bigdivmod_ok x b) as (d & m & HB & Hd & Hm & Vd & Vm); auto; [now apply eval_zero_val|].
  rewrite HB. cbn [bind]. now apply returns_bignorm.
Qed.

Lemma rb_big_remainder_ok x y :
  big_ok x -> integral y -> canonical y -> value y <> 0 ->
  returns (rb_big_remainder x y) (Z.rem (big_val x) (value y)).
Proof.
  intros Hx HI HC HZ. unfold rb_big_remainder. unbox y b. rewrite <- Hval_b in *.
  destruct (bigdivrem_ok x b) as (d & m & HB & HR); auto; [now apply eval_zero_val|].
  rewrite HB. cbn [bind]. destruct (divrem_quot_rem _ _ _ _ HR) as [_ HV].
  apply returns_bignorm; [apply HR|exact HV].
Qed.

Lemma rb_big_divmod_ok x y :
  big_ok x -> integral y -> canonical y -> value y <> 0 ->
  exists d m, rb_big_divmod x y = Ok (d, m) /\
    returns (Ok d) (big_val x / value y) /\ returns (Ok m) (big_val x mod value y).
Proof.
  intros Hx HI HC HZ. unfold rb_big_divmod. unbox y b. rewrite <- Hval_b in *.
  destruct (bigdivmod_ok x b) as (d & m & HB & Hd & Hm & Vd & Vm); auto; [now apply eval_zero_val|].
  rewrite HB. cbn [bind]. eexists _, _. split; [reflexivity|].
  split; now apply returns_bignorm.
Qed.

Lemma big_div_zero x y :
  integral y -> canonical y -> value y = 0 ->
  rb_big_div x y = Raise ZeroDivisionError /\ rb_big_modulo x y = Raise ZeroDivisionError /\
  rb_big_remainder x y = Raise ZeroDivisionError /\ rb_big_divmod x y = Raise ZeroDivisionError.
Proof.
  intros HI HC HZ. unfold rb_big_div, rb_big_modulo, rb_big_remainder, rb_big_divmod, bigdivmod.
  unbox y b. rewrite bigdivrem_zero by (auto; lia). auto.
Qed.

(** ** Properties *)

(** C1: [bigdivrem], Knuth's algorithm D, ends without leaving its digit
    arrays (the correction of the trial digit included) and gives the truncated
    quotient and the remainder. *)
Theorem bigdivrem_correct x y :
  big_ok x -> big_ok y -> big_val y <> 0 ->
  exists d m, bigdivrem x y = Ok (d, m) /\ Forall digit (digits d) /\ Forall digit (digits m) /\
    big_val d = Z.quot (big_val x) (big_val y) /\ big_val m = Z.rem (big_val x) (big_val y).
Proof.
  intros Hx Hy Hz. apply eval_zero_val in Hz. destruct (bigdivrem_ok x y Hx Hy Hz) as (d & m & E & H).
  exists d, m. destruct (divrem_quot_rem _ _ _ _ H) as [Hd Hm]. destruct H as (Dd & Dm & _). auto.
Qed.

Lemma bigdivrem_correct_witness :
  exists d m, bigdivrem (mkBig false [3; 0; 32768; 1]) (mkBig true [1; 0; 32768]) = Ok (d, m) /\
    Forall digit (digits d) /\ Forall digit (digits m) /\
    big_val d = Z.quot (- 422212465065987) 140737488355329 /\
    big_val m = Z.rem (- 422212465065987) 140737488355329.
Proof. apply (bigdivrem_correct (mkBig false [3; 0; 32768; 1]) (mkBig true [1; 0; 32768])); [concrete..|discriminate]. Defined.

(** Ruby's division: [rb_big_div], [rb_big_modulo] and [rb_big_divmod]
    round to minus infinity, [rb_big_remainder] to zero, and all four raise
    ZeroDivisionError for a zero divisor. *)
Theorem big_division x y :
  big_ok x -> integral y -> canonical y ->
  if value y =? 0 then
    rb_big_div x y = Raise ZeroDivisionError /\ rb_big_modulo x y = Raise ZeroDivisionError /\
    rb_big_remainder x y = Raise ZeroDivisionError /\ rb_big_divmod x y = Raise ZeroDivisionError
  else
    returns (rb_big_div x y) (big_val x / value y) /\ returns (rb_big_modulo x y) (big_val x mod value y) /\
    returns (rb_big_remainder x y) (Z.rem (big_val x) (value y)) /\
    exists d m, rb_big_divmod x y = Ok (d, m) /\
      returns (Ok d) (big_val x / value y) /\ returns (Ok m) (big_val x mod value y).
Proof.
  intros Hx Iy Cy. destruct (Z.eqb_spec (value y) 0) as [E|E].
  - now apply big_div_zero.
  - splits; [now apply rb_big_div_ok|now apply rb_big_modulo_ok|now apply rb_big_remainder_ok|now apply rb_big_divmod_ok].
Qed.

Lemma big_division_witness : returns (rb_big_div (mkBig false [1; 0; 1]) (Fix 2)) (-2147483649).
Proof.
  refine (proj1 (big_division (mkBig false [1; 0; 1]) (Fix 2) _ _ _)); concrete.
Defined.
