(* ===== verification/BigBits.v ===== *)
(** * Bit operations on Bignums

    Two's complement on digit lists and the operators [~ & | ^ << >> \[\]] of
    src/ruby/bignum.c. *)

From Stdlib Require Import ZArith Lia List Bool.
From S2P Require Import Prelude CInt Digits Bignum BigAdd BigDiv.
Import ListNotations.
Local Open Scope Z_scope.
Local Open Scope outcome_scope.

(** ** Operations *)

(** [~ds[i]] stored in a [BDIGIT]. *)
Definition compl (d : Z) : Z := u16 (Z.lnot d).

(** [get2comp]: with no digit at all the [do] loop reads and writes [ds[0]]
    behind the block. *)
Definition get2comp (ds : list Z) (carry : bool) : outcome (list Z) :=
  match ds with
  | [] => Undefined
  | _ =>
      let '(out, _) := propagate (map compl ds) 1 in
      if negb carry then Ok out
      else if Z.land (last out 0) 32768 =? 0 then Ok (out ++ [65535])
      else Ok out
  end.

(** The operand of a bit operation: the digits of its two's complement. *)
Definition twos (b : RBignum) : outcome (list Z) :=
  if negb (sign b) then get2comp (digits b) true else Ok (digits b).

(** The tail all the operators end with:
    [if (!RBIGNUM(z)->sign) get2comp(z, Qfalse); return bignorm(z);] *)
Definition from_twos (s : bool) (zds : list Z) : outcome VALUE :=
  zds <- (if negb s then get2comp zds false else Ok zds) ;;
  Ok (bignorm (Big (mkBig s zds))).

(** [moved]: whether [REALLOC_N] moves the block when [get2comp] appends a
    digit.  The pointer [ds] was read before: if the block moved, the loop
    writes into freed memory; if it did not, the new digit is left alone. *)
Definition rb_big_neg (moved : bool) (x : RBignum) : outcome VALUE :=
  if sign x then
    zds <- get2comp (map compl (digits x)) false ;;
    Ok (bignorm (Big (mkBig false zds)))
  else
    zds <- get2comp (digits x) true ;;
    let i := length (digits x) in
    if negb (length zds =? i)%nat && moved then Undefined
    else Ok (bignorm (Big (mkBig true (map compl (firstn i zds) ++ skipn i zds)))).

(** The loops of the binary operators: [f] digit by digit on the common part,
    [rest] on the digits of the longer operand alone, where it gets the sign
    of the shorter one. *)
Fixpoint zip_digits (f : Z -> Z -> Z) (rest : Z -> Z) (ds1 ds2 : list Z) : list Z :=
  match ds1, ds2 with
  | a :: ds1', b :: ds2' => f a b :: zip_digits f rest ds1' ds2'
  | _, _ => map rest ds2
  end.

Definition big_bitop (f : Z -> Z -> Z) (zsign : bool -> bool -> bool)
    (rest : bool -> Z -> Z) (x : RBignum) (y : VALUE) : outcome VALUE :=
  y <- int_operand y ;;
  yds <- twos y ;;
  xds <- twos x ;;
  let zds :=
    if (length yds <? length xds)%nat
    then zip_digits f (rest (sign y)) yds xds
    else zip_digits f (rest (sign x)) xds yds in
  from_twos (zsign (sign x) (sign y)) zds.

Definition and_rest (s : bool) (d : Z) : Z := if s then 0 else d.
Definition or_rest (s : bool) (d : Z) : Z := if s then d else BIGRAD - 1.
Definition xor_rest (s : bool) (d : Z) : Z := if s then d else compl d.

Definition rb_big_and : RBignum -> VALUE -> outcome VALUE := big_bitop Z.land orb and_rest.
Definition rb_big_or : RBignum -> VALUE -> outcome VALUE := big_bitop Z.lor andb or_rest.
Definition rb_big_xor : RBignum -> VALUE -> outcome VALUE :=
  big_bitop Z.lxor (fun s t => negb (xorb s t)) xor_rest.

(** [num = num | (BDIGIT_DBL)*xds++<<s2; *zds++ = BIGLO(num); num = BIGDN(num);] *)
Fixpoint lshift_loop (s2 : Z) (ds : list Z) (num : Z) : list Z * Z :=
  match ds with
  | [] => ([], num)
  | d :: ds' =>
      let num := Z.lor num (u32 (Z.shiftl d s2)) in
      let '(out, c) := lshift_loop s2 ds' (BIGDN num) in
      (BIGLO num :: out, c)
  end.

Definition lshift_body (x : RBignum) (shift : Z) : VALUE :=
  let s1 := cdiv shift BITSPERDIG in
  let s2 := cmod shift BITSPERDIG in
  let '(out, num) := lshift_loop s2 (digits x) 0 in
  bignorm (Big (mkBig (sign x) (repeat 0 (Z.to_nat s1) ++ out ++ [BIGLO num]))).

Definition rshift_body (x : RBignum) (shift : Z) : outcome VALUE :=
  let s1 := cdiv shift BITSPERDIG in
  let s2 := cmod shift BITSPERDIG in
  if len x <? s1 then Ok (Fix (if sign x then 0 else -1))
  else
    xds <- twos x ;;
    let num := if negb (sign x) then BIGUP 65535 else 0 in
    from_twos (sign x) (fst (shr_loop s2 num (skipn (Z.to_nat s1) xds))).

(** [INT2FIX(-shift)]: the tag takes the top bit. *)
Definition neg_fix (shift : Z) : VALUE := Fix (FIX2LONG (LONG2FIX (s32 (- shift)))).

(** The shifts call each other for negative counts; [fuel] is the depth of
    the C stack. *)
Fixpoint lshift_rec (fuel : nat) (x : RBignum) (y : VALUE) : outcome VALUE :=
  match fuel with
  | O => Undefined
  | S fuel =>
      shift <- NUM2LONG y ;;
      if shift <? 0 then rshift_rec fuel x (neg_fix shift) else Ok (lshift_body x shift)
  end
with rshift_rec (fuel : nat) (x : RBignum) (y : VALUE) : outcome VALUE :=
  match fuel with
  | O => Undefined
  | S fuel =>
      shift <- NUM2LONG y ;;
      if shift <? 0 then lshift_rec fuel x (neg_fix shift) else rshift_body x shift
  end.

Definition rb_big_lshift : RBignum -> VALUE -> outcome VALUE := lshift_rec 3.
Definition rb_big_rshift : RBignum -> VALUE -> outcome VALUE := rshift_rec 3.

Definition rb_big_aref (x : RBignum) (y : VALUE) : outcome Z :=
  match y with
  | Big b => Ok (if negb (sign b) || sign x then 0 else 1)
  | _ =>
      shift <- NUM2LONG y ;;
      if shift <? 0 then Ok 0
      else
        let s1 := cdiv shift BITSPERDIG in
        let s2 := cmod shift BITSPERDIG in
        if len x <=? s1 then Ok (if negb (sign x) then 1 else 0)
        else
          xds <- twos x ;;
          Ok (if Z.land (nth (Z.to_nat s1) xds 0) (Z.shiftl 1 s2) =? 0 then 0 else 1)
  end.

(** ** Two's complement values *)

(** The sign extension of a digit list and the integer it stands for. *)
Definition ext (s : bool) : Z := if s then 0 else -1.
Definition tc (s : bool) (ds : list Z) : Z := eval ds + radix (length ds) * ext s.

(** A negative list whose top bit is set. *)
Definition top_set (s : bool) (ds : list Z) : Prop :=
  s = true \/ (ds <> [] /\ radix (length ds) <= 2 * eval ds).

Lemma tc_cons s d ds : tc s (d :: ds) = d + BIGRAD * tc s ds.
Proof. unfold tc. cbn [eval length]. rewrite radix_S. ring. Qed.

Lemma tc_nil s : tc s [] = ext s.
Proof. unfold tc. cbn [eval length]. rewrite radix_0. ring. Qed.

Lemma compl_eq d : digit d -> compl d = 65535 - d.
Proof.
  unfold compl, digit, BIGRAD, u16; intros H.
  unfold Z.lnot. symmetry. apply Z.mod_unique with (-1); lia.
Qed.

Lemma compl_digit d : digit d -> digit (compl d).
Proof. intros H. rewrite compl_eq by auto. unfold digit, BIGRAD in *; lia. Qed.

Lemma map_compl_digits ds : Forall digit ds -> Forall digit (map compl ds).
Proof. induction 1; simpl; constructor; auto using compl_digit. Qed.

Lemma eval_compl ds : Forall digit ds -> eval (map compl ds) = radix (length ds) - 1 - eval ds.
Proof.
  induction 1 as [|d ds Hd Hds IH]; cbn [map eval length]; [rewrite radix_0; lia|].
  rewrite IH, compl_eq, radix_S by auto. unfold BIGRAD; lia.
Qed.

#[local] Hint Resolve compl_digit map_compl_digits : digits.

(** Without [carry] the value is negated modulo the width of the list. *)
Lemma get2comp_spec ds :
  Forall digit ds -> ds <> [] ->
  exists out, get2comp ds false = Ok out /\ Forall digit out /\ length out = length ds /\
    eval out = (if eval ds =? 0 then 0 else radix (length ds) - eval ds).
Proof.
  intros H HN. unfold get2comp. destruct ds as [|d0 ds0]; [contradiction|].
  set (ds := d0 :: ds0) in *. clearbody ds.
  pose proof (propagate_spec (map compl ds) 1 ltac:(auto with digits) ltac:(digit_fin)) as HP.
  destruct (propagate (map compl ds) 1) as [out c]. destruct HP as (HE & HL & HF).
  rewrite length_map in *. rewrite eval_compl in HE by auto.
  exists out. splits; auto.
  pose proof (eval_bound out HF) as Bo. pose proof (eval_bound ds H) as Bd. rewrite HL in Bo.
  destruct (eval ds =? 0) eqn:E; breflect.
  - assert (c = 1) by nia. subst c. lia.
  - assert (c = 0) by nia. subst c. lia.
Qed.

Lemma get2comp_false ds out :
  get2comp ds false = Ok out ->
  get2comp ds true = Ok (if Z.land (last out 0) 32768 =? 0 then out ++ [65535] else out).
Proof.
  unfold get2comp. destruct ds as [|d ds]; [discriminate|].
  destruct (propagate (map compl (d :: ds)) 1) as [o c]. cbn [negb]. intros H; injection H as ->.
  now destruct (Z.land (last out 0) 32768 =? 0).
Qed.

Lemma top_bit_clear ds :
  Forall digit ds -> ds <> [] ->
  (Z.land (last ds 0) 32768 =? 0) = (2 * eval ds <? radix (length ds)).
Proof.
  intros H HN. destruct (exists_last HN) as (t & x & ->). rewrite last_last.
  apply Forall_app in H as [Ht Hx]. inversion Hx as [|? ? Hdx _]; subst.
  rewrite digit_top_bit by auto. rewrite eval_snoc, length_app, radix_add.
  change (radix (length [x])) with (BIGRAD * 1). pose proof (eval_bound t Ht) as Bt.
  unfold BIGRAD. destruct (Z.ltb_spec x 32768); symmetry; [apply Z.ltb_lt|apply Z.ltb_ge]; nia.
Qed.

(** The digits of [twos b]: two's complement representation of the value,
    one digit longer than the magnitude when that is needed to show the sign. *)
Definition grows (b : RBignum) : bool :=
  negb (sign b) && (radix (length (digits b)) <? 2 * eval (digits b)).

Lemma twos_spec b :
  Forall digit (digits b) -> 0 < eval (digits b) \/ (sign b = true /\ digits b <> []) ->
  exists ds, twos b = Ok ds /\ Forall digit ds /\ ds <> [] /\ tc (sign b) ds = big_val b /\
    top_set (sign b) ds /\
    length ds = (length (digits b) + if grows b then 1 else 0)%nat.
Proof.
  intros H HP. assert (HN : digits b <> []).
  { destruct HP as [HP|[_ HP]]; auto. intros HX; rewrite HX in HP; simpl in HP; lia. }
  unfold twos, grows, top_set, tc, big_val, ext. destruct (sign b) eqn:Es; cbn [negb andb].
  - exists (digits b). splits; auto; lia.
  - assert (HP' : 0 < eval (digits b)) by (destruct HP as [|[? _]]; [auto|discriminate]).
    destruct (get2comp_spec (digits b) H HN) as (out & HE & HF & HL & HV).
    replace (eval (digits b) =? 0) with false in HV by (symmetry; apply Z.eqb_neq; lia).
    rewrite (get2comp_false _ _ HE).
    assert (HNo : out <> []) by (intros ->; destruct (digits b); simpl in *; [contradiction|discriminate]).
    rewrite top_bit_clear, HL by auto. pose proof (eval_bound _ H) as Bb.
    assert (HG : (2 * eval out <? radix (length (digits b))) = (radix (length (digits b)) <? 2 * eval (digits b))).
    { rewrite HV. destruct (Z.ltb_spec (radix (length (digits b))) (2 * eval (digits b)));
        [apply Z.ltb_lt|apply Z.ltb_ge]; lia. }
    rewrite HG. destruct (radix (length (digits b)) <? 2 * eval (digits b)) eqn:E; breflect.
    + exists (out ++ [65535]). rewrite eval_snoc, length_app, radix_add, HL, HV.
      change (radix (length [65535])) with (BIGRAD * 1). unfold BIGRAD.
      splits; auto; try lia.
      * apply Forall_app; split; auto. repeat constructor; unfold digit, BIGRAD; lia.
      * destruct out; discriminate.
      * right. split; [destruct out; discriminate|lia].
    + exists out. rewrite HL, HV. splits; auto; try lia. right; split; auto; lia.
Qed.

(** The tail of the operators is right unless the digits are all zero with a
    negative sign: then the carry out of the top digit is lost and the result
    is [0] instead of [- radix]. *)
Lemma from_twos_spec s ds :
  Forall digit ds -> s = true \/ ds <> [] ->
  returns (from_twos s ds) (if negb s && (eval ds =? 0) then 0 else tc s ds).
Proof.
  intros H HN. unfold from_twos, tc, ext. destruct s; cbn [negb andb bind].
  - apply returns_bignorm; auto. unfold big_val; cbn [sign digits]. lia.
  - destruct HN as [HN|HN]; [discriminate|].
    destruct (get2comp_spec ds H HN) as (out & -> & HF & HL & HV). cbn [bind].
    apply returns_bignorm; auto. unfold big_val; cbn [sign digits]. rewrite HV.
    destruct (eval ds =? 0); lia.
Qed.

Lemma top_set_nonzero s ds : top_set s ds -> negb s && (eval ds =? 0) = false.
Proof.
  intros [-> | [_ H]]; [reflexivity|]. pose proof (radix_pos (length ds)).
  replace (eval ds =? 0) with false by (symmetry; apply Z.eqb_neq; lia). apply andb_false_r.
Qed.

(** ** Complement *)

(** [~] on every branch.  The results differ from [Z.lnot] when the magnitude
    is [radix len - 1] (the carry is lost) and when [get2comp] had to append
    a digit (the stale pointer). *)
Lemma rb_big_neg_cases moved x :
  canonical (Big x) ->
  let r := radix (length (digits x)) in
  if sign x then
    returns (rb_big_neg moved x) (if eval (digits x) + 1 =? r then 0 else Z.lnot (big_val x))
  else if grows x then
    if moved then rb_big_neg moved x = Undefined
    else returns (rb_big_neg moved x) (Z.lnot (big_val x) + 65535 * r)
  else returns (rb_big_neg moved x) (Z.lnot (big_val x)).
Proof.
  intros HC r. pose proof (canonical_big_ok _ HC) as (Hd & HN & _).
  assert (HP : 0 < eval (digits x)).
  { destruct HC as (_ & _ & HF). pose proof (eval_nonneg _ Hd).
    assert (eval (digits x) <> 0); [|lia]. intros HZ.
    unfold big_val in HF. rewrite HZ in HF. destruct (sign x); discriminate. }
  pose proof (eval_bound _ Hd) as Bx. fold r in Bx.
  unfold rb_big_neg, big_val. destruct (sign x) eqn:Es.
  - destruct (get2comp_spec (map compl (digits x))) as (out & -> & HF & HL & HV);
      [auto with digits|destruct (digits x); [contradiction|discriminate]|].
    cbn [bind]. rewrite eval_compl, length_map in HV by auto. fold r in HV.
    apply returns_bignorm; auto. unfold big_val; cbn [sign digits]. rewrite HV. unfold Z.lnot.
    destruct (Z.eqb_spec (r - 1 - eval (digits x)) 0), (Z.eqb_spec (eval (digits x) + 1) r); lia.
  - destruct (twos_spec x Hd (or_introl HP)) as (ds & HT & HF & HNd & HV & _ & HL).
    unfold twos in HT. rewrite Es in HT. cbn [negb] in HT. rewrite HT. cbn [bind].
    unfold big_val, tc, ext in HV. rewrite Es in HV.
    destruct (grows x) eqn:Eg.
    + replace (length ds =? length (digits x))%nat with false by (symmetry; apply Nat.eqb_neq; lia).
      cbn [negb andb]. destruct moved; [reflexivity|].
      set (n := length (digits x)) in *.
      assert (Hds : ds = firstn n ds ++ [65535]).
      { unfold twos in HT. destruct (get2comp_spec (digits x) Hd HN) as (o & HE & _ & HLo & _).
        rewrite (get2comp_false _ _ HE) in HT. injection HT as HT.
        destruct (Z.land (last o 0) 32768 =? 0); subst ds; [|lia].
        rewrite firstn_app, HLo. fold n. rewrite Nat.sub_diag, firstn_O, app_nil_r, firstn_all2; auto. fold n in HLo. lia. }
      assert (Ln : length (firstn n ds) = n) by (rewrite length_firstn; lia).
      assert (Hsk : skipn n ds = [65535]).
      { rewrite Hds, skipn_app, Ln, Nat.sub_diag, skipn_all2 by lia. reflexivity. }
      rewrite Hsk. rewrite Hds, length_app, Ln, eval_snoc, Ln, radix_add in HV. fold r in HV.
      change (radix (length [65535])) with (BIGRAD * 1) in HV. unfold BIGRAD in HV.
      apply returns_bignorm; cbn [digits].
      { rewrite Forall_app. split; auto with digits. repeat constructor; unfold digit, BIGRAD; lia. }
      unfold big_val; cbn [sign digits].
      rewrite eval_snoc, length_map, Ln, eval_compl, Ln by auto with digits. fold r. unfold Z.lnot. lia.
    + replace (length ds =? length (digits x))%nat with true by (symmetry; apply Nat.eqb_eq; lia).
      cbn [negb andb]. rewrite firstn_all2, skipn_all2, app_nil_r by lia.
      replace (length ds) with (length (digits x)) in HV by lia. fold r in HV.
      apply returns_bignorm; cbn [digits]; auto with digits.
      unfold big_val; cbn [sign digits].
      rewrite eval_compl by auto. replace (length ds) with (length (digits x)) by lia. fold r. unfold Z.lnot. lia.
Qed.

(** ** And, or, exclusive or *)

(** What the three loops have in common: a bitwise operation [f] together
    with the sign and the tail rule the source pairs it with. *)
Class BitOp (f : Z -> Z -> Z) (zsign : bool -> bool -> bool) (rest : bool -> Z -> Z) : Prop := {
  bitop_digit : forall a b, digit a -> digit b -> digit (f a b);
  bitop_cons : forall a b d e, digit a -> digit b ->
    f (a + BIGRAD * d) (b + BIGRAD * e) = f a b + BIGRAD * f d e;
  bitop_ext : forall s t, f (ext s) (ext t) = ext (zsign s t);
  bitop_rest_digit : forall s d, digit d -> digit (rest s d);
  bitop_rest : forall s d e, digit d ->
    f (ext s) (d + BIGRAD * e) = rest s d + BIGRAD * f (ext s) e;
  bitop_comm : forall a b, f a b = f b a;
  bitop_sign_comm : forall s t, zsign s t = zsign t s
}.

Lemma digit_testbit_high d m : digit d -> 16 <= m -> Z.testbit d m = false.
Proof.
  intros Hd Hm. replace d with (d mod 2 ^ 16) by (apply Z.mod_small; exact Hd).
  apply Z.mod_pow2_bits_high; lia.
Qed.

Lemma digit_of_bits d : 0 <= d -> (forall m, 16 <= m -> Z.testbit d m = false) -> digit d.
Proof.
  intros H0 H. assert (HM : d = d mod 2 ^ 16).
  { apply Z.bits_inj'; intros m Hm. destruct (Z.lt_ge_cases m 16).
    - symmetry. apply Z.mod_pow2_bits_low; lia.
    - rewrite H, Z.mod_pow2_bits_high by lia. reflexivity. }
  rewrite HM. apply Z.mod_pos_bound. reflexivity.
Qed.

Lemma testbit_digit_cons a d m :
  digit a -> 0 <= m ->
  Z.testbit (a + BIGRAD * d) m = if m <? 16 then Z.testbit a m else Z.testbit d (m - 16).
Proof.
  intros Ha Hm. rewrite Z.add_comm, <- lor_disjoint_digit by auto.
  change BIGRAD with (2 ^ 16). rewrite Z.lor_spec, Z.mul_comm, Z.mul_pow2_bits by lia.
  destruct (Z.ltb_spec m 16).
  - now rewrite (Z.testbit_neg_r d) by lia.
  - rewrite (digit_testbit_high a) by (auto; lia). apply orb_false_r.
Qed.

(** A bitwise operation works digit by digit. *)
Lemma bitwise_cons (f : Z -> Z -> Z) (g : bool -> bool -> bool) :
  (forall a b m, Z.testbit (f a b) m = g (Z.testbit a m) (Z.testbit b m)) ->
  (forall a b, 0 <= a -> 0 <= b -> 0 <= f a b) -> g false false = false ->
  (forall a b, digit a -> digit b -> digit (f a b)) /\
  (forall a b d e, digit a -> digit b ->
     f (a + BIGRAD * d) (b + BIGRAD * e) = f a b + BIGRAD * f d e).
Proof.
  intros Hg Hpos Hff.
  assert (HD : forall a b, digit a -> digit b -> digit (f a b)).
  { intros a b Ha Hb. apply digit_of_bits; [apply Hpos; unfold digit in *; lia|].
    intros m Hm. now rewrite Hg, !digit_testbit_high. }
  split; auto. intros a b d e Ha Hb. apply Z.bits_inj'; intros m Hm.
  rewrite Hg, !testbit_digit_cons by auto. destruct (m <? 16); now rewrite Hg.
Qed.

Lemma ext_cons s : ext s = (if s then 0 else 65535) + BIGRAD * ext s.
Proof. destruct s; reflexivity. Qed.

Lemma land_cons :
  (forall a b, digit a -> digit b -> digit (Z.land a b)) /\
  (forall a b d e, digit a -> digit b ->
     Z.land (a + BIGRAD * d) (b + BIGRAD * e) = Z.land a b + BIGRAD * Z.land d e).
Proof.
  apply (bitwise_cons Z.land andb); auto using Z.land_spec.
  intros; apply Z.land_nonneg; auto.
Qed.

Lemma lor_cons :
  (forall a b, digit a -> digit b -> digit (Z.lor a b)) /\
  (forall a b d e, digit a -> digit b ->
     Z.lor (a + BIGRAD * d) (b + BIGRAD * e) = Z.lor a b + BIGRAD * Z.lor d e).
Proof.
  apply (bitwise_cons Z.lor orb); auto using Z.lor_spec.
  intros; apply Z.lor_nonneg; auto.
Qed.

Lemma lxor_cons :
  (forall a b, digit a -> digit b -> digit (Z.lxor a b)) /\
  (forall a b d e, digit a -> digit b ->
     Z.lxor (a + BIGRAD * d) (b + BIGRAD * e) = Z.lxor a b + BIGRAD * Z.lxor d e).
Proof.
  apply (bitwise_cons Z.lxor xorb); auto using Z.lxor_spec.
  intros; apply Z.lxor_nonneg; tauto.
Qed.

#[export] Instance BitOp_and : BitOp Z.land orb and_rest.
Proof.
  split; auto using Z.land_comm, orb_comm; try apply land_cons.
  - now intros [] [].
  - intros [] d Hd; simpl; auto with digits.
  - intros [] d e Hd; cbn [ext and_rest or_rest xor_rest]; rewrite ?Z.land_0_l, ?Z.land_m1_l; lia.
Qed.

#[export] Instance BitOp_or : BitOp Z.lor andb or_rest.
Proof.
  split; auto using Z.lor_comm, andb_comm; try apply lor_cons.
  - now intros [] [].
  - intros [] d Hd; simpl; auto. unfold digit, BIGRAD; lia.
  - intros [] d e Hd; cbn [ext and_rest or_rest xor_rest]; rewrite ?Z.lor_0_l, ?Z.lor_m1_l; unfold BIGRAD; lia.
Qed.

#[export] Instance BitOp_xor : BitOp Z.lxor (fun s t => negb (xorb s t)) xor_rest.
Proof.
  split; try apply lxor_cons; auto using Z.lxor_comm.
  - now intros [] [].
  - intros [] d Hd; simpl; auto with digits.
  - intros [] d e Hd; cbn [ext and_rest or_rest xor_rest]; rewrite ?Z.lxor_0_l, ?Z.lxor_m1_l; [lia|].
    rewrite compl_eq by auto. unfold Z.lnot, BIGRAD. lia.
  - intros [] []; reflexivity.
Qed.

Section BitOps.
Context {f zsign rest} {HB : BitOp f zsign rest}.

Lemma zip_digits_spec s t ds1 ds2 :
  Forall digit ds1 -> Forall digit ds2 -> (length ds1 <= length ds2)%nat ->
  let zds := zip_digits f (rest s) ds1 ds2 in
  tc (zsign s t) zds = f (tc s ds1) (tc t ds2) /\ Forall digit zds /\ length zds = length ds2.
Proof.
  intros H1; revert ds2; induction H1 as [|a ds1 Ha H1 IH]; intros ds2 H2 HL zds.
  - replace (f (tc s []) (tc t ds2)) with (f (ext s) (tc t ds2)) by now rewrite tc_nil.
    unfold zds; clear zds HL.
    replace (zip_digits f (rest s) [] ds2) with (map (rest s) ds2) by now destruct ds2.
    induction H2 as [|b ds2 Hb H2 IH]; cbn [map].
    + rewrite !tc_nil, bitop_ext. auto.
    + destruct IH as (HE & HF & HLn). rewrite !tc_cons, HE, bitop_rest by auto.
      splits; auto; [constructor; auto; now apply (@bitop_rest_digit f zsign rest HB)|simpl; lia].
  - destruct H2 as [|b ds2 Hb H2]; [simpl in HL; lia|]. simpl in HL.
    destruct (IH ds2 H2 ltac:(lia)) as (HE & HF & HLn).
    unfold zds; cbn [zip_digits]. rewrite !tc_cons, HE, bitop_cons by auto.
    splits; auto; [constructor; auto; now apply (@bitop_digit f zsign rest HB)|simpl; lia].
Qed.

(** Number of digits a binary bit operation works on. *)
Definition bitop_width (x y : RBignum) : nat :=
  Nat.max (length (digits x) + if grows x then 1 else 0)
          (length (digits y) + if grows y then 1 else 0).

(** The operators compute [f], except that [- radix width], which has no
    representation on [width] digits, comes out as [0]. *)
Lemma big_bitop_cases x y b :
  canonical (Big x) -> integral y -> canonical y -> int_operand y = Ok b ->
  returns (big_bitop f zsign rest x y)
    (if f (big_val x) (value y) =? - radix (bitop_width x b) then 0 else f (big_val x) (value y)).
Proof.
  intros Hx HI HC Ho. pose proof (canonical_big_ok _ Hx) as Ox.
  destruct (int_operand_spec y HI HC) as (b' & Ho' & Ob & Vb).
  rewrite Ho in Ho'; injection Ho' as <-. rewrite <- Vb.
  assert (HPx : 0 < eval (digits x) \/ (sign x = true /\ digits x <> [])).
  { destruct Hx as (Hd & _ & HF). left. pose proof (eval_nonneg _ Hd).
    assert (eval (digits x) <> 0); [|lia]. intros HZ.
    unfold big_val in HF. rewrite HZ in HF. destruct (sign x); discriminate. }
  assert (HPb : 0 < eval (digits b) \/ (sign b = true /\ digits b <> [])).
  { destruct (sign b) eqn:Es; [right; split; auto; apply Ob|left].
    pose proof (int_operand_neg y b HI HC Ho Es). unfold big_val in Vb. rewrite Es in Vb. lia. }
  destruct (twos_spec x (proj1 Ox) HPx) as (xds & HTx & Fx & Nx & Vx & _ & Lx).
  destruct (twos_spec b (proj1 Ob) HPb) as (yds & HTy & Fy & Ny & Vy & _ & Ly).
  unfold big_bitop. rewrite Ho. cbn [bind]. rewrite HTy. cbn [bind]. rewrite HTx. cbn [bind].
  set (zds := if (length yds <? length xds)%nat then _ else _).
  assert (HZ : tc (zsign (sign x) (sign b)) zds = f (big_val x) (big_val b) /\
    Forall digit zds /\ length zds = bitop_width x b).
  { unfold zds, bitop_width. rewrite <- Vx, <- Vy, <- Lx, <- Ly.
    destruct (length yds <? length xds)%nat eqn:E; breflect.
    - rewrite bitop_sign_comm, bitop_comm.
      destruct (zip_digits_spec (sign b) (sign x) yds xds Fy Fx ltac:(lia)) as (H1 & H2 & H3).
      splits; auto; lia.
    - destruct (zip_digits_spec (sign x) (sign b) xds yds Fx Fy ltac:(lia)) as (H1 & H2 & H3).
      splits; auto; lia. }
  destruct HZ as (HV & HF & HL). clearbody zds.
  assert (HN : zds <> []).
  { intros ->. simpl in HL. unfold bitop_width in HL. destruct xds; [contradiction|]. simpl in Lx. lia. }
  pose proof (from_twos_spec (zsign (sign x) (sign b)) zds HF (or_intror HN)) as HR.
  rewrite HV in HR. rewrite <- HL.
  replace (negb (zsign (sign x) (sign b)) && (eval zds =? 0))
    with (f (big_val x) (big_val b) =? - radix (length zds)) in HR; [exact HR|].
  rewrite <- HV. unfold tc, ext. pose proof (radix_pos (length zds)). pose proof (eval_nonneg _ HF).
  destruct (zsign (sign x) (sign b)); cbn [negb andb].
  - apply Z.eqb_neq; lia.
  - apply eq_true_iff_eq. rewrite !Z.eqb_eq. lia.
Qed.
End BitOps.

(** At the width of the operation an operand has a sign bit, or one bit more. *)
Lemma operand_top_bits x w :
  Forall digit (digits x) -> digits x <> [] ->
  (length (digits x) + (if grows x then 1 else 0) <= w)%nat ->
  -1 <= Z.shiftr (big_val x) (16 * Z.of_nat w - 1) <= 1.
Proof.
  intros Hd HN HW. pose proof (eval_bound _ Hd) as B.
  assert (HL : (1 <= length (digits x))%nat) by (destruct (digits x); [contradiction|simpl; lia]).
  assert (Hw : radix w = 2 * 2 ^ (16 * Z.of_nat w - 1)).
  { rewrite radix_shift. rewrite <- Z.pow_succ_r by lia. f_equal. lia. }
  rewrite Z.shiftr_div_pow2 by lia. set (h := 2 ^ (16 * Z.of_nat w - 1)) in *.
  assert (0 < h) by (apply Z.pow_pos_nonneg; lia).
  assert (Hv : - h <= big_val x < 2 * h).
  { unfold grows, big_val in *. destruct (sign x); cbn [negb andb] in *.
    - pose proof (radix_mono (length (digits x)) w ltac:(lia)). lia.
    - destruct (radix (length (digits x)) <? 2 * eval (digits x)) eqn:E; breflect.
      + pose proof (radix_mono (S (length (digits x))) w ltac:(lia)). rewrite radix_S in *. unfold BIGRAD in *. lia.
      + pose proof (radix_mono (length (digits x)) w ltac:(lia)). lia. }
  split; [apply Z.div_le_lower_bound; lia|].
  assert (big_val x / h < 2); [apply Z.div_lt_upper_bound; lia|lia].
Qed.

(** [&] and [|] never meet the value that is lost. *)
Lemma and_or_in_width (f : Z -> Z -> Z) x b :
  (f = Z.land \/ f = Z.lor) -> big_ok x -> big_ok b ->
  (f (big_val x) (big_val b) =? - radix (bitop_width x b)) = false.
Proof.
  intros Hf (Hdx & HNx & _) (Hdb & HNb & _).
  set (w := bitop_width x b).
  pose proof (operand_top_bits x w Hdx HNx ltac:(unfold w, bitop_width; lia)) as Bx.
  pose proof (operand_top_bits b w Hdb HNb ltac:(unfold w, bitop_width; lia)) as Bb.
  assert (Hw : (1 <= w)%nat).
  { unfold w, bitop_width. destruct (digits x); [contradiction|cbn [length]; lia]. }
  set (k := 16 * Z.of_nat w - 1) in *. apply Z.eqb_neq. intros HE.
  assert (HS : Z.shiftr (f (big_val x) (big_val b)) k = -2).
  { rewrite HE, radix_shift, Z.shiftr_div_pow2 by lia.
    replace (16 * Z.of_nat w) with (Z.succ k) by lia. rewrite Z.pow_succ_r by lia.
    rewrite <- Z.mul_opp_l. apply Z.div_mul. apply Z.pow_nonzero; lia. }
  assert (HC : f (Z.shiftr (big_val x) k) (Z.shiftr (big_val b) k) = -2).
  { destruct Hf as [-> | ->]; [rewrite <- Z.shiftr_land|rewrite <- Z.shiftr_lor]; exact HS. }
  set (u := Z.shiftr (big_val x) k) in *. set (v := Z.shiftr (big_val b) k) in *. clearbody u v.
  assert (Hu : u = -1 \/ u = 0 \/ u = 1) by lia. assert (Hv : v = -1 \/ v = 0 \/ v = 1) by lia.
  destruct Hf as [-> | ->], Hu as [-> | [-> | ->]], Hv as [-> | [-> | ->]]; discriminate HC.
Qed.

Lemma rb_big_and_ok x y :
  canonical (Big x) -> integral y -> canonical y ->
  returns (rb_big_and x y) (Z.land (big_val x) (value y)).
Proof.
  intros Hx HI HC. destruct (int_operand_spec y HI HC) as (b & Ho & Ob & Vb).
  pose proof (big_bitop_cases (f := Z.land) x y b Hx HI HC Ho) as H. rewrite <- Vb in H |- *.
  rewrite (and_or_in_width Z.land x b) in H; auto with bignum.
Qed.

Lemma rb_big_or_ok x y :
  canonical (Big x) -> integral y -> canonical y ->
  returns (rb_big_or x y) (Z.lor (big_val x) (value y)).
Proof.
  intros Hx HI HC. destruct (int_operand_spec y HI HC) as (b & Ho & Ob & Vb).
  pose proof (big_bitop_cases (f := Z.lor) x y b Hx HI HC Ho) as H. rewrite <- Vb in H |- *.
  rewrite (and_or_in_width Z.lor x b) in H; auto with bignum.
Qed.

(** ** Shifts *)

Lemma lshift_loop_eq s2 ds num :
  0 <= s2 <= 15 -> Forall digit ds -> 0 <= num < 2 ^ s2 -> lshift_loop s2 ds num = shl_loop s2 ds num.
Proof.
  intros Hs H; revert num; induction H as [|d ds Hd Hds IH]; intros num Hn; cbn [lshift_loop shl_loop]; auto.
  pose proof (Z.pow_le_mono_r 2 s2 15). change (2 ^ 15) with 32768 in *.
  unfold digit, BIGRAD in Hd. rewrite Z.shiftl_mul_pow2 by lia.
  rewrite (u32_small (d * _)) by nia. rewrite lor_add_low by lia. rewrite u32_small by nia.
  rewrite IH; auto. rewrite BIGDN_eq. unfold BIGRAD.
  split; [apply Z.div_pos; nia|apply Z.div_lt_upper_bound; nia].
Qed.

(** The C quotient and remainder of a shift count. *)
Lemma shift_split shift :
  0 <= shift ->
  let s1 := cdiv shift BITSPERDIG in let s2 := cmod shift BITSPERDIG in
  0 <= s1 /\ 0 <= s2 <= 15 /\ shift = 16 * s1 + s2 /\ 2 ^ shift = radix (Z.to_nat s1) * 2 ^ s2.
Proof.
  intros Hs s1 s2. unfold cdiv, cmod, BITSPERDIG in *.
  assert (H1 : s1 = shift / 16) by (apply Z.quot_div_nonneg; lia).
  assert (H2 : s2 = shift mod 16) by (apply Z.rem_mod_nonneg; lia).
  pose proof (Z.div_mod shift 16). pose proof (Z.mod_pos_bound shift 16).
  splits; try lia. rewrite radix_shift, Z2Nat.id, <- Z.pow_add_r by lia. f_equal. lia.
Qed.

Lemma lshift_body_ok x shift :
  Forall digit (digits x) -> 0 <= shift ->
  returns (Ok (lshift_body x shift)) (big_val x * 2 ^ shift).
Proof.
  intros Hd Hs. destruct (shift_split shift Hs) as (H1 & H2 & HE & HP).
  unfold lshift_body.
  set (s1 := cdiv shift BITSPERDIG) in *. set (s2 := cmod shift BITSPERDIG) in *.
  assert (Hp2 : 0 < 2 ^ s2) by (apply Z.pow_pos_nonneg; lia).
  rewrite lshift_loop_eq by (auto; lia).
  pose proof (shl_loop_spec s2 (digits x) 0 H2 Hd ltac:(lia)) as HL.
  destruct (shl_loop s2 (digits x) 0) as [out num]. destruct HL as (HV & HN & HF & HLn).
  pose proof (Z.pow_le_mono_r 2 s2 15). change (2 ^ 15) with 32768 in *.
  apply returns_bignorm; cbn [digits].
  - rewrite !Forall_app. splits; auto with digits.
  - unfold big_val; cbn [sign digits]. rewrite eval_app, eval_repeat_0, repeat_length, eval_snoc.
    rewrite BIGLO_small by digit_fin. rewrite HP, HLn.
    replace (eval out + radix (length (digits x)) * num) with (eval (digits x) * 2 ^ s2) by lia.
    destruct (sign x); ring.
Qed.

Lemma top_set_skipn s n ds :
  Forall digit ds -> (n < length ds)%nat -> top_set s ds -> top_set s (skipn n ds).
Proof.
  intros Hd Hn [-> | [HN HT]]; [now left|right].
  assert (HL : length (skipn n ds) = (length ds - n)%nat) by apply length_skipn.
  split; [intros HX; rewrite HX in HL; simpl in HL; lia|].
  rewrite (eval_firstn_skipn n ds) in HT by lia.
  pose proof (eval_bound (firstn n ds) ltac:(auto with digits)) as B.
  rewrite length_firstn, Nat.min_l in B by lia.
  replace (length ds) with (n + length (skipn n ds))%nat in HT by lia. rewrite radix_add in HT.
  destruct (length (skipn n ds)) as [|m] eqn:E; [lia|]. rewrite radix_even in *.
  pose proof (radix_pos n). nia.
Qed.

Lemma tc_skipn s n ds :
  Forall digit ds -> (n <= length ds)%nat -> tc s (skipn n ds) = tc s ds / radix n.
Proof.
  intros Hd Hn. unfold tc. rewrite (eval_firstn_skipn n ds) by lia.
  pose proof (eval_bound (firstn n ds) ltac:(auto with digits)) as B.
  rewrite length_firstn, Nat.min_l in B by lia.
  replace (length ds) with (n + length (skipn n ds))%nat by (rewrite length_skipn; lia).
  rewrite radix_add. apply Z.div_unique with (eval (firstn n ds)); [left; exact B|ring].
Qed.

(** The loop of [rb_big_rshift] shifts a two's complement list. *)
Lemma shr_loop_tc s s2 ds :
  0 <= s2 <= 15 -> Forall digit ds -> top_set s ds ->
  let out := fst (shr_loop s2 (if negb s then BIGUP 65535 else 0) ds) in
  Forall digit out /\ length out = length ds /\ tc s out = tc s ds / 2 ^ s2 /\
  (negb s && (eval out =? 0) = false).
Proof.
  intros Hs Hd HT out. pose proof (eval_bound _ Hd) as B. pose proof (radix_pos (length ds)) as Hr.
  assert (Hp2 : 0 < 2 ^ s2) by (apply Z.pow_pos_nonneg; lia).
  assert (H16 : 65536 = 2 ^ (16 - s2) * 2 ^ s2).
  { rewrite <- Z.pow_add_r by lia. now replace (16 - s2 + s2) with 16 by lia. }
  destruct s; cbn [negb] in out.
  - destruct (shr_loop_spec s2 0 ds Hs digit_0 Hd) as (HE & HF & HL & _).
    change (BIGUP 0) with 0 in *. fold out in HE, HF, HL. splits; auto.
    unfold tc, ext. rewrite HE, eval_snoc, !Z.mul_0_r, !Z.add_0_r.
    apply Z.mod_small. split; [apply Z.div_pos; lia|].
    apply Z.le_lt_trans with (eval ds); [|lia]. apply Z.div_le_upper_bound; nia.
  - destruct HT as [HT|[HN HT]]; [discriminate|].
    destruct (shr_loop_spec s2 65535 ds Hs ltac:(digit_fin) Hd) as (HE & HF & HL & _).
    fold out in HE, HF, HL.
    assert (HV : eval out = (eval ds - radix (length ds)) / 2 ^ s2 + radix (length ds)).
    { rewrite HE, eval_snoc. set (r := radix (length ds)) in *.
      replace (eval ds + r * 65535) with (eval ds - r + (r * 2 ^ (16 - s2)) * 2 ^ s2) by (rewrite <- Z.mul_assoc, <- H16; lia).
      rewrite Z.div_add by lia. set (q := (eval ds - r) / 2 ^ s2).
      assert (Hq : - r <= q < 0).
      { split; [apply Z.div_le_lower_bound; nia|apply Z.div_lt_upper_bound; lia]. }
      symmetry. apply Z.mod_unique with (2 ^ (16 - s2) - 1); [left; lia|]. ring. }
    assert (Hq : - radix (length ds) <= 2 * ((eval ds - radix (length ds)) / 2 ^ s2)).
    { set (r := radix (length ds)) in *. destruct (length ds) as [|m] eqn:El; [destruct ds; [contradiction|discriminate]|].
      unfold r in *. rewrite radix_even in *. set (h := 32768 * radix m) in *.
      assert (- h <= (eval ds - 2 * h) / 2 ^ s2); [|lia]. apply Z.div_le_lower_bound; nia. }
    splits; auto.
    + unfold tc, ext. rewrite HL. replace (eval ds + radix (length ds) * -1) with (eval ds - radix (length ds)) by lia. lia.
    + cbn [negb andb]. apply Z.eqb_neq. lia.
Qed.

(** [>>] on every branch: the arithmetic shift, except that a negative number
    shifted by exactly all its digits makes [get2comp] work on an empty
    block. *)
Lemma rshift_body_cases x shift :
  canonical (Big x) -> 0 <= shift ->
  if negb (sign x) && (cdiv shift BITSPERDIG =? len x) && negb (grows x)
  then rshift_body x shift = Undefined
  else returns (rshift_body x shift) (Z.shiftr (big_val x) shift).
Proof.
  intros Hx Hs. pose proof (canonical_nonzero x Hx) as HP.
  destruct (shift_split shift Hs) as (H1 & H2 & HE & Hpow). destruct Hx as (Hd & _ & _).
  unfold rshift_body. set (s1 := cdiv shift BITSPERDIG) in *. set (s2 := cmod shift BITSPERDIG) in *.
  destruct (twos_spec x Hd (or_introl HP)) as (ds & HT & Fd & Nd & Vd & Td & Ld).
  rewrite Z.shiftr_div_pow2, Hpow by lia. pose proof (radix_pos (Z.to_nat s1)) as Hr1.
  assert (Hp2 : 0 < 2 ^ s2) by (apply Z.pow_pos_nonneg; lia).
  pose proof (eval_bound _ Hd) as B. unfold len.
  destruct (Z.of_nat (length (digits x)) <? s1) eqn:E; breflect.
  - replace (s1 =? Z.of_nat (length (digits x))) with false by (symmetry; apply Z.eqb_neq; lia).
    rewrite andb_false_r. cbn [andb].
    pose proof (radix_mono (length (digits x)) (Z.to_nat s1) ltac:(lia)).
    assert (eval (digits x) < radix (Z.to_nat s1) * 2 ^ s2) by nia.
    apply returns_Fix'; [now destruct (sign x)|]. unfold big_val. destruct (sign x); symmetry.
    + apply Z.div_small; lia.
    + symmetry; apply Z.div_unique with (radix (Z.to_nat s1) * 2 ^ s2 - eval (digits x)); [left; lia|lia].
  - rewrite HT. cbn [bind].
    destruct (Nat.eq_dec (Z.to_nat s1) (length ds)) as [Heq|Hne].
    + replace (s1 =? Z.of_nat (length (digits x))) with (negb (grows x)).
      2:{ destruct (grows x); cbn [negb]; symmetry; [apply Z.eqb_neq|apply Z.eqb_eq]; lia. }
      rewrite skipn_all2 by lia. cbn [shr_loop fst].
      destruct (grows x) eqn:Eg; cbn [negb]; rewrite ?andb_false_r, ?andb_true_r; [lia|].
      destruct (sign x) eqn:Es; cbn [negb]; [|reflexivity].
      apply returns_Fix'; [reflexivity|]. unfold big_val. rewrite Es. symmetry. apply Z.div_small.
      rewrite Heq, Ld, Nat.add_0_r. nia.
    + assert (HL : (Z.to_nat s1 < length ds)%nat) by (destruct (grows x); lia).
      pose proof (top_set_skipn _ _ _ Fd HL Td) as Tsk.
      destruct (shr_loop_tc (sign x) s2 (skipn (Z.to_nat s1) ds) H2 ltac:(auto with digits) Tsk) as (Fo & Lo & Vo & Zo).
      replace (negb (sign x) && (s1 =? Z.of_nat (length (digits x))) && negb (grows x)) with false.
      2:{ symmetry. destruct (grows x); cbn [negb]; rewrite ?andb_false_r; auto.
          replace (s1 =? Z.of_nat (length (digits x))) with false by (symmetry; apply Z.eqb_neq; lia).
          now rewrite andb_false_r. }
      set (out := fst _) in *. rewrite tc_skipn, Vd, Z.div_div in Vo by (auto; lia).
      rewrite <- Vo. pose proof (from_twos_spec (sign x) out Fo) as HR. rewrite Zo in HR. apply HR.
      right. intros HX. rewrite HX in Lo. simpl in Lo. rewrite length_skipn in Lo. lia.
Qed.

Lemma neg_fix_small n : -1073741824 < n < 0 -> neg_fix n = Fix (- n).
Proof.
  intros H. unfold neg_fix. rewrite s32_small, FIX2LONG_LONG2FIX_small by (try apply FIXABLE_iff; lia). reflexivity.
Qed.

(** Left and right shift unfold into each other at most once for counts above
    [- 2^30]. *)
Lemma shift_rec_dispatch fuel x y n :
  NUM2LONG y = Ok n -> -1073741824 < n ->
  lshift_rec (S (S fuel)) x y = (if n <? 0 then rshift_body x (- n) else Ok (lshift_body x n)) /\
  rshift_rec (S (S fuel)) x y = (if n <? 0 then Ok (lshift_body x (- n)) else rshift_body x n).
Proof.
  intros HN Hn. cbn [lshift_rec rshift_rec]. rewrite HN. cbn [bind].
  destruct (n <? 0) eqn:E; breflect; auto.
  rewrite neg_fix_small by lia. cbn [NUM2LONG bind].
  replace (- n <? 0) with false by (symmetry; apply Z.ltb_ge; lia). auto.
Qed.

Lemma NUM2LONG_range y n :
  integral y -> canonical y -> NUM2LONG y = Ok n -> n = value y /\ LONG_MIN <= n <= LONG_MAX.
Proof.
  intros HI HC. rewrite NUM2LONG_ok by auto. case_if; intros HX; inversion HX; subst; split; auto; lia.
Qed.

(** [INT2FIX(-(-2^30))] is [-2^30] again: the two functions call each other
    for ever. *)
Lemma shift_rec_diverges fuel x :
  lshift_rec fuel x (Fix FIXNUM_MIN) = Undefined /\ rshift_rec fuel x (Fix FIXNUM_MIN) = Undefined.
Proof.
  induction fuel as [|fuel [IHl IHr]]; [now split|].
  cbn [lshift_rec rshift_rec NUM2LONG bind].
  change (FIXNUM_MIN <? 0) with true. cbv iota.
  change (neg_fix FIXNUM_MIN) with (Fix FIXNUM_MIN). auto.
Qed.


(** Bit [16 * i + j] of a two's complement list is bit [j] of digit [i]. *)
Lemma tc_testbit s ds i j :
  Forall digit ds -> (i < length ds)%nat -> 0 <= j < 16 ->
  Z.testbit (tc s ds) (16 * Z.of_nat i + j) = Z.testbit (nth i ds 0) j.
Proof.
  intros H; revert i; induction H as [|d ds Hd Hds IH]; intros i Hi Hj; simpl in Hi; [lia|].
  rewrite tc_cons, testbit_digit_cons by (auto; lia). destruct i as [|i]; cbn [nth].
  - replace (16 * Z.of_nat 0 + j <? 16) with true by (symmetry; apply Z.ltb_lt; lia). f_equal; lia.
  - replace (16 * Z.of_nat (S i) + j <? 16) with false by (symmetry; apply Z.ltb_ge; lia).
    replace (16 * Z.of_nat (S i) + j - 16) with (16 * Z.of_nat i + j) by lia. apply IH; auto; lia.
Qed.

Lemma testbit_small_range v w n :
  - 2 ^ w <= v < 2 ^ w -> 0 <= w <= n -> Z.testbit v n = (v <? 0).
Proof.
  intros Hv Hw. rewrite Z.testbit_odd, Z.shiftr_div_pow2 by lia.
  pose proof (Z.pow_le_mono_r 2 w n ltac:(lia) ltac:(lia)).
  destruct (Z.ltb_spec v 0).
  - replace (v / 2 ^ n) with (-1); [reflexivity|]. symmetry.
    symmetry; apply Z.div_unique with (v + 2 ^ n); [left; lia|lia].
  - now rewrite Z.div_small by lia.
Qed.

Lemma rb_big_aref_long x y n :
  canonical (Big x) -> NUM2LONG y = Ok n -> (forall b, y <> Big b) ->
  rb_big_aref x y = Ok (Z.b2z (Z.testbit (big_val x) n)).
Proof.
  intros Hx HN Hy. pose proof (canonical_nonzero x Hx) as HP. pose proof Hx as (Hd & _ & _).
  unfold rb_big_aref. rewrite HN. destruct y as [m|b|o]; [|now destruct (Hy b)|discriminate]. clear Hy.
  cbn [bind]. destruct (n <? 0) eqn:E; breflect; [now rewrite Z.testbit_neg_r by lia|].
  destruct (shift_split n E) as (H1 & H2 & HE & _).
  set (s1 := cdiv n BITSPERDIG) in *. set (s2 := cmod n BITSPERDIG) in *.
  pose proof (eval_bound _ Hd) as B. unfold len.
  destruct (Z.of_nat (length (digits x)) <=? s1) eqn:E1; breflect.
  - rewrite (testbit_small_range _ (16 * Z.of_nat (length (digits x)))); [|rewrite <- radix_shift|lia].
    + unfold big_val. destruct (sign x).
      * replace (eval (digits x) <? 0) with false by (symmetry; apply Z.ltb_ge; lia). reflexivity.
      * replace (- eval (digits x) <? 0) with true by (symmetry; apply Z.ltb_lt; lia). reflexivity.
    + unfold big_val. destruct (sign x); lia.
  - destruct (twos_spec x Hd (or_introl HP)) as (ds & -> & Fd & Nd & Vd & Td & Ld). cbn [bind].
    rewrite <- Vd. rewrite Z.shiftl_mul_pow2, Z.mul_1_l, land_pow2 by lia.
    rewrite HE. rewrite <- (Z2Nat.id s1) at 2 by lia. rewrite tc_testbit by (auto; lia).
    destruct (Z.testbit (nth (Z.to_nat s1) ds 0) s2); [|reflexivity].
    replace (2 ^ s2 =? 0) with false; [reflexivity|]. symmetry. apply Z.eqb_neq. apply Z.pow_nonzero; lia.
Qed.

(** A Bignum index is beyond every digit: the sign is the answer. *)
Lemma rb_big_aref_ok x y :
  canonical (Big x) -> integral y -> canonical y ->
  (forall b, y = Big b -> radix (length (digits x)) <= 2 ^ Z.abs (value y)) ->
  rb_big_aref x y = Ok (Z.b2z (Z.testbit (big_val x) (value y))).
Proof.
  intros Hx HI HC HB. pose proof (canonical_nonzero x Hx) as HP. pose proof Hx as (Hd & _ & _).
  pose proof (eval_bound _ Hd) as B. destruct y as [n|b|o]; [| |contradiction].
  - apply rb_big_aref_long; auto. discriminate.
  - specialize (HB b eq_refl). cbn [rb_big_aref value] in *.
    pose proof (canonical_nonzero b HC) as HPb. unfold big_val in HB |- * at 2.
    destruct (sign b) eqn:Eb; cbn [negb orb].
    + rewrite Z.abs_eq in HB by lia. rewrite radix_shift in HB.
      rewrite (testbit_small_range _ (16 * Z.of_nat (length (digits x)))).
      * unfold big_val. destruct (sign x); cbn [negb].
        -- replace (eval (digits x) <? 0) with false by (symmetry; apply Z.ltb_ge; lia). reflexivity.
        -- replace (- eval (digits x) <? 0) with true by (symmetry; apply Z.ltb_lt; lia). reflexivity.
      * rewrite <- radix_shift. unfold big_val. destruct (sign x); lia.
      * split; [lia|]. apply (Z.pow_le_mono_r_iff 2); lia.
    + rewrite Z.testbit_neg_r by lia. reflexivity.
Qed.

(** ** Properties *)

(** [rb_big_and] and [rb_big_or] on sign and magnitude are the bitwise
    operations on infinite two's complement integers. *)
Theorem big_and_or x y :
  canonical (Big x) -> integral y -> canonical y ->
  returns (rb_big_and x y) (Z.land (big_val x) (value y)) /\
  returns (rb_big_or x y) (Z.lor (big_val x) (value y)).
Proof. intros Cx Iy Cy. split; [now apply rb_big_and_ok|now apply rb_big_or_ok]. Qed.

Lemma big_and_or_witness :
  returns (rb_big_and (mkBig false [0; 0; 1]) (Big (mkBig true [65535; 65535; 7]))) 30064771072 /\
  returns (rb_big_or (mkBig false [0; 0; 1]) (Big (mkBig true [65535; 65535; 7]))) (-1).
Proof. apply (big_and_or (mkBig false [0; 0; 1]) (Big (mkBig true [65535; 65535; 7]))); concrete. Defined.

(** [rb_big_xor] is exclusive or, except that a result of minus a power of
    the radix, which needs one digit more than the operands, is lost and
    becomes 0: [get2comp(z, Qfalse)] drops the carry.  The witness is such a
    result. *)
Theorem big_xor_cases x y b :
  canonical (Big x) -> integral y -> canonical y -> int_operand y = Ok b ->
  returns (rb_big_xor x y)
    (if Z.lxor (big_val x) (value y) =? - radix (bitop_width x b) then 0
     else Z.lxor (big_val x) (value y)).
Proof. apply big_bitop_cases. Qed.

Lemma big_xor_cases_witness :
  returns (rb_big_xor (mkBig false [0; 32768]) (Big (mkBig true [0; 32768])))
    (if Z.lxor (-2147483648) 2147483648 =? -4294967296 then 0 else Z.lxor (-2147483648) 2147483648).
Proof.
  apply (big_xor_cases (mkBig false [0; 32768]) (Big (mkBig true [0; 32768])) (mkBig true [0; 32768]));
    [concrete..|reflexivity].
Defined.

(** [rb_big_neg] is the complement, with two exceptions: it is 0 when all
    bits of a positive number are set, and for a negative number whose two's
    complement needs another digit [rb_big_2comp] reallocates the digits, so
    that [ds] is stale: a use after free when the block moved, a wrong value
    when it did not. *)
Theorem big_neg_cases moved x :
  canonical (Big x) ->
  let r := radix (length (digits x)) in
  if sign x then
    returns (rb_big_neg moved x) (if eval (digits x) + 1 =? r then 0 else Z.lnot (big_val x))
  else if grows x then
    if moved then rb_big_neg moved x = Undefined
    else returns (rb_big_neg moved x) (Z.lnot (big_val x) + 65535 * r)
  else returns (rb_big_neg moved x) (Z.lnot (big_val x)).
Proof. apply rb_big_neg_cases. Qed.

Lemma big_neg_cases_witness : returns (rb_big_neg true (mkBig true [65535; 65535])) 0.
Proof. apply (big_neg_cases true (mkBig true [65535; 65535])). concrete. Defined.

(** A right shift of a negative number by exactly its digits converts an empty
    digit array to two's complement. *)
Definition rshift_overrun (x : RBignum) (n : Z) : bool :=
  negb (sign x) && (cdiv n BITSPERDIG =? len x) && negb (grows x).

(** [rb_big_lshift] and [rb_big_rshift] shift by any count above
    [FIXNUM_MIN], a negative one in the other direction, and round to minus
    infinity; the only exception is the right shift of a negative number by
    exactly its number of digits, where [get2comp] reads outside the digit
    array. *)
Theorem big_shift_cases x y n :
  canonical (Big x) -> NUM2LONG y = Ok n -> -1073741824 < n ->
  (if (n <? 0) && rshift_overrun x (- n) then rb_big_lshift x y = Undefined
   else returns (rb_big_lshift x y) (Z.shiftl (big_val x) n)) /\
  (if (0 <=? n) && rshift_overrun x n then rb_big_rshift x y = Undefined
   else returns (rb_big_rshift x y) (Z.shiftr (big_val x) n)).
Proof.
  intros Cx En Hn. destruct (shift_rec_dispatch 1 x y n En Hn) as [El Er].
  unfold rb_big_lshift, rb_big_rshift. rewrite El, Er.
  pose proof (big_ok_digits x (canonical_big_ok x Cx)) as Dx.
  destruct (Z.ltb_spec n 0) as [H|H]; cbn [andb].
  - rewrite (proj2 (Z.leb_gt 0 n) H). cbn [andb]. split; [|].
    + replace (Z.shiftl (big_val x) n) with (Z.shiftr (big_val x) (- n)) by (unfold Z.shiftr; now rewrite Z.opp_involutive).
      apply (rshift_body_cases x (- n) Cx). lia.
    + unfold Z.shiftr. rewrite Z.shiftl_mul_pow2 by lia. apply lshift_body_ok; [exact Dx|lia].
  - rewrite (proj2 (Z.leb_le 0 n) H). cbn [andb]. split; [|].
    + rewrite Z.shiftl_mul_pow2 by lia. apply lshift_body_ok; [exact Dx|lia].
    + apply (rshift_body_cases x n Cx H).
Qed.

Lemma big_shift_cases_witness :
  returns (rb_big_lshift (mkBig false [1; 0; 1]) (Fix 33)) (-36893488156009037824) /\
  returns (rb_big_rshift (mkBig false [1; 0; 1]) (Fix 33)) (-1).
Proof. apply (big_shift_cases (mkBig false [1; 0; 1]) (Fix 33) 33); [concrete|reflexivity|lia]. Defined.

(** A shift by [FIXNUM_MIN] never ends: [INT2FIX(-shift)] is the same
    Fixnum again, so that the two functions call each other without end,
    whatever stack (fuel) there is. *)
Theorem big_shift_diverges fuel x :
  lshift_rec fuel x (Fix FIXNUM_MIN) = Undefined /\ rshift_rec fuel x (Fix FIXNUM_MIN) = Undefined.
Proof. apply shift_rec_diverges. Qed.

(** [rb_big_aref] reads the bit of the infinite two's complement
    representation; for a Bignum index this needs the number to be shorter than
    the index, which it is in every address space. *)
Theorem big_aref_testbit x y :
  canonical (Big x) -> integral y -> canonical y ->
  (forall b, y = Big b -> radix (length (digits x)) <= 2 ^ Z.abs (value y)) ->
  rb_big_aref x y = Ok (Z.b2z (Z.testbit (big_val x) (value y))).
Proof. apply rb_big_aref_ok. Qed.

Lemma big_aref_testbit_witness : rb_big_aref (mkBig false [1; 0; 1]) (Fix 32) = Ok 0.
Proof. apply (big_aref_testbit (mkBig false [1; 0; 1]) (Fix 32)); [concrete..|discriminate]. Defined.
