(* ===== verification/BigStr.v ===== *)
(** * Integers and strings

    Parsing and printing of integers in bases 2 to 36 (src/ruby/bignum.c
    [rb_cstr_to_inum], [rb_big2str], src/ruby/numeric.c [rb_fix2str]) and the
    quad-word conversions of [pack].  A C string is the list of its bytes
    before the terminating NUL; a pointer into it is the suffix it points
    to. *)

From Stdlib Require Import ZArith Lia List Bool.
From S2P Require Import Prelude CInt Digits Bignum BigDiv.
Import ListNotations.
Local Open Scope Z_scope.
Local Open Scope outcome_scope.

(** ** Characters *)

Definition cstring := list Z.
Definition deref (s : cstring) : Z := hd 0 s.

Definition ISASCII (c : Z) : bool := (0 <=? c) && (c <? 128).
Definition ISSPACE (c : Z) : bool := (c =? 32) || ((9 <=? c) && (c <=? 13)).
Definition ISDIGIT (c : Z) : bool := (48 <=? c) && (c <=? 57).
Definition ISLOWER (c : Z) : bool := (97 <=? c) && (c <=? 122).
Definition ISUPPER (c : Z) : bool := (65 <=? c) && (c <=? 90).

Definition ruby_digitmap (d : Z) : Z := if d <? 10 then d + 48 else d + 87.

(** The value of a digit character, [None] where the scanners stop. *)
Definition char_digit (c : Z) : option Z :=
  if negb (ISASCII c) then None
  else if ISDIGIT c then Some (c - 48)
  else if ISLOWER c then Some (c - 87)
  else if ISUPPER c then Some (c - 55)
  else None.

Fixpoint skip_while (p : Z -> bool) (s : cstring) : cstring :=
  match s with
  | c :: s' => if p c then skip_while p s' else s
  | [] => []
  end.

(** ** The C library's [strtoul] for a base between 2 and 36 *)

Fixpoint strtoul_digits (base : Z) (s : cstring) (acc : Z) : Z * cstring :=
  match s with
  | c :: s' =>
      match char_digit c with
      | Some d => if d <? base then strtoul_digits base s' (acc * base + d) else (acc, s)
      | None => (acc, s)
      end
  | [] => (acc, [])
  end.

Definition is_digit_in (base c : Z) : bool :=
  match char_digit c with Some d => d <? base | None => false end.

Definition strtoul (s : cstring) (base : Z) : Z * cstring :=
  let t := skip_while ISSPACE s in
  let neg := deref t =? 45 in
  let t := if (deref t =? 43) || neg then tl t else t in
  let t :=
    if (base =? 16) && (deref t =? 48)
       && ((deref (tl t) =? 120) || (deref (tl t) =? 88)) && is_digit_in 16 (deref (tl (tl t)))
    then tl (tl t) else t in
  if is_digit_in base (deref t) then
    let '(v, e) := strtoul_digits base t 0 in
    if 4294967295 <? v then (4294967295, e) else (if neg then u32 (- v) else v, e)
  else (0, s).

(** ** Parsing *)

(** The base a prefix selects when [base <= 0]. *)
Definition inum_base (base : Z) (s : cstring) : Z :=
  if base <=? 0 then
    if deref s =? 48 then
      let c := deref (tl s) in
      if (c =? 120) || (c =? 88) then 16
      else if (c =? 98) || (c =? 66) then 2
      else if (c =? 111) || (c =? 79) then 8
      else if (c =? 100) || (c =? 68) then 10
      else 8
    else if base <? -1 then - base
    else 10
  else base.

Definition skip_prefix (lo up : Z) (s : cstring) : cstring :=
  if (deref s =? 48) && ((deref (tl s) =? lo) || (deref (tl s) =? up)) then tl (tl s) else s.

(** The switch on the base: bits per digit character, and the string behind
    the base's own prefix. *)
Definition inum_switch (base : Z) (s : cstring) : outcome (Z * cstring) :=
  if base =? 2 then Ok (1, skip_prefix 98 66 s)
  else if base =? 3 then Ok (2, s)
  else if base =? 8 then Ok (3, skip_prefix 111 79 s)
  else if (4 <=? base) && (base <=? 7) then Ok (3, s)
  else if base =? 10 then Ok (4, skip_prefix 100 68 s)
  else if (9 <=? base) && (base <=? 15) then Ok (4, s)
  else if base =? 16 then Ok (4, skip_prefix 120 88 s)
  else if (base <? 2) || (36 <? base) then Raise ArgumentError
  else if base <=? 32 then Ok (5, s)
  else Ok (6, s).

(** "squeeze preceeding 0s": all but the last one. *)
Definition squeeze (s : cstring) : cstring :=
  if deref s =? 48 then 48 :: skip_while (fun c => c =? 48) s else s.

(** [zds = zds * base + num] over the first [blen] digits of a block of
    [length zds]; [blen] grows while a carry is left, and a carry out of the
    block is a write behind it. *)
Fixpoint muladd (base : Z) (blen : nat) (zds : list Z) (num : Z) : outcome (list Z * nat) :=
  match zds with
  | [] => if num =? 0 then Ok ([], O) else Undefined
  | d :: zds' =>
      match blen with
      | O =>
          if num =? 0 then Ok (zds, O)
          else
            let n := u32 (num + u32 (d * base)) in
            '(out, b) <- muladd base O zds' (BIGDN n) ;; Ok (BIGLO n :: out, S b)
      | S blen' =>
          let n := u32 (num + u32 (d * base)) in
          '(out, b) <- muladd base blen' zds' (BIGDN n) ;; Ok (BIGLO n :: out, S b)
      end
  end.

(** [while (c = *str++) ...]: the digits and the rest of the string. *)
Fixpoint parse_loop (base : Z) (badcheck : bool) (s : cstring) (zds : list Z) (blen : nat)
    (nondigit : bool) : outcome (list Z * cstring) :=
  match s with
  | [] => Ok (zds, [])
  | c :: s' =>
      if c =? 95 then
        if badcheck then
          if nondigit then Raise ArgumentError else parse_loop base badcheck s' zds blen true
        else parse_loop base badcheck s' zds blen nondigit
      else
        match char_digit c with
        | None => Ok (zds, s)
        | Some d =>
            if base <=? d then Ok (zds, s)
            else
              '(zds, blen) <- muladd base blen zds d ;;
              parse_loop base badcheck s' zds blen false
        end
  end.

(** The label [bigparse]; [s] is the whole argument, [len] the bits. *)
Definition bigparse (s : cstring) (base len : Z) (sgn badcheck : bool) (str : cstring) : outcome VALUE :=
  let len := cdiv len BITSPERDIG + 1 in
  if badcheck && (deref str =? 95) then Raise ArgumentError
  else
    '(zds, str) <- parse_loop base badcheck str (repeat 0 (Z.to_nat len)) 1 false ;;
    let pos := (length s - length str)%nat in
    if badcheck
       && (((1 <? pos)%nat && (nth (pos - 1) s 0 =? 95))
           || negb (deref (skip_while ISSPACE str) =? 0))
    then Raise ArgumentError
    else Ok (bignorm (Big (mkBig sgn zds))).

Definition rb_cstr_to_inum (str : option cstring) (base : Z) (badcheck : bool) : outcome VALUE :=
  match str with
  | None => if badcheck then Raise ArgumentError else Ok (Fix 0)
  | Some s =>
      let str := skip_while (fun c => ISSPACE c || (negb badcheck && (c =? 95))) s in
      let sgn := negb (deref str =? 45) in
      let str := if (deref str =? 43) || (deref str =? 45) then tl str else str in
      if (deref str =? 43) || (deref str =? 45) then
        if badcheck then Raise ArgumentError else Ok (Fix 0)
      else
        let base := inum_base base str in
        '(len, str) <- inum_switch base str ;;
        let str := squeeze str in
        let len := s32 (len * Z.of_nat (length str)) in
        if u32 len <=? 32 then
          let '(val, e) := strtoul str base in
          if deref e =? 95 then bigparse s base len sgn badcheck str
          else if badcheck && ((length e =? length str)%nat || negb (deref (skip_while ISSPACE e) =? 0))
          then Raise ArgumentError
          else if POSFIXABLE val then
            Ok (Fix (FIX2LONG (LONG2FIX (if sgn then val else s32 (- s32 val)))))
          else Ok (bignorm (Big (set_sign sgn (rb_uint2big val))))
        else bigparse s base len sgn badcheck str
  end.

(** [rb_str_to_inum] on the bytes of a Ruby string, which may hold NULs. *)
Fixpoint to_cstring (s : list Z) : cstring :=
  match s with
  | c :: s' => if c =? 0 then [] else c :: to_cstring s'
  | [] => []
  end.

Definition rb_str_to_inum (s : list Z) (base : Z) (badcheck : bool) : outcome VALUE :=
  if badcheck && negb (length (to_cstring s) =? length s)%nat then Raise ArgumentError
  else rb_cstr_to_inum (Some (to_cstring s)) base badcheck.

Definition rb_str2inum (s : list Z) (base : Z) : outcome VALUE := rb_str_to_inum s base (base =? 0).

(** ** Printing *)

(** The switch on the base in [rb_big2str]: room for the digits of a number
    of [j] bits. *)
Definition digit_room (base j : Z) : outcome Z :=
  if base =? 2 then Ok j
  else if base =? 3 then Ok (cdiv (s32 (j * 647)) 1024)
  else if (4 <=? base) && (base <=? 7) then Ok (cdiv j 2)
  else if (8 <=? base) && (base <=? 9) then Ok (cdiv j 3)
  else if (10 <=? base) && (base <=? 15) then Ok (cdiv (s32 (j * 241)) 800)
  else if (16 <=? base) && (base <=? 31) then Ok (cdiv j 4)
  else if (32 <=? base) && (base <=? 36) then Ok (cdiv j 5)
  else Raise ArgumentError.

(** [k = SIZEOF_BDIGITS; while (k--) { s[--j] = ...; num /= base;
    if (i == 0 && num == 0) break; }]: [acc] holds [s + j]. *)
Fixpoint emit (k : nat) (base : Z) (last : bool) (num j : Z) (acc : cstring) : outcome (Z * cstring) :=
  match k with
  | O => Ok (j, acc)
  | S k =>
      if j <=? 0 then Undefined
      else
        let acc := ruby_digitmap (num mod base) :: acc in
        let num := num / base in
        if last && (num =? 0) then Ok (j - 1, acc) else emit k base last num (j - 1) acc
  end.

(** [while (i && j) ...]: [ds] holds the [i] digits left. *)
Fixpoint big2str_loop (fuel : nat) (base : Z) (ds : list Z) (j : Z) (acc : cstring) : outcome (Z * cstring) :=
  match ds with
  | [] => Ok (j, acc)
  | _ =>
      if j =? 0 then Ok (j, acc)
      else
        match fuel with
        | O => Undefined
        | S fuel =>
            let '(out, num) := div1_loop (base * base) ds in
            let ds := if last out 0 =? 0 then removelast out else out in
            '(j, acc) <- emit 2 base (match ds with [] => true | _ => false end) num j acc ;;
            big2str_loop fuel base ds j acc
        end
  end.

Definition rb_big2str_big (x : RBignum) (base : Z) : outcome cstring :=
  if BIGZEROP x then Ok [48]
  else
    j <- digit_room base (s32 (SIZEOF_BDIGITS * 8 * len x)) ;;
    let j := j + 2 in
    if j <? 0 then Raise ArgumentError
    else
      '(j, acc) <- big2str_loop (Z.to_nat j) base (digits x) j [] ;;
      let s0 := if j =? 0 then deref acc else if sign x then 43 else 45 in
      let acc := skip_while (fun c => c =? 48) acc in
      Ok (if sign x then acc else s0 :: acc).

(** [do { *--b = ruby_digitmap[val % base]; } while (val /= base);]: [fuel]
    bounds the digits of a 32-bit number. *)
Fixpoint fix2str_loop (fuel : nat) (base val : Z) (b : cstring) : cstring :=
  match fuel with
  | O => b
  | S fuel =>
      let b := ruby_digitmap (cmod val base) :: b in
      let val := cdiv val base in
      if val =? 0 then b else fix2str_loop fuel base val b
  end.

Definition rb_fix2str (val base : Z) : outcome cstring :=
  if (base <? 2) || (36 <? base) then Raise ArgumentError
  else if val =? 0 then Ok [48]
  else
    let b := fix2str_loop 32 base (if val <? 0 then - val else val) [] in
    Ok (if val <? 0 then 45 :: b else b).

Definition rb_big2str (x : VALUE) (base : Z) : outcome cstring :=
  match x with
  | Fix n => rb_fix2str n base
  | Big b => rb_big2str_big b base
  | Obj _ => Undefined
  end.

(** numeric.c [fix_to_s]: [argc] is 0 when there is no argument. *)
Definition fix_to_s (x : Z) (arg : option VALUE) : outcome cstring :=
  base <- (match arg with None => Ok 10 | Some b => NUM2LONG b end) ;;
  if base =? 2 then rb_big2str_big (rb_int2big x) 2 else rb_fix2str x base.

Definition rb_big_to_s (x : RBignum) (arg : option VALUE) : outcome cstring :=
  base <- (match arg with None => Ok 10 | Some b => NUM2LONG b end) ;;
  rb_big2str_big x base.

(** ** Positional notation *)

(** The number a list of digit values denotes, most significant first. *)
Definition horner (base : Z) (l : list Z) (acc : Z) : Z := fold_left (fun a d => a * base + d) l acc.

Definition valid (base d : Z) : Prop := 0 <= d < base.

Lemma horner_app base l m acc : horner base (l ++ m) acc = horner base m (horner base l acc).
Proof. apply fold_left_app. Qed.

Lemma horner_acc base l acc :
  horner base l acc = acc * base ^ Z.of_nat (length l) + horner base l 0.
Proof.
  revert acc; induction l as [|d l IH]; intros acc; cbn [horner fold_left length].
  - rewrite Z.pow_0_r. lia.
  - fold (horner base l (acc * base + d)). fold (horner base l (0 * base + d)).
    rewrite (IH (acc * base + d)), (IH (0 * base + d)), Nat2Z.inj_succ, Z.pow_succ_r by lia. ring.
Qed.

Lemma horner_cons base d l acc : horner base (d :: l) acc = horner base l (acc * base + d).
Proof. reflexivity. Qed.

Lemma horner_bound base l :
  0 < base -> Forall (valid base) l -> 0 <= horner base l 0 < base ^ Z.of_nat (length l).
Proof.
  intros Hb; induction 1 as [|d l Hd Hl IH]; cbn [length].
  - cbn. lia.
  - rewrite horner_cons, horner_acc, Nat2Z.inj_succ, Z.pow_succ_r by lia. unfold valid in Hd.
    set (p := base ^ Z.of_nat (length l)) in *. nia.
Qed.

Lemma horner_lower base d l :
  0 < base -> 0 < d -> Forall (valid base) l -> base ^ Z.of_nat (length l) <= horner base (d :: l) 0.
Proof.
  intros Hb Hd Hl. rewrite horner_cons, horner_acc. pose proof (horner_bound base l Hb Hl).
  set (p := base ^ Z.of_nat (length l)) in *. nia.
Qed.

Lemma char_digit_digitmap d : 0 <= d < 36 -> char_digit (ruby_digitmap d) = Some d.
Proof.
  intros H. assert (HC : In d (map Z.of_nat (seq 0 36))).
  { apply in_map_iff. exists (Z.to_nat d). split; [lia|]. apply in_seq. lia. }
  cbn in HC. repeat (destruct HC as [<-|HC]; [reflexivity|]). contradiction.
Qed.

Lemma digitmap_zero d : 0 <= d < 36 -> (ruby_digitmap d =? 48) = (d =? 0).
Proof.
  intros H. unfold ruby_digitmap. destruct (Z.ltb_spec d 10), (Z.eqb_spec d 0); lia.
Qed.

(** A printed number: digit values, no leading zero. *)
Definition no_leading_zero (l : list Z) : Prop := hd 1 l <> 0.

Definition printed (base : Z) (cs : cstring) (v : Z) : Prop :=
  exists l, cs = map ruby_digitmap l /\ l <> [] /\ Forall (valid base) l /\ horner base l 0 = v /\
    (v <> 0 -> no_leading_zero l) /\ (v = 0 -> l = [0]).

(** ** The printing loops *)

Lemma fix2str_loop_spec fuel base val b :
  2 <= base <= 36 -> 0 < val < base ^ Z.of_nat fuel ->
  exists l, fix2str_loop fuel base val b = map ruby_digitmap l ++ b /\
    Forall (valid base) l /\ l <> [] /\ no_leading_zero l /\ horner base l 0 = val.
Proof.
  intros Hb; revert val b; induction fuel as [|fuel IH]; intros val b Hv; cbn [fix2str_loop].
  - simpl in Hv. lia.
  - unfold cdiv, cmod. rewrite Z.rem_mod_nonneg, Z.quot_div_nonneg by lia.
    pose proof (Z.div_mod val base ltac:(lia)). pose proof (Z.mod_pos_bound val base ltac:(lia)).
    destruct (val / base =? 0) eqn:E; breflect.
    + exists [val mod base]. unfold no_leading_zero, valid. splits; auto; try discriminate; cbn; lia.
    + rewrite Nat2Z.inj_succ, Z.pow_succ_r in Hv by lia.
      assert (0 <= val / base) by (apply Z.div_pos; lia).
      destruct (IH (val / base) (ruby_digitmap (val mod base) :: b)) as (l & -> & Hl & HN & HZ & HE).
      { split; [lia|]. apply Z.div_lt_upper_bound; lia. }
      exists (l ++ [val mod base]). rewrite map_app, <- app_assoc, horner_app, HE. splits.
      * reflexivity.
      * apply Forall_app; split; auto.
      * destruct l; discriminate.
      * now destruct l.
      * cbn. lia.
Qed.

Lemma rb_fix2str_ok n base :
  2 <= base <= 36 -> FIXABLE n = true ->
  exists cs, rb_fix2str n base = Ok (if n <? 0 then 45 :: cs else cs) /\ printed base cs (Z.abs n).
Proof.
  intros Hb HF. apply FIXABLE_iff in HF. unfold rb_fix2str.
  replace ((base <? 2) || (36 <? base)) with false
    by (symmetry; apply orb_false_iff; split; apply Z.ltb_ge; lia).
  destruct (n =? 0) eqn:E; breflect.
  - subst n. exists [48]. split; auto. exists [0]. unfold valid. splits; auto; try discriminate; cbn; try lia.
    repeat constructor; lia.
  - destruct (fix2str_loop_spec 32 base (Z.abs n) []) as (l & HE & Hl & HN & HZ & HV); auto.
    { split; [lia|]. apply Z.lt_le_trans with (2 ^ 32); [change (2 ^ 32) with 4294967296; lia|].
      apply Z.pow_le_mono_l. lia. }
    exists (map ruby_digitmap l). split.
    + replace (if n <? 0 then - n else n) with (Z.abs n) by (case_if; lia).
      rewrite HE, app_nil_r. now case_if.
    + exists l. splits; auto. lia.
Qed.

(** The quotient of a normalised list by less than a digit loses at most its
    top digit. *)
Lemma div1_normalized h ds :
  0 < h < BIGRAD -> Forall digit ds -> ds <> [] -> normalized ds ->
  let '(out, num) := div1_loop h ds in
  let q := if last out 0 =? 0 then removelast out else out in
  Forall digit q /\ normalized q /\ eval ds = h * eval q + num /\ 0 <= num < h.
Proof.
  intros Hh Hd HN Hn. pose proof (normalized_lower ds Hd HN Hn) as Hlow.
  pose proof (div1_loop_spec h ds ltac:(unfold digit; lia) ltac:(lia) Hd) as HS.
  destruct (div1_loop h ds) as [out num]. destruct HS as (HE & HR & HF & HL).
  assert (HNo : out <> []) by (intros ->; destruct ds; [contradiction|discriminate]).
  destruct (exists_last HNo) as (t & x & ->). rewrite last_last, removelast_last.
  apply Forall_app in HF as [Ht Hx]. rewrite eval_snoc in HE.
  destruct (x =? 0) eqn:Ex; breflect; cbv zeta.
  - subst x. splits; auto; try lia. unfold normalized.
    destruct t as [|y t] using rev_ind; [simpl; lia|]. rewrite last_last. intros ->.
    rewrite eval_snoc in HE. apply Forall_app in Ht as [Ht _]. pose proof (eval_bound t Ht).
    rewrite <- HL in Hlow. rewrite !length_app in Hlow. cbn [length] in Hlow.
    replace (length t + 1 + 1 - 1)%nat with (S (length t)) in Hlow by lia. rewrite radix_S in Hlow.
    unfold BIGRAD in *. pose proof (radix_pos (length t)). nia.
  - splits; try lia.
    + apply Forall_app; auto.
    + unfold normalized. now rewrite last_last.
    + rewrite eval_snoc. lia.
Qed.

Lemma emit_mid base num j acc :
  2 <= base -> 0 <= num < base * base -> 2 <= j ->
  emit 2 base false num j acc =
    Ok (j - 2, ruby_digitmap (num / base) :: ruby_digitmap (num mod base) :: acc).
Proof.
  intros Hb Hn Hj. cbn [emit]. replace (j <=? 0) with false by (symmetry; apply Z.leb_gt; lia).
  cbn [andb]. replace (j - 1 <=? 0) with false by (symmetry; apply Z.leb_gt; lia).
  rewrite (Z.mod_small (num / base)); [do 2 f_equal; lia|].
  split; [apply Z.div_pos; lia|apply Z.div_lt_upper_bound; lia].
Qed.

Lemma emit_last base num j acc :
  2 <= base -> 0 < num < base * base -> 1 <= j -> (base <= num -> 2 <= j) ->
  exists l, emit 2 base true num j acc = Ok (j - Z.of_nat (length l), map ruby_digitmap l ++ acc) /\
    Forall (valid base) l /\ no_leading_zero l /\ l <> [] /\ horner base l 0 = num.
Proof.
  intros Hb Hn Hj Hj2. cbn [emit]. replace (j <=? 0) with false by (symmetry; apply Z.leb_gt; lia).
  pose proof (Z.div_mod num base ltac:(lia)). pose proof (Z.mod_pos_bound num base ltac:(lia)).
  assert (Hq : 0 <= num / base < base).
  { split; [apply Z.div_pos; lia|apply Z.div_lt_upper_bound; lia]. }
  cbn [andb]. destruct (num / base =? 0) eqn:E; breflect.
  - exists [num mod base]. unfold no_leading_zero, valid. splits; auto; try discriminate; cbn; lia.
  - replace (j - 1 <=? 0) with false by (symmetry; apply Z.leb_gt; nia).
    exists [num / base; num mod base]. rewrite (Z.mod_small (num / base)) by lia.
    rewrite (Z.div_small (num / base)) by lia. cbn [Z.eqb].
    unfold no_leading_zero, valid. splits; try discriminate; cbn; try lia.
    + do 2 f_equal; lia.
    + repeat constructor; lia.
Qed.

(** With room for the digits the loop never writes in front of the buffer,
    and writes the digits of the number without a leading zero. *)
Lemma big2str_loop_spec fuel base ds j acc :
  2 <= base <= 36 -> Forall digit ds -> ds <> [] -> normalized ds ->
  1 <= j <= Z.of_nat fuel -> eval ds < base ^ j ->
  exists l, big2str_loop fuel base ds j acc = Ok (j - Z.of_nat (length l), map ruby_digitmap l ++ acc) /\
    Forall (valid base) l /\ no_leading_zero l /\ l <> [] /\ horner base l 0 = eval ds.
Proof.
  intros Hb; revert ds j acc; induction fuel as [|fuel IH]; intros ds j acc Hd HN Hn Hj He; [lia|].
  assert (Hpos : 0 < eval ds).
  { pose proof (normalized_lower ds Hd HN Hn). pose proof (radix_pos (length ds - 1)). lia. }
  pose proof (div1_normalized (base * base) ds ltac:(unfold BIGRAD; nia) Hd HN Hn) as HQ.
  destruct ds as [|d0 ds0]; [contradiction|]. cbn [big2str_loop].
  replace (j =? 0) with false by (symmetry; apply Z.eqb_neq; lia).
  set (ds := d0 :: ds0) in *. clearbody ds. destruct (div1_loop (base * base) ds) as [out num].
  cbv zeta in HQ. set (q := if last out 0 =? 0 then removelast out else out) in *. clearbody q.
  destruct HQ as (Hdq & Hnq & HE & HR).
  assert (Hj1 : base <= eval ds -> 2 <= j).
  { intros. destruct (Z.eq_dec j 1) as [->|]; [rewrite Z.pow_1_r in He; lia|lia]. }
  destruct q as [|q0 qs].
  - cbn [eval] in HE. rewrite Z.mul_0_r, Z.add_0_l in HE.
    destruct (emit_last base num j acc) as (l & -> & Hl & HZ & HNl & HV); try lia.
    cbn [bind]. exists l. splits; auto; [|lia]. destruct fuel; reflexivity.
  - assert (Hq1 : 1 <= eval (q0 :: qs)).
    { pose proof (normalized_lower _ Hdq ltac:(discriminate) Hnq). pose proof (radix_pos (length (q0 :: qs) - 1)). lia. }
    set (q := q0 :: qs) in *. assert (HNq : q <> []) by discriminate. clearbody q.
    assert (Hj3 : 3 <= j).
    { destruct (Z.eq_dec j 1) as [->|]; [nia|]. destruct (Z.eq_dec j 2) as [->|]; [|lia].
      rewrite Z.pow_2_r in He. nia. }
    rewrite emit_mid by lia. cbn [bind].
    destruct (IH q (j - 2) (ruby_digitmap (num / base) :: ruby_digitmap (num mod base) :: acc))
      as (l & -> & Hl & HZ & HNl & HV); auto; try lia.
    { assert (Hp : base ^ j = base ^ (j - 2) * (base * base)).
      { rewrite <- Z.pow_2_r, <- Z.pow_add_r by lia. f_equal; lia. }
      rewrite Hp in He. nia. }
    pose proof (Z.div_mod num base ltac:(lia)). pose proof (Z.mod_pos_bound num base ltac:(lia)).
    assert (Hq : 0 <= num / base < base).
    { split; [apply Z.div_pos; lia|apply Z.div_lt_upper_bound; lia]. }
    exists (l ++ [num / base; num mod base]). rewrite length_app, map_app, <- app_assoc, horner_app, HV.
    splits; auto.
    + do 2 f_equal. cbn [length]. lia.
    + apply Forall_app; split; auto; repeat constructor; lia.
    + now destruct l.
    + destruct l; discriminate.
    + cbn. lia.
Qed.

(** ** Room for the digits *)

Lemma room_enough b base p q J :
  0 < p -> 0 < q -> 2 <= b <= base -> 2 ^ q <= b ^ p -> 0 <= J -> 2 ^ J <= base ^ (J * p / q + 1).
Proof.
  intros Hp Hq Hb HB HJ. apply Z.le_trans with (b ^ (J * p / q + 1)); [|apply Z.pow_le_mono_l; lia].
  set (k := J * p / q + 1). assert (Hk : J * p < q * k /\ 0 <= k).
  { unfold k. pose proof (Z.div_mod (J * p) q ltac:(lia)). pose proof (Z.mod_pos_bound (J * p) q ltac:(lia)).
    assert (0 <= J * p / q) by (apply Z.div_pos; nia). lia. }
  apply (Z.pow_le_mono_l_iff _ _ p); [apply Z.pow_nonneg; lia|apply Z.pow_nonneg; lia|lia|].
  rewrite <- !Z.pow_mul_r by lia. apply Z.le_trans with (2 ^ (q * k)); [apply Z.pow_le_mono_r; lia|].
  rewrite Z.pow_mul_r, (Z.mul_comm k p), Z.pow_mul_r by lia.
  apply Z.pow_le_mono_l. split; [apply Z.pow_nonneg; lia|auto].
Qed.

(** The bound on [j] below which none of the scalings overflows a [long]. *)
Definition ROOM_MAX : Z := 3319140.

Lemma digit_room_ok base J :
  2 <= base <= 36 -> 0 <= J <= ROOM_MAX ->
  exists j, digit_room base J = Ok j /\ 0 <= j /\ 2 ^ J <= base ^ (j + 1).
Proof.
  unfold ROOM_MAX. intros Hb HJ. unfold digit_room, cdiv.
  assert (HR : forall b p q, 0 < p -> 0 < q -> 2 <= b <= base -> 2 ^ q <= b ^ p -> J * p <= 2147483647 ->
    exists j, Ok (Z.quot (s32 (J * p)) q) = Ok j /\ 0 <= j /\ 2 ^ J <= base ^ (j + 1)).
  { intros b p q Hp Hq Hb2 HB HO. rewrite s32_small by nia. rewrite Z.quot_div_nonneg by nia.
    eexists; splits; [reflexivity|apply Z.div_pos; nia|]. now apply room_enough with b. }
  assert (HR1 : forall b q, 0 < q -> 2 <= b <= base -> 2 ^ q <= b ->
    exists j, Ok (Z.quot J q) = Ok j /\ 0 <= j /\ 2 ^ J <= base ^ (j + 1)).
  { intros b q Hq Hb2 HB. destruct (HR b 1 q) as (j & HE & H0 & HP); try lia.
    rewrite Z.mul_1_r, s32_small in HE by lia. eauto. }
  destruct (base =? 2) eqn:E2; breflect.
  { exists J. subst base. splits; [reflexivity|lia|apply Z.pow_le_mono_r; lia]. }
  destruct (base =? 3) eqn:E3; breflect.
  { apply (HR 3); lia. }
  destruct ((4 <=? base) && (base <=? 7)) eqn:E4; [breflect; apply (HR1 4); lia|].
  destruct ((8 <=? base) && (base <=? 9)) eqn:E8; [breflect; apply (HR1 8); lia|].
  destruct ((10 <=? base) && (base <=? 15)) eqn:E10.
  { breflect. apply (HR 10); lia. }
  destruct ((16 <=? base) && (base <=? 31)) eqn:E16; [breflect; apply (HR1 16); lia|].
  destruct ((32 <=? base) && (base <=? 36)) eqn:E32; [breflect; apply (HR1 32); lia|].
  exfalso. lia.
Qed.

Lemma skip_zeros_printed base l :
  base <= 36 -> Forall (valid base) l -> no_leading_zero l ->
  skip_while (fun c => c =? 48) (map ruby_digitmap l) = map ruby_digitmap l.
Proof.
  intros Hb Hl HZ. destruct Hl as [|d l Hd Hl]; [reflexivity|]. cbn [map skip_while].
  unfold valid, no_leading_zero in *. cbn in HZ. rewrite digitmap_zero by lia.
  now replace (d =? 0) with false by lia.
Qed.

Lemma rb_big2str_big_ok x base :
  2 <= base <= 36 -> big_ok x -> 16 * len x <= ROOM_MAX -> big_val x <> 0 \/ sign x = true ->
  exists cs, rb_big2str_big x base = Ok (if big_val x <? 0 then 45 :: cs else cs) /\
    printed base cs (Z.abs (big_val x)).
Proof.
  intros Hb (Hd & HN & Hz) HL Hs. unfold rb_big2str_big.
  pose proof (eval_nonneg _ Hd) as Hpos.
  assert (HZ : BIGZEROP x = true <-> digits x = [0]).
  { unfold BIGZEROP. destruct (digits x) as [|d [|e r]]; [contradiction| |split; discriminate].
    rewrite Z.eqb_eq. split; [now intros ->|congruence]. }
  destruct (BIGZEROP x) eqn:Ez.
  - assert (HD : digits x = [0]) by now apply HZ.
    assert (HV : big_val x = 0) by (unfold big_val; rewrite HD; destruct (sign x); reflexivity).
    rewrite HV. exists [48]. split; auto. exists [0]. unfold valid. splits; auto; try discriminate; cbn; try lia.
    repeat constructor; lia.
  - assert (Hn : normalized (digits x)).
    { destruct Hz as [|Hz]; auto. discriminate (proj2 HZ Hz). }
    assert (HP : 0 < eval (digits x)).
    { pose proof (normalized_lower _ Hd HN Hn). pose proof (radix_pos (length (digits x) - 1)). lia. }
    unfold SIZEOF_BDIGITS. change (2 * 8) with 16. unfold ROOM_MAX in HL.
    rewrite s32_small by (unfold len in *; lia).
    destruct (digit_room_ok base (16 * len x)) as (j & -> & Hj & Hroom); [lia|unfold ROOM_MAX, len in *; lia|].
    cbn [bind]. replace (j + 2 <? 0) with false by lia.
    pose proof (eval_bound _ Hd) as B. rewrite radix_shift in B. fold (len x) in B.
    destruct (big2str_loop_spec (Z.to_nat (j + 2)) base (digits x) (j + 2) [])
      as (l & -> & Hl & HZl & HNl & HV); auto; try lia.
    { apply Z.lt_le_trans with (base ^ (j + 1)); [lia|apply Z.pow_le_mono_r; lia]. }
    cbn [bind]. rewrite app_nil_r, (skip_zeros_printed base) by (auto; lia).
    assert (Hlen : Z.of_nat (length l) <= j + 1).
    { destruct Hl as [|d l Hd0 Hl]; [contradiction|]. unfold valid, no_leading_zero in *. cbn in HZl.
      pose proof (horner_lower base d l ltac:(lia) ltac:(lia) Hl) as Hlow.
      assert (Hlt : base ^ Z.of_nat (length l) < base ^ (j + 1)) by lia.
      apply Z.pow_lt_mono_r_iff in Hlt; cbn [length]; lia. }
    replace (j + 2 - Z.of_nat (length l) =? 0) with false by lia.
    exists (map ruby_digitmap l). split.
    + unfold big_val. destruct (sign x).
      * now replace (eval (digits x) <? 0) with false by lia.
      * now replace (- eval (digits x) <? 0) with true by lia.
    + exists l. unfold big_val. rewrite HV. splits; auto; destruct (sign x); lia.
Qed.

Lemma rb_big2str_ok v base :
  2 <= base <= 36 -> integral v -> canonical v ->
  (forall b, v = Big b -> 16 * len b <= ROOM_MAX) ->
  exists cs, rb_big2str v base = Ok (if value v <? 0 then 45 :: cs else cs) /\
    printed base cs (Z.abs (value v)).
Proof.
  intros Hb HI HC HL. destruct v as [n|b|o]; [| |contradiction]; cbn [rb_big2str value].
  - now apply rb_fix2str_ok.
  - apply rb_big2str_big_ok; auto with bignum.
    left. destruct HC as (_ & _ & HF). intros HX. rewrite HX in HF. discriminate.
Qed.

(** ** Parsing loops *)

Definition zeros_from (n : nat) (l : list Z) : Prop := Forall (eq 0) (skipn n l).

Lemma eval_zeros l : Forall (eq 0) l -> eval l = 0.
Proof. induction 1; cbn [eval]; lia. Qed.

(** The block is never left when the product fits in it. *)
Lemma muladd_spec base blen zds num :
  2 <= base <= 36 -> Forall digit zds -> 0 <= num <= 36 -> zeros_from blen zds -> (blen <= length zds)%nat ->
  base * eval zds + num < radix (length zds) ->
  exists out b, muladd base blen zds num = Ok (out, b) /\ Forall digit out /\ length out = length zds /\
    eval out = base * eval zds + num /\ zeros_from b out /\ (b <= length out)%nat.
Proof.
  intros Hb Hd; revert blen num; induction Hd as [|d zds Hd Hds IH]; intros blen num Hn Hz HL HB.
  - cbn [muladd]. cbn [length eval] in HB. rewrite radix_0 in HB.
    replace (num =? 0) with true by lia. exists [], O. splits; try reflexivity; try constructor; cbn; try lia.
  - cbn [length eval] in HB. rewrite radix_S in HB. pose proof (eval_nonneg _ Hds) as Hpos.
    unfold digit, BIGRAD in Hd. set (n := num + d * base).
    assert (Hn' : u32 (num + u32 (d * base)) = n) by (rewrite (u32_small (d * base)), u32_small by nia; reflexivity).
    pose proof (BIGLO_BIGDN n) as HN.
    pose proof (BIGDN_bound n 0 36 ltac:(unfold n, BIGRAD; nia)) as HD.
    assert (HB' : base * eval zds + BIGDN n < radix (length zds)).
    { pose proof (BIGLO_digit n) as Hlo. unfold digit, BIGRAD, n in *. nia. }
    assert (HS : forall k, zeros_from k zds -> (k <= length zds)%nat ->
      exists out b, ('(out, b) <- muladd base k zds (BIGDN n) ;; Ok (BIGLO n :: out, S b)) = Ok (out, b) /\
        Forall digit out /\ length out = length (d :: zds) /\
        eval out = base * eval (d :: zds) + num /\ zeros_from b out /\ (b <= length out)%nat).
    { intros k Hk Hkl. destruct (IH k (BIGDN n) HD Hk Hkl HB') as (out & b & -> & HF & HLo & HE & Hzo & Hbl).
      cbn [bind]. exists (BIGLO n :: out), (S b). cbn [length eval].
      splits; auto with digits; unfold n, BIGRAD in *; lia. }
    cbn [muladd]. rewrite Hn'. destruct blen as [|blen].
    + assert (Hz' : zeros_from 0 zds) by (inversion Hz; assumption).
      destruct (num =? 0) eqn:E; breflect; [|apply HS; auto; lia].
      exists (d :: zds), O. rewrite (eval_zeros (d :: zds) Hz). splits; auto; lia.
    + apply HS; [exact Hz|cbn in HL; lia].
Qed.

(** The characters [cs] are the digits [ds] of base [base]. *)
Definition digit_chars (base : Z) : cstring -> list Z -> Prop :=
  Forall2 (fun c d => char_digit c = Some d /\ valid base d).

(** Behind a number: nothing or white space. *)
Definition number_end (s : cstring) : Prop := s = [] \/ ISSPACE (deref s) = true.

Lemma char_digit_not c d :
  char_digit c = Some d ->
  (c =? 95) = false /\ (c =? 43) = false /\ (c =? 45) = false /\ ISSPACE c = false /\ (c =? 48) = (d =? 0).
Proof.
  unfold char_digit, ISSPACE, ISASCII, ISDIGIT, ISLOWER, ISUPPER. intros H.
  repeat case_if; try discriminate; injection H as <-; lia.
Qed.

Lemma space_no_digit c : ISSPACE c = true -> char_digit c = None /\ (c =? 95) = false.
Proof.
  unfold char_digit, ISSPACE, ISASCII, ISDIGIT, ISLOWER, ISUPPER. intros H.
  split; [|lia]. repeat case_if; auto; lia.
Qed.

Lemma number_end_stops s :
  number_end s -> (deref s =? 95) = false /\
  (forall base bad zds b nd, parse_loop base bad s zds b nd = Ok (zds, s)) /\
  (forall base acc, strtoul_digits base s acc = (acc, s)).
Proof.
  intros [-> | H]; [now splits|]. destruct s as [|c s]; [discriminate|]. cbn in H.
  destruct (space_no_digit c H) as [HN H95]. cbn [deref hd parse_loop strtoul_digits].
  rewrite HN, H95. now splits.
Qed.

Lemma parse_loop_spec base bad cs ds rest zds blen nd :
  2 <= base <= 36 -> digit_chars base cs ds -> number_end rest ->
  Forall digit zds -> zeros_from blen zds -> (blen <= length zds)%nat ->
  (eval zds + 1) * base ^ Z.of_nat (length ds) <= radix (length zds) ->
  exists out, parse_loop base bad (cs ++ rest) zds blen nd = Ok (out, rest) /\
    Forall digit out /\ eval out = horner base ds (eval zds).
Proof.
  intros Hb HC HR; revert zds blen nd; induction HC as [|c d cs ds [Hc Hv] HC IH]; intros zds blen nd Hd Hz HL HB.
  - exists zds. cbn [app]. destruct (number_end_stops rest HR) as (_ & Hp & _). rewrite Hp. now splits.
  - destruct (char_digit_not c d Hc) as (H95 & _). cbn [app parse_loop]. rewrite H95, Hc. unfold valid in Hv.
    replace (base <=? d) with false by lia. cbn [length] in HB. rewrite Nat2Z.inj_succ, Z.pow_succ_r in HB by lia.
    pose proof (eval_nonneg _ Hd) as Hpos. pose proof (Z.pow_pos_nonneg base (Z.of_nat (length ds)) ltac:(lia) ltac:(lia)).
    destruct (muladd_spec base blen zds d Hb Hd ltac:(lia) Hz HL ltac:(nia)) as (out & b & -> & HF & HLo & HE & Hzo & Hbl).
    cbn [bind]. destruct (IH out b false HF Hzo Hbl) as (out' & -> & HF' & HE').
    { rewrite HLo, HE. nia. }
    exists out'. splits; auto. rewrite HE', horner_cons, HE. f_equal. lia.
Qed.

Lemma strtoul_digits_spec base cs ds rest acc :
  digit_chars base cs ds -> number_end rest ->
  strtoul_digits base (cs ++ rest) acc = (horner base ds acc, rest).
Proof.
  intros HC HR; revert acc; induction HC as [|c d cs ds [Hc Hv] HC IH]; intros acc.
  - now apply number_end_stops.
  - cbn [app strtoul_digits]. rewrite Hc. unfold valid in Hv.
    replace (d <? base) with true by lia. now rewrite IH.
Qed.

Lemma digit_chars_valid base cs ds : digit_chars base cs ds -> Forall (valid base) ds.
Proof. induction 1; constructor; tauto. Qed.

Lemma strtoul_spec base cs ds rest :
  2 <= base <= 36 -> digit_chars base cs ds -> cs <> [] -> number_end rest -> horner base ds 0 <= 4294967295 ->
  strtoul (cs ++ rest) base = (horner base ds 0, rest).
Proof.
  intros Hb HC HN HR HV. unfold strtoul.
  destruct HC as [|c d cs ds [Hc Hv] HC]; [contradiction|]. clear HN. unfold valid in Hv.
  destruct (char_digit_not c d Hc) as (_ & H43 & H45 & Hsp & _).
  cbn [app skip_while]. rewrite Hsp. cbn [deref hd tl]. rewrite H43, H45. cbn [orb]. unfold deref; cbn [hd tl].
  set (t := cs ++ rest) in *.
  assert (Hpre : (base =? 16) && (c =? 48) && ((hd 0 t =? 120) || (hd 0 t =? 88))
      && is_digit_in 16 (hd 0 (tl t)) = false).
  { destruct (base =? 16) eqn:E16; cbn [andb]; auto. breflect.
    replace ((hd 0 t =? 120) || (hd 0 t =? 88)) with false; [now rewrite andb_false_r|].
    symmetry. unfold t. destruct HC as [|c' d' cs' ds' [Hc' Hv'] _]; cbn [app hd].
    - destruct HR as [-> |HR]; [reflexivity|]. unfold deref, ISSPACE in HR. lia.
    - unfold valid in Hv'. unfold char_digit, ISASCII, ISDIGIT, ISLOWER, ISUPPER in Hc'.
      repeat case_if; try discriminate; injection Hc' as <-; lia. }
  rewrite Hpre. unfold is_digit_in. cbn [hd tl]. rewrite Hc. replace (d <? base) with true by lia.
  unfold t. replace (c :: cs ++ rest) with ((c :: cs) ++ rest) by reflexivity.
  rewrite (strtoul_digits_spec base (c :: cs) (d :: ds)); [|constructor; auto|auto].
  replace (4294967295 <? horner base (d :: ds) 0) with false by lia. reflexivity.
Qed.

(** Squeezing leading zeros keeps the number. *)
Lemma squeeze_spec base cs ds rest :
  2 <= base <= 36 -> digit_chars base cs ds -> cs <> [] -> number_end rest ->
  exists cs' ds', squeeze (cs ++ rest) = cs' ++ rest /\ digit_chars base cs' ds' /\ cs' <> [] /\
    horner base ds' 0 = horner base ds 0 /\ exists zs, cs = zs ++ cs'.
Proof.
  intros Hb HC HN HR. unfold squeeze. destruct HC as [|c d cs ds [Hc Hv] HC]; [contradiction|].
  cbn [app deref hd]. destruct (char_digit_not c d Hc) as (_ & _ & _ & _ & H48). rewrite H48.
  destruct (d =? 0) eqn:E; breflect.
  2:{ exists (c :: cs), (d :: ds). splits; auto; [constructor; auto|now exists []]. }
  subst d. subst c. cbn [skip_while]. cbn [Z.eqb Pos.eqb].
  assert (HS : exists cs' ds', skip_while (fun c => c =? 48) (cs ++ rest) = cs' ++ rest /\
    digit_chars base cs' ds' /\ horner base ds' 0 = horner base ds 0 /\ exists zs, 48 :: cs = zs ++ 48 :: cs').
  { clear -HC HR. induction HC as [|c d cs ds [Hc Hv] HC IH].
    - exists [], []. splits; auto; [|constructor|now exists []]. cbn [app]. destruct rest as [|c r]; auto.
      destruct HR as [|HR]; [discriminate|]. cbn [skip_while]. cbn in HR. unfold ISSPACE in HR.
      now replace (c =? 48) with false by lia.
    - cbn [app skip_while]. destruct (char_digit_not c d Hc) as (_ & _ & _ & _ & H48). rewrite H48.
      destruct (d =? 0) eqn:E; breflect.
      + subst d. destruct IH as (cs' & ds' & H1 & H2 & H3 & zs & H4). exists cs', ds'. splits; auto.
        exists (48 :: zs). cbn [app]. rewrite H48. now f_equal.
      + exists (c :: cs), (d :: ds). splits; auto; [constructor; auto|now exists []]. }
  destruct HS as (cs' & ds' & -> & H2 & H3 & H4). 
  exists (48 :: cs'), (0 :: ds'). splits; [reflexivity|constructor; auto|discriminate|exact H3|exact H4].
Qed.

(** ** Parsing *)

Definition no_bad_rest (badcheck : bool) (rest : cstring) : Prop :=
  badcheck = true -> Forall (fun c => ISSPACE c = true) rest.

Lemma skip_while_all p s : Forall (fun c => p c = true) s -> skip_while p s = [].
Proof. induction 1 as [|c s Hc _ IH]; cbn [skip_while]; [reflexivity|]. now rewrite Hc. Qed.

Lemma skip_while_app p s t :
  Forall (fun c => p c = true) s -> p (deref t) = false -> t <> [] -> skip_while p (s ++ t) = t.
Proof.
  intros Hs Ht HN; induction Hs as [|c s Hc _ IH]; cbn [app skip_while]; [|now rewrite Hc].
  destruct t as [|c t]; [contradiction|]. cbn in Ht |- *. now rewrite Ht.
Qed.

(** Bits per digit: enough for the base. *)
Lemma inum_switch_spec base cs ds rest :
  2 <= base <= 36 -> digit_chars base cs ds -> cs <> [] -> number_end rest ->
  exists len, inum_switch base (cs ++ rest) = Ok (len, cs ++ rest) /\ 1 <= len <= 6 /\ base <= 2 ^ len.
Proof.
  intros Hb HC HN HR.
  assert (HP : forall lo up dl, char_digit lo = Some dl -> char_digit up = Some dl -> base <= dl ->
    ISSPACE lo = false -> ISSPACE up = false -> lo <> 0 -> up <> 0 ->
    skip_prefix lo up (cs ++ rest) = cs ++ rest).
  { intros lo up dl Hlo Hup Hdl Slo Sup Nlo Nup. unfold skip_prefix.
    destruct HC as [|c d cs ds _ HC]; [contradiction|]. unfold deref; cbn [app hd tl].
    replace ((hd 0 (cs ++ rest) =? lo) || (hd 0 (cs ++ rest) =? up)) with false; [now rewrite andb_false_r|].
    symmetry. apply orb_false_iff. rewrite !Z.eqb_neq.
    destruct HC as [|c' d' cs' ds' [Hc' Hv'] _]; cbn [app hd].
    - destruct HR as [-> |HR]; [cbn; auto|]. unfold deref in HR. split; congruence.
    - unfold valid in Hv'. split; intros ->; [rewrite Hc' in Hlo; injection Hlo|rewrite Hc' in Hup; injection Hup]; lia. }
  unfold inum_switch.
  destruct (base =? 2) eqn:E2; breflect.
  { rewrite (HP 98 66 11) by (try reflexivity; lia). exists 1. splits; auto; lia. }
  destruct (base =? 3) eqn:E3; breflect; [exists 2; splits; auto; lia|].
  destruct (base =? 8) eqn:E8; breflect.
  { rewrite (HP 111 79 24) by (try reflexivity; lia). exists 3. splits; auto; lia. }
  destruct ((4 <=? base) && (base <=? 7)) eqn:E4; [breflect; exists 3; splits; auto; lia|].
  destruct (base =? 10) eqn:E10.
  { breflect. rewrite (HP 100 68 13) by (try reflexivity; lia). exists 4. splits; auto; lia. }
  destruct ((9 <=? base) && (base <=? 15)) eqn:E9; [breflect; exists 4; splits; auto; lia|].
  destruct (base =? 16) eqn:E16.
  { breflect. rewrite (HP 120 88 33) by (try reflexivity; lia). exists 4. splits; auto; lia. }
  replace ((base <? 2) || (36 <? base)) with false by lia.
  destruct (base <=? 32) eqn:E32; breflect; [exists 5|exists 6]; splits; auto; lia.
Qed.

Definition signed (sgn : bool) (v : Z) : Z := if sgn then v else - v.

(** [s] is the whole argument and ends in [str = cs ++ rest]. *)
Lemma bigparse_spec pre base len sgn bad cs ds rest :
  2 <= base <= 36 -> digit_chars base cs ds -> cs <> [] -> number_end rest -> no_bad_rest bad rest ->
  0 <= len -> base ^ Z.of_nat (length ds) <= 2 ^ len ->
  returns (bigparse (pre ++ cs ++ rest) base len sgn bad (cs ++ rest)) (signed sgn (horner base ds 0)).
Proof.
  intros Hb HC HN HR HBad Hlen HB. unfold bigparse, cdiv, BITSPERDIG.
  rewrite Z.quot_div_nonneg by lia. set (n := Z.to_nat (len / 16 + 1)).
  assert (H95 : (deref (cs ++ rest) =? 95) = false).
  { destruct HC as [|c d cs ds [Hc _] _]; [contradiction|]. now destruct (char_digit_not c d Hc). }
  rewrite H95, andb_false_r.
  pose proof (Z.div_mod len 16 ltac:(lia)). pose proof (Z.mod_pos_bound len 16 ltac:(lia)).
  assert (0 <= len / 16) by (apply Z.div_pos; lia).
  destruct (parse_loop_spec base bad cs ds rest (repeat 0 n) 1 false) as (out & -> & HF & HE); auto.
  { auto with digits. }
  { unfold zeros_from. apply Forall_skipn', Forall_repeat'. reflexivity. }
  { rewrite repeat_length. unfold n. lia. }
  { rewrite eval_repeat_0, repeat_length, radix_shift. rewrite Z.add_0_l, Z.mul_1_l.
    apply Z.le_trans with (2 ^ len); [auto|]. apply Z.pow_le_mono_r; unfold n; lia. }
  cbn [bind]. set (pos := (length (pre ++ cs ++ rest) - length rest)%nat).
  replace (bad && (((1 <? pos)%nat && (nth (pos - 1) (pre ++ cs ++ rest) 0 =? 95))
      || negb (deref (skip_while ISSPACE rest) =? 0))) with false.
  - rewrite eval_repeat_0 in HE. apply returns_bignorm; auto. unfold big_val; cbn [sign digits].
    rewrite HE. now destruct sgn.
  - symmetry. destruct bad; auto. cbn [andb]. rewrite (skip_while_all ISSPACE rest) by now apply HBad.
    cbn [deref hd Z.eqb negb]. rewrite orb_false_r. apply andb_false_iff. right.
    destruct (exists_last HN) as (t & x & Ht).
    assert (HX : nth (pos - 1) (pre ++ cs ++ rest) 0 = x).
    { unfold pos. rewrite Ht, !length_app. cbn [length]. rewrite app_assoc, app_assoc.
      rewrite app_nth1 by (rewrite !length_app; cbn; lia).
      replace (length pre + (length t + 1 + length rest) - length rest - 1)%nat with (length (pre ++ t))
        by (rewrite length_app; lia).
      now rewrite nth_middle. }
    rewrite HX. rewrite Ht in HC. apply Forall2_app_inv_l in HC as (d1 & d2 & _ & HC2 & _).
    inversion HC2 as [|? d' ? ? [Hc _] ]; subst. now destruct (char_digit_not x d' Hc).
Qed.

(** What the C string denotes: white space, a sign, digits, and behind them
    nothing but (in strict mode) white space. *)
Lemma rb_cstr_to_inum_spec ws sg cs ds rest base bad :
  2 <= base <= 36 -> Forall (fun c => ISSPACE c = true) ws -> In sg [[]; [43]; [45]] ->
  digit_chars base cs ds -> cs <> [] -> number_end rest -> no_bad_rest bad rest ->
  6 * Z.of_nat (length (cs ++ rest)) <= LONG_MAX ->
  returns (rb_cstr_to_inum (Some (ws ++ sg ++ cs ++ rest)) base bad)
    (signed (negb (deref sg =? 45)) (horner base ds 0)).
Proof.
  intros Hb Hws Hsg HC HN HR HBad HLen. unfold rb_cstr_to_inum.
  assert (Hfst : exists c d, deref (cs ++ rest) = c /\ char_digit c = Some d /\ cs ++ rest <> []).
  { destruct HC as [|c d cs ds [Hc _] _]; [contradiction|]. exists c, d. splits; auto. discriminate. }
  destruct Hfst as (c & d & Hc & Hd & HNs). destruct (char_digit_not c d Hd) as (H95 & H43 & H45 & Hsp & _).
  rewrite skip_while_app.
  2:{ eapply Forall_impl; [|exact Hws]. cbn. now intros a ->. }
  2:{ cbn in Hsg. destruct Hsg as [<- |[<- |[<- |[]]]]; cbn [app]; [|now destruct bad..].
      rewrite Hc, Hsp, H95. now destruct bad. }
  2:{ cbn in Hsg. destruct Hsg as [<- |[<- |[<- |[]]]]; [exact HNs|discriminate..]. }
  assert (Hsign : (deref (sg ++ cs ++ rest) =? 45) = (deref sg =? 45) /\
    (if (deref (sg ++ cs ++ rest) =? 43) || (deref (sg ++ cs ++ rest) =? 45)
     then tl (sg ++ cs ++ rest) else sg ++ cs ++ rest) = cs ++ rest).
  { cbn in Hsg. destruct Hsg as [<- |[<- |[<- |[]]]]; cbn [app]; [|now split..].
    rewrite Hc, H43, H45. now split. }
  destruct Hsign as [-> ->]. rewrite Hc, H43, H45. cbn [orb].
  assert (Hib : inum_base base (cs ++ rest) = base).
  { unfold inum_base. now replace (base <=? 0) with false by lia. }
  rewrite Hib. destruct (inum_switch_spec base cs ds rest Hb HC HN HR) as (len & -> & Hlen & Hbl). cbn [bind].
  destruct (squeeze_spec base cs ds rest Hb HC HN HR) as (cs' & ds' & -> & HC' & HN' & HV' & zs & Hzs).
  rewrite <- HV'. replace (ws ++ sg ++ cs ++ rest) with ((ws ++ sg ++ zs) ++ cs' ++ rest)
    by (rewrite Hzs, <- !app_assoc; reflexivity).
  assert (HLd : length cs' = length ds') by (eapply Forall2_length; exact HC').
  rewrite Hzs, !length_app in HLen. unfold LONG_MAX in HLen. clear Hzs Hc HNs HC HN.
  rewrite s32_small by (rewrite length_app; nia).
  set (sgn := negb (deref sg =? 45)). set (bits := len * Z.of_nat (length (cs' ++ rest))).
  assert (Hbits : 0 <= bits <= 2147483647) by (unfold bits; rewrite length_app; nia).
  assert (HB : base ^ Z.of_nat (length ds') <= 2 ^ bits).
  { unfold bits. rewrite Z.pow_mul_r by lia. apply Z.le_trans with ((2 ^ len) ^ Z.of_nat (length ds')).
    - apply Z.pow_le_mono_l. lia.
    - apply Z.pow_le_mono_r; [apply Z.pow_pos_nonneg; lia|]. rewrite length_app. lia. }
  assert (HBig : returns (bigparse ((ws ++ sg ++ zs) ++ cs' ++ rest) base bits sgn bad (cs' ++ rest))
      (signed sgn (horner base ds' 0))) by (apply bigparse_spec; auto; lia).
  rewrite u32_small by lia. destruct (bits <=? 32) eqn:E32; breflect; [|exact HBig].
  pose proof (horner_bound base ds' ltac:(lia) (digit_chars_valid _ _ _ HC')) as HVb.
  pose proof (Z.pow_le_mono_r 2 bits 32 ltac:(lia) E32) as H32. change (2 ^ 32) with 4294967296 in H32.
  rewrite (strtoul_spec base cs' ds') by (auto; lia). set (v := horner base ds' 0) in *.
  destruct (number_end_stops rest HR) as (-> & _ & _).
  replace (bad && ((length rest =? length (cs' ++ rest))%nat || negb (deref (skip_while ISSPACE rest) =? 0)))
    with false.
  2:{ symmetry. destruct bad; auto. rewrite (skip_while_all ISSPACE rest) by now apply HBad.
      cbn [andb deref hd Z.eqb negb]. rewrite orb_false_r, length_app. apply Nat.eqb_neq.
      destruct cs'; [contradiction|cbn; lia]. }
  destruct (POSFIXABLE v) eqn:EP.
  - unfold POSFIXABLE in EP. rewrite FIXNUM_MAX_eq in EP. breflect.
    rewrite FIX2LONG_LONG2FIX_small by (apply FIXABLE_iff; destruct sgn; rewrite ?(s32_small v), ?s32_small by lia; lia).
    apply returns_Fix'; [apply FIXABLE_iff|]; destruct sgn; cbn [signed]; rewrite ?(s32_small v), ?s32_small by lia; lia.
  - destruct (uint2big_spec v ltac:(lia)) as (HO & HE & _).
    apply returns_bignorm; [apply HO|]. unfold big_val, set_sign; cbn [sign digits]. rewrite HE. reflexivity.
Qed.

Lemma value_room v :
  integral v -> canonical v -> (forall b, v = Big b -> 16 * len b <= ROOM_MAX) ->
  Z.abs (value v) < 2 ^ ROOM_MAX.
Proof.
  intros HI HC HL. assert (HJ : 32 <= ROOM_MAX) by (unfold ROOM_MAX; lia).
  destruct v as [n|b|o]; [| |contradiction]; cbn [value].
  - apply FIXABLE_iff in HC. apply Z.lt_le_trans with (2 ^ 32); [change (2 ^ 32) with 4294967296; lia|].
    apply Z.pow_le_mono_r; lia.
  - specialize (HL b eq_refl). destruct HC as (Hd & _ & _). pose proof (eval_bound _ Hd) as B.
    rewrite radix_shift in B. fold (len b) in B.
    pose proof (Z.pow_le_mono_r 2 (16 * len b) ROOM_MAX ltac:(lia) HL).
    set (P := 2 ^ ROOM_MAX) in *. clearbody P. unfold big_val. destruct (sign b); lia.
Qed.

Lemma printed_length base l v J :
  2 <= base <= 36 -> Forall (valid base) l -> (v <> 0 -> no_leading_zero l) -> (v = 0 -> l = [0]) ->
  horner base l 0 = v -> v < 2 ^ J -> Z.of_nat (length l) <= Z.max 1 J.
Proof.
  intros Hb Hl HZ H0 HV HJ. destruct (Z.eq_dec v 0) as [Hv|Hv]; [rewrite (H0 Hv); cbn; lia|].
  destruct Hl as [|d l Hd Hl]; [cbn; lia|]. specialize (HZ Hv). unfold no_leading_zero, valid in *. cbn in HZ.
  pose proof (horner_lower base d l ltac:(lia) ltac:(lia) Hl) as Hlow.
  pose proof (Z.pow_le_mono_l 2 base (Z.of_nat (length l)) ltac:(lia)).
  assert (Hlt : 2 ^ Z.of_nat (length l) < 2 ^ J) by lia.
  destruct (Z.lt_ge_cases J 0); [rewrite (Z.pow_neg_r 2 J) in Hlt by lia; lia|].
  apply Z.pow_lt_mono_r_iff in Hlt; cbn [length]; lia.
Qed.

(** Printing and parsing are inverse. *)
Lemma big2str_parse v base bad :
  2 <= base <= 36 -> integral v -> canonical v ->
  (forall b, v = Big b -> 16 * len b <= ROOM_MAX) ->
  exists s, rb_big2str v base = Ok s /\ rb_cstr_to_inum (Some s) base bad = Ok v.
Proof.
  intros Hb HI HC HL. destruct (rb_big2str_ok v base Hb HI HC HL) as (cs & HS & l & Hcs & HN & Hl & HV & HZ & H0).
  set (sg := if value v <? 0 then [45] else []).
  assert (Hs : (if value v <? 0 then 45 :: cs else cs) = [] ++ sg ++ cs ++ []).
  { rewrite app_nil_r. unfold sg. now destruct (value v <? 0). }
  rewrite Hs in HS. exists ([] ++ sg ++ cs ++ []). split; auto.
  assert (HDC : digit_chars base cs l).
  { rewrite Hcs. clear -Hl Hb. induction Hl as [|d l Hd Hl IH]; constructor; auto.
    split; auto. apply char_digit_digitmap. unfold valid in Hd. lia. }
  destruct (rb_cstr_to_inum_spec [] sg cs l [] base bad) as (w & HE & HIw & HCw & HVw); auto.
  { unfold sg. destruct (value v <? 0); cbn; auto. }
  { rewrite Hcs. destruct l; [contradiction|discriminate]. }
  { now left. }
  { intros _. constructor. }
  { rewrite app_nil_r, Hcs, length_map. pose proof (value_room v HI HC HL) as HR.
    pose proof (printed_length base l (Z.abs (value v)) ROOM_MAX Hb Hl HZ H0 HV HR) as HM. clear -HM. unfold LONG_MAX, ROOM_MAX in *. lia. }
  etransitivity; [exact HE|]. f_equal. apply canonical_unique; auto. rewrite HVw, HV. unfold sg.
  destruct (value v <? 0) eqn:E; breflect; cbn [deref hd Z.eqb negb signed]; cbn; lia.
Qed.

(** ** Quad words

    The branch without [long long]: 8 bytes, little endian. *)

Definition QUAD_SIZE : Z := 8.

(** [memcpy] from and to a block of digits. *)
Definition bytes_of_digits (ds : list Z) : list Z := flat_map (fun d => [d mod 256; d / 256]) ds.

Fixpoint digits_of_bytes (bs : list Z) : list Z :=
  match bs with
  | lo :: hi :: bs' => lo + 256 * hi :: digits_of_bytes bs'
  | _ => []
  end.

Definition rb_quad_pack (val : VALUE) : outcome (list Z) :=
  b <- int_operand val ;;
  let l := len b * SIZEOF_BDIGITS in
  if QUAD_SIZE <? l then Raise RangeError
  else
    let buf := bytes_of_digits (digits b) ++ repeat 0 (Z.to_nat (QUAD_SIZE - l)) in
    Ok (if negb (sign b) then map (fun c => u8 (Z.lnot c)) buf else buf).

Definition BNEG (buf : list Z) : bool :=
  negb (RSHIFT (nth 3 (digits_of_bytes buf) 0) (BITSPERDIG - 1) =? 0).

Definition rb_quad_unpack (buf : list Z) (sgn : bool) : VALUE :=
  if sgn && BNEG buf
  then bignorm (Big (mkBig false (digits_of_bytes (map (fun c => u8 (Z.lnot c)) buf))))
  else bignorm (Big (mkBig true (digits_of_bytes buf))).

Lemma digits_of_bytes_of_digits ds : Forall digit ds -> digits_of_bytes (bytes_of_digits ds) = ds.
Proof.
  induction 1 as [|d ds Hd Hds IH]; [reflexivity|].
  unfold bytes_of_digits in *. cbn [flat_map app digits_of_bytes]. rewrite IH. f_equal.
  pose proof (Z.div_mod d 256). lia.
Qed.

Lemma compl_bytes ds :
  Forall digit ds ->
  map (fun c => u8 (Z.lnot c)) (bytes_of_digits ds) = bytes_of_digits (map (fun d => 65535 - d) ds).
Proof.
  induction 1 as [|d ds Hd Hds IH]; [reflexivity|].
  unfold bytes_of_digits in *. cbn [flat_map app map]. rewrite IH.
  unfold digit, BIGRAD in Hd. unfold u8, Z.lnot. f_equal; [|f_equal]; Z.div_mod_to_equations; lia.
Qed.

Lemma compl_digits_ok ds : Forall digit ds -> Forall digit (map (fun d => 65535 - d) ds).
Proof. induction 1; cbn [map]; constructor; auto. unfold digit, BIGRAD in *; lia. Qed.

(** The packed digits: padded to four, complemented for a negative number. *)
Lemma rb_quad_pack_spec v :
  integral v -> canonical v -> Z.abs (value v) < radix 4 ->
  exists ds, rb_quad_pack v =
      Ok (bytes_of_digits (if value v <? 0 then map (fun d => 65535 - d) ds else ds)) /\
    Forall digit ds /\ length ds = 4%nat /\ eval ds = Z.abs (value v).
Proof.
  intros HI HC HV. unfold rb_quad_pack. destruct (int_operand_spec v HI HC) as (b & Ho & (Hd & HN & Hz) & Hv).
  pose proof (int_operand_neg v b HI HC Ho) as Hneg. rewrite Ho. cbn [bind].
  pose proof (eval_nonneg _ Hd) as Hpos.
  assert (HE : eval (digits b) = Z.abs (value v)) by (rewrite <- Hv; unfold big_val; destruct (sign b); lia).
  assert (HL : (length (digits b) <= 4)%nat).
  { destruct Hz as [Hn|Hz]; [|rewrite Hz; cbn; lia]. pose proof (normalized_lower _ Hd HN Hn).
    destruct (Nat.le_gt_cases (length (digits b)) 4); auto.
    pose proof (radix_mono 4 (length (digits b) - 1) ltac:(lia)). lia. }
  unfold len, SIZEOF_BDIGITS, QUAD_SIZE. replace (8 <? Z.of_nat (length (digits b)) * 2) with false by lia.
  set (ds := digits b ++ repeat 0 (4 - length (digits b))).
  assert (Hbuf : bytes_of_digits (digits b) ++ repeat 0 (Z.to_nat (8 - Z.of_nat (length (digits b)) * 2)) = bytes_of_digits ds).
  { unfold ds, bytes_of_digits. rewrite flat_map_app. f_equal.
    replace (Z.to_nat (8 - Z.of_nat (length (digits b)) * 2)) with (2 * (4 - length (digits b)))%nat by lia.
    induction (4 - length (digits b))%nat as [|k IH]; [reflexivity|].
    replace (2 * S k)%nat with (S (S (2 * k))) by lia. cbn [repeat flat_map app]. now rewrite IH. }
  rewrite Hbuf. assert (Fd : Forall digit ds) by (unfold ds; apply Forall_app; auto with digits).
  exists ds. splits; auto.
  - f_equal. destruct (sign b) eqn:Es; cbn [negb].
    + unfold big_val in Hv. rewrite Es in Hv. now replace (value v <? 0) with false by lia.
    + specialize (Hneg eq_refl). replace (value v <? 0) with true by lia. now apply compl_bytes.
  - unfold ds. rewrite length_app, repeat_length. lia.
  - unfold ds. rewrite eval_app, eval_repeat_0. lia.
Qed.

Lemma BNEG_top ds :
  Forall digit ds -> length ds = 4%nat -> BNEG (bytes_of_digits ds) = (radix 4 <=? 2 * eval ds).
Proof.
  intros Hd HL. unfold BNEG. rewrite digits_of_bytes_of_digits by auto.
  destruct ds as [|a [|b [|c [|d [|]]]]]; try discriminate.
  repeat match goal with H : Forall _ (_ :: _) |- _ => inversion H; clear H; subst end.
  unfold digit, BIGRAD in *. cbn [nth eval]. unfold RSHIFT, BITSPERDIG, BIGRAD. rewrite Z.shiftr_div_pow2 by lia.
  change (2 ^ (16 - 1)) with 32768. change (radix 4) with 18446744073709551616.
  assert (HQ : d / 32768 = if d <? 32768 then 0 else 1).
  { destruct (Z.ltb_spec d 32768); [apply Z.div_small; lia|].
    symmetry. apply Z.div_unique with (d - 32768); lia. }
  rewrite HQ. destruct (Z.ltb_spec d 32768); symmetry; [apply Z.leb_gt|apply Z.leb_le]; lia.
Qed.

Lemma eval_compl_digits ds :
  Forall digit ds -> eval (map (fun d => 65535 - d) ds) = radix (length ds) - 1 - eval ds.
Proof.
  induction 1 as [|d ds Hd Hds IH]; cbn [map eval length]; [rewrite radix_0; lia|].
  rewrite IH, radix_S. unfold BIGRAD. lia.
Qed.

Lemma quad_unpack_pack v (sgn : bool) :
  integral v -> canonical v ->
  (if sgn then 2 * Z.abs (value v) < radix 4 else 0 <= value v < radix 4) ->
  exists buf, rb_quad_pack v = Ok buf /\ rb_quad_unpack buf sgn = v.
Proof.
  intros HI HC HV. destruct (rb_quad_pack_spec v HI HC) as (ds & HP & Hd & HL & HE).
  { destruct sgn; lia. }
  eexists. split; [exact HP|]. clear HP. pose proof (compl_digits_ok ds Hd) as Hd'.
  pose proof (eval_compl_digits ds Hd) as HEc. rewrite HL in HEc.
  assert (HX : forall ss s, Forall digit ss -> big_val (mkBig s ss) = value v -> bignorm (Big (mkBig s ss)) = v).
  { intros ss s Hss Hs. destruct (bignorm_spec (mkBig s ss) Hss) as (H1 & H2 & H3).
    apply canonical_unique; auto. congruence. }
  unfold rb_quad_unpack. destruct (value v <? 0) eqn:E; breflect.
  - destruct sgn; [|lia]. rewrite BNEG_top by (auto; now rewrite length_map).
    rewrite HEc. replace (radix 4 <=? 2 * (radix 4 - 1 - eval ds)) with true by (change (radix 4) with 18446744073709551616 in *; lia). cbn [andb].
    rewrite compl_bytes, digits_of_bytes_of_digits by auto using compl_digits_ok. rewrite map_map.
    rewrite (map_ext _ (fun d => d)) by (intros; lia). rewrite map_id.
    apply HX; auto. unfold big_val; cbn [sign digits]. lia.
  - replace (sgn && BNEG (bytes_of_digits ds)) with false.
    + rewrite digits_of_bytes_of_digits by auto. apply HX; auto. unfold big_val; cbn [sign digits]. lia.
    + symmetry. destruct sgn; auto. cbn [andb]. rewrite BNEG_top by auto. lia.
Qed.

(** ** Properties *)

(** C30: printing and reading back: for every base from 2 to 36 and every
    integer within the bound on the length, [rb_big2str] returns a string (its
    buffer is large enough) and [rb_cstr_to_inum], strict or not, reads the same
    [VALUE] from it. *)
Theorem to_s_to_i v base bad :
  2 <= base <= 36 -> integral v -> canonical v ->
  (forall b, v = Big b -> 16 * len b <= ROOM_MAX) ->
  exists s, rb_big2str v base = Ok s /\ rb_cstr_to_inum (Some s) base bad = Ok v.
Proof. apply big2str_parse. Qed.

Lemma to_s_to_i_witness :
  exists s, rb_big2str (Big (mkBig false [1; 2; 3])) 7 = Ok s /\
    rb_cstr_to_inum (Some s) 7 true = Ok (Big (mkBig false [1; 2; 3])).
Proof.
  apply (to_s_to_i (Big (mkBig false [1; 2; 3])) 7 true); [lia|concrete..|].
  intros b E. injection E as <-. discriminate.
Defined.

(** the text [rb_big2str] produces: a minus sign for a negative number and
    then digits of the base without a leading zero, whose value is the
    magnitude.  The estimate of the number of digits, made with [long]
    arithmetic, is large enough up to [ROOM_MAX] bits. *)
Theorem big2str_text v base :
  2 <= base <= 36 -> integral v -> canonical v ->
  (forall b, v = Big b -> 16 * len b <= ROOM_MAX) ->
  exists cs, rb_big2str v base = Ok (if value v <? 0 then 45 :: cs else cs) /\
    printed base cs (Z.abs (value v)).
Proof. apply rb_big2str_ok. Qed.

Lemma big2str_text_witness :
  exists cs, rb_big2str (Big (mkBig false [0; 0; 1])) 10 = Ok (45 :: cs) /\ printed 10 cs 4294967296.
Proof.
  apply (big2str_text (Big (mkBig false [0; 0; 1])) 10); [lia|concrete..|].
  intros b E. injection E as <-. discriminate.
Defined.

(** What [rb_cstr_to_inum] reads: white space, a sign, and digits of the
    base up to the end or white space give the integer the digits denote,
    whatever the number of digits (the digit array never overflows). *)
Theorem cstr_to_inum_digits ws sg cs ds rest base bad :
  2 <= base <= 36 -> Forall (fun c => ISSPACE c = true) ws -> In sg [[]; [43]; [45]] ->
  digit_chars base cs ds -> cs <> [] -> number_end rest -> no_bad_rest bad rest ->
  6 * Z.of_nat (length (cs ++ rest)) <= LONG_MAX ->
  returns (rb_cstr_to_inum (Some (ws ++ sg ++ cs ++ rest)) base bad)
    (signed (negb (deref sg =? 45)) (horner base ds 0)).
Proof. apply rb_cstr_to_inum_spec. Qed.

(** [" -10000000000 "] in base 10. *)
Lemma cstr_to_inum_digits_witness :
  returns (rb_cstr_to_inum (Some ([32] ++ [45] ++ (49 :: repeat 48 10) ++ [32])) 10 true) (-10000000000).
Proof.
  apply (cstr_to_inum_digits [32] [45] (49 :: repeat 48 10) (1 :: repeat 0 10) [32] 10 true).
  - lia.
  - repeat constructor.
  - right; right; now left.
  - unfold digit_chars. repeat (constructor; [split; [reflexivity|unfold valid; lia]|]). constructor.
  - discriminate.
  - right. reflexivity.
  - intros _. repeat constructor.
  - cbn. unfold LONG_MAX. lia.
Defined.

(** [pack] and [unpack] of 64-bit integers: what [rb_quad_unpack] reads from
    the bytes [rb_quad_pack] wrote is the integer, signed or unsigned. *)
Theorem quad_round_trip v (sgn : bool) :
  integral v -> canonical v ->
  (if sgn then 2 * Z.abs (value v) < radix 4 else 0 <= value v < radix 4) ->
  exists buf, rb_quad_pack v = Ok buf /\ rb_quad_unpack buf sgn = v.
Proof. apply quad_unpack_pack. Qed.

Lemma quad_round_trip_witness : exists buf, rb_quad_pack (Fix (-2)) = Ok buf /\ rb_quad_unpack buf true = Fix (-2).
Proof. apply (quad_round_trip (Fix (-2)) true); [concrete..|]. cbn. unfold radix, BIGRAD. lia. Defined.

(** The bytes of a negative number are its one's complement: every byte is
    the complement of the byte of the magnitude, so that -1 is packed as
    [FE FF FF FF FF FF FF FF] (the witness). *)
Theorem quad_pack_bytes v :
  integral v -> canonical v -> Z.abs (value v) < radix 4 ->
  exists ds, rb_quad_pack v =
      Ok (bytes_of_digits (if value v <? 0 then map (fun d => 65535 - d) ds else ds)) /\
    Forall digit ds /\ length ds = 4%nat /\ eval ds = Z.abs (value v).
Proof. apply rb_quad_pack_spec. Qed.

Lemma quad_pack_bytes_witness :
  rb_quad_pack (Fix (-1)) = Ok [254; 255; 255; 255; 255; 255; 255; 255] /\
  exists ds, rb_quad_pack (Fix (-1)) = Ok (bytes_of_digits (map (fun d => 65535 - d) ds)) /\
    Forall digit ds /\ length ds = 4%nat /\ eval ds = 1.
Proof.
  split; [reflexivity|]. apply (quad_pack_bytes (Fix (-1))); [concrete..|]. cbn. unfold radix, BIGRAD. lia.
Defined.
