(* ===== verification/Fixnum.v ===== *)
(** * Fixnum operators

    The [Fixnum] and [Integer] methods of src/ruby/numeric.c.  A receiver is
    the integer its tagged word holds; arithmetic is done on a C [long] and
    the result is tested for the overflow of the tag. *)

From Stdlib Require Import ZArith Lia List Bool.
From S2P Require Import Prelude CInt Digits Bignum BigAdd BigMul BigDiv BigBits.
Import ListNotations.
Local Open Scope Z_scope.
Local Open Scope outcome_scope.

(** ** Operations *)

(** [r = LONG2FIX(c); if (FIX2LONG(r) != c)]: the value of [r] and the test. *)
Definition tag (c : Z) : Z := FIX2LONG (LONG2FIX c).

Definition LONG2NUM (v : Z) : VALUE := rb_int2inum v.

Definition rb_num2fix (val : VALUE) : outcome VALUE :=
  match val with
  | Fix _ => Ok val
  | _ => v <- NUM2LONG val ;; if negb (FIXABLE v) then Raise RangeError else Ok (Fix (tag v))
  end.

Definition int_succ (num : VALUE) : outcome VALUE :=
  match num with
  | Fix n => Ok (LONG2NUM (n + 1))
  | _ => Delegate
  end.

Definition int_chr (num : VALUE) : outcome (list Z) :=
  i <- NUM2LONG num ;;
  if (i <? 0) || (255 <? i) then Raise RangeError else Ok [i].

Definition fix_uminus (num : Z) : VALUE := LONG2NUM (- num).

Definition fix_plus (x : Z) (y : VALUE) : outcome VALUE :=
  match y with
  | Fix b =>
      let c := s32 (x + b) in
      if negb (tag c =? c) then rb_big_plus (rb_int2big x) (Big (rb_int2big b)) else Ok (Fix (tag c))
  | _ => Delegate
  end.

Definition fix_minus (x : Z) (y : VALUE) : outcome VALUE :=
  match y with
  | Fix b =>
      let c := s32 (x - b) in
      if negb (tag c =? c) then rb_big_minus (rb_int2big x) (Big (rb_int2big b)) else Ok (Fix (tag c))
  | _ => Delegate
  end.

Definition fix_mul (x : Z) (y : VALUE) : outcome VALUE :=
  match y with
  | Fix b =>
      if x =? 0 then Ok (Fix x)
      else
        let c := s32 (x * b) in
        if negb (tag c =? c) || negb (cdiv c x =? b)
        then rb_big_mul (Big (rb_int2big x)) (Big (rb_int2big b))
        else Ok (Fix (tag c))
  | _ => Delegate
  end.

Definition fixdivmod (x y : Z) : outcome (Z * Z) :=
  if y =? 0 then Raise ZeroDivisionError
  else
    let div :=
      if y <? 0 then
        if x <? 0 then cdiv (- x) (- y) else - cdiv x (- y)
      else
        if x <? 0 then - cdiv (- x) y else cdiv x y in
    let md := x - div * y in
    if ((md <? 0) && (0 <? y)) || ((0 <? md) && (y <? 0))
    then Ok (div - 1, md + y)
    else Ok (div, md).

Definition fix_div (x : Z) (y : VALUE) : outcome VALUE :=
  match y with
  | Fix b => '(div, _) <- fixdivmod x b ;; Ok (LONG2NUM div)
  | _ => Delegate
  end.

Definition fix_mod (x : Z) (y : VALUE) : outcome VALUE :=
  match y with
  | Fix b => '(_, md) <- fixdivmod x b ;; Ok (LONG2NUM md)
  | _ => Delegate
  end.

Definition fix_divmod (x : Z) (y : VALUE) : outcome (VALUE * VALUE) :=
  match y with
  | Fix b => '(div, md) <- fixdivmod x b ;; Ok (LONG2NUM div, LONG2NUM md)
  | _ => Delegate
  end.

(** Negative exponents give floats. *)
Definition fix_pow (x : Z) (y : VALUE) : outcome VALUE :=
  match y with
  | Fix b =>
      if b =? 0 then Ok (Fix 1)
      else if b =? 1 then Ok (Fix x)
      else if 0 <? b then rb_big_pow (rb_int2big x) y
      else Delegate
  | _ => Delegate
  end.

Definition fix_equal (x : Z) (y : VALUE) : outcome bool :=
  match y with Fix b => Ok (x =? b) | _ => Delegate end.

Definition fix_cmp (x : Z) (y : VALUE) : outcome Z :=
  match y with
  | Fix b => Ok (if x =? b then 0 else if b <? x then 1 else -1)
  | _ => Delegate
  end.

Definition fix_gt (x : Z) (y : VALUE) : outcome bool :=
  match y with Fix b => Ok (b <? x) | _ => Delegate end.
Definition fix_ge (x : Z) (y : VALUE) : outcome bool :=
  match y with Fix b => Ok (b <=? x) | _ => Delegate end.
Definition fix_lt (x : Z) (y : VALUE) : outcome bool :=
  match y with Fix b => Ok (x <? b) | _ => Delegate end.
Definition fix_le (x : Z) (y : VALUE) : outcome bool :=
  match y with Fix b => Ok (x <=? b) | _ => Delegate end.

Definition fix_rev (num : Z) : VALUE := LONG2NUM (Z.lnot num).

Definition fix_and (x : Z) (y : VALUE) : outcome VALUE :=
  match y with
  | Big b => rb_big_and b (Fix x)
  | _ => v <- NUM2LONG y ;; Ok (LONG2NUM (Z.land x v))
  end.

Definition fix_or (x : Z) (y : VALUE) : outcome VALUE :=
  match y with
  | Big b => rb_big_or b (Fix x)
  | _ => v <- NUM2LONG y ;; Ok (LONG2NUM (Z.lor x v))
  end.

Definition fix_xor (x : Z) (y : VALUE) : outcome VALUE :=
  match y with
  | Big b => rb_big_xor b (Fix x)
  | _ => v <- NUM2LONG y ;; Ok (LONG2NUM (Z.lxor x v))
  end.

Definition fix_lshift_body (val width : Z) (y : VALUE) : outcome VALUE :=
  if (31 <? width) || (0 <? Z.shiftr (u32 val) (31 - width))
  then rb_big_lshift (rb_int2big val) y
  else Ok (LONG2NUM (s32 (Z.shiftl val width))).

Definition fix_rshift_body (val i : Z) : VALUE :=
  if i =? 0 then Fix val
  else if 31 <=? i then Fix (if val <? 0 then -1 else 0)
  else Fix (tag (RSHIFT val i)).

(** The shifts call each other for negative counts; [fuel] is the depth of
    the C stack. *)
Fixpoint fix_lshift_rec (fuel : nat) (x : Z) (y : VALUE) : outcome VALUE :=
  match fuel with
  | O => Undefined
  | S fuel =>
      width <- NUM2LONG y ;;
      if width <? 0 then fix_rshift_rec fuel x (neg_fix width)
      else fix_lshift_body x width y
  end
with fix_rshift_rec (fuel : nat) (x : Z) (y : VALUE) : outcome VALUE :=
  match fuel with
  | O => Undefined
  | S fuel =>
      i <- NUM2LONG y ;;
      if i <? 0 then fix_lshift_rec fuel x (neg_fix i)
      else Ok (fix_rshift_body x i)
  end.

Definition fix_lshift : Z -> VALUE -> outcome VALUE := fix_lshift_rec 3.
Definition fix_rshift : Z -> VALUE -> outcome VALUE := fix_rshift_rec 3.

Definition fix_aref (x : Z) (idx : VALUE) : outcome Z :=
  let idx := bignorm idx in
  match idx with
  | Big b => Ok (if negb (sign b) || (0 <=? x) then 0 else 1)
  | _ =>
      i <- NUM2LONG idx ;;
      if i <? 0 then Ok 0
      else if 31 <? i then Ok (if x <? 0 then 1 else 0)
      else Ok (if Z.land x (s32 (Z.shiftl 1 i)) =? 0 then 0 else 1)
  end.

Definition fix_abs (x : Z) : VALUE := LONG2NUM (if x <? 0 then - x else x).

Definition fix_size : VALUE := Fix 4.

Definition fix_zero_p (x : Z) : bool := x =? 0.

(** ** Iteration

    The block is a function on the interpreter's state; raising or breaking
    out of the loop is an outcome other than [Ok]. *)
Section Iteration.
Context {St : Type} (rb_yield : VALUE -> St -> outcome St).

(** [for (i = from; i <= end; i++) rb_yield(LONG2FIX(i));] *)
Fixpoint upto_loop (fuel : nat) (i last : Z) (s : St) : outcome St :=
  if i <=? last then
    match fuel with
    | O => Undefined
    | S fuel => s <- rb_yield (Fix (tag i)) s ;; upto_loop fuel (i + 1) last s
    end
  else Ok s.

Fixpoint downto_loop (fuel : nat) (i last : Z) (s : St) : outcome St :=
  if last <=? i then
    match fuel with
    | O => Undefined
    | S fuel => s <- rb_yield (Fix (tag i)) s ;; downto_loop fuel (i - 1) last s
    end
  else Ok s.

Definition int_upto (from to : VALUE) (s : St) : outcome St :=
  match from, to with
  | Fix a, Fix b => upto_loop (Z.to_nat (b - a + 1)) a b s
  | _, _ => Delegate
  end.

Definition int_downto (from to : VALUE) (s : St) : outcome St :=
  match from, to with
  | Fix a, Fix b => downto_loop (Z.to_nat (a - b + 1)) a b s
  | _, _ => Delegate
  end.

(** [for (i=0; i<end; i++)]. *)
Fixpoint dotimes_loop (fuel : nat) (i last : Z) (s : St) : outcome St :=
  if i <? last then
    match fuel with
    | O => Undefined
    | S fuel => s <- rb_yield (Fix (tag i)) s ;; dotimes_loop fuel (i + 1) last s
    end
  else Ok s.

Definition int_dotimes (num : VALUE) (s : St) : outcome St :=
  match num with
  | Fix n => dotimes_loop (Z.to_nat n) 0 n s
  | _ => Delegate
  end.

(** The block run on a sequence of integers. *)
Fixpoint yield_all (l : list Z) (s : St) : outcome St :=
  match l with
  | [] => Ok s
  | n :: l => s <- rb_yield (Fix n) s ;; yield_all l s
  end.
End Iteration.

(** ** Boxing *)

Lemma tag_small c : FIXABLE c = true -> tag c = c.
Proof. apply FIX2LONG_LONG2FIX_small. Qed.

(** The overflow test of the tag is the test for [FIXABLE]. *)
Lemma tag_test c : LONG_MIN <= c <= LONG_MAX -> (tag c =? c) = FIXABLE c.
Proof.
  unfold LONG_MIN, LONG_MAX; intros H. destruct (FIXABLE c) eqn:E.
  - rewrite tag_small by auto. apply Z.eqb_refl.
  - apply Z.eqb_neq. intros HX. pose proof (FIX2LONG_fixable (LONG2FIX c)) as HF.
    unfold tag in HX. rewrite HX in HF. congruence.
Qed.

Lemma LONG2NUM_ok v : LONG_MIN <= v <= LONG_MAX -> returns (Ok (LONG2NUM v)) v.
Proof.
  intros H. unfold LONG2NUM, rb_int2inum. destruct (FIXABLE v) eqn:E; [now apply returns_Fix|].
  destruct (int2big_spec v H) as [(Hd & HN & Hz) HV].
  exists (Big (rb_int2big v)). split; [reflexivity|]. split; [exact I|]. split; [|exact HV].
  unfold canonical. rewrite HV. splits; auto.
  destruct Hz as [|Hz]; auto. exfalso. unfold big_val in HV. rewrite Hz in HV.
  assert (v = 0) by (destruct (sign (rb_int2big v)); cbn in HV; lia). subst v. discriminate.
Qed.

Definition fixnum (n : Z) : Prop := FIXABLE n = true.

Lemma fixnum_long n : fixnum n -> LONG_MIN <= n <= LONG_MAX.
Proof. unfold fixnum. rewrite FIXABLE_iff. unfold LONG_MIN, LONG_MAX. lia. Qed.

Lemma fixnum_big_ok n : fixnum n -> big_ok (rb_int2big n) /\ big_val (rb_int2big n) = n.
Proof. intros H. apply int2big_spec. now apply fixnum_long. Qed.

(** A sum or difference of Fixnums fits in a [long]. *)
Lemma sum_long a b : fixnum a -> fixnum b -> LONG_MIN <= a + b <= LONG_MAX /\ LONG_MIN <= a - b <= LONG_MAX.
Proof. unfold fixnum. rewrite !FIXABLE_iff. unfold LONG_MIN, LONG_MAX. lia. Qed.

Lemma s32_long c : LONG_MIN <= c <= LONG_MAX -> s32 c = c.
Proof. unfold LONG_MIN, LONG_MAX. intros. apply s32_small. lia. Qed.

(** ** Arithmetic *)

Lemma fix_plus_ok a b : fixnum a -> fixnum b -> returns (fix_plus a (Fix b)) (a + b).
Proof.
  intros Ha Hb. destruct (sum_long a b Ha Hb) as [HS _]. cbn [fix_plus].
  rewrite s32_long, tag_test by auto. destruct (FIXABLE (a + b)) eqn:E; cbn [negb].
  - rewrite tag_small by auto. now apply returns_Fix.
  - destruct (fixnum_big_ok a Ha) as [Oa Va], (fixnum_big_ok b Hb) as [Ob Vb].
    unfold rb_big_plus. cbn [int_operand bind].
    destruct (bigadd_spec (rb_int2big a) (rb_int2big b) true) as (Hd & Hv); auto using big_ok_ordered with bignum.
    apply returns_bignorm; auto. lia.
Qed.

Lemma fix_minus_ok a b : fixnum a -> fixnum b -> returns (fix_minus a (Fix b)) (a - b).
Proof.
  intros Ha Hb. destruct (sum_long a b Ha Hb) as [_ HS]. cbn [fix_minus].
  rewrite s32_long, tag_test by auto. destruct (FIXABLE (a - b)) eqn:E; cbn [negb].
  - rewrite tag_small by auto. now apply returns_Fix.
  - destruct (fixnum_big_ok a Ha) as [Oa Va], (fixnum_big_ok b Hb) as [Ob Vb].
    unfold rb_big_minus. cbn [int_operand bind].
    destruct (bigadd_spec (rb_int2big a) (rb_int2big b) false) as (Hd & Hv); auto using big_ok_ordered with bignum.
    apply returns_bignorm; auto. lia.
Qed.

(** The two tests of [fix_mul] catch every overflow of the [long] product. *)
Lemma mul_test a b :
  fixnum a -> fixnum b -> a <> 0 ->
  (tag (s32 (a * b)) =? s32 (a * b)) && (cdiv (s32 (a * b)) a =? b) = FIXABLE (a * b).
Proof.
  unfold fixnum. rewrite !FIXABLE_iff. intros Ha Hb H0. pose proof (s32_bound (a * b)).
  rewrite tag_test by (unfold LONG_MIN, LONG_MAX; lia). unfold cdiv.
  destruct (FIXABLE (a * b)) eqn:E.
  - apply FIXABLE_iff in E. rewrite s32_small by lia.
    apply andb_true_iff. split; [apply FIXABLE_iff; lia|]. apply Z.eqb_eq.
    rewrite Z.mul_comm. now apply Z.quot_mul.
  - apply andb_false_iff. destruct (FIXABLE (s32 (a * b))) eqn:E1; [right|now left].
    apply Z.eqb_neq. intros HQ. pose proof (Z.quot_rem (s32 (a * b)) a H0) as HR. rewrite HQ in HR.
    pose proof (Z.rem_bound_abs (s32 (a * b)) a H0) as HB.
    destruct (s32_eqm (a * b)) as [k Hk]. assert (k = 0) by lia. subst k.
    rewrite Z.mul_0_l, Z.add_0_r in Hk. congruence.
Qed.

Lemma fix_mul_ok a b : fixnum a -> fixnum b -> returns (fix_mul a (Fix b)) (a * b).
Proof.
  intros Ha Hb. cbn [fix_mul]. destruct (a =? 0) eqn:E0; breflect.
  { subst a. now apply returns_Fix. }
  pose proof (mul_test a b Ha Hb E0) as HT.
  replace (negb (tag (s32 (a * b)) =? s32 (a * b)) || negb (cdiv (s32 (a * b)) a =? b))
    with (negb (FIXABLE (a * b))) by (rewrite <- HT; apply negb_andb).
  destruct (FIXABLE (a * b)) eqn:E; cbn [negb].
  - assert (s32 (a * b) = a * b) as -> by (apply s32_long; now apply fixnum_long).
    rewrite tag_small by auto. now apply returns_Fix.
  - destruct (fixnum_big_ok a Ha) as [Oa Va], (fixnum_big_ok b Hb) as [Ob Vb].
    rewrite <- Va at 2. rewrite <- Vb at 2. now apply rb_big_mul_big_ok.
Qed.

(** Quotient and remainder are the floored ones, whatever the signs. *)
Lemma fixdivmod_ok x y :
  fixdivmod x y = if y =? 0 then Raise ZeroDivisionError else Ok (x / y, x mod y).
Proof.
  unfold fixdivmod, cdiv. destruct (y =? 0) eqn:E0; breflect; auto.
  assert (HQ : (if y <? 0 then if x <? 0 then Z.quot (- x) (- y) else - Z.quot x (- y)
    else if x <? 0 then - Z.quot (- x) y else Z.quot x y) = Z.quot x y).
  { destruct (y <? 0), (x <? 0); rewrite ?Z.quot_opp_opp, ?Z.quot_opp_l, ?Z.quot_opp_r by lia; lia. }
  rewrite HQ. pose proof (Z.quot_rem x y E0). pose proof (Z.rem_bound_abs x y E0).
  pose proof (Z.rem_sign_nz x y E0) as HS.
  pose proof (Z.div_mod x y E0) as HD.
  assert (HU : forall q r, x = y * q + r -> (0 <= r < y \/ y < r <= 0) -> q = x / y /\ r = x mod y).
  { intros q r Hx Hr. split; [now apply Z.div_unique with r|now apply Z.mod_unique with q]. }
  replace (x - Z.quot x y * y) with (Z.rem x y) by lia.
  destruct (((Z.rem x y <? 0) && (0 <? y)) || ((0 <? Z.rem x y) && (y <? 0))) eqn:E.
  - destruct (HU (Z.quot x y - 1) (Z.rem x y + y)) as [-> ->]; auto; lia.
  - destruct (HU (Z.quot x y) (Z.rem x y)) as [-> ->]; auto; lia.
Qed.

Lemma fix_quotient_long x y : fixnum x -> fixnum y -> y <> 0 ->
  LONG_MIN <= x / y <= LONG_MAX /\ LONG_MIN <= x mod y <= LONG_MAX.
Proof.
  unfold fixnum. rewrite !FIXABLE_iff. unfold LONG_MIN, LONG_MAX. intros Hx Hy H0.
  pose proof (Z.div_mod x y H0). destruct (Z.lt_ge_cases y 0).
  - pose proof (Z.mod_neg_bound x y). split; [nia|lia].
  - pose proof (Z.mod_pos_bound x y). split; [nia|lia].
Qed.

Lemma fix_divmod_ok x y :
  fixnum x -> fixnum y ->
  if y =? 0 then
    fix_div x (Fix y) = Raise ZeroDivisionError /\ fix_mod x (Fix y) = Raise ZeroDivisionError /\
    fix_divmod x (Fix y) = Raise ZeroDivisionError
  else
    returns (fix_div x (Fix y)) (x / y) /\ returns (fix_mod x (Fix y)) (x mod y) /\
    exists q r, fix_divmod x (Fix y) = Ok (q, r) /\ value q = x / y /\ value r = x mod y /\
      canonical q /\ canonical r.
Proof.
  intros Hx Hy. unfold fix_div, fix_mod, fix_divmod. rewrite fixdivmod_ok.
  destruct (y =? 0) eqn:E; breflect; [auto|]. cbn [bind].
  destruct (fix_quotient_long x y Hx Hy E) as [HQ HM].
  pose proof (LONG2NUM_ok _ HQ) as RQ. pose proof (LONG2NUM_ok _ HM) as RM. splits; auto.
  destruct RQ as (q & Hq & _ & Cq & Vq), RM as (r & Hr & _ & Cr & Vr).
  injection Hq as Hq. injection Hr as Hr. rewrite Hq, Hr. exists q, r. auto.
Qed.

Lemma fix_pow_ok x n :
  fixnum x -> fixnum n -> 0 <= n -> returns (fix_pow x (Fix n)) (x ^ n).
Proof.
  intros Hx Hf Hn. cbn [fix_pow].
  destruct (n =? 0) eqn:E0; breflect; [subst n; now apply returns_Fix|].
  destruct (n =? 1) eqn:E1; breflect; [subst n; rewrite Z.pow_1_r; now apply returns_Fix|].
  replace (0 <? n) with true by lia. destruct (fixnum_big_ok x Hx) as [Ox Vx].
  rewrite <- Vx at 2. now apply rb_big_pow_ok.
Qed.

Lemma fix_uminus_ok x : fixnum x -> returns (Ok (fix_uminus x)) (- x).
Proof.
  intros H. apply LONG2NUM_ok. apply FIXABLE_iff in H. unfold LONG_MIN, LONG_MAX. lia.
Qed.

Lemma fix_abs_ok x : fixnum x -> returns (Ok (fix_abs x)) (Z.abs x).
Proof.
  intros H. apply FIXABLE_iff in H. unfold fix_abs.
  replace (if x <? 0 then - x else x) with (Z.abs x) by (case_if; lia).
  apply LONG2NUM_ok. unfold LONG_MIN, LONG_MAX. lia.
Qed.

(** ** Bit operations *)

(** The Fixnums are the integers whose bits from the thirtieth on agree. *)
Lemma fixnum_shiftr z : fixnum z <-> Z.shiftr z 30 = 0 \/ Z.shiftr z 30 = -1.
Proof.
  unfold fixnum. rewrite FIXABLE_iff, Z.shiftr_div_pow2 by lia. change (2 ^ 30) with 1073741824.
  pose proof (Z.div_mod z 1073741824). pose proof (Z.mod_pos_bound z 1073741824). lia.
Qed.

Lemma fixnum_bitwise f :
  (f = Z.land \/ f = Z.lor \/ f = Z.lxor) -> forall a b, fixnum a -> fixnum b -> fixnum (f a b).
Proof.
  intros Hf a b. rewrite !fixnum_shiftr.
  destruct Hf as [-> |[-> | ->]]; rewrite ?Z.shiftr_land, ?Z.shiftr_lor, ?Z.shiftr_lxor;
    intros [-> | ->] [-> | ->]; vm_compute; auto.
Qed.

Lemma LONG2NUM_fixnum v : fixnum v -> returns (Ok (LONG2NUM v)) v.
Proof. intros H. apply LONG2NUM_ok. now apply fixnum_long. Qed.

Lemma fix_rev_ok x : fixnum x -> returns (Ok (fix_rev x)) (Z.lnot x).
Proof.
  intros H. apply LONG2NUM_ok. apply FIXABLE_iff in H. unfold Z.lnot, LONG_MIN, LONG_MAX. lia.
Qed.

Lemma fix_and_ok x y : fixnum x -> integral y -> canonical y -> returns (fix_and x y) (Z.land x (value y)).
Proof.
  intros Hx HI HC. destruct y as [n|b|o]; [| |contradiction]; cbn [fix_and NUM2LONG bind value].
  - apply LONG2NUM_fixnum. apply fixnum_bitwise; auto.
  - rewrite Z.land_comm. now apply rb_big_and_ok.
Qed.

Lemma fix_or_ok x y : fixnum x -> integral y -> canonical y -> returns (fix_or x y) (Z.lor x (value y)).
Proof.
  intros Hx HI HC. destruct y as [n|b|o]; [| |contradiction]; cbn [fix_or NUM2LONG bind value].
  - apply LONG2NUM_fixnum. apply fixnum_bitwise; auto.
  - rewrite Z.lor_comm. now apply rb_big_or_ok.
Qed.

Lemma fix_xor_fix_ok x n : fixnum x -> fixnum n -> returns (fix_xor x (Fix n)) (Z.lxor x n).
Proof.
  intros Hx Hn. cbn [fix_xor NUM2LONG bind]. apply LONG2NUM_fixnum. apply fixnum_bitwise; auto.
Qed.

Lemma fix_lshift_body_ok x y n :
  fixnum x -> NUM2LONG y = Ok n -> 0 <= n -> returns (fix_lshift_body x n y) (x * 2 ^ n).
Proof.
  intros Hx HN Hn. unfold fix_lshift_body. pose proof (fixnum_big_ok x Hx) as [(Hd & _) Vx].
  destruct ((31 <? n) || (0 <? Z.shiftr (u32 x) (31 - n))) eqn:E.
  - unfold rb_big_lshift. destruct (shift_rec_dispatch 1 (rb_int2big x) y n HN ltac:(lia)) as [-> _].
    replace (n <? 0) with false by lia. rewrite <- Vx at 2. now apply lshift_body_ok.
  - breflect. apply FIXABLE_iff in Hx. rewrite Z.shiftr_div_pow2 in * by lia.
    pose proof (Z.pow_pos_nonneg 2 (31 - n) ltac:(lia) ltac:(lia)) as Hp.
    pose proof (u32_bound x) as Bu.
    assert (Hlt : u32 x < 2 ^ (31 - n)).
    { pose proof (Z.div_mod (u32 x) (2 ^ (31 - n)) ltac:(lia)).
      pose proof (Z.mod_pos_bound (u32 x) (2 ^ (31 - n)) ltac:(lia)). nia. }
    pose proof (Z.pow_le_mono_r 2 (31 - n) 31 ltac:(lia) ltac:(lia)) as H31. change (2 ^ 31) with 2147483648 in *.
    assert (Hx0 : 0 <= x).
    { destruct (Z.lt_ge_cases x 0); auto. exfalso. destruct (u32_eqm x) as [k Hk]. lia. }
    rewrite u32_small in Hlt by lia.
    assert (Hpow : 2147483648 = 2 ^ (31 - n) * 2 ^ n).
    { rewrite <- Z.pow_add_r by lia. now replace (31 - n + n) with 31 by lia. }
    pose proof (Z.pow_pos_nonneg 2 n ltac:(lia) Hn).
    rewrite Z.shiftl_mul_pow2 by lia. rewrite s32_small by nia.
    apply LONG2NUM_ok. unfold LONG_MIN, LONG_MAX. nia.
Qed.

Lemma fix_rshift_body_ok x i : fixnum x -> 0 <= i -> returns (Ok (fix_rshift_body x i)) (Z.shiftr x i).
Proof.
  intros Hx Hi. unfold fix_rshift_body. destruct (i =? 0) eqn:E0; breflect.
  { subst i. now apply returns_Fix. }
  assert (HS : fixnum (Z.shiftr x i)).
  { apply fixnum_shiftr. rewrite Z.shiftr_shiftr by lia. rewrite Z.add_comm, <- Z.shiftr_shiftr by lia.
    apply fixnum_shiftr in Hx as [-> | ->]; [rewrite Z.shiftr_0_l; auto|right].
    rewrite Z.shiftr_div_pow2 by lia. pose proof (Z.pow_pos_nonneg 2 i ltac:(lia) ltac:(lia)).
    symmetry. apply Z.div_unique with (2 ^ i - 1); lia. }
  destruct (31 <=? i) eqn:E31; breflect.
  - apply returns_Fix'; [destruct (x <? 0); reflexivity|].
    apply FIXABLE_iff in Hx. rewrite Z.shiftr_div_pow2 by lia.
    pose proof (Z.pow_le_mono_r 2 31 i ltac:(lia) ltac:(lia)). change (2 ^ 31) with 2147483648 in *.
    destruct (Z.ltb_spec x 0).
    + apply Z.div_unique with (x + 2 ^ i); [left; lia|lia].
    + symmetry. apply Z.div_small. lia.
  - unfold RSHIFT. rewrite tag_small by auto. now apply returns_Fix.
Qed.

(** The shifts for counts above [- 2^30]. *)
Lemma fix_shift_ok x y n :
  fixnum x -> NUM2LONG y = Ok n -> -1073741824 < n ->
  returns (fix_lshift x y) (Z.shiftl x n) /\ returns (fix_rshift x y) (Z.shiftr x n).
Proof.
  intros Hx HN Hn. unfold fix_lshift, fix_rshift. cbn [fix_lshift_rec fix_rshift_rec]. rewrite HN. cbn [bind].
  destruct (n <? 0) eqn:E; breflect.
  - rewrite neg_fix_small by lia. cbn [NUM2LONG bind]. replace (- n <? 0) with false by lia.
    rewrite <- (Z.shiftr_opp_r x n), <- (Z.shiftl_opp_r x n). split.
    + apply fix_rshift_body_ok; auto; lia.
    + rewrite Z.shiftl_mul_pow2 by lia. apply fix_lshift_body_ok; auto; lia.
  - split; [rewrite Z.shiftl_mul_pow2 by lia; now apply fix_lshift_body_ok|now apply fix_rshift_body_ok].
Qed.

(** [LONG2FIX(-width)] is [- 2^30] again for [- 2^30]. *)
Lemma fix_shift_diverges fuel x :
  fix_lshift_rec fuel x (Fix FIXNUM_MIN) = Undefined /\ fix_rshift_rec fuel x (Fix FIXNUM_MIN) = Undefined.
Proof.
  induction fuel as [|fuel [IHl IHr]]; [now split|].
  cbn [fix_lshift_rec fix_rshift_rec NUM2LONG bind].
  change (FIXNUM_MIN <? 0) with true. cbv iota.
  change (neg_fix FIXNUM_MIN) with (Fix FIXNUM_MIN). auto.
Qed.

Lemma fix_aref_ok x idx :
  fixnum x -> integral idx -> canonical idx -> fix_aref x idx = Ok (Z.b2z (Z.testbit x (value idx))).
Proof.
  intros Hx HI HC. unfold fix_aref. rewrite bignorm_canonical by auto. apply FIXABLE_iff in Hx.
  assert (Hhigh : forall i, 30 <= i -> Z.testbit x i = (x <? 0)).
  { intros i Hi. apply testbit_small_range with 30; [change (2 ^ 30) with 1073741824|]; lia. }
  destruct idx as [i|b|o]; [| |contradiction]; cbn [NUM2LONG bind value].
  - destruct (i <? 0) eqn:E; breflect; [now rewrite Z.testbit_neg_r by lia|].
    destruct (31 <? i) eqn:E31; breflect.
    { rewrite Hhigh by lia. now destruct (x <? 0). }
    rewrite Z.shiftl_mul_pow2, Z.mul_1_l by lia. destruct (Z.eq_dec i 31) as [->|].
    + rewrite Hhigh by lia. change (s32 (2 ^ 31)) with (-2147483648).
      replace (Z.land x (-2147483648)) with (Z.shiftl (Z.shiftr x 31) 31).
      2:{ change (-2147483648) with (Z.lnot (Z.ones 31)). rewrite <- Z.ldiff_land, Z.ldiff_ones_r by lia. reflexivity. }
      rewrite Z.shiftr_div_pow2 by lia. change (2 ^ 31) with 2147483648. destruct (Z.ltb_spec x 0).
      * replace (x / 2147483648) with (-1); [reflexivity|]. apply Z.div_unique with (x + 2147483648); lia.
      * rewrite Z.div_small by lia. reflexivity.
    + pose proof (Z.pow_pos_nonneg 2 i ltac:(lia) ltac:(lia)).
      pose proof (Z.pow_le_mono_r 2 i 30 ltac:(lia) ltac:(lia)). change (2 ^ 30) with 1073741824 in *.
      rewrite s32_small, land_pow2 by lia. destruct (Z.testbit x i); [|reflexivity].
      now replace (2 ^ i =? 0) with false by lia.
  - pose proof (canonical_nonzero b HC) as HP. pose proof HC as (_ & _ & HF).
    assert (~ -1073741824 <= big_val b <= 1073741823) by (rewrite <- FIXABLE_iff; congruence).
    unfold big_val in *. destruct (sign b); cbn [negb orb].
    + rewrite Hhigh by lia. replace (0 <=? x) with (negb (x <? 0)) by (rewrite Z.leb_antisym; reflexivity).
      now destruct (x <? 0).
    + now rewrite Z.testbit_neg_r by lia.
Qed.

(** ** Conversions *)

Lemma rb_num2fix_ok v :
  integral v -> canonical v ->
  rb_num2fix v = if FIXABLE (value v) then Ok v else Raise RangeError.
Proof.
  intros HI HC. destruct v as [n|b|o]; [| |contradiction].
  - cbn [rb_num2fix value]. cbn in HC. now rewrite HC.
  - pose proof (NUM2LONG_ok (Big b) HI HC) as HN. destruct HC as (_ & _ & HF). cbn [value] in *.
    unfold rb_num2fix. rewrite HN, HF. case_if; cbn [bind]; [|reflexivity]. now rewrite HF.
Qed.

Lemma int_succ_ok n : fixnum n -> returns (int_succ (Fix n)) (n + 1).
Proof. intros H. apply LONG2NUM_ok. apply FIXABLE_iff in H. unfold LONG_MIN, LONG_MAX. lia. Qed.

Lemma int_chr_ok v :
  integral v -> canonical v ->
  int_chr v = if (0 <=? value v) && (value v <=? 255) then Ok [value v] else Raise RangeError.
Proof.
  intros HI HC. unfold int_chr. rewrite NUM2LONG_ok by auto. unfold LONG_MIN, LONG_MAX.
  destruct ((-2147483648 <=? value v) && (value v <=? 2147483647)) eqn:E; cbn [bind];
    destruct ((0 <=? value v) && (value v <=? 255)) eqn:E1; try reflexivity.
  - now replace ((value v <? 0) || (255 <? value v)) with false by lia.
  - now replace ((value v <? 0) || (255 <? value v)) with true by lia.
  - lia.
Qed.

(** ** Iteration *)

Definition zrange (a : Z) (n : nat) : list Z := map (fun k => a + Z.of_nat k) (seq 0 n).

Lemma zrange_S a n : zrange a (S n) = a :: zrange (a + 1) n.
Proof.
  unfold zrange. cbn [seq map]. f_equal; [lia|]. rewrite <- seq_shift, map_map.
  apply map_ext. intros k. lia.
Qed.

Section IterationLemmas.
Context {St : Type} (blk : VALUE -> St -> outcome St).

Lemma upto_loop_ok n a last s :
  fixnum last -> -1073741824 <= a -> n = Z.to_nat (last - a + 1) ->
  upto_loop blk n a last s = yield_all blk (zrange a n) s.
Proof.
  intros Hl; revert a s; induction n as [|n IH]; intros a s Ha Hn; cbn [upto_loop].
  - now replace (a <=? last) with false by lia.
  - replace (a <=? last) with true by lia. apply FIXABLE_iff in Hl as Hl'.
    rewrite tag_small by (apply FIXABLE_iff; lia). rewrite zrange_S. cbn [yield_all].
    destruct (blk (Fix a) s) as [s'|e| |]; cbn [bind]; auto. apply IH; lia.
Qed.

Lemma dotimes_loop_ok n a last s :
  fixnum last -> 0 <= a -> n = Z.to_nat (last - a) ->
  dotimes_loop blk n a last s = yield_all blk (zrange a n) s.
Proof.
  intros Hl; revert a s; induction n as [|n IH]; intros a s Ha Hn; cbn [dotimes_loop].
  - now replace (a <? last) with false by lia.
  - replace (a <? last) with true by lia. apply FIXABLE_iff in Hl as Hl'.
    rewrite tag_small by (apply FIXABLE_iff; lia). rewrite zrange_S. cbn [yield_all].
    destruct (blk (Fix a) s) as [s'|e| |]; cbn [bind]; auto. apply IH; lia.
Qed.

Lemma downto_loop_ok n a last s :
  fixnum last -> a <= 1073741823 -> n = Z.to_nat (a - last + 1) ->
  downto_loop blk n a last s = yield_all blk (map Z.opp (zrange (- a) n)) s.
Proof.
  intros Hl; revert a s; induction n as [|n IH]; intros a s Ha Hn; cbn [downto_loop].
  - now replace (last <=? a) with false by lia.
  - replace (last <=? a) with true by lia. apply FIXABLE_iff in Hl as Hl'.
    rewrite tag_small by (apply FIXABLE_iff; lia). rewrite zrange_S. cbn [map yield_all].
    rewrite Z.opp_involutive. destruct (blk (Fix a) s) as [s'|e| |]; cbn [bind]; auto.
    replace (- a + 1) with (- (a - 1)) by lia. apply IH; lia.
Qed.
End IterationLemmas.

(** ** Properties *)

(** Fixnum arithmetic is exact: the overflow tests of [fix_plus],
    [fix_minus], [fix_mul], [fix_uminus] and [fix_abs] send every result that
    leaves 31 bits, and every product that overflows a [long], to a Bignum;
    [fix_pow] is exact for exponents that are not negative. *)
Theorem fixnum_arithmetic a b :
  fixnum a -> fixnum b ->
  returns (fix_plus a (Fix b)) (a + b) /\ returns (fix_minus a (Fix b)) (a - b) /\
  returns (fix_mul a (Fix b)) (a * b) /\ returns (Ok (fix_uminus a)) (- a) /\
  returns (Ok (fix_abs a)) (Z.abs a) /\
  (0 <= b -> returns (fix_pow a (Fix b)) (a ^ b)).
Proof.
  intros Ha Hb. splits; [now apply fix_plus_ok|now apply fix_minus_ok|now apply fix_mul_ok
    |now apply fix_uminus_ok|now apply fix_abs_ok|now apply fix_pow_ok].
Qed.

Lemma fixnum_arithmetic_witness :
  returns (fix_mul (-1073741824) (Fix (-1073741824))) 1152921504606846976.
Proof.
  refine (proj1 (proj2 (proj2 (fixnum_arithmetic (-1073741824) (-1073741824) _ _)))); reflexivity.
Defined.

(** Fixnum division rounds to minus infinity for every sign combination
    (C division rounds to zero), including [FIXNUM_MIN / -1], and a zero divisor
    raises. *)
Theorem fixnum_division x y :
  fixnum x -> fixnum y ->
  if y =? 0 then
    fix_div x (Fix y) = Raise ZeroDivisionError /\ fix_mod x (Fix y) = Raise ZeroDivisionError /\
    fix_divmod x (Fix y) = Raise ZeroDivisionError
  else
    returns (fix_div x (Fix y)) (x / y) /\ returns (fix_mod x (Fix y)) (x mod y) /\
    exists q r, fix_divmod x (Fix y) = Ok (q, r) /\ value q = x / y /\ value r = x mod y /\
      canonical q /\ canonical r.
Proof. apply fix_divmod_ok. Qed.

Lemma fixnum_division_witness : returns (fix_div (-7) (Fix 2)) (-4).
Proof. refine (proj1 (fixnum_division (-7) 2 _ _)); reflexivity. Defined.

(** [fix_rev], [fix_and], [fix_or] and [fix_aref] are the operations on
    infinite two's complement integers, also with a Bignum operand, and
    [fix_xor] with a Fixnum one. *)
Theorem fixnum_bits x y :
  fixnum x -> integral y -> canonical y ->
  returns (Ok (fix_rev x)) (Z.lnot x) /\ returns (fix_and x y) (Z.land x (value y)) /\
  returns (fix_or x y) (Z.lor x (value y)) /\
  fix_aref x y = Ok (Z.b2z (Z.testbit x (value y))) /\
  (forall n, y = Fix n -> returns (fix_xor x y) (Z.lxor x n)).
Proof.
  intros Hx Iy Cy. splits; [now apply fix_rev_ok|now apply fix_and_ok|now apply fix_or_ok|now apply fix_aref_ok|].
  intros n ->. now apply fix_xor_fix_ok.
Qed.

Lemma fixnum_bits_witness : returns (fix_and (-3) (Big (mkBig true [65535; 65535; 7]))) 34359738365.
Proof.
  refine (proj1 (proj2 (fixnum_bits (-3) (Big (mkBig true [65535; 65535; 7])) _ _ _))); concrete; reflexivity.
Defined.

(** Fixnum shifts by any count above [FIXNUM_MIN] are exact, left shifts
    moving to a Bignum when the result or the count is too large; by
    [FIXNUM_MIN] itself they recurse without end, whatever fuel there is. *)
Theorem fixnum_shifts x y n fuel :
  fixnum x -> NUM2LONG y = Ok n -> -1073741824 < n ->
  returns (fix_lshift x y) (Z.shiftl x n) /\ returns (fix_rshift x y) (Z.shiftr x n) /\
  fix_lshift_rec fuel x (Fix FIXNUM_MIN) = Undefined /\ fix_rshift_rec fuel x (Fix FIXNUM_MIN) = Undefined.
Proof.
  intros Hx En Hn. destruct (fix_shift_ok x y n Hx En Hn) as [Hl Hr].
  destruct (fix_shift_diverges fuel x) as [Dl Dr]. auto.
Qed.

Lemma fixnum_shifts_witness : returns (fix_lshift (-3) (Fix 31)) (-6442450944).
Proof. refine (proj1 (fixnum_shifts (-3) (Fix 31) 31 0 _ _ _)); reflexivity. Defined.

(** [Integer#upto], [#downto] and [#times] on Fixnums end and run the block
    on exactly the integers of the range, in order, whatever the block does,
    and stop at the first error it raises. *)
Theorem fixnum_iteration {St} (rb_yield : VALUE -> St -> outcome St) a b s :
  fixnum a -> fixnum b ->
  int_upto rb_yield (Fix a) (Fix b) s = yield_all rb_yield (zrange a (Z.to_nat (b - a + 1))) s /\
  int_downto rb_yield (Fix a) (Fix b) s =
    yield_all rb_yield (map Z.opp (zrange (- a) (Z.to_nat (a - b + 1)))) s /\
  int_dotimes rb_yield (Fix a) s = yield_all rb_yield (zrange 0 (Z.to_nat a)) s.
Proof.
  intros Ha Hb. pose proof (proj1 (FIXABLE_iff a) Ha). pose proof (proj1 (FIXABLE_iff b) Hb).
  cbn [int_upto int_downto int_dotimes]. splits.
  - apply upto_loop_ok; [exact Hb|lia|reflexivity].
  - apply downto_loop_ok; [exact Hb|lia|reflexivity].
  - apply dotimes_loop_ok; [exact Ha|lia|]. now rewrite Z.sub_0_r.
Qed.

Lemma fixnum_iteration_witness :
  int_upto (fun v s => Ok (value v :: s)) (Fix 1073741821) (Fix 1073741823) [] =
    Ok [1073741823; 1073741822; 1073741821].
Proof.
  refine (eq_trans (proj1 (fixnum_iteration (fun v s => Ok (value v :: s)) 1073741821 1073741823 [] _ _)) _);
    reflexivity.
Defined.

(** Conversions between integers and C values: [NUM2LONG] gives back what
    [rb_int2inum] boxed and raises RangeError outside a [long], [rb_num2fix]
    raises outside 31 bits, [Integer#chr] outside a byte, and [Integer#succ]
    crosses from Fixnum to Bignum. *)
Theorem integer_conversions v n :
  integral v -> canonical v -> LONG_MIN <= n <= LONG_MAX ->
  NUM2LONG (rb_int2inum n) = Ok n /\
  NUM2LONG v = (if (LONG_MIN <=? value v) && (value v <=? LONG_MAX) then Ok (value v) else Raise RangeError) /\
  rb_num2fix v = (if FIXABLE (value v) then Ok v else Raise RangeError) /\
  int_chr v = (if (0 <=? value v) && (value v <=? 255) then Ok [value v] else Raise RangeError) /\
  (forall m, v = Fix m -> returns (int_succ v) (m + 1)).
Proof.
  intros Iv Cv Hn. splits; [|now apply NUM2LONG_ok|now apply rb_num2fix_ok|now apply int_chr_ok|].
  - destruct (LONG2NUM_ok n Hn) as (w & E & Iw & Cw & Vw). injection E as <-.
    change (rb_int2inum n) with (LONG2NUM n). rewrite NUM2LONG_ok, Vw by assumption.
    now rewrite (proj2 (Z.leb_le _ _) (proj1 Hn)), (proj2 (Z.leb_le _ _) (proj2 Hn)).
  - intros m ->. now apply int_succ_ok.
Qed.

Lemma integer_conversions_witness : NUM2LONG (rb_int2inum (-2147483648)) = Ok (-2147483648).
Proof.
  refine (proj1 (integer_conversions (Fix 0) (-2147483648) I eq_refl _)). unfold LONG_MIN, LONG_MAX. lia.
Defined.
