(* ===== verification/Integers.v ===== *)
(** * Integers of both kinds together

    How the methods of Fixnum and Bignum meet: numeric.c's coercion, the
    comparisons Bignum has from Comparable (compar.c), the methods of Numeric
    and the loops of Integer that are written with other methods, and
    expressions over integers.  A method that is called by name is found in
    the tables of [Init_Numeric], [Init_Bignum] and [Init_Comparable]. *)

From Stdlib Require Import ZArith Lia List Bool.
From S2P Require Import Prelude CInt Digits Bignum BigAdd BigMul BigDiv BigBits Fixnum.
Import ListNotations.
Local Open Scope Z_scope.
Local Open Scope outcome_scope.

(** ** Coercion *)

Definition rb_big_coerce (x y : VALUE) : outcome (VALUE * VALUE) :=
  match y with
  | Fix n => Ok (Big (rb_int2big n), x)
  | _ => Raise TypeError
  end.

(** [num_coerce] of two Fixnums; another pair becomes two Floats. *)
Definition num_coerce (x y : VALUE) : outcome (VALUE * VALUE) :=
  match x, y with
  | Fix _, Fix _ => Ok (y, x)
  | _, _ => Delegate
  end.

(** [rb_funcall(y, id_coerce, 1, x)]. *)
Definition coerce_body (x y : VALUE) : outcome (VALUE * VALUE) :=
  match y with
  | Big _ => rb_big_coerce y x
  | Fix _ => num_coerce y x
  | Obj _ => Delegate
  end.

(** [None] is [Qfalse]. *)
Definition do_coerce (x y : VALUE) (err : bool) : outcome (option (VALUE * VALUE)) :=
  match coerce_body x y with
  | Ok p => Ok (Some p)
  | Raise _ => if err then Raise TypeError else Ok None
  | Undefined => Undefined
  | Delegate => Delegate
  end.

(** ** Binary operators *)

Inductive binop := Plus | Minus | Times | Div | Mod | Pow | And | Or | Xor.

Definition fix_method (op : binop) (x : Z) (y : VALUE) : outcome VALUE :=
  match op with
  | Plus => fix_plus x y
  | Minus => fix_minus x y
  | Times => fix_mul x y
  | Div => fix_div x y
  | Mod => fix_mod x y
  | Pow => fix_pow x y
  | And => fix_and x y
  | Or => fix_or x y
  | Xor => fix_xor x y
  end.

Definition big_method (op : binop) (x : RBignum) (y : VALUE) : outcome VALUE :=
  match op with
  | Plus => rb_big_plus x y
  | Minus => rb_big_minus x y
  | Times => rb_big_mul (Big x) y
  | Div => rb_big_div x y
  | Mod => rb_big_modulo x y
  | Pow => rb_big_pow x y
  | And => rb_big_and x y
  | Or => rb_big_or x y
  | Xor => rb_big_xor x y
  end.

(** [rb_num_coerce_bin]: the coerced receiver is of the class of the argument. *)
Definition rb_num_coerce_bin (op : binop) (x y : VALUE) : outcome VALUE :=
  p <- do_coerce x y true ;;
  match p with
  | Some (Big x, y) => big_method op x y
  | Some (Fix x, y) => fix_method op x y
  | _ => Delegate
  end.

(** A Fixnum coerces what is not a Fixnum, but for the bit operators, which take Bignums. *)
Definition coerces (op : binop) (y : VALUE) : bool :=
  match op, y with
  | _, Fix _ => false
  | (And | Or | Xor), _ => false
  | _, _ => true
  end.

(** [rb_funcall(x, op, 1, y)]. *)
Definition funcall (op : binop) (x y : VALUE) : outcome VALUE :=
  match x with
  | Fix n => if coerces op y then rb_num_coerce_bin op x y else fix_method op n y
  | Big b => big_method op b y
  | Obj _ => Delegate
  end.

(** ** Comparisons *)

(** [<=>], [None] is nil. *)
Definition rb_num_coerce_cmp (x y : VALUE) : outcome (option Z) :=
  p <- do_coerce x y false ;;
  match p with
  | None => Ok None
  | Some (Big x, y) => c <- rb_big_cmp x y ;; Ok (Some c)
  | Some (Fix x, y) => c <- fix_cmp x y ;; Ok (Some c)
  | Some _ => Delegate
  end.

Definition cmp (x y : VALUE) : outcome (option Z) :=
  match x, y with
  | Fix n, Fix _ => c <- fix_cmp n y ;; Ok (Some c)
  | Fix _, _ => rb_num_coerce_cmp x y
  | Big b, _ => c <- rb_big_cmp b y ;; Ok (Some c)
  | Obj _, _ => Delegate
  end.

(** compar.c on an integer that [<=>] returned, and nil. *)
Definition rb_cmpint (val : option Z) : outcome Z :=
  match val with Some n => Ok n | None => Raise ArgumentError end.

Inductive relop := Gt_ | Ge_ | Lt_ | Le_.

Definition cmp_gt (x y : VALUE) : outcome bool := c <- cmp x y ;; n <- rb_cmpint c ;; Ok (0 <? n).
Definition cmp_ge (x y : VALUE) : outcome bool := c <- cmp x y ;; n <- rb_cmpint c ;; Ok (0 <=? n).
Definition cmp_lt (x y : VALUE) : outcome bool := c <- cmp x y ;; n <- rb_cmpint c ;; Ok (n <? 0).
Definition cmp_le (x y : VALUE) : outcome bool := c <- cmp x y ;; n <- rb_cmpint c ;; Ok (n <=? 0).

Definition cmp_method (r : relop) : VALUE -> VALUE -> outcome bool :=
  match r with Gt_ => cmp_gt | Ge_ => cmp_ge | Lt_ => cmp_lt | Le_ => cmp_le end.

Definition fix_relop (r : relop) : Z -> VALUE -> outcome bool :=
  match r with Gt_ => fix_gt | Ge_ => fix_ge | Lt_ => fix_lt | Le_ => fix_le end.

Definition rb_num_coerce_relop (r : relop) (x y : VALUE) : outcome bool :=
  p <- do_coerce x y false ;;
  match p with
  | None => Raise ArgumentError
  | Some (Fix x, y) => fix_relop r x y
  | Some (x, y) => cmp_method r x y
  end.

(** [rb_funcall(x, r, 1, y)]. *)
Definition compare (r : relop) (x y : VALUE) : outcome bool :=
  match x, y with
  | Fix n, Fix _ => fix_relop r n y
  | Fix _, _ => rb_num_coerce_relop r x y
  | Big _, _ => cmp_method r x y
  | Obj _, _ => Delegate
  end.

Definition cmp_between (x min max : VALUE) : outcome bool :=
  l <- cmp_lt x min ;;
  if l then Ok false else
  g <- cmp_gt x max ;;
  Ok (negb g).

(** [==]: a Fixnum asks the other number. *)
Definition num_equal (x y : VALUE) : outcome bool :=
  match y with
  | Big b => rb_big_eq b x
  | Fix n => fix_equal n x
  | Obj _ => Delegate
  end.

Definition rb_equal (x y : VALUE) : outcome bool :=
  match x, y with
  | Fix n, Fix _ => fix_equal n y
  | Fix _, _ => num_equal x y
  | Big b, _ => rb_big_eq b y
  | Obj _, _ => Delegate
  end.

(** ** Methods written with other methods *)

Definition num_remainder (x y : VALUE) : outcome VALUE :=
  z <- funcall Mod x y ;;
  e <- rb_equal z (Fix 0) ;;
  if e then Ok z else
  xl <- compare Lt_ x (Fix 0) ;;
  yg <- (if xl then compare Gt_ y (Fix 0) else Ok false) ;;
  if xl && yg then funcall Minus z y else
  xg <- compare Gt_ x (Fix 0) ;;
  yl <- (if xg then compare Lt_ y (Fix 0) else Ok false) ;;
  if xg && yl then funcall Minus z y else Ok z.

(** [remainder] is a method of Bignum, and of Numeric for Fixnums. *)
Definition remainder (x y : VALUE) : outcome VALUE :=
  match x with
  | Big b => rb_big_remainder b y
  | _ => num_remainder x y
  end.

Definition uminus (x : VALUE) : outcome VALUE :=
  match x with Fix n => Ok (fix_uminus n) | Big b => Ok (rb_big_uminus b) | Obj _ => Delegate end.

Definition abs (x : VALUE) : outcome VALUE :=
  match x with Fix n => Ok (fix_abs n) | Big b => Ok (rb_big_abs b) | Obj _ => Delegate end.

Definition succ (num : VALUE) : outcome VALUE :=
  match num with
  | Fix _ => int_succ num
  | _ => funcall Plus num (Fix 1)
  end.

(** ** Loops over integers *)

Section Loops.
Context {St : Type} (rb_yield : VALUE -> St -> outcome St).

(** [while (!(c = rb_funcall(i, r, 1, to)))] and the loop of [num_step]: [i = i op step]. *)
Fixpoint until_loop (fuel : nat) (r : relop) (op : binop) (i to step : VALUE) (s : St) : outcome St :=
  c <- compare r i to ;;
  if c then Ok s else
  match fuel with
  | O => Undefined
  | S fuel => s <- rb_yield i s ;; i <- funcall op i step ;; until_loop fuel r op i to step s
  end.

(** [for (;;) { if (!RTEST(rb_funcall(i, '<', 1, num))) break; ... }]. *)
Fixpoint times_loop (fuel : nat) (i num : VALUE) (s : St) : outcome St :=
  c <- compare Lt_ i num ;;
  if negb c then Ok s else
  match fuel with
  | O => Undefined
  | S fuel => s <- rb_yield i s ;; i <- funcall Plus i (Fix 1) ;; times_loop fuel i num s
  end.

(** The Fixnum loops of [num_step]. *)
Fixpoint step_loop (fuel : nat) (i last diff : Z) (s : St) : outcome St :=
  if (if 0 <? diff then i <=? last else last <=? i) then
    match fuel with
    | O => Undefined
    | S fuel => s <- rb_yield (Fix (tag i)) s ;; step_loop fuel (s32 (i + diff)) last diff s
    end
  else Ok s.

(** Rounds of a loop from [a] to [b] in steps of [d]. *)
Definition rounds (a b d : Z) : nat := Z.to_nat ((b - a) / d + 1).

Definition upto (from to : VALUE) (s : St) : outcome St :=
  match from, to with
  | Fix _, Fix _ => int_upto rb_yield from to s
  | _, _ => until_loop (rounds (value from) (value to) 1) Gt_ Plus from to (Fix 1) s
  end.

Definition downto (from to : VALUE) (s : St) : outcome St :=
  match from, to with
  | Fix _, Fix _ => int_downto rb_yield from to s
  | _, _ => until_loop (rounds (value from) (value to) (-1)) Lt_ Minus from to (Fix 1) s
  end.

Definition dotimes (num : VALUE) (s : St) : outcome St :=
  match num with
  | Fix _ => int_dotimes rb_yield num s
  | _ => times_loop (Z.to_nat (value num)) (Fix 0) num s
  end.

(** [from.step(to)] and [from.step(to, step)]. *)
Definition num_step (from to : VALUE) (step : option VALUE) (s : St) : outcome St :=
  step <- match step with
          | None => Ok (Fix 1)
          | Some d => z <- rb_equal d (Fix 0) ;; if z then Raise ArgumentError else Ok d
          end ;;
  match from, to, step with
  | Fix i, Fix last, Fix diff => step_loop (rounds i last diff) i last diff s
  | Obj _, _, _ | _, Obj _, _ | _, _, Obj _ => Delegate
  | _, _, _ =>
      up <- compare Gt_ step (Fix 0) ;;
      until_loop (rounds (value from) (value to) (value step)) (if up then Gt_ else Lt_) Plus from to step s
  end.

(** The block run on a list of values. *)
Fixpoint yield_values (l : list VALUE) (s : St) : outcome St :=
  match l with
  | [] => Ok s
  | v :: l => s <- rb_yield v s ;; yield_values l s
  end.
End Loops.

(** ** Expressions *)

Inductive expr :=
  | Lit (v : VALUE)
  | Op (op : binop) (a b : expr)
  | Power (a : expr) (n : Z)
  | Remainder (a b : expr)
  | Neg (a : expr)
  | Abs (a : expr)
  | Succ (a : expr)
  | IfRel (r : relop) (a b t e : expr)
  | IfEq (a b t e : expr).

(** Evaluation by the methods. *)
Fixpoint eval_expr (e : expr) : outcome VALUE :=
  match e with
  | Lit v => Ok v
  | Op op a b => x <- eval_expr a ;; y <- eval_expr b ;; funcall op x y
  | Power a n => x <- eval_expr a ;; funcall Pow x (Fix n)
  | Remainder a b => x <- eval_expr a ;; y <- eval_expr b ;; remainder x y
  | Neg a => x <- eval_expr a ;; uminus x
  | Abs a => x <- eval_expr a ;; abs x
  | Succ a => x <- eval_expr a ;; succ x
  | IfRel r a b t e => x <- eval_expr a ;; y <- eval_expr b ;; c <- compare r x y ;; if c then eval_expr t else eval_expr e
  | IfEq a b t e => x <- eval_expr a ;; y <- eval_expr b ;; c <- rb_equal x y ;; if c then eval_expr t else eval_expr e
  end.

Example expr_mixed :
  eval_expr (Op Plus (Lit (Fix 7)) (Op Times (Lit (Big (mkBig false [0; 0; 1]))) (Lit (Fix (-3))))) = Ok (Big (mkBig true [7; 0; 3])) /\
  eval_expr (Op Mod (Lit (Fix (-7))) (Lit (Big (mkBig true [0; 0; 1])))) = Ok (Big (mkBig true [65529; 65535])) /\
  compare Gt_ (Fix 7) (Big (mkBig false [0; 0; 1])) = Ok true.
Proof. repeat split; vm_compute; reflexivity. Qed.

(** ** Meaning *)

Definition int_ok (v : VALUE) : Prop := integral v /\ canonical v.

(** [None] is a division by zero. *)
Definition op_value (op : binop) (a b : Z) : option Z :=
  match op with
  | Plus => Some (a + b)
  | Minus => Some (a - b)
  | Times => Some (a * b)
  | Div => if b =? 0 then None else Some (a / b)
  | Mod => if b =? 0 then None else Some (a mod b)
  | Pow => Some (a ^ b)
  | And => Some (Z.land a b)
  | Or => Some (Z.lor a b)
  | Xor => Some (Z.lxor a b)
  end.

Definition rel_value (r : relop) (a b : Z) : bool :=
  match r with Gt_ => b <? a | Ge_ => b <=? a | Lt_ => a <? b | Le_ => a <=? b end.

Definition bind_option {A C} (m : option A) (k : A -> option C) : option C := match m with Some a => k a | None => None end.

Fixpoint denote (e : expr) : option Z :=
  match e with
  | Lit v => Some (value v)
  | Op op a b => bind_option (denote a) (fun x => bind_option (denote b) (fun y => op_value op x y))
  | Power a n => bind_option (denote a) (fun x => Some (x ^ n))
  | Remainder a b => bind_option (denote a) (fun x => bind_option (denote b) (fun y => if y =? 0 then None else Some (Z.rem x y)))
  | Neg a => bind_option (denote a) (fun x => Some (- x))
  | Abs a => bind_option (denote a) (fun x => Some (Z.abs x))
  | Succ a => bind_option (denote a) (fun x => Some (x + 1))
  | IfRel r a b t e => bind_option (denote a) (fun x => bind_option (denote b) (fun y => if rel_value r x y then denote t else denote e))
  | IfEq a b t e => bind_option (denote a) (fun x => bind_option (denote b) (fun y => if x =? y then denote t else denote e))
  end.

(** Canonical literals, exponents that are not negative; ** and ^ of two
    expressions are left out, see [fix_pow] and [big_xor_cases]. *)
Fixpoint wf (e : expr) : Prop :=
  match e with
  | Lit v => int_ok v
  | Op op a b => op <> Pow /\ op <> Xor /\ wf a /\ wf b
  | Power a n => FIXABLE n = true /\ 0 <= n /\ wf a
  | Remainder a b => wf a /\ wf b
  | Neg a | Abs a | Succ a => wf a
  | IfRel _ a b t e | IfEq a b t e => wf a /\ wf b /\ wf t /\ wf e
  end.

(** What an operation that may divide by zero gives. *)
Definition gives (r : outcome VALUE) (o : option Z) : Prop :=
  match o with Some z => returns r z | None => r = Raise ZeroDivisionError end.

Lemma gives_bind m o k f :
  gives m o -> (forall v, int_ok v -> o = Some (value v) -> gives (k v) (f (value v))) -> gives (bind m k) (bind_option o f).
Proof.
  destruct o as [z|]; cbn [gives bind_option]; [|now intros ->].
  intros (v & -> & HI & HC & <-) H. cbn [bind]. apply H; [now split|reflexivity].
Qed.

(** ** Operators *)

(** A Fixnum as the Bignum [rb_big_coerce] makes of it. *)
Lemma coerced_ok n : FIXABLE n = true -> big_ok (rb_int2big n) /\ big_val (rb_int2big n) = n.
Proof. apply fixnum_big_ok. Qed.

Lemma big_method_ok op x y :
  op <> Pow -> op <> Xor -> big_ok x -> ((op = And \/ op = Or) -> canonical (Big x)) -> int_ok y ->
  gives (big_method op x y) (op_value op (big_val x) (value y)).
Proof.
  intros NP NX Hx Hc (HI & HC). destruct op; cbn [big_method op_value gives]; try contradiction.
  - now apply rb_big_plus_ok.
  - now apply rb_big_minus_ok.
  - destruct (int_operand_spec y HI HC) as (b & Ho & Ob & Vb). rewrite <- Vb.
    unfold rb_big_mul. cbn [int_operand bind]. rewrite Ho. now apply (rb_big_mul_big_ok x b).
  - destruct (Z.eqb_spec (value y) 0) as [E|E]; [now apply (big_div_zero x y)|now apply rb_big_div_ok].
  - destruct (Z.eqb_spec (value y) 0) as [E|E]; [now apply (big_div_zero x y)|now apply rb_big_modulo_ok].
  - apply rb_big_and_ok; auto.
  - apply rb_big_or_ok; auto.
Qed.

Lemma fix_method_ok op a y :
  op <> Pow -> op <> Xor -> FIXABLE a = true -> int_ok y -> coerces op y = false ->
  gives (fix_method op a y) (op_value op a (value y)).
Proof.
  intros NP NX Ha (HI & HC) Hco.
  assert (HF : op <> And -> op <> Or -> exists b, y = Fix b /\ FIXABLE b = true).
  { intros N1 N2. destruct y as [b|b|o]; [now exists b| |contradiction]. destruct op; try discriminate; contradiction. }
  destruct op; cbn [fix_method op_value gives]; try contradiction;
    try (destruct (HF ltac:(discriminate) ltac:(discriminate)) as (b & -> & Hb)); cbn [value].
  - now apply fix_plus_ok.
  - now apply fix_minus_ok.
  - now apply fix_mul_ok.
  - pose proof (fix_divmod_ok a b Ha Hb) as H. destruct (b =? 0); apply H.
  - pose proof (fix_divmod_ok a b Ha Hb) as H. destruct (b =? 0); apply H.
  - now apply fix_and_ok.
  - now apply fix_or_ok.
Qed.

Lemma funcall_ok op x y : op <> Pow -> op <> Xor -> int_ok x -> int_ok y -> gives (funcall op x y) (op_value op (value x) (value y)).
Proof.
  intros NP NX (Ix & Cx) Hy. destruct x as [n|b|o]; [| |contradiction]; cbn [funcall value].
  - destruct (coerces op y) eqn:E; [|now apply fix_method_ok].
    destruct (coerced_ok n Cx) as (Ob & Vb).
    destruct y as [m|b|o]; [destruct op; discriminate| |destruct Hy; contradiction].
    unfold rb_num_coerce_bin, do_coerce. cbn [coerce_body rb_big_coerce bind]. rewrite <- Vb at 2.
    apply big_method_ok; auto. intros [-> | ->]; discriminate.
  - apply big_method_ok; auto with bignum.
Qed.

Lemma power_ok x n : int_ok x -> FIXABLE n = true -> 0 <= n -> returns (funcall Pow x (Fix n)) (value x ^ n).
Proof.
  intros (Ix & Cx) Hf Hn. destruct x as [a|b|o]; [| |contradiction]; cbn [funcall coerces fix_method big_method value].
  - now apply fix_pow_ok.
  - apply rb_big_pow_ok; auto with bignum.
Qed.

(** ** Comparisons *)

Lemma cmp_int_fix a b : (if a =? b then 0 else if b <? a then 1 else -1) = cmp_int a b.
Proof. unfold cmp_int. destruct (Z.compare_spec a b), (Z.eqb_spec a b), (Z.ltb_spec b a); lia. Qed.

Lemma cmp_ok x y : int_ok x -> int_ok y -> cmp x y = Ok (Some (cmp_int (value x) (value y))).
Proof.
  intros (Ix & Cx) (Iy & Cy). destruct x as [n|b|o]; [| |contradiction]; cbn [cmp value].
  - destruct y as [m|b|o]; [| |contradiction]; cbn [value].
    + cbn [fix_cmp bind]. now rewrite cmp_int_fix.
    + unfold rb_num_coerce_cmp, do_coerce. cbn [coerce_body rb_big_coerce bind].
      destruct (coerced_ok n Cx) as (Ob & Vb).
      rewrite (rb_big_cmp_signed (rb_int2big n) (Big b)); auto; [|now rewrite int2big_sign, Vb].
      cbn [bind value]. now rewrite Vb.
  - now rewrite (rb_big_cmp_ok b y).
Qed.

Lemma cmp_method_values r x y a b : cmp x y = Ok (Some (cmp_int a b)) -> cmp_method r x y = Ok (rel_value r a b).
Proof.
  intros H. destruct r; cbn [cmp_method rel_value]; [unfold cmp_gt|unfold cmp_ge|unfold cmp_lt|unfold cmp_le]; rewrite H;
    cbn [bind rb_cmpint]; f_equal; unfold cmp_int; destruct (Z.compare_spec a b);
    try (symmetry; first [apply Z.ltb_lt|apply Z.leb_le]; lia); symmetry; first [apply Z.ltb_ge|apply Z.leb_gt]; lia.
Qed.

Lemma compare_value r x y : int_ok x -> int_ok y -> compare r x y = Ok (rel_value r (value x) (value y)).
Proof.
  intros Hx Hy. destruct x as [n|b|o]; [| |destruct Hx; contradiction]; cbn [compare].
  - destruct y as [m|b|o]; [|  |destruct Hy; contradiction].
    + destruct r; reflexivity.
    + unfold rb_num_coerce_relop, do_coerce. cbn [coerce_body rb_big_coerce bind].
      destruct Hx as (_ & Cx), Hy as (_ & Cy). destruct (coerced_ok n Cx) as (Ob & Vb).
      apply cmp_method_values. cbn [cmp]. rewrite (rb_big_cmp_signed (rb_int2big n) (Big b)); auto; [|now rewrite int2big_sign, Vb|exact I].
      cbn [bind value]. now rewrite Vb.
  - now apply cmp_method_values, cmp_ok.
Qed.

Lemma rb_equal_ok x y : int_ok x -> int_ok y -> rb_equal x y = Ok (value x =? value y).
Proof.
  intros (Ix & Cx) (Iy & Cy). destruct x as [n|b|o]; [| |contradiction]; cbn [rb_equal].
  - destruct y as [m|b|o]; [reflexivity| |contradiction]. cbn [num_equal].
    rewrite rb_big_eq_ok by auto. cbn [value]. now rewrite Z.eqb_sym.
  - now apply rb_big_eq_ok.
Qed.

(** ** Derived methods *)

Lemma Fix_ok n : FIXABLE n = true -> int_ok (Fix n).
Proof. now split. Qed.

Lemma funcall_minus x y : int_ok x -> int_ok y -> returns (funcall Minus x y) (value x - value y).
Proof. intros. now apply (funcall_ok Minus). Qed.

Lemma funcall_plus x y : int_ok x -> int_ok y -> returns (funcall Plus x y) (value x + value y).
Proof. intros. now apply (funcall_ok Plus). Qed.

Lemma rem_of_mod a b : b <> 0 ->
  Z.rem a b = if (a mod b =? 0) then a mod b else
    if (a <? 0) && (0 <? b) || (0 <? a) && (b <? 0) then a mod b - b else a mod b.
Proof.
  intros Hb. destruct (Z.ltb_spec 0 b) as [Hp|Hp].
  - replace (b <? 0) with false by lia. rewrite andb_true_r, andb_false_r, orb_false_r.
    destruct (Z.ltb_spec a 0) as [Ha|Ha].
    + replace (Z.rem a b) with (- ((- a) mod b)) by (rewrite <- (Z.rem_mod_nonneg (- a) b), Z.rem_opp_l by lia; lia).
      destruct (Z.eqb_spec (a mod b) 0) as [E|E]; [rewrite Z.mod_opp_l_z by lia|rewrite Z.mod_opp_l_nz by lia]; lia.
    + rewrite Z.rem_mod_nonneg by lia. now destruct (a mod b =? 0).
  - replace (b <? 0) with true by lia. rewrite andb_true_r, andb_false_r. cbn [orb].
    destruct (Z.ltb_spec 0 a) as [Ha|Ha].
    + replace (Z.rem a b) with (a mod - b) by (rewrite <- (Z.rem_mod_nonneg a (- b)), Z.rem_opp_r by lia; lia).
      destruct (Z.eqb_spec (a mod b) 0) as [E|E]; [rewrite Z.mod_opp_r_z by lia|rewrite Z.mod_opp_r_nz by lia]; lia.
    + replace (Z.rem a b) with (a mod b); [now destruct (a mod b =? 0)|].
      pose proof (Z.rem_mod_nonneg (- a) (- b) ltac:(lia) ltac:(lia)) as H. rewrite Z.rem_opp_opp, Z.mod_opp_opp in H by lia. lia.
Qed.

Lemma num_remainder_ok x y :
  int_ok x -> int_ok y -> gives (num_remainder x y) (if value y =? 0 then None else Some (Z.rem (value x) (value y))).
Proof.
  intros Hx Hy. unfold num_remainder.
  pose proof (funcall_ok Mod x y ltac:(discriminate) ltac:(discriminate) Hx Hy) as H. cbn [op_value] in H.
  destruct (Z.eqb_spec (value y) 0) as [E|E]; cbn [gives] in *; [now rewrite H|].
  destruct H as (z & -> & Iz & Cz & Vz). cbn [bind]. assert (Hz : int_ok z) by now split.
  assert (H0 : int_ok (Fix 0)) by now apply Fix_ok.
  rewrite rb_equal_ok by auto. cbn [bind value]. rewrite (rem_of_mod (value x) (value y) E), Vz.
  destruct (value x mod value y =? 0); [exists z; now splits|].
  rewrite !compare_value by auto. cbn [bind value rel_value].
  pose proof (funcall_minus z y Hz Hy) as Hm. rewrite Vz in Hm.
  assert (Hr : returns (Ok z) (value x mod value y)) by (exists z; now splits).
  destruct (value x <? 0), (0 <? value y) eqn:E2, (0 <? value x), (value y <? 0);
    repeat (rewrite ?compare_value by auto; cbn [bind value rel_value andb orb]; rewrite ?E2); auto.
Qed.

Lemma remainder_ok x y :
  int_ok x -> int_ok y -> gives (remainder x y) (if value y =? 0 then None else Some (Z.rem (value x) (value y))).
Proof.
  intros Hx Hy. destruct x as [n|b|o]; [now apply num_remainder_ok| |destruct Hx; contradiction]. cbn [remainder value].
  destruct Hx as (_ & Cx), Hy as (Iy & Cy). destruct (Z.eqb_spec (value y) 0) as [E|E]; cbn [gives].
  - now apply (big_div_zero b y).
  - apply rb_big_remainder_ok; auto with bignum.
Qed.

Lemma uminus_ok x : int_ok x -> returns (uminus x) (- value x).
Proof.
  intros (Ix & Cx). destruct x as [n|b|o]; [| |contradiction]; cbn [uminus value].
  - now apply fix_uminus_ok.
  - apply rb_big_uminus_ok. auto with bignum.
Qed.

Lemma abs_ok x : int_ok x -> returns (abs x) (Z.abs (value x)).
Proof.
  intros (Ix & Cx). destruct x as [n|b|o]; [| |contradiction]; cbn [abs value].
  - now apply fix_abs_ok.
  - pose proof Cx as (Hd & Hn & HF). pose proof (eval_nonneg _ Hd). unfold rb_big_abs. destruct (sign b) eqn:E; cbn [negb].
    + exists (Big b). splits; auto. cbn [value]. unfold big_val. rewrite E. lia.
    + exists (Big (set_sign true b)). splits; auto; [|cbn [value]; unfold big_val; rewrite E; cbn [set_sign sign digits]; lia].
      split; [exact Hd|split; [exact Hn|]]. unfold big_val in *. rewrite E in HF. cbn [set_sign sign digits].
      apply Bool.not_true_iff_false. rewrite FIXABLE_iff. intros HX. apply Bool.not_true_iff_false in HF. apply HF, FIXABLE_iff. lia.
Qed.

Lemma succ_ok x : int_ok x -> returns (succ x) (value x + 1).
Proof.
  intros Hx. destruct x as [n|b|o]; [| |destruct Hx; contradiction]; cbn [succ].
  - now apply int_succ_ok, Hx.
  - apply (funcall_plus (Big b) (Fix 1)); auto. now apply Fix_ok.
Qed.

Lemma gives_option r z (H : returns r z) : gives r (Some z).
Proof. exact H. Qed.

(** C2: Expressions over integers of both kinds, with +, -, *, /, %, &, |,
    powers, remainder, negation, abs, succ, comparisons and ==, are evaluated
    to the canonical integer of their mathematical value, through every
    overflow from Fixnum to Bignum and back and every coercion between them;
    a division by zero, and nothing else, raises. *)
Theorem integer_expressions e : wf e -> gives (eval_expr e) (denote e).
Proof.
  induction e as [v|op a IHa b IHb|a IHa n|a IHa b IHb|a IHa|a IHa|a IHa|r a IHa b IHb t IHt e IHe|a IHa b IHb t IHt e IHe];
    cbn [wf eval_expr denote]; intros H; repeat match goal with H : _ /\ _ |- _ => destruct H end;
    try (apply gives_bind; [now auto|]; intros x Hx _); try (apply gives_bind; [now auto|]; intros y Hy _).
  - exists v. match goal with H : int_ok v |- _ => destruct H end. now splits.
  - now apply funcall_ok.
  - now apply gives_option, power_ok.
  - now apply remainder_ok.
  - now apply gives_option, uminus_ok.
  - now apply gives_option, abs_ok.
  - now apply gives_option, succ_ok.
  - rewrite compare_value by auto. cbn [bind]. destruct (rel_value r (value x) (value y)); auto.
  - rewrite rb_equal_ok by auto. cbn [bind]. destruct (value x =? value y); auto.
Qed.

(** [(2**40 % -7 > -2**31) ? -(2**31) * 4 : 1 / 0]. *)
Lemma integer_expressions_witness :
  gives (eval_expr (IfRel Gt_ (Op Mod (Power (Lit (Fix 2)) 40) (Lit (Fix (-7)))) (Lit (Big (mkBig false [0; 32768])))
      (Op Times (Neg (Lit (Big (mkBig true [0; 32768])))) (Lit (Fix 4))) (Op Div (Lit (Fix 1)) (Lit (Fix 0)))))
    (Some (-8589934592)).
Proof.
  apply (integer_expressions (IfRel Gt_ (Op Mod (Power (Lit (Fix 2)) 40) (Lit (Fix (-7)))) (Lit (Big (mkBig false [0; 32768])))
      (Op Times (Neg (Lit (Big (mkBig true [0; 32768])))) (Lit (Fix 4))) (Op Div (Lit (Fix 1)) (Lit (Fix 0))))).
  cbn [wf]. unfold int_ok. splits; try discriminate; try exact I; try reflexivity; concrete.
Defined.

(** ** What the loops visit *)

Definition progression (a d : Z) (n : nat) : list Z := map (fun k => a + d * Z.of_nat k) (seq 0 n).

Lemma progression_S a d n : progression a d (S n) = a :: progression (a + d) d n.
Proof.
  unfold progression. cbn [seq map]. f_equal; [lia|]. rewrite <- seq_shift, map_map. apply map_ext. intros k. lia.
Qed.

(** The relation that ends a loop with step [d]. *)
Definition past (d : Z) : relop := if 0 <? d then Gt_ else Lt_.

Lemma past_rounds a b d : d <> 0 ->
  if rel_value (past d) a b then rounds a b d = O else rounds a b d = S (rounds (a + d) b d).
Proof.
  intros Hd. unfold rounds, past. pose proof (Z.div_mod (b - a) d Hd) as H.
  replace ((b - (a + d)) / d) with ((b - a) / d - 1).
  2:{ replace (b - (a + d)) with (b - a + (-1) * d) by lia. rewrite Z.div_add by lia. lia. }
  destruct (Z.ltb_spec 0 d) as [Hp|Hp]; cbn [rel_value].
  - pose proof (Z.mod_pos_bound (b - a) d Hp). destruct (Z.ltb_spec b a); nia.
  - pose proof (Z.mod_neg_bound (b - a) d ltac:(lia)). destruct (Z.ltb_spec a b); nia.
Qed.

Section LoopFacts.
Context {St : Type} (blk : VALUE -> St -> outcome St).

(** [m] runs the block on the integers of the progression. *)
Definition visits (m : St -> outcome St) (l : list Z) : Prop :=
  exists vs, Forall int_ok vs /\ map value vs = l /\ forall s, m s = yield_values blk vs s.

Lemma visits_nil m : (forall s, m s = Ok s) -> visits m [].
Proof. intros H. exists []. splits; auto. Qed.

Lemma visits_cons m v l k :
  int_ok v -> visits k l -> (forall s, m s = bind (blk v s) k) -> visits m (value v :: l).
Proof.
  intros Hv (vs & HF & HM & HE) H. exists (v :: vs). splits; [now constructor|cbn [map]; now rewrite HM|].
  intros s. rewrite H. cbn [yield_values]. destruct (blk v s); cbn [bind]; auto.
Qed.

Lemma until_loop_visits fuel op i to step d :
  int_ok i -> int_ok to -> d <> 0 -> fuel = rounds (value i) (value to) d ->
  (forall v, int_ok v -> returns (funcall op v step) (value v + d)) ->
  visits (until_loop blk fuel (past d) op i to step) (progression (value i) d fuel).
Proof.
  intros Hi Hto Hd Hf Hop. revert i Hi Hf; induction fuel as [|fuel IH]; intros i Hi Hf;
    pose proof (past_rounds (value i) (value to) d Hd) as HR; rewrite <- Hf in HR.
  - apply visits_nil. intros s. cbn [until_loop]. rewrite compare_value by auto. cbn [bind].
    destruct (rel_value (past d) (value i) (value to)); [reflexivity|discriminate].
  - destruct (Hop i Hi) as (w & HE & Iw & Cw & Vw). rewrite progression_S, <- Vw.
    apply visits_cons with (k := until_loop blk fuel (past d) op w to step); auto.
    + apply IH; [now split|]. rewrite Vw. destruct (rel_value _ _ _); [discriminate|lia].
    + intros s. cbn [until_loop]. rewrite compare_value by auto. cbn [bind].
      destruct (rel_value (past d) (value i) (value to)); [discriminate|]. destruct (blk i s); cbn [bind]; auto. now rewrite HE.
Qed.

Lemma times_loop_visits fuel i num :
  int_ok i -> int_ok num -> fuel = Z.to_nat (value num - value i) ->
  visits (times_loop blk fuel i num) (progression (value i) 1 fuel).
Proof.
  intros Hi Hnum Hf. revert i Hi Hf; induction fuel as [|fuel IH]; intros i Hi Hf.
  - apply visits_nil. intros s. cbn [times_loop]. rewrite compare_value by auto. cbn [bind rel_value].
    now replace (value i <? value num) with false by lia.
  - destruct (funcall_plus i (Fix 1) Hi (Fix_ok 1 eq_refl)) as (w & HE & Iw & Cw & Vw). cbn [value] in Vw.
    rewrite progression_S, <- Vw. apply visits_cons with (k := times_loop blk fuel w num); auto.
    + apply IH; [now split|]. rewrite Vw. lia.
    + intros s. cbn [times_loop]. rewrite compare_value by auto. cbn [bind rel_value].
      replace (value i <? value num) with true by lia. cbn [negb]. destruct (blk i s); cbn [bind]; auto. now rewrite HE.
Qed.

Lemma step_loop_visits fuel i last d :
  FIXABLE last = true -> FIXABLE d = true -> d <> 0 -> fuel = rounds i last d ->
  (rel_value (past d) i last = false -> FIXABLE i = true) ->
  visits (step_loop blk fuel i last d) (progression i d fuel).
Proof.
  intros Hl Hdf Hd Hf Hi. apply FIXABLE_iff in Hl, Hdf. revert i Hi Hf; induction fuel as [|fuel IH]; intros i Hi Hf;
    pose proof (past_rounds i last d Hd) as HR; rewrite <- Hf in HR;
    assert (HT : (if 0 <? d then i <=? last else last <=? i) = negb (rel_value (past d) i last))
      by (unfold past; destruct (0 <? d); cbn [rel_value]; now rewrite Z.leb_antisym).
  - apply visits_nil. intros s. cbn [step_loop]. rewrite HT. now destruct (rel_value (past d) i last).
  - destruct (rel_value (past d) i last) eqn:ER; [discriminate|]. specialize (Hi eq_refl). pose proof Hi as Hi'. apply FIXABLE_iff in Hi'.
    rewrite progression_S. apply (visits_cons _ (Fix i) _ (step_loop blk fuel (s32 (i + d)) last d)).
    + now split.
    + rewrite s32_small by lia. apply IH; [|lia]. intros HN. apply FIXABLE_iff. revert HN ER. unfold past.
      destruct (Z.ltb_spec 0 d); cbn [rel_value]; intros HN ER; breflect; lia.
    + intros s. cbn [step_loop]. rewrite HT, tag_small by exact Hi. reflexivity.
Qed.

Lemma yield_all_visits (m : St -> outcome St) l :
  Forall (fun n => FIXABLE n = true) l -> (forall s, m s = yield_all blk l s) -> visits m l.
Proof.
  intros HF H. exists (map Fix l). splits.
  - apply Forall_map. eapply Forall_impl; [|exact HF]. intros n Hn. now split.
  - rewrite map_map. apply map_id.
  - intros s. rewrite H. clear H HF. revert s; induction l as [|n l IH]; intros s; cbn [yield_all map yield_values]; [reflexivity|].
    destruct (blk (Fix n) s); cbn [bind]; auto.
Qed.
End LoopFacts.

Lemma zrange_progression a n : zrange a n = progression a 1 n.
Proof. apply map_ext. intros k. lia. Qed.

Lemma zrange_down a n : map Z.opp (zrange (- a) n) = progression a (-1) n.
Proof. unfold zrange, progression. rewrite map_map. apply map_ext. intros k. lia. Qed.

Lemma progression_fixnums a d n :
  FIXABLE a = true -> (n <> O -> FIXABLE (a + d * Z.of_nat (n - 1)) = true) -> Forall (fun x => FIXABLE x = true) (progression a d n).
Proof.
  intros Ha Hn. apply FIXABLE_iff in Ha. apply Forall_map, Forall_forall. intros k Hk. apply in_seq in Hk. apply FIXABLE_iff.
  assert (Hl := Hn ltac:(lia)). apply FIXABLE_iff in Hl. destruct (Z.le_gt_cases 0 d); nia.
Qed.

Section LoopMethods.
Context {St : Type} (blk : VALUE -> St -> outcome St).

Lemma rounds_up a b : rounds a b 1 = Z.to_nat (b - a + 1).
Proof. unfold rounds. now rewrite Z.div_1_r. Qed.

Lemma rounds_down a b : rounds a b (-1) = Z.to_nat (a - b + 1).
Proof.
  unfold rounds. replace (b - a) with ((a - b) * -1) by lia. now rewrite Z.div_mul by lia.
Qed.

Lemma upto_visits_all from to :
  int_ok from -> int_ok to -> visits blk (upto blk from to) (progression (value from) 1 (rounds (value from) (value to) 1)).
Proof.
  intros Hf Ht. assert (Hgen : visits blk (until_loop blk (rounds (value from) (value to) 1) Gt_ Plus from to (Fix 1))
    (progression (value from) 1 (rounds (value from) (value to) 1))).
  { apply (until_loop_visits blk _ Plus from to (Fix 1) 1); auto; [lia|]. intros v Hv. now apply (funcall_plus v (Fix 1)). }
  destruct from as [a|a|a]; [|exact Hgen|exact Hgen]. destruct to as [b|b|b]; [|exact Hgen|exact Hgen].
  destruct Hf as (_ & Ha), Ht as (_ & Hb). cbn [upto value] in *. rewrite rounds_up. pose proof (proj1 (FIXABLE_iff a) Ha). pose proof (proj1 (FIXABLE_iff b) Hb).
  apply yield_all_visits; [apply progression_fixnums; [exact Ha|intros; apply FIXABLE_iff; lia]|].
  intros s. rewrite <- zrange_progression. apply (fixnum_iteration blk a b s Ha Hb).
Qed.

Lemma downto_visits_all from to :
  int_ok from -> int_ok to -> visits blk (downto blk from to) (progression (value from) (-1) (rounds (value from) (value to) (-1))).
Proof.
  intros Hf Ht. assert (Hgen : visits blk (until_loop blk (rounds (value from) (value to) (-1)) Lt_ Minus from to (Fix 1))
    (progression (value from) (-1) (rounds (value from) (value to) (-1)))).
  { apply (until_loop_visits blk _ Minus from to (Fix 1) (-1)); auto; [lia|]. intros v Hv. now apply (funcall_minus v (Fix 1)). }
  destruct from as [a|a|a]; [|exact Hgen|exact Hgen]. destruct to as [b|b|b]; [|exact Hgen|exact Hgen].
  destruct Hf as (_ & Ha), Ht as (_ & Hb). cbn [downto value] in *. rewrite rounds_down. pose proof (proj1 (FIXABLE_iff a) Ha). pose proof (proj1 (FIXABLE_iff b) Hb).
  apply yield_all_visits; [apply progression_fixnums; [exact Ha|intros; apply FIXABLE_iff; lia]|].
  intros s. rewrite <- zrange_down. apply (fixnum_iteration blk a b s Ha Hb).
Qed.

Lemma dotimes_visits_all num : int_ok num -> visits blk (dotimes blk num) (progression 0 1 (Z.to_nat (value num))).
Proof.
  intros Hn. destruct num as [a|a|a]; [| |destruct Hn; contradiction]; cbn [dotimes].
  - destruct Hn as (_ & Ha). cbn [value] in *. pose proof (proj1 (FIXABLE_iff a) Ha).
    apply yield_all_visits; [apply progression_fixnums; [reflexivity|intros; apply FIXABLE_iff; lia]|].
    intros s. rewrite <- zrange_progression. apply (fixnum_iteration blk a a s Ha Ha).
  - apply (times_loop_visits blk _ (Fix 0)); auto; [now apply Fix_ok|]. cbn [value]. now rewrite Z.sub_0_r.
Qed.

Lemma num_step_visits from to step :
  int_ok from -> int_ok to -> int_ok step -> value step <> 0 ->
  visits blk (num_step blk from to (Some step)) (progression (value from) (value step) (rounds (value from) (value to) (value step))).
Proof.
  intros Hf Ht Hs Hz.
  assert (Hgen : visits blk (fun s => up <- compare Gt_ step (Fix 0) ;;
      until_loop blk (rounds (value from) (value to) (value step)) (if up then Gt_ else Lt_) Plus from to step s)
    (progression (value from) (value step) (rounds (value from) (value to) (value step)))).
  { destruct (until_loop_visits blk _ Plus from to step (value step) Hf Ht Hz eq_refl) as (vs & HF & HM & HE).
    { intros v Hv. now apply funcall_plus. }
    exists vs. splits; auto. intros s. rewrite compare_value by (auto; now apply Fix_ok). cbn [bind rel_value]. apply HE. }
  unfold num_step. rewrite rb_equal_ok by (auto; now apply Fix_ok). cbn [value]. replace (value step =? 0) with false by lia. cbn [bind].
  destruct Hf as (If & Cf), Ht as (It & Ct), Hs as (Is & Cs).
  destruct from as [a|a|a]; [|destruct to as [b|b|b], step as [d|d|d]; try contradiction; exact Hgen|contradiction].
  destruct to as [b|b|b]; [|destruct step as [d|d|d]; try contradiction; exact Hgen|contradiction].
  destruct step as [d|d|d]; [|exact Hgen|contradiction]. cbn [value] in *. now apply step_loop_visits.
Qed.
End LoopMethods.

(** C29: The loops of integers of both kinds, [upto], [downto], [times] and
    [step], end and run the block on exactly the terms of the arithmetic
    progression, in order, as canonical integers, whatever the block does, also
    where the progression leaves the Fixnums; they stop at the first error the
    block raises.  A step of 0 raises ArgumentError. *)
Theorem integer_loops {St} (rb_yield : VALUE -> St -> outcome St) from to step :
  int_ok from -> int_ok to -> int_ok step ->
  visits rb_yield (upto rb_yield from to) (progression (value from) 1 (rounds (value from) (value to) 1)) /\
  visits rb_yield (downto rb_yield from to) (progression (value from) (-1) (rounds (value from) (value to) (-1))) /\
  visits rb_yield (dotimes rb_yield to) (progression 0 1 (Z.to_nat (value to))) /\
  (value step <> 0 -> visits rb_yield (num_step rb_yield from to (Some step))
     (progression (value from) (value step) (rounds (value from) (value to) (value step)))) /\
  (value step = 0 -> forall s, num_step rb_yield from to (Some step) s = Raise ArgumentError).
Proof.
  intros Hf Ht Hs. splits; [now apply upto_visits_all|now apply downto_visits_all|now apply dotimes_visits_all|now apply num_step_visits|].
  intros E s. unfold num_step. rewrite rb_equal_ok by (auto; now apply Fix_ok). now rewrite E.
Qed.

(** [1073741820.step(1073741830, 4)]: two Fixnums, then a Bignum. *)
Lemma integer_loops_witness :
  visits (fun v s => Ok (value v :: s))
    (num_step (fun v s => Ok (value v :: s)) (Fix 1073741820) (Big (mkBig true [6; 16384])) (Some (Fix 4)))
    [1073741820; 1073741824; 1073741828].
Proof.
  refine (proj1 (proj2 (proj2 (proj2 (integer_loops (fun v s => Ok (value v :: s)) (Fix 1073741820)
    (Big (mkBig true [6; 16384])) (Fix 4) _ _ _)))) _); [split; [exact I|concrete]..|discriminate].
Defined.

Example step_crosses :
  num_step (fun v s => Ok (v :: s)) (Fix 1073741820) (Big (mkBig true [6; 16384])) (Some (Fix 4)) [] =
    Ok [Big (mkBig true [4; 16384]); Big (mkBig true [0; 16384]); Fix 1073741820].
Proof. reflexivity. Qed.
