(* ===== verification/Qsort.v ===== *)
(** * Sorting

    [ruby_qsort] of src/ruby/util.c ("mm.c" and "qs6.c"): a quicksort without
    recursion that calls the comparison function it is given, on an array of
    elements of [size] bytes.

    The array is the list of its elements, an element the list of its bytes,
    and a pointer the index of the element it points to. *)

From Stdlib Require Import ZArith Lia List Bool Arith Permutation.
From S2P Require Import Prelude.
Import ListNotations.
Local Open Scope outcome_scope.

(** ** Exchanging elements: mm.c *)

Definition chunk := list Z.

(** Bytes [o .. o + n - 1] of [y] written into [x]. *)
Definition splice (o n : nat) (x y : chunk) : chunk := firstn o x ++ firstn n (skipn o y) ++ skipn (o + n) x.

(** [s = A[k]; A[k] = B[k]; B[k] = s;] for [n] bytes at offset [o]. *)
Definition xch (o n : nat) (p : chunk * chunk) : chunk * chunk :=
  let '(a, b) := p in (splice o n a b, splice o n b a).

(** [s = A[k]; A[k] = B[k]; B[k] = C[k]; C[k] = s;] *)
Definition rot (o n : nat) (p : chunk * chunk * chunk) : chunk * chunk * chunk :=
  let '(a, b, c) := p in (splice o n a b, splice o n b c, splice o n c a).

Section Copy.
(** [P]: the elements to be permuted; [f o n]: the move of [n] bytes at
    offset [o]. *)
Context {P : Type} (f : nat -> nat -> P -> P).

(** [do { ... a += 16; b += 16; } while (a < t);] *)
Fixpoint blocks16 (fuel o t : nat) (p : P) : P :=
  match fuel with
  | O => p
  | S fuel =>
      let p := f (o + 12) 4 (f (o + 8) 4 (f (o + 4) 4 (f o 4 p))) in
      if o + 16 <? t then blocks16 fuel (o + 16) t p else p
  end.

(** [do { s = *a; *a++ = *b; *b++ = s; } while (a < t);] *)
Fixpoint bytes1 (fuel o t : nat) (p : P) : P :=
  match fuel with
  | O => p
  | S fuel =>
      let p := f o 1 p in
      if o + 1 <? t then bytes1 fuel (o + 1) t p else p
  end.

(** The words behind the blocks of 16 bytes. *)
Definition low_words (o low : nat) (p : P) : P :=
  if low =? 0 then p
  else
    let p := f o 4 p in
    if 8 <=? low then
      let p := f (o + 4) 4 p in
      if low =? 12 then f (o + 8) 4 p else p
    else p.

Definition mmcopy (mmkind : Z) (size high low : nat) (p : P) : P :=
  if (0 <=? mmkind)%Z then
    let p := if (0 <? mmkind)%Z then blocks16 high 0 high p else p in
    low_words high low p
  else bytes1 size 0 size p.
End Copy.

(** The arguments [mmprepare] sets up: the kind of the moves, and the bytes
    moved in blocks of 16 and in words. *)
Record mmarg := mkArg { mmkind : Z; size : nat; high : nat; low : nat }.

(** [aligned]: [((long)base & 0x3) == 0]. *)
Definition mmprepare (aligned : bool) (size : nat) : mmarg :=
  mkArg (if aligned then if 16 <=? size then 1%Z else 0%Z else (-1)%Z)
        size (size / 16 * 16) (size mod 16 / 4 * 4).

Definition mmswap_ (g : mmarg) (a b : chunk) : chunk * chunk :=
  mmcopy xch (mmkind g) (size g) (high g) (low g) (a, b).

Definition mmrot3_ (g : mmarg) (a b c : chunk) : chunk * chunk * chunk :=
  mmcopy rot (mmkind g) (size g) (high g) (low g) (a, b, c).

(** ** Sorting: qs6.c *)

Definition get (a : list chunk) (i : nat) : chunk := nth i a [].

(** How a pass over the region from [L] to [R] ends: with [goto nxt], or at
    the label [fin] with the ends of the two parts and whether their elements
    are known to be equal. *)
Inductive part :=
  | Nxt (a : list chunk)
  | Fin (a : list chunk) (l r : nat) (eq_l eq_r : bool).

(** Where the comparison of the first, the median and the last element leads:
    to a splitting loop, to the next region or to the case of three equal
    elements. *)
Inductive label := LoopA (a : list chunk) | LoopB (a : list chunk) | LNxt (a : list chunk) | AllEqual.

Section Qsort.
Context (cmp : chunk -> chunk -> Z) (g : mmarg).

(** Accesses outside the array are undefined. *)
Definition compare (a : list chunk) (i j : nat) : outcome Z :=
  if (i <? length a) && (j <? length a) then Ok (cmp (get a i) (get a j)) else Undefined.

Definition mmswap (a : list chunk) (i j : nat) : outcome (list chunk) :=
  if i =? j then Ok a
  else if (i <? length a) && (j <? length a) then
    let '(x, y) := mmswap_ g (get a i) (get a j) in Ok (list_set (list_set a i x) j y)
  else Undefined.

(** [i], [j] and [k] are different at the calls. *)
Definition mmrot3 (a : list chunk) (i j k : nat) : outcome (list chunk) :=
  if (i <? length a) && (j <? length a) && (k <? length a) then
    let '(x, y, z) := mmrot3_ g (get a i) (get a j) (get a k) in
    Ok (list_set (list_set (list_set a i x) j y) k z)
  else Undefined.

Definition med3 (l : list chunk) (a b c : nat) : outcome nat :=
  t <- compare l a b ;;
  if (t <? 0)%Z then
    t <- compare l b c ;;
    if (t <? 0)%Z then Ok b
    else t <- compare l a c ;; if (t <? 0)%Z then Ok c else Ok a
  else
    t <- compare l b c ;;
    if (0 <? t)%Z then Ok b
    else t <- compare l a c ;; if (t <? 0)%Z then Ok a else Ok c.

(** The position of the median. *)
Definition median (a : list chunk) (l r : nat) : outcome nat :=
  let t := r - l + 1 in
  let m := l + t / 2 in
  if 60 <=? t then
    if 200 <=? t then
      let t := t / 8 in
      m1 <- med3 a (l + t) (l + t + t) (l + t + t + t) ;;
      m3 <- med3 a (m + t) (m + t + t) (m + t + t + t) ;;
      med3 a m1 m m3
    else
      let t := t / 4 in
      med3 a (l + t) m (m + t)
  else Ok m.

(** [for (p = l; p < r; p += size)] with the test [> 0] or [< 0] on the
    comparison of [p] and [p + size]. *)
Fixpoint check (bad : Z -> bool) (fuel : nat) (a : list chunk) (p r : nat) : outcome bool :=
  match fuel with
  | O => Undefined
  | S fuel =>
      if p <? r then
        t <- compare a p (p + 1) ;;
        if bad t then Ok false else check bad fuel a (p + 1) r
      else Ok true
  end.

(** [while (l < r) { mmswap(l, r); l += size; r -= size; }] *)
Fixpoint reverse (fuel : nat) (a : list chunk) (l r : nat) : outcome (list chunk) :=
  match fuel with
  | O => Undefined
  | S fuel =>
      if l <? r then a <- mmswap a l r ;; reverse fuel a (l + 1) (r - 1) else Ok a
  end.

(** The comparison of the first, the median and the last element; the second
    component is the new [chklim]. *)
Definition classify (a : list chunk) (l m r chklim nel : nat) : outcome (label * nat) :=
  let checked := negb (chklim =? 0) && (chklim <=? nel) in
  t <- compare a l m ;;
  if (t <? 0)%Z then
    t <- compare a m r ;;
    if (t <? 0)%Z then
      if checked then
        ok <- check (fun t => (0 <? t)%Z) (length a) a l r ;;
        Ok (if ok then LNxt a else LoopA a, 0)
      else Ok (LoopA a, chklim)
    else if (0 <? t)%Z then
      t <- compare a l r ;;
      if (t <=? 0)%Z then a <- mmswap a m r ;; Ok (LoopA a, chklim)
      else a <- mmrot3 a r m l ;; Ok (LoopA a, chklim)
    else Ok (LoopB a, chklim)
  else if (0 <? t)%Z then
    t <- compare a m r ;;
    if (0 <? t)%Z then
      if checked then
        ok <- check (fun t => (t <? 0)%Z) (length a) a l r ;;
        if ok : bool then a <- reverse (length a) a l r ;; Ok (LNxt a, 0)
        else a <- mmswap a l r ;; Ok (LoopA a, 0)
      else a <- mmswap a l r ;; Ok (LoopA a, chklim)
    else if (t <? 0)%Z then
      t <- compare a l r ;;
      if (t <=? 0)%Z then a <- mmswap a l m ;; Ok (LoopB a, chklim)
      else a <- mmrot3 a l m r ;; Ok (LoopA a, chklim)
    else a <- mmswap a l r ;; Ok (LoopA a, chklim)
  else
    t <- compare a m r ;;
    if (t <? 0)%Z then Ok (LoopA a, chklim)
    else if (0 <? t)%Z then a <- mmswap a l r ;; Ok (LoopB a, chklim)
    else Ok (AllEqual, chklim).

(** The loop of the case 5-5-5; [l] starts at [L]. *)
Fixpoint all_equal (fuel : nat) (a : list chunk) (L l m r : nat) : outcome label :=
  match fuel with
  | O => Undefined
  | S fuel =>
      let l := l + 1 in
      if l =? r then Ok (LNxt a)
      else if l =? m then all_equal fuel a L l m r
      else
        t <- compare a l m ;;
        if (0 <? t)%Z then a <- mmswap a l r ;; Ok (LoopA a)
        else if (t <? 0)%Z then a <- mmswap a L l ;; Ok (LoopB a)
        else all_equal fuel a L l m r
  end.

(** The first inner loop of splitting type A, which moves [l]: whether it met
    [r], and the new [l], [eq_l] and [eq_r]. *)
Fixpoint up_A (fuel : nat) (a : list chunk) (l r m : nat) (eq_l eq_r : bool) : outcome (bool * nat * bool * bool) :=
  match fuel with
  | O => Undefined
  | S fuel =>
      let l := l + 1 in
      if l =? r then Ok (true, l, eq_l, eq_r)
      else if l =? m then up_A fuel a l r m eq_l eq_r
      else
        t <- compare a l m ;;
        if (0 <? t)%Z then Ok (false, l, eq_l, false)
        else up_A fuel a l r m (if (t <? 0)%Z then false else eq_l) eq_r
  end.

(** The second one, which moves [r]: whether it met [l], and the new [r], [m]
    and [eq_l]. *)
Fixpoint down_A (fuel : nat) (a : list chunk) (l r m : nat) (eq_l : bool) : outcome (bool * nat * nat * bool) :=
  match fuel with
  | O => Undefined
  | S fuel =>
      let r := r - 1 in
      if l =? r then Ok (true, r, m, eq_l)
      else if r =? m then Ok (false, r, l, eq_l)
      else
        t <- compare a r m ;;
        if (t <? 0)%Z then Ok (false, r, m, false)
        else if (t =? 0)%Z then Ok (false, r, m, eq_l)
        else down_A fuel a l r m eq_l
  end.

(** [{l -= size; if (l != m) mmswap(m,l); l -= size; goto fin;}] *)
Definition fin_A (a : list chunk) (l r m : nat) (eq_l eq_r : bool) : outcome part :=
  let l := l - 1 in
  a <- (if l =? m then Ok a else mmswap a m l) ;;
  Ok (Fin a (l - 1) r eq_l eq_r).

Fixpoint loop_A (fuel : nat) (a : list chunk) (l r m : nat) (eq_l eq_r : bool) : outcome part :=
  match fuel with
  | O => Undefined
  | S fuel =>
      '(met, l, eq_l, eq_r) <- up_A (length a) a l r m eq_l eq_r ;;
      if met : bool then fin_A a l r m eq_l eq_r
      else
        '(met, r, m, eq_l) <- down_A (length a) a l r m eq_l ;;
        if met : bool then fin_A a l r m eq_l eq_r
        else a <- mmswap a l r ;; loop_A fuel a l r m eq_l eq_r
  end.

(** The same for splitting type B. *)
Fixpoint down_B (fuel : nat) (a : list chunk) (l r m : nat) (eq_l eq_r : bool) : outcome (bool * nat * bool * bool) :=
  match fuel with
  | O => Undefined
  | S fuel =>
      let r := r - 1 in
      if l =? r then Ok (true, r, eq_l, eq_r)
      else if r =? m then down_B fuel a l r m eq_l eq_r
      else
        t <- compare a r m ;;
        if (t <? 0)%Z then Ok (false, r, false, eq_r)
        else down_B fuel a l r m eq_l (if (0 <? t)%Z then false else eq_r)
  end.

Fixpoint up_B (fuel : nat) (a : list chunk) (l r m : nat) (eq_r : bool) : outcome (bool * nat * nat * bool) :=
  match fuel with
  | O => Undefined
  | S fuel =>
      let l := l + 1 in
      if l =? r then Ok (true, l, m, eq_r)
      else if l =? m then Ok (false, l, r, eq_r)
      else
        t <- compare a l m ;;
        if (0 <? t)%Z then Ok (false, l, m, false)
        else if (t =? 0)%Z then Ok (false, l, m, eq_r)
        else up_B fuel a l r m eq_r
  end.

(** [{r += size; if (r != m) mmswap(r,m); r += size; goto fin;}] *)
Definition fin_B (a : list chunk) (l r m : nat) (eq_l eq_r : bool) : outcome part :=
  let r := r + 1 in
  a <- (if r =? m then Ok a else mmswap a r m) ;;
  Ok (Fin a l (r + 1) eq_l eq_r).

Fixpoint loop_B (fuel : nat) (a : list chunk) (l r m : nat) (eq_l eq_r : bool) : outcome part :=
  match fuel with
  | O => Undefined
  | S fuel =>
      '(met, r, eq_l, eq_r) <- down_B (length a) a l r m eq_l eq_r ;;
      if met : bool then fin_B a l r m eq_l eq_r
      else
        '(met, l, m, eq_r) <- up_B (length a) a l r m eq_r ;;
        if met : bool then fin_B a l r m eq_l eq_r
        else a <- mmswap a l r ;; loop_B fuel a l r m eq_l eq_r
  end.

(** One round of the main loop: the region from [L] to [R]. *)
Definition pass (a : list chunk) (L R chklim nel : nat) : outcome (part * nat) :=
  if L + 1 =? R then
    t <- compare a L R ;;
    a <- (if (0 <? t)%Z then mmswap a L R else Ok a) ;;
    Ok (Nxt a, chklim)
  else
    m <- median a L R ;;
    '(lab, chklim) <- classify a L m R chklim nel ;;
    lab <- match lab with AllEqual => all_equal (length a) a L L m R | _ => Ok lab end ;;
    p <- match lab with
         | LoopA a => loop_A (length a) a L R m true true
         | LoopB a => loop_B (length a) a L R m true true
         | LNxt a => Ok (Nxt a)
         | AllEqual => Undefined
         end ;;
    Ok (p, chklim).

(** [stack_node stack[32]]; the head of the list is the top. *)
Definition stack := list (nat * nat).
Definition STACK_SIZE : nat := 32.
Definition PUSH (ll rr : nat) (top : stack) : outcome stack :=
  if length top <? STACK_SIZE then Ok ((ll, rr) :: top) else Undefined.

(** What is left to do: the next region and the stack, or nothing. *)
Definition next_region (p : part) (L R : nat) (st : stack) : outcome (list chunk * option (nat * nat * stack)) :=
  let nxt a := match st with [] => Ok (a, None) | (L, R) :: st => Ok (a, Some (L, R, st)) end in
  match p with
  | Nxt a => nxt a
  | Fin a l r eq_l eq_r =>
      if negb eq_l then
        if negb eq_r then
          if l - L <? R - r then st <- PUSH r R st ;; Ok (a, Some (L, l, st))
          else st <- PUSH L l st ;; Ok (a, Some (r, R, st))
        else Ok (a, Some (L, l, st))
      else if negb eq_r then Ok (a, Some (r, R, st))
      else nxt a
  end.

Fixpoint sort_loop (fuel : nat) (a : list chunk) (L R chklim : nat) (st : stack) : outcome (list chunk) :=
  match fuel with
  | O => Undefined
  | S fuel =>
      '(p, chklim) <- pass a L R chklim (length a) ;;
      '(a, next) <- next_region p L R st ;;
      match next with
      | None => Ok a
      | Some (L, R, st) => sort_loop fuel a L R chklim st
      end
  end.
End Qsort.

(** Every round puts an element in its place, so that [nel] rounds are
    enough. *)
Definition ruby_qsort (aligned : bool) (base : list chunk) (size : nat) (cmp : chunk -> chunk -> Z) :
    outcome (list chunk) :=
  let nel := length base in
  if nel <=? 1 then Ok base
  else sort_loop cmp (mmprepare aligned size) nel base 0 (nel - 1) 63 [].

(** ** Moving elements *)

(** [x] with its first [o] bytes replaced by those of [y]. *)
Definition mix (o : nat) (x y : chunk) : chunk := firstn o y ++ skipn o x.

Lemma mix_end x y : length x = length y -> mix (length y) x y = y.
Proof. intros H. unfold mix. rewrite firstn_all, <- H, skipn_all. apply app_nil_r. Qed.

Lemma splice_mix o n x y z :
  o + n <= length x -> o + n <= length y -> o + n <= length z ->
  splice o n (mix o x y) (mix o y z) = mix (o + n) x y.
Proof.
  intros Hx Hy Hz.
  assert (Hf : firstn o (mix o x y) = firstn o y).
  { unfold mix. rewrite firstn_app, firstn_firstn, length_firstn, !Nat.min_l, Nat.sub_diag, firstn_O by lia. apply app_nil_r. }
  assert (Hs : forall k u v, o <= length v -> skipn (o + k) (mix o u v) = skipn (o + k) u).
  { intros k u v Hv. unfold mix. rewrite skipn_app, length_firstn, Nat.min_l, skipn_skipn by lia.
    rewrite skipn_all2 by (rewrite length_firstn; lia). cbn [app]. f_equal. lia. }
  unfold splice. rewrite Hf, Hs by lia. rewrite <- (Nat.add_0_r o) at 2. rewrite Hs, Nat.add_0_r by lia.
  unfold mix. rewrite app_assoc. f_equal.
  rewrite <- (firstn_skipn o (firstn (o + n) y)), firstn_firstn, Nat.min_l, skipn_firstn_comm by lia.
  do 2 f_equal. lia.
Qed.

(** Any sequence of moves that covers the element moves it. *)
Section CopyLemmas.
Context {P : Type} (f : nat -> nat -> P -> P) (done : nat -> P) (size : nat).
Context (step : forall o n, o + n <= size -> f o n (done o) = done (o + n)).

Lemma blocks16_done k fuel o : k <> 0 -> k <= fuel -> o + 16 * k <= size ->
  blocks16 f fuel o (o + 16 * k) (done o) = done (o + 16 * k).
Proof.
  revert fuel o; induction k as [|k IH]; intros [|fuel] o Hk Hf Ho; try lia. cbn [blocks16].
  rewrite (step o 4), (step (o + 4) 4) by lia. replace (o + 4 + 4) with (o + 8) by lia.
  rewrite (step (o + 8) 4) by lia. replace (o + 8 + 4) with (o + 12) by lia.
  rewrite (step (o + 12) 4) by lia. replace (o + 12 + 4) with (o + 16) by lia.
  destruct (Nat.ltb_spec (o + 16) (o + 16 * S k)).
  - replace (o + 16 * S k) with (o + 16 + 16 * k) by lia. apply IH; lia.
  - f_equal. lia.
Qed.

Lemma bytes1_done k fuel o : k <> 0 -> k <= fuel -> o + k <= size ->
  bytes1 f fuel o (o + k) (done o) = done (o + k).
Proof.
  revert fuel o; induction k as [|k IH]; intros [|fuel] o Hk Hf Ho; try lia. cbn [bytes1].
  rewrite step by lia. destruct (Nat.ltb_spec (o + 1) (o + S k)).
  - replace (o + S k) with (o + 1 + k) by lia. apply IH; lia.
  - f_equal. lia.
Qed.

(** How many bytes [mmprepare] covers: an aligned base is taken to mean that
    the elements consist of whole words. *)
Definition covered (aligned : bool) : nat := if aligned then size / 4 * 4 else size.

Lemma mmcopy_done aligned :
  size <> 0 ->
  let g := mmprepare aligned size in
  mmcopy f (mmkind g) size (high g) (low g) (done 0) = done (covered aligned).
Proof.
  intros H0. unfold mmcopy, covered. cbn [mmprepare mmkind Qsort.size high low].
  destruct aligned; [|change (0 <=? -1)%Z with false; apply (bytes1_done size size 0); lia].
  pose proof (Nat.div_mod_eq size 16) as E. pose proof (Nat.mod_upper_bound size 16) as B.
  pose proof (Nat.div_mod_eq (size mod 16) 4) as E4. pose proof (Nat.mod_upper_bound (size mod 16) 4) as B4.
  set (k := size / 16) in *. set (w := size mod 16 / 4) in *.
  assert (Es : size / 4 = k * 4 + w).
  { symmetry. apply (Nat.div_unique size 4 _ (size mod 16 mod 4)); lia. }
  assert (Hw : w < 4) by lia. replace (size / 4 * 4) with (k * 16 + w * 4) by lia.
  assert (EB : (if Z.ltb 0 (if 16 <=? size then 1%Z else 0%Z) then blocks16 f (k * 16) 0 (k * 16) (done 0) else done 0) =
    done (k * 16)).
  { destruct (Nat.leb_spec 16 size); cbn [Z.ltb Z.compare].
    - replace (k * 16) with (0 + 16 * k) at 2 3 by lia. rewrite blocks16_done by lia. f_equal. 
    - f_equal; lia. }
  replace (Z.leb 0 (if 16 <=? size then 1%Z else 0%Z)) with true by now destruct (16 <=? size).
  rewrite EB. unfold low_words. clear EB.
  destruct w as [|[|[|[|w]]]]; [| | | |lia]; cbn [Nat.eqb Nat.mul Nat.leb Nat.add].
  - f_equal; lia.
  - rewrite step by lia. f_equal; lia.
  - rewrite (step (k * 16)), step by lia. f_equal; lia.
  - rewrite (step (k * 16)), (step (k * 16 + 4)) by lia. replace (k * 16 + 4 + 4) with (k * 16 + 8) by lia.
    rewrite step by lia. f_equal; lia.
Qed.
End CopyLemmas.

Lemma mmswap_bytes aligned size x y :
  size <> 0 -> length x = size -> length y = size ->
  mmswap_ (mmprepare aligned size) x y = (mix (covered size aligned) x y, mix (covered size aligned) y x).
Proof.
  intros H0 Hx Hy. set (done o := (mix o x y, mix o y x)).
  unfold mmswap_. change (Qsort.size (mmprepare aligned size)) with size. change (x, y) with (done 0).
  apply (mmcopy_done xch done size); [|exact H0].
  intros o n Ho. unfold done, xch. now rewrite !splice_mix by lia.
Qed.

Lemma mmrot3_bytes aligned size x y z :
  size <> 0 -> length x = size -> length y = size -> length z = size ->
  let n := covered size aligned in mmrot3_ (mmprepare aligned size) x y z = (mix n x y, mix n y z, mix n z x).
Proof.
  intros H0 Hx Hy Hz. set (done o := (mix o x y, mix o y z, mix o z x)).
  unfold mmrot3_. change (Qsort.size (mmprepare aligned size)) with size. change (x, y, z) with (done 0).
  apply (mmcopy_done rot done size); [|exact H0].
  intros o n Ho. unfold done, rot. now rewrite !splice_mix by lia.
Qed.

Lemma covered_all aligned size : aligned = false \/ size mod 4 = 0 -> covered size aligned = size.
Proof.
  unfold covered. destruct aligned; auto. intros [H|H]; [discriminate|].
  pose proof (Nat.div_mod_eq size 4). lia.
Qed.

Lemma mmswap_exchange aligned size x y :
  size <> 0 -> aligned = false \/ size mod 4 = 0 -> length x = size -> length y = size ->
  mmswap_ (mmprepare aligned size) x y = (y, x).
Proof.
  intros H0 Ha Hx Hy. rewrite mmswap_bytes, covered_all by auto.
  rewrite <- Hy at 1. rewrite <- Hx. now rewrite !mix_end by congruence.
Qed.

Lemma mmrot3_rotate aligned size x y z :
  size <> 0 -> aligned = false \/ size mod 4 = 0 -> length x = size -> length y = size -> length z = size ->
  mmrot3_ (mmprepare aligned size) x y z = (y, z, x).
Proof.
  intros H0 Ha Hx Hy Hz. rewrite mmrot3_bytes, covered_all by auto.
  rewrite <- Hy at 1. rewrite <- Hz at 1. rewrite <- Hx. now rewrite !mix_end by congruence.
Qed.

(** ** Exchanges on the array *)

Definition exchange (a : list chunk) (i j : nat) : list chunk := list_set (list_set a i (get a j)) j (get a i).

Lemma exchange_length a i j : length (exchange a i j) = length a.
Proof. unfold exchange. now rewrite !list_set_length. Qed.

Lemma get_exchange a i j k : i < length a -> j < length a ->
  get (exchange a i j) k = if k =? j then get a i else if k =? i then get a j else get a k.
Proof. intros Hi Hj. unfold exchange, get. now rewrite !list_set_nth by (rewrite ?list_set_length; lia). Qed.

Lemma get_ext a b : length a = length b -> (forall k, k < length a -> get a k = get b k) -> a = b.
Proof. intros HL H. now apply (nth_ext a b [] []). Qed.

Lemma exchange_same a i : i < length a -> exchange a i i = a.
Proof.
  intros Hi. apply get_ext; [apply exchange_length|]. intros k _. rewrite get_exchange by auto.
  destruct (Nat.eqb_spec k i); congruence.
Qed.

Lemma nth_error_get a k : nth_error a k = if k <? length a then Some (get a k) else None.
Proof.
  destruct (Nat.ltb_spec k (length a)); [now apply nth_error_nth'|now apply nth_error_None].
Qed.

Lemma exchange_Permutation a i j : i < length a -> j < length a -> Permutation a (exchange a i j).
Proof.
  intros Hi Hj. apply Permutation_nth_error. split; [now rewrite exchange_length|].
  exists (fun k => if k =? j then i else if k =? i then j else k). split.
  - intros x y. repeat case_if; congruence.
  - intros k. rewrite !nth_error_get, exchange_length, get_exchange by auto. repeat case_if; congruence || lia.
Qed.

(** [b] is [a] with the elements from [L] to [R] permuted. *)
Record shuffle (L R : nat) (a b : list chunk) : Prop := mkShuffle {
  sh_perm : Permutation a b;
  sh_out : forall k, k < L \/ R < k -> get b k = get a k;
  sh_in : forall k, L <= k <= R -> exists j, L <= j <= R /\ get b k = get a j
}.

Lemma shuffle_length L R a b : shuffle L R a b -> length b = length a.
Proof. intros H. symmetry. apply Permutation_length, (sh_perm L R a b H). Qed.

Lemma shuffle_refl L R a : shuffle L R a a.
Proof. split; eauto. Qed.

Lemma shuffle_trans L R a b c : shuffle L R a b -> shuffle L R b c -> shuffle L R a c.
Proof.
  intros [P1 O1 I1] [P2 O2 I2]. split.
  - now transitivity b.
  - intros k Hk. rewrite O2; auto.
  - intros k Hk. destruct (I2 k Hk) as (j & Hj & ->). auto.
Qed.

Lemma shuffle_exchange L R a b i j :
  shuffle L R a b -> R < length a -> L <= i <= R -> L <= j <= R -> shuffle L R a (exchange b i j).
Proof.
  intros H HR Hi Hj. apply (shuffle_trans L R a b); [exact H|]. pose proof (shuffle_length _ _ _ _ H) as HL. split.
  - apply exchange_Permutation; lia.
  - intros k Hk. rewrite get_exchange by lia. repeat case_if; auto; lia.
  - intros k Hk. rewrite get_exchange by lia. repeat case_if; eauto.
Qed.

Section Sorting.
Context (cmp : chunk -> chunk -> Z) (aligned : bool) (size : nat).
Context (size_pos : size <> 0) (whole_words : aligned = false \/ size mod 4 = 0).

Notation g := (mmprepare aligned size).
Definition elements (a : list chunk) : Prop := Forall (fun x => length x = size) a.

Lemma elements_get a i : elements a -> i < length a -> length (get a i) = size.
Proof. intros H Hi. unfold elements in H. rewrite Forall_forall in H. apply H, nth_In, Hi. Qed.

Lemma shuffle_elements L R a b : shuffle L R a b -> elements a -> elements b.
Proof. intros H. apply Permutation_Forall, (sh_perm L R a b H). Qed.

Lemma exchange_elements a i j : elements a -> i < length a -> j < length a -> elements (exchange a i j).
Proof. intros H Hi Hj. eapply Permutation_Forall; [apply exchange_Permutation|exact H]; auto. Qed.

Lemma compare_ok a i j : i < length a -> j < length a -> compare cmp a i j = Ok (cmp (get a i) (get a j)).
Proof. intros Hi Hj. unfold compare. now rewrite (proj2 (Nat.ltb_lt i _) Hi), (proj2 (Nat.ltb_lt j _) Hj). Qed.

Lemma mmswap_ok a i j : elements a -> i < length a -> j < length a -> mmswap g a i j = Ok (exchange a i j).
Proof.
  intros He Hi Hj. unfold mmswap. destruct (Nat.eqb_spec i j) as [->|Hij]; [now rewrite exchange_same|].
  rewrite (proj2 (Nat.ltb_lt i _) Hi), (proj2 (Nat.ltb_lt j _) Hj). cbn [andb].
  now rewrite mmswap_exchange by auto using elements_get.
Qed.

Lemma mmrot3_ok a i j k : elements a -> i < length a -> j < length a -> k < length a ->
  i <> j -> j <> k -> i <> k -> mmrot3 g a i j k = Ok (exchange (exchange a i j) j k).
Proof.
  intros He Hi Hj Hk H1 H2 H3. unfold mmrot3.
  rewrite (proj2 (Nat.ltb_lt i _) Hi), (proj2 (Nat.ltb_lt j _) Hj), (proj2 (Nat.ltb_lt k _) Hk). cbn [andb].
  rewrite mmrot3_rotate by auto using elements_get. f_equal. apply get_ext.
  - unfold exchange. now rewrite !list_set_length.
  - intros n _. rewrite !get_exchange by (rewrite ?exchange_length; auto). unfold get at 1.
    rewrite !list_set_nth by (rewrite ?list_set_length; auto). fold (get a n).
    repeat case_if; try congruence; lia.
Qed.

(** ** The splitting loops

    [a0] is the array at the start of a loop, [p] the median, at position
    [m]; the elements behind [L] up to [l] are not greater than [p], those
    from [r] to [R] not less. *)
Section Split.
Context (a0 : list chunk) (L R : nat) (p : chunk).

Record core (a : list chunk) (l r m : nat) : Prop := mkCore {
  c_shuffle : shuffle L R a0 a;
  c_elements : elements a;
  c_bounds : L <= l < r /\ r <= R /\ L < m < R /\ R < length a;
  c_pivot : get a m = p;
  c_first : get a L = get a0 L;
  c_last : get a R = get a0 R;
  c_left : forall k, L < k <= l -> k <> m -> (cmp (get a k) p <= 0)%Z;
  c_right : forall k, r <= k < R -> k <> m -> (0 <= cmp (get a k) p)%Z
}.

(** What [eq_l] and [eq_r] say, with the range they are about. *)
Definition flag (a : list chunk) (lo hi m : nat) (eq : bool) : Prop :=
  if eq then forall k, lo <= k < hi -> k <> m -> cmp (get a k) p = 0%Z
  else exists k, lo <= k < hi /\ k <> m.

(** The array when a loop is left. *)
Record split_at (a : list chunk) (l r : nat) (eq_l eq_r : bool) : Prop := mkSplit {
  s_core : core a l r (l + 1);
  s_middle : l + 2 = r;
  s_left : flag a (L + 1) r (l + 1) eq_l;
  s_right : flag a r R (l + 1) eq_r;
  s_sizes : (eq_l = false -> L < l) /\ (eq_r = false -> r < R)
}.

(** Goals about an element of an array after an exchange. *)
Ltac positions := repeat (rewrite ?get_exchange by lia; match goal with
  | |- context [if ?x =? ?y then _ else _] => destruct (Nat.eqb_spec x y); subst; try lia
  end); try congruence.

(** An exchange of two elements between the ends. *)
Lemma core_exchange a l r m i j l' r' m' :
  core a l r m -> L < i < R -> L < j < R -> L <= l' < r' -> r' <= R -> L < m' < R ->
  get (exchange a i j) m' = p ->
  (forall k, L < k <= l' -> k <> m' -> (cmp (get (exchange a i j) k) p <= 0)%Z) ->
  (forall k, r' <= k < R -> k <> m' -> (0 <= cmp (get (exchange a i j) k) p)%Z) ->
  core (exchange a i j) l' r' m'.
Proof.
  intros [HS HE HB HP HF HL _ _] Hi Hj Hl Hr Hm Hp H1 H2. split; auto.
  - apply shuffle_exchange; auto; [|lia..]. pose proof (shuffle_length _ _ _ _ HS). lia.
  - apply exchange_elements; auto; lia.
  - rewrite exchange_length. lia.
  - positions.
  - positions.
Qed.

Lemma core_move a l r m l' r' :
  core a l r m -> L <= l' < r' -> r' <= R ->
  (forall k, L < k <= l' -> k <> m -> (cmp (get a k) p <= 0)%Z) ->
  (forall k, r' <= k < R -> k <> m -> (0 <= cmp (get a k) p)%Z) -> core a l' r' m.
Proof. intros [HS HE HB HP HF HL _ _] Hl Hr H1 H2. split; auto. lia. Qed.

Lemma flag_left a l m eq t :
  flag a (L + 1) l m eq -> L < l -> l <> m -> t = cmp (get a l) p ->
  flag a (L + 1) (l + 1) m (if (t =? 0)%Z then eq else false).
Proof.
  intros HF Hl Hm ->. destruct (Z.eqb_spec (cmp (get a l) p) 0); [|exists l; split; lia].
  destruct eq; cbn [flag] in *.
  - intros k Hk Hkm. destruct (Nat.eq_dec k l) as [->|]; auto. apply HF; lia.
  - destruct HF as (k & Hk & Hkm). exists k. split; lia.
Qed.

Lemma up_A_ok fuel a l r m eq_l eq_r :
  core a l r m -> m < r -> r - l <= fuel -> flag a (L + 1) (l + 1) m eq_l ->
  exists (met : bool) l' eq_l', up_A cmp fuel a l r m eq_l eq_r = Ok (met, l', eq_l', if met then eq_r else false) /\
    l < l' /\ core a (l' - 1) r m /\ flag a (L + 1) l' m eq_l' /\
    if met : bool then l' = r else l' < r /\ l' <> m /\ (0 < cmp (get a l') p)%Z.
Proof.
  revert l eq_l; induction fuel as [|fuel IH]; intros l eq_l C Hm Hf HF.
  { pose proof (c_bounds _ _ _ _ C). lia. }
  pose proof C as [_ _ HB HP _ _ HL HR]. cbn [up_A]. destruct (Nat.eqb_spec (l + 1) r) as [E|E].
  { exists true, (l + 1), eq_l. rewrite Nat.add_sub. splits; auto. lia. }
  assert (Next : forall eq, (l + 1 <> m -> (cmp (get a (l + 1)) p <= 0)%Z) -> flag a (L + 1) (l + 1 + 1) m eq ->
    exists (met : bool) l' eq_l', up_A cmp fuel a (l + 1) r m eq eq_r = Ok (met, l', eq_l', if met then eq_r else false) /\
      l < l' /\ core a (l' - 1) r m /\ flag a (L + 1) l' m eq_l' /\
      if met : bool then l' = r else l' < r /\ l' <> m /\ (0 < cmp (get a l') p)%Z).
  { intros eq Hc HF'. destruct (IH (l + 1) eq) as (met & l' & el & HU & Hl & H); auto; [|lia|].
    - apply (core_move a l r m); auto; try lia. intros k Hk Hkm.
      destruct (Nat.eq_dec k (l + 1)) as [->|]; auto. apply HL; lia.
    - exists met, l', el. split; [exact HU|]. split; [lia|exact H]. }
  destruct (Nat.eqb_spec (l + 1) m) as [Em|Em].
  { apply Next; [lia|]. destruct eq_l; cbn [flag] in *.
    - intros k Hk Hkm. apply HF; lia.
    - destruct HF as (k & Hk & Hkm). exists k. lia. }
  rewrite compare_ok by lia. cbn [bind]. rewrite HP. destruct (Z.ltb_spec 0 (cmp (get a (l + 1)) p)) as [Ht|Ht].
  { exists false, (l + 1), eq_l. rewrite Nat.add_sub. splits; auto; lia. }
  apply Next; [auto|]. pose proof (flag_left a (l + 1) m eq_l _ HF ltac:(lia) Em eq_refl) as H.
  destruct (Z.ltb_spec (cmp (get a (l + 1)) p) 0), (Z.eqb_spec (cmp (get a (l + 1)) p) 0); auto; lia.
Qed.

(** The second loop and the exchange behind it. *)
Lemma down_A_ok fuel a l r m eq_l :
  core a (l - 1) r m -> L < l < r -> l <> m -> m < r -> r - l <= fuel -> (0 < cmp (get a l) p)%Z ->
  flag a (L + 1) l m eq_l ->
  exists (met : bool) r' m' eq_l', down_A cmp fuel a l r m eq_l = Ok (met, r', m', eq_l') /\
    if met then r' = l /\ m' = m /\ eq_l' = eq_l /\ m < l /\ core a (l - 1) l m
    else l < r' < r /\ m' < r' /\ core (exchange a l r') l r' m' /\
      flag (exchange a l r') (L + 1) (l + 1) m' eq_l'.
Proof.
  revert r; induction fuel as [|fuel IH]; intros r C Hl Hlm Hm Hf Ht HF; [lia|].
  pose proof C as [_ _ HB HP _ _ HL HR]. cbn [down_A].
  destruct (Nat.eqb_spec l (r - 1)) as [E|E].
  { exists true, (r - 1), m, eq_l. splits; auto; [lia|]. apply (core_move a (l - 1) r m); auto; try lia.
    intros k Hk Hkm. destruct (Nat.eq_dec k l) as [->|]; [lia|]. apply HR; lia. }
  destruct (Nat.eqb_spec (r - 1) m) as [Em|Em].
  { exists false, (r - 1), l, eq_l. splits; auto; try lia.
    - apply (core_exchange a (l - 1) r m); auto; try lia.
      + positions.
      + intros k Hk Hkm. positions. apply HL; lia.
      + intros k Hk Hkm. positions. apply HR; lia.
    - destruct eq_l; cbn [flag] in *.
      + intros k Hk Hkm. positions. apply HF; lia.
      + destruct HF as (k & Hk & Hkm). exists k. lia. }
  rewrite compare_ok by lia. cbn [bind]. rewrite HP.
  assert (Stop : forall eq, (cmp (get a (r - 1)) p <= 0)%Z -> flag (exchange a l (r - 1)) (L + 1) (l + 1) m eq ->
    l < r - 1 < r /\ m < r - 1 /\ core (exchange a l (r - 1)) l (r - 1) m /\
      flag (exchange a l (r - 1)) (L + 1) (l + 1) m eq).
  { intros eq Hc HF'. splits; auto; try lia. apply (core_exchange a (l - 1) r m); auto; try lia.
    - positions.
    - intros k Hk Hkm. positions. apply HL; lia.
    - intros k Hk Hkm. positions. apply HR; lia. }
  destruct (Z.ltb_spec (cmp (get a (r - 1)) p) 0) as [H0|H0].
  { exists false, (r - 1), m, false. split; [reflexivity|]. apply Stop; [lia|]. exists l. lia. }
  destruct (Z.eqb_spec (cmp (get a (r - 1)) p) 0) as [H1|H1].
  { exists false, (r - 1), m, eq_l. split; [reflexivity|]. apply Stop; [lia|]. destruct eq_l; cbn [flag] in *.
    - intros k Hk Hkm. positions. apply HF; lia.
    - destruct HF as (k & Hk & Hkm). exists k. lia. }
  destruct (IH (r - 1)) as (met & r' & m' & el & HD & H); auto; try lia.
  { apply (core_move a (l - 1) r m); auto; try lia. intros k Hk Hkm.
    destruct (Nat.eq_dec k (r - 1)) as [->|]; [lia|]. apply HR; lia. }
  exists met, r', m', el. split; [exact HD|]. destruct met; [exact H|]. destruct H as (Hr & H). split; [lia|exact H].
Qed.

(** The median moves to its place. *)
Lemma fin_A_ok a r m eq_l eq_r :
  core a (r - 1) r m -> m < r -> flag a (L + 1) r m eq_l -> flag a r R m eq_r ->
  exists a', fin_A g a r r m eq_l eq_r = Ok (Fin a' (r - 2) r eq_l eq_r) /\ split_at a' (r - 2) r eq_l eq_r.
Proof.
  intros C Hm FL FR. pose proof C as [_ HE HB HP _ _ HL HR]. unfold fin_A. rewrite mmswap_ok by (auto; lia).
  assert (HX : exists a', (if r - 1 =? m then Ok a else Ok (exchange a m (r - 1))) = Ok a' /\
    core a' (r - 2) r (r - 1) /\ flag a' (L + 1) r (r - 1) eq_l /\ flag a' r R (r - 1) eq_r).
  { destruct (Nat.eqb_spec (r - 1) m) as [E|E].
    - exists a. rewrite E. splits; auto. apply (core_move a (r - 1) r m); auto; try lia.
      intros k Hk Hkm. apply HL; lia.
    - exists (exchange a m (r - 1)). splits; auto.
      + apply (core_exchange a (r - 1) r m); auto; try lia.
        * positions.
        * intros k Hk Hkm. positions; apply HL; lia.
        * intros k Hk Hkm. positions. apply HR; lia.
      + destruct eq_l; cbn [flag] in *.
        * intros k Hk Hkm. positions; apply FL; lia.
        * destruct FL as (k & Hk & Hkm). destruct (Nat.eq_dec k (r - 1)); [exists m|exists k]; lia.
      + destruct eq_r; cbn [flag] in *.
        * intros k Hk Hkm. positions. apply FR; lia.
        * destruct FR as (k & Hk & Hkm). exists k. lia. }
  destruct HX as (a' & -> & C' & FL' & FR'). cbn [bind]. exists a'.
  replace (r - 1 - 1) with (r - 2) by lia. split; [reflexivity|].
  replace (r - 1) with (r - 2 + 1) in C', FL', FR' by lia. split; auto; [lia|]. split; intros ->; cbn [flag] in *.
  - destruct FL' as (k & Hk & Hkm). lia.
  - destruct FR' as (k & Hk & Hkm). lia.
Qed.

Lemma loop_A_ok fuel a l r m eq_l eq_r :
  core a l r m -> m < r -> r - l <= fuel -> flag a (L + 1) (l + 1) m eq_l -> flag a r R m eq_r ->
  exists a' l' r' eq_l' eq_r', loop_A cmp g fuel a l r m eq_l eq_r = Ok (Fin a' l' r' eq_l' eq_r') /\
    split_at a' l' r' eq_l' eq_r'.
Proof.
  revert a l r m eq_l eq_r; induction fuel as [|fuel IH]; intros a l r m eq_l eq_r C Hm Hf FL FR.
  { pose proof (c_bounds _ _ _ _ C). lia. }
  cbn [loop_A]. destruct (up_A_ok (length a) a l r m eq_l eq_r) as (met & l1 & el & -> & Hl & C1 & FL1 & H); auto.
  { pose proof (c_bounds _ _ _ _ C). lia. }
  pose proof (c_bounds _ _ _ _ C) as HB. cbn [bind]. destruct met.
  { subst l1. destruct (fin_A_ok a r m el eq_r) as (a' & -> & HS); auto. eauto 7. }
  destruct H as (Hlr & Hlm & Ht).
  destruct (down_A_ok (length a) a l1 r m el) as (met & r1 & m1 & el1 & -> & H); auto; try lia.
  cbn [bind]. destruct met.
  - destruct H as (-> & -> & -> & Hml & C2). destruct (fin_A_ok a l1 m el false) as (a' & -> & HS); eauto 7.
    exists l1. lia.
  - destruct H as (Hr & Hm1 & C2 & FL2). rewrite mmswap_ok by (try apply (c_elements _ _ _ _ C1); lia). cbn [bind].
    apply IH; auto; [lia|]. exists r1. lia.
Qed.

(** Splitting type B, the mirror image. *)
Lemma flag_right a r m eq t :
  flag a (r + 1) R m eq -> r < R -> r <> m -> t = cmp (get a r) p ->
  flag a r R m (if (t =? 0)%Z then eq else false).
Proof.
  intros HF Hr Hm ->. destruct (Z.eqb_spec (cmp (get a r) p) 0); [|exists r; split; lia].
  destruct eq; cbn [flag] in *.
  - intros k Hk Hkm. destruct (Nat.eq_dec k r) as [->|]; auto. apply HF; lia.
  - destruct HF as (k & Hk & Hkm). exists k. split; lia.
Qed.

Lemma down_B_ok fuel a l r m eq_l eq_r :
  core a l r m -> l < m -> r - l <= fuel -> flag a r R m eq_r ->
  exists (met : bool) r' eq_r', down_B cmp fuel a l r m eq_l eq_r = Ok (met, r', if met then eq_l else false, eq_r') /\
    r' < r /\ core a l (r' + 1) m /\ flag a (r' + 1) R m eq_r' /\
    if met : bool then r' = l else l < r' /\ r' <> m /\ (cmp (get a r') p < 0)%Z.
Proof.
  revert r eq_r; induction fuel as [|fuel IH]; intros r eq_r C Hm Hf HF.
  { pose proof (c_bounds _ _ _ _ C). lia. }
  pose proof C as [_ _ HB HP _ _ HL HR]. cbn [down_B]. destruct (Nat.eqb_spec l (r - 1)) as [E|E].
  { exists true, (r - 1), eq_r. rewrite Nat.sub_add by lia. splits; auto. lia. }
  assert (Next : forall eq, (r - 1 <> m -> (0 <= cmp (get a (r - 1)) p)%Z) -> flag a (r - 1) R m eq ->
    exists (met : bool) r' eq_r', down_B cmp fuel a l (r - 1) m eq_l eq = Ok (met, r', if met then eq_l else false, eq_r') /\
      r' < r /\ core a l (r' + 1) m /\ flag a (r' + 1) R m eq_r' /\
      if met : bool then r' = l else l < r' /\ r' <> m /\ (cmp (get a r') p < 0)%Z).
  { intros eq Hc HF'. destruct (IH (r - 1) eq) as (met & r' & er & HU & Hr & H); auto; [|lia|].
    - apply (core_move a l r m); auto; try lia. intros k Hk Hkm.
      destruct (Nat.eq_dec k (r - 1)) as [->|]; auto. apply HR; lia.
    - exists met, r', er. split; [exact HU|]. split; [lia|exact H]. }
  destruct (Nat.eqb_spec (r - 1) m) as [Em|Em].
  { apply Next; [lia|]. destruct eq_r; cbn [flag] in *.
    - intros k Hk Hkm. apply HF; lia.
    - destruct HF as (k & Hk & Hkm). exists k. lia. }
  rewrite compare_ok by lia. cbn [bind]. rewrite HP. destruct (Z.ltb_spec (cmp (get a (r - 1)) p) 0) as [Ht|Ht].
  { exists false, (r - 1), eq_r. rewrite Nat.sub_add by lia. splits; auto; lia. }
  apply Next; [auto|]. replace r with (r - 1 + 1) in HF by lia.
  pose proof (flag_right a (r - 1) m eq_r _ HF ltac:(lia) Em eq_refl) as H.
  destruct (Z.ltb_spec 0 (cmp (get a (r - 1)) p)), (Z.eqb_spec (cmp (get a (r - 1)) p) 0); auto; lia.
Qed.

Lemma up_B_ok fuel a l r m eq_r :
  core a l (r + 1) m -> l < r < R -> r <> m -> l < m -> r - l <= fuel -> (cmp (get a r) p < 0)%Z ->
  flag a (r + 1) R m eq_r ->
  exists (met : bool) l' m' eq_r', up_B cmp fuel a l r m eq_r = Ok (met, l', m', eq_r') /\
    if met then l' = r /\ m' = m /\ eq_r' = eq_r /\ r < m /\ core a r (r + 1) m
    else l < l' < r /\ l' < m' /\ core (exchange a l' r) l' r m' /\
      flag (exchange a l' r) r R m' eq_r'.
Proof.
  revert l; induction fuel as [|fuel IH]; intros l C Hl Hrm Hm Hf Ht HF; [lia|].
  pose proof C as [_ _ HB HP _ _ HL HR]. cbn [up_B].
  destruct (Nat.eqb_spec (l + 1) r) as [E|E].
  { exists true, (l + 1), m, eq_r. splits; auto; [lia|]. apply (core_move a l (r + 1) m); auto; try lia.
    intros k Hk Hkm. destruct (Nat.eq_dec k r) as [->|]; [lia|]. apply HL; lia. }
  destruct (Nat.eqb_spec (l + 1) m) as [Em|Em].
  { exists false, (l + 1), r, eq_r. splits; auto; try lia.
    - apply (core_exchange a l (r + 1) m); auto; try lia.
      + positions.
      + intros k Hk Hkm. positions. apply HL; lia.
      + intros k Hk Hkm. positions. apply HR; lia.
    - destruct eq_r; cbn [flag] in *.
      + intros k Hk Hkm. positions. apply HF; lia.
      + destruct HF as (k & Hk & Hkm). exists k. lia. }
  rewrite compare_ok by lia. cbn [bind]. rewrite HP.
  assert (Stop : forall eq, (0 <= cmp (get a (l + 1)) p)%Z -> flag (exchange a (l + 1) r) r R m eq ->
    l < l + 1 < r /\ l + 1 < m /\ core (exchange a (l + 1) r) (l + 1) r m /\
      flag (exchange a (l + 1) r) r R m eq).
  { intros eq Hc HF'. splits; auto; try lia. apply (core_exchange a l (r + 1) m); auto; try lia.
    - positions.
    - intros k Hk Hkm. positions. apply HL; lia.
    - intros k Hk Hkm. positions. apply HR; lia. }
  destruct (Z.ltb_spec 0 (cmp (get a (l + 1)) p)) as [H0|H0].
  { exists false, (l + 1), m, false. split; [reflexivity|]. apply Stop; [lia|]. exists r. lia. }
  destruct (Z.eqb_spec (cmp (get a (l + 1)) p) 0) as [H1|H1].
  { exists false, (l + 1), m, eq_r. split; [reflexivity|]. apply Stop; [lia|]. destruct eq_r; cbn [flag] in *.
    - intros k Hk Hkm. positions. apply HF; lia.
    - destruct HF as (k & Hk & Hkm). exists k. lia. }
  destruct (IH (l + 1)) as (met & l' & m' & er & HD & H); auto; try lia.
  { apply (core_move a l (r + 1) m); auto; try lia. intros k Hk Hkm.
    destruct (Nat.eq_dec k (l + 1)) as [->|]; [lia|]. apply HL; lia. }
  exists met, l', m', er. split; [exact HD|]. destruct met; [exact H|]. destruct H as (Hr & H). split; [lia|exact H].
Qed.

Lemma fin_B_ok a l m eq_l eq_r :
  core a l (l + 1) m -> l < m -> flag a (L + 1) (l + 1) m eq_l -> flag a (l + 1) R m eq_r ->
  exists a', fin_B g a l l m eq_l eq_r = Ok (Fin a' l (l + 2) eq_l eq_r) /\ split_at a' l (l + 2) eq_l eq_r.
Proof.
  intros C Hm FL FR. pose proof C as [_ HE HB HP _ _ HL HR]. unfold fin_B. rewrite mmswap_ok by (auto; lia).
  assert (HX : exists a', (if l + 1 =? m then Ok a else Ok (exchange a (l + 1) m)) = Ok a' /\
    core a' l (l + 2) (l + 1) /\ flag a' (L + 1) (l + 2) (l + 1) eq_l /\ flag a' (l + 2) R (l + 1) eq_r).
  { destruct (Nat.eqb_spec (l + 1) m) as [E|E].
    - exists a. rewrite E. splits; auto.
      + apply (core_move a l (l + 1) m); auto; try lia. intros k Hk Hkm. apply HR; lia.
      + destruct eq_l; cbn [flag] in *; [intros k Hk Hkm; apply FL; lia|]. destruct FL as (k & Hk & Hkm). exists k. lia.
      + destruct eq_r; cbn [flag] in *; [intros k Hk Hkm; apply FR; lia|]. destruct FR as (k & Hk & Hkm). exists k. lia.
    - exists (exchange a (l + 1) m). splits; auto.
      + apply (core_exchange a l (l + 1) m); auto; try lia.
        * positions.
        * intros k Hk Hkm. positions. apply HL; lia.
        * intros k Hk Hkm. positions; apply HR; lia.
      + destruct eq_l; cbn [flag] in *.
        * intros k Hk Hkm. positions. apply FL; lia.
        * destruct FL as (k & Hk & Hkm). exists k. lia.
      + destruct eq_r; cbn [flag] in *.
        * intros k Hk Hkm. positions; apply FR; lia.
        * destruct FR as (k & Hk & Hkm). destruct (Nat.eq_dec k (l + 1)); [exists m|exists k]; lia. }
  destruct HX as (a' & -> & C' & FL' & FR'). cbn [bind]. exists a'.
  replace (l + 1 + 1) with (l + 2) by lia. split; [reflexivity|]. split; auto. split; intros ->; cbn [flag] in *.
  - destruct FL' as (k & Hk & Hkm). lia.
  - destruct FR' as (k & Hk & Hkm). lia.
Qed.

Lemma loop_B_ok fuel a l r m eq_l eq_r :
  core a l r m -> l < m -> r - l <= fuel -> flag a (L + 1) (l + 1) m eq_l -> flag a r R m eq_r ->
  exists a' l' r' eq_l' eq_r', loop_B cmp g fuel a l r m eq_l eq_r = Ok (Fin a' l' r' eq_l' eq_r') /\
    split_at a' l' r' eq_l' eq_r'.
Proof.
  revert a l r m eq_l eq_r; induction fuel as [|fuel IH]; intros a l r m eq_l eq_r C Hm Hf FL FR.
  { pose proof (c_bounds _ _ _ _ C). lia. }
  cbn [loop_B]. destruct (down_B_ok (length a) a l r m eq_l eq_r) as (met & r1 & er & -> & Hr & C1 & FR1 & H); auto.
  { pose proof (c_bounds _ _ _ _ C). lia. }
  pose proof (c_bounds _ _ _ _ C) as HB. cbn [bind]. destruct met.
  { subst r1. destruct (fin_B_ok a l m eq_l er) as (a' & -> & HS); auto. eauto 7. }
  destruct H as (Hlr & Hrm & Ht).
  destruct (up_B_ok (length a) a l r1 m er) as (met & l1 & m1 & er1 & -> & H); auto; try lia.
  cbn [bind]. destruct met.
  - destruct H as (-> & -> & -> & Hml & C2). destruct (fin_B_ok a r1 m false er) as (a' & -> & HS); eauto 7.
    exists r1. lia.
  - destruct H as (Hl & Hm1 & C2 & FR2). rewrite mmswap_ok by (try apply (c_elements _ _ _ _ C1); lia). cbn [bind].
    apply IH; auto; [lia|]. exists l1. lia.
Qed.
End Split.

(** ** A pass over a region *)

(** What the comparison function has to satisfy for the result to be sorted:
    it is a total preorder. *)
Definition ordered : Prop :=
  (forall x y, (cmp x y < 0 <-> 0 < cmp y x)%Z) /\
  (forall x y z, cmp x y <= 0 -> cmp y z <= 0 -> cmp x z <= 0)%Z.

Definition sorted_on (a : list chunk) (lo hi : nat) : Prop :=
  forall i j, lo <= i < j -> j <= hi -> (cmp (get a i) (get a j) <= 0)%Z.

Lemma ordered_flip x y : ordered -> (0 <= cmp x y)%Z -> (cmp y x <= 0)%Z.
Proof. intros [H _] Hc. pose proof (H x y). lia. Qed.

Lemma ordered_flip' x y : ordered -> (cmp x y <= 0)%Z -> (0 <= cmp y x)%Z.
Proof. intros [H _] Hc. pose proof (H y x). lia. Qed.

Lemma ordered_refl x : ordered -> cmp x x = 0%Z.
Proof. intros [H _]. pose proof (H x x). lia. Qed.

Lemma sorted_steps a lo hi : ordered ->
  (forall k, lo <= k < hi -> (cmp (get a k) (get a (k + 1)) <= 0)%Z) -> sorted_on a lo hi.
Proof.
  intros Ho H i j Hi Hj. induction j as [|j IH]; [lia|]. destruct (Nat.eq_dec i j) as [->|].
  - replace (S j) with (j + 1) by lia. apply H. lia.
  - apply (proj2 Ho _ (get a j)); [apply IH; lia|]. replace (S j) with (j + 1) by lia. apply H. lia.
Qed.

Definition label_ok (a : list chunk) (L R m : nat) (lab : label) : Prop :=
  match lab with
  | LoopA b | LoopB b =>
      shuffle L R a b /\ (ordered -> (cmp (get b L) (get b m) <= 0)%Z /\ (0 <= cmp (get b R) (get b m))%Z)
  | LNxt b => shuffle L R a b /\ (ordered -> sorted_on b L R)
  | AllEqual => (cmp (get a L) (get a m) = 0)%Z /\ (cmp (get a m) (get a R) = 0)%Z
  end.

Definition part_ok (a : list chunk) (L R : nat) (q : part) : Prop :=
  match q with
  | Nxt b => shuffle L R a b /\ (ordered -> sorted_on b L R)
  | Fin b l r eq_l eq_r =>
      shuffle L R a b /\ l + 2 = r /\ L <= l /\ r <= R /\ (eq_l = false -> L < l) /\ (eq_r = false -> r < R) /\
      (ordered ->
        (forall k, L <= k <= l -> (cmp (get b k) (get b (l + 1)) <= 0)%Z) /\
        (forall k, r <= k <= R -> (cmp (get b (l + 1)) (get b k) <= 0)%Z) /\
        (eq_l = true -> sorted_on b L l) /\ (eq_r = true -> sorted_on b r R))
  end.

Lemma med3_ok a i j k : i < length a -> j < length a -> k < length a ->
  exists n, med3 cmp a i j k = Ok n /\ (n = i \/ n = j \/ n = k).
Proof.
  intros Hi Hj Hk. unfold med3. rewrite !compare_ok by auto. cbn [bind].
  repeat match goal with |- context [if ?b then _ else _] => destruct b end; eauto.
Qed.

Lemma median_ok a L R : L + 1 < R -> R < length a -> exists m, median cmp a L R = Ok m /\ L < m < R.
Proof.
  intros H HR. unfold median. set (t := R - L + 1).
  assert (Ht : R = L + t - 1 /\ 3 <= t) by (unfold t; lia). clearbody t. destruct Ht as [-> Ht].
  pose proof (Nat.div_mod_eq t 2). pose proof (Nat.mod_upper_bound t 2).
  pose proof (Nat.div_mod_eq t 4). pose proof (Nat.mod_upper_bound t 4).
  pose proof (Nat.div_mod_eq t 8). pose proof (Nat.mod_upper_bound t 8).
  destruct (Nat.leb_spec 60 t) as [H60|H60]; [|eexists; split; [reflexivity|lia]].
  destruct (Nat.leb_spec 200 t) as [H200|H200].
  - destruct (med3_ok a (L + t / 8) (L + t / 8 + t / 8) (L + t / 8 + t / 8 + t / 8)) as (m1 & -> & D1); try lia.
    cbn [bind]. set (m := L + t / 2).
    destruct (med3_ok a (m + t / 8) (m + t / 8 + t / 8) (m + t / 8 + t / 8 + t / 8)) as (m3 & -> & D3); try lia.
    cbn [bind]. destruct (med3_ok a m1 m m3) as (n & -> & Hn); try lia. exists n. split; [reflexivity|lia].
  - destruct (med3_ok a (L + t / 4) (L + t / 2) (L + t / 2 + t / 4)) as (n & -> & Hn); try lia.
    exists n. split; [reflexivity|lia].
Qed.

Lemma check_ok bad fuel a i r : r < length a -> r - i < fuel ->
  exists b, check cmp bad fuel a i r = Ok b /\
    (b = true -> forall k, i <= k < r -> bad (cmp (get a k) (get a (k + 1))) = false).
Proof.
  intros Hr. revert i; induction fuel as [|fuel IH]; intros i Hf; [lia|]. cbn [check].
  destruct (Nat.ltb_spec i r); [|exists true; split; [reflexivity|lia]].
  rewrite compare_ok by lia. cbn [bind]. destruct (bad _) eqn:E; [exists false; split; [reflexivity|discriminate]|].
  destruct (IH (i + 1)) as (b & -> & Hb); [lia|]. exists b. split; [reflexivity|]. intros -> k Hk.
  destruct (Nat.eq_dec k i) as [->|]; auto. apply Hb; auto. lia.
Qed.

Lemma reverse_ok fuel a l r : elements a -> r < length a -> r - l < fuel ->
  exists b, reverse g fuel a l r = Ok b /\ shuffle l r a b /\
    forall k, l <= k <= r -> get b k = get a (l + r - k).
Proof.
  revert a l r; induction fuel as [|fuel IH]; intros a l r He Hr Hf; [lia|]. cbn [reverse].
  destruct (Nat.ltb_spec l r) as [H|H].
  2:{ exists a. splits; auto using shuffle_refl. intros k Hk. f_equal. lia. }
  rewrite mmswap_ok by (auto; lia). cbn [bind].
  destruct (IH (exchange a l r) (l + 1) (r - 1)) as (b & -> & HS & Hb).
  { apply exchange_elements; auto; lia. } { rewrite exchange_length. lia. } { lia. }
  assert (HS' : shuffle l r a (exchange a l r)) by (apply shuffle_exchange; auto using shuffle_refl; lia).
  exists b. splits; auto.
  - apply (shuffle_trans l r a (exchange a l r)); [exact HS'|]. destruct HS as [P O I]. split; auto.
    + intros k Hk. apply O. lia.
    + intros k Hk. destruct (Nat.eq_dec k l); [exists l; split; [lia|]; subst; apply O; lia|].
      destruct (Nat.eq_dec k r); [exists r; split; [lia|]; subst; apply O; lia|].
      destruct (I k) as (j & Hj & ->); [lia|]. exists j. split; [lia|reflexivity].
  - intros k Hk. destruct (Nat.eq_dec k l) as [->|].
    { rewrite (sh_out _ _ _ _ HS) by lia. rewrite get_exchange by lia. replace (l + r - l) with r by lia.
      destruct (Nat.eqb_spec l r), (Nat.eqb_spec l l); congruence || lia. }
    destruct (Nat.eq_dec k r) as [->|].
    { rewrite (sh_out _ _ _ _ HS) by lia. rewrite get_exchange by lia. replace (l + r - r) with l by lia.
      destruct (Nat.eqb_spec r r); congruence || lia. }
    rewrite Hb by lia. rewrite get_exchange by lia. replace (l + 1 + (r - 1) - k) with (l + r - k) by lia.
    destruct (Nat.eqb_spec (l + r - k) r), (Nat.eqb_spec (l + r - k) l); reflexivity || lia.
Qed.

Lemma label_exchange a L R m i j :
  R < length a -> L < m < R -> L <= i <= R -> L <= j <= R ->
  (ordered -> (cmp (get (exchange a i j) L) (get (exchange a i j) m) <= 0)%Z /\
    (0 <= cmp (get (exchange a i j) R) (get (exchange a i j) m))%Z) ->
  label_ok a L R m (LoopA (exchange a i j)) /\ label_ok a L R m (LoopB (exchange a i j)).
Proof. intros HR Hm Hi Hj H. cbn [label_ok]. splits; auto; now apply shuffle_exchange; auto using shuffle_refl. Qed.

(** The elements at the ends and the median after an exchange. *)
Ltac ends := rewrite !get_exchange by (rewrite ?exchange_length; lia);
  repeat match goal with
  | |- context [if ?x =? ?y then _ else _] =>
      first [ replace (x =? y) with true by (symmetry; apply Nat.eqb_eq; lia)
            | replace (x =? y) with false by (symmetry; apply Nat.eqb_neq; lia) ]; cbv iota
  end.

Lemma classify_ok a L R m chklim nel :
  elements a -> L < m < R -> R < length a ->
  exists lab chklim', classify cmp g a L m R chklim nel = Ok (lab, chklim') /\ label_ok a L R m lab.
Proof.
  intros He Hm HR. unfold classify. rewrite !compare_ok by lia. cbn [bind].
  assert (Stay : (ordered -> (cmp (get a L) (get a m) <= 0)%Z /\ (0 <= cmp (get a R) (get a m))%Z) ->
    label_ok a L R m (LoopA a) /\ label_ok a L R m (LoopB a)).
  { intros H. cbn [label_ok]. splits; auto using shuffle_refl. }
  pose proof (label_exchange a L R m) as Swap.
  destruct (Z.ltb_spec (cmp (get a L) (get a m)) 0) as [H1|H1].
  - destruct (Z.ltb_spec (cmp (get a m) (get a R)) 0) as [H2|H2].
    + assert (S : label_ok a L R m (LoopA a)).
      { apply Stay. intros Ho. split; [lia|]. apply ordered_flip'; [exact Ho|lia]. }
      destruct (_ && _); [|eauto].
      destruct (check_ok (fun t => 0 <? t)%Z (length a) a L R) as (b & -> & Hb); [lia..|]. cbn [bind].
      do 2 eexists. split; [reflexivity|]. destruct b; [|exact S]. split; [apply shuffle_refl|]. intros Ho.
      apply sorted_steps; [exact Ho|]. intros k Hk. specialize (Hb eq_refl k Hk). lia.
    + destruct (Z.ltb_spec 0 (cmp (get a m) (get a R))) as [H3|H3].
      * destruct (Z.leb_spec (cmp (get a L) (get a R)) 0) as [H4|H4].
        -- rewrite mmswap_ok by (auto; lia). cbn [bind]. do 2 eexists. split; [reflexivity|].
           apply Swap; try lia. intros _. ends. split; lia.
        -- rewrite mmrot3_ok by (auto; lia). cbn [bind]. do 2 eexists. split; [reflexivity|]. split.
           ++ repeat apply shuffle_exchange; auto using shuffle_refl; lia.
           ++ intros Ho. ends. split; [apply ordered_flip; [exact Ho|lia]|]. apply ordered_flip'; [exact Ho|lia].
      * do 2 eexists. split; [reflexivity|]. apply Stay. intros Ho. split; [lia|]. apply ordered_flip'; [exact Ho|lia].
  - destruct (Z.ltb_spec 0 (cmp (get a L) (get a m))) as [H2|H2].
    + destruct (Z.ltb_spec 0 (cmp (get a m) (get a R))) as [H3|H3].
      * assert (S : forall c : nat, exists (lab : label) (chklim' : nat),
          bind (mmswap g a L R) (fun a => Ok (LoopA a, c)) = Ok (lab, chklim') /\ label_ok a L R m lab).
        { intros c. rewrite mmswap_ok by (auto; lia). cbn [bind]. do 2 eexists. split; [reflexivity|].
          apply Swap; try lia. intros Ho. ends. split; [apply ordered_flip; [exact Ho|lia]|lia]. }
        destruct (_ && _); [|apply S].
        destruct (check_ok (fun t => t <? 0)%Z (length a) a L R) as (b & -> & Hb); [lia..|]. cbn [bind].
        destruct b; [|apply S]. destruct (reverse_ok (length a) a L R) as (b & -> & HS & Hg); auto; [lia|].
        cbn [bind]. do 2 eexists. split; [reflexivity|]. split; [exact HS|]. intros Ho.
        apply sorted_steps; [exact Ho|]. intros k Hk. rewrite !Hg by lia. specialize (Hb eq_refl (L + R - (k + 1)) ltac:(lia)).
        replace (L + R - (k + 1) + 1) with (L + R - k) in Hb by lia. apply ordered_flip; [exact Ho|lia].
      * destruct (Z.ltb_spec (cmp (get a m) (get a R)) 0) as [H4|H4].
        -- destruct (Z.leb_spec (cmp (get a L) (get a R)) 0) as [H5|H5].
           ++ rewrite mmswap_ok by (auto; lia). cbn [bind]. do 2 eexists. split; [reflexivity|].
              apply Swap; try lia. intros Ho. ends. split; [apply ordered_flip; [exact Ho|lia]|].
              apply ordered_flip'; [exact Ho|lia].
           ++ rewrite mmrot3_ok by (auto; lia). cbn [bind]. do 2 eexists. split; [reflexivity|]. split.
              ** repeat apply shuffle_exchange; auto using shuffle_refl; lia.
              ** intros Ho. ends. split; lia.
        -- rewrite mmswap_ok by (auto; lia). cbn [bind]. do 2 eexists. split; [reflexivity|].
           apply Swap; try lia. intros Ho. ends. split; [apply ordered_flip; [exact Ho|lia]|lia].
    + destruct (Z.ltb_spec (cmp (get a m) (get a R)) 0) as [H3|H3].
      * do 2 eexists. split; [reflexivity|]. apply Stay. intros Ho. split; [lia|]. apply ordered_flip'; [exact Ho|lia].
      * destruct (Z.ltb_spec 0 (cmp (get a m) (get a R))) as [H4|H4].
        -- rewrite mmswap_ok by (auto; lia). cbn [bind]. do 2 eexists. split; [reflexivity|].
           apply Swap; try lia. intros Ho. ends. split; [apply ordered_flip; [exact Ho|lia]|lia].
        -- do 2 eexists. split; [reflexivity|]. cbn [label_ok]. lia.
Qed.

Lemma all_equal_ok fuel a L l m R :
  elements a -> L < m < R -> R < length a -> L <= l < R -> R - l <= fuel ->
  label_ok a L R m AllEqual -> (forall k, L < k <= l -> cmp (get a k) (get a m) = 0%Z \/ k = m) ->
  exists lab, all_equal cmp g fuel a L l m R = Ok lab /\ lab <> AllEqual /\ label_ok a L R m lab.
Proof.
  revert l; induction fuel as [|fuel IH]; intros l He Hm HR Hl Hf [HL HE] Hk; [lia|]. cbn [all_equal].
  destruct (Nat.eqb_spec (l + 1) R) as [E|E].
  { eexists. split; [reflexivity|]. split; [discriminate|]. split; [apply shuffle_refl|]. intros Ho.
    assert (HA : forall k, L <= k <= R -> (cmp (get a k) (get a m) <= 0)%Z /\ (cmp (get a m) (get a k) <= 0)%Z).
    { intros k Hkr. destruct (Nat.eq_dec k R) as [->|]; [split; [apply ordered_flip; [exact Ho|lia]|lia]|].
      assert (H0 : cmp (get a k) (get a m) = 0%Z).
      { destruct (Nat.eq_dec k L) as [->|]; [exact HL|]. destruct (Hk k) as [H|H]; [lia|exact H|].
        rewrite H. now apply ordered_refl. }
      split; [lia|apply ordered_flip; [exact Ho|lia]]. }
    intros i j Hi Hj. apply (proj2 Ho _ (get a m)); apply HA; lia. }
  assert (Next : cmp (get a (l + 1)) (get a m) = 0%Z \/ l + 1 = m ->
    exists lab, all_equal cmp g fuel a L (l + 1) m R = Ok lab /\ lab <> AllEqual /\ label_ok a L R m lab).
  { intros H. apply IH; auto; [lia..|now split|]. intros k Hkr.
    destruct (Nat.eq_dec k (l + 1)) as [->|]; [exact H|]. apply Hk. lia. }
  destruct (Nat.eqb_spec (l + 1) m) as [Em|Em]; [now apply Next; right|].
  rewrite compare_ok by lia. cbn [bind].
  destruct (Z.ltb_spec 0 (cmp (get a (l + 1)) (get a m))) as [H1|H1].
  { rewrite mmswap_ok by (auto; lia). cbn [bind]. eexists. split; [reflexivity|]. split; [discriminate|].
    apply (label_exchange a L R m (l + 1) R); try lia. intros _. ends. split; lia. }
  destruct (Z.ltb_spec (cmp (get a (l + 1)) (get a m)) 0) as [H2|H2].
  { rewrite mmswap_ok by (auto; lia). cbn [bind]. eexists. split; [reflexivity|]. split; [discriminate|].
    apply (label_exchange a L R m L (l + 1)); try lia. intros Ho. ends. split; [lia|].
    apply ordered_flip'; [exact Ho|lia]. }
  apply Next. left. lia.
Qed.

Lemma split_part a b c L R m l r eq_l eq_r :
  shuffle L R a b -> (ordered -> (cmp (get b L) (get b m) <= 0)%Z /\ (0 <= cmp (get b R) (get b m))%Z) ->
  split_at b L R (get b m) c l r eq_l eq_r -> part_ok a L R (Fin c l r eq_l eq_r).
Proof.
  intros HS Ho [[Hsh _ HB HP HF HLa HL HR] Hm FL FR [SL SR]]. cbn [part_ok]. splits; auto; try lia.
  - now apply (shuffle_trans L R a b).
  - intros Hord. destruct (Ho Hord) as [Ho1 Ho2].
    assert (Left : forall k, L <= k <= l -> (cmp (get c k) (get c (l + 1)) <= 0)%Z).
    { intros k Hk. rewrite HP. destruct (Nat.eq_dec k L) as [->|]; [now rewrite HF|]. apply HL; lia. }
    assert (Right : forall k, r <= k <= R -> (cmp (get c (l + 1)) (get c k) <= 0)%Z).
    { intros k Hk. apply ordered_flip; [exact Hord|]. rewrite HP.
      destruct (Nat.eq_dec k R) as [->|]; [now rewrite HLa|]. apply HR; lia. }
    splits; auto; intros -> i j Hi Hj; apply (proj2 Hord _ (get c (l + 1))); cbn [flag] in *.
    + apply Left. lia.
    + rewrite HP. apply ordered_flip; [exact Hord|]. rewrite FL by lia. lia.
    + rewrite HP. rewrite FR by lia. lia.
    + apply Right. lia.
Qed.

Lemma pass_ok a L R chklim nel :
  elements a -> L < R -> R < length a ->
  exists q chklim', pass cmp g a L R chklim nel = Ok (q, chklim') /\ part_ok a L R q.
Proof.
  intros He HLR HR. unfold pass. destruct (Nat.eqb_spec (L + 1) R) as [E|E].
  { rewrite compare_ok by lia. cbn [bind]. destruct (Z.ltb_spec 0 (cmp (get a L) (get a R))) as [H|H].
    - rewrite mmswap_ok by (auto; lia). cbn [bind]. do 2 eexists. split; [reflexivity|]. split.
      + apply shuffle_exchange; auto using shuffle_refl; lia.
      + intros Ho i j Hi Hj. replace i with L by lia. replace j with R by lia. ends.
        apply ordered_flip; [exact Ho|lia].
    - cbn [bind]. do 2 eexists. split; [reflexivity|]. split; [apply shuffle_refl|].
      intros Ho i j Hi Hj. replace i with L by lia. now replace j with R by lia. }
  destruct (median_ok a L R) as (m & -> & Hm); [lia..|]. cbn [bind].
  destruct (classify_ok a L R m chklim nel) as (lab & c & -> & Hlab); [assumption..|]. cbn [bind].
  assert (HX : exists lab', (match lab with AllEqual => all_equal cmp g (length a) a L L m R | _ => Ok lab end) = Ok lab' /\
    lab' <> AllEqual /\ label_ok a L R m lab').
  { destruct lab; try (eexists; splits; [reflexivity|discriminate|exact Hlab]).
    apply all_equal_ok; auto; lia. }
  destruct HX as (lab' & -> & Hne & Hl'). cbn [bind].
  assert (Start : forall b, shuffle L R a b -> core b L R (get b m) b L R m).
  { intros b Hb. split; auto using shuffle_refl; try lia.
    - now apply (shuffle_elements L R a).
    - rewrite (shuffle_length _ _ _ _ Hb). lia. }
  destruct lab' as [b|b|b|]; cbn [label_ok] in Hl'; [| | |congruence].
  - destruct Hl' as [Hb Ho]. pose proof (shuffle_length _ _ _ _ Hb) as HL.
    destruct (loop_A_ok b L R (get b m) (length b) b L R m true true) as (a' & l' & r' & el & er & -> & HS);
      auto; try lia; try (intros k Hk; lia).
    cbn [bind]. do 2 eexists. split; [reflexivity|]. now apply (split_part a b a' L R m).
  - destruct Hl' as [Hb Ho]. pose proof (shuffle_length _ _ _ _ Hb) as HL.
    destruct (loop_B_ok b L R (get b m) (length b) b L R m true true) as (a' & l' & r' & el & er & -> & HS);
      auto; try lia; try (intros k Hk; lia).
    cbn [bind]. do 2 eexists. split; [reflexivity|]. now apply (split_part a b a' L R m).
  - cbn [bind]. do 2 eexists. split; [reflexivity|exact Hl'].
Qed.

(** ** The stack of regions *)

Definition region := (nat * nat)%type.
Definition inside (i : nat) (r : region) : Prop := fst r <= i <= snd r.
Definition apart (x y : region) : Prop := snd x < fst y \/ snd y < fst x.

(** Elements in order, unless the same region is still to be sorted. *)
Definition sorted_but (a : list chunk) (rs : list region) : Prop :=
  forall i j, i < j < length a ->
    (cmp (get a i) (get a j) <= 0)%Z \/ exists r, In r rs /\ inside i r /\ inside j r.

(** A region at depth [k] has at most [nel / 2 ^ k] elements, since the
    larger part is pushed and the smaller one sorted first. *)
Fixpoint halving (nel : nat) (rs : list region) : Prop :=
  match rs with
  | [] => True
  | (l, r) :: st => (r - l + 1) * 2 ^ length st <= nel /\ halving nel st
  end.

Definition total (rs : list region) : nat := list_sum (map (fun r => snd r - fst r + 1) rs).

Lemma total_cons l r rs : total ((l, r) :: rs) = (r - l + 1) + total rs.
Proof. reflexivity. Qed.

Lemma total_app rs st : total (rs ++ st) = total rs + total st.
Proof. unfold total. now rewrite map_app, list_sum_app. Qed.

Record pending (a : list chunk) (rs : list region) : Prop := mkPending {
  p_valid : Forall (fun r => fst r < snd r < length a) rs;
  p_apart : ForallOrdPairs apart rs;
  p_halving : halving (length a) rs;
  p_sorted : ordered -> sorted_but a rs
}.

Lemma sorted_but_refine a b L R sub st :
  shuffle L R a b -> R < length a -> Forall (apart (L, R)) st ->
  (forall i j, L <= i < j -> j <= R ->
    (cmp (get b i) (get b j) <= 0)%Z \/ exists r, In r sub /\ inside i r /\ inside j r) ->
  sorted_but a ((L, R) :: st) -> sorted_but b (sub ++ st).
Proof.
  intros HS HR HA Hin Ha i j Hij. rewrite (shuffle_length _ _ _ _ HS) in Hij.
  assert (From : forall x, exists x0, get b x = get a x0 /\
    (L <= x <= R /\ L <= x0 <= R \/ ~ L <= x <= R /\ x0 = x)).
  { intros x. destruct (le_lt_dec L x); [destruct (le_lt_dec x R)|].
    - destruct (sh_in _ _ _ _ HS x) as (x0 & H & ->); [lia|]. exists x0. auto.
    - exists x. split; [apply (sh_out _ _ _ _ HS); lia|lia].
    - exists x. split; [apply (sh_out _ _ _ _ HS); lia|lia]. }
  destruct (Nat.le_gt_cases L i) as [H1|H1], (Nat.le_gt_cases j R) as [H2|H2].
  { destruct (Hin i j ltac:(lia) ltac:(lia)) as [H|(r & Hr & H)]; [auto|]. right. exists r. split; [apply in_or_app; auto|exact H]. }
  all: destruct (From i) as (i0 & -> & Hi), (From j) as (j0 & -> & Hj);
    destruct (Ha i0 j0) as [H|(r & [<-|Hr] & [A1 A2] & [B1 B2])]; [lia|auto|cbn [fst snd] in *; lia|];
    rewrite Forall_forall in HA; destruct (HA r Hr) as [HA'|HA']; cbn [fst snd] in HA';
    right; exists r; (split; [apply in_or_app; auto|unfold inside; lia]).
Qed.

(** Replacing the region by parts of it. *)
Lemma pending_refine a b L R sub st :
  pending a ((L, R) :: st) -> shuffle L R a b ->
  Forall (fun r => L <= fst r < snd r /\ snd r <= R) sub -> ForallOrdPairs apart sub ->
  halving (length a) (sub ++ st) ->
  (ordered -> forall i j, L <= i < j -> j <= R ->
    (cmp (get b i) (get b j) <= 0)%Z \/ exists r, In r sub /\ inside i r /\ inside j r) ->
  pending b (sub ++ st).
Proof.
  intros [HV HA HH HO] HS Hsub Hap Hh Hin. rewrite Forall_cons_iff in HV. destruct HV as [HV1 HV2].
  inversion HA as [|? ? HA1 HA2]; subst. cbn [fst snd] in *.
  pose proof (shuffle_length _ _ _ _ HS) as HL. split.
  - apply Forall_app. split; rewrite HL; [|exact HV2]. eapply Forall_impl; [|exact Hsub]. cbn. intros; lia.
  - clear -Hsub Hap HA1 HA2. induction Hap as [|r sub Hr Hap IH]; [exact HA2|]. cbn [app].
    rewrite Forall_cons_iff in Hsub. destruct Hsub as [Hr' Hsub]. constructor; [|auto].
    apply Forall_app. split; [exact Hr|]. eapply Forall_impl; [|exact HA1]. unfold apart; cbn. intros; lia.
  - now rewrite HL.
  - intros Ho. apply (sorted_but_refine a b L R); auto. lia.
Qed.

Definition regions_of (next : option (nat * nat * stack)) : list region :=
  match next with None => [] | Some (L, R, st) => (L, R) :: st end.

Lemma PUSH_ok nel l r n st :
  (Z.of_nat nel < 2 ^ 31)%Z -> n <> 0 -> n * 2 ^ length st <= nel -> PUSH l r st = Ok ((l, r) :: st).
Proof.
  intros Hn H0 H. unfold PUSH, STACK_SIZE. destruct (Nat.ltb_spec (length st) 32) as [|Hs]; auto.
  assert (H2 : 2 ^ 32 <= 2 ^ length st) by (apply Nat.pow_le_mono_r; lia).
  assert (H3 : 2 ^ 32 <= nel) by nia. apply inj_le in H3. rewrite Nat2Z.inj_pow in H3.
  change (Z.of_nat 2 ^ Z.of_nat 32)%Z with 4294967296%Z in H3. lia.
Qed.

Lemma halving_cons nel l r n st : r - l + 1 <= n -> n * 2 ^ length st <= nel -> halving nel st -> halving nel ((l, r) :: st).
Proof. intros Hn H HH. split; [|exact HH]. etransitivity; [|exact H]. apply Nat.mul_le_mono_r, Hn. Qed.

Lemma halving_push nel l r l' r' n st :
  r' - l' + 1 <= n -> 2 * (r - l + 1) <= n -> n * 2 ^ length st <= nel -> halving nel st ->
  halving nel ((l, r) :: (l', r') :: st).
Proof.
  intros Hn' Hn H HH. split; [|now apply (halving_cons nel l' r' n)]. etransitivity; [|exact H].
  cbn [length]. rewrite Nat.pow_succ_r', Nat.mul_assoc. apply Nat.mul_le_mono_r. lia.
Qed.

(** Regions inside the current one. *)
Ltac parts := cbn; repeat (apply Forall_cons; [cbn; lia|]); try apply Forall_nil; try lia.

Lemma next_region_ok a q L R st :
  (Z.of_nat (length a) < 2 ^ 31)%Z -> pending a ((L, R) :: st) -> part_ok a L R q ->
  exists b next, next_region q L R st = Ok (b, next) /\ shuffle L R a b /\ pending b (regions_of next) /\
    total (regions_of next) < total ((L, R) :: st).
Proof.
  intros Hn HP Hq. pose proof (p_valid _ _ HP) as HV. rewrite Forall_cons_iff in HV. destruct HV as [HV _].
  cbn [fst snd] in HV. destruct (p_halving _ _ HP) as [HH HH']. set (nel := length a) in *.
  assert (Sub : forall b sub next, shuffle L R a b ->
    regions_of next = sub ++ st -> Forall (fun r => L <= fst r < snd r /\ snd r <= R) sub -> ForallOrdPairs apart sub ->
    halving nel (sub ++ st) -> total sub < R - L + 1 ->
    (ordered -> forall i j, L <= i < j -> j <= R ->
      (cmp (get b i) (get b j) <= 0)%Z \/ exists r, In r sub /\ inside i r /\ inside j r) ->
    exists b' next', Ok (b, next) = Ok (b', next') /\ shuffle L R a b' /\ pending b' (regions_of next') /\
      total (regions_of next') < total ((L, R) :: st)).
  { intros b sub next HS HE Hsub Hap Hh Ht Hin. exists b, next. rewrite HE. splits; auto.
    - apply (pending_refine a b L R sub st); auto.
    - rewrite total_app, total_cons. lia. }
  assert (Done : forall b, shuffle L R a b -> (ordered -> sorted_on b L R) ->
    exists b' next', match st with [] => Ok (b, None) | (L0, R0) :: st0 => Ok (b, Some (L0, R0, st0)) end = Ok (b', next') /\
      shuffle L R a b' /\ pending b' (regions_of next') /\ total (regions_of next') < total ((L, R) :: st)).
  { intros b HS Ho. replace (match st with [] => _ | _ => _ end) with
      (@Ok (list chunk * option (nat * nat * stack)) (b, match st with [] => None | (L0, R0) :: st0 => Some (L0, R0, st0) end))
      by now destruct st as [|[]].
    apply (Sub b []); [exact HS|now destruct st as [|[]]|constructor|constructor|exact HH'|cbn; lia|].
    - intros Hord i j Hi Hj. left. apply Ho; auto. }
  destruct q as [b|b l r eq_l eq_r]; cbn [next_region part_ok] in *.
  { destruct Hq as [HS Ho]. now apply Done. }
  destruct Hq as (HS & Hlr & Hl & Hr & HeL & HeR & Ho).
  assert (Ord : forall sub, (eq_l = false -> In (L, l) sub) -> (eq_r = false -> In (r, R) sub) -> ordered ->
    forall i j, L <= i < j -> j <= R ->
    (cmp (get b i) (get b j) <= 0)%Z \/ exists x, In x sub /\ inside i x /\ inside j x).
  { intros sub H1 H2 Hord i j Hi Hj. destruct (Ho Hord) as (Ho1 & Ho2 & Ho3 & Ho4).
    destruct (le_lt_dec j l).
    { destruct eq_l; [left; apply Ho3; auto; lia|right; exists (L, l); unfold inside; cbn; split; [auto|lia]]. }
    destruct (le_lt_dec r i).
    { destruct eq_r; [left; apply Ho4; auto; lia|right; exists (r, R); unfold inside; cbn; split; [auto|lia]]. }
    left. destruct (le_lt_dec i l); [|replace i with (l + 1) by lia; apply Ho2; lia].
    destruct (Nat.eq_dec j (l + 1)) as [->|]; [apply Ho1; lia|].
    apply (proj2 Hord _ (get b (l + 1))); [apply Ho1; lia|apply Ho2; lia]. }
  destruct eq_l, eq_r; cbn [negb].
  - apply Done; auto. intros Hord i j Hi Hj. destruct (Ord [] ltac:(discriminate) ltac:(discriminate) Hord i j) as [H|(x & [] & _)]; auto.
  - apply (Sub b [(r, R)]); [exact HS|reflexivity|parts|repeat (apply FOP_cons; [parts|]); apply FOP_nil
      |apply (halving_cons nel r R (R - L + 1)); auto; lia|rewrite total_cons; cbn; lia|]. apply (Ord [(r, R)]); cbn; auto. discriminate.
  - apply (Sub b [(L, l)]); [exact HS|reflexivity|parts|repeat (apply FOP_cons; [parts|]); apply FOP_nil
      |apply (halving_cons nel L l (R - L + 1)); auto; lia|rewrite total_cons; cbn; lia|]. apply (Ord [(L, l)]); cbn; auto. discriminate.
  - specialize (HeL eq_refl). specialize (HeR eq_refl).
    destruct (Nat.ltb_spec (l - L) (R - r)) as [Hc|Hc];
      rewrite (PUSH_ok nel _ _ (R - L + 1)) by (auto; lia); cbn [bind].
    + apply (Sub b [(L, l); (r, R)]); [exact HS|reflexivity|parts
        |unfold apart; repeat (apply FOP_cons; [parts|]); apply FOP_nil|apply (halving_push nel _ _ _ _ (R - L + 1)); auto; lia|rewrite !total_cons; cbn; lia|].
      apply (Ord [(L, l); (r, R)]); cbn; auto.
    + apply (Sub b [(r, R); (L, l)]); [exact HS|reflexivity|parts
        |unfold apart; repeat (apply FOP_cons; [parts|]); apply FOP_nil|apply (halving_push nel _ _ _ _ (R - L + 1)); auto; lia|rewrite !total_cons; cbn; lia|].
      apply (Ord [(r, R); (L, l)]); cbn; auto.
Qed.

Lemma sort_loop_ok fuel a L R chklim st :
  (Z.of_nat (length a) < 2 ^ 31)%Z -> elements a -> pending a ((L, R) :: st) -> total ((L, R) :: st) <= fuel ->
  exists b, sort_loop cmp g fuel a L R chklim st = Ok b /\ Permutation a b /\
    (ordered -> sorted_on b 0 (length b - 1)).
Proof.
  revert a L R chklim st; induction fuel as [|fuel IH]; intros a L R chklim st Hn He HP Hf.
  { rewrite total_cons in Hf. lia. }
  pose proof (p_valid _ _ HP) as HV. rewrite Forall_cons_iff in HV. destruct HV as [HV _]. cbn [fst snd] in HV.
  cbn [sort_loop]. destruct (pass_ok a L R chklim (length a)) as (q & c & -> & Hq); [exact He|lia..|]. cbn [bind].
  destruct (next_region_ok a q L R st Hn HP Hq) as (b & next & -> & HS & HP' & Ht). cbn [bind].
  pose proof (sh_perm _ _ _ _ HS) as Hperm. destruct next as [[[L' R'] st']|].
  - cbn [regions_of] in *. rewrite <- (shuffle_length _ _ _ _ HS) in Hn.
    destruct (IH b L' R' c st' Hn (shuffle_elements _ _ _ _ HS He) HP') as (b' & E & Hb & Ho); [lia|].
    exists b'. splits; auto. now transitivity b.
  - exists b. splits; auto. intros Ho i j Hi Hj.
    destruct (p_sorted _ _ HP' Ho i j) as [H|(r & [] & _)]; [lia|exact H].
Qed.

Lemma ruby_qsort_ok base :
  (Z.of_nat (length base) < 2 ^ 31)%Z -> elements base ->
  exists b, ruby_qsort aligned base size cmp = Ok b /\ Permutation base b /\
    (ordered -> sorted_on b 0 (length b - 1)).
Proof.
  intros Hn He. unfold ruby_qsort. destruct (Nat.leb_spec (length base) 1) as [H1|H1].
  { exists base. splits; auto. intros _ i j Hi Hj. lia. }
  apply sort_loop_ok; auto; [|cbn; lia]. split; cbn.
  - repeat constructor; cbn; lia.
  - repeat constructor.
  - split; [nia|exact I].
  - intros _ i j Hij. right. exists (0, length base - 1). unfold inside; cbn. split; [auto|lia].
Qed.
End Sorting.

(** ** Properties *)

(** C12: [ruby_qsort] never leaves the array or its stack of 32 regions and
    comes to an end with a permutation of the elements, for every comparison
    that is a function of the two elements, however inconsistent its answers
    are with each other (not transitive, not antisymmetric), and for elements of
    whole words or at an odd base. *)
Theorem qsort_permutes cmp aligned base size :
  size <> 0 -> aligned = false \/ size mod 4 = 0 -> Forall (fun x => length x = size) base ->
  (Z.of_nat (length base) < 2 ^ 31)%Z ->
  exists sorted, ruby_qsort aligned base size cmp = Ok sorted /\ Permutation base sorted.
Proof.
  intros H0 Hw He Hn. destruct (ruby_qsort_ok cmp aligned size H0 Hw base Hn He) as (b & E & HP & _). eauto.
Qed.

(** A comparison that always answers "less". *)
Lemma qsort_permutes_witness :
  exists sorted, ruby_qsort true [[1; 2; 3; 4]; [5; 6; 7; 8]; [9; 9; 9; 9]]%Z 4 (fun _ _ => (-1)%Z) = Ok sorted /\
    Permutation [[1; 2; 3; 4]; [5; 6; 7; 8]; [9; 9; 9; 9]]%Z sorted.
Proof. apply qsort_permutes; [discriminate|now right|repeat constructor|reflexivity]. Defined.

(** C11: [ruby_qsort] sorts: with a comparison function that is a total preorder
    every element of the result compares as not greater than each one behind it.
    This covers the three splitting cases, the shortcuts for regions that are
    ascending or descending already and the flags that skip parts whose elements
    are all equal. *)
Theorem qsort_sorts cmp aligned base size :
  size <> 0 -> aligned = false \/ size mod 4 = 0 -> Forall (fun x => length x = size) base ->
  (Z.of_nat (length base) < 2 ^ 31)%Z -> ordered cmp ->
  exists sorted, ruby_qsort aligned base size cmp = Ok sorted /\ Permutation base sorted /\
    forall i j, i < j < length sorted -> (cmp (get sorted i) (get sorted j) <= 0)%Z.
Proof.
  intros H0 Hw He Hn Ho. destruct (ruby_qsort_ok cmp aligned size H0 Hw base Hn He) as (b & E & HP & HS).
  exists b. splits; auto. intros i j Hij. apply (HS Ho); lia.
Qed.

Lemma qsort_sorts_witness :
  exists sorted, ruby_qsort true (map (fun i => [i * 37 mod 101; 0; 0; 0]%Z) (map Z.of_nat (seq 0 100))) 4
      (fun x y => (hd 0 x - hd 0 y)%Z) = Ok sorted /\
    Permutation (map (fun i => [i * 37 mod 101; 0; 0; 0]%Z) (map Z.of_nat (seq 0 100))) sorted /\
    forall i j, i < j < length sorted -> (hd 0 (get sorted i) - hd 0 (get sorted j) <= 0)%Z.
Proof.
  apply (qsort_sorts (fun x y => (hd 0 x - hd 0 y)%Z)); [discriminate|now right|repeat constructor|reflexivity|].
  split; intros; lia.
Defined.

(** what the exchange of two elements moves: for an aligned base only the
    whole words, so that elements whose size is not a multiple of 4 are torn
    apart (their last bytes stay behind); everything otherwise. *)
Theorem mmswap_cases aligned size x y :
  size <> 0 -> length x = size -> length y = size ->
  mmswap_ (mmprepare aligned size) x y =
    if aligned then (firstn (size / 4 * 4) y ++ skipn (size / 4 * 4) x, firstn (size / 4 * 4) x ++ skipn (size / 4 * 4) y)
    else (y, x).
Proof.
  intros H0 Hx Hy. destruct aligned; [now apply mmswap_bytes|]. apply mmswap_exchange; auto.
Qed.

Lemma mmswap_cases_witness :
  mmswap_ (mmprepare true 6) [1; 2; 3; 4; 5; 6]%Z [11; 12; 13; 14; 15; 16]%Z =
    ([11; 12; 13; 14; 5; 6]%Z, [1; 2; 3; 4; 15; 16]%Z).
Proof. now apply (mmswap_cases true 6 [1; 2; 3; 4; 5; 6]%Z [11; 12; 13; 14; 15; 16]%Z). Defined.
