(* ===== verification/StTable.v ===== *)
(** * The hash table of the interpreter

    src/ruby/st.c: chained hashing with prime bin counts.  An entry carries
    the address it was allocated at; a bin is the chain of its entries, so a
    [next] pointer is the rest of the chain.  Tables hold [st_data_t] words;
    [type->compare] and [type->hash] are the functions of a [st_hash_type]. *)

From Stdlib Require Import ZArith Lia List Bool Permutation RelationClasses Morphisms Setoid.
From S2P Require Import Prelude CInt.
Import ListNotations.
Local Open Scope Z_scope.
Local Open Scope outcome_scope.

(** ** Data *)

Class st_hash_type := { compare : Z -> Z -> Z; hash : Z -> Z }.

Record st_table_entry := mkEntry { e_addr : Z; e_hash : Z; e_key : Z; e_record : Z }.

(** [brk] is the address of the next allocation. *)
Record st_table := mkTable {
  num_bins : Z;
  num_entries : Z;
  bins : list (list st_table_entry);
  brk : Z
}.

Definition ST_DEFAULT_MAX_DENSITY : Z := 5.
Definition MINSIZE : Z := 8.

Definition primes : list Z :=
  [8 + 3; 16 + 3; 32 + 5; 64 + 3; 128 + 3; 256 + 27; 512 + 9; 1024 + 9; 2048 + 5; 4096 + 3;
   8192 + 27; 16384 + 43; 32768 + 3; 65536 + 45; 131072 + 29; 262144 + 3; 524288 + 21;
   1048576 + 7; 2097152 + 17; 4194304 + 15; 8388608 + 9; 16777216 + 43; 33554432 + 35;
   67108864 + 15; 134217728 + 29; 268435456 + 3; 536870912 + 11; 1073741824 + 85; 0].

(** [for (i = 0, newsize = MINSIZE; i < n; i++, newsize <<= 1)] on an [int]. *)
Fixpoint new_size_loop (ps : list Z) (newsize size : Z) : Z :=
  match ps with
  | [] => -1
  | p :: ps => if size <? newsize then p else new_size_loop ps (s32 (Z.shiftl newsize 1)) size
  end.

Definition new_size (size : Z) : Z := new_size_loop primes MINSIZE size.

(** [Calloc(n, 4)]: gc.c multiplies in a [long] and
    raises on a negative product; the block has as many bins as bytes were
    asked for. *)
Definition Calloc (n : Z) : outcome (list (list st_table_entry)) :=
  let bytes := s32 (n * 4) in
  if bytes <? 0 then Raise NoMemoryError else Ok (repeat [] (Z.to_nat (bytes / 4))).

(** ** Operations *)

Section Table.
Context {T : st_hash_type}.

Definition EQUAL (x y : Z) : bool := (x =? y) || (compare x y =? 0).
Definition do_hash (key : Z) : Z := u32 (hash key).

Definition st_init_table_with_size (size : Z) : outcome st_table :=
  let size := new_size size in
  bs <- Calloc size ;;
  Ok (mkTable size 0 bs 1).

Definition st_init_table : outcome st_table := st_init_table_with_size 0.

Definition bin_pos (t : st_table) (h : Z) : nat := Z.to_nat (h mod num_bins t).
Definition bin (t : st_table) (i : nat) : list st_table_entry := nth i (bins t) [].

(** [!PTR_NOT_EQUAL] on an entry. *)
Definition matches (h key : Z) (e : st_table_entry) : bool := (e_hash e =? h) && EQUAL key (e_key e).

(** [FIND_ENTRY] *)
Definition find_entry (t : st_table) (h key : Z) : option st_table_entry :=
  find (matches h key) (bin t (bin_pos t h)).

Definition st_lookup (t : st_table) (key : Z) : option Z :=
  option_map e_record (find_entry t (do_hash key) key).

(** Moves an entry to the front of its new bin. *)
Definition push (n : Z) (nb : list (list st_table_entry)) (e : st_table_entry) : list (list st_table_entry) :=
  let i := Z.to_nat (e_hash e mod n) in list_set nb i (e :: nth i nb []).

Definition rehash (t : st_table) : outcome st_table :=
  let n := new_size (num_bins t + 1) in
  nb <- Calloc n ;;
  Ok (mkTable n (num_entries t) (fold_left (push n) (concat (bins t)) nb) (brk t)).

Definition add_direct (t : st_table) (key value h : Z) : outcome st_table :=
  t <- (if ST_DEFAULT_MAX_DENSITY <? cdiv (num_entries t) (num_bins t) then rehash t else Ok t) ;;
  let i := bin_pos t h in
  let entry := mkEntry (brk t) h key value in
  Ok (mkTable (num_bins t) (num_entries t + 1) (list_set (bins t) i (entry :: bin t i)) (brk t + 1)).

(** [ptr->record = value] on the first entry that matches. *)
Fixpoint update_first (p : st_table_entry -> bool) (f : st_table_entry -> st_table_entry)
    (l : list st_table_entry) : list st_table_entry :=
  match l with
  | [] => []
  | e :: l => if p e then f e :: l else e :: update_first p f l
  end.

Fixpoint remove_first (p : st_table_entry -> bool) (l : list st_table_entry) : list st_table_entry :=
  match l with
  | [] => []
  | e :: l => if p e then l else e :: remove_first p l
  end.

Definition set_bin (t : st_table) (i : nat) (l : list st_table_entry) : st_table :=
  mkTable (num_bins t) (num_entries t) (list_set (bins t) i l) (brk t).

Definition add_entries (t : st_table) (n : Z) : st_table :=
  mkTable (num_bins t) (num_entries t + n) (bins t) (brk t).

Definition set_record (v : Z) (e : st_table_entry) : st_table_entry :=
  mkEntry (e_addr e) (e_hash e) (e_key e) v.

(** The result is whether the key was there. *)
Definition st_insert (t : st_table) (key value : Z) : outcome (bool * st_table) :=
  let h := do_hash key in
  match find_entry t h key with
  | None => t <- add_direct t key value h ;; Ok (false, t)
  | Some _ =>
      let i := bin_pos t h in
      Ok (true, set_bin t i (update_first (matches h key) (set_record value) (bin t i)))
  end.

Definition st_add_direct (t : st_table) (key value : Z) : outcome st_table :=
  add_direct t key value (do_hash key).

(** [*entry = *ptr] one by one, each put in front of the new chain. *)
Fixpoint copy_chain (l acc : list st_table_entry) (b : Z) : list st_table_entry * Z :=
  match l with
  | [] => (acc, b)
  | e :: l => copy_chain l (mkEntry b (e_hash e) (e_key e) (e_record e) :: acc) (b + 1)
  end.

Fixpoint copy_bins (bs : list (list st_table_entry)) (b : Z) : list (list st_table_entry) * Z :=
  match bs with
  | [] => ([], b)
  | l :: bs =>
      let '(l, b) := copy_chain l [] b in
      let '(bs, b) := copy_bins bs b in
      (l :: bs, b)
  end.

Definition st_copy (t : st_table) : st_table :=
  let '(bs, b) := copy_bins (bins t) (brk t) in
  mkTable (num_bins t) (num_entries t) bs b.

(** The stored key and the record of the removed entry. *)
(** The first entry is tested before the loop over [ptr->next], with the
    arguments of the comparison in the other order. *)
Fixpoint delete_next (key : Z) (l : list st_table_entry) : option (st_table_entry * list st_table_entry) :=
  match l with
  | [] => None
  | e :: l =>
      if EQUAL (e_key e) key then Some (e, l)
      else option_map (fun '(d, l) => (d, e :: l)) (delete_next key l)
  end.

Definition delete_chain (key : Z) (l : list st_table_entry) : option (st_table_entry * list st_table_entry) :=
  match l with
  | [] => None
  | e :: l =>
      if EQUAL key (e_key e) then Some (e, l)
      else option_map (fun '(d, l) => (d, e :: l)) (delete_next key l)
  end.

Definition st_delete (t : st_table) (key : Z) : option (Z * Z) * st_table :=
  let i := bin_pos t (do_hash key) in
  match delete_chain key (bin t i) with
  | None => (None, t)
  | Some (e, l) => (Some (e_key e, e_record e), add_entries (set_bin t i l) (-1))
  end.

Definition bury (never : Z) (e : st_table_entry) : st_table_entry :=
  mkEntry (e_addr e) (e_hash e) never never.

(** A deleted entry stays in its chain with key and record [never]. *)
Definition st_delete_safe (t : st_table) (key never : Z) : option (Z * Z) * st_table :=
  let i := bin_pos t (do_hash key) in
  let p := fun e => negb (e_key e =? never) && EQUAL (e_key e) key in
  match find p (bin t i) with
  | None => (None, t)
  | Some e =>
      (Some (e_key e, e_record e),
       add_entries (set_bin t i (update_first p (bury never) (bin t i))) (-1))
  end.

(** ** Iteration

    [st_foreach] as a transition system.  [FE_bin i] is the head of the
    outer loop, [FE_at i last ptr] the head of the inner one; [last] and
    [ptr] are addresses, [None] a null pointer.  The callback may change
    the table: [ptr->next] is read from the table it leaves. *)

Inductive st_retval := ST_CONTINUE | ST_STOP | ST_DELETE | ST_CHECK.

Inductive fe_state (St : Type) :=
  | FE_bin (i : Z) (s : St) (t : st_table)
  | FE_at (i : Z) (last ptr : option Z) (s : St) (t : st_table)
  | FE_done (s : St) (t : st_table).
Arguments FE_bin {St}.
Arguments FE_at {St}.
Arguments FE_done {St}.

(** The chain behind the entry at address [a]. *)
Fixpoint after (a : Z) (l : list st_table_entry) : option (list st_table_entry) :=
  match l with
  | [] => None
  | e :: l => if e_addr e =? a then Some l else after a l
  end.

Fixpoint after_bins (a : Z) (bs : list (list st_table_entry)) : option (list st_table_entry) :=
  match bs with
  | [] => None
  | l :: bs => match after a l with Some r => Some r | None => after_bins a bs end
  end.

Definition deref (t : st_table) (a : Z) : option st_table_entry :=
  find (fun e => e_addr e =? a) (concat (bins t)).

Definition head_addr (l : list st_table_entry) : option Z :=
  match l with [] => None | e :: _ => Some (e_addr e) end.

Definition in_chain (a : Z) (l : list st_table_entry) : bool := existsb (fun e => e_addr e =? a) l.

(** [last->next = ptr->next] within a chain. *)
Fixpoint unlink_after (l0 : Z) (rest : list st_table_entry) (l : list st_table_entry) : list st_table_entry :=
  match l with
  | [] => []
  | e :: l => if e_addr e =? l0 then e :: rest else e :: unlink_after l0 rest l
  end.

Section Foreach.
Context {St : Type}.

(** [None] is the call with the error notice. *)
Context (func : option (Z * Z) -> St -> st_table -> outcome (st_retval * St * st_table)).

Definition fe_continue (i a : Z) (s : St) (t : st_table) : outcome (fe_state St) :=
  match after_bins a (bins t) with
  | None => Undefined
  | Some rest => Ok (FE_at i (Some a) (head_addr rest) s t)
  end.

(** The chains [last] and [ptr] are in must be bin [i]: otherwise two
    chains would share a tail, or freed memory is written. *)
Definition fe_delete (i : Z) (last : option Z) (a : Z) (s : St) (t : st_table) : outcome (fe_state St) :=
  let chain := bin t (Z.to_nat i) in
  match after a chain with
  | None => Undefined
  | Some rest =>
      match last with
      | None => Ok (FE_at i last (head_addr rest) s (add_entries (set_bin t (Z.to_nat i) rest) (-1)))
      | Some l0 =>
          if in_chain l0 chain && negb (in_chain l0 rest) && negb (l0 =? a) then
            Ok (FE_at i last (head_addr rest) s
                  (add_entries (set_bin t (Z.to_nat i) (unlink_after l0 rest chain)) (-1)))
          else Undefined
      end
  end.

Definition fe_step (c : fe_state St) : outcome (fe_state St) :=
  match c with
  | FE_done _ _ => Ok c
  | FE_bin i s t =>
      if i <? num_bins t then Ok (FE_at i None (head_addr (bin t (Z.to_nat i))) s t) else Ok (FE_done s t)
  | FE_at i last None s t => Ok (FE_bin (i + 1) s t)
  | FE_at i last (Some a) s t =>
      match deref t a with
      | None => Undefined
      | Some e =>
          '(retval, s, t) <- func (Some (e_key e, e_record e)) s t ;;
          match retval with
          | ST_CHECK =>
              if (i <? num_bins t) && in_chain a (bin t (Z.to_nat i)) then fe_continue i a s t
              else '(_, s, t) <- func None s t ;; Ok (FE_done s t)
          | ST_CONTINUE => fe_continue i a s t
          | ST_STOP => Ok (FE_done s t)
          | ST_DELETE => fe_delete i last a s t
          end
      end
  end.

Fixpoint fe_run (n : nat) (c : fe_state St) : outcome (fe_state St) :=
  match n with
  | O => Ok c
  | S n => c <- fe_step c ;; fe_run n c
  end.

(** One step per entry, and two per bin: enough for a callback that inserts
    nothing. *)
Definition fe_fuel (t : st_table) : nat := (length (concat (bins t)) + 2 * length (bins t) + 1)%nat.

(** [None]: the loop is still running after [fuel] steps (a callback that
    keeps inserting can keep it running for ever). *)
Definition st_foreach (fuel : nat) (t : st_table) (s : St) : outcome (option (St * st_table)) :=
  c <- fe_run fuel (FE_bin 0 s t) ;;
  match c with
  | FE_done s t => Ok (Some (s, t))
  | _ => Ok None
  end.
End Foreach.

Definition delete_never (never : Z) (arg : option (Z * Z)) (s : unit) (t : st_table) :
    outcome (st_retval * unit * st_table) :=
  match arg with
  | Some (_, value) => Ok (if value =? never then ST_DELETE else ST_CONTINUE, s, t)
  | None => Ok (ST_CONTINUE, s, t)
  end.

(** The callback inserts nothing; [None] does not occur ([st_safe_deletion]). *)
Definition st_cleanup_safe (t : st_table) (never : Z) : outcome (option st_table) :=
  r <- st_foreach (delete_never never) (fe_fuel t) t tt ;;
  Ok (option_map (fun '(_, t') => mkTable (num_bins t') (num_entries t) (bins t') (brk t')) r).
End Table.

Arguments FE_bin {St}.
Arguments FE_at {St}.
Arguments FE_done {St}.

(** ** The two hash types of the file *)

Definition numcmp (x y : Z) : Z := if s32 x =? s32 y then 0 else 1.
Definition numhash (n : Z) : Z := s32 n.

#[export] Instance type_numhash : st_hash_type := {| compare := numcmp; hash := numhash |}.

(** A string key is a pointer; [mem] gives the bytes it points to. *)
Section Strings.
Context (mem : Z -> list Z).

(** A [char] is signed. *)
Definition strhash_loop (s : list Z) : Z := fold_left (fun val c => s32 (val * 997 + s8 c)) s 0.

Definition strhash (p : Z) : Z :=
  let val := strhash_loop (mem p) in s32 (val + Z.shiftr val 5).

Fixpoint strcmp_bytes (s1 s2 : list Z) : Z :=
  match s1, s2 with
  | [], [] => 0
  | [], _ :: _ => -1
  | _ :: _, [] => 1
  | a :: s1, b :: s2 => if a =? b then strcmp_bytes s1 s2 else if a <? b then -1 else 1
  end.

Definition strcmp (p q : Z) : Z := strcmp_bytes (mem p) (mem q).

Definition type_strhash : st_hash_type := {| compare := strcmp; hash := strhash |}.
End Strings.

(** ** Lists of entries *)

Definition addrs (l : list st_table_entry) : list Z := map e_addr l.

Lemma find_app {A} (p : A -> bool) l m :
  find p (l ++ m) = match find p l with Some x => Some x | None => find p m end.
Proof. induction l as [|x l IH]; cbn [app find]; auto. now destruct (p x). Qed.

Lemma find_none_iff {A} (p : A -> bool) l : find p l = None <-> forall x, In x l -> p x = false.
Proof.
  split; [apply find_none|]. induction l as [|x l IH]; intros H; cbn [find]; auto.
  rewrite (H x) by now left. apply IH. intros y Hy. apply H. now right.
Qed.

Lemma find_ext_in {A} (p q : A -> bool) l : (forall x, In x l -> p x = q x) -> find p l = find q l.
Proof.
  induction l as [|x l IH]; intros H; cbn [find]; auto. rewrite (H x) by now left.
  destruct (q x); auto. apply IH. intros y Hy. apply H. now right.
Qed.

(** When at most one element satisfies [p], [find] does not depend on the
    order. *)
Lemma find_unique {A} (p : A -> bool) l x :
  In x l -> p x = true -> (forall y, In y l -> p y = true -> y = x) -> find p l = Some x.
Proof.
  intros Hx Hp HU. destruct (find p l) as [y|] eqn:E.
  - apply find_some in E as [Hy Hpy]. f_equal. now apply HU.
  - rewrite (find_none _ _ E x Hx) in Hp. discriminate.
Qed.

Lemma find_permutation {A} (p : A -> bool) l m :
  (forall x y, In x l -> In y l -> p x = true -> p y = true -> x = y) ->
  Permutation l m -> find p l = find p m.
Proof.
  intros HU HP. destruct (find p l) as [x|] eqn:E.
  - apply find_some in E as [Hx Hp]. symmetry. apply find_unique; auto.
    + now apply Permutation_in with l.
    + intros y Hy Hpy. apply HU; auto. apply Permutation_in with m; auto. now symmetry.
  - symmetry. apply find_none_iff. intros y Hy. apply (find_none _ _ E).
    apply Permutation_in with m; auto. now symmetry.
Qed.

Lemma filter_length_permutation {A} (p : A -> bool) l m :
  Permutation l m -> length (filter p l) = length (filter p m).
Proof.
  induction 1; cbn [filter]; auto; try congruence.
  - destruct (p x); cbn; auto.
  - now destruct (p x), (p y).
Qed.

Lemma NoDup_map_filter {A B} (f : A -> B) p l : NoDup (map f l) -> NoDup (map f (filter p l)).
Proof.
  induction l as [|x l IH]; cbn [map filter]; auto. intros H; inversion H as [|? ? Hx HN]; subst.
  destruct (p x); cbn [map]; auto. constructor; auto. intros Hin. apply Hx.
  apply in_map_iff in Hin as (y & <- & Hy). apply in_map. now apply filter_In in Hy.
Qed.

Lemma filter_twice {A} (p : A -> bool) l : filter p (filter p l) = filter p l.
Proof.
  induction l as [|x l IH]; cbn [filter]; auto. destruct (p x) eqn:E; cbn [filter]; auto.
  now rewrite E, IH.
Qed.

Lemma split_nth {A} (d : A) l i :
  (i < length l)%nat -> l = firstn i l ++ nth i l d :: skipn (S i) l.
Proof.
  intros H. rewrite <- (list_set_app l i (nth i l d) H).
  apply nth_ext with d d; [now rewrite list_set_length|].
  intros j Hj. rewrite list_set_nth by auto. destruct (Nat.eqb_spec j i); congruence.
Qed.

Lemma concat_split {A} (bs : list (list A)) i :
  (i < length bs)%nat -> concat bs = concat (firstn i bs) ++ nth i bs [] ++ concat (skipn (S i) bs).
Proof.
  intros H. rewrite (split_nth [] bs i H) at 1. rewrite concat_app. cbn [concat]. reflexivity.
Qed.

Lemma concat_list_set {A} (bs : list (list A)) i l :
  (i < length bs)%nat -> concat (list_set bs i l) = concat (firstn i bs) ++ l ++ concat (skipn (S i) bs).
Proof. intros H. rewrite list_set_app, concat_app by auto. reflexivity. Qed.

Lemma in_concat_nth {A} (x : A) bs : In x (concat bs) <-> exists i, (i < length bs)%nat /\ In x (nth i bs []).
Proof.
  rewrite in_concat. split.
  - intros (l & Hl & Hx). destruct (In_nth _ _ [] Hl) as (i & Hi & <-). eauto.
  - intros (i & Hi & Hx). exists (nth i bs []). split; auto. now apply nth_In.
Qed.

Lemma concat_repeat_nil {A} n : concat (repeat (@nil A) n) = [].
Proof. induction n; auto. Qed.

Lemma nth_repeat_nil {A} i n : nth i (repeat (@nil A) n) [] = [].
Proof. revert n; induction i as [|i IH]; intros [|n]; cbn; auto. Qed.

(** ** Key equality *)

(** What the callers of the package guarantee of a hash type. *)
Class HashLaws (T : st_hash_type) : Prop := {
  compare_sym : forall x y, compare x y = 0 -> compare y x = 0;
  compare_trans : forall x y z, compare x y = 0 -> compare y z = 0 -> compare x z = 0;
  compare_hash : forall x y, compare x y = 0 -> u32 (hash x) = u32 (hash y)
}.

Definition same_key {T : st_hash_type} (x y : Z) : Prop := EQUAL x y = true.

#[export] Instance same_key_equivalence {T} {L : HashLaws T} : Equivalence same_key.
Proof.
  unfold same_key, EQUAL. split.
  - intros x. now rewrite Z.eqb_refl.
  - intros x y. rewrite !orb_true_iff, !Z.eqb_eq. intros [->|H]; auto using compare_sym.
  - intros x y z. rewrite !orb_true_iff, !Z.eqb_eq. intros [->|H] [->|H']; auto.
    right. now apply compare_trans with y.
Qed.

#[export] Instance do_hash_proper {T} {L : HashLaws T} : Proper (same_key ==> eq) do_hash.
Proof.
  intros x y. unfold same_key, EQUAL, do_hash. rewrite orb_true_iff, !Z.eqb_eq.
  intros [->|H]; auto. now apply compare_hash.
Qed.

#[export] Instance EQUAL_proper {T} {L : HashLaws T} : Proper (same_key ==> same_key ==> eq) EQUAL.
Proof.
  intros x x' Hx y y' Hy. apply eq_true_iff_eq. change (same_key x y <-> same_key x' y'). now rewrite Hx, Hy.
Qed.

Lemma EQUAL_refl {T : st_hash_type} x : EQUAL x x = true.
Proof. unfold EQUAL. now rewrite Z.eqb_refl. Qed.

Lemma EQUAL_sym {T} {L : HashLaws T} x y : EQUAL x y = EQUAL y x.
Proof. apply eq_true_iff_eq. change (same_key x y <-> same_key y x). split; intros; now symmetry. Qed.

#[export] Instance numhash_laws : HashLaws type_numhash.
Proof.
  split; cbn; unfold numcmp, numhash; intros.
  - destruct (s32 x =? s32 y) eqn:E; [|discriminate]. rewrite Z.eqb_sym in E. now rewrite E.
  - destruct (s32 x =? s32 y) eqn:E; [|discriminate]. destruct (s32 y =? s32 z) eqn:E'; [|discriminate].
    breflect. rewrite E, E', Z.eqb_refl. reflexivity.
  - destruct (s32 x =? s32 y) eqn:E; [|discriminate]. breflect. now rewrite E.
Qed.

Lemma strcmp_bytes_eq s1 s2 : strcmp_bytes s1 s2 = 0 <-> s1 = s2.
Proof.
  revert s2; induction s1 as [|a s1 IH]; intros [|b s2]; cbn [strcmp_bytes]; try (split; congruence).
  destruct (Z.eqb_spec a b) as [->|HN].
  - rewrite IH. split; congruence.
  - destruct (a <? b); split; congruence.
Qed.

#[export] Instance strhash_laws mem : HashLaws (type_strhash mem).
Proof.
  split; cbn; unfold strcmp, strhash; intros *; rewrite ?strcmp_bytes_eq; congruence.
Qed.

(** ** The invariant *)

Section Invariant.
Context {T : st_hash_type} {L : HashLaws T}.

(** The key of entries [st_delete_safe] has buried, when it is in use; it is
    equal to no other key. *)
Context (never : option Z).
Context (never_alone : forall n k, never = Some n -> EQUAL n k = true -> k = n).

Definition valid_key (k : Z) : Prop := never <> Some k.
Definition live (e : st_table_entry) : bool :=
  match never with Some n => negb (e_key e =? n) | None => true end.

Definition all (t : st_table) : list st_table_entry := concat (bins t).

(** Two live entries with equal keys are the same entry. *)
Definition distinct (l : list st_table_entry) : Prop :=
  forall e f, In e l -> In f l -> live e = true -> live f = true -> EQUAL (e_key e) (e_key f) = true -> e = f.

Record wf (t : st_table) : Prop := mkWf {
  wf_bins : 0 < num_bins t /\ length (bins t) = Z.to_nat (num_bins t);
  wf_placed : forall i e, In e (bin t i) -> bin_pos t (e_hash e) = i;
  wf_hash : forall e, In e (all t) -> live e = true -> e_hash e = do_hash (e_key e);
  wf_distinct : distinct (all t);
  wf_addrs : NoDup (addrs (all t)) /\ Forall (fun a => a < brk t) (addrs (all t));
  wf_count : num_entries t = Z.of_nat (length (filter live (all t)))
}.

Lemma live_valid e : live e = true <-> valid_key (e_key e).
Proof.
  unfold live, valid_key. destruct never as [n|]; [|split; [discriminate|auto]].
  rewrite negb_true_iff, Z.eqb_neq. split; congruence.
Qed.

(** A key equal to a valid key is valid. *)
Lemma valid_equal k k' : valid_key k -> EQUAL k k' = true -> valid_key k'.
Proof.
  unfold valid_key. intros Hk HE HN. destruct never as [n|] eqn:En; [|discriminate].
  injection HN as ->. rewrite EQUAL_sym in HE. apply Hk. f_equal. symmetry.
  now apply (never_alone k' k).
Qed.

Lemma bin_pos_lt t h : 0 < num_bins t -> length (bins t) = Z.to_nat (num_bins t) ->
  (bin_pos t h < length (bins t))%nat.
Proof. intros H HL. unfold bin_pos. pose proof (Z.mod_pos_bound h (num_bins t) H). lia. Qed.

Lemma in_bin_all t i e : In e (bin t i) -> In e (all t).
Proof.
  unfold bin, all. intros H. apply in_concat_nth. exists i. split; auto.
  destruct (Nat.lt_ge_cases i (length (bins t))); auto. now rewrite nth_overflow in H.
Qed.

(** ** Lookup *)

Definition key_is (k : Z) (e : st_table_entry) : bool := EQUAL k (e_key e).

(** The table as an association list. *)
Definition assoc (l : list st_table_entry) (k : Z) : option Z := option_map e_record (find (key_is k) l).

Lemma key_is_live k e : valid_key k -> key_is k e = true -> live e = true.
Proof. intros Hk H. apply live_valid. now apply valid_equal with k. Qed.

(** An entry with the key is in the key's bin, with the key's hash. *)
Lemma key_bin t k e :
  wf t -> valid_key k -> In e (all t) -> key_is k e = true ->
  In e (bin t (bin_pos t (do_hash k))) /\ e_hash e = do_hash k.
Proof.
  intros W Hk Hin HE. pose proof (wf_hash t W e Hin (key_is_live k e Hk HE)) as HH.
  assert (Hd : do_hash k = do_hash (e_key e)) by (now apply do_hash_proper).
  split; [|congruence]. unfold all in Hin. apply in_concat_nth in Hin as (i & Hi & Hin).
  rewrite Hd, <- HH. rewrite (wf_placed t W i e Hin). exact Hin.
Qed.

Lemma find_bin t k :
  wf t -> valid_key k ->
  find (key_is k) (bin t (bin_pos t (do_hash k))) = find (key_is k) (all t).
Proof.
  intros W Hk. destruct (wf_bins t W) as [HB HL]. set (i := bin_pos t (do_hash k)).
  pose proof (bin_pos_lt t (do_hash k) HB HL) as Hi. fold i in Hi.
  destruct (find (key_is k) (all t)) as [e|] eqn:E.
  - apply find_some in E as [Hin HE]. destruct (key_bin t k e W Hk Hin HE) as [Hbin _].
    apply find_unique; auto. intros f Hf HEf. apply (wf_distinct t W); auto.
    + now apply in_bin_all with i.
    + now apply (key_is_live k).
    + now apply (key_is_live k).
    + unfold key_is in *. change (same_key (e_key f) (e_key e)). transitivity k; [now symmetry|auto].
  - apply find_none_iff. intros f Hf. apply (find_none _ _ E). now apply in_bin_all with i.
Qed.

(** [FIND_ENTRY] compares hashes first; that changes nothing. *)
Lemma find_entry_spec t k : wf t -> valid_key k -> find_entry t (do_hash k) k = find (key_is k) (all t).
Proof.
  intros W Hk. rewrite <- (find_bin t k W Hk). unfold find_entry. apply find_ext_in.
  intros e He. unfold matches, key_is. destruct (EQUAL k (e_key e)) eqn:E; [|apply andb_false_r].
  destruct (key_bin t k e W Hk (in_bin_all _ _ _ He) E) as [_ ->]. now rewrite Z.eqb_refl.
Qed.

Lemma st_lookup_spec t k : wf t -> valid_key k -> st_lookup t k = assoc (all t) k.
Proof. intros W Hk. unfold st_lookup, assoc. now rewrite find_entry_spec. Qed.

Lemma assoc_permutation l m k :
  distinct l -> valid_key k -> Permutation l m -> assoc l k = assoc m k.
Proof.
  intros HD Hk HP. unfold assoc. f_equal. apply find_permutation; auto.
  intros e f He Hf HEe HEf. apply HD; auto; try now apply (key_is_live k).
  change (same_key (e_key e) (e_key f)). transitivity k; [now symmetry|auto].
Qed.

Lemma assoc_cons e l k : assoc (e :: l) k = if EQUAL k (e_key e) then Some (e_record e) else assoc l k.
Proof. unfold assoc. cbn [find]. unfold key_is at 1. now destruct (EQUAL k (e_key e)). Qed.
End Invariant.

(** ** Bins *)

(** With fewer entries no rehash asks for a bin count that cannot be
    allocated. *)
Definition ENTRIES_MAX : Z := 1610612730.

Definition placed (n : Z) (bs : list (list st_table_entry)) : Prop :=
  forall i e, In e (nth i bs []) -> Z.to_nat (e_hash e mod n) = i.

Lemma nth_list_set_in {A} (bs : list (list A)) i l j x :
  In x (nth j (list_set bs i l) []) -> (j = i /\ In x l) \/ (j <> i /\ In x (nth j bs [])).
Proof.
  destruct (Nat.lt_ge_cases i (length bs)) as [Hi|Hi].
  - rewrite list_set_nth by auto. destruct (Nat.eqb_spec j i); auto.
  - intros H. destruct (Nat.eq_dec j i) as [->|]; auto.
    rewrite nth_overflow in H by (rewrite list_set_length; lia). contradiction.
    right. split; auto.
    assert (Hid : forall (b : list (list A)) k, (length b <= k)%nat -> list_set b k l = b).
    { clear. induction b as [|h b IH]; intros [|k] H; cbn in *; auto; [lia|]. rewrite IH; auto; lia. }
    now rewrite Hid in H by auto.
Qed.

Lemma push_spec n nb e :
  0 < n -> length nb = Z.to_nat n -> placed n nb ->
  length (push n nb e) = Z.to_nat n /\ placed n (push n nb e) /\
  Permutation (concat (push n nb e)) (e :: concat nb).
Proof.
  intros Hn HL HP. unfold push. set (i := Z.to_nat (e_hash e mod n)).
  assert (Hi : (i < length nb)%nat) by (pose proof (Z.mod_pos_bound (e_hash e) n Hn); unfold i; lia).
  splits.
  - now rewrite list_set_length.
  - intros j f Hf. apply nth_list_set_in in Hf as [[-> [<-|Hf]]|[_ Hf]]; auto.
  - rewrite concat_list_set by auto. rewrite (concat_split nb i Hi). cbn [app].
    symmetry. apply Permutation_middle.
Qed.

Lemma fold_push_spec n l nb :
  0 < n -> length nb = Z.to_nat n -> placed n nb ->
  let r := fold_left (push n) l nb in
  length r = Z.to_nat n /\ placed n r /\ Permutation (concat r) (l ++ concat nb).
Proof.
  intros Hn; revert nb; induction l as [|e l IH]; intros nb HL HP; cbn [fold_left]; [splits; auto|].
  destruct (push_spec n nb e Hn HL HP) as (HL' & HP' & HPm).
  destruct (IH _ HL' HP') as (H1 & H2 & H3). splits; auto.
  rewrite H3, HPm. cbn [app]. symmetry. apply Permutation_middle.
Qed.

(** ** Sizes *)

(** Below [2 ^ 28] there is a prime for the new size and the block can be
    allocated. *)
Lemma new_size_ok size :
  0 <= size < 268435456 -> size < new_size size < 536870912 /\ In (new_size size) primes.
Proof.
  intros Hs. unfold new_size, primes, MINSIZE. cbn [new_size_loop].
  repeat match goal with
  | |- context [if size <? ?x then _ else _] =>
      let y := eval vm_compute in x in change x with y; destruct (Z.ltb_spec size y); [split; [lia|cbn; tauto]|]
  end; lia.
Qed.

Lemma Calloc_ok n : 0 <= n < 536870912 -> Calloc n = Ok (repeat [] (Z.to_nat n)).
Proof.
  intros Hn. unfold Calloc. rewrite s32_small by lia. replace (n * 4 <? 0) with false by lia.
  now rewrite Z.div_mul by lia.
Qed.

(** ** The operations keep the invariant and implement a map *)

Section Operations.
Context {T : st_hash_type} {L : HashLaws T}.
Context (never : option Z).
Context (never_alone : forall n k, never = Some n -> EQUAL n k = true -> k = n).

Notation wf := (wf never).
Notation valid_key := (valid_key never).
Notation live := (live never).

Lemma st_init_table_with_size_spec size :
  0 <= size < 268435456 ->
  exists t, st_init_table_with_size size = Ok t /\ wf t /\ all t = [] /\ size < num_bins t.
Proof.
  intros Hs. unfold st_init_table_with_size. destruct (new_size_ok size Hs) as [Hn _].
  rewrite Calloc_ok by lia. cbn [bind]. eexists. split; [reflexivity|].
  unfold all; cbn [bins num_bins]. rewrite concat_repeat_nil. splits; auto; try lia.
  split; unfold all, bin, bin_pos; cbn [bins num_bins num_entries brk]; rewrite ?concat_repeat_nil.
  - split; [lia|apply repeat_length].
  - intros i e. rewrite nth_repeat_nil. contradiction.
  - contradiction.
  - intros e f [].
  - split; constructor.
  - reflexivity.
Qed.

(** A table with the same entries in other bins. *)
Lemma wf_rebin t n bs :
  wf t -> 0 < n -> length bs = Z.to_nat n -> placed n bs -> Permutation (concat bs) (all t) ->
  wf (mkTable n (num_entries t) bs (brk t)).
Proof.
  intros W Hn HL HP HPm. split; unfold all; cbn [bins num_bins num_entries brk].
  - auto.
  - exact HP.
  - intros e He. apply (wf_hash _ t W). now apply Permutation_in with (concat bs).
  - intros e f He Hf. apply (wf_distinct _ t W); now apply Permutation_in with (concat bs).
  - destruct (wf_addrs _ t W) as [HN HF]. assert (HA : Permutation (addrs (all t)) (addrs (concat bs)))
      by (apply Permutation_map; now symmetry).
    split; [now apply Permutation_NoDup with (addrs (all t))|]. now rewrite <- HA.
  - rewrite (wf_count _ t W). f_equal. symmetry. now apply filter_length_permutation.
Qed.

Lemma rehash_spec t :
  wf t -> num_bins t < 268435455 ->
  exists t', rehash t = Ok t' /\ wf t' /\ Permutation (all t') (all t) /\
    num_bins t < num_bins t' /\ num_entries t' = num_entries t /\ brk t' = brk t.
Proof.
  intros W HB. destruct (wf_bins _ t W) as [Hp HL]. unfold rehash.
  destruct (new_size_ok (num_bins t + 1) ltac:(lia)) as [Hn _]. set (n := new_size (num_bins t + 1)) in *.
  rewrite Calloc_ok by lia. cbn [bind]. eexists. split; [reflexivity|].
  destruct (fold_push_spec n (concat (bins t)) (repeat [] (Z.to_nat n))) as (H1 & H2 & H3).
  { lia. } { apply repeat_length. } { intros i e. rewrite nth_repeat_nil. contradiction. }
  rewrite concat_repeat_nil, app_nil_r in H3. cbn [num_bins num_entries brk]. splits; auto; try lia.
  apply wf_rebin; auto; lia.
Qed.

(** Replacing the bin of a key. *)
Lemma set_bin_all t i l :
  (i < length (bins t))%nat ->
  all (set_bin t i l) = concat (firstn i (bins t)) ++ l ++ concat (skipn (S i) (bins t)).
Proof. intros H. unfold all, set_bin. cbn [bins]. now apply concat_list_set. Qed.

Lemma all_split t i :
  (i < length (bins t))%nat -> all t = concat (firstn i (bins t)) ++ bin t i ++ concat (skipn (S i) (bins t)).
Proof. apply concat_split. Qed.

(** A new entry for a key that is not there. *)
Lemma add_direct_spec t k v :
  wf t -> num_entries t < ENTRIES_MAX -> valid_key k -> assoc (all t) k = None ->
  exists t' e, add_direct t k v (do_hash k) = Ok t' /\ wf t' /\ Permutation (all t') (e :: all t) /\
    e_key e = k /\ e_record e = v /\ num_entries t' = num_entries t + 1 /\ num_bins t <= num_bins t'.
Proof.
  intros W HM Hk HN. unfold add_direct, ENTRIES_MAX in *.
  assert (HR : exists t1, (if ST_DEFAULT_MAX_DENSITY <? cdiv (num_entries t) (num_bins t) then rehash t else Ok t) = Ok t1 /\
    wf t1 /\ Permutation (all t1) (all t) /\ num_bins t <= num_bins t1 /\ num_entries t1 = num_entries t).
  { destruct (Z.ltb_spec ST_DEFAULT_MAX_DENSITY (cdiv (num_entries t) (num_bins t))) as [Hd|Hd].
    - assert (HB : num_bins t < 268435455).
      { pose proof (wf_bins _ t W) as [Hp _]. pose proof (wf_count _ t W) as Hc.
        unfold cdiv, ST_DEFAULT_MAX_DENSITY in Hd. rewrite Z.quot_div_nonneg in Hd by lia.
        pose proof (Z.mul_div_le (num_entries t) (num_bins t) Hp). nia. }
      destruct (rehash_spec t W HB) as (t1 & H1 & H2 & H3 & H4 & H5 & _). exists t1. splits; auto; lia.
    - exists t. splits; auto; lia. }
  destruct HR as (t1 & -> & W1 & HP1 & HB1 & HE1). cbn [bind].
  set (i := bin_pos t1 (do_hash k)). set (e := mkEntry (brk t1) (do_hash k) k v).
  destruct (wf_bins _ t1 W1) as [Hp HL]. pose proof (bin_pos_lt t1 (do_hash k) Hp HL) as Hi. fold i in Hi.
  set (t' := mkTable _ _ _ _). assert (HPm : Permutation (all t') (e :: all t1)).
  { unfold all at 1, t'; cbn [bins]. rewrite concat_list_set, (all_split t1 i) by auto.
    cbn [app]. symmetry. apply Permutation_middle. }
  assert (Hnew : forall f, In f (all t1) -> key_is k f = false).
  { apply find_none_iff.
    rewrite (assoc_permutation never never_alone (all t) (all t1) k (wf_distinct _ t W) Hk (Permutation_sym HP1)) in HN.
    unfold assoc in HN. now destruct (find (key_is k) (all t1)). }
  exists t', e. splits; auto; [|now rewrite HPm, HP1|unfold t'; cbn; lia].
  assert (Hin : forall f, In f (all t') -> f = e \/ In f (all t1)).
  { intros f Hf. apply (Permutation_in _ HPm) in Hf as [->|Hf]; auto. }
  split; unfold t'; cbn [bins num_bins num_entries brk].
  - rewrite list_set_length. auto.
  - intros j f Hf. unfold bin in Hf; cbn [bins] in Hf.
    apply nth_list_set_in in Hf as [[-> [<-|Hf]]|[_ Hf]]; [reflexivity|..]; now apply (wf_placed _ t1 W1).
  - fold t'. intros f Hf Hl. destruct (Hin f Hf) as [->|Hf1]; [reflexivity|]. now apply (wf_hash _ t1 W1).
  - fold t'. intros f g Hf Hg Hlf Hlg HE.
    destruct (Hin f Hf) as [->|Hf1], (Hin g Hg) as [->|Hg1]; auto.
    + pose proof (Hnew g Hg1) as HX. unfold key_is in HX. cbn in HE. congruence.
    + pose proof (Hnew f Hf1) as HX. unfold key_is in HX. cbn in HE. rewrite EQUAL_sym in HE. congruence.
    + now apply (wf_distinct _ t1 W1).
  - fold t'. destruct (wf_addrs _ t1 W1) as [HNd HF].
    assert (HA : Permutation (brk t1 :: addrs (all t1)) (addrs (all t'))).
    { change (brk t1 :: addrs (all t1)) with (addrs (e :: all t1)). apply Permutation_map. now symmetry. }
    rewrite <- HA. split.
    + constructor; auto. intros HX. rewrite Forall_forall in HF. specialize (HF _ HX). lia.
    + constructor; [lia|]. eapply Forall_impl; [|exact HF]. cbn. intros; lia.
  - fold t'. rewrite (wf_count _ t1 W1).
    replace (length (filter live (all t'))) with (length (filter live (e :: all t1))).
    + cbn [filter]. replace (live e) with true by (symmetry; now apply live_valid). cbn [length]. lia.
    + symmetry. now apply filter_length_permutation.
Qed.
Lemma find_split {A} (p : A -> bool) l x :
  find p l = Some x -> exists l1 l2, l = l1 ++ x :: l2 /\ (forall y, In y l1 -> p y = false) /\ p x = true.
Proof.
  induction l as [|y l IH]; cbn [find]; [discriminate|]. destruct (p y) eqn:E.
  - intros H; injection H as ->. exists [], l. splits; auto. contradiction.
  - intros H. destruct (IH H) as (l1 & l2 & -> & H1 & H2). exists (y :: l1), l2. splits; auto.
    intros z [<-|Hz]; auto.
Qed.

Lemma update_first_app p f l1 e l2 :
  (forall y, In y l1 -> p y = false) -> p e = true ->
  update_first p f (l1 ++ e :: l2) = l1 ++ f e :: l2 /\ remove_first p (l1 ++ e :: l2) = l1 ++ l2.
Proof.
  intros H1 He; induction l1 as [|y l1 IH]; cbn [app update_first remove_first]; [now rewrite He|].
  rewrite (H1 y) by now left. destruct IH as [-> ->]; auto. intros z Hz; apply H1; now right.
Qed.

(** The entries around one in bin [i]. *)
Lemma around t i l1 e l2 l :
  (i < length (bins t))%nat -> bin t i = l1 ++ e :: l2 ->
  exists A B, all t = A ++ e :: B /\ all (set_bin t i (l1 ++ l ++ l2)) = A ++ l ++ B.
Proof.
  intros Hi Hb. exists (concat (firstn i (bins t)) ++ l1), (l2 ++ concat (skipn (S i) (bins t))).
  rewrite (all_split t i Hi), set_bin_all, Hb by auto. rewrite <- !app_assoc. now split.
Qed.

Lemma NoDup_addr_inj l e f : NoDup (addrs l) -> In e l -> In f l -> e_addr e = e_addr f -> e = f.
Proof.
  unfold addrs. induction l as [|x l IH]; cbn [map]; intros HN He Hf HA; [contradiction|].
  inversion HN as [|? ? Hx HN']; subst.
  destruct He as [->|He], Hf as [->|Hf]; auto.
  - exfalso. apply Hx. rewrite HA. now apply in_map.
  - exfalso. apply Hx. rewrite <- HA. now apply in_map.
Qed.

Lemma middle_not_in A e B : NoDup (addrs (A ++ e :: B)) -> ~ In e (A ++ B).
Proof.
  unfold addrs. rewrite map_app. cbn [map]. intros HN Hin. apply NoDup_remove_2 in HN. apply HN.
  rewrite <- map_app. now apply in_map.
Qed.

Lemma distinct_sub l m : distinct never l -> incl m l -> distinct never m.
Proof. intros H HI e f He Hf. apply H; auto. Qed.

Lemma incl_middle {A} (l m : list A) x : incl (l ++ m) (l ++ x :: m).
Proof. intros y Hy. apply in_app_iff in Hy. apply in_app_iff. cbn. tauto. Qed.

Lemma in_middle {A} (l m : list A) x y : In y (l ++ x :: m) <-> y = x \/ In y (l ++ m).
Proof. rewrite !in_app_iff. cbn. split; intros; intuition congruence. Qed.

Lemma count_middle A e B :
  Z.of_nat (length (filter live (A ++ e :: B))) =
  Z.of_nat (length (filter live (A ++ B))) + (if live e then 1 else 0).
Proof. rewrite !filter_app, !length_app. cbn [filter]. destruct (live e); cbn [length]; lia. Qed.

Lemma placed_set_bin t i l l' :
  wf t -> incl (map e_hash l') (map e_hash l) -> bin t i = l ->
  forall j f, In f (bin (set_bin t i l') j) -> bin_pos t (e_hash f) = j.
Proof.
  intros W HI Hb j f Hf. unfold bin, set_bin in Hf; cbn [bins] in Hf.
  apply nth_list_set_in in Hf as [[-> Hf]|[_ Hf]]; [|now apply (wf_placed _ t W)].
  assert (Hh : In (e_hash f) (map e_hash l)) by (apply HI; now apply in_map).
  apply in_map_iff in Hh as (g & <- & Hg). apply (wf_placed _ t W). now rewrite Hb.
Qed.

(** Removing an entry. *)
Lemma wf_remove t i l1 e l2 :
  wf t -> (i < length (bins t))%nat -> bin t i = l1 ++ e :: l2 -> live e = true ->
  wf (add_entries (set_bin t i (l1 ++ l2)) (-1)).
Proof.
  intros W Hi Hb Hl. destruct (around t i l1 e l2 [] Hi Hb) as (A & B & HA & HA').
  cbn [app] in HA'. destruct (wf_addrs _ t W) as [HN HF]. rewrite HA in HN, HF.
  assert (HI : incl (A ++ B) (all t)) by (rewrite HA; apply incl_middle).
  split; change (all (add_entries (set_bin t i (l1 ++ l2)) (-1))) with (all (set_bin t i (l1 ++ l2)));
    rewrite ?HA'; cbn [num_bins num_entries brk add_entries set_bin bins].
  - rewrite list_set_length. apply (wf_bins _ t W).
  - apply (placed_set_bin t i (l1 ++ e :: l2)); auto.
    intros h. rewrite !map_app, !in_app_iff. cbn. tauto.
  - intros f Hf. apply (wf_hash _ t W). auto.
  - now apply distinct_sub with (all t); [apply (wf_distinct _ t W)|].
  - unfold addrs in *. rewrite map_app in *. cbn [map] in *. split; [now apply NoDup_remove_1 in HN|].
    rewrite Forall_app in *. destruct HF as [HF1 HF2]. inversion HF2; auto.
  - rewrite (wf_count _ t W), HA, count_middle, Hl. lia.
Qed.

(** Replacing an entry in place, keeping its key or burying it. *)
Lemma wf_replace t i l1 e e' l2 :
  wf t -> (i < length (bins t))%nat -> bin t i = l1 ++ e :: l2 ->
  e_addr e' = e_addr e -> e_hash e' = e_hash e ->
  (live e' = true -> live e = true /\ e_key e' = e_key e) ->
  wf (add_entries (set_bin t i (l1 ++ e' :: l2)) ((if live e' then 1 else 0) - (if live e then 1 else 0))).
Proof.
  intros W Hi Hb Ha Hh Hl. destruct (around t i l1 e l2 [e'] Hi Hb) as (A & B & HA & HA').
  cbn [app] in HA'. destruct (wf_addrs _ t W) as [HN HF]. rewrite HA in HN, HF.
  pose proof (middle_not_in A e B HN) as Hnot.
  assert (HI : incl (A ++ B) (all t)) by (rewrite HA; apply incl_middle).
  assert (He : In e (all t)) by (rewrite HA; apply in_middle; auto).
  assert (Hclash : forall f, In f (A ++ B) -> live e' = true -> live f = true ->
    EQUAL (e_key e') (e_key f) = true -> False).
  { intros f Hf Hl' Hlf HE. destruct (Hl Hl') as [Hle Hk]. rewrite Hk in HE.
    apply Hnot. rewrite (wf_distinct _ t W e f); auto. }
  split; change (all (add_entries (set_bin t i (l1 ++ e' :: l2)) _)) with (all (set_bin t i (l1 ++ e' :: l2)));
    rewrite ?HA'; cbn [num_bins num_entries brk add_entries set_bin bins].
  - rewrite list_set_length. apply (wf_bins _ t W).
  - apply (placed_set_bin t i (l1 ++ e :: l2)); auto.
    intros h. rewrite !map_app, !in_app_iff. cbn. rewrite Hh. tauto.
  - intros f Hf Hlf. apply in_middle in Hf as [->|Hf]; [|apply (wf_hash _ t W); auto].
    destruct (Hl Hlf) as [Hle ->]. rewrite Hh. now apply (wf_hash _ t W).
  - intros f g Hf Hg Hlf Hlg HE. apply in_middle in Hf as [->|Hf]; apply in_middle in Hg as [->|Hg]; auto.
    + exfalso. eauto.
    + exfalso. rewrite EQUAL_sym in HE. eauto.
    + apply (wf_distinct _ t W); auto.
  - unfold addrs in *. rewrite map_app in *. cbn [map] in *. now rewrite Ha.
  - rewrite (wf_count _ t W), HA, !count_middle. lia.
Qed.

Lemma assoc_middle A e B k :
  distinct never (A ++ e :: B) -> valid_key k ->
  assoc (A ++ e :: B) k = if EQUAL k (e_key e) then Some (e_record e) else assoc (A ++ B) k.
Proof.
  intros HD Hk. rewrite <- assoc_cons. apply (assoc_permutation never never_alone); auto.
  symmetry. apply Permutation_middle.
Qed.

(** No second entry has the key. *)
Lemma assoc_gone A e B k :
  NoDup (addrs (A ++ e :: B)) -> distinct never (A ++ e :: B) -> valid_key k -> EQUAL k (e_key e) = true ->
  assoc (A ++ B) k = None.
Proof.
  intros HN HD Hk HE. unfold assoc. destruct (find (key_is k) (A ++ B)) as [f|] eqn:E; auto. exfalso.
  apply find_some in E as [Hf Hkf]. apply (middle_not_in A e B HN).
  rewrite (HD e f); auto using incl_middle.
  - apply in_middle; auto.
  - now apply incl_middle.
  - now apply (key_is_live never never_alone k).
  - now apply (key_is_live never never_alone k).
  - change (same_key (e_key e) (e_key f)). transitivity k; [now symmetry|exact Hkf].
Qed.

(** Looking up the table an operation leaves. *)
Definition maps (t : st_table) (m : Z -> option Z) : Prop := forall k, valid_key k -> st_lookup t k = m k.

Lemma EQUAL_swap k k0 k' : EQUAL k k0 = true -> EQUAL k' k0 = EQUAL k' k.
Proof.
  intros H. apply EQUAL_proper; [reflexivity|]. change (same_key k0 k). symmetry. exact H.
Qed.

Lemma found t k e :
  wf t -> valid_key k -> find (key_is k) (all t) = Some e ->
  In e (bin t (bin_pos t (do_hash k))) /\ live e = true /\ EQUAL k (e_key e) = true /\
  (bin_pos t (do_hash k) < length (bins t))%nat.
Proof.
  intros W Hk HF. apply find_some in HF as [Hin HE]. destruct (wf_bins _ t W).
  destruct (key_bin never never_alone t k e W Hk Hin HE) as [Hb _].
  splits; auto using bin_pos_lt. now apply (key_is_live never never_alone k).
Qed.

Lemma st_insert_spec t k v :
  wf t -> num_entries t < ENTRIES_MAX -> valid_key k ->
  exists t', st_insert t k v = Ok (match assoc (all t) k with Some _ => true | None => false end, t') /\
    wf t' /\ maps t' (fun k' => if EQUAL k' k then Some v else assoc (all t) k') /\
    num_entries t' = num_entries t + match assoc (all t) k with Some _ => 0 | None => 1 end /\
    num_bins t <= num_bins t'.
Proof.
  intros W HE0 Hk. unfold st_insert. rewrite (find_entry_spec never never_alone) by auto.
  destruct (assoc (all t) k) as [v0|] eqn:EA; unfold assoc in EA;
    destruct (find (key_is k) (all t)) as [e|] eqn:EF; try discriminate.
  - destruct (found t k e W Hk EF) as (_ & Hl & HE & Hi). set (i := bin_pos t (do_hash k)) in *.
    pose proof (find_entry_spec never never_alone t k W Hk) as HFE. rewrite EF in HFE.
    destruct (find_split _ _ _ HFE) as (l1 & l2 & Hb & H1 & H2). fold i in Hb.
    rewrite Hb. destruct (update_first_app (matches (do_hash k) k) (set_record v) l1 e l2 H1 H2) as [-> _].
    pose proof (wf_replace t i l1 e (set_record v e) l2 W Hi Hb eq_refl eq_refl ltac:(auto)) as W'.
    replace (live (set_record v e)) with (live e) in W' by reflexivity. rewrite Z.sub_diag in W'.
    replace (add_entries (set_bin t i (l1 ++ set_record v e :: l2)) 0)
      with (set_bin t i (l1 ++ set_record v e :: l2)) in W' by (unfold add_entries, set_bin; cbn; f_equal; lia).
    eexists. splits; [reflexivity|exact W'| |cbn; lia|cbn; lia].
    intros k' Hk'. rewrite (st_lookup_spec never never_alone) by auto.
    destruct (around t i l1 e l2 [set_record v e] Hi Hb) as (A & B & HA & HA'). cbn [app] in HA'.
    pose proof (wf_distinct _ _ W') as HD'. rewrite HA' in HD' |- *. rewrite assoc_middle by auto.
    pose proof (wf_distinct _ t W) as HD. rewrite HA in HD |- *. rewrite (assoc_middle A e B) by auto.
    cbn [set_record e_key e_record]. rewrite (EQUAL_swap k (e_key e) k' HE). now destruct (EQUAL k' k).
  - destruct (add_direct_spec t k v W HE0 Hk) as (t' & e & -> & W' & HP & Hke & Hre & Hn & Hnb).
    { unfold assoc. now rewrite EF. }
    cbn [bind]. exists t'. splits; auto.
    intros k' Hk'. rewrite (st_lookup_spec never never_alone) by auto.
    rewrite (assoc_permutation never never_alone _ _ k' (wf_distinct _ _ W') Hk' HP), assoc_cons, Hke, Hre.
    reflexivity.
Qed.

(** With a symmetric comparison both orders find the same entry. *)
Lemma delete_chain_eq k l :
  delete_chain k l = option_map (fun e => (e, remove_first (key_is k) l)) (find (key_is k) l).
Proof.
  assert (HN : forall l, delete_next k l = option_map (fun e => (e, remove_first (key_is k) l)) (find (key_is k) l)).
  { clear l. induction l as [|e l IH]; cbn [delete_next find remove_first option_map]; auto.
    change (key_is k e) with (EQUAL k (e_key e)). rewrite (EQUAL_sym (e_key e)).
    destruct (EQUAL k (e_key e)); cbn [option_map]; auto. rewrite IH. destruct (find (key_is k) l); reflexivity. }
  destruct l as [|e l]; cbn [delete_chain find remove_first option_map]; auto.
  change (key_is k e) with (EQUAL k (e_key e)). destruct (EQUAL k (e_key e)); cbn [option_map]; auto. rewrite HN. destruct (find (key_is k) l); reflexivity.
Qed.

Lemma st_delete_eq t k :
  st_delete t k =
  let i := bin_pos t (do_hash k) in
  match find (key_is k) (bin t i) with
  | None => (None, t)
  | Some e => (Some (e_key e, e_record e), add_entries (set_bin t i (remove_first (key_is k) (bin t i))) (-1))
  end.
Proof. unfold st_delete. rewrite delete_chain_eq. cbv zeta. now destruct (find (key_is k) _). Qed.

Lemma st_delete_spec t k :
  wf t -> valid_key k ->
  let '(r, t') := st_delete t k in
  option_map snd r = assoc (all t) k /\ (forall k0 v, r = Some (k0, v) -> EQUAL k k0 = true) /\
  wf t' /\ maps t' (fun k' => if EQUAL k' k then None else assoc (all t) k') /\
  num_entries t' = num_entries t - match r with Some _ => 1 | None => 0 end.
Proof.
  intros W Hk. rewrite st_delete_eq. cbv zeta. rewrite (find_bin never never_alone) by auto.
  unfold assoc at 1. destruct (find (key_is k) (all t)) as [e|] eqn:EF.
  - destruct (found t k e W Hk EF) as (_ & Hl & HE & Hi). set (i := bin_pos t (do_hash k)) in *.
    pose proof (find_bin never never_alone t k W Hk) as HFE. rewrite EF in HFE.
    destruct (find_split _ _ _ HFE) as (l1 & l2 & Hb & H1 & H2). fold i in Hb. rewrite Hb.
    destruct (update_first_app (key_is k) (fun e => e) l1 e l2 H1 H2) as [_ ->].
    pose proof (wf_remove t i l1 e l2 W Hi Hb Hl) as W'.
    splits; [reflexivity|intros k0 v Hs; injection Hs as <- _; exact HE|exact W'| |cbn; lia].
    intros k' Hk'. rewrite (st_lookup_spec never never_alone) by auto.
    change (all (add_entries (set_bin t i (l1 ++ l2)) (-1))) with (all (set_bin t i (l1 ++ l2))).
    destruct (around t i l1 e l2 [] Hi Hb) as (A & B & HA & HA'). cbn [app] in HA'. rewrite HA'.
    pose proof (wf_distinct _ t W) as HD. destruct (wf_addrs _ t W) as [HN _].
    rewrite HA in HD, HN |- *. rewrite (assoc_middle A e B) by auto.
    rewrite (EQUAL_swap k (e_key e) k' HE). destruct (EQUAL k' k) eqn:E; auto.
    apply (assoc_gone A e); auto. rewrite <- E. now apply EQUAL_swap.
  - splits; [reflexivity|discriminate|exact W| |lia]. intros k' Hk'. rewrite (st_lookup_spec never never_alone) by auto.
    destruct (EQUAL k' k) eqn:E; auto. unfold assoc.
    rewrite (find_ext_in (key_is k') (key_is k)); [now rewrite EF|].
    intros e _. unfold key_is. apply EQUAL_proper; [exact E|reflexivity].
Qed.

(** ** Copy *)

(** Entries up to their address. *)
Definition content (e : st_table_entry) : Z * Z * Z := (e_hash e, e_key e, e_record e).

Lemma copy_chain_spec l acc b :
  let '(r, b') := copy_chain l acc b in
  map content r = rev (map content l) ++ map content acc /\ b' = b + Z.of_nat (length l) /\
  addrs r = rev (map (fun k => b + Z.of_nat k) (seq 0 (length l))) ++ addrs acc.
Proof.
  revert acc b; induction l as [|e l IH]; intros acc b; cbn [copy_chain]; [cbn; splits; auto; lia|].
  specialize (IH (mkEntry b (e_hash e) (e_key e) (e_record e) :: acc) (b + 1)).
  destruct (copy_chain l _ (b + 1)) as [r b']. destruct IH as (H1 & H2 & H3).
  cbn [map rev length seq]. rewrite <- !app_assoc. splits.
  - rewrite H1. reflexivity.
  - lia.
  - rewrite H3. unfold addrs. cbn [map app e_addr]. rewrite Z.add_0_r. f_equal. f_equal.
    rewrite <- seq_shift, map_map. apply map_ext. intros; lia.
Qed.

Definition same_bin (l m : list st_table_entry) : Prop := map content l = rev (map content m).

Lemma NoDup_map_inj {A B} (f : A -> B) l : (forall x y, f x = f y -> x = y) -> NoDup l -> NoDup (map f l).
Proof.
  intros HI; induction 1 as [|x l Hx _ IH]; cbn [map]; constructor; auto.
  intros H. apply in_map_iff in H as (y & Hy & Hin). apply HI in Hy. now subst.
Qed.

Lemma copy_bins_spec bs b :
  let '(r, b') := copy_bins bs b in
  Forall2 same_bin r bs /\ b <= b' /\
  Forall (fun a => b <= a < b') (addrs (concat r)) /\ NoDup (addrs (concat r)).
Proof.
  revert b; induction bs as [|l bs IH]; intros b; cbn [copy_bins].
  { cbn. splits; [constructor|lia|constructor|constructor]. }
  pose proof (copy_chain_spec l [] b) as HC. destruct (copy_chain l [] b) as [l' b1].
  specialize (IH b1). destruct (copy_bins bs b1) as [r b2].
  destruct HC as (H1 & H2 & H3), IH as (H4 & H5 & H6 & H7). cbn [map] in H1, H3. rewrite app_nil_r in *.
  cbn [concat]. unfold addrs in *. rewrite map_app.
  assert (HA : Forall (fun a => b <= a < b1) (map e_addr l')).
  { rewrite H3. apply Forall_forall. intros a Ha. apply in_rev, in_map_iff in Ha as (k & <- & Hk).
    apply in_seq in Hk. lia. }
  splits.
  - constructor; auto.
  - lia.
  - apply Forall_app. split; (eapply Forall_impl; [|eassumption]); cbn; intros; lia.
  - apply NoDup_app; auto.
    + rewrite H3. apply NoDup_rev. apply NoDup_map_inj; [intros x y; lia|apply seq_NoDup].
    + rewrite Forall_forall in *. intros a Ha Ha'. specialize (HA a Ha). specialize (H6 a Ha'). lia.
Qed.

(** What lookups see of an entry is its content. *)
Lemma live_content e f : content e = content f -> live e = live f.
Proof. unfold content, live. intros H; injection H as _ -> _. reflexivity. Qed.

Lemma content_nth l m i e :
  map content l = map content m -> nth_error l i = Some e ->
  exists g, nth_error m i = Some g /\ content g = content e.
Proof.
  intros H Hi. pose proof (map_nth_error content i l Hi) as Hc. rewrite H, nth_error_map in Hc.
  destruct (nth_error m i) as [g|]; [|discriminate]. cbn [option_map] in Hc. exists g. split; congruence.
Qed.

(** Entries with the same contents are as distinct. *)
Lemma distinct_content l m :
  map content l = map content m -> NoDup m -> distinct never m -> distinct never l.
Proof.
  intros H HN HD e f He Hf Hle Hlf HE.
  apply In_nth_error in He as (i & Hi). apply In_nth_error in Hf as (j & Hj).
  destruct (content_nth l m i e H Hi) as (g & Hg & Hge), (content_nth l m j f H Hj) as (h & Hh & Hhf).
  assert (g = h) as <-.
  { apply HD; eauto using nth_error_In.
    - now rewrite (live_content _ _ Hge).
    - now rewrite (live_content _ _ Hhf).
    - injection Hge as _ -> _. now injection Hhf as _ -> _. }
  assert (i = j) as <-; [|congruence].
  apply (proj1 (NoDup_nth_error m) HN); [|congruence]. apply nth_error_Some. congruence.
Qed.

Lemma assoc_content l m k : map content l = map content m -> assoc l k = assoc m k.
Proof.
  unfold assoc. revert m; induction l as [|e l IH]; intros [|f m] H; try discriminate; auto.
  cbn [map] in H. injection H as Hh Hk Hr H. cbn [find]. unfold key_is at 1 3. rewrite Hk.
  destruct (EQUAL k (e_key f)); [cbn; congruence|]. now apply IH.
Qed.

Lemma same_bins_content r bs :
  Forall2 same_bin r bs -> Permutation (map content (concat r)) (map content (concat bs)).
Proof.
  induction 1 as [|l m r bs Hlm _ IH]; cbn [concat]; auto. rewrite !map_app. apply Permutation_app; auto.
  rewrite Hlm. symmetry. apply Permutation_rev.
Qed.

Lemma same_bins_nth r bs i : Forall2 same_bin r bs -> same_bin (nth i r []) (nth i bs []).
Proof.
  intros H; revert i; induction H; intros [|i]; cbn [nth]; auto; reflexivity.
Qed.

Lemma content_count l m :
  Permutation (map content l) (map content m) -> length (filter live l) = length (filter live m).
Proof.
  pose (lc := fun c : Z * Z * Z => live (mkEntry 0 (fst (fst c)) (snd (fst c)) (snd c))).
  assert (HL : forall x, length (filter live x) = length (filter lc (map content x))).
  { induction x as [|e x IH]; auto. cbn [map filter].
    replace (lc (content e)) with (live e) by (unfold lc; now apply live_content).
    destruct (live e); cbn [length]; auto. }
  rewrite !HL. apply filter_length_permutation.
Qed.

(** Every chain of the copy is the reversed chain of the original; the
    entries are new ones. *)
Lemma st_copy_spec t :
  wf t ->
  let t' := st_copy t in
  wf t' /\ maps t' (assoc (all t)) /\ Forall2 same_bin (bins t') (bins t) /\
  num_bins t' = num_bins t /\ num_entries t' = num_entries t /\
  Forall (fun a => brk t <= a) (addrs (all t')).
Proof.
  intros W. unfold st_copy. pose proof (copy_bins_spec (bins t) (brk t)) as HC.
  destruct (copy_bins (bins t) (brk t)) as [bs b]. destruct HC as (HB & Hb & HA & HN).
  pose proof (same_bins_content _ _ HB) as HPm. pose proof (Forall2_length HB) as HLn.
  set (t' := mkTable _ _ _ _). cbv zeta.
  assert (HIn : forall e, In e (all t') -> exists f, In f (all t) /\ content e = content f).
  { intros e He. apply (in_map content) in He. apply (Permutation_in _ HPm) in He.
    apply in_map_iff in He as (f & Hf & Hin). eauto. }
  assert (W' : wf t').
  { split; unfold t'; cbn [num_bins num_entries bins brk]; fold t'.
    - rewrite HLn. apply (wf_bins _ t W).
    - intros i e He. pose proof (same_bins_nth _ _ i HB : map content (nth i bs []) = rev (map content (nth i (bins t) []))) as Hs. change (bin t' i) with (nth i bs []) in He.
      apply (in_map content) in He. rewrite Hs in He. apply in_rev, in_map_iff in He as (f & Hf & Hin).
      injection Hf as Hh _ _. rewrite <- Hh. unfold bin_pos; cbn [num_bins]. apply (wf_placed _ t W i f Hin).
    - intros e He Hl. destruct (HIn e He) as (f & Hf & Hc). rewrite (live_content _ _ Hc) in Hl.
      injection Hc as -> -> _. now apply (wf_hash _ t W).
    - intros e f He Hf Hle Hlf HE.
      destruct (Permutation_map_inv content (concat bs) (Permutation_sym HPm)) as (l & Hlc & HPl).
      pose proof (distinct_content l (all t) (eq_sym Hlc) (NoDup_map_inv e_addr _ (proj1 (wf_addrs _ t W)))
        (wf_distinct _ t W)) as HD.
      apply HD; auto; apply Permutation_in with (concat bs); auto.
    - split; auto. eapply Forall_impl; [|exact HA]. cbn. intros; lia.
    - rewrite (wf_count _ t W). f_equal. symmetry. now apply content_count. }
  splits; auto.
  - intros k Hk. rewrite (st_lookup_spec never never_alone) by auto.
    destruct (Permutation_map_inv content (concat bs) (Permutation_sym HPm)) as (l & Hc & Hl).
    change (all t') with (concat bs). unfold all. rewrite (assoc_content (concat (bins t)) l k Hc).
    apply (assoc_permutation never never_alone); auto. apply (wf_distinct _ t' W').
  - eapply Forall_impl; [|exact HA]. cbn. intros; lia.
Qed.
End Operations.

(** ** Iteration *)

Section ForeachLemmas.
Context {T : st_hash_type} {St : Type}.

Section Steps.
Context (func : option (Z * Z) -> St -> st_table -> outcome (st_retval * St * st_table)).

Lemma fe_run_done n s t : fe_run func n (FE_done s t) = Ok (FE_done s t).
Proof. induction n as [|n IH]; cbn [fe_run fe_step bind]; auto. Qed.

Lemma fe_run_add n m c : fe_run func (n + m) c = bind (fe_run func n c) (fe_run func m).
Proof.
  revert c; induction n as [|n IH]; intros c; cbn [Nat.add fe_run bind]; auto.
  rewrite bind_assoc. destruct (fe_step func c); cbn [bind]; auto.
Qed.

(** A callback that answers [ST_CHECK] or [ST_STOP] on entries may change
    the table in any way: no freed entry is ever read. *)
Definition checked : Prop := forall e s t,
  match func e s t with
  | Ok (r, _, _) => e = None \/ r = ST_CHECK \/ r = ST_STOP
  | Undefined => False
  | _ => True
  end.

Definition fe_safe (c : fe_state St) : Prop :=
  match c with
  | FE_at _ _ (Some a) _ t => deref t a <> None
  | _ => True
  end.

Lemma deref_in t e : In e (all t) -> deref t (e_addr e) <> None.
Proof.
  unfold deref. intros H HN. pose proof (find_none _ _ HN e H) as HX. cbn in HX.
  now rewrite Z.eqb_refl in HX.
Qed.

Lemma head_addr_safe i last l s t : incl l (all t) -> fe_safe (FE_at i last (head_addr l) s t).
Proof. destruct l as [|e l]; cbn [head_addr fe_safe]; auto. intros H. apply deref_in, H. now left. Qed.

Lemma bin_incl t i : incl (bin t i) (all t).
Proof.
  intros e He. unfold bin in He. apply in_concat_nth. exists i. split; auto.
  destruct (Nat.lt_ge_cases i (length (bins t))); auto. now rewrite nth_overflow in He.
Qed.

Lemma after_incl a l r : after a l = Some r -> incl r l.
Proof.
  induction l as [|e l IH]; cbn [after]; [discriminate|].
  destruct (e_addr e =? a); [intros H; injection H as ->|intros H; apply IH in H]; intros x Hx; right; auto.
Qed.

Lemma after_bins_incl a bs r : after_bins a bs = Some r -> incl r (concat bs).
Proof.
  induction bs as [|l bs IH]; cbn [after_bins concat]; [discriminate|].
  destruct (after a l) as [r'|] eqn:E; intros H.
  - injection H as ->. intros x Hx. apply in_app_iff. left. now apply (after_incl a l r).
  - intros x Hx. apply in_app_iff. right. now apply IH.
Qed.

Lemma after_found a l : in_chain a l = true -> after a l <> None.
Proof.
  induction l as [|e l IH]; cbn; [discriminate|]. destruct (e_addr e =? a); [discriminate|auto].
Qed.

Lemma after_bins_found a bs i : in_chain a (nth i bs []) = true -> after_bins a bs <> None.
Proof.
  revert i; induction bs as [|l bs IH]; intros [|i] H; cbn in *; try discriminate;
    destruct (after a l) eqn:E; try discriminate; eauto. exfalso. now apply (after_found a l).
Qed.

Lemma fe_step_safe c :
  checked -> fe_safe c ->
  match fe_step func c with Ok c' => fe_safe c' | Undefined => False | _ => True end.
Proof.
  intros HC HS. destruct c as [i s t|i last [a|] s t|s t]; cbn [fe_step]; try exact I.
  - destruct (i <? num_bins t); [|exact I]. apply head_addr_safe, bin_incl.
  - cbn [fe_safe] in HS. destruct (deref t a) as [e|]; [|contradiction]. cbn [bind].
    pose proof (HC (Some (e_key e, e_record e)) s t) as HF.
    destruct (func (Some (e_key e, e_record e)) s t) as [[[r s'] t']|er| |]; cbn [bind]; auto.
    destruct HF as [HF|[-> | ->]]; [discriminate| |exact I].
    destruct ((i <? num_bins t') && in_chain a (bin t' (Z.to_nat i))) eqn:E.
    + breflect. unfold fe_continue. destruct (after_bins a (bins t')) as [rest|] eqn:EA.
      * apply head_addr_safe. now apply after_bins_incl in EA.
      * now apply (after_bins_found a (bins t') (Z.to_nat i)).
    + pose proof (HC None s' t') as HF'.
      destruct (func None s' t') as [[[r s2] t2]|er| |]; cbn [bind]; auto. exact I.
Qed.

Lemma fe_run_safe n c :
  checked -> fe_safe c ->
  match fe_run func n c with Ok c' => fe_safe c' | Undefined => False | _ => True end.
Proof.
  intros HC; revert c; induction n as [|n IH]; intros c HS; cbn [fe_run]; auto.
  pose proof (fe_step_safe c HC HS) as H. destruct (fe_step func c) as [c'|er| |]; cbn [bind]; try exact I; [now apply IH|contradiction].
Qed.
End Steps.

(** *** Callbacks that leave the table alone *)

Context (f : Z -> Z -> St -> st_retval * St).

Definition pure_func (arg : option (Z * Z)) (s : St) (t : st_table) : outcome (st_retval * St * st_table) :=
  match arg with
  | Some (k, v) => let '(r, s') := f k v s in Ok (r, s', t)
  | None => Ok (ST_CONTINUE, s, t)
  end.

(** What the loop is meant to do with the sequence of entries: whether it
    was stopped, the state, and the entries that stay. *)
Fixpoint walk (l : list st_table_entry) (s : St) : bool * St * list st_table_entry :=
  match l with
  | [] => (false, s, [])
  | e :: l =>
      let '(r, s) := f (e_key e) (e_record e) s in
      match r with
      | ST_STOP => (true, s, e :: l)
      | ST_DELETE => walk l s
      | _ => let '(b, s, k) := walk l s in (b, s, e :: k)
      end
  end.

Lemma walk_app l m s :
  walk (l ++ m) s =
  let '(b, s, k) := walk l s in
  if b : bool then (true, s, k ++ m) else let '(b, s, k') := walk m s in (b, s, k ++ k').
Proof.
  revert s; induction l as [|e l IH]; intros s; cbn [app walk].
  - now destruct (walk m s) as [[b s'] k].
  - destruct (f (e_key e) (e_record e) s) as [[] s']; rewrite ?IH; auto;
      destruct (walk l s') as [[[] s2] k]; auto; now destruct (walk m s2) as [[b s3] k'].
Qed.

Lemma walk_incl l s : incl (snd (walk l s)) l.
Proof.
  revert s; induction l as [|e l IH]; intros s; cbn [walk]; [intros x []|].
  destruct (f (e_key e) (e_record e) s) as [r s']. specialize (IH s').
  destruct (walk l s') as [[b s2] k]. destruct r; cbn [snd] in *; intros x Hx;
    try (destruct Hx as [<-|Hx]; [now left|]); try (now right; apply IH); now right.
Qed.

Definition last_addr (l : list st_table_entry) : option Z :=
  match rev l with [] => None | e :: _ => Some (e_addr e) end.

Lemma last_addr_snoc l e : last_addr (l ++ [e]) = Some (e_addr e).
Proof. unfold last_addr. now rewrite rev_app_distr. Qed.

Lemma NoDup_addr_app l m :
  NoDup (addrs (l ++ m)) -> forall e f, In e l -> In f m -> (e_addr e =? e_addr f) = false.
Proof.
  unfold addrs. rewrite map_app. intros H e g He Hg. apply Z.eqb_neq. intros HE.
  apply in_split in He as (l1 & l2 & ->). rewrite map_app in H. cbn [map] in H.
  rewrite <- app_assoc in H. cbn [app] in H. apply NoDup_remove_2 in H. apply H.
  rewrite !in_app_iff, HE. right. right. now apply in_map.
Qed.

Lemma after_not_in a l : (forall e, In e l -> (e_addr e =? a) = false) -> after a l = None.
Proof.
  induction l as [|e l IH]; intros H; cbn [after]; auto. rewrite (H e) by now left.
  apply IH. intros x Hx. apply H. now right.
Qed.

Lemma after_app a l m :
  (forall e, In e l -> (e_addr e =? a) = false) -> after a (l ++ m) = after a m.
Proof.
  induction l as [|e l IH]; intros H; cbn [app after]; auto. rewrite (H e) by now left.
  apply IH. intros x Hx. apply H. now right.
Qed.

Lemma after_bins_app a bs m :
  (forall e, In e (concat bs) -> (e_addr e =? a) = false) -> after_bins a (bs ++ m) = after_bins a m.
Proof.
  induction bs as [|l bs IH]; intros H; cbn [app after_bins]; auto. cbn [concat] in H.
  rewrite after_not_in by (intros e He; apply H, in_app_iff; auto).
  apply IH. intros e He. apply H, in_app_iff. auto.
Qed.

Lemma unlink_app l0 rest l m :
  (forall e, In e l -> (e_addr e =? l0) = false) -> unlink_after l0 rest (l ++ m) = l ++ unlink_after l0 rest m.
Proof.
  induction l as [|e l IH]; intros H; cbn [app unlink_after]; auto. rewrite (H e) by now left.
  f_equal. apply IH. intros x Hx. apply H. now right.
Qed.
End ForeachLemmas.

Section ForeachPure.
Context {T : st_hash_type} {St : Type} (f : Z -> Z -> St -> st_retval * St).

(** The table while bin [length B1] is visited, [pre] behind and [suf] ahead
    of the pointer. *)
Definition mid (nb ne b : Z) (B1 B2 : list (list st_table_entry)) (l : list st_table_entry) : st_table :=
  mkTable nb ne (B1 ++ l :: B2) b.

Lemma mid_bin nb ne b B1 B2 l : bin (mid nb ne b B1 B2 l) (Z.to_nat (Z.of_nat (length B1))) = l.
Proof. unfold bin, mid; cbn [bins]. rewrite Nat2Z.id. apply nth_middle. Qed.

Lemma mid_all nb ne b B1 B2 l : all (mid nb ne b B1 B2 l) = concat B1 ++ l ++ concat B2.
Proof. unfold all, mid; cbn [bins]. now rewrite concat_app. Qed.

Lemma mid_set nb ne b B1 B2 l l' d :
  add_entries (set_bin (mid nb ne b B1 B2 l) (Z.to_nat (Z.of_nat (length B1))) l') d = mid nb (ne + d) b B1 B2 l'.
Proof.
  unfold add_entries, set_bin, mid; cbn [bins num_bins num_entries brk]. rewrite Nat2Z.id. f_equal.
  rewrite list_set_app by (rewrite length_app; cbn; lia).
  rewrite firstn_app, firstn_all, Nat.sub_diag, firstn_O, app_nil_r. f_equal. f_equal.
  rewrite skipn_app, skipn_all2 by lia. cbn [app].
  replace (S (length B1) - length B1)%nat with 1%nat by lia. reflexivity.
Qed.

Lemma mid_deref nb ne b B1 B2 pre e suf :
  NoDup (addrs (concat B1 ++ (pre ++ e :: suf) ++ concat B2)) ->
  deref (mid nb ne b B1 B2 (pre ++ e :: suf)) (e_addr e) = Some e.
Proof.
  intros HN. unfold deref. fold (all (mid nb ne b B1 B2 (pre ++ e :: suf))). rewrite mid_all.
  apply find_unique.
  - rewrite !in_app_iff. cbn. tauto.
  - apply Z.eqb_refl.
  - intros y Hy HE. apply Z.eqb_eq in HE. apply (NoDup_addr_inj _ y e HN Hy); auto.
    rewrite !in_app_iff. cbn. tauto.
Qed.

(** The addresses in front of an entry differ from its address. *)
Lemma mid_fresh B1 B2 pre e suf :
  NoDup (addrs (concat B1 ++ (pre ++ e :: suf) ++ concat B2)) ->
  (forall x, In x (concat B1) -> (e_addr x =? e_addr e) = false) /\
  (forall x, In x pre -> (e_addr x =? e_addr e) = false).
Proof.
  intros HN. split; intros x Hx.
  - apply (NoDup_addr_app _ _ HN); auto. rewrite !in_app_iff. cbn. tauto.
  - rewrite <- app_assoc, app_assoc in HN. apply (NoDup_addr_app _ _ HN); [apply in_app_iff; auto|].
    rewrite !in_app_iff. cbn. tauto.
Qed.

Lemma mid_continue nb ne b B1 B2 pre e suf i (s : St) :
  NoDup (addrs (concat B1 ++ (pre ++ e :: suf) ++ concat B2)) ->
  fe_continue i (e_addr e) s (mid nb ne b B1 B2 (pre ++ e :: suf)) =
    Ok (FE_at i (last_addr (pre ++ [e])) (head_addr suf) s (mid nb ne b B1 B2 ((pre ++ [e]) ++ suf))).
Proof.
  intros HN. destruct (mid_fresh B1 B2 pre e suf HN) as [H1 H2].
  unfold fe_continue. unfold mid at 1; cbn [bins].
  rewrite after_bins_app by exact H1. cbn [after_bins]. rewrite after_app by exact H2.
  cbn [after]. rewrite Z.eqb_refl, last_addr_snoc, <- app_assoc. reflexivity.
Qed.

Lemma mid_delete nb ne b B1 B2 pre e suf (s : St) :
  NoDup (addrs (concat B1 ++ (pre ++ e :: suf) ++ concat B2)) ->
  fe_delete (Z.of_nat (length B1)) (last_addr pre) (e_addr e) s (mid nb ne b B1 B2 (pre ++ e :: suf)) =
    Ok (FE_at (Z.of_nat (length B1)) (last_addr pre) (head_addr suf) s (mid nb (ne - 1) b B1 B2 (pre ++ suf))).
Proof.
  intros HN. destruct (mid_fresh B1 B2 pre e suf HN) as [_ H2].
  unfold fe_delete. rewrite mid_bin, after_app by exact H2. cbn [after]. rewrite Z.eqb_refl, !mid_set.
  destruct pre as [|l0 pre _] using rev_ind; [reflexivity|]. rewrite last_addr_snoc, mid_set.
  replace ((pre ++ [l0]) ++ e :: suf) with (pre ++ l0 :: e :: suf) in * by (rewrite <- app_assoc; reflexivity).
  destruct (mid_fresh B1 B2 pre l0 (e :: suf) HN) as [_ H3].
  assert (HS : forall x, In x (e :: suf) -> (e_addr x =? e_addr l0) = false).
  { intros x Hx. rewrite Z.eqb_sym.
    replace (concat B1 ++ (pre ++ l0 :: e :: suf) ++ concat B2)
      with ((concat B1 ++ pre ++ [l0]) ++ (e :: suf) ++ concat B2) in HN by (rewrite <- !app_assoc; reflexivity).
    apply (NoDup_addr_app _ _ HN); rewrite !in_app_iff; cbn; tauto. }
  replace (in_chain (e_addr l0) (pre ++ l0 :: e :: suf)) with true.
  2:{ symmetry. apply existsb_exists. exists l0. split; [apply in_middle; auto|apply Z.eqb_refl]. }
  replace (in_chain (e_addr l0) suf) with false.
  2:{ symmetry. apply not_true_is_false. intros HX. apply existsb_exists in HX as (x & Hx & HE).
      rewrite HS in HE by now right. discriminate. }
  rewrite Z.eqb_sym, (HS e) by now left. cbn [negb andb].
  rewrite unlink_app by exact H3. cbn [unlink_after]. rewrite Z.eqb_refl, <- app_assoc. reflexivity.
Qed.

(** The inner loop over the rest of a chain. *)
Lemma fe_inner nb b B1 B2 suf pre ne s :
  0 <= Z.of_nat (length B1) < nb ->
  NoDup (addrs (concat B1 ++ (pre ++ suf) ++ concat B2)) ->
  fe_run (pure_func f) (S (length suf))
    (FE_at (Z.of_nat (length B1)) (last_addr pre) (head_addr suf) s (mid nb ne b B1 B2 (pre ++ suf))) =
  let '(stop, s', k) := walk f suf s in
  let t' := mid nb (ne - Z.of_nat (length suf) + Z.of_nat (length k)) b B1 B2 (pre ++ k) in
  Ok (if stop : bool then FE_done s' t' else FE_bin (Z.of_nat (length B1) + 1) s' t').
Proof.
  intros Hnb; revert pre ne s; induction suf as [|e suf IH]; intros pre ne s HN.
  - cbn. do 3 f_equal. lia.
  - change (fe_run (pure_func f) (S (length (e :: suf))) ?c)
      with (bind (fe_step (pure_func f) c) (fe_run (pure_func f) (S (length suf)))).
    cbn [head_addr fe_step]. rewrite mid_deref by exact HN. cbn [pure_func walk].
    destruct (f (e_key e) (e_record e) s) as [r s']. cbn [bind].
    assert (HN' : NoDup (addrs (concat B1 ++ ((pre ++ [e]) ++ suf) ++ concat B2))).
    { rewrite <- (app_assoc pre). exact HN. }
    assert (HCont : forall r, (r = ST_CONTINUE \/ r = ST_CHECK) ->
      bind (fe_continue (Z.of_nat (length B1)) (e_addr e) s' (mid nb ne b B1 B2 (pre ++ e :: suf)))
        (fe_run (pure_func f) (S (length suf))) =
      let '(stop, s2, k) := (let '(b0, s2, k) := walk f suf s' in (b0, s2, e :: k)) in
      let t' := mid nb (ne - Z.of_nat (length (e :: suf)) + Z.of_nat (length k)) b B1 B2 (pre ++ k) in
      Ok (if stop : bool then FE_done s2 t' else FE_bin (Z.of_nat (length B1) + 1) s2 t')).
    { intros _ _. rewrite mid_continue by exact HN. cbn [bind]. rewrite IH by exact HN'.
      destruct (walk f suf s') as [[stop s2] k]. rewrite <- (app_assoc pre). cbn [app length].
      destruct stop; do 3 f_equal; lia. }
    destruct r.
    + now apply (HCont ST_CONTINUE); auto.
    + cbn [bind]. rewrite (fe_run_done _ (S (length suf))). do 3 f_equal. lia.
    + rewrite mid_delete by exact HN. cbn [bind].
      assert (HN2 : NoDup (addrs (concat B1 ++ (pre ++ suf) ++ concat B2))).
      { unfold addrs in *. rewrite !map_app in *. cbn [map] in HN. rewrite <- app_assoc in HN. cbn [app] in HN.
        rewrite app_assoc in HN. apply NoDup_remove_1 in HN. rewrite <- !app_assoc in *. exact HN. }
      rewrite IH by exact HN2. destruct (walk f suf s') as [[stop s2] k]. cbn [length].
      destruct stop; do 3 f_equal; lia.
    + rewrite mid_bin. replace (Z.of_nat (length B1) <? num_bins (mid nb ne b B1 B2 (pre ++ e :: suf))) with true
        by (cbn; lia).
      replace (in_chain (e_addr e) (pre ++ e :: suf)) with true.
      2:{ symmetry. apply existsb_exists. exists e. split; [apply in_middle; auto|apply Z.eqb_refl]. }
      cbn [andb]. now apply (HCont ST_CHECK); auto.
Qed.
End ForeachPure.

Section ForeachSpec.
Context {T : st_hash_type} {St : Type} (f : Z -> Z -> St -> st_retval * St).

Lemma walk_NoDup A l B s :
  NoDup (addrs (A ++ l ++ B)) -> NoDup (addrs (A ++ snd (walk f l s) ++ B)).
Proof.
  revert A s; induction l as [|e l IH]; intros A s HN; cbn [walk]; [exact HN|].
  destruct (f (e_key e) (e_record e) s) as [r s'].
  assert (HK : NoDup (addrs (A ++ (e :: snd (walk f l s')) ++ B))).
  { specialize (IH (A ++ [e]) s'). rewrite <- !app_assoc in IH. now apply IH. }
  destruct (walk f l s') as [[b s2] k] eqn:EW. cbn [snd] in *.
  destruct r; cbn [snd]; auto.
  replace k with (snd (walk f l s')) by now rewrite EW. apply IH.
  unfold addrs in *. rewrite map_app in *. cbn [app map] in HN. now apply NoDup_remove_1 in HN.
Qed.

Lemma fe_outer nb b B2 B1 ne s :
  nb = Z.of_nat (length (B1 ++ B2)) -> NoDup (addrs (concat B1 ++ concat B2)) ->
  exists B', fe_run (pure_func f) (length (concat B2) + 2 * length B2 + 1)
      (FE_bin (Z.of_nat (length B1)) s (mkTable nb ne (B1 ++ B2) b)) =
    (let '(_, s', k) := walk f (concat B2) s in
     Ok (FE_done s' (mkTable nb (ne - Z.of_nat (length (concat B2)) + Z.of_nat (length k)) (B1 ++ B') b))) /\
    concat B' = snd (walk f (concat B2) s) /\ Forall2 (fun l' l => incl l' l) B' B2.
Proof.
  revert B1 ne s; induction B2 as [|l B2 IH]; intros B1 ne s Hnb HN.
  - exists []. cbn [concat walk length Nat.add Nat.mul fe_run fe_step num_bins snd]. rewrite app_nil_r in Hnb.
    replace (Z.of_nat (length B1) <? nb) with false by lia. cbn [bind]. splits; auto.
    do 3 f_equal. lia.
  - assert (Hlt : 0 <= Z.of_nat (length B1) < nb) by (rewrite length_app in Hnb; cbn in Hnb; lia).
    cbn [concat] in *. rewrite length_app. cbn [length].
    replace (length l + length (concat B2) + 2 * S (length B2) + 1)%nat
      with (1 + (S (length l) + (length (concat B2) + 2 * length B2 + 1)))%nat by lia.
    rewrite fe_run_add. cbn [fe_run fe_step num_bins].
    replace (Z.of_nat (length B1) <? nb) with true by lia. cbn [bind].
    change (mkTable nb ne (B1 ++ l :: B2) b) with (mid nb ne b B1 B2 ([] ++ l)).
    rewrite mid_bin. cbn [app]. change None with (last_addr []) at 1. change l with ([] ++ l) at 3.
    rewrite fe_run_add, (fe_inner f nb b B1 B2 l [] ne s Hlt HN). cbn [app].
    pose proof (walk_NoDup (concat B1) l (concat B2) s HN) as HNk. pose proof (walk_incl f l s) as HI.
    rewrite walk_app. destruct (walk f l s) as [[stop s1] k1]. cbn [snd] in *. destruct stop; cbn [bind].
    + rewrite fe_run_done. exists (k1 :: B2). splits; auto.
      * rewrite !length_app. do 3 f_equal. unfold mid. f_equal. lia.
      * constructor; auto. clear. induction B2; constructor; auto. intros x; auto.
    + destruct (IH (B1 ++ [k1]) (ne - Z.of_nat (length l) + Z.of_nat (length k1)) s1) as (B' & HR & HC & HF).
      { rewrite <- app_assoc. rewrite length_app in *. exact Hnb. }
      { rewrite concat_app. cbn [concat]. rewrite app_nil_r, <- app_assoc. exact HNk. }
      exists (k1 :: B'). rewrite length_app in HR. cbn [length] in HR. rewrite Nat2Z.inj_add in HR.
      rewrite <- app_assoc in HR. unfold mid. cbn [app] in HR. change (Z.of_nat 1) with 1 in HR. rewrite HR.
      destruct (walk f (concat B2) s1) as [[st2 s2] k2]. cbn [snd concat] in *. splits; auto.
      * rewrite <- app_assoc. cbn [app]. do 3 f_equal. rewrite !length_app. lia.
      * now rewrite HC.
Qed.

(** The whole loop, on a callback that leaves the table alone. *)
Lemma st_foreach_spec t s :
  num_bins t = Z.of_nat (length (bins t)) -> NoDup (addrs (all t)) ->
  exists t', st_foreach (pure_func f) (fe_fuel t) t s = Ok (Some (snd (fst (walk f (all t) s)), t')) /\
    all t' = snd (walk f (all t) s) /\
    num_entries t' = num_entries t - Z.of_nat (length (all t)) + Z.of_nat (length (all t')) /\
    num_bins t' = num_bins t /\ brk t' = brk t /\ Forall2 (fun l' l => incl l' l) (bins t') (bins t).
Proof.
  intros Hnb HN. destruct t as [nb ne bs b]. unfold all in *. cbn [num_bins bins num_entries brk] in *.
  destruct (fe_outer nb b bs [] ne s Hnb HN) as (B' & HR & HC & HF). cbn [app concat length] in HR.
  unfold st_foreach, fe_fuel. cbn [bins]. change (Z.of_nat 0) with 0 in HR. rewrite HR.
  destruct (walk f (concat bs) s) as [[st s'] k]. cbn [bind fst snd] in *. eexists. splits; [reflexivity|..]; cbn; auto.
  now rewrite HC.
Qed.
End ForeachSpec.

(** ** Deletion during iteration *)

Section Safe.
Context {T : st_hash_type} {L : HashLaws T}.
Context (never : Z).
Context (never_alone : forall n k, Some never = Some n -> EQUAL n k = true -> k = n).

Notation wf := (wf (Some never)).
Notation valid_key := (valid_key (Some never)).
Notation live := (live (Some never)).

Lemma never_not_equal k : valid_key k -> EQUAL k never = false.
Proof.
  intros Hk. apply not_true_is_false. intros H. rewrite EQUAL_sym in H.
  apply Hk. f_equal. symmetry. now apply (never_alone never).
Qed.

Lemma st_delete_safe_spec t k :
  wf t -> valid_key k ->
  let '(r, t') := st_delete_safe t k never in
  option_map snd r = assoc (all t) k /\ (forall k0 v, r = Some (k0, v) -> EQUAL k k0 = true) /\
  wf t' /\ maps (Some never) t' (fun k' => if EQUAL k' k then None else assoc (all t) k') /\
  num_entries t' = num_entries t - match r with Some _ => 1 | None => 0 end /\
  map e_addr (all t') = map e_addr (all t).
Proof.
  intros W Hk. unfold st_delete_safe. set (p := fun e => _).
  assert (Hp : forall e, p e = key_is k e).
  { intros e. unfold p, key_is. rewrite EQUAL_sym. destruct (Z.eqb_spec (e_key e) never) as [->|]; auto.
    cbn [negb andb]. symmetry. now apply never_not_equal. }
  rewrite (find_ext_in p (key_is k)) by auto. rewrite (find_bin _ never_alone) by auto.
  unfold assoc at 1. destruct (find (key_is k) (all t)) as [e|] eqn:EF.
  - destruct (found _ never_alone t k e W Hk EF) as (_ & Hl & HE & Hi). set (i := bin_pos t (do_hash k)) in *.
    pose proof (find_bin _ never_alone t k W Hk) as HFE. rewrite EF in HFE.
    destruct (find_split _ _ _ HFE) as (l1 & l2 & Hb & H1 & H2). fold i in Hb. rewrite Hb.
    destruct (update_first_app p (bury never) l1 e l2) as [-> _]; [intros y Hy; rewrite Hp; auto|now rewrite Hp|].
    assert (Hbl : live (bury never e) = false) by (cbn; now rewrite Z.eqb_refl).
    pose proof (wf_replace _ t i l1 e (bury never e) l2 W Hi Hb eq_refl eq_refl
      ltac:(rewrite Hbl; discriminate)) as W'. rewrite Hbl, Hl in W'. cbn [Z.sub] in W'.
    change (0 - 1) with (-1) in W'.
    destruct (around t i l1 e l2 [bury never e] Hi Hb) as (A & B & HA & HA'). cbn [app] in HA'.
    splits; [reflexivity|intros k0 v Hs; injection Hs as <- _; exact HE|exact W'| |cbn; lia|].
    + intros k' Hk'. rewrite (st_lookup_spec _ never_alone) by auto. pose proof (wf_distinct _ _ W') as HD'.
      change (all (add_entries (set_bin t i (l1 ++ bury never e :: l2)) (-1)))
        with (all (set_bin t i (l1 ++ bury never e :: l2))) in *.
      rewrite HA' in HD' |- *. rewrite (assoc_middle _ never_alone) by auto. cbn [bury e_key].
      rewrite never_not_equal by auto.
      pose proof (wf_distinct _ t W) as HD. destruct (wf_addrs _ t W) as [HN _].
      rewrite HA in HD, HN |- *. rewrite (assoc_middle _ never_alone A e B) by auto.
      rewrite (EQUAL_swap k (e_key e) k' HE). destruct (EQUAL k' k) eqn:E; auto.
      apply (assoc_gone _ never_alone A e); auto. rewrite <- E. now apply EQUAL_swap.
    + change (all (add_entries ?x _)) with (all x). rewrite HA, HA', !map_app. reflexivity.
  - splits; [reflexivity|discriminate|exact W| |lia|reflexivity].
    intros k' Hk'. rewrite (st_lookup_spec _ never_alone) by auto.
    destruct (EQUAL k' k) eqn:E; auto. unfold assoc.
    rewrite (find_ext_in (key_is k') (key_is k)); [now rewrite EF|].
    intros e _. unfold key_is. apply EQUAL_proper; [exact E|reflexivity].
Qed.

(** [st_cleanup_safe] drops the buried entries and nothing else. *)
Definition buried (e : st_table_entry) : Prop := live e = false <-> e_record e = never.

Lemma walk_never l :
  walk (fun _ v s => (if v =? never then ST_DELETE else ST_CONTINUE, s)) l tt =
    (false, tt, filter (fun e => negb (e_record e =? never)) l).
Proof.
  induction l as [|e l IH]; cbn [walk filter]; auto.
  destruct (e_record e =? never); cbn [negb]; rewrite IH; reflexivity.
Qed.

Lemma nth_incl (B' B : list (list st_table_entry)) i :
  Forall2 (fun l' l => incl l' l) B' B -> incl (nth i B' []) (nth i B []).
Proof. intros H; revert i; induction H; intros [|i]; cbn [nth]; auto; intros x []. Qed.

Lemma st_cleanup_safe_spec t :
  wf t -> Forall buried (all t) ->
  exists t', st_cleanup_safe t never = Ok (Some t') /\ wf t' /\
    all t' = filter live (all t) /\ num_entries t' = num_entries t /\
    maps (Some never) t' (assoc (all t)).
Proof.
  intros W HB. unfold st_cleanup_safe. destruct (wf_bins _ t W) as [Hp HL].
  change (delete_never never)
    with (pure_func (fun _ v (s : unit) => (if v =? never then ST_DELETE else ST_CONTINUE, s))).
  destruct (st_foreach_spec (fun _ v s => (if v =? never then ST_DELETE else ST_CONTINUE, s)) t tt)
    as (t1 & -> & HA & _ & Hnb & Hbk & HF); [lia|apply (wf_addrs _ t W)|].
  rewrite walk_never in HA. cbn [bind option_map snd] in *. eexists. split; [reflexivity|].
  set (t' := mkTable _ _ _ _). change (all t') with (all t1).
  assert (HX : filter (fun e => negb (e_record e =? never)) (all t) = filter live (all t)).
  { clear -HB. induction HB as [|e l He _ IH]; cbn [filter]; auto. rewrite IH. unfold buried in He.
    destruct (Z.eqb_spec (e_record e) never) as [HE|HE]; cbn [negb].
    - now rewrite (proj2 He HE).
    - destruct (live e) eqn:E; auto. exfalso. now apply HE, He. }
  rewrite HX in HA.
  assert (HI : incl (all t1) (all t)) by (rewrite HA; apply incl_filter).
  assert (W' : wf t').
  { split; change (all t') with (all t1); unfold t'; cbn [num_bins bins num_entries brk].
    - rewrite Hnb, (Forall2_length HF). auto.
    - intros i e He. pose proof (nth_incl _ _ i HF e He) as Hin. unfold bin_pos; cbn [num_bins]. rewrite Hnb.
      now apply (wf_placed _ t W i e).
    - intros e He. apply (wf_hash _ t W). auto.
    - apply (distinct_sub _ (all t)); auto. apply (wf_distinct _ t W).
    - destruct (wf_addrs _ t W) as [HNd HFa]. rewrite Hbk, HA. unfold addrs in *. split.
      + apply NoDup_map_filter; exact HNd.
      + rewrite Forall_forall in *. intros a Ha. apply in_map_iff in Ha as (e & <- & He).
        apply HFa, in_map. now apply filter_In in He.
    - rewrite (wf_count _ t W), HA. f_equal. now rewrite filter_twice. }
  splits; auto. intros k Hk. rewrite (st_lookup_spec _ never_alone) by auto. change (all t') with (all t1).
  rewrite HA. unfold assoc. f_equal. clear -Hk never_alone L.
  induction (all t) as [|e l IH]; cbn [filter find]; auto. destruct (live e) eqn:E; cbn [find]; rewrite IH; auto.
  destruct (key_is k e) eqn:EK; auto. apply (key_is_live _ never_alone k e Hk) in EK. congruence.
Qed.
End Safe.

(** ** The table as a map *)

Section Refinement.
Context {T : st_hash_type} {L : HashLaws T}.

(** What a client asks for and what it is answered: the values
    [st_insert] (1 when the key was there), [st_delete] and [st_lookup] give
    back. *)
Inductive request := Insert (k v : Z) | Delete (k : Z) | Lookup (k : Z).

Definition serve (r : request) (t : st_table) : outcome (option Z * st_table) :=
  match r with
  | Insert k v => '(b, t') <- st_insert t k v ;; Ok (Some (if b : bool then 1 else 0), t')
  | Delete k => let '(o, t') := st_delete t k in Ok (option_map snd o, t')
  | Lookup k => Ok (st_lookup t k, t)
  end.

Fixpoint serve_all (rs : list request) (t : st_table) : outcome (list (option Z) * st_table) :=
  match rs with
  | [] => Ok ([], t)
  | r :: rs =>
      '(a, t') <- serve r t ;;
      '(l, t'') <- serve_all rs t' ;;
      Ok (a :: l, t'')
  end.

(** The same requests on a function from keys to values. *)
Definition answer (r : request) (m : Z -> option Z) : option Z * (Z -> option Z) :=
  match r with
  | Insert k v => (Some (match m k with Some _ => 1 | None => 0 end),
                   fun k' => if EQUAL k' k then Some v else m k')
  | Delete k => (m k, fun k' => if EQUAL k' k then None else m k')
  | Lookup k => (m k, m)
  end.

Fixpoint answer_all (rs : list request) (m : Z -> option Z) : list (option Z) * (Z -> option Z) :=
  match rs with
  | [] => ([], m)
  | r :: rs =>
      let '(a, m') := answer r m in
      let '(l, m'') := answer_all rs m' in
      (a :: l, m'')
  end.

Definition no_never : forall n k : Z, None = Some n -> EQUAL n k = true -> k = n.
Proof. discriminate. Defined.

Lemma valid_None k : valid_key None k.
Proof. discriminate. Qed.

Lemma lookup_assoc t k : wf None t -> st_lookup t k = assoc (all t) k.
Proof. intros W. apply (st_lookup_spec None no_never t k W (valid_None k)). Qed.

Lemma serve_refines r t m :
  wf None t -> num_entries t < ENTRIES_MAX -> (forall k, st_lookup t k = m k) ->
  exists t', serve r t = Ok (fst (answer r m), t') /\ wf None t' /\
    num_entries t' <= num_entries t + 1 /\ (forall k, st_lookup t' k = snd (answer r m) k).
Proof.
  intros W HE Hm. destruct r as [k v|k|k]; cbn [serve answer fst snd].
  - destruct (st_insert_spec None no_never t k v W HE (valid_None k)) as (t' & -> & W' & HM & HN & _).
    cbn [bind]. exists t'. rewrite <- (lookup_assoc t k W), Hm in HN. splits; [|exact W'| |].
    + rewrite <- (lookup_assoc t k W), Hm. now destruct (m k).
    + destruct (m k); lia.
    + intros k'. rewrite (HM k' (valid_None k')), <- (lookup_assoc t k' W), Hm. reflexivity.
  - pose proof (st_delete_spec None no_never t k W (valid_None k)) as H.
    destruct (st_delete t k) as [o t']. destruct H as (Hr & _ & W' & HM & HN). exists t'.
    rewrite <- (lookup_assoc t k W), Hm in Hr. splits; [now rewrite Hr|exact W'|destruct o; lia|].
    intros k'. rewrite (HM k' (valid_None k')), <- (lookup_assoc t k' W), Hm. reflexivity.
  - exists t. splits; [now rewrite Hm|exact W|lia|exact Hm].
Qed.

Lemma serve_all_refines rs t m :
  wf None t -> num_entries t + Z.of_nat (length rs) <= ENTRIES_MAX -> (forall k, st_lookup t k = m k) ->
  exists t', serve_all rs t = Ok (fst (answer_all rs m), t') /\ wf None t' /\
    (forall k, st_lookup t' k = snd (answer_all rs m) k).
Proof.
  revert t m. induction rs as [|r rs IH]; intros t m W HE Hm; cbn [serve_all answer_all].
  - eauto.
  - cbn [length] in HE. destruct (serve_refines r t m W ltac:(lia) Hm) as (t' & -> & W' & HN & Hm').
    cbn [bind]. destruct (answer r m) as [a m']. cbn [fst snd] in *.
    destruct (IH t' m' W' ltac:(lia) Hm') as (t'' & -> & W'' & Hm''). cbn [bind].
    destruct (answer_all rs m') as [l m'']. eauto.
Qed.

(** A fresh table is the empty map. *)
Lemma st_init_refines size :
  0 <= size < 268435456 ->
  exists t, st_init_table_with_size size = Ok t /\ wf None t /\ num_entries t = 0 /\
    forall k, st_lookup t k = None.
Proof.
  intros Hs. destruct (st_init_table_with_size_spec None size Hs) as (t & E & W & Ha & _).
  exists t. splits; [exact E|exact W| |].
  - rewrite (wf_count _ t W), Ha. reflexivity.
  - intros k. rewrite (lookup_assoc t k W), Ha. reflexivity.
Qed.
End Refinement.

(** ** Sizes *)

(** Trial division up to the square root. *)
Fixpoint no_divisor (n : nat) (p d : Z) : bool :=
  match n with
  | O => true
  | S n => negb (p mod d =? 0) && no_divisor n p (d + 1)
  end.

Definition prime_test (p : Z) : bool :=
  (1 <? p) && no_divisor (Z.to_nat (Z.sqrt p - 1)) p 2.

Lemma no_divisor_spec n p d k :
  no_divisor n p d = true -> d <= k < d + Z.of_nat n -> ~ (k | p).
Proof.
  revert d; induction n as [|n IH]; intros d H Hk; cbn [no_divisor] in H; [lia|].
  apply andb_prop in H as [H1 H2]. destruct (Z.eq_dec k d) as [->|].
  - intros Hd. destruct (Z.eq_dec d 0) as [->|]; [rewrite Zmod_0_r in H1; destruct Hd as [q Hq]; rewrite Z.mul_0_r in Hq; subst; discriminate|].
    apply Z.mod_divide in Hd; [|assumption]. rewrite Hd in H1. discriminate.
  - apply (IH (d + 1)); [exact H2|lia].
Qed.

Lemma prime_test_sound p : prime_test p = true -> Znumtheory.prime p.
Proof.
  unfold prime_test. intros H. breflect.
  apply Znumtheory.prime_alt. split; [exact H|]. intros k Hk Hd.
  pose proof (Z.sqrt_spec p ltac:(lia)) as Hs. cbv zeta in Hs. pose proof (Z.sqrt_nonneg p).
  assert (Hall : forall q, 1 < q -> q <= Z.sqrt p -> ~ (q | p)).
  { intros q Hq1 Hq2. apply (no_divisor_spec _ _ 2 q H0). lia. }
  destruct (Z.le_gt_cases k (Z.sqrt p)) as [Hle|Hgt].
  - apply (Hall k); auto. lia.
  - destruct Hd as [q Hq]. set (r := Z.sqrt p) in *.
    assert (Hq1 : 1 < q) by (apply Z.nle_gt; intros Hn; assert (q * k <= 1 * k) by (apply Z.mul_le_mono_nonneg_r; lia); lia).
    assert (Hq2 : q <= r).
    { apply Z.nlt_ge. intros Hn. assert (Z.succ r * Z.succ r <= q * k) by (apply Z.mul_le_mono_nonneg; lia). lia. }
    apply (Hall q Hq1 Hq2). exists k. lia.
Qed.

Lemma primes_prime p : In p primes -> p <> 0 -> Znumtheory.prime p.
Proof.
  intros Hp H0. apply prime_test_sound.
  assert (HA : forallb (fun p => (p =? 0) || prime_test p) primes = true) by (vm_compute; reflexivity).
  apply (proj1 (forallb_forall _ _) HA) in Hp. apply orb_prop in Hp as [Hp|Hp]; [|exact Hp].
  apply Z.eqb_eq in Hp. contradiction.
Qed.

Lemma new_size_loop_skip p ps n m size :
  s32 (Z.shiftl n 1) = m -> n <= size -> new_size_loop (p :: ps) n size = new_size_loop ps m size.
Proof. intros <- H. cbn [new_size_loop]. now rewrite (proj2 (Z.ltb_ge _ _) H). Qed.

(** A requested size above the last prime that can be allocated. *)
Lemma new_size_big size :
  268435456 <= size < 1073741824 ->
  new_size size = if size <? 536870912 then 536870923 else 1073741909.
Proof.
  intros H. unfold new_size, primes, MINSIZE.
  do 26 (erewrite new_size_loop_skip; [|vm_compute; reflexivity|lia]).
  destruct (Z.ltb_spec size 536870912) as [H1|H1].
  - cbn [new_size_loop]. now rewrite (proj2 (Z.ltb_lt _ _) H1).
  - erewrite new_size_loop_skip; [|vm_compute; reflexivity|lia].
    cbn [new_size_loop]. now rewrite (proj2 (Z.ltb_lt _ _) (proj2 H)).
Qed.

(** ** Properties *)

(** C4: a table is a map from keys to values, for every hash type whose hash
    function respects its comparison: any sequence of [st_insert], [st_delete]
    and [st_lookup] on a fresh table gives the answers of a plain function from
    keys to values, through all rehashes.  Fewer than [ENTRIES_MAX] requests keep
    every rehash within what can be allocated. *)
Theorem st_refines_map {T : st_hash_type} {L : HashLaws T} size rs :
  0 <= size < 268435456 -> Z.of_nat (length rs) <= ENTRIES_MAX ->
  exists t t', st_init_table_with_size size = Ok t /\
    serve_all rs t = Ok (fst (answer_all rs (fun _ => None)), t') /\ wf None t' /\
    forall k, st_lookup t' k = snd (answer_all rs (fun _ => None)) k.
Proof.
  intros Hs Hn. destruct (st_init_refines size Hs) as (t & E & W & HE & Hm).
  destruct (serve_all_refines rs t (fun _ => None) W ltac:(lia) Hm) as (t' & Es & W' & Hm'). eauto 6.
Qed.

(** A table of strings: addresses 100 and 300 hold equal strings. *)
Definition sample_mem (p : Z) : list Z := if p =? 200 then [98] else [97].
Definition sample_requests : list request :=
  [Insert 100 1; Insert 200 2; Insert 300 3; Lookup 100; Delete 200; Lookup 200].

Lemma st_refines_map_witness :
  exists t t', @st_init_table_with_size 0 = Ok t /\
    @serve_all (type_strhash sample_mem) sample_requests t =
      Ok (fst (@answer_all (type_strhash sample_mem) sample_requests (fun _ => None)), t') /\
    @wf (type_strhash sample_mem) None t' /\
    forall k, @st_lookup (type_strhash sample_mem) t' k =
      snd (@answer_all (type_strhash sample_mem) sample_requests (fun _ => None)) k.
Proof.
  apply (@st_refines_map (type_strhash sample_mem) (strhash_laws sample_mem) 0 sample_requests); cbn;
    unfold ENTRIES_MAX; lia.
Defined.

(** C5: [st_foreach] never follows a pointer to a freed entry, whatever the
    callback does to the table (insertions with rehash, deletions), as long as
    the callback asks for the check ([ST_CHECK]) or stops. *)
Theorem st_foreach_memory_safe {T : st_hash_type} {St : Type}
    (func : option (Z * Z) -> St -> st_table -> outcome (st_retval * St * st_table)) n t s :
  checked func ->
  match fe_run func n (FE_bin 0 s t) with
  | Ok c => fe_safe c
  | Undefined => False
  | _ => True
  end.
Proof. intros H. apply fe_run_safe; [exact H|exact I]. Qed.

(** A callback that deletes the entry it is given. *)
Definition deleter {T : st_hash_type} (arg : option (Z * Z)) (s : unit) (t : st_table) :
    outcome (st_retval * unit * st_table) :=
  match arg with
  | Some (k, _) => Ok (ST_CHECK, s, snd (st_delete t k))
  | None => Ok (ST_CONTINUE, s, t)
  end.

Lemma st_foreach_memory_safe_witness :
  match fe_run deleter 10 (FE_bin 0 tt (mkTable 1 2 [[mkEntry 1 0 0 5; mkEntry 2 11 11 6]] 3)) with
  | Ok c => fe_safe c
  | Undefined => False
  | _ => True
  end.
Proof.
  apply (st_foreach_memory_safe deleter 10 (mkTable 1 2 [[mkEntry 1 0 0 5; mkEntry 2 11 11 6]] 3) tt).
  intros [[k v]|] s t; cbn; auto.
Defined.

(** with a callback that leaves the table alone [st_foreach] ends, calls it
    once for every entry in the order of the bins until it says [ST_STOP],
    removes exactly the entries answered with [ST_DELETE], and counts them. *)
Theorem st_foreach_walks {T : st_hash_type} {St : Type} (f : Z -> Z -> St -> st_retval * St) t s :
  num_bins t = Z.of_nat (length (bins t)) -> NoDup (addrs (all t)) ->
  exists t', st_foreach (pure_func f) (fe_fuel t) t s = Ok (Some (snd (fst (walk f (all t) s)), t')) /\
    all t' = snd (walk f (all t) s) /\
    num_entries t' = num_entries t - Z.of_nat (length (all t)) + Z.of_nat (length (all t')) /\
    num_bins t' = num_bins t.
Proof.
  intros Hb Ha. destruct (st_foreach_spec f t s Hb Ha) as (t' & E & H1 & H2 & H3 & _). eauto 6.
Qed.

Lemma st_foreach_walks_witness :
  exists t', st_foreach (pure_func (fun k v s => (if k =? 1 then ST_DELETE else ST_CONTINUE, s + v))) 8
      (mkTable 2 3 [[mkEntry 1 0 1 5; mkEntry 2 2 2 6]; [mkEntry 3 1 3 7]] 4) 0 = Ok (Some (18, t')) /\
    all t' = [mkEntry 2 2 2 6; mkEntry 3 1 3 7] /\
    num_entries t' = 3 - 3 + Z.of_nat (length (all t')) /\ num_bins t' = 2.
Proof.
  apply (st_foreach_walks (fun k v s => (if k =? 1 then ST_DELETE else ST_CONTINUE, s + v))
    (mkTable 2 3 [[mkEntry 1 0 1 5; mkEntry 2 2 2 6]; [mkEntry 3 1 3 7]] 4) 0); [reflexivity|].
  cbn. repeat (apply NoDup_cons; [cbn; lia|]). apply NoDup_nil.
Defined.

(** Deletion during an iteration: [st_delete_safe] takes the key out of the
    map and keeps every entry in its place (only the key and the record become
    [never]); [st_cleanup_safe] afterwards removes exactly the buried entries and
    keeps the map and the count. *)
Theorem st_safe_deletion {T : st_hash_type} {L : HashLaws T} never t k :
  (forall m, EQUAL never m = true -> m = never) -> wf (Some never) t -> k <> never ->
  (let '(r, t') := st_delete_safe t k never in
   option_map snd r = assoc (all t) k /\ wf (Some never) t' /\
   maps (Some never) t' (fun k' => if EQUAL k' k then None else assoc (all t) k') /\
   map e_addr (all t') = map e_addr (all t)) /\
  (Forall (buried never) (all t) ->
   exists t', st_cleanup_safe t never = Ok (Some t') /\ wf (Some never) t' /\
     all t' = filter (live (Some never)) (all t) /\ num_entries t' = num_entries t /\
     maps (Some never) t' (assoc (all t))).
Proof.
  intros Hn W Hk.
  assert (NA : forall n m, Some never = Some n -> EQUAL n m = true -> m = n)
    by (intros n m E HE; injection E as <-; auto).
  assert (Vk : valid_key (Some never) k) by (intros E; injection E as E; congruence).
  split.
  - pose proof (st_delete_safe_spec never NA t k W Vk) as H. destruct (st_delete_safe t k never) as [r t'].
    destruct H as (H1 & _ & H3 & H4 & _ & H6). auto.
  - now apply (st_cleanup_safe_spec never NA).
Qed.

(** Keys compared as words. *)
Definition type_word : st_hash_type := {| compare x y := if x =? y then 0 else 1; hash x := x |}.

Lemma word_laws : HashLaws type_word.
Proof.
  split; cbn; intros x y.
  - rewrite (Z.eqb_sym y x). auto.
  - intros z. destruct (Z.eqb_spec x y) as [->|]; [auto|discriminate].
  - destruct (Z.eqb_spec x y) as [->|]; [auto|discriminate].
Qed.

Definition sample_table : st_table := mkTable 1 2 [[mkEntry 1 0 0 5; mkEntry 2 11 11 6]] 3.

Lemma sample_wf : @wf type_word (Some 99) sample_table.
Proof.
  split.
  - split; reflexivity.
  - intros i e He. destruct i as [|[|i]]; cbn in He; [|contradiction..].
    destruct He as [<-|[<-|[]]]; reflexivity.
  - intros e [<-|[<-|[]]] _; reflexivity.
  - intros e f [<-|[<-|[]]] [<-|[<-|[]]] _ _ E; try reflexivity; discriminate.
  - split; cbn; [repeat (apply NoDup_cons; [cbn; lia|]); apply NoDup_nil|repeat constructor].
  - reflexivity.
Qed.

Lemma st_safe_deletion_witness :
  option_map snd (fst (@st_delete_safe type_word sample_table 11 99)) = Some 6 /\
  map e_addr (all (snd (@st_delete_safe type_word sample_table 11 99))) = [1; 2].
Proof.
  refine (let H := proj1 (@st_safe_deletion type_word word_laws 99 sample_table 11 _ sample_wf _) in
    conj (proj1 H) (proj2 (proj2 (proj2 H)))).
  - intros m E. destruct (Z.eq_dec m 99) as [|Hn]; [assumption|exfalso]. revert E. unfold EQUAL, compare, type_word.
    rewrite (proj2 (Z.eqb_neq 99 m)) by congruence. discriminate.
  - discriminate.
Defined.

(** [st_copy] gives a table with the same map, the same number of entries
    and every chain reversed, made of new entries only: no entry is shared with
    the original, and both stay well formed. *)
Theorem st_copy_independent {T : st_hash_type} {L : HashLaws T} t :
  wf None t ->
  let t' := st_copy t in
  wf None t' /\ (forall k, st_lookup t' k = st_lookup t k) /\ num_entries t' = num_entries t /\
  Forall2 same_bin (bins t') (bins t) /\
  (forall a, In a (addrs (all t')) -> ~ In a (addrs (all t))).
Proof.
  intros W t'. destruct (st_copy_spec None no_never t W) as (W' & HM & HB & _ & HN & HA). fold t' in W', HM, HB, HN, HA.
  splits; [exact W'| |exact HN|exact HB|].
  - intros k. rewrite (HM k (valid_None k)). symmetry. now apply lookup_assoc.
  - intros a Ha Hin. apply (proj1 (Forall_forall _ _) HA) in Ha.
    apply (proj1 (Forall_forall _ _) (proj2 (wf_addrs _ t W))) in Hin. lia.
Qed.

Lemma st_copy_independent_witness :
  let t := mkTable 1 0 [[]] 1 in @wf type_numhash None (@st_copy t).
Proof.
  refine (proj1 (@st_copy_independent type_numhash numhash_laws (mkTable 1 0 [[]] 1) _)).
  split; cbn; auto; try lia.
  - intros [|[|i]] e []. 
  - intros e f [].
  - split; constructor.
Defined.

(** Bin counts: up to [2 ^ 28] [new_size] returns a prime above the
    requested size and the bins are allocated; beyond, the size of the bin array
    overflows a [long]: it is refused as negative up to [2 ^ 29], and wraps to 340
    bytes up to [2 ^ 30], where a table of 1073741909 bins gets room for 85. *)
Theorem new_size_cases size :
  0 <= size < 1073741824 ->
  if size <? 268435456 then
    Znumtheory.prime (new_size size) /\ size < new_size size /\
    exists t, st_init_table_with_size size = Ok t /\ num_bins t = new_size size /\
      Z.of_nat (length (bins t)) = num_bins t
  else if size <? 536870912 then st_init_table_with_size size = Raise NoMemoryError
  else exists t, st_init_table_with_size size = Ok t /\ num_bins t = 1073741909 /\
    length (bins t) = 85%nat.
Proof.
  intros H. unfold st_init_table_with_size. destruct (Z.ltb_spec size 268435456) as [H1|H1].
  - destruct (new_size_ok size ltac:(lia)) as [Hs Hp]. splits.
    + apply primes_prime; [exact Hp|lia].
    + lia.
    + rewrite Calloc_ok by lia. cbn [bind]. eexists. splits; [reflexivity..|].
      cbn [bins num_bins]. rewrite repeat_length. lia.
  - rewrite (new_size_big size ltac:(lia)).
    destruct (size <? 536870912); [reflexivity|]. eexists. splits; reflexivity.
Qed.

Lemma new_size_cases_witness :
  exists t, st_init_table_with_size 600000000 = Ok t /\ num_bins t = 1073741909 /\ length (bins t) = 85%nat.
Proof. apply (new_size_cases 600000000). lia. Defined.
