(* ===== verification/Ivars.v ===== *)
(** * Instance variables

    The table of the instance variables of a plain object (src/ruby/variable.c):
    a number table of st.c that maps IDs to values.  It is read in the order of
    its chains, which is not the order in which variables were set.

    The record of an entry is a word; the values themselves are kept in a list,
    in the order in which they were stored, and the word is the number of the
    cell, times eight. *)

From Stdlib Require Import ZArith Lia List Bool Permutation.
From S2P Require Import Prelude CInt StTable.
Import ListNotations.
Local Open Scope Z_scope.
Local Open Scope outcome_scope.

(** ** Names and IDs *)

Definition name := list Z.

(** [rb_intern] numbers the names it is given, [rb_id2name] gives them back. *)
Class Symbols := { rb_intern : name -> Z; rb_id2name : Z -> name }.

Definition Qundef : Z := 6.

(** What is known of the names in use: their IDs are words that are given back
    as these names, and not the placeholder of a deleted key. *)
Definition interned {ids : Symbols} (s : name) : Prop :=
  rb_id2name (rb_intern s) = s /\ LONG_MIN <= rb_intern s <= LONG_MAX /\ rb_intern s <> Qundef.

(** ** Tables *)

Record ivtbl (V : Type) := mkIvtbl { iv_tbl : option st_table; iv_values : list V }.
Arguments mkIvtbl {V} iv_tbl iv_values.
Arguments iv_tbl {V} i.
Arguments iv_values {V} i.

Definition iv_empty {V} : ivtbl V := mkIvtbl None [].

Definition cell (i : nat) : Z := 8 * Z.of_nat i.

Section Ivars.
Context {ids : Symbols} {V : Type} (nil : V).

(** [rb_ivar_set] on an object that may be changed; without a table it gets
    one. *)
Definition iv_set (t : ivtbl V) (id : name) (v : V) : outcome (ivtbl V) :=
  s <- (match iv_tbl t with Some s => Ok s | None => st_init_table end) ;;
  '(_, s) <- st_insert s (rb_intern id) (cell (length (iv_values t))) ;;
  Ok (mkIvtbl (Some s) (iv_values t ++ [v])).

(** [tbl->num_entries] *)
Definition iv_count (t : ivtbl V) : Z := match iv_tbl t with Some s => num_entries s | None => 0 end.

Definition variable (vs : list V) (e : st_table_entry) : name * V :=
  (rb_id2name (e_key e), nth (Z.to_nat (e_record e / 8)) vs nil).

(** What [st_foreach_safe] hands to its function. *)
Definition iv_each (t : ivtbl V) : list (name * V) :=
  match iv_tbl t with
  | Some s => map (variable (iv_values t)) (filter (fun e => negb (e_key e =? Qundef)) (all s))
  | None => []
  end.

(** The table after the variables have been set one by one. *)
Definition iv_build (l : list (name * V)) : ivtbl V :=
  fold_left (fun t p => match iv_set t (fst p) (snd p) with Ok t => t | _ => t end) l iv_empty.

(** ** New variables *)

Context (names : list name).
Hypothesis Hnames : Forall interned names.

(** An entry of a variable. *)
Definition of_name (n : nat) (e : st_table_entry) : Prop :=
  exists id i, In id names /\ (i < n)%nat /\ e_key e = rb_intern id /\ e_record e = cell i.

Definition iv_good (t : ivtbl V) : Prop :=
  match iv_tbl t with
  | Some s => wf None s /\ Forall (of_name (length (iv_values t))) (all s)
  | None => iv_values t = []
  end.

Lemma interned_in id : In id names -> interned id.
Proof. intros H. rewrite Forall_forall in Hnames. auto. Qed.

Lemma intern_equal a b : In a names -> In b names -> EQUAL (rb_intern a) (rb_intern b) = true -> a = b.
Proof.
  intros Ha Hb. destruct (interned_in a Ha) as (Ia & La & _), (interned_in b Hb) as (Ib & Lb & _).
  unfold EQUAL. cbn. unfold numcmp, LONG_MIN, LONG_MAX in *. rewrite !s32_small by lia.
  destruct (Z.eqb_spec (rb_intern a) (rb_intern b)) as [E|E]; [intros _; congruence|discriminate].
Qed.

Lemma of_name_live n e : of_name n e -> negb (e_key e =? Qundef) = true.
Proof.
  intros (id & i & Hid & _ & -> & _). apply negb_true_iff, Z.eqb_neq. apply (interned_in id Hid).
Qed.

Lemma filter_each {A} (p : A -> bool) l : Forall (fun x => p x = true) l -> filter p l = l.
Proof. induction 1 as [|x l H HF IH]; cbn [filter]; auto. now rewrite H, IH. Qed.

Lemma each_some s vs : Forall (of_name (length vs)) (all s) -> iv_each (mkIvtbl (Some s) vs) = map (variable vs) (all s).
Proof.
  intros HF. cbn [iv_each iv_tbl iv_values]. rewrite filter_each; auto. eapply Forall_impl; [|exact HF]. intros e. apply of_name_live.
Qed.

Lemma iv_count_each t : iv_good t -> iv_count t = Z.of_nat (length (iv_each t)).
Proof.
  destruct t as [[s|] vs]; cbn [iv_good iv_tbl iv_values]; [|reflexivity]. intros [W HF].
  rewrite (each_some s vs HF), length_map. cbn. rewrite (wf_count _ s W). unfold live. now rewrite filter_each by (apply Forall_forall; auto).
Qed.

(** A variable that is not there yet. *)
Lemma iv_set_new t id v :
  iv_good t -> In id names -> ~ In id (map fst (iv_each t)) -> Z.of_nat (length (iv_each t)) < ENTRIES_MAX ->
  exists t', iv_set t id v = Ok t' /\ iv_good t' /\ Permutation (iv_each t') ((id, v) :: iv_each t).
Proof.
  intros G Hid HN HM.
  assert (HS : exists s, (match iv_tbl t with Some s => Ok s | None => st_init_table end) = Ok s /\ wf None s /\
    Forall (of_name (length (iv_values t))) (all s) /\ iv_each t = map (variable (iv_values t)) (all s)).
  { destruct t as [[s|] vs]; cbn [iv_good iv_tbl iv_values] in *.
    - destruct G as [W HF]. exists s. splits; auto. now apply each_some.
    - destruct (st_init_table_with_size_spec None 0 ltac:(lia)) as (s & E & W & HA & _).
      exists s. rewrite HA. splits; auto. }
  destruct HS as (s & Es & W & HF & HE). unfold iv_set. rewrite Es. cbn [bind]. rewrite HE in *. clear Es HE G.
  rewrite length_map in HM. pose proof (wf_count _ s W) as HC. unfold live in HC. rewrite filter_each in HC by (apply Forall_forall; auto).
  assert (HA : find (key_is (rb_intern id)) (all s) = None).
  { apply find_none_iff. intros e He. rewrite Forall_forall in HF. destruct (HF e He) as (id' & i & Hid' & _ & Hk & _).
    unfold key_is. rewrite Hk. destruct (EQUAL (rb_intern id) (rb_intern id')) eqn:EQ; [|reflexivity].
    apply intern_equal in EQ; auto. subst id'. exfalso. apply HN. rewrite map_map. apply in_map_iff. exists e. split; auto.
    cbn. rewrite Hk. apply (interned_in id Hid). }
  assert (HV : valid_key None (rb_intern id)) by discriminate.
  unfold st_insert. rewrite (find_entry_spec None ltac:(discriminate) s _ W HV), HA.
  destruct (add_direct_spec None ltac:(discriminate) s (rb_intern id) (cell (length (iv_values t))) W) as
    (s' & e & -> & W' & HP & HK & HR & _); auto.
  { lia. }
  { unfold assoc. now rewrite HA. }
  cbn [bind]. eexists. split; [reflexivity|].
  assert (HF' : Forall (of_name (length (iv_values t ++ [v]))) (all s')).
  { rewrite length_app. cbn [length]. rewrite Forall_forall in *. intros f Hf. apply (Permutation_in _ HP) in Hf as [<-|Hf].
    - exists id, (length (iv_values t)). splits; auto. lia.
    - destruct (HF f Hf) as (id' & i & H1 & H2 & H3 & H4). exists id', i. splits; auto. lia. }
  split; [split; assumption|]. rewrite (each_some s' _ HF'). rewrite HP. cbn [map].
  assert (HV' : variable (iv_values t ++ [v]) e = (id, v)).
  { unfold variable, cell in *. rewrite HK, HR, Z.mul_comm, Z.div_mul, Nat2Z.id by lia.
    rewrite app_nth2, Nat.sub_diag by lia. cbn. f_equal. apply (interned_in id Hid). }
  rewrite HV'. apply perm_skip, Permutation_refl', map_ext_in. intros f Hf. rewrite Forall_forall in HF.
  destruct (HF f Hf) as (id' & i & H1 & H2 & H3 & H4). unfold variable, cell in *.
  rewrite H4, Z.mul_comm, Z.div_mul, Nat2Z.id by lia. now rewrite app_nth1 by lia.
Qed.

(** [iv_build] meets no variable twice. *)
Lemma iv_build_spec l :
  NoDup (map fst l) -> incl (map fst l) names -> Z.of_nat (length l) <= ENTRIES_MAX ->
  iv_good (iv_build l) /\ Permutation (iv_each (iv_build l)) l /\
  forall q id v, l = q ++ [(id, v)] -> iv_set (iv_build q) id v = Ok (iv_build l).
Proof.
  induction l as [|[id v] l IH] using rev_ind; intros HD HI HM.
  { splits; auto; try reflexivity. intros [|x q] id v H; discriminate. }
  rewrite map_app in HD, HI. cbn [map fst] in HD, HI. rewrite length_app in HM. cbn [length] in HM.
  pose proof (NoDup_remove_2 _ _ _ HD) as HNi. apply NoDup_remove_1 in HD. rewrite app_nil_r in HD, HNi.
  destruct IH as (G & HP & _); auto; [intros x Hx; apply HI, in_or_app; auto|lia|].
  destruct (iv_set_new (iv_build l) id v G) as (t' & E & G' & HP').
  - apply HI, in_or_app. right. now left.
  - intros HX. apply HNi. now rewrite <- HP.
  - rewrite HP. lia.
  - assert (HB : iv_build (l ++ [(id, v)]) = t').
    { unfold iv_build. rewrite fold_left_app. cbn [fold_left fst snd]. fold (iv_build l). now rewrite E. }
    rewrite HB. splits; auto.
    + rewrite HP', HP. apply Permutation_cons_append.
    + intros q id' v' Hq. apply app_inj_tail in Hq as [<- Hq]. injection Hq as <- <-. exact E.
Qed.
End Ivars.
