(* ===== verification/Marshal.v ===== *)
(** * Marshal

    The binary format of src/ruby/marshal.c: [Marshal.dump] and
    [Marshal.load] on graphs of nil, true, false, Fixnums, Symbols, Bignums,
    Strings, Arrays and plain objects with instance variables.

    Objects live in a heap and are named by their address, so that sharing and
    cycles are part of the model.  A Symbol is represented by its name; the
    instance variables are in a table of st.c (Ivars), so that a loaded object
    may list them in another order. *)

From Stdlib Require Import ZArith Lia List Bool Permutation.
From S2P Require Import Prelude CInt Digits Bignum Fixnum StTable Ivars.
Import ListNotations.
Local Open Scope Z_scope.
Local Open Scope outcome_scope.
#[local] Ltac Zify.zify_post_hook ::= Z.div_mod_to_equations.

(** ** Objects *)

Inductive value := VNil | VTrue | VFalse | VFix (n : Z) | VSym (id : name) | VRef (addr : nat).

Inductive object :=
  | OBignum (b : RBignum)
  | OString (bytes : list Z)
  | OArray (elements : list value)
  | OObject (klass : name) (ivars : ivtbl value).

Definition heap := list object.

Definition name_eqb (a b : name) : bool := if list_eq_dec Z.eq_dec a b then true else false.

(** [st_lookup] in a table that numbers its keys in the order of insertion. *)
Fixpoint index_of {A} (eqb : A -> A -> bool) (x : A) (l : list A) : option nat :=
  match l with
  | [] => None
  | y :: l => if eqb x y then Some O else option_map S (index_of eqb x l)
  end.

(** ** Format *)

Definition MARSHAL_MAJOR := 4.
Definition MARSHAL_MINOR := 8.
Definition TYPE_NIL := 48.
Definition TYPE_TRUE := 84.
Definition TYPE_FALSE := 70.
Definition TYPE_FIXNUM := 105.
Definition TYPE_OBJECT := 111.
Definition TYPE_BIGNUM := 108.
Definition TYPE_STRING := 34.
Definition TYPE_ARRAY := 91.
Definition TYPE_SYMBOL := 58.
Definition TYPE_SYMLINK := 59.
Definition TYPE_LINK := 64.

(** The types of the format outside the model: EXTENDED, UCLASS, DATA,
    USERDEF, USRMARSHAL, FLOAT, REGEXP, HASH, HASH_DEF, STRUCT, MODULE_OLD,
    CLASS, MODULE, IVAR. *)
Definition other_types : list Z := [101; 67; 100; 117; 85; 102; 47; 123; 125; 83; 77; 99; 109; 73].

(** ** Writing *)

(** [dest]: what has been written to the IO given as second argument, if
    there is one; [symbols] and [data] in the order of their numbers. *)
Record dump_arg := mkDump { str : list Z; dest : option (list Z); symbols : list name; data : list nat }.

Section Dump.
Context {ids : Symbols} (BUFSIZ : Z).

(** Whether [rb_path2class] leads from the name of a class to that class; it
    may raise an exception, and run Ruby code. *)
Context (refers : name -> outcome bool).

Definition w_nbyte (s : list Z) (arg : dump_arg) : dump_arg :=
  let buf := str arg ++ s in
  match dest arg with
  | Some io =>
      if BUFSIZ <=? Z.of_nat (length buf) then mkDump [] (Some (io ++ buf)) (symbols arg) (data arg)
      else mkDump buf (Some io) (symbols arg) (data arg)
  | None => mkDump buf None (symbols arg) (data arg)
  end.

Definition w_byte (c : Z) : dump_arg -> dump_arg := w_nbyte [u8 c].

(** The loop over [i]: the bytes [buf[i]] ... and the value of [buf[0]].
    Without a [break] the code would read behind [buf]. *)
Fixpoint long_bytes (n : nat) (i x : Z) : outcome (Z * list Z) :=
  match n with
  | O => Undefined
  | S n =>
      let b := Z.land x 255 in
      let x := RSHIFT x 8 in
      if x =? 0 then Ok (i, [b])
      else if x =? -1 then Ok (- i, [b])
      else '(h, bs) <- long_bytes n (i + 1) x ;; Ok (h, b :: bs)
  end.

Definition w_long (x : Z) (arg : dump_arg) : outcome dump_arg :=
  if x =? 0 then Ok (w_byte 0 arg)
  else if (0 <? x) && (x <? 123) then Ok (w_byte (x + 5) arg)
  else if (-124 <? x) && (x <? 0) then Ok (w_byte (Z.land (x - 5) 255) arg)
  else
    '(h, bs) <- long_bytes 4 1 x ;;
    Ok (fold_left (fun arg b => w_byte b arg) (h :: bs) arg).

Definition w_bytes (s : list Z) (arg : dump_arg) : outcome dump_arg :=
  arg <- w_long (Z.of_nat (length s)) arg ;; Ok (w_nbyte s arg).

Definition w_short (x : Z) (arg : dump_arg) : dump_arg :=
  w_byte (Z.land (Z.shiftr x 8) 255) (w_byte (Z.land (Z.shiftr x 0) 255) arg).

Definition w_symbol (id : name) (arg : dump_arg) : outcome dump_arg :=
  match index_of name_eqb id (symbols arg) with
  | Some num => w_long (Z.of_nat num) (w_byte TYPE_SYMLINK arg)
  | None =>
      arg <- w_bytes id (w_byte TYPE_SYMBOL arg) ;;
      Ok (mkDump (str arg) (dest arg) (symbols arg ++ [id]) (data arg))
  end.

Definition w_unique (s : name) (arg : dump_arg) : outcome dump_arg :=
  if hd 0 s =? 35 then Raise TypeError else w_symbol s arg.

(** [w_class] for an object of the class [klass] itself, without singleton
    class or extensions; anonymous classes have names that start with [#]. *)
Definition w_class (type : Z) (klass : name) (arg : dump_arg) : outcome dump_arg :=
  let arg := w_byte type arg in
  if hd 0 klass =? 35 then Raise TypeError
  else
    ok <- refers klass ;;
    if ok : bool then w_unique klass arg else Raise TypeError.

(** The loops over the elements of an array and of a table of instance
    variables, [w_obj_each] included. *)
Fixpoint w_values (w_object : value -> dump_arg -> outcome dump_arg) (l : list value) (arg : dump_arg) :
    outcome dump_arg :=
  match l with
  | [] => Ok arg
  | v :: l => arg <- w_object v arg ;; w_values w_object l arg
  end.

Fixpoint w_ivars (w_object : value -> dump_arg -> outcome dump_arg) (l : list (name * value)) (arg : dump_arg) :
    outcome dump_arg :=
  match l with
  | [] => Ok arg
  | (id, v) :: l => arg <- w_symbol id arg ;; arg <- w_object v arg ;; w_ivars w_object l arg
  end.

(** [fuel] bounds the depth of the recursion, which is at most the number of
    objects plus one, since an object is entered once. *)
Fixpoint w_object (fuel : nat) (h : heap) (limit : Z) (obj : value) (arg : dump_arg) : outcome dump_arg :=
  match fuel with
  | O => Undefined
  | S fuel =>
      if limit =? 0 then Raise ArgumentError
      else
        let limit := limit - 1 in
        match obj with
        | VNil => Ok (w_byte TYPE_NIL arg)
        | VTrue => Ok (w_byte TYPE_TRUE arg)
        | VFalse => Ok (w_byte TYPE_FALSE arg)
        | VFix n => w_long n (w_byte TYPE_FIXNUM arg)
        | VSym id => w_symbol id arg
        | VRef a =>
            match index_of Nat.eqb a (data arg) with
            | Some num => w_long (Z.of_nat num) (w_byte TYPE_LINK arg)
            | None =>
                let arg := mkDump (str arg) (dest arg) (symbols arg) (data arg ++ [a]) in
                match nth_error h a with
                | None => Undefined
                | Some (OBignum b) =>
                    let arg := w_byte (if sign b then 43 else 45) (w_byte TYPE_BIGNUM arg) in
                    arg <- w_long (len b) arg ;;
                    Ok (fold_left (fun arg d => w_short d arg) (digits b) arg)
                | Some (OString s) => w_bytes s (w_byte TYPE_STRING arg)
                | Some (OArray l) =>
                    arg <- w_long (Z.of_nat (length l)) (w_byte TYPE_ARRAY arg) ;;
                    w_values (w_object fuel h limit) l arg
                | Some (OObject klass ivars) =>
                    arg <- w_class TYPE_OBJECT klass arg ;;
                    arg <- w_long (iv_count ivars) arg ;;
                    w_ivars (w_object fuel h limit) (iv_each VNil ivars) arg
                end
            end
        end
  end.

(** [dump] flushes the buffer at the end.  The result is the string, or what
    the IO has received. *)
Definition marshal_dump (h : heap) (obj : value) (port : bool) (limit : Z) : outcome (list Z) :=
  let arg := mkDump [] (if port then Some [] else None) [] [] in
  arg <- w_object (S (length h)) h limit obj (w_byte MARSHAL_MINOR (w_byte MARSHAL_MAJOR arg)) ;;
  Ok (match dest arg with Some io => io ++ str arg | None => str arg end).
End Dump.

(** ** Reading *)

(** The source is a String; [objects] is the heap new objects are added to,
    [data] the table of entries. *)
Record load_arg := mkLoad { src : list Z; offset : Z; lsymbols : list name; ldata : list value; objects : heap }.

Section Load.
Context {ids : Symbols}.

(** [path2class] and [rb_obj_alloc]: whether the name is that of a class whose
    objects are plain.  A path that leads to no class raises an exception,
    and finding it may run Ruby code. *)
Context (plain_class : name -> outcome bool).

Definition set_offset (o : Z) (arg : load_arg) : load_arg :=
  mkLoad (src arg) o (lsymbols arg) (ldata arg) (objects arg).

Definition size (arg : load_arg) : Z := Z.of_nat (length (src arg)).

Definition r_byte (arg : load_arg) : outcome (Z * load_arg) :=
  if offset arg <? size arg then Ok (u8 (nth (Z.to_nat (offset arg)) (src arg) 0), set_offset (offset arg + 1) arg)
  else Raise ArgumentError.

(** [x |= (long)r_byte(arg) << (8*i)], after [x &= ~((long)0xff << (8*i))] for
    a negative number. *)
Fixpoint r_long_loop (neg : bool) (n : nat) (i x : Z) (arg : load_arg) : outcome (Z * load_arg) :=
  match n with
  | O => Ok (x, arg)
  | S n =>
      let x := if neg then Z.land x (Z.lnot (s32 (Z.shiftl 255 (8 * i)))) else x in
      '(c, arg) <- r_byte arg ;;
      r_long_loop neg n (i + 1) (Z.lor x (s32 (Z.shiftl c (8 * i)))) arg
  end.

Definition r_long (arg : load_arg) : outcome (Z * load_arg) :=
  '(c, arg) <- r_byte arg ;;
  let c := s8 c in
  if c =? 0 then Ok (0, arg)
  else if 0 <? c then
    if (4 <? c) && (c <? 128) then Ok (c - 5, arg)
    else if 4 <? c then Raise TypeError
    else r_long_loop false (Z.to_nat c) 0 0 arg
  else
    if (-129 <? c) && (c <? -4) then Ok (c + 5, arg)
    else if 4 <? - c then Raise TypeError
    else r_long_loop true (Z.to_nat (- c)) 0 (-1) arg.

(** Only the first byte is known to be there; a String ends with a zero byte
    of its own.  [rb_str_new] asks for [len + 1] bytes. *)
Definition r_bytes0 (len : Z) (arg : load_arg) : outcome (list Z * load_arg) :=
  if len =? 0 then Ok ([], arg)
  else if offset arg <? size arg then
    if len <? 0 then Raise ArgumentError
    else if s32 (len + 1) <? 0 then Raise NoMemoryError
    else if offset arg + len <=? size arg + 1 then
      Ok (firstn (Z.to_nat len) (skipn (Z.to_nat (offset arg)) (src arg ++ [0])), set_offset (offset arg + len) arg)
    else Undefined
  else Raise ArgumentError.

Definition r_bytes (arg : load_arg) : outcome (list Z * load_arg) :=
  '(len, arg) <- r_long arg ;; r_bytes0 len arg.

Definition r_symlink (arg : load_arg) : outcome (name * load_arg) :=
  '(num, arg) <- r_long arg ;;
  if (0 <=? num) && (num <? Z.of_nat (length (lsymbols arg))) then
    Ok (nth (Z.to_nat num) (lsymbols arg) [], arg)
  else Raise ArgumentError.

(** [rb_intern] takes a C string. *)
Fixpoint cstr (s : list Z) : name :=
  match s with
  | [] => []
  | c :: s => if c =? 0 then [] else c :: cstr s
  end.

Definition r_symreal (arg : load_arg) : outcome (name * load_arg) :=
  '(s, arg) <- r_bytes arg ;;
  let id := cstr s in
  Ok (id, mkLoad (src arg) (offset arg) (lsymbols arg ++ [id]) (ldata arg) (objects arg)).

Definition r_symbol (arg : load_arg) : outcome (name * load_arg) :=
  '(c, arg) <- r_byte arg ;;
  if c =? TYPE_SYMLINK then r_symlink arg else r_symreal arg.

Definition r_unique : load_arg -> outcome (name * load_arg) := r_symbol.

Definition r_entry (v : value) (arg : load_arg) : load_arg :=
  mkLoad (src arg) (offset arg) (lsymbols arg) (ldata arg ++ [v]) (objects arg).

(** A new object and its address. *)
Definition alloc (o : object) (arg : load_arg) : value * load_arg :=
  (VRef (length (objects arg)), mkLoad (src arg) (offset arg) (lsymbols arg) (ldata arg) (objects arg ++ [o])).

Definition set_object (a : nat) (o : object) (arg : load_arg) : load_arg :=
  mkLoad (src arg) (offset arg) (lsymbols arg) (ldata arg) (list_set (objects arg) a o).

(** [rb_ary_new2]: negative sizes and sizes whose number of bytes overflows. *)
Definition rb_ary_new2 (len : Z) (arg : load_arg) : outcome (value * load_arg) :=
  if len <? 0 then Raise ArgumentError
  else if (0 <? len) && (u32 (len * 4) <=? len) then Raise ArgumentError
  else if s32 (len * 4) <? 0 then Raise NoMemoryError
  else Ok (alloc (OArray []) arg).

Definition rb_ary_push (a : nat) (v : value) (arg : load_arg) : load_arg :=
  match nth_error (objects arg) a with
  | Some (OArray l) => set_object a (OArray (l ++ [v])) arg
  | _ => arg
  end.

Definition rb_ivar_set (a : nat) (id : name) (v : value) (arg : load_arg) : outcome load_arg :=
  match nth_error (objects arg) a with
  | Some (OObject klass t) => t <- iv_set t id v ;; Ok (set_object a (OObject klass t) arg)
  | _ => Ok arg
  end.

(** [num = p[0] | (p[1] << 8)] *)
Fixpoint r_digits (s : list Z) : list Z :=
  match s with
  | p0 :: p1 :: s => Z.lor p0 (Z.shiftl p1 8) :: r_digits s
  | _ => []
  end.

(** The case of a Bignum; a negative length whose double is positive would
    leave the block. *)
Definition r_bignum (arg : load_arg) : outcome (value * load_arg) :=
  '(sgn, arg) <- r_byte arg ;;
  '(len, arg) <- r_long arg ;;
  '(bytes, arg) <- r_bytes0 (s32 (len * 2)) arg ;;
  if len <? 0 then Undefined
  else
    match bignorm (Big (mkBig (sgn =? 43) (r_digits bytes))) with
    | Fix n => Ok (VFix n, r_entry (VFix n) arg)
    | Big b => let '(v, arg) := alloc (OBignum b) arg in Ok (v, r_entry v arg)
    | Obj _ => Undefined
    end.

Context (exhausted : rb_error).

(** [r_object0] without a procedure to call, with the loops of arrays and
    instance variables: [n] elements are still to be read for the object at
    [a].  Every call consumes a byte or raises, so twice the length of the
    source is fuel enough; [exhausted] is raised when it is not. *)
Fixpoint r_object (fuel : nat) (arg : load_arg) : outcome (value * load_arg) :=
  match fuel with
  | O => Raise exhausted
  | S fuel =>
      '(type, arg) <- r_byte arg ;;
      if type =? TYPE_LINK then
        '(id, arg) <- r_long arg ;;
        if (0 <=? tag id) && (tag id <? Z.of_nat (length (ldata arg))) then
          match nth (Z.to_nat (tag id)) (ldata arg) VNil with
          | VNil => Raise ArgumentError
          | v => Ok (v, arg)
          end
        else Raise ArgumentError
      else if type =? TYPE_NIL then Ok (VNil, arg)
      else if type =? TYPE_TRUE then Ok (VTrue, arg)
      else if type =? TYPE_FALSE then Ok (VFalse, arg)
      else if type =? TYPE_FIXNUM then '(i, arg) <- r_long arg ;; Ok (VFix (tag i), arg)
      else if type =? TYPE_BIGNUM then r_bignum arg
      else if type =? TYPE_STRING then
        '(s, arg) <- r_bytes arg ;;
        let '(v, arg) := alloc (OString s) arg in Ok (v, r_entry v arg)
      else if type =? TYPE_ARRAY then
        '(len, arg) <- r_long arg ;;
        let a := length (objects arg) in
        '(v, arg) <- rb_ary_new2 len arg ;;
        arg <- r_elements fuel len a (r_entry v arg) ;;
        Ok (v, arg)
      else if type =? TYPE_OBJECT then
        '(klass, arg) <- r_unique arg ;;
        plain <- plain_class klass ;;
        if plain then
          let a := length (objects arg) in
          let '(v, arg) := alloc (OObject klass iv_empty) arg in
          '(len, arg) <- r_long (r_entry v arg) ;;
          arg <- r_ivar fuel (if 0 <? len then len else 0) a arg ;;
          Ok (v, arg)
        else Raise ArgumentError
      else if type =? TYPE_SYMBOL then '(id, arg) <- r_symreal arg ;; Ok (VSym id, arg)
      else if type =? TYPE_SYMLINK then '(id, arg) <- r_symlink arg ;; Ok (VSym id, arg)
      else if existsb (Z.eqb type) other_types then Delegate
      else Raise ArgumentError
  end
with r_elements (fuel : nat) (n : Z) (a : nat) (arg : load_arg) : outcome load_arg :=
  match fuel with
  | O => Raise exhausted
  | S fuel =>
      if n =? 0 then Ok arg
      else
        '(v, arg) <- r_object fuel arg ;;
        r_elements fuel (n - 1) a (rb_ary_push a v arg)
  end
with r_ivar (fuel : nat) (n : Z) (a : nat) (arg : load_arg) : outcome load_arg :=
  match fuel with
  | O => Raise exhausted
  | S fuel =>
      if n =? 0 then Ok arg
      else
        '(id, arg) <- r_symbol arg ;;
        '(v, arg) <- r_object fuel arg ;;
        arg <- rb_ivar_set a id v arg ;;
        r_ivar fuel (n - 1) a arg
  end.

(** The loaded object and the heap it is in. *)
Definition marshal_load_fuel (fuel : nat) (s : list Z) : outcome (value * heap) :=
  let arg := mkLoad s 0 [] [] [] in
  '(major, arg) <- r_byte arg ;;
  '(minor, arg) <- r_byte arg ;;
  if negb (major =? MARSHAL_MAJOR) || (MARSHAL_MINOR <? minor) then Raise TypeError
  else '(v, arg) <- r_object fuel arg ;; Ok (v, objects arg).

(** The readers, one step unfolded. *)
Lemma r_object_eq fuel arg :
  r_object (S fuel) arg = ltac:(let t := eval cbn [r_object] in (r_object (S fuel) arg) in exact t).
Proof. reflexivity. Qed.

Lemma r_elements_eq fuel n a arg :
  r_elements (S fuel) n a arg = ltac:(let t := eval cbn [r_elements] in (r_elements (S fuel) n a arg) in exact t).
Proof. reflexivity. Qed.

Lemma r_ivar_eq fuel n a arg :
  r_ivar (S fuel) n a arg = ltac:(let t := eval cbn [r_ivar] in (r_ivar (S fuel) n a arg) in exact t).
Proof. reflexivity. Qed.

End Load.

Definition marshal_load {ids : Symbols} (plain_class : name -> outcome bool) (s : list Z) : outcome (value * heap) :=
  marshal_load_fuel plain_class RuntimeError (2 * S (length s)) s.

(** ** The encoding of a [long] *)

(** The bytes [w_long] writes. *)
Definition enc_long (x : Z) : list Z :=
  if x =? 0 then [0]
  else if (0 <? x) && (x <? 123) then [u8 (x + 5)]
  else if (-124 <? x) && (x <? 0) then [u8 (Z.land (x - 5) 255)]
  else match long_bytes 4 1 x with Ok (h, bs) => map u8 (h :: bs) | _ => [] end.

Lemma long_bytes_spec n i x : (n <> 0)%nat ->
  - 256 ^ Z.of_nat n <= x < 256 ^ Z.of_nat n ->
  exists bs, long_bytes n i x = Ok ((if x <? 0 then - (i + Z.of_nat (length bs) - 1) else i + Z.of_nat (length bs) - 1), bs) /\
    Forall byte bs /\ (1 <= length bs <= n)%nat /\
    x = le_val bs - (if x <? 0 then 256 ^ Z.of_nat (length bs) else 0).
Proof.
  revert i x; induction n as [|n IH]; intros i x Hn Hx; [congruence|]. cbn [long_bytes].
  rewrite Nat2Z.inj_succ, Z.pow_succ_r in Hx by lia.
  change 255 with (Z.ones 8). rewrite Z.land_ones by lia. unfold RSHIFT. rewrite Z.shiftr_div_pow2 by lia. change (2 ^ 8) with 256.
  assert (Hb : byte (x mod 256)) by (unfold byte; lia).
  destruct (Z.eqb_spec (x / 256) 0) as [H0|H0].
  { exists [x mod 256]. replace (x <? 0) with false by lia. cbn [length le_val].
    replace (i + Z.of_nat 1 - 1) with i by lia. splits; auto; lia. }
  destruct (Z.eqb_spec (x / 256) (-1)) as [H1|H1].
  { exists [x mod 256]. replace (x <? 0) with true by lia. cbn [length le_val].
    replace (i + Z.of_nat 1 - 1) with i by lia. splits; auto; change (256 ^ Z.of_nat 1) with 256; lia. }
  destruct n as [|n].
  { cbn in Hx. lia. }
  destruct (IH (i + 1) (x / 256)) as (bs & -> & HF & HL & HE); [lia|lia|]. cbn [bind].
  exists (x mod 256 :: bs). replace (x / 256 <? 0) with (x <? 0) in HE |- * by (destruct (Z.ltb_spec x 0), (Z.ltb_spec (x / 256) 0); lia).
  splits; auto; cbn [length le_val]; try lia.
  - destruct (x <? 0); do 2 f_equal; lia.
  - rewrite Nat2Z.inj_succ, Z.pow_succ_r by lia. destruct (x <? 0); lia.
Qed.

(** [avail arg s]: what is left of the source. *)
Definition avail (arg : load_arg) (s : list Z) : Prop :=
  exists pre, src arg = pre ++ s /\ offset arg = Z.of_nat (length pre).

Definition adv (n : nat) (arg : load_arg) : load_arg := set_offset (offset arg + Z.of_nat n) arg.

(** [f] consumes the bytes [bs] and returns [x]. *)
Definition reads {A} (f : load_arg -> outcome (A * load_arg)) (bs : list Z) (x : A) : Prop :=
  forall arg rest, avail arg (bs ++ rest) -> f arg = Ok (x, adv (length bs) arg).

Lemma avail_adv arg bs rest : avail arg (bs ++ rest) -> avail (adv (length bs) arg) rest.
Proof.
  intros (pre & Hs & Ho). exists (pre ++ bs). cbn. rewrite <- app_assoc, length_app. split; [auto|lia].
Qed.

Lemma adv_adv m n arg : adv m (adv n arg) = adv (n + m) arg.
Proof. unfold adv, set_offset; cbn. f_equal. lia. Qed.

Lemma adv_0 arg : adv 0 arg = arg.
Proof. destruct arg; unfold adv, set_offset; cbn. f_equal. lia. Qed.

(** Two readers in a row. *)
Lemma reads_bind {A C} (f : load_arg -> outcome (A * load_arg)) (g : A -> load_arg -> outcome (C * load_arg)) bs cs x y :
  reads f bs x -> reads (g x) cs y -> reads (fun arg => '(x, arg) <- f arg ;; g x arg) (bs ++ cs) y.
Proof.
  intros Hf Hg arg rest Ha. rewrite <- app_assoc in Ha. rewrite (Hf _ _ Ha). cbn [bind].
  rewrite (Hg _ _ (avail_adv _ _ _ Ha)), adv_adv. now rewrite length_app.
Qed.

Lemma reads_ret {A} (x : A) : reads (fun arg => Ok (x, arg)) [] x.
Proof. intros arg rest _. now rewrite adv_0. Qed.

Lemma r_byte_reads c : byte c -> reads r_byte [c] c.
Proof.
  intros Hc arg rest (pre & Hs & Ho). unfold r_byte, size. rewrite Hs, Ho, length_app. cbn [length app].
  rewrite (proj2 (Z.ltb_lt _ _)) by lia. rewrite Nat2Z.id, app_nth2, Nat.sub_diag by lia. cbn [nth].
  unfold byte in Hc. rewrite u8_small by lia. unfold adv. now rewrite Ho.
Qed.

(** One turn of the loops of [r_long]. *)
Lemma lor_high v d e n : 0 <= n -> 0 <= v < 2 ^ n ->
  Z.lor (v + d * 2 ^ n) (e * 2 ^ n) = v + Z.lor d e * 2 ^ n.
Proof.
  intros Hn Hv. rewrite <- !lor_add_low, <- Z.lor_assoc by lia. f_equal.
  rewrite <- !Z.shiftl_mul_pow2, Z.shiftl_lor by lia. reflexivity.
Qed.

Lemma clear_mask v d k n : 0 <= n -> 0 <= v < 2 ^ n ->
  Z.land (v + d * 2 ^ n) (Z.lnot (k * 2 ^ n)) = v + Z.land d (Z.lnot k) * 2 ^ n.
Proof.
  intros Hn Hv. rewrite <- !lor_add_low by lia. apply Z.bits_inj'; intros m Hm.
  rewrite Z.land_spec, !Z.lor_spec, Z.lnot_spec, !Z.mul_pow2_bits by lia.
  destruct (Z.lt_ge_cases m n).
  - rewrite !(Z.testbit_neg_r _ (m - n)) by lia. now destruct (Z.testbit v m).
  - rewrite Z.land_spec, Z.lnot_spec by lia. replace v with (v mod 2 ^ n) by (apply Z.mod_small; lia).
    now rewrite Z.mod_pow2_bits_high by lia.
Qed.

Lemma pow_256 i : 0 <= i -> 256 ^ i = 2 ^ (8 * i).
Proof. intros. now rewrite Z.pow_mul_r by lia. Qed.

Lemma pos_step i v c : 0 <= i <= 3 -> 0 <= v < 256 ^ i -> byte c -> (i = 3 -> c < 128) ->
  Z.lor v (s32 (Z.shiftl c (8 * i))) = v + 256 ^ i * c.
Proof.
  intros Hi Hv Hc H3. unfold byte in Hc. rewrite Z.shiftl_mul_pow2, <- pow_256 by lia.
  rewrite s32_small; [|assert (i = 0 \/ i = 1 \/ i = 2 \/ i = 3) as [-> | [-> | [-> | ->]]] by lia; cbn in *; lia].
  rewrite pow_256 in * by lia. rewrite lor_add_low; lia.
Qed.

Lemma neg_step i v c : 0 <= i <= 3 -> 0 <= v < 256 ^ i -> byte c -> (i = 3 -> 128 <= c) ->
  Z.lor (Z.land (v - 256 ^ i) (Z.lnot (s32 (Z.shiftl 255 (8 * i))))) (s32 (Z.shiftl c (8 * i))) =
    v + 256 ^ i * c - 256 ^ (i + 1).
Proof.
  intros Hi Hv Hc H3. unfold byte in Hc. rewrite !Z.shiftl_mul_pow2 by lia.
  assert (Hx : exists k e, s32 (255 * 2 ^ (8 * i)) = k * 2 ^ (8 * i) /\ s32 (c * 2 ^ (8 * i)) = e * 2 ^ (8 * i) /\
    Z.lor (Z.lnot k) e = c - 256).
  { assert (i = 3 \/ i <> 3) as [-> | Hne] by lia.
    - exists (-1), (c - 256). splits; [reflexivity| |reflexivity].
      change (2 ^ (8 * 3)) with 16777216. unfold s32. specialize (H3 eq_refl). lia.
    - exists 255, c. splits.
      + apply s32_small. assert (i = 0 \/ i = 1 \/ i = 2) as [-> | [-> | ->]] by lia; cbn; lia.
      + apply s32_small. assert (i = 0 \/ i = 1 \/ i = 2) as [-> | [-> | ->]] by lia; cbn; lia.
      + change (Z.lnot 255) with (-1 * 2 ^ 8). rewrite Z.lor_comm, lor_add_low; lia. }
  destruct Hx as (k & e & -> & -> & He).
  rewrite (pow_256 i) in * by lia. replace (v - 2 ^ (8 * i)) with (v + -1 * 2 ^ (8 * i)) by lia.
  rewrite clear_mask, Z.land_m1_l, lor_high, He by lia. rewrite pow_256, Z.mul_add_distr_l, Z.pow_add_r by lia. lia.
Qed.

Lemma r_long_loop_reads (neg : bool) bs i v :
  Forall byte bs -> 0 <= i -> i + Z.of_nat (length bs) <= 4 -> 0 <= v < 256 ^ i ->
  (if neg then 2147483648 <= v + 256 ^ i * le_val bs \/ i + Z.of_nat (length bs) < 4
   else v + 256 ^ i * le_val bs < 2147483648) ->
  reads (r_long_loop neg (length bs) i (if neg then v - 256 ^ i else v)) bs
    (v + 256 ^ i * le_val bs - if neg then 256 ^ (i + Z.of_nat (length bs)) else 0).
Proof.
  intros HF; revert i v; induction HF as [|c bs Hc HF IH]; intros i v Hi HL Hv Htop.
  - cbn [length r_long_loop le_val]. rewrite Z.add_0_r, Z.mul_0_r, Z.add_0_r.
    replace (v - (if neg then _ else 0)) with (if neg then v - 256 ^ i else v) by (destruct neg; lia). apply reads_ret.
  - cbn [length le_val] in *. pose proof (le_val_bound _ HF) as HB.
    assert (Hp : 256 ^ (i + 1) = 256 * 256 ^ i) by (rewrite Z.add_comm, Z.pow_add_r by lia; reflexivity).
    assert (H0 : i = 3 -> length bs = O /\ le_val bs = 0 /\ 256 ^ i = 16777216) by (intros ->; destruct bs; [auto|cbn in HL; lia]).
    unfold byte in Hc. change (c :: bs) with ([c] ++ bs).
    replace (v + 256 ^ i * (c + 256 * le_val bs)) with (v + 256 ^ i * c + 256 ^ (i + 1) * le_val bs) in * by (rewrite Hp; ring).
    replace (i + Z.of_nat (S (length bs))) with (i + 1 + Z.of_nat (length bs)) in * by lia.
    cbn [r_long_loop]. intros arg rest Ha.
    refine (reads_bind r_byte _ [c] bs c _ (r_byte_reads c Hc) _ arg rest Ha). clear arg rest Ha.
    replace (Z.lor _ _) with (if neg then v + 256 ^ i * c - 256 ^ (i + 1) else v + 256 ^ i * c).
    2:{ destruct neg; symmetry; [apply neg_step|apply pos_step]; auto; try lia.
        all: intros H3; destruct (H0 H3) as (E1 & E2 & E3); rewrite E1, E2, E3 in *; lia. }
    apply (IH (i + 1) (v + 256 ^ i * c)); [lia|lia| |destruct neg; [destruct Htop; [left|right]|]; lia].
    rewrite Hp. nia.
Qed.

Definition is_long (x : Z) : Prop := LONG_MIN <= x <= LONG_MAX.

Lemma u8_byte b : byte b -> u8 b = b.
Proof. apply u8_small. Qed.

(** The three forms of the encoding. *)
Lemma enc_long_cases x : is_long x ->
  (-123 <= x < 123 /\ exists c, enc_long x = [c] /\ byte c /\
     s8 c = if x =? 0 then 0 else if 0 <? x then x + 5 else x - 5) \/
  (exists bs, enc_long x = u8 (if x <? 0 then - Z.of_nat (length bs) else Z.of_nat (length bs)) :: bs /\
     long_bytes 4 1 x = Ok (if x <? 0 then - Z.of_nat (length bs) else Z.of_nat (length bs), bs) /\
     Forall byte bs /\ (1 <= length bs <= 4)%nat /\ x = le_val bs - (if x <? 0 then 256 ^ Z.of_nat (length bs) else 0)).
Proof.
  unfold is_long, LONG_MIN, LONG_MAX. intros Hx. unfold enc_long.
  destruct (Z.eqb_spec x 0) as [->|H0].
  { left. split; [lia|]. exists 0. splits; auto; [split; lia]. }
  destruct ((0 <? x) && (x <? 123)) eqn:E1.
  { breflect. left. split; [lia|]. exists (u8 (x + 5)). rewrite u8_small by lia. rewrite (proj2 (Z.ltb_lt _ _)) by lia.
    splits; auto; [split; lia|unfold s8; lia]. }
  destruct ((-124 <? x) && (x <? 0)) eqn:E2.
  { breflect. left. split; [lia|]. exists (u8 (Z.land (x - 5) 255)). rewrite (proj2 (Z.ltb_ge 0 x)) by lia.
    change 255 with (Z.ones 8). rewrite Z.land_ones by lia. change (2 ^ 8) with 256.
    splits; auto; [apply u8_bound|unfold s8, u8; lia]. }
  right. destruct (long_bytes_spec 4 1 x) as (bs & E & HF & HL & HE); [lia|cbn; lia|].
  exists bs. rewrite E. replace (if x <? 0 then - (1 + _ - 1) else _) with (if x <? 0 then - Z.of_nat (length bs) else Z.of_nat (length bs))
    by (destruct (x <? 0); lia).
  splits; auto; try lia. cbn [map]. f_equal. rewrite <- (map_id bs) at 2. apply map_ext_Forall.
  eapply Forall_impl; [|exact HF]. apply u8_byte.
Qed.

Lemma r_long_reads x : is_long x -> reads r_long (enc_long x) x.
Proof.
  intros Hx. destruct (enc_long_cases x Hx) as [(Hs & c & -> & Hc & Es)|(bs & -> & _ & HF & HL & HE)].
  - unfold r_long. intros arg rest Ha. change [c] with ([c] ++ []) in *. refine (reads_bind r_byte _ [c] [] c x (r_byte_reads c Hc) _ arg rest Ha).
    rewrite Es. destruct (Z.eqb_spec x 0) as [->|H0]; [apply reads_ret|].
    destruct (Z.ltb_spec 0 x).
    + rewrite (proj2 (Z.eqb_neq _ _)), (proj2 (Z.ltb_lt 0 _)) by lia.
      replace ((4 <? x + 5) && (x + 5 <? 128)) with true by lia. replace (x + 5 - 5) with x by lia. apply reads_ret.
    + rewrite (proj2 (Z.eqb_neq _ _)), (proj2 (Z.ltb_ge 0 _)) by lia.
      replace ((-129 <? x - 5) && (x - 5 <? -4)) with true by lia. replace (x - 5 + 5) with x by lia. apply reads_ret.
  - set (h := u8 _). assert (Hh : byte h) by apply u8_bound. pose proof (le_val_bound _ HF) as HB.
    unfold is_long, LONG_MIN, LONG_MAX in Hx.
    unfold r_long. intros arg rest Ha. change (h :: bs) with ([h] ++ bs) in *.
    refine (reads_bind r_byte _ [h] bs h x (r_byte_reads h Hh) _ arg rest Ha). clear arg rest Ha.
    assert (Es : s8 h = if x <? 0 then - Z.of_nat (length bs) else Z.of_nat (length bs)) by (unfold h, s8, u8; destruct (x <? 0); lia).
    rewrite Es. clearbody h. destruct (Z.ltb_spec x 0).
    + rewrite (proj2 (Z.eqb_neq _ _)), (proj2 (Z.ltb_ge 0 _)) by lia.
      replace ((-129 <? - Z.of_nat (length bs)) && (- Z.of_nat (length bs) <? -4)) with false by lia.
      replace (4 <? - - Z.of_nat (length bs)) with false by lia.
      replace (Z.to_nat _) with (length bs) by lia.
      pose proof (r_long_loop_reads true bs 0 0) as HR. cbn -[Z.mul Z.of_nat] in HR. replace x with (0 + 1 * le_val bs - 256 ^ Z.of_nat (length bs)) by lia.
      apply HR; try lia; auto. destruct (Nat.eq_dec (length bs) 4) as [E|]; [left|right; lia]. rewrite E in *. cbn in *. lia.
    + rewrite (proj2 (Z.eqb_neq _ _)), (proj2 (Z.ltb_lt 0 _)) by lia.
      replace ((4 <? Z.of_nat (length bs)) && (Z.of_nat (length bs) <? 128)) with false by lia.
      replace (4 <? Z.of_nat (length bs)) with false by lia.
      replace (Z.to_nat _) with (length bs) by lia.
      pose proof (r_long_loop_reads false bs 0 0) as HR. cbn -[Z.mul Z.of_nat] in HR. replace x with (0 + 1 * le_val bs - 0) by lia.
      apply HR; try lia; auto.
Qed.

(** ** What the writer appends *)

(** Everything written so far, in the IO or still in the buffer. *)
Definition written (arg : dump_arg) : list Z :=
  match dest arg with Some io => io ++ str arg | None => str arg end.

(** [arg'] is [arg] with the bytes [bs] appended. *)
Definition appended (bs : list Z) (arg arg' : dump_arg) : Prop :=
  written arg' = written arg ++ bs /\ symbols arg' = symbols arg /\ data arg' = data arg.

Lemma appended_trans bs cs a b c : appended bs a b -> appended cs b c -> appended (bs ++ cs) a c.
Proof. intros (H1 & H2 & H3) (H4 & H5 & H6). unfold appended. rewrite H4, H1, H5, H6, app_assoc. auto. Qed.

Lemma w_nbyte_app B s arg : appended s arg (w_nbyte B s arg).
Proof.
  unfold appended, w_nbyte, written. destruct (dest arg) as [io|]; [case_if|]; cbn; rewrite ?app_nil_r, ?app_assoc; auto.
Qed.

Lemma w_byte_app B c arg : appended [u8 c] arg (w_byte B c arg).
Proof. apply w_nbyte_app. Qed.

Lemma w_fold_app {A} (f : A -> dump_arg -> dump_arg) enc (l : list A) :
  (forall x arg, appended (enc x) arg (f x arg)) ->
  forall arg, appended (concat (map enc l)) arg (fold_left (fun arg x => f x arg) l arg).
Proof.
  intros Hf. induction l as [|x l IH]; intros arg; cbn [map concat fold_left].
  - unfold appended. rewrite app_nil_r. auto.
  - eapply appended_trans; [apply Hf|apply IH].
Qed.

Lemma concat_sing {A C} (f : A -> C) l : concat (map (fun x => [f x]) l) = map f l.
Proof. induction l; cbn; congruence. Qed.

Lemma w_long_app B x arg : is_long x -> exists arg', w_long B x arg = Ok arg' /\ appended (enc_long x) arg arg'.
Proof.
  intros Hx. unfold w_long. destruct (enc_long_cases x Hx) as [(Hs & c & E & _)|(bs & E & EL & HF & HL & _)].
  - revert E. unfold enc_long. destruct (x =? 0) eqn:E0; [intros _; eexists; split; [reflexivity|apply w_byte_app]|].
    destruct (_ && _) eqn:E1; [intros _; eexists; split; [reflexivity|apply w_byte_app]|].
    destruct ((-124 <? x) && (x <? 0)) eqn:E2; [intros _; eexists; split; [reflexivity|apply w_byte_app]|]. lia.
  - rewrite EL. cbn [bind]. rewrite E. unfold enc_long in E. revert E.
    destruct (x =? 0) eqn:E0; [intros [= _ <-]; cbn in HL; lia|].
    destruct ((0 <? x) && (x <? 123)) eqn:E1; [intros [= _ <-]; cbn in HL; lia|].
    destruct ((-124 <? x) && (x <? 0)) eqn:E2; [intros [= _ <-]; cbn in HL; lia|]. intros _.
    eexists; split; [reflexivity|]. set (hh := if x <? 0 then _ else _).
    replace (u8 hh :: bs) with (concat (map (fun b => [u8 b]) (hh :: bs))).
    + apply w_fold_app. intros; apply w_byte_app.
    + rewrite concat_sing. cbn [map]. f_equal. rewrite <- (map_id bs) at 2. apply map_ext_Forall.
      eapply Forall_impl; [|exact HF]. apply u8_byte.
Qed.

Definition enc_bytes (s : list Z) : list Z := enc_long (Z.of_nat (length s)) ++ s.

Lemma w_bytes_app B s arg : Z.of_nat (length s) <= LONG_MAX ->
  exists arg', w_bytes B s arg = Ok arg' /\ appended (enc_bytes s) arg arg'.
Proof.
  intros H. unfold w_bytes. destruct (w_long_app B (Z.of_nat (length s)) arg) as (a1 & -> & H1).
  { unfold is_long, LONG_MIN, LONG_MAX in *. lia. }
  cbn [bind]. eexists; split; [reflexivity|]. eapply appended_trans; [exact H1|apply w_nbyte_app].
Qed.

Definition enc_short (d : Z) : list Z := [d mod 256; d / 256].

Lemma w_short_app B d arg : digit d -> appended (enc_short d) arg (w_short B d arg).
Proof.
  unfold digit, BIGRAD. intros Hd. unfold w_short, enc_short. change 255 with (Z.ones 8).
  rewrite !Z.land_ones, !Z.shiftr_div_pow2 by lia. change (2 ^ 0) with 1. change (2 ^ 8) with 256.
  change [d mod 256; d / 256] with ([d mod 256] ++ [d / 256]).
  replace (d mod 256) with (u8 (d / 1 mod 256)) at 1 by (unfold u8; lia).
  replace (d / 256) with (u8 (d / 256 mod 256)) at 1 by (unfold u8; lia).
  eapply appended_trans; apply w_byte_app.
Qed.

Lemma w_shorts_app B ds arg : Forall digit ds ->
  appended (concat (map enc_short ds)) arg (fold_left (fun arg d => w_short B d arg) ds arg).
Proof.
  intros H; revert arg; induction H as [|d ds Hd H IH]; intros arg; cbn [map concat fold_left].
  - unfold appended. rewrite app_nil_r. auto.
  - eapply appended_trans; [now apply w_short_app|apply IH].
Qed.

(** ** Reading the pieces back *)

Lemma avail_prefix arg bs rest : avail arg (bs ++ rest) -> firstn (length bs) (skipn (Z.to_nat (offset arg)) (src arg ++ [0])) = bs.
Proof.
  intros (pre & -> & ->). rewrite Nat2Z.id, <- app_assoc, skipn_app, skipn_all, Nat.sub_diag. cbn [skipn app].
  rewrite <- app_assoc, firstn_app, firstn_all, Nat.sub_diag. cbn. apply app_nil_r.
Qed.

Lemma room_for n : 0 <= n < LONG_MAX -> (s32 (n + 1) <? 0) = false.
Proof. unfold LONG_MAX. intros H. rewrite s32_small by lia. apply Z.ltb_ge. lia. Qed.

Lemma r_bytes0_reads s : Z.of_nat (length s) < LONG_MAX -> reads (r_bytes0 (Z.of_nat (length s))) s s.
Proof.
  intros Hlen arg rest Ha. unfold r_bytes0. destruct (Z.eqb_spec (Z.of_nat (length s)) 0) as [E|E].
  - destruct s; [|discriminate]. now rewrite adv_0.
  - destruct Ha as (pre & Hs & Ho). rewrite (proj2 (Z.ltb_lt _ _)) by (unfold size; rewrite Hs, Ho, !length_app; lia).
    rewrite room_for, (proj2 (Z.ltb_ge _ _)), (proj2 (Z.leb_le _ _)) by (unfold size; rewrite ?Hs, ?Ho, ?length_app; lia).
    rewrite Nat2Z.id, (avail_prefix arg s rest) by (exists pre; auto). reflexivity.
Qed.

Lemma r_bytes_reads s : Z.of_nat (length s) < LONG_MAX -> reads r_bytes (enc_bytes s) s.
Proof.
  intros H. apply (reads_bind r_long r_bytes0 (enc_long (Z.of_nat (length s))) s (Z.of_nat (length s)) s).
  - apply r_long_reads. unfold is_long, LONG_MIN, LONG_MAX in *. lia.
  - now apply r_bytes0_reads.
Qed.

Lemma r_digits_shorts ds : Forall digit ds -> r_digits (concat (map enc_short ds)) = ds.
Proof.
  induction 1 as [|d ds Hd H IH]; [reflexivity|]. cbn [map concat enc_short app r_digits].
  unfold digit, BIGRAD in Hd. rewrite IH, Z.shiftl_mul_pow2, lor_add_low by (try lia; change (2 ^ 8) with 256; lia).
  change (2 ^ 8) with 256. f_equal. lia.
Qed.

Lemma shorts_length ds : length (concat (map enc_short ds)) = (2 * length ds)%nat.
Proof. induction ds; cbn in *; lia. Qed.

(** ** Renumbering

    An object is written once, when it is first met; [D] lists the addresses
    in that order.  Loading puts the copy of the object [D] lists at position
    [i] at address [i]. *)

Definition position (D : list nat) (a : nat) : nat :=
  match index_of Nat.eqb a D with Some i => i | None => length D end.

Definition ren (D : list nat) (v : value) : value :=
  match v with VRef a => VRef (position D a) | _ => v end.

Definition ren_ivar (D : list nat) (p : name * value) : name * value := (fst p, ren D (snd p)).

Section Names.
Context {ids : Symbols}.

(** The copy of an object, whose variables have been set one by one. *)
Definition ren_object (D : list nat) (o : object) : object :=
  match o with
  | OArray l => OArray (map (ren D) l)
  | OObject klass ivars => OObject klass (iv_build (map (ren_ivar D) (iv_each VNil ivars)))
  | _ => o
  end.

Definition known (D : list nat) (v : value) : Prop := match v with VRef a => In a D | _ => True end.

Definition children (o : object) : list value :=
  match o with OArray l => l | OObject _ ivars => map snd (iv_each VNil ivars) | _ => [] end.

Lemma index_of_Some {A} (eqb : A -> A -> bool) (Heq : forall x y, eqb x y = true <-> x = y) x l i :
  index_of eqb x l = Some i -> (i < length l)%nat /\ nth_error l i = Some x.
Proof.
  revert i; induction l as [|y l IH]; intros i; cbn [index_of]; [discriminate|].
  destruct (eqb x y) eqn:E; [intros [= <-]; apply Heq in E as ->; cbn; split; [lia|auto]|].
  destruct (index_of eqb x l) as [j|]; [|discriminate]. intros [= <-]. destruct (IH j eq_refl). cbn. split; [lia|auto].
Qed.

Lemma index_of_None {A} (eqb : A -> A -> bool) (Heq : forall x y, eqb x y = true <-> x = y) x l :
  index_of eqb x l = None <-> ~ In x l.
Proof.
  induction l as [|y l IH]; cbn [index_of In]; [tauto|].
  destruct (eqb x y) eqn:E; [apply Heq in E as ->; split; [discriminate|intros []; auto]|].
  assert (y <> x) by (intros ->; rewrite (proj2 (Heq x x)) in E; congruence).
  destruct (index_of eqb x l) as [i|] eqn:E1; cbn; [|tauto].
  split; [discriminate|intros H'; exfalso; apply H'; right].
  now apply (index_of_Some eqb Heq), proj2, nth_error_In in E1.
Qed.

Lemma name_eqb_iff x y : name_eqb x y = true <-> x = y.
Proof. unfold name_eqb. destruct (list_eq_dec Z.eq_dec x y); split; congruence. Qed.

Lemma position_app D E a : In a D -> position (D ++ E) a = position D a.
Proof.
  intros HI. unfold position. induction D as [|y D IH]; [destruct HI|]. cbn [app index_of].
  destruct (Nat.eqb_spec a y); [reflexivity|]. destruct HI as [->|HI]; [congruence|]. specialize (IH HI). cbn [length].
  destruct (index_of Nat.eqb a (D ++ E)), (index_of Nat.eqb a D); cbn; try lia.
Qed.

Lemma position_new D E a : ~ In a D -> position (D ++ a :: E) a = length D.
Proof.
  intros HI. unfold position. induction D as [|y D IH]; cbn [app index_of length]; [now rewrite Nat.eqb_refl|].
  destruct (Nat.eqb_spec a y) as [->|]; [destruct HI; now left|]. cbn in HI.
  assert (IH' := IH ltac:(tauto)). destruct (index_of Nat.eqb a (D ++ a :: E)); cbn in *; [lia|]. rewrite length_app in *. cbn in *. lia.
Qed.

Lemma ren_app D E v : known D v -> ren (D ++ E) v = ren D v.
Proof. destruct v; cbn; intros; auto. now rewrite position_app. Qed.

Lemma known_app D E v : known D v -> known (D ++ E) v.
Proof. destruct v; cbn; auto. intros; apply in_or_app; auto. Qed.

Lemma ren_object_app D E o : Forall (known D) (children o) -> ren_object (D ++ E) o = ren_object D o.
Proof.
  destruct o as [b|s|l|k iv]; cbn; intros HF; auto; f_equal; [|f_equal]; apply map_ext_Forall.
  - eapply Forall_impl; [|exact HF]. intros v; apply ren_app.
  - rewrite Forall_map in HF. eapply Forall_impl; [|exact HF]. intros [id v]; unfold ren_ivar; cbn; intros; now rewrite ren_app.
Qed.

(** ** Well-formed graphs *)

(** A graph that can be dumped: [names] holds every symbol, instance variable
    and class name in it. *)
Definition name_ok (id : name) : Prop := Forall (fun c => 0 < c < 256) id /\ Z.of_nat (length id) < LONG_MAX.

Definition names_ok (names : list name) : Prop :=
  Forall name_ok names /\ Forall interned names /\ Z.of_nat (length names) <= LONG_MAX.

Definition value_ok (names : list name) (h : heap) (v : value) : Prop :=
  match v with
  | VFix n => FIXABLE n = true
  | VSym id => In id names
  | VRef a => (a < length h)%nat
  | _ => True
  end.

Definition object_ok (refers plain_class : name -> outcome bool) (names : list name) (h : heap) (o : object) : Prop :=
  Forall (value_ok names h) (children o) /\
  match o with
  | OBignum b => canonical (Big b) /\ 2 * len b <= LONG_MAX
  | OString s => Z.of_nat (length s) < LONG_MAX
  | OArray l => 4 * Z.of_nat (length l) <= LONG_MAX
  | OObject klass ivars =>
      In klass names /\ refers klass = Ok true /\ plain_class klass = Ok true /\ hd 0 klass <> 35 /\
      iv_good names ivars /\ incl (map fst (iv_each VNil ivars)) names /\ NoDup (map fst (iv_each VNil ivars)) /\
      iv_count ivars <= ENTRIES_MAX
  end.

Definition heap_ok refers plain_class names (h : heap) : Prop :=
  Forall (object_ok refers plain_class names h) h /\ Z.of_nat (length h) <= FIXNUM_MAX.

(** ** Writer and reader in step *)

Definition entries (D : list nat) : list value := map VRef (seq 0 (length D)).

(** The reader has consumed what the writer had written. *)
Definition synced (arg : dump_arg) (larg : load_arg) (s : list Z) : Prop :=
  avail larg s /\ lsymbols larg = symbols arg /\ ldata larg = entries (data arg) /\
  length (objects larg) = length (data arg).

(** The reader [n] bytes further, in step with a writer at [arg]. *)
Definition after (arg : dump_arg) (n : nat) (objs : heap) (larg : load_arg) : load_arg :=
  mkLoad (src larg) (offset larg + Z.of_nat n) (symbols arg) (entries (data arg)) objs.

Lemma synced_after arg arg' larg bs rest objs :
  synced arg larg (bs ++ rest) -> length objs = length (data arg') ->
  synced arg' (after arg' (length bs) objs larg) rest.
Proof.
  intros ((pre & Hs & Ho) & _) HL. unfold synced. splits; auto. exists (pre ++ bs). cbn. rewrite <- app_assoc, length_app. split; [auto|lia].
Qed.

Lemma after_same a b n o larg : symbols b = symbols a -> data b = data a -> after a n o larg = after b n o larg.
Proof. unfold after. now intros -> ->. Qed.

Lemma after_after a b m n o o' larg : after b n o' (after a m o larg) = after b (m + n) o' larg.
Proof. unfold after; cbn. f_equal. lia. Qed.

Lemma adv_after arg arg' larg s n : synced arg larg s -> symbols arg' = symbols arg -> data arg' = data arg ->
  adv n larg = after arg' n (objects larg) larg.
Proof. intros (_ & Hs & Hd & _) Es Ed. unfold adv, set_offset, after. now rewrite Hs, Hd, Es, Ed. Qed.

Lemma entries_snoc D a : entries (D ++ [a]) = entries D ++ [VRef (length D)].
Proof. unfold entries. rewrite length_app, seq_app, map_app. reflexivity. Qed.

Lemma nth_entries D i d : (i < length D)%nat -> nth i (entries D) d = VRef i.
Proof.
  intros Hi. unfold entries. rewrite (nth_indep _ d (VRef 0)) by now rewrite length_map, length_seq.
  rewrite map_nth, seq_nth by lia. reflexivity.
Qed.

Lemma entries_length D : length (entries D) = length D.
Proof. unfold entries. now rewrite length_map, length_seq. Qed.

Lemma list_set_app_l {A} (l m : list A) i x : (i < length l)%nat -> list_set (l ++ m) i x = list_set l i x ++ m.
Proof. revert i; induction l as [|y l IH]; intros [|i] Hi; cbn in *; try lia; auto. f_equal. apply IH. lia. Qed.

Lemma nth_error_list_set {A} (l : list A) i x : (i < length l)%nat -> nth_error (list_set l i x) i = Some x.
Proof. revert i; induction l as [|y l IH]; intros [|i] Hi; cbn in *; try lia; auto. apply IH. lia. Qed.

Lemma list_set_twice {A} (l : list A) i x y : list_set (list_set l i x) i y = list_set l i y.
Proof. revert i; induction l as [|z l IH]; intros [|i]; cbn; auto. now rewrite IH. Qed.

Lemma list_set_id {A} (l : list A) i x : nth_error l i = Some x -> list_set l i x = l.
Proof. revert i; induction l as [|z l IH]; intros [|i]; cbn; intros H; try discriminate; [congruence|]. now rewrite IH. Qed.

Lemma list_set_end {A} (l : list A) x y : list_set (l ++ [x]) (length l) y = l ++ [y].
Proof. induction l; cbn; congruence. Qed.

Lemma cstr_id s : name_ok s -> cstr s = s.
Proof.
  intros (H & _). induction H as [|c s Hc H IH]; cbn; [reflexivity|]. rewrite (proj2 (Z.eqb_neq _ _)) by lia. now rewrite IH.
Qed.

Lemma sig_byte c : is_long c -> (1 <= length (enc_long c))%nat.
Proof. intros H. destruct (enc_long_cases c H) as [(_ & x & -> & _)|(bs & -> & _)]; cbn; lia. Qed.

(** A reader of plain bytes, seen from a synchronised state. *)
Lemma reads_here {A} (f : load_arg -> outcome (A * load_arg)) bs x arg larg rest :
  reads f bs x -> synced arg larg (bs ++ rest) ->
  f larg = Ok (x, after arg (length bs) (objects larg) larg) /\
  synced arg (after arg (length bs) (objects larg) larg) rest.
Proof.
  intros Hf Hy. split.
  - rewrite (Hf larg rest (proj1 Hy)). do 2 f_equal. eapply adv_after; eauto.
  - apply (synced_after arg); auto. apply Hy.
Qed.

Section RoundTrip.
Context (BUFSIZ : Z) (refers plain_class : name -> outcome bool) (exhausted : rb_error) (names : list name) (h : heap).
Hypothesis (Hnames : names_ok names) (Hheap : heap_ok refers plain_class names h).

Definition dump_ok (arg : dump_arg) : Prop :=
  NoDup (data arg) /\ Forall (fun a => (a < length h)%nat) (data arg) /\
  NoDup (symbols arg) /\ incl (symbols arg) names.

Lemma dump_ok_same arg arg' : symbols arg' = symbols arg -> data arg' = data arg -> dump_ok arg -> dump_ok arg'.
Proof. unfold dump_ok. now intros -> ->. Qed.

Lemma data_bound arg : dump_ok arg -> (length (data arg) <= length h)%nat.
Proof.
  intros (HN & HF & _). rewrite <- (length_seq (length h) 0). apply NoDup_incl_length; auto.
  intros a Ha. apply in_seq. rewrite Forall_forall in HF. specialize (HF a Ha). lia.
Qed.

Lemma in_names id : In id names -> name_ok id.
Proof. intros H. destruct Hnames as (HF & _). rewrite Forall_forall in HF. auto. Qed.

(** The tables of the writer with other objects numbered. *)
Definition with_data (D : list nat) (arg : dump_arg) : dump_arg := mkDump (str arg) (dest arg) (symbols arg) D.

Lemma with_data_id arg : with_data (data arg) arg = arg.
Proof. now destruct arg. Qed.

(** A symbol is written as a link to its number or in full, which numbers
    it; [t] is the type byte. *)
Lemma w_symbol_spec id arg : dump_ok arg -> In id names ->
  exists arg' t bs, w_symbol BUFSIZ id arg = Ok arg' /\
    written arg' = written arg ++ t :: bs /\ data arg' = data arg /\ dump_ok arg' /\
    (t = TYPE_SYMLINK /\ (forall D larg rest, synced (with_data D arg) larg (bs ++ rest) ->
       r_symlink larg = Ok (id, after (with_data D arg') (length bs) (objects larg) larg)) \/
     t = TYPE_SYMBOL /\ (forall D larg rest, synced (with_data D arg) larg (bs ++ rest) ->
       r_symreal larg = Ok (id, after (with_data D arg') (length bs) (objects larg) larg))).
Proof.
  intros HD HI. unfold w_symbol. destruct (index_of name_eqb id (symbols arg)) as [num|] eqn:E.
  - apply (index_of_Some _ name_eqb_iff) in E as (HL & HE).
    assert (HB : (length (symbols arg) <= length names)%nat) by (apply NoDup_incl_length; apply HD).
    assert (Hl : is_long (Z.of_nat num)) by (destruct Hnames as (_ & _ & Hn); unfold is_long, LONG_MIN; lia).
    pose proof (w_byte_app BUFSIZ TYPE_SYMLINK arg) as H1.
    destruct (w_long_app BUFSIZ (Z.of_nat num) (w_byte BUFSIZ TYPE_SYMLINK arg) Hl) as (a' & -> & H2).
    pose proof (appended_trans _ _ _ _ _ H1 H2) as (Hw & Hs & Hd).
    exists a', TYPE_SYMLINK, (enc_long (Z.of_nat num)). splits; auto; [eapply dump_ok_same; eauto|].
    left. split; [reflexivity|]. intros D larg rest Hy. unfold r_symlink.
    destruct (reads_here r_long _ _ _ larg rest (r_long_reads _ Hl) Hy) as (-> & _).
    cbn [bind lsymbols after with_data symbols]. rewrite Nat2Z.id, (proj2 (Z.leb_le _ _)), (proj2 (Z.ltb_lt _ _)) by lia. cbn [andb].
    rewrite (nth_error_nth _ _ _ HE). unfold after. cbn [symbols data with_data]. now rewrite Hs.
  - pose proof (w_byte_app BUFSIZ TYPE_SYMBOL arg) as H1.
    destruct (w_bytes_app BUFSIZ id (w_byte BUFSIZ TYPE_SYMBOL arg)) as (a' & -> & H2); [apply Z.lt_le_incl, (in_names id HI)|].
    pose proof (appended_trans _ _ _ _ _ H1 H2) as (Hw & Hs & Hd). cbn [bind].
    eexists _, TYPE_SYMBOL, (enc_bytes id). splits; [reflexivity|exact Hw|exact Hd| |].
    + destruct HD as (HN & HF & HN' & HI'). unfold dump_ok; cbn [symbols data]. rewrite Hd, Hs. splits; auto.
      * apply NoDup_app; auto; [repeat constructor; auto|].
        intros x Hx [->|[]]. now apply (index_of_None _ name_eqb_iff) in E.
      * apply incl_app; auto. now intros x [->|[]].
    + right. split; [reflexivity|]. intros D larg rest Hy. unfold r_symreal.
      destruct (reads_here r_bytes _ id _ larg rest (r_bytes_reads _ (proj2 (in_names id HI))) Hy) as (-> & _).
      cbn [bind]. rewrite (cstr_id id (in_names id HI)). unfold after; cbn. now rewrite Hs.
Qed.

(** The loaded copy of the object at [a]. *)
Definition image (D : list nat) (a : nat) : object := ren_object D (nth a h (OString [])).

(** The writer has appended [bs] and numbered the objects [new], whose
    components are all numbered. *)
Definition grown (arg arg' : dump_arg) (bs : list Z) (new : list nat) : Prop :=
  written arg' = written arg ++ bs /\ data arg' = data arg ++ new /\ dump_ok arg' /\
  Forall (fun a => Forall (known (data arg')) (children (nth a h (OString [])))) new.

Lemma images_app D E new :
  Forall (fun a => Forall (known D) (children (nth a h (OString [])))) new ->
  map (image (D ++ E)) new = map (image D) new.
Proof. intros HF. apply map_ext_Forall. eapply Forall_impl; [|exact HF]. intros a. apply ren_object_app. Qed.

Lemma known_all_app D E l : Forall (known D) l -> Forall (known (D ++ E)) l.
Proof. apply Forall_impl. intros v. apply known_app. Qed.

Lemma grown_trans a b c bs cs new new' : grown a b bs new -> grown b c cs new' -> grown a c (bs ++ cs) (new ++ new').
Proof.
  intros (H1 & H2 & H3 & H4) (H5 & H6 & H7 & H8). unfold grown. rewrite H5, H1, H6, H2, !app_assoc.
  splits; auto. apply Forall_app; split.
  - eapply Forall_impl; [|exact H4]. intros x Hx. rewrite <- H2. now apply known_all_app.
  - now rewrite <- H2, <- H6.
Qed.

Lemma grown_appended arg arg' bs : dump_ok arg -> appended bs arg arg' -> grown arg arg' bs [].
Proof. intros H (H1 & H2 & H3). unfold grown. rewrite app_nil_r. splits; auto. eapply dump_ok_same; eauto. Qed.

(** What is shown of [r_object (w_object v)], for the writer [w]. *)
Definition round_trips (w : value -> dump_arg -> outcome dump_arg) (v : value) (arg : dump_arg) : Prop :=
  exists arg' bs new, w v arg = Ok arg' /\ grown arg arg' bs new /\ known (data arg') v /\ (1 <= length bs)%nat /\
    forall larg rest fuel, synced arg larg (bs ++ rest) -> (2 * length bs <= fuel)%nat ->
      r_object plain_class exhausted fuel larg =
        Ok (ren (data arg') v, after arg' (length bs) (objects larg ++ map (image (data arg')) new) larg).

Lemma r_byte_synced arg larg t bs rest : synced arg larg ((t :: bs) ++ rest) -> byte t ->
  r_byte larg = Ok (t, after arg 1 (objects larg) larg) /\
  synced arg (after arg 1 (objects larg) larg) (bs ++ rest).
Proof. intros Hy Ht. apply (reads_here r_byte [t] t arg larg (bs ++ rest)); auto. now apply r_byte_reads. Qed.

(** Reads the type byte of [r_object]. *)
Ltac read_type Hy :=
  match goal with
  | |- r_object _ _ ?fuel _ = _ =>
      destruct fuel as [|fuel]; [cbn [length app] in *; lia|]; rewrite r_object_eq;
      destruct (r_byte_synced _ _ _ _ _ Hy) as (-> & Hy'); [split; reflexivity || discriminate|]; cbn [bind];
      repeat match goal with
      | |- context [Z.eqb ?a ?b] => let r := eval compute in (Z.eqb a b) in
          first [constr_eq r true | constr_eq r false]; change (Z.eqb a b) with r
      end; cbv beta match
  end.

Lemma round_byte fuel limit v t arg :
  dump_ok arg -> limit <> 0 -> (v, t) = (VNil, TYPE_NIL) \/ (v, t) = (VTrue, TYPE_TRUE) \/ (v, t) = (VFalse, TYPE_FALSE) ->
  round_trips (w_object BUFSIZ refers (S fuel) h limit) v arg.
Proof.
  intros HD HL Hv. pose proof (w_byte_app BUFSIZ t arg) as H1.
  exists (w_byte BUFSIZ t arg), [t], [].
  assert (Ht : u8 t = t) by (destruct Hv as [[= -> ->]|[[= -> ->]|[= -> ->]]]; reflexivity). rewrite Ht in H1.
  destruct H1 as (Hw & Hs & Hd).
  splits.
  - cbn [w_object]. rewrite (proj2 (Z.eqb_neq _ _)) by lia. now destruct Hv as [[= -> ->]|[[= -> ->]|[= -> ->]]].
  - apply grown_appended; auto. unfold appended; auto.
  - now destruct Hv as [[= -> ->]|[[= -> ->]|[= -> ->]]].
  - auto.
  - intros larg rest rf Hy Hf. rewrite app_nil_r.
    destruct Hv as [[= -> ->]|[[= -> ->]|[= -> ->]]]; read_type Hy; cbn [ren length]; do 2 f_equal; now apply after_same.
Qed.

Lemma FIXABLE_long n : FIXABLE n = true -> is_long n.
Proof. intros H. apply FIXABLE_iff in H. unfold is_long, LONG_MIN, LONG_MAX. lia. Qed.

Lemma round_fix fuel limit n arg :
  dump_ok arg -> limit <> 0 -> FIXABLE n = true -> round_trips (w_object BUFSIZ refers (S fuel) h limit) (VFix n) arg.
Proof.
  intros HD HL Hn. pose proof (w_byte_app BUFSIZ TYPE_FIXNUM arg) as H1.
  destruct (w_long_app BUFSIZ n (w_byte BUFSIZ TYPE_FIXNUM arg) (FIXABLE_long n Hn)) as (a' & E & H2).
  pose proof (appended_trans _ _ _ _ _ H1 H2) as H3.
  exists a', (TYPE_FIXNUM :: enc_long n), []. splits.
  - cbn [w_object]. rewrite (proj2 (Z.eqb_neq _ _)) by lia. exact E.
  - now apply grown_appended.
  - exact I.
  - cbn; lia.
  - intros larg rest rf Hy Hf. rewrite app_nil_r. read_type Hy.
    destruct (reads_here r_long _ n arg _ rest (r_long_reads n (FIXABLE_long n Hn)) Hy') as (-> & _). cbn [bind].
    rewrite tag_small, after_after by auto. cbn [ren length objects after]. do 2 f_equal. apply after_same; apply H3.
Qed.

Lemma round_sym fuel limit id arg :
  dump_ok arg -> limit <> 0 -> In id names -> round_trips (w_object BUFSIZ refers (S fuel) h limit) (VSym id) arg.
Proof.
  intros HD HL Hn. destruct (w_symbol_spec id arg HD Hn) as (a' & t & bs & E & Hw & Hd & HD' & HR).
  exists a', (t :: bs), []. splits.
  - cbn [w_object]. rewrite (proj2 (Z.eqb_neq _ _)) by lia. exact E.
  - unfold grown. rewrite app_nil_r. splits; auto.
  - exact I.
  - cbn; lia.
  - intros larg rest rf Hy Hf. rewrite app_nil_r. cbn [ren length]. rewrite <- (with_data_id a'), Hd.
    destruct HR as [[-> HR]|[-> HR]]; read_type Hy; rewrite <- (with_data_id arg) in Hy' at 1;
      rewrite (HR _ _ rest Hy'); cbn [bind]; now rewrite after_after.
Qed.

Lemma grown_known arg arg' bs new a : In a (data arg) -> grown arg arg' bs new -> In a (data arg').
Proof. intros HI (_ & -> & _). apply in_or_app; auto. Qed.

Lemma heap_length : Z.of_nat (length h) <= FIXNUM_MAX.
Proof. apply Hheap. Qed.

Lemma round_link fuel limit a arg :
  dump_ok arg -> limit <> 0 -> In a (data arg) -> round_trips (w_object BUFSIZ refers (S fuel) h limit) (VRef a) arg.
Proof.
  intros HD HL HI. destruct (index_of Nat.eqb a (data arg)) as [num|] eqn:E; [|now apply (index_of_None _ Nat.eqb_eq) in E].
  destruct (index_of_Some _ Nat.eqb_eq _ _ _ E) as (Hlt & _).
  assert (HF : FIXABLE (Z.of_nat num) = true).
  { pose proof (data_bound arg HD). pose proof heap_length. rewrite FIXNUM_MAX_eq in *. apply FIXABLE_iff. lia. }
  pose proof (w_byte_app BUFSIZ TYPE_LINK arg) as H1.
  destruct (w_long_app BUFSIZ (Z.of_nat num) (w_byte BUFSIZ TYPE_LINK arg) (FIXABLE_long _ HF)) as (a' & EL & H2).
  pose proof (appended_trans _ _ _ _ _ H1 H2) as H3.
  exists a', (TYPE_LINK :: enc_long (Z.of_nat num)), []. splits.
  - cbn [w_object]. rewrite (proj2 (Z.eqb_neq _ _)), E by lia. exact EL.
  - now apply grown_appended.
  - cbn. now rewrite (proj2 (proj2 H3)).
  - cbn; lia.
  - intros larg rest rf Hy Hf. rewrite app_nil_r. read_type Hy.
    destruct (reads_here r_long _ _ arg _ rest (r_long_reads _ (FIXABLE_long _ HF)) Hy') as (-> & _). cbn [bind ldata after].
    rewrite tag_small, entries_length, Nat2Z.id by auto. rewrite (proj2 (Z.leb_le _ _)), (proj2 (Z.ltb_lt _ _)) by lia. cbn [andb].
    rewrite nth_entries by auto. fold (after arg 1 (objects larg) larg). rewrite after_after. cbn [ren length objects after].
    rewrite (proj2 (proj2 H3)). unfold position. rewrite E. do 2 f_equal. apply after_same; apply H3.
Qed.

(** The object at [a] has just been given a number. *)
Definition entered (a : nat) (arg : dump_arg) : dump_arg := mkDump (str arg) (dest arg) (symbols arg) (data arg ++ [a]).

Lemma entered_ok a arg : dump_ok arg -> (a < length h)%nat -> ~ In a (data arg) -> dump_ok (entered a arg).
Proof.
  intros (H1 & H2 & H3 & H4) Ha HI. unfold dump_ok, entered; cbn. splits; auto.
  - apply NoDup_app; auto; [repeat constructor; auto|]. now intros x Hx [->|[]].
  - apply Forall_app; auto.
Qed.

(** [w_object] on an object met for the first time. *)
Lemma w_object_new fuel limit a arg : limit <> 0 -> ~ In a (data arg) ->
  w_object BUFSIZ refers (S fuel) h limit (VRef a) arg =
    match nth_error h a with
    | None => Undefined
    | Some (OBignum b) =>
        let arg := w_byte BUFSIZ (if sign b then 43 else 45) (w_byte BUFSIZ TYPE_BIGNUM (entered a arg)) in
        arg <- w_long BUFSIZ (len b) arg ;; Ok (fold_left (fun arg d => w_short BUFSIZ d arg) (digits b) arg)
    | Some (OString s) => w_bytes BUFSIZ s (w_byte BUFSIZ TYPE_STRING (entered a arg))
    | Some (OArray l) =>
        arg <- w_long BUFSIZ (Z.of_nat (length l)) (w_byte BUFSIZ TYPE_ARRAY (entered a arg)) ;;
        w_values (w_object BUFSIZ refers fuel h (limit - 1)) l arg
    | Some (OObject klass ivars) =>
        arg <- w_class BUFSIZ refers TYPE_OBJECT klass (entered a arg) ;;
        arg <- w_long BUFSIZ (iv_count ivars) arg ;;
        w_ivars BUFSIZ (w_object BUFSIZ refers fuel h (limit - 1)) (iv_each VNil ivars) arg
    end.
Proof.
  intros HL HI. cbn [w_object]. rewrite (proj2 (Z.eqb_neq _ _)), (proj2 (index_of_None _ Nat.eqb_eq _ _) HI) by lia. reflexivity.
Qed.

Lemma object_at a o : nth_error h a = Some o -> nth a h (OString []) = o /\ (a < length h)%nat /\ object_ok refers plain_class names h o.
Proof.
  intros E. splits; [now apply nth_error_nth|apply nth_error_Some; congruence|].
  destruct Hheap as (HF & _). rewrite Forall_forall in HF. apply HF. eapply nth_error_In; eauto.
Qed.

(** An object without components, written as the bytes [bs]. *)
Lemma grown_entered a arg arg' bs new : grown (entered a arg) arg' bs new ->
  Forall (known (data arg')) (children (nth a h (OString []))) -> grown arg arg' bs (a :: new).
Proof.
  intros (H1 & H2 & H3 & H4) HC. cbn in *. unfold grown. rewrite H2, <- app_assoc in *. splits; auto.
Qed.

Lemma after_entered a arg arg' n objs larg :
  symbols arg' = symbols (entered a arg) -> data arg' = data (entered a arg) ->
  after arg' n objs larg = mkLoad (src larg) (offset larg + Z.of_nat n) (symbols arg) (entries (data arg) ++ [VRef (length (data arg))]) objs.
Proof. unfold after. intros -> ->. cbn [symbols data entered]. now rewrite entries_snoc. Qed.

Lemma round_string fuel limit a s arg :
  dump_ok arg -> limit <> 0 -> nth_error h a = Some (OString s) -> ~ In a (data arg) ->
  round_trips (w_object BUFSIZ refers (S fuel) h limit) (VRef a) arg.
Proof.
  intros HD HL E HI. destruct (object_at a _ E) as (En & Ha & _ & Hok). cbn in Hok.
  pose proof (w_byte_app BUFSIZ TYPE_STRING (entered a arg)) as H1.
  destruct (w_bytes_app BUFSIZ s (w_byte BUFSIZ TYPE_STRING (entered a arg)) (Z.lt_le_incl _ _ Hok)) as (a' & EL & H2).
  pose proof (appended_trans _ _ _ _ _ H1 H2) as H3.
  exists a', (TYPE_STRING :: enc_bytes s), [a]. splits.
  - rewrite w_object_new, E by auto. exact EL.
  - apply grown_entered; [apply grown_appended; auto; now apply entered_ok|]. rewrite En. constructor.
  - cbn. destruct H3 as (_ & _ & ->). apply in_or_app; right; now left.
  - cbn; lia.
  - intros larg rest rf Hy Hf. read_type Hy.
    destruct (reads_here r_bytes _ _ arg _ rest (r_bytes_reads s Hok) Hy') as (-> & _). cbn [bind].
    rewrite after_after. unfold alloc, r_entry. cbn [fst snd src offset lsymbols ldata objects after ren map].
    unfold image. rewrite En. cbn [ren_object]. rewrite (after_entered a arg) by apply H3.
    destruct H3 as (_ & _ & ->). cbn [data entered]. rewrite position_new by auto.
    destruct Hy as (_ & _ & _ & ->). reflexivity.
Qed.

Lemma big_header b : canonical (Big b) -> 2 * len b <= LONG_MAX ->
  is_long (len b) /\ s32 (len b * 2) = Z.of_nat (length (concat (map enc_short (digits b)))) /\ Forall digit (digits b).
Proof.
  intros (Hd & _) HL. rewrite shorts_length. unfold len, is_long, LONG_MIN, LONG_MAX in *. splits; auto; try lia.
  rewrite s32_small; lia.
Qed.

(** The part of a Bignum behind its type byte. *)
Definition enc_big (b : RBignum) : list Z :=
  [if sign b then 43 else 45] ++ enc_long (len b) ++ concat (map enc_short (digits b)).

Lemma r_bignum_spec arg larg rest b : synced arg larg (enc_big b ++ rest) ->
  canonical (Big b) -> 2 * len b <= LONG_MAX ->
  r_bignum larg = Ok (VRef (length (objects larg)),
    mkLoad (src larg) (offset larg + Z.of_nat (length (enc_big b))) (symbols arg)
      (entries (data arg) ++ [VRef (length (objects larg))]) (objects larg ++ [OBignum b])).
Proof.
  intros Hy Hc HL. destruct (big_header b Hc HL) as (Hl & Hs & Hd). unfold r_bignum.
  unfold enc_big in Hy. rewrite <- !app_assoc in Hy.
  assert (Hg : byte (if sign b then 43 else 45)) by (destruct (sign b); split; reflexivity || discriminate).
  assert (Hsz : Z.of_nat (length (concat (map enc_short (digits b)))) < LONG_MAX).
  { rewrite shorts_length. unfold len, LONG_MAX in *. lia. }
  destruct (reads_here r_byte _ _ arg _ _ (r_byte_reads _ Hg) Hy) as (-> & Hy1). cbn [bind].
  destruct (reads_here r_long _ _ arg _ _ (r_long_reads _ Hl) Hy1) as (-> & Hy2). cbn [bind]. rewrite Hs.
  destruct (reads_here _ _ _ arg _ _ (r_bytes0_reads _ Hsz) Hy2) as (-> & _). cbn [bind].
  rewrite (proj2 (Z.ltb_ge _ _)), r_digits_shorts by (auto; unfold len; lia). cbn [objects after].
  replace (mkBig _ (digits b)) with b by (destruct b as [[] ds]; reflexivity).
  rewrite (bignorm_canonical (Big b)) by auto. cbn [bind].
  unfold alloc, r_entry, enc_big; cbn [fst snd src offset lsymbols ldata objects after]. rewrite !length_app.
  do 2 f_equal. f_equal. lia.
Qed.

Lemma round_bignum fuel limit a b arg :
  dump_ok arg -> limit <> 0 -> nth_error h a = Some (OBignum b) -> ~ In a (data arg) ->
  round_trips (w_object BUFSIZ refers (S fuel) h limit) (VRef a) arg.
Proof.
  intros HD HL E HI. destruct (object_at a _ E) as (En & Ha & _ & Hok). cbn in Hok. destruct Hok as (Hc & Hb).
  destruct (big_header b Hc Hb) as (Hl & _ & Hd).
  pose proof (w_byte_app BUFSIZ TYPE_BIGNUM (entered a arg)) as H1. set (a1 := w_byte _ _ _) in H1.
  pose proof (w_byte_app BUFSIZ (if sign b then 43 else 45) a1) as H2. set (a2 := w_byte _ _ a1) in H2.
  destruct (w_long_app BUFSIZ (len b) a2 Hl) as (a3 & EL & H3). pose proof (w_shorts_app BUFSIZ (digits b) a3 Hd) as H4.
  pose proof (appended_trans _ _ _ _ _ H1 (appended_trans _ _ _ _ _ H2 (appended_trans _ _ _ _ _ H3 H4))) as H5.
  replace (u8 (if sign b then 43 else 45)) with (if sign b then 43 else 45) in H5 by now destruct (sign b).
  eexists _, (TYPE_BIGNUM :: enc_big b), [a]. splits.
  - rewrite w_object_new, E by auto. cbn zeta. fold a1 a2. rewrite EL. reflexivity.
  - apply grown_entered; [apply grown_appended; [now apply entered_ok|exact H5]|]. rewrite En. constructor.
  - cbn. destruct H5 as (_ & _ & ->). apply in_or_app; right; now left.
  - cbn; lia.
  - intros larg rest rf Hy Hf. read_type Hy. rewrite (r_bignum_spec arg _ rest b Hy' Hc Hb).
    cbn [ren map]. unfold image. rewrite En. cbn [ren_object]. rewrite (after_entered a arg (fold_left _ _ _)) by apply H5.
    destruct H5 as (_ & _ & ->). cbn [data entered src objects after length offset]. rewrite position_new by auto.
    destruct Hy as (_ & _ & _ & ->). do 3 f_equal. lia.
Qed.

(** The elements of an array, given the round trip of values. *)
Lemma round_values w fuel l : (forall v arg, dump_ok arg -> value_ok names h v -> (length h < fuel + length (data arg))%nat -> round_trips w v arg) ->
  Forall (value_ok names h) l ->
  forall arg, dump_ok arg -> (length h < fuel + length (data arg))%nat ->
  exists arg' bs new, w_values w l arg = Ok arg' /\ grown arg arg' bs new /\ Forall (known (data arg')) l /\
    forall larg rest rf a done, synced arg larg (bs ++ rest) -> nth_error (objects larg) a = Some (OArray done) ->
      (2 * length bs + 1 <= rf)%nat ->
      r_elements plain_class exhausted rf (Z.of_nat (length l)) a larg =
        Ok (after arg' (length bs) (list_set (objects larg) a (OArray (done ++ map (ren (data arg')) l)) ++
          map (image (data arg')) new) larg).
Proof.
  intros Hw HF. induction HF as [|v l Hv HF IH]; intros arg HD HL.
  - exists arg, [], []. splits; auto; [now apply grown_appended; [|unfold appended; rewrite app_nil_r]|].
    intros larg rest rf a done Hy Ha Hf. destruct rf as [|rf]; [lia|]. rewrite r_elements_eq; cbn [length].
    cbn [map]. rewrite !app_nil_r, list_set_id by auto. destruct Hy as (_ & Hs & Hd & _). unfold after.
    rewrite <- Hs, <- Hd. destruct larg; cbn. do 2 f_equal. lia.
  - destruct (Hw v arg HD Hv HL) as (a1 & bs1 & new1 & E1 & G1 & K1 & B1 & R1).
    destruct (IH a1) as (a2 & bs2 & new2 & E2 & G2 & K2 & R2).
    { apply G1. }
    { destruct G1 as (_ & -> & _). rewrite length_app. lia. }
    exists a2, (bs1 ++ bs2), (new1 ++ new2). cbn [w_values]. rewrite E1. cbn [bind]. splits; auto.
    + now apply (grown_trans arg a1).
    + constructor; auto. destruct G2 as (_ & -> & _). now apply known_app.
    + intros larg rest rf a done Hy Ha Hf. rewrite length_app in Hf. destruct rf as [|rf]; [lia|]. rewrite r_elements_eq; cbn [length].
      rewrite (proj2 (Z.eqb_neq _ _)) by lia. rewrite <- app_assoc in Hy. rewrite (R1 larg (bs2 ++ rest) rf Hy) by lia. cbn [bind].
      assert (Hlt : (a < length (objects larg))%nat) by (apply nth_error_Some; congruence).
      unfold rb_ary_push. cbn [objects after]. rewrite nth_error_app1, Ha by auto.
      unfold set_object. cbn [src offset lsymbols ldata objects after].
      rewrite list_set_app_l by auto. set (objs := list_set _ _ _ ++ _). fold (after a1 (length bs1) objs larg).
      replace (Z.of_nat (S (length l)) - 1) with (Z.of_nat (length l)) by lia.
      rewrite (R2 _ rest rf a (done ++ [ren (data a1) v])).
      * rewrite after_after, length_app. subst objs. cbn [objects after]. rewrite list_set_app_l, list_set_twice by now rewrite list_set_length.
        rewrite map_app, <- !app_assoc. cbn [map app]. destruct G2 as (_ & -> & _).
        rewrite ren_app, (images_app (data a1) _ new1) by (auto; apply G1). reflexivity.
      * apply (synced_after arg); auto. subst objs. rewrite !length_app, list_set_length, length_map.
        destruct G1 as (_ & -> & _). rewrite length_app. f_equal. apply Hy.
      * subst objs. cbn [objects after]. rewrite nth_error_app1 by now rewrite list_set_length. now apply nth_error_list_set.
      * lia.
Qed.

Lemma r_symbol_spec id arg : dump_ok arg -> In id names ->
  exists arg' bs, w_symbol BUFSIZ id arg = Ok arg' /\ (1 <= length bs)%nat /\
    written arg' = written arg ++ bs /\ data arg' = data arg /\ dump_ok arg' /\
    forall D larg rest, synced (with_data D arg) larg (bs ++ rest) ->
      r_symbol larg = Ok (id, after (with_data D arg') (length bs) (objects larg) larg).
Proof.
  intros HD HI. destruct (w_symbol_spec id arg HD HI) as (a' & t & bs & E & Hw & Hd & HD' & HR).
  exists a', (t :: bs). splits; auto; [cbn; lia|]. intros D larg rest Hy. unfold r_symbol.
  destruct HR as [[-> HR]|[-> HR]];
    (destruct (r_byte_synced _ _ _ _ _ Hy) as (-> & Hy'); [split; reflexivity || discriminate|]); cbn [bind];
    cbn [Z.eqb TYPE_SYMBOL TYPE_SYMLINK Pos.eqb]; rewrite (HR _ _ _ Hy'); now rewrite after_after.
Qed.

Lemma round_ivars w fuel l : (forall v arg, dump_ok arg -> value_ok names h v -> (length h < fuel + length (data arg))%nat -> round_trips w v arg) ->
  Forall (value_ok names h) (map snd l) -> incl (map fst l) names ->
  forall arg, dump_ok arg -> (length h < fuel + length (data arg))%nat ->
  exists arg' bs new, w_ivars BUFSIZ w l arg = Ok arg' /\ grown arg arg' bs new /\ Forall (known (data arg')) (map snd l) /\
    forall larg rest rf a k done, synced arg larg (bs ++ rest) -> nth_error (objects larg) a = Some (OObject k (iv_build done)) ->
      NoDup (map fst (done ++ l)) -> incl (map fst (done ++ l)) names -> Z.of_nat (length (done ++ l)) <= ENTRIES_MAX ->
      (2 * length bs + 1 <= rf)%nat ->
      r_ivar plain_class exhausted rf (Z.of_nat (length l)) a larg =
        Ok (after arg' (length bs) (list_set (objects larg) a (OObject k (iv_build (done ++ map (ren_ivar (data arg')) l))) ++
          map (image (data arg')) new) larg).
Proof.
  intros Hw. induction l as [|[id v] l IH]; intros HF HN arg HD HL.
  - exists arg, [], []. splits; auto; [now apply grown_appended; [|unfold appended; rewrite app_nil_r]|].
    intros larg rest rf a k done Hy Ha _ _ _ Hf. destruct rf as [|rf]; [lia|]. rewrite r_ivar_eq; cbn [length].
    cbn [map]. rewrite !app_nil_r, list_set_id by auto. destruct Hy as (_ & Hs & Hd & _). unfold after.
    rewrite <- Hs, <- Hd. destruct larg; cbn. do 2 f_equal. lia.
  - cbn [map fst snd] in *. inversion_clear HF as [|? ? Hv HF']. apply incl_cons_inv in HN as [Hid HN'].
    destruct (r_symbol_spec id arg HD Hid) as (a0 & bs0 & E0 & B0 & W0 & D0 & OK0 & R0).
    destruct (Hw v a0 OK0 Hv ltac:(now rewrite D0)) as (a1 & bs1 & new1 & E1 & G1 & K1 & B1 & R1).
    destruct (IH HF' HN' a1) as (a2 & bs2 & new2 & E2 & G2 & K2 & R2).
    { apply G1. }
    { destruct G1 as (_ & -> & _). rewrite length_app, D0. lia. }
    assert (G0 : grown arg a0 bs0 []) by (unfold grown; rewrite app_nil_r; auto).
    exists a2, (bs0 ++ bs1 ++ bs2), ([] ++ new1 ++ new2). cbn [w_ivars]. rewrite E0. cbn [bind]. rewrite E1. cbn [bind]. splits; auto.
    + exact (grown_trans _ _ _ _ _ _ _ G0 (grown_trans _ _ _ _ _ _ _ G1 G2)).
    + constructor; auto. destruct G2 as (_ & -> & _). now apply known_app.
    + intros larg rest rf a k done Hy Ha HND HIN HCN Hf. rewrite !length_app in Hf. destruct rf as [|rf]; [lia|]. rewrite r_ivar_eq; cbn [length].
      rewrite (proj2 (Z.eqb_neq _ _)) by lia. rewrite <- !app_assoc in Hy.
      rewrite (R0 (data arg) larg (bs1 ++ bs2 ++ rest)) by now rewrite with_data_id. rewrite <- D0, with_data_id. cbn [bind].
      assert (Hy0 : synced a0 (after a0 (length bs0) (objects larg) larg) (bs1 ++ bs2 ++ rest)).
      { apply (synced_after arg a0 larg bs0); auto. rewrite D0. apply Hy. }
      rewrite (R1 _ (bs2 ++ rest) rf Hy0) by lia. cbn [bind]. rewrite after_after.
      assert (Hlt : (a < length (objects larg))%nat) by (apply nth_error_Some; congruence).
      unfold rb_ivar_set. cbn [objects after]. rewrite nth_error_app1, Ha by auto.
      assert (HB : iv_set (iv_build done) id (ren (data a1) v) = Ok (iv_build (done ++ [(id, ren (data a1) v)]))).
      { rewrite map_app in HND, HIN. cbn [map fst] in HND, HIN. rewrite length_app in HCN. cbn [length] in HCN.
        apply (iv_build_spec VNil names (proj1 (proj2 Hnames)) (done ++ [(id, ren (data a1) v)])); auto.
        - rewrite map_app. cbn [map fst]. change (id :: map fst l) with ([id] ++ map fst l) in HND. rewrite app_assoc in HND.
          now apply NoDup_app_remove_r in HND.
        - rewrite map_app. intros x Hx. apply HIN. apply in_app_iff in Hx as [Hx|[<-|[]]]; apply in_or_app; cbn; auto.
        - rewrite length_app. cbn [length]. lia. }
      rewrite HB. cbn [bind]. unfold set_object. cbn [src offset lsymbols ldata objects after].
      rewrite list_set_app_l by auto. set (objs := list_set _ _ _ ++ _).
      fold (after a1 (length bs0 + length bs1) objs larg).
      replace (Z.of_nat (S (length l)) - 1) with (Z.of_nat (length l)) by lia.
      rewrite (R2 _ rest rf a k (done ++ [(id, ren (data a1) v)])).
      * rewrite after_after, !length_app. subst objs. cbn [objects after]. rewrite list_set_app_l, list_set_twice by now rewrite list_set_length.
        cbn [app]. rewrite map_app, <- !app_assoc. cbn [map app length]. destruct G2 as (_ & -> & _).
        replace (ren_ivar (data a1 ++ new2) (id, v)) with (id, ren (data a1) v) by (unfold ren_ivar; cbn [fst snd]; now rewrite ren_app).
        rewrite (images_app (data a1) _ new1) by apply G1. do 2 f_equal. lia.
      * rewrite app_assoc in Hy. rewrite <- length_app.
        apply (synced_after arg); auto. subst objs. rewrite !length_app, list_set_length, length_map.
        destruct G1 as (_ & -> & _). rewrite length_app, D0. f_equal. apply Hy.
      * subst objs. cbn [objects after]. rewrite nth_error_app1 by now rewrite list_set_length. now apply nth_error_list_set.
      * rewrite !map_app, <- app_assoc. rewrite map_app in HND. exact HND.
      * rewrite !map_app, <- app_assoc. rewrite map_app in HIN. exact HIN.
      * rewrite !length_app in *. cbn [length] in *. lia.
      * lia.
Qed.

Lemma rb_ary_new2_ok n larg : 0 <= n -> 4 * n <= LONG_MAX -> rb_ary_new2 n larg = Ok (alloc (OArray []) larg).
Proof.
  unfold LONG_MAX. intros H0 H1. unfold rb_ary_new2. rewrite (proj2 (Z.ltb_ge n 0)) by lia. rewrite u32_small, s32_small by lia.
  destruct (Z.ltb_spec 0 n), (Z.leb_spec (n * 4) n), (Z.ltb_spec (n * 4) 0); cbn; try lia; reflexivity.
Qed.

Definition all_round_trip (fuel : nat) (limit : Z) : Prop :=
  forall v arg, dump_ok arg -> value_ok names h v -> (length h < fuel + length (data arg))%nat ->
  round_trips (w_object BUFSIZ refers fuel h limit) v arg.

Lemma round_array fuel limit a l arg : all_round_trip fuel (limit - 1) -> (length h < S fuel + length (data arg))%nat ->
  dump_ok arg -> limit <> 0 -> nth_error h a = Some (OArray l) -> ~ In a (data arg) ->
  round_trips (w_object BUFSIZ refers (S fuel) h limit) (VRef a) arg.
Proof.
  intros IH HF HD HL E HI. destruct (object_at a _ E) as (En & Ha & HC & Hok). cbn in HC, Hok.
  assert (Hl : is_long (Z.of_nat (length l))) by (unfold is_long, LONG_MIN, LONG_MAX in *; lia).
  pose proof (w_byte_app BUFSIZ TYPE_ARRAY (entered a arg)) as H1.
  destruct (w_long_app BUFSIZ _ (w_byte BUFSIZ TYPE_ARRAY (entered a arg)) Hl) as (a1 & EL & H2).
  pose proof (appended_trans _ _ _ _ _ H1 H2) as H3. set (hd := TYPE_ARRAY :: enc_long (Z.of_nat (length l))). change (appended hd (entered a arg) a1) in H3.
  pose proof (grown_appended _ _ _ (entered_ok a arg HD Ha HI) H3) as G1. pose proof H3 as (_ & Hs1 & Hd1).
  destruct (round_values _ _ l IH HC a1) as (a2 & bs & new & E2 & G2 & K & R); [apply G1|rewrite Hd1; cbn; rewrite length_app; cbn; lia|].
  pose proof (grown_trans _ _ _ _ _ _ _ G1 G2) as G. assert (D2 := proj1 (proj2 G)). cbn in D2. rewrite <- app_assoc in D2. cbn [app] in D2.
  exists a2, (hd ++ bs), (a :: new). splits.
  - rewrite w_object_new, E by auto. rewrite EL. exact E2.
  - apply grown_entered; [exact G|]. now rewrite En.
  - cbn. rewrite D2. apply in_elt.
  - cbn; lia.
  - intros larg rest rf Hy Hf. subst hd. read_type Hy. rewrite <- app_assoc in Hy'.
    destruct (reads_here r_long _ _ arg _ _ (r_long_reads _ Hl) Hy') as (-> & Hy2). cbn [bind]. rewrite after_after. rewrite rb_ary_new2_ok by lia.
    unfold alloc, r_entry. cbn [bind src offset lsymbols ldata objects after].
    set (n := (1 + _)%nat). assert (Hn : n = length (TYPE_ARRAY :: enc_long (Z.of_nat (length l)))) by reflexivity.
    assert (HN : length (objects larg) = length (data arg)) by apply Hy.
    rewrite HN, <- (entries_snoc (data arg) a). change (data arg ++ [a]) with (data (entered a arg)). rewrite <- Hd1.
    change (symbols arg) with (symbols (entered a arg)). rewrite <- Hs1. fold (after a1 n (objects larg ++ [OArray []]) larg).
    rewrite (R _ rest rf _ []).
    + cbn [bind]. rewrite after_after. cbn [ren objects after]. rewrite D2, position_new, <- HN, list_set_end by auto.
      rewrite <- app_assoc, Hn, length_app. cbn [map app]. unfold image at 2. rewrite En. reflexivity.
    + rewrite Hn. apply (synced_after arg); [now rewrite <- app_assoc in Hy|]. rewrite Hd1, !length_app. cbn. rewrite length_app. cbn. lia.
    + cbn [objects after]. rewrite <- HN, nth_error_app2, Nat.sub_diag by lia. reflexivity.
    + cbn [length app] in Hf. rewrite !length_app in Hf. lia.
Qed.

Lemma w_class_ok klass arg : hd 0 klass <> 35 -> refers klass = Ok true ->
  w_class BUFSIZ refers TYPE_OBJECT klass arg = w_symbol BUFSIZ klass (w_byte BUFSIZ TYPE_OBJECT arg).
Proof. intros H HR. unfold w_class, w_unique. now rewrite (proj2 (Z.eqb_neq _ _) H), HR. Qed.

(** The header of an object: its class and the number of variables.  The
    object is numbered before its class is written, and after it is read. *)
Lemma object_header a klass n arg :
  dump_ok arg -> (a < length h)%nat -> ~ In a (data arg) -> In klass names -> hd 0 klass <> 35 ->
  refers klass = Ok true -> is_long n ->
  exists a0 a1 bs0, w_class BUFSIZ refers TYPE_OBJECT klass (entered a arg) = Ok a0 /\ w_long BUFSIZ n a0 = Ok a1 /\
    grown (entered a arg) a1 (TYPE_OBJECT :: bs0 ++ enc_long n) [] /\
    symbols a1 = symbols a0 /\ data a1 = data arg ++ [a] /\
    forall larg rest, synced arg larg (bs0 ++ rest) ->
      r_symbol larg = Ok (klass, after (with_data (data arg) a0) (length bs0) (objects larg) larg).
Proof.
  intros HD Ha HI Hk H35 HRf Hn. pose proof (w_byte_app BUFSIZ TYPE_OBJECT (entered a arg)) as (W1 & S1 & D1).
  set (b1 := w_byte _ _ _) in *.
  assert (HB : dump_ok b1) by (eapply dump_ok_same; [exact S1|exact D1|now apply entered_ok]).
  destruct (r_symbol_spec klass b1 HB Hk) as (a0 & bs0 & E0 & _ & W0 & D0 & OK0 & R0).
  destruct (w_long_app BUFSIZ n a0 Hn) as (a1 & E1 & W2 & S2 & D2).
  assert (Da : data a1 = data arg ++ [a]) by (rewrite D2, D0, D1; reflexivity).
  exists a0, a1, bs0. rewrite w_class_ok by auto. fold b1. splits; auto.
  - unfold grown. rewrite app_nil_r, W2, W0, W1, Da, <- !app_assoc. splits; auto.
    eapply dump_ok_same; [exact S2|exact D2|exact OK0].
  - intros larg rest (H1 & H2 & H3 & H4). apply (R0 (data arg) larg rest).
    unfold synced. cbn [symbols data with_data]. rewrite S1. splits; auto.
Qed.

Lemma round_object fuel limit a klass ivars arg : all_round_trip fuel (limit - 1) -> (length h < S fuel + length (data arg))%nat ->
  dump_ok arg -> limit <> 0 -> nth_error h a = Some (OObject klass ivars) -> ~ In a (data arg) ->
  round_trips (w_object BUFSIZ refers (S fuel) h limit) (VRef a) arg.
Proof.
  intros IH HF HD HL E HI. destruct (object_at a _ E) as (En & Ha & HC & Hk & HRf & Hp & H35 & Hg & Hid & HND & Hlen). cbn [children] in HC.
  rewrite (iv_count_each VNil names (proj1 (proj2 Hnames)) ivars Hg) in Hlen.
  set (l := iv_each VNil ivars) in *. set (n := Z.of_nat (length l)) in *.
  assert (Hn : is_long n) by (unfold is_long, LONG_MIN, LONG_MAX, ENTRIES_MAX in *; lia).
  destruct (object_header a klass n arg HD Ha HI Hk H35 HRf Hn) as (a0 & a1 & bs0 & E0 & E1 & G1 & S1 & D1 & R0).
  destruct (round_ivars _ _ l IH HC Hid a1) as (a2 & bs & new & E2 & G2 & K & R); [apply G1|rewrite D1, length_app; cbn; lia|].
  pose proof (grown_trans _ _ _ _ _ _ _ G1 G2) as G.
  assert (D2 : data a2 = data arg ++ a :: new) by (destruct G2 as (_ & -> & _); rewrite D1, <- app_assoc; reflexivity).
  eexists a2, _, (a :: new). splits.
  - rewrite w_object_new, E by auto. rewrite E0. cbn [bind].
    rewrite (iv_count_each VNil names (proj1 (proj2 Hnames)) ivars Hg). fold l n. rewrite E1. exact E2.
  - apply grown_entered; [exact G|]. now rewrite En.
  - cbn. rewrite D2. apply in_elt.
  - cbn; lia.
  - intros larg rest rf Hy Hf. assert (HN : length (objects larg) = length (data arg)) by apply Hy.
    assert (Hy0 := Hy). read_type Hy. rewrite <- !app_assoc in Hy'. unfold r_unique.
    rewrite (R0 _ _ Hy'). cbn [bind]. rewrite Hp, after_after. cbn [bind]. unfold alloc, r_entry. cbn [bind src offset lsymbols ldata objects after].
    cbn [symbols data with_data]. rewrite HN, <- (entries_snoc (data arg) a), <- D1, <- S1.
    fold (after a1 (1 + length bs0) (objects larg ++ [OObject klass iv_empty]) larg).
    assert (Hy1 : synced a1 (after a1 (1 + length bs0) (objects larg ++ [OObject klass iv_empty]) larg) (enc_long n ++ bs ++ rest)).
    { apply (synced_after arg a1 larg (TYPE_OBJECT :: bs0)); [|rewrite D1, !length_app; cbn; lia].
      cbn [app] in *. now rewrite <- !app_assoc in Hy0. }
    destruct (reads_here r_long _ _ _ _ _ (r_long_reads n Hn) Hy1) as (-> & Hy2). cbn [bind].
    replace (if 0 <? n then n else 0) with n by (destruct (Z.ltb_spec 0 n); lia). cbn [objects after] in Hy2 |- *.
    rewrite (R _ rest rf (length (data arg)) klass []); [|exact Hy2| |exact HND|exact Hid|exact Hlen|].
    + cbn [bind]. rewrite !after_after. cbn [ren objects after]. rewrite D2, position_new, <- HN, list_set_end by auto.
      rewrite <- app_assoc. cbn [map app length]. rewrite !length_app. unfold image at 2. rewrite En. do 3 f_equal. lia.
    + cbn [objects after]. rewrite <- HN, nth_error_app2, Nat.sub_diag by lia. reflexivity.
    + cbn [length app] in Hf. rewrite !length_app in Hf. lia.
Qed.

Lemma round_object_all fuel limit : limit < 0 -> all_round_trip fuel limit.
Proof.
  revert limit; induction fuel as [|fuel IH]; intros limit HL v arg HD Hv HF.
  { pose proof (data_bound arg HD). lia. }
  assert (HL' : limit <> 0) by lia. specialize (IH (limit - 1) ltac:(lia)).
  destruct v as [| | |n|id|a]; cbn in Hv.
  1-3: eapply round_byte; eauto.
  - now apply round_fix.
  - now apply round_sym.
  - destruct (in_dec Nat.eq_dec a (data arg)) as [HI|HI]; [now apply round_link|].
    destruct (nth_error h a) as [[b|s|l|k iv]|] eqn:E; [..|apply nth_error_None in E; lia].
    + eapply round_bignum; eauto.
    + eapply round_string; eauto.
    + eapply round_array; eauto.
    + eapply round_object; eauto.
Qed.

(** A dump and the load of it, starting from empty tables. *)
Lemma round_trip_dump v port limit : value_ok names h v -> limit < 0 ->
  exists s D, marshal_dump BUFSIZ refers h v port limit = Ok s /\
    dump_ok (mkDump [] None [] D) /\ known D v /\ Forall (fun a => Forall (known D) (children (nth a h (OString [])))) D /\
    marshal_load_fuel plain_class exhausted (2 * S (length s)) s = Ok (ren D v, map (image D) D).
Proof.
  intros Hv HL. unfold marshal_dump. set (arg0 := mkDump [] (if port then Some [] else None) [] []).
  assert (H0 : dump_ok arg0 /\ written arg0 = []).
  { unfold dump_ok, written, arg0; cbn. splits; try constructor; [intros x []|now destruct port]. }
  pose proof (appended_trans _ _ _ _ _ (w_byte_app BUFSIZ MARSHAL_MAJOR arg0) (w_byte_app BUFSIZ MARSHAL_MINOR _)) as (W & S1 & D1).
  set (arg1 := w_byte _ _ (w_byte _ _ arg0)) in *. destruct H0 as (H0 & W0).
  assert (H1 : dump_ok arg1) by (eapply dump_ok_same; eauto).
  destruct (round_object_all (S (length h)) limit HL v arg1 H1 Hv ltac:(lia)) as (a' & bs & new & -> & (GW & GD & GO & GC) & K & B & R).
  cbn [bind]. rewrite D1 in GD. cbn in GD. rewrite <- GD in GC.
  eexists _, (data a'). splits; [reflexivity| |exact K|exact GC|].
  { destruct GO as (G1 & G2 & _). unfold dump_ok; cbn. splits; auto; [constructor|intros x []]. }
  fold (written a'). rewrite GW, W, W0. cbn [app u8]. set (s := _ :: _).
  unfold marshal_load_fuel.
  assert (Hy : synced arg1 (mkLoad s 0 [] [] []) (s ++ [])).
  { unfold synced. cbn [lsymbols ldata objects]. rewrite S1, D1. splits; auto. exists []. now rewrite app_nil_r. }
  destruct (r_byte_synced _ _ _ _ _ Hy) as (-> & Hy1); [split; reflexivity || discriminate|]. cbn [bind].
  destruct (r_byte_synced _ _ _ _ _ Hy1) as (-> & Hy2); [split; reflexivity || discriminate|]. cbn [bind].
  change (negb (_ =? MARSHAL_MAJOR) || (MARSHAL_MINOR <? _)) with false. cbv match.
  rewrite (R _ [] _ Hy2) by (unfold s; cbn [length]; lia). cbn [bind objects after app].
  now rewrite <- GD.
Qed.
End RoundTrip.
End Names.

(** What is loaded for the object [o]: the variables of a plain object may be
    in another order, since the chains of their table depend on the order in
    which they were set. *)
Definition copy_of {ids : Symbols} (names : list name) (D : list nat) (o o' : object) : Prop :=
  match o, o' with
  | OBignum b, OBignum b' => b' = b
  | OString s, OString s' => s' = s
  | OArray l, OArray l' => l' = map (ren D) l
  | OObject klass t, OObject klass' t' =>
      klass' = klass /\ iv_good names t' /\ Permutation (iv_each VNil t') (map (ren_ivar D) (iv_each VNil t))
  | _, _ => False
  end.

Lemma ren_object_copy {ids : Symbols} refers plain_class names h D o :
  names_ok names -> object_ok refers plain_class names h o -> copy_of names D o (ren_object D o).
Proof.
  intros (_ & Hint & _) (_ & Hok). destruct o as [b|s|l|k t]; cbn; auto.
  destruct Hok as (_ & _ & _ & _ & Hg & Hid & HND & Hlen). rewrite (iv_count_each VNil names Hint t Hg) in Hlen.
  assert (HM : map fst (map (ren_ivar D) (iv_each VNil t)) = map fst (iv_each VNil t)) by (rewrite map_map; reflexivity).
  destruct (iv_build_spec VNil names Hint (map (ren_ivar D) (iv_each VNil t))) as (G & HP & _); rewrite ?HM, ?length_map; auto.
Qed.

(** C10: Loading a dump gives back the dumped graph: for every heap of
    Strings, Arrays, Bignums and plain objects, cycles and sharing included,
    dumping without a depth limit succeeds, whether the bytes are collected in
    a string or written to an IO through the buffer, and loading them yields
    the same value and, for the list [D] of the objects reached, one copy of
    each with the components renumbered by their position in [D]; the
    variables of a plain object are the same with the same values, in an order
    that may differ.  The names in the graph have IDs that are given back as
    these names, the class names lead to their classes, Strings and names are
    shorter than [LONG_MAX], Arrays have at most [LONG_MAX / 4] elements and an
    object at most [ENTRIES_MAX] variables. *)
Theorem marshal_round_trip {ids : Symbols} BUFSIZ refers plain_class names h v port limit :
  names_ok names -> heap_ok refers plain_class names h -> value_ok names h v -> limit < 0 ->
  exists s D objs, marshal_dump BUFSIZ refers h v port limit = Ok s /\
    NoDup D /\ Forall (fun a => (a < length h)%nat) D /\
    known D v /\ Forall (fun a => Forall (known D) (children (nth a h (OString [])))) D /\
    marshal_load plain_class s = Ok (ren D v, objs) /\
    Forall2 (fun a o => copy_of names D (nth a h (OString [])) o) D objs.
Proof.
  intros Hn Hh Hv HL.
  destruct (round_trip_dump BUFSIZ refers plain_class RuntimeError names h Hn Hh v port limit Hv HL) as (s & D & H1 & H2 & H3 & H4 & H5).
  exists s, D, (map (image h D) D). destruct H2 as (H2 & HB & _). splits; auto.
  enough (HE : forall E, Forall (fun a => (a < length h)%nat) E -> Forall2 (fun a o => copy_of names D (nth a h (OString [])) o) E (map (image h D) E)) by auto.
  induction 1 as [|a E Ha _ IH]; constructor; auto.
  unfold image. eapply ren_object_copy; eauto. destruct Hh as (HF & _). rewrite Forall_forall in HF. now apply HF, nth_In.
Qed.

(** An array that holds itself, an object twice, a symbol and a Bignum; the
    IDs of the sample are the numbers of the names among the names. *)
Definition sample_names : list name := [[80]; [64; 97]; [64; 98]].

#[local] Instance sample_ids : Symbols := {|
  rb_intern s := match index_of name_eqb s sample_names with Some i => 8 * Z.of_nat i + 1 | None => 0 end;
  rb_id2name n := nth (Z.to_nat (n / 8)) sample_names []
|}.

Definition sample_heap : heap :=
  [OObject [80] (iv_build [([64; 97], VRef 1); ([64; 98], VSym [64; 97])]);
   OArray [VRef 1; VRef 0; VRef 0; VSym [80]; VRef 2; VFix (-70000); VNil];
   OBignum (mkBig false [1; 2; 3]);
   OString [104; 105]].

Lemma sample_names_ok : names_ok sample_names.
Proof. unfold names_ok, name_ok, interned. repeat constructor; cbn; try lia; try discriminate. Qed.

Lemma sample_ivars_good : iv_good sample_names (iv_build [([64; 97], VRef 1); ([64; 98], VSym [64; 97])]).
Proof.
  apply (iv_build_spec VNil); [apply sample_names_ok|..]; cbn; try (unfold ENTRIES_MAX; lia).
  - repeat constructor; cbn; intuition discriminate.
  - intros x [<-|[<-|[]]]; cbn; auto.
Qed.

Lemma sample_heap_ok : heap_ok (fun _ => Ok true) (fun _ => Ok true) sample_names sample_heap.
Proof.
  split; [|discriminate].
  assert (HE : iv_each VNil (iv_build [([64; 97], VRef 1); ([64; 98], VSym [64; 97])]) = [([64; 98], VSym [64; 97]); ([64; 97], VRef 1)]).
  { vm_compute. reflexivity. }
  assert (HC : iv_count (iv_build [([64; 97], VRef 1); ([64; 98], VSym [64; 97])]) = 2) by (vm_compute; reflexivity).
  unfold sample_heap. constructor.
  - unfold object_ok, children. rewrite HE, HC. cbn [map fst snd]. splits; auto; try discriminate.
    + constructor; [cbn; auto|constructor; [cbn; lia|constructor]].
    + now left.
    + apply sample_ivars_good.
    + intros x [<-|[<-|[]]]; cbn; auto.
    + repeat constructor; cbn; intuition discriminate.
  - repeat match goal with
      | |- value_ok _ _ _ => cbn; first [tauto | lia | reflexivity]
      | |- In _ _ => cbn; tauto
      | |- _ => constructor
      end; cbn; lia || discriminate || auto.
Qed.

Lemma marshal_round_trip_witness :
  exists s D objs, marshal_dump 4 (fun _ => Ok true) sample_heap (VRef 1) true (-1) = Ok s /\
    NoDup D /\ Forall (fun a => (a < length sample_heap)%nat) D /\
    known D (VRef 1) /\ Forall (fun a => Forall (known D) (children (nth a sample_heap (OString [])))) D /\
    marshal_load (fun _ => Ok true) s = Ok (ren D (VRef 1), objs) /\
    Forall2 (fun a o => copy_of sample_names D (nth a sample_heap (OString [])) o) D objs.
Proof.
  apply (marshal_round_trip 4 (fun _ => Ok true) (fun _ => Ok true) sample_names sample_heap (VRef 1) true (-1)).
  - exact sample_names_ok.
  - exact sample_heap_ok.
  - cbn. lia.
  - lia.
Defined.

(** ** Sources that are not dumps *)

Lemma r_bytes0_short n arg s : avail arg s -> Z.of_nat (length s) < n <= LONG_MAX ->
  r_bytes0 n arg =
    match s with
    | [] => Raise ArgumentError
    | _ =>
        if n =? LONG_MAX then Raise NoMemoryError
        else if n =? Z.of_nat (length s) + 1 then Ok (s ++ [0], set_offset (offset arg + n) arg) else Undefined
    end.
Proof.
  intros (pre & Hs & Ho) Hn. unfold r_bytes0, size. rewrite (proj2 (Z.eqb_neq _ _)), Hs, Ho, length_app by lia.
  destruct s as [|c s]; [now rewrite (proj2 (Z.ltb_ge _ _)) by (cbn; lia)|].
  rewrite (proj2 (Z.ltb_lt _ _)), (proj2 (Z.ltb_ge n 0)) by (cbn [length] in *; lia).
  destruct (Z.eqb_spec n LONG_MAX) as [->|HM]; [reflexivity|]. rewrite room_for by lia.
  destruct (Z.eqb_spec n (Z.of_nat (length (c :: s)) + 1)) as [->|Hne].
  - rewrite (proj2 (Z.leb_le _ _)) by lia. rewrite Nat2Z.id, <- app_assoc, skipn_app, skipn_all, Nat.sub_diag. cbn [skipn app].
    replace (Z.to_nat _) with (length ((c :: s) ++ [0])) by (rewrite length_app; cbn [length]; lia).
    change (c :: s ++ [0]) with ((c :: s) ++ [0]). now rewrite firstn_all.
  - now rewrite (proj2 (Z.leb_gt _ _)) by lia.
Qed.

(** A String whose [n] bytes are not all there, [s] being what is. *)
Definition short_string (n : Z) (s : list Z) : list Z :=
  [MARSHAL_MAJOR] ++ [MARSHAL_MINOR] ++ [TYPE_STRING] ++ enc_long n ++ s.

(** C39: The length of a String is checked only against the presence of its
    first byte: of a String that is cut off, one is rejected when no byte of it
    is left, one that lacks a single byte is loaded with the terminator of the
    source in its place, and one that lacks more is read from behind the
    block of the source; only the largest length of all raises NoMemoryError,
    since the size of its block overflows. *)
Theorem marshal_short_string {ids : Symbols} plain_class n s :
  n <= LONG_MAX -> Z.of_nat (length s) < n ->
  marshal_load plain_class (short_string n s) =
    match s with
    | [] => Raise ArgumentError
    | _ =>
        if n =? LONG_MAX then Raise NoMemoryError
        else if n =? Z.of_nat (length s) + 1 then Ok (VRef 0, [OString (s ++ [0])]) else Undefined
    end.
Proof.
  intros HL Hn. assert (Hl : is_long n) by (unfold is_long, LONG_MIN; lia).
  unfold marshal_load, marshal_load_fuel. set (fuel := (2 * _)%nat). replace fuel with (S (pred fuel)) by (unfold fuel; lia).
  set (arg := mkLoad _ _ _ _ _). assert (H0 : avail arg (short_string n s)) by now exists [].
  assert (Hb : byte MARSHAL_MAJOR /\ byte MARSHAL_MINOR /\ byte TYPE_STRING) by (unfold byte; splits; reflexivity || discriminate).
  destruct Hb as (B1 & B2 & B3).
  rewrite (r_byte_reads _ B1 _ _ H0). apply avail_adv in H0. cbn [bind].
  rewrite (r_byte_reads _ B2 _ _ H0). apply avail_adv in H0. cbn [bind].
  change (negb (_ =? MARSHAL_MAJOR) || (MARSHAL_MINOR <? _)) with false. cbv match. rewrite r_object_eq.
  rewrite (r_byte_reads _ B3 _ _ H0). apply avail_adv in H0. cbn [bind]. change (TYPE_STRING =? TYPE_STRING) with true.
  cbn [Z.eqb Pos.eqb TYPE_STRING TYPE_LINK TYPE_NIL TYPE_TRUE TYPE_FALSE TYPE_FIXNUM TYPE_BIGNUM].
  unfold r_bytes. rewrite (r_long_reads n Hl _ _ H0). apply avail_adv in H0. cbn [bind].
  rewrite (r_bytes0_short n _ s H0 (conj Hn HL)). destruct s; [reflexivity|].
  destruct (n =? LONG_MAX); [reflexivity|]. now destruct (n =? _).
Qed.

Lemma marshal_short_string_witness :
  3 <= LONG_MAX /\ Z.of_nat (length [97; 98]) < 3 /\
  marshal_load (fun _ => Ok true) (short_string 3 [97; 98]) = Ok (VRef 0, [OString [97; 98; 0]]).
Proof.
  split; [discriminate|split; [reflexivity|]].
  exact (marshal_short_string (fun _ => Ok true) 3 [97; 98] ltac:(discriminate) ltac:(reflexivity)).
Defined.

(** ** Loading terminates

    Every reader moves the offset forward, so what is left of the source
    bounds the number of nested calls. *)

Definition remaining (arg : load_arg) : nat := Z.to_nat (size arg - offset arg).

Definition moves (arg arg' : load_arg) : Prop := src arg' = src arg /\ offset arg <= offset arg'.

Lemma moves_refl arg : moves arg arg.
Proof. unfold moves; auto with zarith. Qed.

Lemma moves_trans a b c : moves a b -> moves b c -> moves a c.
Proof. unfold moves. intros (-> & ?) (-> & ?). auto with zarith. Qed.

Lemma moves_remaining a b : moves a b -> (remaining b <= remaining a)%nat.
Proof. unfold moves, remaining, size. intros (-> & ?). lia. Qed.

(** [f] returns at a later offset. *)
Definition mover {A} (f : load_arg -> outcome (A * load_arg)) : Prop :=
  forall arg x arg', f arg = Ok (x, arg') -> moves arg arg'.

Lemma mover_bind {A C} (f : load_arg -> outcome (A * load_arg)) (g : A -> load_arg -> outcome (C * load_arg)) :
  mover f -> (forall x, mover (g x)) -> mover (fun arg => '(x, arg) <- f arg ;; g x arg).
Proof.
  intros Hf Hg arg y arg' H. apply bind_Ok_inv in H as ((x & a1) & H1 & H2).
  eapply moves_trans; [eapply Hf|eapply Hg]; eauto.
Qed.

Lemma mover_ret {A} (x : A) (k : load_arg -> load_arg) : (forall arg, moves arg (k arg)) -> mover (fun arg => Ok (x, k arg)).
Proof. intros Hk arg y arg' [= <- <-]. auto. Qed.

Lemma r_byte_mover : mover r_byte.
Proof.
  intros arg c arg'. unfold r_byte. case_if; [|discriminate]. intros [= <- <-]. split; cbn; [reflexivity|lia].
Qed.

Lemma r_byte_remaining arg c arg' : r_byte arg = Ok (c, arg') -> (remaining arg' < remaining arg)%nat.
Proof.
  unfold r_byte. case_if; [|discriminate]. intros [= <- <-]. unfold remaining, size in *; cbn. lia.
Qed.

Lemma r_long_loop_mover neg n i x : mover (r_long_loop neg n i x).
Proof.
  revert i x; induction n as [|n IH]; intros i x; cbn [r_long_loop]; [apply (mover_ret x (fun a => a)), moves_refl|].
  apply (mover_bind r_byte); [apply r_byte_mover|intros c; apply IH].
Qed.

Lemma r_long_mover : mover r_long.
Proof.
  apply (mover_bind r_byte); [apply r_byte_mover|]. intros c. cbv zeta.
  repeat match goal with |- context [if ?b then _ else _] => destruct b end;
    solve [apply r_long_loop_mover | apply (mover_ret _ (fun a => a)), moves_refl | intros ? ? ? [=]].
Qed.

Lemma r_bytes0_mover n : mover (r_bytes0 n).
Proof.
  intros arg x arg'. unfold r_bytes0. repeat case_if; try discriminate; intros [= <- <-]; (split; cbn; [reflexivity|lia]).
Qed.

Lemma r_bytes_mover : mover r_bytes.
Proof. apply (mover_bind r_long); [apply r_long_mover|apply r_bytes0_mover]. Qed.

Lemma r_symlink_mover : mover r_symlink.
Proof.
  apply (mover_bind r_long); [apply r_long_mover|]. intros n arg x arg'. case_if; [|discriminate]. intros [= <- <-]. apply moves_refl.
Qed.

Lemma r_symreal_mover : mover r_symreal.
Proof. apply (mover_bind r_bytes); [apply r_bytes_mover|]. intros s. apply mover_ret. intros arg. split; cbn; [reflexivity|lia]. Qed.

Lemma r_symbol_mover : mover r_symbol.
Proof.
  apply (mover_bind r_byte); [apply r_byte_mover|]. intros c. case_if; [apply r_symlink_mover|apply r_symreal_mover].
Qed.

Lemma rb_ary_new2_mover n : mover (rb_ary_new2 n).
Proof. intros arg x arg'. unfold rb_ary_new2. repeat case_if; try discriminate; intros [= <- <-]; (split; cbn; [reflexivity|lia]). Qed.

Lemma r_bignum_mover : mover r_bignum.
Proof.
  apply (mover_bind r_byte); [apply r_byte_mover|]. intros sgn. apply (mover_bind r_long); [apply r_long_mover|]. intros n.
  apply (mover_bind (r_bytes0 _)); [apply r_bytes0_mover|]. intros bytes arg x arg'.
  case_if; [discriminate|]. destruct (bignorm _); cbn; try discriminate; intros [= <- <-]; (split; cbn; [reflexivity|lia]).
Qed.

Lemma push_moves a v arg : moves arg (rb_ary_push a v arg).
Proof. unfold rb_ary_push. destruct (nth_error _ _) as [[]|]; try apply moves_refl. split; cbn; [reflexivity|lia]. Qed.

Lemma ivar_set_moves {ids : Symbols} a id v arg arg' : rb_ivar_set a id v arg = Ok arg' -> moves arg arg'.
Proof.
  unfold rb_ivar_set. destruct (nth_error _ _) as [[| | |k t]|]; try (intros [= <-]; apply moves_refl).
  destruct (iv_set t id v); cbn; try discriminate. intros [= <-]. split; cbn; [reflexivity|lia].
Qed.

Lemma entry_moves v arg : moves arg (r_entry v arg).
Proof. split; cbn; [reflexivity|lia]. Qed.

Lemma alloc_moves o arg : moves arg (snd (alloc o arg)).
Proof. split; cbn; [reflexivity|lia]. Qed.

#[local] Hint Resolve moves_refl push_moves entry_moves r_byte_mover r_long_mover r_bytes_mover
  r_symlink_mover r_symreal_mover r_symbol_mover rb_ary_new2_mover r_bignum_mover : mover.

(** Opens an equation [m = Ok r] down to the calls it is made of. *)
Ltac inv_ok H :=
  repeat (cbv beta zeta in H; match type of H with
  | bind _ _ = Ok _ => let E := fresh "E" in apply bind_Ok_inv in H as (? & E & H)
  | (let '(_, _) := ?p in _) = Ok _ => destruct p
  | (if ?b then _ else _) = Ok _ => destruct b eqn:?
  | match ?m with VNil => _ | _ => _ end = Ok _ => destruct m
  end); try discriminate H.

Ltac chain_moves :=
  repeat match goal with
  | E : ?f ?arg = Ok (_, _) |- _ => first [apply r_byte_mover in E | apply r_long_mover in E | apply r_bytes_mover in E
      | apply r_symlink_mover in E | apply r_symreal_mover in E | apply r_symbol_mover in E | apply rb_ary_new2_mover in E
      | apply r_bignum_mover in E]
  end.

Section Termination.
Context {ids : Symbols} (plain_class : name -> outcome bool).

(** What follows the type byte. *)
Lemma r_object_S exhausted fuel arg v arg' : r_object plain_class exhausted (S fuel) arg = Ok (v, arg') ->
  (forall n a arg arg', r_elements plain_class exhausted fuel n a arg = Ok arg' -> moves arg arg') ->
  (forall n a arg arg', r_ivar plain_class exhausted fuel n a arg = Ok arg' -> moves arg arg') ->
  exists t arg1, r_byte arg = Ok (t, arg1) /\ moves arg1 arg'.
Proof.
  rewrite r_object_eq. intros H HE HI. apply bind_Ok_inv in H as ((t & arg1) & E & H). exists t, arg1. split; [exact E|]. clear E.
  unfold r_unique, alloc in H. inv_ok H; try (injection H as <- <-); chain_moves;
    repeat match goal with
    | E : r_elements _ _ _ _ _ _ = Ok _ |- _ => apply HE in E
    | E : r_ivar _ _ _ _ _ _ = Ok _ |- _ => apply HI in E
    end; unfold moves in *; cbn in *; intuition (congruence || lia).
Qed.

Lemma readers_move exhausted fuel :
  (forall arg v arg', r_object plain_class exhausted fuel arg = Ok (v, arg') -> moves arg arg' /\ (remaining arg' < remaining arg)%nat) /\
  (forall n a arg arg', r_elements plain_class exhausted fuel n a arg = Ok arg' -> moves arg arg') /\
  (forall n a arg arg', r_ivar plain_class exhausted fuel n a arg = Ok arg' -> moves arg arg').
Proof.
  induction fuel as [|fuel (IO & IE & II)]; [splits; discriminate|]. splits.
  - intros arg v arg' H. destruct (r_object_S exhausted fuel arg v arg' H IE II) as (t & arg1 & E & M).
    split; [eapply moves_trans; [eapply r_byte_mover; eauto|exact M]|].
    apply r_byte_remaining in E. apply moves_remaining in M. lia.
  - intros n a arg arg'. rewrite r_elements_eq. destruct (n =? 0); [intros [= <-]; apply moves_refl|].
    intros H. apply bind_Ok_inv in H as ((v & arg1) & E & H). apply IO in E as (M & _). apply IE in H.
    eapply moves_trans; [exact M|]. eapply moves_trans; [apply push_moves|exact H].
  - intros n a arg arg'. rewrite r_ivar_eq. destruct (n =? 0); [intros [= <-]; apply moves_refl|].
    intros H. apply bind_Ok_inv in H as ((id & arg1) & E & H). apply bind_Ok_inv in H as ((v & arg2) & E2 & H).
    apply bind_Ok_inv in H as (arg3 & E3 & H). apply r_symbol_mover in E. apply IO in E2 as (M & _).
    apply ivar_set_moves in E3. apply II in H. eauto using moves_trans.
Qed.

Lemma bind_ext {A C} (m : outcome A) (f g : A -> outcome C) : (forall a, m = Ok a -> f a = g a) -> bind m f = bind m g.
Proof. destruct m; cbn; auto. Qed.

(** With more fuel than twice what is left of the source the fuel does not run
    out: more of it changes nothing, nor does what is raised without it. *)
Lemma readers_stable e e' fuel :
  (forall arg fuel', (2 * remaining arg + 1 <= fuel)%nat -> (fuel <= fuel')%nat ->
     r_object plain_class e' fuel' arg = r_object plain_class e fuel arg) /\
  (forall n a arg fuel', (2 * remaining arg + 2 <= fuel)%nat -> (fuel <= fuel')%nat ->
     r_elements plain_class e' fuel' n a arg = r_elements plain_class e fuel n a arg) /\
  (forall n a arg fuel', (2 * remaining arg + 2 <= fuel)%nat -> (fuel <= fuel')%nat ->
     r_ivar plain_class e' fuel' n a arg = r_ivar plain_class e fuel n a arg).
Proof.
  induction fuel as [|fuel (IO & IE & II)]; [splits; intros; lia|].
  assert (HM := readers_move e fuel). destruct HM as (MO & _ & _).
  splits; intros; (destruct fuel' as [|fuel']; [lia|]).
  - rewrite !r_object_eq. apply bind_ext. intros (t & arg1) E. apply r_byte_remaining in E.
    repeat case_if; try reflexivity.
    + apply bind_ext. intros (n & arg2) Hr2. apply r_long_mover, moves_remaining in Hr2. apply bind_ext. intros (v & arg3) Hr3.
      apply rb_ary_new2_mover, moves_remaining in Hr3. rewrite IE; auto; [|lia].
      pose proof (moves_remaining _ _ (entry_moves v arg3)). lia.
    + apply bind_ext. intros (k & arg2) Hr2. apply r_symbol_mover, moves_remaining in Hr2. apply bind_ext. intros plain _. destruct plain; [|reflexivity].
      cbn [alloc]. apply bind_ext. intros (n & arg3) Hr3. apply r_long_mover, moves_remaining in Hr3.
      rewrite II; auto; [|lia]. cbn in Hr3. unfold remaining, size in *. cbn in *. lia.
  - rewrite !r_elements_eq. case_if; [reflexivity|]. rewrite IO by lia. apply bind_ext. intros (v & arg1) Hr1.
    apply MO in Hr1 as (_ & Hr1). pose proof (moves_remaining _ _ (push_moves a v arg1)). apply IE; lia.
  - rewrite !r_ivar_eq. case_if; [reflexivity|]. apply bind_ext. intros (id & arg1) Hr1. apply r_symbol_mover, moves_remaining in Hr1.
    rewrite IO by lia. apply bind_ext. intros (v & arg2) Hr2. apply MO in Hr2 as (_ & Hr2).
    apply bind_ext. intros arg3 Hr3. apply ivar_set_moves, moves_remaining in Hr3. apply II; lia.
Qed.
End Termination.


