(* ===== verification/Random.v ===== *)
(** * The pseudo random number generator

    src/ruby/random.c: the Mersenne Twister MT19937, its seeding and
    [Kernel#srand].  The static variables of the file are the fields of
    [generator]; [unsigned long] is 32 bits wide.  The conversion of an output
    to a [double] is a division by [2 ^ 32] and is left out: [genrand] is the
    word [y] that [genrand_real] scales. *)

From Stdlib Require Import ZArith Lia List Bool.
From S2P Require Import Prelude CInt Digits Bignum.
Import ListNotations.
Local Open Scope Z_scope.
Local Open Scope outcome_scope.

Definition N : nat := 624.
Definition M : nat := 397.
Definition MATRIX_A : Z := 2567483615.
Definition UMASK : Z := 2147483648.
Definition LMASK : Z := 2147483647.

Definition MIXBITS (u v : Z) : Z := Z.lor (Z.land u UMASK) (Z.land v LMASK).
Definition TWIST (u v : Z) : Z :=
  Z.lxor (Z.shiftr (MIXBITS u v) 1) (if Z.land v 1 =? 0 then 0 else MATRIX_A).

(** ** State and operations *)

Record generator := mkGen {
  state : list Z;
  left : Z;
  initf : bool;
  next : nat;
  first : bool;
  saved_seed : Z
}.

(** The static initialisers. *)
Definition generator_0 : generator := mkGen (repeat 0 N) 1 false 0 true 0.

(** [for (j=1; j<N; j++) state[j] = ...]: [prev] is [state[j-1]]. *)
Fixpoint init_loop (n : nat) (j prev : Z) : list Z :=
  match n with
  | O => []
  | S n =>
      let x := Z.land (u32 (u32 (1812433253 * Z.lxor prev (Z.shiftr prev 30)) + j)) 4294967295 in
      x :: init_loop n (j + 1) x
  end.

Definition init_state (s : Z) : list Z :=
  let s0 := Z.land s 4294967295 in s0 :: init_loop (N - 1) 1 s0.

Definition init_genrand (s : Z) (g : generator) : generator :=
  mkGen (init_state s) 1 true (next g) (first g) (saved_seed g).

(** [*p = p[m] ^ TWIST(p[0], p[k])] with the indices taken from [state]. *)
Definition twist_at (j m k : nat) (st : list Z) : list Z :=
  list_set st j (Z.lxor (nth m st 0) (TWIST (nth j st 0) (nth k st 0))).

(** The two loops and the last assignment. *)
Definition twist_all (st : list Z) : list Z :=
  let st := fold_left (fun st j => twist_at j (j + M) (j + 1) st) (seq 0 (N - M)) st in
  let st := fold_left (fun st j => twist_at j (j + M - N) (j + 1) st) (seq (N - M) (M - 1)) st in
  twist_at (N - 1) (M - 1) 0 st.

Definition next_state (g : generator) : generator :=
  let g := if initf g then g else init_genrand 5489 g in
  mkGen (twist_all (state g)) (Z.of_nat N) (initf g) 0 (first g) (saved_seed g).

Definition temper (y : Z) : Z :=
  let y := Z.lxor y (Z.shiftr y 11) in
  let y := Z.lxor y (Z.land (u32 (Z.shiftl y 7)) 2636928640) in
  let y := Z.lxor y (Z.land (u32 (Z.shiftl y 15)) 4022730752) in
  Z.lxor y (Z.shiftr y 18).

Definition set_left (l : Z) (g : generator) : generator :=
  mkGen (state g) l (initf g) (next g) (first g) (saved_seed g).
Definition set_next (n : nat) (g : generator) : generator :=
  mkGen (state g) (left g) (initf g) n (first g) (saved_seed g).

(** [genrand_real]: the word before the division by [2 ^ 32]. *)
Definition genrand (g : generator) : Z * generator :=
  let g := set_left (left g - 1) g in
  let g := if left g =? 0 then next_state g else g in
  let y := nth (next g) (state g) 0 in
  (temper y, set_next (next g + 1) g).

Definition rand_init (seed : Z) (g : generator) : Z * generator :=
  let g' := init_genrand seed g in
  (saved_seed g, mkGen (state g') (left g') (initf g') (next g') false seed).

(** numeric.c [rb_num2ulong] on integers. *)
Definition NUM2ULONG (v : VALUE) : outcome Z :=
  match v with
  | Fix n => Ok (u32 n)
  | Big b => rb_big2ulong b
  | Obj _ => Delegate
  end.

(** [random_seed]: what the clock and the process id give. *)
Definition rb_f_srand (random_seed : Z) (arg : option VALUE) (g : generator) : outcome (VALUE * generator) :=
  seed <- (match arg with None => Ok random_seed | Some sd => NUM2ULONG sd end) ;;
  let '(old, g) := rand_init seed g in
  Ok (rb_uint2inum old, g).

(** The next [n] words. *)
Fixpoint outputs (n : nat) (g : generator) : list Z :=
  match n with
  | O => []
  | S n => let '(y, g) := genrand g in y :: outputs n g
  end.

(** ** The recurrence

    The reference: a window of 624 words of the sequence
    [x(k+624) = x(k+397) ^ twist(x(k), x(k+1))]. *)

Definition mt_next (w : list Z) : list Z :=
  tl w ++ [Z.lxor (nth M w 0) (TWIST (nth 0 w 0) (nth 1 w 0))].

Fixpoint mt_outputs (n : nat) (w : list Z) : list Z :=
  match n with
  | O => []
  | S n => temper (hd 0 w) :: mt_outputs n (mt_next w)
  end.

(** ** Block update *)

Definition rot (j : nat) (st : list Z) : list Z := skipn j st ++ firstn j st.

Lemma rot_nth j st i :
  (j <= length st)%nat -> (i < length st)%nat ->
  nth i (rot j st) 0 = nth (if (i <? length st - j)%nat then j + i else j + i - length st) st 0.
Proof.
  intros Hj Hi. unfold rot. destruct (i <? length st - j)%nat eqn:E; breflect.
  - rewrite app_nth1 by (rewrite length_skipn; lia). apply nth_skipn_add.
  - rewrite app_nth2 by (rewrite length_skipn; lia). rewrite length_skipn, nth_firstn_lt by lia.
    f_equal. lia.
Qed.

Lemma tl_rot j st x :
  (j < length st)%nat -> tl (rot j st) ++ [x] = rot (S j) (list_set st j x).
Proof.
  intros Hj. unfold rot. rewrite list_set_app by auto.
  assert (HL : length (firstn j st) = j) by (rewrite length_firstn; lia).
  rewrite skipn_app, firstn_app, HL. replace (S j - j)%nat with 1%nat by lia.
  rewrite (skipn_all2 (firstn j st)), (firstn_all2 (firstn j st)) by (rewrite HL; lia). cbn [app skipn firstn].
  rewrite app_assoc. f_equal.
  assert (Hsk : skipn j st = nth j st 0 :: skipn (S j) st).
  { clear -Hj. revert st Hj. induction j as [|j IH]; intros [|h st] H; cbn in *; try lia; auto. apply IH; lia. }
  now rewrite Hsk.
Qed.

(** One assignment of [next_state] is one step of the recurrence. *)
Lemma twist_at_next j st :
  length st = N -> (j < N)%nat ->
  mt_next (rot j st) =
    rot (S j) (twist_at j (if (j <? N - M)%nat then j + M else j + M - N) (if (j <? N - 1)%nat then j + 1 else 0) st).
Proof.
  intros HL Hj. unfold mt_next, twist_at. unfold N, M in *.
  rewrite tl_rot by lia. f_equal. f_equal. rewrite !rot_nth by lia. rewrite HL. f_equal; [|f_equal].
  - f_equal. destruct (j <? 624 - 397)%nat eqn:E; breflect;
      destruct (397 <? 624 - j)%nat eqn:E'; breflect; lia.
  - f_equal. destruct (0 <? 624 - j)%nat eqn:E'; breflect; lia.
  - f_equal. destruct (j <? 624 - 1)%nat eqn:E; breflect;
      destruct (1 <? 624 - j)%nat eqn:E'; breflect; lia.
Qed.

Lemma twist_at_length j m k st : length (twist_at j m k st) = length st.
Proof. apply list_set_length. Qed.

Lemma rot_full st : rot (length st) st = st.
Proof. unfold rot. now rewrite skipn_all, firstn_all. Qed.

Lemma rot_0 st : rot 0 st = st.
Proof. unfold rot. cbn. apply app_nil_r. Qed.

(** A loop of [next_state] from index [a]. *)
Lemma twist_loop n a st (m : nat -> nat) :
  length st = N -> (a + n < N)%nat ->
  (forall j, (a <= j < a + n)%nat -> m j = if (j <? N - M)%nat then (j + M)%nat else (j + M - N)%nat) ->
  let st' := fold_left (fun st j => twist_at j (m j) (j + 1) st) (seq a n) st in
  length st' = N /\ rot (a + n) st' = Nat.iter n mt_next (rot a st).
Proof.
  revert a st; induction n as [|n IH]; intros a st HL Ha Hm; cbn [seq fold_left].
  - cbn. now rewrite Nat.add_0_r.
  - destruct (IH (S a) (twist_at a (m a) (a + 1) st)) as [HL' HR].
    + now rewrite twist_at_length.
    + lia.
    + intros j Hj. apply Hm. lia.
    + split; [exact HL'|]. replace (a + S n)%nat with (S a + n)%nat by lia. rewrite HR, Nat.iter_succ_r.
      f_equal. rewrite twist_at_next by lia. rewrite <- Hm by lia.
      replace (a <? N - 1)%nat with true; [reflexivity|]. symmetry. apply Nat.ltb_lt. unfold N in *. lia.
Qed.

Lemma twist_all_spec st :
  length st = N -> length (twist_all st) = N /\ twist_all st = Nat.iter N mt_next st.
Proof.
  intros HL. unfold twist_all.
  destruct (twist_loop (N - M) 0 st (fun j => j + M)%nat HL) as [HL1 HR1].
  { unfold N, M. lia. }
  { intros j Hj. replace (j <? N - M)%nat with true; auto. symmetry. apply Nat.ltb_lt. lia. }
  set (st1 := fold_left _ (seq 0 (N - M)) st) in *.
  destruct (twist_loop (M - 1) (N - M) st1 (fun j => j + M - N)%nat HL1) as [HL2 HR2].
  { unfold N, M. lia. }
  { intros j Hj. replace (j <? N - M)%nat with false; auto. symmetry. apply Nat.ltb_ge. lia. }
  set (st2 := fold_left _ (seq (N - M) (M - 1)) st1) in *.
  rewrite twist_at_length. split; [exact HL2|].
  pose proof (twist_at_next (N - 1) st2 HL2 ltac:(unfold N; lia)) as HT.
  replace (N - 1 <? N - M)%nat with false in HT by reflexivity.
  replace (N - 1 <? N - 1)%nat with false in HT by reflexivity.
  replace (N - 1 + M - N)%nat with (M - 1)%nat in HT by reflexivity.
  replace (S (N - 1)) with N in HT by reflexivity.
  set (st3 := twist_at (N - 1) (M - 1) 0 st2) in *.
  assert (HL3 : length st3 = N) by (unfold st3; now rewrite twist_at_length).
  rewrite <- HL3 in HT at 2. rewrite rot_full in HT. rewrite <- HT.
  replace (N - M + (M - 1))%nat with (N - 1)%nat in HR2 by reflexivity.
  rewrite HR2. replace (0 + (N - M))%nat with (N - M)%nat in HR1 by lia. rewrite HR1, rot_0.
  rewrite <- Nat.iter_add, <- Nat.iter_succ.
  assert (HN : S (M - 1 + (N - M)) = N) by reflexivity. now rewrite HN.
Qed.

(** ** Refinement *)

(** The generator is at the window [w] of the sequence: [w] starts with the
    word the next call returns, tempered. *)
Definition at_window (g : generator) (w : list Z) : Prop :=
  initf g = true /\ length (state g) = N /\
  exists k, (1 <= k <= N)%nat /\ left g = Z.of_nat (N + 1 - k) /\
    (next g = k \/ k = N) /\ w = Nat.iter k mt_next (state g).

Lemma iter_next_rot k st :
  length st = N -> (k <= N)%nat ->
  exists st', length st' = N /\ Nat.iter k mt_next st = rot k st' /\ skipn k st' = skipn k st.
Proof.
  intros HL; induction k as [|k IH]; intros Hk.
  - exists st. cbn [Nat.iter]. now rewrite rot_0.
  - destruct IH as (st' & HL' & HE & HS); [lia|]. rewrite Nat.iter_succ, HE, twist_at_next by (auto; lia).
    eexists. split; [|split; [reflexivity|]]; [now rewrite twist_at_length|].
    unfold twist_at. rewrite list_set_app by lia. rewrite skipn_app, length_firstn.
    replace (S k - Nat.min k (length st'))%nat with 1%nat by lia.
    rewrite (skipn_all2 (firstn k st')) by (rewrite length_firstn; lia). cbn [app].
    change (S k) with (1 + k)%nat. rewrite <- !(skipn_skipn 1 k). now rewrite HS.
Qed.

Lemma window_head k st : length st = N -> (k < N)%nat -> hd 0 (Nat.iter k mt_next st) = nth k st 0.
Proof.
  intros HL Hk. destruct (iter_next_rot k st HL ltac:(lia)) as (st' & HL' & -> & HS).
  unfold rot. rewrite HS. pose proof (nth_skipn_add st k 0 0) as HN. rewrite Nat.add_0_r in HN. rewrite <- HN.
  destruct (skipn k st) as [|x l] eqn:E; [|reflexivity].
  assert (length (skipn k st) = 0%nat) by now rewrite E. rewrite length_skipn in *. lia.
Qed.

Lemma at_window_init seed g : at_window (init_genrand seed g) (Nat.iter N mt_next (init_state seed)).
Proof.
  assert (HL : length (init_state seed) = N).
  { unfold init_state. cbn [length]. assert (HI : forall n j p, length (init_loop n j p) = n).
    { induction n as [|n IH]; intros; cbn [init_loop length]; auto. }
    now rewrite HI. }
  split; [reflexivity|]. split; [exact HL|]. exists N. unfold init_genrand; cbn [left state next].
  splits; auto. unfold N. lia.
Qed.

#[local] Opaque twist_all mt_next.

(** One call of the generator is one step of the recurrence. *)
Lemma genrand_step g w :
  at_window g w ->
  let '(y, g') := genrand g in y = temper (hd 0 w) /\ at_window g' (mt_next w).
Proof.
  intros (Hi & HL & k & Hk & Hl & Hn & ->). unfold genrand. unfold set_left; cbn [left].
  destruct (Nat.eq_dec k N) as [->|Hne].
  - replace (left g - 1 =? 0) with true by (symmetry; apply Z.eqb_eq; lia).
    unfold next_state; cbn [initf]. rewrite Hi. cbn [state next first saved_seed left initf].
    destruct (twist_all_spec (state g) HL) as [HL' HE].
    assert (HNth : nth 0 (twist_all (state g)) 0 = hd 0 (twist_all (state g))) by now destruct (twist_all (state g)).
    rewrite HNth, <- HE. split; [reflexivity|].
    unfold at_window, set_next; cbn [initf state left next]. split; [reflexivity|]. split; [exact HL'|].
    exists 1%nat. splits.
    + lia.
    + unfold N; lia.
    + now rewrite Nat.add_sub.
    + now left.
    + generalize (twist_all (state g)). now intros.
  - replace (left g - 1 =? 0) with false by (symmetry; apply Z.eqb_neq; lia). cbn [next state].
    destruct Hn as [Hn|Hn]; [|contradiction]. rewrite Hn, (window_head k) by (auto; lia). split; [reflexivity|].
    unfold at_window, set_next; cbn [initf state left next]. splits; auto.
    exists (S k). splits; [lia|lia|lia|left; lia|reflexivity].
Qed.

Lemma outputs_window n g w : at_window g w -> outputs n g = mt_outputs n w.
Proof.
  revert g w; induction n as [|n IH]; intros g w H; cbn [outputs mt_outputs]; auto.
  pose proof (genrand_step g w H) as HS. destruct (genrand g) as [y g']. destruct HS as [-> HW].
  f_equal. now apply IH.
Qed.

#[local] Transparent twist_all mt_next.

(** ** Tempering *)

(** A function that distributes over exclusive or. *)
Class XorLinear (f : Z -> Z) : Prop := xor_linear : forall a b, f (Z.lxor a b) = Z.lxor (f a) (f b).

#[export] Instance XorLinear_id : XorLinear (fun y => y).
Proof. now intros a b. Qed.

#[export] Instance XorLinear_shiftr f k : XorLinear f -> XorLinear (fun y => Z.shiftr (f y) k).
Proof. intros H a b. now rewrite H, Z.shiftr_lxor. Qed.

Lemma land_lxor_distr_l a b m : Z.land (Z.lxor a b) m = Z.lxor (Z.land a m) (Z.land b m).
Proof.
  apply Z.bits_inj'; intros n Hn. rewrite Z.lxor_spec, !Z.land_spec, Z.lxor_spec.
  now destruct (Z.testbit a n), (Z.testbit b n), (Z.testbit m n).
Qed.

#[export] Instance XorLinear_land f m : XorLinear f -> XorLinear (fun y => Z.land (f y) m).
Proof. intros H a b. now rewrite H, land_lxor_distr_l. Qed.

Lemma u32_ones z : u32 z = Z.land z (Z.ones 32).
Proof. unfold u32. now rewrite Z.land_ones by lia. Qed.

#[export] Instance XorLinear_u32_shiftl f k : XorLinear f -> XorLinear (fun y => u32 (Z.shiftl (f y) k)).
Proof. intros H a b. now rewrite H, !u32_ones, Z.shiftl_lxor, land_lxor_distr_l. Qed.

#[export] Instance XorLinear_lxor f g : XorLinear f -> XorLinear g -> XorLinear (fun y => Z.lxor (f y) (g y)).
Proof.
  intros Hf Hg a b. rewrite Hf, Hg. apply Z.bits_inj'; intros n Hn. rewrite !Z.lxor_spec.
  now destruct (Z.testbit (f a) n), (Z.testbit (f b) n), (Z.testbit (g a) n), (Z.testbit (g b) n).
Qed.

#[export] Instance XorLinear_comp f g : XorLinear f -> XorLinear g -> XorLinear (fun y => g (f y)).
Proof. intros Hf Hg a b. now rewrite Hf, Hg. Qed.

(** A word is the exclusive or of its bits. *)
Lemma linear_ext f g n :
  XorLinear f -> XorLinear g -> (forall i, (i < n)%nat -> f (2 ^ Z.of_nat i) = g (2 ^ Z.of_nat i)) ->
  forall y, 0 <= y < 2 ^ Z.of_nat n -> f y = g y.
Proof.
  intros Hf Hg H. assert (H0 : forall h, XorLinear h -> h 0 = 0).
  { intros h Hh. pose proof (Hh 0 0) as HX. rewrite !Z.lxor_nilpotent in HX. exact HX. }
  induction n as [|n IH]; intros y Hy.
  - replace y with 0 by (cbn in Hy; lia). now rewrite !H0.
  - set (p := 2 ^ Z.of_nat n). assert (Hp : 0 < p) by (apply Z.pow_pos_nonneg; lia).
    rewrite Nat2Z.inj_succ, Z.pow_succ_r in Hy by lia. fold p in Hy.
    assert (HI : forall z, 0 <= z < p -> f z = g z) by (apply IH; intros i Hi; apply H; lia).
    destruct (Z.lt_ge_cases y p) as [Hlt|Hge]; [apply HI; lia|].
    assert (HX : y = Z.lxor (y - p) p).
    { rewrite <- Z.add_nocarry_lxor; [lia|].
      assert (Hz : y - p = (y - p) mod 2 ^ Z.of_nat n) by (symmetry; apply Z.mod_small; fold p; lia).
      rewrite Hz. unfold p at 2. rewrite land_pow2 by lia. now rewrite Z.mod_pow2_bits_high by lia. }
    rewrite HX, (Hf (y - p) p), (Hg (y - p) p). f_equal; [apply HI; lia|]. unfold p. apply H. lia.
Qed.

(** The inverse of [temper]: each line undoes one of its lines. *)
Definition untemper (y : Z) : Z :=
  let y := Z.lxor y (Z.shiftr y 18) in
  let y := Z.lxor y (Z.land (u32 (Z.shiftl y 15)) 4022730752) in
  let step t := Z.lxor y (Z.land (u32 (Z.shiftl t 7)) 2636928640) in
  let y := step (step (step (step y))) in
  let step t := Z.lxor y (Z.shiftr t 11) in
  step (step y).

#[export] Instance temper_linear : XorLinear temper.
Proof. unfold temper. typeclasses eauto. Qed.

Lemma untemper_linear : XorLinear untemper.
Proof.
  unfold untemper. repeat (apply XorLinear_lxor || apply XorLinear_shiftr || apply XorLinear_land
    || apply XorLinear_u32_shiftl || apply XorLinear_id).
Qed.

Lemma untemper_temper y : 0 <= y < 4294967296 -> untemper (temper y) = y.
Proof.
  intros Hy. apply (linear_ext (fun y => untemper (temper y)) (fun y => y) 32).
  - intros a b. now rewrite temper_linear, untemper_linear.
  - apply XorLinear_id.
  - intros i Hi. do 32 (destruct i as [|i]; [vm_compute; reflexivity|]). lia.
  - exact Hy.
Qed.

(** ** Properties *)

(** C31: [genrand] with its lazily refreshed block of 624 words produces the
    sequence of the Mersenne Twister recurrence
    [x(k + 624) = x(k + 397) ^ twist(x(k), x(k + 1))], tempered, from the words
    the seeding put in the state, for any number of outputs. *)
Theorem genrand_recurrence seed g n :
  outputs n (init_genrand seed g) = mt_outputs n (Nat.iter N mt_next (init_state seed)).
Proof. apply outputs_window, at_window_init. Qed.

(** The tempering loses nothing: [untemper] recovers the word of the state
    from every output, so different words give different outputs. *)
Theorem temper_invertible y : 0 <= y < 4294967296 -> untemper (temper y) = y.
Proof. apply untemper_temper. Qed.

Lemma temper_invertible_witness : untemper (temper 3735928559) = 3735928559.
Proof. apply temper_invertible. lia. Defined.

(** [Kernel#srand] returns the seed of the previous call (0 before the
    first), and from then on the outputs depend on the new seed alone: seeding
    twice with the same value gives the same sequence, whatever the generator
    did before. *)
Theorem srand_restarts r1 r2 v s g1 g2 n :
  NUM2ULONG v = Ok s ->
  exists g1' g2',
    rb_f_srand r1 (Some v) g1 = Ok (rb_uint2inum (saved_seed g1), g1') /\
    rb_f_srand r2 (Some v) g2 = Ok (rb_uint2inum (saved_seed g2), g2') /\
    saved_seed g1' = s /\ outputs n g1' = outputs n g2'.
Proof.
  intros E. unfold rb_f_srand. rewrite E. cbn [bind rand_init].
  do 2 eexists. splits; [reflexivity..|].
  transitivity (mt_outputs n (Nat.iter N mt_next (init_state s))); [|symmetry]; apply outputs_window.
  - exact (at_window_init s g1).
  - exact (at_window_init s g2).
Qed.

Lemma srand_restarts_witness :
  exists g1' g2',
    rb_f_srand 0 (Some (Fix (-1))) generator_0 = Ok (rb_uint2inum 0, g1') /\
    rb_f_srand 0 (Some (Fix (-1))) g1' = Ok (rb_uint2inum (saved_seed g1'), g2') /\
    outputs 3 g1' = outputs 3 g2'.
Proof.
  destruct (srand_restarts 0 0 (Fix (-1)) 4294967295 generator_0 (snd (rand_init 4294967295 generator_0)) 3 eq_refl)
    as (g1' & g2' & E1 & E2 & _ & E). exists g1', g2'.
  assert (H : g1' = snd (rand_init 4294967295 generator_0))
    by (unfold rb_f_srand in E1; cbn [NUM2ULONG bind] in E1; injection E1 as <-; reflexivity).
  rewrite <- H in E2. auto.
Defined.
