(* ===== verification/VmsCmdLine.v ===== *)
(** * Command line processing on OpenVMS

    src/ruby/vms.c: the argument vector is flattened into one string
    ([getCommandLine]), split again with quoting and wild cards
    ([VMSMakeCmdVector]), and the wild cards are expanded in a doubly linked
    list of elements ([VMSCmdGlob]).  The file name matcher [rb_globi] of
    src/ruby/dir.c reads directories and is a parameter.  Strings are lists of
    bytes without NUL. *)

From Stdlib Require Import ZArith Lia List Bool.
From S2P Require Import Prelude CInt BigStr.
Import ListNotations.
Local Open Scope Z_scope.
Local Open Scope outcome_scope.

Definition SPACE : Z := 32.
Definition TAB : Z := 9.
Definition DQUOTE : Z := 34.
Definition SQUOTE : Z := 39.
Definition BACKSLASH : Z := 92.
Definition SLASH : Z := 47.
Definition STAR : Z := 42.
Definition QMARK : Z := 63.

(** ** Flattening *)

Definition has_space (s : cstring) : bool := existsb (Z.eqb SPACE) s.

(** [sprintf(buf, format, buf, arg)], where the format has two [%s] and, if the
    flag is set, quotes around the second: what [buf] holds afterwards.  Source
    and destination overlap, which the C standard leaves undefined, so it is for
    the library to say. *)
Class CLibrary := { sprintf_onto : bool -> cstring -> cstring -> cstring }.

(** A library that writes each character when it has read it (or that copies
    its arguments first) leaves the first string, with the rest behind it. *)
Definition appended (quote : bool) (buf arg : cstring) : cstring :=
  if quote then buf ++ [SPACE; DQUOTE] ++ arg ++ [DQUOTE] else buf ++ [SPACE] ++ arg.

Definition writes_in_order (libc : CLibrary) : Prop :=
  forall quote buf arg, sprintf_onto quote buf arg = appended quote buf arg.

Section Flatten.
Context {libc : CLibrary}.

(** The loop over the arguments behind the first one: [quote] is never reset.
    The block has [strlen(buf) + strlen(arg) + adjsize] bytes. *)
Fixpoint gcl_loop (buf : cstring) (quote : bool) (args : list cstring) : outcome cstring :=
  match args with
  | [] => Ok buf
  | arg :: args =>
      let spaced := has_space arg in
      let adjsize := if spaced then 4%nat else 2%nat in
      let quote := spaced || quote in
      let size := (length buf + length arg + adjsize)%nat in
      let out := sprintf_onto quote buf arg in
      if (size <? length out + 1)%nat then Undefined else gcl_loop out quote args
  end.

(** [None] is the null pointer. *)
Definition getCommandLine (argv : list cstring) : outcome (option cstring) :=
  match argv with
  | [] => Ok None
  | prog :: args => buf <- gcl_loop prog false args ;; Ok (Some buf)
  end.
End Flatten.

(** ** Splitting *)

Definition rstrip (s : cstring) : cstring := rev (skip_while ISSPACE (rev s)).

Record element := mkElement { el_str : cstring; el_glob : bool }.

(** The inner loop: the characters of the element, the rest of the line, and
    whether a string is open and a wild card was seen. *)
Fixpoint scan (s : cstring) (instring : bool) (quote : Z) (globbing : bool) : cstring * cstring * bool * bool :=
  match s with
  | [] => ([], [], instring, globbing)
  | c :: r =>
      if c =? BACKSLASH then
        match r with
        | d :: r' =>
            if d =? DQUOTE
            then let '(e, rest, i, g) := scan r' instring quote globbing in (c :: d :: e, rest, i, g)
            else let '(e, rest, i, g) := scan r instring quote globbing in (c :: e, rest, i, g)
        | [] => ([c], [], instring, globbing)
        end
      else if ((c =? SPACE) || (c =? TAB)) && negb instring then
        match r with
        | [] => ([c], [], instring, globbing)
        | _ => ([], s, instring, globbing)
        end
      else if (c =? STAR) || (c =? QMARK) then
        let '(e, rest, i, g) := scan r instring quote (globbing || negb (instring && (quote =? SQUOTE))) in
        (c :: e, rest, i, g)
      else if (c =? SQUOTE) || (c =? DQUOTE) then
        let '(e, rest, i, g) :=
          if instring then
            if quote =? c then scan r false 0 globbing else scan r instring quote globbing
          else scan r true c globbing in
        (c :: e, rest, i, g)
      else let '(e, rest, i, g) := scan r instring quote globbing in (c :: e, rest, i, g)
  end.

(** [if ((p[0] == '\\' || p[0] == '\"') && p[1] == '\"') { strcpy(p, p + 1); }]
    from the left. *)
Fixpoint unescape (s : cstring) : cstring :=
  match s with
  | c :: s' =>
      match s' with
      | d :: r => if ((c =? BACKSLASH) || (c =? DQUOTE)) && (d =? DQUOTE) then d :: unescape r else c :: unescape s'
      | [] => [c]
      end
  | [] => []
  end.

Definition enclosed (q : Z) (e : cstring) : bool := (hd 0 e =? q) && (last e 0 =? q).

Definition strip_quotes (e : cstring) (instring : bool) : cstring :=
  if negb instring && enclosed DQUOTE e then unescape (removelast (tl e))
  else if negb instring && enclosed SQUOTE e then removelast (tl e)
  else e.

(** The outer loop; every round consumes a character. *)
Fixpoint split_line (fuel : nat) (s : cstring) (InputCmd : bool) : outcome (list element) :=
  match s with
  | [] => Ok []
  | _ =>
      match fuel with
      | O => Undefined
      | S fuel =>
          let '(e, rest, instring, globbing) := scan (skip_while ISSPACE s) false 0 false in
          els <- split_line fuel rest InputCmd ;;
          Ok (mkElement (if InputCmd then strip_quotes e instring else e) globbing :: els)
      end
  end.

(** ** The element list

    Nodes are numbered in the order of their allocation; links are node
    numbers, [None] is the null pointer. *)

Record node := mkNode { n_next : option nat; n_prev : option nat; n_str : cstring; n_flag : bool }.

Definition heap := list node.
Definition node_0 : node := mkNode None None [] false.
Definition get (h : heap) (i : nat) : node := nth i h node_0.
Definition set_next (i : nat) (v : option nat) (h : heap) : heap :=
  let n := get h i in list_set h i (mkNode v (n_prev n) (n_str n) (n_flag n)).
Definition set_prev (i : nat) (v : option nat) (h : heap) : heap :=
  let n := get h i in list_set h i (mkNode (n_next n) v (n_str n) (n_flag n)).

(** [if (tail) { tail->next = curr; curr->prev = tail; tail = curr; } else
    { head = tail = curr; }]: the same in [insert] and [VMSMakeCmdVector]. *)
Definition append (str : cstring) (flag : bool) (st : heap * option nat * option nat) :
    heap * option nat * option nat :=
  let '(h, hd, tl) := st in
  let i := length h in
  match tl with
  | Some t => (set_next t (Some i) h ++ [mkNode None (Some t) str flag], hd, Some i)
  | None => (h ++ [mkNode None None str flag], Some i, Some i)
  end.

Definition build_list (els : list element) : heap * option nat * option nat :=
  fold_left (fun st e => append (el_str e) (el_glob e) st) els ([], None, None).

Section Glob.
(** The names that match a pattern, in the order of the callbacks. *)
Context (rb_globi : cstring -> list cstring).

Definition slashes (s : cstring) : cstring := map (fun c => if c =? BACKSLASH then SLASH else c) s.

Definition link_next (p v : option nat) (h : heap) : heap :=
  match p with Some i => set_next i v h | None => h end.
Definition link_prev (p v : option nat) (h : heap) : heap :=
  match p with Some i => set_prev i v h | None => h end.

(** [VMSCmdGlob]: the head of the element list is not updated. *)
Definition VMSCmdGlob (patt : nat) (h : heap) : heap :=
  let '(h, head, tail) :=
    fold_left (fun st path => append path false st) (rb_globi (slashes (n_str (get h patt)))) (h, None, None) in
  match head, tail with
  | Some hd, Some tl =>
      let h := set_prev hd (n_prev (get h patt)) h in
      let h := set_next tl (n_next (get h patt)) h in
      let h := link_next (n_prev (get h hd)) (Some hd) h in
      link_prev (n_next (get h tl)) (Some tl) h
  | _, _ => h
  end.

(** [for (curr = VMSCmdHead; curr; curr = curr->next)]; [fuel] bounds the
    length of the list. *)
Fixpoint glob_all (fuel : nat) (curr : option nat) (h : heap) : outcome heap :=
  match curr with
  | None => Ok h
  | Some i =>
      match fuel with
      | O => Undefined
      | S fuel =>
          let h := if n_flag (get h i) then VMSCmdGlob i h else h in
          glob_all fuel (n_next (get h i)) h
      end
  end.

Fixpoint collect (fuel : nat) (curr : option nat) (h : heap) : outcome (list cstring) :=
  match curr with
  | None => Ok []
  | Some i =>
      match fuel with
      | O => Undefined
      | S fuel => l <- collect fuel (n_next (get h i)) h ;; Ok (n_str (get h i) :: l)
      end
  end.

(** The vector; its length is the result of the C function. *)
Definition VMSMakeCmdVector (cmdline : cstring) (InputCmd : bool) : outcome (list cstring) :=
  match cmdline with
  | [] => Ok []
  | _ =>
      let line := rstrip cmdline in
      els <- split_line (length line) line InputCmd ;;
      let '(h, head, _) := build_list els in
      h <- (if InputCmd then glob_all (length h) head h else Ok h) ;;
      collect (length h) head h
  end.

(** The new [argv]; [strlen] of a null pointer is undefined. *)
Definition VMSInitialize {libc : CLibrary} (argv : list cstring) : outcome (list cstring) :=
  line <- getCommandLine argv ;;
  match line with
  | None => Undefined
  | Some line => VMSMakeCmdVector line true
  end.
End Glob.

(** ** Flattening: memory safety *)

(** No argument without a space behind one with a space. *)
Fixpoint gcl_safe (quote : bool) (args : list cstring) : bool :=
  match args with
  | [] => true
  | a :: args => (has_space a || negb quote) && gcl_safe (has_space a || quote) args
  end.

Definition gcl_format (a : cstring) : cstring :=
  if has_space a then [SPACE; DQUOTE] ++ a ++ [DQUOTE] else [SPACE] ++ a.

Lemma gcl_loop_spec {libc : CLibrary} buf quote args : writes_in_order libc ->
  gcl_loop buf quote args =
    if gcl_safe quote args then Ok (buf ++ concat (map gcl_format args)) else Undefined.
Proof.
  intros Hc. revert buf quote; induction args as [|a args IH]; intros buf quote; cbn [gcl_loop gcl_safe map concat].
  - now rewrite app_nil_r.
  - rewrite Hc. unfold appended, gcl_format at 1. destruct (has_space a) eqn:Es; cbn [orb andb negb].
    + replace (length buf + length a + 4 <? length (buf ++ [SPACE; DQUOTE] ++ a ++ [DQUOTE]) + 1)%nat with false.
      2:{ symmetry. apply Nat.ltb_ge. rewrite !length_app. cbn. lia. }
      rewrite IH. destruct (gcl_safe true args); auto. now rewrite <- !app_assoc.
    + destruct quote; cbn [negb andb].
      * replace (length buf + length a + 2 <? length (buf ++ [SPACE; DQUOTE] ++ a ++ [DQUOTE]) + 1)%nat with true; auto.
        symmetry. apply Nat.ltb_lt. rewrite !length_app. cbn. lia.
      * replace (length buf + length a + 2 <? length (buf ++ [SPACE] ++ a) + 1)%nat with false.
        2:{ symmetry. apply Nat.ltb_ge. rewrite !length_app. cbn. lia. }
        rewrite IH. destruct (gcl_safe false args); auto. now rewrite <- !app_assoc.
Qed.

(** ** Splitting a flattened line *)

(** A character that means nothing to the splitter outside quotes, other than
    white space, and inside double quotes. *)
Definition plain (c : Z) : bool :=
  negb ((c =? BACKSLASH) || (c =? DQUOTE) || (c =? SQUOTE) || (c =? STAR) || (c =? QMARK)).
Definition word (s : cstring) : Prop := s <> [] /\ Forall (fun c => plain c = true /\ ISSPACE c = false) s.
Definition phrase (s : cstring) : Prop := Forall (fun c => plain c = true) s.

(** What may follow an element. *)
Definition line_rest (s : cstring) : Prop := s = [] \/ exists c r, s = SPACE :: c :: r.

Lemma plain_eqs c : plain c = true ->
  (c =? BACKSLASH) = false /\ (c =? STAR) || (c =? QMARK) = false /\ (c =? SQUOTE) || (c =? DQUOTE) = false /\
  (c =? DQUOTE) = false.
Proof. unfold plain. intros H. apply negb_true_iff in H. lia. Qed.

Lemma space_not_sep c : ISSPACE c = false -> (c =? SPACE) || (c =? TAB) = false.
Proof. unfold ISSPACE, SPACE, TAB. lia. Qed.

Lemma scan_stop rest q g : line_rest rest -> scan rest false q g = ([], rest, false, g).
Proof. intros [-> |(c & r & ->)]; reflexivity. Qed.

Lemma scan_word s rest q g :
  Forall (fun c => plain c = true /\ ISSPACE c = false) s -> line_rest rest ->
  scan (s ++ rest) false q g = (s, rest, false, g).
Proof.
  intros H HR; induction H as [|c s [Hp Hs] H IH]; cbn [app]; [now apply scan_stop|].
  destruct (plain_eqs c Hp) as (H1 & H2 & H3 & _). cbn [scan].
  rewrite H1, (space_not_sep c Hs), H2, H3, IH. reflexivity.
Qed.

Lemma scan_phrase s rest g :
  phrase s -> line_rest rest ->
  scan (s ++ DQUOTE :: rest) true DQUOTE g = (s ++ [DQUOTE], rest, false, g).
Proof.
  intros H HR; induction H as [|c s Hp H IH]; cbn [app].
  - cbn [scan]. change (DQUOTE =? BACKSLASH) with false. cbn [Z.eqb]. cbv [DQUOTE SPACE TAB STAR QMARK SQUOTE Z.eqb Pos.eqb orb andb negb].
    change 34 with DQUOTE. now rewrite scan_stop.
  - destruct (plain_eqs c Hp) as (H1 & H2 & H3 & _). cbn [scan].
    rewrite H1, H2, H3, IH. cbn [negb]. rewrite andb_false_r. reflexivity.
Qed.

Lemma unescape_phrase s : phrase s -> unescape s = s.
Proof.
  induction 1 as [|c s Hc H IH]; auto. cbn [unescape]. destruct H as [|d r Hd H]; auto.
  destruct (plain_eqs d Hd) as (_ & _ & _ & ->). rewrite andb_false_r. now rewrite IH.
Qed.

Lemma removelast_snoc (s : cstring) x : removelast (s ++ [x]) = s.
Proof. apply removelast_last. Qed.

(** One argument as [getCommandLine] writes it, without the space in front. *)
Definition quoted (a : cstring) : cstring := if has_space a then DQUOTE :: a ++ [DQUOTE] else a.

Definition good_arg (a : cstring) : Prop := phrase a /\ (has_space a = false -> word a).

Lemma quoted_head a : good_arg a -> exists c r, quoted a = c :: r /\ ISSPACE c = false.
Proof.
  intros [_ Hw]. unfold quoted. destruct (has_space a); [exists DQUOTE, (a ++ [DQUOTE]); now split|].
  destruct (Hw eq_refl) as [HN HF]. destruct HF as [|c r [_ Hc] _]; [contradiction|]. eauto.
Qed.

Lemma scan_quoted a rest :
  good_arg a -> line_rest rest ->
  scan (quoted a ++ rest) false 0 false = (quoted a, rest, false, false) /\ strip_quotes (quoted a) false = a.
Proof.
  intros [Hp Hw] HR. unfold quoted. destruct (has_space a) eqn:Es.
  - split.
    + cbn [app]. rewrite <- app_assoc. cbn [app scan].
      cbv [DQUOTE BACKSLASH SPACE TAB STAR QMARK SQUOTE Z.eqb Pos.eqb orb andb negb]. change 34 with DQUOTE.
      rewrite scan_phrase by auto. reflexivity.
    + unfold strip_quotes, enclosed. cbn [hd negb andb].
      replace (last (DQUOTE :: a ++ [DQUOTE]) 0) with DQUOTE by (rewrite app_comm_cons; now rewrite last_last).
      cbn [Z.eqb tl]. rewrite removelast_snoc. cbn. now rewrite unescape_phrase.
  - destruct (Hw eq_refl) as [HN HF]. split; [now apply scan_word|].
    unfold strip_quotes, enclosed. destruct HF as [|c r [Hc _] _]; [contradiction|]. cbn [hd].
    destruct (plain_eqs c Hc) as (_ & _ & H3 & H4). apply orb_false_iff in H3 as [H3 _]. now rewrite H3, H4.
Qed.

Lemma gcl_format_quoted a : gcl_format a = SPACE :: quoted a.
Proof. unfold gcl_format, quoted. now destruct (has_space a). Qed.

Lemma formatted_rest args : Forall good_arg args -> line_rest (concat (map gcl_format args)).
Proof.
  intros [|a r Ha _]; [now left|]. right. cbn [map concat]. rewrite gcl_format_quoted.
  destruct (quoted_head a Ha) as (c & t & -> & _). cbn. eauto.
Qed.

Lemma split_args fuel args :
  Forall good_arg args -> (length (concat (map gcl_format args)) <= fuel)%nat ->
  split_line fuel (concat (map gcl_format args)) true = Ok (map (fun a => mkElement a false) args).
Proof.
  intros H; revert fuel; induction H as [|a args Ha H IH]; intros fuel Hf; [now destruct fuel|].
  cbn [map concat] in *. rewrite gcl_format_quoted in *. cbn [app] in *.
  destruct (quoted_head a Ha) as (c & t & Hq & Hc). destruct fuel as [|fuel]; [cbn in Hf; lia|].
  cbn [split_line]. set (rest := concat (map gcl_format args)) in *.
  replace (skip_while ISSPACE (SPACE :: quoted a ++ rest)) with (quoted a ++ rest).
  2:{ cbn [skip_while]. change (ISSPACE SPACE) with true. cbv iota. rewrite Hq. cbn [app skip_while]. now rewrite Hc. }
  destruct (scan_quoted a rest Ha (formatted_rest args H)) as [-> Hst].
  rewrite IH; [cbn [bind]; now rewrite Hst|]. cbn [length] in Hf. rewrite length_app in Hf.
  rewrite Hq in Hf. cbn in Hf. lia.
Qed.

Lemma rstrip_end s x : ISSPACE x = false -> rstrip (s ++ [x]) = s ++ [x].
Proof.
  intros H. unfold rstrip. rewrite rev_app_distr. cbn [rev app skip_while]. rewrite H. cbn [rev]. now rewrite rev_involutive.
Qed.

Lemma word_end s : word s -> exists t x, s = t ++ [x] /\ ISSPACE x = false.
Proof.
  intros [HN HF]. destruct (exists_last HN) as (t & x & ->). exists t, x. split; auto.
  apply Forall_app in HF as [_ HF]. inversion HF; tauto.
Qed.

Lemma quoted_end a : good_arg a -> exists t x, quoted a = t ++ [x] /\ ISSPACE x = false.
Proof.
  intros [_ Hw]. unfold quoted. destruct (has_space a); [exists (DQUOTE :: a), DQUOTE; now split|].
  apply word_end. now apply Hw.
Qed.

Lemma line_end prog args :
  word prog -> Forall good_arg args -> exists t x, prog ++ concat (map gcl_format args) = t ++ [x] /\ ISSPACE x = false.
Proof.
  intros Hp H. destruct args as [|a args _] using rev_ind.
  - rewrite app_nil_r. now apply word_end.
  - apply Forall_app in H as [_ Ha]. inversion Ha as [|? ? Hg _]; subst.
    destruct (quoted_end a Hg) as (t & x & Hq & Hx). rewrite map_app, concat_app. cbn [map concat].
    rewrite app_nil_r, gcl_format_quoted, Hq. exists (prog ++ concat (map gcl_format args) ++ SPACE :: t), x.
    split; auto. rewrite <- !app_assoc. reflexivity.
Qed.

Lemma split_flattened prog args :
  word prog -> has_space prog = false -> Forall good_arg args ->
  let line := prog ++ concat (map gcl_format args) in
  split_line (length (rstrip line)) (rstrip line) true =
    Ok (mkElement prog false :: map (fun a => mkElement a false) args).
Proof.
  intros Hp Hs H line. assert (HE : rstrip line = line).
  { destruct (line_end prog args Hp H) as (t & x & HE & Hx). unfold line. rewrite HE. now apply rstrip_end. }
  rewrite HE. unfold line.
  assert (Hg : good_arg prog).
  { split; [|auto]. destruct Hp as [_ HF]. eapply Forall_impl; [|exact HF]. cbn. tauto. }
  destruct (quoted_head prog Hg) as (c & r & Hq & Hc). unfold quoted in Hq. rewrite Hs in Hq.
  set (rest := concat (map gcl_format args)). rewrite length_app. rewrite Hq. cbn [length Nat.add app split_line skip_while].
  rewrite Hc. destruct (scan_quoted prog rest Hg (formatted_rest args H)) as [HS Hst].
  unfold quoted in HS, Hst. rewrite Hs in HS, Hst. rewrite Hq in HS. cbn [app] in HS. rewrite HS.
  unfold rest. rewrite split_args; auto; [|lia]. cbn [bind]. rewrite <- Hq, Hst. reflexivity.
Qed.

(** ** The element list *)

Lemma get_app_l h l i : (i < length h)%nat -> get (h ++ l) i = get h i.
Proof. intros H. unfold get. now rewrite app_nth1. Qed.

Lemma get_app_r h l i : get (h ++ l) (length h + i) = nth i l node_0.
Proof. unfold get. rewrite app_nth2 by lia. f_equal. lia. Qed.

Lemma set_next_length i v h : length (set_next i v h) = length h.
Proof. apply list_set_length. Qed.
Lemma set_prev_length i v h : length (set_prev i v h) = length h.
Proof. apply list_set_length. Qed.

Lemma get_set_next i v h a :
  (i < length h)%nat ->
  get (set_next i v h) a =
    if (a =? i)%nat then mkNode v (n_prev (get h i)) (n_str (get h i)) (n_flag (get h i)) else get h a.
Proof. intros H. unfold get at 1, set_next. now rewrite list_set_nth. Qed.

Lemma get_set_prev i v h a :
  (i < length h)%nat ->
  get (set_prev i v h) a =
    if (a =? i)%nat then mkNode (n_next (get h i)) v (n_str (get h i)) (n_flag (get h i)) else get h a.
Proof. intros H. unfold get at 1, set_prev. now rewrite list_set_nth. Qed.

(** The nodes of a list of elements allocated at [k]. *)
Fixpoint seg (prev : option nat) (k : nat) (els : list element) : list node :=
  match els with
  | [] => []
  | e :: r =>
      mkNode (match r with [] => None | _ => Some (S k) end) prev (el_str e) (el_glob e) :: seg (Some k) (S k) r
  end.

Definition append_el (st : heap * option nat * option nat) (e : element) := append (el_str e) (el_glob e) st.

Lemma append_to_last els h p s f hd :
  fold_left append_el els (h ++ [mkNode None p s f], hd, Some (length h)) =
    (h ++ seg p (length h) (mkElement s f :: els), hd, Some (length h + length els)%nat).
Proof.
  revert h p s f; induction els as [|e els IH]; intros h p s f; cbn [fold_left].
  - cbn [seg length]. do 2 f_equal. f_equal. lia.
  - unfold append_el at 2, append.
    replace (set_next (length h) (Some (length (h ++ [mkNode None p s f]))) (h ++ [mkNode None p s f]))
      with (h ++ [mkNode (Some (S (length h))) p s f]).
    2:{ unfold set_next, get. rewrite nth_middle. cbn [n_prev n_str n_flag].
        rewrite list_set_app by (rewrite length_app; cbn; lia). rewrite firstn_app, firstn_all, Nat.sub_diag.
        rewrite skipn_all2 by (rewrite length_app; cbn; lia). cbn [firstn]. rewrite app_nil_r.
        rewrite length_app. cbn [length]. do 4 f_equal. lia. }
    rewrite length_app. cbn [length]. replace (length h + 1)%nat with (S (length h)) by lia.
    set (h1 := h ++ [mkNode (Some (S (length h))) p s f]).
    assert (HL : length h1 = S (length h)) by (unfold h1; rewrite length_app; cbn; lia).
    rewrite <- HL. rewrite IH. destruct e as [s' f']. cbn [el_str el_glob].
    rewrite HL. f_equal; [f_equal; unfold h1; now rewrite <- app_assoc|f_equal; cbn; lia].
Qed.

Lemma append_list els h :
  fold_left append_el els (h, None, None) =
    (h ++ seg None (length h) els,
     match els with [] => None | _ => Some (length h) end,
     match els with [] => None | _ => Some (length h + length els - 1)%nat end).
Proof.
  destruct els as [|[s f] els]; cbn [fold_left].
  - cbn. now rewrite app_nil_r.
  - unfold append_el at 2, append. cbn [el_str el_glob]. rewrite append_to_last. f_equal. f_equal. cbn. lia.
Qed.

Lemma seg_length p k els : length (seg p k els) = length els.
Proof. revert p k; induction els; intros; cbn [seg length]; auto. Qed.

Lemma seg_nth p k els t :
  (t < length els)%nat ->
  nth t (seg p k els) node_0 =
    mkNode (if (t + 1 <? length els)%nat then Some (k + t + 1)%nat else None)
           (if (t =? 0)%nat then p else Some (k + t - 1)%nat)
           (el_str (nth t els (mkElement [] false))) (el_glob (nth t els (mkElement [] false))).
Proof.
  revert p k t; induction els as [|e els IH]; intros p k [|t] H; cbn [length] in H; try lia; cbn [seg nth].
  - destruct els as [|e' els]; cbn; f_equal. f_equal. lia.
  - rewrite IH by lia. f_equal.
    + replace (S t + 1 <? length (e :: els))%nat with (t + 1 <? length els)%nat by reflexivity.
      destruct (t + 1 <? length els)%nat; f_equal. lia.
    + cbn [Nat.eqb]. destruct t; cbn [Nat.eqb]; f_equal; lia.
Qed.

(** A path along [next] pointers. *)
Fixpoint chain (h : heap) (start : option nat) (ids : list nat) (stop : option nat) : Prop :=
  match ids with
  | [] => start = stop
  | a :: r => start = Some a /\ (a < length h)%nat /\ chain h (n_next (get h a)) r stop
  end.

Lemma chain_app h start ids1 ids2 stop :
  chain h start (ids1 ++ ids2) stop <-> exists m, chain h start ids1 m /\ chain h m ids2 stop.
Proof.
  revert start; induction ids1 as [|a ids1 IH]; intros start; cbn [app chain].
  - split; [eauto|]. intros (m & -> & H). exact H.
  - rewrite IH. split.
    + intros (H1 & H2 & m & H3 & H4). eauto.
    + intros (m & (H1 & H2 & H3) & H4). eauto.
Qed.

Lemma chain_frame h h' start ids stop :
  (length h <= length h')%nat -> (forall a, In a ids -> n_next (get h' a) = n_next (get h a)) ->
  chain h start ids stop -> chain h' start ids stop.
Proof.
  intros HL; revert start; induction ids as [|a ids IH]; intros start HN; cbn [chain]; auto.
  intros (H1 & H2 & H3). splits; auto; [lia|]. rewrite HN by now left. apply IH; auto.
  intros b Hb. apply HN. now right.
Qed.

Lemma collect_chain h start ids fuel :
  chain h start ids None -> (length ids <= fuel)%nat ->
  collect fuel start h = Ok (map (fun a => n_str (get h a)) ids).
Proof.
  revert start fuel; induction ids as [|a ids IH]; intros start fuel; cbn [chain].
  - intros -> _. now destruct fuel.
  - intros (-> & Ha & HC) Hf. destruct fuel as [|fuel]; [cbn in Hf; lia|]. cbn [collect map].
    rewrite (IH _ fuel HC) by (cbn in Hf; lia). reflexivity.
Qed.

(** A block of nodes linked in order is a path. *)
Lemma chain_block h k n t stop :
  (t <= n)%nat -> (k + n <= length h)%nat ->
  (forall u, (t <= u < n)%nat -> n_next (get h (k + u)) = if (u + 1 <? n)%nat then Some (k + u + 1)%nat else stop) ->
  chain h (if (t <? n)%nat then Some (k + t)%nat else stop) (seq (k + t) (n - t)) stop.
Proof.
  intros Ht Hk HN. remember (n - t)%nat as d eqn:Hd. revert t Ht Hd HN.
  induction d as [|d IH]; intros t Ht Hd HN; cbn [seq chain].
  - replace (t <? n)%nat with false; auto. symmetry. apply Nat.ltb_ge. lia.
  - replace (t <? n)%nat with true by (symmetry; apply Nat.ltb_lt; lia).
    splits; auto; [lia|]. rewrite HN by lia. specialize (IH (t + 1)%nat ltac:(lia) ltac:(lia)).
    replace (S (k + t)) with (k + (t + 1))%nat by lia. replace (k + t + 1)%nat with (k + (t + 1))%nat by lia.
    apply IH. intros u Hu. apply HN. lia.
Qed.

Section GlobLemmas.
Context (rb_globi : cstring -> list cstring).

Definition matches_of (s : cstring) : list cstring := rb_globi (slashes s).

Definition below (k : nat) (p : option nat) : Prop := match p with Some a => (a < k)%nat | None => True end.

Definition is_some_nat (p : option nat) (a : nat) : bool := match p with Some b => (a =? b)%nat | None => false end.

Lemma get_seg h els a :
  get (h ++ seg None (length h) els) a =
    if (a <? length h)%nat then get h a
    else if (a <? length h + length els)%nat
    then mkNode (if (a + 1 <? length h + length els)%nat then Some (a + 1)%nat else None)
           (if (a =? length h)%nat then None else Some (a - 1)%nat)
           (el_str (nth (a - length h) els (mkElement [] false))) (el_glob (nth (a - length h) els (mkElement [] false)))
    else node_0.
Proof.
  destruct (Nat.ltb_spec a (length h)) as [Ha|Ha]; [now apply get_app_l|].
  replace a with (length h + (a - length h))%nat at 1 by lia. rewrite get_app_r.
  destruct (Nat.ltb_spec a (length h + length els)) as [Hb|Hb].
  - rewrite seg_nth by lia. f_equal.
    + replace (a - length h + 1 <? length els)%nat with (a + 1 <? length h + length els)%nat.
      2:{ apply eq_true_iff_eq. rewrite !Nat.ltb_lt. lia. }
      destruct (a + 1 <? length h + length els)%nat; f_equal; lia.
    + replace (a - length h =? 0)%nat with (a =? length h)%nat.
      2:{ apply eq_true_iff_eq. rewrite !Nat.eqb_eq. lia. }
      destruct (a =? length h)%nat; f_equal; lia.
  - apply nth_overflow. rewrite seg_length. lia.
Qed.

Lemma get_link_next p v h a :
  below (length h) p ->
  get (link_next p v h) a =
    if is_some_nat p a then mkNode v (n_prev (get h a)) (n_str (get h a)) (n_flag (get h a)) else get h a.
Proof.
  destruct p as [i|]; cbn [below link_next is_some_nat]; auto. intros Hi. rewrite get_set_next by auto.
  now destruct (Nat.eqb_spec a i) as [->|].
Qed.

Lemma get_link_prev p v h a :
  below (length h) p ->
  get (link_prev p v h) a =
    if is_some_nat p a then mkNode (n_next (get h a)) v (n_str (get h a)) (n_flag (get h a)) else get h a.
Proof.
  destruct p as [i|]; cbn [below link_prev is_some_nat]; auto. intros Hi. rewrite get_set_prev by auto.
  now destruct (Nat.eqb_spec a i) as [->|].
Qed.

Lemma VMSCmdGlob_none i h : matches_of (n_str (get h i)) = [] -> VMSCmdGlob rb_globi i h = h.
Proof. unfold VMSCmdGlob, matches_of. now intros ->. Qed.

Definition glob_els (ms : list cstring) : list element := map (fun p => mkElement p false) ms.

Lemma append_paths ms st :
  fold_left (fun st path => append path false st) ms st = fold_left append_el (glob_els ms) st.
Proof. revert st; induction ms as [|m ms IH]; intros st; cbn; auto. Qed.

Lemma link_next_length p v h : length (link_next p v h) = length h.
Proof. destruct p; cbn; rewrite ?set_next_length; auto. Qed.
Lemma link_prev_length p v h : length (link_prev p v h) = length h.
Proof. destruct p; cbn; rewrite ?set_prev_length; auto. Qed.

Lemma below_not p k u : below k p -> (k <= u)%nat -> is_some_nat p u = false.
Proof. destruct p as [q|]; cbn; auto. intros. apply Nat.eqb_neq. lia. Qed.

Lemma below_le p k m : below k p -> (k <= m)%nat -> below m p.
Proof. destruct p; cbn; auto. lia. Qed.

(** The pointers [VMSCmdGlob] reads are those of the pattern's node. *)
Lemma VMSCmdGlob_eq i h ms :
  (i < length h)%nat -> matches_of (n_str (get h i)) = ms -> ms <> [] ->
  below (length h) (n_prev (get h i)) ->
  let k := length h in let tl := (k + length ms - 1)%nat in
  VMSCmdGlob rb_globi i h =
    link_prev (n_next (get h i)) (Some tl)
      (link_next (n_prev (get h i)) (Some k)
        (set_next tl (n_next (get h i)) (set_prev k (n_prev (get h i)) (h ++ seg None k (glob_els ms))))).
Proof.
  intros Hi Hms HN Hp k tl. unfold VMSCmdGlob. fold (matches_of (n_str (get h i))).
  rewrite Hms, append_paths, append_list. fold k.
  assert (HLe : length (glob_els ms) = length ms) by apply length_map.
  assert (Hn : (0 < length ms)%nat) by (destruct ms; [contradiction|cbn; lia]).
  rewrite HLe. fold tl. replace (match glob_els ms with [] => None | _ => Some k end) with (Some k) by now destruct ms.
  replace (match glob_els ms with [] => None | _ => Some tl end) with (Some tl) by now destruct ms.
  set (h1 := h ++ seg None k (glob_els ms)).
  assert (HL1 : length h1 = (k + length ms)%nat) by (unfold h1; now rewrite length_app, seg_length, HLe).
  assert (G1 : get h1 i = get h i) by now apply get_app_l.
  assert (Hne : (i =? k)%nat = false) by (apply Nat.eqb_neq; lia).
  rewrite G1. set (h2 := set_prev k (n_prev (get h i)) h1).
  assert (HL2 : length h2 = length h1) by apply set_prev_length.
  assert (G2 : n_next (get h2 i) = n_next (get h i)).
  { unfold h2. rewrite get_set_prev, Hne by lia. now rewrite G1. }
  rewrite G2. set (h3 := set_next tl (n_next (get h i)) h2).
  assert (HL3 : length h3 = length h1) by (unfold h3; now rewrite set_next_length).
  assert (P2 : n_prev (get h2 k) = n_prev (get h i)) by (unfold h2; rewrite get_set_prev, Nat.eqb_refl by lia; reflexivity).
  assert (P3 : n_prev (get h3 k) = n_prev (get h i)).
  { unfold h3. rewrite get_set_next by (unfold tl; lia). destruct (Nat.eqb_spec k tl) as [<-|]; exact P2. }
  rewrite P3. set (h4 := link_next (n_prev (get h i)) (Some k) h3).
  assert (X4 : n_next (get h4 tl) = n_next (get h i)).
  { unfold h4. rewrite get_link_next by (apply below_le with k; [auto|lia]).
    rewrite (below_not _ k) by (auto; unfold tl; lia). unfold h3. rewrite get_set_next by (unfold tl; lia).
    now rewrite Nat.eqb_refl. }
  now rewrite X4.
Qed.

(** What [VMSCmdGlob] does to the nodes when there are matches. *)
Lemma VMSCmdGlob_spec i h ms h' :
  (i < length h)%nat -> matches_of (n_str (get h i)) = ms -> ms <> [] ->
  below (length h) (n_prev (get h i)) -> below (length h) (n_next (get h i)) ->
  h' = VMSCmdGlob rb_globi i h ->
  let k := length h in let n := length ms in
  length h' = (k + n)%nat /\
  (forall a, (a < k)%nat -> n_str (get h' a) = n_str (get h a) /\ n_flag (get h' a) = n_flag (get h a)) /\
  (forall u, (u < n)%nat -> n_str (get h' (k + u)) = nth u ms []) /\
  (forall u, (u < n)%nat ->
     n_next (get h' (k + u)) = if (u + 1 <? n)%nat then Some (k + u + 1)%nat else n_next (get h i)) /\
  (forall a, (a < k)%nat ->
     n_next (get h' a) = if is_some_nat (n_prev (get h i)) a then Some k else n_next (get h a)) /\
  (forall a, (a < k)%nat ->
     n_prev (get h' a) = if is_some_nat (n_next (get h i)) a then Some (k + n - 1)%nat else n_prev (get h a)).
Proof.
  intros Hi Hms HN Hp Hx -> k n. rewrite (VMSCmdGlob_eq i h ms Hi Hms HN Hp). fold k n.
  assert (HLe : length (glob_els ms) = n) by apply length_map.
  assert (Hn : (0 < n)%nat) by (unfold n; destruct ms; [contradiction|cbn; lia]).
  set (h1 := h ++ seg None k (glob_els ms)).
  assert (HL1 : length h1 = (k + n)%nat) by (unfold h1; now rewrite length_app, seg_length, HLe).
  pose proof (fun a => get_seg h (glob_els ms) a) as G1. fold k in G1. fold h1 in G1. rewrite HLe in G1.
  set (h2 := set_prev k _ h1). assert (HL2 : length h2 = (k + n)%nat) by (unfold h2; now rewrite set_prev_length).
  set (h3 := set_next _ _ h2). assert (HL3 : length h3 = (k + n)%nat) by (unfold h3; now rewrite set_next_length).
  set (h4 := link_next _ _ h3). assert (HL4 : length h4 = (k + n)%nat) by (unfold h4; now rewrite link_next_length).
  assert (G5 : forall a, get (link_prev (n_next (get h i)) (Some (k + n - 1)%nat) h4) a =
    if is_some_nat (n_next (get h i)) a
    then mkNode (n_next (get h4 a)) (Some (k + n - 1)%nat) (n_str (get h4 a)) (n_flag (get h4 a)) else get h4 a).
  { intros a. apply get_link_prev. apply below_le with k; [auto|lia]. }
  assert (G4 : forall a, get h4 a = if is_some_nat (n_prev (get h i)) a
    then mkNode (Some k) (n_prev (get h3 a)) (n_str (get h3 a)) (n_flag (get h3 a)) else get h3 a).
  { intros a. apply get_link_next. apply below_le with k; [auto|lia]. }
  assert (G3 : forall a, get h3 a = if (a =? k + n - 1)%nat
    then mkNode (n_next (get h i)) (n_prev (get h2 a)) (n_str (get h2 a)) (n_flag (get h2 a)) else get h2 a).
  { intros a. unfold h3. rewrite get_set_next by lia. now destruct (Nat.eqb_spec a (k + n - 1)) as [->|]. }
  assert (G2 : forall a, get h2 a = if (a =? k)%nat
    then mkNode (n_next (get h1 a)) (n_prev (get h i)) (n_str (get h1 a)) (n_flag (get h1 a)) else get h1 a).
  { intros a. unfold h2. rewrite get_set_prev by lia. now destruct (Nat.eqb_spec a k) as [->|]. }
  assert (Hold : forall a, (a < k)%nat -> get h3 a = get h a).
  { intros a Ha. rewrite G3, G2, G1. replace (a =? k + n - 1)%nat with false by (symmetry; apply Nat.eqb_neq; lia).
    replace (a =? k)%nat with false by (symmetry; apply Nat.eqb_neq; lia). now apply Nat.ltb_lt in Ha as ->. }
  assert (Hnew : forall u, (u < n)%nat ->
    n_str (get h3 (k + u)) = nth u ms [] /\
    n_next (get h3 (k + u)) = if (u + 1 <? n)%nat then Some (k + u + 1)%nat else n_next (get h i)).
  { intros u Hu. rewrite G3, G2, G1.
    replace (k + u <? k)%nat with false by (symmetry; apply Nat.ltb_ge; lia).
    replace (k + u <? k + n)%nat with true by (symmetry; apply Nat.ltb_lt; lia).
    replace (k + u + 1 <? k + n)%nat with (u + 1 <? n)%nat by (apply eq_true_iff_eq; rewrite !Nat.ltb_lt; lia).
    replace (k + u =? k + n - 1)%nat with (negb (u + 1 <? n)%nat)
      by (apply eq_true_iff_eq; rewrite negb_true_iff, Nat.ltb_ge, Nat.eqb_eq; lia).
    replace (k + u - k)%nat with u by lia. unfold glob_els.
    rewrite (map_nth (fun p => mkElement p false) ms [] u). cbn [el_str el_glob].
    destruct (u + 1 <? n)%nat; cbn [negb]; destruct (k + u =? k)%nat; cbn; auto. }
  assert (Hfar : forall u, is_some_nat (n_next (get h i)) (k + u) = false /\ is_some_nat (n_prev (get h i)) (k + u) = false).
  { intros u. split; apply below_not with k; auto; lia. }
  splits.
  - now rewrite link_prev_length.
  - intros a Ha. rewrite G5, G4, Hold by auto.
    destruct (is_some_nat (n_next (get h i)) a), (is_some_nat (n_prev (get h i)) a); auto.
  - intros u Hu. destruct (Hfar u) as [F1 F2]. rewrite G5, F1, G4, F2. apply Hnew; auto.
  - intros u Hu. destruct (Hfar u) as [F1 F2]. rewrite G5, F1, G4, F2. apply Hnew; auto.
  - intros a Ha. rewrite G5, G4, Hold by auto.
    destruct (is_some_nat (n_next (get h i)) a), (is_some_nat (n_prev (get h i)) a); auto.
  - intros a Ha. rewrite G5, G4, Hold by auto.
    destruct (is_some_nat (n_next (get h i)) a), (is_some_nat (n_prev (get h i)) a); auto.
Qed.
End GlobLemmas.

Section GlobLoop.
Context (rb_globi : cstring -> list cstring).
Context (els : list element).

Notation matches_of := (matches_of rb_globi).

Definition matched (e : element) : bool :=
  el_glob e && match matches_of (el_str e) with [] => false | _ => true end.

(** An element and what takes its place. *)
Definition expand (e : element) : list cstring := if matched e then matches_of (el_str e) else [el_str e].

(** [attached]: the elements in front are in the list. *)
Fixpoint vector_of (attached : bool) (l : list element) : list cstring :=
  match l with
  | [] => []
  | e :: l =>
      (if negb attached && matched e then [el_str e] else expand e) ++ vector_of (attached || negb (matched e)) l
  end.

Let n := length els.
Let el (i : nat) : element := nth i els (mkElement [] false).

Definition at_pos (i : nat) : option nat := if (i <? n)%nat then Some i else None.

Record glob_inv (h : heap) (i : nat) (ids : list nat) (attached : bool) (out : list cstring) : Prop := {
  gi_pos : (i <= n)%nat;
  gi_len : (n <= length h)%nat;
  gi_chain : chain h (at_pos 0) ids (at_pos i);
  gi_node : forall j, (i <= j < n)%nat ->
    n_next (get h j) = at_pos (S j) /\ n_str (get h j) = el_str (el j) /\ n_flag (get h j) = el_glob (el j);
  gi_prev : forall j, (i < j < n)%nat -> n_prev (get h j) = Some (j - 1)%nat;
  gi_here : (i < n)%nat ->
    if attached then exists r p, ids = r ++ [p] /\ n_prev (get h i) = Some p
    else match n_prev (get h i) with None => True | Some p => (n <= p < length h)%nat end;
  gi_prefix : attached = false -> ids = seq 0 i;
  gi_nodup : NoDup ids;
  gi_ids : forall a, In a ids -> (a < i \/ n <= a < length h)%nat;
  gi_out : map (fun a => n_str (get h a)) ids = out
}.

Lemma is_some_nat_true p a : is_some_nat p a = true -> p = Some a.
Proof. destruct p as [b|]; cbn; [|discriminate]. intros H. apply Nat.eqb_eq in H. now subst. Qed.

Lemma at_pos_below i (h : heap) : (n <= length h)%nat -> below (length h) (at_pos i).
Proof. unfold at_pos. destruct (Nat.ltb_spec i n); cbn; auto. lia. Qed.

Lemma seq_last k m : (0 < m)%nat -> seq k m = seq k (m - 1) ++ [(k + m - 1)%nat].
Proof.
  destruct m as [|m]; [lia|]. intros _. replace (S m - 1)%nat with m by lia.
  replace (k + S m - 1)%nat with (k + m)%nat by lia. apply seq_S.
Qed.

(** An element that stays. *)
Lemma glob_keep h i ids att out :
  glob_inv h i ids att out -> (i < n)%nat -> glob_inv h (S i) (ids ++ [i]) true (out ++ [el_str (el i)]).
Proof.
  intros I Hi. destruct (gi_node _ _ _ _ _ I i ltac:(lia)) as (Hnx & Hst & _). split.
  - lia.
  - apply (gi_len _ _ _ _ _ I).
  - apply chain_app. exists (at_pos i). split; [apply (gi_chain _ _ _ _ _ I)|].
    unfold at_pos at 1. apply Nat.ltb_lt in Hi as HX. rewrite HX. cbn [chain]. pose proof (gi_len _ _ _ _ _ I).
    splits; auto. lia.
  - intros j Hj. apply (gi_node _ _ _ _ _ I). lia.
  - intros j Hj. apply (gi_prev _ _ _ _ _ I). lia.
  - intros Hlt. exists ids, i. split; auto. rewrite (gi_prev _ _ _ _ _ I) by lia. f_equal. lia.
  - discriminate.
  - apply NoDup_app; [apply (gi_nodup _ _ _ _ _ I)|repeat constructor; auto|].
    intros a Ha [->|[]]. destruct (gi_ids _ _ _ _ _ I a Ha); lia.
  - intros a Ha. apply in_app_iff in Ha as [Ha|[<-|[]]]; [destruct (gi_ids _ _ _ _ _ I a Ha); lia|lia].
  - rewrite map_app, (gi_out _ _ _ _ _ I). cbn. now rewrite Hst.
Qed.

Section Matched.
Context (h h' : heap) (i : nat) (ids : list nat) (att : bool) (out : list cstring).
Context (I : glob_inv h i ids att out) (Hi : (i < n)%nat) (Hm : matched (el i) = true).
Context (Hh' : h' = VMSCmdGlob rb_globi i h).

Let ms := matches_of (el_str (el i)).

Lemma ms_nonempty : ms <> [].
Proof.
  unfold matched in Hm. apply andb_prop in Hm as [_ H]. fold ms in H. now destruct ms.
Qed.

Lemma prev_below : below (length h) (n_prev (get h i)).
Proof.
  pose proof (gi_here _ _ _ _ _ I Hi) as H. pose proof (gi_len _ _ _ _ _ I). destruct att.
  - destruct H as (r & p & Hr & ->). cbn. assert (Hp : In p ids) by (rewrite Hr; apply in_app_iff; cbn; auto).
    destruct (gi_ids _ _ _ _ _ I p Hp); lia.
  - destruct (n_prev (get h i)); cbn; [lia|auto].
Qed.

(** What the step does to the nodes, in terms of the invariant. *)
Lemma matched_nodes :
  length h' = (length h + length ms)%nat /\
  (forall a, (a < length h)%nat -> n_str (get h' a) = n_str (get h a) /\ n_flag (get h' a) = n_flag (get h a)) /\
  (forall u, (u < length ms)%nat -> n_str (get h' (length h + u)) = nth u ms []) /\
  (forall u, (u < length ms)%nat -> n_next (get h' (length h + u)) =
     if (u + 1 <? length ms)%nat then Some (length h + u + 1)%nat else at_pos (S i)) /\
  (forall a, (a < length h)%nat -> n_prev (get h i) <> Some a -> n_next (get h' a) = n_next (get h a)) /\
  (forall p, n_prev (get h i) = Some p -> n_next (get h' p) = Some (length h)) /\
  (forall j, (S i < j < n)%nat -> n_prev (get h' j) = Some (j - 1)%nat) /\
  ((S i < n)%nat -> n_prev (get h' (S i)) = Some (length h + length ms - 1)%nat).
Proof.
  destruct (gi_node _ _ _ _ _ I i ltac:(lia)) as (Hnx & Hst & _). pose proof (gi_len _ _ _ _ _ I) as HL.
  pose proof prev_below as HPB.
  destruct (VMSCmdGlob_spec rb_globi i h ms h') as (S1 & S2 & S3 & S4 & S5 & S6); auto.
  { lia. } { now rewrite Hst. } { apply ms_nonempty. } { rewrite Hnx. now apply at_pos_below. }
  rewrite Hnx in S4, S6. splits; auto.
  - intros a Ha Hne. rewrite S5 by auto. destruct (is_some_nat (n_prev (get h i)) a) eqn:E; auto.
    apply is_some_nat_true in E. contradiction.
  - intros p Hp. rewrite Hp in HPB, S5. cbn in HPB. rewrite S5 by auto. cbn. now rewrite Nat.eqb_refl.
  - intros j Hj. rewrite S6 by lia. unfold at_pos. destruct (S i <? n)%nat; cbn [is_some_nat].
    + replace (j =? S i)%nat with false by (symmetry; apply Nat.eqb_neq; lia). apply (gi_prev _ _ _ _ _ I). lia.
    + apply (gi_prev _ _ _ _ _ I). lia.
  - intros Hlt. rewrite S6 by lia. unfold at_pos. apply Nat.ltb_lt in Hlt. rewrite Hlt. cbn. now rewrite Nat.eqb_refl.
Qed.

Lemma ids_strings : map (fun a => n_str (get h' a)) ids = out.
Proof.
  destruct matched_nodes as (_ & S2 & _). rewrite <- (gi_out _ _ _ _ _ I). apply map_ext_in.
  intros a Ha. pose proof (gi_len _ _ _ _ _ I). apply S2. destruct (gi_ids _ _ _ _ _ I a Ha); lia.
Qed.

Lemma later_nodes j : (S i <= j < n)%nat ->
  n_next (get h' j) = at_pos (S j) /\ n_str (get h' j) = el_str (el j) /\ n_flag (get h' j) = el_glob (el j).
Proof.
  intros Hj. destruct matched_nodes as (_ & S2 & _ & _ & S5 & _). pose proof (gi_len _ _ _ _ _ I).
  destruct (gi_node _ _ _ _ _ I j ltac:(lia)) as (H1 & H2 & H3). destruct (S2 j ltac:(lia)) as [-> ->].
  splits; auto. rewrite S5; auto; [lia|]. intros Hp. pose proof (gi_here _ _ _ _ _ I Hi) as HH. destruct att.
  - destruct HH as (r & p & Hr & Hp'). assert (p = j) as -> by congruence.
    assert (Hin : In j ids) by (rewrite Hr; apply in_app_iff; cbn; auto).
    destruct (gi_ids _ _ _ _ _ I j Hin); lia.
  - rewrite Hp in HH. lia.
Qed.

(** In front of the first element that stays, the expansion is linked to
    nodes outside the list. *)
Lemma glob_lost : att = false -> glob_inv h' (S i) (ids ++ [i]) false (out ++ [el_str (el i)]).
Proof.
  intros Hatt. destruct matched_nodes as (S1 & S2 & S3 & S4 & S5 & S6 & S7 & S8).
  pose proof (gi_len _ _ _ _ _ I) as HL. destruct (gi_node _ _ _ _ _ I i ltac:(lia)) as (Hnx & Hst & _).
  pose proof (gi_here _ _ _ _ _ I Hi) as HH. rewrite Hatt in HH. pose proof (gi_prefix _ _ _ _ _ I Hatt) as Hpre.
  assert (Hoff : forall a, (a <= i)%nat -> n_next (get h' a) = n_next (get h a)).
  { intros a Ha. apply S5; [lia|]. intros Hp. rewrite Hp in HH. lia. }
  pose proof ms_nonempty as Hms. assert (0 < length ms)%nat by (destruct ms; [contradiction|cbn; lia]).
  split.
  - lia.
  - lia.
  - apply chain_app. exists (at_pos i). split.
    + apply (chain_frame h); [lia| |apply (gi_chain _ _ _ _ _ I)]. intros a Ha. rewrite Hpre in Ha.
      apply in_seq in Ha. apply Hoff. lia.
    + unfold at_pos at 1. apply Nat.ltb_lt in Hi as HX. rewrite HX. cbn [chain]. splits; auto; [lia|].
      rewrite Hoff by lia. exact Hnx.
  - intros j Hj. now apply later_nodes.
  - exact S7.
  - intros Hlt. rewrite S8 by auto. lia.
  - intros _. rewrite Hpre. now rewrite seq_S.
  - rewrite Hpre. change [i] with [(0 + i)%nat]. rewrite <- seq_S. apply seq_NoDup.
  - intros a Ha. rewrite Hpre in Ha. change [i] with [(0 + i)%nat] in Ha.
    rewrite <- seq_S in Ha. apply in_seq in Ha. lia.
  - rewrite map_app, ids_strings. cbn. destruct (S2 i ltac:(lia)) as [-> _]. now rewrite Hst.
Qed.

(** Behind an element that stays, the matches replace the pattern. *)
Lemma glob_replace : att = true -> glob_inv h' (S i) (ids ++ seq (length h) (length ms)) true (out ++ ms).
Proof.
  intros Hatt. destruct matched_nodes as (S1 & S2 & S3 & S4 & S5 & S6 & S7 & S8).
  pose proof (gi_len _ _ _ _ _ I) as HL. pose proof (gi_here _ _ _ _ _ I Hi) as HH. rewrite Hatt in HH.
  destruct HH as (r & p & Hr & Hp). pose proof ms_nonempty as Hms.
  assert (Hmn : (0 < length ms)%nat) by (destruct ms; [contradiction|cbn; lia]).
  pose proof (gi_nodup _ _ _ _ _ I) as HN. rewrite Hr in HN.
  split.
  - lia.
  - lia.
  - pose proof (gi_chain _ _ _ _ _ I) as HC. rewrite Hr in HC |- *. rewrite <- app_assoc.
    apply chain_app in HC as (m & HC1 & HC2). cbn [chain] in HC2. destruct HC2 as (-> & Hpl & _).
    apply chain_app. exists (Some p). split.
    + apply (chain_frame h); [lia| |exact HC1]. intros a Ha.
      assert (Hin : In a ids) by (rewrite Hr; apply in_app_iff; auto).
      apply S5; [destruct (gi_ids _ _ _ _ _ I a Hin); lia|]. rewrite Hp. intros HX. injection HX as ->.
      apply NoDup_remove_2 in HN. apply HN. rewrite app_nil_r. exact Ha.
    + cbn [app chain]. splits; auto; [lia|]. rewrite (S6 p Hp).
      pose proof (chain_block h' (length h) (length ms) 0 (at_pos (S i)) ltac:(lia) ltac:(lia)) as HB.
      apply Nat.ltb_lt in Hmn as HX. rewrite HX, Nat.add_0_r, Nat.sub_0_r in HB. apply HB.
      intros u Hu. apply S4. lia.
  - intros j Hj. now apply later_nodes.
  - exact S7.
  - intros Hlt. exists (ids ++ seq (length h) (length ms - 1)), (length h + length ms - 1)%nat.
    split; [|now apply S8]. rewrite (seq_last (length h) (length ms)) by auto. apply app_assoc.
  - discriminate.
  - apply NoDup_app; [rewrite Hr; exact HN|apply seq_NoDup|]. intros a Ha Ha'. apply in_seq in Ha'.
    destruct (gi_ids _ _ _ _ _ I a Ha); lia.
  - intros a Ha. apply in_app_iff in Ha as [Ha|Ha]; [destruct (gi_ids _ _ _ _ _ I a Ha); lia|].
    apply in_seq in Ha. lia.
  - rewrite map_app, ids_strings. f_equal. apply nth_ext with [] []; rewrite length_map, length_seq; auto.
    intros u Hu. rewrite (nth_indep _ [] (n_str (get h' 0))) by (rewrite length_map, length_seq; auto).
    rewrite (map_nth (fun a => n_str (get h' a))). rewrite seq_nth by auto. now apply S3.
Qed.
End Matched.
(** One round of the expansion loop. *)
Lemma glob_round h i ids att out :
  glob_inv h i ids att out -> (i < n)%nat ->
  let h' := if n_flag (get h i) then VMSCmdGlob rb_globi i h else h in
  exists ids', glob_inv h' (S i) ids' (att || negb (matched (el i)))
    (out ++ (if negb att && matched (el i) then [el_str (el i)] else expand (el i))) /\
    n_next (get h' i) = at_pos (S i).
Proof.
  intros I Hi h'. destruct (gi_node _ _ _ _ _ I i ltac:(lia)) as (Hnx & Hst & Hfl).
  destruct (matched (el i)) eqn:Em; cbn [negb].
  - assert (Hf : n_flag (get h i) = true).
    { rewrite Hfl. unfold matched in Em. now apply andb_prop in Em. }
    unfold h'. rewrite Hf. unfold expand. rewrite Em, orb_false_r.
    destruct (matched_nodes h _ i ids att out I Hi Em eq_refl) as (_ & _ & _ & _ & S5 & _).
    assert (Hn' : n_next (get (VMSCmdGlob rb_globi i h) i) = at_pos (S i)).
    { rewrite S5; auto; [pose proof (gi_len _ _ _ _ _ I); lia|]. intros Hp.
      pose proof (gi_here _ _ _ _ _ I Hi) as HH. destruct att.
      - destruct HH as (r & p & Hr & Hp'). assert (p = i) as -> by congruence.
        assert (Hin : In i ids) by (rewrite Hr; apply in_app_iff; cbn; auto).
        destruct (gi_ids _ _ _ _ _ I i Hin); lia.
      - rewrite Hp in HH. lia. }
    destruct att; cbn [negb andb].
    + eexists. split; [now apply (glob_replace h _ i ids true out I Hi Em eq_refl)|exact Hn'].
    + eexists. split; [now apply (glob_lost h _ i ids false out I Hi Em eq_refl)|exact Hn'].
  - rewrite andb_false_r, orb_true_r. unfold expand. rewrite Em.
    assert (Hh : h' = h).
    { unfold h'. destruct (n_flag (get h i)) eqn:Ef; auto. apply VMSCmdGlob_none. rewrite Hst.
      unfold matched in Em. rewrite <- Hfl in Em. cbn [andb] in Em. now destruct (matches_of (el_str (el i))). }
    rewrite Hh. eexists. split; [exact (glob_keep h i ids att out I Hi)|exact Hnx].
Qed.

Lemma skipn_el i : (i < n)%nat -> skipn i els = el i :: skipn (S i) els.
Proof.
  unfold n, el. clear. revert els; induction i as [|i IH]; intros [|e l] H; cbn in *; try lia; auto. apply IH. lia.
Qed.

Lemma glob_all_inv d h i ids att out :
  glob_inv h i ids att out -> (n - i = d)%nat ->
  exists h' ids' att', glob_all rb_globi d (at_pos i) h = Ok h' /\
    glob_inv h' n ids' att' (out ++ vector_of att (skipn i els)).
Proof.
  revert h i ids att out; induction d as [|d IH]; intros h i ids att out I Hd.
  - pose proof (gi_pos _ _ _ _ _ I). assert (i = n) as -> by lia. exists h, ids, att.
    unfold at_pos at 1. rewrite Nat.ltb_irrefl. split; [reflexivity|].
    unfold n. rewrite skipn_all. cbn [vector_of]. now rewrite app_nil_r.
  - assert (Hi : (i < n)%nat) by lia. destruct (glob_round h i ids att out I Hi) as (ids' & I' & Hnx).
    destruct (IH _ _ _ _ _ I' ltac:(lia)) as (h' & ids2 & att2 & HG & I2).
    exists h', ids2, att2. split.
    + unfold at_pos at 1. apply Nat.ltb_lt in Hi as ->. cbn [glob_all]. rewrite Hnx. exact HG.
    + rewrite skipn_el by auto. cbn [vector_of]. rewrite app_assoc. exact I2.
Qed.

Lemma build_inv :
  exists h tl, build_list els = (h, at_pos 0, tl) /\ length h = n /\ glob_inv h 0 [] false [].
Proof.
  unfold build_list. fold append_el. change (fun st e => append (el_str e) (el_glob e) st) with append_el.
  rewrite append_list. cbn [app length]. eexists _, _. split; [|split; [apply seg_length|]].
  - f_equal. f_equal. unfold at_pos, n. now destruct els.
  - assert (G : forall j, (j < n)%nat -> get (seg None 0 els) j =
      mkNode (at_pos (S j)) (if (j =? 0)%nat then None else Some (j - 1)%nat) (el_str (el j)) (el_glob (el j))).
    { intros j Hj. unfold get. rewrite seg_nth by auto. unfold at_pos, el. f_equal.
      replace (S j) with (j + 1)%nat by lia. reflexivity. }
    split.
    + lia.
    + rewrite seg_length. unfold n. lia.
    + reflexivity.
    + intros j Hj. rewrite G by lia. auto.
    + intros j Hj. rewrite G by lia. cbn [n_prev]. now replace (j =? 0)%nat with false by (symmetry; apply Nat.eqb_neq; lia).
    + intros Hlt. rewrite G by auto. cbn. exact I.
    + reflexivity.
    + constructor.
    + contradiction.
    + reflexivity.
Qed.

(** The argument vector of a list of elements. *)
Lemma glob_vector :
  exists h tl h', build_list els = (h, at_pos 0, tl) /\
    glob_all rb_globi (length h) (at_pos 0) h = Ok h' /\
    collect (length h') (at_pos 0) h' = Ok (vector_of false els).
Proof.
  destruct build_inv as (h & tl & HB & HL & I). exists h, tl.
  destruct (glob_all_inv n h 0 [] false [] I ltac:(lia)) as (h' & ids & att & HG & I').
  exists h'. rewrite HL. splits; auto. cbn [app skipn] in I'. rewrite <- (gi_out _ _ _ _ _ I').
  apply collect_chain.
  - pose proof (gi_chain _ _ _ _ _ I') as HC. unfold at_pos at 2 in HC. now rewrite Nat.ltb_irrefl in HC.
  - rewrite <- (length_seq (length h') 0). apply NoDup_incl_length; [apply (gi_nodup _ _ _ _ _ I')|].
    intros a Ha. apply in_seq. pose proof (gi_len _ _ _ _ _ I'). destruct (gi_ids _ _ _ _ _ I' a Ha); lia.
Qed.
End GlobLoop.

Lemma make_vector g cmdline els :
  cmdline <> [] -> split_line (length (rstrip cmdline)) (rstrip cmdline) true = Ok els ->
  VMSMakeCmdVector g cmdline true = Ok (vector_of g false els).
Proof.
  intros HN HS. unfold VMSMakeCmdVector. destruct cmdline as [|c s]; [contradiction|]. rewrite HS. cbn [bind].
  destruct (glob_vector g els) as (h & tl & h' & -> & HG & HC). rewrite HG. cbn [bind]. exact HC.
Qed.

Lemma vector_plain g l : vector_of g false (map (fun a => mkElement a false) l) = l /\
  vector_of g true (map (fun a => mkElement a false) l) = l.
Proof.
  induction l as [|a l [IH1 IH2]]; [now split|]. cbn [map vector_of]. unfold expand, matched. cbn [el_glob el_str andb negb orb app].
  now rewrite IH2.
Qed.

(** ** Properties *)

(** [getCommandLine] joins the arguments with spaces and puts quotes around
    those with a space, within the block it reallocates, unless an argument
    without a space comes after one with a space: [quote] is still set then, and
    the two quotes are written behind the end of the block. *)
Theorem getCommandLine_cases {libc : CLibrary} prog args : writes_in_order libc ->
  getCommandLine (prog :: args) =
    if gcl_safe false args then Ok (Some (prog ++ concat (map gcl_format args))) else Undefined.
Proof. intros Hc. unfold getCommandLine. rewrite gcl_loop_spec by auto. now destruct (gcl_safe false args). Qed.


(** A library that copies the first string, up to its NUL, character by
    character onto itself, and then goes on. *)
#[local] Instance character_by_character : CLibrary := {|
  sprintf_onto quote buf arg :=
    fold_left (fun out c => out ++ [c]) (if quote then [SPACE; DQUOTE] ++ arg ++ [DQUOTE] else [SPACE] ++ arg) buf
|}.

Lemma character_by_character_in_order : writes_in_order character_by_character.
Proof.
  assert (H : forall s buf : cstring, fold_left (fun out c => out ++ [c]) s buf = buf ++ s).
  { induction s as [|c s IH]; intros buf; cbn [fold_left]; [now rewrite app_nil_r|]. now rewrite IH, <- app_assoc. }
  intros [|] buf arg; apply H.
Qed.


(** the vector [VMSMakeCmdVector] builds through the doubly linked list:
    every element with a wild card that matches something is replaced by its
    matches, in place and in order, and the others stay; only in front of the
    first element that is not replaced are the matches lost, because
    [VMSCmdGlob] does not move the head of the list. *)
Theorem command_vector rb_globi cmdline els :
  cmdline <> [] -> split_line (length (rstrip cmdline)) (rstrip cmdline) true = Ok els ->
  VMSMakeCmdVector rb_globi cmdline true = Ok (vector_of rb_globi false els).
Proof. apply make_vector. Qed.

(** [*.c x *.c] with two matches. *)
Lemma command_vector_witness :
  VMSMakeCmdVector (fun _ => [[97]; [98]]) [42; 46; 99; 32; 120; 32; 42; 46; 99] true =
    Ok [[42; 46; 99]; [120]; [97]; [98]].
Proof.
  apply (command_vector (fun _ => [[97]; [98]]) [42; 46; 99; 32; 120; 32; 42; 46; 99]
    [mkElement [42; 46; 99] true; mkElement [120] false; mkElement [42; 46; 99] true]); [discriminate|reflexivity].
Defined.
