(* ===== verification/VmsSelect.v ===== *)
(** * [select] on OpenVMS

    src/ruby/vms.c [rb_vms_select]: [select] works on sockets only, so the
    descriptors are separated; anything that is not a socket counts as ready.
    The system's [select] and the socket test are parameters.  A descriptor
    set is a predicate on descriptors. *)

From Stdlib Require Import ZArith Lia List Bool.
From S2P Require Import Prelude CInt.
Import ListNotations.
Local Open Scope Z_scope.

Definition fd_set := Z -> bool.
Definition FD_ZERO : fd_set := fun _ => false.
Definition FD_SET (i : Z) (s : fd_set) : fd_set := fun j => (j =? i) || s j.
Definition FD_CLR (i : Z) (s : fd_set) : fd_set := fun j => negb (j =? i) && s j.

(** A pointer to a set; [None] is null. *)
Definition fd_ptr := option fd_set.
Definition FD_ISSET (i : Z) (p : fd_ptr) : bool := match p with Some s => s i | None => false end.

(** What happens through a pointer. *)
Definition on (f : fd_set -> fd_set) (p : fd_ptr) : fd_ptr := option_map f p.

Record sets := mkSets { rd : fd_ptr; wr : fd_ptr; ex : fd_ptr }.

Section Select.
Context {timeval : Type} (tv_zero : timeval).
Context (is_socket : Z -> bool).

(** [select(n, r, w, e, tv)]: the result and the sets it leaves. *)
Context (select : Z -> sets -> option timeval -> Z * sets).

(** The variables of the first loop: the caller's sets, the socket sets
    with their pointers, [maxsock], [socks], [nsocks]. *)
Record scan_state := mkScan {
  fds : sets; sockets : sets; maxsock : Z; socks : Z; nsocks : Z
}.

(** [FD_SET(i, (rp = &rs))]: the pointer is set by the first socket. *)
Definition add_to (i : Z) (p : fd_ptr) : fd_ptr :=
  Some (FD_SET i (match p with Some s => s | None => FD_ZERO end)).

Definition b2z (b : bool) : Z := if b then 1 else 0.

Definition scan_fd (i : Z) (st : scan_state) : scan_state :=
  let r := FD_ISSET i (rd (fds st)) in
  let w := FD_ISSET i (wr (fds st)) in
  let e := FD_ISSET i (ex (fds st)) in
  if negb r && negb w && negb e then st
  else if is_socket i then
    mkScan
      (mkSets (if r then on (FD_CLR i) (rd (fds st)) else rd (fds st))
              (if w then on (FD_CLR i) (wr (fds st)) else wr (fds st))
              (if e then on (FD_CLR i) (ex (fds st)) else ex (fds st)))
      (mkSets (if r then add_to i (rd (sockets st)) else rd (sockets st))
              (if w then add_to i (wr (sockets st)) else wr (sockets st))
              (if e then add_to i (ex (sockets st)) else ex (sockets st)))
      (i + 1) (socks st + 1) (nsocks st)
  else mkScan (fds st) (sockets st) (maxsock st) (socks st) (nsocks st + b2z r + b2z w + b2z e).

Fixpoint scan_fds (n : nat) (i : Z) (st : scan_state) : scan_state :=
  match n with
  | O => st
  | S n => scan_fds n (i + 1) (scan_fd i st)
  end.

(** [if (rfd) *rfd = rs;]: [rs] is the set the pointer names, or the zeroed
    local. *)
Definition store (p q : fd_ptr) : fd_ptr :=
  match p with
  | Some _ => Some (match q with Some s => s | None => FD_ZERO end)
  | None => None
  end.

(** [if (rp && FD_ISSET(i, rp)) FD_SET(i, rfd);] *)
Definition copy_bit (i : Z) (q p : fd_ptr) : fd_ptr := if FD_ISSET i q then on (FD_SET i) p else p.

Fixpoint copy_back (n : nat) (i : Z) (q p : fd_ptr) : fd_ptr :=
  match n with
  | O => p
  | S n => copy_back n (i + 1) q (copy_bit i q p)
  end.

Definition rb_vms_select (maxfd : Z) (s : sets) (tv : option timeval) : Z * sets :=
  let st0 := mkScan s (mkSets None None None) 0 0 0 in
  let st := match s with
            | mkSets None None None => st0
            | _ => scan_fds (Z.to_nat maxfd) 0 st0
            end in
  if nsocks st =? 0 then
    let '(ret, q) := select (maxsock st) (sockets st) tv in
    (ret, mkSets (store (rd (fds st)) (rd q)) (store (wr (fds st)) (wr q)) (store (ex (fds st)) (ex q)))
  else if socks st =? 0 then (nsocks st, fds st)
  else
    let '(ret, q) := select (maxsock st) (sockets st) (Some tv_zero) in
    if ret <=? 0 then (nsocks st, fds st)
    else
      let n := Z.to_nat (maxsock st) in
      (ret + nsocks st,
       mkSets (copy_back n 0 (rd q) (rd (fds st))) (copy_back n 0 (wr q) (wr (fds st)))
              (copy_back n 0 (ex q) (ex (fds st)))).
End Select.

(** ** Counting *)

(** Members of a set below [n]. *)
Fixpoint count (n : nat) (s : fd_set) : Z :=
  match n with
  | O => 0
  | S n => count n s + b2z (s (Z.of_nat n))
  end.

Definition count_ptr (n : nat) (p : fd_ptr) : Z := match p with Some s => count n s | None => 0 end.
Definition count_sets (n : nat) (s : sets) : Z := count_ptr n (rd s) + count_ptr n (wr s) + count_ptr n (ex s).

Definition mem (p : fd_ptr) (i : Z) : bool := FD_ISSET i p.
Definition subset (p q : fd_ptr) : Prop := forall i, mem p i = true -> mem q i = true.

Lemma count_ext n s t : (forall i, 0 <= i < Z.of_nat n -> s i = t i) -> count n s = count n t.
Proof.
  induction n as [|n IH]; intros H; cbn [count]; auto. rewrite IH, H by (intros; apply H || lia; lia).
  reflexivity.
Qed.

Lemma count_mem n p : count_ptr n p = count n (mem p).
Proof.
  destruct p as [s|]; cbn; auto. unfold mem. cbn. induction n as [|n IH]; cbn [count]; auto. rewrite <- IH. cbn. lia.
Qed.

Lemma count_split n s t u :
  (forall i, 0 <= i < Z.of_nat n -> b2z (s i) = b2z (t i) + b2z (u i)) -> count n s = count n t + count n u.
Proof.
  induction n as [|n IH]; intros H; cbn [count]; auto. rewrite IH by (intros; apply H; lia).
  rewrite (H (Z.of_nat n)) by lia. lia.
Qed.

Section SelectLemmas.
Context {timeval : Type} (tv_zero : timeval) (is_socket : Z -> bool).

(** What the loop makes of one of the three sets: [p] the caller's, [p']
    what is left of it, [q] the sockets moved. *)
Definition split_set (k : Z) (p p' q : fd_ptr) : Prop :=
  (forall i, mem p' i = mem p i && negb (is_socket i && (0 <=? i) && (i <? k))) /\
  (forall i, mem q i = mem p i && is_socket i && (0 <=? i) && (i <? k)) /\
  (p' = None <-> p = None).

Lemma mem_on_clr i p j : mem (on (FD_CLR i) p) j = negb (j =? i) && mem p j.
Proof. destruct p; cbn; auto. now rewrite andb_false_r. Qed.

Lemma mem_add_to i p j : mem (add_to i p) j = (j =? i) || mem p j.
Proof. destruct p; reflexivity. Qed.

Lemma split_set_step k p p' q :
  0 <= k -> split_set k p p' q ->
  split_set (k + 1) p
    (if mem p' k && is_socket k then on (FD_CLR k) p' else p')
    (if mem p' k && is_socket k then add_to k q else q).
Proof.
  intros Hk (H1 & H2 & H3).
  assert (Hpk : mem p' k = mem p k).
  { rewrite H1. replace (k <? k) with false by (symmetry; apply Z.ltb_irrefl). rewrite andb_false_r. apply andb_true_r. }
  rewrite Hpk. split; [|split].
  - intros i. destruct (mem p k && is_socket k) eqn:E; rewrite ?mem_on_clr, H1;
      destruct (Z.eqb_spec i k) as [->|Hne]; cbn [negb andb].
    + breflect. rewrite H, H0. cbn [andb]. replace (0 <=? k) with true by lia.
      now replace (k <? k + 1) with true by lia.
    + now replace (i <? k + 1) with (i <? k) by lia.
    + replace (0 <=? k) with true by lia. replace (k <? k) with false by lia. replace (k <? k + 1) with true by lia.
      destruct (mem p k), (is_socket k); auto; discriminate.
    + now replace (i <? k + 1) with (i <? k) by lia.
  - intros i. destruct (mem p k && is_socket k) eqn:E; rewrite ?mem_add_to, H2;
      destruct (Z.eqb_spec i k) as [->|Hne]; cbn [orb].
    + rewrite E. replace (0 <=? k) with true by lia. now replace (k <? k + 1) with true by lia.
    + now replace (i <? k + 1) with (i <? k) by lia.
    + rewrite E. reflexivity.
    + now replace (i <? k + 1) with (i <? k) by lia.
  - destruct (mem p k && is_socket k); auto. destruct p'; cbn; [|auto].
    split; [discriminate|]. intros HX. apply H3 in HX. discriminate.
Qed.

(** Ready descriptors that are not sockets. *)
Definition others (p : fd_ptr) : fd_set := fun i => mem p i && negb (is_socket i).

Definition other_count (n : nat) (s : sets) : Z :=
  count n (others (rd s)) + count n (others (wr s)) + count n (others (ex s)).

Definition scan_inv (s : sets) (k : Z) (st : scan_state) : Prop :=
  split_set k (rd s) (rd (fds st)) (rd (sockets st)) /\
  split_set k (wr s) (wr (fds st)) (wr (sockets st)) /\
  split_set k (ex s) (ex (fds st)) (ex (sockets st)) /\
  nsocks st = other_count (Z.to_nat k) s /\
  0 <= socks st /\ 0 <= maxsock st <= k /\
  (forall i, (mem (rd (sockets st)) i || mem (wr (sockets st)) i || mem (ex (sockets st)) i) = true ->
     i < maxsock st /\ 0 < socks st).

Lemma scan_fd_inv s k st : 0 <= k -> scan_inv s k st -> scan_inv s (k + 1) (scan_fd is_socket k st).
Proof.
  intros Hk (Hr & Hw & He & Hn & Hs & Hm & Hlt).
  pose proof (split_set_step k _ _ _ Hk Hr) as Sr. pose proof (split_set_step k _ _ _ Hk Hw) as Sw.
  pose proof (split_set_step k _ _ _ Hk He) as Se.
  assert (Hoc : other_count (Z.to_nat (k + 1)) s = other_count (Z.to_nat k) s +
    b2z (others (rd s) k) + b2z (others (wr s) k) + b2z (others (ex s) k)).
  { replace (Z.to_nat (k + 1)) with (S (Z.to_nat k)) by lia. unfold other_count. cbn [count].
    rewrite Z2Nat.id by lia. lia. }
  assert (Hmk : forall p p' q, split_set k p p' q -> mem p k = mem p' k /\ mem q k = false).
  { intros p p' q (H1 & H2 & _). rewrite H1, H2. replace (k <? k) with false by lia. rewrite !andb_false_r.
    cbn. now rewrite andb_true_r. }
  destruct (Hmk _ _ _ Hr) as [Mr _], (Hmk _ _ _ Hw) as [Mw _], (Hmk _ _ _ He) as [Me _].
  unfold others in Hoc. rewrite Mr, Mw, Me in Hoc.
  unfold scan_fd. fold (mem (rd (fds st)) k). fold (mem (wr (fds st)) k). fold (mem (ex (fds st)) k).
  destruct (mem (rd (fds st)) k) eqn:Er, (mem (wr (fds st)) k) eqn:Ew, (mem (ex (fds st)) k) eqn:Ee;
    cbn [negb andb] in *; destruct (is_socket k) eqn:Es; cbn [negb andb b2z] in *;
    unfold scan_inv; cbn [fds sockets maxsock socks nsocks rd wr ex];
    splits; auto; try lia; try tauto.
  all: intros i; rewrite ?mem_add_to, ?orb_true_iff, ?Z.eqb_eq; intros HX.
  all: assert (HY : i = k \/ (mem (rd (sockets st)) i || mem (wr (sockets st)) i || mem (ex (sockets st)) i) = true)
    by (rewrite !orb_true_iff; tauto).
  all: destruct HY as [->|HY]; [lia|apply Hlt in HY; lia].
Qed.

Lemma scan_fds_inv s n k st : 0 <= k -> scan_inv s k st -> scan_inv s (k + Z.of_nat n) (scan_fds is_socket n k st).
Proof.
  revert k st; induction n as [|n IH]; intros k st Hk H; cbn [scan_fds].
  - now replace (k + Z.of_nat 0) with k by lia.
  - replace (k + Z.of_nat (S n)) with (k + 1 + Z.of_nat n) by lia. apply IH; [lia|]. now apply scan_fd_inv.
Qed.

Lemma scan_inv_0 s : scan_inv s 0 (mkScan s (mkSets None None None) 0 0 0).
Proof.
  assert (H : forall p, split_set 0 p p None).
  { intros p. split; [|split; [|tauto]]; intros i.
    - replace (is_socket i && (0 <=? i) && (i <? 0)) with false; [now rewrite andb_true_r|].
      destruct (is_socket i); cbn [andb]; auto; lia.
    - cbn. symmetry. destruct (mem p i && is_socket i); cbn [andb]; auto. lia. }
  unfold scan_inv; cbn. splits; auto; try lia; try discriminate.
Qed.
End SelectLemmas.

(** ** The result *)

Section SelectSpec.
Context {timeval : Type} (tv_zero : timeval) (is_socket : Z -> bool).
Context (select : Z -> sets -> option timeval -> Z * sets).

(** What the system call promises when it does not fail: it keeps members
    of the sets it was given and returns their number. *)
Definition select_ok : Prop := forall n s tv, let '(ret, q) := select n s tv in
  0 <= ret ->
  subset (rd q) (rd s) /\ subset (wr q) (wr s) /\ subset (ex q) (ex s) /\ ret = count_sets (Z.to_nat n) q.

Lemma count_grow n m s : (n <= m)%nat -> (forall i, s i = true -> i < Z.of_nat n) -> count m s = count n s.
Proof.
  induction 1 as [|m Hm IH]; intros H; auto. cbn [count]. rewrite IH by auto.
  destruct (s (Z.of_nat m)) eqn:E; cbn [b2z]; [apply H in E; lia|lia].
Qed.

Lemma count_zero n s : (forall i, s i = false) -> count n s = 0.
Proof. intros H. induction n as [|n IH]; cbn [count]; auto. rewrite IH, H. reflexivity. Qed.

Lemma mem_store p q : (forall i, mem q i = true -> p <> None) -> forall i, mem (store p q) i = mem q i.
Proof.
  intros H i. destruct p as [s|]; cbn [store]; [now destruct q|].
  destruct (mem q i) eqn:E; [|reflexivity]. exfalso. now apply (H i E).
Qed.

Lemma mem_on_set i p j : mem (on (FD_SET i) p) j = match p with Some _ => (j =? i) | None => false end || mem p j.
Proof. now destruct p. Qed.

Lemma copy_back_none n i q p : copy_back n i q p = None <-> p = None.
Proof.
  revert i p; induction n as [|n IH]; intros i p; cbn [copy_back]; [tauto|]. rewrite IH.
  unfold copy_bit. destruct (FD_ISSET i q); [|tauto]. destruct p; cbn; split; congruence.
Qed.

Lemma mem_copy_back n k q p i :
  (forall i, mem q i = true -> p <> None) ->
  mem (copy_back n k q p) i = mem p i || (mem q i && (k <=? i) && (i <? k + Z.of_nat n)).
Proof.
  revert k p; induction n as [|n IH]; intros k p H; cbn [copy_back].
  - replace ((mem q i && (k <=? i)) && (i <? k + Z.of_nat 0)) with false; [now rewrite orb_false_r|].
    symmetry. destruct (mem q i); cbn [andb]; auto.
    destruct (Z.leb_spec k i), (Z.ltb_spec i (k + Z.of_nat 0)); auto; lia.
  - rewrite IH.
    + unfold copy_bit. fold (mem q k). destruct (mem q k) eqn:E.
      * rewrite mem_on_set. destruct p as [s|]; [|exfalso; now apply (H k E)].
        destruct (Z.eqb_spec i k) as [->|Hne]; cbn [orb].
        -- rewrite E. replace (k <=? k) with true by lia. replace (k <? k + Z.of_nat (S n)) with true by (symmetry; apply Z.ltb_lt; lia).
           now rewrite orb_true_r.
        -- f_equal. destruct (mem q i); cbn [andb]; auto.
           replace (k + 1 + Z.of_nat n) with (k + Z.of_nat (S n)) by lia. f_equal.
           destruct (Z.leb_spec k i), (Z.leb_spec (k + 1) i); auto; lia.
      * f_equal. destruct (Z.eqb_spec i k) as [->|Hne]; [now rewrite E|]. destruct (mem q i); cbn [andb]; auto.
        replace (k + 1 + Z.of_nat n) with (k + Z.of_nat (S n)) by lia. f_equal.
        destruct (Z.leb_spec k i), (Z.leb_spec (k + 1) i); auto; lia.
    + intros j Hj. unfold copy_bit. destruct (FD_ISSET k q); [|eauto].
      pose proof (H j Hj). destruct p; cbn; [discriminate|auto].
Qed.

(** Counting what is left and what the system call found. *)
Lemma count_left n p p' q q' :
  split_set is_socket (Z.of_nat n) p p' q -> subset q' q ->
  count n (fun i => mem p' i || mem q' i) = count n (others is_socket p) + count n (mem q').
Proof.
  intros (H1 & H2 & _) HS. apply count_split. intros i Hi. unfold others. rewrite H1.
  replace (0 <=? i) with true by lia. replace (i <? Z.of_nat n) with true by lia. rewrite !andb_true_r.
  destruct (mem q' i) eqn:E.
  - apply HS in E. rewrite H2 in E. breflect. rewrite H, H4. reflexivity.
  - rewrite orb_false_r. now destruct (mem p i && negb (is_socket i)).
Qed.

Lemma split_others n p p' q :
  split_set is_socket (Z.of_nat n) p p' q -> count n (mem p') = count n (others is_socket p).
Proof.
  intros (H1 & _). apply count_ext. intros i Hi. unfold others. rewrite H1.
  replace (0 <=? i) with true by lia. replace (i <? Z.of_nat n) with true by lia. now rewrite !andb_true_r.
Qed.

(** The variables after the first loop. *)
Definition after_scan (maxfd : Z) (s : sets) : scan_state :=
  let st0 := mkScan s (mkSets None None None) 0 0 0 in
  match s with
  | mkSets None None None => st0
  | _ => scan_fds is_socket (Z.to_nat maxfd) 0 st0
  end.

Lemma after_scan_inv maxfd s : 0 <= maxfd -> scan_inv is_socket s maxfd (after_scan maxfd s).
Proof.
  intros Hm. assert (HS : scan_inv is_socket s maxfd
    (scan_fds is_socket (Z.to_nat maxfd) 0 (mkScan s (mkSets None None None) 0 0 0))).
  { pose proof (scan_fds_inv is_socket s (Z.to_nat maxfd) 0 _ ltac:(lia) (scan_inv_0 is_socket s)) as HX.
    rewrite Z2Nat.id in HX by lia. exact HX. }
  destruct s as [[r|] [w|] [e|]]; try exact HS. unfold after_scan, scan_inv; cbn.
  assert (H0 : split_set is_socket maxfd None None None) by (split; [|split]; cbn; auto; tauto).
  splits; auto; try lia; try discriminate. unfold other_count. cbn.
  rewrite count_zero by reflexivity. reflexivity.
Qed.

(** A descriptor of a returned set was asked for. *)
Definition kept (s s' : sets) : Prop :=
  subset (rd s') (rd s) /\ subset (wr s') (wr s) /\ subset (ex s') (ex s).

(** Descriptors that are not sockets are all ready. *)
Definition others_ready (n : Z) (p p' : fd_ptr) : Prop :=
  forall i, 0 <= i < n -> mem p i = true -> is_socket i = false -> mem p' i = true.

Definition select_result (maxfd : Z) (s : sets) (ret : Z) (s' : sets) : Prop :=
  ret = count_sets (Z.to_nat maxfd) s' /\ kept s s' /\
  others_ready maxfd (rd s) (rd s') /\ others_ready maxfd (wr s) (wr s') /\ others_ready maxfd (ex s) (ex s').

Lemma split_subset k p p' q : split_set is_socket k p p' q -> subset p' p /\ subset q p.
Proof.
  intros (H1 & H2 & _). split; intros i; rewrite ?H1, ?H2; intros H; breflect; auto.
Qed.

Lemma split_ready k p p' q : split_set is_socket k p p' q -> others_ready k p p'.
Proof. intros (H1 & _) i Hi Hm Hs. rewrite H1, Hm, Hs. reflexivity. Qed.

Lemma split_nonnull k p p' q q' : split_set is_socket k p p' q -> subset q' q -> forall i, mem q' i = true -> p' <> None.
Proof.
  intros HS HQ i Hi HN. destruct (split_subset k p p' q HS) as [_ H]. apply HQ, H in Hi.
  destruct HS as (_ & _ & H3). apply H3 in HN. rewrite HN in Hi. discriminate.
Qed.

Lemma count_nonneg m s : 0 <= count m s.
Proof. induction m as [|m IH]; cbn [count]; [lia|]. destruct (s (Z.of_nat m)); cbn [b2z]; lia. Qed.

Lemma count_zero_inv m s : count m s = 0 -> forall i, 0 <= i < Z.of_nat m -> s i = false.
Proof.
  induction m as [|m IH]; cbn [count]; intros H i Hi; [lia|]. pose proof (count_nonneg m s).
  destruct (Z.eq_dec i (Z.of_nat m)) as [->|].
  - destruct (s (Z.of_nat m)); cbn [b2z] in H; auto; lia.
  - apply IH; [destruct (s (Z.of_nat m)); cbn [b2z] in H; lia|lia].
Qed.

(** One of the three sets. *)
Section OneSet.
Context (n m : nat) (p p' q q' : fd_ptr).
Context (HS : split_set is_socket (Z.of_nat n) p p' q) (HQ : subset q' q).
Context (Hm : (m <= n)%nat) (Hb : forall i, mem q i = true -> i < Z.of_nat m).

Lemma found_count : count n (mem q') = count_ptr m q'.
Proof. rewrite count_mem. apply count_grow; auto. Qed.

Definition one_ok (p2 : fd_ptr) : Prop := subset p2 p /\ others_ready (Z.of_nat n) p p2.

(** Only sockets were asked for. *)
Lemma stored_ok :
  count n (others is_socket p) = 0 ->
  one_ok (store p' q') /\ count_ptr n (store p' q') = count_ptr m q'.
Proof.
  intros H0. pose proof (mem_store p' q' (split_nonnull _ _ _ _ _ HS HQ)) as HM. split; [split|].
  - intros i Hi. rewrite HM in Hi. apply (proj2 (split_subset _ _ _ _ HS)), HQ, Hi.
  - intros i Hi Hp Hs. pose proof (count_zero_inv _ _ H0 i Hi) as HX. unfold others in HX.
    rewrite Hp, Hs in HX. discriminate.
  - rewrite <- found_count, count_mem. apply count_ext. intros i _. apply HM.
Qed.

Lemma copied_ok :
  one_ok (copy_back m 0 q' p') /\
  count_ptr n (copy_back m 0 q' p') = count n (others is_socket p) + count_ptr m q'.
Proof.
  pose proof (fun i => mem_copy_back m 0 q' p' i (split_nonnull _ _ _ _ _ HS HQ)) as HM.
  assert (HM' : forall i, mem (copy_back m 0 q' p') i = mem p' i || mem q' i).
  { intros i. rewrite HM. f_equal. destruct (mem q' i) eqn:E; auto. pose proof (HQ i E) as HX.
    pose proof (Hb i HX). destruct HS as (_ & H2 & _). rewrite H2 in HX. breflect.
    replace (0 <=? i) with true by lia. cbn [andb]. lia. }
  split; [split|].
  - intros i Hi. rewrite HM' in Hi. destruct (split_subset _ _ _ _ HS) as [H1 H2].
    apply orb_prop in Hi as [Hi|Hi]; auto.
  - intros i Hi Hp Hs. rewrite HM'. now rewrite (split_ready _ _ _ _ HS i Hi Hp Hs).
  - rewrite count_mem, <- found_count, <- (count_left n p p' q q' HS HQ). apply count_ext. intros; apply HM'.
Qed.

Lemma left_ok : one_ok p' /\ count_ptr n p' = count n (others is_socket p).
Proof.
  split; [split|].
  - apply (split_subset _ _ _ _ HS).
  - apply (split_ready _ _ _ _ HS).
  - rewrite count_mem. now apply (split_others n p p' q).
Qed.
End OneSet.

Lemma rb_vms_select_ok maxfd s tv :
  select_ok -> 0 <= maxfd ->
  let '(ret, s') := rb_vms_select tv_zero is_socket select maxfd s tv in
  0 <= ret -> select_result maxfd s ret s'.
Proof.
  intros HSel Hm. unfold rb_vms_select. fold (after_scan maxfd s).
  pose proof (after_scan_inv maxfd s Hm) as (Sr & Sw & Se & Hn & Hs & Hms & Hlt).
  set (st := after_scan maxfd s) in *. clearbody st. unfold select_result, kept, count_sets.
  set (n := Z.to_nat maxfd) in *. replace maxfd with (Z.of_nat n) in Sr, Sw, Se |- * by lia.
  set (m := Z.to_nat (maxsock st)). assert (Hmn : (m <= n)%nat) by lia.
  assert (Bs : forall i, (mem (rd (sockets st)) i = true -> i < Z.of_nat m) /\
    (mem (wr (sockets st)) i = true -> i < Z.of_nat m) /\ (mem (ex (sockets st)) i = true -> i < Z.of_nat m)).
  { intros i. unfold m. rewrite Z2Nat.id by lia. splits; intros HX; apply Hlt; rewrite HX, ?orb_true_r; auto. }
  assert (HR : 0 <= nsocks st -> nsocks st = count_ptr n (rd (fds st)) + count_ptr n (wr (fds st)) + count_ptr n (ex (fds st)) /\
    kept s (fds st) /\ others_ready (Z.of_nat n) (rd s) (rd (fds st)) /\
    others_ready (Z.of_nat n) (wr s) (wr (fds st)) /\ others_ready (Z.of_nat n) (ex s) (ex (fds st))).
  { intros _. destruct (left_ok n _ _ _ Sr) as [[A1 A2] A3], (left_ok n _ _ _ Sw) as [[B1 B2] B3],
      (left_ok n _ _ _ Se) as [[C1 C2] C3]. unfold kept. splits; auto. unfold other_count in Hn. lia. }
  unfold kept in HR.
  pose proof (count_nonneg n (others is_socket (rd s))). pose proof (count_nonneg n (others is_socket (wr s))).
  pose proof (count_nonneg n (others is_socket (ex s))). unfold other_count in Hn.
  destruct (nsocks st =? 0) eqn:E0; [|destruct (socks st =? 0) eqn:E1; [exact HR|]]; breflect.
  - specialize (HSel (maxsock st) (sockets st) tv). destruct (select (maxsock st) (sockets st) tv) as [ret q].
    intros Hret. destruct (HSel Hret) as (Q1 & Q2 & Q3 & HE). unfold count_sets in HE. fold m in HE. cbn [rd wr ex].
    destruct (stored_ok n m _ _ _ _ Sr Q1 Hmn ltac:(intros i; apply Bs) ltac:(lia)) as [[A1 A2] A3].
    destruct (stored_ok n m _ _ _ _ Sw Q2 Hmn ltac:(intros i; apply Bs) ltac:(lia)) as [[B1 B2] B3].
    destruct (stored_ok n m _ _ _ _ Se Q3 Hmn ltac:(intros i; apply Bs) ltac:(lia)) as [[C1 C2] C3].
    splits; auto. lia.
  - specialize (HSel (maxsock st) (sockets st) (Some tv_zero)).
    destruct (select (maxsock st) (sockets st) (Some tv_zero)) as [ret q].
    destruct (ret <=? 0) eqn:E2; [exact HR|]. breflect. intros Hret.
    destruct (HSel ltac:(lia)) as (Q1 & Q2 & Q3 & HE). unfold count_sets in HE. fold m in HE. cbn [rd wr ex].
    destruct (copied_ok n m _ _ _ _ Sr Q1 Hmn ltac:(intros i; apply Bs)) as [[A1 A2] A3].
    destruct (copied_ok n m _ _ _ _ Sw Q2 Hmn ltac:(intros i; apply Bs)) as [[B1 B2] B3].
    destruct (copied_ok n m _ _ _ _ Se Q3 Hmn ltac:(intros i; apply Bs)) as [[C1 C2] C3].
    fold m. splits; auto. lia.
Qed.
End SelectSpec.

(** ** Properties *)

(** For a system [select] that keeps members of its sets and counts them,
    [rb_vms_select] returns the number of descriptors in the sets it leaves, these
    are descriptors the caller asked for, and every one that is not a socket is
    among them. *)
Theorem vms_select_counts {timeval : Type} (tv_zero : timeval) is_socket
    (select : Z -> sets -> option timeval -> Z * sets) maxfd s tv :
  select_ok select -> 0 <= maxfd ->
  let '(ret, s') := rb_vms_select tv_zero is_socket select maxfd s tv in
  0 <= ret -> select_result is_socket maxfd s ret s'.
Proof. apply rb_vms_select_ok. Qed.

(** A system call for which every socket is ready. *)
Definition all_ready (n : Z) (s : sets) (tv : option Z) : Z * sets := (count_sets (Z.to_nat n) s, s).

Lemma vms_select_counts_witness :
  let '(ret, s') := rb_vms_select 0 (fun i => i =? 3) all_ready 5
    (mkSets (Some (FD_SET 1 (FD_SET 3 FD_ZERO))) None None) None in
  0 <= ret -> select_result (fun i => i =? 3) 5
    (mkSets (Some (FD_SET 1 (FD_SET 3 FD_ZERO))) None None) ret s'.
Proof.
  apply (vms_select_counts 0 (fun i => i =? 3) all_ready 5
    (mkSets (Some (FD_SET 1 (FD_SET 3 FD_ZERO))) None None) None); [|lia].
  intros n s tv _. cbn. unfold subset. auto.
Defined.
