(* ===== verification/Digest.v ===== *)
(** * The digest framework

    src/ruby/ext/digest/digest.c drives the hash functions through a table of
    function pointers, [rb_digest_metadata_t]; the class of that name is this
    table and [DigestLaws] what the framework expects of an implementation.
    The first part of the file has what the implementations share: copies
    into fixed buffers, words in memory, buffers that collect a message in
    blocks of any size, circular message schedules, and the reference notion of
    a message cut into blocks and padded. *)

From Stdlib Require Import ZArith Lia List Bool.
From S2P Require Import Prelude CInt.
Import ListNotations.
Local Open Scope Z_scope.
Local Open Scope outcome_scope.

(** ** Memory *)

(** [memcpy(dst + off, src, length src)], [dst] being an array of a fixed
    size. *)
Definition memcpy (dst : list Z) (off : nat) (src : list Z) : outcome (list Z) :=
  if (off + length src <=? length dst)%nat
  then Ok (firstn off dst ++ src ++ skipn (off + length src) dst)
  else Undefined.

(** The [i]-th 32-bit word at [p] on a little-endian machine; the elements of
    a [uint8_t] array are read as bytes. *)
Definition word (p : list Z) (i : nat) : Z :=
  let b k := u8 (nth (4 * i + k) p 0) in
  b 0%nat + 256 * b 1%nat + 65536 * b 2%nat + 16777216 * b 3%nat.

(** Operators of [uint32_t]. *)
Definition add32 (x y : Z) : Z := u32 (x + y).
Definition not32 (x : Z) : Z := u32 (Z.lnot x).
Definition rol32 (x n : Z) : Z := Z.lor (u32 (Z.shiftl x n)) (Z.shiftr x (32 - n)).

Lemma add32_comm x y : add32 x y = add32 y x.
Proof. unfold add32. now rewrite Z.add_comm. Qed.
Lemma add32_assoc x y z : add32 (add32 x y) z = add32 x (add32 y z).
Proof.
  unfold add32, u32. rewrite Zplus_mod_idemp_l, Zplus_mod_idemp_r. f_equal. lia.
Qed.
Lemma add32_swap x y z : add32 x (add32 y z) = add32 y (add32 x z).
Proof. now rewrite <- !add32_assoc, (add32_comm x). Qed.

Lemma memcpy_ok dst off src :
  (off + length src <= length dst)%nat ->
  memcpy dst off src = Ok (firstn off dst ++ src ++ skipn (off + length src) dst).
Proof. intros H. unfold memcpy. now rewrite (proj2 (Nat.leb_le _ _) H). Qed.

(** What a copy leaves in the buffer: the old bytes before it, then the
    copied ones. *)
Lemma memcpy_prefix dst off src :
  (off + length src <= length dst)%nat ->
  exists dst', memcpy dst off src = Ok dst' /\ length dst' = length dst /\
    firstn (off + length src) dst' = firstn off dst ++ src.
Proof.
  intros H. eexists. split; [now apply memcpy_ok|]. split.
  - rewrite !length_app, length_firstn, length_skipn. lia.
  - rewrite app_assoc, firstn_app, firstn_all2, length_app, length_firstn.
    + replace (off + length src - _)%nat with 0%nat by lia. now rewrite firstn_O, app_nil_r.
    + rewrite length_app, length_firstn. lia.
Qed.

(** ** Messages in blocks *)

Section Blocks.
Context {S : Type} (compress : S -> list Z -> S) (B : nat).

(** The first [n] blocks of [m] folded into the state. *)
Fixpoint absorb (n : nat) (s : S) (m : list Z) : S :=
  match n with
  | O => s
  | Datatypes.S n' => absorb n' (compress s (firstn B m)) (skipn B m)
  end.

Definition blocks (m : list Z) : nat := length m / B.

(** The state after all full blocks of a message, and the bytes behind
    them. *)
Definition chain (s : S) (m : list Z) : S := absorb (blocks m) s m.
Definition rest (m : list Z) : list Z := skipn (B * blocks m) m.

(** The loop [for (; left >= B; p += B, left -= B) compress(p)]. *)
Fixpoint full_blocks (fuel : nat) (s : S) (p : list Z) : S * list Z :=
  match fuel with
  | O => (s, p)
  | Datatypes.S fuel' =>
      if (B <=? length p)%nat then full_blocks fuel' (compress s (firstn B p)) (skipn B p)
      else (s, p)
  end.

Hypothesis B_pos : (0 < B)%nat.

Lemma blocks_small m : (length m < B)%nat -> blocks m = O.
Proof. intros H. unfold blocks. now apply Nat.div_small. Qed.

Lemma blocks_step m : (B <= length m)%nat -> blocks m = Datatypes.S (blocks (skipn B m)).
Proof.
  intros H. unfold blocks. rewrite length_skipn.
  replace (length m) with (length m - B + 1 * B)%nat at 1 by lia.
  rewrite Nat.div_add by lia. lia.
Qed.

Lemma rest_length m : length (rest m) = (length m mod B)%nat.
Proof.
  unfold rest, blocks. rewrite length_skipn. pose proof (Nat.div_mod (length m) B ltac:(lia)). lia.
Qed.

Lemma rest_small m : (length m < B)%nat -> rest m = m.
Proof. intros H. unfold rest. rewrite (blocks_small m H), Nat.mul_0_r. reflexivity. Qed.

Lemma chain_small s m : (length m < B)%nat -> chain s m = s.
Proof. intros H. unfold chain. now rewrite (blocks_small m H). Qed.

Lemma chain_step s m : (B <= length m)%nat -> chain s m = chain (compress s (firstn B m)) (skipn B m).
Proof. intros H. unfold chain. rewrite (blocks_step m H). reflexivity. Qed.

Lemma rest_step m : (B <= length m)%nat -> rest m = rest (skipn B m).
Proof.
  intros H. unfold rest. rewrite (blocks_step m H), skipn_skipn. f_equal. lia.
Qed.

(** Blocks are taken from the front, so what follows a message only meets
    its rest. *)
Lemma chain_rest_app m s d :
  chain s (m ++ d) = chain (chain s m) (rest m ++ d) /\ rest (m ++ d) = rest (rest m ++ d).
Proof.
  remember (length m) as n eqn:En. revert m s En.
  induction n as [n IH] using lt_wf_ind; intros m s En.
  destruct (Nat.ltb_spec n B) as [Hs|Hl].
  - rewrite (chain_small s m), (rest_small m) by lia. auto.
  - rewrite (chain_step s (m ++ d)), (rest_step (m ++ d)) by (rewrite length_app; lia).
    rewrite (chain_step s m), (rest_step m) by lia.
    rewrite firstn_app, skipn_app. replace (B - length m)%nat with 0%nat by lia.
    rewrite firstn_O, skipn_O, app_nil_r.
    apply (IH (length (skipn B m))); rewrite length_skipn; lia.
Qed.

(** An update that does not fill the block buffer. *)
Lemma absorb_partial m s d :
  (length (rest m) + length d < B)%nat ->
  chain s (m ++ d) = chain s m /\ rest (m ++ d) = rest m ++ d.
Proof.
  intros H. destruct (chain_rest_app m s d) as [-> ->].
  rewrite chain_small, rest_small by (rewrite length_app; lia). auto.
Qed.

(** An update that fills it: the block completed with the first bytes of
    the data, then the blocks of the rest of the data. *)
Lemma absorb_full m s d :
  (B <= length (rest m) + length d)%nat ->
  let k := (B - length (rest m))%nat in
  chain s (m ++ d) = chain (compress (chain s m) (rest m ++ firstn k d)) (skipn k d) /\
  rest (m ++ d) = rest (skipn k d).
Proof.
  intros H k. destruct (chain_rest_app m s d) as [-> ->].
  assert (Hr : (length (rest m) < B)%nat) by (rewrite rest_length; apply Nat.mod_upper_bound; lia).
  assert (Hl : (B <= length (rest m ++ d))%nat) by (rewrite length_app; lia).
  rewrite (chain_step _ _ Hl), (rest_step _ Hl), firstn_app, skipn_app.
  rewrite (firstn_all2 (rest m)), (skipn_all2 (rest m)) by lia. auto.
Qed.

Lemma full_blocks_spec fuel s p :
  (length p <= fuel)%nat -> full_blocks fuel s p = (chain s p, rest p).
Proof.
  revert s p. induction fuel as [|fuel IH]; intros s p H; cbn [full_blocks].
  - rewrite chain_small, rest_small by lia. reflexivity.
  - destruct (Nat.leb_spec B (length p)).
    + rewrite IH by (rewrite length_skipn; lia).
      now rewrite (chain_step s p), (rest_step p).
    + now rewrite chain_small, rest_small.
Qed.
End Blocks.

(** [n] bytes of an integer, least significant first. *)
Fixpoint le_bytes (n : nat) (z : Z) : list Z :=
  match n with
  | O => []
  | S n' => z mod 256 :: le_bytes n' (z / 256)
  end.

Lemma le_bytes_length n z : length (le_bytes n z) = n.
Proof. revert z. induction n; intros z; cbn; auto. Qed.

Lemma le_bytes_byte n z : Forall byte (le_bytes n z).
Proof. revert z; induction n as [|n IH]; intros z; cbn; constructor; auto. apply Z.mod_pos_bound. lia. Qed.

Lemma le_val_le_bytes n z : le_val (le_bytes n z) = z mod 256 ^ Z.of_nat n.
Proof.
  revert z; induction n as [|n IH]; intros z; cbn [le_bytes le_val]; [now rewrite Z.mod_1_r|].
  rewrite IH, Nat2Z.inj_succ, Z.pow_succ_r, Z.rem_mul_r by lia. reflexivity.
Qed.

Lemma le_bytes_le_val bs : Forall byte bs -> le_bytes (length bs) (le_val bs) = bs.
Proof.
  induction 1 as [|b bs Hb H IH]; cbn [length le_val le_bytes]; [reflexivity|]. unfold byte in Hb.
  rewrite (Z.mul_comm 256), Z.mod_add, Z.div_add, (Z.mod_small b), (Z.div_small b), Z.add_0_l, IH by lia. reflexivity.
Qed.

(** FIPS 180: the length and the words are stored high byte first. *)
Definition be_bytes (n : nat) (z : Z) : list Z := rev (le_bytes n z).

(** The padding of MD4-style hashes: a one bit, zeros up to 56 bytes modulo
    64, and the length in bits in 8 bytes. *)
Definition pad_zeros (len : nat) : nat := Z.to_nat ((55 - Z.of_nat len) mod 64).
Definition bit_length (m : list Z) : Z := 8 * Z.of_nat (length m).
Definition padded (enc : Z -> list Z) (m : list Z) : list Z :=
  m ++ (128 :: repeat 0 (pad_zeros (length m))) ++ enc (bit_length m).

Lemma padded_length enc m :
  length (enc (bit_length m)) = 8%nat -> (length (padded enc m) mod 64 = 0)%nat.
Proof.
  intros H. unfold padded. rewrite !length_app. cbn [length]. rewrite repeat_length, H.
  unfold pad_zeros. apply Nat2Z.inj. rewrite Nat2Z.inj_mod. rewrite !Nat2Z.inj_add, Nat2Z.inj_succ.
  rewrite Z2Nat.id by (apply Z.mod_pos_bound; lia). cbn [Z.of_nat Pos.of_succ_nat Pos.succ].
  set (n := Z.of_nat (length m)). pose proof (Z.div_mod (55 - n) 64 ltac:(lia)).
  replace (n + (Z.succ ((55 - n) mod 64) + 8)) with ((1 - (55 - n) / 64) * 64) by lia.
  apply Z.mod_mul. lia.
Qed.

(** ** Encodings of a digest *)

Definition hex : list Z := [48; 49; 50; 51; 52; 53; 54; 55; 56; 57; 97; 98; 99; 100; 101; 102].

Definition hexencode_str_new (digest : list Z) : outcome (list Z) :=
  if LONG_MAX / 2 <? Z.of_nat (length digest) then Raise RuntimeError
  else Ok (flat_map (fun b => let byte := u8 b in
    [nth (Z.to_nat (Z.shiftr byte 4)) hex 0; nth (Z.to_nat (Z.land byte 15)) hex 0]) digest).

(** ** The framework *)

(** [rb_digest_metadata_t].  [init_func] overwrites fields of a context that
    is already allocated, so it has a context to start from; [finish_func]
    returns the bytes it writes at its second argument. *)
Class rb_digest_metadata := {
  CTX : Type;
  digest_len : Z;
  block_len : Z;
  init_func : CTX -> CTX;
  update_func : CTX -> list Z -> outcome CTX;
  finish_func : CTX -> outcome (list Z * CTX)
}.

Section Base.
Context {algo : rb_digest_metadata}.

(** [xmalloc] leaves the contents [pctx] of the new block unspecified. *)
Definition rb_digest_base_alloc (pctx : CTX) : CTX := init_func pctx.

(** [memcpy(pctx2, pctx1, algo->ctx_size)]: the whole context. *)
Definition rb_digest_base_copy (copy obj : CTX) : CTX := obj.

Definition rb_digest_base_reset (self : CTX) : CTX := init_func self.

Definition rb_digest_base_update (self : CTX) (str : list Z) : outcome CTX := update_func self str.

(** The string of [digest_len] bytes has to be filled exactly. *)
Definition rb_digest_base_finish (self : CTX) : outcome (list Z * CTX) :=
  '(str, pctx) <- finish_func self ;;
  if Z.of_nat (length str) =? digest_len then Ok (str, init_func pctx) else Undefined.

(** [rb_obj_clone]: a new object of the class, then [initialize_copy]. *)
Definition clone (pctx self : CTX) : CTX := rb_digest_base_copy (rb_digest_base_alloc pctx) self.

Definition rb_digest_instance_new (pctx self : CTX) : CTX := rb_digest_base_reset (clone pctx self).

Definition rb_digest_instance_digest (pctx : CTX) (arg : option (list Z)) (self : CTX) :
    outcome (list Z * CTX) :=
  match arg with
  | Some str =>
      self1 <- rb_digest_base_update (rb_digest_base_reset self) str ;;
      '(value, self2) <- rb_digest_base_finish self1 ;;
      Ok (value, rb_digest_base_reset self2)
  | None =>
      '(value, _) <- rb_digest_base_finish (clone pctx self) ;;
      Ok (value, self)
  end.

Definition rb_digest_instance_digest_bang (self : CTX) : outcome (list Z * CTX) :=
  '(value, self') <- rb_digest_base_finish self ;;
  Ok (value, rb_digest_base_reset self').

Definition rb_digest_instance_hexdigest (pctx : CTX) (arg : option (list Z)) (self : CTX) :
    outcome (list Z * CTX) :=
  match arg with
  | Some str =>
      self1 <- rb_digest_base_update (rb_digest_base_reset self) str ;;
      '(value, self2) <- rb_digest_base_finish self1 ;;
      let self3 := rb_digest_base_reset self2 in
      h <- hexencode_str_new value ;; Ok (h, self3)
  | None =>
      '(value, _) <- rb_digest_base_finish (clone pctx self) ;;
      h <- hexencode_str_new value ;; Ok (h, self)
  end.

Definition rb_digest_instance_hexdigest_bang (self : CTX) : outcome (list Z * CTX) :=
  '(value, self') <- rb_digest_base_finish self ;;
  let self'' := rb_digest_base_reset self' in
  h <- hexencode_str_new value ;; Ok (h, self'').

Definition rb_digest_instance_to_s (pctx self : CTX) : outcome (list Z) :=
  '(h, _) <- rb_digest_instance_hexdigest pctx None self ;; Ok h.

(** Of the class [Digest::Instance]; [Digest::Base] answers from the
    table. *)
Definition rb_digest_instance_digest_length (pctx self : CTX) : outcome Z :=
  '(digest, _) <- rb_digest_instance_digest pctx None self ;; Ok (Z.of_nat (length digest)).
Definition rb_digest_base_digest_length : Z := digest_len.

(** The arguments after the string go to [initialize]. *)
Definition rb_digest_class_s_digest (pctx : CTX) (argv : list (list Z)) : outcome (list Z) :=
  match argv with
  | [] => Raise ArgumentError
  | str :: _ =>
      '(value, _) <- rb_digest_instance_digest pctx (Some str) (rb_digest_base_alloc pctx) ;;
      Ok value
  end.

Definition rb_digest_class_s_hexdigest (pctx : CTX) (argv : list (list Z)) : outcome (list Z) :=
  d <- rb_digest_class_s_digest pctx argv ;; hexencode_str_new d.
End Base.

Definition str_eq (a b : list Z) : bool := if list_eq_dec Z.eq_dec a b then true else false.

(** [other] is another digest object or a string. *)
Definition rb_digest_instance_equal {A B : rb_digest_metadata} (pctxA : @CTX A) (pctxB : @CTX B)
    (self : @CTX A) (other : @CTX B + list Z) : outcome bool :=
  match other with
  | inl obj =>
      '(str1, _) <- rb_digest_instance_digest pctxA None self ;;
      '(str2, _) <- rb_digest_instance_digest pctxB None obj ;;
      Ok (str_eq str1 str2)
  | inr str2 => str1 <- rb_digest_instance_to_s pctxA self ;; Ok (str_eq str1 str2)
  end.

(** ** What the framework expects of an algorithm *)

(** An algorithm computes a function [hash] of the message that was fed to
    the context: [rep c m] says that [c] stands for the message [m].  An
    update takes at most [max_chunk] bytes at a time. *)
Class DigestLaws (algo : rb_digest_metadata) := {
  shape : CTX -> Prop;
  rep : CTX -> list Z -> Prop;
  hash : list Z -> list Z;
  max_chunk : Z;
  rep_init c : shape c -> rep (init_func c) [];
  rep_update c m d :
    rep c m -> Z.of_nat (length d) < max_chunk -> exists c', update_func c d = Ok c' /\ rep c' (m ++ d);
  rep_finish c m : rep c m -> exists c', finish_func c = Ok (hash m, c') /\ shape c';
  rep_shape c m : rep c m -> shape c;
  hash_length m : Z.of_nat (length (hash m)) = digest_len;
  digest_len_bound : 0 <= digest_len <= LONG_MAX / 2
}.

(** A digest object seen from outside is the message it has received. *)
Inductive call :=
  | Update (str : list Z)
  | Reset
  | Digest (arg : option (list Z))
  | DigestBang
  | Hexdigest (arg : option (list Z))
  | HexdigestBang.

Definition hexstring (d : list Z) : list Z :=
  flat_map (fun b => [nth (Z.to_nat (u8 b / 16)) hex 0; nth (Z.to_nat (u8 b mod 16)) hex 0]) d.

Section Object.
Context {algo : rb_digest_metadata} {laws : DigestLaws algo}.

(** One method call on the object, with the string it returns. *)
Definition perform (pctx : CTX) (c : call) (self : CTX) : outcome (list Z * CTX) :=
  match c with
  | Update str => self' <- rb_digest_base_update self str ;; Ok ([], self')
  | Reset => Ok ([], rb_digest_base_reset self)
  | Digest arg => rb_digest_instance_digest pctx arg self
  | DigestBang => rb_digest_instance_digest_bang self
  | Hexdigest arg => rb_digest_instance_hexdigest pctx arg self
  | HexdigestBang => rb_digest_instance_hexdigest_bang self
  end.

Fixpoint perform_all (pctx : CTX) (cs : list call) (self : CTX) : outcome (list (list Z) * CTX) :=
  match cs with
  | [] => Ok ([], self)
  | c :: cs' =>
      '(r, self') <- perform pctx c self ;;
      '(rs, self'') <- perform_all pctx cs' self' ;;
      Ok (r :: rs, self'')
  end.

(** The same calls on the message. *)
Definition answer (c : call) (m : list Z) : list Z * list Z :=
  match c with
  | Update str => ([], m ++ str)
  | Reset => ([], [])
  | Digest (Some str) => (hash str, [])
  | Digest None => (hash m, m)
  | DigestBang => (hash m, [])
  | Hexdigest (Some str) => (hexstring (hash str), [])
  | Hexdigest None => (hexstring (hash m), m)
  | HexdigestBang => (hexstring (hash m), [])
  end.

Fixpoint answer_all (cs : list call) (m : list Z) : list (list Z) * list Z :=
  match cs with
  | [] => ([], m)
  | c :: cs' =>
      let '(r, m') := answer c m in
      let '(rs, m'') := answer_all cs' m' in
      (r :: rs, m'')
  end.

Definition short (str : list Z) : Prop := Z.of_nat (length str) < max_chunk.
Definition call_ok (c : call) : Prop :=
  match c with
  | Update str | Digest (Some str) | Hexdigest (Some str) => short str
  | _ => True
  end.

Lemma hexencode_ok d :
  Z.of_nat (length d) <= LONG_MAX / 2 -> hexencode_str_new d = Ok (hexstring d).
Proof.
  intros H. unfold hexencode_str_new. rewrite (proj2 (Z.ltb_ge _ _) H). f_equal.
  apply flat_map_ext. intros b. change 15 with (Z.ones 4).
  now rewrite Z.land_ones, Z.shiftr_div_pow2 by lia.
Qed.

Lemma hexencode_hash m : hexencode_str_new (hash m) = Ok (hexstring (hash m)).
Proof. apply hexencode_ok. rewrite hash_length. apply digest_len_bound. Qed.

Lemma base_finish_rep self m :
  rep self m -> exists self', rb_digest_base_finish self = Ok (hash m, self') /\ rep self' [].
Proof.
  intros H. destruct (rep_finish _ _ H) as (c & E & Hc). unfold rb_digest_base_finish.
  rewrite E. cbn [bind]. rewrite hash_length, Z.eqb_refl. eauto using rep_init.
Qed.

Lemma base_reset_rep self m : rep self m -> rep (rb_digest_base_reset self) [].
Proof. intros H. apply rep_init. eauto using rep_shape. Qed.

(** [reset], [update(str)], [finish], [reset]. *)
Lemma whole_digest self m str :
  rep self m -> short str ->
  exists self1 self2, rb_digest_base_update (rb_digest_base_reset self) str = Ok self1 /\
    rb_digest_base_finish self1 = Ok (hash str, self2) /\ rep (rb_digest_base_reset self2) [].
Proof.
  intros H Hs. destruct (rep_update _ _ _ (base_reset_rep _ _ H) Hs) as (c & E & Hc).
  destruct (base_finish_rep _ _ Hc) as (c' & E' & Hc'). exists c, c'. eauto using base_reset_rep.
Qed.

Lemma perform_refines pctx c self m :
  rep self m -> call_ok c ->
  exists self', perform pctx c self = Ok (fst (answer c m), self') /\ rep self' (snd (answer c m)).
Proof.
  intros H Hc. destruct (base_finish_rep _ _ H) as (f & Ef & Hf).
  destruct c as [str| |[str|]| |[str|]|]; cbn [perform answer fst snd call_ok] in *;
    unfold rb_digest_instance_digest, rb_digest_instance_hexdigest, rb_digest_instance_digest_bang,
      rb_digest_instance_hexdigest_bang, clone, rb_digest_base_copy.
  1: destruct (rep_update _ _ _ H Hc) as (c & E & Hr).
  3,6: destruct (whole_digest _ _ _ H Hc) as (c1 & c2 & E1 & E2 & Hr).
  all: rewrite ?E1; cbn [bind]; rewrite ?Ef, ?E2; cbn [bind]; rewrite ?hexencode_hash; cbn [bind].
  all: eauto using base_reset_rep.
  unfold rb_digest_base_update. rewrite E. cbn [bind]. eauto.
Qed.

Lemma perform_all_refines pctx cs self m :
  rep self m -> Forall call_ok cs ->
  exists self', perform_all pctx cs self = Ok (fst (answer_all cs m), self') /\
    rep self' (snd (answer_all cs m)).
Proof.
  intros H Hcs. revert self m H. induction Hcs as [|c cs Hc Hcs IH]; intros self m H; cbn [perform_all answer_all].
  - eauto.
  - destruct (perform_refines pctx c self m H Hc) as (self' & E & H'). rewrite E. cbn [bind].
    destruct (answer c m) as [r m']. cbn [fst snd] in *.
    destruct (IH _ _ H') as (self'' & E' & H''). rewrite E'. cbn [bind].
    destruct (answer_all cs m') as [rs m'']. eauto.
Qed.
End Object.

(** ** Lengths in two 32-bit words *)

(** The two words of a 64-bit counter. *)
Definition lo32 (n : Z) : Z := u32 n.
Definition hi32 (n : Z) : Z := u32 (n / 4294967296).

(** Adding [8 * n] to the counter, with the carry tested as MD5 does. *)
Lemma count_add N n :
  0 <= n < 4294967296 ->
  let nbits := u32 (8 * n) in
  let c0 := add32 (lo32 N) nbits in
  let c1 := add32 (hi32 N) (n / 536870912) in
  c0 = lo32 (N + 8 * n) /\ (if c0 <? nbits then add32 c1 1 else c1) = hi32 (N + 8 * n).
Proof.
  intros Hn nbits c0 c1. unfold c0, c1, nbits, lo32, hi32, add32, u32.
  pose proof (Z.div_mod N 4294967296 ltac:(lia)) as EN.
  pose proof (Z.mod_pos_bound N 4294967296 ltac:(lia)).
  pose proof (Z.div_mod n 536870912 ltac:(lia)) as En.
  pose proof (Z.mod_pos_bound n 536870912 ltac:(lia)).
  set (a := N / 4294967296) in *. set (b := N mod 4294967296) in *.
  set (e := n / 536870912) in *. set (f := n mod 536870912) in *.
  replace (8 * n) with (8 * f + e * 4294967296) by lia.
  replace (N + (8 * f + e * 4294967296)) with (b + 8 * f + (a + e) * 4294967296) by lia.
  rewrite Z.div_add, !Z.mod_add by lia. rewrite (Z.mod_small (8 * f)) by lia. split; [reflexivity|].
  destruct (Z.ltb_spec ((b + 8 * f) mod 4294967296) (8 * f)) as [Hc|Hc].
  - assert (Hb : 4294967296 <= b + 8 * f).
    { destruct (Z_lt_le_dec (b + 8 * f) 4294967296) as [Hlt|]; [|lia].
      rewrite Z.mod_small in Hc by lia. lia. }
    replace ((b + 8 * f) / 4294967296) with 1.
    2:{ apply Z.div_unique with (b + 8 * f - 4294967296); lia. }
    rewrite Zplus_mod_idemp_l, <- Z.add_assoc, Zplus_mod_idemp_l. f_equal. lia.
  - rewrite (Z.div_small (b + 8 * f)).
    2:{ split; [lia|]. destruct (Z_lt_le_dec (b + 8 * f) 4294967296) as [|Hge]; [lia|].
        replace (b + 8 * f) with (b + 8 * f - 4294967296 + 1 * 4294967296) in Hc by lia.
        rewrite Z.mod_add, Z.mod_small in Hc by lia. lia. }
    rewrite Zplus_mod_idemp_l. now rewrite Z.add_0_l.
Qed.

Lemma lo32_mod64 n : Z.land (Z.shiftr (lo32 (8 * n)) 3) 63 = n mod 64.
Proof.
  change 63 with (Z.ones 6). rewrite Z.land_ones, Z.shiftr_div_pow2 by lia. unfold lo32, u32.
  change (2 ^ 3) with 8. change (2 ^ 6) with 64.
  replace 4294967296 with (8 * 536870912) by lia. rewrite Z.mul_mod_distr_l by lia.
  rewrite (Z.mul_comm 8), Z.div_mul by lia.
  change 536870912 with (64 * 8388608). rewrite Z.rem_mul_r by lia.
  now rewrite (Z.mul_comm 64), Z.mod_add, Z.mod_mod by lia.
Qed.

(** ** A block buffer *)

Section Buffer.
Context (B : nat).
Hypothesis B_pos : (0 < B)%nat.

(** The buffer holds the bytes of the message behind its last full block. *)
Definition holds_in (buf m : list Z) : Prop :=
  length buf = B /\ firstn (length m mod B) buf = rest B m.

Lemma rest_bound m : (length (rest B m) < B)%nat.
Proof. rewrite rest_length by exact B_pos. apply Nat.mod_upper_bound. lia. Qed.

Lemma rest_empty m : (length m mod B = 0)%nat -> rest B m = [].
Proof. intros H. apply length_zero_iff_nil. now rewrite rest_length. Qed.

Lemma fill_partial_in {S} (f : S -> list Z -> S) s m buf d :
  holds_in buf m -> (length m mod B + length d < B)%nat ->
  exists buf', memcpy buf (length m mod B) d = Ok buf' /\ holds_in buf' (m ++ d) /\
    chain f B s (m ++ d) = chain f B s m.
Proof.
  intros [Hl Hf] Hd. rewrite <- (rest_length B B_pos) in Hd.
  destruct (absorb_partial f B B_pos m s d Hd) as [Ec Er].
  rewrite rest_length in Hd by exact B_pos.
  destruct (memcpy_prefix buf (length m mod B) d ltac:(lia)) as (buf' & E & Hl' & Hf').
  exists buf'. splits; [exact E|split; [congruence|]|exact Ec].
  rewrite <- (rest_length B B_pos), Er, length_app, rest_length, <- Hf by exact B_pos. exact Hf'.
Qed.

Lemma fill_block_in buf m d :
  holds_in buf m -> (B <= length m mod B + length d)%nat ->
  memcpy buf (length m mod B) (firstn (B - length m mod B) d) =
    Ok (rest B m ++ firstn (B - length m mod B) d) /\
  length (rest B m ++ firstn (B - length m mod B) d) = B.
Proof.
  intros [Hl Hf] Hd. pose proof (rest_bound m) as Hb. rewrite rest_length in Hb by exact B_pos.
  assert (Hk : length (firstn (B - length m mod B) d) = (B - length m mod B)%nat)
    by (rewrite length_firstn; lia).
  rewrite memcpy_ok by lia. rewrite skipn_all2, app_nil_r, Hf by lia.
  split; [reflexivity|]. rewrite length_app, rest_length by exact B_pos. lia.
Qed.

(** Whatever is behind the last block of the data goes to the start of the
    buffer. *)
Lemma fill_rest_in buf m p :
  length buf = B -> rest B m = rest B p ->
  exists buf', memcpy buf 0 (rest B p) = Ok buf' /\ holds_in buf' m.
Proof.
  intros Hl Hr. pose proof (rest_bound p) as Hb.
  destruct (memcpy_prefix buf 0 (rest B p) ltac:(lia)) as (buf' & E & Hl' & Hf').
  exists buf'. splits; [exact E|]. split; [congruence|].
  rewrite <- (rest_length B B_pos), Hr. exact Hf'.
Qed.

Lemma fill_none_in buf m : length buf = B -> rest B m = [] -> holds_in buf m.
Proof.
  intros Hl Hr. split; [exact Hl|]. now rewrite <- (rest_length B B_pos), Hr.
Qed.

(** A full block of the message, then the loop on the rest of the data. *)
Lemma absorb_block_in {S} (f : S -> list Z -> S) s m d :
  (B <= length m mod B + length d)%nat ->
  let k := (B - length m mod B)%nat in
  chain f B s (m ++ d) = chain f B (f (chain f B s m) (rest B m ++ firstn k d)) (skipn k d) /\
  rest B (m ++ d) = rest B (skipn k d).
Proof.
  intros H. rewrite <- (rest_length B B_pos) in *. apply absorb_full; lia.
Qed.

Lemma absorb_aligned_in {S} (f : S -> list Z -> S) s m d :
  (length m mod B = 0)%nat ->
  chain f B s (m ++ d) = chain f B (chain f B s m) d /\ rest B (m ++ d) = rest B d.
Proof.
  intros H. pose proof (chain_rest_app f B B_pos m s d) as E.
  now rewrite (rest_empty m H) in E.
Qed.
End Buffer.

(** Blocks of 64 bytes, as MD5, SHA-1 and RIPEMD-160 have them. *)
Lemma pos64 : (0 < 64)%nat.
Proof. lia. Qed.

Notation rest64 := (rest 64).
Notation holds := (holds_in 64).
Notation rest64_length := (rest_length 64 pos64).
Notation rest64_bound := (rest_bound 64 pos64).
Notation rest64_empty := (rest_empty 64 pos64).
Notation fill_partial := (fill_partial_in 64 pos64).
Notation fill_block := (fill_block_in 64 pos64).
Notation fill_rest := (fill_rest_in 64 pos64).
Notation fill_rest_none := (fill_none_in 64 pos64).
Notation absorb_block := (absorb_block_in 64 pos64).
Notation absorb_aligned := (absorb_aligned_in 64 pos64).

Lemma chain_ext {S} (f g : S -> list Z -> S) B s m :
  (forall s d, f s d = g s d) -> chain f B s m = chain g B s m.
Proof.
  intros E. unfold chain. generalize (blocks B m). intros n. revert s m.
  induction n as [|n IH]; intros s m; cbn; [reflexivity|]. now rewrite E, IH.
Qed.

(** ** Bytes of a word *)

Lemma le_bytes_shifts n z : le_bytes n z = map (fun i => u8 (Z.shiftr z (8 * Z.of_nat i))) (seq 0 n).
Proof.
  revert z. induction n as [|n IH]; intros z; [reflexivity|].
  cbn [le_bytes seq map]. rewrite IH, <- seq_shift, map_map. f_equal.
  apply map_ext. intros i. f_equal. rewrite !Z.shiftr_div_pow2 by lia.
  rewrite Z.div_div by lia. f_equal. change 256 with (2 ^ 8). rewrite <- Z.pow_add_r by lia. f_equal. lia.
Qed.

Lemma le_bytes_app n k z : le_bytes (n + k) z = le_bytes n z ++ le_bytes k (z / 2 ^ (8 * Z.of_nat n)).
Proof.
  revert z. induction n as [|n IH]; intros z.
  - cbn [Nat.add le_bytes app]. now rewrite Z.div_1_r.
  - cbn [Nat.add le_bytes app]. rewrite IH, Z.div_div by lia. f_equal. f_equal. f_equal.
    change 256 with (2 ^ 8). rewrite <- Z.pow_add_r by lia. f_equal. f_equal. lia.
Qed.

Lemma le_bytes_mod n z w : 8 * Z.of_nat n <= w -> le_bytes n (z mod 2 ^ w) = le_bytes n z.
Proof.
  revert z w. induction n as [|n IH]; intros z w H; [reflexivity|]. cbn [le_bytes]. f_equal.
  - change 256 with (2 ^ 8). symmetry; apply Znumtheory.Zmod_div_mod; try (apply Z.pow_pos_nonneg; lia).
    exists (2 ^ (w - 8)). rewrite <- Z.pow_add_r by lia. f_equal. lia.
  - rewrite <- (IH (z / 256) (w - 8)) by lia. f_equal.
    replace (2 ^ w) with (256 * 2 ^ (w - 8)) by (change 256 with (2 ^ 8); rewrite <- Z.pow_add_r by lia; f_equal; lia).
    rewrite Z.rem_mul_r by lia.
    rewrite Z.add_comm, Z.mul_comm, Z.div_add_l by lia.
    rewrite (Z.div_small (z mod 256)) by (apply Z.mod_pos_bound; lia). lia.
Qed.

(** The bytes of a 64-bit counter and of four words, as loops over
    [w[i >> 2] >> ((i & 3) << 3)] produce them. *)
Lemma le_bytes_counter n : le_bytes 4 (lo32 n) ++ le_bytes 4 (hi32 n) = le_bytes 8 n.
Proof.
  unfold lo32, hi32, u32. change 4294967296 with (2 ^ 32).
  rewrite !le_bytes_mod by lia. symmetry. apply (le_bytes_app 4 4).
Qed.

Lemma pad_firstn k : (k < 64)%nat -> firstn (S k) (128 :: repeat 0 63) = 128 :: repeat 0 k.
Proof.
  intros H. cbn [firstn]. f_equal. replace 63%nat with (k + (63 - k))%nat by lia.
  rewrite repeat_app, firstn_app, repeat_length, Nat.sub_diag, firstn_O, app_nil_r.
  apply firstn_all2. rewrite repeat_length. lia.
Qed.

(** [((55 - (count >> 3)) & 63) + 1]. *)
Lemma pad_length m :
  Z.land (u32 (55 - Z.shiftr (lo32 (bit_length m)) 3)) 63 + 1 = Z.of_nat (S (pad_zeros (length m))).
Proof.
  unfold pad_zeros. rewrite Nat2Z.inj_succ, Z2Nat.id by (apply Z.mod_pos_bound; lia).
  unfold Z.succ. f_equal. pose proof (lo32_mod64 (Z.of_nat (length m))) as E.
  fold (bit_length m) in E. revert E. change 63 with (Z.ones 6). rewrite !Z.land_ones by lia.
  change (2 ^ 6) with 64. intros E. unfold u32.
  rewrite <- (Znumtheory.Zmod_div_mod 64 4294967296) by (try lia; exists 67108864; lia).
  rewrite Zminus_mod, E, <- Zminus_mod. reflexivity.
Qed.

Lemma pad_zeros_bound n : (pad_zeros n < 64)%nat.
Proof. unfold pad_zeros. pose proof (Z.mod_pos_bound (55 - Z.of_nat n) 64 ltac:(lia)). lia. Qed.

Lemma bit_length_app m d : bit_length (m ++ d) = bit_length m + 8 * Z.of_nat (length d).
Proof. unfold bit_length. rewrite length_app. lia. Qed.

(** The position in the buffer, computed from the counter. *)
Lemma counter_offset m :
  Z.land (Z.shiftr (lo32 (bit_length m)) 3) 63 = Z.of_nat (length m mod 64).
Proof. unfold bit_length. rewrite lo32_mod64. change 64 with (Z.of_nat 64). now rewrite <- Nat2Z.inj_mod. Qed.

(** *** A schedule kept in 16 words

    [circular Wt t l]: word [k mod 16] of [l] is [Wt k] for the last 16 [k]
    below [t]. *)

Lemma shifted_mod t k : (1 <= k < 16)%nat -> ((t + 16 - k) mod 16 <> t mod 16)%nat.
Proof.
  intros Hk E. pose proof (Nat.div_mod (t + 16 - k) 16 ltac:(lia)).
  pose proof (Nat.div_mod t 16 ltac:(lia)). lia.
Qed.

Definition circular (Wt : nat -> Z) (t : nat) (l : list Z) : Prop :=
  length l = 16%nat /\
  forall k, (1 <= k <= 16)%nat -> (k <= t)%nat -> nth ((t + 16 - k) mod 16) l 0 = Wt (t - k)%nat.

Lemma circular_set Wt t l : circular Wt t l -> circular Wt (S t) (list_set l (t mod 16) (Wt t)).
Proof.
  intros (Hl & Hold). assert (Hm : (t mod 16 < length l)%nat) by (rewrite Hl; apply Nat.mod_upper_bound; lia).
  split; [now rewrite list_set_length|].
  intros k Hk Hkt. rewrite list_set_nth by exact Hm. destruct (Nat.eq_dec k 1) as [->|Hk1].
  - replace (S t + 16 - 1)%nat with (t + 1 * 16)%nat by lia. rewrite Nat.Div0.mod_add, Nat.eqb_refl.
    f_equal. lia.
  - replace (S t + 16 - k)%nat with (t + 16 - (k - 1))%nat by lia.
    destruct (Nat.eqb_spec ((t + 16 - (k - 1)) mod 16) (t mod 16)) as [E|E].
    + exfalso. revert E. apply shifted_mod; lia.
    + rewrite Hold by lia. f_equal. lia.
Qed.

(** The word behind the offset [o], as the code indexes it. *)
Lemma circular_nth Wt t l o : circular Wt t l -> (16 <= t)%nat -> (o < 16)%nat -> nth ((t + o) mod 16) l 0 = Wt (t - (16 - o))%nat.
Proof. intros (_ & H) Ht Ho. rewrite <- H by lia. f_equal. f_equal. lia. Qed.

Lemma fold_left_ext_in {A C} (f g : A -> C -> A) l s :
  (forall s x, In x l -> f s x = g s x) -> fold_left f l s = fold_left g l s.
Proof.
  revert s. induction l as [|x l IH]; intros s H; cbn; [reflexivity|].
  rewrite H by (now left). apply IH. intros; apply H; now right.
Qed.

(** ** A message in pieces *)

(** The digest of an object that was fed the chunks of a message. *)
Definition digest_chunks {algo : rb_digest_metadata} (pctx : CTX) (chunks : list (list Z)) : outcome (list Z) :=
  '(_, self) <- perform_all pctx (map Update chunks) (rb_digest_base_alloc pctx) ;;
  '(value, _) <- rb_digest_instance_digest pctx None self ;;
  Ok value.

Lemma answer_updates {algo : rb_digest_metadata} {laws : DigestLaws algo} chunks m :
  snd (answer_all (map Update chunks) m) = m ++ concat chunks.
Proof.
  revert m. induction chunks as [|d chunks IH]; intros m; cbn [map answer_all concat answer].
  - symmetry. apply app_nil_r.
  - specialize (IH (m ++ d)). destruct (answer_all (map Update chunks) (m ++ d)) as [rs m'].
    cbn [snd] in *. now rewrite IH, <- app_assoc.
Qed.

Lemma digest_chunks_ok {algo : rb_digest_metadata} {laws : DigestLaws algo} pctx chunks :
  shape pctx -> Forall short chunks -> digest_chunks pctx chunks = Ok (hash (concat chunks)).
Proof.
  intros Hs Hc. unfold digest_chunks.
  destruct (perform_all_refines pctx (map Update chunks) (rb_digest_base_alloc pctx) [] (rep_init _ Hs))
    as (self & E & Hr); [now apply Forall_map|].
  rewrite E. cbn [bind]. rewrite answer_updates in Hr. cbn [app] in Hr.
  destruct (perform_refines pctx (Digest None) self _ Hr I) as (self' & E' & _).
  cbn [perform answer fst] in E'. rewrite E'. reflexivity.
Qed.
