(* ===== verification/Md5.v ===== *)
(** * MD5

    src/ruby/ext/digest/md5/md5.c.  The transformation is the code's list of
    64 [SET] lines; [md5_reference] is the loop of RFC 1321 with its functions,
    table, index and shift patterns.  The code of the [WORDS_BIGENDIAN] branch is not compiled
    in this configuration; the two branches of the alignment test read the
    same words. *)

From Stdlib Require Import String Ascii.
From Stdlib Require Import ZArith Lia List Bool.
From S2P Require Import Prelude CInt Digest.
Import ListNotations.
Local Open Scope Z_scope.
Local Open Scope outcome_scope.

(** [MD5_CTX]. *)
Record MD5_CTX := mkMD5 { count : Z * Z; state : Z * Z * Z * Z; buffer : list Z }.

(** [T_MASK ^ x]. *)
Definition T_MASK (x : Z) : Z := Z.lxor 4294967295 x.

(** The constants [T1] to [T64]. *)
Definition T_values : list Z := [
  T_MASK 0x28955b87; T_MASK 0x173848a9; 0x242070db; T_MASK 0x3e423111;
  T_MASK 0x0a83f050; 0x4787c62a; T_MASK 0x57cfb9ec; T_MASK 0x02b96afe;
  0x698098d8; T_MASK 0x74bb0850; T_MASK 0x0000a44e; T_MASK 0x76a32841;
  0x6b901122; T_MASK 0x02678e6c; T_MASK 0x5986bc71; 0x49b40821;
  T_MASK 0x09e1da9d; T_MASK 0x3fbf4cbf; 0x265e5a51; T_MASK 0x16493855;
  T_MASK 0x29d0efa2; 0x02441453; T_MASK 0x275e197e; T_MASK 0x182c0437;
  0x21e1cde6; T_MASK 0x3cc8f829; T_MASK 0x0b2af278; 0x455a14ed;
  T_MASK 0x561c16fa; T_MASK 0x03105c07; 0x676f02d9; T_MASK 0x72d5b375;
  T_MASK 0x0005c6bd; T_MASK 0x788e097e; 0x6d9d6122; T_MASK 0x021ac7f3;
  T_MASK 0x5b4115bb; 0x4bdecfa9; T_MASK 0x0944b49f; T_MASK 0x4140438f;
  0x289b7ec6; T_MASK 0x155ed805; T_MASK 0x2b10cf7a; 0x04881d05;
  T_MASK 0x262b2fc6; T_MASK 0x1924661a; 0x1fa27cf8; T_MASK 0x3b53a99a;
  T_MASK 0x0bd6ddbb; 0x432aff97; T_MASK 0x546bdc58; T_MASK 0x036c5fc6;
  0x655b59c3; T_MASK 0x70f3336d; T_MASK 0x00100b82; T_MASK 0x7a7ba22e;
  0x6fa87e4f; T_MASK 0x01d3191f; T_MASK 0x5cfebceb; 0x4e0811a1;
  T_MASK 0x08ac817d; T_MASK 0x42c50dca; 0x2ad7d2bb; T_MASK 0x14792c6e].

Definition T (i : nat) : Z := nth (i - 1) T_values 0.

Definition F (x y z : Z) : Z := Z.lor (Z.land x y) (Z.land (not32 x) z).
Definition G (x y z : Z) : Z := Z.lor (Z.land x z) (Z.land y (not32 z)).
Definition H (x y z : Z) : Z := Z.lxor (Z.lxor x y) z.
Definition I (x y z : Z) : Z := Z.lxor y (Z.lor x (not32 z)).

(** The local variables [a], [b], [c] and [d]. *)
Inductive reg := a | b | c | d.
Definition regs := (Z * Z * Z * Z)%type.

Definition get (r : regs) (x : reg) : Z :=
  let '(ra, rb, rc, rd) := r in match x with a => ra | b => rb | c => rc | d => rd end.
Definition put (r : regs) (x : reg) (v : Z) : regs :=
  let '(ra, rb, rc, rd) := r in
  match x with
  | a => (v, rb, rc, rd)
  | b => (ra, v, rc, rd)
  | c => (ra, rb, v, rd)
  | d => (ra, rb, rc, v)
  end.

(** A line [SET(a, b, c, d, k, s, Ti)] with the round function it expands to:
    [t = a + f(b,c,d) + X[k] + Ti; a = ROTATE_LEFT(t, s) + b]. *)
Record line := SET { l_f : Z -> Z -> Z -> Z; l_a : reg; l_b : reg; l_c : reg; l_d : reg;
                     l_k : nat; l_s : Z; l_T : Z }.

Definition exec (X : nat -> Z) (r : regs) (l : line) : regs :=
  let t := add32 (add32 (add32 (get r (l_a l)) (l_f l (get r (l_b l)) (get r (l_c l)) (get r (l_d l))))
                    (X (l_k l))) (l_T l) in
  put r (l_a l) (add32 (rol32 t (l_s l)) (get r (l_b l))).

Definition md5_lines : list line := [
  (* Round 1. *)
  SET F a b c d 0 7 (T 1);
  SET F d a b c 1 12 (T 2);
  SET F c d a b 2 17 (T 3);
  SET F b c d a 3 22 (T 4);
  SET F a b c d 4 7 (T 5);
  SET F d a b c 5 12 (T 6);
  SET F c d a b 6 17 (T 7);
  SET F b c d a 7 22 (T 8);
  SET F a b c d 8 7 (T 9);
  SET F d a b c 9 12 (T 10);
  SET F c d a b 10 17 (T 11);
  SET F b c d a 11 22 (T 12);
  SET F a b c d 12 7 (T 13);
  SET F d a b c 13 12 (T 14);
  SET F c d a b 14 17 (T 15);
  SET F b c d a 15 22 (T 16);
  (* Round 2. *)
  SET G a b c d 1 5 (T 17);
  SET G d a b c 6 9 (T 18);
  SET G c d a b 11 14 (T 19);
  SET G b c d a 0 20 (T 20);
  SET G a b c d 5 5 (T 21);
  SET G d a b c 10 9 (T 22);
  SET G c d a b 15 14 (T 23);
  SET G b c d a 4 20 (T 24);
  SET G a b c d 9 5 (T 25);
  SET G d a b c 14 9 (T 26);
  SET G c d a b 3 14 (T 27);
  SET G b c d a 8 20 (T 28);
  SET G a b c d 13 5 (T 29);
  SET G d a b c 2 9 (T 30);
  SET G c d a b 7 14 (T 31);
  SET G b c d a 12 20 (T 32);
  (* Round 3. *)
  SET H a b c d 5 4 (T 33);
  SET H d a b c 8 11 (T 34);
  SET H c d a b 11 16 (T 35);
  SET H b c d a 14 23 (T 36);
  SET H a b c d 1 4 (T 37);
  SET H d a b c 4 11 (T 38);
  SET H c d a b 7 16 (T 39);
  SET H b c d a 10 23 (T 40);
  SET H a b c d 13 4 (T 41);
  SET H d a b c 0 11 (T 42);
  SET H c d a b 3 16 (T 43);
  SET H b c d a 6 23 (T 44);
  SET H a b c d 9 4 (T 45);
  SET H d a b c 12 11 (T 46);
  SET H c d a b 15 16 (T 47);
  SET H b c d a 2 23 (T 48);
  (* Round 4. *)
  SET I a b c d 0 6 (T 49);
  SET I d a b c 7 10 (T 50);
  SET I c d a b 14 15 (T 51);
  SET I b c d a 5 21 (T 52);
  SET I a b c d 12 6 (T 53);
  SET I d a b c 3 10 (T 54);
  SET I c d a b 10 15 (T 55);
  SET I b c d a 1 21 (T 56);
  SET I a b c d 8 6 (T 57);
  SET I d a b c 15 10 (T 58);
  SET I c d a b 6 15 (T 59);
  SET I b c d a 13 21 (T 60);
  SET I a b c d 4 6 (T 61);
  SET I d a b c 11 10 (T 62);
  SET I c d a b 2 15 (T 63);
  SET I b c d a 9 21 (T 64)].

(** [pms->state[i] += ...]. *)
Definition add_state (s t : regs) : regs :=
  let '(sa, sb, sc, sd) := s in
  let '(ta, tb, tc, td) := t in (add32 sa ta, add32 sb tb, add32 sc tc, add32 sd td).

Definition md5_process (state : regs) (data : list Z) : regs :=
  let X := word data in
  add_state state (fold_left (exec X) md5_lines state).

Definition MD5_Init (pms : MD5_CTX) : MD5_CTX :=
  mkMD5 (0, 0) (1732584193, T_MASK 271733878, T_MASK 1732584193, 271733878) (buffer pms).

(** The end of [MD5_Update]: process full blocks, then a final partial
    block. *)
Definition md5_tail (cnt : Z * Z) (st : regs) (buf p : list Z) : outcome MD5_CTX :=
  let '(st', rem) := full_blocks md5_process 64 (length p) st p in
  buf' <- (if (0 <? length rem)%nat then memcpy buf 0 rem else Ok buf) ;;
  Ok (mkMD5 cnt st' buf').

(** [nbytes] is the length of [data]; the uses of a partial block, of full
    blocks and of the rest follow the code. *)
Definition MD5_Update (pms : MD5_CTX) (data : list Z) : outcome MD5_CTX :=
  let nbytes := u32 (Z.of_nat (length data)) in
  let offset := Z.to_nat (Z.land (Z.shiftr (fst (count pms)) 3) 63) in
  let nbits := u32 (Z.shiftl nbytes 3) in
  if nbytes <=? 0 then Ok pms
  else
    (* Update the message length. *)
    let c1 := add32 (snd (count pms)) (Z.shiftr nbytes 29) in
    let c0 := add32 (fst (count pms)) nbits in
    let c1 := if c0 <? nbits then add32 c1 1 else c1 in
    (* Process an initial partial block. *)
    if (0 <? offset)%nat then
      let copy := if 64 <? u32 (Z.of_nat offset + nbytes) then (64 - offset)%nat else Z.to_nat nbytes in
      buf <- memcpy (buffer pms) offset (firstn copy data) ;;
      if (offset + copy <? 64)%nat then Ok (mkMD5 (c0, c1) (state pms) buf)
      else md5_tail (c0, c1) (md5_process (state pms) buf) buf (skipn copy data)
    else md5_tail (c0, c1) (state pms) (buffer pms) data.

(** Byte [i] of an array of 32-bit words. *)
Definition byte_of (w : nat -> Z) (i : nat) : Z :=
  u8 (Z.shiftr (w (i / 4)%nat) (Z.shiftl (Z.land (Z.of_nat i) 3) 3)).

Definition pair_nth (p : Z * Z) (i : nat) : Z := match i with O => fst p | _ => snd p end.
Definition state_nth (s : Z * Z * Z * Z) (i : nat) : Z :=
  let '(s0, s1, s2, s3) := s in nth i [s0; s1; s2; s3] 0.

Definition pad : list Z := 128 :: repeat 0 63.

Definition MD5_Finish (pms : MD5_CTX) : outcome (list Z * MD5_CTX) :=
  (* Save the length before padding. *)
  let data := map (byte_of (pair_nth (count pms))) (seq 0 8) in
  (* Pad to 56 bytes mod 64. *)
  let n := Z.land (u32 (55 - Z.shiftr (fst (count pms)) 3)) 63 + 1 in
  pms <- MD5_Update pms (firstn (Z.to_nat n) pad) ;;
  (* Append the length. *)
  pms <- MD5_Update pms data ;;
  Ok (map (byte_of (state_nth (state pms))) (seq 0 16), pms).

(** md5init.c: the table [md5]. *)
#[export] Instance md5 : rb_digest_metadata := {|
  CTX := MD5_CTX;
  digest_len := 16;
  block_len := 64;
  init_func := MD5_Init;
  update_func := MD5_Update;
  finish_func := MD5_Finish
|}.

(** ** The loop of RFC 1321

    Its functions, table and initial values are written down from the RFC, not
    taken from the code. *)

(** [XY v not(X) Z], [XZ v Y not(Z)], [X xor Y xor Z] and [Y xor (X v not(Z))]. *)
Definition rfc_F (X Y Z : Z) := Z.lor (Z.land X Y) (Z.land (not32 X) Z).
Definition rfc_G (X Y Z : Z) := Z.lor (Z.land X Z) (Z.land Y (not32 Z)).
Definition rfc_H (X Y Z : Z) := Z.lxor (Z.lxor X Y) Z.
Definition rfc_I (X Y Z : Z) := Z.lxor Y (Z.lor X (not32 Z)).

(** The integer part of 4294967296 times [abs(sin(i))], for [i] from 1. *)
Definition rfc_T : list Z := [
  0xd76aa478; 0xe8c7b756; 0x242070db; 0xc1bdceee;
  0xf57c0faf; 0x4787c62a; 0xa8304613; 0xfd469501;
  0x698098d8; 0x8b44f7af; 0xffff5bb1; 0x895cd7be;
  0x6b901122; 0xfd987193; 0xa679438e; 0x49b40821;
  0xf61e2562; 0xc040b340; 0x265e5a51; 0xe9b6c7aa;
  0xd62f105d; 0x02441453; 0xd8a1e681; 0xe7d3fbc8;
  0x21e1cde6; 0xc33707d6; 0xf4d50d87; 0x455a14ed;
  0xa9e3e905; 0xfcefa3f8; 0x676f02d9; 0x8d2a4c8a;
  0xfffa3942; 0x8771f681; 0x6d9d6122; 0xfde5380c;
  0xa4beea44; 0x4bdecfa9; 0xf6bb4b60; 0xbebfbc70;
  0x289b7ec6; 0xeaa127fa; 0xd4ef3085; 0x04881d05;
  0xd9d4d039; 0xe6db99e5; 0x1fa27cf8; 0xc4ac5665;
  0xf4292244; 0x432aff97; 0xab9423a7; 0xfc93a039;
  0x655b59c3; 0x8f0ccc92; 0xffeff47d; 0x85845dd1;
  0x6fa87e4f; 0xfe2ce6e0; 0xa3014314; 0x4e0811a1;
  0xf7537e82; 0xbd3af235; 0x2ad7d2bb; 0xeb86d391].

(** The words 01 23 45 67, 89 ab cd ef, fe dc ba 98, 76 54 32 10, low byte first. *)
Definition rfc_IV : regs := (0x67452301, 0xefcdab89, 0x98badcfe, 0x10325476).

Definition round_fun (i : nat) : Z -> Z -> Z -> Z :=
  match (i / 16)%nat with 0%nat => rfc_F | 1%nat => rfc_G | 2%nat => rfc_H | _ => rfc_I end.
Definition round_index (i : nat) : nat :=
  match (i / 16)%nat with
  | 0%nat => i
  | 1%nat => (5 * i + 1) mod 16
  | 2%nat => (3 * i + 5) mod 16
  | _ => (7 * i) mod 16
  end.
Definition round_shift (i : nat) : Z :=
  nth (4 * (i / 16) + i mod 4) [7; 12; 17; 22; 5; 9; 14; 20; 4; 11; 16; 23; 6; 10; 15; 21] 0.

Definition rfc_step (X : nat -> Z) (s : regs) (i : nat) : regs :=
  let '(A, B, C, D) := s in
  (D, add32 B (rol32 (add32 (add32 (add32 A (round_fun i B C D)) (X (round_index i))) (nth i rfc_T 0))
        (round_shift i)), B, C).

Definition rfc_process (s : regs) (data : list Z) : regs :=
  let '(A, B, C, D) := s in
  let '(A', B', C', D') := fold_left (rfc_step (word data)) (seq 0 64) s in
  (add32 A A', add32 B B', add32 C C', add32 D D').

(** The roles of the variables rotate: [view o r] is the tuple of the loop
    when the next line is [SET(o)]. *)
Definition order := (reg * reg * reg * reg)%type.
Definition view (o : order) (r : regs) : regs :=
  let '(x, y, z, w) := o in (get r x, get r y, get r z, get r w).
Definition rotate (o : order) : order := let '(x, y, z, w) := o in (w, x, y, z).
Definition order_of (i : nat) : order := Nat.iter i rotate (a, b, c, d).

Definition line_of (i : nat) : line :=
  let '(x, y, z, w) := order_of i in SET (round_fun i) x y z w (round_index i) (round_shift i) (nth i rfc_T 0).

Lemma rfc_table i : nth i rfc_T 0 = T (i + 1).
Proof.
  unfold T. replace (i + 1 - 1)%nat with i by lia.
  assert (E : rfc_T = T_values) by (vm_compute; reflexivity). now rewrite E.
Qed.

(** The 64 lines of the code follow the pattern of the RFC. *)
Lemma md5_lines_pattern : md5_lines = map line_of (seq 0 64).
Proof.
  transitivity (map (fun i => let '(x, y, z, w) := order_of i in
    SET (round_fun i) x y z w (round_index i) (round_shift i) (T (i + 1))) (seq 0 64)); [reflexivity|].
  apply map_ext. intros i. unfold line_of. now rewrite rfc_table.
Qed.

Lemma md5_order_cases i :
  In (order_of i) [(a, b, c, d); (d, a, b, c); (c, d, a, b); (b, c, d, a)].
Proof.
  induction i as [|i IH]; [now left|].
  change (order_of (S i)) with (rotate (order_of i)).
  cbn [In] in IH |- *. intuition (match goal with E : _ = order_of i |- _ => rewrite <- E end); cbn; auto.
Qed.

Lemma md5_exec_line X i r : view (order_of (S i)) (exec X r (line_of i)) = rfc_step X (view (order_of i) r) i.
Proof.
  change (order_of (S i)) with (rotate (order_of i)).
  unfold line_of. pose proof (md5_order_cases i) as Ho. cbn [In] in Ho.
  destruct r as [[[ra rb] rc] rd].
  destruct Ho as [<-|[<-|[<-|[<-|[]]]]]; unfold exec, rfc_step, add32; cbn; rewrite Z.add_comm; reflexivity.
Qed.

Lemma md5_exec_lines X n i r :
  view (order_of (i + n)) (fold_left (exec X) (map line_of (seq i n)) r) =
  fold_left (rfc_step X) (seq i n) (view (order_of i) r).
Proof.
  revert i r. induction n as [|n IH]; intros i r; cbn [seq map fold_left].
  - now rewrite Nat.add_0_r.
  - rewrite <- md5_exec_line, <- IH. f_equal. f_equal. lia.
Qed.

Lemma md5_process_rfc s data : md5_process s data = rfc_process s data.
Proof.
  unfold md5_process, rfc_process. rewrite md5_lines_pattern.
  pose proof (md5_exec_lines (word data) 64 0 s) as E. cbn [Nat.add] in E.
  destruct s as [[[sa sb] sc] sd]. change (view (order_of 0) (sa, sb, sc, sd)) with (sa, sb, sc, sd) in E.
  rewrite <- E. change (order_of 64) with (a, b, c, d).
  destruct (fold_left (exec (word data)) _ _) as [[[ra rb] rc] rd]. reflexivity.
Qed.

(** ** What a context stands for *)

(** The registers [MD5_Init] sets. *)
Definition IV : regs := (1732584193, T_MASK 271733878, T_MASK 1732584193, 271733878).

Lemma IV_rfc : IV = rfc_IV.
Proof. reflexivity. Qed.

Definition md5_rep (p : MD5_CTX) (m : list Z) : Prop :=
  count p = (lo32 (bit_length m), hi32 (bit_length m)) /\ holds (buffer p) m /\
  state p = chain md5_process 64 IV m.

(** RFC 1321: pad, process the blocks, output the registers low byte
    first. *)
Definition md5_reference (m : list Z) : list Z :=
  let '(A, B, C, D) := chain rfc_process 64 rfc_IV (padded (le_bytes 8) m) in
  flat_map (le_bytes 4) [A; B; C; D].

Lemma md5_update_count p m n :
  count p = (lo32 (bit_length m), hi32 (bit_length m)) -> 0 <= n < 4294967296 ->
  let nbits := u32 (Z.shiftl n 3) in
  let c1 := add32 (snd (count p)) (Z.shiftr n 29) in
  let c0 := add32 (fst (count p)) nbits in
  let c1 := if c0 <? nbits then add32 c1 1 else c1 in
  (c0, c1) = (lo32 (bit_length m + 8 * n), hi32 (bit_length m + 8 * n)).
Proof.
  intros Ec Hn. rewrite Ec. cbn [fst snd]. cbv zeta.
  rewrite Z.shiftl_mul_pow2, Z.shiftr_div_pow2, (Z.mul_comm n) by lia.
  change (2 ^ 3) with 8. change (2 ^ 29) with 536870912.
  destruct (count_add (bit_length m) n Hn) as [-> ->]. reflexivity.
Qed.

Lemma md5_tail_rep m st buf q :
  length buf = 64%nat -> chain md5_process 64 IV m = chain md5_process 64 st q ->
  rest64 m = rest64 q ->
  exists p', md5_tail (lo32 (bit_length m), hi32 (bit_length m)) st buf q = Ok p' /\ md5_rep p' m.
Proof.
  intros Hl Hch Hr. unfold md5_tail. rewrite full_blocks_spec by lia.
  destruct (Nat.ltb_spec 0 (length (rest64 q))).
  - destruct (fill_rest buf m q Hl Hr) as (buf' & E & Hh). rewrite E. cbn [bind].
    eexists. split; [reflexivity|]. unfold md5_rep. cbn [count buffer state]. auto.
  - cbn [bind]. eexists. split; [reflexivity|]. unfold md5_rep. cbn [count buffer state].
    splits; [reflexivity|apply fill_rest_none; [exact Hl|]|symmetry; exact Hch].
    rewrite Hr. apply length_zero_iff_nil. lia.
Qed.

Lemma md5_update_rep p m d :
  md5_rep p m -> Z.of_nat (length d) < 2147483648 ->
  exists p', MD5_Update p d = Ok p' /\ md5_rep p' (m ++ d).
Proof.
  intros (Ec & Hb & Es) Hd. unfold MD5_Update.
  rewrite (u32_small (Z.of_nat (length d))) by lia.
  destruct (Z.leb_spec (Z.of_nat (length d)) 0) as [H0|H0].
  { assert (d = []) as -> by (apply length_zero_iff_nil; lia). rewrite app_nil_r.
    exists p. unfold md5_rep. auto. }
  pose proof (md5_update_count p m (Z.of_nat (length d)) Ec ltac:(lia)) as Hc. cbv zeta in Hc |- *.
  rewrite <- bit_length_app in Hc. rewrite Hc. clear Hc.
  assert (Hoff : Z.to_nat (Z.land (Z.shiftr (fst (count p)) 3) 63) = (length m mod 64)%nat)
    by (rewrite Ec; cbn [fst]; rewrite counter_offset; apply Nat2Z.id).
  rewrite Hoff. clear Hoff. set (o := (length m mod 64)%nat) in *.
  assert (Ho : (o < 64)%nat) by (apply Nat.mod_upper_bound; lia).
  destruct (Nat.ltb_spec 0 o) as [Hop|Hop].
  - rewrite u32_small by lia.
    destruct (Z.ltb_spec 64 (Z.of_nat o + Z.of_nat (length d))) as [Hfull|Hpart].
    + destruct (fill_block (buffer p) m d Hb ltac:(lia)) as [E Hl]. fold o in E, Hl. rewrite E. cbn [bind].
      replace (o + (64 - o) <? 64)%nat with false by (symmetry; apply Nat.ltb_ge; lia).
      destruct (absorb_block md5_process IV m d ltac:(fold o; lia)) as [Ech Er]. fold o in Ech, Er.
      apply md5_tail_rep; [exact Hl| |exact Er]. rewrite Ech, Es. reflexivity.
    + rewrite Nat2Z.id, firstn_all.
      destruct (Nat.ltb_spec (o + length d) 64) as [Hlt|Hge].
      * destruct (fill_partial md5_process IV m (buffer p) d Hb ltac:(lia)) as (buf' & E & Hh & Hch).
        fold o in E. rewrite E. cbn [bind]. eexists. split; [reflexivity|].
        unfold md5_rep. cbn [count buffer state]. rewrite Hch. auto.
      * assert (Hk : (64 - o = length d)%nat) by lia.
        destruct (fill_block (buffer p) m d Hb ltac:(lia)) as [E Hl]. fold o in E, Hl.
        destruct (absorb_block md5_process IV m d ltac:(fold o; lia)) as [Ech Er]. fold o in Ech, Er.
        rewrite Hk, firstn_all in *. rewrite E. cbn [bind].
        apply md5_tail_rep; [exact Hl| |exact Er]. rewrite Ech, Es. reflexivity.
  - destruct (absorb_aligned md5_process IV m d ltac:(lia)) as [Ech Er].
    apply md5_tail_rep; [apply Hb| |exact Er]. rewrite Ech, Es. reflexivity.
Qed.

Lemma md5_bytes_of_words w n :
  map (byte_of w) (seq 0 (4 * n)) = flat_map (fun i => le_bytes 4 (w i)) (seq 0 n).
Proof.
  induction n as [|n IH]; [reflexivity|].
  rewrite seq_S, flat_map_app, <- IH. replace (4 * S n)%nat with (4 * n + 4)%nat by lia.
  rewrite seq_app, map_app. f_equal. cbn [flat_map Nat.add]. rewrite app_nil_r, le_bytes_shifts.
  replace (seq (4 * n) 4) with (map (fun j => 4 * n + j)%nat (seq 0 4))
    by (cbn; repeat (f_equal; try lia)).
  rewrite map_map. apply map_ext_in. intros j Hj. apply in_seq in Hj. unfold byte_of.
  assert ((4 * n + j) / 4 = n)%nat as -> by (rewrite Nat.mul_comm, Nat.div_add_l, Nat.div_small; lia).
  do 2 f_equal. change 3 with (Z.ones 2) at 1. rewrite Z.land_ones, Z.shiftl_mul_pow2 by lia.
  change (2 ^ 2) with 4. change (2 ^ 3) with 8.
  replace (Z.of_nat (4 * n + j)) with (Z.of_nat j + Z.of_nat n * 4) by lia.
  rewrite Z.mod_add, Z.mod_small by lia. lia.
Qed.

Lemma md5_finish_rep p m :
  md5_rep p m -> exists p', MD5_Finish p = Ok (md5_reference m, p') /\ length (buffer p') = 64%nat.
Proof.
  intros Hr. pose proof Hr as (Ec & _ & _). unfold MD5_Finish.
  rewrite (md5_bytes_of_words _ 2), Ec. cbn [seq flat_map pair_nth fst snd]. rewrite app_nil_r, le_bytes_counter.
  rewrite pad_length, Nat2Z.id. unfold pad. rewrite pad_firstn by apply pad_zeros_bound.
  pose proof (pad_zeros_bound (length m)) as Hz.
  destruct (md5_update_rep p m (128 :: repeat 0 (pad_zeros (length m))) Hr) as (p1 & E1 & R1).
  { cbn [length]. rewrite repeat_length. lia. }
  rewrite E1. cbn [bind].
  destruct (md5_update_rep p1 _ (le_bytes 8 (bit_length m)) R1) as (p2 & E2 & R2).
  { rewrite le_bytes_length. lia. }
  rewrite E2. cbn [bind]. exists p2. split; [|apply R2]. f_equal. f_equal.
  rewrite (md5_bytes_of_words _ 4). unfold md5_reference, padded. rewrite <- IV_rfc.
  rewrite app_assoc, <- (chain_ext md5_process) by apply md5_process_rfc.
  destruct R2 as (_ & _ & ->). destruct (chain md5_process 64 IV _) as [[[A B] C] D]. reflexivity.
Qed.

#[export] Instance md5_laws : DigestLaws md5.
Proof.
  refine {| shape := fun p => length (buffer p) = 64%nat;
            rep := md5_rep; hash := md5_reference; max_chunk := 2147483648 |}.
  - intros p Hl. unfold md5_rep. splits; [reflexivity|now apply fill_rest_none|reflexivity].
  - exact md5_update_rep.
  - exact md5_finish_rep.
  - intros p m (_ & [H _] & _). exact H.
  - intros m. cbn [digest_len md5]. unfold md5_reference.
    destruct (chain rfc_process 64 rfc_IV _) as [[[A B] C] D]. reflexivity.
  - cbn. unfold LONG_MAX. lia.
Defined.

(** ** Properties *)

(** C26: a [Digest::MD5] object fed a message in pieces of any sizes (below 2
    GB) computes the MD5 of RFC 1321: padding to 56 bytes modulo 64, the length
    in bits, the 64-step loop with the functions, the table and the index and
    shift patterns of the RFC on every block, and the registers as little-endian
    bytes.  No copy leaves the
    block buffer. *)
Theorem md5_streams pctx chunks :
  length (buffer pctx) = 64%nat -> Forall (fun d => Z.of_nat (length d) < 2147483648) chunks ->
  digest_chunks pctx chunks = Ok (md5_reference (concat chunks)).
Proof. exact (digest_chunks_ok (laws := md5_laws) pctx chunks). Qed.

(** A context fresh from [xmalloc]. *)
Definition raw : MD5_CTX := mkMD5 (7, 7) (1, 2, 3, 4) (repeat 205 64).

(** The bytes of a text. *)
Definition text (s : String.string) : list Z :=
  map (fun c => Z.of_nat (Ascii.nat_of_ascii c)) (String.list_ascii_of_string s).

(** 130 bytes in three pieces, and digests from section A.5 of the RFC. *)
Lemma md5_streams_witness :
  digest_chunks raw [repeat 97 3; repeat 98 63; repeat 99 64] =
    Ok (md5_reference (concat [repeat 97 3; repeat 98 63; repeat 99 64])) /\
  hexstring (md5_reference []) = text "d41d8cd98f00b204e9800998ecf8427e" /\
  hexstring (md5_reference (text "abc")) = text "900150983cd24fb0d6963f7d28e17f72" /\
  hexstring (md5_reference (text "message digest")) = text "f96b697d7cb7938d525a2f31aaf161d0".
Proof.
  split; [apply md5_streams; [reflexivity|repeat constructor]|]. splits; vm_compute; reflexivity.
Defined.

(** The seven messages of the test program in md5.c (section A.5 of RFC
    1321) have the digests it lists. *)
Theorem md5_test_suite :
  map (fun s => rb_digest_class_s_hexdigest raw [text s])
    [""; "a"; "abc"; "message digest"; "abcdefghijklmnopqrstuvwxyz";
     "ABCDEFGHIJKLMNOPQRSTUVWXYZabcdefghijklmnopqrstuvwxyz0123456789";
     "12345678901234567890123456789012345678901234567890123456789012345678901234567890"]%string =
  map (fun s => Ok (text s))
    ["d41d8cd98f00b204e9800998ecf8427e"; "0cc175b9c0f1b6a831c399e269772661";
     "900150983cd24fb0d6963f7d28e17f72"; "f96b697d7cb7938d525a2f31aaf161d0";
     "c3fcd3d76192e4007dfb496cca67e13b"; "d174ab98d277d9f5a5611c2c9f419d9f";
     "57edf4a22be3c955ac49da2e2107b67a"]%string.
Proof. vm_compute. reflexivity. Qed.
