(* ===== verification/Sha1.v ===== *)
(** * SHA-1

    src/ruby/ext/digest/sha1/sha1.c.  [SHA1_Transform] expands the message in
    place in 16 words and is unrolled into 80 macro calls; [fips_process] is
    the loop of FIPS 180-1 over an 80-word schedule. *)

From Stdlib Require Import ZArith Lia List Bool.
From S2P Require Import Prelude CInt Digest.
Import ListNotations.
Local Open Scope Z_scope.
Local Open Scope outcome_scope.

Definition regs := (Z * Z * Z * Z * Z)%type.

(** [SHA1_CTX]. *)
Record SHA1_CTX := mkSHA1 { state : regs; count : Z * Z; buffer : list Z }.

(** The local variables of the transformation. *)
Inductive reg := a | b | c | d | e.

Definition get (r : regs) (x : reg) : Z :=
  let '(ra, rb, rc, rd, re) := r in match x with a => ra | b => rb | c => rc | d => rd | e => re end.
Definition put (r : regs) (x : reg) (v : Z) : regs :=
  let '(ra, rb, rc, rd, re) := r in
  match x with
  | a => (v, rb, rc, rd, re)
  | b => (ra, v, rc, rd, re)
  | c => (ra, rb, v, rd, re)
  | d => (ra, rb, rc, v, re)
  | e => (ra, rb, rc, rd, v)
  end.

(** [blk0] and [blk]: the word they evaluate to and the block they leave. *)
Definition blk0 (l : list Z) (i : nat) : Z * list Z :=
  let x := nth i l 0 in
  let v := Z.lor (Z.land (rol32 x 24) 4278255360) (Z.land (rol32 x 8) 16711935) in
  (v, list_set l i v).
Definition blk (l : list Z) (i : nat) : Z * list Z :=
  let at_ k := nth ((i + k) mod 16) l 0 in
  let v := rol32 (Z.lxor (Z.lxor (Z.lxor (at_ 13%nat) (at_ 8%nat)) (at_ 2%nat)) (at_ 0%nat)) 1 in
  (v, list_set l (i mod 16) v).

(** A macro call [R(v,w,x,y,z,i)]:
    [z+=f(w,x,y)+block(i)+K+rol(v,5);w=rol(w,30);]. *)
Record line := mkLine { l_f : Z -> Z -> Z -> Z; l_blk : list Z -> nat -> Z * list Z; l_K : Z;
                        l_v : reg; l_w : reg; l_x : reg; l_y : reg; l_z : reg; l_i : nat }.

Definition exec (r : regs * list Z) (l : line) : regs * list Z :=
  let '(r, block) := r in
  let '(word, block) := l_blk l block (l_i l) in
  let f := l_f l (get r (l_w l)) (get r (l_x l)) (get r (l_y l)) in
  let r := put r (l_z l)
    (add32 (get r (l_z l)) (add32 (add32 (add32 f word) (l_K l)) (rol32 (get r (l_v l)) 5))) in
  (put r (l_w l) (rol32 (get r (l_w l)) 30), block).

Definition choice (w x y : Z) : Z := Z.lxor (Z.land w (Z.lxor x y)) y.
Definition parity (w x y : Z) : Z := Z.lxor (Z.lxor w x) y.
Definition majority (w x y : Z) : Z := Z.lor (Z.land (Z.lor w x) y) (Z.land w x).

Definition R0 := mkLine choice blk0 1518500249.
Definition R1 := mkLine choice blk 1518500249.
Definition R2 := mkLine parity blk 1859775393.
Definition R3 := mkLine majority blk 2400959708.
Definition R4 := mkLine parity blk 3395469782.

Definition sha1_lines : list line := [
  R0 a b c d e 0; R0 e a b c d 1; R0 d e a b c 2; R0 c d e a b 3;
  R0 b c d e a 4; R0 a b c d e 5; R0 e a b c d 6; R0 d e a b c 7;
  R0 c d e a b 8; R0 b c d e a 9; R0 a b c d e 10; R0 e a b c d 11;
  R0 d e a b c 12; R0 c d e a b 13; R0 b c d e a 14; R0 a b c d e 15;
  R1 e a b c d 16; R1 d e a b c 17; R1 c d e a b 18; R1 b c d e a 19;
  R2 a b c d e 20; R2 e a b c d 21; R2 d e a b c 22; R2 c d e a b 23;
  R2 b c d e a 24; R2 a b c d e 25; R2 e a b c d 26; R2 d e a b c 27;
  R2 c d e a b 28; R2 b c d e a 29; R2 a b c d e 30; R2 e a b c d 31;
  R2 d e a b c 32; R2 c d e a b 33; R2 b c d e a 34; R2 a b c d e 35;
  R2 e a b c d 36; R2 d e a b c 37; R2 c d e a b 38; R2 b c d e a 39;
  R3 a b c d e 40; R3 e a b c d 41; R3 d e a b c 42; R3 c d e a b 43;
  R3 b c d e a 44; R3 a b c d e 45; R3 e a b c d 46; R3 d e a b c 47;
  R3 c d e a b 48; R3 b c d e a 49; R3 a b c d e 50; R3 e a b c d 51;
  R3 d e a b c 52; R3 c d e a b 53; R3 b c d e a 54; R3 a b c d e 55;
  R3 e a b c d 56; R3 d e a b c 57; R3 c d e a b 58; R3 b c d e a 59;
  R4 a b c d e 60; R4 e a b c d 61; R4 d e a b c 62; R4 c d e a b 63;
  R4 b c d e a 64; R4 a b c d e 65; R4 e a b c d 66; R4 d e a b c 67;
  R4 c d e a b 68; R4 b c d e a 69; R4 a b c d e 70; R4 e a b c d 71;
  R4 d e a b c 72; R4 c d e a b 73; R4 b c d e a 74; R4 a b c d e 75;
  R4 e a b c d 76; R4 d e a b c 77; R4 c d e a b 78; R4 b c d e a 79].

(** [state[i] += ...]. *)
Definition add_state (s t : regs) : regs :=
  let '(sa, sb, sc, sd, se) := s in
  let '(ta, tb, tc, td, te) := t in
  (add32 sa ta, add32 sb tb, add32 sc tc, add32 sd td, add32 se te).

(** The block is copied and read as 16 words of the machine. *)
Definition SHA1_Transform (state : regs) (buffer : list Z) : regs :=
  let block := map (word buffer) (seq 0 16) in
  add_state state (fst (fold_left exec sha1_lines (state, block))).

Definition SHA1_Init (context : SHA1_CTX) : SHA1_CTX :=
  mkSHA1 (1732584193, 4023233417, 2562383102, 271733878, 3285377520) (0, 0) (buffer context).

(** [i + 63 < len] says that 64 bytes of the data are left. *)
Definition SHA1_Update (context : SHA1_CTX) (data : list Z) : outcome SHA1_CTX :=
  let len := u32 (Z.of_nat (length data)) in
  let j := fst (count context) in
  let c0 := add32 (fst (count context)) (u32 (Z.shiftl len 3)) in
  let c1 := if c0 <? j then add32 (snd (count context)) (add32 (Z.shiftr len 29) 1)
            else snd (count context) in
  let j := Z.land (Z.shiftr j 3) 63 in
  if 63 <? add32 j len then
    let j := Z.to_nat j in
    buf <- memcpy (buffer context) j (firstn (64 - j) data) ;;
    let st := SHA1_Transform (state context) buf in
    let '(st, rem) := full_blocks SHA1_Transform 64 (length data) st (skipn (64 - j) data) in
    buf <- memcpy buf 0 rem ;;
    Ok (mkSHA1 st (c0, c1) buf)
  else
    buf <- memcpy (buffer context) (Z.to_nat j) data ;;
    Ok (mkSHA1 (state context) (c0, c1) buf).

(** [while ((context->count[0] & 504) != 448) SHA1_Update(context, "\0", 1)]:
    at most 64 rounds. *)
Fixpoint pad_loop (fuel : nat) (context : SHA1_CTX) : outcome SHA1_CTX :=
  match fuel with
  | O => Undefined
  | S fuel' =>
      if Z.land (fst (count context)) 504 =? 448 then Ok context
      else context <- SHA1_Update context [0] ;; pad_loop fuel' context
  end.

(** Byte [i] of an array of words, most significant first:
    [(w[i >> 2] >> ((3-(i & 3)) * 8)) & 255]. *)
Definition byte_of (w : nat -> Z) (i : nat) : Z :=
  u8 (Z.land (Z.shiftr (w (i / 4)%nat) ((3 - Z.land (Z.of_nat i) 3) * 8)) 255).

Definition state_nth (s : regs) (i : nat) : Z :=
  let '(s0, s1, s2, s3, s4) := s in nth i [s0; s1; s2; s3; s4] 0.

Definition SHA1_Finish (context : SHA1_CTX) : outcome (list Z * SHA1_CTX) :=
  let finalcount :=
    map (byte_of (fun i => match i with O => snd (count context) | _ => fst (count context) end)) (seq 0 8) in
  context <- SHA1_Update context [128] ;;
  context <- pad_loop 65 context ;;
  context <- SHA1_Update context finalcount ;;
  Ok (map (byte_of (state_nth (state context))) (seq 0 20), context).

(** sha1init.c: the table [sha1]. *)
#[export] Instance sha1 : rb_digest_metadata := {|
  CTX := SHA1_CTX;
  digest_len := 20;
  block_len := 64;
  init_func := SHA1_Init;
  update_func := SHA1_Update;
  finish_func := SHA1_Finish
|}.

(** ** The loop of FIPS 180-1 *)

Definition be_word (p : list Z) (i : nat) : Z :=
  let b k := u8 (nth (4 * i + k) p 0) in
  16777216 * b 0%nat + 65536 * b 1%nat + 256 * b 2%nat + b 3%nat.

(** The first [n] words of the message schedule. *)
Fixpoint schedule (n : nat) (p : list Z) : list Z :=
  match n with
  | O => []
  | S t =>
      let w := schedule t p in
      let W k := nth (t - k) w 0 in
      w ++ [if (t <? 16)%nat then be_word p t
            else rol32 (Z.lxor (Z.lxor (Z.lxor (W 3%nat) (W 8%nat)) (W 14%nat)) (W 16%nat)) 1]
  end.

Definition fips_fun (t : nat) (B C D : Z) : Z :=
  match (t / 20)%nat with
  | 0%nat => Z.lor (Z.land B C) (Z.land (Z.lnot B) D)
  | 2%nat => Z.lor (Z.lor (Z.land B C) (Z.land B D)) (Z.land C D)
  | _ => Z.lxor (Z.lxor B C) D
  end.
Definition fips_K (t : nat) : Z :=
  nth (t / 20) [1518500249; 1859775393; 2400959708; 3395469782] 0.

Definition fips_step (W : nat -> Z) (s : regs) (t : nat) : regs :=
  let '(A, B, C, D, E) := s in
  let TEMP := add32 (add32 (add32 (add32 (rol32 A 5) (fips_fun t B C D)) E) (W t)) (fips_K t) in
  (TEMP, A, rol32 B 30, C, D).

Definition fips_process (s : regs) (data : list Z) : regs :=
  let w := schedule 80 data in
  add_state s (fold_left (fips_step (fun t => nth t w 0)) (seq 0 80) s).

(** *** The message schedule in 16 words *)

Definition W (p : list Z) (t : nat) : Z := nth t (schedule (S t) p) 0.

Lemma schedule_length n p : length (schedule n p) = n.
Proof. induction n; cbn [schedule]; [reflexivity|]. rewrite length_app. cbn [length]. lia. Qed.

Lemma nth_schedule n k p : (k < n)%nat -> nth k (schedule n p) 0 = W p k.
Proof.
  induction n as [|n IH]; intros H; [lia|]. destruct (Nat.eq_dec k n) as [->|]; [reflexivity|].
  cbn [schedule]. rewrite app_nth1 by (rewrite schedule_length; lia). apply IH. lia.
Qed.

Lemma W_eq p t :
  W p t = if (t <? 16)%nat then be_word p t
          else rol32 (Z.lxor (Z.lxor (Z.lxor (W p (t - 3)) (W p (t - 8))) (W p (t - 14))) (W p (t - 16))) 1.
Proof.
  unfold W at 1. cbn [schedule]. rewrite app_nth2 by (rewrite schedule_length; lia).
  rewrite schedule_length, Nat.sub_diag. cbn [nth].
  destruct (Nat.ltb_spec t 16); [reflexivity|]. now rewrite !nth_schedule by lia.
Qed.

(** [blk0] reverses the bytes of a word. *)
Lemma byte_bit x k : 0 <= x < 256 -> 8 <= k -> Z.testbit x k = false.
Proof.
  intros H Hk. apply Z.bits_above_log2; [lia|].
  destruct (Z.eq_dec x 0) as [->|]; [cbn; lia|]. apply Z.log2_lt_pow2; [lia|].
  apply Z.lt_le_trans with (2 ^ 8); [lia|]. apply Z.pow_le_mono_r; lia.
Qed.

Lemma pack_bits b0 b1 b2 b3 n :
  0 <= b0 < 256 -> 0 <= b1 < 256 -> 0 <= b2 < 256 -> 0 <= b3 < 256 -> 0 <= n ->
  Z.testbit (b0 + 256 * b1 + 65536 * b2 + 16777216 * b3) n =
    if n <? 8 then Z.testbit b0 n else if n <? 16 then Z.testbit b1 (n - 8)
    else if n <? 24 then Z.testbit b2 (n - 16) else if n <? 32 then Z.testbit b3 (n - 24) else false.
Proof.
  intros H0 H1 H2 H3 Hn.
  assert (E : b0 + 256 * b1 + 65536 * b2 + 16777216 * b3 =
    Z.lor b0 (Z.lor (Z.shiftl b1 8) (Z.lor (Z.shiftl b2 16) (Z.shiftl b3 24)))).
  { rewrite !Z.shiftl_mul_pow2 by lia.
    change (2 ^ 8) with 256. change (2 ^ 16) with 65536. change (2 ^ 24) with 16777216.
    replace (Z.lor (b2 * 65536) (b3 * 16777216)) with ((b2 + b3 * 2 ^ 8) * 2 ^ 16).
    2:{ rewrite <- (lor_add_low b2 b3 8) by lia. rewrite <- !Z.shiftl_mul_pow2, Z.shiftl_lor, Z.shiftl_shiftl by lia.
        rewrite !Z.shiftl_mul_pow2 by lia. reflexivity. }
    replace (Z.lor (b1 * 256) ((b2 + b3 * 2 ^ 8) * 2 ^ 16)) with ((b1 + (b2 + b3 * 2 ^ 8) * 2 ^ 8) * 2 ^ 8).
    2:{ rewrite <- (lor_add_low b1 _ 8) by lia. rewrite <- !Z.shiftl_mul_pow2, Z.shiftl_lor by lia.
        rewrite (Z.shiftl_shiftl _ 8 8), !Z.shiftl_mul_pow2 by lia. reflexivity. }
    rewrite lor_add_low by lia. lia. }
  rewrite E, !Z.lor_spec, !Z.shiftl_spec by lia.
  destruct (Z.ltb_spec n 8); [rewrite !(Z.testbit_neg_r _ (n - _)), !orb_false_r by lia; reflexivity|].
  rewrite (byte_bit b0 n), orb_false_l by lia.
  destruct (Z.ltb_spec n 16); [rewrite !(Z.testbit_neg_r _ (n - 16)), !(Z.testbit_neg_r _ (n - 24)), !orb_false_r by lia; reflexivity|].
  rewrite (byte_bit b1), orb_false_l by lia.
  destruct (Z.ltb_spec n 24); [rewrite !(Z.testbit_neg_r _ (n - 24)), !orb_false_r by lia; reflexivity|].
  rewrite (byte_bit b2), orb_false_l by lia.
  destruct (Z.ltb_spec n 32); [reflexivity|]. apply byte_bit; lia.
Qed.

Lemma u32_bits x n : 0 <= n -> Z.testbit (u32 x) n = if n <? 32 then Z.testbit x n else false.
Proof.
  intros Hn. unfold u32. change 4294967296 with (2 ^ 32).
  destruct (Z.ltb_spec n 32); [apply Z.mod_pow2_bits_low|apply Z.mod_pow2_bits_high]; lia.
Qed.

Lemma rol32_bits x k n :
  0 <= x < 4294967296 -> 0 < k < 32 -> 0 <= n ->
  Z.testbit (rol32 x k) n = if n <? 32 then Z.testbit x (if n <? k then n - k + 32 else n - k) else false.
Proof.
  intros Hx Hk Hn. unfold rol32.
  rewrite Z.lor_spec, u32_bits, Z.shiftl_spec, Z.shiftr_spec by lia.
  assert (Hhi : forall i, 32 <= i -> Z.testbit x i = false).
  { intros i Hi. rewrite <- (u32_small x Hx). rewrite u32_bits by lia.
    now destruct (Z.ltb_spec i 32); [lia|]. }
  destruct (Z.ltb_spec n 32); [|apply Hhi; lia]. destruct (Z.ltb_spec n k).
  - rewrite (Z.testbit_neg_r _ (n - k)), orb_false_l by lia. f_equal. lia.
  - rewrite (Hhi (n + _)) by lia. apply orb_false_r.
Qed.

Lemma word_bound p i : 0 <= word p i < 4294967296.
Proof.
  unfold word. pose proof (u8_bound (nth (4 * i + 0) p 0)). pose proof (u8_bound (nth (4 * i + 1) p 0)).
  pose proof (u8_bound (nth (4 * i + 2) p 0)). pose proof (u8_bound (nth (4 * i + 3) p 0)). lia.
Qed.

Lemma swap_bytes b0 b1 b2 b3 x :
  0 <= b0 < 256 -> 0 <= b1 < 256 -> 0 <= b2 < 256 -> 0 <= b3 < 256 ->
  x = b0 + 256 * b1 + 65536 * b2 + 16777216 * b3 ->
  Z.lor (Z.land (rol32 x 24) 4278255360) (Z.land (rol32 x 8) 16711935) =
    16777216 * b0 + 65536 * b1 + 256 * b2 + b3.
Proof.
  intros H0 H1 H2 H3 Ex. apply Z.bits_inj'. intros n Hn.
  rewrite Z.lor_spec, !Z.land_spec, !rol32_bits by lia.
  replace (16777216 * b0 + 65536 * b1 + 256 * b2 + b3)
    with (b3 + 256 * b2 + 65536 * b1 + 16777216 * b0) by lia.
  rewrite pack_bits by lia. destruct (Z.ltb_spec n 32) as [H32|H32].
  - assert (Hin : In n (map Z.of_nat (seq 0 32))).
    { apply in_map_iff. exists (Z.to_nat n). split; [lia|]. apply in_seq. lia. }
    cbn [map seq In Z.of_nat Pos.of_succ_nat Pos.succ] in Hin.
    pose proof (fun k => pack_bits b0 b1 b2 b3 k H0 H1 H2 H3) as Hx. rewrite <- Ex in Hx.
    clear Ex H0 H1 H2 H3 Hn H32.
    repeat (destruct Hin as [<-|Hin]; [cbn -[Z.testbit]; rewrite !Hx by lia; cbn -[Z.testbit];
      rewrite ?andb_true_r, ?andb_false_r, ?orb_false_r; reflexivity|]).
    contradiction.
  - rewrite !andb_false_l. destruct (Z.ltb_spec n 8), (Z.ltb_spec n 16), (Z.ltb_spec n 24); lia.
Qed.

Lemma blk0_word p i l :
  nth i l 0 = word p i -> blk0 l i = (be_word p i, list_set l i (be_word p i)).
Proof.
  intros E. unfold blk0. rewrite E.
  rewrite (swap_bytes (u8 (nth (4 * i + 0) p 0)) (u8 (nth (4 * i + 1) p 0)) (u8 (nth (4 * i + 2) p 0))
    (u8 (nth (4 * i + 3) p 0))) by (try apply u8_bound; reflexivity).
  reflexivity.
Qed.

(** *** The block after [t] rounds *)

Definition block_inv (p : list Z) (t : nat) (l : list Z) : Prop :=
  circular (W p) t l /\ (forall j, (t <= j < 16)%nat -> nth j l 0 = word p j).

Definition blk_of (t : nat) : list Z -> nat -> Z * list Z := if (t <? 16)%nat then blk0 else blk.

Lemma block_step p t l :
  block_inv p t l ->
  blk_of t l t = (W p t, list_set l (t mod 16) (W p t)) /\ block_inv p (S t) (list_set l (t mod 16) (W p t)).
Proof.
  intros (Hc & Hnew). split.
  - rewrite W_eq. unfold blk_of. destruct (Nat.ltb_spec t 16).
    + rewrite Nat.mod_small by lia. apply blk0_word, Hnew. lia.
    + unfold blk. now rewrite !(circular_nth _ _ _ _ Hc) by lia.
  - split; [now apply circular_set|]. intros j Hj.
    rewrite list_set_nth by (rewrite (proj1 Hc); apply Nat.mod_upper_bound; lia). rewrite Nat.mod_small by lia.
    destruct (Nat.eqb_spec j t); [lia|]. apply Hnew. lia.
Qed.

(** *** The rounds *)

Definition order := (reg * reg * reg * reg * reg)%type.
Definition view (o : order) (r : regs) : regs :=
  let '(v, w, x, y, z) := o in (get r v, get r w, get r x, get r y, get r z).
Definition rotate (o : order) : order := let '(v, w, x, y, z) := o in (z, v, w, x, y).
Definition order_of (t : nat) : order := Nat.iter t rotate (a, b, c, d, e).

Definition line_fun (t : nat) : Z -> Z -> Z -> Z :=
  match (t / 20)%nat with 0%nat => choice | 2%nat => majority | _ => parity end.
Definition line_of (t : nat) : line :=
  let '(v, w, x, y, z) := order_of t in mkLine (line_fun t) (blk_of t) (fips_K t) v w x y z t.

(** The 80 macro calls follow one pattern. *)
Lemma sha1_lines_pattern : sha1_lines = map line_of (seq 0 80).
Proof. reflexivity. Qed.

Lemma line_fun_fips t w x y : line_fun t w x y = fips_fun t w x y.
Proof.
  unfold line_fun, fips_fun, choice, majority, parity.
  destruct (t / 20)%nat as [|[|[|n]]]; try reflexivity; apply Z.bits_inj'; intros i Hi;
    repeat (rewrite ?Z.lxor_spec, ?Z.lor_spec, ?Z.land_spec); rewrite ?Z.lnot_spec by exact Hi;
    destruct (Z.testbit w i), (Z.testbit x i), (Z.testbit y i); reflexivity.
Qed.

Lemma sha1_order_cases t :
  In (order_of t) [(a, b, c, d, e); (e, a, b, c, d); (d, e, a, b, c); (c, d, e, a, b); (b, c, d, e, a)].
Proof.
  induction t as [|t IH]; [now left|].
  change (order_of (S t)) with (rotate (order_of t)).
  cbn [In] in IH |- *. intuition (match goal with E : _ = order_of t |- _ => rewrite <- E end); cbn; auto 6.
Qed.

Lemma add32_line z f w k r : add32 z (add32 (add32 (add32 f w) k) r) = add32 (add32 (add32 (add32 r f) z) w) k.
Proof.
  rewrite !add32_assoc, (add32_comm r), !add32_assoc, (add32_swap z). reflexivity.
Qed.

Lemma sha1_exec_line p t r l :
  block_inv p t l ->
  let '(r', l') := exec (r, l) (line_of t) in
  view (order_of (S t)) r' = fips_step (W p) (view (order_of t) r) t /\ block_inv p (S t) l'.
Proof.
  intros Hl. destruct (block_step p t l Hl) as [E Hl'].
  change (order_of (S t)) with (rotate (order_of t)).
  unfold line_of. pose proof (sha1_order_cases t) as Ho. cbn [In] in Ho.
  destruct r as [[[[ra rb] rc] rd] re].
  destruct Ho as [<-|[<-|[<-|[<-|[<-|[]]]]]]; unfold exec; cbn [l_blk l_i l_f l_K l_v l_w l_x l_y l_z];
    rewrite E; (split; [|exact Hl']); cbn [view rotate get put fips_step];
    rewrite add32_line, line_fun_fips; reflexivity.
Qed.

Lemma sha1_exec_lines p n t r l :
  block_inv p t l ->
  view (order_of (t + n)) (fst (fold_left exec (map line_of (seq t n)) (r, l))) =
  fold_left (fips_step (W p)) (seq t n) (view (order_of t) r).
Proof.
  revert t r l. induction n as [|n IH]; intros t r l H; cbn [seq map fold_left].
  - now rewrite Nat.add_0_r.
  - pose proof (sha1_exec_line p t r l H) as Hs. destruct (exec (r, l) (line_of t)) as [r' l'].
    destruct Hs as [<- Hl']. rewrite <- (IH (S t) r' l' Hl'). f_equal. f_equal. lia.
Qed.

Lemma block_inv_start p : block_inv p 0 (map (word p) (seq 0 16)).
Proof.
  split; [split; [now rewrite length_map, length_seq|intros; lia]|].
  intros j Hj. rewrite nth_indep with (d' := word p 0) by (rewrite length_map, length_seq; lia).
  rewrite map_nth. now rewrite seq_nth by lia.
Qed.

Lemma SHA1_Transform_fips s data : SHA1_Transform s data = fips_process s data.
Proof.
  unfold SHA1_Transform, fips_process. f_equal. rewrite sha1_lines_pattern.
  pose proof (sha1_exec_lines data 80 0 s _ (block_inv_start data)) as E.
  rewrite (fold_left_ext_in _ (fips_step (W data))).
  2:{ intros [[[[A B] C] D] F] t Ht. apply in_seq in Ht. unfold fips_step. now rewrite nth_schedule by lia. }
  destruct s as [[[[sa sb] sc] sd] se]. change (view (order_of 0) (sa, sb, sc, sd, se)) with (sa, sb, sc, sd, se) in E.
  rewrite <- E. change (order_of (0 + 80)) with (a, b, c, d, e).
  now destruct (fst _) as [[[[ra rb] rc] rd] re].
Qed.

(** ** What a context stands for *)

Definition IV : regs := (1732584193, 4023233417, 2562383102, 271733878, 3285377520).

Definition sha1_rep (p : SHA1_CTX) (m : list Z) : Prop :=
  count p = (lo32 (bit_length m), hi32 (bit_length m)) /\ holds (buffer p) m /\
  state p = chain SHA1_Transform 64 IV m.

Definition sha1_reference (m : list Z) : list Z :=
  let '(A, B, C, D, E) := chain fips_process 64 IV (padded (be_bytes 8) m) in
  flat_map (be_bytes 4) [A; B; C; D; E].

(** The carry is recognised by the low word getting smaller, which works for
    less than [2 ^ 29] bytes. *)
Lemma sha1_update_count N n :
  0 <= n < 536870912 ->
  let c0 := add32 (lo32 N) (u32 (Z.shiftl n 3)) in
  (c0, if c0 <? lo32 N then add32 (hi32 N) (add32 (Z.shiftr n 29) 1) else hi32 N) =
    (lo32 (N + 8 * n), hi32 (N + 8 * n)).
Proof.
  intros Hn. cbv zeta. rewrite Z.shiftl_mul_pow2, Z.shiftr_div_pow2, (Z.mul_comm n) by lia.
  change (2 ^ 3) with 8. change (2 ^ 29) with 536870912.
  destruct (count_add N n ltac:(lia)) as [E0 E1]. cbv zeta in E0, E1.
  rewrite (u32_small (8 * n)) in * by lia. rewrite (Z.div_small n) in * by lia.
  replace (add32 (hi32 N) 0) with (hi32 N) in E1
    by (unfold add32; rewrite Z.add_0_r, u32_small; [reflexivity|apply u32_bound]).
  change (add32 0 1) with 1. rewrite <- E1, <- E0. f_equal. unfold add32, u32.
  pose proof (u32_bound N) as HN. fold (lo32 N) in HN.
  pose proof (Z.div_mod (lo32 N + 8 * n) 4294967296 ltac:(lia)) as Ed.
  pose proof (Z.mod_pos_bound (lo32 N + 8 * n) 4294967296 ltac:(lia)).
  assert (0 <= (lo32 N + 8 * n) / 4294967296 < 2) by (split; [apply Z.div_pos; lia|apply Z.div_lt_upper_bound; lia]).
  assert (Hb : ((lo32 N + 8 * n) mod 4294967296 <? lo32 N) = ((lo32 N + 8 * n) mod 4294967296 <? 8 * n)).
  { destruct (Z.ltb_spec ((lo32 N + 8 * n) mod 4294967296) (lo32 N)), (Z.ltb_spec ((lo32 N + 8 * n) mod 4294967296) (8 * n));
      try reflexivity; exfalso; nia. }
  now rewrite Hb.
Qed.

Lemma sha1_update_rep p m d :
  sha1_rep p m -> Z.of_nat (length d) < 536870912 ->
  exists p', SHA1_Update p d = Ok p' /\ sha1_rep p' (m ++ d).
Proof.
  intros (Ec & Hb & Es) Hd. unfold SHA1_Update. rewrite (u32_small (Z.of_nat (length d))) by lia.
  rewrite Ec. cbn [fst snd]. pose proof (sha1_update_count (bit_length m) (Z.of_nat (length d)) ltac:(lia)) as Hc.
  cbv zeta in Hc |- *. rewrite <- bit_length_app in Hc. rewrite Hc. clear Hc.
  rewrite counter_offset, Nat2Z.id. set (o := (length m mod 64)%nat) in *.
  assert (Ho : (o < 64)%nat) by (apply Nat.mod_upper_bound; lia).
  unfold add32. rewrite u32_small by lia.
  destruct (Z.ltb_spec 63 (Z.of_nat o + Z.of_nat (length d))) as [Hfull|Hpart].
  - destruct (fill_block (buffer p) m d Hb ltac:(fold o; lia)) as [E Hl]. fold o in E, Hl. rewrite E. cbn [bind].
    destruct (absorb_block SHA1_Transform IV m d ltac:(fold o; lia)) as [Ech Er]. fold o in Ech, Er.
    rewrite full_blocks_spec by (try rewrite length_skipn; lia).
    destruct (fill_rest _ (m ++ d) _ Hl Er) as (buf & E' & Hh). rewrite E'. cbn [bind].
    eexists. split; [reflexivity|]. unfold sha1_rep. cbn [count buffer state].
    splits; [reflexivity|exact Hh|]. rewrite Ech, Es. reflexivity.
  - destruct (fill_partial SHA1_Transform IV m (buffer p) d Hb ltac:(fold o; lia)) as (buf' & E & Hh & Hch).
    fold o in E. rewrite E. cbn [bind]. eexists. split; [reflexivity|].
    unfold sha1_rep. cbn [count buffer state]. rewrite Hch. auto.
Qed.

Lemma land_504 x : Z.land x 504 = 8 * Z.land (Z.shiftr x 3) 63.
Proof.
  rewrite (Z.mul_comm 8). change 8 with (2 ^ 3). rewrite <- Z.shiftl_mul_pow2 by lia.
  apply Z.bits_inj'. intros n Hn. change 504 with (Z.shiftl 63 3).
  rewrite Z.land_spec, !Z.shiftl_spec by lia. destruct (Z.ltb_spec n 3).
  - rewrite !(Z.testbit_neg_r _ (n - 3)) by lia. apply andb_false_r.
  - rewrite Z.land_spec, Z.shiftr_spec by lia. now replace (n - 3 + 3) with n by lia.
Qed.

(** Zero bytes are added until 56 bytes are used in the block. *)
Lemma pad_loop_rep fuel p m :
  sha1_rep p m -> (Z.to_nat ((56 - Z.of_nat (length m)) mod 64) < fuel)%nat ->
  exists p', pad_loop fuel p = Ok p' /\ sha1_rep p' (m ++ repeat 0 (Z.to_nat ((56 - Z.of_nat (length m)) mod 64))).
Proof.
  revert p m. induction fuel as [|fuel IH]; intros p m Hr Hf; [lia|].
  cbn [pad_loop]. pose proof Hr as (Ec & _ & _). rewrite Ec. cbn [fst].
  rewrite land_504, counter_offset, Nat2Z.inj_mod. change (Z.of_nat 64) with 64.
  set (n := Z.of_nat (length m)) in *.
  pose proof (Z.mod_pos_bound n 64 ltac:(lia)). pose proof (Z.div_mod n 64 ltac:(lia)).
  destruct (Z.eqb_spec (8 * (n mod 64)) 448) as [E|E].
  - replace ((56 - n) mod 64) with 0.
    2:{ apply Z.mod_unique with (- (n / 64)); lia. }
    cbn [Z.to_nat repeat]. rewrite app_nil_r. eauto.
  - destruct (sha1_update_rep p m [0] Hr ltac:(cbn; lia)) as (p1 & E1 & R1). rewrite E1. cbn [bind].
    assert (Hz : Z.to_nat ((56 - n) mod 64) =
      S (Z.to_nat ((56 - Z.of_nat (length (m ++ [0]))) mod 64))).
    { rewrite length_app, Nat2Z.inj_add. fold n. cbn [length Z.of_nat Pos.of_succ_nat].
      pose proof (Z.mod_pos_bound (56 - n) 64 ltac:(lia)). pose proof (Z.div_mod (56 - n) 64 ltac:(lia)).
      assert ((56 - n) mod 64 <> 0) by lia.
      rewrite <- (Z.mod_unique (56 - (n + 1)) 64 ((56 - n) / 64) ((56 - n) mod 64 - 1)) by lia. lia. }
    destruct (IH p1 (m ++ [0]) R1 ltac:(lia)) as (p' & E' & R'). exists p'. split; [exact E'|].
    rewrite Hz. rewrite <- app_assoc in R'. exact R'.
Qed.

Lemma be_bytes_shifts z :
  be_bytes 4 z = map (fun i => u8 (Z.land (Z.shiftr z ((3 - Z.of_nat i) * 8)) 255)) (seq 0 4).
Proof.
  unfold be_bytes. rewrite le_bytes_shifts.
  assert (E : forall k, u8 (Z.land (Z.shiftr z k) 255) = u8 (Z.shiftr z k)).
  { intros k. change 255 with (Z.ones 8). rewrite Z.land_ones by lia. apply u8_small.
    apply Z.mod_pos_bound. lia. }
  cbn [seq map rev app]. now rewrite !E.
Qed.

Lemma sha1_bytes_of_words w n :
  map (byte_of w) (seq 0 (4 * n)) = flat_map (fun i => be_bytes 4 (w i)) (seq 0 n).
Proof.
  induction n as [|n IH]; [reflexivity|].
  rewrite seq_S, flat_map_app, <- IH. replace (4 * S n)%nat with (4 * n + 4)%nat by lia.
  rewrite seq_app, map_app. f_equal. cbn [flat_map Nat.add]. rewrite app_nil_r, be_bytes_shifts.
  replace (seq (4 * n) 4) with (map (fun j => 4 * n + j)%nat (seq 0 4))
    by (cbn; repeat (f_equal; try lia)).
  rewrite map_map. apply map_ext_in. intros j Hj. apply in_seq in Hj. unfold byte_of.
  assert ((4 * n + j) / 4 = n)%nat as -> by (rewrite Nat.mul_comm, Nat.div_add_l, Nat.div_small; lia).
  change 3 with (Z.ones 2) at 2. rewrite Z.land_ones by lia. change (2 ^ 2) with 4.
  replace (Z.of_nat (4 * n + j)) with (Z.of_nat j + Z.of_nat n * 4) by lia.
  rewrite Z.mod_add, (Z.mod_small (Z.of_nat j)) by lia. reflexivity.
Qed.

Lemma sha1_finish_rep p m :
  sha1_rep p m -> exists p', SHA1_Finish p = Ok (sha1_reference m, p') /\ length (buffer p') = 64%nat.
Proof.
  intros Hr. pose proof Hr as (Ec & _ & _). unfold SHA1_Finish.
  rewrite (sha1_bytes_of_words _ 2), Ec. cbn [seq flat_map fst snd].
  replace (be_bytes 4 (hi32 (bit_length m)) ++ be_bytes 4 (lo32 (bit_length m)) ++ [])
    with (be_bytes 8 (bit_length m))
    by (unfold be_bytes; now rewrite app_nil_r, <- rev_app_distr, le_bytes_counter).
  destruct (sha1_update_rep p m [128] Hr ltac:(cbn; lia)) as (p1 & E1 & R1). rewrite E1. cbn [bind].
  destruct (pad_loop_rep 65 p1 _ R1) as (p2 & E2 & R2).
  { pose proof (Z.mod_pos_bound (56 - Z.of_nat (length (m ++ [128]))) 64 ltac:(lia)). lia. }
  rewrite E2. cbn [bind].
  destruct (sha1_update_rep p2 _ (be_bytes 8 (bit_length m)) R2) as (p3 & E3 & R3).
  { unfold be_bytes. rewrite length_rev, le_bytes_length. lia. }
  rewrite E3. cbn [bind]. exists p3. split; [|apply R3]. f_equal. f_equal.
  rewrite (sha1_bytes_of_words _ 5). unfold sha1_reference.
  replace (padded (be_bytes 8) m) with
    (((m ++ [128]) ++ repeat 0 (Z.to_nat ((56 - Z.of_nat (length (m ++ [128]))) mod 64))) ++ be_bytes 8 (bit_length m)).
  2:{ unfold padded, pad_zeros. rewrite <- !app_assoc, length_app. cbn [app length].
      replace (56 - Z.of_nat (length m + 1)) with (55 - Z.of_nat (length m)) by lia. reflexivity. }
  rewrite <- (chain_ext SHA1_Transform) by apply SHA1_Transform_fips.
  destruct R3 as (_ & _ & ->). destruct (chain SHA1_Transform 64 IV _) as [[[[A B] C] D] E]. reflexivity.
Qed.

#[export] Instance sha1_laws : DigestLaws sha1.
Proof.
  refine {| shape := fun p => length (buffer p) = 64%nat;
            rep := sha1_rep; hash := sha1_reference; max_chunk := 536870912 |}.
  - intros p Hl. unfold sha1_rep. splits; [reflexivity|now apply fill_rest_none|reflexivity].
  - exact sha1_update_rep.
  - exact sha1_finish_rep.
  - intros p m (_ & [H _] & _). exact H.
  - intros m. cbn [digest_len sha1]. unfold sha1_reference.
    destruct (chain fips_process 64 IV _) as [[[[A B] C] D] E]. reflexivity.
  - cbn. unfold LONG_MAX. lia.
Defined.

(** ** Properties *)

(** C27: a [Digest::SHA1] object fed a message in pieces below 512 MB computes
    the SHA-1 of FIPS 180-1: the 16-word circular schedule and the 80 unrolled
    macro calls are the loop over the 80-word schedule, and the padding loop
    ends. *)
Theorem sha1_streams pctx chunks :
  length (buffer pctx) = 64%nat -> Forall (fun d => Z.of_nat (length d) < 536870912) chunks ->
  digest_chunks pctx chunks = Ok (sha1_reference (concat chunks)).
Proof. exact (digest_chunks_ok (laws := sha1_laws) pctx chunks). Qed.

Definition raw : SHA1_CTX := mkSHA1 (1, 2, 3, 4, 5) (7, 7) (repeat 205 64).

(** [abc] in two pieces: [a9993e36...]. *)
Lemma sha1_streams_witness :
  digest_chunks raw [[97; 98]; [99]] = Ok (sha1_reference [97; 98; 99]) /\
  sha1_reference [97; 98; 99] =
    [169; 153; 62; 54; 71; 6; 129; 106; 186; 62; 37; 113; 120; 80; 194; 108; 156; 208; 216; 157].
Proof.
  split; [|vm_compute; reflexivity]. apply (sha1_streams raw [[97; 98]; [99]]); [reflexivity|repeat constructor].
Defined.

(** The length of a piece of exactly [2 ^ 29] bytes is lost: the high word
    of the bit counter is only touched when the low word shows a carry, so that a
    context that has received 512 MB at once counts zero bits. *)
Theorem sha1_count_lost p d :
  length (buffer p) = 64%nat -> count p = (0, 0) -> Z.of_nat (length d) = 536870912 ->
  exists p', SHA1_Update p d = Ok p' /\ count p' = (0, 0).
Proof.
  intros Hl Ec Hd. unfold SHA1_Update. rewrite Hd, Ec. cbn [fst snd].
  change (u32 536870912) with 536870912.
  change (add32 0 (u32 (Z.shiftl 536870912 3))) with 0. change (0 <? 0) with false. cbv iota zeta.
  change (Z.land (Z.shiftr 0 3) 63) with 0. change (63 <? add32 0 536870912) with true. cbv iota.
  change (Z.to_nat 0) with 0%nat.
  assert (H64 : length (firstn (64 - 0) d) = 64%nat) by (rewrite length_firstn; lia).
  rewrite memcpy_ok by lia. cbn [bind]. rewrite full_blocks_spec by (try rewrite length_skipn; lia).
  set (buf := firstn 0 (buffer p) ++ _).
  assert (Hb : length buf = 64%nat)
    by (unfold buf; rewrite !length_app, length_skipn, H64, length_firstn; lia).
  pose proof (rest64_bound (skipn (64 - 0) d)) as Hr. rewrite memcpy_ok by lia. cbn [bind]. eauto.
Qed.

Lemma sha1_count_lost_witness :
  exists p', SHA1_Update (SHA1_Init raw) (repeat 0 (Z.to_nat 536870912)) = Ok p' /\ count p' = (0, 0).
Proof.
  apply (sha1_count_lost (SHA1_Init raw) (repeat 0 (Z.to_nat 536870912))); [reflexivity|reflexivity|].
  rewrite repeat_length. apply Z2Nat.id. lia.
Defined.
