(* ===== verification/Rmd160.v ===== *)
(** * RIPEMD-160

    src/ruby/ext/digest/rmd160/rmd160.c.  [RMD160_Transform] is written out as
    two lines of 80 macro calls; [ripemd_process] is the loop of the
    algorithm's definition with the permutations [rho] and [pi] of the message
    words.  [length] counts bytes. *)

From Stdlib Require Import ZArith Lia List Bool.
From S2P Require Import Prelude CInt Digest.
Import ListNotations.
Local Open Scope Z_scope.
Local Open Scope outcome_scope.

Definition regs := (Z * Z * Z * Z * Z)%type.

(** [RMD160_CTX]. *)
Record RMD160_CTX := mkRMD { state : regs; len : Z * Z; bbuffer : list Z; buflen : Z }.

(** The local variables [aa], ..., [ee] of the left line, or [aaa], ...,
    [eee] of the right one. *)
Inductive reg := a | b | c | d | e.

Definition get (r : regs) (x : reg) : Z :=
  let '(ra, rb, rc, rd, re) := r in match x with a => ra | b => rb | c => rc | d => rd | e => re end.
Definition put (r : regs) (x : reg) (v : Z) : regs :=
  let '(ra, rb, rc, rd, re) := r in
  match x with
  | a => (v, rb, rc, rd, re)
  | b => (ra, v, rc, rd, re)
  | c => (ra, rb, v, rd, re)
  | d => (ra, rb, rc, v, re)
  | e => (ra, rb, rc, rd, v)
  end.

(** The three basic functions and the two others. *)
Definition F (x y z : Z) : Z := Z.lxor (Z.lxor x y) z.
Definition G (x y z : Z) : Z := Z.lor (Z.land x y) (Z.land (not32 x) z).
Definition H (x y z : Z) : Z := Z.lxor (Z.lor x (not32 y)) z.
Definition I (x y z : Z) : Z := Z.lor (Z.land x z) (Z.land y (not32 z)).
Definition J (x y z : Z) : Z := Z.lxor x (Z.lor y (not32 z)).

(** A macro call [FF(a, b, c, d, e, block[k], s)]:
    [(a) += f((b), (c), (d)) + (x) + K; (a) = ROL((a), (s)) + (e); (c) = ROL((c), 10);].
    [FF] and [FFF] add no constant, which is [K = 0]. *)
Record line := mkLine { l_f : Z -> Z -> Z -> Z; l_K : Z;
                        l_a : reg; l_b : reg; l_c : reg; l_d : reg; l_e : reg; l_k : nat; l_s : Z }.

Definition exec (block : nat -> Z) (r : regs) (l : line) : regs :=
  let f := l_f l (get r (l_b l)) (get r (l_c l)) (get r (l_d l)) in
  let r := put r (l_a l) (add32 (get r (l_a l)) (add32 (add32 f (block (l_k l))) (l_K l))) in
  let r := put r (l_a l) (add32 (rol32 (get r (l_a l)) (l_s l)) (get r (l_e l))) in
  put r (l_c l) (rol32 (get r (l_c l)) 10).

Definition FF := mkLine F 0.
Definition GG := mkLine G 1518500249.
Definition HH := mkLine H 1859775393.
Definition II := mkLine I 2400959708.
Definition JJ := mkLine J 2840853838.
Definition FFF := mkLine F 0.
Definition GGG := mkLine G 2053994217.
Definition HHH := mkLine H 1836072691.
Definition III := mkLine I 1548603684.
Definition JJJ := mkLine J 1352829926.

Definition left_lines : list line := [
  FF a b c d e 0 11; FF e a b c d 1 14; FF d e a b c 2 15; FF c d e a b 3 12;
  FF b c d e a 4 5; FF a b c d e 5 8; FF e a b c d 6 7; FF d e a b c 7 9;
  FF c d e a b 8 11; FF b c d e a 9 13; FF a b c d e 10 14; FF e a b c d 11 15;
  FF d e a b c 12 6; FF c d e a b 13 7; FF b c d e a 14 9; FF a b c d e 15 8;
  GG e a b c d 7 7; GG d e a b c 4 6; GG c d e a b 13 8; GG b c d e a 1 13;
  GG a b c d e 10 11; GG e a b c d 6 9; GG d e a b c 15 7; GG c d e a b 3 15;
  GG b c d e a 12 7; GG a b c d e 0 12; GG e a b c d 9 15; GG d e a b c 5 9;
  GG c d e a b 2 11; GG b c d e a 14 7; GG a b c d e 11 13; GG e a b c d 8 12;
  HH d e a b c 3 11; HH c d e a b 10 13; HH b c d e a 14 6; HH a b c d e 4 7;
  HH e a b c d 9 14; HH d e a b c 15 9; HH c d e a b 8 13; HH b c d e a 1 15;
  HH a b c d e 2 14; HH e a b c d 7 8; HH d e a b c 0 13; HH c d e a b 6 6;
  HH b c d e a 13 5; HH a b c d e 11 12; HH e a b c d 5 7; HH d e a b c 12 5;
  II c d e a b 1 11; II b c d e a 9 12; II a b c d e 11 14; II e a b c d 10 15;
  II d e a b c 0 14; II c d e a b 8 15; II b c d e a 12 9; II a b c d e 4 8;
  II e a b c d 13 9; II d e a b c 3 14; II c d e a b 7 5; II b c d e a 15 6;
  II a b c d e 14 8; II e a b c d 5 6; II d e a b c 6 5; II c d e a b 2 12;
  JJ b c d e a 4 9; JJ a b c d e 0 15; JJ e a b c d 5 5; JJ d e a b c 9 11;
  JJ c d e a b 7 6; JJ b c d e a 12 8; JJ a b c d e 2 13; JJ e a b c d 10 12;
  JJ d e a b c 14 5; JJ c d e a b 1 12; JJ b c d e a 3 13; JJ a b c d e 8 14;
  JJ e a b c d 11 11; JJ d e a b c 6 8; JJ c d e a b 15 5; JJ b c d e a 13 6].

Definition right_lines : list line := [
  JJJ a b c d e 5 8; JJJ e a b c d 14 9; JJJ d e a b c 7 9; JJJ c d e a b 0 11;
  JJJ b c d e a 9 13; JJJ a b c d e 2 15; JJJ e a b c d 11 15; JJJ d e a b c 4 5;
  JJJ c d e a b 13 7; JJJ b c d e a 6 7; JJJ a b c d e 15 8; JJJ e a b c d 8 11;
  JJJ d e a b c 1 14; JJJ c d e a b 10 14; JJJ b c d e a 3 12; JJJ a b c d e 12 6;
  III e a b c d 6 9; III d e a b c 11 13; III c d e a b 3 15; III b c d e a 7 7;
  III a b c d e 0 12; III e a b c d 13 8; III d e a b c 5 9; III c d e a b 10 11;
  III b c d e a 14 7; III a b c d e 15 7; III e a b c d 8 12; III d e a b c 12 7;
  III c d e a b 4 6; III b c d e a 9 15; III a b c d e 1 13; III e a b c d 2 11;
  HHH d e a b c 15 9; HHH c d e a b 5 7; HHH b c d e a 1 15; HHH a b c d e 3 11;
  HHH e a b c d 7 8; HHH d e a b c 14 6; HHH c d e a b 6 6; HHH b c d e a 9 14;
  HHH a b c d e 11 12; HHH e a b c d 8 13; HHH d e a b c 12 5; HHH c d e a b 2 14;
  HHH b c d e a 10 13; HHH a b c d e 0 13; HHH e a b c d 4 7; HHH d e a b c 13 5;
  GGG c d e a b 8 15; GGG b c d e a 6 5; GGG a b c d e 4 8; GGG e a b c d 1 11;
  GGG d e a b c 3 14; GGG c d e a b 11 14; GGG b c d e a 15 6; GGG a b c d e 0 14;
  GGG e a b c d 5 6; GGG d e a b c 12 9; GGG c d e a b 2 12; GGG b c d e a 13 9;
  GGG a b c d e 9 12; GGG e a b c d 7 5; GGG d e a b c 10 15; GGG c d e a b 14 8;
  FFF b c d e a 12 8; FFF a b c d e 15 5; FFF e a b c d 10 12; FFF d e a b c 4 9;
  FFF c d e a b 1 12; FFF b c d e a 5 5; FFF a b c d e 8 14; FFF e a b c d 7 6;
  FFF d e a b c 6 8; FFF c d e a b 2 13; FFF b c d e a 13 6; FFF a b c d e 14 5;
  FFF e a b c d 0 15; FFF d e a b c 3 13; FFF c d e a b 9 11; FFF b c d e a 11 11].

(** [combine results]. *)
Definition combine (s l r : regs) : regs :=
  let '(s0, s1, s2, s3, s4) := s in
  let '(aa, bb, cc, dd, ee) := l in
  let '(aaa, bbb, ccc, ddd, eee) := r in
  (add32 ddd (add32 cc s1), add32 (add32 s2 dd) eee, add32 (add32 s3 ee) aaa,
   add32 (add32 s4 aa) bbb, add32 (add32 s0 bb) ccc).

Definition RMD160_Transform (state : regs) (block : list Z) : regs :=
  let X k := nth k block 0 in
  combine state (fold_left (exec X) left_lines state) (fold_left (exec X) right_lines state).

Definition RMD160_Init (context : RMD160_CTX) : RMD160_CTX :=
  mkRMD (1732584193, 4023233417, 2562383102, 271733878, 3285377520) (0, 0) (bbuffer context) 0.

(** [memcpy(X, p, sizeof(X))]: 16 words of the machine. *)
Definition words (p : list Z) : list Z := map (word p) (seq 0 16).

Definition rmd_block (state : regs) (p : list Z) : regs := RMD160_Transform state (words p).

(** [for (i = 0; i < (nbytes >> 6); i++)] over the data behind the first
    block. *)
Fixpoint block_loop (n : nat) (state : regs) (p : list Z) : regs * list Z :=
  match n with
  | O => (state, p)
  | S n' => block_loop n' (rmd_block state (firstn 64 p)) (skipn 64 p)
  end.

Definition RMD160_Update (context : RMD160_CTX) (data : list Z) : outcome RMD160_CTX :=
  let nbytes := u32 (Z.of_nat (length data)) in
  let l0 := add32 (fst (len context)) nbytes in
  let l1 := if l0 <? fst (len context) then add32 (snd (len context)) 1 else snd (len context) in
  if add32 (buflen context) nbytes <? 64 then
    buf <- memcpy (bbuffer context) (Z.to_nat (buflen context)) data ;;
    Ok (mkRMD (state context) (l0, l1) buf (add32 (buflen context) nbytes))
  else
    let ofs := u32 (64 - buflen context) in
    buf <- memcpy (bbuffer context) (Z.to_nat (buflen context)) (firstn (Z.to_nat ofs) data) ;;
    let st := rmd_block (state context) buf in
    let nbytes := u32 (nbytes - ofs) in
    let '(st, p) := block_loop (Z.to_nat (Z.shiftr nbytes 6)) st (skipn (Z.to_nat ofs) data) in
    let buflen := Z.land nbytes 63 in
    buf <- memcpy buf 0 (firstn (Z.to_nat buflen) p) ;;
    Ok (mkRMD st (l0, l1) buf buflen).

Definition state_nth (s : regs) (i : nat) : Z :=
  let '(s0, s1, s2, s3, s4) := s in nth i [s0; s1; s2; s3; s4] 0.

Definition RMD160_Finish (context : RMD160_CTX) : outcome (list Z * RMD160_CTX) :=
  let n := buflen context in
  if n <? 64 then
    (* Append the bit m_n == 1 and clear the rest of the buffer. *)
    let buf := firstn (Z.to_nat n) (bbuffer context) ++ 128 :: repeat 0 (Z.to_nat (63 - n)) in
    let X := words buf in
    let '(st, X) :=
      if 55 <? n then (RMD160_Transform (state context) X, repeat 0 16) else (state context, X) in
    (* Append length in bits. *)
    let X := list_set X 14 (u32 (Z.shiftl (fst (len context)) 3)) in
    let X := list_set X 15
      (Z.lor (Z.shiftr (fst (len context)) 29) (u32 (Z.shiftl (snd (len context)) 3))) in
    let st := RMD160_Transform st X in
    Ok (flat_map (fun i => let w := state_nth st i in
          [u8 w; u8 (Z.shiftr w 8); u8 (Z.shiftr w 16); u8 (Z.shiftr w 24)]) (seq 0 5),
        mkRMD st (len context) buf n)
  else Undefined.

(** rmd160init.c: the table [rmd160]. *)
#[export] Instance rmd160 : rb_digest_metadata := {|
  CTX := RMD160_CTX;
  digest_len := 20;
  block_len := 64;
  init_func := RMD160_Init;
  update_func := RMD160_Update;
  finish_func := RMD160_Finish
|}.

(** ** The definition of RIPEMD-160 *)

Definition rho (i : nat) : nat := nth i [7; 4; 13; 1; 10; 6; 15; 3; 12; 0; 9; 5; 2; 14; 11; 8]%nat 0%nat.
Definition pi (i : nat) : nat := ((9 * i + 5) mod 16)%nat.

(** Word and shift of step [j]; the shifts are given per round and word. *)
Definition left_word (j : nat) : nat := Nat.iter (j / 16)%nat rho (j mod 16)%nat.
Definition right_word (j : nat) : nat := Nat.iter (j / 16)%nat rho (pi (j mod 16)%nat).
Definition shifts : list (list Z) := [
  [11; 14; 15; 12; 5; 8; 7; 9; 11; 13; 14; 15; 6; 7; 9; 8];
  [12; 13; 11; 15; 6; 9; 9; 7; 12; 15; 11; 13; 7; 8; 7; 7];
  [13; 15; 14; 11; 7; 7; 6; 8; 13; 14; 13; 12; 5; 5; 6; 9];
  [14; 11; 12; 14; 8; 6; 5; 5; 15; 12; 15; 14; 9; 9; 8; 6];
  [15; 12; 13; 13; 9; 5; 8; 6; 14; 11; 12; 11; 8; 6; 5; 5]].
Definition shift (j k : nat) : Z := nth k (nth (j / 16)%nat shifts []) 0.

Definition fun_at (round : nat) : Z -> Z -> Z -> Z :=
  match round with 0%nat => F | 1%nat => G | 2%nat => H | 3%nat => I | _ => J end.
Definition left_K (j : nat) : Z := nth (j / 16)%nat [0; 1518500249; 1859775393; 2400959708; 2840853838] 0.
Definition right_K (j : nat) : Z := nth (j / 16)%nat [1352829926; 1548603684; 1836072691; 2053994217; 0] 0.

(** [T := rol_s(A + f(B, C, D) + X[r] + K) + E; A := E; E := D;
    D := rol_10(C); C := B; B := T]. *)
Definition ripemd_step (f : Z -> Z -> Z -> Z) (K : Z) (X : Z) (s : Z) (st : regs) : regs :=
  let '(A, B, C, D, E) := st in
  let T := add32 (rol32 (add32 (add32 (add32 A (f B C D)) X) K) s) E in
  (E, T, B, rol32 C 10, D).

Definition left_step (X : nat -> Z) (st : regs) (j : nat) : regs :=
  ripemd_step (fun_at (j / 16)%nat) (left_K j) (X (left_word j)) (shift j (left_word j)) st.
Definition right_step (X : nat -> Z) (st : regs) (j : nat) : regs :=
  ripemd_step (fun_at (4 - j / 16)%nat) (right_K j) (X (right_word j)) (shift j (right_word j)) st.

(** [T := h1 + C + D'; h1 := h2 + D + E'; h2 := h3 + E + A'; h3 := h4 + A + B';
    h4 := h0 + B + C'; h0 := T]. *)
Definition ripemd_process (h : regs) (p : list Z) : regs :=
  let '(h0, h1, h2, h3, h4) := h in
  let '(A, B, C, D, E) := fold_left (left_step (word p)) (seq 0 80) h in
  let '(A', B', C', D', E') := fold_left (right_step (word p)) (seq 0 80) h in
  (add32 (add32 h1 C) D', add32 (add32 h2 D) E', add32 (add32 h3 E) A', add32 (add32 h4 A) B',
   add32 (add32 h0 B) C').

Definition order := (reg * reg * reg * reg * reg)%type.
Definition view (o : order) (r : regs) : regs :=
  let '(v, w, x, y, z) := o in (get r v, get r w, get r x, get r y, get r z).
Definition rotate (o : order) : order := let '(v, w, x, y, z) := o in (z, v, w, x, y).
Definition order_of (t : nat) : order := Nat.iter t rotate (a, b, c, d, e).

(** A line whose function, constant, word and shift depend on its number. *)
Section Line.
Variables (f : nat -> Z -> Z -> Z -> Z) (K : nat -> Z) (k : nat -> nat) (s : nat -> Z).

Definition line_of (j : nat) : line :=
  let '(v, w, x, y, z) := order_of j in mkLine (f j) (K j) v w x y z (k j) (s j).

Lemma rmd_order_cases t :
  In (order_of t) [(a, b, c, d, e); (e, a, b, c, d); (d, e, a, b, c); (c, d, e, a, b); (b, c, d, e, a)].
Proof.
  induction t as [|t IH]; [now left|].
  change (order_of (S t)) with (rotate (order_of t)).
  cbn [In] in IH |- *. intuition (match goal with E : _ = order_of t |- _ => rewrite <- E end); cbn; auto 6.
Qed.

Lemma rmd_exec_line X j r :
  view (order_of (S j)) (exec X r (line_of j)) =
    ripemd_step (f j) (K j) (X (k j)) (s j) (view (order_of j) r).
Proof.
  change (order_of (S j)) with (rotate (order_of j)).
  unfold line_of. pose proof (rmd_order_cases j) as Ho. cbn [In] in Ho.
  destruct r as [[[[ra rb] rc] rd] re].
  destruct Ho as [<-|[<-|[<-|[<-|[<-|[]]]]]]; unfold exec; cbn [l_f l_K l_a l_b l_c l_d l_e l_k l_s];
    cbn [view rotate get put ripemd_step]; rewrite <- !add32_assoc; reflexivity.
Qed.

Lemma rmd_exec_lines X n j r :
  view (order_of (j + n)) (fold_left (exec X) (map line_of (seq j n)) r) =
  fold_left (fun st j => ripemd_step (f j) (K j) (X (k j)) (s j) st) (seq j n) (view (order_of j) r).
Proof.
  revert j r. induction n as [|n IH]; intros j r; cbn [seq map fold_left].
  - now rewrite Nat.add_0_r.
  - rewrite <- rmd_exec_line, <- IH. f_equal. f_equal. lia.
Qed.

Lemma run_lines X r :
  fold_left (exec X) (map line_of (seq 0 80)) r =
  fold_left (fun st j => ripemd_step (f j) (K j) (X (k j)) (s j) st) (seq 0 80) r.
Proof.
  pose proof (rmd_exec_lines X 80 0 r) as E. destruct r as [[[[r0 r1] r2] r3] r4].
  change (view (order_of 0) (r0, r1, r2, r3, r4)) with (r0, r1, r2, r3, r4) in E. rewrite <- E.
  change (order_of (0 + 80)) with (a, b, c, d, e).
  now destruct (fold_left _ _ _) as [[[[q0 q1] q2] q3] q4].
Qed.
End Line.

(** The 160 macro calls follow the tables of the definition. *)
Lemma left_lines_pattern :
  left_lines = map (line_of (fun j => fun_at (j / 16)%nat) left_K left_word (fun j => shift j (left_word j))) (seq 0 80).
Proof. reflexivity. Qed.

Lemma right_lines_pattern :
  right_lines =
    map (line_of (fun j => fun_at (4 - j / 16)%nat) right_K right_word (fun j => shift j (right_word j))) (seq 0 80).
Proof. reflexivity. Qed.

Lemma words_nth p k : (k < 16)%nat -> nth k (words p) 0 = word p k.
Proof.
  intros Hk. unfold words. rewrite nth_indep with (d' := word p 0) by (rewrite length_map, length_seq; lia).
  rewrite map_nth. now rewrite seq_nth by lia.
Qed.

Lemma words_length p : length (words p) = 16%nat.
Proof. reflexivity. Qed.

Lemma rho_bound i : (rho i < 16)%nat.
Proof.
  unfold rho. destruct (Nat.ltb_spec i 16).
  - do 16 (destruct i as [|i]; [cbn; lia|]). lia.
  - rewrite nth_overflow; cbn; lia.
Qed.

Lemma iter_rho_bound n i : (i < 16)%nat -> (Nat.iter n rho i < 16)%nat.
Proof. intros H. destruct n; [exact H|]. apply rho_bound. Qed.

Lemma rmd_block_ripemd s p : rmd_block s p = ripemd_process s p.
Proof.
  unfold rmd_block, RMD160_Transform. rewrite left_lines_pattern, right_lines_pattern, !run_lines.
  transitivity (combine s (fold_left (left_step (word p)) (seq 0 80) s)
    (fold_left (right_step (word p)) (seq 0 80) s)).
  { f_equal; apply fold_left_ext_in; intros st j _; unfold left_step, right_step; cbv beta;
      (rewrite words_nth; [reflexivity|]); apply iter_rho_bound; apply Nat.mod_upper_bound; lia. }
  destruct s as [[[[s0 s1] s2] s3] s4]. unfold combine, ripemd_process.
  destruct (fold_left (left_step _) _ _) as [[[[l0 l1] l2] l3] l4].
  destruct (fold_left (right_step _) _ _) as [[[[r0 r1] r2] r3] r4].
  rewrite (add32_comm l2 s1), (add32_comm r3). reflexivity.
Qed.

(** ** What a context stands for *)

Definition IV : regs := (1732584193, 4023233417, 2562383102, 271733878, 3285377520).

Definition rmd_rep (p : RMD160_CTX) (m : list Z) : Prop :=
  len p = (lo32 (Z.of_nat (length m)), hi32 (Z.of_nat (length m))) /\ holds (bbuffer p) m /\
  buflen p = Z.of_nat (length m mod 64) /\ state p = chain rmd_block 64 IV m.

Definition ripemd_reference (m : list Z) : list Z :=
  let '(A, B, C, D, E) := chain ripemd_process 64 IV (padded (le_bytes 8) m) in
  flat_map (le_bytes 4) [A; B; C; D; E].

(** The counter of bytes: a carry shows as the low word getting smaller. *)
Lemma rmd_update_count N n :
  0 <= n < 4294967296 ->
  (add32 (lo32 N) n, if add32 (lo32 N) n <? lo32 N then add32 (hi32 N) 1 else hi32 N) =
    (lo32 (N + n), hi32 (N + n)).
Proof.
  intros Hn. unfold add32, lo32, hi32, u32.
  pose proof (Z.div_mod N 4294967296 ltac:(lia)) as EN.
  pose proof (Z.mod_pos_bound N 4294967296 ltac:(lia)) as HN.
  set (a := N / 4294967296) in *. set (b := N mod 4294967296) in *.
  replace (N + n) with (b + n + a * 4294967296) by lia.
  rewrite Z.div_add, Z.mod_add by lia. f_equal.
  destruct (Z_lt_le_dec (b + n) 4294967296) as [H0|H0].
  - rewrite Z.mod_small, Z.div_small, Z.add_0_l by lia. now rewrite (proj2 (Z.ltb_ge _ _)) by lia.
  - assert (E : (b + n) mod 4294967296 = b + n - 4294967296)
      by (symmetry; apply Z.mod_unique with 1; lia).
    assert (E' : (b + n) / 4294967296 = 1) by (symmetry; apply Z.div_unique with (b + n - 4294967296); lia).
    rewrite E, E', (proj2 (Z.ltb_lt _ _)) by lia. rewrite Zplus_mod_idemp_l. f_equal. lia.
Qed.

(** The loop over complete blocks stops at the last incomplete one. *)
Lemma block_loop_absorb n st p :
  block_loop n st p = (absorb rmd_block 64 n st p, skipn (64 * n) p).
Proof.
  revert st p. induction n as [|n IH]; intros st p; [reflexivity|].
  cbn [block_loop absorb]. rewrite IH, skipn_skipn. do 2 f_equal. lia.
Qed.

Lemma block_loop_spec st p :
  block_loop (length p / 64) st p = (chain rmd_block 64 st p, rest64 p).
Proof. apply block_loop_absorb. Qed.

Lemma rmd_update_rep p m d :
  rmd_rep p m -> Z.of_nat (length d) < 2147483648 ->
  exists p', RMD160_Update p d = Ok p' /\ rmd_rep p' (m ++ d).
Proof.
  intros (Ec & Hb & El & Es) Hd. unfold RMD160_Update. rewrite (u32_small (Z.of_nat (length d))) by lia.
  rewrite Ec. cbn [fst snd].
  pose proof (rmd_update_count (Z.of_nat (length m)) (Z.of_nat (length d)) ltac:(lia)) as Hc.
  cbv zeta. rewrite Hc, <- Nat2Z.inj_add, <- length_app. clear Hc.
  rewrite El, Nat2Z.id. set (o := (length m mod 64)%nat) in *.
  assert (Ho : (o < 64)%nat) by (apply Nat.mod_upper_bound; lia).
  unfold add32. rewrite (u32_small (Z.of_nat o + _)) by lia.
  destruct (Z.ltb_spec (Z.of_nat o + Z.of_nat (length d)) 64) as [Hp|Hf].
  - destruct (fill_partial rmd_block IV m (bbuffer p) d Hb ltac:(fold o; lia)) as (buf & E & Hh & Hch).
    fold o in E. rewrite E. cbn [bind]. eexists. split; [reflexivity|].
    unfold rmd_rep. cbn [len bbuffer buflen state]. rewrite Hch. splits; [reflexivity|exact Hh| |exact Es].
    rewrite length_app, <- Nat.Div0.add_mod_idemp_l, Nat.mod_small by (fold o; lia). fold o. lia.
  - assert (Hofs : Z.to_nat (u32 (64 - Z.of_nat o)) = (64 - o)%nat) by (rewrite u32_small; lia).
    rewrite Hofs. destruct (fill_block (bbuffer p) m d Hb ltac:(fold o; lia)) as [E Hl]. fold o in E, Hl.
    rewrite E. cbn [bind].
    destruct (absorb_block rmd_block IV m d ltac:(fold o; lia)) as [Ech Er]. fold o in Ech, Er.
    set (q := skipn (64 - o) d) in *.
    assert (Hq : u32 (Z.of_nat (length d) - u32 (64 - Z.of_nat o)) = Z.of_nat (length q)).
    { unfold q. rewrite length_skipn, !u32_small; try rewrite u32_small; lia. }
    rewrite Hq, Z.shiftr_div_pow2 by lia. change (2 ^ 6) with (Z.of_nat 64). rewrite <- Nat2Z.inj_div, Nat2Z.id.
    rewrite block_loop_spec. change 63 with (Z.ones 6). rewrite Z.land_ones by lia.
    change (2 ^ 6) with (Z.of_nat 64). rewrite <- Nat2Z.inj_mod, Nat2Z.id, <- (rest64_length q), firstn_all.
    destruct (fill_rest _ (m ++ d) _ Hl Er) as (buf & E' & Hh). rewrite E'. cbn [bind].
    eexists. split; [reflexivity|]. unfold rmd_rep. cbn [len bbuffer buflen state].
    splits; [reflexivity|exact Hh| |].
    + now rewrite <- Er, rest64_length.
    + rewrite Ech, Es. reflexivity.
Qed.

(** ** The last blocks *)

Lemma le_word N : u8 (N mod 256) + 256 * u8 (N / 256 mod 256) + 65536 * u8 (N / 256 / 256 mod 256) +
    16777216 * u8 (N / 256 / 256 / 256 mod 256) = N mod 4294967296.
Proof.
  unfold u8. rewrite !Z.mod_mod by lia.
  pose proof (Z.div_mod N 256 ltac:(lia)). pose proof (Z.div_mod (N / 256) 256 ltac:(lia)).
  pose proof (Z.div_mod (N / 256 / 256) 256 ltac:(lia)).
  pose proof (Z.div_mod (N / 256 / 256 / 256) 256 ltac:(lia)).
  pose proof (Z.mod_pos_bound N 256 ltac:(lia)). pose proof (Z.mod_pos_bound (N / 256) 256 ltac:(lia)).
  pose proof (Z.mod_pos_bound (N / 256 / 256) 256 ltac:(lia)).
  pose proof (Z.mod_pos_bound (N / 256 / 256 / 256) 256 ltac:(lia)).
  apply Z.mod_unique with (N / 256 / 256 / 256 / 256); lia.
Qed.

(** The words of a block that ends with a 64-bit length. *)
Lemma words_length_block h N :
  length h = 56%nat ->
  words (h ++ le_bytes 8 N) = firstn 14 (words h) ++ [lo32 N; hi32 N].
Proof.
  intros Hh. unfold words. cbn [seq map firstn app].
  assert (Hw : forall k, (k < 14)%nat -> word (h ++ le_bytes 8 N) k = word h k)
    by (intros k Hk; unfold word; now rewrite !app_nth1 by lia).
  rewrite !Hw by lia. do 14 f_equal.
  unfold word. rewrite !app_nth2, Hh by lia. cbn [Nat.sub Nat.mul Nat.add nth le_bytes].
  rewrite !le_word. unfold lo32, hi32, u32. rewrite !Z.div_div by lia. reflexivity.
Qed.

(** Overwriting the last two words is the same. *)
Lemma words_set h t u v :
  length h = 56%nat -> list_set (list_set (words (h ++ t)) 14 u) 15 v = firstn 14 (words h) ++ [u; v].
Proof.
  intros Hh. unfold words. cbn [seq map firstn app list_set].
  assert (Hw : forall k, (k < 14)%nat -> word (h ++ t) k = word h k)
    by (intros k Hk; unfold word; now rewrite !app_nth1 by lia).
  now rewrite !Hw by lia.
Qed.

Lemma rmd_length_words m :
  u32 (Z.shiftl (lo32 (Z.of_nat (length m))) 3) = lo32 (bit_length m) /\
  Z.lor (Z.shiftr (lo32 (Z.of_nat (length m))) 29) (u32 (Z.shiftl (hi32 (Z.of_nat (length m))) 3)) =
    hi32 (bit_length m).
Proof.
  unfold bit_length. set (n := Z.of_nat (length m)). unfold lo32, hi32, u32.
  rewrite !Z.shiftl_mul_pow2, Z.shiftr_div_pow2 by lia. change (2 ^ 3) with 8. change (2 ^ 29) with 536870912.
  pose proof (Z.div_mod n 4294967296 ltac:(lia)) as En.
  pose proof (Z.mod_pos_bound n 4294967296 ltac:(lia)) as Hn.
  set (a := n / 4294967296) in *. set (b := n mod 4294967296) in *. split.
  - unfold b. rewrite Zmult_mod_idemp_l. f_equal. lia.
  - rewrite Zmult_mod_idemp_l.
    assert (E8 : (a * 8) mod 4294967296 = 8 * (a mod 536870912)).
    { change 4294967296 with (536870912 * 8). rewrite Z.mul_mod_distr_r by lia. lia. }
    assert (Hb : 0 <= b / 536870912 < 8) by (split; [apply Z.div_pos; lia|apply Z.div_lt_upper_bound; lia]).
    rewrite E8. replace (8 * (a mod 536870912)) with (a mod 536870912 * 2 ^ 3) by (change (2 ^ 3) with 8; lia).
    rewrite lor_add_low by (try lia; exact Hb).
    change (2 ^ 3) with 8.
    replace (8 * n) with (8 * b + a * 8 * 4294967296) by lia. rewrite Z.div_add by lia.
    replace (8 * b / 4294967296) with (b / 536870912)
      by (change 4294967296 with (8 * 536870912); rewrite Z.div_mul_cancel_l by lia; reflexivity).
    pose proof (Z.div_mod a 536870912 ltac:(lia)). pose proof (Z.mod_pos_bound a 536870912 ltac:(lia)).
    apply Z.mod_unique with (a / 536870912); lia.
Qed.

Lemma chain_one {S} (f : S -> list Z -> S) s q : length q = 64%nat -> chain f 64 s q = f s q.
Proof.
  intros Hq. rewrite chain_step, firstn_all2, skipn_all2 by lia. apply chain_small. cbn. lia.
Qed.

Lemma pad_zeros_mod (m : list Z) :
  pad_zeros (length m) =
    if (length m mod 64 <=? 55)%nat then (55 - length m mod 64)%nat else (119 - length m mod 64)%nat.
Proof.
  unfold pad_zeros. set (o := (length m mod 64)%nat). pose proof (Nat.mod_upper_bound (length m) 64 ltac:(lia)) as Hu.
  pose proof (Nat.div_mod (length m) 64 ltac:(lia)) as E. fold o in E, Hu.
  destruct (Nat.leb_spec o 55).
  - rewrite <- (Z.mod_unique (55 - Z.of_nat (length m)) 64 (- Z.of_nat (length m / 64)) (55 - Z.of_nat o)) by lia. lia.
  - rewrite <- (Z.mod_unique (55 - Z.of_nat (length m)) 64 (- Z.of_nat (length m / 64) - 1) (119 - Z.of_nat o)) by lia. lia.
Qed.

(** The end of the message fits into the block ... *)
Lemma last_block m :
  (length m mod 64 <= 55)%nat ->
  chain rmd_block 64 IV (padded (le_bytes 8) m) =
    rmd_block (chain rmd_block 64 IV m)
      ((rest64 m ++ 128 :: repeat 0 (55 - length m mod 64)) ++ le_bytes 8 (bit_length m)).
Proof.
  intros Ho. unfold padded. rewrite pad_zeros_mod, (proj2 (Nat.leb_le _ _) Ho).
  set (o := (length m mod 64)%nat) in *.
  set (pd := (128 :: repeat 0 (55 - o)) ++ le_bytes 8 (bit_length m)).
  assert (Hpd : length pd = (64 - o)%nat)
    by (unfold pd; rewrite length_app, le_bytes_length; cbn [length]; rewrite repeat_length; lia).
  destruct (absorb_block rmd_block IV m pd ltac:(fold o; lia)) as [E _]. fold o in E. rewrite E.
  rewrite firstn_all2, skipn_all2 by lia. rewrite chain_small by (cbn; lia).
  unfold pd. now rewrite app_assoc.
Qed.

(** ... or needs one more. *)
Lemma last_two_blocks m :
  (55 < length m mod 64)%nat ->
  chain rmd_block 64 IV (padded (le_bytes 8) m) =
    rmd_block (rmd_block (chain rmd_block 64 IV m) (rest64 m ++ 128 :: repeat 0 (63 - length m mod 64)))
      (repeat 0 56 ++ le_bytes 8 (bit_length m)).
Proof.
  intros Ho. unfold padded. rewrite pad_zeros_mod, (proj2 (Nat.leb_gt _ _) Ho).
  set (o := (length m mod 64)%nat) in *. assert (o < 64)%nat by (apply Nat.mod_upper_bound; lia).
  replace (119 - o)%nat with (63 - o + 56)%nat by lia. rewrite repeat_app.
  set (p1 := 128 :: repeat 0 (63 - o)).
  replace ((128 :: repeat 0 (63 - o) ++ repeat 0 56) ++ le_bytes 8 (bit_length m))
    with (p1 ++ (repeat 0 56 ++ le_bytes 8 (bit_length m))) by (unfold p1; cbn [app]; now rewrite app_assoc).
  assert (Hp1 : length p1 = (64 - o)%nat) by (unfold p1; cbn [length]; rewrite repeat_length; lia).
  destruct (absorb_block rmd_block IV m (p1 ++ repeat 0 56 ++ le_bytes 8 (bit_length m))) as [E _].
  { fold o. rewrite length_app. lia. }
  fold o in E. rewrite E, firstn_app, skipn_app, (firstn_all2 p1), (skipn_all2 p1), Hp1, Nat.sub_diag by lia.
  rewrite firstn_O, skipn_O, app_nil_r, app_nil_l. apply chain_one.
  now rewrite length_app, repeat_length, le_bytes_length.
Qed.

Lemma digest_bytes s :
  flat_map (fun i => let w := state_nth s i in
    [u8 w; u8 (Z.shiftr w 8); u8 (Z.shiftr w 16); u8 (Z.shiftr w 24)]) (seq 0 5) =
  let '(A, B, C, D, E) := s in flat_map (le_bytes 4) [A; B; C; D; E].
Proof.
  destruct s as [[[[A B] C] D] E]. cbn [seq flat_map state_nth nth]. rewrite !le_bytes_shifts.
  cbn [seq map]. now rewrite !Z.shiftr_0_r.
Qed.

Lemma rmd_finish_rep p m :
  rmd_rep p m -> exists p', RMD160_Finish p = Ok (ripemd_reference m, p') /\ length (bbuffer p') = 64%nat.
Proof.
  intros (Ec & [Hl Hb] & El & Es). unfold RMD160_Finish. rewrite El, Ec, Es. cbn [fst snd].
  pose proof (Nat.mod_upper_bound (length m) 64 ltac:(lia)) as Ho.
  rewrite (proj2 (Z.ltb_lt _ _)), Nat2Z.id, Hb by lia.
  replace (Z.to_nat (63 - Z.of_nat (length m mod 64))) with (63 - length m mod 64)%nat by lia.
  pose proof (rest64_length m) as Hr. destruct (rmd_length_words m) as [-> ->].
  unfold ripemd_reference. rewrite <- (chain_ext rmd_block ripemd_process) by apply rmd_block_ripemd.
  destruct (Z.ltb_spec 55 (Z.of_nat (length m mod 64))) as [H55|H55];
    (eexists; split; [rewrite digest_bytes; f_equal; f_equal|]).
  1: rewrite (last_two_blocks m) by lia.
  3: rewrite (last_block m) by lia.
  1,3: unfold rmd_block.
  - change (repeat 0 16) with (words (repeat 0 56 ++ repeat 0 8)).
    rewrite words_set, words_length_block by reflexivity. reflexivity.
  - set (h := rest64 m ++ 128 :: repeat 0 (55 - length m mod 64)).
    assert (Hh : length h = 56%nat) by (unfold h; rewrite length_app; cbn [length]; rewrite repeat_length; lia).
    replace (rest64 m ++ 128 :: repeat 0 (63 - length m mod 64)) with (h ++ repeat 0 8).
    2:{ unfold h. rewrite <- app_assoc. cbn [app]. rewrite <- repeat_app. do 3 f_equal. lia. }
    rewrite words_set, words_length_block by exact Hh. reflexivity.
  - cbn [bbuffer]. rewrite length_app. cbn [length]. rewrite repeat_length. lia.
  - cbn [bbuffer]. rewrite length_app. cbn [length]. rewrite repeat_length. lia.
Qed.

#[export] Instance rmd160_laws : DigestLaws rmd160.
Proof.
  refine {| shape := fun p => length (bbuffer p) = 64%nat;
            rep := rmd_rep; hash := ripemd_reference; max_chunk := 2147483648 |}.
  - intros p Hl. unfold rmd_rep. splits; [reflexivity|now apply fill_rest_none|reflexivity|reflexivity].
  - exact rmd_update_rep.
  - exact rmd_finish_rep.
  - intros p m (_ & [H _] & _). exact H.
  - intros m. cbn [digest_len rmd160]. unfold ripemd_reference.
    destruct (chain ripemd_process 64 IV _) as [[[[A B] C] D] E]. reflexivity.
  - cbn. unfold LONG_MAX. lia.
Defined.

(** ** Properties *)

(** A [Digest::RMD160] object fed a message in pieces of any sizes (below 2
    GB) computes RIPEMD-160: the 160 macro calls are the two lines of the
    definition with its word permutations, shifts and constants, and the last one
    or two blocks are the padded end of the message. *)
Theorem ripemd_streams pctx chunks :
  length (bbuffer pctx) = 64%nat -> Forall (fun d => Z.of_nat (length d) < 2147483648) chunks ->
  digest_chunks pctx chunks = Ok (ripemd_reference (concat chunks)).
Proof. exact (digest_chunks_ok (laws := rmd160_laws) pctx chunks). Qed.

Definition raw : RMD160_CTX := mkRMD (1, 2, 3, 4, 5) (7, 7) (repeat 205 64) 9.

(** [abc] in two pieces: [8eb208f7...]. *)
Lemma ripemd_streams_witness :
  digest_chunks raw [[97; 98]; [99]] = Ok (ripemd_reference [97; 98; 99]) /\
  ripemd_reference [97; 98; 99] =
    [142; 178; 8; 247; 224; 93; 152; 122; 155; 4; 74; 142; 152; 198; 176; 135; 241; 90; 11; 252].
Proof.
  split; [|vm_compute; reflexivity]. apply (ripemd_streams raw [[97; 98]; [99]]); [reflexivity|repeat constructor].
Defined.
