(* ===== verification/Sha2.v ===== *)
(** * SHA-256, SHA-384 and SHA-512

    src/ruby/ext/digest/sha2/sha2.c in the little-endian configuration with
    the loops ([SHA2_UNROLL_TRANSFORM] is not defined).  The functions for
    SHA-256 and SHA-512 are the same text but for the size of a word, the
    tables and the counter; a section has what they share, its instances are
    the functions of the file.  [fips_process] is the loop of FIPS 180-2 over a
    schedule of 64 or 80 words. *)

From Stdlib Require Import ZArith Lia List Bool.
From S2P Require Import Prelude CInt Digest.
Import ListNotations.
Local Open Scope Z_scope.
Local Open Scope outcome_scope.

(** ** Macros *)

Definition u64 (z : Z) : Z := z mod 18446744073709551616.

Definition REVERSE32 (w : Z) : Z :=
  let tmp := w in
  let tmp := Z.lor (Z.shiftr tmp 16) (u32 (Z.shiftl tmp 16)) in
  Z.lor (Z.shiftr (Z.land tmp 4278255360) 8) (u32 (Z.shiftl (Z.land tmp 16711935) 8)).

Definition REVERSE64 (w : Z) : Z :=
  let tmp := w in
  let tmp := Z.lor (Z.shiftr tmp 32) (u64 (Z.shiftl tmp 32)) in
  let tmp := Z.lor (Z.shiftr (Z.land tmp 18374966859414961920) 8) (u64 (Z.shiftl (Z.land tmp 71777214294589695) 8)) in
  Z.lor (Z.shiftr (Z.land tmp 18446462603027742720) 16) (u64 (Z.shiftl (Z.land tmp 281470681808895) 16)).

(** The pair [w[0]], [w[1]]. *)
Definition ADDINC128 (w : Z * Z) (n : Z) : Z * Z :=
  let w0 := u64 (fst w + n) in
  (w0, if w0 <? n then u64 (snd w + 1) else snd w).

Definition R (b x : Z) : Z := Z.shiftr x b.
Definition S32 (b x : Z) : Z := Z.lor (Z.shiftr x b) (u32 (Z.shiftl x (32 - b))).
Definition S64 (b x : Z) : Z := Z.lor (Z.shiftr x b) (u64 (Z.shiftl x (64 - b))).

(** [~x] is only used under a mask. *)
Definition Ch (x y z : Z) : Z := Z.lxor (Z.land x y) (Z.land (Z.lnot x) z).
Definition Maj (x y z : Z) : Z := Z.lxor (Z.lxor (Z.land x y) (Z.land x z)) (Z.land y z).

Definition Sigma0_256 (x : Z) : Z := Z.lxor (Z.lxor (S32 2 x) (S32 13 x)) (S32 22 x).
Definition Sigma1_256 (x : Z) : Z := Z.lxor (Z.lxor (S32 6 x) (S32 11 x)) (S32 25 x).
Definition sigma0_256 (x : Z) : Z := Z.lxor (Z.lxor (S32 7 x) (S32 18 x)) (R 3 x).
Definition sigma1_256 (x : Z) : Z := Z.lxor (Z.lxor (S32 17 x) (S32 19 x)) (R 10 x).

Definition Sigma0_512 (x : Z) : Z := Z.lxor (Z.lxor (S64 28 x) (S64 34 x)) (S64 39 x).
Definition Sigma1_512 (x : Z) : Z := Z.lxor (Z.lxor (S64 14 x) (S64 18 x)) (S64 41 x).
Definition sigma0_512 (x : Z) : Z := Z.lxor (Z.lxor (S64 1 x) (S64 8 x)) (R 7 x).
Definition sigma1_512 (x : Z) : Z := Z.lxor (Z.lxor (S64 19 x) (S64 61 x)) (R 6 x).

(** ** Tables *)

Definition K256 : list Z := [
  1116352408; 1899447441; 3049323471; 3921009573; 961987163; 1508970993;
  2453635748; 2870763221; 3624381080; 310598401; 607225278; 1426881987;
  1925078388; 2162078206; 2614888103; 3248222580; 3835390401; 4022224774;
  264347078; 604807628; 770255983; 1249150122; 1555081692; 1996064986;
  2554220882; 2821834349; 2952996808; 3210313671; 3336571891; 3584528711;
  113926993; 338241895; 666307205; 773529912; 1294757372; 1396182291;
  1695183700; 1986661051; 2177026350; 2456956037; 2730485921; 2820302411;
  3259730800; 3345764771; 3516065817; 3600352804; 4094571909; 275423344;
  430227734; 506948616; 659060556; 883997877; 958139571; 1322822218;
  1537002063; 1747873779; 1955562222; 2024104815; 2227730452; 2361852424;
  2428436474; 2756734187; 3204031479; 3329325298].

Definition K512 : list Z := [
  4794697086780616226; 8158064640168781261; 13096744586834688815; 16840607885511220156;
  4131703408338449720; 6480981068601479193; 10538285296894168987; 12329834152419229976;
  15566598209576043074; 1334009975649890238; 2608012711638119052; 6128411473006802146;
  8268148722764581231; 9286055187155687089; 11230858885718282805; 13951009754708518548;
  16472876342353939154; 17275323862435702243; 1135362057144423861; 2597628984639134821;
  3308224258029322869; 5365058923640841347; 6679025012923562964; 8573033837759648693;
  10970295158949994411; 12119686244451234320; 12683024718118986047; 13788192230050041572;
  14330467153632333762; 15395433587784984357; 489312712824947311; 1452737877330783856;
  2861767655752347644; 3322285676063803686; 5560940570517711597; 5996557281743188959;
  7280758554555802590; 8532644243296465576; 9350256976987008742; 10552545826968843579;
  11727347734174303076; 12113106623233404929; 14000437183269869457; 14369950271660146224;
  15101387698204529176; 15463397548674623760; 17586052441742319658; 1182934255886127544;
  1847814050463011016; 2177327727835720531; 2830643537854262169; 3796741975233480872;
  4115178125766777443; 5681478168544905931; 6601373596472566643; 7507060721942968483;
  8399075790359081724; 8693463985226723168; 9568029438360202098; 10144078919501101548;
  10430055236837252648; 11840083180663258601; 13761210420658862357; 14299343276471374635;
  14566680578165727644; 15097957966210449927; 16922976911328602910; 17689382322260857208;
  500013540394364858; 748580250866718886; 1242879168328830382; 1977374033974150939;
  2944078676154940804; 3659926193048069267; 4368137639120453308; 4836135668995329356;
  5532061633213252278; 6448918945643986474; 6902733635092675308; 7801388544844847127].

Definition sha256_initial_hash_value : list Z := [
  1779033703; 3144134277; 1013904242; 2773480762;
  1359893119; 2600822924; 528734635; 1541459225].

Definition sha384_initial_hash_value : list Z := [
  14680500436340154072; 7105036623409894663; 10473403895298186519; 1526699215303891257;
  7436329637833083697; 10282925794625328401; 15784041429090275239; 5167115440072839076].

Definition sha512_initial_hash_value : list Z := [
  7640891576956012808; 13503953896175478587; 4354685564936845355; 11912009170470909681;
  5840696475078001361; 11170449401992604703; 2270897969802886507; 6620516959819538809].

(** ** The functions, for both sizes of words *)

Definition regs := (Z * Z * Z * Z * Z * Z * Z * Z)%type.

Definition regs_of (l : list Z) : regs :=
  let x k := nth k l 0 in (x 0%nat, x 1%nat, x 2%nat, x 3%nat, x 4%nat, x 5%nat, x 6%nat, x 7%nat).
Definition words_of (r : regs) : list Z :=
  let '(a, b, c, d, e, f, g, h) := r in [a; b; c; d; e; f; g; h].

(** What differs: the bytes of a word, the rounds, the tables and functions,
    and the counter of bits with the operations on it. *)
Record variant := {
  wbytes : nat;
  rounds : nat;
  K : list Z;
  Sigma0 : Z -> Z;
  Sigma1 : Z -> Z;
  sigma0 : Z -> Z;
  sigma1 : Z -> Z;
  REVERSE : Z -> Z;
  counter : Type;
  zero : counter;
  low_word : counter -> Z;
  ADDINC : counter -> Z -> counter
}.

Definition v256 : variant := {|
  wbytes := 4; rounds := 64; K := K256; Sigma0 := Sigma0_256; Sigma1 := Sigma1_256;
  sigma0 := sigma0_256; sigma1 := sigma1_256; REVERSE := REVERSE32;
  counter := Z; zero := 0; low_word := fun c => c; ADDINC := fun c n => u64 (c + n) |}.

Definition v512 : variant := {|
  wbytes := 8; rounds := 80; K := K512; Sigma0 := Sigma0_512; Sigma1 := Sigma1_512;
  sigma0 := sigma0_512; sigma1 := sigma1_512; REVERSE := REVERSE64;
  counter := Z * Z; zero := (0, 0); low_word := fst; ADDINC := ADDINC128 |}.

Section Sha2.
Context (V : variant).

(** [SHA256_CTX], [SHA512_CTX]. *)
Record CTX := mkCTX { state : regs; bitcount : counter V; buffer : list Z }.

Definition BLOCK_LENGTH : nat := 16 * wbytes V.
Definition SHORT_BLOCK_LENGTH : nat := BLOCK_LENGTH - 2 * wbytes V.

(** Addition of words, and the word at an index of a byte array. *)
Definition add (x y : Z) : Z := (x + y) mod 2 ^ (8 * Z.of_nat (wbytes V)).
Definition load (p : list Z) (i : nat) : Z := le_val (map (fun k => u8 (nth (wbytes V * i + k) p 0)) (seq 0 (wbytes V))).

(** [T1 = ...; T2 = ...; h = g; ... a = T1 + T2;] *)
Definition compress (r : regs) (k w : Z) : regs :=
  let '(a, b, c, d, e, f, g, h) := r in
  let T1 := add (add (add (add h (Sigma1 V e)) (Ch e f g)) k) w in
  let T2 := add (Sigma0 V a) (Maj a b c) in
  (add T1 T2, a, b, c, add d T1, e, f, g).

(** The bodies of the two loops. *)
Definition round_0_15 (data : list Z) (s : regs * list Z) (j : nat) : regs * list Z :=
  let '(r, W) := s in
  let w := REVERSE V (load data j) in
  (compress r (nth j (K V) 0) w, list_set W j w).

Definition round (s : regs * list Z) (j : nat) : regs * list Z :=
  let '(r, W) := s in
  let s0 := sigma0 V (nth ((j + 1) mod 16) W 0) in
  let s1 := sigma1 V (nth ((j + 14) mod 16) W 0) in
  let w := add (nth (j mod 16) W 0) (add (add s1 (nth ((j + 9) mod 16) W 0)) s0) in
  (compress r (nth j (K V) 0) w, list_set W (j mod 16) w).

Definition add_state (s t : regs) : regs :=
  let '(sa, sb, sc, sd, se, sf, sg, sh) := s in
  let '(ta, tb, tc, td, te, tf, tg, th) := t in
  (add sa ta, add sb tb, add sc tc, add sd td, add se te, add sf tf, add sg tg, add sh th).

(** The schedule is kept in the buffer of the context: the new state and
    buffer.  [data] may be that buffer, since every word of it is read before
    the word at its place is written. *)
Definition Transform (st : regs) (buf data : list Z) : regs * list Z :=
  let W := map (load buf) (seq 0 16) in
  let s := fold_left (round_0_15 data) (seq 0 16) (st, W) in
  let '(r, W) := fold_left round (seq 16 (rounds V - 16)) s in
  (add_state st r, flat_map (le_bytes (wbytes V)) W).

Definition Init (initial : list Z) (context : CTX) : CTX :=
  mkCTX (regs_of initial) (zero V) (repeat 0 BLOCK_LENGTH).

Definition usedspace (context : CTX) : nat :=
  Z.to_nat (Z.shiftr (low_word V (bitcount context)) 3 mod Z.of_nat BLOCK_LENGTH).

(** [while (len >= BLOCK_LENGTH)]; the length of the data is fuel enough. *)
Fixpoint blocks_loop (fuel : nat) (context : CTX) (data : list Z) : CTX * list Z :=
  match fuel with
  | O => (context, data)
  | S fuel =>
      if (BLOCK_LENGTH <=? length data)%nat then
        let '(st, buf) := Transform (state context) (buffer context) (firstn BLOCK_LENGTH data) in
        blocks_loop fuel (mkCTX st (ADDINC V (bitcount context) (Z.shiftl (Z.of_nat BLOCK_LENGTH) 3)) buf)
          (skipn BLOCK_LENGTH data)
      else (context, data)
  end.

(** The loop and the left-overs. *)
Definition update_blocks (context : CTX) (data : list Z) : outcome CTX :=
  let '(context, data) := blocks_loop (length data) context data in
  if (0 <? length data)%nat then
    buf <- memcpy (buffer context) 0 data ;;
    Ok (mkCTX (state context) (ADDINC V (bitcount context) (Z.shiftl (Z.of_nat (length data)) 3)) buf)
  else Ok context.

Definition Update (context : CTX) (data : list Z) : outcome CTX :=
  if (length data =? 0)%nat then Ok context
  else
    let used := usedspace context in
    if (0 <? used)%nat then
      let freespace := (BLOCK_LENGTH - used)%nat in
      if (freespace <=? length data)%nat then
        buf <- memcpy (buffer context) used (firstn freespace data) ;;
        let bc := ADDINC V (bitcount context) (Z.shiftl (Z.of_nat freespace) 3) in
        let '(st, buf) := Transform (state context) buf buf in
        update_blocks (mkCTX st bc buf) (skipn freespace data)
      else
        buf <- memcpy (buffer context) used data ;;
        Ok (mkCTX (state context) (ADDINC V (bitcount context) (Z.shiftl (Z.of_nat (length data)) 3)) buf)
    else update_blocks context data.

Definition MEMSET_BZERO (buf : list Z) (off n : nat) : outcome (list Z) := memcpy buf off (repeat 0 n).

(** The padding of [SHA256_Finish] and [SHA512_Last] up to the counter:
    [cleared] bytes are zeroed when a block of its own is needed.  [bits] are
    the bytes of the counter, already reversed.  The state and buffer after
    the final transformation. *)
Definition Last (cleared : nat) (bits : list Z) (context : CTX) : outcome (regs * list Z) :=
  let used := usedspace context in
  '(st, buf) <-
    (if (0 <? used)%nat then
       buf <- memcpy (buffer context) used [128] ;;
       let used := S used in
       if (used <=? SHORT_BLOCK_LENGTH)%nat then
         buf <- MEMSET_BZERO buf used (SHORT_BLOCK_LENGTH - used) ;; Ok (state context, buf)
       else
         buf <- (if (used <? BLOCK_LENGTH)%nat then MEMSET_BZERO buf used (BLOCK_LENGTH - used) else Ok buf) ;;
         let '(st, buf) := Transform (state context) buf buf in
         buf <- MEMSET_BZERO buf 0 cleared ;; Ok (st, buf)
     else
       buf <- MEMSET_BZERO (buffer context) 0 SHORT_BLOCK_LENGTH ;;
       buf <- memcpy buf 0 [128] ;; Ok (state context, buf)) ;;
  buf <- memcpy buf SHORT_BLOCK_LENGTH bits ;;
  Ok (Transform st buf buf).

(** The first [n] words of the state, reversed, and the zeroed context. *)
Definition output (n : nat) (st : regs) : list Z :=
  flat_map (fun w => le_bytes (wbytes V) (REVERSE V w)) (firstn n (words_of st)).

Definition zeroed : CTX := mkCTX (regs_of []) (zero V) (repeat 0 BLOCK_LENGTH).
End Sha2.

(** ** The functions of the file *)

Definition SHA256_CTX := CTX v256.
Definition SHA512_CTX := CTX v512.

Definition SHA256_Transform := Transform v256.
Definition SHA512_Transform := Transform v512.

Definition SHA256_Init : SHA256_CTX -> SHA256_CTX := Init v256 sha256_initial_hash_value.
Definition SHA384_Init : SHA512_CTX -> SHA512_CTX := Init v512 sha384_initial_hash_value.
Definition SHA512_Init : SHA512_CTX -> SHA512_CTX := Init v512 sha512_initial_hash_value.

Definition SHA256_Update : SHA256_CTX -> list Z -> outcome SHA256_CTX := Update v256.
Definition SHA512_Update : SHA512_CTX -> list Z -> outcome SHA512_CTX := Update v512.
Definition SHA384_Update : SHA512_CTX -> list Z -> outcome SHA512_CTX := SHA512_Update.

Definition SHA256_Finish (context : SHA256_CTX) : outcome (list Z * SHA256_CTX) :=
  let bits := REVERSE64 (bitcount v256 context) in
  '(st, _) <- Last v256 (SHORT_BLOCK_LENGTH v256) (le_bytes 8 bits) context ;;
  Ok (output v256 8 st, zeroed v256).

(** The high word of the counter is stored first. *)
Definition SHA512_Last (context : SHA512_CTX) : outcome (regs * list Z) :=
  let bits0 := REVERSE64 (fst (bitcount v512 context)) in
  let bits1 := REVERSE64 (snd (bitcount v512 context)) in
  Last v512 (BLOCK_LENGTH v512 - 2) (le_bytes 8 bits1 ++ le_bytes 8 bits0) context.

Definition SHA512_Finish (context : SHA512_CTX) : outcome (list Z * SHA512_CTX) :=
  '(st, _) <- SHA512_Last context ;; Ok (output v512 8 st, zeroed v512).

Definition SHA384_Finish (context : SHA512_CTX) : outcome (list Z * SHA512_CTX) :=
  '(st, _) <- SHA512_Last context ;; Ok (output v512 6 st, zeroed v512).

(** sha2init.c: the tables [sha256], [sha384] and [sha512]. *)
Definition sha256 : rb_digest_metadata := {|
  Digest.CTX := SHA256_CTX; digest_len := 32; block_len := 64;
  init_func := SHA256_Init; update_func := SHA256_Update; finish_func := SHA256_Finish |}.
Definition sha384 : rb_digest_metadata := {|
  Digest.CTX := SHA512_CTX; digest_len := 48; block_len := 128;
  init_func := SHA384_Init; update_func := SHA384_Update; finish_func := SHA384_Finish |}.
Definition sha512 : rb_digest_metadata := {|
  Digest.CTX := SHA512_CTX; digest_len := 64; block_len := 128;
  init_func := SHA512_Init; update_func := SHA512_Update; finish_func := SHA512_Finish |}.

(** ** The loop of FIPS 180-2 *)

Section Fips.
Context (V : variant).

(** The [i]-th word of a block, most significant byte first. *)
Definition be_word (p : list Z) (i : nat) : Z :=
  le_val (rev (map (fun k => u8 (nth (wbytes V * i + k) p 0)) (seq 0 (wbytes V)))).

Definition modulus : Z := 2 ^ (8 * Z.of_nat (wbytes V)).

(** The first [n] words of the message schedule. *)
Fixpoint schedule (n : nat) (p : list Z) : list Z :=
  match n with
  | O => []
  | S t =>
      let w := schedule t p in
      let W k := nth (t - k) w 0 in
      w ++ [if (t <? 16)%nat then be_word p t
            else (sigma1 V (W 2%nat) + W 7%nat + sigma0 V (W 15%nat) + W 16%nat) mod modulus]
  end.

Definition fips_step (W : nat -> Z) (s : regs) (t : nat) : regs :=
  let '(a, b, c, d, e, f, g, h) := s in
  let T1 := (h + Sigma1 V e + Ch e f g + nth t (K V) 0 + W t) mod modulus in
  let T2 := (Sigma0 V a + Maj a b c) mod modulus in
  ((T1 + T2) mod modulus, a, b, c, (d + T1) mod modulus, e, f, g).

Definition fips_process (s : regs) (data : list Z) : regs :=
  let w := schedule (rounds V) data in
  add_state V s (fold_left (fips_step (fun t => nth t w 0)) (seq 0 (rounds V)) s).

(** A one bit, zeros, and the length in bits in two words. *)
Definition zeros (len : nat) : nat := Z.to_nat ((Z.of_nat (SHORT_BLOCK_LENGTH V) - 1 - Z.of_nat len) mod Z.of_nat (BLOCK_LENGTH V)).
Definition message (m : list Z) : list Z :=
  m ++ (128 :: repeat 0 (zeros (length m))) ++ be_bytes (2 * wbytes V) (bit_length m).

(** The hash: the first [n] words of the last state. *)
Definition fips_hash (initial : list Z) (n : nat) (m : list Z) : list Z :=
  flat_map (be_bytes (wbytes V)) (firstn n (words_of (chain fips_process (BLOCK_LENGTH V) (regs_of initial) (message m)))).
End Fips.

(** ** Reversing the bytes of a word *)

Lemma u64_bits x n : 0 <= n -> Z.testbit (u64 x) n = if n <? 64 then Z.testbit x n else false.
Proof.
  intros Hn. unfold u64. change 18446744073709551616 with (2 ^ 64).
  destruct (Z.ltb_spec n 64); [apply Z.mod_pow2_bits_low|apply Z.mod_pow2_bits_high]; lia.
Qed.

Lemma u32_bit x n : 0 <= n -> Z.testbit (u32 x) n = if n <? 32 then Z.testbit x n else false.
Proof.
  intros Hn. unfold u32. change 4294967296 with (2 ^ 32).
  destruct (Z.ltb_spec n 32); [apply Z.mod_pow2_bits_low|apply Z.mod_pow2_bits_high]; lia.
Qed.

(** A number between [0] and [w] is one of the first [w] numbers. *)
Lemma bit_index n w : 0 <= n < Z.of_nat w -> In n (map Z.of_nat (seq 0 w)).
Proof. intros H. apply in_map_iff. exists (Z.to_nat n). split; [lia|]. apply in_seq. lia. Qed.

(** Moves a bit at a given position through shifts, masks and wraps. *)
Ltac bit_step :=
  match goal with
  | |- context [Z.testbit (Z.lor _ _) _] => rewrite Z.lor_spec
  | |- context [Z.testbit (Z.land _ _) _] => rewrite Z.land_spec
  | |- context [Z.testbit (Z.shiftr _ _) _] => rewrite Z.shiftr_spec by (vm_compute; discriminate)
  | |- context [Z.testbit (Z.shiftl _ _) _] => rewrite Z.shiftl_spec by (vm_compute; discriminate)
  | |- context [Z.testbit (u32 _) _] => rewrite u32_bit by (vm_compute; discriminate)
  | |- context [Z.testbit (u64 _) _] => rewrite u64_bits by (vm_compute; discriminate)
  | |- context [Z.testbit (Zpos ?p) ?k] =>
      let r := eval vm_compute in (Z.testbit (Zpos p) k) in change (Z.testbit (Zpos p) k) with r
  | |- context [Z.ltb ?a ?b] => let r := eval vm_compute in (Z.ltb a b) in change (Z.ltb a b) with r; cbv beta match
  | |- context [Z.testbit _ (?f ?a ?b)] => let k := eval vm_compute in (f a b) in change (f a b) with k
  | |- context [Z.testbit ?x (Zneg ?p)] => rewrite (Z.testbit_neg_r x (Zneg p)) by reflexivity
  | |- context [(_ && true)%bool] => rewrite andb_true_r
  | |- context [(_ && false)%bool] => rewrite andb_false_r
  | |- context [(_ || false)%bool] => rewrite orb_false_r
  | |- context [(false || ?x)%bool] => change (false || x)%bool with x
  end.

Ltac bit_cases Hin :=
  cbn [map seq In Z.of_nat Pos.of_succ_nat Pos.succ] in Hin;
  repeat (destruct Hin as [<-|Hin]; [repeat bit_step; reflexivity|]);
  contradiction.

Lemma REVERSE32_bits x n : 0 <= n < 32 -> Z.testbit (REVERSE32 (u32 x)) n = Z.testbit x (8 * (3 - n / 8) + n mod 8).
Proof.
  intros Hn. assert (Hin : In n (map Z.of_nat (seq 0 32))) by (now apply bit_index). clear Hn.
  unfold REVERSE32. cbv zeta. bit_cases Hin.
Qed.

Lemma REVERSE64_bits x n : 0 <= n < 64 -> Z.testbit (REVERSE64 (u64 x)) n = Z.testbit x (8 * (7 - n / 8) + n mod 8).
Proof.
  intros Hn. assert (Hin : In n (map Z.of_nat (seq 0 64))) by (now apply bit_index). clear Hn.
  unfold REVERSE64. cbv zeta. bit_cases Hin.
Qed.

Lemma mask_high x m s n : 0 <= s -> 0 <= n -> 0 <= m < 2 ^ n -> Z.testbit (Z.shiftr (Z.land x m) s) n = false.
Proof.
  intros Hs Hn Hm. rewrite Z.shiftr_spec, Z.land_spec by lia. replace m with (m mod 2 ^ n) by (apply Z.mod_small; lia).
  rewrite Z.mod_pow2_bits_high by lia. apply andb_false_r.
Qed.

(** Bit [n] of the reversed bytes. *)
Lemma rev_bits bs n : Forall byte bs -> 0 <= n < 8 * Z.of_nat (length bs) ->
  Z.testbit (le_val (rev bs)) n = Z.testbit (le_val bs) (8 * (Z.of_nat (length bs) - 1 - n / 8) + n mod 8).
Proof.
  intros Hb Hn. pose proof (Z.mod_pos_bound n 8). assert (0 <= n / 8 < Z.of_nat (length bs)) by (split; [apply Z.div_pos; lia|apply Z.div_lt_upper_bound; lia]).
  rewrite !le_val_bits by (try apply Forall_rev; auto; lia).
  rewrite rev_nth by lia. rewrite (Z.mul_comm 8), Z.div_add_l, (Z.div_small (n mod 8)), Z.add_0_r by lia.
  f_equal; [f_equal; lia|]. rewrite Z.add_comm, Z.mod_add, Z.mod_mod by lia. reflexivity.
Qed.

Lemma le_val_high bs n : Forall byte bs -> 8 * Z.of_nat (length bs) <= n -> Z.testbit (le_val bs) n = false.
Proof.
  intros Hb Hn. pose proof (le_val_bound bs Hb) as HB. change 256 with (2 ^ 8) in HB. rewrite <- Z.pow_mul_r in HB by lia.
  rewrite <- (Z.mod_small _ _ HB). apply Z.mod_pow2_bits_high. lia.
Qed.

Lemma REVERSE32_rev bs : Forall byte bs -> length bs = 4%nat -> REVERSE32 (le_val bs) = le_val (rev bs).
Proof.
  intros Hb Hl. apply Z.bits_inj'; intros n Hn. pose proof (le_val_bound bs Hb) as HB. rewrite Hl in HB. cbn in HB.
  destruct (Z.lt_ge_cases n 32).
  - rewrite <- (u32_small (le_val bs)), REVERSE32_bits, rev_bits, Hl by (rewrite ?Hl; auto; lia). reflexivity.
  - rewrite (le_val_high (rev bs)) by (rewrite ?length_rev, ?Hl; auto using Forall_rev; lia).
    unfold REVERSE32. cbv zeta. rewrite Z.lor_spec, u32_bit, mask_high by (first [lia | split; [lia|apply Z.lt_le_trans with (2 ^ 32); [lia|apply Z.pow_le_mono_r; lia]]]).
    now rewrite (proj2 (Z.ltb_ge n 32)).
Qed.

Lemma REVERSE64_rev bs : Forall byte bs -> length bs = 8%nat -> REVERSE64 (le_val bs) = le_val (rev bs).
Proof.
  intros Hb Hl. apply Z.bits_inj'; intros n Hn. pose proof (le_val_bound bs Hb) as HB. rewrite Hl in HB. change (256 ^ Z.of_nat 8) with 18446744073709551616 in HB.
  destruct (Z.lt_ge_cases n 64).
  - rewrite <- (Z.mod_small (le_val bs) 18446744073709551616) by lia. fold (u64 (le_val bs)).
    rewrite REVERSE64_bits, rev_bits, Hl by (rewrite ?Hl; auto; lia).
    reflexivity.
  - rewrite (le_val_high (rev bs)) by (rewrite ?length_rev, ?Hl; auto using Forall_rev; lia).
    unfold REVERSE64. cbv zeta. rewrite Z.lor_spec, u64_bits, mask_high by (first [lia | split; [lia|apply Z.lt_le_trans with (2 ^ 64); [lia|apply Z.pow_le_mono_r; lia]]]).
    now rewrite (proj2 (Z.ltb_ge n 64)).
Qed.

(** ** What the proofs need of a variant *)

Class VariantLaws (V : variant) := {
  wbytes_ok : wbytes V = 4%nat \/ wbytes V = 8%nat;
  rounds_ok : (16 <= rounds V)%nat;
  REVERSE_rev bs : Forall byte bs -> length bs = wbytes V -> REVERSE V (le_val bs) = le_val (rev bs);
  (** [counts c n]: the counter [c] stands for [n] bits. *)
  counts : counter V -> Z -> Prop;
  counts_zero : counts (zero V) 0;
  counts_add c n k : counts c n -> 0 <= k < 18446744073709551616 -> counts (ADDINC V c k) (n + k);
  counts_low c n : counts c n -> low_word V c = u64 n
}.

Lemma ADDINC128_counts n k : 0 <= k < 18446744073709551616 ->
  ADDINC128 (u64 n, u64 (n / 18446744073709551616)) k = (u64 (n + k), u64 ((n + k) / 18446744073709551616)).
Proof.
  intros Hk. unfold ADDINC128, u64. cbn [fst snd]. rewrite Zplus_mod_idemp_l. f_equal.
  set (M := 18446744073709551616) in *.
  pose proof (Z.div_mod n M ltac:(lia)). pose proof (Z.mod_pos_bound n M ltac:(lia)).
  set (q := n / M) in *. set (r := n mod M) in *. replace (n + k) with (r + k + q * M) by lia.
  rewrite Z.mod_add, Z.div_add by lia. destruct (Z.lt_ge_cases (r + k) M).
  - rewrite Z.mod_small, Z.div_small by lia. rewrite (proj2 (Z.ltb_ge _ _)) by lia. reflexivity.
  - replace ((r + k) mod M) with (r + k - M) by (apply Z.mod_unique with 1; lia).
    replace ((r + k) / M) with 1 by (apply Z.div_unique with (r + k - M); lia).
    rewrite (proj2 (Z.ltb_lt _ _)) by lia. rewrite Zplus_mod_idemp_l. f_equal. lia.
Qed.

#[export] Instance v256_laws : VariantLaws v256.
Proof.
  refine (Build_VariantLaws v256 _ _ _ (fun (c : Z) n => c = u64 n) _ _ _); cbn.
  - auto.
  - lia.
  - exact REVERSE32_rev.
  - reflexivity.
  - intros c n k -> _. unfold u64. apply Zplus_mod_idemp_l.
  - auto.
Defined.

#[export] Instance v512_laws : VariantLaws v512.
Proof.
  refine (Build_VariantLaws v512 _ _ _ (fun (c : Z * Z) n => c = (u64 n, u64 (n / 18446744073709551616))) _ _ _); cbn.
  - auto.
  - lia.
  - exact REVERSE64_rev.
  - reflexivity.
  - intros c n k -> Hk. now apply ADDINC128_counts.
  - now intros c n ->.
Defined.

(** ** The transformation *)

Section Proofs.
Context {V : variant} {VL : VariantLaws V}.

Notation B := (BLOCK_LENGTH V).
Notation SHORT := (SHORT_BLOCK_LENGTH V).

Lemma block_pos : (0 < B)%nat.
Proof. unfold BLOCK_LENGTH. destruct wbytes_ok as [-> | ->]; lia. Qed.

(** The schedule of a block. *)
Definition W (p : list Z) (t : nat) : Z := nth t (schedule V (S t) p) 0.

Lemma sha2_schedule_length n p : length (schedule V n p) = n.
Proof. induction n; cbn [schedule]; [reflexivity|]. rewrite length_app. cbn [length]. lia. Qed.

Lemma sha2_nth_schedule n k p : (k < n)%nat -> nth k (schedule V n p) 0 = W p k.
Proof.
  induction n as [|n IH]; intros H; [lia|]. destruct (Nat.eq_dec k n) as [->|]; [reflexivity|].
  cbn [schedule]. rewrite app_nth1 by (rewrite sha2_schedule_length; lia). apply IH. lia.
Qed.

Lemma sha2_W_eq p t :
  W p t = if (t <? 16)%nat then be_word V p t
          else (sigma1 V (W p (t - 2)) + W p (t - 7) + sigma0 V (W p (t - 15)) + W p (t - 16)) mod modulus V.
Proof.
  unfold W at 1. cbn [schedule]. rewrite app_nth2 by (rewrite sha2_schedule_length; lia).
  rewrite sha2_schedule_length, Nat.sub_diag. cbn [nth].
  destruct (Nat.ltb_spec t 16); [reflexivity|]. now rewrite !sha2_nth_schedule by lia.
Qed.

Lemma add_l x y z : add V (add V x y) z = (x + y + z) mod modulus V.
Proof. unfold add. fold (modulus V). apply Zplus_mod_idemp_l. Qed.

Lemma add_mod_l x y : add V (x mod modulus V) y = (x + y) mod modulus V.
Proof. unfold add. fold (modulus V). apply Zplus_mod_idemp_l. Qed.

Lemma add_mod_r x y : add V x (y mod modulus V) = (x + y) mod modulus V.
Proof. unfold add. fold (modulus V). apply Zplus_mod_idemp_r. Qed.

Lemma add_5 x y z u w : add V (add V (add V (add V x y) z) u) w = (x + y + z + u + w) mod modulus V.
Proof. unfold add. fold (modulus V). rewrite !Zplus_mod_idemp_l, <- (Z.add_assoc _ u w), Zplus_mod_idemp_l. f_equal. lia. Qed.

Lemma compress_fips s t p : compress V s (nth t (K V) 0) (W p t) = fips_step V (W p) s t.
Proof.
  destruct s as [[[[[[[a b] c] d] e] f] g] h]. unfold compress, fips_step. cbv zeta.
  rewrite (add_5 h (Sigma1 V e) (Ch e f g) (nth t (K V) 0) (W p t)). reflexivity.
Qed.

Lemma load_reverse data j : REVERSE V (load V data j) = be_word V data j.
Proof.
  apply REVERSE_rev; [|now rewrite length_map, length_seq].
  apply Forall_map, Forall_forall. intros k _. apply u8_bound.
Qed.

Lemma round_0_15_step data s l j : circular (W data) j l -> (j < 16)%nat ->
  round_0_15 V data (s, l) j = (fips_step V (W data) s j, list_set l (j mod 16) (W data j)).
Proof.
  intros Hc Hj. unfold round_0_15. rewrite load_reverse, Nat.mod_small by lia.
  rewrite <- compress_fips, sha2_W_eq, (proj2 (Nat.ltb_lt _ _)) by lia. reflexivity.
Qed.

Lemma round_step data s l j : circular (W data) j l -> (16 <= j)%nat ->
  round V (s, l) j = (fips_step V (W data) s j, list_set l (j mod 16) (W data j)).
Proof.
  intros Hc Hj. unfold round. pose proof (circular_nth _ _ _ 0%nat Hc Hj ltac:(lia)) as E. rewrite Nat.add_0_r in E.
  rewrite E, !(circular_nth _ _ _ _ Hc) by lia. set (w := add V _ _).
  replace w with (W data j); [now rewrite compress_fips|]. unfold w.
  rewrite sha2_W_eq, (proj2 (Nat.ltb_ge _ _)), add_l, add_mod_r by lia.
  change (16 - 1)%nat with 15%nat. change (16 - 14)%nat with 2%nat. change (16 - 9)%nat with 7%nat. change (16 - 0)%nat with 16%nat.
  f_equal. lia.
Qed.

(** Either loop, from round [t] on. *)
Lemma rounds_fips data (f : regs * list Z -> nat -> regs * list Z) n t s l :
  (forall s l j, (t <= j < t + n)%nat -> circular (W data) j l ->
     f (s, l) j = (fips_step V (W data) s j, list_set l (j mod 16) (W data j))) ->
  circular (W data) t l ->
  exists l', fold_left f (seq t n) (s, l) = (fold_left (fips_step V (W data)) (seq t n) s, l') /\ circular (W data) (t + n) l'.
Proof.
  revert t s l; induction n as [|n IH]; intros t s l Hf Hc; cbn [seq fold_left].
  - exists l. now rewrite Nat.add_0_r.
  - rewrite Hf by (auto; lia). destruct (IH (S t) (fips_step V (W data) s t) (list_set l (t mod 16) (W data t))) as (l' & E & Hc').
    + intros s' l0 j Hj. apply Hf. lia.
    + now apply circular_set.
    + exists l'. rewrite E. split; [reflexivity|]. now replace (t + S n)%nat with (S t + n)%nat by lia.
Qed.

Lemma bytes_of_words_length l n : length (flat_map (le_bytes n) l) = (length l * n)%nat.
Proof. induction l as [|x l IH]; cbn; [reflexivity|]. now rewrite length_app, le_bytes_length, IH. Qed.

Lemma Transform_fips st buf data :
  exists buf', Transform V st buf data = (fips_process V st data, buf') /\ length buf' = B.
Proof.
  unfold Transform, fips_process. cbv zeta.
  destruct (rounds_fips data (round_0_15 V data) 16 0 st (map (load V buf) (seq 0 16))) as (l1 & -> & H1).
  { intros s l j Hj Hc. apply round_0_15_step; auto. lia. }
  { split; [now rewrite length_map, length_seq|intros; lia]. }
  destruct (rounds_fips data (round V) (rounds V - 16) 16 (fold_left (fips_step V (W data)) (seq 0 16) st) l1) as (l2 & -> & H2); auto.
  { intros s l j Hj Hc. apply round_step; auto. lia. }
  eexists. split; [|rewrite bytes_of_words_length, (proj1 H2); reflexivity]. f_equal. f_equal.
  rewrite <- fold_left_app. pose proof rounds_ok. replace (seq 0 16 ++ seq 16 (rounds V - 16)) with (seq 0 (rounds V)).
  - apply fold_left_ext_in. intros [[[[[[[a b] c] d] e] f] g] h] t Ht. apply in_seq in Ht. unfold fips_step. now rewrite sha2_nth_schedule by lia.
  - rewrite <- seq_app. f_equal. lia.
Qed.

(** ** Updating *)

Context (initial : list Z).
Notation f := (fips_process V).
Notation IV := (regs_of initial).

Definition sha2_rep (c : CTX V) (m : list Z) : Prop :=
  counts (bitcount V c) (bit_length m) /\ holds_in B (buffer V c) m /\ state V c = chain f B IV m.

Lemma usedspace_rep c m : counts (bitcount V c) (bit_length m) -> usedspace V c = (length m mod B)%nat.
Proof.
  intros Hc. unfold usedspace. rewrite (counts_low _ _ Hc), Z.shiftr_div_pow2 by lia. unfold u64, bit_length.
  change (2 ^ 3) with 8. change 18446744073709551616 with (8 * 2305843009213693952).
  rewrite Z.mul_mod_distr_l, (Z.mul_comm 8), Z.div_mul by lia.
  rewrite <- (Nat2Z.id (length m mod B)), Nat2Z.inj_mod. f_equal. symmetry.
  apply Znumtheory.Zmod_div_mod; [pose proof block_pos; lia|lia|].
  unfold BLOCK_LENGTH. destruct wbytes_ok as [-> | ->]; [exists 36028797018963968|exists 18014398509481984]; reflexivity.
Qed.

Lemma small_shift n : (n <= B)%nat -> 0 <= Z.shiftl (Z.of_nat n) 3 < 18446744073709551616 /\ Z.shiftl (Z.of_nat n) 3 = 8 * Z.of_nat n.
Proof.
  intros Hn. rewrite Z.shiftl_mul_pow2 by lia. change (2 ^ 3) with 8.
  assert (B <= 128)%nat by (unfold BLOCK_LENGTH; destruct wbytes_ok as [-> | ->]; lia). lia.
Qed.

Lemma blocks_loop_spec fuel c p n : (length p <= fuel)%nat -> counts (bitcount V c) n -> length (buffer V c) = B ->
  exists c', blocks_loop V fuel c p = (c', rest B p) /\ state V c' = chain f B (state V c) p /\
    counts (bitcount V c') (n + 8 * (Z.of_nat (length p) - Z.of_nat (length (rest B p)))) /\ length (buffer V c') = B.
Proof.
  pose proof block_pos as HB.
  revert c p n; induction fuel as [|fuel IH]; intros c p n Hf Hc Hl; cbn [blocks_loop].
  - exists c. rewrite rest_small, chain_small by (auto; lia). splits; auto. now replace (n + _) with n by lia.
  - destruct (Nat.leb_spec B (length p)) as [Hp|Hp].
    + destruct (Transform_fips (state V c) (buffer V c) (firstn B p)) as (buf & E & Hb).
      rewrite E. destruct (small_shift B ltac:(lia)) as (Hs & Es).
      edestruct (IH (mkCTX V (f (state V c) (firstn B p)) (ADDINC V (bitcount V c) (Z.shiftl (Z.of_nat B) 3)) buf) (skipn B p)) as (c' & -> & H1 & H2 & H3).
      * rewrite length_skipn. lia.
      * apply counts_add; [exact Hc|exact Hs].
      * exact Hb.
      * exists c'. rewrite <- (rest_step B HB p Hp) in *. splits; auto.
        -- rewrite H1. cbn [state]. now rewrite (chain_step f B HB _ p Hp).
        -- rewrite Es, length_skipn in H2. replace (n + 8 * _) with (n + 8 * Z.of_nat B + 8 * (Z.of_nat (length p - B) - Z.of_nat (length (rest B p)))) by lia. exact H2.
    + exists c. rewrite rest_small, chain_small by (auto; lia). splits; auto. now replace (n + _) with n by lia.
Qed.

(** The state, counter and buffer of a context. *)
Definition holds_ctx (c : CTX V) (s : regs) (n : Z) (buf_ok : list Z -> Prop) : Prop :=
  state V c = s /\ counts (bitcount V c) n /\ buf_ok (buffer V c).

Lemma update_blocks_spec c p n m : counts (bitcount V c) n -> length (buffer V c) = B -> rest B m = rest B p ->
  exists c', update_blocks V c p = Ok c' /\
    holds_ctx c' (chain f B (state V c) p) (n + 8 * Z.of_nat (length p)) (fun buf => holds_in B buf m).
Proof.
  intros Hc Hl Hr. pose proof block_pos as HB. unfold update_blocks.
  destruct (blocks_loop_spec (length p) c p n ltac:(lia) Hc Hl) as (c' & -> & H1 & H2 & H3).
  pose proof (rest_bound B HB p) as Hb. destruct (Nat.ltb_spec 0 (length (rest B p))) as [H0|H0].
  - destruct (fill_rest_in B HB (buffer V c') m p H3 Hr) as (buf & -> & Hh). cbn [bind].
    eexists. split; [reflexivity|]. destruct (small_shift (length (rest B p)) ltac:(lia)) as (Hs & Es).
    split; [exact H1|]. split; [|exact Hh]. cbn [bitcount].
    replace (n + 8 * Z.of_nat (length p)) with (n + 8 * (Z.of_nat (length p) - Z.of_nat (length (rest B p))) + Z.shiftl (Z.of_nat (length (rest B p))) 3) by lia.
    now apply counts_add.
  - exists c'. split; [reflexivity|]. split; [exact H1|]. split.
    + now replace (n + 8 * Z.of_nat (length p)) with (n + 8 * (Z.of_nat (length p) - Z.of_nat (length (rest B p)))) by lia.
    + apply fill_none_in; auto. rewrite Hr. apply length_zero_iff_nil. lia.
Qed.

Lemma holds_rep c s n m : holds_ctx c s n (fun buf => holds_in B buf m) -> s = chain f B IV m -> n = bit_length m -> sha2_rep c m.
Proof. intros (H1 & H2 & H3) -> ->. unfold sha2_rep. auto. Qed.

Lemma sha2_update_rep c m d : sha2_rep c m -> exists c', Update V c d = Ok c' /\ sha2_rep c' (m ++ d).
Proof.
  intros (Hc & Hb & Hs). pose proof block_pos as HB. unfold Update.
  destruct (Nat.eqb_spec (length d) 0) as [E|_].
  { apply length_zero_iff_nil in E as ->. rewrite app_nil_r. exists c. unfold sha2_rep; auto. }
  rewrite (usedspace_rep _ _ Hc). pose proof (Nat.mod_upper_bound (length m) B ltac:(lia)) as Hu.
  destruct (Nat.ltb_spec 0 (length m mod B)) as [H0|H0].
  - destruct (Nat.leb_spec (B - length m mod B) (length d)) as [Hf|Hp].
    + destruct (fill_block_in B HB (buffer V c) m d Hb ltac:(lia)) as (-> & Hl). cbn [bind].
      destruct (Transform_fips (state V c) (rest B m ++ firstn (B - length m mod B) d) (rest B m ++ firstn (B - length m mod B) d)) as (buf & -> & Hbuf).
      destruct (small_shift (B - length m mod B) ltac:(lia)) as (Hsm & Esm).
      destruct (absorb_block_in B HB f IV m d ltac:(lia)) as (Ech & Er).
      edestruct update_blocks_spec as (c' & E & H'); [..|exists c'; split; [exact E|eapply holds_rep; [exact H'| |]]].
      * apply counts_add; [exact Hc|exact Hsm].
      * exact Hbuf.
      * exact Er.
      * cbn [state]. rewrite Ech, Hs. reflexivity.
      * rewrite Esm, bit_length_app, length_skipn. lia.
    + destruct (fill_partial_in B HB f IV m (buffer V c) d Hb ltac:(lia)) as (buf & -> & Hh & Ech). cbn [bind].
      destruct (small_shift (length d) ltac:(lia)) as (Hsm & Esm).
      eexists. split; [reflexivity|]. unfold sha2_rep. cbn [bitcount buffer state]. rewrite Ech. splits; auto.
      rewrite bit_length_app, <- Esm. now apply counts_add.
  - destruct (absorb_aligned_in B HB f IV m d ltac:(lia)) as (Ech & Er).
    destruct (update_blocks_spec c d (bit_length m) (m ++ d) Hc (proj1 Hb) Er) as (c' & E & H').
    exists c'. split; [exact E|]. eapply holds_rep; [exact H'|now rewrite Ech, Hs|now rewrite bit_length_app].
Qed.

(** ** The padding *)

(** A copy up to the end of the buffer. *)
Lemma memcpy_full dst off src : (off + length src = length dst)%nat -> memcpy dst off src = Ok (firstn off dst ++ src).
Proof. intros H. rewrite memcpy_ok, skipn_all2 by lia. now rewrite app_nil_r. Qed.

Lemma firstn_repeat {A} (x : A) n k : firstn n (repeat x k) = repeat x (Nat.min n k).
Proof. revert k; induction n as [|n IH]; intros [|k]; cbn; congruence. Qed.

Lemma short_pos : (0 < SHORT)%nat /\ (SHORT < B)%nat.
Proof. unfold SHORT_BLOCK_LENGTH, BLOCK_LENGTH. destruct wbytes_ok as [-> | ->]; lia. Qed.

(** The number of zero bytes, by the bytes used in the last block. *)
Lemma zeros_cases n : zeros V n = if (n mod B <? SHORT)%nat then (SHORT - 1 - n mod B)%nat else (B + SHORT - 1 - n mod B)%nat.
Proof.
  pose proof block_pos. pose proof short_pos. unfold zeros. pose proof (Nat.div_mod n B ltac:(lia)) as E. pose proof (Nat.mod_upper_bound n B ltac:(lia)).
  set (u := (n mod B)%nat) in *. set (q := (n / B)%nat) in *.
  assert (EZ : Z.of_nat n = Z.of_nat B * Z.of_nat q + Z.of_nat u) by lia.
  destruct (Nat.ltb_spec u SHORT).
  - replace (_ mod _) with (Z.of_nat (SHORT - 1 - u)); [lia|]. apply Z.mod_unique with (- Z.of_nat q); lia.
  - replace (_ mod _) with (Z.of_nat (B + SHORT - 1 - u)); [lia|]. apply Z.mod_unique with (- Z.of_nat q - 1); lia.
Qed.

(** The rest of a message with a tail that completes one block or two. *)
Lemma chain_tail m x : (length (rest B m ++ x) = B)%nat -> chain f B IV (m ++ x) = f (chain f B IV m) (rest B m ++ x).
Proof.
  pose proof block_pos as HB. intros H. rewrite length_app, rest_length in H by exact HB.
  destruct (absorb_block_in B HB f IV m x ltac:(lia)) as (-> & _).
  rewrite firstn_all2, skipn_all2, chain_small by (cbn [length]; lia). reflexivity.
Qed.

Lemma chain_tail2 m x y : (length (rest B m ++ x) = B)%nat -> (length y = B)%nat ->
  chain f B IV (m ++ x ++ y) = f (f (chain f B IV m) (rest B m ++ x)) y.
Proof.
  pose proof block_pos as HB. intros H Hy. pose proof (chain_tail m x H) as E.
  rewrite length_app, rest_length in H by exact HB. rewrite app_assoc.
  destruct (absorb_aligned_in B HB f IV (m ++ x) y) as (-> & _).
  { rewrite length_app. rewrite <- (Nat.Div0.add_mod_idemp_l (length m)). replace (_ + _)%nat with B by lia. apply Nat.Div0.mod_same. }
  rewrite chain_step, firstn_all2, skipn_all2, chain_small, E by (cbn [length]; lia). reflexivity.
Qed.

Definition tail (m bits : list Z) : list Z := (128 :: repeat 0 (zeros V (length m))) ++ bits.

(** The marker, then zeros up to [e]. *)
Lemma mark_and_clear buf m e : holds_in B buf m -> (length m mod B < e <= B)%nat ->
  exists b1 b2, memcpy buf (length m mod B) [128] = Ok b1 /\ MEMSET_BZERO b1 (S (length m mod B)) (e - S (length m mod B)) = Ok b2 /\
    length b1 = B /\ length b2 = B /\ firstn e b2 = rest B m ++ 128 :: repeat 0 (e - S (length m mod B)).
Proof.
  intros [Hl Hf] He. destruct (memcpy_prefix buf (length m mod B) [128] ltac:(cbn [length]; lia)) as (b1 & E1 & L1 & F1).
  set (u := (length m mod B)%nat) in *. cbn [length] in F1. rewrite Nat.add_1_r in F1.
  destruct (memcpy_prefix b1 (S u) (repeat 0 (e - S u))) as (b2 & E2 & L2 & F2); [rewrite repeat_length; lia|].
  exists b1, b2. splits; auto; try congruence. rewrite repeat_length, F1, Hf in F2.
  replace (S u + (e - S u))%nat with e in F2 by lia. rewrite F2, <- app_assoc. reflexivity.
Qed.

(** The same on an empty buffer, in the other order. *)
Lemma clear_and_mark buf : length buf = B ->
  exists b1 b2, MEMSET_BZERO buf 0 SHORT = Ok b1 /\ memcpy b1 0 [128] = Ok b2 /\ length b2 = B /\
    firstn SHORT b2 = 128 :: repeat 0 (SHORT - 1).
Proof.
  intros Hl. pose proof short_pos as HS.
  destruct (memcpy_prefix buf 0 (repeat 0 SHORT)) as (b1 & E1 & L1 & F1); [rewrite repeat_length; lia|].
  rewrite repeat_length in F1. cbn [Nat.add firstn app] in F1.
  exists b1, (128 :: skipn 1 b1). splits; auto.
  - rewrite memcpy_ok by (cbn [length]; lia). reflexivity.
  - cbn [length]. rewrite length_skipn. lia.
  - destruct SHORT as [|n]; [lia|]. destruct b1 as [|x b1]; [discriminate F1|]. cbn [firstn skipn repeat Nat.sub] in *.
    injection F1 as _ ->. now rewrite Nat.sub_0_r.
Qed.

Lemma Last_spec c m bits cleared :
  sha2_rep c m -> length bits = (B - SHORT)%nat -> (SHORT <= cleared <= B)%nat ->
  exists buf, Last V cleared bits c = Ok (chain f B IV (m ++ tail m bits), buf).
Proof.
  intros (Hc & Hb & Hs) Hbits Hcl. pose proof block_pos as HB. pose proof short_pos as HS.
  unfold Last, tail. rewrite (usedspace_rep _ _ Hc), zeros_cases. pose proof (Nat.mod_upper_bound (length m) B ltac:(lia)) as Hu.
  set (u := (length m mod B)%nat) in *. assert (Hr : length (rest B m) = u) by now apply rest_length.
  destruct (Nat.ltb_spec 0 u) as [H0|H0].
  - destruct (Nat.leb_spec (S u) SHORT) as [H1|H1].
    + rewrite (proj2 (Nat.ltb_lt u SHORT)) by lia.
      destruct (mark_and_clear (buffer V c) m SHORT Hb ltac:(fold u; lia)) as (b1 & b2 & E1 & E2 & L1 & L2 & F2). fold u in E1, E2, F2.
      rewrite E1. cbn [bind]. rewrite E2. cbn [bind]. rewrite memcpy_full, F2 by lia. cbn [bind].
      destruct (Transform_fips (state V c) ((rest B m ++ 128 :: repeat 0 (SHORT - S u)) ++ bits) ((rest B m ++ 128 :: repeat 0 (SHORT - S u)) ++ bits)) as (buf & -> & _).
      exists buf. rewrite chain_tail, Hs by (rewrite !length_app; cbn [length]; rewrite repeat_length; lia).
      replace (SHORT - 1 - u)%nat with (SHORT - S u)%nat by lia. now rewrite <- app_assoc.
    + rewrite (proj2 (Nat.ltb_ge u SHORT)) by lia.
      destruct (mark_and_clear (buffer V c) m B Hb ltac:(fold u; lia)) as (b1 & b2 & E1 & E2 & L1 & L2 & F2). fold u in E1, E2, F2.
      rewrite E1. cbn [bind]. rewrite firstn_all2 in F2 by lia.
      replace (if (S u <? B)%nat then MEMSET_BZERO b1 (S u) (B - S u) else Ok b1) with (Ok b2).
      2:{ destruct (Nat.ltb_spec (S u) B); [now rewrite E2|]. revert E2. replace (B - S u)%nat with 0%nat by lia.
          unfold MEMSET_BZERO. cbn [repeat]. rewrite memcpy_full, app_nil_r, firstn_all2 by (cbn [length]; lia). congruence. }
      cbn [bind]. destruct (Transform_fips (state V c) b2 b2) as (b3 & -> & L3). unfold MEMSET_BZERO.
      rewrite memcpy_ok by (rewrite repeat_length; lia). cbn [bind firstn app].
      rewrite memcpy_full by (rewrite length_app, length_skipn, !repeat_length; lia). cbn [bind].
      rewrite firstn_app, repeat_length, firstn_repeat. replace (SHORT - cleared)%nat with 0%nat by lia. replace (Nat.min SHORT cleared) with SHORT by lia.
      cbn [firstn]. rewrite app_nil_r. destruct (Transform_fips (f (state V c) b2) (repeat 0 SHORT ++ bits) (repeat 0 SHORT ++ bits)) as (buf & -> & _).
      exists buf. replace (128 :: repeat 0 (B + SHORT - 1 - u) ++ bits) with ((128 :: repeat 0 (B - S u)) ++ repeat 0 SHORT ++ bits).
      * rewrite chain_tail2, Hs, F2; [reflexivity|rewrite length_app; cbn [length]; rewrite repeat_length; lia|rewrite length_app, repeat_length; lia].
      * cbn [app]. rewrite app_assoc, <- repeat_app. do 3 f_equal. lia.
  - rewrite (proj2 (Nat.ltb_lt u SHORT)) by lia. destruct Hb as [Hl _].
    assert (Hr0 : rest B m = []) by (apply length_zero_iff_nil; lia).
    destruct (clear_and_mark (buffer V c) Hl) as (b1 & b2 & E1 & E2 & L2 & F2).
    rewrite E1. cbn [bind]. rewrite E2. cbn [bind]. rewrite memcpy_full, F2 by lia. cbn [bind].
    destruct (Transform_fips (state V c) ((128 :: repeat 0 (SHORT - 1)) ++ bits) ((128 :: repeat 0 (SHORT - 1)) ++ bits)) as (buf & -> & _).
    exists buf. replace (SHORT - 1 - u)%nat with (SHORT - 1)%nat by lia.
    rewrite chain_tail, Hs, Hr0; [reflexivity|]. rewrite Hr0. cbn [app length]. rewrite length_app, repeat_length. lia.
Qed.

(** ** The result *)

Definition word_ok (w : Z) : Prop := 0 <= w < modulus V.

Lemma reverse_be w : word_ok w -> le_bytes (wbytes V) (REVERSE V w) = be_bytes (wbytes V) w.
Proof.
  intros Hw. unfold word_ok, modulus in Hw. rewrite <- pow256_bits in Hw.
  pose proof (le_bytes_byte (wbytes V) w) as Hb. pose proof (le_bytes_length (wbytes V) w) as Hl.
  rewrite <- (Z.mod_small w _ Hw) at 1. rewrite <- le_val_le_bytes, REVERSE_rev by auto.
  pose proof (le_bytes_le_val (rev (le_bytes (wbytes V) w)) (Forall_rev Hb)) as E. rewrite length_rev, Hl in E. exact E.
Qed.

Lemma add_state_ok s t : Forall word_ok (words_of (add_state V s t)).
Proof.
  destruct s as [[[[[[[? ?] ?] ?] ?] ?] ?] ?], t as [[[[[[[? ?] ?] ?] ?] ?] ?] ?]. cbn [add_state words_of].
  repeat constructor; apply Z.mod_pos_bound; apply Z.pow_pos_nonneg; lia.
Qed.

Lemma chain_ok s m : Forall word_ok (words_of s) -> Forall word_ok (words_of (chain f B s m)).
Proof.
  unfold chain. generalize (blocks B m). intros n. revert s m; induction n as [|n IH]; intros s m H; cbn [absorb]; auto.
  apply IH, add_state_ok.
Qed.

Lemma output_be n s : Forall word_ok (words_of s) -> output V n s = flat_map (be_bytes (wbytes V)) (firstn n (words_of s)).
Proof.
  intros H. unfold output. rewrite !flat_map_concat_map. f_equal. apply map_ext_Forall.
  eapply Forall_impl; [|apply Forall_firstn', H]. apply reverse_be.
Qed.

Lemma be_length n l : length (flat_map (be_bytes n) l) = (length l * n)%nat.
Proof. induction l as [|x l IH]; cbn; [reflexivity|]. unfold be_bytes at 1. now rewrite length_app, length_rev, le_bytes_length, IH. Qed.

Lemma Init_rep c : sha2_rep (Init V initial c) [].
Proof.
  pose proof block_pos as HB. unfold sha2_rep, Init; cbn [bitcount buffer state]. splits.
  - apply counts_zero.
  - apply fill_none_in; auto; [apply repeat_length|]. apply rest_small; cbn; auto.
  - symmetry. apply chain_small; cbn; auto.
Qed.

Lemma fips_hash_length n m : (n <= 8)%nat -> length (fips_hash V initial n m) = (n * wbytes V)%nat.
Proof.
  intros Hn. unfold fips_hash. rewrite be_length, length_firstn.
  destruct (chain _ _ _ _) as [[[[[[[? ?] ?] ?] ?] ?] ?] ?]. cbn [words_of length]. f_equal. lia.
Qed.
End Proofs.

(** The counter as it is stored. *)
Lemma reverse64_be w : 0 <= w < 18446744073709551616 -> le_bytes 8 (REVERSE64 w) = be_bytes 8 w.
Proof. apply (reverse_be (V := v512)). Qed.

Lemma be_bytes_u64 n : le_bytes 8 (REVERSE64 (u64 n)) = be_bytes 8 n.
Proof.
  rewrite reverse64_be by (apply Z.mod_pos_bound; lia). unfold be_bytes, u64. f_equal.
  change 18446744073709551616 with (2 ^ 64). now apply le_bytes_mod.
Qed.

Definition words_ok64 (l : list Z) : Prop := Forall (fun w => 0 <= w < 18446744073709551616) l.

Lemma sha256_finish_rep c m : sha2_rep sha256_initial_hash_value c m ->
  exists c', SHA256_Finish c = Ok (fips_hash v256 sha256_initial_hash_value 8 m, c') /\ True.
Proof.
  intros H. assert (Hc : bitcount v256 c = u64 (bit_length m)) by exact (proj1 H). unfold SHA256_Finish. cbv zeta. rewrite Hc, be_bytes_u64.
  destruct (Last_spec _ c m (be_bytes 8 (bit_length m)) (SHORT_BLOCK_LENGTH v256) H) as (buf & E).
  { unfold be_bytes. now rewrite length_rev, le_bytes_length. }
  { cbn. lia. }
  rewrite E. cbn [bind]. eexists. split; [|exact I]. rewrite output_be; [reflexivity|].
  apply chain_ok. repeat constructor; cbn; lia.
Qed.

Lemma sha512_last_rep initial c m : sha2_rep initial c m ->
  exists buf, SHA512_Last c = Ok (chain (fips_process v512) (BLOCK_LENGTH v512) (regs_of initial) (message v512 m), buf).
Proof.
  intros H. assert (Hc : bitcount v512 c = (u64 (bit_length m), u64 (bit_length m / 18446744073709551616))) by exact (proj1 H).
  unfold SHA512_Last. cbv zeta. rewrite Hc. cbn [fst snd]. rewrite !be_bytes_u64.
  replace (be_bytes 8 (bit_length m / 18446744073709551616) ++ be_bytes 8 (bit_length m)) with (be_bytes 16 (bit_length m)).
  2:{ unfold be_bytes. rewrite <- rev_app_distr. f_equal. change 18446744073709551616 with (2 ^ (8 * Z.of_nat 8)).
      now rewrite <- le_bytes_app. }
  destruct (Last_spec _ c m (be_bytes 16 (bit_length m)) (BLOCK_LENGTH v512 - 2) H) as (buf & E).
  { unfold be_bytes. now rewrite length_rev, le_bytes_length. }
  { cbn. lia. }
  exists buf. exact E.
Qed.

Lemma sha512_finish_rep initial n c m : sha2_rep initial c m -> Forall (word_ok (V := v512)) (words_of (regs_of initial)) ->
  exists c', ('(st, _) <- SHA512_Last c ;; Ok (output v512 n st, zeroed v512)) = Ok (fips_hash v512 initial n m, c') /\ True.
Proof.
  intros H Hi. destruct (sha512_last_rep _ _ _ H) as (buf & ->). cbn [bind]. eexists. split; [|exact I].
  unfold fips_hash. now rewrite (output_be (V := v512)) by now apply chain_ok.
Qed.

#[export] Instance sha256_laws : DigestLaws sha256.
Proof.
  refine (Build_DigestLaws sha256 (fun _ => True) (sha2_rep (V := v256) sha256_initial_hash_value)
    (fips_hash v256 sha256_initial_hash_value 8) 4294967296 _ _ _ _ _ _).
  - intros c _. apply Init_rep.
  - intros c m d H _. now apply sha2_update_rep.
  - apply sha256_finish_rep.
  - auto.
  - intros m. now rewrite fips_hash_length by lia.
  - split; [discriminate|]. vm_compute. discriminate.
Defined.

#[export] Instance sha384_laws : DigestLaws sha384.
Proof.
  refine (Build_DigestLaws sha384 (fun _ => True) (sha2_rep (V := v512) sha384_initial_hash_value)
    (fips_hash v512 sha384_initial_hash_value 6) 4294967296 _ _ _ _ _ _).
  - intros c _. apply Init_rep.
  - intros c m d H _. now apply sha2_update_rep.
  - intros c m H. apply sha512_finish_rep; auto. repeat constructor; cbn; lia.
  - auto.
  - intros m. now rewrite fips_hash_length by lia.
  - split; [discriminate|]. vm_compute. discriminate.
Defined.

#[export] Instance sha512_laws : DigestLaws sha512.
Proof.
  refine (Build_DigestLaws sha512 (fun _ => True) (sha2_rep (V := v512) sha512_initial_hash_value)
    (fips_hash v512 sha512_initial_hash_value 8) 4294967296 _ _ _ _ _ _).
  - intros c _. apply Init_rep.
  - intros c m d H _. now apply sha2_update_rep.
  - intros c m H. apply sha512_finish_rep; auto. repeat constructor; cbn; lia.
  - auto.
  - intros m. now rewrite fips_hash_length by lia.
  - split; [discriminate|]. vm_compute. discriminate.
Defined.

(** ** Properties *)

(** C28: the three SHA-2 objects fed a message in pieces compute the hash
    functions of FIPS 180-2: the schedule kept in the context's own buffer, the
    reversal of words by masks and shifts, the padding in one or two blocks and
    the counters of 64 and 128 bits amount to the loop over big-endian words of
    the padded message. *)
Theorem sha2_streams (p256 : SHA256_CTX) (p512 : SHA512_CTX) chunks :
  Forall (fun d => Z.of_nat (length d) < 4294967296) chunks ->
  digest_chunks (algo := sha256) p256 chunks = Ok (fips_hash v256 sha256_initial_hash_value 8 (concat chunks)) /\
  digest_chunks (algo := sha384) p512 chunks = Ok (fips_hash v512 sha384_initial_hash_value 6 (concat chunks)) /\
  digest_chunks (algo := sha512) p512 chunks = Ok (fips_hash v512 sha512_initial_hash_value 8 (concat chunks)).
Proof.
  intros H. splits.
  - exact (digest_chunks_ok (laws := sha256_laws) p256 chunks I H).
  - exact (digest_chunks_ok (laws := sha384_laws) p512 chunks I H).
  - exact (digest_chunks_ok (laws := sha512_laws) p512 chunks I H).
Qed.

(** [abc] in two pieces: [ba7816bf...], [cb00753f...], [ddaf35a1...]. *)
Lemma sha2_streams_witness :
  let m := [97; 98; 99] in
  (digest_chunks (algo := sha256) (zeroed v256) [[97]; [98; 99]] = Ok (fips_hash v256 sha256_initial_hash_value 8 m) /\
   digest_chunks (algo := sha384) (zeroed v512) [[97]; [98; 99]] = Ok (fips_hash v512 sha384_initial_hash_value 6 m) /\
   digest_chunks (algo := sha512) (zeroed v512) [[97]; [98; 99]] = Ok (fips_hash v512 sha512_initial_hash_value 8 m)) /\
  firstn 4 (fips_hash v256 sha256_initial_hash_value 8 m) = [186; 120; 22; 191] /\
  firstn 4 (fips_hash v512 sha384_initial_hash_value 6 m) = [203; 0; 117; 63] /\
  firstn 4 (fips_hash v512 sha512_initial_hash_value 8 m) = [221; 175; 53; 161].
Proof.
  cbv zeta. split; [apply (sha2_streams (zeroed v256) (zeroed v512) [[97]; [98; 99]]); repeat constructor|].
  splits; vm_compute; reflexivity.
Defined.

(** The first [w] bits behind the point of the [e]-th root of [p] are those
    of [k]. *)
Definition root_bits (e w p k : Z) : Prop :=
  exists q, 0 <= k < 2 ^ w /\ (q * 2 ^ w + k) ^ e <= p * 2 ^ (w * e) < (q * 2 ^ w + k + 1) ^ e.

Definition is_prime (n : nat) : bool := (2 <=? n)%nat && forallb (fun d => negb (n mod d =? 0)%nat) (seq 2 (n - 2)).

(** The first 80 primes. *)
Definition primes : list Z := map Z.of_nat (filter is_prime (seq 0 410)).

Definition root_bits_b (e w p k : Z) : bool :=
  existsb (fun q => let x := Z.of_nat q * 2 ^ w + k in
    (0 <=? k) && (k <? 2 ^ w) && (x ^ e <=? p * 2 ^ (w * e)) && (p * 2 ^ (w * e) <? (x + 1) ^ e)) (seq 0 25).

Lemma root_bits_check e w p k : root_bits_b e w p k = true -> root_bits e w p k.
Proof.
  unfold root_bits_b. rewrite existsb_exists. intros (q & _ & H). exists (Z.of_nat q). breflect. auto.
Qed.

Lemma root_table e w ps ks : forallb (fun pk => root_bits_b e w (fst pk) (snd pk)) (combine ps ks) = true ->
  length ps = length ks -> Forall2 (root_bits e w) ps ks.
Proof.
  revert ks; induction ps as [|p ps IH]; intros [|k ks] H HL; try discriminate; constructor.
  - cbn in H. apply andb_prop in H. now apply root_bits_check.
  - cbn in H. apply andb_prop in H. apply IH; [apply H|now injection HL].
Qed.

(** The tables are those of FIPS 180-2, down to the last bit: the round
    constants are the fractional parts of the cube roots of the first 64 and 80
    primes, the initial values those of the square roots of the first eight
    primes, and of the next eight for SHA-384. *)
Theorem sha2_tables :
  Forall2 (root_bits 3 32) (firstn 64 primes) K256 /\ Forall2 (root_bits 3 64) (firstn 80 primes) K512 /\
  Forall2 (root_bits 2 32) (firstn 8 primes) sha256_initial_hash_value /\
  Forall2 (root_bits 2 64) (firstn 8 (skipn 8 primes)) sha384_initial_hash_value /\
  Forall2 (root_bits 2 64) (firstn 8 primes) sha512_initial_hash_value.
Proof. splits; apply root_table; vm_compute; reflexivity. Qed.
