(* ===== verification/Babble.v ===== *)
(** * BubbleBabble

    src/ruby/ext/digest/bubblebabble/bubblebabble.c: a pronounceable encoding
    of a digest, five letters for two bytes, with a running checksum in the
    vowels. *)

From Stdlib Require Import ZArith Lia List Bool.
From S2P Require Import Prelude CInt Digest.
Import ListNotations.
Local Open Scope Z_scope.
Local Open Scope outcome_scope.

Definition vowels : list Z := [97; 101; 105; 111; 117; 121].
Definition consonants : list Z :=
  [98; 99; 100; 102; 103; 104; 107; 108; 109; 110; 112; 114; 115; 116; 118; 122; 120].

Definition vowel (i : Z) : Z := nth (Z.to_nat i) vowels 0.
Definition consonant (i : Z) : Z := nth (Z.to_nat i) consonants 0.

(** The loop, with the bytes that are left and [seed]; the characters it
    writes. *)
Fixpoint babble (seed : Z) (digest : list Z) : list Z :=
  match digest with
  | [] => [vowel (cmod seed 6); consonant 16; vowel (cdiv seed 6)]
  | c1 :: digest1 =>
      let byte1 := u8 c1 in
      vowel (cmod (Z.land (Z.shiftr byte1 6) 3 + seed) 6) ::
      consonant (Z.land (Z.shiftr byte1 2) 15) ::
      vowel (cmod (Z.land byte1 3 + cdiv seed 6) 6) ::
      match digest1 with
      | [] => []
      | c2 :: digest2 =>
          let byte2 := u8 c2 in
          consonant (Z.land (Z.shiftr byte2 4) 15) :: 45 :: consonant (Z.land byte2 15) ::
          babble (cmod (seed * 5 + byte1 * 7 + byte2) 36) digest2
      end
  end.

(** [rb_str_new(0, (digest_len | 1) * 3 + 2)] has to be filled exactly. *)
Definition bubblebabble_str_new (digest : list Z) : outcome (list Z) :=
  let digest_len := Z.of_nat (length digest) in
  if cdiv (LONG_MAX - 2) 3 <? Z.lor digest_len 1 then Raise RuntimeError
  else
    let out := 120 :: babble 1 digest ++ [120] in
    if Z.of_nat (length out) =? Z.lor digest_len 1 * 3 + 2 then Ok out else Undefined.

(** [Digest::Instance#bubblebabble] and [Digest::Class.bubblebabble]. *)
Definition rb_digest_instance_bubblebabble {algo : rb_digest_metadata} (pctx self : CTX) : outcome (list Z) :=
  '(d, _) <- rb_digest_instance_digest pctx None self ;; bubblebabble_str_new d.
Definition rb_digest_class_s_bubblebabble {algo : rb_digest_metadata} (pctx : CTX) (argv : list (list Z)) :
    outcome (list Z) :=
  d <- rb_digest_class_s_digest pctx argv ;; bubblebabble_str_new d.

(** ** Lemmas *)

(** Induction over a list two elements at a time. *)
Lemma pair_ind {A} (P : list A -> Prop) :
  P [] -> (forall x, P [x]) -> (forall x y l, P l -> P (x :: y :: l)) -> forall l, P l.
Proof.
  intros H0 H1 H2. fix IH 1. intros [|x [|y l]]; [exact H0|exact (H1 x)|exact (H2 x y l (IH l))].
Qed.

Lemma lor_1 n : 0 <= n -> Z.lor n 1 = 2 * (n / 2) + 1.
Proof.
  intros Hn. rewrite (Z.div_mod n 2) at 1 by lia.
  pose proof (Z.mod_pos_bound n 2 ltac:(lia)).
  assert (E : n mod 2 = 0 \/ n mod 2 = 1) by lia. destruct E as [-> | ->].
  - rewrite Z.add_0_r. apply (lor_double_1 (n / 2)).
  - apply Z.bits_inj'. intros k Hk. rewrite Z.lor_spec. destruct (Z.eq_dec k 0) as [->|].
    + now rewrite Z.testbit_odd_0.
    + rewrite (Z.bits_above_log2 1) by (cbn; lia). apply orb_false_r.
Qed.

Lemma babble_length seed digest :
  Z.of_nat (length (babble seed digest)) = 3 * (2 * (Z.of_nat (length digest) / 2) + 1).
Proof.
  revert seed. induction digest as [| x | x y l IH] using pair_ind; intros seed; [reflexivity|reflexivity|].
  cbn [babble length]. rewrite !Nat2Z.inj_succ, IH.
  replace (Z.succ (Z.succ (Z.of_nat (length l)))) with (Z.of_nat (length l) + 1 * 2) by lia.
  rewrite Z.div_add by lia. lia.
Qed.

(** The buffer has room for exactly what is written. *)
Lemma bubblebabble_fits digest :
  3 * (Z.of_nat (length digest) + 1) <= LONG_MAX - 2 ->
  bubblebabble_str_new digest = Ok (120 :: babble 1 digest ++ [120]).
Proof.
  intros H. unfold bubblebabble_str_new. rewrite lor_1 by lia.
  set (n := Z.of_nat (length digest)) in *.
  pose proof (Z.div_mod n 2 ltac:(lia)). pose proof (Z.mod_pos_bound n 2 ltac:(lia)).
  unfold LONG_MAX in *. change (cdiv (2147483647 - 2) 3) with 715827881.
  rewrite (proj2 (Z.ltb_ge _ _)) by lia.
  cbn [length]. rewrite length_app, Nat2Z.inj_succ, Nat2Z.inj_add, babble_length. fold n. cbn [length].
  rewrite (proj2 (Z.eqb_eq _ _)) by lia. reflexivity.
Qed.

Lemma vowel_inj i j : 0 <= i < 6 -> 0 <= j < 6 -> vowel i = vowel j -> i = j.
Proof.
  intros Hi Hj E. apply Z2Nat.inj; [lia..|].
  apply (proj1 (NoDup_nth vowels 0)); [|cbn; lia|cbn; lia|exact E].
  repeat (apply NoDup_cons; [cbn; lia|]). apply NoDup_nil.
Qed.

Lemma consonant_inj i j : 0 <= i < 17 -> 0 <= j < 17 -> consonant i = consonant j -> i = j.
Proof.
  intros Hi Hj E. apply Z2Nat.inj; [lia..|].
  apply (proj1 (NoDup_nth consonants 0)); [|cbn; lia|cbn; lia|exact E].
  repeat (apply NoDup_cons; [cbn; lia|]). apply NoDup_nil.
Qed.

(** A digit added to the seed modulo 6 can be recovered. *)
Lemma shifted_vowel_inj s x y :
  0 <= s -> 0 <= x < 4 -> 0 <= y < 4 -> vowel (cmod (x + s) 6) = vowel (cmod (y + s) 6) -> x = y.
Proof.
  intros Hs Hx Hy E. unfold cmod in E. rewrite !Z.rem_mod_nonneg in E by lia.
  apply vowel_inj in E; [|apply Z.mod_pos_bound; lia..].
  pose proof (Z.div_mod (x + s) 6 ltac:(lia)). pose proof (Z.div_mod (y + s) 6 ltac:(lia)). lia.
Qed.

Lemma byte_split b : 0 <= b < 256 ->
  b = 64 * Z.land (Z.shiftr b 6) 3 + 4 * Z.land (Z.shiftr b 2) 15 + Z.land b 3 /\
  b = 16 * Z.land (Z.shiftr b 4) 15 + Z.land b 15.
Proof.
  intros Hb. change 3 with (Z.ones 2). change 15 with (Z.ones 4).
  rewrite !Z.land_ones, !Z.shiftr_div_pow2 by lia.
  change (2 ^ 6) with 64. change (2 ^ 2) with 4. change (2 ^ 4) with 16.
  rewrite (Z.mod_small (b / 64)), (Z.mod_small (b / 16)) by (split; [apply Z.div_pos|apply Z.div_lt_upper_bound]; lia).
  split; [|apply Z.div_mod; lia].
  replace (b / 64) with (b / 4 / 16) by (rewrite Z.div_div by lia; reflexivity).
  pose proof (Z.div_mod b 4 ltac:(lia)). pose proof (Z.div_mod (b / 4) 16 ltac:(lia)). lia.
Qed.

Lemma land_bound b k n : 0 <= n -> k = Z.ones n -> 0 <= Z.land b k < 2 ^ n.
Proof. intros Hn ->. rewrite Z.land_ones by lia. apply Z.mod_pos_bound. apply Z.pow_pos_nonneg; lia. Qed.

Definition same_bytes (x y : Z) : Prop := u8 x = u8 y.

(** One byte in the three letters it makes, and in the two consonants. *)
Lemma first_byte_inj s x y :
  0 <= s ->
  vowel (cmod (Z.land (Z.shiftr (u8 x) 6) 3 + s) 6) = vowel (cmod (Z.land (Z.shiftr (u8 y) 6) 3 + s) 6) ->
  consonant (Z.land (Z.shiftr (u8 x) 2) 15) = consonant (Z.land (Z.shiftr (u8 y) 2) 15) ->
  vowel (cmod (Z.land (u8 x) 3 + cdiv s 6) 6) = vowel (cmod (Z.land (u8 y) 3 + cdiv s 6) 6) ->
  u8 x = u8 y.
Proof.
  intros Hs E1 E2 E3.
  assert (B3 : forall b, 0 <= Z.land b 3 < 4) by (intros b; apply (land_bound b 3 2); [lia|reflexivity]).
  assert (B15 : forall b, 0 <= Z.land b 15 < 16) by (intros b; apply (land_bound b 15 4); [lia|reflexivity]).
  apply shifted_vowel_inj in E1; [|lia|apply B3..].
  apply consonant_inj in E2; [|pose proof (B15 (Z.shiftr (u8 x) 2)); lia|pose proof (B15 (Z.shiftr (u8 y) 2)); lia].
  apply shifted_vowel_inj in E3; [|apply Z.quot_pos; lia|apply B3..].
  rewrite (proj1 (byte_split _ (u8_bound x))), (proj1 (byte_split _ (u8_bound y))), E1, E2, E3. reflexivity.
Qed.

Lemma second_byte_inj x y :
  consonant (Z.land (Z.shiftr (u8 x) 4) 15) = consonant (Z.land (Z.shiftr (u8 y) 4) 15) ->
  consonant (Z.land (u8 x) 15) = consonant (Z.land (u8 y) 15) -> u8 x = u8 y.
Proof.
  intros E1 E2.
  assert (B15 : forall b, 0 <= Z.land b 15 < 17)
    by (intros b; pose proof (land_bound b 15 4 ltac:(lia) eq_refl) as B; change (2 ^ 4) with 16 in B; lia).
  apply consonant_inj in E1; [|apply B15..]. apply consonant_inj in E2; [|apply B15..].
  rewrite (proj2 (byte_split _ (u8_bound x))), (proj2 (byte_split _ (u8_bound y))), E1, E2. reflexivity.
Qed.

Lemma consonant_not_x i : 0 <= i < 16 -> consonant 16 <> consonant i.
Proof. intros Hi E. apply consonant_inj in E; lia. Qed.

Lemma babble_inj seed d d' :
  0 <= seed -> babble seed d = babble seed d' -> Forall2 same_bytes d d'.
Proof.
  assert (B15 : forall b, 0 <= Z.land b 15 < 16) by (intros b; apply (land_bound b 15 4); [lia|reflexivity]).
  revert seed d'. induction d as [| x | x y l IH] using pair_ind; intros seed [|x' [|y' l']] Hs E;
    cbn [babble] in E; try discriminate.
  - constructor.
  - exfalso. injection E as _ E _. now apply (consonant_not_x _ (B15 _)) in E.
  - exfalso. injection E as _ E _. symmetry in E. now apply (consonant_not_x _ (B15 _)) in E.
  - injection E as E1 E2 E3. constructor; [|constructor]. now apply (first_byte_inj seed).
  - injection E as E1 E2 E3 E4 E5 E6.
    assert (Hx : u8 x = u8 x') by now apply (first_byte_inj seed).
    assert (Hy : u8 y = u8 y') by now apply second_byte_inj.
    rewrite <- Hx, <- Hy in E6. constructor; [exact Hx|]. constructor; [exact Hy|].
    apply (IH (cmod (seed * 5 + u8 x * 7 + u8 y) 36)); [|exact E6].
    pose proof (u8_bound x). pose proof (u8_bound y). apply Z.rem_nonneg; lia.
Qed.

(** ** Properties *)

(** [bubblebabble_str_new] fills exactly the string it allocated, and the
    encoding can be undone: two byte strings with the same encoding have the same
    bytes. *)
Theorem bubblebabble_injective d d' :
  3 * (Z.of_nat (length d) + 1) <= LONG_MAX - 2 -> 3 * (Z.of_nat (length d') + 1) <= LONG_MAX - 2 ->
  exists out, bubblebabble_str_new d = Ok out /\
    Z.of_nat (length out) = 3 * Z.lor (Z.of_nat (length d)) 1 + 2 /\
    (bubblebabble_str_new d' = Ok out -> Forall2 same_bytes d d').
Proof.
  intros H H'. rewrite (bubblebabble_fits d H), (bubblebabble_fits d' H'). eexists. splits; [reflexivity| |].
  - cbn [length]. rewrite length_app, Nat2Z.inj_succ, Nat2Z.inj_add, babble_length, lor_1 by lia. cbn [length]. lia.
  - intros E. injection E as E. apply app_inv_tail in E. now apply (babble_inj 1 d d').
Qed.

Lemma bubblebabble_injective_witness :
  exists out, bubblebabble_str_new [49; 50; 51] = Ok out /\ Z.of_nat (length out) = 11 /\
    (bubblebabble_str_new [49; 50; 52] = Ok out -> Forall2 same_bytes [49; 50; 51] [49; 50; 52]).
Proof. apply (bubblebabble_injective [49; 50; 51] [49; 50; 52]); cbn; unfold LONG_MAX; lia. Defined.
