(* ===== verification/DigestObject.v ===== *)
(** * Digest objects

    The theorems of the framework of src/ruby/ext/digest/digest.c that hold for
    every algorithm with [DigestLaws], with MD5 as the concrete algorithm of
    the witness. *)

From Stdlib Require Import ZArith Lia List Bool.
From S2P Require Import Prelude CInt Digest Md5.
Import ListNotations.
Local Open Scope Z_scope.
Local Open Scope outcome_scope.

Lemma clone_digest {algo : rb_digest_metadata} {laws : DigestLaws algo} pctx self m :
  rep self m -> rb_digest_instance_digest pctx None self = Ok (hash m, self).
Proof.
  intros H. unfold rb_digest_instance_digest, clone, rb_digest_base_copy.
  destruct (base_finish_rep self m H) as (self' & -> & _). reflexivity.
Qed.

Lemma to_s_rep {algo : rb_digest_metadata} {laws : DigestLaws algo} pctx self m :
  rep self m -> rb_digest_instance_to_s pctx self = Ok (hexstring (hash m)).
Proof.
  intros H. unfold rb_digest_instance_to_s, rb_digest_instance_hexdigest, clone, rb_digest_base_copy.
  destruct (base_finish_rep self m H) as (self' & -> & _). cbn [bind]. now rewrite hexencode_hash.
Qed.

Lemma str_eq_spec a b : str_eq a b = true <-> a = b.
Proof. unfold str_eq. destruct (list_eq_dec Z.eq_dec a b); split; congruence. Qed.

(** ** Properties *)

(** C25: a digest object behaves as the message it has received: for every
    algorithm with [DigestLaws], any sequence of [update], [reset], [digest],
    [digest!], [hexdigest] and [hexdigest!] with strings of lengths the
    algorithm can take, on a new object, gives the strings computed from the
    message alone; [digest] and [hexdigest] without an argument keep the state,
    the other calls that finish a digest reset it as documented. *)
Theorem digest_object_refines {algo : rb_digest_metadata} {laws : DigestLaws algo} pctx cs :
  shape pctx -> Forall call_ok cs ->
  exists self, perform_all pctx cs (rb_digest_base_alloc pctx) = Ok (fst (answer_all cs []), self) /\
    rep self (snd (answer_all cs [])).
Proof. intros Hs Hc. apply perform_all_refines; [now apply rep_init|exact Hc]. Qed.

Definition sample_calls : list call :=
  [Update [97]; Digest None; Update [98]; Digest (Some [99]); Update [100]; HexdigestBang; DigestBang].

Lemma digest_object_refines_witness :
  exists self, @perform_all md5 Md5.raw sample_calls (@rb_digest_base_alloc md5 Md5.raw) =
      Ok (fst (@answer_all md5 md5_laws sample_calls []), self) /\
    @rep md5 md5_laws self (snd (@answer_all md5 md5_laws sample_calls [])).
Proof.
  apply (@digest_object_refines md5 md5_laws Md5.raw sample_calls); [reflexivity|].
  repeat constructor.
Defined.

(** Equality of digest objects: with another object [==] compares the
    digests of the two messages, whatever the two algorithms are; with a string
    it compares the hexadecimal digest; and objects of one algorithm with the
    same message are equal. *)
Theorem digest_equality {A B : rb_digest_metadata} {LA : DigestLaws A} {LB : DigestLaws B}
    (pa : @CTX A) (pb : @CTX B) (a : @CTX A) (b : @CTX B) m n s :
  @rep A LA a m -> @rep B LB b n ->
  (exists r, rb_digest_instance_equal pa pb a (inl b) = Ok r /\
    (r = true <-> @hash A LA m = @hash B LB n)) /\
  (exists r, rb_digest_instance_equal pa pb a (inr s) = Ok r /\
    (r = true <-> s = hexstring (@hash A LA m))) /\
  rb_digest_instance_equal pa pa a (inl a) = Ok true.
Proof.
  intros Ha Hb. unfold rb_digest_instance_equal.
  rewrite (clone_digest pa a m Ha), (clone_digest pb b n Hb), (to_s_rep pa a m Ha). cbn [bind]. splits.
  - eexists. split; [reflexivity|]. apply str_eq_spec.
  - eexists. split; [reflexivity|]. rewrite str_eq_spec. split; congruence.
  - f_equal. now apply str_eq_spec.
Qed.
