(* ===== verification/PackText.v ===== *)
(** * Text encodings of [pack]

    The encoders and decoders [Array#pack] and [String#unpack] call for the
    directives [u], [m], [M] and [U] (src/ruby/pack.c): uuencode, base64,
    quoted-printable and UTF-8.  A pointer into a string is the list of the
    bytes from there to the end, which a NUL byte follows; [char] is signed,
    and a table indexed with a [char] is indexed with [s8] of the byte. *)

From Stdlib Require Import ZArith Lia List Bool.
From S2P Require Import Prelude CInt Digits Bignum BigStr.
Import ListNotations.
Local Open Scope Z_scope.
Local Open Scope outcome_scope.

(** ** Uuencode and base64 *)

Definition zrange (first : Z) (n : nat) : list Z := map (fun i => first + Z.of_nat i) (seq 0 n).

Definition uu_table : list Z := 96 :: zrange 33 63.
Definition b64_table : list Z := zrange 65 26 ++ zrange 97 26 ++ zrange 48 10 ++ [43; 47].

(** The directive: 'u' or 'm'. *)
Definition U_UU : Z := 117.
Definition M_B64 : Z := 109.

Definition trans_table (type : Z) : list Z := if type =? U_UU then uu_table else b64_table.
Definition padding (type : Z) : Z := if type =? U_UU then 96 else 61.

Definition hextet_0 (c0 : Z) : Z := Z.land 63 (RSHIFT (s8 c0) 2).
Definition hextet_1 (c0 c1 : Z) : Z :=
  Z.land 63 (Z.lor (Z.land (Z.shiftl (s8 c0) 4) 48) (Z.land (RSHIFT (s8 c1) 4) 15)).
Definition hextet_2 (c1 c2 : Z) : Z :=
  Z.land 63 (Z.lor (Z.land (Z.shiftl (s8 c1) 2) 60) (Z.land (RSHIFT (s8 c2) 6) 3)).
Definition hextet_3 (c2 : Z) : Z := Z.land 63 (s8 c2).

Fixpoint encode_groups (trans : Z -> Z) (pad : Z) (s : list Z) : list Z :=
  match s with
  | c0 :: c1 :: c2 :: s' =>
      trans (hextet_0 c0) :: trans (hextet_1 c0 c1) :: trans (hextet_2 c1 c2) :: trans (hextet_3 c2) ::
      encode_groups trans pad s'
  | [c0; c1] => [trans (hextet_0 c0); trans (hextet_1 c0 c1); trans (hextet_2 c1 0); pad]
  | [c0] => [trans (hextet_0 c0); trans (hextet_1 c0 0); pad; pad]
  | [] => []
  end.

(** One line of output; [buff] has [len * 4 / 3 + 6] bytes. *)
Definition encodes (str s : list Z) (len type : Z) : outcome (list Z) :=
  let trans x := nth (Z.to_nat x) (trans_table type) 0 in
  let buff :=
    (if type =? U_UU then [u8 (len + 32)] else []) ++
    encode_groups trans (padding type) (firstn (Z.to_nat len) s) ++ [10] in
  if Z.of_nat (length buff) <=? cdiv (s32 (len * 4)) 3 + 6 then Ok (str ++ buff) else Undefined.

(** The loop of [pack_pack] over the lines. *)
Fixpoint encode_lines (fuel : nat) (str ptr : list Z) (plen len type : Z) : outcome (list Z) :=
  if 0 <? plen then
    match fuel with
    | O => Undefined
    | S fuel =>
        let todo := if len <? plen then len else plen in
        str' <- encodes str ptr todo type ;;
        encode_lines fuel str' (skipn (Z.to_nat todo) ptr) (plen - todo) len type
    end
  else Ok str.

Definition line_length (len : Z) : Z := if len <=? 2 then 45 else cdiv len 3 * 3.

Definition pack_text (res from : list Z) (len type : Z) : outcome (list Z) :=
  encode_lines (length from) res from (Z.of_nat (length from)) (line_length len) type.

(** The string the decoders write to, [infected_str_new(0, (send - s)*3/4, str)]. *)
Definition text_room (s : list Z) : outcome Z :=
  let n := cdiv (s32 (Z.of_nat (length s) * 3)) 4 in
  if n <? 0 then Raise ArgumentError else Ok n.

Definition hunk_0 (a b : Z) : Z := u8 (Z.lor (Z.shiftl a 2) (RSHIFT b 4)).
Definition hunk_1 (b c : Z) : Z := u8 (Z.lor (Z.shiftl b 4) (RSHIFT c 2)).
Definition hunk_2 (c d : Z) : Z := u8 (Z.lor (Z.shiftl c 6) d).

(** [if (s < send && *s >= ' ') a = ( *s++ - ' ') & 077; else a = 0;] *)
Definition uu_take (s : list Z) : Z * list Z :=
  match s with
  | c :: s' => if 32 <=? s8 c then (Z.land (s8 c - 32) 63, s') else (0, s)
  | [] => (0, [])
  end.

Fixpoint uu_line (fuel : nat) (len : Z) (s : list Z) : outcome (list Z * list Z) :=
  if 0 <? len then
    match fuel with
    | O => Undefined
    | S fuel =>
        let mlen := if 3 <? len then 3 else len in
        let '(a, s) := uu_take s in
        let '(b, s) := uu_take s in
        let '(c, s) := uu_take s in
        let '(d, s) := uu_take s in
        let hunk := firstn (Z.to_nat mlen) [hunk_0 a b; hunk_1 b c; hunk_2 c d] in
        '(out, s) <- uu_line fuel (len - mlen) s ;; Ok (hunk ++ out, s)
    end
  else Ok ([], s).

(** The end of a line; the boolean is set when [s] has become [send + 1]. *)
Definition uu_eol (s : list Z) : list Z * bool :=
  let s := if deref s =? 13 then tl s else s in
  if deref s =? 10 then (tl s, false)
  else
    match s with
    | [_] => ([], true)
    | _ :: 10 :: s' => (s', false)
    | _ => (s, false)
    end.

Definition uu_starts (s : list Z) : bool :=
  match s with c :: _ => (32 <? s8 c) && (s8 c <? 97) | [] => false end.

Fixpoint uu_loop (fuel : nat) (room total : Z) (s : list Z) (past : bool) : outcome (list Z * list Z * bool) :=
  if uu_starts s then
    match fuel with
    | O => Undefined
    | S fuel =>
        let len := Z.land (s8 (deref s) - 32) 63 in
        let total' := total + len in
        let '(len, total) := if room <? total' then (len - (total' - room), room) else (len, total') in
        '(line, s) <- uu_line (Z.to_nat len) len (tl s) ;;
        let '(s, past) := uu_eol s in
        '(out, s, past) <- uu_loop fuel room total s past ;;
        Ok (line ++ out, s, past)
    end
  else Ok ([], s, past).

Definition uu_decode (s : list Z) : outcome (list Z * list Z * bool) :=
  room <- text_room s ;; uu_loop (length s) room 0 s false.

(** [b64_xtable], built at the first call; [-1] for other characters.  The
    index is a [char]. *)
Fixpoint index_of (c : Z) (l : list Z) (i : Z) : Z :=
  match l with
  | [] => -1
  | x :: l' => if x =? c then i else index_of c l' (i + 1)
  end.

Definition b64_xtable (c : Z) : outcome Z :=
  if s8 c <? 0 then Undefined else Ok (index_of (s8 c) b64_table 0).

Definition newline (c : Z) : bool := (c =? 13) || (c =? 10).

(** The loop: [a], [b], [c] and [s] where it stops, and what it writes. *)
Fixpoint b64_loop (fuel : nat) (a b c : Z) (s : list Z) : outcome (list Z * (Z * Z * Z * list Z)) :=
  match s with
  | [] => Ok ([], (a, b, c, s))
  | _ =>
    match fuel with
    | O => Undefined
    | S fuel =>
        let s := skip_while newline s in
        a <- b64_xtable (deref s) ;;
        if a =? -1 then Ok ([], (a, b, c, s)) else
        b <- b64_xtable (nth 1 s 0) ;;
        if b =? -1 then Ok ([], (a, b, c, s)) else
        c <- b64_xtable (nth 2 s 0) ;;
        if c =? -1 then Ok ([], (a, b, c, s)) else
        d <- b64_xtable (nth 3 s 0) ;;
        if d =? -1 then Ok ([], (a, b, c, s)) else
        '(out, st) <- b64_loop fuel a b c (skipn 4 s) ;;
        Ok (hunk_0 a b :: hunk_1 b c :: hunk_2 c d :: out, st)
    end
  end.

Definition b64_tail (a b c : Z) (s : list Z) : list Z :=
  if negb (a =? -1) && negb (b =? -1) then
    (if (2 <? length s)%nat && (nth 2 s 0 =? 61) then [hunk_0 a b] else []) ++
    (if negb (c =? -1) && (3 <? length s)%nat && (nth 3 s 0 =? 61) then [hunk_0 a b; hunk_1 b c] else [])
  else [].

Definition b64_decode (s : list Z) : outcome (list Z * list Z) :=
  room <- text_room s ;;
  '(out, (a, b, c, s)) <- b64_loop (length s) (-1) (-1) 0 s ;;
  let out := out ++ b64_tail a b c s in
  if Z.of_nat (length out) <=? room then Ok (out, s) else Undefined.

(** ** Quoted-printable *)

Definition hex_table : list Z := zrange 48 10 ++ zrange 65 6.
Definition hex_digit (i : Z) : Z := nth (Z.to_nat i) hex_table 0.
Definition QP_BUFF : nat := 1024.
Definition EOF : Z := -1.

(** [str], the bytes in [buff], [n] and [prev]. *)
Record qp_state := mkQp { qp_str : list Z; qp_buff : list Z; qp_n : Z; qp_prev : Z }.

Definition qp_quoted (c : Z) : bool :=
  (126 <? c) || ((c <? 32) && negb (c =? 10) && negb (c =? 9)) || (c =? 61).

(** What one character appends to [buff], before the test of the line length. *)
Definition qp_emit (c n prev : Z) : list Z * Z * Z :=
  if qp_quoted c then ([61; hex_digit (Z.shiftr c 4); hex_digit (Z.land c 15)], s32 (n + 3), EOF)
  else if c =? 10 then ((if (prev =? 32) || (prev =? 9) then [61; c] else []) ++ [c], 0, c)
  else ([c], s32 (n + 1), c).

Definition put (buff cs : list Z) : outcome (list Z) :=
  if (length (buff ++ cs) <=? QP_BUFF)%nat then Ok (buff ++ cs) else Undefined.

Definition qp_step (len : Z) (st : qp_state) (c : Z) : outcome qp_state :=
  let '(cs, n, prev) := qp_emit c (qp_n st) (qp_prev st) in
  let '(cs, n, prev) := if len <? n then (cs ++ [61; 10], 0, 10) else (cs, n, prev) in
  buff <- put (qp_buff st) cs ;;
  if (QP_BUFF - 5 <? length buff)%nat then Ok (mkQp (qp_str st ++ buff) [] n prev)
  else Ok (mkQp (qp_str st) buff n prev).

Fixpoint qp_loop (len : Z) (st : qp_state) (s : list Z) : outcome qp_state :=
  match s with
  | [] => Ok st
  | c :: s' => st' <- qp_step len st c ;; qp_loop len st' s'
  end.

Definition qpencode (str from : list Z) (len : Z) : outcome (list Z) :=
  st <- qp_loop len (mkQp str [] 0 EOF) from ;;
  buff <- (if 0 <? qp_n st then put (qp_buff st) [61; 10] else Ok (qp_buff st)) ;;
  Ok (qp_str st ++ buff).

(** The directive of [pack_pack]. *)
Definition pack_M (res from : list Z) (len : Z) : outcome (list Z) :=
  qpencode res from (if len <=? 1 then 72 else len).

Definition hex2num (c : Z) : Z :=
  if (48 <=? c) && (c <=? 57) then c - 48
  else if (97 <=? c) && (c <=? 102) then c - 87
  else if (65 <=? c) && (c <=? 70) then c - 55
  else -1.

(** The bytes written and the rest of the string where the loop stops. *)
Fixpoint qp_decode (s : list Z) : list Z * list Z :=
  match s with
  | [] => ([], [])
  | c :: s1 =>
      if c =? 61 then
        match s1 with
        | [] => ([], [])
        | d :: s2 =>
            if d =? 10 then qp_decode s2
            else if hex2num d =? -1 then ([], s1)
            else
              match s2 with
              | [] => ([], [])
              | e :: s3 =>
                  if hex2num e =? -1 then ([], s2)
                  else let '(out, r) := qp_decode s3 in
                       (u8 (Z.lor (Z.shiftl (hex2num d) 4) (hex2num e)) :: out, r)
              end
        end
      else let '(out, r) := qp_decode s1 in (c :: out, r)
  end.

(** ** UTF-8 *)

(** [((uv >> k) & 0x3f) | 0x80], the continuation bytes from bit [k] down. *)
Definition follow (uv k : Z) : Z := Z.lor (Z.land (Z.shiftr uv k) 63) 128.
Definition leader (uv k mark : Z) : Z := Z.lor (Z.land (Z.shiftr uv k) 255) mark.

Definition uv_to_utf8 (uv : Z) : outcome (list Z) :=
  if uv <=? 127 then Ok [uv]
  else if uv <=? 2047 then Ok [leader uv 6 192; follow uv 0]
  else if uv <=? 65535 then Ok [leader uv 12 224; follow uv 6; follow uv 0]
  else if uv <=? 2097151 then Ok [leader uv 18 240; follow uv 12; follow uv 6; follow uv 0]
  else if uv <=? 67108863 then
    Ok [leader uv 24 248; follow uv 18; follow uv 12; follow uv 6; follow uv 0]
  else if uv <=? 2147483647 then
    Ok [leader uv 30 252; follow uv 24; follow uv 18; follow uv 12; follow uv 6; follow uv 0]
  else Raise RangeError.

Definition utf8_limits : list Z := [0; 128; 2048; 65536; 2097152; 67108864; 2147483648].

(** [while (n--)], on the bytes that follow the first one. *)
Fixpoint utf8_follow (n : nat) (uv : Z) (p : list Z) : outcome Z :=
  match n with
  | O => Ok uv
  | S n =>
      match p with
      | [] => Undefined
      | c :: p =>
          if negb (Z.land c 192 =? 128) then Raise ArgumentError
          else utf8_follow n (Z.lor (u32 (Z.shiftl uv 6)) (Z.land c 63)) p
      end
  end.

(** [n] and [uv] after the tests of the first byte. *)
Definition utf8_first (uv : Z) : outcome (Z * Z) :=
  if Z.land uv 64 =? 0 then Raise ArgumentError
  else if Z.land uv 32 =? 0 then Ok (2, Z.land uv 31)
  else if Z.land uv 16 =? 0 then Ok (3, Z.land uv 15)
  else if Z.land uv 8 =? 0 then Ok (4, Z.land uv 7)
  else if Z.land uv 4 =? 0 then Ok (5, Z.land uv 3)
  else if Z.land uv 2 =? 0 then Ok (6, Z.land uv 1)
  else Raise ArgumentError.

(** The character and the new [*lenp]. *)
Definition utf8_to_uv (p : list Z) (lenp : Z) : outcome (Z * Z) :=
  match p with
  | [] => Undefined
  | c :: p' =>
      if Z.land c 128 =? 0 then Ok (c, 1)
      else
        '(n, uv) <- utf8_first c ;;
        if lenp <? n then Raise ArgumentError
        else
          uv <- utf8_follow (Z.to_nat (n - 1)) uv p' ;;
          if uv <? nth (Z.to_nat (n - 1)) utf8_limits 0 then Raise ArgumentError
          else Ok (uv, n)
  end.

(** ** Finite checks

    A property of every byte, or of every six-bit value, is checked by
    computation. *)

Lemma zrange_In first n c : first <= c < first + Z.of_nat n -> In c (zrange first n).
Proof.
  intros H. unfold zrange. apply in_map_iff. exists (Z.to_nat (c - first)).
  split; [lia|]. apply in_seq. lia.
Qed.

Lemma range_check (P : Z -> bool) first n :
  forallb P (zrange first n) = true -> forall c, first <= c < first + Z.of_nat n -> P c = true.
Proof. intros H c Hc. exact (proj1 (forallb_forall P _) H c (zrange_In _ _ _ Hc)). Qed.

(** [c] ranges over [n] values from [first]: proves [P c] by evaluation. *)
Ltac finite c first n :=
  match goal with
  | |- ?l = ?r =>
      let P := eval pattern c in (Z.eqb l r) in
      match P with ?f _ => apply Z.eqb_eq; apply (range_check f first n); [vm_compute; reflexivity|] end
  end.

Lemma hextet_0_eq c : byte c -> hextet_0 c = c / 4.
Proof. intros H. finite c 0 256%nat. exact H. Qed.

Lemma hextet_1_low c : byte c -> Z.land (Z.shiftl (s8 c) 4) 48 = c mod 4 * 16.
Proof. intros H. finite c 0 256%nat. exact H. Qed.

Lemma hextet_1_high c : byte c -> Z.land (RSHIFT (s8 c) 4) 15 = c / 16.
Proof. intros H. finite c 0 256%nat. exact H. Qed.

Lemma hextet_2_low c : byte c -> Z.land (Z.shiftl (s8 c) 2) 60 = c mod 16 * 4.
Proof. intros H. finite c 0 256%nat. exact H. Qed.

Lemma hextet_2_high c : byte c -> Z.land (RSHIFT (s8 c) 6) 3 = c / 64.
Proof. intros H. finite c 0 256%nat. exact H. Qed.

Lemma hextet_3_eq c : byte c -> hextet_3 c = c mod 64.
Proof. intros H. finite c 0 256%nat. exact H. Qed.

Lemma land_63 z : 0 <= z < 64 -> Z.land 63 z = z.
Proof. intros H. rewrite Z.land_comm. change 63 with (Z.ones 6). rewrite Z.land_ones by lia. now apply Z.mod_small. Qed.

Lemma byte_parts c : byte c ->
  0 <= c / 4 < 64 /\ 0 <= c mod 4 < 4 /\ 0 <= c / 16 < 16 /\ 0 <= c mod 16 < 16 /\ 0 <= c / 64 < 4 /\ 0 <= c mod 64 < 64.
Proof. unfold byte. intros H. Z.div_mod_to_equations. lia. Qed.

(** Two fields that do not overlap. *)
Lemma lor_fields a b k : 0 <= k -> 0 <= b < 2 ^ k -> Z.lor (a * 2 ^ k) b = a * 2 ^ k + b.
Proof. intros Hk Hb. rewrite Z.lor_comm, lor_add_low by lia. lia. Qed.

Ltac join_fields a b k :=
  let E := fresh "E" in
  pose proof (lor_fields a b k) as E;
  let p := eval vm_compute in (2 ^ k) in change (2 ^ k) with p in E;
  rewrite E by lia; clear E.

Lemma hextet_1_eq c0 c1 : byte c0 -> byte c1 -> hextet_1 c0 c1 = c0 mod 4 * 16 + c1 / 16.
Proof.
  intros H0 H1. pose proof (byte_parts c0 H0). pose proof (byte_parts c1 H1).
  unfold hextet_1. rewrite hextet_1_low, hextet_1_high by auto.
  join_fields (c0 mod 4) (c1 / 16) 4. apply land_63. lia.
Qed.

Lemma hextet_2_eq c1 c2 : byte c1 -> byte c2 -> hextet_2 c1 c2 = c1 mod 16 * 4 + c2 / 64.
Proof.
  intros H1 H2. pose proof (byte_parts c1 H1). pose proof (byte_parts c2 H2).
  unfold hextet_2. rewrite hextet_2_low, hextet_2_high by auto.
  join_fields (c1 mod 16) (c2 / 64) 2. apply land_63. lia.
Qed.

(** The six-bit values of a group. *)
Lemma hextets_bound c0 c1 c2 : byte c0 -> byte c1 -> byte c2 ->
  0 <= hextet_0 c0 < 64 /\ 0 <= hextet_1 c0 c1 < 64 /\ 0 <= hextet_2 c1 c2 < 64 /\ 0 <= hextet_3 c2 < 64.
Proof.
  intros H0 H1 H2. rewrite hextet_0_eq, hextet_1_eq, hextet_2_eq, hextet_3_eq by auto.
  pose proof (byte_parts c0 H0). pose proof (byte_parts c1 H1). pose proof (byte_parts c2 H2). lia.
Qed.

Lemma hunks c0 c1 c2 : byte c0 -> byte c1 -> byte c2 ->
  hunk_0 (hextet_0 c0) (hextet_1 c0 c1) = c0 /\
  hunk_1 (hextet_1 c0 c1) (hextet_2 c1 c2) = c1 /\
  hunk_2 (hextet_2 c1 c2) (hextet_3 c2) = c2.
Proof.
  intros H0 H1 H2. rewrite hextet_0_eq, hextet_1_eq, hextet_2_eq, hextet_3_eq by auto.
  pose proof (byte_parts c0 H0). pose proof (byte_parts c1 H1). pose proof (byte_parts c2 H2).
  unfold hunk_0, hunk_1, hunk_2, RSHIFT.
  rewrite !Z.shiftl_mul_pow2, !Z.shiftr_div_pow2 by lia.
  rewrite !lor_fields by (change (2 ^ 2) with 4; change (2 ^ 4) with 16; change (2 ^ 6) with 64;
    Z.div_mod_to_equations; lia).
  unfold u8, byte in *. change (2 ^ 2) with 4. change (2 ^ 4) with 16. change (2 ^ 6) with 64.
  splits; Z.div_mod_to_equations; lia.
Qed.

Lemma byte_0 : byte 0. Proof. unfold byte; lia. Qed.

(** ** The tables *)

Definition sextet_char (type x : Z) : Z := nth (Z.to_nat x) (trans_table type) 0.

Lemma b64_char_value x : 0 <= x < 64 -> b64_xtable (sextet_char M_B64 x) = Ok x.
Proof.
  intros H. assert (E : index_of (s8 (sextet_char M_B64 x)) b64_table 0 = x) by (finite x 0 64%nat; lia).
  assert (P : Z.b2z (s8 (sextet_char M_B64 x) <? 0) = 0) by (finite x 0 64%nat; lia).
  unfold b64_xtable. destruct (_ <? 0); [discriminate|]. now rewrite E.
Qed.

Lemma b64_char_plain x : 0 <= x < 64 -> newline (sextet_char M_B64 x) = false.
Proof.
  intros H. assert (P : Z.b2z (newline (sextet_char M_B64 x)) = 0) by (finite x 0 64%nat; lia).
  now destruct (newline _).
Qed.

Lemma uu_take_char x s : 0 <= x < 64 -> uu_take (sextet_char U_UU x :: s) = (x, s).
Proof.
  intros H. unfold uu_take.
  assert (P : Z.b2z (32 <=? s8 (sextet_char U_UU x)) = 1) by (finite x 0 64%nat; lia).
  assert (E : Z.land (s8 (sextet_char U_UU x) - 32) 63 = x) by (finite x 0 64%nat; lia).
  destruct (32 <=? _); [now rewrite E|discriminate].
Qed.

(** ** Lines *)

Definition line_of (type : Z) (g : list Z) : list Z :=
  (if type =? U_UU then [u8 (Z.of_nat (length g) + 32)] else []) ++
  encode_groups (sextet_char type) (padding type) g ++ [10].

(** The text of a string in lines of [n] bytes. *)
Fixpoint text_of (type : Z) (n fuel : nat) (s : list Z) : list Z :=
  match fuel, s with
  | S fuel, _ :: _ => line_of type (firstn n s) ++ text_of type n fuel (skipn n s)
  | _, _ => []
  end.

Lemma triple_ind {A} (P : list A -> Prop) :
  P [] -> (forall x, P [x]) -> (forall x y, P [x; y]) -> (forall x y z l, P l -> P (x :: y :: z :: l)) ->
  forall l, P l.
Proof.
  intros H0 H1 H2 H3. fix IH 1.
  intros [|x [|y [|z l]]]; [exact H0|exact (H1 x)|exact (H2 x y)|exact (H3 x y z l (IH l))].
Qed.

Lemma encode_groups_length trans pad s :
  Z.of_nat (length (encode_groups trans pad s)) = 4 * ((Z.of_nat (length s) + 2) / 3).
Proof.
  induction s as [| | |x y z l IH] using triple_ind; try reflexivity.
  cbn [encode_groups length]. rewrite !Nat2Z.inj_succ, IH.
  replace (Z.succ (Z.succ (Z.succ (Z.of_nat (length l)))) + 2) with (Z.of_nat (length l) + 2 + 1 * 3) by lia.
  rewrite Z.div_add by lia. lia.
Qed.

Lemma line_of_length type g :
  4 * ((Z.of_nat (length g) + 2) / 3) < Z.of_nat (length (line_of type g)) <= 4 * ((Z.of_nat (length g) + 2) / 3) + 2.
Proof.
  unfold line_of. rewrite !length_app, !Nat2Z.inj_add, encode_groups_length.
  destruct (type =? U_UU); cbn [length]; lia.
Qed.

Lemma encodes_line str s len type :
  0 <= len <= Z.of_nat (length s) -> len < 536870912 ->
  encodes str s len type = Ok (str ++ line_of type (firstn (Z.to_nat len) s)).
Proof.
  intros Hlen Hmax. unfold encodes. fold (sextet_char type).
  assert (HL : Z.of_nat (length (firstn (Z.to_nat len) s)) = len) by (rewrite length_firstn; lia).
  pose proof (line_of_length type (firstn (Z.to_nat len) s)) as HB. unfold line_of in *. rewrite HL in *.
  change (fun x => nth (Z.to_nat x) (trans_table type) 0) with (sextet_char type).
  rewrite s32_small by lia. unfold cdiv. rewrite Z.quot_div_nonneg by lia.
  rewrite (proj2 (Z.leb_le _ _)); [reflexivity|]. revert HB. Z.div_mod_to_equations. lia.
Qed.

(** [Array#pack] writes the string line by line. *)
Lemma encode_lines_text fuel str s len type :
  3 <= len -> (length s <= fuel)%nat -> Z.of_nat (length s) < 536870912 ->
  encode_lines fuel str s (Z.of_nat (length s)) len type = Ok (str ++ text_of type (Z.to_nat len) fuel s).
Proof.
  intros Hlen. revert str s. induction fuel as [|fuel IH]; intros str s Hf Hmax.
  - destruct s; [|cbn in Hf; lia]. cbn. now rewrite app_nil_r.
  - destruct s as [|c s]; [cbn; now rewrite app_nil_r|]. set (s0 := c :: s) in *.
    assert (Hpos : 0 < Z.of_nat (length s0)) by (cbn; lia).
    cbn [encode_lines]. rewrite (proj2 (Z.ltb_lt _ _) Hpos).
    set (todo := if len <? Z.of_nat (length s0) then len else Z.of_nat (length s0)).
    assert (HT : 0 < todo <= Z.of_nat (length s0)) by (unfold todo; case_if; lia).
    rewrite encodes_line by lia. cbn [bind].
    assert (HF : firstn (Z.to_nat todo) s0 = firstn (Z.to_nat len) s0 /\
                 skipn (Z.to_nat todo) s0 = skipn (Z.to_nat len) s0).
    { unfold todo. case_if; [auto|]. rewrite Nat2Z.id, firstn_all, skipn_all.
      rewrite firstn_all2, skipn_all2 by lia. auto. }
    destruct HF as [-> HS].
    replace (Z.of_nat (length s0) - todo) with (Z.of_nat (length (skipn (Z.to_nat todo) s0)))
      by (rewrite length_skipn; lia).
    rewrite IH by (rewrite length_skipn; lia). rewrite HS. f_equal.
    change (text_of type (Z.to_nat len) (S fuel) s0)
      with (line_of type (firstn (Z.to_nat len) s0) ++ text_of type (Z.to_nat len) fuel (skipn (Z.to_nat len) s0)).
    now rewrite app_assoc.
Qed.

Lemma line_length_bound len : 3 <= line_length len /\ line_length len mod 3 = 0.
Proof.
  unfold line_length. case_if; [now split|]. unfold cdiv. rewrite Z.quot_div_nonneg by lia.
  rewrite Z.mod_mul by lia. Z.div_mod_to_equations. lia.
Qed.

Lemma text_of_length type n fuel s : (0 < n)%nat -> (length s <= fuel)%nat ->
  4 * Z.of_nat (length s) <= 3 * Z.of_nat (length (text_of type n fuel s)) /\
  Z.of_nat (length (text_of type n fuel s)) <= 6 * Z.of_nat (length s).
Proof.
  intros Hn. revert s; induction fuel as [|fuel IH]; intros s Hf.
  - destruct s; [cbn; lia|cbn in Hf; lia].
  - destruct s as [|c s]; [cbn; lia|]. set (s0 := c :: s) in *. cbn [text_of]. fold s0.
    change (match s0 with [] => _ | _ => ?x end) with x.
    rewrite length_app, Nat2Z.inj_add.
    pose proof (line_of_length type (firstn n s0)) as HL.
    specialize (IH (skipn n s0)). rewrite length_skipn in IH.
    assert (Hg : (length (firstn n s0) = Nat.min n (length s0))%nat) by apply length_firstn.
    assert (0 < length s0)%nat by (cbn; lia).
    specialize (IH ltac:(lia)). revert HL. rewrite Hg. Z.div_mod_to_equations. lia.
Qed.

(** Strings the buffers of both directions are large enough for. *)
Definition max_text : Z := 119304647.

Lemma pack_text_spec res s len type : Z.of_nat (length s) < max_text ->
  pack_text res s len type = Ok (res ++ text_of type (Z.to_nat (line_length len)) (length s) s) /\
  exists room, text_room (text_of type (Z.to_nat (line_length len)) (length s) s) = Ok room /\ Z.of_nat (length s) <= room.
Proof.
  unfold max_text. intros Hmax. pose proof (line_length_bound len) as [HL _]. split.
  - apply encode_lines_text; lia.
  - pose proof (text_of_length type (Z.to_nat (line_length len)) (length s) s ltac:(lia) ltac:(lia)) as [H1 H2].
    unfold text_room. rewrite s32_small by lia. unfold cdiv. rewrite Z.quot_div_nonneg by lia.
    eexists. rewrite (proj2 (Z.ltb_ge _ _)) by (apply Z.div_pos; lia). split; [reflexivity|].
    apply Z.div_le_lower_bound; lia.
Qed.

(** ** Base64 decodes what it encoded *)

(** The loop together with what follows it. *)
Definition b64_run (fuel : nat) (a b c : Z) (s : list Z) : outcome (list Z) :=
  '(out, (a, b, c, s)) <- b64_loop fuel a b c s ;; Ok (out ++ b64_tail a b c s).

Lemma b64_run_nil fuel a b c : b64_run fuel a b c [] = Ok [].
Proof.
  unfold b64_run. destruct fuel; cbn; unfold b64_tail; cbn; rewrite andb_false_r; now destruct (_ && _)%bool.
Qed.

Lemma b64_run_newline fuel a b c s : (length (10%Z :: s) <= fuel)%nat ->
  b64_run fuel a b c (10 :: s) = b64_run fuel a b c s.
Proof.
  intros Hf. destruct fuel as [|fuel]; [cbn in Hf; lia|].
  destruct s as [|x s]; [rewrite b64_run_nil; reflexivity|].
  unfold b64_run. cbn [b64_loop]. change (skip_while newline (10 :: x :: s)) with (skip_while newline (x :: s)).
  reflexivity.
Qed.

(** The decoder reads the characters of a group. *)
Lemma sextet_bound x : 0 <= Z.land 63 x < 64.
Proof. rewrite Z.land_comm. change 63 with (Z.ones 6). rewrite Z.land_ones by lia. now apply Z.mod_pos_bound. Qed.

Lemma hextets_valid c0 c1 : (hextet_0 c0 =? -1) = false /\ (hextet_1 c0 c1 =? -1) = false /\ (hextet_2 c0 c1 =? -1) = false.
Proof. splits; apply Z.eqb_neq; match goal with |- ?h <> _ => assert (0 <= h < 64) by apply sextet_bound; lia end. Qed.

Lemma sextet_valid x : (Z.land 63 x =? -1) = false.
Proof. apply Z.eqb_neq. pose proof (sextet_bound x). lia. Qed.

Ltac read_sextets :=
  cbn [deref hd nth];
  repeat (rewrite b64_char_value by apply sextet_bound; cbn [bind];
          match goal with |- context [?x =? -1] => change (x =? -1) with false || rewrite (sextet_valid _ : (x =? -1) = false) end).

Lemma b64_run_group fuel a b c x y z t : byte x -> byte y -> byte z ->
  b64_run (S fuel) a b c
    (sextet_char M_B64 (hextet_0 x) :: sextet_char M_B64 (hextet_1 x y) ::
     sextet_char M_B64 (hextet_2 y z) :: sextet_char M_B64 (hextet_3 z) :: t) =
  (out <- b64_run fuel (hextet_0 x) (hextet_1 x y) (hextet_2 y z) t ;; Ok (x :: y :: z :: out)).
Proof.
  intros Hx Hy Hz. unfold b64_run. cbn [b64_loop skip_while].
  rewrite b64_char_plain by apply sextet_bound. read_sextets.
  cbn [skipn]. destruct (hunks x y z Hx Hy Hz) as (-> & -> & ->).
  rewrite !bind_assoc. destruct (b64_loop _ _ _ _ _) as [[out [[[? ?] ?] ?]]| | |]; reflexivity.
Qed.

Lemma padding_value : b64_xtable 61 = Ok (-1). Proof. reflexivity. Qed.

Lemma b64_run_two fuel a b c x y t : byte x -> byte y ->
  b64_run (S fuel) a b c
    (sextet_char M_B64 (hextet_0 x) :: sextet_char M_B64 (hextet_1 x y) ::
     sextet_char M_B64 (hextet_2 y 0) :: 61 :: t) = Ok [x; y].
Proof.
  intros Hx Hy. unfold b64_run. cbn [b64_loop skip_while].
  rewrite b64_char_plain by apply sextet_bound. read_sextets.
  rewrite padding_value. cbn [bind Z.eqb Pos.eqb app].
  unfold b64_tail. destruct (hextets_valid x y) as (-> & -> & _), (hextets_valid y 0) as (_ & _ & ->).
  cbn [negb andb length Nat.ltb Nat.leb nth]. rewrite Z.eqb_refl. destruct (hunks x y 0 Hx Hy byte_0) as (-> & -> & _).
  destruct (Z.eqb_spec (sextet_char M_B64 (hextet_2 y 0)) 61) as [E|]; [exfalso|reflexivity].
  pose proof (b64_char_value (hextet_2 y 0) ltac:(apply (hextets_bound x y 0); auto using byte_0)) as HV.
  rewrite E, padding_value in HV. injection HV as HV.
  pose proof (hextets_bound x y 0 Hx Hy byte_0). lia.
Qed.

Lemma b64_run_one fuel a b c x t : byte x ->
  b64_run (S fuel) a b c
    (sextet_char M_B64 (hextet_0 x) :: sextet_char M_B64 (hextet_1 x 0) :: 61 :: 61 :: t) = Ok [x].
Proof.
  intros Hx. unfold b64_run. cbn [b64_loop skip_while].
  rewrite b64_char_plain by apply sextet_bound.
  cbn [deref hd nth].
  rewrite !b64_char_value by (apply (hextets_bound x 0 0); auto using byte_0). cbn [bind].
  unfold b64_tail. destruct (hextets_valid x 0) as (Ex & Ex0 & _). rewrite Ex, Ex0, padding_value.
  cbn [bind Z.eqb Pos.eqb app]. rewrite Ex, Ex0.
  cbn [negb andb length Nat.ltb Nat.leb nth Z.eqb Pos.eqb app].
  now destruct (hunks x 0 0 Hx byte_0 byte_0) as (-> & _).
Qed.

(** A whole line: more lines follow only after complete groups. *)
Lemma b64_run_line g t s : Forall byte g -> (length g mod 3 = 0 \/ t = [] /\ s = [])%nat ->
  (forall fuel a b c, (length t <= fuel)%nat -> b64_run fuel a b c t = Ok s) ->
  forall fuel a b c, (length (encode_groups (sextet_char M_B64) (padding M_B64) g ++ 10%Z :: t) <= fuel)%nat ->
  b64_run fuel a b c (encode_groups (sextet_char M_B64) (padding M_B64) g ++ 10 :: t) = Ok (g ++ s).
Proof.
  intros Hg HL Ht. induction g as [|x|x y|x y z g IH] using triple_ind; intros fuel a b c Hf;
    repeat match goal with H : Forall _ (_ :: _) |- _ => inversion H; subst; clear H end.
  - cbn [encode_groups app] in *. rewrite b64_run_newline by auto. apply Ht. cbn in Hf; lia.
  - destruct HL as [HL|[-> ->]]; [discriminate|]. cbn [encode_groups app] in *.
    destruct fuel as [|fuel]; [cbn in Hf; lia|]. now apply b64_run_one.
  - destruct HL as [HL|[-> ->]]; [discriminate|]. cbn [encode_groups app] in *.
    destruct fuel as [|fuel]; [cbn in Hf; lia|]. now apply b64_run_two.
  - cbn [encode_groups app] in *. destruct fuel as [|fuel]; [cbn in Hf; lia|].
    rewrite b64_run_group by auto. rewrite IH; auto; [|cbn [length] in Hf; lia].
    destruct HL as [HL|HL]; [left|now right]. cbn [length] in HL.
    replace (S (S (S (length g)))) with (length g + 1 * 3)%nat in HL by lia. now rewrite Nat.Div0.mod_add in HL.
Qed.

Lemma b64_run_text n k s : (0 < n)%nat -> (n mod 3 = 0)%nat -> Forall byte s -> (length s <= k)%nat ->
  forall fuel a b c, (length (text_of M_B64 n k s) <= fuel)%nat -> b64_run fuel a b c (text_of M_B64 n k s) = Ok s.
Proof.
  intros Hn Hm. revert s; induction k as [|k IH]; intros s Hs Hk fuel a b c.
  - destruct s; [intros; apply b64_run_nil|cbn in Hk; lia].
  - destruct s as [|x s]; [intros; apply b64_run_nil|]. set (s0 := x :: s) in *.
    change (text_of M_B64 n (S k) s0) with (line_of M_B64 (firstn n s0) ++ text_of M_B64 n k (skipn n s0)).
    assert (HS : (length (skipn n s0) < length s0)%nat) by (rewrite length_skipn; unfold s0; cbn [length]; lia).
    unfold line_of. change (M_B64 =? U_UU) with false. cbn [app]. rewrite <- app_assoc. cbn [app].
    intros Hf. rewrite <- (firstn_skipn n s0) at 3.
    apply b64_run_line; auto with lists.
    + destruct (Nat.le_gt_cases (length s0) n) as [H|H].
      * right. rewrite (skipn_all2 s0) by lia. split; [|reflexivity]. now destruct k.
      * left. now rewrite length_firstn, Nat.min_l by lia.
    + apply IH; auto with lists. lia.
Qed.

Lemma b64_decode_run s out : b64_run (length s) (-1) (-1) 0 s = Ok out ->
  forall room, text_room s = Ok room -> Z.of_nat (length out) <= room ->
  exists rest, b64_decode s = Ok (out, rest).
Proof.
  unfold b64_run, b64_decode. intros H room -> HR. cbn [bind].
  destruct (b64_loop _ _ _ _ _) as [[o [[[a b] c] r]]| | |]; try discriminate. cbn [bind] in *.
  injection H as <-. rewrite (proj2 (Z.leb_le _ _) HR). eauto.
Qed.

(** C36: decoding what Array#pack wrote with [m] gives the string back, for any
    count (the length of a line) and every string of less than 119304647 bytes;
    for these neither direction writes outside its buffer. *)
Theorem base64_round_trip res s len : Forall byte s -> Z.of_nat (length s) < max_text ->
  exists text, pack_text res s len M_B64 = Ok (res ++ text) /\ exists rest, b64_decode text = Ok (s, rest).
Proof.
  intros Hs Hmax. destruct (pack_text_spec res s len M_B64 Hmax) as [HP (room & HR & Hroom)].
  pose proof (line_length_bound len) as [HL HM]. eexists. split; [exact HP|].
  eapply b64_decode_run; [|exact HR|exact Hroom].
  apply b64_run_text; auto; [lia|].
  apply Nat2Z.inj. rewrite Nat2Z.inj_mod, Z2Nat.id by lia. exact HM.
Qed.

Lemma base64_round_trip_witness :
  exists text, pack_text [1] [104; 101; 108; 108; 255] 4 M_B64 = Ok ([1] ++ text) /\
    exists rest, b64_decode text = Ok ([104; 101; 108; 108; 255], rest).
Proof.
  apply (base64_round_trip [1] [104; 101; 108; 108; 255] 4); [|vm_compute; reflexivity].
  repeat constructor; unfold byte; lia.
Defined.

(** ** Uuencode decodes what it encoded *)

Lemma uu_line_groups g t fuel : Forall byte g -> (length g <= fuel)%nat ->
  uu_line fuel (Z.of_nat (length g)) (encode_groups (sextet_char U_UU) (padding U_UU) g ++ t) = Ok (g, t).
Proof.
  revert fuel. induction g as [|x|x y|x y z g IH] using triple_ind; intros fuel Hg Hf;
    repeat match goal with H : Forall _ (_ :: _) |- _ => inversion H; subst; clear H end.
  - destruct fuel; reflexivity.
  - destruct fuel as [|fuel]; [cbn in Hf; lia|].
    pose proof (hextets_bound x 0 0 ltac:(auto) byte_0 byte_0) as HB.
    cbn [encode_groups app]. change (padding U_UU) with (sextet_char U_UU 0). cbn -[uu_take sextet_char hunk_0 hunk_1 hunk_2 hextet_0 hextet_1].
    rewrite !uu_take_char by lia. destruct (hunks x 0 0) as (-> & _); auto using byte_0. now destruct fuel.
  - destruct fuel as [|fuel]; [cbn in Hf; lia|].
    pose proof (hextets_bound x y 0 ltac:(auto) ltac:(auto) byte_0) as HB.
    cbn [encode_groups app]. change (padding U_UU) with (sextet_char U_UU 0). cbn -[uu_take sextet_char hunk_0 hunk_1 hunk_2 hextet_0 hextet_1 hextet_2].
    rewrite !uu_take_char by lia. destruct (hunks x y 0) as (-> & -> & _); auto using byte_0. now destruct fuel.
  - destruct fuel as [|fuel]; [cbn in Hf; lia|]. cbn [length] in Hf.
    pose proof (hextets_bound x y z ltac:(auto) ltac:(auto) ltac:(auto)) as HB.
    cbn [encode_groups app uu_line length]. rewrite (proj2 (Z.ltb_lt _ _)) by lia.
    rewrite !uu_take_char by lia. destruct (hunks x y z) as (-> & -> & ->); auto.
    set (n := Z.of_nat (S (S (S (length g))))).
    assert (HM : (if 3 <? n then 3 else n) = 3) by (case_if; lia). rewrite HM.
    replace (n - 3) with (Z.of_nat (length g)) by lia. rewrite IH by (auto; lia). reflexivity.
Qed.

Lemma uu_start_char n : 1 <= n <= 63 ->
  (32 <? s8 (u8 (n + 32))) && (s8 (u8 (n + 32)) <? 97) = true /\ Z.land (s8 (u8 (n + 32)) - 32) 63 = n.
Proof.
  intros H. split; [|finite n 1 63%nat; lia].
  assert (E : Z.b2z ((32 <? s8 (u8 (n + 32))) && (s8 (u8 (n + 32)) <? 97)) = 1) by (finite n 1 63%nat; lia).
  now destruct (_ && _)%bool.
Qed.

Lemma uu_loop_text n k s : (0 < n <= 63)%nat -> Forall byte s -> (length s <= k)%nat ->
  forall fuel room total, (length s <= fuel)%nat -> total + Z.of_nat (length s) <= room ->
  uu_loop fuel room total (text_of U_UU n k s) false = Ok (s, [], false).
Proof.
  intros Hn. revert s; induction k as [|k IH]; intros s Hs Hk fuel room total Hf HR.
  - destruct s; [now destruct fuel|cbn in Hk; lia].
  - destruct s as [|x s]; [now destruct fuel|]. set (s0 := x :: s) in *.
    change (text_of U_UU n (S k) s0) with (line_of U_UU (firstn n s0) ++ text_of U_UU n k (skipn n s0)).
    assert (HS : (length (skipn n s0) < length s0)%nat) by (rewrite length_skipn; unfold s0; cbn [length]; lia).
    assert (HG : (1 <= length (firstn n s0) <= 63)%nat) by (rewrite length_firstn; unfold s0; cbn [length]; lia).
    assert (HT : (length (firstn n s0) + length (skipn n s0) = length s0)%nat) by (rewrite <- length_app; now rewrite firstn_skipn).
    set (g := firstn n s0) in *. set (s' := skipn n s0) in *.
    destruct fuel as [|fuel]; [cbn in Hf; lia|].
    unfold line_of. change (U_UU =? U_UU) with true. cbn [app uu_loop].
    destruct (uu_start_char (Z.of_nat (length g)) ltac:(lia)) as [E1 E2].
    cbn [uu_starts deref hd tl]. rewrite E1, E2, (proj2 (Z.ltb_ge _ _)) by lia.
    rewrite <- app_assoc, Nat2Z.id, uu_line_groups by (unfold g; auto with lists). cbn [bind].
    unfold uu_eol. cbn [app deref hd Z.eqb Pos.eqb tl].
    rewrite IH by first [lia | unfold s'; auto with lists]. cbn [bind].
    unfold g, s'. now rewrite firstn_skipn.
Qed.

(** decoding what Array#pack wrote with [u] gives the string back, as long
    as the count does not ask for lines of more than 63 bytes. *)
Theorem uu_round_trip res s len : Forall byte s -> Z.of_nat (length s) < max_text -> len < 66 ->
  exists text, pack_text res s len U_UU = Ok (res ++ text) /\ uu_decode text = Ok (s, [], false).
Proof.
  intros Hs Hmax Hlen. destruct (pack_text_spec res s len U_UU Hmax) as [HP (room & HR & Hroom)].
  pose proof (line_length_bound len) as [HL _]. eexists. split; [exact HP|].
  assert (H63 : line_length len <= 63).
  { unfold line_length. case_if; [lia|]. unfold cdiv. rewrite Z.quot_div_nonneg by lia. Z.div_mod_to_equations. lia. }
  unfold uu_decode. rewrite HR. cbn [bind].
  pose proof (text_of_length U_UU (Z.to_nat (line_length len)) (length s) s ltac:(lia) ltac:(lia)) as [HT _].
  apply uu_loop_text; auto; lia.
Qed.

Lemma uu_round_trip_witness :
  exists text, pack_text [] [104; 101; 108; 108; 255] 4 U_UU = Ok ([] ++ text) /\
    uu_decode text = Ok ([104; 101; 108; 108; 255], [], false).
Proof.
  apply (uu_round_trip [] [104; 101; 108; 108; 255] 4); [|vm_compute; reflexivity|lia].
  repeat constructor; unfold byte; lia.
Defined.

(** ** Quoted-printable *)

(** A character is decoded from what was emitted for it, soft line breaks
    included. *)
Definition decodes_to (cs : list Z) (c : Z) : Prop :=
  forall t, qp_decode (cs ++ t) = (let '(out, r) := qp_decode t in (c :: out, r)).

Lemma hex2num_digit x : 0 <= x < 16 -> hex2num (hex_digit x) = x /\ hex_digit x <> 10.
Proof.
  intros H. split; [finite x 0 16%nat; lia|].
  assert (E : Z.b2z (hex_digit x =? 10) = 0) by (finite x 0 16%nat; lia).
  destruct (Z.eqb_spec (hex_digit x) 10); [discriminate|auto].
Qed.

Lemma nibbles c : byte c -> 0 <= Z.shiftr c 4 < 16 /\ 0 <= Z.land c 15 < 16 /\
  u8 (Z.lor (Z.shiftl (Z.shiftr c 4) 4) (Z.land c 15)) = c.
Proof.
  intros H. splits.
  all: try (change 15 with (Z.ones 4); rewrite Z.land_ones by lia; apply Z.mod_pos_bound; lia).
  all: try (rewrite Z.shiftr_div_pow2 by lia; unfold byte in H; change (2 ^ 4) with 16; Z.div_mod_to_equations; lia).
  finite c 0 256%nat. exact H.
Qed.

Lemma emit_decodes c n prev : byte c -> decodes_to (fst (fst (qp_emit c n prev))) c.
Proof.
  intros Hc t. unfold qp_emit. destruct (qp_quoted c) eqn:EQ; cbn [fst].
  - destruct (nibbles c Hc) as (H1 & H2 & H3).
    destruct (hex2num_digit _ H1) as [E1 N1], (hex2num_digit _ H2) as [E2 _].
    cbn [app qp_decode Z.eqb Pos.eqb]. rewrite (proj2 (Z.eqb_neq _ _) N1), E1, E2, H3.
    now rewrite !(proj2 (Z.eqb_neq _ (-1))) by lia.
  - assert (HN : (c =? 61) = false) by (unfold qp_quoted in EQ; now apply orb_false_elim in EQ).
    destruct (Z.eqb_spec c 10) as [->|]; cbn [fst].
    + destruct (_ || _)%bool; reflexivity.
    + cbn [app qp_decode]. now rewrite HN.
Qed.

Lemma soft_break_decodes cs c : decodes_to cs c -> decodes_to (cs ++ [61; 10]) c.
Proof. intros H t. rewrite <- app_assoc, H. reflexivity. Qed.

Lemma emit_length c n prev : (length (fst (fst (qp_emit c n prev))) <= 3)%nat.
Proof. unfold qp_emit. repeat case_if; cbn; lia. Qed.

(** What has been written so far and may still be in the buffer. *)
Definition qp_text (st : qp_state) : list Z := qp_str st ++ qp_buff st.
Definition qp_room (st : qp_state) : Prop := (length (qp_buff st) <= QP_BUFF - 5)%nat.

(** The characters appended by one step, and the next [n] and [prev]. *)
Definition qp_next (len : Z) (st : qp_state) (c : Z) : list Z * Z * Z :=
  let '(cs, n, prev) := qp_emit c (qp_n st) (qp_prev st) in
  if len <? n then (cs ++ [61; 10], 0, 10) else (cs, n, prev).

(** One step stays inside [buff], whatever the line length. *)
Lemma qp_step_ok len st c : qp_room st ->
  exists st', qp_step len st c = Ok st' /\ qp_room st' /\
    qp_text st' = qp_text st ++ fst (fst (qp_next len st c)) /\
    qp_n st' = snd (fst (qp_next len st c)) /\ qp_prev st' = snd (qp_next len st c).
Proof.
  unfold qp_room, qp_step, qp_next, qp_text, QP_BUFF. intros HR.
  pose proof (emit_length c (qp_n st) (qp_prev st)) as HE.
  destruct (qp_emit c (qp_n st) (qp_prev st)) as [[cs n] prev]. cbn [fst] in HE.
  assert (HL : (length (fst (fst (if len <? n then (cs ++ [61; 10], 0, 10) else (cs, n, prev))%Z)) <= 5)%nat)
    by (destruct (len <? n); cbn [fst]; rewrite ?length_app; cbn [length]; lia).
  destruct (if len <? n then _ else _) as [[cs' n'] prev']. cbn [fst snd] in *.
  unfold put, QP_BUFF. rewrite (proj2 (Nat.leb_le _ _)) by (rewrite length_app; lia). cbn [bind].
  destruct (Nat.ltb_spec (1024 - 5) (length (qp_buff st ++ cs'))); eexists; (split; [reflexivity|]); cbn [qp_buff qp_str qp_n qp_prev];
    rewrite ?app_nil_r, <- ?app_assoc; splits; auto; cbn [length]; lia.
Qed.

Lemma next_decodes len st c : byte c -> decodes_to (fst (fst (qp_next len st c))) c.
Proof.
  intros Hc. unfold qp_next. pose proof (emit_decodes c (qp_n st) (qp_prev st) Hc) as H.
  destruct (qp_emit _ _ _) as [[cs n] prev]. destruct (len <? n); [now apply soft_break_decodes|exact H].
Qed.

Lemma qp_loop_ok len s st : Forall byte s -> qp_room st ->
  exists st' o, qp_loop len st s = Ok st' /\ qp_room st' /\ qp_text st' = qp_text st ++ o /\
    forall t, qp_decode (o ++ t) = (let '(out, r) := qp_decode t in (s ++ out, r)).
Proof.
  intros Hs. revert st; induction Hs as [|c s Hc Hs IH]; intros st HR.
  - exists st, []. rewrite app_nil_r. splits; auto. intros t. cbn [app]. now destruct (qp_decode t).
  - destruct (qp_step_ok len st c HR) as (st1 & E1 & HR1 & HT1 & _). cbn [qp_loop]. rewrite E1. cbn [bind].
    destruct (IH st1 HR1) as (st2 & o & E2 & HR2 & HT2 & HD).
    exists st2, (fst (fst (qp_next len st c)) ++ o). rewrite E2, HT2, HT1, <- !app_assoc. splits; auto.
    intros t. rewrite <- app_assoc, (next_decodes len st c Hc), HD. now destruct (qp_decode t).
Qed.

(** The end of [qpencode]. *)
Lemma qp_finish st : qp_room st ->
  exists e, (buff <- (if 0 <? qp_n st then put (qp_buff st) [61; 10] else Ok (qp_buff st)) ;;
             Ok (qp_str st ++ buff)) = Ok (qp_text st ++ e) /\ e = (if 0 <? qp_n st then [61; 10] else []).
Proof.
  unfold qp_room, qp_text, QP_BUFF. intros HR. eexists; split; [|reflexivity].
  destruct (0 <? qp_n st); cbn [bind].
  - unfold put, QP_BUFF. rewrite (proj2 (Nat.leb_le _ _)) by (rewrite length_app; cbn [length]; lia).
    cbn [bind]. now rewrite app_assoc.
  - now rewrite app_nil_r.
Qed.

Lemma qp_room_start str : qp_room (mkQp str [] 0 EOF).
Proof. unfold qp_room. cbn. lia. Qed.
Lemma qp_text_start str : qp_text (mkQp str [] 0 EOF) = str.
Proof. apply app_nil_r. Qed.

(** decoding what Array#pack wrote with [M] gives the string back, for every
    line length, and the encoder never writes beyond its buffer of 1024 bytes. *)
Theorem qp_round_trip res s len : Forall byte s ->
  exists text, pack_M res s len = Ok (res ++ text) /\ qp_decode text = (s, []).
Proof.
  intros Hs. unfold pack_M, qpencode. set (width := if len <=? 1 then 72 else len).
  destruct (qp_loop_ok width s _ Hs (qp_room_start res)) as (st & o & E & HR & HT & HD). rewrite E. cbn [bind].
  destruct (qp_finish st HR) as (e & -> & He). exists (o ++ e). rewrite HT, qp_text_start, <- app_assoc. split; [reflexivity|].
  rewrite HD, He. destruct (0 <? qp_n st); cbn; now rewrite app_nil_r.
Qed.

Lemma qp_round_trip_witness :
  exists text, pack_M [7] [61; 32; 10; 255; 65] 0 = Ok ([7] ++ text) /\ qp_decode text = ([61; 32; 10; 255; 65], []).
Proof. apply (qp_round_trip [7] [61; 32; 10; 255; 65] 0). repeat constructor; unfold byte; lia. Defined.

(** Lines: [cur] is what is already on the line at the start of [s], and the
    result what is on it at its end. *)
Fixpoint line_fits (w cur : Z) (s : list Z) : Prop :=
  cur <= w /\ match s with [] => True | c :: s' => line_fits w (if c =? 10 then 0 else cur + 1) s' end.

Fixpoint column (cur : Z) (s : list Z) : Z :=
  match s with [] => cur | c :: s' => column (if c =? 10 then 0 else cur + 1) s' end.

Lemma line_fits_app w cur a b : line_fits w cur (a ++ b) <-> line_fits w cur a /\ line_fits w (column cur a) b.
Proof.
  revert cur; induction a as [|c a IH]; intros cur; cbn [app line_fits column].
  - destruct b; cbn [line_fits]; tauto.
  - rewrite IH. tauto.
Qed.

Lemma column_app cur a b : column cur (a ++ b) = column (column cur a) b.
Proof. revert cur; induction a as [|c a IH]; intros cur; cbn [app column]; auto. Qed.

Lemma line_fits_length w cur b : line_fits w cur b -> ~ In 10 b -> cur + Z.of_nat (length b) <= w.
Proof.
  revert cur; induction b as [|c b IH]; intros cur H Hb; cbn [line_fits length] in *; [lia|].
  destruct H as [H1 H2]. destruct (Z.eqb_spec c 10) as [->|]; [now destruct Hb; left|].
  specialize (IH _ H2 ltac:(intros HI; apply Hb; now right)). lia.
Qed.

Lemma column_nonneg cur a : 0 <= cur -> 0 <= column cur a.
Proof. revert cur; induction a as [|c a IH]; intros cur Hc; cbn [column]; auto. apply IH. case_if; lia. Qed.

(** A stretch without a newline is part of one line. *)
Lemma line_fits_run w a b c : line_fits w 0 (a ++ b ++ c) -> ~ In 10 b -> Z.of_nat (length b) <= w.
Proof.
  intros H Hb. apply line_fits_app in H as [_ H]. apply line_fits_app in H as [H _].
  pose proof (line_fits_length _ _ _ H Hb). pose proof (column_nonneg 0 a ltac:(lia)). lia.
Qed.

(** The characters quoted-printable text is made of. *)
Definition qp_char (c : Z) : Prop := 32 <= c <= 126 \/ c = 9 \/ c = 10.

Lemma hex_digit_char x : 0 <= x < 16 -> qp_char (hex_digit x).
Proof.
  intros H. assert (E : Z.b2z ((48 <=? hex_digit x) && (hex_digit x <=? 70)) = 1) by (finite x 0 16%nat; lia).
  destruct (_ && _)%bool eqn:EB; [|discriminate]. breflect. unfold qp_char. lia.
Qed.

(** What is emitted for a character keeps [n] equal to the column, or ends the
    line. *)
Lemma emit_column c n prev : byte c -> 0 <= n -> n + 3 <= LONG_MAX ->
  let '(cs, n', _) := qp_emit c n prev in
  Forall qp_char cs /\ column n cs = n' /\ 0 <= n' <= n + 3 /\ line_fits (n + 3) n cs.
Proof.
  intros Hc Hn Hmax. unfold LONG_MAX in Hmax. unfold qp_emit. destruct (qp_quoted c) eqn:EQ.
  - destruct (nibbles c Hc) as (H1 & H2 & _).
    destruct (hex2num_digit _ H1) as [_ N1], (hex2num_digit _ H2) as [_ N2].
    rewrite s32_small by lia. cbn [column line_fits Z.eqb Pos.eqb].
    rewrite (proj2 (Z.eqb_neq _ _) N1), (proj2 (Z.eqb_neq _ _) N2). splits; try exact I; try lia.
    repeat (apply Forall_cons || apply Forall_nil); auto using hex_digit_char. unfold qp_char; lia.
  - unfold qp_quoted in EQ. destruct (Z.eqb_spec c 10) as [->|HN].
    + destruct ((prev =? 32) || (prev =? 9))%bool; cbn [app column line_fits Z.eqb Pos.eqb]; (splits; try exact I; try lia);
        repeat (apply Forall_cons || apply Forall_nil); unfold qp_char; lia.
    + rewrite s32_small by lia. cbn [column line_fits]. rewrite (proj2 (Z.eqb_neq _ _) HN). splits; try exact I; try lia.
      apply Forall_cons; [|apply Forall_nil]. unfold qp_char, byte in *.
      apply orb_false_elim in EQ as [EQ _]. apply orb_false_elim in EQ as [EQ1 EQ2]. breflect.
      destruct EQ2 as [EQ2|EQ2]; [breflect; destruct EQ2; breflect|breflect]; lia.
Qed.

Lemma line_fits_le w w' cur s : w <= w' -> line_fits w cur s -> line_fits w' cur s.
Proof. intros Hw. revert cur; induction s as [|c s IH]; intros cur; cbn [line_fits]; intuition (lia || eauto). Qed.

(** The invariant of the loop: [n] is the column, which never exceeds the
    requested length after a step. *)
Lemma qp_loop_lines len s st : 1 < len <= LONG_MAX - 3 -> Forall byte s -> qp_room st -> 0 <= qp_n st <= len ->
  forall st' o, qp_loop len st s = Ok st' -> qp_text st' = qp_text st ++ o ->
  Forall qp_char o /\ line_fits (len + 4) (qp_n st) o /\ column (qp_n st) o = qp_n st' /\ 0 <= qp_n st' <= len.
Proof.
  intros Hlen Hs. revert st; induction Hs as [|c s Hc Hs IH]; intros st HR Hn st' o H HT.
  - injection H as <-. rewrite <- (app_nil_r (qp_text st)) in HT at 1. apply app_inv_head in HT as <-.
    cbn. splits; auto; lia.
  - cbn [qp_loop] in H. destruct (qp_step_ok len st c HR) as (st1 & E1 & HR1 & HT1 & HN1 & _).
    rewrite E1 in H. cbn [bind] in H.
    destruct (qp_loop_ok len s st1 Hs HR1) as (st2 & o' & E2 & _ & HT2 & _).
    rewrite E2 in H. injection H as <-. rewrite HT2, HT1, <- app_assoc in HT. apply app_inv_head in HT as <-.
    pose proof (emit_column c (qp_n st) (qp_prev st) Hc ltac:(lia) ltac:(lia)) as HE.
    unfold qp_next in HN1, HT1 |- *. destruct (qp_emit c (qp_n st) (qp_prev st)) as [[cs n] prev].
    destruct HE as (HC & HK & HB & HF).
    assert (HS : Forall qp_char (fst (fst (if len <? n then (cs ++ [61; 10], 0, 10) else (cs, n, prev)))) /\
      line_fits (len + 4) (qp_n st) (fst (fst (if len <? n then (cs ++ [61; 10], 0, 10) else (cs, n, prev)))) /\
      column (qp_n st) (fst (fst (if len <? n then (cs ++ [61; 10], 0, 10) else (cs, n, prev)))) = qp_n st1 /\
      0 <= qp_n st1 <= len).
    { rewrite HN1. apply (line_fits_le _ (len + 4)) in HF; [|lia]. destruct (Z.ltb_spec len n); cbn [fst snd]; splits; auto; try lia.
      - apply Forall_app. split; auto. repeat (apply Forall_cons || apply Forall_nil); unfold qp_char; lia.
      - apply line_fits_app. rewrite HK. cbn [line_fits Z.eqb Pos.eqb]. splits; auto; lia.
      - rewrite column_app. reflexivity. }
    destruct (if len <? n then _ else _) as [[cs' n'] prev']. cbn [fst snd] in *.
    destruct HS as (HC' & HF' & HK' & HB').
    destruct (IH st1 HR1 HB' _ _ E2 HT2) as (IC & IF & IK & IB).
    splits; try lia.
    + now apply Forall_app.
    + apply line_fits_app. rewrite HK'. auto.
    + now rewrite column_app, HK'.
Qed.

(** Quoted-printable output consists of printable ASCII, tabs and newlines,
    and no line is longer than the requested length plus 4; the default gives
    the 76 characters of RFC 2045. *)
Theorem qp_lines res s len : Forall byte s -> len <= LONG_MAX - 3 ->
  exists text, pack_M res s len = Ok (res ++ text) /\ Forall qp_char text /\
    forall before line after, text = before ++ line ++ after -> ~ In 10 line ->
      Z.of_nat (length line) <= (if len <=? 1 then 72 else len) + 4.
Proof.
  intros Hs Hlen. unfold pack_M, qpencode. set (width := if len <=? 1 then 72 else len).
  assert (HW : 1 < width <= LONG_MAX - 3) by (unfold width, LONG_MAX in *; case_if; lia).
  destruct (qp_loop_ok width s _ Hs (qp_room_start res)) as (st & o & E & HR & HT & _).
  destruct (qp_loop_lines width s _ HW Hs (qp_room_start res) ltac:(cbn; lia) _ _ E HT) as (HC & HF & HK & HB).
  rewrite E. cbn [bind qp_n] in *. destruct (qp_finish st HR) as (e & -> & He). exists (o ++ e).
  rewrite HT, qp_text_start, <- app_assoc. split; [reflexivity|].
  assert (HE : Forall qp_char e /\ line_fits (width + 4) (qp_n st) e).
  { rewrite He. destruct (Z.ltb_spec 0 (qp_n st)); cbn [line_fits Z.eqb Pos.eqb]; splits; auto; try lia.
    repeat (apply Forall_cons || apply Forall_nil); unfold qp_char; lia. }
  destruct HE as [HE1 HE2]. split; [now apply Forall_app|].
  intros before line after Ht. apply (line_fits_run (width + 4) before line after). rewrite <- Ht.
  apply line_fits_app. now rewrite HK.
Qed.

Lemma qp_lines_witness :
  exists text, pack_M [] (repeat 255 30) 1 = Ok ([] ++ text) /\ Forall qp_char text /\
    forall before line after, text = before ++ line ++ after -> ~ In 10 line ->
      Z.of_nat (length line) <= (if 1 <=? 1 then 72 else 1) + 4.
Proof.
  apply (qp_lines [] (repeat 255 30) 1); [|unfold LONG_MAX; lia].
  apply Forall_repeat'. unfold byte; lia.
Defined.

(** ** UTF-8 *)

(** The last [k] bytes of the encoding, and the number of bytes. *)
Fixpoint cont_bytes (k : nat) (uv : Z) : list Z :=
  match k with O => [] | S k => cont_bytes k (uv / 64) ++ [128 + uv mod 64] end.

Definition utf8_size (uv : Z) : nat :=
  if uv <=? 127 then 1 else if uv <=? 2047 then 2 else if uv <=? 65535 then 3
  else if uv <=? 2097151 then 4 else if uv <=? 67108863 then 5 else 6.

(** The first byte of [n] bytes starts with [n] one bits and a zero. *)
Definition utf8_mark (n : nat) : Z := nth n [0; 0; 192; 224; 240; 248; 252] 0.

Definition utf8_bytes (uv : Z) : list Z :=
  let n := utf8_size uv in
  (utf8_mark n + uv / 64 ^ Z.of_nat (n - 1)) :: cont_bytes (n - 1) uv.

Lemma cont_bytes_length k uv : length (cont_bytes k uv) = k.
Proof. revert uv; induction k as [|k IH]; intros uv; cbn [cont_bytes]; [auto|]. rewrite length_app, IH. cbn; lia. Qed.

Lemma follow_eq uv k : 0 <= k -> follow uv k = 128 + (uv / 2 ^ k) mod 64.
Proof.
  intros Hk. unfold follow. change 63 with (Z.ones 6). rewrite Z.land_ones, Z.shiftr_div_pow2 by lia.
  pose proof (Z.mod_pos_bound (uv / 2 ^ k) (2 ^ 6) ltac:(lia)) as HB. change (2 ^ 6) with 64 in *.
  rewrite Z.lor_comm. now rewrite (lor_fields 1 _ 7) by (change (2 ^ 7) with 128; lia).
Qed.

Lemma leader_eq uv k j m : 0 <= uv -> 0 <= k -> 0 <= j <= 8 -> uv / 2 ^ k < 2 ^ j ->
  leader uv k (m * 2 ^ j) = m * 2 ^ j + uv / 2 ^ k.
Proof.
  intros Hu Hk Hj HB. unfold leader. rewrite Z.shiftr_div_pow2 by lia.
  pose proof (Z.div_pos uv (2 ^ k) Hu ltac:(lia)) as H0.
  pose proof (Z.pow_le_mono_r 2 j 8 ltac:(lia) ltac:(lia)) as HP. change (2 ^ 8) with 256 in HP.
  change 255 with (Z.ones 8). rewrite Z.land_ones, Z.mod_small by (change (2 ^ 8) with 256; lia).
  rewrite Z.lor_comm, lor_fields by lia. reflexivity.
Qed.

Lemma pow64 k : 0 <= k -> 64 ^ k = 2 ^ (6 * k).
Proof. intros Hk. now rewrite Z.pow_mul_r by lia. Qed.

Lemma div_pow64 uv k : 0 <= k -> uv / 64 / 64 ^ k = uv / 64 ^ (k + 1).
Proof. intros Hk. rewrite Z.div_div by lia. now rewrite Z.pow_add_r, Z.mul_comm by lia. Qed.

Ltac leader_of uv k mark j m :=
  change (leader uv k mark) with (leader uv k (m * 2 ^ j));
  rewrite (leader_eq uv k j m) by
    (try (let p := eval vm_compute in (2 ^ k) in change (2 ^ k) with p;
          let q := eval vm_compute in (2 ^ j) in change (2 ^ j) with q); Z.div_mod_to_equations; lia);
  rewrite Z.div_1_r; reflexivity.

Lemma uv_to_utf8_bytes uv : 0 <= uv <= 2147483647 -> uv_to_utf8 uv = Ok (utf8_bytes uv).
Proof.
  intros H. unfold uv_to_utf8, utf8_bytes, utf8_size. repeat case_if; try lia.
  1: { cbn. now rewrite Z.div_1_r. }
  all: cbn [Nat.sub cont_bytes app]; rewrite pow64 by lia; rewrite !follow_eq by lia; rewrite ?Z.div_div by lia.
  - leader_of uv 6 192 5 6.
  - leader_of uv 12 224 4 14.
  - leader_of uv 18 240 3 30.
  - leader_of uv 24 248 2 62.
  - leader_of uv 30 252 1 126.
Qed.

(** Continuation bytes, and the value read from them. *)
Definition is_cont (c : Z) : bool := (128 <=? c) && (c <? 192).
Definition conts (uv : Z) (l : list Z) : Z := fold_left (fun v c => v * 64 + (c - 128)) l uv.

Lemma cont_byte c : byte c -> (Z.land c 192 =? 128) = is_cont c /\ Z.land c 63 = c mod 64.
Proof.
  intros Hc. split.
  - assert (E : Z.b2z (eqb (Z.land c 192 =? 128) (is_cont c)) = 1) by (finite c 0 256%nat; exact Hc).
    apply eqb_prop. destruct (eqb _ _); [reflexivity|discriminate].
  - change 63 with (Z.ones 6). now rewrite Z.land_ones by lia.
Qed.

Lemma utf8_follow_spec n uv p : (n <= length p)%nat -> Forall byte p -> 0 <= uv -> (uv + 1) * 64 ^ Z.of_nat n <= 4294967296 ->
  utf8_follow n uv p = if forallb is_cont (firstn n p) then Ok (conts uv (firstn n p)) else Raise ArgumentError.
Proof.
  revert uv p; induction n as [|n IH]; intros uv p Hn Hp H0 HB; [reflexivity|].
  destruct p as [|c p]; [cbn in Hn; lia|]. apply Forall_cons_iff in Hp as [Hc Hp].
  destruct (cont_byte c Hc) as [E1 E2]. cbn [utf8_follow firstn forallb conts fold_left]. rewrite E1.
  destruct (is_cont c) eqn:EC; cbn [negb andb]; [|reflexivity].
  unfold is_cont in EC. breflect.
  rewrite Nat2Z.inj_succ, Z.pow_succ_r in HB by lia.
  assert (HP : 0 < 64 ^ Z.of_nat n) by lia.
  assert (HU : (uv + 1) * 64 <= (uv + 1) * (64 * 64 ^ Z.of_nat n)) by (apply Z.mul_le_mono_nonneg_l; lia).
  rewrite E2, Z.shiftl_mul_pow2, u32_small by lia.
  assert (HM : c mod 64 = c - 128) by (Z.div_mod_to_equations; lia). rewrite HM.
  rewrite (lor_fields uv (c - 128) 6) by (change (2 ^ 6) with 64; lia). change (2 ^ 6) with 64.
  apply IH; auto; [cbn in Hn; lia|lia|].
  apply Z.le_trans with ((uv * 64 + 64) * 64 ^ Z.of_nat n); [apply Z.mul_le_mono_nonneg_r; lia|lia].
Qed.

Lemma conts_app uv l c : conts uv (l ++ [c]) = conts uv l * 64 + (c - 128).
Proof. unfold conts. now rewrite fold_left_app. Qed.

Lemma cont_bytes_cont k uv : forallb is_cont (cont_bytes k uv) = true.
Proof.
  revert uv; induction k as [|k IH]; intros uv; [reflexivity|]. cbn [cont_bytes]. rewrite forallb_app, IH. cbn [forallb].
  unfold is_cont. pose proof (Z.mod_pos_bound uv 64 ltac:(lia)).
  now rewrite (proj2 (Z.leb_le _ _)), (proj2 (Z.ltb_lt _ _)) by lia.
Qed.

Lemma conts_cont_bytes k uv : conts (uv / 64 ^ Z.of_nat k) (cont_bytes k uv) = uv.
Proof.
  revert uv; induction k as [|k IH]; intros uv; [cbn; apply Z.div_1_r|].
  cbn [cont_bytes]. rewrite conts_app, Nat2Z.inj_succ, <- Z.add_1_r, <- div_pow64, IH by lia.
  pose proof (Z.div_mod uv 64). lia.
Qed.

Lemma cont_bytes_conts x l : forallb is_cont l = true ->
  cont_bytes (length l) (conts x l) = l /\ conts x l / 64 ^ Z.of_nat (length l) = x.
Proof.
  induction l as [|c l IH] using rev_ind; intros H; [split; [reflexivity|apply Z.div_1_r]|].
  rewrite forallb_app in H. apply andb_prop in H as [Hl Hc]. cbn in Hc. rewrite andb_true_r in Hc.
  unfold is_cont in Hc. breflect. destruct (IH Hl) as [IH1 IH2].
  rewrite length_app, Nat.add_comm, conts_app. cbn [length Nat.add cont_bytes].
  replace ((conts x l * 64 + (c - 128)) mod 64) with (c - 128) by (Z.div_mod_to_equations; lia).
  rewrite Nat2Z.inj_succ, <- Z.add_1_r, <- div_pow64 by lia.
  replace ((conts x l * 64 + (c - 128)) / 64) with (conts x l) by (Z.div_mod_to_equations; lia).
  rewrite IH1, IH2. split; auto. f_equal. f_equal. lia.
Qed.

(** The first byte. *)
Definition first_size (c : Z) : option nat :=
  if c <? 192 then None else if c <? 224 then Some 2%nat else if c <? 240 then Some 3%nat
  else if c <? 248 then Some 4%nat else if c <? 252 then Some 5%nat else if c <? 254 then Some 6%nat else None.

Lemma utf8_first_spec c : 128 <= c < 256 ->
  utf8_first c = match first_size c with Some n => Ok (Z.of_nat n, c - utf8_mark n) | None => Raise ArgumentError end.
Proof.
  intros H.
  pose (same := fun c => match utf8_first c, first_size c with
    | Ok (a, b), Some n => (a =? Z.of_nat n) && (b =? c - utf8_mark n)
    | Raise ArgumentError, None => true
    | _, _ => false end).
  assert (E : same c = true) by (apply (range_check same 128 128); [vm_compute; reflexivity|lia]).
  unfold same in E. destruct (utf8_first c) as [[a b]|[]| |], (first_size c); try discriminate; auto.
  breflect. now subst.
Qed.

Lemma first_size_bound c n : first_size c = Some n -> (2 <= n <= 6)%nat /\ utf8_mark n <= c < utf8_mark n + 2 ^ Z.of_nat (7 - n).
Proof. unfold first_size. repeat case_if; intros HE; try discriminate; injection HE as <-; cbn; lia. Qed.

Lemma utf8_limit_size n x uv : (2 <= n <= 6)%nat -> 0 <= x < 2 ^ Z.of_nat (7 - n) -> uv / 64 ^ Z.of_nat (n - 1) = x ->
  0 <= uv <= 2147483647 /\ (uv <? nth (n - 1) utf8_limits 0 = false -> utf8_size uv = n).
Proof.
  intros Hn Hx HU.
  assert (n = 2 \/ n = 3 \/ n = 4 \/ n = 5 \/ n = 6)%nat as [-> | [-> | [-> | [-> | ->]]]] by lia;
    cbn in Hx, HU |- *; (split; [Z.div_mod_to_equations; lia|]); intros HL; breflect;
    unfold utf8_size; repeat case_if; try reflexivity; exfalso; Z.div_mod_to_equations; lia.
Qed.

Lemma utf8_size_mark uv : 0 <= uv <= 2147483647 -> 127 < uv ->
  let n := utf8_size uv in let c := utf8_mark n + uv / 64 ^ Z.of_nat (n - 1) in
  (2 <= n <= 6)%nat /\ 128 <= c < 256 /\ first_size c = Some n /\ uv <? nth (n - 1) utf8_limits 0 = false.
Proof.
  intros H H7. cbn zeta. unfold utf8_size. repeat case_if; try lia.
  all: cbn -[Z.div Z.mul Z.add first_size]; (split; [lia|]).
  all: match goal with |- context [first_size ?c] => assert (HC : 128 <= c < 256) by (Z.div_mod_to_equations; lia) end.
  all: split; [exact HC|]; split; [|lia].
  all: unfold first_size; repeat case_if; auto; exfalso; Z.div_mod_to_equations; lia.
Qed.

(** What the decoder computes: an error, or the value and the length. *)
Definition utf8_read (p : list Z) : outcome (Z * Z) :=
  match p with
  | [] => Undefined
  | c :: p' =>
      if c <? 128 then Ok (c, 1)
      else
        match first_size c with
        | None => Raise ArgumentError
        | Some n =>
            let l := firstn (n - 1) p' in
            let uv := conts (c - utf8_mark n) l in
            if (length p <? n)%nat || negb (forallb is_cont l) || (uv <? nth (n - 1) utf8_limits 0)
            then Raise ArgumentError else Ok (uv, Z.of_nat n)
        end
  end.

Lemma utf8_to_uv_read p : Forall byte p -> utf8_to_uv p (Z.of_nat (length p)) = utf8_read p.
Proof.
  intros Hp. destruct p as [|c p]; [reflexivity|]. apply Forall_cons_iff in Hp as [Hc Hp]. unfold utf8_to_uv, utf8_read.
  assert (E7 : Z.b2z (eqb (Z.land c 128 =? 0) (c <? 128)) = 1) by (finite c 0 256%nat; exact Hc).
  assert (E : (Z.land c 128 =? 0) = (c <? 128)) by (apply eqb_prop; destruct (eqb _ _); [reflexivity|discriminate]).
  rewrite E. unfold byte in Hc. case_if; [reflexivity|]. rewrite utf8_first_spec by lia.
  destruct (first_size c) as [n|] eqn:EF; cbn [bind]; [|reflexivity].
  destruct (first_size_bound _ _ EF) as [Hn HB].
  destruct (Nat.ltb_spec (length (c :: p)) n) as [HL|HL]; cbn [orb];
    [now rewrite (proj2 (Z.ltb_lt _ _)) by lia|rewrite (proj2 (Z.ltb_ge _ _)) by lia].
  replace (Z.to_nat (Z.of_nat n - 1)) with (n - 1)%nat by lia. cbn [length] in HL.
  rewrite utf8_follow_spec; auto; try lia.
  - destruct (forallb _ _); cbn [bind negb orb]; reflexivity.
  - assert (n = 2 \/ n = 3 \/ n = 4 \/ n = 5 \/ n = 6)%nat as [-> | [-> | [-> | [-> | ->]]]] by lia; cbn in HB |- *; lia.
Qed.

Lemma utf8_bytes_length uv : 0 <= uv <= 2147483647 -> length (utf8_bytes uv) = utf8_size uv.
Proof.
  intros H. unfold utf8_bytes. cbn [length]. rewrite cont_bytes_length.
  unfold utf8_size. repeat case_if; lia.
Qed.

Lemma utf8_read_encoded uv t : 0 <= uv <= 2147483647 ->
  utf8_read (utf8_bytes uv ++ t) = Ok (uv, Z.of_nat (length (utf8_bytes uv))).
Proof.
  intros H. rewrite utf8_bytes_length by auto. unfold utf8_bytes. destruct (Z.le_gt_cases uv 127) as [H7|H7].
  - unfold utf8_size. rewrite (proj2 (Z.leb_le _ _) H7). cbn -[Z.div]. rewrite Z.div_1_r.
    now rewrite (proj2 (Z.ltb_lt _ _)) by lia.
  - destruct (utf8_size_mark uv H H7) as (Hn & Hc & HF & HL).
    set (n := utf8_size uv) in *. set (c := utf8_mark n + _) in *. cbn [app utf8_read].
    rewrite (proj2 (Z.ltb_ge _ _)) by lia. rewrite HF.
    assert (HT : firstn (n - 1) (cont_bytes (n - 1) uv ++ t) = cont_bytes (n - 1) uv).
    { rewrite firstn_app, cont_bytes_length, Nat.sub_diag, firstn_all2 by (rewrite cont_bytes_length; lia). apply app_nil_r. }
    rewrite HT, cont_bytes_cont.
    replace (c - utf8_mark n) with (uv / 64 ^ Z.of_nat (n - 1)) by (unfold c; lia).
    rewrite conts_cont_bytes, HL. cbn [negb orb].
    rewrite (proj2 (Nat.ltb_ge _ _)) by (cbn [length]; rewrite length_app, cont_bytes_length; lia). reflexivity.
Qed.

Lemma utf8_read_sound p uv n : Forall byte p -> utf8_read p = Ok (uv, n) ->
  0 <= uv <= 2147483647 /\ n = Z.of_nat (length (utf8_bytes uv)) /\ exists t, p = utf8_bytes uv ++ t.
Proof.
  intros Hp H. destruct p as [|c p]; [discriminate|]. apply Forall_cons_iff in Hp as [Hc Hp]. unfold byte in Hc.
  cbn [utf8_read] in H. case_if.
  - injection H as <- <-. splits; try lia; unfold utf8_bytes, utf8_size; rewrite (proj2 (Z.leb_le _ _)) by lia; [reflexivity|].
    exists p. cbn -[Z.div]. now rewrite Z.div_1_r.
  - destruct (first_size c) as [k|] eqn:EF; [|discriminate]. destruct (first_size_bound _ _ EF) as [Hk HB].
    set (l := firstn (k - 1) p) in *. destruct (_ || _)%bool eqn:EB in H; [discriminate|]. injection H as <- <-. breflect.
    assert (HL : length l = (k - 1)%nat) by (unfold l; rewrite length_firstn; cbn [length] in *; lia).
    destruct (cont_bytes_conts (c - utf8_mark k) l ltac:(assumption)) as [HC1 HC2]. rewrite HL in HC1, HC2.
    assert (HX : 0 <= c - utf8_mark k < 2 ^ Z.of_nat (7 - k)) by lia.
    destruct (utf8_limit_size k _ _ Hk HX HC2) as [HU HS].
    specialize (HS ltac:(now apply Z.ltb_ge)). rewrite utf8_bytes_length, HS by auto. splits; auto; try lia.
    exists (skipn (k - 1) p). unfold utf8_bytes. rewrite HS, HC1, HC2. cbn [app].
    unfold l. rewrite firstn_skipn. f_equal. lia.
Qed.

(** C37: the decoder of UTF-8 accepts exactly what the encoder writes: it returns
    a character and the length of its encoding when the string starts with this
    encoding, and raises ArgumentError for every other non-empty string. *)
Theorem utf8_canonical p : Forall byte p -> p <> [] ->
  (forall uv bytes t, 0 <= uv -> uv_to_utf8 uv = Ok bytes -> p = bytes ++ t ->
     utf8_to_uv p (Z.of_nat (length p)) = Ok (uv, Z.of_nat (length bytes))) /\
  match utf8_to_uv p (Z.of_nat (length p)) with
  | Ok (uv, n) => exists bytes t, uv_to_utf8 uv = Ok bytes /\ n = Z.of_nat (length bytes) /\ p = bytes ++ t
  | Raise e => e = ArgumentError
  | _ => False
  end.
Proof.
  intros Hp Hne. rewrite utf8_to_uv_read by auto. split.
  - intros uv bytes t H0 HB ->. assert (HU : 0 <= uv <= 2147483647).
    { split; auto. unfold uv_to_utf8 in HB. repeat case_if; try lia; discriminate. }
    rewrite (uv_to_utf8_bytes uv HU) in HB. injection HB as <-. now apply utf8_read_encoded.
  - destruct (utf8_read p) as [[uv n]|e| |] eqn:E.
    1: { destruct (utf8_read_sound p uv n Hp E) as (HU & Hn & t & Ht).
         exists (utf8_bytes uv), t. splits; auto. now apply uv_to_utf8_bytes. }
    all: destruct p as [|c p]; [easy|]; cbn [utf8_read] in E; case_if; [discriminate|];
      destruct (first_size c); [destruct (_ || _)%bool|]; congruence.
Qed.

Lemma utf8_canonical_witness :
  (forall uv bytes t, 0 <= uv -> uv_to_utf8 uv = Ok bytes -> [226; 130; 172; 33] = bytes ++ t ->
     utf8_to_uv [226; 130; 172; 33] (Z.of_nat 4) = Ok (uv, Z.of_nat (length bytes))) /\
  match utf8_to_uv [226; 130; 172; 33] (Z.of_nat 4) with
  | Ok (uv, n) => exists bytes t, uv_to_utf8 uv = Ok bytes /\ n = Z.of_nat (length bytes) /\ [226; 130; 172; 33] = bytes ++ t
  | Raise e => e = ArgumentError
  | _ => False
  end.
Proof. apply (utf8_canonical [226; 130; 172; 33]); [|discriminate]. repeat constructor; unfold byte; lia. Defined.
