(* ===== verification/Pack.v ===== *)
(** * [Array#pack] and [String#unpack]

    [pack_pack] and [pack_unpack] of src/ruby/pack.c, the interpreters of the
    template language.  [NATINT_PACK] is not defined in this configuration and
    bytes are little endian.  A template or a string is the list of its bytes,
    which a NUL byte follows; a position in the string that is unpacked is an
    index, since some directives move it outside.  A Float that is unpacked stays
    in the form of its bytes; packing Floats, pointers and the conversions by
    methods of other objects are handed over ([Delegate]). *)

From Stdlib Require Import ZArith Lia List Bool.
From S2P Require Import Prelude CInt Digits Bignum BigAdd BigMul BigDiv BigStr Fixnum Digest PackText.
Import ListNotations.
Local Open Scope Z_scope.
Local Open Scope outcome_scope.

(** An element of the array: nil, a String, an Integer or other object, or a
    Float, which stays in the form of the bytes it was read from and the
    directive that read it. *)
Inductive item :=
  | Nil
  | Str (s : list Z)
  | Num (v : VALUE)
  | Flo (type : Z) (bytes : list Z).

(** ** The template *)

Definition natstr : list Z := [115; 83; 105; 73; 108; 76].

(** [strchr] finds the NUL at the end of the string, too. *)
Definition one_of (s : list Z) (c : Z) : bool := existsb (Z.eqb c) s.
Definition strchr (s : list Z) (c : Z) : bool := one_of s c || (c =? 0).

(** Characters of the template; the comments of the dispatch name them. *)
Definition STAR : Z := 42.
Definition HASH : Z := 35.
Definition NEWLINE : Z := 10.

(** The modifiers [_] and [!]. *)
Definition skip_native (type : Z) (p : list Z) : outcome (list Z) :=
  if (deref p =? 95) || (deref p =? 33)
  then if strchr natstr type then Ok (tl p) else Raise ArgumentError
  else Ok p.

(** A count in decimal, assigned to a [long]. *)
Definition read_count (p : list Z) : Z * list Z :=
  let '(n, e) := strtoul p 10 in (s32 n, e).

(** ** [num2i32] and byte order *)

Definition num2i32 (x : item) : outcome Z :=
  match x with
  | Nil | Str _ => Raise TypeError
  | Num (Fix n) => Ok (u32 n)
  | Num (Big b) => rb_big2ulong_pack b
  | Num (Obj _) | Flo _ _ => Delegate
  end.

Definition swap16 (x : Z) : Z := Z.lor (Z.shiftl (Z.land x 255) 8) (Z.land (Z.shiftr x 8) 255).
Definition swap32 (x : Z) : Z :=
  Z.lor (Z.lor (Z.lor (u32 (Z.shiftl (Z.land x 255) 24)) (Z.land (Z.shiftr x 24) 255))
    (Z.shiftl (Z.land x 65280) 8)) (Z.shiftr (Z.land x 16711680) 8).

(** [StringValue] and [rb_to_int]. *)
Definition StringValue (x : item) : outcome (list Z) :=
  match x with
  | Str s => Ok s
  | Num (Obj _) => Delegate
  | _ => Raise TypeError
  end.

Definition to_int (x : item) : outcome VALUE :=
  match x with
  | Num v => Ok v
  | Flo _ _ => Delegate
  | _ => Raise TypeError
  end.

Definition NEXTFROM (args : list item) : outcome (item * list item) :=
  match args with
  | x :: args => Ok (x, args)
  | [] => Raise ArgumentError
  end.

(** ** [pack] *)

(** The capacity of the string is not part of the model: from 1090519039 bytes
    on it would be 2 ^ 31 - 2, more than the address space has, and the
    exception of the allocator is left out. *)
Definition rb_str_buf_cat (str ptr : list Z) (len : Z) : outcome (list Z) :=
  if len =? 0 then Ok str
  else if len <? 0 then Raise ArgumentError
  else if Z.of_nat (length ptr) <? len then Undefined
  else Ok (str ++ firstn (Z.to_nat len) ptr).

Definition nul10 : list Z := repeat 0 10.
Definition spc10 : list Z := repeat 32 10.

(** [while (len >= 10) { cat(ten, 10); len -= 10; } cat(ten, len);] *)
Fixpoint cat_tens (n : nat) (ten res : list Z) (len : Z) : outcome (list Z * Z) :=
  match n with
  | O => Ok (res, len)
  | S n => res <- rb_str_buf_cat res ten 10 ;; cat_tens n ten res (len - 10)
  end.

Definition cat_pad (ten res : list Z) (len : Z) : outcome (list Z) :=
  '(res, len) <- cat_tens (Z.to_nat (len / 10)) ten res len ;; rb_str_buf_cat res ten len.

Definition grow (res : list Z) (len : Z) : outcome (list Z) := cat_pad nul10 res len.

(** A negative [len] makes the string longer than what was written. *)
Definition shrink (res : list Z) (len : Z) : outcome (list Z) :=
  let plen := Z.of_nat (length res) in
  if plen <? len then Raise ArgumentError
  else if len <? 0 then Undefined
  else Ok (firstn (Z.to_nat (plen - len)) res).

Definition ISALPHA (c : Z) : bool := ISLOWER c || ISUPPER c.
Definition nibble (c : Z) : Z :=
  if ISALPHA c then Z.land (Z.land c 15 + 9) 15 else Z.land c 15.

(** The loops of [b], [B], [h] and [H]: [enter] puts a character into [byte],
    which is written out when [i] is a multiple of [mask + 1] and shifted
    otherwise.  The bytes written and [byte] at the end. *)
Fixpoint bit_loop (enter : Z -> Z -> Z) (shift : Z -> Z) (mask i byte : Z) (s : list Z) : list Z * Z :=
  match s with
  | [] => ([], byte)
  | c :: s =>
      let byte := enter byte c in
      if Z.land i mask =? 0 then
        let '(out, last) := bit_loop enter shift mask (i + 1) 0 s in (u8 byte :: out, last)
      else bit_loop enter shift mask (i + 1) (shift byte) s
  end.

(** [final len byte]: the last, partial byte. *)
Definition pack_digits (enter : Z -> Z -> Z) (shift : Z -> Z) (mask : Z) (final : Z -> Z -> Z)
    (res ptr : list Z) (len : Z) : outcome (list Z) :=
  let plen := Z.of_nat (length ptr) in
  let '(j, len) := if plen <? len then (cdiv (len - plen + 1) 2, plen) else (0, len) in
  let '(out, byte) := bit_loop enter shift mask 1 0 (firstn (Z.to_nat len) ptr) in
  let res := res ++ out ++ (if Z.land len mask =? 0 then [] else [u8 (final len byte)]) in
  grow res j.

Definition pack_b := pack_digits
  (fun byte c => if Z.land c 1 =? 0 then byte else Z.lor byte 128) (fun byte => RSHIFT byte 1) 7
  (fun len byte => RSHIFT byte (7 - Z.land len 7)).
Definition pack_B := pack_digits
  (fun byte c => Z.lor byte (Z.land c 1)) (fun byte => Z.shiftl byte 1) 7
  (fun len byte => Z.shiftl byte (7 - Z.land len 7)).
Definition pack_h := pack_digits
  (fun byte c => Z.lor byte (Z.shiftl (nibble c) 4)) (fun byte => RSHIFT byte 4) 1 (fun _ byte => byte).
Definition pack_H := pack_digits
  (fun byte c => Z.lor byte (nibble c)) (fun byte => Z.shiftl byte 4) 1 (fun _ byte => byte).

(** The directives [a], [A] and [Z]. *)
Definition pack_a (type : Z) (star : bool) (res ptr : list Z) (len : Z) : outcome (list Z) :=
  let plen := Z.of_nat (length ptr) in
  if len <=? plen then
    res <- rb_str_buf_cat res ptr len ;;
    if star && (type =? 90) then rb_str_buf_cat res nul10 1 else Ok res
  else
    res <- rb_str_buf_cat res ptr plen ;;
    cat_pad (if type =? 65 then spc10 else nul10) res (len - plen).

Definition pack_string (type : Z) (star : bool) (res : list Z) (from : item) (len : Z) : outcome (list Z) :=
  ptr <- match from with Nil => Ok [] | _ => StringValue from end ;;
  let len := if star then Z.of_nat (length ptr) else len in
  if type =? 98 then pack_b res ptr len            (* 'b' *)
  else if type =? 66 then pack_B res ptr len       (* 'B' *)
  else if type =? 104 then pack_h res ptr len      (* 'h' *)
  else if type =? 72 then pack_H res ptr len       (* 'H' *)
  else pack_a type star res ptr len.

(** The bytes of one number. *)
Definition store_low (n : nat) (from : item) : outcome (list Z) := x <- num2i32 from ;; Ok (le_bytes n x).

Definition pack_n (from : item) : outcome (list Z) :=
  x <- num2i32 from ;; let s := u16 x in Ok (le_bytes 2 (u16 (swap16 s))).
Definition pack_N (from : item) : outcome (list Z) :=
  l <- num2i32 from ;; Ok (le_bytes 4 (swap32 l)).

Definition pack_q (from : item) : outcome (list Z) := v <- to_int from ;; rb_quad_pack v.

Definition pack_U (from : item) : outcome (list Z) :=
  v <- to_int from ;;
  l <- NUM2LONG v ;;
  if l <? 0 then Raise RangeError else uv_to_utf8 l.

(** BER: [while (TYPE(from) == T_BIGNUM)], one digit of seven bits a round. *)
Definition big128 : VALUE := Big (rb_uint2big 128).

Fixpoint ber_big (fuel : nat) (from : VALUE) (buf : list Z) : outcome (VALUE * list Z) :=
  match from with
  | Big b =>
      match fuel with
      | O => Undefined
      | S fuel =>
          '(d, m) <- rb_big_divmod b big128 ;;
          c <- NUM2LONG m ;;
          ber_big fuel d (buf ++ [u8 (Z.lor c 128)])
      end
  | _ => Ok (from, buf)
  end.

(** [while (ul)]; 32 bits are five digits. *)
Fixpoint ber_long (fuel : nat) (ul : Z) (buf : list Z) : outcome (list Z) :=
  if ul =? 0 then Ok buf
  else
    match fuel with
    | O => Undefined
    | S fuel => ber_long fuel (Z.shiftr ul 7) (buf ++ [u8 (Z.lor (Z.land ul 127) 128)])
    end.

Definition ber_fuel (from : VALUE) : nat :=
  match from with Big b => 3 * length (digits b) | _ => 0 end.

Definition pack_w (from : item) : outcome (list Z) :=
  match from with
  | Num v =>
      '(v, buf) <- ber_big (ber_fuel v) v [] ;;
      l <- NUM2LONG v ;;
      if l <? 0 then Raise ArgumentError
      else
        buf <- ber_long 5 (u32 l) buf ;;
        Ok (match buf with
            | c :: rest => rev (Z.land c 127 :: rest)
            | [] => [0]
            end)
  | Flo _ _ => Delegate
  | _ => Raise TypeError
  end.

(** The loops [while (len-- > 0) { from = NEXTFROM; ... }]. *)
Fixpoint pack_each (enc : item -> outcome (list Z)) (n : nat) (res : list Z) (args : list item) :
    outcome (list Z * list item) :=
  match n with
  | O => Ok (res, args)
  | S n =>
      '(from, args) <- NEXTFROM args ;;
      bytes <- enc from ;;
      pack_each enc n (res ++ bytes) args
  end.

(** A null pointer stands for nil; other pointers are addresses. *)
Definition pack_pointer (from : item) : outcome (list Z) :=
  match from with
  | Nil => Ok [0; 0; 0; 0]
  | _ => s <- StringValue from ;; Delegate
  end.

(** How the directive writes one number, if it does. *)
Definition pack_encoder (type : Z) : option (item -> outcome (list Z)) :=
  if (type =? 99) || (type =? 67) then Some (store_low 1)                          (* 'c' 'C' *)
  else if (type =? 115) || (type =? 83) then Some (store_low 2)                    (* 's' 'S' *)
  else if (type =? 105) || (type =? 73) then Some (store_low 4)                    (* 'i' 'I' *)
  else if (type =? 108) || (type =? 76) then Some (store_low 4)                    (* 'l' 'L' *)
  else if (type =? 113) || (type =? 81) then Some pack_q                           (* 'q' 'Q' *)
  else if type =? 110 then Some pack_n                                             (* 'n' *)
  else if type =? 78 then Some pack_N                                              (* 'N' *)
  else if type =? 118 then Some (store_low 2)                                      (* 'v' *)
  else if type =? 86 then Some (store_low 4)                                       (* 'V' *)
  else if one_of [102; 70; 101; 69; 100; 68; 103; 71] type                         (* 'fFeEdDgG' *)
  then Some (fun _ => Delegate)
  else if type =? 85 then Some pack_U                                              (* 'U' *)
  else if type =? 112 then Some pack_pointer                                       (* 'p' *)
  else if type =? 119 then Some pack_w                                             (* 'w' *)
  else None.

(** The switch; [args] are the elements of the array that are left. *)
Definition pack_directive (type len : Z) (star : bool) (res : list Z) (args : list item) :
    outcome (list Z * list item) :=
  match pack_encoder type with
  | Some enc => pack_each enc (Z.to_nat len) res args
  | None =>
      if one_of [65; 97; 90; 66; 98; 72; 104] type then                            (* 'AaZBbHh' *)
        '(from, args) <- NEXTFROM args ;;
        res <- pack_string type star res from len ;; Ok (res, args)
      else if type =? 120 then res <- grow res len ;; Ok (res, args)               (* 'x' *)
      else if type =? 88 then res <- shrink res len ;; Ok (res, args)              (* 'X' *)
      else if type =? 64 then                                                      (* '@' *)
        let len := s32 (len - Z.of_nat (length res)) in
        if 0 <? len then res <- grow res len ;; Ok (res, args)
        else
          let len := s32 (- len) in
          if 0 <? len then res <- shrink res len ;; Ok (res, args) else Ok (res, args)
      else if type =? 37 then Raise ArgumentError                                  (* '%' *)
      else if (type =? 117) || (type =? 109) then                                  (* 'u' 'm' *)
        '(from, args) <- NEXTFROM args ;;
        ptr <- StringValue from ;;
        res <- pack_text res ptr len type ;; Ok (res, args)
      else if type =? 77 then                                                      (* 'M' *)
        '(from, args) <- NEXTFROM args ;;
        ptr <- match from with Str s => Ok s | _ => Delegate end ;;
        res <- pack_M res ptr len ;; Ok (res, args)
      else if type =? 80 then                                                      (* 'P' *)
        from <- match args with x :: _ => Ok x | [] => Undefined end ;;
        _ <- match from with
             | Nil => Ok tt
             | _ => s <- StringValue from ;;
                    if Z.of_nat (length s) <? len then Raise ArgumentError else Ok tt
             end ;;
        pack_each pack_pointer 1 res args
      else Ok (res, args)
  end.

(** [len] for the directive, and whether its count is a star. *)
Definition pack_count (type items : Z) (p : list Z) : Z * bool * list Z :=
  if deref p =? STAR then ((if strchr [64; 88; 120; 117] type then 0 else items), true, tl p)
  else if ISDIGIT (deref p) then let '(n, p) := read_count p in (n, false, p)
  else (1, false, p).

Definition skip_comment (p : list Z) : list Z := skip_while (fun c => negb (c =? NEWLINE)) p.

Fixpoint pack_loop (fuel : nat) (p : list Z) (res : list Z) (args : list item) : outcome (list Z) :=
  match p with
  | [] => Ok res
  | type :: p =>
      match fuel with
      | O => Undefined
      | S fuel =>
          if ISSPACE type then pack_loop fuel p res args
          else if type =? HASH then pack_loop fuel (skip_comment p) res args
          else
            p <- skip_native type p ;;
            let '(len, star, p) := pack_count type (Z.of_nat (length args)) p in
            '(res, args) <- pack_directive type len star res args ;;
            pack_loop fuel p res args
      end
  end.

Definition pack_pack (ary : list item) (fmt : list Z) : outcome (list Z) :=
  pack_loop (length fmt) fmt [] ary.

(** ** [unpack] *)

Section Unpack.
(** The string; [s] is a position in it. *)
Context (str : list Z).
Notation send := (Z.of_nat (length str)).

(** The bytes from position [s], for a reader that stops at [send]; a pointer
    may at most be one past the NUL at [send]. *)
Definition bytes_at (s : Z) : outcome (list Z) :=
  if (s <? 0) || (send + 1 <? s) then Undefined else Ok (skipn (Z.to_nat s) str).

(** [rb_str_new(s, len)] *)
Definition rb_str_new (s len : Z) : outcome (list Z) :=
  if len <? 0 then Raise ArgumentError
  else if len =? 0 then Ok []
  else if (s <? 0) || (send <? s + len) then Undefined
  else Ok (firstn (Z.to_nat len) (skipn (Z.to_nat s) str)).

(** The value pushed and the position after it. *)
Definition unpack_A (s len : Z) : outcome (list item * Z) :=
  let len := if send - s <? len then send - s else len in
  t <- rb_str_new s len ;;
  Ok ([Str (rev (skip_while (fun c => (c =? 32) || (c =? 0)) (rev t)))], s + len).

Fixpoint take_while (p : Z -> bool) (l : list Z) : list Z :=
  match l with
  | c :: l' => if p c then c :: take_while p l' else []
  | [] => []
  end.

Definition unpack_Z (s len : Z) (star : bool) : outcome (list item * Z) :=
  let len := if send - s <? len then send - s else len in
  field <- rb_str_new s (Z.max 0 len) ;;
  let prefix := take_while (fun c => negb (c =? 0)) field in
  let t := s + Z.of_nat (length prefix) in
  let t := if t <? send then t + 1 else t in
  Ok ([Str prefix], if star then t else s + len).

Definition unpack_a (s len : Z) : outcome (list item * Z) :=
  let len := if send - s <? len then send - s else len in
  t <- rb_str_new s len ;; Ok ([Str t], s + len).

(** The loops of [b], [B], [h] and [H]: the characters and the rest. *)
Fixpoint digit_loop (shift : Z -> Z) (digit : Z -> Z) (mask : Z) (n : nat) (i bits : Z) (s : list Z) :
    outcome (list Z * list Z) :=
  match n with
  | O => Ok ([], s)
  | S n =>
      if Z.land i mask =? 0 then
        match s with
        | [] => Undefined
        | c :: s =>
            let bits := s8 c in
            '(out, s) <- digit_loop shift digit mask n (i + 1) bits s ;; Ok (digit bits :: out, s)
        end
      else
        let bits := shift bits in
        '(out, s) <- digit_loop shift digit mask n (i + 1) bits s ;; Ok (digit bits :: out, s)
  end.

(** [per] characters for a byte. *)
Definition unpack_digits (shift digit : Z -> Z) (per : Z) (s len : Z) (star : bool) : outcome (list item * Z) :=
  let room := s32 ((send - s) * per) in
  let len := if star || (room <? len) then room else len in
  if len <? 0 then Raise ArgumentError
  else
    p <- bytes_at s ;;
    '(out, rest) <- digit_loop shift digit (per - 1) (Z.to_nat len) 0 0 p ;;
    Ok ([Str out], s + Z.of_nat (length p) - Z.of_nat (length rest)).

Definition hexdigits : list Z := zrange 48 10 ++ zrange 97 6 ++ zrange 48 10 ++ zrange 65 6 ++ [120].
Definition hexdigit (i : Z) : Z := nth (Z.to_nat i) hexdigits 0.
Definition bit_char (b : Z) : Z := if b =? 0 then 48 else 49.

Definition unpack_b := unpack_digits (fun bits => RSHIFT bits 1) (fun bits => bit_char (Z.land bits 1)) 8.
Definition unpack_B := unpack_digits (fun bits => Z.shiftl bits 1) (fun bits => bit_char (Z.land bits 128)) 8.
Definition unpack_h := unpack_digits (fun bits => RSHIFT bits 4) (fun bits => hexdigit (Z.land bits 15)) 2.
Definition unpack_H := unpack_digits (fun bits => Z.shiftl bits 4) (fun bits => hexdigit (Z.land (RSHIFT bits 4) 15)) 2.

(** [PACK_LENGTH_ADJUST] compares with [(send-s)/sizeof(type)], which is
    unsigned, and the quad words with [(send-s)/8], which is not.  The new
    [len] and [tmp]. *)
Definition length_adjust (unsigned : bool) (sz s len : Z) (star : bool) : Z * Z :=
  let avail := if unsigned then u32 (send - s) / sz else cdiv (send - s) sz in
  let over := if unsigned then avail <? u32 len else avail <? len in
  if over then (s32 avail, if star then 0 else s32 (len - avail)) else (len, 0).

(** [while (tmp--) rb_ary_push(ary, Qnil)] *)
Definition item_adjust (tmp : Z) : list item := repeat Nil (Z.to_nat (u32 tmp)).

(** [while (len-- > 0) { memcpy(&tmp, s, sz); s += sz; ... }] *)
Fixpoint read_each (n : nat) (sz : Z) (dec : list Z -> outcome item) (s : Z) : outcome (list item * Z) :=
  match n with
  | O => Ok ([], s)
  | S n =>
      bytes <- rb_str_new s sz ;;
      x <- dec bytes ;;
      '(xs, s) <- read_each n sz dec (s + sz) ;;
      Ok (x :: xs, s)
  end.

Definition s16 (z : Z) : Z := swrap 16 z.

(** What is made of the bytes of one number. *)
Definition dec_c (bytes : list Z) : outcome item :=
  let c := s8 (le_val bytes) in Ok (Num (Fix (if 127 <? c then c - 256 else c))).
Definition dec_C (bytes : list Z) : outcome item := Ok (Num (Fix (le_val bytes))).
Definition dec_s (bytes : list Z) : outcome item := Ok (Num (Fix (s16 (le_val bytes)))).
Definition dec_S (bytes : list Z) : outcome item := Ok (Num (Fix (le_val bytes))).
Definition dec_l (bytes : list Z) : outcome item := Ok (Num (rb_int2inum (s32 (le_val bytes)))).
Definition dec_L (bytes : list Z) : outcome item := Ok (Num (rb_uint2inum (le_val bytes))).
Definition dec_n (bytes : list Z) : outcome item := Ok (Num (rb_uint2inum (swap16 (le_val bytes)))).
Definition dec_N (bytes : list Z) : outcome item := Ok (Num (rb_uint2inum (swap32 (le_val bytes)))).
Definition dec_q (bytes : list Z) : outcome item := Ok (Num (rb_quad_unpack bytes true)).
Definition dec_Q (bytes : list Z) : outcome item := Ok (Num (rb_quad_unpack bytes false)).
Definition dec_pointer (bytes : list Z) : outcome item := if le_val bytes =? 0 then Ok Nil else Delegate.

(** Size and reader of the directives with a [PACK_LENGTH_ADJUST]; only [q]
    and [Q] compare signed numbers. *)
Definition decoder (type : Z) : option (Z * (list Z -> outcome item)) :=
  if type =? 99 then Some (1, dec_c)                             (* 'c' *)
  else if type =? 67 then Some (1, dec_C)                        (* 'C' *)
  else if type =? 115 then Some (2, dec_s)                       (* 's' *)
  else if type =? 83 then Some (2, dec_S)                        (* 'S' *)
  else if (type =? 105) || (type =? 108) then Some (4, dec_l)    (* 'i' 'l' *)
  else if (type =? 73) || (type =? 76) then Some (4, dec_L)      (* 'I' 'L' *)
  else if type =? 113 then Some (8, dec_q)                       (* 'q' *)
  else if type =? 81 then Some (8, dec_Q)                        (* 'Q' *)
  else if type =? 110 then Some (2, dec_n)                       (* 'n' *)
  else if type =? 78 then Some (4, dec_N)                        (* 'N' *)
  else if type =? 118 then Some (2, dec_S)                       (* 'v' *)
  else if type =? 86 then Some (4, dec_L)                        (* 'V' *)
  else if one_of [102; 70; 101; 103] type then Some (4, fun bytes => Ok (Flo type bytes))   (* 'fFeg' *)
  else if one_of [69; 68; 100; 71] type then Some (8, fun bytes => Ok (Flo type bytes))   (* 'EDdG' *)
  else None.

Definition unpack_numbers (type sz : Z) (dec : list Z -> outcome item) (s len : Z) (star : bool) :
    outcome (list item * Z) :=
  let quad := (type =? 113) || (type =? 81) in
  let '(len, tmp) := length_adjust (negb quad) sz s len star in
  '(xs, s) <- read_each (Z.to_nat len) sz dec s ;;
  Ok (xs ++ (if type =? 81 then [] else item_adjust tmp), s).

(** [while (len > 0 && s < send)]; the fuel is the length of the string. *)
Fixpoint unpack_U (fuel : nat) (len : Z) (p : list Z) : outcome (list item * list Z) :=
  match fuel, p with
  | S fuel, _ :: _ =>
      if 0 <? len then
        '(l, alen) <- utf8_to_uv p (Z.of_nat (length p)) ;;
        '(xs, p) <- unpack_U fuel (len - 1) (skipn (Z.to_nat alen) p) ;;
        Ok (Num (rb_uint2inum l) :: xs, p)
      else Ok ([], p)
  | _, _ => Ok ([], p)
  end.

(** BER: [big] holds the number once [ul] would overflow. *)
Definition ulmask : Z := 4261412864.

Fixpoint unpack_w (len ul : Z) (big : option VALUE) (p : list Z) : outcome (list item * list Z) :=
  match p with
  | [] => Ok ([], p)
  | c :: p' =>
      match big with
      | None =>
          if 0 <? len then
            let ul := Z.lor (u32 (Z.shiftl ul 7)) (Z.land c 127) in
            if Z.land c 128 =? 0 then
              '(xs, p) <- unpack_w (len - 1) 0 None p' ;; Ok (Num (rb_uint2inum ul) :: xs, p)
            else if negb (Z.land ul ulmask =? 0) then unpack_w len ul (Some (Big (rb_uint2big ul))) p'
            else unpack_w len ul None p'
          else Ok ([], p)
      | Some big =>
          big <- rb_big_mul big big128 ;;
          big <- match big with
                 | Big b => rb_big_plus b (Big (rb_uint2big (Z.land c 127)))
                 | _ => Undefined
                 end ;;
          if Z.land c 128 =? 0 then
            '(xs, p) <- unpack_w (len - 1) 0 None p' ;; Ok (Num big :: xs, p)
          else unpack_w len ul (Some big) p'
      end
  end.

(** The switch. *)
Definition unpack_directive (type len : Z) (star : bool) (s : Z) : outcome (list item * Z) :=
  let avail := send - s in
  match decoder type with
  | Some (sz, dec) => unpack_numbers type sz dec s len star
  | None =>
      if type =? 37 then Raise ArgumentError                                       (* '%' *)
      else if type =? 65 then unpack_A s len                                       (* 'A' *)
      else if type =? 90 then unpack_Z s len star                                  (* 'Z' *)
      else if type =? 97 then unpack_a s len                                       (* 'a' *)
      else if type =? 98 then unpack_b s len star                                  (* 'b' *)
      else if type =? 66 then unpack_B s len star                                  (* 'B' *)
      else if type =? 104 then unpack_h s len star                                 (* 'h' *)
      else if type =? 72 then unpack_H s len star                                  (* 'H' *)
      else if type =? 85 then                                                      (* 'U' *)
        p <- bytes_at s ;;
        '(xs, rest) <- unpack_U (length p) (if avail <? len then avail else len) p ;;
        Ok (xs, s + Z.of_nat (length p) - Z.of_nat (length rest))
      else if type =? 117 then                                                     (* 'u' *)
        p <- bytes_at s ;;
        '(out, rest, past) <- uu_decode p ;;
        Ok ([Str out], s + Z.of_nat (length p) - Z.of_nat (length rest) + (if past : bool then 1 else 0))
      else if type =? 109 then                                                     (* 'm' *)
        p <- bytes_at s ;;
        '(out, rest) <- b64_decode p ;;
        Ok ([Str out], s + Z.of_nat (length p) - Z.of_nat (length rest))
      else if type =? 77 then                                                      (* 'M' *)
        if avail <? 0 then Raise ArgumentError
        else
          p <- bytes_at s ;;
          let '(out, rest) := qp_decode p in
          Ok ([Str out], s + Z.of_nat (length p) - Z.of_nat (length rest))
      else if type =? 64 then                                                      (* '@' *)
        if send <? len then Raise ArgumentError else Ok ([], len)
      else if type =? 88 then                                                      (* 'X' *)
        if s <? len then Raise ArgumentError else Ok ([], s - len)
      else if type =? 120 then                                                     (* 'x' *)
        if avail <? len then Raise ArgumentError else Ok ([], s + len)
      else if type =? 80 then                                                      (* 'P' *)
        if 4 <=? u32 avail then read_each 1 4 dec_pointer s else Ok ([], s)
      else if type =? 112 then                                                     (* 'p' *)
        let n := u32 avail / 4 in
        let len := if n <? u32 len then s32 n else len in
        read_each (Z.to_nat len) 4 dec_pointer s
      else if type =? 119 then                                                     (* 'w' *)
        p <- bytes_at s ;;
        '(xs, rest) <- unpack_w len 0 None p ;;
        Ok (xs, s + Z.of_nat (length p) - Z.of_nat (length rest))
      else Ok ([], s)
  end.

Definition unpack_count (type s : Z) (p : list Z) : Z * bool * list Z :=
  match p with
  | [] => (1, false, p)
  | c :: _ =>
      if c =? STAR then (send - s, true, tl p)
      else if ISDIGIT c then let '(n, p) := read_count p in (n, false, p)
      else (if type =? 64 then 0 else 1, false, p)
  end.

Fixpoint unpack_loop (fuel : nat) (p : list Z) (s : Z) : outcome (list item) :=
  match p with
  | [] => Ok []
  | type :: p =>
      match fuel with
      | O => Undefined
      | S fuel =>
          if ISSPACE type then unpack_loop fuel p s
          else if type =? HASH then unpack_loop fuel (skip_comment p) s
          else
            p <- skip_native type p ;;
            let '(len, star, p) := unpack_count type s p in
            '(xs, s) <- unpack_directive type len star s ;;
            ary <- unpack_loop fuel p s ;;
            Ok (xs ++ ary)
      end
  end.

Definition pack_unpack (fmt : list Z) : outcome (list item) := unpack_loop (length fmt) fmt 0.
End Unpack.
