(* ===== verification/PackRound.v ===== *)
(** * Packing and unpacking: round trips

    What [String#unpack] reads from the string [Array#pack] wrote with the
    same template: numbers in all integer directives, and strings of bit and
    hex digits. *)

From Stdlib Require Import ZArith Lia List Bool.
From S2P Require Import Prelude CInt Digits Bignum BigAdd BigMul BigDiv BigStr Fixnum Digest PackText Pack.
Import ListNotations.
Local Open Scope Z_scope.
Local Open Scope outcome_scope.

(** ** Numbers: what is unpacked is what was packed, reduced to the width of
    the directive *)

Lemma one_of_In l c : one_of l c = true -> In c l.
Proof. unfold one_of. rewrite existsb_exists. intros (x & Hx & E). now apply Z.eqb_eq in E as ->. Qed.

Lemma num2i32_ok v : integral v -> canonical v -> Z.abs (value v) < 4294967296 -> num2i32 (Num v) = Ok (u32 (value v)).
Proof.
  intros HI HC HV. destruct v as [n|b|o]; [reflexivity| |contradiction].
  destruct HC as (Hd & HN & HF). cbn [num2i32 value] in *. unfold rb_big2ulong_pack. rewrite big2ulong_spec by auto.
  pose proof (eval_nonneg _ Hd) as Hp.
  assert (HE : Z.abs (big_val b) = eval (digits b)) by (unfold big_val; destruct (sign b); lia).
  assert (HL : (length (digits b) <= 2)%nat).
  { destruct (digits b) as [|d ds] eqn:Eds; [cbn; lia|]. rewrite <- Eds in *.
    pose proof (normalized_lower (digits b) Hd ltac:(now rewrite Eds) HN) as HB.
    destruct (Nat.le_gt_cases (length (digits b)) 2); auto.
    pose proof (radix_mono 2 (length (digits b) - 1) ltac:(lia)). change (radix 2) with 4294967296 in *. lia. }
  rewrite (proj2 (Z.ltb_ge _ _)) by (unfold len; lia). cbn [bind]. unfold big_val in *.
  destruct (sign b); [now rewrite u32_small by lia|reflexivity].
Qed.

(** The number [bytes] stand for, at any place of a string. *)
Definition decodes (type : Z) (bytes : list Z) (w : item) : Prop :=
  forall pre post, Forall byte post -> Z.of_nat (length (pre ++ bytes ++ post)) <= LONG_MAX ->
  unpack_directive (pre ++ bytes ++ post) type 1 false (Z.of_nat (length pre)) =
    Ok ([w], Z.of_nat (length (pre ++ bytes))).

Lemma rb_str_new_middle pre bytes post : bytes <> [] ->
  rb_str_new (pre ++ bytes ++ post) (Z.of_nat (length pre)) (Z.of_nat (length bytes)) = Ok bytes.
Proof.
  intros Hne. unfold rb_str_new. destruct bytes as [|c bytes]; [easy|]. cbn [length].
  rewrite (proj2 (Z.ltb_ge _ _)), (proj2 (Z.eqb_neq _ _)) by lia.
  rewrite (proj2 (Z.ltb_ge (Z.of_nat (length pre)) 0)), (proj2 (Z.ltb_ge _ _)) by (rewrite ?length_app; cbn [length]; lia).
  cbn [orb]. rewrite !Nat2Z.id, skipn_app, skipn_all, Nat.sub_diag. cbn [app skipn].
  change (c :: bytes ++ post) with ((c :: bytes) ++ post). change (S (length bytes)) with (length (c :: bytes)).
  rewrite firstn_app, Nat.sub_diag, firstn_all. cbn [firstn]. now rewrite app_nil_r.
Qed.

Lemma unpack_number type sz dec bytes w : decoder type = Some (sz, dec) -> 0 < sz ->
  Z.of_nat (length bytes) = sz -> dec bytes = Ok w -> decodes type bytes w.
Proof.
  intros HD Hsz HL Hw pre post _ Hmax. unfold LONG_MAX in Hmax. unfold unpack_directive. rewrite HD. unfold unpack_numbers, length_adjust.
  assert (HA : Z.of_nat (length (pre ++ bytes ++ post)) - Z.of_nat (length pre) >= sz)
    by (rewrite !length_app, !Nat2Z.inj_add; lia).
  set (avail := Z.of_nat (length (pre ++ bytes ++ post)) - Z.of_nat (length pre)) in *.
  assert (HQ : 1 <= avail / sz) by (apply Z.div_le_lower_bound; lia).
  rewrite u32_small by lia. unfold cdiv. rewrite Z.quot_div_nonneg by lia. rewrite (u32_small 1) by lia.
  match goal with |- context [if ?over then (s32 _, _) else _] => assert (HO : over = false) end.
  { destruct (negb _); apply Z.ltb_ge; lia. }
  rewrite HO.
  change (Z.to_nat 1) with 1%nat. cbn [read_each]. rewrite <- HL, rb_str_new_middle by (intros ->; cbn in HL; lia).
  cbn [bind]. rewrite Hw. cbn [bind]. rewrite length_app, Nat2Z.inj_add.
  destruct (type =? 81); reflexivity.
Qed.

Lemma le_val_store n v : integral v -> canonical v -> Z.abs (value v) < 4294967296 -> (n <= 4)%nat ->
  store_low n (Num v) = Ok (le_bytes n (u32 (value v))) /\
  le_val (le_bytes n (u32 (value v))) = value v mod 256 ^ Z.of_nat n.
Proof.
  intros HI HC HV Hn. unfold store_low. rewrite num2i32_ok by auto. split; [reflexivity|].
  rewrite le_val_le_bytes. unfold u32.
  assert (HD : 4294967296 = 256 ^ Z.of_nat n * 256 ^ (4 - Z.of_nat n)).
  { rewrite <- Z.pow_add_r by lia. now replace (Z.of_nat n + (4 - Z.of_nat n)) with 4 by lia. }
  rewrite HD, Z.rem_mul_r by lia. rewrite Z.mul_comm, Z.mod_add by lia. now rewrite Z.mod_mod by lia.
Qed.

Lemma returns_uint z : 0 <= z < 4294967296 -> returns (Ok (rb_uint2inum z)) z.
Proof.
  intros H. unfold rb_uint2inum. destruct (POSFIXABLE z) eqn:EF.
  - apply returns_Fix. apply FIXABLE_iff. unfold POSFIXABLE in EF. rewrite FIXNUM_MAX_eq in EF. breflect. lia.
  - destruct (uint2big_spec z H) as ((Hd & _ & HO) & HE & HS).
    exists (Big (rb_uint2big z)). assert (HV : big_val (rb_uint2big z) = z) by (unfold big_val; now rewrite HS).
    splits; auto; [exact I|]. unfold POSFIXABLE in EF. rewrite FIXNUM_MAX_eq in EF. breflect.
    cbn [value canonical]. rewrite HV. destruct HO as [HN|HZ]; [|rewrite HZ in HE; cbn in HE; lia].
    splits; auto. apply not_true_iff_false. rewrite FIXABLE_iff. lia.
Qed.

(** The bytes of a word in the other order. *)
Lemma land_field x m k : 0 <= m -> 0 <= k -> Z.land x (Z.ones m * 2 ^ k) = x / 2 ^ k mod 2 ^ m * 2 ^ k.
Proof.
  intros Hm Hk. rewrite <- !Z.shiftl_mul_pow2, <- Z.shiftr_div_pow2, <- Z.land_ones by lia.
  apply Z.bits_inj'. intros n Hn. rewrite Z.land_spec, !Z.shiftl_spec by lia.
  destruct (Z.lt_ge_cases n k); [rewrite !(Z.testbit_neg_r _ (n - k)) by lia; apply andb_false_r|].
  rewrite Z.land_spec, Z.shiftr_spec by lia. now replace (n - k + k) with n by lia.
Qed.

Lemma land_255 x : Z.land x 255 = x mod 256.
Proof. change 255 with (Z.ones 8). now rewrite Z.land_ones by lia. Qed.

Lemma swap16_eq x : swap16 x = x mod 256 * 256 + x / 256 mod 256.
Proof.
  unfold swap16. rewrite !land_255, Z.shiftl_mul_pow2, Z.shiftr_div_pow2 by lia. change (2 ^ 8) with 256.
  pose proof (Z.mod_pos_bound (x / 256) 256 ltac:(lia)). exact (lor_fields (x mod 256) (x / 256 mod 256) 8 ltac:(lia) ltac:(lia)).
Qed.

Lemma lor_reorder a b c d : Z.lor (Z.lor (Z.lor a d) b) c = Z.lor a (Z.lor b (Z.lor c d)).
Proof.
  apply Z.bits_inj'. intros n _. rewrite !Z.lor_spec.
  now destruct (Z.testbit a n), (Z.testbit b n), (Z.testbit c n), (Z.testbit d n).
Qed.

Lemma swap32_eq x : 0 <= x < 4294967296 ->
  swap32 x = x mod 256 * 16777216 + x / 256 mod 256 * 65536 + x / 65536 mod 256 * 256 + x / 16777216.
Proof.
  intros Hx. unfold swap32.
  rewrite !land_255. change 65280 with (Z.ones 8 * 2 ^ 8). change 16711680 with (Z.ones 8 * 2 ^ 16). rewrite !land_field by lia.
  rewrite !Z.shiftl_mul_pow2, !Z.shiftr_div_pow2 by lia.
  change (2 ^ 8) with 256. change (2 ^ 16) with 65536. change (2 ^ 24) with 16777216.
  rewrite u32_small by (Z.div_mod_to_equations; lia). rewrite (Z.mod_small (x / 16777216)) by (Z.div_mod_to_equations; lia).
  replace (x / 65536 mod 256 * 65536 / 256) with (x / 65536 mod 256 * 256) by (Z.div_mod_to_equations; lia).
  set (a := x mod 256). set (b := x / 256 mod 256). set (c := x / 65536 mod 256). set (d := x / 16777216).
  assert (HB : 0 <= a < 256 /\ 0 <= b < 256 /\ 0 <= c < 256 /\ 0 <= d < 256)
    by (unfold a, b, c, d; Z.div_mod_to_equations; lia).
  rewrite lor_reorder.
  assert (E1 : Z.lor (c * 256) d = c * 256 + d) by (apply (lor_fields c d 8); lia). rewrite E1.
  replace (b * 256 * 256) with (b * 65536) by lia.
  assert (E2 : Z.lor (b * 65536) (c * 256 + d) = b * 65536 + (c * 256 + d)) by (apply (lor_fields b _ 16); lia). rewrite E2.
  assert (E3 : Z.lor (a * 16777216) (b * 65536 + (c * 256 + d)) = a * 16777216 + (b * 65536 + (c * 256 + d)))
    by (apply (lor_fields a _ 24); lia).
  rewrite E3. lia.
Qed.

(** A word stored in network order is read back through the same exchange. *)
Lemma pack_n_bytes x : 0 <= x < 65536 -> swap16 (u16 (swap16 x)) = x /\ 0 <= u16 (swap16 x) < 65536.
Proof.
  intros H. split; [|apply u16_bound]. rewrite !swap16_eq. unfold u16. Z.div_mod_to_equations. lia.
Qed.

Lemma swap32_twice x : 0 <= x < 4294967296 -> swap32 (swap32 x) = x /\ 0 <= swap32 x < 4294967296.
Proof.
  intros H. assert (HB : 0 <= swap32 x < 4294967296) by (rewrite swap32_eq by auto; Z.div_mod_to_equations; lia).
  split; [|exact HB]. rewrite (swap32_eq (swap32 x)) by auto. rewrite swap32_eq by auto.
  set (a := x mod 256). set (b := x / 256 mod 256). set (c := x / 65536 mod 256). set (d := x / 16777216).
  assert (HC : 0 <= a < 256 /\ 0 <= b < 256 /\ 0 <= c < 256 /\ 0 <= d < 256 /\ x = d * 16777216 + c * 65536 + b * 256 + a)
    by (unfold a, b, c, d; Z.div_mod_to_equations; lia).
  destruct HC as (Ha & Hb & Hc & Hd & Hx). clearbody a b c d. Z.div_mod_to_equations. lia.
Qed.

(** [v] is written as [bytes], which are read back as [w]. *)
Definition packs (type : Z) (v : VALUE) (bytes : list Z) (w : VALUE) : Prop :=
  exists enc, pack_encoder type = Some enc /\ enc (Num v) = Ok bytes /\ Forall byte bytes /\
    decodes type bytes (Num w).

Definition word_types : list Z := [99; 67; 115; 83; 105; 73; 108; 76; 110; 78; 118; 86].

(** The number a directive makes of an integer. *)
Definition reduced (type z : Z) : Z :=
  if type =? 99 then s8 z
  else if type =? 67 then u8 z
  else if type =? 115 then s16 z
  else if one_of [83; 110; 118] type then u16 z
  else if one_of [105; 108] type then s32 z
  else if one_of [73; 76; 78; 86] type then u32 z
  else z.

(** The integers a directive accepts and, but for the reduction, keeps. *)
Definition in_domain (type z : Z) : Prop :=
  if one_of word_types type then Z.abs z < 4294967296
  else if type =? 113 then 2 * Z.abs z < 18446744073709551616
  else if type =? 81 then 0 <= z < 18446744073709551616
  else if type =? 85 then 0 <= z <= 2147483647
  else if type =? 119 then 0 <= z
  else False.

Lemma store_packs type n dec v w : pack_encoder type = Some (store_low n) -> decoder type = Some (Z.of_nat n, dec) ->
  (1 <= n <= 4)%nat -> integral v -> canonical v -> Z.abs (value v) < 4294967296 ->
  (forall bytes, le_val bytes = value v mod 256 ^ Z.of_nat n -> dec bytes = Ok (Num w)) ->
  packs type v (le_bytes n (u32 (value v))) w.
Proof.
  intros HE HD Hn HI HC HV Hw. destruct (le_val_store n v HI HC HV ltac:(lia)) as [HS HL].
  exists (store_low n). splits; auto using le_bytes_byte.
  eapply unpack_number; [exact HD|lia|now rewrite le_bytes_length|now apply Hw].
Qed.

Lemma u16_u32 z : u16 (u32 z) = u16 z.
Proof. unfold u16, u32. Z.div_mod_to_equations. lia. Qed.
Lemma s8_mod z : s8 (z mod 256) = s8 z.
Proof. unfold s8. now rewrite Zplus_mod_idemp_l. Qed.
Lemma s16_mod z : s16 (z mod 65536) = s16 z.
Proof. unfold s16, swrap. change (2 ^ 16) with 65536. now rewrite Zplus_mod_idemp_l. Qed.
Lemma s16_bound z : -32768 <= s16 z < 32768.
Proof.
  unfold s16, swrap. change (2 ^ 16) with 65536. change (2 ^ (16 - 1)) with 32768.
  pose proof (Z.mod_pos_bound (z + 32768) 65536). lia.
Qed.
Lemma s32_mod z : s32 (z mod 4294967296) = s32 z.
Proof. exact (s32_u32 z). Qed.

Lemma Fix_returns n : -1073741824 <= n <= 1073741823 -> returns (Ok (Fix n)) n.
Proof. intros H. apply returns_Fix. now apply FIXABLE_iff. Qed.

(** [solve_word n]: a directive that stores the low [n] bytes. *)
Ltac solve_word n :=
  eexists _, _; split;
  [eapply (store_packs _ n); [reflexivity|reflexivity|lia|assumption|assumption|assumption|];
   intros bytes HB; cbn in HB; unfold dec_c, dec_C, dec_s, dec_S, dec_l, dec_L; rewrite HB; reflexivity|].

Lemma word_packs type v : In type word_types -> integral v -> canonical v -> Z.abs (value v) < 4294967296 ->
  exists bytes w, packs type v bytes w /\ returns (Ok w) (reduced type (value v)).
Proof.
  intros HT HI HC HV. pose proof (u8_bound (value v)). pose proof (u16_bound (value v)). pose proof (u32_bound (value v)).
  pose proof (s32_bound (value v)). unfold word_types in HT. cbn [In] in HT.
  destruct HT as [<-|[<-|[<-|[<-|[<-|[<-|[<-|[<-|[<-|[<-|[<-|[<-|[]]]]]]]]]]]]].
  - solve_word 1%nat. cbn. rewrite s8_mod.
    assert (HS : -128 <= s8 (value v) < 128) by (unfold s8; pose proof (Z.mod_pos_bound (value v + 128) 256); lia).
    rewrite (proj2 (Z.ltb_ge _ _)) by lia. apply Fix_returns. lia.
  - solve_word 1%nat. cbn. apply Fix_returns. unfold u8 in *. lia.
  - solve_word 2%nat. cbn. rewrite s16_mod. pose proof (s16_bound (value v)). apply Fix_returns. lia.
  - solve_word 2%nat. cbn. apply Fix_returns. unfold u16 in *. lia.
  - solve_word 4%nat. cbn. rewrite s32_mod. apply LONG2NUM_ok. unfold LONG_MIN, LONG_MAX. lia.
  - solve_word 4%nat. cbn. apply returns_uint. unfold u32 in *. lia.
  - solve_word 4%nat. cbn. rewrite s32_mod. apply LONG2NUM_ok. unfold LONG_MIN, LONG_MAX. lia.
  - solve_word 4%nat. cbn. apply returns_uint. unfold u32 in *. lia.
  - eexists _, _; split; [|cbn; apply returns_uint; unfold u16 in *; lia].
    exists pack_n. unfold pack_n. rewrite num2i32_ok by auto. cbn [bind].
    destruct (pack_n_bytes (u16 (value v)) ltac:(auto)) as [ES EB]. rewrite u16_u32. splits; auto using le_bytes_byte.
    eapply (unpack_number _ 2); [reflexivity|lia|reflexivity|]. unfold dec_n. rewrite le_val_le_bytes.
    change (256 ^ Z.of_nat 2) with 65536. rewrite Z.mod_small by lia. now rewrite ES.
  - eexists _, _; split; [|cbn; apply returns_uint; unfold u32 in *; lia].
    exists pack_N. unfold pack_N. rewrite num2i32_ok by auto. cbn [bind].
    destruct (swap32_twice (u32 (value v)) ltac:(auto)) as [ES EB]. splits; auto using le_bytes_byte.
    eapply (unpack_number _ 4); [reflexivity|lia|reflexivity|]. unfold dec_N. rewrite le_val_le_bytes.
    change (256 ^ Z.of_nat 4) with 4294967296. rewrite Z.mod_small by lia. now rewrite ES.
  - solve_word 2%nat. cbn. apply Fix_returns. unfold u16 in *. lia.
  - solve_word 4%nat. cbn. apply returns_uint. unfold u32 in *. lia.
Qed.

(** *** Quad words *)

Lemma bytes_of_digits_byte ds : Forall digit ds -> Forall byte (bytes_of_digits ds) /\ length (bytes_of_digits ds) = (2 * length ds)%nat.
Proof.
  induction 1 as [|d ds Hd Hds [IH1 IH2]]; [split; constructor|]. unfold bytes_of_digits in *. cbn [flat_map app length].
  unfold digit, BIGRAD in Hd. split; [|lia].
  constructor; [|constructor]; auto; unfold byte; Z.div_mod_to_equations; lia.
Qed.

Lemma quad_packs (sgn : bool) type v : type = (if sgn then 113 else 81) -> integral v -> canonical v ->
  (if sgn then 2 * Z.abs (value v) < radix 4 else 0 <= value v < radix 4) ->
  exists bytes, packs type v bytes v.
Proof.
  intros HT HI HC HV. destruct (quad_unpack_pack v sgn HI HC HV) as (buf & HP & HU).
  destruct (rb_quad_pack_spec v HI HC ltac:(destruct sgn; lia)) as (ds & HP' & Hd & HL & _).
  rewrite HP in HP'. injection HP' as HB.
  assert (HF : Forall byte buf /\ length buf = 8%nat).
  { rewrite HB. destruct (value v <? 0); (edestruct bytes_of_digits_byte as [H1 H2]; [|split; [exact H1|rewrite H2, ?length_map; lia]]);
      auto using compl_digits_ok. }
  destruct HF as [HF H8]. exists buf, pack_q.
  splits; [subst type; destruct sgn; reflexivity|exact HP|exact HF|].
  apply (unpack_number _ 8 (if sgn then dec_q else dec_Q)); [subst type; destruct sgn; reflexivity|lia|rewrite H8; reflexivity|].
  unfold dec_q, dec_Q. destruct sgn; now rewrite HU.
Qed.

(** *** UTF-8 *)

Lemma cont_bytes_byte k uv : Forall byte (cont_bytes k uv).
Proof.
  revert uv; induction k as [|k IH]; intros uv; cbn [cont_bytes]; [constructor|]. apply Forall_app. split; auto.
  constructor; [|constructor]. pose proof (Z.mod_pos_bound uv 64). unfold byte. lia.
Qed.

Lemma utf8_bytes_byte uv : 0 <= uv <= 2147483647 -> Forall byte (utf8_bytes uv).
Proof.
  intros H. unfold utf8_bytes. constructor; [|apply cont_bytes_byte]. unfold byte.
  destruct (Z.le_gt_cases uv 127).
  - unfold utf8_size. rewrite (proj2 (Z.leb_le _ _)) by lia. cbn -[Z.div]. rewrite Z.div_1_r. lia.
  - destruct (utf8_size_mark uv H) as (_ & Hc & _); lia.
Qed.

(** The bytes at a position in the middle of the string. *)
Lemma bytes_at_middle pre rest : bytes_at (pre ++ rest) (Z.of_nat (length pre)) = Ok rest.
Proof.
  unfold bytes_at. rewrite (proj2 (Z.ltb_ge _ 0)), (proj2 (Z.ltb_ge _ _)) by (rewrite ?length_app; lia). cbn [orb].
  now rewrite Nat2Z.id, skipn_app, skipn_all, Nat.sub_diag.
Qed.

Lemma after_middle (pre bytes post : list Z) :
  Z.of_nat (length pre) + Z.of_nat (length (bytes ++ post)) - Z.of_nat (length post) = Z.of_nat (length (pre ++ bytes)).
Proof. rewrite !length_app. lia. Qed.

Lemma utf8_packs v : integral v -> canonical v -> 0 <= value v <= 2147483647 ->
  exists bytes w, packs 85 v bytes w /\ returns (Ok w) (value v).
Proof.
  intros HI HC HV. exists (utf8_bytes (value v)), (rb_uint2inum (value v)).
  split; [|apply returns_uint; lia]. exists pack_U. splits; [reflexivity| |now apply utf8_bytes_byte|].
  - unfold pack_U, to_int. cbn [bind]. rewrite NUM2LONG_ok by auto. unfold LONG_MIN, LONG_MAX.
    rewrite (proj2 (Z.leb_le _ _)), (proj2 (Z.leb_le _ 2147483647)) by lia. cbn [andb bind].
    rewrite (proj2 (Z.ltb_ge _ _)) by lia. now apply uv_to_utf8_bytes.
  - intros pre post Hpost _. unfold unpack_directive. cbn [decoder Z.eqb Pos.eqb orb one_of existsb].
    rewrite bytes_at_middle. cbn [bind]. set (bytes := utf8_bytes (value v)).
    assert (HN : (1 <= length bytes)%nat) by (unfold bytes, utf8_bytes; cbn [length]; lia).
    rewrite (proj2 (Z.ltb_ge _ _)) by (rewrite !length_app; lia).
    destruct (bytes ++ post) as [|c q] eqn:Eq; [apply (f_equal (@length Z)) in Eq; rewrite length_app in Eq; cbn in Eq; lia|].
    cbn [length unpack_U]. rewrite <- Eq. change (S (length q)) with (length (c :: q)). rewrite <- Eq.
    change (0 <? 1) with true. cbv iota.
    rewrite utf8_to_uv_read by (apply Forall_app; split; [now apply utf8_bytes_byte|auto]).
    unfold bytes. rewrite utf8_read_encoded by auto. cbn [bind]. fold bytes. rewrite Nat2Z.id.
    rewrite skipn_app, skipn_all, Nat.sub_diag. cbn [app skipn].
    assert (HE : forall n, unpack_U n (1 - 1) post = Ok ([], post)) by (intros [|n]; destruct post; reflexivity).
    rewrite HE. cbn [bind]. now rewrite after_middle.
Qed.

(** *** BER *)

Definition septet (d : Z) : Prop := 0 <= d < 128.
Definition continued (d : Z) : Z := d + 128.

(** Base 128, least and most significant digit first. *)
Fixpoint le128 (ds : list Z) : Z := match ds with [] => 0 | d :: ds => d + 128 * le128 ds end.
Definition horner128 (h : Z) (ds : list Z) : Z := fold_left (fun a d => a * 128 + d) ds h.

Lemma le128_app a b : le128 (a ++ b) = le128 a + 128 ^ Z.of_nat (length a) * le128 b.
Proof.
  induction a as [|d a IH]; cbn [app le128 length]; [lia|].
  rewrite IH, Nat2Z.inj_succ, Z.pow_succ_r by lia. lia.
Qed.

Lemma horner128_rev ds : horner128 0 (rev ds) = le128 ds.
Proof.
  unfold horner128. induction ds as [|d ds IH]; [reflexivity|]. cbn [rev]. rewrite fold_left_app, IH.
  cbn [fold_left le128]. lia.
Qed.

Lemma continued_bits d : septet d ->
  u8 (Z.lor d 128) = continued d /\ Z.land (continued d) 127 = d /\ Z.land (continued d) 128 = 128 /\
  Z.land d 127 = d /\ Z.land d 128 = 0.
Proof.
  unfold septet. intros H. splits; finite d 0 128%nat; lia.
Qed.

Lemma ber_long_spec fuel ul buf : 0 <= ul < 128 ^ Z.of_nat fuel ->
  exists ds, ber_long fuel ul buf = Ok (buf ++ map continued ds) /\ Forall septet ds /\ le128 ds = ul.
Proof.
  revert ul buf; induction fuel as [|fuel IH]; intros ul buf H.
  - assert (ul = 0) as -> by (cbn in H; lia). exists []. rewrite app_nil_r. splits; auto.
  - cbn [ber_long]. destruct (Z.eqb_spec ul 0) as [->|Hne].
    { exists []. rewrite app_nil_r. splits; auto. }
    rewrite Nat2Z.inj_succ, Z.pow_succ_r in H by lia. rewrite Z.shiftr_div_pow2 by lia. change (2 ^ 7) with 128.
    assert (E : Z.land ul 127 = ul mod 128) by (change 127 with (Z.ones 7); now rewrite Z.land_ones by lia). rewrite E.
    pose proof (Z.mod_pos_bound ul 128 ltac:(lia)) as HM. destruct (continued_bits (ul mod 128) HM) as (-> & _).
    destruct (IH (ul / 128) (buf ++ [continued (ul mod 128)])) as (ds & -> & HD & HV).
    { split; [apply Z.div_pos; lia|apply Z.div_lt_upper_bound; lia]. }
    exists (ul mod 128 :: ds). rewrite <- app_assoc. splits; auto.
    cbn [le128]. rewrite HV. pose proof (Z.div_mod ul 128). lia.
Qed.

(** One division by 128. *)
Lemma big128_divmod b : canonical (Big b) ->
  exists d m, rb_big_divmod b big128 = Ok (d, m) /\ returns (Ok d) (big_val b / 128) /\ returns (Ok m) (big_val b mod 128).
Proof.
  intros HC. destruct (uint2big_spec 128 ltac:(lia)) as (HO & HE & HS).
  destruct (bigdivmod_ok b (rb_uint2big 128) (canonical_big_ok b HC) HO ltac:(rewrite HE; lia)) as (d & m & HD & Dd & Dm & Vd & Vm).
  assert (HV : big_val (rb_uint2big 128) = 128) by (unfold big_val; now rewrite HS). rewrite HV in Vd, Vm.
  exists (bignorm (Big d)), (bignorm (Big m)). unfold rb_big_divmod, big128. cbn [int_operand bind].
  rewrite HD. cbn [bind]. splits; auto; now apply returns_bignorm.
Qed.

Lemma ber_big_spec fuel v buf : integral v -> canonical v -> 0 <= value v < 1073741824 * 128 ^ Z.of_nat fuel ->
  exists d ds, ber_big fuel v buf = Ok (Fix d, buf ++ map continued ds) /\ Forall septet ds /\ 0 <= d <= 1073741823 /\
    value v = le128 ds + 128 ^ Z.of_nat (length ds) * d.
Proof.
  revert v buf; induction fuel as [|fuel IH]; intros v buf HI HC HV; (destruct v as [n|b|o]; [| |contradiction]).
  1,3: apply FIXABLE_iff in HC; cbn [value] in *; exists n, []; cbn [ber_big map]; rewrite app_nil_r; splits; auto;
    try (destruct fuel; reflexivity); cbn; lia.
  - exfalso. destruct HC as (_ & _ & HF). apply not_true_iff_false in HF. apply HF, FIXABLE_iff. cbn in HV. lia.
  - cbn [ber_big value] in *. destruct (big128_divmod b HC) as (d & m & -> & (d' & [= <-] & Id & Cd & Vd) & (m' & [= <-] & Im & Cm & Vm)).
    cbn [bind]. pose proof (Z.mod_pos_bound (big_val b) 128 ltac:(lia)) as HM.
    rewrite NUM2LONG_ok, Vm by auto. unfold LONG_MIN, LONG_MAX.
    rewrite (proj2 (Z.leb_le _ _)), (proj2 (Z.leb_le _ 2147483647)) by lia. cbn [andb bind].
    destruct (continued_bits (big_val b mod 128) HM) as (-> & _).
    rewrite Nat2Z.inj_succ, Z.pow_succ_r in HV by lia.
    destruct (IH d (buf ++ [continued (big_val b mod 128)]) Id Cd) as (e & ds & -> & HD & HE & HS).
    { rewrite Vd. split; [apply Z.div_pos; lia|apply Z.div_lt_upper_bound; lia]. }
    exists e, (big_val b mod 128 :: ds). rewrite <- app_assoc. splits; auto; try lia.
    cbn [le128 length]. rewrite Nat2Z.inj_succ, Z.pow_succ_r by lia.
    rewrite Vd in HS. pose proof (Z.div_mod (big_val b) 128). lia.
Qed.

Lemma radix_128 n : radix n <= 128 ^ Z.of_nat (3 * n).
Proof.
  induction n as [|n IH]; [reflexivity|]. rewrite radix_S. replace (3 * S n)%nat with (3 + 3 * n)%nat by lia.
  rewrite Nat2Z.inj_add, Z.pow_add_r by lia. unfold BIGRAD. change (128 ^ Z.of_nat 3) with 2097152. nia.
Qed.

(** The digits of a number, most significant first, all but the last one with
    the continuation bit. *)
Lemma pack_w_spec v : integral v -> canonical v -> 0 <= value v ->
  exists d0 ds, pack_w (Num v) = Ok (map continued (rev ds) ++ [d0]) /\ septet d0 /\ Forall septet ds /\
    le128 (d0 :: ds) = value v.
Proof.
  intros HI HC HV. unfold pack_w.
  assert (HB : value v < 1073741824 * 128 ^ Z.of_nat (ber_fuel v)).
  { destruct v as [n|b|o]; [|  |contradiction].
    - apply FIXABLE_iff in HC. cbn in *. lia.
    - destruct HC as (Hd & _). cbn [value ber_fuel] in *. pose proof (eval_bound (digits b) Hd).
      pose proof (radix_128 (length (digits b))). unfold big_val in *. destruct (sign b); lia. }
  destruct (ber_big_spec (ber_fuel v) v [] HI HC (conj HV HB)) as (d & ds & -> & HD & Hd & HS). cbn [bind NUM2LONG app].
  rewrite (proj2 (Z.ltb_ge _ _)), u32_small by lia.
  destruct (ber_long_spec 5 d (map continued ds) ltac:(cbn; lia)) as (ds' & -> & HD' & HS'). cbn [bind].
  rewrite <- map_app. assert (HE : le128 (ds ++ ds') = value v) by (rewrite le128_app, HS'; lia).
  assert (HF : Forall septet (ds ++ ds')) by now apply Forall_app.
  destruct (ds ++ ds') as [|d0 D]; cbn [map].
  - exists 0, []. splits; auto. unfold septet; lia.
  - apply Forall_cons_iff in HF as [H0 HF]. exists d0, D. destruct (continued_bits d0 H0) as (_ & -> & _).
    cbn [rev]. rewrite map_rev. splits; auto.
Qed.

Lemma ulmask_zero ul : 0 <= ul < 4294967296 -> (Z.land ul ulmask =? 0) = (ul <? 33554432).
Proof.
  intros H. change ulmask with (Z.ones 7 * 2 ^ 25). rewrite land_field by lia. change (2 ^ 25) with 33554432. change (2 ^ 7) with 128.
  rewrite Z.mod_small by (Z.div_mod_to_equations; lia).
  destruct (Z.ltb_spec ul 33554432); [rewrite Z.div_small by lia; reflexivity|].
  apply Z.eqb_neq. Z.div_mod_to_equations. lia.
Qed.

Lemma ul_step ul d : 0 <= ul < 33554432 -> septet d -> Z.lor (u32 (Z.shiftl ul 7)) d = ul * 128 + d.
Proof.
  unfold septet. intros H Hd. rewrite Z.shiftl_mul_pow2, u32_small by (change (2 ^ 7) with 128; lia).
  apply (lor_fields ul d 7); lia.
Qed.

(** Numbers beyond a [long] accumulate in a Bignum. *)
Lemma big_step b d : Forall digit (digits b) -> 33554432 <= big_val b -> septet d ->
  exists b' b'', rb_big_mul (Big b) big128 = Ok (Big b') /\
    rb_big_plus b' (Big (rb_uint2big d)) = Ok (Big b'') /\
    canonical (Big b'') /\ big_val b'' = big_val b * 128 + d.
Proof.
  unfold septet. intros Hd HV HS. destruct (uint2big_spec 128 ltac:(lia)) as ((D1 & _) & E1 & S1).
  destruct (bigmul_spec b (rb_uint2big 128) Hd D1) as [Dm Vm].
  assert (HV1 : big_val (rb_uint2big 128) = 128) by (unfold big_val; now rewrite S1). rewrite HV1 in Vm.
  destruct (bignorm_spec _ Dm) as (I1 & C1 & V1). rewrite Vm in V1.
  unfold rb_big_mul, big128. cbn [int_operand bind].
  destruct (bignorm (Big (bigmul b (rb_uint2big 128)))) as [n|b'|o]; [|  |contradiction].
  { apply FIXABLE_iff in C1. cbn [value] in V1. lia. }
  exists b'. destruct (canonical_big_ok b' C1) as (D' & _). cbn [value] in V1.
  destruct (uint2big_spec d ltac:(lia)) as ((D2 & _) & E2 & S2).
  assert (HS' : sign b' = true).
  { destruct (sign b') eqn:ES; auto. unfold big_val in V1 at 1. rewrite ES in V1. pose proof (eval_nonneg _ D'). lia. }
  destruct (bigadd_spec b' (rb_uint2big d) true D' D2 ltac:(left; now rewrite HS', S2)) as [Da Va].
  assert (HV2 : big_val (rb_uint2big d) = d) by (unfold big_val; now rewrite S2). rewrite HV2, V1 in Va.
  destruct (bignorm_spec _ Da) as (I2 & C2 & V2). rewrite Va in V2.
  unfold rb_big_plus. cbn [int_operand bind].
  destruct (bignorm (Big (bigadd b' (rb_uint2big d) true))) as [n|b''|o]; [|  |contradiction].
  { apply FIXABLE_iff in C2. cbn [value] in V2. lia. }
  exists b''. splits; auto.
Qed.

(** Where the reader stands: in [ul], or in a Bignum. *)
Definition ber_state (ul h : Z) (big : option VALUE) : Prop :=
  match big with
  | None => ul = h /\ 0 <= h < 33554432
  | Some v => exists b, v = Big b /\ Forall digit (digits b) /\ big_val b = h /\ 33554432 <= h
  end.

Lemma unpack_w_continue len ul h big d p : 0 < len -> ber_state ul h big -> septet d ->
  exists ul' big', unpack_w len ul big (continued d :: p) = unpack_w len ul' big' p /\ ber_state ul' (h * 128 + d) big'.
Proof.
  intros Hlen HB HS. destruct (continued_bits d HS) as (_ & E1 & E2 & _). unfold septet in HS.
  destruct big as [v|]; cbn [ber_state unpack_w] in *; rewrite E1, E2.
  - destruct HB as (b & -> & Dd & HV & HL). destruct (big_step b d Dd ltac:(lia) HS) as (b' & b'' & -> & HP & HC & HV').
    cbn [bind]. rewrite HP. cbn [bind Z.eqb]. exists ul, (Some (Big b'')). split; auto. exists b''.
    destruct HC as (Dd' & _). splits; auto; lia.
  - destruct HB as [-> HB]. rewrite (proj2 (Z.ltb_lt 0 len) Hlen), ul_step, ulmask_zero by (auto; unfold septet; lia). cbn [Z.eqb].
    destruct (Z.ltb_spec (h * 128 + d) 33554432) as [HL|HL]; cbn [negb].
    + exists (h * 128 + d), None. split; [reflexivity|cbn; lia].
    + exists (h * 128 + d), (Some (Big (rb_uint2big (h * 128 + d)))). split; auto.
      destruct (uint2big_spec (h * 128 + d) ltac:(lia)) as ((Du & _) & EU & SU).
      exists (rb_uint2big (h * 128 + d)). unfold big_val. rewrite SU. auto.
Qed.

Lemma unpack_w_last len ul h big d p : 0 < len -> ber_state ul h big -> septet d ->
  exists w, returns (Ok w) (h * 128 + d) /\
    unpack_w len ul big (d :: p) = ('(xs, p) <- unpack_w (len - 1) 0 None p ;; Ok (Num w :: xs, p)).
Proof.
  intros Hlen HB HS. destruct (continued_bits d HS) as (_ & _ & _ & E1 & E2). unfold septet in HS.
  destruct big as [v|]; cbn [ber_state unpack_w] in *; rewrite E1, E2.
  - destruct HB as (b & -> & Dd & HV & HL). destruct (big_step b d Dd ltac:(lia) HS) as (b' & b'' & -> & HP & HC & HV').
    cbn [bind]. rewrite HP. cbn [bind]. exists (Big b''). split; [|reflexivity].
    exists (Big b''). splits; auto; [exact I|]. cbn. lia.
  - destruct HB as [-> HB]. rewrite (proj2 (Z.ltb_lt 0 len) Hlen), ul_step by (auto; unfold septet; lia).
    exists (rb_uint2inum (h * 128 + d)). split; [apply returns_uint; lia|reflexivity].
Qed.

Lemma unpack_w_number len ds d0 p : 0 < len -> Forall septet ds -> septet d0 -> forall ul h big, ber_state ul h big ->
  exists w, returns (Ok w) (horner128 h (ds ++ [d0])) /\
    unpack_w len ul big (map continued ds ++ d0 :: p) = ('(xs, p) <- unpack_w (len - 1) 0 None p ;; Ok (Num w :: xs, p)).
Proof.
  intros Hlen Hds H0. induction Hds as [|d ds Hd Hds IH]; intros ul h big HB; cbn [map app].
  - exact (unpack_w_last len ul h big d0 p Hlen HB H0).
  - destruct (unpack_w_continue len ul h big d (map continued ds ++ d0 :: p) Hlen HB Hd) as (ul' & big' & -> & HB').
    exact (IH ul' _ big' HB').
Qed.

Lemma ber_packs v : integral v -> canonical v -> 0 <= value v ->
  exists bytes w, packs 119 v bytes w /\ returns (Ok w) (value v).
Proof.
  intros HI HC HV. destruct (pack_w_spec v HI HC HV) as (d0 & ds & HP & H0 & Hds & HE).
  assert (Hr : Forall septet (rev ds)) by now apply Forall_rev.
  assert (HH : horner128 0 (rev ds ++ [d0]) = value v) by (rewrite <- HE; exact (horner128_rev (d0 :: ds))).
  destruct (unpack_w_number 1 (rev ds) d0 [] ltac:(lia) Hr H0 0 0 None ltac:(cbn; lia)) as (w & HW & _). rewrite HH in HW.
  exists (map continued (rev ds) ++ [d0]), w. split; [|exact HW]. exists pack_w. splits; [reflexivity|exact HP| |].
  - apply Forall_app. split.
    + apply Forall_map. eapply Forall_impl; [|exact Hr]. unfold septet, continued, byte. lia.
    + constructor; [|constructor]. unfold septet, byte in *. lia.
  - intros pre post Hpost _. unfold unpack_directive. cbn [decoder Z.eqb Pos.eqb orb one_of existsb].
    rewrite bytes_at_middle. cbn [bind]. rewrite <- (app_assoc _ [d0] post) at 1. cbn [app].
    destruct (unpack_w_number 1 (rev ds) d0 post ltac:(lia) Hr H0 0 0 None ltac:(cbn; lia)) as (w' & HW' & ->).
    rewrite HH in HW'. assert (w' = w) as ->.
    { destruct HW as (x & [= <-] & I1 & C1 & V1), HW' as (y & [= <-] & I2 & C2 & V2). apply canonical_unique; auto. congruence. }
    assert (HN : unpack_w (1 - 1) 0 None post = Ok ([], post)) by (destruct post; reflexivity).
    rewrite HN. cbn [bind]. now rewrite after_middle.
Qed.

(** *** Templates of numbers *)

Lemma numeric_packs type v : integral v -> canonical v -> in_domain type (value v) ->
  exists bytes w, packs type v bytes w /\ returns (Ok w) (reduced type (value v)).
Proof.
  intros HI HC HD. unfold in_domain in HD. destruct (one_of word_types type) eqn:EW.
  { apply word_packs; auto using one_of_In. }
  assert (HSame : type = 113 \/ type = 81 \/ type = 85 \/ type = 119 -> reduced type (value v) = value v)
    by (intros [-> | [-> | [-> | ->]]]; reflexivity).
  assert (HV : returns (Ok v) (value v)) by (exists v; auto).
  destruct (Z.eqb_spec type 113); [|destruct (Z.eqb_spec type 81); [|destruct (Z.eqb_spec type 85); [|destruct (Z.eqb_spec type 119); [|contradiction]]]];
    rewrite HSame by tauto; subst type.
  - destruct (quad_packs true 113 v eq_refl HI HC ltac:(exact HD)) as (bytes & HP). eauto.
  - destruct (quad_packs false 81 v eq_refl HI HC ltac:(exact HD)) as (bytes & HP). eauto.
  - now apply utf8_packs.
  - now apply ber_packs.
Qed.

Definition number_types : list Z := word_types ++ [113; 81; 85; 119].

Lemma in_domain_type type z : in_domain type z -> In type number_types.
Proof.
  unfold in_domain, number_types. intros H. apply in_or_app.
  destruct (one_of word_types type) eqn:E; [left; now apply one_of_In|right].
  destruct (Z.eqb_spec type 113) as [->|]; [now left|]. destruct (Z.eqb_spec type 81) as [->|]; [now right; left|].
  destruct (Z.eqb_spec type 85) as [->|]; [now right; right; left|].
  destruct (Z.eqb_spec type 119) as [->|]; [now right; right; right; left|contradiction].
Qed.

(** A character that is neither a modifier nor a count nor a space. *)
Definition plain_char (c : Z) : bool :=
  negb (ISSPACE c || (c =? HASH) || (c =? 95) || (c =? 33) || (c =? STAR) || ISDIGIT c || (c =? 64)).

Lemma number_types_plain type : In type number_types -> plain_char type = true.
Proof.
  assert (H : forallb plain_char number_types = true) by reflexivity.
  now apply (proj1 (forallb_forall _ _) H).
Qed.

(** What follows a directive without a count. *)
Definition no_count (p : list Z) : Prop := p = [] \/ plain_char (deref p) = true.

Lemma plain_char_facts c : plain_char c = true ->
  ISSPACE c = false /\ (c =? HASH) = false /\ (c =? 95) || (c =? 33) = false /\ (c =? STAR) = false /\
  ISDIGIT c = false /\ (c =? 64) = false.
Proof.
  unfold plain_char. intros H. apply negb_true_iff in H.
  repeat match goal with H : _ || _ = false |- _ => apply orb_false_elim in H as [H ?] end.
  splits; auto. now apply orb_false_iff.
Qed.

Lemma pack_step fuel type p res args : plain_char type = true -> no_count p ->
  pack_loop (S fuel) (type :: p) res args =
    ('(res, args) <- pack_directive type 1 false res args ;; pack_loop fuel p res args).
Proof.
  intros HT HP. destruct (plain_char_facts _ HT) as (H1 & H2 & _). cbn [pack_loop]. rewrite H1, H2.
  unfold skip_native, pack_count. destruct HP as [-> | HP]; [reflexivity|].
  destruct (plain_char_facts _ HP) as (_ & _ & H3 & H4 & H5 & _). rewrite H3. cbn [bind]. now rewrite H4, H5.
Qed.

Lemma unpack_step str fuel type p s : plain_char type = true -> no_count p ->
  unpack_loop str (S fuel) (type :: p) s =
    ('(xs, s) <- unpack_directive str type 1 false s ;; ary <- unpack_loop str fuel p s ;; Ok (xs ++ ary)).
Proof.
  intros HT HP. destruct (plain_char_facts _ HT) as (H1 & H2 & _ & _ & _ & H64). cbn [unpack_loop]. rewrite H1, H2.
  unfold skip_native, unpack_count. destruct HP as [-> | HP]; [reflexivity|].
  destruct (plain_char_facts _ HP) as (_ & _ & H3 & H4 & H5 & _). rewrite H3. cbn [bind].
  destruct p as [|c p]; [reflexivity|]. cbn [deref hd] in *. now rewrite H4, H5, H64.
Qed.

Lemma packs_directive type v bytes w res args : packs type v bytes w ->
  pack_directive type 1 false res (Num v :: args) = Ok (res ++ bytes, args).
Proof.
  intros (enc & HE & HB & _). unfold pack_directive. rewrite HE. change (Z.to_nat 1) with 1%nat.
  cbn [pack_each NEXTFROM bind]. now rewrite HB.
Qed.

(** The requirement on one element, and what comes back for it. *)
Definition numeric (type : Z) (v : VALUE) : Prop := integral v /\ canonical v /\ in_domain type (value v).
Definition comes_back (tv : Z * VALUE) (w : VALUE) : Prop := returns (Ok w) (reduced (fst tv) (value (snd tv))).

Lemma numbers_round_trip types vs : Forall2 numeric types vs -> exists bytes ws,
  Forall byte bytes /\ Forall2 comes_back (combine types vs) ws /\
  (forall fuel res, (length types <= fuel)%nat -> pack_loop fuel types res (map Num vs) = Ok (res ++ bytes)) /\
  (forall fuel pre, (length types <= fuel)%nat -> Z.of_nat (length (pre ++ bytes)) <= LONG_MAX ->
     unpack_loop (pre ++ bytes) fuel types (Z.of_nat (length pre)) = Ok (map Num ws)).
Proof.
  intros H. induction H as [|t v types vs (HI & HC & HD) H (bytes & ws & HB & HW & HP & HU)].
  - exists [], []. splits; try constructor; intros fuel ? _; [destruct fuel; now rewrite app_nil_r|intros _; now destruct fuel].
  - destruct (numeric_packs t v HI HC HD) as (b & w & HPk & HR).
    pose proof (number_types_plain t (in_domain_type _ _ HD)) as HT.
    assert (HN : no_count types).
    { destruct H as [|t' v' types vs (_ & _ & HD') H]; [now left|right].
      exact (number_types_plain t' (in_domain_type _ _ HD')). }
    assert (HPk' := HPk). destruct HPk' as (_ & _ & _ & Hb & Hdec).
    exists (b ++ bytes), (w :: ws). splits.
    + now apply Forall_app.
    + now constructor.
    + intros [|fuel] res Hf; [cbn in Hf; lia|]. cbn [map]. rewrite pack_step by auto.
      rewrite (packs_directive t v b w) by auto. cbn [bind]. rewrite HP by (cbn in Hf; lia). now rewrite app_assoc.
    + intros [|fuel] pre Hf Hmax; [cbn in Hf; lia|]. rewrite unpack_step by auto.
      rewrite (Hdec pre bytes HB Hmax). cbn [bind]. rewrite app_assoc in Hmax |- *.
      rewrite HU by (auto; cbn in Hf; lia). reflexivity.
Qed.



(** ** Bit and hex strings: packing what was unpacked *)

Section DigitStrings.
(** [2 ^ k] characters for a byte; the operations of one pair of directives. *)
Context (k : Z) (enter : Z -> Z -> Z) (shift : Z -> Z) (final : Z -> Z -> Z) (next digit : Z -> Z).
Context (Hk : 0 <= k).
Notation per := (2 ^ k).
Notation mask := (Z.ones k).

(** The characters of a byte. *)
Fixpoint shifted (n : nat) (bits : Z) : list Z :=
  match n with O => [] | S n => next bits :: shifted n (next bits) end.
Definition digits_of (c : Z) : list Z := map digit (s8 c :: shifted (Z.to_nat per - 1) (s8 c)).

(** The byte of these characters. *)
Definition byte_of (l : list Z) : Z :=
  u8 (enter (fold_left (fun byte c => shift (enter byte c)) (removelast l) 0) (last l 0)).

Context (Hbyte : forall c, byte c -> byte_of (digits_of c) = c).

Lemma mask_mod i : Z.land i mask = i mod per.
Proof. now apply Z.land_ones. Qed.

Lemma per_pos : 0 < per.
Proof. now apply Z.pow_pos_nonneg. Qed.

Lemma digit_loop_shifts m i bits n s : (forall j, 0 <= j < Z.of_nat m -> (i + j) mod per <> 0) ->
  exists bits', digit_loop next digit mask (m + n) i bits s =
    ('(out, r) <- digit_loop next digit mask n (i + Z.of_nat m) bits' s ;;
     Ok (map digit (shifted m bits) ++ out, r)).
Proof.
  revert i bits; induction m as [|m IH]; intros i bits H.
  - exists bits. rewrite Z.add_0_r. cbn [Nat.add map shifted app]. destruct (digit_loop _ _ _ _ _ _ _) as [[? ?]| | |]; reflexivity.
  - cbn [Nat.add digit_loop]. rewrite mask_mod.
    rewrite (proj2 (Z.eqb_neq _ 0)) by (specialize (H 0 ltac:(lia)); now rewrite Z.add_0_r in H).
    destruct (IH (i + 1) (next bits)) as (bits' & ->).
    { intros j Hj. specialize (H (j + 1) ltac:(lia)). now replace (i + 1 + j) with (i + (j + 1)) by lia. }
    exists bits'. replace (i + 1 + Z.of_nat m) with (i + Z.of_nat (S m)) by lia. rewrite bind_assoc.
    destruct (digit_loop _ _ _ _ _ _ _) as [[? ?]| | |]; reflexivity.
Qed.

Lemma shifts_inside i j : i mod per = 0 -> 0 < j < per -> (i + j) mod per <> 0.
Proof.
  intros Hi Hj. rewrite Z.add_mod, Hi by lia. rewrite Z.add_0_l, Z.mod_mod, Z.mod_small by lia. lia.
Qed.

Lemma next_multiple i : i mod per = 0 -> (i + per) mod per = 0.
Proof. intros Hi. rewrite <- (Z.mul_1_l per) at 1. now rewrite Z.mod_add by (pose proof per_pos; lia). Qed.

(** All the characters of a string. *)
Lemma digit_loop_string s i bits : i mod per = 0 ->
  digit_loop next digit mask (Z.to_nat per * length s) i bits s = Ok (flat_map digits_of s, []).
Proof.
  pose proof per_pos as HP. revert i bits; induction s as [|c s IH]; intros i bits Hi; [now rewrite Nat.mul_0_r|].
  cbn [length flat_map]. rewrite Nat.mul_succ_r, Nat.add_comm.
  replace (Z.to_nat per) with (S (Z.to_nat per - 1)) at 1 by lia. cbn [Nat.add digit_loop].
  rewrite mask_mod, Hi. cbn [Z.eqb].
  destruct (digit_loop_shifts (Z.to_nat per - 1) (i + 1) (s8 c) (Z.to_nat per * length s) s) as (bits' & ->).
  { intros j Hj. replace (i + 1 + j) with (i + (1 + j)) by lia. apply shifts_inside; lia. }
  replace (i + 1 + Z.of_nat (Z.to_nat per - 1)) with (i + per) by lia.
  rewrite IH by now apply next_multiple. reflexivity.
Qed.

Lemma bit_loop_shifts l i byte rest : (forall j, 0 <= j < Z.of_nat (length l) -> (i + j) mod per <> 0) ->
  bit_loop enter shift mask i byte (l ++ rest) =
    bit_loop enter shift mask (i + Z.of_nat (length l)) (fold_left (fun byte c => shift (enter byte c)) l byte) rest.
Proof.
  revert i byte; induction l as [|c l IH]; intros i byte H; [now rewrite Z.add_0_r|].
  cbn [app bit_loop fold_left length]. cbn [length] in H. rewrite mask_mod.
  rewrite (proj2 (Z.eqb_neq _ 0)) by (specialize (H 0 ltac:(lia)); now rewrite Z.add_0_r in H).
  rewrite IH; [f_equal; lia|]. intros j Hj. specialize (H (j + 1) ltac:(lia)). now replace (i + 1 + j) with (i + (j + 1)) by lia.
Qed.

Lemma digits_of_length c : length (digits_of c) = Z.to_nat per.
Proof.
  unfold digits_of. pose proof per_pos. cbn [map length]. rewrite length_map.
  assert (HS : forall n b, length (shifted n b) = n) by (induction n; intros b; cbn; auto). rewrite HS. lia.
Qed.

Lemma bit_loop_byte c i rest : byte c -> i mod per = 0 ->
  bit_loop enter shift mask (i + 1) 0 (digits_of c ++ rest) =
    (let '(out, last) := bit_loop enter shift mask (i + per + 1) 0 rest in (c :: out, last)).
Proof.
  intros Hc Hi. pose proof per_pos as HP. pose proof (digits_of_length c) as HL.
  assert (HN : digits_of c <> []) by discriminate.
  rewrite (app_removelast_last 0 HN) at 1. rewrite <- app_assoc.
  assert (HR : Z.of_nat (length (removelast (digits_of c))) = per - 1).
  { pose proof (f_equal (@length Z) (app_removelast_last 0 HN)) as HX. rewrite length_app, HL in HX. cbn [length] in HX. lia. }
  rewrite bit_loop_shifts.
  2:{ intros j Hj. replace (i + 1 + j) with (i + (1 + j)) by lia. apply shifts_inside; lia. }
  rewrite HR. replace (i + 1 + (per - 1)) with (i + per) by lia.
  cbn [app bit_loop]. rewrite mask_mod, next_multiple by auto. cbn [Z.eqb].
  destruct (bit_loop _ _ _ _ _ _). f_equal. f_equal. exact (Hbyte c Hc).
Qed.

Lemma bit_loop_string s i : Forall byte s -> i mod per = 0 ->
  bit_loop enter shift mask (i + 1) 0 (flat_map digits_of s) = (s, 0).
Proof.
  intros Hs. revert i; induction Hs as [|c s Hc Hs IH]; intros i Hi; [reflexivity|].
  cbn [flat_map]. rewrite bit_loop_byte by auto. now rewrite IH by now apply next_multiple.
Qed.

Lemma digits_string_length s : length (flat_map digits_of s) = (Z.to_nat per * length s)%nat.
Proof. induction s as [|c s IH]; cbn [flat_map length]; [lia|]. rewrite length_app, IH, digits_of_length. lia. Qed.

Lemma unpack_digits_string s : Z.of_nat (length s) * per <= LONG_MAX ->
  unpack_digits s next digit per 0 (Z.of_nat (length s)) true = Ok ([Str (flat_map digits_of s)], Z.of_nat (length s)).
Proof.
  unfold LONG_MAX. intros H. pose proof per_pos. unfold unpack_digits. cbn [orb]. rewrite Z.sub_0_r.
  rewrite s32_small by nia. rewrite (proj2 (Z.ltb_ge _ _)) by nia.
  assert (HB : bytes_at s 0 = Ok s) by exact (bytes_at_middle [] s). rewrite HB. cbn [bind].
  replace (Z.to_nat (Z.of_nat (length s) * per)) with (Z.to_nat per * length s)%nat by lia.
  change (2 ^ k - 1) with (Z.pred (2 ^ k)). rewrite <- Z.ones_equiv, digit_loop_string by (apply Z.mod_0_l; lia).
  cbn [bind length]. repeat f_equal. lia.
Qed.

Lemma pack_digits_string s : Forall byte s ->
  pack_digits enter shift mask final [] (flat_map digits_of s) (Z.of_nat (length (flat_map digits_of s))) = Ok s.
Proof.
  intros Hs. unfold pack_digits. rewrite Z.ltb_irrefl, Nat2Z.id, firstn_all.
  pose proof (bit_loop_string s 0 Hs ltac:(apply Z.mod_0_l; pose proof per_pos; lia)) as HB.
  change (0 + 1) with 1 in HB. rewrite HB.
  assert (HM : Z.land (Z.of_nat (length (flat_map digits_of s))) mask = 0).
  { rewrite mask_mod, digits_string_length, Nat2Z.inj_mul, Z2Nat.id, Z.mul_comm by (pose proof per_pos; lia).
    apply Z.mod_mul. pose proof per_pos. lia. }
  rewrite HM. cbn. now rewrite app_nil_r.
Qed.
End DigitStrings.

(** The text of a string, for the directives [b], [B], [h] and [H]. *)
Definition digit_types : list Z := [98; 66; 104; 72].
Definition text_of_digits (type : Z) (s : list Z) : list Z :=
  if type =? 98 then flat_map (digits_of 3 (fun bits => RSHIFT bits 1) (fun bits => bit_char (Z.land bits 1))) s
  else if type =? 66 then flat_map (digits_of 3 (fun bits => Z.shiftl bits 1) (fun bits => bit_char (Z.land bits 128))) s
  else if type =? 104 then flat_map (digits_of 1 (fun bits => RSHIFT bits 4) (fun bits => hexdigit (Z.land bits 15))) s
  else flat_map (digits_of 1 (fun bits => Z.shiftl bits 4) (fun bits => hexdigit (Z.land (RSHIFT bits 4) 15))) s.

Lemma star_unpack str type xs : plain_char type = true ->
  unpack_directive str type (Z.of_nat (length str)) true 0 = Ok (xs, Z.of_nat (length str)) ->
  pack_unpack str [type; STAR] = Ok xs.
Proof.
  intros HT HU. destruct (plain_char_facts _ HT) as (H1 & H2 & _).
  unfold pack_unpack. cbn [length unpack_loop]. rewrite H1, H2.
  change (skip_native type [STAR]) with (@Ok (list Z) [STAR]). cbn [bind unpack_count Z.eqb Pos.eqb STAR tl]. rewrite Z.sub_0_r, HU.
  cbn. now rewrite app_nil_r.
Qed.

Lemma star_pack type args res : plain_char type = true -> one_of [64; 88; 120; 117] type = false -> type <> 0 ->
  pack_directive type (Z.of_nat (length args)) true [] args = Ok (res, []) ->
  pack_pack args [type; STAR] = Ok res.
Proof.
  intros HT HX H0 HU. destruct (plain_char_facts _ HT) as (H1 & H2 & _).
  unfold pack_pack. cbn [length pack_loop]. rewrite H1, H2.
  change (skip_native type [STAR]) with (@Ok (list Z) [STAR]). cbn [bind]. unfold pack_count. cbn [deref hd Z.eqb Pos.eqb STAR].
  unfold strchr. rewrite HX, (proj2 (Z.eqb_neq _ _) H0). cbn [orb tl]. rewrite HU. reflexivity.
Qed.

Ltac digits_pack k op :=
  match goal with |- pack_directive ?type _ _ _ [Str ?t] = Ok (?s, _) =>
    let HP := fresh "HP" in
    assert (HP : op [] t (Z.of_nat (length t)) = Ok s);
    [refine (pack_digits_string k _ _ _ _ _ _ _ s _); [lia| |assumption];
     let c := fresh "c" in let H := fresh "H" in intros c H; finite c 0 256%nat; exact H
    |change (pack_directive type (Z.of_nat (length [Str t])) true [] [Str t])
       with (res <- op [] t (Z.of_nat (length t)) ;; Ok (res, @nil item)); now rewrite HP]
  end.

(** A string unpacked with [b*], [B*], [h*] or [H*] into a string of bit or
    hex digits is what packing these digits with the same directive gives. *)
Theorem digit_strings_round_trip type s : In type digit_types -> Forall byte s -> Z.of_nat (length s) * 8 <= LONG_MAX ->
  pack_unpack s [type; STAR] = Ok [Str (text_of_digits type s)] /\
  pack_pack [Str (text_of_digits type s)] [type; STAR] = Ok s.
Proof.
  intros HT Hs HL. unfold LONG_MAX in HL. cbn [In digit_types] in HT.
  assert (H2 : Z.of_nat (length s) * 2 <= LONG_MAX) by (unfold LONG_MAX; lia).
  destruct HT as [<- | [<- | [<- | [<- | []]]]]; (split; [apply star_unpack|apply star_pack]); try reflexivity; try discriminate.
  - exact (unpack_digits_string 3 _ _ ltac:(lia) s HL).
  - digits_pack 3 pack_b.
  - exact (unpack_digits_string 3 _ _ ltac:(lia) s HL).
  - digits_pack 3 pack_B.
  - exact (unpack_digits_string 1 _ _ ltac:(lia) s H2).
  - digits_pack 1 pack_h.
  - exact (unpack_digits_string 1 _ _ ltac:(lia) s H2).
  - digits_pack 1 pack_H.
Qed.

Lemma digit_strings_round_trip_witness :
  pack_unpack [171; 205; 0] [72; STAR] = Ok [Str (text_of_digits 72 [171; 205; 0])] /\
  pack_pack [Str (text_of_digits 72 [171; 205; 0])] [72; STAR] = Ok [171; 205; 0].
Proof.
  apply (digit_strings_round_trip 72 [171; 205; 0]); [cbn; tauto| |unfold LONG_MAX; cbn; lia].
  repeat constructor; unfold byte; lia.
Defined.
