(* ===== verification/PackSafe.v ===== *)
(** * Packing and unpacking: memory safety

    The interpreters of the templates stay inside the strings they read and
    the buffers they write, with the exceptions the last examples show. *)

From Stdlib Require Import ZArith Lia List Bool.
From S2P Require Import Prelude CInt Digits Bignum BigAdd BigMul BigDiv BigStr Fixnum Digest PackText Pack PackRound.
Import ListNotations.
Local Open Scope Z_scope.
Local Open Scope outcome_scope.

(** ** Memory safety of [unpack] *)

(** A result or an exception; [d] is when the work may be handed over. *)
Definition settled {A} (d : Prop) (r : outcome A) : Prop :=
  match r with Ok _ | Raise _ => True | Delegate => d | Undefined => False end.

(** A step that reads only inside the string and leaves the position there. *)
Definition stays {A} (d : Prop) (send : Z) (r : outcome (A * Z)) : Prop :=
  match r with Ok (_, s) => 0 <= s <= send | Raise _ => True | Delegate => d | Undefined => False end.

(** A reader of the rest of the string that is given [n] bytes. *)
Definition reads {A} (n : nat) (r : outcome (A * list Z)) : Prop :=
  match r with Ok (_, rest) => (length rest <= n)%nat | Raise _ => True | _ => False end.

Lemma stays_bind {A C} hand send (m : outcome (A * Z)) (k : A * Z -> outcome (C * Z)) :
  stays hand send m -> (forall a s, m = Ok (a, s) -> 0 <= s <= send -> stays hand send (k (a, s))) -> stays hand send (bind m k).
Proof. destruct m as [[a s]| | |]; cbn; auto. Qed.

Section Safety.
Context (hand : Prop) (str : list Z).
Context (Hstr : Forall byte str) (Hlen : Z.of_nat (length str) <= LONG_MAX).
Notation send := (Z.of_nat (length str)).

Lemma bytes_at_inside s : 0 <= s <= send ->
  exists p, bytes_at str s = Ok p /\ Z.of_nat (length p) = send - s /\ Forall byte p.
Proof.
  intros H. unfold bytes_at. rewrite (proj2 (Z.ltb_ge _ _)), (proj2 (Z.ltb_ge _ _)) by lia. cbn [orb].
  eexists; splits; [reflexivity|rewrite length_skipn; lia|auto with lists].
Qed.

Lemma stays_reads {A C} s (p : list Z) (r : outcome (A * list Z)) (f : A -> C) : 0 <= s <= send -> Z.of_nat (length p) = send - s ->
  reads (length p) r ->
  stays hand send ('(x, rest) <- r ;; Ok (f x, s + Z.of_nat (length p) - Z.of_nat (length rest))).
Proof. intros Hs HL. destruct r as [[x rest]| | |]; cbn; auto; lia || tauto. Qed.

Lemma rb_str_new_inside s len : 0 <= s -> 0 <= len -> s + len <= send -> exists t, rb_str_new str s len = Ok t.
Proof.
  intros H0 H1 H2. unfold rb_str_new. rewrite (proj2 (Z.ltb_ge len 0)) by lia.
  destruct (len =? 0); [eauto|]. rewrite (proj2 (Z.ltb_ge _ 0)), (proj2 (Z.ltb_ge _ _)) by lia. cbn [orb]. eauto.
Qed.

Lemma clip_inside s len : 0 <= s <= send -> 0 <= len ->
  0 <= (if send - s <? len then send - s else len) <= send - s.
Proof. intros H H0. destruct (Z.ltb_spec (send - s) len); lia. Qed.

Lemma unpack_A_stays s len : 0 <= s <= send -> 0 <= len -> stays hand send (unpack_A str s len).
Proof.
  intros Hs Hl. unfold unpack_A. pose proof (clip_inside s len Hs Hl) as HC.
  destruct (rb_str_new_inside s _ ltac:(lia) (proj1 HC) ltac:(lia)) as (t & ->). cbn. lia.
Qed.

Lemma unpack_a_stays s len : 0 <= s <= send -> 0 <= len -> stays hand send (unpack_a str s len).
Proof.
  intros Hs Hl. unfold unpack_a. pose proof (clip_inside s len Hs Hl) as HC.
  destruct (rb_str_new_inside s _ ltac:(lia) (proj1 HC) ltac:(lia)) as (t & ->). cbn. lia.
Qed.

Lemma take_while_length p (l : list Z) : (length (take_while p l) <= length l)%nat.
Proof. induction l as [|c l IH]; cbn; [lia|]. destruct (p c); cbn; lia. Qed.

Lemma rb_str_new_length s len t : rb_str_new str s len = Ok t -> 0 <= len -> Z.of_nat (length t) <= len.
Proof.
  unfold rb_str_new. intros H Hl. repeat case_if; try discriminate; injection H as <-; cbn [length]; try lia.
  rewrite length_firstn. lia.
Qed.

Lemma unpack_Z_stays s len star : 0 <= s <= send -> 0 <= len -> stays hand send (unpack_Z str s len star).
Proof.
  intros Hs Hl. unfold unpack_Z. pose proof (clip_inside s len Hs Hl) as HC.
  set (l := if send - s <? len then _ else _) in *. rewrite Z.max_r by lia.
  destruct (rb_str_new_inside s l ltac:(lia) (proj1 HC) ltac:(lia)) as (t & Ht). rewrite Ht. cbn [bind stays].
  pose proof (rb_str_new_length s l t Ht (proj1 HC)) as HT.
  pose proof (take_while_length (fun c => negb (c =? 0)) t) as HW.
  destruct star; [destruct (Z.ltb_spec (s + Z.of_nat (length (take_while (fun c => negb (c =? 0)) t))) send)|]; lia.
Qed.

Lemma digit_loop_reads k next digit n i bits p : 0 <= k ->
  Z.of_nat n <= 2 ^ k * Z.of_nat (length p) + (- i) mod 2 ^ k ->
  reads (length p) (digit_loop next digit (Z.ones k) n i bits p).
Proof.
  intros Hk. pose proof (Z.pow_pos_nonneg 2 k ltac:(lia) Hk) as HP.
  revert i bits p; induction n as [|n IH]; intros i bits p H; [cbn; lia|].
  cbn [digit_loop]. rewrite Z.land_ones by auto. destruct (Z.eqb_spec (i mod 2 ^ k) 0) as [E|E].
  - assert (EN : (- i) mod 2 ^ k = 0) by now apply Z.mod_opp_l_z; lia.
    destruct p as [|c p]; [rewrite EN in H; cbn [length] in H; lia|].
    assert (EN1 : (- (i + 1)) mod 2 ^ k = 2 ^ k - 1).
    { replace (- (i + 1)) with (- i + (2 ^ k - 1) + (- 1) * 2 ^ k) by lia.
      rewrite Z.mod_add, Z.add_mod, EN, Z.add_0_l, Z.mod_mod, Z.mod_small by lia. reflexivity. }
    specialize (IH (i + 1) (s8 c) p). rewrite EN1 in IH. cbn [length] in H |- *.
    specialize (IH ltac:(lia)). destruct (digit_loop _ _ _ _ _ _ _) as [[o r]| | |]; cbn [bind reads] in *; auto; lia.
  - assert (EN1 : (- (i + 1)) mod 2 ^ k = (- i) mod 2 ^ k - 1).
    { rewrite (Z.mod_opp_l_nz i) in H |- * by lia. replace (- (i + 1)) with (2 ^ k - i mod 2 ^ k - 1 + (- (i / 2 ^ k) - 1) * 2 ^ k)
        by (pose proof (Z.div_mod i (2 ^ k)); lia).
      rewrite Z.mod_add by lia. apply Z.mod_small. pose proof (Z.mod_pos_bound i (2 ^ k) HP). lia. }
    specialize (IH (i + 1) (next bits) p). rewrite EN1 in IH.
    specialize (IH ltac:(lia)). destruct (digit_loop _ _ _ _ _ _ _) as [[o r]| | |]; cbn [bind reads] in *; auto.
Qed.

Lemma unpack_digits_stays k per next digit s len star : 0 <= k <= 3 -> per = 2 ^ k -> 0 <= s <= send -> 0 <= len ->
  stays hand send (unpack_digits str next digit per s len star).
Proof.
  intros Hk -> Hs Hl. unfold unpack_digits.
  set (room := s32 ((send - s) * 2 ^ k)). pose proof (Z.pow_pos_nonneg 2 k ltac:(lia) ltac:(lia)) as HP.
  assert (HR : room <= (send - s) * 2 ^ k).
  { unfold room, s32. pose proof (Z.mod_le ((send - s) * 2 ^ k + 2147483648) 4294967296 ltac:(nia) ltac:(lia)). lia. }
  set (l := if star || (room <? len) then room else len).
  assert (HL : l <= (send - s) * 2 ^ k).
  { unfold l. destruct star; cbn [orb]; [lia|]. destruct (Z.ltb_spec room len); lia. }
  destruct (Z.ltb_spec l 0); [exact I|]. destruct (bytes_at_inside s Hs) as (p & -> & HLp & _). cbn [bind].
  apply (stays_reads s p _ (fun out => [Str out])); auto.
  change (2 ^ k - 1) with (Z.pred (2 ^ k)). rewrite <- Z.ones_equiv.
  apply digit_loop_reads; [lia|]. rewrite Z2Nat.id by lia. rewrite HLp, Z.mod_0_l by lia. lia.
Qed.

Lemma read_each_stays n sz dec s : 0 < sz -> 0 <= s -> s + Z.of_nat n * sz <= send -> (forall bytes, settled hand (dec bytes)) ->
  stays hand send (read_each str n sz dec s).
Proof.
  intros Hsz Hs Hn Hd. revert s Hs Hn; induction n as [|n IH]; intros s Hs Hn; [cbn; lia|].
  rewrite Nat2Z.inj_succ, Z.mul_succ_l in Hn. cbn [read_each].
  destruct (rb_str_new_inside s sz Hs ltac:(lia) ltac:(nia)) as (t & ->). cbn [bind].
  specialize (Hd t). destruct (dec t); cbn [bind settled stays] in *; auto.
  specialize (IH (s + sz) ltac:(lia) ltac:(lia)).
  destruct (read_each _ _ _ _ _) as [[xs s']| | |]; cbn in *; auto.
Qed.

Lemma length_adjust_inside unsigned sz s len star : 0 <= s <= send -> 0 <= len <= LONG_MAX -> 0 < sz ->
  0 <= fst (length_adjust str unsigned sz s len star) /\ fst (length_adjust str unsigned sz s len star) * sz <= send - s.
Proof.
  unfold LONG_MAX in *. intros Hs Hl Hsz. unfold length_adjust, cdiv. rewrite Z.quot_div_nonneg by lia.
  rewrite !u32_small by lia. assert (HA : (if unsigned then (send - s) / sz else (send - s) / sz) = (send - s) / sz) by now destruct unsigned.
  rewrite HA. assert (HO : (if unsigned then (send - s) / sz <? len else (send - s) / sz <? len) = ((send - s) / sz <? len)) by now destruct unsigned.
  rewrite HO. pose proof (Z.mul_div_le (send - s) sz Hsz). pose proof (Z.div_pos (send - s) sz ltac:(lia) Hsz).
  pose proof (Z.div_le_upper_bound (send - s) sz (send - s) Hsz ltac:(nia)).
  destruct (Z.ltb_spec ((send - s) / sz) len); cbn [fst]; [rewrite s32_small by lia; lia|nia].
Qed.

Lemma decoder_sound type sz dec : decoder type = Some (sz, dec) -> 0 < sz /\ forall bytes, settled hand (dec bytes).
Proof.
  unfold decoder. intros H.
  repeat match type of H with (if ?b then _ else _) = _ => destruct b; [injection H as <- <-; split; [lia|intros; exact I]|] end.
  discriminate.
Qed.

Lemma unpack_numbers_stays type sz dec s len star : decoder type = Some (sz, dec) -> 0 <= s <= send -> 0 <= len <= LONG_MAX ->
  stays hand send (unpack_numbers str type sz dec s len star).
Proof.
  intros HD Hs Hl. destruct (decoder_sound _ _ _ HD) as [Hsz Hdec]. unfold unpack_numbers.
  pose proof (length_adjust_inside (negb ((type =? 113) || (type =? 81))) sz s len star Hs Hl Hsz) as HA.
  destruct (length_adjust _ _ _ _ _ _) as [l tmp]. cbn [fst] in HA.
  apply stays_bind; [apply read_each_stays; auto; rewrite ?Z2Nat.id; lia|]. intros; cbn; lia.
Qed.

Lemma unpack_U_reads fuel len p : Forall byte p -> reads (length p) (unpack_U fuel len p).
Proof.
  revert len p; induction fuel as [|fuel IH]; intros len p Hp; [cbn; lia|].
  destruct p as [|c p]; [cbn; lia|]. set (q := c :: p) in *.
  change (unpack_U (S fuel) len q) with
    (if 0 <? len then
       '(l, alen) <- utf8_to_uv q (Z.of_nat (length q)) ;;
       '(xs, p) <- unpack_U fuel (len - 1) (skipn (Z.to_nat alen) q) ;; Ok (Num (rb_uint2inum l) :: xs, p)
     else Ok ([], q)).
  destruct (0 <? len); [|cbn; lia]. rewrite utf8_to_uv_read by auto.
  destruct (utf8_read q) as [[l alen]|e| |] eqn:E; cbn [bind]; try exact I.
  1: specialize (IH (len - 1) (skipn (Z.to_nat alen) q) ltac:(auto with lists));
    destruct (unpack_U fuel _ _) as [[xs r]| | |]; cbn [bind reads] in *; auto; rewrite length_skipn in IH; lia.
  all: unfold q in E; cbn [utf8_read] in E; destruct (c <? 128); [discriminate|];
    destruct (first_size c); [destruct (_ || _)%bool|]; discriminate.
Qed.

Lemma byte_continued c : byte c -> septet c \/ exists d, septet d /\ c = continued d.
Proof.
  unfold byte, septet, continued. intros H. destruct (Z.lt_ge_cases c 128); [left; lia|right].
  exists (c - 128). lia.
Qed.

Lemma unpack_w_reads len ul h big p : Forall byte p -> ber_state ul h big -> (big = None \/ 0 < len) ->
  reads (length p) (unpack_w len ul big p).
Proof.
  intros Hp. revert len ul h big; induction Hp as [|c p Hc Hp IH]; intros len ul h big HB HL; [cbn; lia|].
  destruct (Z.le_gt_cases len 0) as [H0|H0].
  { destruct HL as [-> | HL]; [|lia]. cbn [unpack_w]. rewrite (proj2 (Z.ltb_ge _ _)) by lia. cbn; lia. }
  destruct (byte_continued c Hc) as [Hd | (d & Hd & ->)].
  - destruct (unpack_w_last len ul h big c p H0 HB Hd) as (w & _ & ->).
    specialize (IH (len - 1) 0 0 None ltac:(cbn; lia) ltac:(now left)).
    destruct (unpack_w _ _ _ _) as [[xs r]| | |]; cbn [bind reads length] in *; auto.
  - destruct (unpack_w_continue len ul h big d p H0 HB Hd) as (ul' & big' & -> & HB').
    specialize (IH len ul' _ big' HB' ltac:(now right)).
    destruct (unpack_w _ _ _ _) as [[xs r]| | |]; cbn [reads length] in *; auto.
Qed.

Lemma qp_decode_reads p : (length (snd (qp_decode p)) <= length p)%nat.
Proof.
  assert (H : forall n p, (length p <= n)%nat -> (length (snd (qp_decode p)) <= length p)%nat).
  { clear. induction n as [|n IH]; intros p Hp; [destruct p; cbn in *; lia|].
    destruct p as [|c p]; [cbn; lia|]. cbn [length] in Hp |- *. cbn [qp_decode].
    destruct (c =? 61).
    - destruct p as [|d p]; [cbn; lia|]. cbn [length] in Hp |- *.
      destruct (d =? 10); [specialize (IH p ltac:(lia)); lia|].
      destruct (hex2num d =? -1); [cbn; lia|]. destruct p as [|e p]; [cbn; lia|]. cbn [length] in Hp |- *.
      destruct (hex2num e =? -1); [cbn; lia|]. specialize (IH p ltac:(lia)).
      destruct (qp_decode p) as [o r]. cbn [snd] in *. lia.
    - specialize (IH p ltac:(lia)). destruct (qp_decode p) as [o r]. cbn [snd] in *. lia. }
  now apply (H (length p)).
Qed.

(** The directives [u] and [m] are left out. *)
Lemma unpack_directive_stays type len star s : type <> 117 -> type <> 109 -> (type = 80 \/ type = 112 -> hand) -> 0 <= s <= send -> 0 <= len <= LONG_MAX ->
  stays hand send (unpack_directive str type len star s).
Proof.
  intros Hu Hm Hd Hs Hl. unfold unpack_directive. destruct (decoder type) as [[sz dec]|] eqn:ED; [now apply unpack_numbers_stays|].
  rewrite (proj2 (Z.eqb_neq _ _) Hu), (proj2 (Z.eqb_neq _ _) Hm). unfold LONG_MAX in *.
  assert (HP : u32 (send - s) = send - s) by (apply u32_small; lia).
  destruct (bytes_at_inside s Hs) as (p & HBp & HLp & Hbp).
  repeat match goal with
  | |- stays _ _ (if ?b then _ else _) =>
      match b with
      | ?x =? ?y => destruct (Z.eqb_spec x y)
      end
  end; try exact I; try (cbn; lia).
  - apply unpack_A_stays; lia.
  - apply unpack_Z_stays; lia.
  - apply unpack_a_stays; lia.
  - apply (unpack_digits_stays 3); auto; lia.
  - apply (unpack_digits_stays 3); auto; lia.
  - apply (unpack_digits_stays 1); auto; lia.
  - apply (unpack_digits_stays 1); auto; lia.
  - rewrite HBp. cbn [bind]. apply (stays_reads s p _ (fun xs => xs)); auto. now apply unpack_U_reads.
  - rewrite (proj2 (Z.ltb_ge _ _)) by lia. rewrite HBp. cbn [bind]. pose proof (qp_decode_reads p).
    destruct (qp_decode p) as [o r]. cbn [snd stays] in *. lia.
  - destruct (Z.ltb_spec send len); [exact I|cbn; lia].
  - destruct (Z.ltb_spec s len); [exact I|cbn; lia].
  - destruct (Z.ltb_spec (send - s) len); [exact I|cbn; lia].
  - rewrite HP. destruct (Z.leb_spec 4 (send - s)); [|cbn; lia].
    apply read_each_stays; try lia. intros bytes; unfold dec_pointer; destruct (_ =? 0); cbn; auto.
  - rewrite HP, u32_small by lia. pose proof (Z.mul_div_le (send - s) 4 ltac:(lia)).
    pose proof (Z.div_pos (send - s) 4 ltac:(lia) ltac:(lia)).
    apply read_each_stays; try lia; [|intros bytes; unfold dec_pointer; destruct (_ =? 0); cbn; auto].
    destruct (Z.ltb_spec ((send - s) / 4) len); rewrite ?s32_small by (Z.div_mod_to_equations; lia); rewrite Z2Nat.id; lia.
  - rewrite HBp. cbn [bind]. apply (stays_reads s p _ (fun xs => xs)); auto.
    apply (unpack_w_reads len 0 0 None); auto. cbn; lia.
Qed.
End Safety.

(** *** Templates *)

(** Every count is below [2 ^ 31], so that it is not negative as a [long]. *)
Fixpoint counts_ok (p : list Z) : bool :=
  match p with
  | [] => true
  | _ :: p' => (fst (strtoul p 10) <=? LONG_MAX) && counts_ok p'
  end.

Definition suffix (q p : list Z) : Prop := exists a, p = a ++ q.

Lemma suffix_refl p : suffix p p.
Proof. now exists []. Qed.
Lemma suffix_trans p q r : suffix r q -> suffix q p -> suffix r p.
Proof. intros (a & ->) (b & ->). exists (b ++ a). now rewrite app_assoc. Qed.
Lemma suffix_cons c p : suffix p (c :: p).
Proof. now exists [c]. Qed.
Lemma suffix_tl p : suffix (tl p) p.
Proof. destruct p; [apply suffix_refl|apply suffix_cons]. Qed.
Lemma suffix_length q p : suffix q p -> (length q <= length p)%nat.
Proof. intros (a & ->). rewrite length_app. lia. Qed.
Lemma suffix_skip_while f p : suffix (skip_while f p) p.
Proof.
  induction p as [|c p IH]; cbn [skip_while]; [apply suffix_refl|].
  destruct (f c); [|apply suffix_refl]. eapply suffix_trans; [exact IH|apply suffix_cons].
Qed.
#[local] Hint Resolve suffix_refl suffix_cons suffix_tl suffix_skip_while suffix_length : core.

Lemma counts_ok_suffix q p : suffix q p -> counts_ok p = true -> counts_ok q = true.
Proof. intros (a & ->). induction a as [|c a IH]; cbn [app counts_ok]; auto. intros H. apply andb_prop in H as [_ H]. auto. Qed.

Lemma strtoul_digits_count base s acc : 0 < base -> 0 <= acc ->
  0 <= fst (strtoul_digits base s acc) /\ suffix (snd (strtoul_digits base s acc)) s.
Proof.
  intros Hb. revert acc; induction s as [|c s IH]; intros acc Ha; cbn [strtoul_digits]; [cbn; auto|].
  destruct (char_digit c) as [d|] eqn:ED; [|cbn; auto]. destruct (d <? base); [|cbn; auto].
  assert (Hd : 0 <= d).
  { unfold char_digit, ISDIGIT, ISLOWER, ISUPPER in ED. repeat case_if; try discriminate;
      injection ED as <-; breflect; repeat match goal with H : _ /\ _ |- _ => destruct H end; lia. }
  destruct (IH (acc * base + d) ltac:(nia)) as [H1 H2]. split; auto. eapply suffix_trans; eauto.
Qed.

Lemma strtoul_count p : 0 <= fst (strtoul p 10) /\ suffix (snd (strtoul p 10)) p.
Proof.
  unfold strtoul. set (t := skip_while ISSPACE p). assert (H1 : suffix t p) by apply suffix_skip_while.
  set (neg := deref t =? 45). set (t1 := if (deref t =? 43) || neg then tl t else t).
  assert (H2 : suffix t1 p) by (unfold t1; destruct (_ || _)%bool; eauto using suffix_trans, suffix_tl).
  change (10 =? 16) with false. cbn [andb].
  destruct (is_digit_in 10 (deref t1)); [|cbn [fst snd]; split; [lia|apply suffix_refl]].
  destruct (strtoul_digits_count 10 t1 0 ltac:(lia) ltac:(lia)) as [H3 H4].
  destruct (strtoul_digits 10 t1 0) as [v e]. cbn [fst snd] in *.
  assert (H5 : suffix e p) by eauto using suffix_trans.
  destruct (4294967295 <? v); cbn [fst snd]; [split; [lia|auto]|]. pose proof (u32_bound (- v)). destruct neg; cbn; auto with zarith.
Qed.

Lemma read_count_ok p : counts_ok p = true -> ISDIGIT (deref p) = true ->
  0 <= fst (read_count p) <= LONG_MAX /\ suffix (snd (read_count p)) p.
Proof.
  intros HC HD. destruct (strtoul_count p) as [H1 H2]. destruct p as [|c p]; [discriminate|].
  cbn [counts_ok] in HC. apply andb_prop in HC as [HC _]. breflect. unfold read_count, LONG_MAX in *.
  destruct (strtoul (c :: p) 10) as [n e]. cbn [fst snd] in *. now rewrite s32_small by lia.
Qed.

Lemma skip_native_suffix type p q : skip_native type p = Ok q -> suffix q p.
Proof.
  unfold skip_native. destruct (_ || _)%bool; [destruct (strchr natstr type); [|discriminate]|];
    intros H; injection H as <-; auto.
Qed.

Lemma skip_native_settled type p : settled False (skip_native type p).
Proof. unfold skip_native. destruct (_ || _)%bool; [destruct (strchr natstr type)|]; exact I. Qed.

Lemma unpack_count_ok str type s p : counts_ok p = true -> 0 <= s <= Z.of_nat (length str) ->
  Z.of_nat (length str) <= LONG_MAX ->
  let '(len, _, q) := unpack_count str type s p in 0 <= len <= LONG_MAX /\ suffix q p.
Proof.
  unfold LONG_MAX. intros HC Hs HL. destruct p as [|c p]; cbn [unpack_count]; [split; [lia|auto]|].
  destruct (c =? STAR); [split; [lia|cbn; auto]|]. destruct (ISDIGIT c) eqn:ED.
  - destruct (read_count_ok (c :: p) HC ED) as [H1 H2]. destruct (read_count (c :: p)) as [n q]. exact (conj H1 H2).
  - destruct (type =? 64); split; auto; lia.
Qed.

(** The directives that may leave the string or index a table with a negative
    character are [u] and [m]. *)
Definition no_text (p : list Z) : Prop := ~ In 117 p /\ ~ In 109 p.

Lemma no_text_suffix q p : suffix q p -> no_text p -> no_text q.
Proof. intros (a & ->) [H1 H2]. split; intros H; [apply H1|apply H2]; apply in_or_app; auto. Qed.

(** Pointers are followed by the directives [p] and [P] alone. *)
Definition pointers (p : list Z) : Prop := In 80 p \/ In 112 p.

Lemma pointers_suffix q p : suffix q p -> pointers q -> pointers p.
Proof. intros (a & ->) [H|H]; [left|right]; apply in_or_app; auto. Qed.

Lemma unpack_loop_settled hand str fuel p s : Forall byte str -> Z.of_nat (length str) <= LONG_MAX ->
  counts_ok p = true -> no_text p -> (pointers p -> hand) -> (length p <= fuel)%nat -> 0 <= s <= Z.of_nat (length str) ->
  settled hand (unpack_loop str fuel p s).
Proof.
  intros Hstr HL. revert p s; induction fuel as [|fuel IH]; intros p s HC HT HPt Hf Hs;
    (destruct p as [|type p]; [exact I|]); [cbn in Hf; lia|]. cbn [length] in Hf.
  cbn [unpack_loop].
  assert (HS : forall q, suffix q p -> (length q <= length p)%nat /\ counts_ok q = true /\ no_text q /\ (pointers q -> hand)).
  { intros q Hq. assert (Hq' : suffix q (type :: p)) by eauto using suffix_trans.
    splits; eauto using counts_ok_suffix, no_text_suffix, pointers_suffix. }
  destruct (HS p (suffix_refl p)) as (_ & HP2 & HP3 & HP4). destruct (ISSPACE type); [apply IH; auto; lia|].
  destruct (type =? HASH); [destruct (HS (skip_comment p)) as (H1 & H2 & H3 & H4); [apply suffix_skip_while|apply IH; auto; lia]|].
  pose proof (skip_native_settled type p) as HN. destruct (skip_native type p) as [q| | |] eqn:EN; cbn [bind]; try exact I; try contradiction.
  apply skip_native_suffix in EN. destruct (HS q EN) as (HQ1 & HQ2 & HQ3 & HQ4).
  pose proof (unpack_count_ok str type s q HQ2 Hs HL) as HU. destruct (unpack_count str type s q) as [[len star] r].
  destruct HU as [HU1 HU2]. assert (HT' : type <> 117 /\ type <> 109) by (destruct HT as [T1 T2]; split; intros ->; [apply T1|apply T2]; now left).
  assert (HTp : type = 80 \/ type = 112 -> hand) by (intros [-> | ->]; apply HPt; [left|right]; now left).
  pose proof (unpack_directive_stays hand str Hstr HL type len star s (proj1 HT') (proj2 HT') HTp Hs HU1) as HD.
  destruct (unpack_directive str type len star s) as [[xs s']| | |]; cbn [bind stays settled] in *; auto.
  destruct (HS r ltac:(eauto using suffix_trans)) as (HR1 & HR2 & HR3 & HR4).
  specialize (IH r s' HR2 HR3 HR4 ltac:(lia) HD). destruct (unpack_loop str fuel r s'); cbn [bind settled] in *; auto.
Qed.

(** C34: unpacking reads only inside the string: for every string and every
    template with counts below 2 ^ 31 and without the directives [u] and [m] the
    position never leaves the string, and unpack returns values or raises; what
    is not settled is the memory that a pointer leads to, in a template with [p]
    or [P].  A Float is the bytes it was read from. *)
Theorem unpack_stays_inside str fmt : Forall byte str -> Z.of_nat (length str) <= LONG_MAX ->
  counts_ok fmt = true -> no_text fmt -> settled (pointers fmt) (pack_unpack str fmt).
Proof. intros Hstr HL HC HT. apply unpack_loop_settled; auto. lia. Qed.

(** The witness reads a Float and what follows it. *)
Lemma unpack_stays_inside_witness :
  settled (pointers [103; 64; 52; 97]) (pack_unpack [1; 2; 3; 4; 5] [103; 64; 52; 97]).
Proof.
  apply (unpack_stays_inside [1; 2; 3; 4; 5] [103; 64; 52; 97]); [|unfold LONG_MAX; cbn; lia|reflexivity|].
  - repeat constructor; unfold byte; lia.
  - split; cbn; lia.
Defined.

(** ** Memory safety of [pack] *)

(** Elements of the array: canonical integers and strings of moderate size. *)
Definition item_ok (x : item) : Prop :=
  match x with
  | Nil => True
  | Str s => Forall byte s /\ Z.of_nat (length s) < max_text
  | Num v => canonical v
  | Flo _ _ => True
  end.

(** Objects that are converted by their own methods, and Floats. *)
Definition foreign (x : item) : bool := match x with Num (Obj _) | Flo _ _ => true | _ => false end.

(** The directives that convert numbers to Floats, write pointers, or write
    what an object prints as. *)
Definition hands_over (c : Z) : bool := one_of [102; 70; 101; 69; 100; 68; 103; 71; 112; 77] c.   (* 'fFeEdDgGpM' *)

Section PackSafety.
Context (hand : Prop).

Definition item_fine (x : item) : Prop := item_ok x /\ (foreign x = true -> hand).

Lemma settled_bind {A C} (m : outcome A) (k : A -> outcome C) :
  settled hand m -> (forall a, m = Ok a -> settled hand (k a)) -> settled hand (bind m k).
Proof. destruct m; cbn; auto. Qed.

Lemma settled_Ok {A} (a : A) : settled hand (Ok a).
Proof. exact I. Qed.
Lemma settled_Raise {A} e : settled hand (@Raise A e).
Proof. exact I. Qed.
Lemma settled_Delegate {A} : hand -> settled hand (@Delegate A).
Proof. exact (fun H => H). Qed.
#[local] Hint Resolve settled_Ok settled_Raise settled_Delegate : core.

Lemma cat_settled str ptr len : len <= Z.of_nat (length ptr) -> settled hand (rb_str_buf_cat str ptr len).
Proof.
  intros H. unfold rb_str_buf_cat. destruct (len =? 0); auto. destruct (len <? 0); auto.
  rewrite (proj2 (Z.ltb_ge _ _)) by lia. auto.
Qed.

Lemma cat_tens_len n ten res len r l : cat_tens n ten res len = Ok (r, l) -> l = len - 10 * Z.of_nat n.
Proof.
  revert res len; induction n as [|n IH]; intros res len; cbn [cat_tens]; intros H; [injection H as <- <-; lia|].
  apply bind_Ok_inv in H as (res' & _ & H). rewrite (IH _ _ H). lia.
Qed.

Lemma cat_pad_settled ten res len : length ten = 10%nat -> settled hand (cat_pad ten res len).
Proof.
  intros H10. unfold cat_pad. apply settled_bind.
  - generalize len at 2. revert res. generalize (Z.to_nat (len / 10)). intros n.
    induction n as [|n IH]; intros res l; cbn [cat_tens]; auto. apply settled_bind; [apply cat_settled; rewrite H10; lia|auto].
  - intros [r l] E. apply cat_tens_len in E. apply cat_settled. rewrite H10.
    destruct (Z.le_gt_cases 0 len).
    + rewrite Z2Nat.id in E by (apply Z.div_pos; lia). Z.div_mod_to_equations. lia.
    + lia.
Qed.

Lemma pack_string_settled type star res from len : item_fine from -> settled hand (pack_string type star res from len).
Proof.
  intros [_ HF]. unfold pack_string. apply settled_bind; [destruct from as [|s|[n|b|o]|t bs]; cbn; auto|]. intros ptr _. cbv zeta.
  set (l := if star then Z.of_nat (length ptr) else len).
  assert (HD : forall enter shift mask final, settled hand (pack_digits enter shift mask final res ptr l)).
  { intros. unfold pack_digits. destruct (if _ <? l then _ else _) as [j l']. destruct (bit_loop _ _ _ _ _ _).
    now apply cat_pad_settled. }
  repeat match goal with |- settled hand (if ?b then _ else _) =>
    match b with _ =? _ => destruct b; [apply HD|] end end.
  unfold pack_a. destruct (Z.leb_spec l (Z.of_nat (length ptr))).
  - apply settled_bind; [now apply cat_settled|]. intros r _. destruct (star && _)%bool; auto. now apply cat_settled.
  - apply settled_bind; [apply cat_settled; lia|]. intros r _. apply cat_pad_settled. now destruct (type =? 65).
Qed.

Lemma num2i32_settled x : item_fine x -> settled hand (num2i32 x).
Proof.
  destruct x as [|s|[n|b|o]|t bs]; intros [Hok HF]; cbn in *; auto. destruct Hok as (Hd & _). unfold rb_big2ulong_pack. rewrite big2ulong_spec by auto.
  destruct (2 <? len b); cbn; auto.
Qed.

Lemma to_int_settled x : item_fine x -> settled hand (to_int x).
Proof. intros [_ HF]. destruct x; cbn in *; auto. Qed.

Lemma NUM2LONG_settled v : item_fine (Num v) -> settled hand (NUM2LONG v).
Proof.
  destruct v as [n|b|o]; intros [HC HF]; cbn in *; auto. change (rb_big2long b) with (NUM2LONG (Big b)).
  rewrite NUM2LONG_ok by (auto; exact I). destruct (_ && _)%bool; auto.
Qed.

(** Negative numbers are divided, too, until they are Fixnums. *)
Lemma ber_big_settled fuel v buf : canonical v ->
  - (1073741824 * 128 ^ Z.of_nat fuel) <= value v < 1073741824 * 128 ^ Z.of_nat fuel ->
  exists r, ber_big fuel v buf = Ok r /\ canonical (fst r) /\ match fst r with Fix _ => True | Big _ => False | Obj o => v = Obj o end.
Proof.
  revert v buf; induction fuel as [|fuel IH]; intros v buf HC HV; (destruct v as [n|b|o];
    [exists (Fix n, buf); splits; auto; reflexivity| |exists (Obj o, buf); splits; auto; reflexivity]).
  - exfalso. destruct HC as (_ & _ & HF). apply not_true_iff_false in HF. apply HF, FIXABLE_iff. cbn in HV. lia.
  - cbn [ber_big value] in *. destruct (big128_divmod b HC) as (d & m & -> & (d' & [= <-] & Id & Cd & Vd) & (m' & [= <-] & Im & Cm & Vm)).
    cbn [bind]. pose proof (Z.mod_pos_bound (big_val b) 128 ltac:(lia)) as HM.
    rewrite NUM2LONG_ok, Vm by auto. unfold LONG_MIN, LONG_MAX.
    rewrite (proj2 (Z.leb_le _ _)), (proj2 (Z.leb_le _ 2147483647)) by lia. cbn [andb bind].
    rewrite Nat2Z.inj_succ, Z.pow_succ_r in HV by lia.
    edestruct (IH d) as (r & E & Cr & Hr); [exact Cd| |exists r; split; [exact E|split; [exact Cr|]]].
    { rewrite Vd. split; [apply Z.div_le_lower_bound; lia|apply Z.div_lt_upper_bound; lia]. }
    destruct (fst r); auto. now subst d.
Qed.

Lemma pack_w_settled x : item_fine x -> settled hand (pack_w x).
Proof.
  intros [HC HF]. destruct x as [|s|v|t bs]; cbn [item_ok] in HC; [cbn; auto|cbn; auto| |cbn; auto]. unfold pack_w.
  destruct v as [n|b|o]; [| |cbn; auto].
  2:{ assert (HB : - (1073741824 * 128 ^ Z.of_nat (ber_fuel (Big b))) <= value (Big b) < 1073741824 * 128 ^ Z.of_nat (ber_fuel (Big b))).
      { destruct HC as (Hd & _). cbn [value ber_fuel]. pose proof (eval_bound (digits b) Hd).
        pose proof (radix_128 (length (digits b))). unfold big_val. destruct (sign b); lia. }
      destruct (ber_big_settled _ (Big b) [] HC HB) as ([v buf] & -> & HC' & HX). cbn [bind fst] in *.
      destruct v as [n|b'|o]; [|contradiction|discriminate]. cbn [bind NUM2LONG]. apply FIXABLE_iff in HC'.
      destruct (Z.ltb_spec n 0); auto. rewrite u32_small by lia.
      destruct (ber_long_spec 5 n buf ltac:(cbn; lia)) as (ds & -> & _). cbn. auto. }
  cbn [ber_fuel ber_big bind NUM2LONG]. apply FIXABLE_iff in HC.
  destruct (Z.ltb_spec n 0); auto. rewrite u32_small by lia.
  destruct (ber_long_spec 5 n [] ltac:(cbn; lia)) as (ds & -> & _). cbn. auto.
Qed.

Lemma uv_to_utf8_settled uv : settled hand (uv_to_utf8 uv).
Proof. unfold uv_to_utf8. repeat match goal with |- settled hand (if ?b then _ else _) => destruct b; auto end. Qed.

Lemma pack_encoder_settled type enc x : pack_encoder type = Some enc -> (hands_over type = true -> hand) -> item_fine x ->
  settled hand (enc x).
Proof.
  unfold pack_encoder. intros HE HO Hx.
  assert (HS : forall n, settled hand (store_low n x)) by (intros; apply settled_bind; [now apply num2i32_settled|auto]).
  assert (HQ : settled hand (pack_q x)).
  { apply settled_bind; [now apply to_int_settled|]. intros v E. destruct x as [|s|w|t bs]; try discriminate.
    injection E as ->. unfold rb_quad_pack. destruct v as [n|b|o]; [..|now apply Hx]; cbn; destruct (QUAD_SIZE <? _); auto. }
  assert (HU : settled hand (pack_U x)).
  { unfold pack_U. apply settled_bind; [now apply to_int_settled|]. intros v E.
    destruct x as [|s|w|t bs]; try discriminate. injection E as ->. apply settled_bind; [now apply NUM2LONG_settled|].
    intros l _. destruct (l <? 0); auto using uv_to_utf8_settled. }
  repeat match type of HE with (if ?b then _ else _) = _ => destruct b eqn:?; [injection HE as <-; auto|] end; [..|discriminate].
  - apply settled_bind; [now apply num2i32_settled|auto].
  - apply settled_bind; [now apply num2i32_settled|auto].
  - apply settled_Delegate, HO. unfold hands_over, one_of in *. cbn [existsb] in *. lia.
  - unfold pack_pointer. assert (HN : hand) by (apply HO; unfold hands_over, one_of in *; cbn [existsb]; lia).
    destruct x as [|s|[n|b|o]|t bs]; cbn; auto.
  - now apply pack_w_settled.
Qed.

Definition args_ok (args : list item) : Prop := Forall item_fine args.

(** A result that leaves well-formed arguments. *)
Definition packed (r : outcome (list Z * list item)) : Prop :=
  match r with Ok (_, args) => args_ok args | Raise _ => True | Delegate => hand | Undefined => False end.

Lemma packed_bind (m : outcome (list Z)) args : settled hand m -> args_ok args -> packed (res <- m ;; Ok (res, args)).
Proof. destruct m; cbn; auto. Qed.

Lemma pack_each_packed enc n res args : (forall x, item_fine x -> settled hand (enc x)) -> args_ok args ->
  packed (pack_each enc n res args).
Proof.
  intros He. revert res args; induction n as [|n IH]; intros res args Ha; [exact Ha|]. cbn [pack_each].
  destruct Ha as [|x args Hx Ha]; [exact I|]. cbn [NEXTFROM bind]. specialize (He x Hx) as HD.
  destruct (enc x); cbn [bind settled packed] in *; auto.
Qed.

Lemma pack_directive_packed type len star res args : type <> 80 -> (hands_over type = true -> hand) -> 0 <= len -> args_ok args ->
  packed (pack_directive type len star res args).
Proof.
  intros HP HO Hl Ha. unfold pack_directive. destruct (pack_encoder type) as [enc|] eqn:EE.
  { apply pack_each_packed; auto. intros x. now apply pack_encoder_settled with type. }
  rewrite (proj2 (Z.eqb_neq _ _) HP).
  assert (HG : forall l, settled hand (grow res l)) by (intros; now apply cat_pad_settled).
  assert (HS : forall l, 0 <= l -> settled hand (shrink res l)).
  { intros l H0. unfold shrink. destruct (_ <? l); auto. rewrite (proj2 (Z.ltb_ge _ _)) by lia. auto. }
  destruct (one_of _ type).
  { destruct Ha as [|x args Hx Ha]; [exact I|]. cbn [NEXTFROM bind]. apply packed_bind; auto using pack_string_settled. }
  destruct (type =? 120); [now apply packed_bind|]. destruct (type =? 88); [apply packed_bind; auto|].
  destruct (type =? 64).
  { cbv zeta. destruct (0 <? s32 _); [now apply packed_bind|].
    destruct (Z.ltb_spec 0 (s32 (- s32 (len - Z.of_nat (length res))))); [apply packed_bind; auto; apply HS; lia|exact Ha]. }
  destruct (type =? 37); [exact I|]. destruct (_ || _)%bool.
  { destruct Ha as [|x args Hx Ha]; [exact I|]. cbn [NEXTFROM bind]. destruct Hx as [Hx HF]. destruct x as [|s|[n|b|o]|t bs]; try exact I; [|now apply HF].
    cbn [StringValue bind]. apply packed_bind; auto. destruct Hx as [Hb Hx]. destruct (pack_text_spec res s len type Hx) as [-> _]. auto. }
  destruct (Z.eqb_spec type 77) as [->|_]; [|exact Ha]. specialize (HO eq_refl).
  destruct Ha as [|x args Hx Ha]; [exact I|]. cbn [NEXTFROM bind]. destruct x as [|s|v|t bs]; try exact HO.
  cbn [bind]. apply packed_bind; auto. destruct Hx as [[Hb _] _]. destruct (qp_round_trip res s len Hb) as (t & -> & _). auto.
Qed.

Lemma pack_count_ok type items p : counts_ok p = true -> 0 <= items ->
  let '(len, _, q) := pack_count type items p in 0 <= len /\ suffix q p.
Proof.
  intros HC HI. unfold pack_count. destruct (deref p =? STAR).
  - split; [destruct (strchr _ type); lia|auto].
  - destruct (ISDIGIT (deref p)) eqn:ED; [|split; [lia|auto]].
    destruct (read_count_ok p HC ED) as [H1 H2]. destruct (read_count p) as [n q]. cbn [fst snd] in *. split; [lia|auto].
Qed.

Lemma pack_loop_settled fuel p res args : counts_ok p = true -> ~ In 80 p -> (forall c, In c p -> hands_over c = true -> hand) -> args_ok args -> (length p <= fuel)%nat ->
  settled hand (pack_loop fuel p res args).
Proof.
  revert p res args; induction fuel as [|fuel IH]; intros p res args HC HT HO Ha Hf;
    (destruct p as [|type p]; [exact I|]); [cbn in Hf; lia|]. cbn [length] in Hf. cbn [pack_loop].
  assert (HS : forall q, suffix q p -> (length q <= length p)%nat /\ counts_ok q = true /\ ~ In 80 q /\
    (forall c, In c q -> hands_over c = true -> hand)).
  { intros q Hq. assert (Hq' : suffix q (type :: p)) by eauto using suffix_trans.
    destruct Hq' as (a & E). splits; [auto|eapply counts_ok_suffix; [exists a; exact E|exact HC]|..]; rewrite E in *.
    - intros H. apply HT. apply in_or_app; auto.
    - intros c H. apply HO, in_or_app; auto. }
  destruct (HS p (suffix_refl p)) as (_ & HP2 & HP3 & HP4).
  destruct (ISSPACE type); [apply IH; auto; lia|].
  destruct (type =? HASH); [destruct (HS (skip_comment p)) as (H1 & H2 & H3 & H4); [apply suffix_skip_while|apply IH; auto; lia]|].
  pose proof (skip_native_settled type p) as HN. destruct (skip_native type p) as [q| | |] eqn:EN; cbn [bind]; try exact I; try contradiction.
  apply skip_native_suffix in EN. destruct (HS q EN) as (HQ1 & HQ2 & HQ3 & HQ4).
  pose proof (pack_count_ok type (Z.of_nat (length args)) q HQ2 ltac:(lia)) as HU.
  destruct (pack_count type (Z.of_nat (length args)) q) as [[len star] r]. destruct HU as [HU1 HU2].
  assert (HT' : type <> 80) by (intros ->; apply HT; now left).
  pose proof (pack_directive_packed type len star res args HT' (HO type (or_introl eq_refl)) HU1 Ha) as HD.
  destruct (pack_directive type len star res args) as [[res' args']| | |]; cbn [bind packed settled] in *; auto.
  destruct (HS r ltac:(eauto using suffix_trans)) as (HR1 & HR2 & HR3 & HR4).
  apply IH; auto. lia.
Qed.

End PackSafety.

(** C35: packing never reads or writes outside its strings and buffers: for
    every array of integers, strings shorter than 119304647 bytes, nil and other
    objects and every template with counts below 2 ^ 31 and without [P] it
    returns a string, of a size memory can hold, or raises.  Only where an object other than these is
    converted, or the template has a directive for Floats, [p] or [M], the work
    may be handed over to code that is not modelled. *)
Theorem pack_stays_inside ary fmt : Forall item_ok ary -> counts_ok fmt = true -> ~ In 80 fmt ->
  settled (existsb foreign ary = true \/ existsb hands_over fmt = true) (pack_pack ary fmt).
Proof.
  intros Ha HC HP. apply pack_loop_settled; auto.
  - intros c Hc Ho. right. apply existsb_exists. eauto.
  - unfold args_ok. rewrite Forall_forall in *. intros x Hx. split; auto. intros HF. left. apply existsb_exists. eauto.
Qed.

Lemma pack_stays_inside_witness :
  settled (existsb foreign [Num (Fix 7); Str [1; 2]] = true \/ existsb hands_over [119; 88; 64; 53; 109] = true)
    (pack_pack [Num (Fix 7); Str [1; 2]] [119; 88; 64; 53; 109]).
Proof.
  apply (pack_stays_inside [Num (Fix 7); Str [1; 2]] [119; 88; 64; 53; 109]); [|reflexivity|cbn; lia].
  repeat constructor; try (unfold byte; lia).
Defined.

(** A count of 4294967295 is -1 as a [long]: [X] then moves the end of the
    string beyond what was written, and [x] in a template of unpack moves
    before the string. *)
Example pack_X_grows : pack_pack [] [88; 52; 50; 57; 52; 57; 54; 55; 50; 57; 53] = Undefined.
Proof. reflexivity. Qed.
Example unpack_x_underflows : pack_unpack [7] [120; 52; 50; 57; 52; 57; 54; 55; 50; 57; 53; 97; 42] = Undefined.
Proof. reflexivity. Qed.
(** A byte of 128 and above indexes the table of base64 with a negative number. *)
Example unpack_m_high : pack_unpack [200] [109] = Undefined.
Proof. reflexivity. Qed.
(** [Q] returns nothing for a missing number where [q] returns nil. *)
Example unpack_Q_missing : pack_unpack [] [81] = Ok [] /\ pack_unpack [] [113] = Ok [Nil].
Proof. split; reflexivity. Qed.
