(* ===== verification/ArrayMem.v ===== *)
(** * Arrays: objects, element blocks and the effects of array.c

    src/ruby/array.c keeps the elements of an array in a block of [VALUE]s
    that several arrays may share.  An array either owns its block ([aux.capa]
    is its size) or has the flag [ELTS_SHARED] and points somewhere into the
    block of a hidden frozen array, [aux.shared].  This file has the objects
    and blocks as two heaps, the allocator of gc.c and the memory functions
    over them, the monad the operations of Array.v are written in, and the
    rules ([wp]) that reason about it. *)

From Stdlib Require Import ZArith Lia List Bool.
From stdpp Require Import base list gmap.
From S2P Require Import Prelude CInt.
Local Open Scope Z_scope.

(** ** Data *)

(** The objects array.c tells apart.  [Num] is a Fixnum or a Bignum, [Rng] a
    Range with integer ends, [Obj] any object without the conversions
    [to_ary] and [to_str]. *)
Inductive VALUE :=
  | Qnil
  | Qfalse
  | Qtrue
  | Num (n : Z)
  | Sym (id : Z)
  | Rng (first last : Z) (excl : bool)
  | Ary (a : positive)
  | Obj (id : Z).

#[export] Instance VALUE_eq_dec : EqDecision VALUE.
Proof. solve_decision. Defined.

Definition NIL_P (v : VALUE) : bool := match v with Qnil => true | _ => false end.
Definition RTEST (v : VALUE) : bool := match v with Qnil | Qfalse => false | _ => true end.

(** The union [aux] of [struct RArray]; [Shared] stands for the flag
    [ELTS_SHARED], which the code sets and clears together with the member it
    uses. *)
Inductive ary_aux :=
  | Capa (c : Z)
  | Shared (r : positive).

(** A pointer is null or a block and an index into it. *)
Abbreviation pointer := (option (positive * Z)).

Record RArray := mkArray {
  a_len : Z;
  a_ptr : pointer;
  a_aux : ary_aux;
  frozen : bool;
  tmplock : bool;
  tainted : bool
}.

Definition set_len (n : Z) (o : RArray) : RArray :=
  mkArray n (a_ptr o) (a_aux o) (frozen o) (tmplock o) (tainted o).
Definition set_ptr (p : pointer) (o : RArray) : RArray :=
  mkArray (a_len o) p (a_aux o) (frozen o) (tmplock o) (tainted o).
Definition set_aux (x : ary_aux) (o : RArray) : RArray :=
  mkArray (a_len o) (a_ptr o) x (frozen o) (tmplock o) (tainted o).
Definition set_frozen (o : RArray) : RArray :=
  mkArray (a_len o) (a_ptr o) (a_aux o) true (tmplock o) (tainted o).
Definition set_tmplock (t : bool) (o : RArray) : RArray :=
  mkArray (a_len o) (a_ptr o) (a_aux o) (frozen o) t (tainted o).
Definition set_tainted (t : bool) (o : RArray) : RArray :=
  mkArray (a_len o) (a_ptr o) (a_aux o) (frozen o) (tmplock o) t.

(** [None] is a word of a block that was never written. *)
Abbreviation cell := (option VALUE).

(** Arrays, the hidden arrays of [ary_make_shared] (no [VALUE] refers to one),
    and the allocated blocks. *)
Record memory := mkMemory {
  arys : gmap positive RArray;
  roots : gmap positive RArray;
  blocks : gmap positive (list cell);
  next_ary : positive;
  next_root : positive;
  next_block : positive
}.

(** [malloc_ok b n]: the system has [n] bytes when block [b] is asked for. *)
Class Machine := { malloc_ok : positive -> Z -> bool; safe_level : Z }.

(** ** Effects *)

(** An exception leaves the memory as it is at that point.  [Crash] is an
    access outside a block, to a freed block or to a word never written;
    [Handover] a call of a method that is not modelled, [Timeout] a loop that
    used up its fuel. *)
Inductive result (A : Type) :=
  | Val (a : A) (s : memory)
  | Exn (e : rb_error) (s : memory)
  | Crash
  | Handover
  | Timeout.
Arguments Val {A} a s.
Arguments Exn {A} e s.
Arguments Crash {A}.
Arguments Handover {A}.
Arguments Timeout {A}.

Definition M (A : Type) : Type := memory -> result A.

Definition ret {A} (a : A) : M A := fun s => Val a s.
Definition rb_raise {A} (e : rb_error) : M A := fun s => Exn e s.
Definition crash {A} : M A := fun _ => Crash.
Definition handover {A} : M A := fun _ => Handover.
Definition timeout {A} : M A := fun _ => Timeout.

Definition bindM {A C} (m : M A) (k : A -> M C) : M C := fun s =>
  match m s with
  | Val a s' => k a s'
  | Exn e s' => Exn e s'
  | Crash => Crash
  | Handover => Handover
  | Timeout => Timeout
  end.

Declare Scope array_scope.
Delimit Scope array_scope with array.
Notation "x <- m ;; k" := (bindM m (fun x => k))
  (at level 62, m at next level, right associativity) : array_scope.
Notation "' p <- m ;; k" := (bindM m (fun p => k))
  (at level 62, p pattern, m at next level, right associativity) : array_scope.
Notation "m ;;; k" := (bindM m (fun _ => k))
  (at level 62, right associativity) : array_scope.
Local Open Scope array_scope.

(** [RARRAY(a)] *)
Definition get (a : positive) : M RArray := fun s =>
  match arys s !! a with Some o => Val o s | None => Crash end.

Definition with_arys (f : gmap positive RArray -> gmap positive RArray) (s : memory) : memory :=
  mkMemory (f (arys s)) (roots s) (blocks s) (next_ary s) (next_root s) (next_block s).
Definition with_blocks (f : gmap positive (list cell) -> gmap positive (list cell)) (s : memory) : memory :=
  mkMemory (arys s) (roots s) (f (blocks s)) (next_ary s) (next_root s) (next_block s).

Definition upd (a : positive) (f : RArray -> RArray) : M unit := fun s =>
  match arys s !! a with
  | Some o => Val tt (with_arys (insert a (f o)) s)
  | None => Crash
  end.

(** [NEWOBJ], for an array and for a hidden array. *)
Definition new_ary (o : RArray) : M positive := fun s =>
  Val (next_ary s)
    (mkMemory (<[next_ary s := o]> (arys s)) (roots s) (blocks s)
       (Pos.succ (next_ary s)) (next_root s) (next_block s)).
Definition new_root (o : RArray) : M positive := fun s =>
  Val (next_root s)
    (mkMemory (arys s) (<[next_root s := o]> (roots s)) (blocks s)
       (next_ary s) (Pos.succ (next_root s)) (next_block s)).

(** ** Blocks *)

Definition new_block (cs : list cell) : M pointer := fun s =>
  Val (Some (next_block s, 0))
    (mkMemory (arys s) (roots s) (<[next_block s := cs]> (blocks s))
       (next_ary s) (next_root s) (Pos.succ (next_block s))).

Definition get_block (b : positive) : M (list cell) := fun s =>
  match blocks s !! b with Some cs => Val cs s | None => Crash end.

Definition padd (p : pointer) (i : Z) : pointer :=
  match p with Some (b, off) => Some (b, off + i) | None => None end.

Section Memory.
Context {machine : Machine}.

Definition has_memory (size : Z) : M bool := fun s => Val (malloc_ok (next_block s) size) s.

(** A size of 0 bytes asks for one, which holds no [VALUE]. *)
Definition xmalloc (size : Z) : M pointer :=
  if size <? 0 then rb_raise NoMemoryError else
  let size := if size =? 0 then 1 else size in
  ok <- has_memory size ;;
  if (ok : bool) then new_block (replicate (Z.to_nat (size / 4)) None) else rb_raise NoMemoryError.

(** [realloc] moves the block every time. *)
Definition xrealloc (p : pointer) (size : Z) : M pointer :=
  if size <? 0 then rb_raise ArgumentError else
  match p with
  | None => xmalloc size
  | Some (b, off) =>
      let size := if size =? 0 then 1 else size in
      ok <- has_memory size ;;
      if negb ok then rb_raise NoMemoryError else
      if negb (off =? 0) then crash else
      cs <- get_block b ;;
      let n := Z.to_nat (size / 4) in
      (fun s => Val tt (with_blocks (delete b) s)) ;;;
      new_block (resize n None cs)
  end.

(** [free] *)
Definition xfree (p : pointer) : M unit :=
  match p with
  | None => ret tt
  | Some (b, off) =>
      if negb (off =? 0) then crash else
      _ <- get_block b ;;
      (fun s => Val tt (with_blocks (delete b) s))
  end.

(** [sizeof(VALUE)*(n)] is unsigned, the parameter a [long]. *)
Definition ALLOC_N (n : Z) : M pointer := xmalloc (s32 (u32 (4 * n))).

(** [REALLOC_N(RARRAY(a)->ptr, VALUE, n)] *)
Definition REALLOC_N (a : positive) (n : Z) : M unit :=
  o <- get a ;;
  p <- xrealloc (a_ptr o) (s32 (u32 (4 * n))) ;;
  upd a (set_ptr p).

(** [p[i]] *)
Definition load (p : pointer) (i : Z) : M VALUE :=
  match p with
  | None => crash
  | Some (b, off) =>
      cs <- get_block b ;;
      if off + i <? 0 then crash else
      match cs !! Z.to_nat (off + i) with
      | Some (Some v) => ret v
      | _ => crash
      end
  end.

Definition in_block (off n : Z) (cs : list cell) : bool :=
  (0 <=? off) && (off + n <=? Z.of_nat (length cs)).

(** [n] words from [p] on, written or not. *)
Definition read_cells (p : pointer) (n : Z) : M (list cell) :=
  match p with
  | None => crash
  | Some (b, off) =>
      cs <- get_block b ;;
      if in_block off n cs then ret (take (Z.to_nat n) (drop (Z.to_nat off) cs)) else crash
  end.

Definition splice_cells (i : nat) (ds cs : list cell) : list cell :=
  take i cs ++ ds ++ drop (i + length ds) cs.

Definition write_cells (p : pointer) (ds : list cell) : M unit :=
  match p with
  | None => crash
  | Some (b, off) =>
      cs <- get_block b ;;
      if in_block off (Z.of_nat (length ds)) cs
      then fun s => Val tt (with_blocks (insert b (splice_cells (Z.to_nat off) ds cs)) s)
      else crash
  end.

(** [p[i] = v] *)
Definition store (p : pointer) (i : Z) (v : VALUE) : M unit := write_cells (padd p i) [Some v].

(** The number of words [sizeof(VALUE)*(n)] bytes are. *)
Definition words (n : Z) : Z := u32 (4 * n) / 4.

Definition MEMMOVE (d s : pointer) (n : Z) : M unit :=
  if words n =? 0 then ret tt else
  cs <- read_cells s (words n) ;;
  write_cells d cs.

Definition overlap (d s : pointer) (n : Z) : bool :=
  match d, s with
  | Some (b1, i), Some (b2, j) => (b1 =? b2)%positive && (i <? j + n) && (j <? i + n)
  | _, _ => false
  end.

(** [memcpy] is undefined on ranges that overlap. *)
Definition MEMCPY (d s : pointer) (n : Z) : M unit :=
  if overlap d s (words n) then crash else MEMMOVE d s n.

(** [while (size--) *mem++ = val], which a negative [size] only leaves through
    the end of the block. *)
Fixpoint fill_cells (off : nat) (size : Z) (val : VALUE) (cs : list cell) : option (list cell) :=
  if size =? 0 then Some cs else
  match cs with
  | [] => None
  | c :: cs =>
      match off with
      | O => cons (Some val) <$> fill_cells O (size - 1) val cs
      | S off => cons c <$> fill_cells off size val cs
      end
  end.

Definition memfill (mem : pointer) (size : Z) (val : VALUE) : M unit :=
  if size =? 0 then ret tt else
  match mem with
  | None => crash
  | Some (b, off) =>
      cs <- get_block b ;;
      if off <? 0 then crash else
      match fill_cells (Z.to_nat off) size val cs with
      | Some cs' => fun s => Val tt (with_blocks (insert b cs') s)
      | None => crash
      end
  end.

Definition rb_mem_clear (mem : pointer) (size : Z) : M unit := memfill mem size Qnil.

End Memory.
