(* ===== verification/Array.v ===== *)
(** * Arrays: the operations of array.c

    One definition per function, over the heaps of ArrayMem.v.  The functions
    that call back into Ruby code are in ArrayIter.v.  [argv] is a list; an
    index argument is any [VALUE], converted by [NUM2LONG] as in the code. *)

From Stdlib Require Import ZArith Lia List Bool.
From stdpp Require Import base list gmap.
From S2P Require Import Prelude CInt ArrayMem.
Local Open Scope Z_scope.
Local Open Scope array_scope.

Definition ARY_DEFAULT_SIZE : Z := 16.

(** ** Arguments *)

(** [Obj] and [Sym] have methods [to_int] of their own. *)
Definition NUM2LONG (v : VALUE) : M Z :=
  match v with
  | Num n => if (LONG_MIN <=? n) && (n <=? LONG_MAX) then ret n else rb_raise RangeError
  | Sym _ | Obj _ => handover
  | _ => rb_raise TypeError
  end.

Definition IS_FIXNUM (v : VALUE) : bool := match v with Num n => FIXABLE n | _ => false end.
Definition SYMBOL_P (v : VALUE) : bool := match v with Sym _ => true | _ => false end.

(** The results [Qfalse], [Qnil] and [Qtrue] with [*begp] and [*lenp].  With
    [err = 1] the second never happens: its callers would use [beg] and [len]
    without a value. *)
Inductive range_result := NotRange | OutOfRange | BegLen (beg len : Z).

Definition rb_range_beg_len (range : VALUE) (len err : Z) : M range_result :=
  match range with
  | Rng first last excl =>
      b <- NUM2LONG (Num first) ;;
      e <- NUM2LONG (Num last) ;;
      let out_of_range := if negb (err =? 0) then rb_raise RangeError else ret OutOfRange in
      let beg := if b <? 0 then s32 (b + len) else b in
      if beg <? 0 then out_of_range else
      let clip := (err =? 0) || (err =? 2) in
      if clip && (len <? beg) then out_of_range else
      let e := if clip && (len <? e) then len else e in
      let e := if e <? 0 then s32 (e + len) else e in
      let e := if excl then e else s32 (e + 1) in
      let n := s32 (e - beg) in
      ret (BegLen beg (if n <? 0 then 0 else n))
  | _ => ret NotRange
  end.

Section Array.
Context {machine : Machine}.

(** ** Ownership of the block *)

Definition rb_ary_modify_check (ary : positive) : M unit :=
  o <- get ary ;;
  if frozen o then rb_raise TypeError else
  if tmplock o then rb_raise RuntimeError else
  if negb (tainted o) && (4 <=? safe_level) then rb_raise SecurityError else ret tt.

Definition rb_ary_modify (ary : positive) : M unit :=
  rb_ary_modify_check ary ;;;
  o <- get ary ;;
  match a_aux o with
  | Capa _ => ret tt
  | Shared _ =>
      ptr <- ALLOC_N (a_len o) ;;
      upd ary (set_aux (Capa (a_len o))) ;;;
      MEMCPY ptr (a_ptr o) (a_len o) ;;;
      upd ary (set_ptr ptr)
  end.

(** [RARRAY(ary)->aux.capa], of an array without [ELTS_SHARED]. *)
Definition get_capa (ary : positive) : M Z :=
  o <- get ary ;;
  match a_aux o with Capa c => ret c | Shared _ => crash end.

Definition ary_make_shared (ary : positive) : M positive :=
  o <- get ary ;;
  match a_aux o with
  | Capa c =>
      shared <- new_root (mkArray (a_len o) (a_ptr o) (Capa c) true false (3 <=? safe_level)) ;;
      upd ary (set_aux (Shared shared)) ;;;
      ret shared
  | Shared r => ret r
  end.

Definition rb_ary_freeze (ary : positive) : M positive :=
  o <- get ary ;;
  if frozen o then ret ary else
  if (4 <=? safe_level) && negb (tainted o) then rb_raise SecurityError else
  upd ary set_frozen ;;; ret ary.

Definition rb_ary_frozen_p (ary : positive) : M bool :=
  o <- get ary ;; ret (frozen o || tmplock o).

(** ** Allocation *)

Definition ary_alloc : M positive :=
  new_ary (mkArray 0 None (Capa 0) false false (3 <=? safe_level)).

(** The first test is in [long]s, the second in unsigned words, since
    [sizeof(VALUE)] is. *)
Definition rb_ary_new2 (len : Z) : M positive :=
  ary <- ary_alloc ;;
  if len <? 0 then rb_raise ArgumentError else
  if (0 <? len) && (u32 (len * 4) <=? u32 len) then rb_raise ArgumentError else
  let len := if len =? 0 then len + 1 else len in
  p <- ALLOC_N len ;;
  upd ary (set_ptr p) ;;;
  upd ary (set_aux (Capa len)) ;;;
  ret ary.

Definition rb_ary_new : M positive := rb_ary_new2 ARY_DEFAULT_SIZE.

(** [rb_ary_new3] and [rb_ary_new4]: [n] given elements. *)
Definition rb_ary_new4 (elts : list VALUE) : M positive :=
  let n := Z.of_nat (length elts) in
  ary <- rb_ary_new2 n ;;
  o <- get ary ;;
  (if 0 <? n then write_cells (a_ptr o) (map Some elts) else ret tt) ;;;
  upd ary (set_len n) ;;;
  ret ary.

Definition rb_assoc_new (car cdr : VALUE) : M positive :=
  ary <- rb_ary_new2 2 ;;
  o <- get ary ;;
  store (a_ptr o) 0 car ;;;
  store (a_ptr o) 1 cdr ;;;
  upd ary (set_len 2) ;;;
  ret ary.

Definition rb_ary_s_create (argv : list VALUE) : M positive :=
  let argc := Z.of_nat (length argv) in
  ary <- ary_alloc ;;
  (if 0 <? argc then
     p <- ALLOC_N argc ;;
     upd ary (set_ptr p) ;;;
     write_cells p (map Some argv)
   else ret tt) ;;;
  upd ary (fun o => set_len argc (set_aux (Capa argc) o)) ;;;
  ret ary.

Definition to_ary (v : VALUE) : M positive :=
  match v with Ary a => ret a | _ => rb_raise TypeError end.

(** ** Elements at the ends *)

Definition rb_ary_store (ary : positive) (idx : Z) (val : VALUE) : M unit :=
  o <- get ary ;;
  idx <- (if idx <? 0 then
            let idx := s32 (idx + a_len o) in
            if idx <? 0 then rb_raise IndexError else ret idx
          else ret idx) ;;
  rb_ary_modify ary ;;;
  capa <- get_capa ary ;;
  (if capa <=? idx then
     let new_capa := cdiv capa 2 in
     let new_capa := if new_capa <? ARY_DEFAULT_SIZE then ARY_DEFAULT_SIZE else new_capa in
     let new_capa := s32 (new_capa + idx) in
     if s32 (new_capa * 4) <=? new_capa then rb_raise ArgumentError else
     REALLOC_N ary new_capa ;;;
     upd ary (set_aux (Capa new_capa))
   else ret tt) ;;;
  o <- get ary ;;
  (if a_len o <? idx
   then rb_mem_clear (padd (a_ptr o) (a_len o)) (s32 (s32 (idx - a_len o) + 1))
   else ret tt) ;;;
  (if a_len o <=? idx then upd ary (set_len (s32 (idx + 1))) else ret tt) ;;;
  store (a_ptr o) idx val.

Definition rb_ary_push (ary : positive) (item : VALUE) : M positive :=
  o <- get ary ;;
  rb_ary_store ary (a_len o) item ;;;
  ret ary.

Fixpoint rb_ary_push_m (argv : list VALUE) (ary : positive) : M positive :=
  match argv with
  | [] => ret ary
  | item :: argv => rb_ary_push ary item ;;; rb_ary_push_m argv ary
  end.

Definition rb_ary_pop (ary : positive) : M VALUE :=
  rb_ary_modify_check ary ;;;
  o <- get ary ;;
  if a_len o =? 0 then ret Qnil else
  match a_aux o with
  | Capa capa =>
      if (s32 (a_len o * 2) <? capa) && (ARY_DEFAULT_SIZE <? capa) then
        upd ary (set_aux (Capa (s32 (a_len o * 2)))) ;;;
        REALLOC_N ary (s32 (a_len o * 2))
      else ret tt
  | Shared _ => ret tt
  end ;;;
  let len := s32 (a_len o - 1) in
  upd ary (set_len len) ;;;
  o <- get ary ;;
  load (a_ptr o) len.

Definition rb_ary_shift (ary : positive) : M VALUE :=
  rb_ary_modify_check ary ;;;
  o <- get ary ;;
  if a_len o =? 0 then ret Qnil else
  top <- load (a_ptr o) 0 ;;
  _ <- ary_make_shared ary ;;
  upd ary (fun o => set_len (s32 (a_len o - 1)) (set_ptr (padd (a_ptr o) 1) o)) ;;;
  ret top.

(** [aux.capa] grows before the block does. *)
Definition rb_ary_unshift (ary : positive) (item : VALUE) : M positive :=
  rb_ary_modify ary ;;;
  capa <- get_capa ary ;;
  o <- get ary ;;
  (if a_len o =? capa then
     let capa_inc := cdiv capa 2 in
     let capa_inc := if capa_inc <? ARY_DEFAULT_SIZE then ARY_DEFAULT_SIZE else capa_inc in
     upd ary (set_aux (Capa (s32 (capa + capa_inc)))) ;;;
     REALLOC_N ary (s32 (capa + capa_inc))
   else ret tt) ;;;
  o <- get ary ;;
  MEMMOVE (padd (a_ptr o) 1) (a_ptr o) (a_len o) ;;;
  upd ary (set_len (s32 (a_len o + 1))) ;;;
  store (a_ptr o) 0 item ;;;
  ret ary.

Definition rb_ary_unshift_m (argv : list VALUE) (ary : positive) : M positive :=
  let argc := Z.of_nat (length argv) in
  o <- get ary ;;
  let len := a_len o in
  if argc =? 0 then ret ary else
  rb_ary_store ary (s32 (s32 (len + argc) - 1)) Qnil ;;;
  o <- get ary ;;
  MEMMOVE (padd (a_ptr o) argc) (a_ptr o) len ;;;
  write_cells (a_ptr o) (map Some argv) ;;;
  ret ary.

(** ** Reading *)

Definition rb_ary_elt (ary : positive) (offset : Z) : M VALUE :=
  o <- get ary ;;
  if a_len o =? 0 then ret Qnil else
  if (offset <? 0) || (a_len o <=? offset) then ret Qnil else
  load (a_ptr o) offset.

Definition rb_ary_entry (ary : positive) (offset : Z) : M VALUE :=
  o <- get ary ;;
  rb_ary_elt ary (if offset <? 0 then s32 (offset + a_len o) else offset).

Definition rb_ary_subseq (ary : positive) (beg len : Z) : M VALUE :=
  o <- get ary ;;
  if a_len o <? beg then ret Qnil else
  if (beg <? 0) || (len <? 0) then ret Qnil else
  let len := if a_len o <? s32 (beg + len)
             then let len := s32 (a_len o - beg) in if len <? 0 then 0 else len
             else len in
  if len =? 0 then ary2 <- rb_ary_new2 0 ;; ret (Ary ary2) else
  shared <- ary_make_shared ary ;;
  o <- get ary ;;
  ary2 <- ary_alloc ;;
  upd ary2 (set_ptr (padd (a_ptr o) beg)) ;;;
  upd ary2 (set_len len) ;;;
  upd ary2 (set_aux (Shared shared)) ;;;
  ret (Ary ary2).

Definition rb_ary_aref (argv : list VALUE) (ary : positive) : M VALUE :=
  match argv with
  | [arg1; arg2] =>
      if SYMBOL_P arg1 then rb_raise TypeError else
      beg <- NUM2LONG arg1 ;;
      len <- NUM2LONG arg2 ;;
      o <- get ary ;;
      rb_ary_subseq ary (if beg <? 0 then s32 (beg + a_len o) else beg) len
  | [arg] =>
      if IS_FIXNUM arg then i <- NUM2LONG arg ;; rb_ary_entry ary i else
      if SYMBOL_P arg then rb_raise TypeError else
      o <- get ary ;;
      r <- rb_range_beg_len arg (a_len o) 0 ;;
      match r with
      | NotRange => i <- NUM2LONG arg ;; rb_ary_entry ary i
      | OutOfRange => ret Qnil
      | BegLen beg len => rb_ary_subseq ary beg len
      end
  | _ => rb_raise ArgumentError
  end.

Definition rb_ary_at (ary : positive) (pos : VALUE) : M VALUE :=
  i <- NUM2LONG pos ;; rb_ary_entry ary i.

(** [for (...; n--; i++) rb_ary_push(result, RARRAY(ary)->ptr[i])] *)
Fixpoint push_range (n : nat) (result ary : positive) (i : Z) : M unit :=
  match n with
  | O => ret tt
  | S n =>
      o <- get ary ;;
      v <- load (a_ptr o) i ;;
      rb_ary_push result v ;;;
      push_range n result ary (i + 1)
  end.

Definition rb_ary_first (argv : list VALUE) (ary : positive) : M VALUE :=
  o <- get ary ;;
  match argv with
  | [] => if a_len o =? 0 then ret Qnil else load (a_ptr o) 0
  | [nv] =>
      n <- NUM2LONG nv ;;
      let n := if a_len o <? n then a_len o else n in
      result <- rb_ary_new2 n ;;
      push_range (Z.to_nat n) result ary 0 ;;;
      ret (Ary result)
  | _ => rb_raise ArgumentError
  end.

Definition rb_ary_last (argv : list VALUE) (ary : positive) : M VALUE :=
  o <- get ary ;;
  match argv with
  | [] => if a_len o =? 0 then ret Qnil else load (a_ptr o) (a_len o - 1)
  | [nv] =>
      n <- NUM2LONG nv ;;
      let n := if a_len o <? n then a_len o else n in
      result <- rb_ary_new2 n ;;
      push_range (Z.to_nat n) result ary (a_len o - n) ;;;
      ret (Ary result)
  | _ => rb_raise ArgumentError
  end.

(** Without a block. *)
Definition rb_ary_fetch (argv : list VALUE) (ary : positive) : M VALUE :=
  match argv with
  | pos :: ifnone =>
      if (1 <? Z.of_nat (length ifnone)) then rb_raise ArgumentError else
      idx <- NUM2LONG pos ;;
      o <- get ary ;;
      let idx := if idx <? 0 then s32 (idx + a_len o) else idx in
      if (idx <? 0) || (a_len o <=? idx) then
        match ifnone with [] => rb_raise IndexError | v :: _ => ret v end
      else load (a_ptr o) idx
  | [] => rb_raise ArgumentError
  end.

Definition rb_ary_length (ary : positive) : M VALUE := o <- get ary ;; ret (Num (a_len o)).

Definition rb_ary_empty_p (ary : positive) : M bool := o <- get ary ;; ret (a_len o =? 0).

Fixpoint rb_ary_indexes (argv : list VALUE) (new_ary ary : positive) : M positive :=
  match argv with
  | [] => ret new_ary
  | v :: argv =>
      x <- rb_ary_aref [v] ary ;;
      rb_ary_push new_ary x ;;;
      rb_ary_indexes argv new_ary ary
  end.

Fixpoint push_entries (n : nat) (result ary : positive) (i : Z) : M unit :=
  match n with
  | O => ret tt
  | S n =>
      v <- rb_ary_entry ary i ;;
      rb_ary_push result v ;;;
      push_entries n result ary (i + 1)
  end.

(** [rb_values_at] with [func] the function [rb_ary_entry]. *)
Fixpoint values_at_loop (argv : list VALUE) (result ary : positive) (olen : Z) : M unit :=
  match argv with
  | [] => ret tt
  | v :: argv =>
      (if IS_FIXNUM v then
         i <- NUM2LONG v ;; x <- rb_ary_entry ary i ;; rb_ary_push result x ;;; ret tt
       else
         r <- rb_range_beg_len v olen 0 ;;
         match r with
         | NotRange => i <- NUM2LONG v ;; x <- rb_ary_entry ary i ;; rb_ary_push result x ;;; ret tt
         | OutOfRange => ret tt
         | BegLen beg len => push_entries (Z.to_nat len) result ary beg
         end) ;;;
      values_at_loop argv result ary olen
  end.

Definition rb_ary_values_at (argv : list VALUE) (ary : positive) : M VALUE :=
  o <- get ary ;;
  result <- rb_ary_new2 (Z.of_nat (length argv)) ;;
  values_at_loop argv result ary (a_len o) ;;;
  ret (Ary result).

(** ** Replacing parts *)

Definition rb_ary_to_ary (v : VALUE) : M positive :=
  match v with
  | Ary a => ret a
  | _ => rb_ary_new4 [v]
  end.

(** From [rb_ary_modify] on.  [rpl] may be [ary] itself. *)
Definition splice_at (ary : positive) (beg len : Z) (rpl : option positive) (rlen : Z) : M unit :=
  rb_ary_modify ary ;;;
  o <- get ary ;;
  capa <- get_capa ary ;;
  if a_len o <=? beg then
    let len := s32 (beg + rlen) in
    (if capa <=? len then REALLOC_N ary len ;;; upd ary (set_aux (Capa len)) else ret tt) ;;;
    o <- get ary ;;
    rb_mem_clear (padd (a_ptr o) (a_len o)) (s32 (beg - a_len o)) ;;;
    match rpl with
    | Some r =>
        if 0 <? rlen then ro <- get r ;; MEMCPY (padd (a_ptr o) beg) (a_ptr ro) rlen else ret tt
    | None => ret tt
    end ;;;
    upd ary (set_len len)
  else
    let len := if a_len o <? s32 (beg + len) then s32 (a_len o - beg) else len in
    let alen := s32 (s32 (a_len o + rlen) - len) in
    (if capa <=? alen then REALLOC_N ary alen ;;; upd ary (set_aux (Capa alen)) else ret tt) ;;;
    o <- get ary ;;
    (if negb (len =? rlen) then
       MEMMOVE (padd (padd (a_ptr o) beg) rlen) (padd (padd (a_ptr o) beg) len)
         (s32 (a_len o - s32 (beg + len))) ;;;
       upd ary (set_len alen)
     else ret tt) ;;;
    match rpl with
    | Some r =>
        if 0 <? rlen then ro <- get r ;; MEMMOVE (padd (a_ptr o) beg) (a_ptr ro) rlen else ret tt
    | None => ret tt
    end.

Definition rb_ary_splice (ary : positive) (beg len : Z) (rpl : VALUE) : M unit :=
  if len <? 0 then rb_raise IndexError else
  o <- get ary ;;
  beg <- (if beg <? 0 then
            let beg := s32 (beg + a_len o) in
            if beg <? 0 then rb_raise IndexError else ret beg
          else ret beg) ;;
  let len := if a_len o <? s32 (beg + len) then s32 (a_len o - beg) else len in
  rpl <- (if NIL_P rpl then ret None else r <- rb_ary_to_ary rpl ;; ret (Some r)) ;;
  rlen <- match rpl with None => ret 0 | Some r => o <- get r ;; ret (a_len o) end ;;
  splice_at ary beg len rpl rlen.

Definition rb_ary_aset (argv : list VALUE) (ary : positive) : M VALUE :=
  match argv with
  | [arg0; arg1; arg2] =>
      if SYMBOL_P arg0 then rb_raise TypeError else
      if SYMBOL_P arg1 then rb_raise TypeError else
      beg <- NUM2LONG arg0 ;;
      len <- NUM2LONG arg1 ;;
      rb_ary_splice ary beg len arg2 ;;;
      ret arg2
  | [arg0; arg1] =>
      if IS_FIXNUM arg0 then
        offset <- NUM2LONG arg0 ;; rb_ary_store ary offset arg1 ;;; ret arg1
      else
      if SYMBOL_P arg0 then rb_raise TypeError else
      o <- get ary ;;
      r <- rb_range_beg_len arg0 (a_len o) 1 ;;
      match r with
      | NotRange => offset <- NUM2LONG arg0 ;; rb_ary_store ary offset arg1 ;;; ret arg1
      | OutOfRange => crash
      | BegLen beg len => rb_ary_splice ary beg len arg1 ;;; ret arg1
      end
  | _ => rb_raise ArgumentError
  end.

Definition rb_ary_insert (argv : list VALUE) (ary : positive) : M positive :=
  match argv with
  | [] => rb_raise ArgumentError
  | arg0 :: argv =>
      pos <- NUM2LONG arg0 ;;
      o <- get ary ;;
      let pos := if pos =? -1 then a_len o else if pos <? 0 then pos + 1 else pos in
      match argv with
      | [] => ret ary
      | _ =>
          rpl <- rb_ary_new4 argv ;;
          rb_ary_splice ary pos 0 (Ary rpl) ;;;
          ret ary
      end
  end.

Definition rb_ary_concat (x : positive) (y : VALUE) : M positive :=
  y <- to_ary y ;;
  oy <- get y ;;
  (if 0 <? a_len oy then ox <- get x ;; rb_ary_splice x (a_len ox) 0 (Ary y) else ret tt) ;;;
  ret x.

(** ** Copies *)

Definition rb_ary_dup (ary : positive) : M positive :=
  o <- get ary ;;
  dup <- rb_ary_new2 (a_len o) ;;
  upd dup (set_tainted (tainted o || (3 <=? safe_level))) ;;;
  d <- get dup ;;
  MEMCPY (a_ptr d) (a_ptr o) (a_len o) ;;;
  upd dup (set_len (a_len o)) ;;;
  ret dup.

Definition rb_ary_replace (copy : positive) (orig : VALUE) : M positive :=
  rb_ary_modify copy ;;;
  orig <- to_ary orig ;;
  if (copy =? orig)%positive then ret copy else
  shared <- ary_make_shared orig ;;
  c <- get copy ;;
  match a_ptr c, a_aux c with
  | Some _, Capa _ => xfree (a_ptr c)
  | _, _ => ret tt
  end ;;;
  o <- get orig ;;
  upd copy (set_ptr (a_ptr o)) ;;;
  upd copy (set_len (a_len o)) ;;;
  upd copy (set_aux (Shared shared)) ;;;
  ret copy.

Definition rb_ary_plus (x : positive) (y : VALUE) : M positive :=
  y <- to_ary y ;;
  ox <- get x ;;
  oy <- get y ;;
  let len := s32 (a_len ox + a_len oy) in
  z <- rb_ary_new2 len ;;
  oz <- get z ;;
  MEMCPY (a_ptr oz) (a_ptr ox) (a_len ox) ;;;
  MEMCPY (padd (a_ptr oz) (a_len ox)) (a_ptr oy) (a_len oy) ;;;
  upd z (set_len len) ;;;
  ret z.

(** [for (i=0; i<len; i+=RARRAY(ary)->len)], with [n] iterations. *)
Fixpoint times_loop (n : nat) (p2 p : pointer) (step i len : Z) : M unit :=
  if len <=? i then ret tt else
  match n with
  | O => timeout
  | S n => MEMCPY (padd p2 i) p step ;;; times_loop n p2 p step (s32 (i + step)) len
  end.

(** [times] is not a String. *)
Definition rb_ary_times (ary : positive) (times : VALUE) : M positive :=
  n <- NUM2LONG times ;;
  if n =? 0 then rb_ary_new2 0 else
  if n <? 0 then rb_raise ArgumentError else
  o <- get ary ;;
  if cdiv LONG_MAX n <? a_len o then rb_raise ArgumentError else
  let len := s32 (n * a_len o) in
  ary2 <- rb_ary_new2 len ;;
  upd ary2 (set_len len) ;;;
  o2 <- get ary2 ;;
  times_loop (Z.to_nat n) (a_ptr o2) (a_ptr o) (a_len o) 0 len ;;;
  upd ary2 (fun o2 => set_tainted (tainted o2 || tainted o) o2) ;;;
  ret ary2.

(** ** Changing in place *)

Definition rb_ary_clear (ary : positive) : M positive :=
  rb_ary_modify ary ;;;
  upd ary (set_len 0) ;;;
  capa <- get_capa ary ;;
  (if ARY_DEFAULT_SIZE * 2 <? capa then
     REALLOC_N ary (ARY_DEFAULT_SIZE * 2) ;;;
     upd ary (set_aux (Capa (ARY_DEFAULT_SIZE * 2)))
   else ret tt) ;;;
  ret ary.

(** [while (p1 < p2)]; [p1] and [p2] are indices into the block. *)
Fixpoint reverse_loop (fuel : nat) (ptr : pointer) (p1 p2 : Z) : M unit :=
  if p1 <? p2 then
    match fuel with
    | O => timeout
    | S fuel =>
        tmp <- load ptr p1 ;;
        x <- load ptr p2 ;;
        store ptr p1 x ;;;
        store ptr p2 tmp ;;;
        reverse_loop fuel ptr (p1 + 1) (p2 - 1)
    end
  else ret tt.

Definition rb_ary_reverse (ary : positive) : M positive :=
  rb_ary_modify ary ;;;
  o <- get ary ;;
  (if 1 <? a_len o
   then reverse_loop (Z.to_nat (a_len o)) (a_ptr o) 0 (a_len o - 1)
   else ret tt) ;;;
  ret ary.

Definition rb_ary_reverse_m (ary : positive) : M positive :=
  dup <- rb_ary_dup ary ;; rb_ary_reverse dup.

(** [for (i = pos + 1; i < len; i++, pos++)]; the result is [pos]. *)
Fixpoint delete_loop (fuel : nat) (ptr : pointer) (i pos len : Z) : M Z :=
  if i <? len then
    match fuel with
    | O => timeout
    | S fuel =>
        v <- load ptr i ;;
        store ptr pos v ;;;
        delete_loop fuel ptr (i + 1) (pos + 1) len
    end
  else ret pos.

Definition rb_ary_delete_at (ary : positive) (pos : Z) : M VALUE :=
  o <- get ary ;;
  let len := a_len o in
  if len <=? pos then ret Qnil else
  let pos := if pos <? 0 then s32 (pos + len) else pos in
  if pos <? 0 then ret Qnil else
  rb_ary_modify ary ;;;
  o <- get ary ;;
  del <- load (a_ptr o) pos ;;
  pos <- delete_loop (Z.to_nat len) (a_ptr o) (pos + 1) pos len ;;
  upd ary (set_len pos) ;;;
  ret del.

Definition rb_ary_delete_at_m (ary : positive) (pos : VALUE) : M VALUE :=
  i <- NUM2LONG pos ;; rb_ary_delete_at ary i.

(** The code after the label [delete_pos_len]. *)
Definition delete_pos_len (ary : positive) (pos len : Z) : M VALUE :=
  o <- get ary ;;
  let pos := if pos <? 0 then s32 (a_len o + pos) else pos in
  arg2 <- rb_ary_subseq ary pos len ;;
  rb_ary_splice ary pos len Qnil ;;;
  ret arg2.

Definition rb_ary_slice_bang (argv : list VALUE) (ary : positive) : M VALUE :=
  match argv with
  | [arg1; arg2] =>
      pos <- NUM2LONG arg1 ;;
      len <- NUM2LONG arg2 ;;
      delete_pos_len ary pos len
  | [arg1] =>
      if IS_FIXNUM arg1 then i <- NUM2LONG arg1 ;; rb_ary_delete_at ary i else
      o <- get ary ;;
      r <- rb_range_beg_len arg1 (a_len o) 1 ;;
      match r with
      | NotRange => i <- NUM2LONG arg1 ;; rb_ary_delete_at ary i
      | OutOfRange => crash
      | BegLen pos len => delete_pos_len ary pos len
      end
  | _ => rb_raise ArgumentError
  end.

(** [while (t < end)]; the result is [p]. *)
Fixpoint compact_loop (fuel : nat) (ptr : pointer) (p t len : Z) : M Z :=
  if t <? len then
    match fuel with
    | O => timeout
    | S fuel =>
        v <- load ptr t ;;
        if NIL_P v then compact_loop fuel ptr p (t + 1) len
        else store ptr p v ;;; compact_loop fuel ptr (p + 1) (t + 1) len
    end
  else ret p.

(** The result is [None] for [Qnil]. *)
Definition rb_ary_compact_bang (ary : positive) : M (option positive) :=
  rb_ary_modify ary ;;;
  o <- get ary ;;
  p <- compact_loop (Z.to_nat (a_len o)) (a_ptr o) 0 0 (a_len o) ;;
  if a_len o =? p then ret None else
  upd ary (fun o => set_len p (set_aux (Capa p) o)) ;;;
  REALLOC_N ary p ;;;
  ret (Some ary).

Definition rb_ary_compact (ary : positive) : M positive :=
  dup <- rb_ary_dup ary ;;
  _ <- rb_ary_compact_bang dup ;;
  ret dup.

Fixpoint nitems_loop (fuel : nat) (ptr : pointer) (p pend n : Z) : M Z :=
  if p <? pend then
    match fuel with
    | O => timeout
    | S fuel =>
        v <- load ptr p ;;
        nitems_loop fuel ptr (p + 1) pend (if NIL_P v then n else n + 1)
    end
  else ret n.

Definition rb_ary_nitems (ary : positive) : M Z :=
  o <- get ary ;;
  nitems_loop (Z.to_nat (a_len o)) (a_ptr o) 0 (a_len o) 0.

(** The arguments of [fill] after the item, and the length of [ary], give
    [beg] and [len]. *)
Definition fill_range (args : list VALUE) (alen : Z) : M (Z * Z) :=
  let case_3 (arg1 arg2 : VALUE) :=
    beg <- (if NIL_P arg1 then ret 0 else NUM2LONG arg1) ;;
    let beg := if beg <? 0 then let beg := s32 (alen + beg) in if beg <? 0 then 0 else beg else beg in
    len <- (if NIL_P arg2 then ret (s32 (alen - beg)) else NUM2LONG arg2) ;;
    ret (beg, len) in
  match args with
  | [] => ret (0, alen)
  | [arg1] =>
      r <- rb_range_beg_len arg1 alen 1 ;;
      match r with
      | NotRange => case_3 arg1 Qnil
      | OutOfRange => crash
      | BegLen beg len => ret (beg, len)
      end
  | [arg1; arg2] => case_3 arg1 arg2
  | _ => rb_raise ArgumentError
  end.

(** Up to the choice between block and item; the result is [end]. *)
Definition fill_extend (ary : positive) (beg len : Z) : M Z :=
  rb_ary_modify ary ;;;
  let end_ := s32 (beg + len) in
  o <- get ary ;;
  (if a_len o <? end_ then
     capa <- get_capa ary ;;
     (if capa <=? end_ then REALLOC_N ary end_ ;;; upd ary (set_aux (Capa end_)) else ret tt) ;;;
     o <- get ary ;;
     (if a_len o <? beg
      then rb_mem_clear (padd (a_ptr o) (a_len o)) (s32 (end_ - a_len o))
      else ret tt) ;;;
     upd ary (set_len end_)
   else ret tt) ;;;
  ret end_.

(** Without a block; [while (p < pend) *p++ = item]. *)
Definition rb_ary_fill (argv : list VALUE) (ary : positive) : M positive :=
  match argv with
  | [] => rb_raise ArgumentError
  | item :: args =>
      o <- get ary ;;
      '(beg, len) <- fill_range args (a_len o) ;;
      _ <- fill_extend ary beg len ;;
      o <- get ary ;;
      (if 0 <? len then memfill (padd (a_ptr o) beg) len item else ret tt) ;;;
      ret ary
  end.

(** Without a block. *)
Definition rb_ary_initialize (argv : list VALUE) (ary : positive) : M positive :=
  match argv with
  | [] => upd ary (set_len 0) ;;; ret ary
  | [Ary orig] => rb_ary_replace ary (Ary orig) ;;; ret ary
  | size :: val =>
      if 1 <? Z.of_nat (length val) then rb_raise ArgumentError else
      let val := match val with v :: _ => v | [] => Qnil end in
      len <- NUM2LONG size ;;
      if len <? 0 then rb_raise ArgumentError else
      if (0 <? len) && (s32 (len * 4) <=? len) then rb_raise ArgumentError else
      rb_ary_modify ary ;;;
      capa <- get_capa ary ;;
      (if capa <? len then REALLOC_N ary len ;;; upd ary (set_aux (Capa len)) else ret tt) ;;;
      o <- get ary ;;
      memfill (a_ptr o) len val ;;;
      upd ary (set_len len) ;;;
      ret ary
  end.
End Array.
