(* ===== verification/ArrayInv.v ===== *)
(** * Arrays: the invariant of sharing, and the rules of reasoning

    [wf] says what keeps copy-on-write sound: every block has one owner, an
    array or a hidden array, and an array that shares points into the block of
    its hidden array.  [abs] forgets blocks and sharing.  An operation works on
    one array at a time: [focus] is the state while it does, where that
    array's block may be in any condition and everything else is as it was;
    the rules below run the memory functions in such a state, and [focus_done]
    returns to the invariant. *)

From Stdlib Require Import ZArith Lia List Bool.
From stdpp Require Import base list gmap.
From S2P Require Import Prelude CInt ArrayMem Array.
Local Open Scope Z_scope.
Local Open Scope array_scope.

(** ** Abstract arrays *)

Record alist := mkList {
  elts : list VALUE;
  l_frozen : bool;
  l_locked : bool;
  l_tainted : bool
}.

Definition values (cs : list cell) : option (list VALUE) := mapM id cs.

(** The elements of an array, if its words are allocated and written. *)
Definition view (s : memory) (o : RArray) : option (list VALUE) :=
  match a_ptr o with
  | None => if a_len o =? 0 then Some [] else None
  | Some (b, off) =>
      cs ← blocks s !! b;
      if in_block off (a_len o) cs
      then values (take (Z.to_nat (a_len o)) (drop (Z.to_nat off) cs)) else None
  end.

Definition abs_ary (s : memory) (o : RArray) : option alist :=
  l ← view s o; Some (mkList l (frozen o) (tmplock o) (tainted o)).

Definition abs (s : memory) : gmap positive alist := omap (abs_ary s) (arys s).

(** ** The invariant *)

(** A block of 2^29 words has 2^31 bytes. *)
Definition ARY_MAX : Z := 2 ^ 29.

Definition ary_ok (s : memory) (o : RArray) : Prop :=
  0 <= a_len o < ARY_MAX /\
  is_Some (view s o) /\
  match a_aux o with
  | Capa c =>
      a_len o <= c < ARY_MAX /\
      match a_ptr o with
      | None => c = 0
      | Some (b, off) => off = 0 /\ exists cs, blocks s !! b = Some cs /\ c <= Z.of_nat (length cs)
      end
  | Shared r =>
      exists ro, roots s !! r = Some ro /\
      match a_ptr o with
      | None => True
      | Some (b, off) => exists off', a_ptr ro = Some (b, off')
      end
  end.

Definition block_of (o : RArray) : option positive := fst <$> a_ptr o.

(** The block an array owns, and the one a hidden array owns. *)
Definition owned_block (o : RArray) : option positive :=
  match a_aux o with Capa _ => block_of o | Shared _ => None end.

Definition owns (s : memory) (k : positive + positive) : option positive :=
  match k with
  | inl a => o ← arys s !! a; owned_block o
  | inr r => o ← roots s !! r; block_of o
  end.

Record wf (s : memory) : Prop := {
  w_arys : forall a o, arys s !! a = Some o -> ary_ok s o;
  w_roots : forall r ro b, roots s !! r = Some ro -> block_of ro = Some b -> is_Some (blocks s !! b);
  w_own : forall k1 k2 b, owns s k1 = Some b -> owns s k2 = Some b -> k1 = k2;
  w_next_ary : forall a, (next_ary s <= a)%positive -> arys s !! a = None;
  w_next_root : forall r, (next_root s <= r)%positive -> roots s !! r = None;
  w_next_block : forall b, (next_block s <= b)%positive -> blocks s !! b = None
}.

(** ** The program logic *)

Definition wp {A} (m : M A) (s : memory) (Q : A -> memory -> Prop)
    (E : rb_error -> memory -> Prop) : Prop :=
  match m s with
  | Val a s' => Q a s'
  | Exn e s' => E e s'
  | _ => False
  end.

Lemma wp_ret {A} (a : A) s (Q : A -> memory -> Prop) E : Q a s -> wp (ret a) s Q E.
Proof. done. Qed.

Lemma wp_raise {A} e s (Q : A -> memory -> Prop) (E : rb_error -> memory -> Prop) :
  E e s -> wp (rb_raise e) s Q E.
Proof. done. Qed.

Lemma wp_bind {A C} (m : M A) (k : A -> M C) s Q E :
  wp m s (fun a s' => wp (k a) s' Q E) E -> wp (bindM m k) s Q E.
Proof. unfold wp, bindM. now destruct (m s). Qed.

Lemma wp_mono {A} (m : M A) s (Q Q' : A -> memory -> Prop) (E E' : rb_error -> memory -> Prop) :
  wp m s Q E -> (forall a s', Q a s' -> Q' a s') -> (forall e s', E e s' -> E' e s') -> wp m s Q' E'.
Proof. unfold wp. destruct (m s); auto. Qed.

Lemma wp_get a s o Q E : arys s !! a = Some o -> Q o s -> wp (get a) s Q E.
Proof. unfold wp, get. now intros ->. Qed.

(** Steps over a bind, a [ret] or a [rb_raise] at the head of a program. *)
Ltac wp_step :=
  match goal with
  | |- wp (bindM _ _) _ _ _ => apply wp_bind
  | |- wp (ret _) _ _ _ => apply wp_ret
  | |- wp (rb_raise _) _ _ _ => apply wp_raise
  end.
Ltac wp_steps := repeat (wp_step; cbv beta zeta).

(** Case analysis on the condition of the conditional at the head. *)
Ltac wp_if :=
  match goal with
  | |- wp (if ?b then _ else _) _ _ _ => case_bool b; breflect
  | |- wp (bindM (if ?b then _ else _) _) _ _ _ => case_bool b; breflect
  end.

(** ** Cells *)

Lemma values_Some (cs : list cell) (l : list VALUE) : values cs = Some l <-> cs = Some <$> l.
Proof.
  unfold values. split.
  - intros H%mapM_Some. induction H as [|c v cs l Hc _ IH]; [reflexivity|].
    unfold id in Hc. subst c. rewrite IH. reflexivity.
  - intros ->. apply mapM_Some. induction l; simpl; constructor; auto.
Qed.

(** The words a view reads. *)
Lemma view_block s o l b off :
  a_ptr o = Some (b, off) -> view s o = Some l ->
  exists cs, blocks s !! b = Some cs /\ in_block off (a_len o) cs = true /\
    take (Z.to_nat (a_len o)) (drop (Z.to_nat off) cs) = Some <$> l.
Proof.
  unfold view. intros -> H. destruct (blocks s !! b) as [cs|]; simpl in H; [|discriminate].
  destruct (in_block off (a_len o) cs) eqn:E; [|discriminate].
  exists cs. splits; auto. now apply values_Some.
Qed.

Lemma view_length s o l : 0 <= a_len o -> view s o = Some l -> Z.of_nat (length l) = a_len o.
Proof.
  intros Hn H. destruct (a_ptr o) as [[b off]|] eqn:Ep.
  - destruct (view_block _ _ _ _ _ Ep H) as (cs & _ & Hin & Ht).
    apply (f_equal length) in Ht. rewrite length_take, length_drop, length_fmap in Ht.
    unfold in_block in Hin. breflect. lia.
  - unfold view in H. rewrite Ep in H. destruct (a_len o =? 0) eqn:E; [|discriminate].
    breflect. injection H as <-. simpl. lia.
Qed.

(** A view depends on one block only. *)
Lemma view_ext s s' o :
  (forall b, block_of o = Some b -> blocks s' !! b = blocks s !! b) -> view s' o = view s o.
Proof.
  unfold view, block_of. destruct (a_ptr o) as [[b off]|]; simpl; [|reflexivity].
  intros H. now rewrite H.
Qed.

Lemma view_own s o l cs c :
  a_len o = Z.of_nat (length l) ->
  take (length l) cs = Some <$> l ->
  a_len o <= c <= Z.of_nat (length cs) ->
  match a_ptr o with
  | None => cs = []
  | Some (b, off) => off = 0 /\ blocks s !! b = Some cs
  end ->
  view s o = Some l.
Proof.
  intros Hl Ht Hc H. unfold view. destruct (a_ptr o) as [[b off]|].
  - destruct H as [-> ->]. simpl. unfold in_block. rewrite drop_0, Hl, Nat2Z.id.
    destruct (_ && _) eqn:E; breflect.
    + now apply values_Some.
    + destruct E as [E|E]; breflect; lia.
  - subst cs. simpl in Hc. destruct l; [|simpl in Hl; lia]. now rewrite Hl.
Qed.

(** ** One array at a time *)

(** The blocks of all arrays but [a]. *)
Definition others (s : memory) (a : positive) : gmap positive (list cell) :=
  match owns s (inl a) with Some b => delete b (blocks s) | None => blocks s end.

Record focus (s0 : memory) (a : positive) (s : memory) (o : RArray) (cs : list cell) : Prop := {
  f_wf : wf s0;
  f_arys : arys s = <[a := o]> (arys s0);
  f_roots : roots s = roots s0;
  f_blocks :
    match a_ptr o with
    | None => cs = [] /\ blocks s = others s0 a
    | Some (b, off) => off = 0 /\ others s0 a !! b = None /\ blocks s = <[b := cs]> (others s0 a)
    end;
  f_next_ary : next_ary s = Pos.max (next_ary s0) (Pos.succ a);
  f_next_root : next_root s = next_root s0;
  f_next_block : forall b, (next_block s <= b)%positive -> blocks s !! b = None;
  f_next_block0 : (next_block s0 <= next_block s)%positive
}.

Lemma others_Some s a b cs :
  others s a !! b = Some cs <-> blocks s !! b = Some cs /\ owns s (inl a) <> Some b.
Proof.
  unfold others. destruct (owns s (inl a)) as [b'|].
  - rewrite lookup_delete_Some. split; intros [H1 H2]; split; auto; congruence.
  - split; [intros H; split; auto | now intros [H _]].
Qed.

Lemma others_fresh s a b : wf s -> (next_block s <= b)%positive -> others s a !! b = None.
Proof.
  intros W Hb. destruct (others s a !! b) as [cs|] eqn:E; [|reflexivity].
  apply others_Some in E as [E _]. rewrite (w_next_block s W b Hb) in E. discriminate.
Qed.

Lemma owns_ary s a o : arys s !! a = Some o -> owns s (inl a) = owned_block o.
Proof. simpl. intros ->. reflexivity. Qed.

(** The block another array points into is not [a]'s. *)
Lemma block_foreign s a x o b :
  wf s -> x <> a -> arys s !! x = Some o -> block_of o = Some b -> owns s (inl a) <> Some b.
Proof.
  intros W Hx Ho Hb Ha. destruct (w_arys s W x o Ho) as (_ & _ & H).
  destruct (a_aux o) as [c|r] eqn:Ex.
  - assert (owns s (inl x) = Some b) as Hown.
    { rewrite (owns_ary _ _ _ Ho). unfold owned_block. now rewrite Ex. }
    pose proof (w_own s W _ _ _ Hown Ha). congruence.
  - destruct H as (ro & Hr & H). unfold block_of in Hb.
    destruct (a_ptr o) as [[b' off]|]; simpl in Hb; [|discriminate]. injection Hb as ->.
    destruct H as (off' & Hp).
    assert (owns s (inr r) = Some b) as Hown.
    { simpl. rewrite Hr. simpl. unfold block_of. now rewrite Hp. }
    pose proof (w_own s W _ _ _ Hown Ha). discriminate.
Qed.

Lemma block_allocated s x o b :
  wf s -> arys s !! x = Some o -> block_of o = Some b -> is_Some (blocks s !! b).
Proof.
  intros W Ho Hb. destruct (w_arys s W x o Ho) as (_ & [l Hv] & _). unfold block_of in Hb.
  destruct (a_ptr o) as [[b' off]|] eqn:Ep; simpl in Hb; [|discriminate]. injection Hb as ->.
  destruct (view_block _ _ _ _ _ Ep Hv) as (cs & Hcs & _). eauto.
Qed.

(** The other arrays are as they were. *)
Lemma focus_foreign s0 a s o cs x ox b :
  focus s0 a s o cs -> x <> a -> arys s0 !! x = Some ox -> block_of ox = Some b ->
  blocks s !! b = blocks s0 !! b.
Proof.
  intros [W _ _ Hb _ _ _ _] Hx Hox Hbx.
  destruct (block_allocated _ _ _ _ W Hox Hbx) as [cx Hcx].
  pose proof (block_foreign _ a _ _ _ W Hx Hox Hbx) as Hn.
  assert (others s0 a !! b = Some cx) as Ho by (apply others_Some; auto).
  rewrite Hcx. destruct (a_ptr o) as [[bo off]|].
  - destruct Hb as (_ & Hf & ->). rewrite lookup_insert_ne; [exact Ho | congruence].
  - destruct Hb as [_ ->]. exact Ho.
Qed.

Lemma focus_view s0 a s o cs x ox :
  focus s0 a s o cs -> x <> a -> arys s0 !! x = Some ox -> view s ox = view s0 ox.
Proof. intros F Hx Ho. apply view_ext. intros b Hb. eapply focus_foreign; eauto. Qed.

Lemma focus_get s0 a s o cs Q E : focus s0 a s o cs -> Q o s -> wp (get a) s Q E.
Proof. intros F. apply wp_get. rewrite (f_arys _ _ _ _ _ F). apply lookup_insert_eq. Qed.

Lemma focus_get_other s0 a s o cs x ox Q E :
  focus s0 a s o cs -> x <> a -> arys s0 !! x = Some ox -> Q ox s -> wp (get x) s Q E.
Proof.
  intros F Hx Ho. apply wp_get. rewrite (f_arys _ _ _ _ _ F), lookup_insert_ne by congruence. exact Ho.
Qed.

Lemma focus_upd s0 a s o cs f Q E :
  focus s0 a s o cs -> a_ptr (f o) = a_ptr o ->
  (forall s', focus s0 a s' (f o) cs -> Q tt s') -> wp (upd a f) s Q E.
Proof.
  intros F Hp HQ. unfold wp, upd. rewrite (f_arys _ _ _ _ _ F), lookup_insert_eq. apply HQ.
  destruct F as [F1 F2 F3 F4 F5 F6 F7 F8]. constructor; simpl; auto.
  - now rewrite F2, insert_insert_eq.
  - now rewrite Hp.
Qed.

(** The block of [a] is replaced by a new one. *)
Lemma focus_move s0 a s o cs cs' :
  focus s0 a s o cs ->
  focus s0 a (mkMemory (<[a := set_ptr (Some (next_block s, 0)) o]> (arys s0)) (roots s)
                (<[next_block s := cs']> (others s0 a)) (next_ary s) (next_root s) (Pos.succ (next_block s)))
    (set_ptr (Some (next_block s, 0)) o) cs'.
Proof.
  intros [F1 F2 F3 F4 F5 F6 F7 F8].
  constructor; simpl; auto; [split; [reflexivity | split; [|reflexivity]] | | lia].
  - apply others_fresh; [exact F1 | lia].
  - intros b Hb. rewrite lookup_insert_ne by lia. apply others_fresh; [exact F1 | lia].
Qed.

Lemma focus_delete s0 a s o cs b off :
  focus s0 a s o cs -> a_ptr o = Some (b, off) -> delete b (blocks s) = others s0 a.
Proof.
  intros F Hp. pose proof (f_blocks _ _ _ _ _ F) as Hb. rewrite Hp in Hb.
  destruct Hb as (_ & Hn & ->). now apply delete_insert_id.
Qed.

(** ** The memory functions in a focus *)

Section Rules.
Context {machine : Machine}.

Definition bytes (n : Z) : Z := s32 (u32 (4 * n)).

Lemma bytes_small n : 0 <= n < ARY_MAX -> bytes n = 4 * n.
Proof.
  intros H. change ARY_MAX with 536870912 in H. unfold bytes.
  rewrite u32_small by lia. apply s32_small; lia.
Qed.

(** Up to 2^30 words, a size that is not negative has not wrapped. *)
Lemma bytes_max n : 0 <= n < 2 ^ 30 -> 0 <= bytes n -> n < ARY_MAX.
Proof.
  intros Hn Hb. change (2 ^ 30) with 1073741824 in Hn. change ARY_MAX with 536870912.
  unfold bytes in Hb. rewrite u32_small in Hb by lia. unfold s32 in Hb.
  destruct (Z.lt_ge_cases n 536870912); [assumption|]. exfalso.
  replace ((4 * n + 2147483648) mod 4294967296) with (4 * n + 2147483648 - 4294967296) in Hb; [lia|].
  rewrite <- (Z.mod_small (4 * n + 2147483648 - 4294967296) 4294967296) by lia.
  rewrite Zminus_mod, Z_mod_same_full, Z.sub_0_r, Z.mod_mod; lia.
Qed.

Lemma words_small n : 0 <= n < 2 ^ 30 -> words n = n.
Proof.
  intros H. change (2 ^ 30) with 1073741824 in H. unfold words.
  rewrite u32_small by lia. rewrite Z.mul_comm, Z.div_mul; lia.
Qed.

(** The size in words of a block of [size] bytes. *)
Definition cells_of (size : Z) : nat := Z.to_nat ((if size =? 0 then 1 else size) / 4).

Lemma cells_of_bytes n : 0 <= n < ARY_MAX -> cells_of (bytes n) = Z.to_nat n.
Proof.
  intros H. rewrite bytes_small by exact H. unfold cells_of.
  destruct (4 * n =? 0) eqn:E; breflect.
  - now replace n with 0 by lia.
  - now rewrite Z.mul_comm, Z.div_mul.
Qed.

Lemma wp_xmalloc size s (Q : pointer -> memory -> Prop) (E : rb_error -> memory -> Prop) :
  E NoMemoryError s ->
  (0 <= size -> Q (Some (next_block s, 0))
     (mkMemory (arys s) (roots s) (<[next_block s := replicate (cells_of size) None]> (blocks s))
        (next_ary s) (next_root s) (Pos.succ (next_block s)))) ->
  wp (xmalloc size) s Q E.
Proof.
  intros HE HQ. unfold xmalloc. wp_if; [exact HE|].
  apply wp_bind. unfold wp at 1, has_memory. destruct (malloc_ok _ _); [|exact HE].
  apply HQ. assumption.
Qed.

(** [REALLOC_N]: the size is negative or the memory is exhausted, or the
    block has a new size. *)
Lemma focus_realloc s0 a s o cs n (Q : unit -> memory -> Prop) (E : rb_error -> memory -> Prop) :
  focus s0 a s o cs ->
  E NoMemoryError s ->
  (bytes n < 0 -> E ArgumentError s) ->
  (0 <= bytes n -> forall s' b,
     focus s0 a s' (set_ptr (Some (b, 0)) o) (resize (cells_of (bytes n)) None cs) -> Q tt s') ->
  wp (REALLOC_N a n) s Q E.
Proof.
  intros F HM HA HQ. unfold REALLOC_N. apply wp_bind. eapply focus_get; [exact F|].
  apply wp_bind. fold (bytes n). unfold xrealloc. wp_if; [now apply HA|].
  pose proof (focus_move s0 a s o cs (resize (cells_of (bytes n)) None cs) F) as Fm.
  destruct (a_ptr o) as [[b off]|] eqn:Ep.
  - apply wp_bind. unfold wp at 1, has_memory. destruct (malloc_ok _ _); simpl; [|exact HM].
    pose proof (f_blocks _ _ _ _ _ F) as Hb. rewrite Ep in Hb. destruct Hb as (-> & Hn & Hbs).
    simpl. unfold wp at 1, bindM, get_block. rewrite Hbs, lookup_insert_eq. simpl.
    rewrite (focus_delete _ _ _ _ _ _ _ F Ep).
    unfold wp, upd. simpl. rewrite (f_arys _ _ _ _ _ F), lookup_insert_eq. unfold with_arys; simpl.
    rewrite insert_insert_eq. eapply HQ; [lia | exact Fm].
  - pose proof (f_blocks _ _ _ _ _ F) as Hb. rewrite Ep in Hb. destruct Hb as [-> Hbs].
    apply wp_xmalloc; [exact HM|]. intros _. unfold wp, upd. simpl.
    rewrite (f_arys _ _ _ _ _ F), lookup_insert_eq. unfold with_arys; simpl.
    rewrite insert_insert_eq, Hbs. eapply (HQ ltac:(lia)).
    rewrite resize_nil in Fm |- *. exact Fm.
Qed.

Lemma focus_block s0 a s o cs b off :
  focus s0 a s o cs -> a_ptr o = Some (b, off) -> off = 0 /\ blocks s !! b = Some cs.
Proof.
  intros F Hp. pose proof (f_blocks _ _ _ _ _ F) as Hb. rewrite Hp in Hb.
  destruct Hb as (-> & _ & ->). split; [reflexivity | apply lookup_insert_eq].
Qed.

Lemma focus_null s0 a s o cs : focus s0 a s o cs -> a_ptr o = None -> cs = [].
Proof. intros F Hp. pose proof (f_blocks _ _ _ _ _ F) as Hb. rewrite Hp in Hb. now destruct Hb. Qed.

Lemma focus_nonempty s0 a s o cs :
  focus s0 a s o cs -> 0 < Z.of_nat (length cs) ->
  exists b, a_ptr o = Some (b, 0) /\ blocks s !! b = Some cs.
Proof.
  intros F Hn. destruct (a_ptr o) as [[b off]|] eqn:Ep.
  - destruct (focus_block _ _ _ _ _ _ _ F Ep) as [-> Hb]. eauto.
  - rewrite (focus_null _ _ _ _ _ F Ep) in Hn. simpl in Hn. lia.
Qed.

Lemma wp_load_block s b off cs i v Q E :
  blocks s !! b = Some cs -> 0 <= off + i -> cs !! Z.to_nat (off + i) = Some (Some v) ->
  Q v s -> wp (load (Some (b, off)) i) s Q E.
Proof.
  intros Hb Hi Hv HQ. unfold load. apply wp_bind. unfold wp at 1, get_block. rewrite Hb.
  wp_if; [lia|]. rewrite Hv. exact HQ.
Qed.

Lemma focus_load s0 a s o cs i v Q E :
  focus s0 a s o cs -> 0 <= i -> cs !! Z.to_nat i = Some (Some v) -> Q v s ->
  wp (load (a_ptr o) i) s Q E.
Proof.
  intros F Hi Hv HQ. destruct (a_ptr o) as [[b off]|] eqn:Ep.
  - destruct (focus_block _ _ _ _ _ _ _ F Ep) as [-> Hb]. eapply wp_load_block; eauto.
  - rewrite (focus_null _ _ _ _ _ F Ep) in Hv. discriminate.
Qed.

Lemma splice_cells_length i ds (cs : list cell) :
  (i + length ds <= length cs)%nat -> length (splice_cells i ds cs) = length cs.
Proof. intros H. unfold splice_cells. rewrite !length_app, length_take, length_drop. lia. Qed.

Lemma focus_put s0 a s o cs b cs' :
  focus s0 a s o cs -> a_ptr o = Some (b, 0) ->
  focus s0 a (with_blocks (insert b cs') s) o cs'.
Proof.
  intros [F1 F2 F3 F4 F5 F6 F7 F8] Hp. rewrite Hp in F4. destruct F4 as (_ & Hn & Hb).
  constructor; simpl; auto.
  - rewrite Hp. rewrite Hb, insert_insert_eq. auto.
  - intros b' Hb'. specialize (F7 b' Hb'). rewrite Hb in F7 |- *. rewrite insert_insert_eq.
    destruct (decide (b = b')) as [<- | Hne].
    + rewrite lookup_insert_eq in F7. discriminate.
    + now rewrite lookup_insert_ne in F7 |- *.
Qed.

Lemma focus_write s0 a s o cs i ds (Q : unit -> memory -> Prop) E :
  focus s0 a s o cs -> 0 <= i -> ds <> [] -> i + Z.of_nat (length ds) <= Z.of_nat (length cs) ->
  (forall s', focus s0 a s' o (splice_cells (Z.to_nat i) ds cs) -> Q tt s') ->
  wp (write_cells (padd (a_ptr o) i) ds) s Q E.
Proof.
  intros F Hi Hds Hn HQ. destruct (a_ptr o) as [[b off]|] eqn:Ep.
  - destruct (focus_block _ _ _ _ _ _ _ F Ep) as [-> Hb]. simpl. apply wp_bind.
    unfold wp at 1, get_block. rewrite Hb. unfold in_block. wp_if.
    + apply HQ. now apply (focus_put _ _ _ _ cs).
    + destruct E0; breflect; lia.
  - rewrite (focus_null _ _ _ _ _ F Ep) in Hn. destruct ds; [done | simpl in Hn; lia].
Qed.

Lemma padd_0 p : padd p 0 = p.
Proof. destruct p as [[b off]|]; simpl; [|reflexivity]. do 2 f_equal. lia. Qed.

Lemma padd_add p i j : padd (padd p i) j = padd p (i + j).
Proof. destruct p as [[b off]|]; simpl; [|reflexivity]. do 2 f_equal. lia. Qed.

Lemma focus_store s0 a s o cs i v (Q : unit -> memory -> Prop) E :
  focus s0 a s o cs -> 0 <= i < Z.of_nat (length cs) ->
  (forall s', focus s0 a s' o (<[Z.to_nat i := Some v]> cs) -> Q tt s') ->
  wp (store (a_ptr o) i v) s Q E.
Proof.
  intros F Hi HQ. unfold store. eapply focus_write; [exact F | lia | done | simpl; lia |].
  intros s' F'. apply HQ. rewrite insert_take_drop by lia. unfold splice_cells in F'. simpl in F'.
  replace (Z.to_nat i + 1)%nat with (S (Z.to_nat i)) in F' by lia. exact F'.
Qed.

(** Reading a whole other array. *)
Lemma wp_read_block s p b off cs n Q E :
  p = Some (b, off) -> blocks s !! b = Some cs -> in_block off n cs = true ->
  Q (take (Z.to_nat n) (drop (Z.to_nat off) cs)) s ->
  wp (read_cells p n) s Q E.
Proof.
  intros -> Hb Hin HQ. unfold read_cells. apply wp_bind. unfold wp at 1, get_block.
  rewrite Hb, Hin. exact HQ.
Qed.

Lemma wp_read_view s o l Q E :
  view s o = Some l -> a_len o <> 0 -> Q (Some <$> l) s -> wp (read_cells (a_ptr o) (a_len o)) s Q E.
Proof.
  intros Hv Hn HQ. destruct (a_ptr o) as [[b off]|] eqn:Ep.
  - destruct (view_block _ _ _ _ _ Ep Hv) as (cs & Hb & Hin & Ht).
    eapply wp_read_block; eauto. rewrite Ht. exact HQ.
  - unfold view in Hv. rewrite Ep in Hv. destruct (a_len o =? 0) eqn:E0; [|discriminate]. breflect. lia.
Qed.

Lemma wp_load_view s o l i v Q E :
  view s o = Some l -> 0 <= i -> l !! Z.to_nat i = Some v -> Q v s -> wp (load (a_ptr o) i) s Q E.
Proof.
  intros Hv Hi Hl HQ. destruct (a_ptr o) as [[b off]|] eqn:Ep.
  - destruct (view_block _ _ _ _ _ Ep Hv) as (cs & Hb & Hin & Ht). unfold in_block in Hin. breflect.
    eapply wp_load_block; eauto; [lia|].
    assert ((Some <$> l) !! Z.to_nat i = Some (Some v)) as Hc by (rewrite list_lookup_fmap, Hl; reflexivity).
    rewrite <- Ht in Hc. apply lookup_take_Some in Hc as [Hc _]. rewrite lookup_drop in Hc.
    rewrite <- Hc. f_equal. lia.
  - unfold view in Hv. rewrite Ep in Hv. destruct (a_len o =? 0); [|discriminate].
    injection Hv as <-. discriminate.
Qed.

Lemma focus_memmove s0 a s o cs di si n (Q : unit -> memory -> Prop) E :
  focus s0 a s o cs -> 0 <= n < 2 ^ 30 -> 0 <= di -> 0 <= si ->
  di + n <= Z.of_nat (length cs) -> si + n <= Z.of_nat (length cs) ->
  (forall s', focus s0 a s' o
     (splice_cells (Z.to_nat di) (take (Z.to_nat n) (drop (Z.to_nat si) cs)) cs) -> Q tt s') ->
  wp (MEMMOVE (padd (a_ptr o) di) (padd (a_ptr o) si) n) s Q E.
Proof.
  intros F Hn Hdi Hsi Hd Hs HQ. unfold MEMMOVE. rewrite words_small by lia. wp_if.
  - subst n. apply HQ. simpl. unfold splice_cells. simpl. rewrite Nat.add_0_r, take_drop. exact F.
  - destruct (focus_nonempty _ _ _ _ _ F) as (b & Ep & Hb); [lia|].
    apply wp_bind. eapply wp_read_block with (off := 0 + si); [rewrite Ep; reflexivity | exact Hb | |].
    + unfold in_block; apply andb_true_intro; split; lia.
    + simpl. eapply focus_write; [exact F | lia | | |].
      * intros Hnil. apply (f_equal length) in Hnil. rewrite length_take, length_drop in Hnil.
        simpl in Hnil. lia.
      * rewrite length_take, length_drop. lia.
      * exact HQ.
Qed.

Lemma overlap_other d s n :
  (forall b, fst <$> d = Some b -> fst <$> s = Some b -> False) -> overlap d s n = false.
Proof.
  destruct d as [[b1 i]|], s as [[b2 j]|]; simpl; auto. intros H.
  destruct (b1 =? b2)%positive eqn:E; [|reflexivity].
  apply Pos.eqb_eq in E. subst. exfalso. eapply H; eauto.
Qed.

Lemma fst_padd (p : pointer) i : fst <$> padd p i = fst <$> p.
Proof. now destruct p as [[b off]|]. Qed.

(** Another array's block is never the one of the array in focus. *)
Lemma focus_no_overlap s0 a s o cs x ox i n :
  focus s0 a s o cs -> x <> a -> arys s0 !! x = Some ox ->
  overlap (padd (a_ptr o) i) (a_ptr ox) n = false.
Proof.
  intros F Hx Hox. apply overlap_other. intros b H1 H2. rewrite fst_padd in H1.
  destruct (block_allocated _ _ _ _ (f_wf _ _ _ _ _ F) Hox H2) as [cx Hcx].
  pose proof (block_foreign _ a _ _ _ (f_wf _ _ _ _ _ F) Hx Hox H2) as Hn.
  pose proof (f_blocks _ _ _ _ _ F) as Hb.
  destruct (a_ptr o) as [[b' off]|]; [|discriminate]. simpl in H1. injection H1 as ->.
  destruct Hb as (_ & Hf & _).
  assert (others s0 a !! b = Some cx) by (apply others_Some; auto). congruence.
Qed.

Lemma focus_copy_other s0 a s o cs x ox l di (Q : unit -> memory -> Prop) E :
  focus s0 a s o cs -> x <> a -> arys s0 !! x = Some ox -> view s0 ox = Some l ->
  0 <= di -> di + Z.of_nat (length l) <= Z.of_nat (length cs) ->
  (forall s', focus s0 a s' o (splice_cells (Z.to_nat di) (Some <$> l) cs) -> Q tt s') ->
  wp (MEMMOVE (padd (a_ptr o) di) (a_ptr ox) (a_len ox)) s Q E.
Proof.
  intros F Hx Hox Hv Hdi Hn HQ.
  destruct (w_arys s0 (f_wf _ _ _ _ _ F) x ox Hox) as (Hl & _ & _).
  pose proof (view_length _ _ _ (proj1 Hl) Hv) as Hlen. change ARY_MAX with 536870912 in Hl.
  unfold MEMMOVE. rewrite words_small by lia. wp_if.
  - assert (l = []) as -> by (destruct l; [reflexivity | simpl in Hlen; lia]).
    apply HQ. unfold splice_cells. simpl. rewrite Nat.add_0_r, take_drop. exact F.
  - apply wp_bind. eapply wp_read_view; [|assumption|].
    + rewrite (focus_view _ _ _ _ _ _ _ F Hx Hox). exact Hv.
    + eapply focus_write; [exact F | lia | | |].
      * intros Hnil. apply (f_equal length) in Hnil. rewrite length_fmap in Hnil. simpl in Hnil. lia.
      * rewrite length_fmap. lia.
      * exact HQ.
Qed.

Lemma focus_memcpy_other s0 a s o cs x ox l di (Q : unit -> memory -> Prop) E :
  focus s0 a s o cs -> x <> a -> arys s0 !! x = Some ox -> view s0 ox = Some l ->
  0 <= di -> di + Z.of_nat (length l) <= Z.of_nat (length cs) ->
  (forall s', focus s0 a s' o (splice_cells (Z.to_nat di) (Some <$> l) cs) -> Q tt s') ->
  wp (MEMCPY (padd (a_ptr o) di) (a_ptr ox) (a_len ox)) s Q E.
Proof.
  intros F Hx Hox Hv Hdi Hn HQ. unfold MEMCPY.
  rewrite (focus_no_overlap _ _ _ _ _ _ _ _ _ F Hx Hox). eapply focus_copy_other; eauto.
Qed.

(** Within one block, when the ranges do not meet. *)
Lemma focus_memcpy_own s0 a s o cs di n (Q : unit -> memory -> Prop) E :
  focus s0 a s o cs -> 0 <= n < 2 ^ 30 -> n <= di -> di + n <= Z.of_nat (length cs) ->
  (forall s', focus s0 a s' o
     (splice_cells (Z.to_nat di) (take (Z.to_nat n) cs) cs) -> Q tt s') ->
  wp (MEMCPY (padd (a_ptr o) di) (a_ptr o) n) s Q E.
Proof.
  intros F Hn Hdi Hd HQ. unfold MEMCPY.
  assert (overlap (padd (a_ptr o) di) (a_ptr o) (words n) = false) as ->.
  { rewrite words_small by lia. destruct (a_ptr o) as [[b off]|]; simpl; [|reflexivity].
    destruct (off + di <? off + n) eqn:E1; breflect; [lia|]. now rewrite andb_false_r. }
  rewrite <- (padd_0 (a_ptr o)) at 2.
  eapply focus_memmove; [exact F | lia | lia | lia | lia | lia |].
  rewrite drop_0. exact HQ.
Qed.

Lemma fill_cells_spec off size v (cs : list cell) :
  0 <= size -> Z.of_nat off + size <= Z.of_nat (length cs) ->
  fill_cells off size v cs = Some (splice_cells off (replicate (Z.to_nat size) (Some v)) cs).
Proof.
  unfold splice_cells. rewrite length_replicate.
  revert off size; induction cs as [|c cs IH]; intros off size Hs Hn.
  - simpl in *. replace size with 0 by lia. simpl. destruct off; [reflexivity | simpl in Hn; lia].
  - simpl in Hn. destruct (decide (size = 0)) as [-> | Hz].
    + simpl. rewrite Nat.add_0_r, take_drop. destruct off; reflexivity.
    + simpl. destruct (size =? 0) eqn:E0; breflect; [lia|].
      destruct off as [|off].
      * rewrite IH by lia. simpl. replace (Z.to_nat size) with (S (Z.to_nat (size - 1))) by lia. reflexivity.
      * rewrite IH by lia. reflexivity.
Qed.

Lemma focus_memfill s0 a s o cs i size v (Q : unit -> memory -> Prop) E :
  focus s0 a s o cs -> 0 <= i -> 0 <= size -> i + size <= Z.of_nat (length cs) ->
  (forall s', focus s0 a s' o (splice_cells (Z.to_nat i) (replicate (Z.to_nat size) (Some v)) cs) -> Q tt s') ->
  wp (memfill (padd (a_ptr o) i) size v) s Q E.
Proof.
  intros F Hi Hs Hn HQ. unfold memfill. wp_if.
  - subst size. apply HQ. unfold splice_cells. simpl. rewrite Nat.add_0_r, take_drop. exact F.
  - destruct (focus_nonempty _ _ _ _ _ F) as (b & Ep & Hb); [lia|]. rewrite Ep. simpl.
    apply wp_bind. unfold wp at 1, get_block. rewrite Hb. wp_if; [lia|].
    rewrite fill_cells_spec by lia. apply HQ. now apply (focus_put _ _ _ _ cs).
Qed.

(** ** Into a focus and back *)

(** An array that owns its block and has the elements [l]. *)
Record owned (s0 : memory) (a : positive) (s : memory) (o : RArray) (cs : list cell)
    (c : Z) (l : list VALUE) : Prop := {
  o_focus : focus s0 a s o cs;
  o_capa : a_aux o = Capa c;
  o_len : a_len o = Z.of_nat (length l);
  o_room : a_len o <= c <= Z.of_nat (length cs);
  o_max : c < ARY_MAX;
  o_elts : take (length l) cs = Some <$> l
}.

Definition to_list (o : RArray) (l : list VALUE) : alist := mkList l (frozen o) (tmplock o) (tainted o).

Lemma abs_lookup s a o l :
  arys s !! a = Some o -> view s o = Some l -> abs s !! a = Some (to_list o l).
Proof. intros Ho Hv. unfold abs. rewrite lookup_omap, Ho. simpl. unfold abs_ary. now rewrite Hv. Qed.

Lemma abs_lookup_inv s a x :
  abs s !! a = Some x -> exists o, arys s !! a = Some o /\ view s o = Some (elts x) /\ x = to_list o (elts x).
Proof.
  unfold abs. rewrite lookup_omap. destruct (arys s !! a) as [o|]; simpl; [|discriminate].
  unfold abs_ary. destruct (view s o) as [l|] eqn:Ev; simpl; [|discriminate].
  intros [= <-]. exists o. auto.
Qed.

Lemma owned_view s0 a s o cs c l : owned s0 a s o cs c l -> view s o = Some l.
Proof.
  intros [F Hc Hl Hr Hm He]. eapply view_own; eauto.
  pose proof (f_blocks _ _ _ _ _ F) as Hb. destruct (a_ptr o) as [[b off]|].
  - destruct Hb as (-> & _ & ->). split; [reflexivity | apply lookup_insert_eq].
  - now destruct Hb.
Qed.

Lemma owned_block_of o b : owned_block o = Some b -> block_of o = Some b.
Proof. unfold owned_block. destruct (a_aux o); [auto | discriminate]. Qed.

Lemma owns_allocated s k b : wf s -> owns s k = Some b -> is_Some (blocks s !! b).
Proof.
  intros W. destruct k as [x|r]; simpl.
  - destruct (arys s !! x) as [o|] eqn:Ex; simpl; [|discriminate]. intros Hb%owned_block_of.
    eapply block_allocated; eauto.
  - destruct (roots s !! r) as [o|] eqn:Er; simpl; [|discriminate]. intros Hb.
    eapply w_roots; eauto.
Qed.

Lemma owns_others s a k b :
  wf s -> k <> inl a -> owns s k = Some b -> is_Some (others s a !! b).
Proof.
  intros W Hk Ho. destruct (owns_allocated _ _ _ W Ho) as [cs Hcs].
  exists cs. apply others_Some. split; [exact Hcs|]. intros Ha.
  now pose proof (w_own s W _ _ _ Ho Ha).
Qed.

Lemma focus_owns s0 a s o cs k :
  focus s0 a s o cs -> k <> inl a -> owns s k = owns s0 k.
Proof.
  intros F Hk. destruct k as [x|r]; simpl.
  - rewrite (f_arys _ _ _ _ _ F), lookup_insert_ne; congruence.
  - now rewrite (f_roots _ _ _ _ _ F).
Qed.

Lemma focus_kept s0 a s o cs b :
  focus s0 a s o cs -> is_Some (others s0 a !! b) -> is_Some (blocks s !! b).
Proof.
  intros F [c Hc]. pose proof (f_blocks _ _ _ _ _ F) as Hb. destruct (a_ptr o) as [[b' off]|].
  - destruct Hb as (_ & Hf & ->). rewrite lookup_insert_ne; [eauto | congruence].
  - destruct Hb as [_ ->]. eauto.
Qed.

(** The array in focus owns a block that nobody else does. *)
Lemma focus_owns_self s0 a s o cs k b :
  focus s0 a s o cs -> owns s (inl a) = Some b -> owns s k = Some b -> k = inl a.
Proof.
  intros F Ha Hk. destruct (decide (k = inl a)) as [|Hne]; [assumption|]. exfalso.
  rewrite (focus_owns _ _ _ _ _ _ F Hne) in Hk.
  destruct (owns_others _ a _ _ (f_wf _ _ _ _ _ F) Hne Hk) as [c Hc].
  simpl in Ha. rewrite (f_arys _ _ _ _ _ F), lookup_insert_eq in Ha. simpl in Ha.
  apply owned_block_of in Ha. unfold block_of in Ha.
  pose proof (f_blocks _ _ _ _ _ F) as Hb. destruct (a_ptr o) as [[b' off]|]; [|discriminate].
  simpl in Ha. injection Ha as ->. destruct Hb as (_ & Hf & _). congruence.
Qed.

Lemma ary_ok_ext s s' o :
  roots s' = roots s -> (forall b, block_of o = Some b -> blocks s' !! b = blocks s !! b) ->
  ary_ok s o -> ary_ok s' o.
Proof.
  intros Hr Hb (Hl & Hv & Ha). split; [exact Hl | split; [rewrite (view_ext s s' o Hb); exact Hv|]].
  destruct (a_aux o).
  - destruct Ha as [Hc Ha]. split; [exact Hc|]. unfold block_of in Hb.
    destruct (a_ptr o) as [[b off]|]; [|exact Ha]. rewrite (Hb b) by reflexivity. exact Ha.
  - now rewrite Hr.
Qed.

Lemma focus_others_ok s0 a s o cs x ox :
  focus s0 a s o cs -> x <> a -> arys s !! x = Some ox -> ary_ok s ox.
Proof.
  intros F Hx Hox. rewrite (f_arys _ _ _ _ _ F), lookup_insert_ne in Hox by congruence.
  apply (ary_ok_ext s0); [apply (f_roots _ _ _ _ _ F) | | eapply w_arys; [apply F | exact Hox]].
  intros b Hb. eapply focus_foreign; eauto.
Qed.

(** From a focus on an array in good order back to the invariant. *)
Lemma focus_wf s0 a s o cs : focus s0 a s o cs -> ary_ok s o -> wf s.
Proof.
  intros F Hok. pose proof (f_wf _ _ _ _ _ F) as W. constructor.
  - intros x ox Hox. destruct (decide (x = a)) as [-> | Hx].
    + rewrite (f_arys _ _ _ _ _ F), lookup_insert_eq in Hox. injection Hox as <-. exact Hok.
    + eapply focus_others_ok; eauto.
  - intros r ro b Hr Hb. rewrite (f_roots _ _ _ _ _ F) in Hr.
    eapply focus_kept; [exact F|]. apply (owns_others _ _ (inr r)); [exact W | discriminate |].
    simpl. rewrite Hr. exact Hb.
  - intros k1 k2 b H1 H2.
    destruct (decide (k1 = inl a)) as [-> | N1]; [symmetry; eapply focus_owns_self; eauto|].
    destruct (decide (k2 = inl a)) as [-> | N2]; [eapply focus_owns_self; eauto|].
    rewrite (focus_owns _ _ _ _ _ _ F N1) in H1. rewrite (focus_owns _ _ _ _ _ _ F N2) in H2.
    eapply w_own; eauto.
  - intros x Hx. rewrite (f_next_ary _ _ _ _ _ F) in Hx. rewrite (f_arys _ _ _ _ _ F).
    rewrite lookup_insert_ne by lia. apply (w_next_ary s0 W). lia.
  - intros r Hr. rewrite (f_next_root _ _ _ _ _ F) in Hr. rewrite (f_roots _ _ _ _ _ F).
    now apply (w_next_root s0 W).
  - apply F.
Qed.

Lemma focus_abs s0 a s o cs l :
  focus s0 a s o cs -> view s o = Some l -> abs s = <[a := to_list o l]> (abs s0).
Proof.
  intros F Hv. apply map_eq. intros x. unfold abs. rewrite (f_arys _ _ _ _ _ F).
  destruct (decide (x = a)) as [-> | Hx].
  - rewrite lookup_omap, !lookup_insert_eq. simpl. unfold abs_ary. now rewrite Hv.
  - rewrite lookup_insert_ne by congruence. rewrite !lookup_omap, lookup_insert_ne by congruence.
    destruct (arys s0 !! x) as [ox|] eqn:Ex; simpl; [|reflexivity].
    unfold abs_ary. now rewrite (focus_view _ _ _ _ _ _ _ F Hx Ex).
Qed.

Lemma owned_ok s0 a s o cs c l : owned s0 a s o cs c l -> ary_ok s o.
Proof.
  intros O. pose proof (owned_view _ _ _ _ _ _ _ O) as Hv. destruct O as [F Hc Hl Hr Hm He].
  split; [lia | split; [eauto|]]. rewrite Hc. split; [lia|].
  pose proof (f_blocks _ _ _ _ _ F) as Hb. destruct (a_ptr o) as [[b off]|].
  - destruct Hb as (-> & _ & ->). split; [reflexivity|]. exists cs. rewrite lookup_insert_eq. split; [auto | lia].
  - destruct Hb as [-> _]. simpl in Hr. lia.
Qed.

Lemma owned_done s0 a s o cs c l :
  owned s0 a s o cs c l -> wf s /\ abs s = <[a := to_list o l]> (abs s0).
Proof.
  intros O. split.
  - eapply focus_wf; [apply O | eapply owned_ok, O].
  - eapply focus_abs; [apply O | eapply owned_view, O].
Qed.

(** A well-formed array that owns its block is in focus. *)
Lemma focus_start s a o c :
  wf s -> arys s !! a = Some o -> a_aux o = Capa c ->
  exists cs l, owned s a s o cs c l /\ view s o = Some l.
Proof.
  intros W Ho Hc. destruct (w_arys s W a o Ho) as (Hl & [l Hv] & Ha). rewrite Hc in Ha.
  destruct Ha as [Hr Ha]. pose proof (view_length _ _ _ (proj1 Hl) Hv) as Hlen.
  assert (owns s (inl a) = block_of o) as Hown.
  { rewrite (owns_ary _ _ _ Ho). unfold owned_block. now rewrite Hc. }
  assert (a < next_ary s)%positive as Hlt.
  { destruct (decide (next_ary s <= a)%positive) as [Hge|]; [|lia].
    rewrite (w_next_ary s W a Hge) in Ho. discriminate. }
  assert (forall cs, match a_ptr o with
    | None => cs = [] /\ blocks s = others s a
    | Some (b, off) => off = 0 /\ others s a !! b = None /\ blocks s = <[b := cs]> (others s a)
    end -> focus s a s o cs) as Hfocus.
  { intros cs Hb. constructor; auto; try apply W; try lia.
    symmetry. now apply insert_id. }
  destruct (a_ptr o) as [[b off]|] eqn:Ep.
  - destruct Ha as (-> & cs & Hcs & Hroom). exists cs, l. split; [|exact Hv].
    destruct (view_block _ _ _ _ _ Ep Hv) as (cs' & Hcs' & _ & Ht). rewrite Hcs in Hcs'. injection Hcs' as <-.
    constructor; try lia; [|exact Hc|].
    + apply Hfocus. split; [reflexivity|]. unfold others. rewrite Hown. unfold block_of. rewrite Ep. simpl.
      rewrite lookup_delete_eq, insert_delete_eq, insert_id by exact Hcs. auto.
    + simpl in Ht. rewrite drop_0 in Ht. rewrite <- Ht. f_equal. lia.
  - exists [], l. split; [|exact Hv].
    assert (l = []) as -> by (destruct l; [reflexivity | simpl in Hlen; lia]).
    change (length (@nil VALUE)) with 0%nat in *. change (length (@nil cell)) with 0%nat.
    constructor; auto; try lia. apply Hfocus. split; [reflexivity|].
    unfold others. rewrite Hown. unfold block_of. now rewrite Ep.
Qed.

(** ** New arrays *)

Definition empty_ary : RArray := mkArray 0 None (Capa 0) false false (3 <=? safe_level).

Lemma fresh_ary s : wf s -> arys s !! next_ary s = None.
Proof. intros W. apply (w_next_ary s W). lia. Qed.

Lemma others_new s a : arys s !! a = None -> others s a = blocks s.
Proof. unfold others. simpl. now intros ->. Qed.

Lemma wp_ary_alloc s (Q : positive -> memory -> Prop) E :
  wf s -> (forall s', focus s (next_ary s) s' empty_ary [] -> Q (next_ary s) s') ->
  wp ary_alloc s Q E.
Proof.
  intros W HQ. unfold wp, ary_alloc, new_ary. apply HQ. constructor; simpl; auto; try lia.
  - now rewrite others_new by (now apply fresh_ary).
  - apply (w_next_block s W).
Qed.

Lemma empty_owned s s' a : focus s a s' empty_ary [] -> owned s a s' empty_ary [] 0 [].
Proof. intros F. constructor; simpl; auto; try lia. unfold ARY_MAX. lia. Qed.

(** What an operation that fails leaves: the invariant, and the arrays there
    were; it may have allocated others. *)
Definition kept (s s' : memory) : Prop := wf s' /\ abs s ⊆ abs s'.

Lemma kept_refl s : wf s -> kept s s.
Proof. split; [assumption | reflexivity]. Qed.

Lemma kept_trans s1 s2 s3 : kept s1 s2 -> kept s2 s3 -> kept s1 s3.
Proof. intros [_ H1] [W H2]. split; [exact W | etransitivity; eauto]. Qed.

Lemma abs_fresh s : wf s -> abs s !! next_ary s = None.
Proof. intros W. unfold abs. rewrite lookup_omap, fresh_ary by exact W. reflexivity. Qed.

Lemma owned_new_kept s s' o cs c l :
  owned s (next_ary s) s' o cs c l -> kept s s'.
Proof.
  intros O. destruct (owned_done _ _ _ _ _ _ _ O) as [W Ha]. split; [exact W|]. rewrite Ha.
  apply insert_subseteq, abs_fresh. apply O.
Qed.

(** A block for an array that has none. *)
Lemma focus_alloc {A} s0 a s o n (k : pointer -> M A) Q (E : rb_error -> memory -> Prop) :
  focus s0 a s o [] -> a_ptr o = None ->
  E NoMemoryError s ->
  (0 <= bytes n -> forall s' b,
     focus s0 a s' (set_ptr (Some (b, 0)) o) (replicate (cells_of (bytes n)) None) ->
     wp (k (Some (b, 0))) s' Q E) ->
  wp (bindM (ALLOC_N n) (fun p => bindM (upd a (set_ptr p)) (fun _ => k p))) s Q E.
Proof.
  intros F Hp HM HQ. apply wp_bind. unfold ALLOC_N. fold (bytes n). apply wp_xmalloc; [exact HM|].
  intros Hb. apply wp_bind. unfold wp at 1, upd. simpl. rewrite (f_arys _ _ _ _ _ F), lookup_insert_eq.
  pose proof (focus_move _ _ _ _ _ (replicate (cells_of (bytes n)) None) F) as F2.
  pose proof (f_blocks _ _ _ _ _ F) as Hbs. rewrite Hp in Hbs. destruct Hbs as [_ Hbs].
  unfold with_arys; simpl. rewrite insert_insert_eq, Hbs. eapply HQ; [exact Hb | exact F2].
Qed.

(** Sizes from 2^29 on are refused, by one test or the other. *)
Lemma wp_new2 s n (Q : positive -> memory -> Prop) (E : rb_error -> memory -> Prop) :
  wf s -> -2 ^ 31 <= n < 2 ^ 30 ->
  (forall e s', kept s s' -> (n < 0 -> e = ArgumentError) -> (0 <= n -> e = NoMemoryError) -> E e s') ->
  (0 <= n < ARY_MAX -> forall s' o cs c,
     focus s (next_ary s) s' o cs -> a_aux o = Capa c -> a_len o = 0 ->
     to_list o [] = to_list empty_ary [] -> n <= c <= Z.max n 1 -> c = Z.of_nat (length cs) -> c < ARY_MAX ->
     Q (next_ary s) s') ->
  wp (rb_ary_new2 n) s Q E.
Proof.
  intros W Hn HE HQ. change (2 ^ 31) with 2147483648 in Hn. change (2 ^ 30) with 1073741824 in Hn.
  unfold rb_ary_new2. apply wp_bind. apply wp_ary_alloc; [exact W|]. intros s1 F1.
  pose proof (owned_new_kept _ _ _ _ _ _ (empty_owned _ _ _ F1)) as K1.
  wp_if; [apply HE; auto; lia|].
  destruct (_ && _) eqn:E1; breflect.
  { rewrite !u32_small in * by lia. lia. }
  set (len := if n =? 0 then n + 1 else n).
  assert (n <= len <= Z.max n 1 /\ 0 < len) as [Hlen Hpos] by (unfold len; destruct (n =? 0) eqn:?; breflect; lia).
  change ARY_MAX with 536870912 in *.
  apply focus_alloc with (s0 := s) (o := empty_ary); [exact F1 | reflexivity | apply HE; auto; lia |].
  intros Hb s2 b F2.
  pose proof (bytes_max len ltac:(change (2 ^ 30) with 1073741824; lia) Hb) as Hmax.
  change ARY_MAX with 536870912 in Hmax.
  rewrite cells_of_bytes in F2 by (change ARY_MAX with 536870912; lia).
  apply wp_bind. eapply focus_upd; [exact F2 | reflexivity |]. intros s3 F3. apply wp_ret.
  eapply HQ; [lia | exact F3 | reflexivity | reflexivity | reflexivity | lia | | lia].
  rewrite length_replicate. lia.
Qed.

(** ** [rb_ary_modify] *)

(** The exception of [rb_ary_modify_check]. *)
Definition modify_error (x : alist) : option rb_error :=
  if l_frozen x then Some TypeError else
  if l_locked x then Some RuntimeError else
  if negb (l_tainted x) && (4 <=? safe_level) then Some SecurityError else None.

Lemma wp_modify_check s a o l (Q : unit -> memory -> Prop) (E : rb_error -> memory -> Prop) :
  arys s !! a = Some o ->
  (forall e, modify_error (to_list o l) = Some e -> E e s) ->
  (modify_error (to_list o l) = None -> Q tt s) ->
  wp (rb_ary_modify_check a) s Q E.
Proof.
  intros Ho HE HQ. unfold rb_ary_modify_check. apply wp_bind. eapply wp_get; [exact Ho|].
  unfold modify_error in *. simpl in *. unfold wp.
  destruct (frozen o); [apply HE; reflexivity|].
  destruct (tmplock o); [apply HE; reflexivity|].
  destruct (_ && _); [apply HE; reflexivity | apply HQ; reflexivity].
Qed.

Lemma ary_lt s a o : wf s -> arys s !! a = Some o -> (a < next_ary s)%positive.
Proof.
  intros W Ho. destruct (decide (next_ary s <= a)%positive) as [Hge|]; [|lia].
  rewrite (w_next_ary s W a Hge) in Ho. discriminate.
Qed.

Lemma block_lt s a o b : wf s -> arys s !! a = Some o -> block_of o = Some b -> (b < next_block s)%positive.
Proof.
  intros W Ho Hb. destruct (block_allocated _ _ _ _ W Ho Hb) as [cs Hcs].
  destruct (decide (next_block s <= b)%positive) as [Hge|]; [|lia].
  rewrite (w_next_block s W b Hge) in Hcs. discriminate.
Qed.

(** Copying an array's elements to a block of their size. *)
Lemma wp_copy_out s o l b (Q : unit -> memory -> Prop) E :
  0 <= a_len o < ARY_MAX -> view s o = Some l -> block_of o <> Some b ->
  blocks s !! b = Some (replicate (Z.to_nat (a_len o)) None) ->
  Q tt (with_blocks (insert b (Some <$> l)) s) ->
  wp (MEMCPY (Some (b, 0)) (a_ptr o) (a_len o)) s Q E.
Proof.
  intros Hl Hv Hne Hb HQ. pose proof (view_length _ _ _ (proj1 Hl) Hv) as Hlen.
  change ARY_MAX with 536870912 in Hl. unfold MEMCPY.
  rewrite overlap_other by (intros b' [= <-] H'; now apply Hne).
  unfold MEMMOVE. rewrite words_small by lia. wp_if.
  - assert (l = []) as -> by (destruct l; [reflexivity | simpl in Hlen; lia]).
    assert (with_blocks (insert b (Some <$> [])) s = s) as <-; [|exact HQ].
    destruct s as [s1 s2 s3 s4 s5 s6]. unfold with_blocks. simpl in *. f_equal. apply insert_id.
    rewrite Hb, E0. reflexivity.
  - apply wp_bind. eapply wp_read_view; [exact Hv | assumption |].
    unfold write_cells. apply wp_bind. unfold wp at 1, get_block. rewrite Hb.
    unfold in_block. rewrite length_fmap, length_replicate. wp_if; [|destruct E1; breflect; lia].
    unfold splice_cells. simpl. rewrite length_fmap, skipn_all2, app_nil_r; [exact HQ|].
    rewrite length_replicate. lia.
Qed.

(** An array that shared its block, after the copy. *)
Lemma owned_copy s a o l r :
  wf s -> arys s !! a = Some o -> view s o = Some l -> a_aux o = Shared r ->
  let o' := set_ptr (Some (next_block s, 0)) (set_aux (Capa (a_len o)) o) in
  owned s a
    (mkMemory (<[a := o']> (arys s)) (roots s) (<[next_block s := Some <$> l]> (blocks s))
       (next_ary s) (next_root s) (Pos.succ (next_block s))) o' (Some <$> l) (a_len o) l.
Proof.
  intros W Ho Hv Hr o'. destruct (w_arys s W a o Ho) as (Hl & _ & _).
  pose proof (view_length _ _ _ (proj1 Hl) Hv) as Hlen. pose proof (ary_lt _ _ _ W Ho) as Hlt.
  assert (others s a = blocks s) as Hoth.
  { unfold others. rewrite (owns_ary _ _ _ Ho). unfold owned_block. now rewrite Hr. }
  constructor; simpl; rewrite ?length_fmap; try lia; auto.
  - constructor; simpl; auto; try lia.
    + rewrite Hoth. split; [reflexivity|]. split; [apply (w_next_block s W); lia | reflexivity].
    + intros b Hb. rewrite lookup_insert_ne by lia. apply (w_next_block s W). lia.
  - rewrite <- (length_fmap Some l). apply firstn_all.
Qed.

(** The array has a block of its own afterwards, and the same elements. *)
Lemma wp_modify s a o l (Q : unit -> memory -> Prop) (E : rb_error -> memory -> Prop) :
  wf s -> arys s !! a = Some o -> view s o = Some l ->
  (forall e, modify_error (to_list o l) = Some e -> E e s) ->
  E NoMemoryError s ->
  (modify_error (to_list o l) = None -> forall s' o' cs c,
     owned s a s' o' cs c l -> to_list o' = to_list o -> Q tt s') ->
  wp (rb_ary_modify a) s Q E.
Proof.
  intros W Ho Hv HE HM HQ. unfold rb_ary_modify. apply wp_bind.
  eapply wp_modify_check; [exact Ho | exact HE |]. intros Hok.
  apply wp_bind. eapply wp_get; [exact Ho|].
  destruct (a_aux o) as [c|r] eqn:Ex.
  - destruct (focus_start _ _ _ _ W Ho Ex) as (cs & l' & O & Hv'). rewrite Hv in Hv'. injection Hv' as <-.
    eapply (HQ Hok); [exact O | reflexivity].
  - destruct (w_arys s W a o Ho) as (Hl & _ & _).
    apply wp_bind. unfold ALLOC_N. fold (bytes (a_len o)).
    apply wp_xmalloc; [exact HM|]. intros _. rewrite cells_of_bytes by exact Hl.
    apply wp_bind. unfold wp at 1, upd. simpl. rewrite Ho. apply wp_bind.
    apply wp_copy_out with (l := l); [exact Hl | | | simpl; apply lookup_insert_eq |].
    + rewrite <- Hv. apply view_ext. intros b Hb. simpl. apply lookup_insert_ne.
      pose proof (block_lt _ _ _ _ W Ho Hb). lia.
    + intros Hb. pose proof (block_lt _ _ _ _ W Ho Hb). lia.
    + unfold wp, upd. simpl. rewrite lookup_insert_eq. unfold with_arys, with_blocks; simpl.
      rewrite !insert_insert_eq. eapply (HQ Hok); [exact (owned_copy s a o l r W Ho Hv Ex) | reflexivity].
Qed.

(** ** Sharing *)

(** [s'] differs from [s] in [a], which now shares the block of the hidden
    array [r] and no longer owns one. *)
Record shares (s : memory) (a : positive) (s' : memory) (o : RArray) (r : positive) : Prop := {
  h_arys : arys s' = <[a := o]> (arys s);
  h_roots : roots s' = roots s;
  h_blocks : blocks s' = others s a;
  h_next_ary : next_ary s' = Pos.max (next_ary s) (Pos.succ a);
  h_next_root : next_root s' = next_root s;
  h_next_block : next_block s' = next_block s;
  h_aux : a_aux o = Shared r
}.

(** A pointer into the block of [r], or null when [r] has no block. *)
Definition points_into (s : memory) (r : positive) (o : RArray) : Prop :=
  exists ro, roots s !! r = Some ro /\
  match a_ptr o with
  | None => True
  | Some (b, off) => exists off', a_ptr ro = Some (b, off')
  end.

Lemma points_into_owns s r o b :
  points_into s r o -> block_of o = Some b -> owns s (inr r) = Some b.
Proof.
  intros (ro & Hr & H) Hb. unfold block_of in Hb. simpl. rewrite Hr. simpl. unfold block_of.
  destruct (a_ptr o) as [[b' off]|]; [|discriminate]. destruct H as (off' & ->). exact Hb.
Qed.

Lemma others_lookup s a k b : wf s -> k <> inl a -> owns s k = Some b -> others s a !! b = blocks s !! b.
Proof.
  intros W Hk Ho. destruct (owns_others _ a _ _ W Hk Ho) as [cs Hcs]. rewrite Hcs.
  apply others_Some in Hcs as [Hcs _]. now rewrite Hcs.
Qed.

(** The block of another array, through its owner. *)
Lemma block_kept s a x o b :
  wf s -> x <> a -> arys s !! x = Some o -> block_of o = Some b -> others s a !! b = blocks s !! b.
Proof.
  intros W Hx Ho Hb. destruct (block_allocated _ _ _ _ W Ho Hb) as [cs Hcs]. rewrite Hcs.
  apply others_Some. split; [exact Hcs | eapply block_foreign; eauto].
Qed.

Lemma shares_done s a s' o r l :
  wf s -> shares s a s' o r -> points_into s r o ->
  view s o = Some l -> 0 <= a_len o < ARY_MAX ->
  wf s' /\ abs s' = <[a := to_list o l]> (abs s).
Proof.
  intros W [H1 H2 H3 H4 H5 H6 H7] Hp Hv Hl.
  assert (view s' o = Some l) as Hv'.
  { rewrite <- Hv. apply view_ext. intros b Hb. rewrite H3.
    apply (others_lookup _ _ (inr r)); [exact W | discriminate | now apply (points_into_owns _ _ o)]. }
  assert (forall x ox, x <> a -> arys s !! x = Some ox -> view s' ox = view s ox) as Hother.
  { intros x ox Hx Hox. apply view_ext. intros b Hb. rewrite H3. eapply block_kept; eauto. }
  assert (forall k, owns s' k = if decide (k = inl a) then None else owns s k) as Howns.
  { intros k. destruct (decide (k = inl a)) as [-> | Hk]; simpl.
    - rewrite H1, lookup_insert_eq. simpl. unfold owned_block. now rewrite H7.
    - destruct k as [x|y]; simpl; [rewrite H1, lookup_insert_ne by congruence | rewrite H2]; reflexivity. }
  split.
  - constructor.
    + intros x ox Hox. rewrite H1 in Hox. destruct (decide (x = a)) as [-> | Hx].
      * rewrite lookup_insert_eq in Hox. injection Hox as <-.
        split; [exact Hl | split; [eauto|]]. rewrite H7, H2. exact Hp.
      * rewrite lookup_insert_ne in Hox by congruence.
        apply (ary_ok_ext s); [exact H2 | | eapply w_arys; eauto].
        intros b Hb. rewrite H3. eapply block_kept; eauto.
    + intros y ro b Hy Hb. rewrite H2 in Hy. rewrite H3.
      apply (owns_others _ _ (inr y)); [exact W | discriminate |]. simpl. rewrite Hy. exact Hb.
    + intros k1 k2 b. rewrite !Howns. repeat case_decide; try discriminate. apply (w_own s W).
    + intros x Hx. rewrite H4 in Hx. rewrite H1, lookup_insert_ne by lia. apply (w_next_ary s W). lia.
    + intros y. rewrite H2, H5. apply (w_next_root s W).
    + intros b Hb. rewrite H3. apply others_fresh; [exact W | lia].
  - apply map_eq. intros x. unfold abs. rewrite H1.
    destruct (decide (x = a)) as [-> | Hx].
    + rewrite lookup_omap, !lookup_insert_eq. simpl. unfold abs_ary. now rewrite Hv'.
    + rewrite lookup_insert_ne by congruence. rewrite !lookup_omap, lookup_insert_ne by congruence.
      destruct (arys s !! x) as [ox|] eqn:Ex; simpl; [|reflexivity].
      unfold abs_ary. now rewrite (Hother x ox Hx Ex).
Qed.

(** The state after [ary_make_shared] of an array that owned its block: the
    hidden array owns it now. *)
Definition hide (s : memory) (a : positive) (o : RArray) (c : Z) : memory :=
  mkMemory (<[a := set_aux (Shared (next_root s)) o]> (arys s))
    (<[next_root s := mkArray (a_len o) (a_ptr o) (Capa c) true false (3 <=? safe_level)]> (roots s))
    (blocks s) (next_ary s) (Pos.succ (next_root s)) (next_block s).

Lemma hide_points_into s a o c : points_into (hide s a o c) (next_root s) o.
Proof.
  eexists. split; [apply lookup_insert_eq|]. destruct (a_ptr o) as [[b off]|] eqn:Ep; [|done].
  exists off. reflexivity.
Qed.

Lemma hide_owns s a o c k :
  wf s -> arys s !! a = Some o -> a_aux o = Capa c ->
  owns (hide s a o c) k =
    if decide (k = inl a) then None else
    if decide (k = inr (next_root s)) then owns s (inl a) else owns s k.
Proof.
  intros W Ho Hc. destruct (decide (k = inl a)) as [-> | Hk]; simpl.
  { now rewrite lookup_insert_eq. }
  destruct (decide (k = inr (next_root s))) as [-> | Hr]; simpl.
  - rewrite lookup_insert_eq, Ho. simpl. unfold owned_block. now rewrite Hc.
  - destruct k as [x|y]; simpl; rewrite lookup_insert_ne by congruence; reflexivity.
Qed.

Lemma hide_roots s a o c r ro :
  wf s -> roots s !! r = Some ro -> roots (hide s a o c) !! r = Some ro.
Proof.
  intros W Hr. simpl. rewrite lookup_insert_ne; [exact Hr|]. intros <-.
  rewrite (w_next_root s W) in Hr; [discriminate | lia].
Qed.

Lemma hide_wf s a o c :
  wf s -> arys s !! a = Some o -> a_aux o = Capa c -> wf (hide s a o c).
Proof.
  intros W Ho Hc. pose proof (ary_lt _ _ _ W Ho) as Hlt. constructor.
  - intros x ox Hx. simpl in Hx. destruct (decide (x = a)) as [-> | Hxa].
    + rewrite lookup_insert_eq in Hx. injection Hx as <-.
      destruct (w_arys s W a o Ho) as (Hl & Hv & _). split; [exact Hl | split; [exact Hv|]].
      exact (hide_points_into s a o c).
    + rewrite lookup_insert_ne in Hx by congruence.
      destruct (w_arys s W x ox Hx) as (Hl & Hv & Ha). split; [exact Hl | split; [exact Hv|]].
      destruct (a_aux ox) as [cx|r]; [exact Ha|]. destruct Ha as (ro & Hr & Ha).
      exists ro. split; [now apply hide_roots | exact Ha].
  - intros r ro b Hr Hb. simpl in Hr |- *. destruct (decide (r = next_root s)) as [-> | Hne].
    + rewrite lookup_insert_eq in Hr. injection Hr as <-. exact (block_allocated _ _ _ _ W Ho Hb).
    + rewrite lookup_insert_ne in Hr by congruence. eapply w_roots; eauto.
  - intros k1 k2 b. rewrite !(hide_owns _ _ _ c _ W Ho Hc).
    repeat case_decide; try discriminate; subst; auto; intros O1 O2;
      pose proof (w_own s W _ _ _ O1 O2); congruence.
  - intros x Hx. simpl in *. rewrite lookup_insert_ne by lia. now apply (w_next_ary s W).
  - intros r Hr. simpl in *. rewrite lookup_insert_ne by lia. apply (w_next_root s W). lia.
  - apply (w_next_block s W).
Qed.

Lemma hide_abs s a o c : arys s !! a = Some o -> abs (hide s a o c) = abs s.
Proof.
  intros Ho. apply map_eq. intros x. unfold abs. rewrite !lookup_omap. simpl.
  destruct (decide (x = a)) as [-> | Hx].
  - rewrite lookup_insert_eq, Ho. reflexivity.
  - rewrite lookup_insert_ne by congruence. reflexivity.
Qed.

(** [ary_make_shared] changes no array's elements; afterwards [a] shares. *)
Lemma wp_make_shared s a o l (Q : positive -> memory -> Prop) E :
  wf s -> arys s !! a = Some o -> view s o = Some l ->
  (forall r s', wf s' -> abs s' = abs s -> arys s' = <[a := set_aux (Shared r) o]> (arys s) ->
     points_into s' r o -> blocks s' = blocks s -> next_ary s' = next_ary s -> Q r s') ->
  wp (ary_make_shared a) s Q E.
Proof.
  intros W Ho Hv HQ. unfold ary_make_shared. apply wp_bind. eapply wp_get; [exact Ho|].
  destruct (a_aux o) as [c|r] eqn:Ex.
  - unfold wp, bindM, new_root, upd, ret. simpl. rewrite Ho.
    change (Q (next_root s) (hide s a o c)). apply HQ; try reflexivity.
    + now apply hide_wf.
    + now apply hide_abs.
    + apply hide_points_into.
  - apply wp_ret. apply HQ; auto.
    + rewrite insert_id; [reflexivity|]. rewrite Ho. destruct o as [o1 o2 o3 o4 o5 o6]. simpl in *. now subst.
    + destruct (w_arys s W a o Ho) as (_ & _ & Hx). rewrite Ex in Hx. exact Hx.
Qed.

(** ** Leaving an operation *)

Lemma elts_app (cs : list cell) (l : list VALUE) :
  take (length l) cs = Some <$> l <-> exists rest, cs = (Some <$> l) ++ rest.
Proof.
  split.
  - intros H. exists (drop (length l) cs). rewrite <- H. symmetry. apply take_drop.
  - intros [rest ->]. rewrite <- (length_fmap Some l). apply take_app_length.
Qed.

Lemma splice_cells_app i (pre mid ds post : list cell) :
  length pre = i -> length mid = length ds -> splice_cells i ds (pre ++ mid ++ post) = pre ++ ds ++ post.
Proof.
  intros <- Hm. unfold splice_cells. rewrite take_app_length. do 2 f_equal.
  rewrite app_assoc, <- Hm, <- length_app. apply drop_app_length.
Qed.

Lemma splice_cells_end (pre ds post : list cell) :
  (length ds <= length post)%nat ->
  splice_cells (length pre) ds (pre ++ post) = pre ++ ds ++ drop (length ds) post.
Proof.
  intros Hn. rewrite <- (take_drop (length ds) post) at 1.
  apply splice_cells_app; [reflexivity|]. rewrite length_take. lia.
Qed.

(** A larger or smaller block that still holds the elements. *)
Lemma resize_elts (l : list VALUE) (rest : list cell) n :
  (length l <= n)%nat -> exists rest', resize n None ((Some <$> l) ++ rest) = (Some <$> l) ++ rest' /\
    length rest' = (n - length l)%nat.
Proof.
  intros Hn. exists (resize (n - length l) None rest). rewrite length_resize. split; [|reflexivity].
  rewrite <- (length_fmap Some l). apply resize_app_ge. rewrite length_fmap. lia.
Qed.

Lemma owned_kept s a s' o cs c l :
  owned s a s' o cs c l -> abs s !! a = Some (to_list o l) -> kept s s'.
Proof.
  intros O Ha. destruct (owned_done _ _ _ _ _ _ _ O) as [W Hs]. split; [exact W|].
  rewrite Hs, insert_id by exact Ha. reflexivity.
Qed.

(** What a program sees: the lists, and the address of the next array. *)
Definition state (s : memory) : gmap positive alist * positive := (abs s, next_ary s).

Definition put_list (st : gmap positive alist * positive) (a : positive) (x : alist) :
    gmap positive alist * positive :=
  (<[a := x]> (fst st), Pos.max (snd st) (Pos.succ a)).

(** The operation has made [a] the list [x], and kept all else. *)
Definition becomes (s : memory) (a : positive) (x : alist) (s' : memory) : Prop :=
  wf s' /\ state s' = put_list (state s) a x.

Lemma owned_becomes s a s' o cs c l x :
  owned s a s' o cs c l -> to_list o l = x -> becomes s a x s'.
Proof.
  intros O <-. destruct (owned_done _ _ _ _ _ _ _ O) as [W Hs]. split; [exact W|].
  unfold state, put_list. simpl. rewrite Hs. f_equal. apply O.
Qed.

(** Nothing has changed. *)
Lemma becomes_self s s' a x :
  wf s -> wf s' -> abs s !! a = Some x -> abs s' = abs s -> next_ary s' = next_ary s -> becomes s a x s'.
Proof.
  intros W W' Hx Ha Hn. split; [exact W'|]. unfold state, put_list. simpl. rewrite Ha, Hn, insert_id by exact Hx.
  f_equal. destruct (abs_lookup_inv _ _ _ Hx) as (o & Ho & _). pose proof (ary_lt _ _ _ W Ho). lia.
Qed.

Definition with_elts (x : alist) (l : list VALUE) : alist :=
  mkList l (l_frozen x) (l_locked x) (l_tainted x).

(** A size that the allocator or a test refuses. *)
Definition size_error (e : rb_error) : Prop := e = NoMemoryError \/ e = ArgumentError.

Lemma s32_quad_test n : 0 <= n < 1431655766 -> n < s32 (n * 4) -> n < ARY_MAX.
Proof.
  intros Hn Hs. change ARY_MAX with 536870912. destruct (Z.lt_ge_cases n 536870912); [assumption|].
  exfalso. unfold s32 in Hs.
  replace ((n * 4 + 2147483648) mod 4294967296) with (n * 4 + 2147483648 - 4294967296) in Hs; [lia|].
  symmetry. rewrite <- (Z.mod_small (n * 4 + 2147483648 - 4294967296) 4294967296) by lia.
  rewrite Zminus_mod, Z_mod_same_full, Z.sub_0_r, Z.mod_mod; lia.
Qed.

End Rules.

(** ** The memory at the start *)

Definition empty_memory : memory := mkMemory ∅ ∅ ∅ 1 1 1.

Lemma wf_empty : wf empty_memory.
Proof.
  constructor; simpl; try done.
  intros [k1|k1] k2 b H; simpl in H; rewrite lookup_empty in H; discriminate.
Qed.

(** A machine with memory for every size. *)
Definition plenty : Machine := {| malloc_ok := fun _ _ => true; safe_level := 0 |}.
