(* ===== verification/ArrayOps.v ===== *)
(** * Arrays: what each operation does to the elements

    The operations of Array.v against list functions.  A theorem has the form
    [wp m s Q E]: from a well-formed state the operation never leaves its
    block or reads a word that was not written, on success the array has
    become the list the specification gives and every other array is as it
    was, and on an exception no array has changed.  Because all arrays are
    compared, the theorems also say that sharing never shows. *)

From Stdlib Require Import ZArith Lia List Bool.
From stdpp Require Import base list gmap.
From S2P Require Import Prelude CInt ArrayMem Array ArrayInv.
Local Open Scope Z_scope.
Local Open Scope array_scope.

(** ** Specifications *)

Definition nils (n : nat) : list VALUE := replicate n Qnil.

(** [a[i] = v], with [nil]s up to [i]. *)
Definition list_store (l : list VALUE) (i : nat) (v : VALUE) : list VALUE :=
  if (i <? length l)%nat then <[i := v]> l else l ++ nils (i - length l) ++ [v].

(** [a[beg, len] = r] *)
Definition list_splice (l : list VALUE) (beg len : nat) (r : list VALUE) : list VALUE :=
  take beg l ++ nils (beg - length l) ++ r ++ drop (beg + len) l.

(** An index from the end. *)
Definition from_end (l : list VALUE) (i : Z) : Z := if i <? 0 then i + Z.of_nat (length l) else i.

Section Ops.
Context {machine : Machine}.

(** The exceptions of an operation: those of [rb_ary_modify], before anything
    is done, and sizes. *)
Definition modify_exn (s : memory) (x : alist) (e : rb_error) (s' : memory) : Prop :=
  kept s s' /\ (modify_error x = Some e /\ state s' = state s \/ size_error e).

Lemma modify_exn_start s x e :
  wf s -> modify_error x = Some e \/ e = NoMemoryError -> modify_exn s x e s.
Proof. intros W He. split; [now apply kept_refl|]. unfold size_error. destruct He; auto. Qed.

Lemma modify_exn_size s x e s' : kept s s' -> size_error e -> modify_exn s x e s'.
Proof. split; auto. Qed.

Lemma elts_to_list o l : elts (to_list o l) = l.
Proof. reflexivity. Qed.

Lemma abs_get s a x :
  abs s !! a = Some x ->
  exists o, arys s !! a = Some o /\ view s o = Some (elts x) /\ x = to_list o (elts x).
Proof. apply abs_lookup_inv. Qed.

Lemma ary_len s a o l : wf s -> arys s !! a = Some o -> view s o = Some l ->
  a_len o = Z.of_nat (length l) /\ 0 <= a_len o < 536870912.
Proof.
  intros W Ho Hv. destruct (w_arys s W a o Ho) as (Hl & _ & _). split; [|exact Hl].
  symmetry. eapply view_length; [apply Hl | exact Hv].
Qed.

(** ** Storing *)

Lemma list_store_length l i v : length (list_store l i v) = Nat.max (length l) (S i).
Proof.
  unfold list_store, nils. destruct (i <? length l)%nat eqn:E; breflect.
  - rewrite length_insert. lia.
  - rewrite !length_app, length_replicate. simpl. lia.
Qed.

(** The buffer after the gap is cleared and the element is written. *)
Lemma store_cells l (rest : list cell) i v :
  (i < length l + length rest)%nat ->
  exists rest',
    <[i := Some v]> (if (length l <? i)%nat
      then splice_cells (length l) (replicate (i - length l + 1) (Some Qnil)) ((Some <$> l) ++ rest)
      else (Some <$> l) ++ rest)
    = (Some <$> list_store l i v) ++ rest' /\
    (length (list_store l i v) + length rest' = length l + length rest)%nat.
Proof.
  intros Hi. unfold list_store. destruct (i <? length l)%nat eqn:E1; breflect.
  - destruct (length l <? i)%nat eqn:E2; breflect; [lia|]. exists rest.
    rewrite insert_app_l by (rewrite length_fmap; lia). rewrite list_fmap_insert.
    rewrite length_insert. auto.
  - exists (drop (i - length l + 1) rest). split.
    + destruct (length l <? i)%nat eqn:E2; breflect.
      * rewrite <- (length_fmap Some l) at 1. rewrite splice_cells_end by (rewrite length_replicate; lia).
        rewrite length_replicate. unfold nils. rewrite !fmap_app, fmap_replicate. simpl.
        rewrite insert_app_r_alt by (rewrite length_fmap; lia). rewrite length_fmap.
        rewrite <- !app_assoc. f_equal. rewrite insert_app_l by (rewrite length_replicate; lia).
        rewrite replicate_add. rewrite insert_app_r_alt by (rewrite length_replicate; lia).
        rewrite length_replicate, Nat.sub_diag. simpl. now rewrite <- app_assoc.
      * assert (i = length l) as -> by lia. rewrite Nat.sub_diag. simpl.
        rewrite fmap_app. simpl. rewrite insert_app_r_alt by (rewrite length_fmap; lia).
        rewrite length_fmap, Nat.sub_diag. destruct rest as [|c rest]; [simpl in Hi; lia|].
        simpl. rewrite drop_0, <- app_assoc. reflexivity.
    + unfold nils. rewrite !length_app, length_replicate, length_drop. simpl. lia.
Qed.

(** [a] owns its block, has the elements [l] and the flags of [x]. *)
Definition owns_list (s : memory) (a : positive) (x : alist) (l : list VALUE) (s' : memory) : Prop :=
  exists o cs c, owned s a s' o cs c l /\ to_list o l = with_elts x l.

Lemma owns_becomes s a x l s' : owns_list s a x l s' -> becomes s a (with_elts x l) s'.
Proof. intros (o & cs & c & O & Hf). eapply owned_becomes; eauto. Qed.

Lemma with_elts_id x : with_elts x (elts x) = x.
Proof. now destruct x. Qed.

Lemma owns_kept s a x s' : abs s !! a = Some x -> owns_list s a x (elts x) s' -> kept s s'.
Proof.
  intros Ha (o & cs & c & O & Hf). eapply owned_kept; [exact O|]. now rewrite Hf, with_elts_id.
Qed.

(** [rb_ary_modify] on abstract arrays. *)
Lemma modify_ok s a x (Q : unit -> memory -> Prop) (E : rb_error -> memory -> Prop) :
  wf s -> abs s !! a = Some x ->
  (forall e, modify_error x = Some e \/ e = NoMemoryError -> E e s) ->
  (modify_error x = None -> forall s' o cs c, owned s a s' o cs c (elts x) ->
     to_list o = to_list (mkArray 0 None (Capa 0) (l_frozen x) (l_locked x) (l_tainted x)) -> Q tt s') ->
  wp (rb_ary_modify a) s Q E.
Proof.
  intros W Hx HE HQ. destruct (abs_get _ _ _ Hx) as (o & Ho & Hv & Heq).
  eapply wp_modify; [exact W | exact Ho | exact Hv | | apply HE; auto |].
  - intros e He. apply HE. left. now rewrite Heq.
  - intros Hok s' o' cs c O Hf. rewrite <- Heq in Hok. eapply (HQ Hok); [exact O|].
    rewrite Hf, Heq. reflexivity.
Qed.

Lemma to_list_flags o x l :
  to_list o = to_list (mkArray 0 None (Capa 0) (l_frozen x) (l_locked x) (l_tainted x)) ->
  to_list o l = with_elts x l.
Proof. intros H. rewrite H. reflexivity. Qed.

Lemma get_capa_ok s0 a s o cs c l (Q : Z -> memory -> Prop) E :
  owned s0 a s o cs c l -> Q c s -> wp (get_capa a) s Q E.
Proof.
  intros O HQ. unfold get_capa. apply wp_bind. eapply focus_get; [apply O|].
  rewrite (o_capa _ _ _ _ _ _ _ O). exact HQ.
Qed.

(** A block of [n] words for an array that keeps its elements. *)
Lemma realloc_ok s0 a s o cs c l n (Q : unit -> memory -> Prop) (E : rb_error -> memory -> Prop) :
  owned s0 a s o cs c l -> Z.of_nat (length l) <= n < ARY_MAX ->
  E NoMemoryError s ->
  (forall s' o' cs' rest, focus s0 a s' o' cs' -> cs' = (Some <$> l) ++ rest ->
     length cs' = Z.to_nat n -> (exists b, o' = set_ptr (Some (b, 0)) o) -> Q tt s') ->
  wp (REALLOC_N a n) s Q E.
Proof.
  intros O Hn HM HQ. eapply focus_realloc; [apply O | exact HM | |].
  - rewrite bytes_small by lia. lia.
  - intros _ s1 b F1. rewrite cells_of_bytes in F1 by lia.
    destruct O as [F Hc Hl Hr Hm He]. apply elts_app in He as [rest ->].
    destruct (resize_elts l rest (Z.to_nat n)) as (rest' & Hrs & Hlen); [lia|]. rewrite Hrs in F1.
    eapply HQ; [exact F1 | reflexivity | | eauto]. rewrite length_app, length_fmap. lia.
Qed.

Lemma grow_ok s0 a s o cs c l n (Q : unit -> memory -> Prop) (E : rb_error -> memory -> Prop) :
  owned s0 a s o cs c l -> Z.of_nat (length l) <= n < ARY_MAX ->
  E NoMemoryError s ->
  (forall s' o' cs', owned s0 a s' o' cs' n l -> to_list o' = to_list o -> Q tt s') ->
  wp (bindM (REALLOC_N a n) (fun _ => upd a (set_aux (Capa n)))) s Q E.
Proof.
  intros O Hn HM HQ. apply wp_bind. eapply realloc_ok; [exact O | exact Hn | exact HM |].
  intros s1 o1 cs1 rest F1 -> Hlen [b ->]. eapply focus_upd; [exact F1 | reflexivity |]. intros s2 F2.
  apply (HQ s2 (set_aux (Capa n) (set_ptr (Some (b, 0)) o)) ((Some <$> l) ++ rest)); [|reflexivity].
  pose proof (o_len _ _ _ _ _ _ _ O) as Hl.
  constructor; [exact F2 | reflexivity | exact Hl | simpl; lia | lia | apply elts_app; eauto].
Qed.

(** The same for a size that may be refused. *)
Lemma grow_any_ok s0 a s o cs c l n (Q : unit -> memory -> Prop) (E : rb_error -> memory -> Prop) :
  owned s0 a s o cs c l -> Z.of_nat (length l) <= n < 2 ^ 30 ->
  (forall e, size_error e -> E e s) ->
  (forall s' o' cs', n < ARY_MAX -> owned s0 a s' o' cs' n l -> to_list o' = to_list o -> Q tt s') ->
  wp (bindM (REALLOC_N a n) (fun _ => upd a (set_aux (Capa n)))) s Q E.
Proof.
  intros O Hn HE HQ. destruct (Z.lt_ge_cases n ARY_MAX) as [Hlt|Hge].
  - eapply grow_ok; [exact O | lia | apply HE; left; reflexivity |]. intros. eapply HQ; eauto.
  - apply wp_bind. eapply focus_realloc; [apply O | apply HE; left; reflexivity | intros _; apply HE; right; reflexivity |].
    intros Hb. pose proof (bytes_max n ltac:(lia) Hb). lia.
Qed.

(** The other order: [aux.capa] first, for a block that gets smaller. *)
Lemma shrink_ok s0 a s o cs c l n (Q : unit -> memory -> Prop) (E : rb_error -> memory -> Prop) :
  owned s0 a s o cs c l -> Z.of_nat (length l) <= n <= c ->
  (forall s' o' cs', owned s0 a s' o' cs' n l -> to_list o' = to_list o -> E NoMemoryError s') ->
  (forall s' o' cs', owned s0 a s' o' cs' n l -> to_list o' = to_list o -> Q tt s') ->
  wp (upd a (set_aux (Capa n)) ;;; REALLOC_N a n) s Q E.
Proof.
  intros O Hn HM HQ. destruct (O) as [F Hc Hl Hr Hm He]. apply wp_bind.
  eapply focus_upd; [exact F | reflexivity|]. intros s1 F1.
  assert (owned s0 a s1 (set_aux (Capa n) o) cs n l) as O1 by (constructor; auto; simpl; lia).
  eapply realloc_ok; [exact O1 | lia | eapply HM; [exact O1 | reflexivity] |].
  intros s2 o2 cs2 rest F2 -> Hlen [b ->].
  apply (HQ s2 (set_ptr (Some (b, 0)) (set_aux (Capa n) o)) ((Some <$> l) ++ rest)); [|reflexivity].
  constructor; [exact F2 | reflexivity | exact Hl | simpl; lia | lia | apply elts_app; eauto].
Qed.

(** The test and the size of [rb_ary_store], which may refuse the index. *)
Lemma store_grow_ok s0 a s o cs c l i (Q : unit -> memory -> Prop) (E : rb_error -> memory -> Prop) :
  owned s0 a s o cs c l -> 0 <= i < 2 ^ 30 ->
  (forall e, size_error e -> E e s) ->
  (forall s' o' cs' c', owned s0 a s' o' cs' c' l -> i < c' -> to_list o' = to_list o -> Q tt s') ->
  wp (if c <=? i then
        let new_capa := cdiv c 2 in
        let new_capa := if new_capa <? ARY_DEFAULT_SIZE then ARY_DEFAULT_SIZE else new_capa in
        let new_capa := s32 (new_capa + i) in
        if s32 (new_capa * 4) <=? new_capa then rb_raise ArgumentError else
        REALLOC_N a new_capa ;;;
        upd a (set_aux (Capa new_capa))
      else ret tt) s Q E.
Proof.
  intros O Hi HE HQ. change (2 ^ 30) with 1073741824 in Hi.
  pose proof (o_max _ _ _ _ _ _ _ O) as Hmax. change ARY_MAX with 536870912 in Hmax.
  pose proof (o_room _ _ _ _ _ _ _ O) as Hroom. pose proof (o_len _ _ _ _ _ _ _ O) as Hlen.
  wp_if; [|apply wp_ret; eapply HQ; [exact O | lia | reflexivity]].
  cbv zeta. set (n := if cdiv c 2 <? ARY_DEFAULT_SIZE then ARY_DEFAULT_SIZE else cdiv c 2).
  assert (16 <= n < 268435456) as Hn.
  { unfold n, cdiv, ARY_DEFAULT_SIZE. rewrite Z.quot_div_nonneg by lia.
    pose proof (Z.div_lt_upper_bound c 2 268435456).
    destruct (c / 2 <? 16) eqn:?; breflect; lia. }
  rewrite (s32_small (n + i)) by lia.
  wp_if; [apply HE; right; reflexivity|].
  apply s32_quad_test in E1; [|lia].
  eapply grow_ok; [exact O | lia | apply HE; left; reflexivity |].
  intros s1 o1 cs1 O1 Hf. eapply HQ; [exact O1 | lia | exact Hf].
Qed.

(** The rest of [rb_ary_store], in a block that is large enough. *)
Lemma store_put_ok s0 a s o cs c l i v (Q : unit -> memory -> Prop) E :
  owned s0 a s o cs c l -> 0 <= i < c ->
  (forall s' o' cs' , owned s0 a s' o' cs' c (list_store l (Z.to_nat i) v) -> 
     to_list o' = to_list o -> Q tt s') ->
  wp (o <- get a ;;
      (if a_len o <? i
       then rb_mem_clear (padd (a_ptr o) (a_len o)) (s32 (s32 (i - a_len o) + 1))
       else ret tt) ;;;
      (if a_len o <=? i then upd a (set_len (s32 (i + 1))) else ret tt) ;;;
      store (a_ptr o) i v) s Q E.
Proof.
  intros O Hi HQ. destruct O as [F Hc Hl Hr Hm He]. change ARY_MAX with 536870912 in Hm.
  apply elts_app in He as [rest ->]. rewrite length_app, length_fmap in Hr.
  destruct (store_cells l rest (Z.to_nat i) v) as (rest' & Hcells & Hlen); [lia|].
  apply wp_bind. eapply focus_get; [exact F|]. cbv beta. rewrite Hl.
  set (cs2 := if (length l <? Z.to_nat i)%nat then _ else _) in Hcells.
  assert (length cs2 = length l + length rest)%nat as Hlen2.
  { apply (f_equal length) in Hcells. rewrite length_insert, length_app, length_fmap in Hcells. lia. }
  assert (forall s2, focus s0 a s2 o cs2 ->
    wp ((if Z.of_nat (length l) <=? i then upd a (set_len (s32 (i + 1))) else ret tt) ;;;
        store (a_ptr o) i v) s2 Q E) as Hput.
  { intros s2 F2. apply wp_bind.
    assert (forall s3 o3, focus s0 a s3 o3 cs2 -> a_ptr o3 = a_ptr o -> a_aux o3 = Capa c ->
      a_len o3 = Z.of_nat (length (list_store l (Z.to_nat i) v)) -> to_list o3 = to_list o ->
      wp (store (a_ptr o) i v) s3 Q E) as Hend.
    { intros s3 o3 F3 Hp3 Hc3 Hl3 Hf3. rewrite <- Hp3. eapply focus_store; [exact F3 | lia |].
      intros s4 F4. rewrite Hcells in F4. eapply HQ; [|exact Hf3].
      rewrite list_store_length in Hl3, Hlen.
      constructor; [exact F4 | exact Hc3 | rewrite list_store_length; exact Hl3 | | exact Hm | apply elts_app; eauto].
      rewrite length_app, length_fmap, list_store_length. lia. }
    rewrite list_store_length in Hend. wp_if.
    - eapply focus_upd; [exact F2 | reflexivity|]. intros s3 F3.
      eapply Hend; [exact F3 | reflexivity | exact Hc | | reflexivity]. simpl. rewrite s32_small; lia.
    - apply wp_ret. eapply Hend; [exact F2 | reflexivity | exact Hc | lia | reflexivity]. }
  apply wp_bind. unfold cs2 in Hput. wp_if.
  - destruct (length l <? Z.to_nat i)%nat eqn:E1; breflect; [|lia].
    eapply focus_memfill; [exact F | lia | rewrite !s32_small by (rewrite ?s32_small; lia); lia | |].
    + rewrite length_app, length_fmap, !s32_small by (rewrite ?s32_small; lia). lia.
    + intros s2 F2. apply Hput. rewrite Nat2Z.id, !s32_small in F2 by (rewrite ?s32_small; lia).
      replace (Z.to_nat (i - Z.of_nat (length l) + 1)) with (Z.to_nat i - length l + 1)%nat in F2 by lia.
      exact F2.
  - destruct (length l <? Z.to_nat i)%nat eqn:E1; breflect; [lia|]. apply wp_ret. apply Hput. exact F.
Qed.

(** [rb_ary_store] once the index is counted from the start. *)
Lemma store_at s a x i v :
  wf s -> abs s !! a = Some x -> 0 <= i < 2 ^ 30 ->
  wp
    (rb_ary_modify a ;;;
     capa <- get_capa a ;;
     (if capa <=? i then
        let new_capa := cdiv capa 2 in
        let new_capa := if new_capa <? ARY_DEFAULT_SIZE then ARY_DEFAULT_SIZE else new_capa in
        let new_capa := s32 (new_capa + i) in
        if s32 (new_capa * 4) <=? new_capa then rb_raise ArgumentError else
        REALLOC_N a new_capa ;;;
        upd a (set_aux (Capa new_capa))
      else ret tt) ;;;
     o <- get a ;;
     (if a_len o <? i
      then rb_mem_clear (padd (a_ptr o) (a_len o)) (s32 (s32 (i - a_len o) + 1))
      else ret tt) ;;;
     (if a_len o <=? i then upd a (set_len (s32 (i + 1))) else ret tt) ;;;
     store (a_ptr o) i v) s
    (fun _ s' => modify_error x = None /\ owns_list s a x (list_store (elts x) (Z.to_nat i) v) s')
    (modify_exn s x).
Proof.
  intros W Hx Hib. apply wp_bind. eapply modify_ok; [exact W | exact Hx | |].
  { intros e He. now apply modify_exn_start. }
  intros Hok s1 o1 cs1 c1 O1 Hf1. apply wp_bind. eapply get_capa_ok; [exact O1|]. apply wp_bind.
  eapply store_grow_ok; [exact O1 | exact Hib | |].
  { intros e He. apply modify_exn_size; [|exact He]. eapply owned_kept; [exact O1|].
    rewrite (to_list_flags _ x _ Hf1), with_elts_id. exact Hx. }
  intros s2 o2 cs2 c2 O2 Hlt Hf2. eapply store_put_ok; [exact O2 | lia |].
  intros s3 o3 cs3 O3 Hf3. split; [exact Hok|]. do 3 eexists. split; [exact O3|].
  rewrite Hf3, Hf2. now apply to_list_flags.
Qed.

(** The exceptions of an operation at an index counted from the start. *)
Definition index_exn (s : memory) (x : alist) (i : Z) (e : rb_error) (s' : memory) : Prop :=
  if i <? 0 then e = IndexError /\ s' = s else modify_exn s x e s'.

(** [rb_ary_store], for every index a Fixnum can be. *)
Lemma store_owns s a x idx v :
  wf s -> abs s !! a = Some x -> LONG_MIN <= idx < 2 ^ 30 ->
  wp (rb_ary_store a idx v) s
    (fun _ s' => modify_error x = None /\ 0 <= from_end (elts x) idx /\
       owns_list s a x (list_store (elts x) (Z.to_nat (from_end (elts x) idx)) v) s')
    (index_exn s x (from_end (elts x) idx)).
Proof.
  intros W Hx Hidx. change LONG_MIN with (-2147483648) in Hidx. change (2 ^ 30) with 1073741824 in Hidx.
  destruct (abs_get _ _ _ Hx) as (o & Ho & Hv & _). destruct (ary_len _ _ _ _ W Ho Hv) as [Hl Hlb].
  unfold rb_ary_store. apply wp_bind. eapply wp_get; [exact Ho|]. cbv beta. apply wp_bind.
  assert (forall i, from_end (elts x) idx = i -> 0 <= i < 1073741824 -> forall m,
    wp m s (fun _ s' => modify_error x = None /\ owns_list s a x (list_store (elts x) (Z.to_nat i) v) s')
      (modify_exn s x) ->
    wp (m : M unit) s
      (fun _ s' => modify_error x = None /\ 0 <= from_end (elts x) idx /\
         owns_list s a x (list_store (elts x) (Z.to_nat (from_end (elts x) idx)) v) s')
      (index_exn s x (from_end (elts x) idx)))
    as Hpost.
  { intros i Hi Hib m Hm. rewrite Hi. eapply wp_mono; [exact Hm | |].
    - intros u s' [H1 H2]. splits; auto; lia.
    - intros e s' H. unfold index_exn. destruct (i <? 0) eqn:?; breflect; [lia | exact H]. }
  unfold from_end in Hpost |- *. wp_if.
  - cbv zeta. rewrite (s32_small (idx + a_len o)) by lia. wp_if.
    + apply wp_raise. unfold index_exn. rewrite <- Hl.
      destruct (_ <? 0) eqn:?; breflect; [auto | destruct (idx <? 0) eqn:?; breflect; lia].
    + apply wp_ret. apply (Hpost (idx + a_len o)); [|lia | apply store_at; auto; lia].
      destruct (idx <? 0) eqn:?; breflect; lia.
  - apply wp_ret. apply (Hpost idx); [|lia | apply store_at; auto; lia].
    destruct (idx <? 0) eqn:?; breflect; lia.
Qed.

Lemma store_ok s a x idx v :
  wf s -> abs s !! a = Some x -> LONG_MIN <= idx < 2 ^ 30 ->
  wp (rb_ary_store a idx v) s
    (fun _ s' => modify_error x = None /\ 0 <= from_end (elts x) idx /\
       becomes s a (with_elts x (list_store (elts x) (Z.to_nat (from_end (elts x) idx)) v)) s')
    (index_exn s x (from_end (elts x) idx)).
Proof.
  intros W Hx Hidx. eapply wp_mono; [apply store_owns with (x := x); assumption | | auto].
  intros u s' (H1 & H2 & H3). splits; auto. now apply owns_becomes.
Qed.

Lemma list_store_end l v : list_store l (length l) v = l ++ [v].
Proof. unfold list_store. rewrite Nat.ltb_irrefl, Nat.sub_diag. reflexivity. Qed.

(** [rb_ary_push] *)
Lemma push_owns s a x v :
  wf s -> abs s !! a = Some x ->
  wp (rb_ary_push a v) s
    (fun r s' => r = a /\ modify_error x = None /\ owns_list s a x (elts x ++ [v]) s')
    (modify_exn s x).
Proof.
  intros W Hx. destruct (abs_get _ _ _ Hx) as (o & Ho & Hv & _). destruct (ary_len _ _ _ _ W Ho Hv) as [Hl Hlb].
  assert (from_end (elts x) (a_len o) = a_len o) as Hfe.
  { unfold from_end. destruct (a_len o <? 0) eqn:?; breflect; lia. }
  unfold rb_ary_push. apply wp_bind. eapply wp_get; [exact Ho|]. apply wp_bind.
  eapply wp_mono; [apply store_owns with (x := x); [exact W | exact Hx | change LONG_MIN with (-2147483648); lia] | |].
  - intros u s' (H1 & _ & H3). rewrite Hfe, Hl, Nat2Z.id, list_store_end in H3. apply wp_ret. auto.
  - intros e s' H. rewrite Hfe in H. unfold index_exn in H. destruct (a_len o <? 0) eqn:?; breflect; [lia | exact H].
Qed.

Lemma push_ok s a x v :
  wf s -> abs s !! a = Some x ->
  wp (rb_ary_push a v) s
    (fun r s' => r = a /\ modify_error x = None /\ becomes s a (with_elts x (elts x ++ [v])) s')
    (modify_exn s x).
Proof.
  intros W Hx. eapply wp_mono; [apply push_owns with (x := x); assumption | | auto].
  intros u s' (H1 & H2 & H3). splits; auto. now apply owns_becomes.
Qed.

(** ** Taking elements off the ends *)

(** A part of an array's words. *)
Lemma view_sub s o l i n :
  0 <= a_len o -> view s o = Some l -> 0 <= i -> 0 <= n -> i + n <= a_len o ->
  view s (set_len n (set_ptr (padd (a_ptr o) i) o)) = Some (take (Z.to_nat n) (drop (Z.to_nat i) l)).
Proof.
  intros Hlen Hv Hi Hn Hin. unfold view. simpl. destruct (a_ptr o) as [[b off]|] eqn:Ep; simpl.
  - destruct (view_block _ _ _ _ _ Ep Hv) as (cs & -> & Hb & Ht). simpl.
    unfold in_block in *. breflect.
    destruct (_ && _) eqn:E1; [|breflect; destruct E1; breflect; lia].
    apply values_Some. rewrite fmap_take, fmap_drop, <- Ht.
    rewrite skipn_firstn_comm, firstn_firstn, skipn_skipn. f_equal; [lia | f_equal; lia].
  - unfold view in Hv. rewrite Ep in Hv. destruct (a_len o =? 0) eqn:E0; [|discriminate].
    injection Hv as <-. breflect. replace n with 0 by lia. reflexivity.
Qed.

Lemma becomes_intro s s' a o x :
  wf s -> arys s !! a = Some o -> wf s' -> abs s' = <[a := x]> (abs s) -> next_ary s' = next_ary s ->
  becomes s a x s'.
Proof.
  intros W Ho W' Ha Hn. split; [exact W'|]. unfold state, put_list. simpl. rewrite Ha, Hn. f_equal.
  pose proof (ary_lt _ _ _ W Ho). lia.
Qed.

(** An array that shares moves within its hidden array's block. *)
Lemma shared_upd s a o o' r l (f : RArray -> RArray) (Q : unit -> memory -> Prop) E :
  wf s -> arys s !! a = Some o -> a_aux o = Shared r -> f o = o' ->
  a_aux o' = Shared r -> block_of o' = block_of o -> view s o' = Some l -> 0 <= a_len o' < ARY_MAX ->
  (forall s', wf s' -> abs s' = <[a := to_list o' l]> (abs s) -> arys s' = <[a := o']> (arys s) ->
     blocks s' = blocks s -> next_ary s' = next_ary s -> Q tt s') ->
  wp (upd a f) s Q E.
Proof.
  intros W Ho Hr Hf Hr' Hb Hv Hl HQ. unfold wp, upd. rewrite Ho, Hf.
  pose proof (ary_lt _ _ _ W Ho) as Hlt.
  assert (others s a = blocks s) as Hoth.
  { unfold others. rewrite (owns_ary _ _ _ Ho). unfold owned_block. now rewrite Hr. }
  assert (shares s a (with_arys (insert a o') s) o' r) as Hs.
  { constructor; simpl; auto. lia. }
  destruct (w_arys s W a o Ho) as (_ & _ & Hp). rewrite Hr in Hp.
  assert (points_into s r o') as Hpi.
  { destruct Hp as (ro & Hro & Hp). exists ro. split; [exact Hro|]. unfold block_of in Hb.
    destruct (a_ptr o') as [[b' off']|]; [|done].
    destruct (a_ptr o) as [[b off]|]; [|discriminate]. simpl in Hb. injection Hb as ->. exact Hp. }
  destruct (shares_done _ _ _ _ _ l W Hs Hpi Hv Hl) as [W' Ha']. now apply HQ.
Qed.

Lemma last_split (l : list VALUE) : l <> [] -> exists l' v, l = l' ++ [v] /\ length l = S (length l').
Proof.
  intros Hl. destruct (exists_last Hl) as (l' & v & ->). exists l', v.
  rewrite length_app. simpl. split; [reflexivity | lia].
Qed.

(** The last element, or [nil]. *)
Definition last_or_nil (l : list VALUE) : VALUE := default Qnil (last l).

Lemma owned_truncate s0 a s o cs c l n (Q : unit -> memory -> Prop) E :
  owned s0 a s o cs c l -> 0 <= n <= a_len o ->
  (forall s', owned s0 a s' (set_len n o) cs c (take (Z.to_nat n) l) -> Q tt s') ->
  wp (upd a (set_len n)) s Q E.
Proof.
  intros [F Hc Hl Hr Hm He] Hn HQ. eapply focus_upd; [exact F | reflexivity |]. intros s' F'. apply HQ.
  assert (length (take (Z.to_nat n) l) = Z.to_nat n) as Hlen by (rewrite length_take; lia).
  constructor; [exact F' | exact Hc | simpl; rewrite Hlen; lia | simpl; lia | exact Hm |].
  rewrite Hlen. apply (f_equal (take (Z.to_nat n))) in He. rewrite firstn_firstn in He.
  rewrite fmap_take, <- He. f_equal. lia.
Qed.

(** The last element leaves, whoever owns the block. *)
Lemma drop_last_ok s a o l v (Q : VALUE -> memory -> Prop) E :
  wf s -> arys s !! a = Some o -> view s o = Some (l ++ [v]) ->
  (forall s', becomes s a (to_list o l) s' -> Q v s') ->
  wp (upd a (set_len (Z.of_nat (length l))) ;;; o <- get a ;; load (a_ptr o) (Z.of_nat (length l))) s Q E.
Proof.
  intros W Ho Hv HQ. destruct (ary_len _ _ _ _ W Ho Hv) as [Hl Hlb]. rewrite length_app in Hl. simpl in Hl.
  assert ((l ++ [v]) !! Z.to_nat (Z.of_nat (length l)) = Some v) as Hget.
  { rewrite Nat2Z.id, lookup_app_r, Nat.sub_diag by lia. reflexivity. }
  apply wp_bind. destruct (a_aux o) as [c|r] eqn:Ex.
  - destruct (focus_start _ _ _ _ W Ho Ex) as (cs & l0 & O & Hv2). rewrite Hv in Hv2. injection Hv2 as <-.
    eapply owned_truncate; [exact O | lia |]. rewrite Nat2Z.id, take_app_length. intros s2 O2.
    apply wp_bind. eapply focus_get; [apply O2|]. eapply focus_load; [apply O2 | lia | |].
    + pose proof (o_elts _ _ _ _ _ _ _ O) as He. apply elts_app in He as [rest ->].
      rewrite lookup_app_l by (rewrite length_fmap, length_app; simpl; lia).
      rewrite list_lookup_fmap, Hget. reflexivity.
    + apply HQ. eapply owned_becomes; [exact O2 | reflexivity].
  - pose proof (view_sub s o _ 0 (Z.of_nat (length l)) (proj1 Hlb) Hv) as Hsub.
    rewrite padd_0, drop_0, Nat2Z.id, take_app_length in Hsub.
    eapply shared_upd; [exact W | exact Ho | exact Ex | reflexivity | exact Ex | reflexivity | | |].
    + etransitivity; [|apply Hsub; lia]. apply view_ext. reflexivity.
    + simpl. change ARY_MAX with 536870912. lia.
    + intros s' W' Ha' Harys Hblocks Hnext. apply wp_bind.
      eapply wp_get; [rewrite Harys; apply lookup_insert_eq|]. simpl.
      eapply wp_load_view; [|lia | exact Hget | apply HQ; now apply becomes_intro with o].
      rewrite <- Hv. apply view_ext. intros b _. now rewrite Hblocks.
Qed.

(** [rb_ary_pop], with its block cut when it is much too large. *)
Lemma pop_ok s a x :
  wf s -> abs s !! a = Some x ->
  wp (rb_ary_pop a) s
    (fun r s' => modify_error x = None /\ r = last_or_nil (elts x) /\
       becomes s a (with_elts x (removelast (elts x))) s')
    (modify_exn s x).
Proof.
  intros W Hx. destruct (abs_get _ _ _ Hx) as (o & Ho & Hv & Heq). destruct (ary_len _ _ _ _ W Ho Hv) as [Hl Hlb].
  unfold rb_ary_pop. apply wp_bind. eapply wp_modify_check; [exact Ho | |].
  { intros e He. rewrite <- Heq in He. apply modify_exn_start; auto. }
  intros Hok. rewrite <- Heq in Hok. apply wp_bind. eapply wp_get; [exact Ho|]. wp_if.
  { assert (elts x = []) as Hnil by (destruct (elts x); [reflexivity | simpl in Hl; lia]).
    apply wp_ret. unfold last_or_nil. rewrite Hnil. splits; auto. simpl. rewrite <- Hnil, with_elts_id.
    now apply becomes_self. }
  destruct (last_split (elts x)) as (l' & v & Hlast & Hlen).
  { intros Hnil. rewrite Hnil in Hl. simpl in Hl. lia. }
  assert (last_or_nil (elts x) = v) as -> by (unfold last_or_nil; now rewrite Hlast, last_snoc).
  assert (removelast (elts x) = l') as -> by (now rewrite Hlast, removelast_last).
  rewrite (s32_small (a_len o - 1)) by lia. rewrite (s32_small (a_len o * 2)) by lia.
  replace (a_len o - 1) with (Z.of_nat (length l')) by lia. apply wp_bind.
  assert (forall s1 o1, wf s1 -> state s1 = state s -> arys s1 !! a = Some o1 ->
    view s1 o1 = Some (elts x) -> to_list o1 = to_list o ->
    wp (upd a (set_len (Z.of_nat (length l'))) ;;; o <- get a ;; load (a_ptr o) (Z.of_nat (length l'))) s1
      (fun r s' => modify_error x = None /\ r = v /\ becomes s a (with_elts x l') s') (modify_exn s x)) as Hend.
  { intros s1 o1 W1 Ha1 Ho1 Hv1 Hf1. rewrite Hlast in Hv1. eapply drop_last_ok; [exact W1 | exact Ho1 | exact Hv1 |].
    intros s2 [W2 Ha2]. splits; auto. split; [exact W2|]. rewrite Ha2, Ha1, Hf1, Heq. reflexivity. }
  destruct (a_aux o) as [c|r] eqn:Ex; [|apply wp_ret; now apply (Hend s o)].
  wp_if; [|apply wp_ret; now apply (Hend s o)].
  destruct (focus_start _ _ _ _ W Ho Ex) as (cs & l & O & Hv2). rewrite Hv in Hv2. injection Hv2 as <-.
  unfold ARY_DEFAULT_SIZE in *. eapply shrink_ok; [exact O | lia | |]; intros s1 o1 cs1 O1 Hf1.
  - apply modify_exn_size; [|left; reflexivity]. eapply owned_kept; [exact O1|]. now rewrite Hf1, <- Heq.
  - destruct (owned_becomes _ _ _ _ _ _ _ _ O1 eq_refl) as [W1 Ha1].
    assert (arys s1 !! a = Some o1) as Ho1 by (rewrite (f_arys _ _ _ _ _ (o_focus _ _ _ _ _ _ _ O1)); apply lookup_insert_eq).
    apply (Hend s1 o1); [exact W1 | | exact Ho1 | eapply owned_view, O1 | exact Hf1].
    rewrite Ha1, Hf1, <- Heq. symmetry. now apply (becomes_self s s a x).
Qed.

Lemma owned_lookup s0 a s o cs c l : owned s0 a s o cs c l -> arys s !! a = Some o.
Proof. intros O. rewrite (f_arys _ _ _ _ _ (o_focus _ _ _ _ _ _ _ O)). apply lookup_insert_eq. Qed.

(** [rb_ary_shift]: the array begins to share, and skips its first word. *)
Lemma shift_ok s a x :
  wf s -> abs s !! a = Some x ->
  wp (rb_ary_shift a) s
    (fun r s' => modify_error x = None /\ r = default Qnil (head (elts x)) /\
       becomes s a (with_elts x (tail (elts x))) s')
    (modify_exn s x).
Proof.
  intros W Hx. destruct (abs_get _ _ _ Hx) as (o & Ho & Hv & Heq). destruct (ary_len _ _ _ _ W Ho Hv) as [Hl Hlb].
  unfold rb_ary_shift. apply wp_bind. eapply wp_modify_check; [exact Ho | |].
  { intros e He. rewrite <- Heq in He. apply modify_exn_start; auto. }
  intros Hok. rewrite <- Heq in Hok. apply wp_bind. eapply wp_get; [exact Ho|].
  destruct (elts x) as [|v l] eqn:El; simpl in Hl; (wp_if; [|]); try lia.
  { apply wp_ret. splits; auto. simpl. rewrite <- El, with_elts_id. now apply becomes_self. }
  apply wp_bind. eapply wp_load_view; [exact Hv | lia | reflexivity |].
  apply wp_bind. eapply wp_make_shared; [exact W | exact Ho | exact Hv |].
  intros r s1 W1 Ha1 Harys1 Hpi Hb1 Hn1. apply wp_bind.
  assert (arys s1 !! a = Some (set_aux (Shared r) o)) as Ho1 by (rewrite Harys1; apply lookup_insert_eq).
  assert (view s1 (set_len (a_len o - 1) (set_ptr (padd (a_ptr o) 1) (set_aux (Shared r) o))) = Some l) as Hv2.
  { assert (view s1 (set_aux (Shared r) o) = Some (v :: l)) as Hv1.
    { change (view s1 o = Some (v :: l)). rewrite <- Hv. apply view_ext. intros b _. now rewrite Hb1. }
    pose proof (view_sub s1 (set_aux (Shared r) o) (v :: l) 1 (a_len o - 1)) as Hsub.
    replace (take (Z.to_nat (a_len o - 1)) (drop (Z.to_nat 1) (v :: l))) with l in Hsub.
    - apply Hsub; [simpl; lia | exact Hv1 | lia | lia | simpl; lia].
    - simpl. rewrite drop_0, take_ge; [reflexivity | lia]. }
  eapply shared_upd; [exact W1 | exact Ho1 | reflexivity | | | | exact Hv2 | |].
  - rewrite s32_small by (simpl; lia). reflexivity.
  - reflexivity.
  - unfold block_of. simpl. apply fst_padd.
  - simpl. change ARY_MAX with 536870912. lia.
  - intros s2 W2 Ha2 _ _ Hn2. apply wp_ret. splits; auto.
    apply (becomes_intro s s2 a o); [exact W | exact Ho | exact W2 | rewrite Ha2, Ha1, Heq; reflexivity | congruence].
Qed.

(** What [rb_ary_unshift] leaves when it cannot grow: the elements are as they
    were, but not the invariant. *)
Definition unshift_exn (s : memory) (x : alist) (e : rb_error) (s' : memory) : Prop :=
  modify_exn s x e s' \/ (size_error e /\ abs s' = abs s).

(** Moving the elements up and writing in front of them. *)
Lemma front_cells (l ds : list VALUE) (rest : list cell) :
  (length ds <= length rest)%nat ->
  exists rest', splice_cells 0 (Some <$> ds) (splice_cells (length ds) (Some <$> l) ((Some <$> l) ++ rest))
    = (Some <$> (ds ++ l)) ++ rest'.
Proof.
  intros Hn. eexists. unfold splice_cells at 1. rewrite length_fmap, fmap_app, <- app_assoc. simpl.
  f_equal. unfold splice_cells. rewrite drop_app_length'; [reflexivity|].
  rewrite length_take, length_app, length_fmap. lia.
Qed.

Lemma front_move s0 a s o l rest k (Q : unit -> memory -> Prop) E :
  focus s0 a s o ((Some <$> l) ++ rest) -> 0 <= k -> k <= Z.of_nat (length rest) ->
  Z.of_nat (length l) < ARY_MAX ->
  (forall s', focus s0 a s' o (splice_cells (Z.to_nat k) (Some <$> l) ((Some <$> l) ++ rest)) -> Q tt s') ->
  wp (MEMMOVE (padd (a_ptr o) k) (a_ptr o) (Z.of_nat (length l))) s Q E.
Proof.
  intros F Hk Hn Hl HQ. change ARY_MAX with 536870912 in Hl. rewrite <- (padd_0 (a_ptr o)) at 2.
  eapply focus_memmove; [exact F | lia | lia | lia | rewrite length_app, length_fmap; lia
    | rewrite length_app, length_fmap; lia |].
  intros s1 F1. simpl (drop _ _) in F1. rewrite drop_0, Nat2Z.id in F1.
  rewrite <- (length_fmap Some l) in F1 at 1. rewrite take_app_length in F1. now apply HQ.
Qed.

Lemma front_write s0 a s o c l (ds : list VALUE) rest (Q : unit -> memory -> Prop) E :
  focus s0 a s o (splice_cells (length ds) (Some <$> l) ((Some <$> l) ++ rest)) -> ds <> [] ->
  (length ds <= length rest)%nat -> a_aux o = Capa c -> a_len o = Z.of_nat (length (ds ++ l)) ->
  a_len o <= c <= Z.of_nat (length l + length rest) -> c < ARY_MAX ->
  (forall s' cs', owned s0 a s' o cs' c (ds ++ l) -> Q tt s') ->
  wp (write_cells (padd (a_ptr o) 0) (Some <$> ds)) s Q E.
Proof.
  intros F Hds Hn Hc Hl Hr Hm HQ.
  assert (length (splice_cells (length ds) (Some <$> l) ((Some <$> l) ++ rest)) = length l + length rest)%nat as Hsl.
  { rewrite splice_cells_length; rewrite ?length_app, ?length_fmap; lia. }
  eapply focus_write; [exact F | lia | now destruct ds | rewrite length_fmap; lia |].
  intros s1 F1. simpl Z.to_nat in F1. destruct (front_cells l ds rest Hn) as [rest' Hrest].
  eapply HQ. constructor; [exact F1 | exact Hc | exact Hl | | exact Hm | apply elts_app; eauto].
  rewrite splice_cells_length; rewrite ?length_fmap; lia.
Qed.

(** [rb_ary_unshift] *)
Lemma unshift_ok s a x v :
  wf s -> abs s !! a = Some x ->
  wp (rb_ary_unshift a v) s
    (fun r s' => r = a /\ modify_error x = None /\ becomes s a (with_elts x (v :: elts x)) s')
    (unshift_exn s x).
Proof.
  intros W Hx. unfold rb_ary_unshift. apply wp_bind. eapply modify_ok; [exact W | exact Hx | |].
  { intros e He. left. now apply modify_exn_start. }
  intros Hok s1 o cs c O Hf. apply wp_bind. eapply get_capa_ok; [exact O|].
  apply wp_bind. eapply focus_get; [apply O|]. cbv beta. apply wp_bind.
  pose proof (o_len _ _ _ _ _ _ _ O) as Hl. pose proof (o_room _ _ _ _ _ _ _ O) as Hr.
  pose proof (o_max _ _ _ _ _ _ _ O) as Hm. change ARY_MAX with 536870912 in Hm.
  assert (forall s2 o2 cs2 c2, owned s a s2 o2 cs2 c2 (elts x) -> to_list o2 = to_list o -> a_len o2 + 1 <= c2 ->
    wp (o <- get a ;;
        MEMMOVE (padd (a_ptr o) 1) (a_ptr o) (a_len o) ;;;
        upd a (set_len (s32 (a_len o + 1))) ;;;
        store (a_ptr o) 0 v ;;;
        ret a) s2
      (fun r s' => r = a /\ modify_error x = None /\ becomes s a (with_elts x (v :: elts x)) s')
      (unshift_exn s x)) as Hend.
  { intros s2 o2 cs2 c2 O2 Hf2 Hroom. apply wp_bind. eapply focus_get; [apply O2|].
    pose proof (o_len _ _ _ _ _ _ _ O2) as Hl2. pose proof (o_max _ _ _ _ _ _ _ O2) as Hm2.
    change ARY_MAX with 536870912 in Hm2. cbv beta. rewrite s32_small by lia.
    pose proof (o_room _ _ _ _ _ _ _ O2) as Hr2. destruct (O2) as [F2 Hc2 _ _ _ He2].
    apply elts_app in He2 as [rest ->]. rewrite length_app, length_fmap in Hr2.
    rewrite Hl2. apply wp_bind. eapply front_move; [exact F2 | lia | lia | change ARY_MAX with 536870912; lia |].
    intros s3 F3. apply wp_bind. eapply focus_upd; [exact F3 | reflexivity |]. intros s4 F4. apply wp_bind.
    unfold store. change (a_ptr o2) with (a_ptr (set_len (Z.of_nat (length (elts x)) + 1) o2)).
    change [Some v] with (Some <$> [v]). eapply (front_write _ _ _ _ c2 (elts x) [v] rest);
      [exact F4 | done | simpl; lia | exact Hc2 | simpl; lia | simpl; lia | change ARY_MAX with 536870912; lia |].
    intros s5 cs5 O5. apply wp_ret. splits; auto. eapply owned_becomes; [exact O5|].
    change (to_list (set_len (Z.of_nat (length (elts x)) + 1) o2)) with (to_list o2).
    rewrite Hf2. now apply to_list_flags. }
  wp_if; [|apply wp_ret; eapply Hend; [exact O | reflexivity | lia]]. cbv zeta.
  set (n := if cdiv c 2 <? ARY_DEFAULT_SIZE then ARY_DEFAULT_SIZE else cdiv c 2).
  assert (16 <= n < 268435456) as Hn.
  { unfold n, cdiv, ARY_DEFAULT_SIZE. rewrite Z.quot_div_nonneg by lia.
    pose proof (Z.div_lt_upper_bound c 2 268435456). destruct (c / 2 <? 16) eqn:?; breflect; lia. }
  rewrite (s32_small (c + n)) by lia.
  apply wp_bind. eapply focus_upd; [apply O | reflexivity|]. intros s2 F2.
  assert (abs s2 = abs s) as Ha2.
  { assert (view s2 (set_aux (Capa (c + n)) o) = Some (elts x)) as Hv2.
    { pose proof (f_blocks _ _ _ _ _ F2) as Hb2. simpl in Hb2.
      eapply (view_own _ _ _ cs c); [exact Hl | apply (o_elts _ _ _ _ _ _ _ O) | exact Hr |].
      simpl. destruct (a_ptr o) as [[b off]|]; [|now destruct Hb2].
      destruct Hb2 as (-> & _ & ->). split; [reflexivity | apply lookup_insert_eq]. }
    rewrite (focus_abs _ _ _ _ _ _ F2 Hv2), insert_id; [reflexivity|].
    change (to_list (set_aux (Capa (c + n)) o)) with (to_list o).
    rewrite (to_list_flags _ x _ Hf), with_elts_id. exact Hx. }
  eapply focus_realloc; [exact F2 | right; split; [left; reflexivity | exact Ha2]
    | intros _; right; split; [right; reflexivity | exact Ha2] |].
  intros Hb s3 b F3. pose proof (bytes_max (c + n) ltac:(change (2 ^ 30) with 1073741824; lia) Hb) as Hmax.
  change ARY_MAX with 536870912 in Hmax.
  rewrite cells_of_bytes in F3 by (change ARY_MAX with 536870912; lia).
  pose proof (o_elts _ _ _ _ _ _ _ O) as He. apply elts_app in He as [rest ->].
  destruct (resize_elts (elts x) rest (Z.to_nat (c + n))) as (rest' & Hrs & Hlen); [lia|]. rewrite Hrs in F3.
  eapply Hend; [constructor; [exact F3 | reflexivity | exact Hl | | exact Hmax | apply elts_app; eauto]
    | reflexivity | simpl; lia].
  simpl. rewrite length_app, length_fmap. lia.
Qed.

(** [rb_ary_unshift_m]: the last element is stored first, to make room. *)
Lemma unshift_m_ok s a x argv :
  wf s -> abs s !! a = Some x -> Z.of_nat (length argv) < 2 ^ 29 ->
  wp (rb_ary_unshift_m argv a) s
    (fun r s' => r = a /\ (argv = [] \/ modify_error x = None) /\
       becomes s a (with_elts x (argv ++ elts x)) s')
    (fun e s' => argv <> [] /\ modify_exn s x e s').
Proof.
  intros W Hx Hn. change (2 ^ 29) with 536870912 in Hn.
  destruct (abs_get _ _ _ Hx) as (o & Ho & Hv & _). destruct (ary_len _ _ _ _ W Ho Hv) as [Hl Hlb].
  unfold rb_ary_unshift_m. apply wp_bind. eapply wp_get; [exact Ho|]. cbv beta zeta. wp_if.
  { assert (argv = []) as -> by (destruct argv; [reflexivity | simpl in E; lia]).
    apply wp_ret. splits; auto. simpl. rewrite with_elts_id. now apply becomes_self. }
  rewrite (s32_small (a_len o + Z.of_nat (length argv))) by lia. rewrite s32_small by lia.
  set (i := a_len o + Z.of_nat (length argv) - 1). apply wp_bind.
  assert (from_end (elts x) i = i) as Hfe by (unfold from_end; destruct (i <? 0) eqn:?; breflect; lia).
  eapply wp_mono; [apply store_owns with (x := x); [exact W | exact Hx | change LONG_MIN with (-2147483648); lia] | |].
  2:{ intros e s' H. rewrite Hfe in H. unfold index_exn in H.
      destruct (i <? 0) eqn:?; breflect; [lia | split; [intros -> | exact H]; now apply E]. }
  rewrite Hfe. intros _ s1 (Hok & _ & o1 & cs1 & c1 & O1 & Hf1).
  apply wp_bind. eapply focus_get; [apply O1|]. cbv beta. rewrite Hl.
  pose proof (o_len _ _ _ _ _ _ _ O1) as Hl1. pose proof (o_room _ _ _ _ _ _ _ O1) as Hr1.
  pose proof (o_max _ _ _ _ _ _ _ O1) as Hm1. change ARY_MAX with 536870912 in Hm1.
  rewrite list_store_length in Hl1. destruct (O1) as [F1 Hc1 _ _ _ He1]. apply elts_app in He1 as [rest ->].
  assert (exists rest1, (Some <$> list_store (elts x) (Z.to_nat i) Qnil) ++ rest = (Some <$> elts x) ++ rest1)
    as [rest1 Hcs].
  { unfold list_store. destruct (Z.to_nat i <? length (elts x))%nat eqn:?; breflect; [lia|].
    eexists. rewrite fmap_app, <- app_assoc. reflexivity. }
  rewrite Hcs in F1, Hr1. rewrite length_app, length_fmap in Hr1.
  apply wp_bind. eapply front_move; [exact F1 | lia | lia | change ARY_MAX with 536870912; lia |].
  intros s2 F2. rewrite Nat2Z.id in F2. apply wp_bind. rewrite <- (padd_0 (a_ptr o1)).
  eapply (front_write _ _ _ _ c1 (elts x) argv rest1);
    [exact F2 | intros ->; now apply E | lia | exact Hc1 | rewrite length_app; lia | lia | exact Hm1 |].
  intros s3 cs3 O3. apply wp_ret. splits; auto. eapply owned_becomes; [exact O3|].
  apply (f_equal (fun y => mkList (argv ++ elts x) (l_frozen y) (l_locked y) (l_tainted y))) in Hf1.
  exact Hf1.
Qed.

(** ** Reading *)

Lemma elt_ok s a x i :
  wf s -> abs s !! a = Some x ->
  wp (rb_ary_elt a i) s
    (fun r s' => s' = s /\ r = if i <? 0 then Qnil else default Qnil (elts x !! Z.to_nat i)) (fun _ _ => False).
Proof.
  intros W Hx. destruct (abs_get _ _ _ Hx) as (o & Ho & Hv & _). destruct (ary_len _ _ _ _ W Ho Hv) as [Hl Hlb].
  unfold rb_ary_elt. apply wp_bind. eapply wp_get; [exact Ho|]. wp_if.
  - apply wp_ret. destruct (elts x); [|simpl in Hl; lia]. split; [reflexivity|]. now destruct (i <? 0).
  - wp_if.
    + apply wp_ret. split; [reflexivity|]. destruct (i <? 0) eqn:?; [reflexivity|].
      breflect. rewrite lookup_ge_None_2; [reflexivity|]. destruct E0; breflect; lia.
    + destruct (i <? 0) eqn:?; breflect; [lia|].
      destruct (lookup_lt_is_Some_2 (elts x) (Z.to_nat i)) as [v Hget]; [lia|].
      eapply wp_load_view; [exact Hv | lia | exact Hget |]. now rewrite Hget.
Qed.

(** [rb_ary_entry]: [nil] outside the array. *)
Definition list_entry (l : list VALUE) (i : Z) : VALUE :=
  let i := from_end l i in
  if i <? 0 then Qnil else default Qnil (l !! Z.to_nat i).

Lemma entry_ok s a x i :
  wf s -> abs s !! a = Some x -> LONG_MIN <= i <= LONG_MAX ->
  wp (rb_ary_entry a i) s (fun r s' => s' = s /\ r = list_entry (elts x) i) (fun _ _ => False).
Proof.
  intros W Hx Hi. change LONG_MIN with (-2147483648) in Hi. change LONG_MAX with 2147483647 in Hi.
  destruct (abs_get _ _ _ Hx) as (o & Ho & Hv & _). destruct (ary_len _ _ _ _ W Ho Hv) as [Hl Hlb].
  unfold rb_ary_entry. apply wp_bind. eapply wp_get; [exact Ho|]. cbv beta.
  assert ((if i <? 0 then s32 (i + a_len o) else i) = from_end (elts x) i) as ->.
  { unfold from_end. destruct (i <? 0) eqn:?; breflect; [rewrite s32_small; lia | reflexivity]. }
  now apply elt_ok.
Qed.

(** ** New arrays *)

(** A new array [r] with the elements [l]; every other array is kept. *)
Definition fresh_list (s : memory) (l : list VALUE) (t : bool) (r : positive) (s' : memory) : Prop :=
  r = next_ary s /\ becomes s r (mkList l false false t) s'.

Definition alloc_exn (s : memory) (e : rb_error) (s' : memory) : Prop := kept s s' /\ size_error e.

Definition tainted_by_level : bool := 3 <=? safe_level.

Lemma fresh_kept s l t r s' : wf s -> fresh_list s l t r s' -> kept s s'.
Proof.
  intros W [-> [W' H]]. split; [exact W'|]. injection H as -> _. apply insert_subseteq. now apply abs_fresh.
Qed.

(** A new array whose block has been filled. *)
Lemma fresh_owned s a s' o cs c l t :
  wf s -> a = next_ary s -> owned s a s' o cs c l -> to_list o l = mkList l false false t ->
  fresh_list s l t a s'.
Proof.
  intros W -> O Hf. split; [reflexivity|]. eapply owned_becomes; eauto.
Qed.

Lemma new2_exn s n e s' :
  kept s s' -> (n < 0 -> e = ArgumentError) -> (0 <= n -> e = NoMemoryError) -> alloc_exn s e s'.
Proof.
  intros K H1 H2. split; [exact K|]. unfold size_error. destruct (Z.lt_ge_cases n 0); auto.
Qed.

(** An empty array. *)
Lemma new2_empty s :
  wf s -> wp (rb_ary_new2 0) s (fun r s' => fresh_list s [] tainted_by_level r s') (alloc_exn s).
Proof.
  intros W. apply wp_new2; [exact W | lia | intros e s' K H1 H2; eapply new2_exn; eauto |].
  intros _ s1 d cs c F Hc Hld Hf Hcn Hcc Hm. eapply fresh_owned; [exact W | reflexivity | | exact Hf].
  constructor; [exact F | exact Hc | exact Hld | lia | exact Hm | reflexivity].
Qed.

(** [rb_ary_new4] *)
Lemma new4_ok s l :
  wf s -> Z.of_nat (length l) < 2 ^ 30 ->
  wp (rb_ary_new4 l) s (fun r s' => fresh_list s l tainted_by_level r s') (alloc_exn s).
Proof.
  intros W Hn. unfold rb_ary_new4. apply wp_bind.
  apply wp_new2; [exact W | lia | intros e s' K H1 H2; eapply new2_exn; eauto |].
  intros Hn2 s1 o cs c F Hc Hl Hf Hcn Hcc Hm. apply wp_bind. eapply focus_get; [exact F|]. cbv beta.
  assert (forall s2 cs2, focus s (next_ary s) s2 o cs2 -> length cs2 = length cs ->
    (exists rest, cs2 = (Some <$> l) ++ rest) ->
    wp (upd (next_ary s) (set_len (Z.of_nat (length l))) ;;; ret (next_ary s)) s2
      (fun r s' => fresh_list s l tainted_by_level r s') (alloc_exn s)) as Hend.
  { intros s2 cs2 F2 Hcl He. apply wp_bind. eapply focus_upd; [exact F2 | reflexivity|].
    intros s3 F3. apply wp_ret. eapply fresh_owned; [exact W | reflexivity | | ].
    - constructor; [exact F3 | exact Hc | reflexivity | simpl; lia | exact Hm | now apply elts_app].
    - apply (f_equal (fun y => mkList l (l_frozen y) (l_locked y) (l_tainted y))) in Hf. exact Hf. }
  apply wp_bind. wp_if.
  - rewrite <- (padd_0 (a_ptr o)).
    eapply focus_write; [exact F | lia | intros Hnil; destruct l; [simpl in E; lia | discriminate]
      | rewrite length_map; lia |].
    intros s2 F2. eapply Hend; [exact F2 | rewrite splice_cells_length; [reflexivity | rewrite length_map; simpl; lia] |].
    unfold splice_cells. simpl. eauto.
  - destruct l; [|simpl in E; lia]. apply wp_ret. eapply Hend; [exact F | reflexivity | eexists; reflexivity].
Qed.

(** [rb_ary_dup] *)
Lemma dup_ok s a x :
  wf s -> abs s !! a = Some x ->
  wp (rb_ary_dup a) s
    (fun r s' => fresh_list s (elts x) (l_tainted x || tainted_by_level) r s') (alloc_exn s).
Proof.
  intros W Hx. destruct (abs_get _ _ _ Hx) as (o & Ho & Hv & Heq). destruct (ary_len _ _ _ _ W Ho Hv) as [Hl Hlb].
  assert (a <> next_ary s) as Hne by (pose proof (ary_lt _ _ _ W Ho); lia).
  unfold rb_ary_dup. apply wp_bind. eapply wp_get; [exact Ho|]. cbv beta. apply wp_bind.
  apply wp_new2; [exact W | lia | intros e s' K H1 H2; eapply new2_exn; eauto |].
  intros Hn2 s1 d cs c F Hc Hld Hf Hcn Hcc Hm. apply wp_bind. eapply focus_upd; [exact F | reflexivity|].
  intros s2 F2. apply wp_bind. eapply focus_get; [exact F2|]. cbv beta. apply wp_bind.
  rewrite <- (padd_0 (a_ptr (set_tainted _ d))).
  eapply focus_memcpy_other; [exact F2 | exact Hne | exact Ho | exact Hv | lia | lia |].
  intros s3 F3. apply wp_bind. eapply focus_upd; [exact F3 | reflexivity|]. intros s4 F4. apply wp_ret.
  eapply fresh_owned; [exact W | reflexivity | |].
  - constructor; [exact F4 | exact Hc | exact Hl | | exact Hm |].
    + rewrite splice_cells_length; [simpl; lia | rewrite length_fmap; simpl; lia].
    + apply elts_app. unfold splice_cells. simpl. eauto.
  - rewrite Heq. apply (f_equal (fun y => mkList (elts x) (l_frozen y) (l_locked y) (tainted o || (3 <=? safe_level)))) in Hf.
    exact Hf.
Qed.

(** [rb_ary_plus] *)
Lemma plus_ok s a x b y :
  wf s -> abs s !! a = Some x -> abs s !! b = Some y ->
  wp (rb_ary_plus a (Ary b)) s
    (fun r s' => fresh_list s (elts x ++ elts y) tainted_by_level r s') (alloc_exn s).
Proof.
  intros W Hx Hy. destruct (abs_get _ _ _ Hx) as (o & Ho & Hv & Heq). destruct (ary_len _ _ _ _ W Ho Hv) as [Hl Hlb].
  destruct (abs_get _ _ _ Hy) as (p & Hp & Hvp & Heqp). destruct (ary_len _ _ _ _ W Hp Hvp) as [Hlp Hlbp].
  assert (a <> next_ary s /\ b <> next_ary s) as [Hna Hnb].
  { pose proof (ary_lt _ _ _ W Ho). pose proof (ary_lt _ _ _ W Hp). lia. }
  unfold rb_ary_plus. apply wp_bind. apply wp_ret. apply wp_bind. eapply wp_get; [exact Ho|]. apply wp_bind.
  eapply wp_get; [exact Hp|]. cbv beta zeta. rewrite s32_small by lia. apply wp_bind.
  apply wp_new2; [exact W | lia | intros e s' K H1 H2; eapply new2_exn; eauto |].
  intros Hn2 s1 d cs c F Hc Hld Hf Hcn Hcc Hm. apply wp_bind. eapply focus_get; [exact F|]. cbv beta.
  apply wp_bind. rewrite <- (padd_0 (a_ptr d)) at 1.
  eapply focus_memcpy_other; [exact F | exact Hna | exact Ho | exact Hv | lia | lia |].
  assert (length (splice_cells (Z.to_nat 0) (Some <$> elts x) cs) = length cs) as L2
    by (apply splice_cells_length; rewrite length_fmap; simpl; lia).
  intros s2 F2. apply wp_bind.
  eapply focus_memcpy_other; [exact F2 | exact Hnb | exact Hp | exact Hvp | lia | rewrite L2; lia |].
  intros s3 F3. apply wp_bind. eapply focus_upd; [exact F3 | reflexivity|]. intros s4 F4. apply wp_ret.
  eapply fresh_owned; [exact W | reflexivity | |].
  - constructor; [exact F4 | exact Hc | simpl; rewrite length_app; lia | | exact Hm |].
    + rewrite splice_cells_length; rewrite L2, ?length_fmap; simpl; lia.
    + apply elts_app. exists (drop (length (elts y)) (drop (length (elts x)) cs)).
      rewrite Hl, Nat2Z.id, fmap_app, <- app_assoc.
      assert (splice_cells (Z.to_nat 0) (Some <$> elts x) cs = (Some <$> elts x) ++ drop (length (elts x)) cs) as ->
        by (unfold splice_cells; simpl; now rewrite length_fmap).
      rewrite <- (length_fmap Some (elts x)) at 1. rewrite splice_cells_end.
      * now rewrite length_fmap.
      * rewrite length_fmap, length_drop. lia.
  - apply (f_equal (fun z => mkList (elts x ++ elts y) (l_frozen z) (l_locked z) (l_tainted z))) in Hf. exact Hf.
Qed.

(** [l * n] *)
Definition list_times (n : nat) (l : list VALUE) : list VALUE := concat (replicate n l).

Lemma list_times_length n l : length (list_times n l) = (n * length l)%nat.
Proof. unfold list_times. induction n; simpl; [reflexivity|]. rewrite length_app, IHn. lia. Qed.

Lemma list_times_S n l : list_times (S n) l = list_times n l ++ l.
Proof.
  unfold list_times. induction n; simpl; [now rewrite app_nil_r|]. rewrite <- app_assoc. f_equal. exact IHn.
Qed.

Lemma list_times_nil n : list_times n [] = [].
Proof. unfold list_times. induction n; auto. Qed.

Lemma times_loop_ok s0 z d a o l n : forall k s rest (Q : unit -> memory -> Prop) E,
  focus s0 z s d ((Some <$> list_times k l) ++ rest) ->
  a <> z -> arys s0 !! a = Some o -> view s0 o = Some l -> a_len o = Z.of_nat (length l) ->
  Z.of_nat ((k + n) * length l) < 2 ^ 30 -> (n * length l <= length rest)%nat ->
  (forall s' rest', focus s0 z s' d ((Some <$> list_times (k + n) l) ++ rest') ->
     (length rest = n * length l + length rest')%nat -> Q tt s') ->
  wp (times_loop n (a_ptr d) (a_ptr o) (a_len o) (Z.of_nat (k * length l)) (Z.of_nat ((k + n) * length l))) s Q E.
Proof.
  change (2 ^ 30) with 1073741824.
  induction n as [|n IH]; intros k s rest Q E F Hne Ho Hv Hl Hmax Hrest HQ; simpl; (wp_if; [|]).
  - apply wp_ret. rewrite Nat.add_0_r in HQ. eapply HQ; [exact F | reflexivity].
  - lia.
  - assert (l = []) as -> by (destruct l; [reflexivity | simpl in E0; lia]).
    apply wp_ret. eapply HQ; [|simpl; rewrite Nat.mul_0_r; reflexivity].
    rewrite !list_times_nil in *. exact F.
  - apply wp_bind. eapply focus_memcpy_other; [exact F | exact Hne | exact Ho | exact Hv | lia | |].
    { rewrite length_app, length_fmap, list_times_length. lia. }
    intros s1 F1. rewrite Nat2Z.id, <- (list_times_length k l), <- (length_fmap Some (list_times k l)) in F1.
    rewrite splice_cells_end in F1 by (rewrite length_fmap; lia). rewrite length_fmap in F1.
    rewrite Hl, s32_small by lia.
    replace (Z.of_nat (k * length l) + Z.of_nat (length l)) with (Z.of_nat (S k * length l)) by lia.
    replace (k + S n)%nat with (S k + n)%nat in * by lia. rewrite <- Hl.
    eapply (IH (S k) s1 (drop (length l) rest)); auto.
    + rewrite list_times_S, fmap_app, <- app_assoc. exact F1.
    + rewrite length_drop. lia.
    + intros s' rest' F' Hlen. eapply HQ; [exact F'|]. rewrite length_drop in Hlen. lia.
Qed.

(** [rb_ary_times] with an integer. *)
Lemma times_ok s a x n :
  wf s -> abs s !! a = Some x -> LONG_MIN <= n <= LONG_MAX ->
  n * Z.of_nat (length (elts x)) < 2 ^ 30 ->
  wp (rb_ary_times a (Num n)) s
    (fun r s' => 0 <= n /\
       fresh_list s (list_times (Z.to_nat n) (elts x)) 
         (tainted_by_level || (negb (n =? 0) && l_tainted x)) r s')
    (alloc_exn s).
Proof.
  intros W Hx Hn Hmax. change (2 ^ 30) with 1073741824 in Hmax.
  destruct (abs_get _ _ _ Hx) as (o & Ho & Hv & Heq). destruct (ary_len _ _ _ _ W Ho Hv) as [Hl Hlb].
  assert (a <> next_ary s) as Hne by (pose proof (ary_lt _ _ _ W Ho); lia).
  unfold rb_ary_times. apply wp_bind. unfold NUM2LONG.
  change LONG_MIN with (-2147483648) in *. change LONG_MAX with 2147483647 in *.
  wp_if; [|destruct E; breflect; lia]. apply wp_ret.
  wp_if.
  { subst n. eapply wp_mono; [apply new2_empty; exact W | |].
    - intros r s' Hf. split; [lia|]. change (negb (0 =? 0)) with false. rewrite orb_false_r. exact Hf.
    - auto. }
  wp_if; [apply wp_raise; split; [now apply kept_refl | right; reflexivity]|].
  apply wp_bind. eapply wp_get; [exact Ho|]. cbv beta zeta.
  assert (0 <= n * a_len o) as Hpos by nia.
  wp_if.
  { exfalso. unfold cdiv in *. rewrite Z.quot_div_nonneg in * by lia.
    pose proof (Z.div_le_lower_bound 2147483647 n (a_len o)). lia. }
  rewrite s32_small by lia. apply wp_bind.
  apply wp_new2; [exact W | lia | |].
  { intros e s' K HA HM. split; [exact K | left; apply HM; lia]. }
  intros Hn2 s1 d cs c F Hc Hld Hf Hcn Hcc Hm. apply wp_bind. eapply focus_upd; [exact F | reflexivity|].
  intros s2 F2. apply wp_bind. eapply focus_get; [exact F2|]. cbv beta. apply wp_bind.
  change (a_ptr (set_len (n * a_len o) d)) with (a_ptr (set_len (n * a_len o) d)).
  replace (n * a_len o) with (Z.of_nat ((0 + Z.to_nat n) * length (elts x))) in * by (rewrite Hl; lia).
  eapply (times_loop_ok s (next_ary s) _ a o (elts x) (Z.to_nat n) 0%nat s2 cs);
    [exact F2 | exact Hne | exact Ho | exact Hv | exact Hl | lia | lia |].
  intros s3 rest F3 Hrest. apply wp_bind. eapply focus_upd; [exact F3 | reflexivity|]. intros s4 F4. apply wp_ret.
  split; [lia|]. eapply fresh_owned; [exact W | reflexivity | |].
  - constructor; [exact F4 | exact Hc | | | exact Hm | apply elts_app; eauto].
    + simpl. now rewrite list_times_length.
    + simpl. rewrite length_app, length_fmap, list_times_length. simpl in *. lia.
  - assert (l_tainted x = tainted o) as -> by (rewrite Heq; reflexivity).
    injection Hf as Hf1 Hf2 Hf3. unfold to_list. simpl. rewrite Hf1, Hf2, Hf3.
    destruct (n =? 0) eqn:?; breflect; [lia | reflexivity].
Qed.

(** ** Parts *)

(** [a[beg, len]], or [nil]. *)
Definition list_subseq (l : list VALUE) (beg len : Z) : option (list VALUE) :=
  if (Z.of_nat (length l) <? beg) || (beg <? 0) || (len <? 0) then None
  else Some (take (Z.to_nat len) (drop (Z.to_nat beg) l)).

(** The new array that points into the block of [r]. *)
Lemma share_new_ok s r o l p n (E : rb_error -> memory -> Prop) (Q : VALUE -> memory -> Prop) :
  wf s -> points_into s r o -> block_of (mkArray n p (Shared r) false false tainted_by_level) = block_of o ->
  view s (mkArray n p (Shared r) false false tainted_by_level) = Some l -> 0 <= n < ARY_MAX ->
  (forall a s', fresh_list s l tainted_by_level a s' -> Q (Ary a) s') ->
  wp (ary2 <- ary_alloc ;;
      upd ary2 (set_ptr p) ;;;
      upd ary2 (set_len n) ;;;
      upd ary2 (set_aux (Shared r)) ;;;
      ret (Ary ary2)) s Q E.
Proof.
  intros W Hpi Hb Hv Hn HQ. set (o' := mkArray n p (Shared r) false false tainted_by_level) in *.
  unfold wp, bindM, ary_alloc, new_ary, upd, ret. simpl.
  repeat (rewrite lookup_insert_eq; simpl). apply HQ.
  assert (points_into s r o') as Hpi'.
  { destruct Hpi as (ro & Hr & Hp). exists ro. split; [exact Hr|]. unfold block_of in Hb.
    destruct (a_ptr o') as [[b' off']|]; [|done]. destruct (a_ptr o) as [[b off]|]; [|discriminate].
    simpl in Hb. injection Hb as ->. exact Hp. }
  match goal with |- fresh_list _ _ _ _ ?s' =>
    assert (shares s (next_ary s) s' o' r) as Hs end.
  { constructor; simpl; auto; [|now rewrite others_new by (now apply fresh_ary) | lia].
    unfold with_arys; simpl. now rewrite !insert_insert_eq. }
  destruct (shares_done _ _ _ _ _ l W Hs Hpi' Hv Hn) as [W' Ha].
  split; [reflexivity | split; [exact W' |]].
  unfold state, put_list. rewrite Ha. simpl. f_equal. lia.
Qed.

Lemma subseq_ok s a x beg len :
  wf s -> abs s !! a = Some x -> LONG_MIN <= len -> beg + len <= LONG_MAX ->
  wp (rb_ary_subseq a beg len) s
    (fun v s' =>
       match list_subseq (elts x) beg len with
       | None => v = Qnil /\ s' = s
       | Some l => exists r, v = Ary r /\ fresh_list s l tainted_by_level r s'
       end)
    (alloc_exn s).
Proof.
  intros W Hx Hlen Hsum. change LONG_MIN with (-2147483648) in Hlen. change LONG_MAX with 2147483647 in Hsum.
  destruct (abs_get _ _ _ Hx) as (o & Ho & Hv & Heq). destruct (ary_len _ _ _ _ W Ho Hv) as [Hl Hlb].
  unfold rb_ary_subseq. apply wp_bind. eapply wp_get; [exact Ho|]. unfold list_subseq. rewrite Hl.
  destruct (Z.of_nat (length (elts x)) <? beg) eqn:E1; [now apply wp_ret|].
  destruct (beg <? 0) eqn:E2; [now apply wp_ret|].
  destruct (len <? 0) eqn:E3; [now apply wp_ret|]. breflect. simpl.
  set (n := if _ <? s32 (beg + len) then _ else _).
  set (l := take _ _).
  assert (Z.of_nat (length l) = n /\ l = take (Z.to_nat n) (drop (Z.to_nat beg) (elts x))) as [Hn Hl2].
  { subst l n. rewrite !s32_small by lia. rewrite length_take, length_drop.
    destruct (_ <? beg + len) eqn:E4; breflect.
    - destruct (_ - beg <? 0) eqn:E5; breflect; [lia|]. split; [lia|].
      rewrite !take_ge by (rewrite length_drop; lia). reflexivity.
    - split; [lia | reflexivity]. }
  clearbody n l. wp_if.
  - apply wp_bind. assert (l = []) as -> by (destruct l; [reflexivity | simpl in Hn; lia]).
    eapply wp_mono; [apply new2_empty; exact W | | auto].
    intros r s' Hf. apply wp_ret. eauto.
  - apply wp_bind. eapply wp_make_shared; [exact W | exact Ho | exact Hv |].
    intros r s1 W1 Ha1 Harys1 Hpi Hb1 Hn1. apply wp_bind.
    eapply wp_get; [rewrite Harys1; apply lookup_insert_eq|]. simpl.
    assert (view s1 (mkArray n (padd (a_ptr o) beg) (Shared r) false false tainted_by_level) = Some l) as Hv1.
    { pose proof (view_sub s o (elts x) beg n (proj1 Hlb) Hv ltac:(lia) ltac:(lia)) as Hsub.
      rewrite <- Hl2 in Hsub. rewrite <- Hsub.
      - apply (view_ext s s1 (mkArray n (padd (a_ptr o) beg) (Shared r) false false tainted_by_level)).
        intros b _. now rewrite Hb1.
      - rewrite Hl2, length_take, length_drop in Hn. lia. }
    eapply share_new_ok; [exact W1 | exact Hpi | unfold block_of; simpl; apply fst_padd | exact Hv1 | |].
    + rewrite Hl2, length_take, length_drop in Hn. change ARY_MAX with 536870912. lia.
    + intros r' s' [Hf1 [W' Hf2]]. exists r'. split; [reflexivity|]. rewrite Hn1 in Hf1.
      split; [exact Hf1 | split; [exact W'|]]. rewrite Hf2. unfold state. now rewrite Ha1, Hn1.
Qed.

(** ** Replacing all elements *)

(** The last part of [rb_ary_replace]: the copy's own block is freed. *)
Lemma replace_tail_ok s a b o p c r l (Q : positive -> memory -> Prop) E :
  wf s -> a <> b -> arys s !! a = Some o -> a_aux o = Capa c -> arys s !! b = Some p ->
  points_into s r p -> view s p = Some l -> 0 <= a_len p < ARY_MAX ->
  (forall s', becomes s a (to_list o l) s' -> Q a s') ->
  wp (c <- get a ;;
      match a_ptr c, a_aux c with
      | Some _, Capa _ => xfree (a_ptr c)
      | _, _ => ret tt
      end ;;;
      o <- get b ;;
      upd a (set_ptr (a_ptr o)) ;;;
      upd a (set_len (a_len o)) ;;;
      upd a (set_aux (Shared r)) ;;;
      ret a) s Q E.
Proof.
  intros W Hne Ho Hc Hp Hpi Hv Hl HQ. apply wp_bind. eapply wp_get; [exact Ho|]. cbv beta. rewrite Hc.
  set (o' := mkArray (a_len p) (a_ptr p) (Shared r) (frozen o) (tmplock o) (tainted o)).
  assert (forall s1, s1 = with_blocks (fun _ => others s a) s ->
    wp (o <- get b ;;
        upd a (set_ptr (a_ptr o)) ;;; upd a (set_len (a_len o)) ;;; upd a (set_aux (Shared r)) ;;; ret a) s1 Q E)
    as Hend.
  { intros s1 ->. apply wp_bind. eapply wp_get; [exact Hp|]. unfold wp, bindM, upd, ret. simpl. rewrite Ho. simpl.
    repeat (rewrite lookup_insert_eq; simpl).
    match goal with |- Q a ?s' => assert (shares s a s' o' r) as Hs end.
    { constructor; simpl; auto; [|pose proof (ary_lt _ _ _ W Ho); lia].
      unfold with_arys; simpl. now rewrite !insert_insert_eq. }
    destruct (shares_done _ _ _ _ _ l W Hs) as [W' Ha']; [exact Hpi | exact Hv | exact Hl |].
    apply HQ. now apply (becomes_intro s _ a o). }
  apply wp_bind. pose proof (owns_ary _ _ _ Ho) as Hown. unfold owned_block in Hown. rewrite Hc in Hown.
  destruct (w_arys s W a o Ho) as (_ & _ & Hok). rewrite Hc in Hok. unfold block_of in Hown.
  unfold others in Hend. rewrite Hown in Hend.
  destruct (a_ptr o) as [[b' off]|]; simpl in Hend.
  - destruct Hok as (_ & -> & cs & Hcs & _). unfold xfree. simpl. apply wp_bind.
    unfold wp at 1, get_block. rewrite Hcs. unfold wp at 1. apply Hend. reflexivity.
  - apply wp_ret. apply Hend. now destruct s.
Qed.

(** [rb_ary_replace] *)
Lemma replace_ok s a x b y :
  wf s -> abs s !! a = Some x -> abs s !! b = Some y ->
  wp (rb_ary_replace a (Ary b)) s
    (fun r s' => r = a /\ modify_error x = None /\ becomes s a (with_elts x (elts y)) s')
    (modify_exn s x).
Proof.
  intros W Hx Hy. unfold rb_ary_replace. apply wp_bind. eapply modify_ok; [exact W | exact Hx | |].
  { intros e He. now apply modify_exn_start. }
  intros Hok s1 o1 cs1 c1 O1 Hf1. destruct (owned_done _ _ _ _ _ _ _ O1) as [W1 Ha1].
  rewrite (to_list_flags _ x _ Hf1), with_elts_id, insert_id in Ha1 by exact Hx.
  assert (next_ary s1 = next_ary s) as Hn1.
  { destruct (owned_becomes _ _ _ _ _ _ _ _ O1 (to_list_flags _ x _ Hf1)) as [_ Hb].
    rewrite with_elts_id in Hb. destruct (becomes_self s s a x W W Hx eq_refl eq_refl) as [_ Hs].
    rewrite <- Hs in Hb. now injection Hb. }
  apply wp_bind. apply wp_ret. destruct (a =? b)%positive eqn:E.
  - apply Pos.eqb_eq in E. subst b. rewrite Hx in Hy. injection Hy as <-. apply wp_ret.
    splits; auto. rewrite with_elts_id. now apply becomes_self.
  - apply Pos.eqb_neq in E. rewrite <- Ha1 in Hy. destruct (abs_get _ _ _ Hy) as (p & Hp & Hv & Heq).
    destruct (w_arys s1 W1 b p Hp) as (Hl & _ & _).
    apply wp_bind. eapply wp_make_shared; [exact W1 | exact Hp | exact Hv|].
    intros r s2 W2 Ha2 Harys2 Hpi Hb2 Hn2.
    eapply (replace_tail_ok s2 a b o1 (set_aux (Shared r) p) c1 r (elts y));
      [exact W2 | exact E | | apply (o_capa _ _ _ _ _ _ _ O1) | | exact Hpi | | exact Hl |].
    + rewrite Harys2, lookup_insert_ne by congruence. eapply owned_lookup, O1.
    + rewrite Harys2. apply lookup_insert_eq.
    + change (view s2 p = Some (elts y)). rewrite <- Hv. apply view_ext. intros b' _. now rewrite Hb2.
    + intros s3 [W3 Ha3]. splits; auto. split; [exact W3|]. rewrite Ha3, (to_list_flags _ x _ Hf1).
      unfold state. now rewrite Ha2, Ha1, Hn2, Hn1.
Qed.

(** [rb_ary_clear] *)
Lemma clear_ok s a x :
  wf s -> abs s !! a = Some x ->
  wp (rb_ary_clear a) s
    (fun r s' => r = a /\ modify_error x = None /\ becomes s a (with_elts x []) s')
    (fun e s' => modify_exn s x e s' \/
       e = NoMemoryError /\ modify_error x = None /\ becomes s a (with_elts x []) s').
Proof.
  intros W Hx. unfold rb_ary_clear. apply wp_bind. eapply modify_ok; [exact W | exact Hx | |].
  { intros e He. left. now apply modify_exn_start. }
  intros Hok s1 o1 cs1 c1 O1 Hf1. pose proof (o_room _ _ _ _ _ _ _ O1) as Hr.
  pose proof (o_len _ _ _ _ _ _ _ O1) as Hl.
  apply wp_bind. eapply owned_truncate; [exact O1 | lia |]. simpl take. intros s2 O2.
  apply wp_bind. eapply get_capa_ok; [exact O2|]. apply wp_bind. wp_if.
  - unfold ARY_DEFAULT_SIZE in *. eapply grow_ok; [exact O2 | simpl; change ARY_MAX with 536870912; lia | |].
    + right. splits; auto. eapply owned_becomes; [exact O2|].
      change (to_list (set_len 0 o1)) with (to_list o1). now apply to_list_flags.
    + intros s3 o3 cs3 O3 Hf3. apply wp_ret. splits; auto. eapply owned_becomes; [exact O3|].
      rewrite Hf3. change (to_list (set_len 0 o1)) with (to_list o1). now apply to_list_flags.
  - apply wp_ret. apply wp_ret. splits; auto. eapply owned_becomes; [exact O2|].
    change (to_list (set_len 0 o1)) with (to_list o1). now apply to_list_flags.
Qed.

(** ** Loops within a block *)

Lemma lookup_mid (P S : list VALUE) v rest :
  ((Some <$> (P ++ v :: S)) ++ rest) !! length P = Some (Some v).
Proof.
  rewrite fmap_app, <- app_assoc, lookup_app_r by (rewrite length_fmap; lia).
  now rewrite length_fmap, Nat.sub_diag.
Qed.

Lemma load_mid s0 a s o i P v S rest Q E :
  focus s0 a s o ((Some <$> (P ++ v :: S)) ++ rest) -> i = Z.of_nat (length P) ->
  Q v s -> wp (load (a_ptr o) i) s Q E.
Proof.
  intros F -> HQ. eapply focus_load; [exact F | lia | rewrite Nat2Z.id; apply lookup_mid | exact HQ].
Qed.

Lemma store_mid s0 a s o i P u S rest v (Q : unit -> memory -> Prop) E :
  focus s0 a s o ((Some <$> (P ++ u :: S)) ++ rest) -> i = Z.of_nat (length P) ->
  (forall s', focus s0 a s' o ((Some <$> (P ++ v :: S)) ++ rest) -> Q tt s') ->
  wp (store (a_ptr o) i v) s Q E.
Proof.
  intros F -> HQ. eapply focus_store; [exact F | rewrite length_app, length_fmap, length_app; simpl; lia |].
  intros s' F'. apply HQ. rewrite Nat2Z.id, insert_app_l in F' by (rewrite length_fmap, length_app; simpl; lia).
  rewrite <- list_fmap_insert, insert_app_r_alt, Nat.sub_diag in F' by lia. exact F'.
Qed.

(** The ends already exchanged are [A] and [B]. *)
Lemma reverse_loop_ok s0 a o rest fuel : forall A M B s (Q : unit -> memory -> Prop) E,
  focus s0 a s o ((Some <$> (rev B ++ M ++ rev A)) ++ rest) ->
  length A = length B -> (length M <= fuel)%nat ->
  (forall s', focus s0 a s' o ((Some <$> rev (A ++ M ++ B)) ++ rest) -> Q tt s') ->
  wp (reverse_loop fuel (a_ptr o) (Z.of_nat (length A)) (Z.of_nat (length A + length M) - 1)) s Q E.
Proof.
  induction fuel as [|fuel IH]; intros A M B s Q E F HAB Hfuel HQ; simpl; (wp_if; [|]).
  1: lia.
  1, 3: apply wp_ret; apply HQ; rewrite !rev_app_distr, <- app_assoc;
    (destruct M as [|m [|m' M]]; [exact F | exact F | simpl in *; lia]).
  destruct M as [|m M]; [simpl in *; lia|]. destruct (last_split M) as (M' & m' & -> & HM).
  { intros ->. simpl in *. lia. }
  simpl length in *. rewrite length_app in *. simpl length in *.
  apply wp_bind. eapply (load_mid _ _ _ _ _ (rev B) m ((M' ++ [m']) ++ rev A));
    [exact F | rewrite length_rev; lia |].
  assert (forall u v, rev B ++ (u :: M' ++ [v]) ++ rev A = (rev B ++ u :: M') ++ v :: rev A) as Hsplit.
  { intros u v. rewrite <- !app_assoc. simpl. do 2 f_equal. now rewrite <- app_assoc. }
  apply wp_bind. rewrite Hsplit in F.
  eapply (load_mid _ _ _ _ _ _ m'); [exact F | rewrite length_app, length_rev; simpl; lia |].
  rewrite <- Hsplit in F.
  apply wp_bind. eapply (store_mid _ _ _ _ _ (rev B) m ((M' ++ [m']) ++ rev A));
    [exact F | rewrite length_rev; lia |]. intros s1 F1.
  change (rev B ++ m' :: (M' ++ [m']) ++ rev A) with (rev B ++ (m' :: M' ++ [m']) ++ rev A) in F1.
  rewrite Hsplit in F1.
  apply wp_bind. eapply (store_mid _ _ _ _ _ _ m'); [exact F1 | rewrite length_app, length_rev; simpl; lia |].
  intros s2 F2. rewrite <- Hsplit in F2.
  replace (Z.of_nat (length A) + 1) with (Z.of_nat (length (A ++ [m]))) by (rewrite length_app; simpl; lia).
  replace (Z.of_nat (length A + S (length M' + 1)) - 1 - 1)
    with (Z.of_nat (length (A ++ [m]) + length M') - 1) by (rewrite length_app; simpl; lia).
  eapply (IH (A ++ [m]) M' (m' :: B)).
  - simpl. rewrite rev_app_distr, <- app_assoc. simpl in *. rewrite <- app_assoc in F2. exact F2.
  - rewrite length_app. simpl. lia.
  - lia.
  - intros s' F'. apply HQ. rewrite <- app_assoc in F'. simpl in *. rewrite <- app_assoc. exact F'.
Qed.

(** A focus whose first words are the elements is an owned array. *)
Lemma owned_after s0 a s o c l l' rest rest' :
  owned s0 a s o ((Some <$> l) ++ rest) c l -> length l' = length l -> length rest' = length rest ->
  forall s', focus s0 a s' o ((Some <$> l') ++ rest') -> owned s0 a s' o ((Some <$> l') ++ rest') c l'.
Proof.
  intros [F Hc Hl Hr Hm He] H1 H2 s' F'. constructor; auto; [lia| | apply elts_app; eauto].
  rewrite length_app, length_fmap in *. lia.
Qed.

(** [rb_ary_reverse] *)
Lemma list_reverse_ok s a x :
  wf s -> abs s !! a = Some x ->
  wp (rb_ary_reverse a) s
    (fun r s' => r = a /\ modify_error x = None /\ becomes s a (with_elts x (rev (elts x))) s')
    (modify_exn s x).
Proof.
  intros W Hx. unfold rb_ary_reverse. apply wp_bind. eapply modify_ok; [exact W | exact Hx | |].
  { intros e He. now apply modify_exn_start. }
  intros Hok s1 o1 cs1 c1 O1 Hf1. pose proof (o_len _ _ _ _ _ _ _ O1) as Hl.
  pose proof (o_elts _ _ _ _ _ _ _ O1) as He. apply elts_app in He as [rest ->].
  apply wp_bind. eapply focus_get; [apply O1|]. cbv beta. apply wp_bind. rewrite Hl. wp_if.
  - rewrite Nat2Z.id. eapply (reverse_loop_ok s a o1 rest (length (elts x)) [] (elts x) []);
      [simpl; rewrite app_nil_r; apply O1 | reflexivity | lia |].
    simpl. rewrite app_nil_r. intros s2 F2. apply wp_ret. splits; auto.
    eapply owned_becomes; [eapply owned_after; [exact O1 | apply length_rev | reflexivity | exact F2]|].
    now apply to_list_flags.
  - apply wp_ret. apply wp_ret. splits; auto. eapply owned_becomes; [exact O1|].
    rewrite (to_list_flags _ x _ Hf1). f_equal. destruct (elts x) as [|v [|]]; [reflexivity | reflexivity | simpl in *; lia].
Qed.

(** The words after [P] and the one to be overwritten move down. *)
Lemma delete_loop_ok s0 a o rest fuel : forall P u S s n (Q : Z -> memory -> Prop) E,
  focus s0 a s o ((Some <$> (P ++ u :: S)) ++ rest) ->
  n = Z.of_nat (length P + 1 + length S) -> (length S <= fuel)%nat ->
  (forall s' v, focus s0 a s' o ((Some <$> (P ++ S)) ++ Some v :: rest) -> Q (Z.of_nat (length P + length S)) s') ->
  wp (delete_loop fuel (a_ptr o) (Z.of_nat (length P) + 1) (Z.of_nat (length P)) n) s Q E.
Proof.
  induction fuel as [|fuel IH]; intros P u S s n Q E F -> Hfuel HQ; simpl; (wp_if; [|]).
  1: lia.
  1, 3: (destruct S as [|v S]; [|simpl in *; lia]); apply wp_ret;
    (replace (Z.of_nat (length P)) with (Z.of_nat (length P + length (@nil VALUE))) by (simpl; lia));
    apply (HQ s u); rewrite app_nil_r; rewrite fmap_app, <- app_assoc in F; exact F.
  destruct S as [|v S]; [simpl in *; lia|].
  apply wp_bind. assert (P ++ u :: v :: S = (P ++ [u]) ++ v :: S) as Hsplit by (now rewrite <- app_assoc).
  rewrite Hsplit in F. eapply (load_mid _ _ _ _ _ _ v); [exact F | rewrite length_app; simpl; lia |].
  rewrite <- Hsplit in F.
  apply wp_bind. eapply (store_mid _ _ _ _ _ P u (v :: S)); [exact F | reflexivity |].
  intros s1 F1. replace (Z.of_nat (length P) + 1) with (Z.of_nat (length (P ++ [v]))) by (rewrite length_app; simpl; lia).
  eapply (IH (P ++ [v]) v S).
  - rewrite <- app_assoc. exact F1.
  - rewrite length_app. simpl. lia.
  - simpl in Hfuel. lia.
  - intros s2 w F2. rewrite <- app_assoc in F2. simpl in F2.
    replace (Z.of_nat (length (P ++ [v]) + length S)) with (Z.of_nat (length P + length (v :: S)))
      by (rewrite length_app; simpl; lia).
    apply (HQ s2 w). exact F2.
Qed.

Definition list_delete_at (l : list VALUE) (i : nat) : list VALUE := take i l ++ drop (S i) l.

(** [rb_ary_delete_at] *)
Lemma delete_at_ok s a x pos :
  wf s -> abs s !! a = Some x -> LONG_MIN <= pos <= LONG_MAX ->
  wp (rb_ary_delete_at a pos) s
    (fun r s' =>
       let i := from_end (elts x) pos in
       match (if i <? 0 then None else elts x !! Z.to_nat i) with
       | None => r = Qnil /\ s' = s
       | Some v => r = v /\ modify_error x = None /\
           becomes s a (with_elts x (list_delete_at (elts x) (Z.to_nat i))) s'
       end)
    (fun e s' =>
       let i := from_end (elts x) pos in
       is_Some (if i <? 0 then None else elts x !! Z.to_nat i) /\ modify_exn s x e s').
Proof.
  intros W Hx Hpos. change LONG_MIN with (-2147483648) in Hpos. change LONG_MAX with 2147483647 in Hpos.
  destruct (abs_get _ _ _ Hx) as (o & Ho & Hv & _). destruct (ary_len _ _ _ _ W Ho Hv) as [Hl Hlb].
  unfold rb_ary_delete_at. apply wp_bind. eapply wp_get; [exact Ho|]. cbv beta zeta.
  assert ((if pos <? 0 then s32 (pos + a_len o) else pos) = from_end (elts x) pos) as ->.
  { unfold from_end. destruct (pos <? 0) eqn:?; breflect; [rewrite s32_small; lia | reflexivity]. }
  assert (pos < 0 \/ from_end (elts x) pos = pos) as Hfe.
  { unfold from_end. destruct (pos <? 0) eqn:?; breflect; auto. }
  set (i := from_end (elts x) pos) in *.
  assert (i < a_len o \/ a_len o <= pos) as Hi.
  { subst i. unfold from_end in *. destruct (pos <? 0) eqn:?; breflect; lia. }
  clearbody i. wp_if.
  { apply wp_ret. destruct (i <? 0) eqn:?; breflect; [lia|]. rewrite lookup_ge_None_2 by lia. auto. }
  wp_if; [now apply wp_ret|].
  destruct (lookup_lt_is_Some_2 (elts x) (Z.to_nat i)) as [v Hget]; [lia|]. rewrite Hget.
  pose proof (take_drop_middle _ _ _ Hget) as Hmid.
  apply wp_bind. eapply modify_ok; [exact W | exact Hx | |].
  { intros e He. split; [|now apply modify_exn_start]. destruct (i <? 0) eqn:?; breflect; [lia | eauto]. }
  intros Hok s1 o1 cs1 c1 O1 Hf1. pose proof (o_len _ _ _ _ _ _ _ O1) as Hl1.
  pose proof (o_elts _ _ _ _ _ _ _ O1) as He. apply elts_app in He as [rest ->].
  pose proof (o_focus _ _ _ _ _ _ _ O1) as F1. rewrite <- Hmid in F1.
  set (P := take (Z.to_nat i) (elts x)) in *. set (S := drop _ (elts x)) in *.
  assert (length P = Z.to_nat i) as HP by (subst P; rewrite length_take; lia).
  assert (length S = length (elts x) - Datatypes.S (Z.to_nat i))%nat as HS by (subst S; now rewrite length_drop).
  apply wp_bind. eapply focus_get; [exact F1|]. cbv beta. apply wp_bind.
  eapply (load_mid _ _ _ _ _ P v S); [exact F1 | lia |]. apply wp_bind.
  replace i with (Z.of_nat (length P)) by lia.
  eapply (delete_loop_ok s a o1 rest (Z.to_nat (a_len o)) P v S); [exact F1 | lia | lia |].
  intros s2 w F2. apply wp_bind. eapply focus_upd; [exact F2 | reflexivity |]. intros s3 F3. apply wp_ret.
  splits; auto. eapply (owned_becomes _ _ _ _ _ c1 (P ++ S)).
  - destruct O1 as [_ Hc _ Hr Hm _]. rewrite length_app, length_fmap in Hr.
    constructor; [exact F3 | exact Hc | simpl; rewrite length_app; lia | | exact Hm | apply elts_app; eauto].
    simpl. rewrite length_app, length_fmap, length_app. simpl. lia.
  - change (to_list (set_len _ o1)) with (to_list o1). rewrite (to_list_flags _ x _ Hf1).
    unfold list_delete_at. rewrite Nat2Z.id, HP. reflexivity.
Qed.

Definition list_compact (l : list VALUE) : list VALUE := List.filter (fun v => negb (NIL_P v)) l.

Lemma compact_loop_ok s0 a o rest fuel : forall P J S s n (Q : Z -> memory -> Prop) E,
  focus s0 a s o ((Some <$> (P ++ J ++ S)) ++ rest) ->
  n = Z.of_nat (length P + length J + length S) -> (length S <= fuel)%nat ->
  (forall s' J', focus s0 a s' o ((Some <$> ((P ++ list_compact S) ++ J')) ++ rest) ->
     (length J' = length J + (length S - length (list_compact S)))%nat ->
     Q (Z.of_nat (length P + length (list_compact S))) s') ->
  wp (compact_loop fuel (a_ptr o) (Z.of_nat (length P)) (Z.of_nat (length P + length J)) n) s Q E.
Proof.
  induction fuel as [|fuel IH]; intros P J S s n Q E F -> Hfuel HQ; simpl; (wp_if; [|]).
  1: lia.
  1, 3: (destruct S as [|v S]; [|simpl in *; lia]); apply wp_ret; simpl in HQ;
    (replace (Z.of_nat (length P)) with (Z.of_nat (length P + 0)) by lia); apply (HQ s J); [rewrite !app_nil_r in *; exact F | lia].
  destruct S as [|v S]; [simpl in *; lia|].
  apply wp_bind. rewrite app_assoc in F.
  eapply (load_mid _ _ _ _ _ (P ++ J) v S); [exact F | rewrite length_app; lia |].
  replace (Z.of_nat (length P + length J) + 1) with (Z.of_nat (length P + length (J ++ [v])))
    by (rewrite length_app; simpl; lia).
  destruct (NIL_P v) eqn:Ev.
  - eapply (IH P (J ++ [v]) S); [rewrite <- !app_assoc in *; exact F | rewrite length_app; simpl; lia | simpl in *; lia |].
    intros s' J' F' HJ. unfold list_compact in HQ. simpl in HQ. rewrite Ev in HQ. simpl in HQ.
    eapply HQ; [exact F'|]. rewrite length_app in HJ. simpl in HJ.
    pose proof (List.filter_length_le (fun v => negb (NIL_P v)) S). unfold list_compact in *. lia.
  - apply wp_bind.
    assert (exists u R, P ++ J ++ v :: S = P ++ u :: R /\
      P ++ v :: R = (P ++ [v]) ++ (tail (J ++ [v])) ++ S) as (u & R & HR1 & HR2).
    { destruct J as [|j J]; simpl.
      - exists v, S. split; [reflexivity|]. now rewrite <- app_assoc.
      - exists j, (J ++ v :: S). split; [reflexivity|]. rewrite <- !app_assoc. reflexivity. }
    rewrite <- app_assoc, HR1 in F. eapply (store_mid _ _ _ _ _ P u R); [exact F | reflexivity |].
    intros s1 F1. rewrite HR2 in F1.
    assert (length (tail (J ++ [v])) = length J) as Htl by (destruct J; simpl; rewrite ?length_app; simpl; lia).
    replace (Z.of_nat (length P) + 1) with (Z.of_nat (length (P ++ [v]))) by (rewrite length_app; simpl; lia).
    replace (Z.of_nat (length P + length (J ++ [v]))) with (Z.of_nat (length (P ++ [v]) + length (tail (J ++ [v]))))
      by (rewrite Htl, !length_app; simpl; lia).
    eapply (IH (P ++ [v]) (tail (J ++ [v])) S); [exact F1 | rewrite Htl, length_app; simpl; lia | simpl in *; lia |].
    intros s' J' F' HJ. rewrite Htl in HJ. unfold list_compact in HQ |- *. simpl in HQ. rewrite Ev in HQ. simpl in HQ.
    fold (list_compact S) in *. rewrite <- (app_assoc P [v] (list_compact S)) in F'. simpl in F'.
    replace (Z.of_nat (length (P ++ [v]) + length (list_compact S)))
      with (Z.of_nat (length P + Datatypes.S (length (list_compact S)))) by (rewrite length_app; simpl; lia).
    eapply HQ; [exact F' | lia].
Qed.

(** [rb_ary_compact_bang]; when the smaller block cannot be had, the array is
    compacted all the same. *)
Lemma compact_bang_ok s a x :
  wf s -> abs s !! a = Some x ->
  wp (rb_ary_compact_bang a) s
    (fun r s' => modify_error x = None /\
       r = (if decide (list_compact (elts x) = elts x) then None else Some a) /\
       becomes s a (with_elts x (list_compact (elts x))) s')
    (fun e s' => modify_exn s x e s' \/
       e = NoMemoryError /\ modify_error x = None /\ becomes s a (with_elts x (list_compact (elts x))) s').
Proof.
  intros W Hx. unfold rb_ary_compact_bang. apply wp_bind. eapply modify_ok; [exact W | exact Hx | |].
  { intros e He. left. now apply modify_exn_start. }
  intros Hok s1 o1 cs1 c1 O1 Hf1. pose proof (o_len _ _ _ _ _ _ _ O1) as Hl.
  pose proof (o_elts _ _ _ _ _ _ _ O1) as He. apply elts_app in He as [rest ->].
  apply wp_bind. eapply focus_get; [apply O1|]. cbv beta. apply wp_bind. rewrite Hl, Nat2Z.id.
  eapply (compact_loop_ok s a o1 rest (length (elts x)) [] [] (elts x)); [apply O1 | reflexivity | lia |].
  intros s2 J F2 HJ. simpl in F2, HJ. simpl length.
  set (l := list_compact (elts x)) in *.
  assert (length l <= length (elts x))%nat as Hle by apply List.filter_length_le.
  assert (l = elts x <-> length l = length (elts x)) as Hid.
  { split; [now intros ->|]. subst l. unfold list_compact. clear. induction (elts x) as [|v k IH]; simpl; [auto|].
    destruct (negb (NIL_P v)); simpl.
    - intros [= H]. now rewrite IH.
    - pose proof (List.filter_length_le (fun v => negb (NIL_P v)) k). lia. }
  destruct O1 as [_ Hc _ Hr Hm _]. rewrite length_app, length_fmap in Hr.
  assert (forall s3 o3 cs3 c3, owned s a s3 o3 cs3 c3 l -> to_list o3 = to_list o1 -> becomes s a (with_elts x l) s3) as Hend.
  { intros s3 o3 cs3 c3 O3 Hf3. eapply owned_becomes; [exact O3|]. rewrite Hf3. now apply to_list_flags. }
  wp_if.
  - apply wp_ret. assert (length l = length (elts x)) as Hll by lia. rewrite decide_True by (now apply Hid).
    splits; auto. apply (Hend s2 o1 ((Some <$> l) ++ (Some <$> J) ++ rest) c1); [|reflexivity].
    rewrite fmap_app, <- app_assoc in F2.
    constructor; [exact F2 | exact Hc | lia | | exact Hm | apply elts_app; eauto].
    rewrite !length_app, !length_fmap. lia.
  - rewrite decide_False by (intros Heq; apply Hid in Heq; lia).
    rewrite fmap_app, <- app_assoc in F2.
    apply wp_bind. eapply focus_upd; [exact F2 | reflexivity|]. intros s3 F3.
    assert (owned s a s3 (set_len (Z.of_nat (length l)) (set_aux (Capa (Z.of_nat (length l))) o1))
      ((Some <$> l) ++ (Some <$> J) ++ rest) (Z.of_nat (length l)) l) as O3.
    { constructor; [exact F3 | reflexivity | reflexivity | | lia | apply elts_app; eauto].
      simpl. rewrite length_app, length_fmap. lia. }
    apply wp_bind. eapply realloc_ok; [exact O3 | lia | right; splits; auto; eapply Hend; [exact O3 | reflexivity] |].
    intros s4 o4 cs4 rest4 F4 -> Hlen [b Ho4]. apply wp_ret. splits; auto.
    apply (Hend s4 o4 ((Some <$> l) ++ rest4) (Z.of_nat (length l))); [|now rewrite Ho4].
    rewrite Ho4 in F4 |- *. constructor; [exact F4 | reflexivity | reflexivity | simpl; lia | lia | apply elts_app; eauto].
Qed.

(** ** [rb_ary_splice] *)

(** The replacement: none, or the elements of an array, which may be [a]. *)
Definition replacement (s : memory) (rpl : option positive) (rs : list VALUE) : Prop :=
  match rpl with
  | None => rs = []
  | Some b => exists y, abs s !! b = Some y /\ rs = elts y
  end.

(** Reading the replacement while [a] is worked on: its own first words, or
    another array. *)
Lemma copy_replacement s0 a s o cs x rpl rs di (Q : unit -> memory -> Prop) E (copy : pointer -> pointer -> Z -> M unit) :
  copy = MEMCPY /\ Z.of_nat (length (elts x)) <= di \/ copy = MEMMOVE ->
  focus s0 a s o cs -> abs s0 !! a = Some x -> replacement s0 rpl rs ->
  (rpl = Some a -> take (length rs) cs = Some <$> rs) ->
  0 <= di -> di + Z.of_nat (length rs) <= Z.of_nat (length cs) ->
  (forall s', focus s0 a s' o (splice_cells (Z.to_nat di) (Some <$> rs) cs) -> Q tt s') ->
  wp (match rpl with
      | Some r => if 0 <? Z.of_nat (length rs)
                  then ro <- get r ;; copy (padd (a_ptr o) di) (a_ptr ro) (Z.of_nat (length rs)) else ret tt
      | None => ret tt
      end) s Q E.
Proof.
  intros Hcopy F Hx Hrpl Hself Hdi Hn HQ.
  assert (rs = [] -> Q tt s) as Hnil.
  { intros ->. apply HQ. unfold splice_cells. simpl. rewrite Nat.add_0_r, take_drop. exact F. }
  destruct rpl as [b|]; [|now apply wp_ret, Hnil]. destruct Hrpl as (y & Hy & ->).
  wp_if; [|apply wp_ret, Hnil; destruct (elts y); [reflexivity | simpl in *; lia]].
  pose proof (f_wf _ _ _ _ _ F) as W.
  destruct (abs_get _ _ _ Hy) as (p & Hp & Hv & _). destruct (ary_len _ _ _ _ W Hp Hv) as [Hl Hlb].
  apply wp_bind. destruct (decide (b = a)) as [-> | Hne].
  - rewrite Hx in Hy. injection Hy as <-. eapply focus_get; [exact F|].
    specialize (Hself eq_refl).
    destruct Hcopy as [[-> Hdi2] | ->].
    + eapply focus_memcpy_own; [exact F | lia | lia | lia |].
      rewrite Nat2Z.id, Hself. exact HQ.
    + rewrite <- (padd_0 (a_ptr o)) at 2.
      eapply focus_memmove; [exact F | lia | lia | lia | lia | lia |].
      rewrite Nat2Z.id, drop_0, Hself. exact HQ.
  - eapply focus_get_other; [exact F | exact Hne | exact Hp |]. rewrite <- Hl.
    destruct Hcopy as [[-> _] | ->].
    + eapply focus_memcpy_other; eauto.
    + eapply focus_copy_other; eauto.
Qed.

(** Beyond the end: [nil]s up to [beg]. *)
Lemma splice_beyond_ok s a x beg rpl rs s1 o1 cs1 c1 :
  abs s !! a = Some x -> replacement s rpl rs -> modify_error x = None ->
  owned s a s1 o1 cs1 c1 (elts x) -> to_list o1 (elts x) = x ->
  a_len o1 <= beg -> beg + Z.of_nat (length rs) < 2 ^ 30 ->
  wp (let len := s32 (beg + Z.of_nat (length rs)) in
      (if c1 <=? len then REALLOC_N a len ;;; upd a (set_aux (Capa len)) else ret tt) ;;;
      o <- get a ;;
      rb_mem_clear (padd (a_ptr o) (a_len o)) (s32 (beg - a_len o)) ;;;
      match rpl with
      | Some r =>
          if 0 <? Z.of_nat (length rs)
          then ro <- get r ;; MEMCPY (padd (a_ptr o) beg) (a_ptr ro) (Z.of_nat (length rs)) else ret tt
      | None => ret tt
      end ;;;
      upd a (set_len len)) s1
    (fun _ s' => modify_error x = None /\
       owns_list s a x (elts x ++ nils (Z.to_nat beg - length (elts x)) ++ rs) s')
    (modify_exn s x).
Proof.
  intros Hx Hrpl Hok O1 Hf1 Hbeg Hmax. change (2 ^ 30) with 1073741824 in Hmax.
  pose proof (o_len _ _ _ _ _ _ _ O1) as Hl1. cbv zeta. rewrite s32_small by lia.
  set (n := beg + Z.of_nat (length rs)) in *.
  assert (forall s2 o2 cs2 c2, owned s a s2 o2 cs2 c2 (elts x) -> to_list o2 = to_list o1 -> n <= c2 ->
    wp (o <- get a ;;
      rb_mem_clear (padd (a_ptr o) (a_len o)) (s32 (beg - a_len o)) ;;;
      match rpl with
      | Some r =>
          if 0 <? Z.of_nat (length rs)
          then ro <- get r ;; MEMCPY (padd (a_ptr o) beg) (a_ptr ro) (Z.of_nat (length rs)) else ret tt
      | None => ret tt
      end ;;;
      upd a (set_len n)) s2
    (fun _ s' => modify_error x = None /\
       owns_list s a x (elts x ++ nils (Z.to_nat beg - length (elts x)) ++ rs) s')
    (modify_exn s x)) as Hmain.
  { intros s2 o2 cs2 c2 O2 Hf2 Hroom. apply wp_bind. eapply focus_get; [apply O2|]. cbv beta.
    destruct O2 as [F2 Hc2 Hl2 Hr2 Hm2 He2]. change ARY_MAX with 536870912 in Hm2.
    rewrite Hl2, s32_small by lia. apply wp_bind.
    eapply focus_memfill; [exact F2 | lia | lia | lia |]. intros s3 F3. rewrite Nat2Z.id in F3.
    apply elts_app in He2 as [rest ->]. rewrite length_app, length_fmap in Hr2.
    assert (splice_cells (length (elts x))
        (replicate (Z.to_nat (beg - Z.of_nat (length (elts x)))) (Some Qnil)) ((Some <$> elts x) ++ rest)
      = (Some <$> (elts x ++ nils (Z.to_nat beg - length (elts x)))) ++ drop (Z.to_nat beg - length (elts x)) rest) as Hcs.
    { rewrite <- (length_fmap Some (elts x)) at 1. rewrite splice_cells_end by (rewrite length_replicate; lia).
      rewrite length_replicate, fmap_app. unfold nils. rewrite fmap_replicate, <- app_assoc.
      replace (Z.to_nat (beg - Z.of_nat (length (elts x)))) with (Z.to_nat beg - length (elts x))%nat by lia.
      reflexivity. }
    rewrite Hcs in F3.
    assert (length (elts x ++ nils (Z.to_nat beg - length (elts x))) = Z.to_nat beg) as Hlb.
    { unfold nils. rewrite length_app, length_replicate. lia. }
    apply wp_bind. eapply (copy_replacement s a s3 o2 _ x rpl rs beg _ _ MEMCPY).
    - left. split; [reflexivity | lia].
    - exact F3.
    - exact Hx.
    - exact Hrpl.
    - intros ->. destruct Hrpl as (y & Hy & ->). rewrite Hx in Hy. injection Hy as <-.
      rewrite fmap_app, <- app_assoc. rewrite <- (length_fmap Some (elts x)) at 1. apply take_app_length.
    - lia.
    - rewrite length_app, length_fmap, Hlb, length_drop. lia.
    - intros s4 F4. eapply focus_upd; [exact F4 | reflexivity |]. intros s5 F5. split; [exact Hok|].
      assert (forall pre, length pre = Z.to_nat beg ->
        splice_cells (Z.to_nat beg) (Some <$> rs) ((Some <$> pre) ++ drop (Z.to_nat beg - length (elts x)) rest)
        = (Some <$> (pre ++ rs)) ++ drop (length rs) (drop (Z.to_nat beg - length (elts x)) rest)) as Hcs2.
      { intros pre Hpre. rewrite <- Hpre at 1. rewrite <- (length_fmap Some pre) at 1.
        rewrite splice_cells_end by (rewrite length_fmap, length_drop; lia).
        rewrite length_fmap, fmap_app, <- app_assoc. reflexivity. }
      rewrite Hcs2, <- app_assoc in F5 by exact Hlb.
      do 3 eexists. split.
      + constructor; [exact F5 | exact Hc2 | | | exact Hm2 | apply elts_app; eauto].
        * simpl. rewrite app_assoc, length_app, Hlb. lia.
        * simpl. rewrite length_app, length_fmap, app_assoc, length_app, Hlb, !length_drop. lia.
      + change (to_list (set_len n o2)) with (to_list o2). rewrite Hf2.
        apply (f_equal (fun z => with_elts z (elts x ++ nils (Z.to_nat beg - length (elts x)) ++ rs))) in Hf1. exact Hf1. }
  apply wp_bind. wp_if; [|apply wp_ret; eapply Hmain; [exact O1 | reflexivity | lia]].
  eapply grow_any_ok; [exact O1 | lia | |].
  - intros e He. apply modify_exn_size; [|exact He]. eapply owned_kept; [exact O1|]. now rewrite Hf1.
  - intros s2 o2 cs2 Hn O2 Hf2. eapply Hmain; [exact O2 | exact Hf2 | lia].
Qed.

(** The words after the replaced ones move; those before stay, and the room
    between is for the replacement. *)
Lemma move_cells (A B C rest : list cell) k :
  (length A + k + length C <= length A + length B + length C + length rest)%nat ->
  exists X rest',
    splice_cells (length A + k) C (A ++ B ++ C ++ rest) = A ++ X ++ C ++ rest' /\
    length X = k /\ (length rest' + k = length B + length rest)%nat /\
    ((length A + length B + length C <= length A + k)%nat ->
      take (length A + length B + length C) (A ++ X ++ C ++ rest') = A ++ B ++ C).
Proof.
  intros Hn. exists (take k (B ++ C ++ rest)), (drop (k + length C) (B ++ C ++ rest)).
  assert (length (take k (B ++ C ++ rest)) = k) as HX by (rewrite length_take, !length_app; lia).
  splits; auto.
  - unfold splice_cells. rewrite take_app_add, <- app_assoc, <- Nat.add_assoc, drop_app_add. reflexivity.
  - rewrite length_drop, !length_app. lia.
  - intros Hle. rewrite <- !Nat.add_assoc, take_app_add. f_equal.
    rewrite take_app_le by lia. rewrite take_take.
    replace (Nat.min (length B + length C) k) with (length B + length C)%nat by lia.
    rewrite take_app_add, take_app_length. reflexivity.
Qed.

Lemma split3 (l : list VALUE) (i n : nat) :
  (i + n <= length l)%nat ->
  exists A B C, l = A ++ B ++ C /\ length A = i /\ length B = n /\ C = drop (i + n) l /\ A = take i l.
Proof.
  intros Hn. exists (take i l), (take n (drop i l)), (drop (i + n) l).
  rewrite <- drop_drop, !take_drop, !length_take, length_drop. splits; auto; lia.
Qed.

(** The writes of [rb_ary_splice] inside the array, with room for them. *)
Lemma splice_write_ok s a x rpl rs (A B C : list VALUE) s1 o1 cs1 c1 alen :
  abs s !! a = Some x -> replacement s rpl rs -> elts x = A ++ B ++ C ->
  owned s a s1 o1 cs1 c1 (elts x) -> to_list o1 (elts x) = x ->
  alen = Z.of_nat (length A + length rs + length C) -> alen <= c1 ->
  wp ((if negb (Z.of_nat (length B) =? Z.of_nat (length rs)) then
         MEMMOVE (padd (padd (a_ptr o1) (Z.of_nat (length A))) (Z.of_nat (length rs)))
           (padd (padd (a_ptr o1) (Z.of_nat (length A))) (Z.of_nat (length B))) (Z.of_nat (length C)) ;;;
         upd a (set_len alen)
       else ret tt) ;;;
      match rpl with
      | Some r =>
          if 0 <? Z.of_nat (length rs)
          then ro <- get r ;; MEMMOVE (padd (a_ptr o1) (Z.of_nat (length A))) (a_ptr ro) (Z.of_nat (length rs))
          else ret tt
      | None => ret tt
      end) s1
    (fun _ s' => owns_list s a x (A ++ rs ++ C) s') (modify_exn s x).
Proof.
  intros Hx Hrpl Habc O1 Hf1 -> Hroom. destruct O1 as [F1 Hc1 Hl1 Hr1 Hm1 He1].
  change ARY_MAX with 536870912 in Hm1. apply elts_app in He1 as [rest ->].
  assert (length (elts x) = length A + length B + length C)%nat as Hlen by (rewrite Habc, !length_app; lia).
  rewrite length_app, length_fmap in Hr1.
  assert (forall s2 o2 X rest2, focus s a s2 o2 ((Some <$> A) ++ X ++ (Some <$> C) ++ rest2) ->
    length X = length rs -> (length rest2 + length rs = length B + length rest)%nat ->
    ((length (elts x) <= length A + length rs)%nat ->
      take (length (elts x)) ((Some <$> A) ++ X ++ (Some <$> C) ++ rest2) = Some <$> elts x) ->
    a_ptr o2 = a_ptr o1 -> a_aux o2 = Capa c1 -> a_len o2 = Z.of_nat (length A + length rs + length C) ->
    to_list o2 = to_list o1 ->
    wp (match rpl with
      | Some r =>
          if 0 <? Z.of_nat (length rs)
          then ro <- get r ;; MEMMOVE (padd (a_ptr o1) (Z.of_nat (length A))) (a_ptr ro) (Z.of_nat (length rs))
          else ret tt
      | None => ret tt
      end) s2 (fun _ s' => owns_list s a x (A ++ rs ++ C) s') (modify_exn s x)) as Hput.
  { intros s2 o2 X rest2 F2 HX Hrest2 Hself Hp2 Hc2 Hl2 Hf2. rewrite <- Hp2.
    eapply (copy_replacement s a s2 o2 _ x rpl rs _ _ _ MEMMOVE); [right; reflexivity | exact F2 | exact Hx | exact Hrpl
      | | lia | rewrite !length_app, !length_fmap; lia |].
    - intros ->. destruct Hrpl as (y & Hy & ->). rewrite Hx in Hy. injection Hy as <-. apply Hself. lia.
    - intros s3 F3. rewrite Nat2Z.id in F3.
      rewrite (splice_cells_app _ (Some <$> A) X (Some <$> rs)) in F3 by (rewrite ?length_fmap; auto).
      do 3 eexists. split.
      + constructor; [exact F3 | exact Hc2 | | | exact Hm1 | apply elts_app].
        * rewrite Hl2, !length_app. lia.
        * rewrite !length_app, !length_fmap. lia.
        * exists rest2. rewrite !fmap_app, <- !app_assoc. reflexivity.
      + rewrite Hf2. apply (f_equal (fun z => with_elts z (A ++ rs ++ C))) in Hf1. exact Hf1. }
  rewrite Habc, !fmap_app, <- !app_assoc in F1.
  apply wp_bind. destruct (Z.of_nat (length B) =? Z.of_nat (length rs)) eqn:E; breflect; simpl.
  - apply wp_ret. eapply Hput; [exact F1 | rewrite length_fmap; lia | lia | | reflexivity | exact Hc1 | lia | reflexivity].
    intros _. rewrite Hlen, Habc, !fmap_app, !app_assoc.
    replace (length A + length B + length C)%nat with (length (((Some <$> A) ++ (Some <$> B)) ++ (Some <$> C)))
      by (rewrite !length_app, !length_fmap; lia).
    apply take_app_length.
  - apply wp_bind. rewrite !padd_add.
    eapply focus_memmove; [exact F1 | lia | lia | lia | rewrite !length_app, !length_fmap; lia
      | rewrite !length_app, !length_fmap; lia |].
    intros s2 F2.
    destruct (move_cells (Some <$> A) (Some <$> B) (Some <$> C) rest (length rs)) as (X & rest2 & HX1 & HX2 & HX3 & HX4).
    { rewrite !length_fmap. lia. }
    rewrite !length_fmap in *.
    replace (Z.to_nat (Z.of_nat (length A) + Z.of_nat (length rs))) with (length A + length rs)%nat in F2 by lia.
    replace (take _ (drop _ _)) with (Some <$> C) in F2.
    2:{ replace (Z.to_nat (Z.of_nat (length A) + Z.of_nat (length B))) with (length ((Some <$> A) ++ (Some <$> B)))
          by (rewrite length_app, !length_fmap; lia).
        rewrite app_assoc, drop_app_length, Nat2Z.id. rewrite <- (length_fmap Some C). symmetry. apply take_app_length. }
    rewrite HX1 in F2. eapply focus_upd; [exact F2 | reflexivity |]. intros s3 F3.
    eapply Hput; [exact F3 | exact HX2 | lia | | reflexivity | exact Hc1 | reflexivity | reflexivity].
    intros Hle. rewrite Hlen, Habc, !fmap_app. apply HX4. lia.
Qed.

Lemma splice_at_ok s a x beg len rpl rs :
  wf s -> abs s !! a = Some x -> replacement s rpl rs -> 0 <= beg ->
  Z.of_nat (length (elts x)) <= beg \/ 0 <= len /\ beg + len <= LONG_MAX ->
  Z.of_nat (length rs) < ARY_MAX -> beg + Z.of_nat (length rs) < 2 ^ 30 ->
  wp (splice_at a beg len rpl (Z.of_nat (length rs))) s
    (fun _ s' => modify_error x = None /\
       owns_list s a x (list_splice (elts x) (Z.to_nat beg) (Z.to_nat len) rs) s')
    (modify_exn s x).
Proof.
  intros W Hx Hrpl Hbeg Hlen Hrs Hmax. change LONG_MAX with 2147483647 in Hlen.
  change ARY_MAX with 536870912 in Hrs.
  unfold splice_at. apply wp_bind. eapply modify_ok; [exact W | exact Hx | |].
  { intros e He. now apply modify_exn_start. }
  intros Hok s1 o1 cs1 c1 O1 Hf1. apply wp_bind. eapply focus_get; [apply O1|]. cbv beta.
  apply wp_bind. eapply get_capa_ok; [exact O1|].
  pose proof (o_len _ _ _ _ _ _ _ O1) as Hl1. pose proof (o_max _ _ _ _ _ _ _ O1) as Hm1.
  pose proof (o_room _ _ _ _ _ _ _ O1) as Hr1. change ARY_MAX with 536870912 in Hm1.
  assert (to_list o1 (elts x) = x) as Hf1x by (rewrite (to_list_flags _ x _ Hf1); apply with_elts_id).
  unfold list_splice. wp_if.
  - eapply wp_mono; [eapply splice_beyond_ok; eauto | | auto].
    intros u s' [H1 H2]. split; [exact H1|]. rewrite take_ge, drop_ge, app_nil_r by lia. exact H2.
  - destruct Hlen as [Hlen|Hlen]; [lia|]. cbv zeta. rewrite (s32_small (beg + len)) by lia.
    set (n := if a_len o1 <? beg + len then s32 (a_len o1 - beg) else len).
    assert (n = Z.min len (a_len o1 - beg)) as Hn.
    { subst n. destruct (a_len o1 <? beg + len) eqn:?; breflect; [rewrite s32_small by lia|]; lia. }
    clearbody n. destruct (split3 (elts x) (Z.to_nat beg) (Z.to_nat n)) as (A & B & C & Habc & HA & HB & HC & HA2); [lia|].
    assert (drop (Z.to_nat beg + Z.to_nat len) (elts x) = C) as ->.
    { subst C. destruct (Z.le_gt_cases len (a_len o1 - beg)).
      - do 2 f_equal. lia.
      - rewrite !drop_ge by lia. reflexivity. }
    assert (take (Z.to_nat beg) (elts x) = A) as -> by congruence.
    replace (Z.to_nat beg - length (elts x))%nat with 0%nat by lia. simpl (nils 0 ++ _).
    assert (length (elts x) = length A + length B + length C)%nat as Hlx by (rewrite Habc, !length_app; lia).
    assert (s32 (s32 (a_len o1 + Z.of_nat (length rs)) - n) = Z.of_nat (length A + length rs + length C)) as ->.
    { rewrite !s32_small by (rewrite ?s32_small; lia). lia. }
    rewrite (s32_small (beg + n)) by lia.
    set (alen := Z.of_nat (length A + length rs + length C)).
    assert (forall s2 o2 cs2 c2, owned s a s2 o2 cs2 c2 (elts x) -> to_list o2 = to_list o1 -> alen <= c2 ->
      wp (o <- get a ;;
         (if negb (n =? Z.of_nat (length rs)) then
           MEMMOVE (padd (padd (a_ptr o) beg) (Z.of_nat (length rs))) (padd (padd (a_ptr o) beg) n)
             (s32 (a_len o - (beg + n))) ;;;
           upd a (set_len alen)
          else ret tt) ;;;
         match rpl with
         | Some r =>
             if 0 <? Z.of_nat (length rs)
             then ro <- get r ;; MEMMOVE (padd (a_ptr o) beg) (a_ptr ro) (Z.of_nat (length rs)) else ret tt
         | None => ret tt
         end) s2
       (fun _ s' => modify_error x = None /\ owns_list s a x (A ++ rs ++ C) s') (modify_exn s x)) as Hmain.
    { intros s2 o2 cs2 c2 O2 Hf2 Hroom. apply wp_bind. eapply focus_get; [apply O2|]. cbv beta.
      pose proof (o_len _ _ _ _ _ _ _ O2) as Hl2. rewrite s32_small by lia.
      replace (a_len o2 - (beg + n)) with (Z.of_nat (length C)) by lia.
      replace beg with (Z.of_nat (length A)) by lia. replace n with (Z.of_nat (length B)) by lia.
      eapply wp_mono; [eapply (splice_write_ok s a x rpl rs A B C);
        [exact Hx | exact Hrpl | exact Habc | exact O2 | now rewrite Hf2 | reflexivity | exact Hroom] | | auto].
      intros u s' H. split; [exact Hok | exact H]. }
    apply wp_bind. wp_if; [|apply wp_ret; eapply Hmain; [exact O1 | reflexivity | lia]].
    eapply grow_any_ok; [exact O1 | subst alen; change (2 ^ 30) with 1073741824; lia | |].
    + intros e He. apply modify_exn_size; [|exact He]. eapply owned_kept; [exact O1|]. now rewrite Hf1x.
    + intros s2 o2 cs2 Hlt O2 Hf2. eapply Hmain; [exact O2 | exact Hf2 | lia].
Qed.

(** The elements [rb_ary_splice] puts in. *)
Definition splice_list (m : gmap positive alist) (rpl : VALUE) : option (list VALUE) :=
  match rpl with
  | Qnil => Some []
  | Ary b => elts <$> m !! b
  | v => Some [v]
  end.

(** With a single object in an array of its own. *)
Definition rpl_state (st : gmap positive alist * positive) (rpl : VALUE) : gmap positive alist * positive :=
  match rpl with
  | Qnil | Ary _ => st
  | v => put_list st (snd st) (mkList [v] false false tainted_by_level)
  end.

Lemma kept_abs s s' a x : kept s s' -> abs s !! a = Some x -> abs s' !! a = Some x.
Proof. intros [_ H] Hx. eapply lookup_weaken; eauto. Qed.

(** Making the replacement an array: a new one for a single object. *)
Lemma splice_rpl_ok s a x rpl rs :
  wf s -> abs s !! a = Some x -> splice_list (abs s) rpl = Some rs ->
  wp (if NIL_P rpl then ret None else r <- rb_ary_to_ary rpl ;; ret (Some r)) s
    (fun r s' => kept s s' /\ abs s' !! a = Some x /\ replacement s' r rs /\
       state s' = rpl_state (state s) rpl) (alloc_exn s).
Proof.
  intros W Hx Hrs. pose proof (kept_refl s W) as K.
  assert (forall v, splice_list (abs s) rpl = Some [v] -> rb_ary_to_ary rpl = rb_ary_new4 [v] ->
    rpl_state (state s) rpl = put_list (state s) (next_ary s) (mkList [v] false false tainted_by_level) ->
    wp (r <- rb_ary_to_ary rpl ;; ret (Some r)) s
      (fun r s' => kept s s' /\ abs s' !! a = Some x /\ replacement s' r rs /\
         state s' = rpl_state (state s) rpl) (alloc_exn s)) as Hone.
  { intros v Hv -> ->. rewrite Hrs in Hv. injection Hv as ->. apply wp_bind.
    eapply wp_mono; [apply (new4_ok s [v]); [exact W | change (2 ^ 30) with 1073741824; simpl; lia] | | auto].
    intros r s' Hf. pose proof (fresh_kept _ _ _ _ _ W Hf) as K'. destruct Hf as [-> [W' B]]. apply wp_ret.
    split; [exact K' | split; [now apply (kept_abs s) | split; [|exact B]]].
    simpl. exists (mkList [v] false false tainted_by_level). split; [|reflexivity].
    injection B as -> _. apply lookup_insert_eq. }
  destruct rpl as [ | | | n | id | f l e | b | id]; simpl NIL_P; cbv iota.
  1: apply wp_ret; injection Hrs as <-; split; [exact K | split; [exact Hx | split; reflexivity]].
  6: {
    simpl in Hrs. destruct (abs s !! b) as [y|] eqn:Hy; [|discriminate]. injection Hrs as <-.
    apply wp_bind, wp_ret, wp_ret. split; [exact K|]. split; [exact Hx|]. simpl. eauto. }
  all: (eapply Hone; exact eq_refl).
Qed.

Definition splice_exn (s : memory) (x : alist) (rpl : VALUE) (e : rb_error) (s' : memory) : Prop :=
  kept s s' /\ (modify_error x = Some e /\ state s' = rpl_state (state s) rpl \/ size_error e).

(** [rb_ary_splice], as long as [beg + len] does not overflow and the result
    is shorter than 2^30. *)
Lemma splice_ok s a x beg len rpl rs :
  wf s -> abs s !! a = Some x -> splice_list (abs s) rpl = Some rs -> LONG_MIN <= beg -> LONG_MIN <= len ->
  from_end (elts x) beg + len <= LONG_MAX -> from_end (elts x) beg + Z.of_nat (length rs) < 2 ^ 30 ->
  Z.of_nat (length rs) < ARY_MAX ->
  wp (rb_ary_splice a beg len rpl) s
    (fun _ s' => modify_error x = None /\ 0 <= len /\ 0 <= from_end (elts x) beg /\ wf s' /\
       state s' = put_list (rpl_state (state s) rpl) a
         (with_elts x (list_splice (elts x) (Z.to_nat (from_end (elts x) beg)) (Z.to_nat len) rs)))
    (fun e s' =>
       if (len <? 0) || (from_end (elts x) beg <? 0) then e = IndexError /\ s' = s
       else splice_exn s x rpl e s').
Proof.
  intros W Hx Hrs Hbeg Hlen Hsum Hmax Hrl. change LONG_MIN with (-2147483648) in *.
  change LONG_MAX with 2147483647 in *.
  destruct (abs_get _ _ _ Hx) as (o & Ho & Hv & _). destruct (ary_len _ _ _ _ W Ho Hv) as [Hl Hlb].
  unfold rb_ary_splice. wp_if; [now apply wp_raise|].
  apply wp_bind. eapply wp_get; [exact Ho|]. cbv beta. apply wp_bind.
  assert (forall i, i = from_end (elts x) beg -> 0 <= i ->
    wp (let len := if a_len o <? s32 (i + len) then s32 (a_len o - i) else len in
        rpl <- (if NIL_P rpl then ret None else r <- rb_ary_to_ary rpl ;; ret (Some r)) ;;
        rlen <- match rpl with None => ret 0 | Some r => o <- get r ;; ret (a_len o) end ;;
        splice_at a i len rpl rlen) s
    (fun _ s' => modify_error x = None /\ 0 <= len /\ 0 <= from_end (elts x) beg /\ wf s' /\
       state s' = put_list (rpl_state (state s) rpl) a
         (with_elts x (list_splice (elts x) (Z.to_nat (from_end (elts x) beg)) (Z.to_nat len) rs)))
    (fun e s' => if from_end (elts x) beg <? 0 then e = IndexError /\ s' = s else splice_exn s x rpl e s')) as Hmain.
  { intros i -> Hi. set (i := from_end (elts x) beg) in *. cbv zeta. rewrite (s32_small (i + len)) by lia.
    assert (forall e s', splice_exn s x rpl e s' ->
      if i <? 0 then e = IndexError /\ s' = s else splice_exn s x rpl e s') as Hexn.
    { intros e s' He. destruct (i <? 0) eqn:?; breflect; [lia | exact He]. }
    apply wp_bind. eapply wp_mono; [apply (splice_rpl_ok s a x rpl rs); assumption | |].
    2:{ intros e s' [K He]. apply Hexn. split; auto. }
    intros r s1 (K1 & Hx1 & Hr & Hst). apply wp_bind. destruct K1 as [W1 Hsub] eqn:EK. clear EK.
    assert (wp match r with None => ret 0 | Some r => o <- get r ;; ret (a_len o) end s1
      (fun v s' => v = Z.of_nat (length rs) /\ s' = s1) (fun _ _ => False)) as Hrlen.
    { destruct r as [b|]; simpl in Hr.
      - destruct Hr as (y & Hy & ->). destruct (abs_get _ _ _ Hy) as (p & Hp & Hvp & _).
        apply wp_bind. eapply wp_get; [exact Hp|]. apply wp_ret.
        destruct (ary_len _ _ _ _ W1 Hp Hvp). auto.
      - apply wp_ret. now rewrite Hr. }
    eapply wp_mono; [exact Hrlen | | done]. intros v s1' [-> ->].
    set (len' := if a_len o <? i + len then s32 (a_len o - i) else len).
    eapply wp_mono; [apply (splice_at_ok s1 a x i len' r rs); auto | |].
    - change LONG_MAX with 2147483647. subst len'. destruct (a_len o <? i + len) eqn:?; breflect; [|lia].
      destruct (Z.le_gt_cases (Z.of_nat (length (elts x))) i); [left; assumption | right].
      rewrite s32_small by lia. lia.
    - intros u s' [H1 H2]. split; [exact H1 | split; [lia | split; [lia|]]].
      apply owns_becomes in H2. destruct H2 as [W2 H2]. split; [exact W2|]. rewrite <- Hst. replace (list_splice _ _ (Z.to_nat len) _)
        with (list_splice (elts x) (Z.to_nat i) (Z.to_nat len') rs); [exact H2|].
      unfold list_splice. do 3 f_equal. subst len'. destruct (a_len o <? i + len) eqn:?; breflect; [|reflexivity].
      destruct (Z.le_gt_cases (Z.of_nat (length (elts x))) i); [rewrite !drop_ge by lia; reflexivity|].
      rewrite s32_small by lia. rewrite !drop_ge by lia. reflexivity.
    - intros e s' [K2 He]. apply Hexn. split; [eapply kept_trans; [split; eassumption | exact K2]|].
      destruct He as [[He Hs]|He]; [left; split; [exact He | congruence] | right; exact He]. }
  simpl orb.
  unfold from_end in *. wp_if.
  - cbv zeta. rewrite s32_small by lia. wp_if.
    + destruct (beg + Z.of_nat _ <? 0) eqn:?; breflect; [now apply wp_raise | lia].
    + apply wp_ret. apply (Hmain (beg + a_len o)); [now rewrite Hl | lia].
  - apply wp_ret. now apply (Hmain beg).
Qed.

(** ** Freezing and appending *)

Lemma set_frozen_ok s a o l (Q : unit -> memory -> Prop) E :
  wf s -> arys s !! a = Some o -> view s o = Some l ->
  (forall s', becomes s a (mkList l true (tmplock o) (tainted o)) s' -> Q tt s') ->
  wp (upd a set_frozen) s Q E.
Proof.
  intros W Ho Hv HQ. destruct (ary_len _ _ _ _ W Ho Hv) as [Hl Hlb]. destruct (a_aux o) as [c|r] eqn:Ex.
  - destruct (focus_start _ _ _ _ W Ho Ex) as (cs & l' & O & Hv2). rewrite Hv in Hv2. injection Hv2 as <-.
    destruct O as [F Hc Hl2 Hr Hm He]. eapply focus_upd; [exact F | reflexivity|]. intros s' F'.
    apply HQ. eapply (owned_becomes _ _ _ (set_frozen o) cs c l); [constructor; auto | reflexivity].
  - eapply shared_upd; [exact W | exact Ho | exact Ex | reflexivity | exact Ex | reflexivity | exact Hv | |].
    + exact Hlb.
    + intros s' W' Ha' _ _ Hn'. apply HQ. now apply (becomes_intro s s' a o).
Qed.

(** [rb_ary_freeze] *)
Lemma freeze_ok s a x :
  wf s -> abs s !! a = Some x ->
  wp (rb_ary_freeze a) s
    (fun r s' => r = a /\ negb (l_frozen x) && (4 <=? safe_level) && negb (l_tainted x) = false /\
       becomes s a (mkList (elts x) true (l_locked x) (l_tainted x)) s')
    (fun e s' => negb (l_frozen x) && (4 <=? safe_level) && negb (l_tainted x) = true /\
       e = SecurityError /\ s' = s).
Proof.
  intros W Hx. destruct (abs_get _ _ _ Hx) as (o & Ho & Hv & Heq).
  unfold rb_ary_freeze. apply wp_bind. eapply wp_get; [exact Ho|]. cbv beta.
  rewrite Heq. simpl. destruct (frozen o) eqn:Ef; simpl.
  - apply wp_ret. splits; auto. apply becomes_self; auto. rewrite Hx, Heq. unfold to_list. simpl. now rewrite Ef.
  - wp_if; [now apply wp_raise|]. apply wp_bind. eapply set_frozen_ok; [exact W | exact Ho | exact Hv|].
    intros s' B. apply wp_ret. auto.
Qed.

Lemma list_splice_end l r : list_splice l (length l) 0 r = l ++ r.
Proof.
  unfold list_splice. rewrite Nat.sub_diag, take_ge, drop_ge by lia. simpl. now rewrite app_nil_r.
Qed.

(** [rb_ary_concat] *)
Lemma concat_ok s a x b y :
  wf s -> abs s !! a = Some x -> abs s !! b = Some y ->
  wp (rb_ary_concat a (Ary b)) s
    (fun r s' => r = a /\ (elts y = [] /\ s' = s \/ elts y <> [] /\ modify_error x = None /\
       becomes s a (with_elts x (elts x ++ elts y)) s'))
    (fun e s' => elts y <> [] /\ modify_exn s x e s').
Proof.
  intros W Hx Hy. destruct (abs_get _ _ _ Hx) as (o & Ho & Hv & _). destruct (ary_len _ _ _ _ W Ho Hv) as [Hl Hlb].
  destruct (abs_get _ _ _ Hy) as (p & Hp & Hvp & _). destruct (ary_len _ _ _ _ W Hp Hvp) as [Hlp Hlbp].
  unfold rb_ary_concat. apply wp_bind, wp_ret. apply wp_bind. eapply wp_get; [exact Hp|]. apply wp_bind.
  assert (from_end (elts x) (a_len o) = a_len o) as Hfe.
  { unfold from_end. destruct (a_len o <? 0) eqn:?; breflect; lia. }
  wp_if.
  - assert (elts y <> []) as Hne by (intros Hn; rewrite Hn in Hlp; simpl in Hlp; lia).
    apply wp_bind. eapply wp_get; [exact Ho|].
    eapply wp_mono; [apply (splice_ok s a x (a_len o) 0 (Ary b) (elts y)); auto | |].
    + simpl. rewrite Hy. reflexivity.
    + change LONG_MIN with (-2147483648). lia.
    + done.
    + change LONG_MAX with 2147483647. lia.
    + lia.
    + rewrite <- Hlp. exact (proj2 Hlbp).
    + intros u s' (H1 & _ & _ & W' & Hs). apply wp_ret. split; [reflexivity|]. right. splits; auto.
      rewrite Hfe, Hl, Nat2Z.id, list_splice_end in Hs. split; [exact W' | exact Hs].
    + intros e s' He. rewrite Hfe in He. destruct (0 <? 0) eqn:?; [breflect; lia|].
      destruct (a_len o <? 0) eqn:?; breflect; [lia|]. split; [exact Hne | exact He].
  - apply wp_ret, wp_ret. split; [reflexivity|]. left. split; [|reflexivity].
    destruct (elts y); [reflexivity | simpl in Hlp; lia].
Qed.
End Ops.

(** ** A memory with one array *)

Definition one_array (l : list VALUE) : memory :=
  match @rb_ary_new4 plenty l empty_memory with Val _ s => s | _ => empty_memory end.

Lemma one_array_ok l :
  Z.of_nat (length l) < 2 ^ 30 ->
  match @rb_ary_new4 plenty l empty_memory with Val _ _ => True | _ => False end ->
  wf (one_array l) /\ abs (one_array l) !! 1%positive = Some (mkList l false false false) /\
  next_ary (one_array l) = 2%positive.
Proof.
  intros Hl. pose proof (@new4_ok plenty empty_memory l wf_empty Hl) as Hwp.
  unfold wp in Hwp. unfold one_array.
  destruct (@rb_ary_new4 plenty l empty_memory) as [r s | e s | | | ]; try done.
  intros _. destruct Hwp as [-> [W Hs]]. split; [exact W|]. injection Hs as -> ->.
  split; [apply lookup_insert_eq | reflexivity].
Qed.
