(* ===== verification/ArrayRefine.v ===== *)
(** * Arrays: programs of operations refine programs on lists

    The specification of array.c has no blocks, capacities or sharing: a state
    is a map from arrays to lists with their flags, and an operation changes
    one entry.  [step_refines] relates each operation to it, and
    [array_program_refines] a program of any length, with its exceptions. *)

From Stdlib Require Import ZArith Lia List Bool.
From stdpp Require Import base list gmap.
From S2P Require Import Prelude CInt ArrayMem Array ArrayInv ArrayOps.
Local Open Scope Z_scope.
Local Open Scope array_scope.

(** ** Operations *)

Inductive op :=
  | ONew (l : list VALUE)
  | OStore (a : positive) (i : Z) (v : VALUE)
  | OPush (a : positive) (v : VALUE)
  | OPop (a : positive)
  | OShift (a : positive)
  | OUnshift (a : positive) (v : VALUE)
  | OUnshiftM (a : positive) (l : list VALUE)
  | OEntry (a : positive) (i : Z)
  | OSubseq (a : positive) (beg len : Z)
  | OSplice (a : positive) (beg len : Z) (rpl : VALUE)
  | OConcat (a b : positive)
  | OReplace (a b : positive)
  | ODup (a : positive)
  | OPlus (a b : positive)
  | OTimes (a : positive) (n : Z)
  | OClear (a : positive)
  | OReverse (a : positive)
  | ODeleteAt (a : positive) (i : Z)
  | OCompact (a : positive)
  | OFreeze (a : positive).

Section Refine.
Context {machine : Machine}.

Definition exec (o : op) : M VALUE :=
  match o with
  | ONew l => r <- rb_ary_new4 l ;; ret (Ary r)
  | OStore a i v => rb_ary_store a i v ;;; ret v
  | OPush a v => r <- rb_ary_push a v ;; ret (Ary r)
  | OPop a => rb_ary_pop a
  | OShift a => rb_ary_shift a
  | OUnshift a v => r <- rb_ary_unshift a v ;; ret (Ary r)
  | OUnshiftM a l => r <- rb_ary_unshift_m l a ;; ret (Ary r)
  | OEntry a i => rb_ary_entry a i
  | OSubseq a beg len => rb_ary_subseq a beg len
  | OSplice a beg len rpl => rb_ary_splice a beg len rpl ;;; ret rpl
  | OConcat a b => r <- rb_ary_concat a (Ary b) ;; ret (Ary r)
  | OReplace a b => r <- rb_ary_replace a (Ary b) ;; ret (Ary r)
  | ODup a => r <- rb_ary_dup a ;; ret (Ary r)
  | OPlus a b => r <- rb_ary_plus a (Ary b) ;; ret (Ary r)
  | OTimes a n => r <- rb_ary_times a (Num n) ;; ret (Ary r)
  | OClear a => r <- rb_ary_clear a ;; ret (Ary r)
  | OReverse a => r <- rb_ary_reverse a ;; ret (Ary r)
  | ODeleteAt a i => rb_ary_delete_at a i
  | OCompact a => r <- rb_ary_compact_bang a ;; ret (match r with Some r => Ary r | None => Qnil end)
  | OFreeze a => r <- rb_ary_freeze a ;; ret (Ary r)
  end.

(** ** Their specification *)

Abbreviation lists := (gmap positive alist * positive)%type.

(** [SBad]: an operand is not an array of the state. *)
Inductive sresult :=
  | SVal (v : VALUE) (st : lists)
  | SExn (e : rb_error) (st : lists)
  | SBad.

Definition with_list (st : lists) (a : positive) (k : alist -> sresult) : sresult :=
  match fst st !! a with Some x => k x | None => SBad end.

(** A change of the elements of [a], unless it may not be modified. *)
Definition change (st : lists) (a : positive) (x : alist) (l : list VALUE) (v : VALUE) : sresult :=
  match modify_error x with
  | Some e => SExn e st
  | None => SVal v (put_list st a (with_elts x l))
  end.

Definition new_list (st : lists) (l : list VALUE) (t : bool) : sresult :=
  SVal (Ary (snd st)) (put_list st (snd st) (mkList l false false t)).

Definition spec (o : op) (st : lists) : sresult :=
  match o with
  | ONew l => new_list st l tainted_by_level
  | OStore a i v => with_list st a (fun x =>
      let i := from_end (elts x) i in
      if i <? 0 then SExn IndexError st else change st a x (list_store (elts x) (Z.to_nat i) v) v)
  | OPush a v => with_list st a (fun x => change st a x (elts x ++ [v]) (Ary a))
  | OPop a => with_list st a (fun x => change st a x (removelast (elts x)) (last_or_nil (elts x)))
  | OShift a => with_list st a (fun x => change st a x (tail (elts x)) (default Qnil (head (elts x))))
  | OUnshift a v => with_list st a (fun x => change st a x (v :: elts x) (Ary a))
  | OUnshiftM a [] => with_list st a (fun x => SVal (Ary a) st)
  | OUnshiftM a l => with_list st a (fun x => change st a x (l ++ elts x) (Ary a))
  | OEntry a i => with_list st a (fun x => SVal (list_entry (elts x) i) st)
  | OSubseq a beg len => with_list st a (fun x =>
      match list_subseq (elts x) beg len with
      | None => SVal Qnil st
      | Some l => new_list st l tainted_by_level
      end)
  | OSplice a beg len rpl => with_list st a (fun x =>
      let i := from_end (elts x) beg in
      match splice_list (fst st) rpl with
      | None => SBad
      | Some rs =>
          if (len <? 0) || (i <? 0) then SExn IndexError st
          else change (rpl_state st rpl) a x (list_splice (elts x) (Z.to_nat i) (Z.to_nat len) rs) rpl
      end)
  | OConcat a b => with_list st a (fun x => with_list st b (fun y =>
      if (length (elts y) =? 0)%nat then SVal (Ary a) st else change st a x (elts x ++ elts y) (Ary a)))
  | OReplace a b => with_list st a (fun x => with_list st b (fun y => change st a x (elts y) (Ary a)))
  | ODup a => with_list st a (fun x => new_list st (elts x) (l_tainted x || tainted_by_level))
  | OPlus a b => with_list st a (fun x => with_list st b (fun y =>
      new_list st (elts x ++ elts y) tainted_by_level))
  | OTimes a n => with_list st a (fun x =>
      if n <? 0 then SExn ArgumentError st
      else new_list st (list_times (Z.to_nat n) (elts x)) (tainted_by_level || (negb (n =? 0) && l_tainted x)))
  | OClear a => with_list st a (fun x => change st a x [] (Ary a))
  | OReverse a => with_list st a (fun x => change st a x (rev (elts x)) (Ary a))
  | ODeleteAt a i => with_list st a (fun x =>
      let i := from_end (elts x) i in
      match (if i <? 0 then None else elts x !! Z.to_nat i) with
      | None => SVal Qnil st
      | Some v => change st a x (list_delete_at (elts x) (Z.to_nat i)) v
      end)
  | OCompact a => with_list st a (fun x =>
      change st a x (list_compact (elts x)) (if decide (list_compact (elts x) = elts x) then Qnil else Ary a))
  | OFreeze a => with_list st a (fun x =>
      if negb (l_frozen x) && (4 <=? safe_level) && negb (l_tainted x) then SExn SecurityError st
      else SVal (Ary a) (put_list st a (mkList (elts x) true (l_locked x) (l_tainted x))))
  end.

(** ** The range of the arguments *)

Definition is_long (z : Z) : bool := (LONG_MIN <=? z) && (z <=? LONG_MAX).

Definition known (st : lists) (a : positive) : bool :=
  match fst st !! a with Some _ => true | None => false end.

(** The elements of an array the operation names. *)
Definition list_of (st : lists) (a : positive) : list VALUE :=
  match fst st !! a with Some x => elts x | None => [] end.

(** The arrays are known, and sizes stay below the overflow of [beg + len] and
    2^30 words; every operation on Fixnums that does not make an array of a
    gigabyte qualifies. *)
Definition in_range (o : op) (st : lists) : bool :=
  match o with
  | ONew l => Z.of_nat (length l) <? 2 ^ 30
  | OStore a i _ => known st a && (LONG_MIN <=? i) && (i <? 2 ^ 30)
  | OPush a _ | OPop a | OShift a | OUnshift a _ | ODup a | OClear a | OReverse a | OCompact a | OFreeze a =>
      known st a
  | OUnshiftM a l => known st a && (Z.of_nat (length l) <? 2 ^ 29)
  | OEntry a i | ODeleteAt a i => known st a && is_long i
  | OSubseq a beg len => known st a && (LONG_MIN <=? len) && (beg + len <=? LONG_MAX)
  | OSplice a beg len rpl =>
      known st a && (LONG_MIN <=? beg) && (LONG_MIN <=? len) &&
      (from_end (list_of st a) beg + len <=? LONG_MAX) &&
      match splice_list (fst st) rpl with
      | None => false
      | Some rs =>
          (from_end (list_of st a) beg + Z.of_nat (length rs) <? 2 ^ 30) && (Z.of_nat (length rs) <? 2 ^ 29)
      end
  | OConcat a b | OReplace a b | OPlus a b => known st a && known st b
  | OTimes a n => known st a && is_long n && (n * Z.of_nat (length (list_of st a)) <? 2 ^ 30)
  end.

(** What an operation may do: what the specification says, or fail for want of
    memory (or for a size no block can have). *)
Definition refines (o : op) (s : memory) : Prop :=
  wp (exec o) s
    (fun v s' => wf s' /\ spec o (state s) = SVal v (state s'))
    (fun e s' => wf s' /\ spec o (state s) = SExn e (state s') \/ size_error e).

Lemma known_abs s a : known (state s) a = true -> exists x, abs s !! a = Some x.
Proof. unfold known. simpl. destruct (abs s !! a); [eauto | discriminate]. Qed.

(** The two shapes most operations have. *)
Lemma refines_change s a x l v s' :
  modify_error x = None -> becomes s a (with_elts x l) s' ->
  wf s' /\ change (state s) a x l v = SVal v (state s').
Proof. intros Hok [W H]. split; [exact W|]. unfold change. now rewrite Hok, H. Qed.

Lemma refines_exn s a x l v e s' :
  modify_exn s x e s' -> wf s' /\ change (state s) a x l v = SExn e (state s') \/ size_error e.
Proof.
  intros [[W _] [[He Hs]|He]]; [left | right; exact He]. split; [exact W|]. unfold change. now rewrite He, Hs.
Qed.

Lemma refines_new s l t r s' :
  fresh_list s l t r s' -> wf s' /\ new_list (state s) l t = SVal (Ary r) (state s').
Proof. intros [-> [W H]]. split; [exact W|]. unfold new_list. now rewrite H. Qed.

Lemma with_list_abs s a x k : abs s !! a = Some x -> with_list (state s) a k = k x.
Proof. unfold with_list. simpl. now intros ->. Qed.

Ltac in_range_split :=
  repeat match goal with
  | H : (_ && _)%bool = true |- _ => apply andb_prop in H; destruct H
  | H : known (state _) _ = true |- _ => apply known_abs in H; destruct H as [? H]
  end.

Lemma refines_store s a i v : wf s -> in_range (OStore a i v) (state s) = true -> refines (OStore a i v) s.
Proof.
  intros W Hr. unfold in_range in Hr. in_range_split. breflect. unfold refines. cbn [spec exec].
  erewrite with_list_abs by eassumption. cbv zeta. apply wp_bind.
  eapply wp_mono; [eapply store_ok; [exact W | eassumption | lia] | |].
  - intros u s' (H1' & H2 & B). apply wp_ret.
    destruct (_ <? 0) eqn:?; breflect; [lia|]. now apply refines_change.
  - intros e s' He. unfold index_exn in He. destruct (_ <? 0).
    + destruct He as [-> ->]. left. auto.
    + now apply refines_exn.
Qed.

(** An operation that changes one array by [modify_exn], in one step. *)
Ltac refine_change lem :=
  unfold refines; cbn [spec exec]; erewrite with_list_abs by eassumption;
  first [apply wp_bind; eapply wp_mono; [eapply lem; eassumption | |]
        | eapply wp_mono; [eapply lem; eassumption | |]].

Lemma refines_push s a x v : wf s -> abs s !! a = Some x -> refines (OPush a v) s.
Proof.
  intros W Hx. refine_change push_ok.
  - intros r s' (-> & Hok & B). apply wp_ret. now apply refines_change.
  - intros. now apply refines_exn.
Qed.

Lemma refines_pop s a x : wf s -> abs s !! a = Some x -> refines (OPop a) s.
Proof.
  intros W Hx. refine_change pop_ok.
  - intros r s' (Hok & -> & B). now apply refines_change.
  - intros. now apply refines_exn.
Qed.

Lemma refines_shift s a x : wf s -> abs s !! a = Some x -> refines (OShift a) s.
Proof.
  intros W Hx. refine_change shift_ok.
  - intros r s' (Hok & -> & B). now apply refines_change.
  - intros. now apply refines_exn.
Qed.

Lemma refines_unshift s a x v : wf s -> abs s !! a = Some x -> refines (OUnshift a v) s.
Proof.
  intros W Hx. refine_change unshift_ok.
  - intros r s' (-> & Hok & B). apply wp_ret. now apply refines_change.
  - intros e s' [He | [He _]]; [now apply refines_exn | now right].
Qed.

Lemma refines_unshift_m s a l :
  wf s -> in_range (OUnshiftM a l) (state s) = true -> refines (OUnshiftM a l) s.
Proof.
  intros W Hr. unfold in_range in Hr. in_range_split. breflect. unfold refines. cbn [exec].
  apply wp_bind. eapply wp_mono; [eapply unshift_m_ok; [exact W | eassumption | lia] | |].
  - intros r s' (-> & Hok & B). apply wp_ret. destruct l as [|v l]; cbn [spec]; erewrite with_list_abs by eassumption.
    + destruct B as [W' ->]. split; [exact W'|]. cbn [app]. rewrite with_elts_id.
      edestruct (becomes_self s s a x) as [_ Hs]; auto. now rewrite <- Hs.
    + destruct Hok as [|Hok]; [discriminate|]. now apply refines_change.
  - intros e s' [Hne He]. destruct l as [|v l]; [done|]. cbn [spec]; erewrite with_list_abs by eassumption.
    now apply refines_exn.
Qed.

Lemma refines_replace s a b x y :
  wf s -> abs s !! a = Some x -> abs s !! b = Some y -> refines (OReplace a b) s.
Proof.
  intros W Hx Hy. unfold refines. cbn [spec exec].
  rewrite (with_list_abs s a x), (with_list_abs s b y) by assumption.
  apply wp_bind; eapply wp_mono; [eapply replace_ok; eassumption | |].
  - intros r s' (-> & Hok & B). apply wp_ret. now apply refines_change.
  - intros. now apply refines_exn.
Qed.

Lemma refines_clear s a x : wf s -> abs s !! a = Some x -> refines (OClear a) s.
Proof.
  intros W Hx. refine_change clear_ok.
  - intros r s' (-> & Hok & B). apply wp_ret. now apply refines_change.
  - intros e s' [He | [-> _]]; [now apply refines_exn | right; left; reflexivity].
Qed.

Lemma refines_reverse s a x : wf s -> abs s !! a = Some x -> refines (OReverse a) s.
Proof.
  intros W Hx. refine_change list_reverse_ok.
  - intros r s' (-> & Hok & B). apply wp_ret. now apply refines_change.
  - intros. now apply refines_exn.
Qed.

Lemma refines_compact s a x : wf s -> abs s !! a = Some x -> refines (OCompact a) s.
Proof.
  intros W Hx. refine_change compact_bang_ok.
  - intros r s' (Hok & -> & B). apply wp_ret. case_decide; now apply refines_change.
  - intros e s' [He | [-> _]]; [now apply refines_exn | right; left; reflexivity].
Qed.

Lemma refines_delete_at s a i :
  wf s -> in_range (ODeleteAt a i) (state s) = true -> refines (ODeleteAt a i) s.
Proof.
  intros W Hr. unfold in_range, is_long in Hr. in_range_split. breflect.
  unfold refines; cbn [spec exec]; erewrite with_list_abs by eassumption.
  eapply wp_mono; [eapply delete_at_ok; [exact W | eassumption | lia] | |]; cbv zeta.
  - intros r s' H'. destruct (if from_end _ _ <? 0 then _ else _) as [v|].
    + destruct H' as (-> & Hok & B). now apply refines_change.
    + now destruct H' as [-> ->].
  - intros e s' [[v Hv] He]. rewrite Hv. now apply refines_exn.
Qed.

Lemma refines_concat s a b x y :
  wf s -> abs s !! a = Some x -> abs s !! b = Some y -> refines (OConcat a b) s.
Proof.
  intros W Hx Hy. unfold refines. cbn [spec exec].
  rewrite (with_list_abs s a x), (with_list_abs s b y) by assumption.
  apply wp_bind; eapply wp_mono; [eapply concat_ok; eassumption | |].
  - intros r s' [-> [[Hn ->] | (Hn & Hok & B)]]; apply wp_ret.
    + now rewrite Hn.
    + destruct (elts y) as [|v l]; [done|]. now apply refines_change.
  - intros e s' [Hn He]. destruct (elts y) as [|v l]; [done|]. now apply refines_exn.
Qed.

Lemma refines_freeze s a x : wf s -> abs s !! a = Some x -> refines (OFreeze a) s.
Proof.
  intros W Hx. refine_change freeze_ok.
  - intros r s' (-> & Hok & [W' B]). apply wp_ret. rewrite Hok. now rewrite B.
  - intros e s' (-> & -> & ->). left. auto.
Qed.

Lemma refines_entry s a i : wf s -> in_range (OEntry a i) (state s) = true -> refines (OEntry a i) s.
Proof.
  intros W Hr. unfold in_range, is_long in Hr. in_range_split. breflect.
  unfold refines; cbn [spec exec]; erewrite with_list_abs by eassumption.
  eapply wp_mono; [eapply entry_ok; [exact W | eassumption | lia] | |].
  - now intros r s' [-> ->].
  - done.
Qed.

Lemma refines_new_list s l : wf s -> in_range (ONew l) (state s) = true -> refines (ONew l) s.
Proof.
  intros W Hr. unfold in_range in Hr. breflect. unfold refines; cbn [spec exec].
  apply wp_bind. eapply wp_mono; [eapply new4_ok; [exact W | lia] | |].
  - intros r s' B. apply wp_ret. now apply refines_new.
  - intros e s' [_ He]. now right.
Qed.

Lemma refines_subseq s a beg len :
  wf s -> in_range (OSubseq a beg len) (state s) = true -> refines (OSubseq a beg len) s.
Proof.
  intros W Hr. unfold in_range in Hr. in_range_split. breflect.
  unfold refines; cbn [spec exec]; erewrite with_list_abs by eassumption.
  eapply wp_mono; [eapply subseq_ok; [exact W | eassumption | lia | lia] | |].
  - intros v s' H'. destruct (list_subseq _ _ _) as [l|].
    + destruct H' as (r & -> & B). now apply refines_new.
    + now destruct H' as [-> ->].
  - intros e s' [_ He]. now right.
Qed.

Lemma refines_dup s a x : wf s -> abs s !! a = Some x -> refines (ODup a) s.
Proof.
  intros W Hx. refine_change dup_ok.
  - intros r s' B. apply wp_ret. now apply refines_new.
  - intros e s' [_ He]. now right.
Qed.

Lemma refines_plus s a b x y :
  wf s -> abs s !! a = Some x -> abs s !! b = Some y -> refines (OPlus a b) s.
Proof.
  intros W Hx Hy. unfold refines. cbn [spec exec].
  rewrite (with_list_abs s a x), (with_list_abs s b y) by assumption.
  apply wp_bind; eapply wp_mono; [eapply plus_ok; eassumption | |].
  - intros r s' B. apply wp_ret. now apply refines_new.
  - intros e s' [_ He]. now right.
Qed.

Lemma list_of_abs s a x : abs s !! a = Some x -> list_of (state s) a = elts x.
Proof. unfold list_of. simpl. now intros ->. Qed.

Lemma refines_times s a n : wf s -> in_range (OTimes a n) (state s) = true -> refines (OTimes a n) s.
Proof.
  intros W Hr. unfold in_range, is_long in Hr. in_range_split.
  erewrite list_of_abs in * by eassumption. breflect.
  unfold refines; cbn [spec exec]; erewrite with_list_abs by eassumption.
  apply wp_bind. eapply wp_mono; [eapply times_ok; [exact W | eassumption | lia | lia] | |].
  - intros r s' [Hn B]. apply wp_ret. destruct (n <? 0) eqn:?; breflect; [lia|]. now apply refines_new.
  - intros e s' [_ He]. now right.
Qed.

Lemma refines_splice s a beg len rpl :
  wf s -> in_range (OSplice a beg len rpl) (state s) = true -> refines (OSplice a beg len rpl) s.
Proof.
  intros W Hr. unfold in_range in Hr. in_range_split. cbn [fst state] in *.
  destruct (splice_list (abs s) rpl) as [rs|] eqn:Hrs; [|discriminate]. in_range_split.
  erewrite list_of_abs in * by eassumption. breflect.
  unfold refines; cbn [spec exec]; erewrite with_list_abs by eassumption. cbn [fst state]. rewrite Hrs.
  cbv zeta. apply wp_bind.
  eapply wp_mono; [eapply splice_ok; [exact W | eassumption | exact Hrs | lia | lia | lia | lia | unfold ARY_MAX; lia] | |].
  - intros u s' (Hok & Hl & Hi & W' & Hs). apply wp_ret.
    destruct (_ || _) eqn:E; [breflect; destruct E; breflect; lia|].
    split; [exact W'|]. unfold change. now rewrite Hok, Hs.
  - intros e s' He. destruct (_ || _).
    + destruct He as [-> ->]. left. auto.
    + destruct He as [[W' _] [[He Hs]|He]]; [left | right; exact He].
      split; [exact W'|]. unfold change. now rewrite He, Hs.
Qed.

(** Every operation within its range does what the specification says. *)
Lemma step_refines o s : wf s -> in_range o (state s) = true -> refines o s.
Proof.
  intros W Hr. destruct o;
    first [ solve [eauto using refines_new_list, refines_store, refines_unshift_m, refines_entry,
              refines_subseq, refines_splice, refines_times, refines_delete_at]
          | unfold in_range in Hr; in_range_split; eauto using refines_push, refines_pop, refines_shift,
              refines_unshift, refines_concat, refines_replace, refines_dup, refines_plus, refines_clear,
              refines_reverse, refines_compact, refines_freeze ].
Qed.

(** ** Programs *)

(** A program goes on after an exception, except when it is one of sizes and
    memory. *)
Definition is_size_error (e : rb_error) : bool :=
  match e with NoMemoryError | ArgumentError => true | _ => false end.

(** The results, whether the program came to its end, and the memory; [None]
    if it crashed. *)
Fixpoint run (ops : list op) (s : memory) : option (list (rb_error + VALUE) * bool * memory) :=
  match ops with
  | [] => Some ([], true, s)
  | o :: ops =>
      match exec o s with
      | Val v s' =>
          match run ops s' with Some (r, b, s'') => Some (inr v :: r, b, s'') | None => None end
      | Exn e s' =>
          if is_size_error e then Some ([inl e], false, s') else
          match run ops s' with Some (r, b, s'') => Some (inl e :: r, b, s'') | None => None end
      | _ => None
      end
  end.

Fixpoint run_spec (ops : list op) (st : lists) : option (list (rb_error + VALUE) * lists) :=
  match ops with
  | [] => Some ([], st)
  | o :: ops =>
      match spec o st with
      | SVal v st' => match run_spec ops st' with Some (r, st'') => Some (inr v :: r, st'') | None => None end
      | SExn e st' => match run_spec ops st' with Some (r, st'') => Some (inl e :: r, st'') | None => None end
      | SBad => None
      end
  end.

(** Every operation is in its range when its turn comes. *)
Fixpoint all_in_range (ops : list op) (st : lists) : bool :=
  match ops with
  | [] => true
  | o :: ops =>
      in_range o st &&
      match spec o st with
      | SVal _ st' | SExn _ st' => all_in_range ops st'
      | SBad => false
      end
  end.

Lemma size_error_true e : is_size_error e = true <-> size_error e.
Proof. unfold size_error. destruct e; simpl; intuition discriminate. Qed.

Lemma run_spec_total ops st :
  all_in_range ops st = true -> exists r st', run_spec ops st = Some (r, st').
Proof.
  revert st; induction ops as [|o ops IH]; intros st H; simpl in *; [eauto|].
  apply andb_prop in H as [_ H].
  destruct (spec o st) as [v st1 | e st1 |]; [| |discriminate];
    destruct (IH st1 H) as (r & st' & ->); eauto.
Qed.

(** C13: A program of array operations (making, storing, pushing, popping, shifting, unshifting, reading, slicing, splicing, concatenating, replacing, copying, adding, repeating, clearing, reversing, deleting, compacting, freezing, in any order, on arrays that share blocks or not, an array put into itself included) never reads or writes outside a block, or a freed block, or a word that was never written, as long as the arguments of its operations are in range: begin plus length of a slice or splice is at most LONG_MAX, indices of stores and the sizes of added lists are bounded.  Its results and exceptions are those of the same program on lists, where copying is copying and nothing is shared, unless it stops because memory runs out or a size is refused, and then they are a prefix of them. *)
Theorem array_program_refines ops s :
  wf s -> all_in_range ops (state s) = true ->
  exists outs fin s' souts st',
    run ops s = Some (outs, fin, s') /\ run_spec ops (state s) = Some (souts, st') /\
    if (fin : bool) then outs = souts /\ wf s' /\ state s' = st'
    else exists k e, outs = take k souts ++ [inl e] /\ is_size_error e = true.
Proof.
  revert s; induction ops as [|o ops IH]; intros s W Hr; simpl.
  - do 5 eexists. split; [reflexivity | split; [reflexivity | auto]].
  - pose proof (run_spec_total (o :: ops) (state s) Hr) as (souts & st' & Hspec).
    simpl in Hr, Hspec |- *. apply andb_prop in Hr as [Ho Hr].
    pose proof (step_refines o s W Ho) as Hs. unfold refines, wp in Hs.
    destruct (exec o s) as [v s1 | e s1 | | | ]; try done.
    + destruct Hs as [W1 Hs]. rewrite Hs in *.
      destruct (IH s1 W1 Hr) as (outs & fin & s2 & so & st2 & -> & -> & Hfin).
      do 5 eexists. split; [reflexivity | split; [reflexivity|]]. destruct fin.
      * destruct Hfin as (-> & W2 & H2). auto.
      * destruct Hfin as (k & e & -> & He). now exists (S k), e.
    + destruct (is_size_error e) eqn:Ee.
      * rewrite Hspec. do 5 eexists. split; [reflexivity | split; [reflexivity|]]. now exists 0%nat, e.
      * destruct Hs as [[W1 Hs] | He]; [|apply size_error_true in He; congruence].
        rewrite Hs in *. destruct (IH s1 W1 Hr) as (outs & fin & s2 & so & st2 & -> & -> & Hfin).
        do 5 eexists. split; [reflexivity | split; [reflexivity|]]. destruct fin.
        -- destruct Hfin as (-> & W2 & H2). auto.
        -- destruct Hfin as (k & e' & -> & He'). now exists (S k), e'.
Qed.
End Refine.

(** ** A program *)

(** Slices share the block with the first array, which is then put into
    itself, lengthened, frozen and changed in vain. *)
Definition program : list op :=
  [ONew [Num 1; Num 2; Num 3]; OSubseq 1 1 2; OPush 2 (Num 9); OShift 1; OStore 1 3 (Num 7);
   OSplice 1 1 1 (Ary 1); OConcat 2 1; OFreeze 1; OPop 1; ODup 1; OReverse 3; OEntry 3 (-1)].

Example program_results :
  option_map (fun '(outs, _, s) => (outs, elts <$> (abs s !! 1%positive), elts <$> (abs s !! 2%positive)))
    (@run plenty program empty_memory) =
  Some ([inr (Ary 1); inr (Ary 2); inr (Ary 2); inr (Num 1); inr (Num 7); inr (Ary 1); inr (Ary 2); inr (Ary 1);
         inl TypeError; inr (Ary 3); inr (Ary 3); inr (Num 2)],
        Some [Num 2; Num 2; Num 3; Qnil; Num 7; Qnil; Num 7],
        Some [Num 2; Num 3; Num 9; Num 2; Num 2; Num 3; Qnil; Num 7; Qnil; Num 7]).
Proof. vm_compute. reflexivity. Qed.

Lemma array_program_refines_witness :
  exists outs fin s' souts st',
    @run plenty program empty_memory = Some (outs, fin, s') /\
    @run_spec plenty program (state empty_memory) = Some (souts, st') /\
    if (fin : bool) then outs = souts /\ wf s' /\ state s' = st'
    else exists k e, outs = take k souts ++ [inl e] /\ is_size_error e = true.
Proof.
  apply (@array_program_refines plenty program empty_memory); [exact wf_empty | vm_compute; reflexivity].
Defined.
