(* ===== verification/ArrayIter.v ===== *)
(** * Arrays: the methods that call back

    The methods of array.c that run a block or [==], which are any programs
    over the memory: the block may push to the array, clear it, share it or
    iterate over it again.  A loop has fuel, since a block can keep it going
    for ever. *)

From Stdlib Require Import ZArith Lia List Bool.
From stdpp Require Import base list gmap.
From S2P Require Import Prelude CInt ArrayMem Array ArrayInv ArrayOps.
Local Open Scope Z_scope.
Local Open Scope array_scope.

Section Iter.
Context {machine : Machine}.

(** The block, and [rb_equal]. *)
Context (rb_yield : VALUE -> M VALUE) (rb_equal : VALUE -> VALUE -> M bool).

(** [for (i=0; i<RARRAY(ary)->len; i++) rb_yield(RARRAY(ary)->ptr[i])] *)
Fixpoint each_loop (fuel : nat) (ary : positive) (i : Z) : M unit :=
  o <- get ary ;;
  if i <? a_len o then
    match fuel with
    | O => timeout
    | S fuel =>
        v <- load (a_ptr o) i ;;
        _ <- rb_yield v ;;
        each_loop fuel ary (i + 1)
    end
  else ret tt.

Definition rb_ary_each (fuel : nat) (ary : positive) : M positive :=
  each_loop fuel ary 0 ;;; ret ary.

Fixpoint each_index_loop (fuel : nat) (ary : positive) (i : Z) : M unit :=
  o <- get ary ;;
  if i <? a_len o then
    match fuel with
    | O => timeout
    | S fuel => _ <- rb_yield (Num i) ;; each_index_loop fuel ary (i + 1)
    end
  else ret tt.

Definition rb_ary_each_index (fuel : nat) (ary : positive) : M positive :=
  each_index_loop fuel ary 0 ;;; ret ary.

(** [while (len--)]; an array that got shorter is gone on with from its end. *)
Fixpoint reverse_each_loop (fuel : nat) (ary : positive) (len : Z) : M unit :=
  if len =? 0 then ret tt else
  match fuel with
  | O => timeout
  | S fuel =>
      let len := len - 1 in
      o <- get ary ;;
      v <- load (a_ptr o) len ;;
      _ <- rb_yield v ;;
      o <- get ary ;;
      reverse_each_loop fuel ary (if a_len o <? len then a_len o else len)
  end.

Definition rb_ary_reverse_each (fuel : nat) (ary : positive) : M positive :=
  o <- get ary ;;
  reverse_each_loop fuel ary (a_len o) ;;;
  ret ary.

Fixpoint index_loop (fuel : nat) (ary : positive) (val : VALUE) (i : Z) : M VALUE :=
  o <- get ary ;;
  if i <? a_len o then
    match fuel with
    | O => timeout
    | S fuel =>
        v <- load (a_ptr o) i ;;
        eq <- rb_equal v val ;;
        if (eq : bool) then ret (Num i) else index_loop fuel ary val (i + 1)
    end
  else ret Qnil.

Definition rb_ary_index (fuel : nat) (ary : positive) (val : VALUE) : M VALUE := index_loop fuel ary val 0.

Fixpoint includes_loop (fuel : nat) (ary : positive) (item : VALUE) (i : Z) : M bool :=
  o <- get ary ;;
  if i <? a_len o then
    match fuel with
    | O => timeout
    | S fuel =>
        v <- load (a_ptr o) i ;;
        eq <- rb_equal v item ;;
        if (eq : bool) then ret true else includes_loop fuel ary item (i + 1)
    end
  else ret false.

Definition rb_ary_includes (fuel : nat) (ary : positive) (item : VALUE) : M bool := includes_loop fuel ary item 0.

(** [while (i--)]; the test of [i] against the length lets [i] equal it. *)
Fixpoint rindex_loop (fuel : nat) (ary : positive) (val : VALUE) (i : Z) : M VALUE :=
  if i =? 0 then ret Qnil else
  match fuel with
  | O => timeout
  | S fuel =>
      let i := i - 1 in
      o <- get ary ;;
      if a_len o <? i then rindex_loop fuel ary val (a_len o) else
      v <- load (a_ptr o) i ;;
      eq <- rb_equal v val ;;
      if (eq : bool) then ret (Num i) else rindex_loop fuel ary val i
  end.

Definition rb_ary_rindex (fuel : nat) (ary : positive) (val : VALUE) : M VALUE :=
  o <- get ary ;; rindex_loop fuel ary val (a_len o).

Fixpoint collect_loop (fuel : nat) (collect ary : positive) (i : Z) : M unit :=
  o <- get ary ;;
  if i <? a_len o then
    match fuel with
    | O => timeout
    | S fuel =>
        v <- load (a_ptr o) i ;;
        w <- rb_yield v ;;
        rb_ary_push collect w ;;;
        collect_loop fuel collect ary (i + 1)
    end
  else ret tt.

Definition rb_ary_collect (fuel : nat) (ary : positive) : M positive :=
  o <- get ary ;;
  collect <- rb_ary_new2 (a_len o) ;;
  collect_loop fuel collect ary 0 ;;;
  ret collect.

Fixpoint collect_bang_loop (fuel : nat) (ary : positive) (i : Z) : M unit :=
  o <- get ary ;;
  if i <? a_len o then
    match fuel with
    | O => timeout
    | S fuel =>
        v <- load (a_ptr o) i ;;
        w <- rb_yield v ;;
        rb_ary_store ary i w ;;;
        collect_bang_loop fuel ary (i + 1)
    end
  else ret tt.

Definition rb_ary_collect_bang (fuel : nat) (ary : positive) : M positive :=
  rb_ary_modify ary ;;;
  collect_bang_loop fuel ary 0 ;;;
  ret ary.

Fixpoint select_loop (fuel : nat) (result ary : positive) (i : Z) : M unit :=
  o <- get ary ;;
  if i <? a_len o then
    match fuel with
    | O => timeout
    | S fuel =>
        v <- load (a_ptr o) i ;;
        w <- rb_yield v ;;
        (if RTEST w then e <- rb_ary_elt ary i ;; rb_ary_push result e ;;; ret tt else ret tt) ;;;
        select_loop fuel result ary (i + 1)
    end
  else ret tt.

Definition rb_ary_select (fuel : nat) (ary : positive) : M positive :=
  o <- get ary ;;
  result <- rb_ary_new2 (a_len o) ;;
  select_loop fuel result ary 0 ;;;
  ret result.

(** The result is [i2]. *)
Fixpoint reject_loop (fuel : nat) (ary : positive) (i1 i2 : Z) : M Z :=
  o <- get ary ;;
  if i1 <? a_len o then
    match fuel with
    | O => timeout
    | S fuel =>
        v <- load (a_ptr o) i1 ;;
        w <- rb_yield v ;;
        if RTEST w then reject_loop fuel ary (i1 + 1) i2 else
        (if negb (i1 =? i2) then rb_ary_store ary i2 v else ret tt) ;;;
        reject_loop fuel ary (i1 + 1) (i2 + 1)
    end
  else ret i2.

Definition rb_ary_reject_bang (fuel : nat) (ary : positive) : M VALUE :=
  rb_ary_modify ary ;;;
  i2 <- reject_loop fuel ary 0 0 ;;
  o <- get ary ;;
  if a_len o =? i2 then ret Qnil else
  (if i2 <? a_len o then upd ary (set_len i2) else ret tt) ;;;
  ret (Ary ary).

Fixpoint delete_items_loop (fuel : nat) (ary : positive) (item : VALUE) (i1 i2 : Z) : M Z :=
  o <- get ary ;;
  if i1 <? a_len o then
    match fuel with
    | O => timeout
    | S fuel =>
        e <- load (a_ptr o) i1 ;;
        eq <- rb_equal e item ;;
        if (eq : bool) then delete_items_loop fuel ary item (i1 + 1) i2 else
        (if negb (i1 =? i2) then rb_ary_store ary i2 e else ret tt) ;;;
        delete_items_loop fuel ary item (i1 + 1) (i2 + 1)
    end
  else ret i2.

(** Without a block. *)
Definition rb_ary_delete (fuel : nat) (ary : positive) (item : VALUE) : M VALUE :=
  i2 <- delete_items_loop fuel ary item 0 0 ;;
  o <- get ary ;;
  if a_len o =? i2 then ret Qnil else
  rb_ary_modify ary ;;;
  o <- get ary ;;
  (if i2 <? a_len o then
     upd ary (set_len i2) ;;;
     capa <- get_capa ary ;;
     (if (s32 (i2 * 2) <? capa) && (ARY_DEFAULT_SIZE <? capa) then
        REALLOC_N ary (s32 (i2 * 2)) ;;;
        upd ary (set_aux (Capa (s32 (i2 * 2))))
      else ret tt)
   else ret tt) ;;;
  ret item.

(** With a block; [v] is stored where the array was before the block ran. *)
Fixpoint fill_block_loop (fuel : nat) (ary : positive) (i end_ : Z) : M unit :=
  if i <? end_ then
    match fuel with
    | O => timeout
    | S fuel =>
        v <- rb_yield (Num i) ;;
        o <- get ary ;;
        if a_len o <=? i then ret tt else
        store (a_ptr o) i v ;;;
        fill_block_loop fuel ary (i + 1) end_
    end
  else ret tt.

Definition rb_ary_fill_block (fuel : nat) (argv : list VALUE) (ary : positive) : M positive :=
  o <- get ary ;;
  '(beg, len) <- fill_range argv (a_len o) ;;
  end_ <- fill_extend ary beg len ;;
  fill_block_loop fuel ary beg end_ ;;;
  ret ary.

(** The loop of [rb_ary_initialize] with a block. *)
Fixpoint initialize_loop (fuel : nat) (ary : positive) (i len : Z) : M unit :=
  if i <? len then
    match fuel with
    | O => timeout
    | S fuel =>
        v <- rb_yield (Num i) ;;
        rb_ary_store ary i v ;;;
        upd ary (set_len (i + 1)) ;;;
        initialize_loop fuel ary (i + 1) len
    end
  else ret tt.

Fixpoint equal_loop (fuel : nat) (ary1 ary2 : positive) (i : Z) : M bool :=
  o <- get ary1 ;;
  if i <? a_len o then
    match fuel with
    | O => timeout
    | S fuel =>
        x <- rb_ary_elt ary1 i ;;
        y <- rb_ary_elt ary2 i ;;
        eq <- rb_equal x y ;;
        if (eq : bool) then equal_loop fuel ary1 ary2 (i + 1) else ret false
    end
  else ret true.

(** Of two arrays. *)
Definition rb_ary_equal (fuel : nat) (ary1 ary2 : positive) : M bool :=
  if (ary1 =? ary2)%positive then ret true else
  o1 <- get ary1 ;;
  o2 <- get ary2 ;;
  if negb (a_len o1 =? a_len o2) then ret false else
  equal_loop fuel ary1 ary2 0.

End Iter.

(** ** Safety *)

Section Safety.
Context {machine : Machine}.

(** Arrays stay arrays. *)
Definition alive (s s' : memory) : Prop := forall a, is_Some (abs s !! a) -> is_Some (abs s' !! a).

(** [m] keeps the invariant from [s] on and does not crash; it may raise, hand
    over or run for ever. *)
Definition ok_step {A} (s : memory) (m : M A) : Prop :=
  match m s with
  | Val _ s' | Exn _ s' => wf s' /\ alive s s'
  | Crash => False
  | Handover | Timeout => True
  end.

(** The same with a property of the result, relative to an earlier state. *)
Definition safe_from {A} (s0 : memory) (m : M A) (s : memory) (Q : A -> memory -> Prop) : Prop :=
  match m s with
  | Val a s' => Q a s'
  | Exn _ s' => wf s' /\ alive s0 s'
  | Crash => False
  | Handover | Timeout => True
  end.

Lemma alive_refl s : alive s s.
Proof. intros a H. exact H. Qed.

Lemma alive_trans s1 s2 s3 : alive s1 s2 -> alive s2 s3 -> alive s1 s3.
Proof. intros H1 H2 a H. auto. Qed.

Lemma alive_kept s s' : kept s s' -> alive s s'.
Proof. intros [_ H] a [x Hx]. exists x. eapply lookup_weaken; eauto. Qed.

Lemma alive_becomes s a x s' : becomes s a x s' -> alive s s'.
Proof.
  intros [_ H] b Hb. injection H as -> _.
  destruct (decide (b = a)) as [-> | Hne]; [rewrite lookup_insert_eq; eauto | now rewrite lookup_insert_ne by congruence].
Qed.

Lemma sf_bind {A C} s0 (m : M A) (k : A -> M C) s Q :
  safe_from s0 m s (fun a s' => safe_from s0 (k a) s' Q) -> safe_from s0 (bindM m k) s Q.
Proof. unfold safe_from, bindM. now destruct (m s). Qed.

Lemma sf_ret {A} s0 (a : A) s (Q : A -> memory -> Prop) : Q a s -> safe_from s0 (ret a) s Q.
Proof. done. Qed.

Lemma sf_step {A} s0 (m : M A) s (Q : A -> memory -> Prop) :
  ok_step s m -> alive s0 s -> (forall a s', wf s' -> alive s0 s' -> alive s s' -> Q a s') -> safe_from s0 m s Q.
Proof.
  unfold safe_from, ok_step. intros H Ha HQ. destruct (m s) as [a s' | e s' | | | ]; auto.
  - destruct H as [W H]. apply HQ; auto. eapply alive_trans; eauto.
  - destruct H as [W H]. split; [exact W | eapply alive_trans; eauto].
Qed.

Lemma sf_wp {A} s0 (m : M A) s (Q : A -> memory -> Prop) E :
  wp m s Q E -> (forall e s', E e s' -> wf s' /\ alive s0 s') -> safe_from s0 m s Q.
Proof. unfold safe_from, wp. intros H HE. destruct (m s); [exact H | eapply HE; exact H | done | done | done]. Qed.

Lemma step_wp {A} (m : M A) s Q E :
  wp m s Q E -> (forall a s', Q a s' -> wf s' /\ alive s s') -> (forall e s', E e s' -> wf s' /\ alive s s') ->
  ok_step s m.
Proof. unfold ok_step, wp. intros H HQ HE. destruct (m s); eauto. Qed.

Lemma modify_exn_ok s x e s' : modify_exn s x e s' -> wf s' /\ alive s s'.
Proof. intros [K _]. split; [apply K | now apply alive_kept]. Qed.

Lemma becomes_ok s a x s' : becomes s a x s' -> wf s' /\ alive s s'.
Proof. intros B. split; [apply B | eapply alive_becomes; eauto]. Qed.

Lemma fresh_ok s l t r s' : wf s -> fresh_list s l t r s' -> wf s' /\ alive s s'.
Proof. intros W F. pose proof (fresh_kept _ _ _ _ _ W F) as K. split; [apply K | now apply alive_kept]. Qed.

(** ** The steps of the loops *)

Lemma sf_get s0 s a (Q : RArray -> memory -> Prop) :
  is_Some (abs s !! a) ->
  (forall o x, arys s !! a = Some o -> view s o = Some (elts x) -> abs s !! a = Some x -> Q o s) ->
  safe_from s0 (get a) s Q.
Proof.
  intros [x Hx] HQ. destruct (abs_get _ _ _ Hx) as (o & Ho & Hv & _).
  unfold safe_from, get. rewrite Ho. eauto.
Qed.

Lemma sf_load s0 s a o x i (Q : VALUE -> memory -> Prop) :
  wf s -> arys s !! a = Some o -> view s o = Some (elts x) -> 0 <= i < a_len o ->
  (forall v, Q v s) -> safe_from s0 (load (a_ptr o) i) s Q.
Proof.
  intros W Ho Hv Hi HQ. destruct (ary_len _ _ _ _ W Ho Hv) as [Hl Hlb].
  destruct (lookup_lt_is_Some_2 (elts x) (Z.to_nat i)) as [v Hget]; [lia|].
  eapply sf_wp; [eapply wp_load_view; [exact Hv | lia | exact Hget | apply HQ] |].
  instantiate (1 := fun _ _ => False). done.
Qed.

Lemma step_push s a v : wf s -> is_Some (abs s !! a) -> ok_step s (rb_ary_push a v).
Proof.
  intros W [x Hx]. eapply step_wp; [exact (push_ok s a x v W Hx) | |].
  - intros r s' (_ & _ & B). eapply becomes_ok; eauto.
  - apply modify_exn_ok.
Qed.

Lemma step_store s a i v : wf s -> is_Some (abs s !! a) -> 0 <= i < 2 ^ 30 -> ok_step s (rb_ary_store a i v).
Proof.
  intros W [x Hx] Hi. eapply step_wp; [apply (store_ok s a x); auto; change LONG_MIN with (-2147483648); lia | |].
  - intros r s' (_ & _ & B). eapply becomes_ok; eauto.
  - intros e s' He. unfold index_exn in He. destruct (_ <? 0).
    + destruct He as [_ ->]. split; [exact W | apply alive_refl].
    + eapply modify_exn_ok; eauto.
Qed.

Lemma step_modify s a : wf s -> is_Some (abs s !! a) -> ok_step s (rb_ary_modify a).
Proof.
  intros W [x Hx]. eapply step_wp; [eapply (modify_ok s a x) with (Q := fun _ s' => wf s' /\ alive s s')
    (E := modify_exn s x); [exact W | exact Hx | |] | auto | apply modify_exn_ok].
  - intros e He. now apply modify_exn_start.
  - intros _ s' o cs c O Hf. eapply becomes_ok, owned_becomes; eauto.
Qed.

Lemma step_elt s a i : wf s -> is_Some (abs s !! a) -> ok_step s (rb_ary_elt a i).
Proof.
  intros W [x Hx]. eapply step_wp; [exact (elt_ok s a x i W Hx) | | done].
  intros r s' [-> _]. split; [exact W | apply alive_refl].
Qed.

(** Cutting an array short, whoever owns the block. *)
Lemma truncate_ok s a x n (Q : unit -> memory -> Prop) E :
  wf s -> abs s !! a = Some x -> 0 <= n <= Z.of_nat (length (elts x)) ->
  (forall s', becomes s a (with_elts x (take (Z.to_nat n) (elts x))) s' -> Q tt s') ->
  wp (upd a (set_len n)) s Q E.
Proof.
  intros W Hx Hn HQ. destruct (abs_get _ _ _ Hx) as (o & Ho & Hv & Heq).
  destruct (ary_len _ _ _ _ W Ho Hv) as [Hl Hlb]. destruct (a_aux o) as [c|r] eqn:Ex.
  - destruct (focus_start _ _ _ _ W Ho Ex) as (cs & l0 & O & Hv2). rewrite Hv in Hv2. injection Hv2 as <-.
    eapply owned_truncate; [exact O | lia |]. intros s2 O2. apply HQ.
    eapply owned_becomes; [exact O2|]. rewrite Heq at 2. reflexivity.
  - pose proof (view_sub s o _ 0 n (proj1 Hlb) Hv) as Hsub. rewrite padd_0, drop_0 in Hsub.
    eapply shared_upd; [exact W | exact Ho | exact Ex | reflexivity | exact Ex | reflexivity | | |].
    + etransitivity; [|apply Hsub; lia]. apply view_ext. reflexivity.
    + simpl. change ARY_MAX with 536870912. lia.
    + intros s' W' Ha' _ _ Hn'. apply HQ. apply (becomes_intro s s' a o); auto.
      rewrite Ha'. f_equal. rewrite Heq at 2. reflexivity.
Qed.

Lemma step_truncate s a x n :
  wf s -> abs s !! a = Some x -> 0 <= n <= Z.of_nat (length (elts x)) -> ok_step s (upd a (set_len n)).
Proof.
  intros W Hx Hn.
  apply (step_wp _ s (fun _ s' => wf s' /\ alive s s') (fun _ _ => False)); [| auto | done].
  eapply truncate_ok; [exact W | exact Hx | exact Hn |]. intros s' B. eapply becomes_ok; eauto.
Qed.

Lemma new2_ok s n : wf s -> 0 <= n < ARY_MAX ->
  wp (rb_ary_new2 n) s (fun r s' => fresh_list s [] tainted_by_level r s') (alloc_exn s).
Proof.
  intros W Hn. change ARY_MAX with 536870912 in Hn.
  apply wp_new2; [exact W | lia | intros e s' K H1 H2; eapply new2_exn; eauto |].
  intros _ s1 d cs c F Hc Hld Hf Hcn Hcc Hm. eapply fresh_owned; [exact W | reflexivity | | exact Hf].
  constructor; [exact F | exact Hc | exact Hld | simpl; lia | exact Hm | reflexivity].
Qed.

Lemma alloc_exn_ok s e s' : alloc_exn s e s' -> wf s' /\ alive s s'.
Proof. intros [K _]. split; [apply K | now apply alive_kept]. Qed.

Lemma fresh_alive s l t r s' : fresh_list s l t r s' -> is_Some (abs s' !! r).
Proof. intros [-> [_ Hs]]. injection Hs as -> _. rewrite lookup_insert_eq. eauto. Qed.

(** ** The loops

    A block or [==] that is safe from the state [s0] on, where the method
    starts: it may use any array that is there.  [b] is the state where the
    loop starts. *)
Section Loops.
Context (rb_yield : VALUE -> M VALUE) (rb_equal : VALUE -> VALUE -> M bool) (s0 b : memory).
Context (Hyield : forall v s, wf s -> alive s0 s -> ok_step s (rb_yield v)).
Context (Hequal : forall v w s, wf s -> alive s0 s -> ok_step s (rb_equal v w)).
Context (Hb : alive s0 b).

Definition good (s : memory) : Prop := wf s /\ alive b s.

Lemma good_get s a (Q : RArray -> memory -> Prop) :
  good s -> is_Some (abs b !! a) ->
  (forall o x, 0 <= a_len o < ARY_MAX -> arys s !! a = Some o -> view s o = Some (elts x) -> abs s !! a = Some x ->
     a_len o = Z.of_nat (length (elts x)) -> Q o s) ->
  safe_from b (get a) s Q.
Proof.
  intros [W A] Ha HQ. apply sf_get; [auto|]. intros o x Ho Hv Hx.
  destruct (ary_len _ _ _ _ W Ho Hv) as [Hl Hlb]. now apply (HQ o x).
Qed.

Lemma good_load s a o x i (Q : VALUE -> memory -> Prop) :
  good s -> arys s !! a = Some o -> view s o = Some (elts x) -> 0 <= i < a_len o ->
  (forall v, Q v s) -> safe_from b (load (a_ptr o) i) s Q.
Proof. intros [W _]. now apply sf_load. Qed.

Lemma good_step {A} (m : M A) s (Q : A -> memory -> Prop) :
  good s -> ok_step s m -> (forall a s', good s' -> Q a s') -> safe_from b m s Q.
Proof.
  intros [W A'] Hm HQ. eapply sf_step; [exact Hm | exact A' |]. intros a s' W' A1 _. apply HQ. now split.
Qed.

Lemma good_yield s v : good s -> ok_step s (rb_yield v).
Proof. intros [W A]. apply Hyield; [exact W | eapply alive_trans; eauto]. Qed.

Lemma good_equal s v w : good s -> ok_step s (rb_equal v w).
Proof. intros [W A]. apply Hequal; [exact W | eapply alive_trans; eauto]. Qed.

Lemma good_push s a v : good s -> is_Some (abs b !! a) -> ok_step s (rb_ary_push a v).
Proof. intros [W A] Ha. apply step_push; auto. Qed.

Lemma good_store s a i v : good s -> is_Some (abs b !! a) -> 0 <= i < 2 ^ 30 -> ok_step s (rb_ary_store a i v).
Proof. intros [W A] Ha Hi. apply step_store; auto. Qed.

Lemma good_elt s a i : good s -> is_Some (abs b !! a) -> ok_step s (rb_ary_elt a i).
Proof. intros [W A] Ha. apply step_elt; auto. Qed.

Lemma good_modify s a : good s -> is_Some (abs b !! a) -> ok_step s (rb_ary_modify a).
Proof. intros [W A] Ha. apply step_modify; auto. Qed.

Lemma good_truncate s a x n :
  good s -> abs s !! a = Some x -> 0 <= n <= Z.of_nat (length (elts x)) -> ok_step s (upd a (set_len n)).
Proof. intros [W _]. apply step_truncate; auto. Qed.

Hint Resolve good_yield good_equal good_push good_store good_elt good_modify good_truncate : iter.
Hint Extern 1 (0 <= _ < 2 ^ 30) => change ARY_MAX with 536870912 in *; change (2 ^ 30) with 1073741824; lia : iter.
Hint Extern 1 (0 <= _ <= _) => change ARY_MAX with 536870912 in *; lia : iter.
Hint Extern 1 (0 <= _ < _) => change ARY_MAX with 536870912 in *; lia : iter.

(** Steps over a loop's body. *)
Ltac it_step :=
  match goal with
  | |- safe_from _ (bindM _ _) _ _ => apply sf_bind
  | |- safe_from _ (ret _) _ _ => apply sf_ret
  | |- safe_from _ timeout _ _ => exact I
  | |- safe_from _ (if ?c then _ else _) _ _ => destruct c eqn:?; breflect
  | |- safe_from _ (get _) _ _ => apply good_get; [assumption | assumption | intros ? ? ? ? ? ? ?]
  | |- safe_from _ (load _ _) _ _ => eapply good_load; [eassumption | eassumption | eassumption | lia | intros ?]
  | IH : forall _, _ -> safe_from _ (?f _ _ _) _ _ |- safe_from _ (?f _ _ _) _ _ => apply IH
  | |- safe_from _ _ _ _ => eapply good_step; [assumption | solve [eauto with iter] | intros ? ? ?]
  end.
Ltac it_steps := repeat (it_step; cbv beta zeta); try assumption.

Context (ary : positive) (Ha : is_Some (abs b !! ary)).

Lemma each_loop_safe fuel : forall i s, good s -> 0 <= i ->
  safe_from b (each_loop rb_yield fuel ary i) s (fun _ => good).
Proof.
  induction fuel as [|fuel IH]; intros i s G Hi; simpl; it_steps; apply IH; [assumption | lia].
Qed.

Lemma each_index_loop_safe fuel : forall i s, good s -> 0 <= i ->
  safe_from b (each_index_loop rb_yield fuel ary i) s (fun _ => good).
Proof.
  induction fuel as [|fuel IH]; intros i s G Hi; simpl; it_steps; apply IH; [assumption | lia].
Qed.

Lemma reverse_each_loop_safe fuel : forall len s x, good s -> abs s !! ary = Some x -> 0 <= len <= Z.of_nat (length (elts x)) ->
  safe_from b (reverse_each_loop rb_yield fuel ary len) s (fun _ => good).
Proof.
  induction fuel as [|fuel IH]; intros len s x G Hx Hlen; simpl; it_steps;
    match goal with H1 : abs ?t !! ary = Some ?y, H2 : abs ?t !! ary = Some ?z |- _ => simplify_eq end; it_steps.
  eapply IH; [assumption | eassumption |]. destruct (_ <? _) eqn:?; breflect; lia.
Qed.

Lemma index_loop_safe fuel val : forall i s, good s -> 0 <= i ->
  safe_from b (index_loop rb_equal fuel ary val i) s (fun _ => good).
Proof.
  induction fuel as [|fuel IH]; intros i s G Hi; simpl; it_steps; apply IH; [assumption | lia].
Qed.

Lemma includes_loop_safe fuel item : forall i s, good s -> 0 <= i ->
  safe_from b (includes_loop rb_equal fuel ary item i) s (fun _ => good).
Proof.
  induction fuel as [|fuel IH]; intros i s G Hi; simpl; it_steps; apply IH; [assumption | lia].
Qed.

Lemma collect_loop_safe fuel collect : is_Some (abs b !! collect) -> forall i s, good s -> 0 <= i ->
  safe_from b (collect_loop rb_yield fuel collect ary i) s (fun _ => good).
Proof.
  intros Hc. induction fuel as [|fuel IH]; intros i s G Hi; simpl; it_steps; apply IH; [assumption | lia].
Qed.

Lemma collect_bang_loop_safe fuel : forall i s, good s -> 0 <= i ->
  safe_from b (collect_bang_loop rb_yield fuel ary i) s (fun _ => good).
Proof.
  induction fuel as [|fuel IH]; intros i s G Hi; simpl; it_steps; apply IH; [assumption | lia].
Qed.

Lemma select_loop_safe fuel result : is_Some (abs b !! result) -> forall i s, good s -> 0 <= i ->
  safe_from b (select_loop rb_yield fuel result ary i) s (fun _ => good).
Proof.
  intros Hr. induction fuel as [|fuel IH]; intros i s G Hi; simpl; it_steps; apply IH; try assumption; lia.
Qed.

(** The second index stays behind the first. *)
Lemma reject_loop_safe fuel : forall i1 i2 s, good s -> 0 <= i2 <= i1 ->
  safe_from b (reject_loop rb_yield fuel ary i1 i2) s (fun i s' => good s' /\ 0 <= i).
Proof.
  induction fuel as [|fuel IH]; intros i1 i2 s G Hi; simpl; it_steps;
    try (split; [assumption | lia]); apply IH; try assumption; lia.
Qed.

Lemma delete_items_loop_safe fuel item : forall i1 i2 s, good s -> 0 <= i2 <= i1 ->
  safe_from b (delete_items_loop rb_equal fuel ary item i1 i2) s (fun i s' => good s' /\ 0 <= i).
Proof.
  induction fuel as [|fuel IH]; intros i1 i2 s G Hi; simpl; it_steps;
    try (split; [assumption | lia]); apply IH; try assumption; lia.
Qed.

Lemma equal_loop_safe fuel ary2 : is_Some (abs b !! ary2) -> forall i s, good s -> 0 <= i ->
  safe_from b (equal_loop rb_equal fuel ary ary2 i) s (fun _ => good).
Proof.
  intros H2. induction fuel as [|fuel IH]; intros i s G Hi; simpl; it_steps; apply IH; [assumption | lia].
Qed.

Lemma index_exn_ok s x i e s' : wf s -> index_exn s x i e s' -> wf s' /\ alive s s'.
Proof.
  intros W. unfold index_exn. destruct (i <? 0); [|apply modify_exn_ok].
  intros [_ ->]. split; [exact W | apply alive_refl].
Qed.

Lemma becomes_lookup s a x s' : becomes s a x s' -> abs s' !! a = Some x.
Proof. intros [_ Hs]. injection Hs as -> _. apply lookup_insert_eq. Qed.

Lemma from_end_pos l i : 0 <= i -> from_end l i = i.
Proof. unfold from_end. intros Hi. destruct (i <? 0) eqn:?; breflect; [lia | reflexivity]. Qed.

Lemma initialize_loop_safe fuel len : len <= 2 ^ 30 -> forall i s, good s -> 0 <= i ->
  safe_from b (initialize_loop rb_yield fuel ary i len) s (fun _ => good).
Proof.
  intros Hlen. change (2 ^ 30) with 1073741824 in Hlen.
  induction fuel as [|fuel IH]; intros i s G Hi; simpl; [now it_steps|].
  it_step; [|now apply sf_ret]. do 2 it_step. cbv beta.
  match goal with G1 : good ?t |- safe_from _ (bindM (rb_ary_store _ _ _) _) ?t _ =>
    destruct G1 as [W1 A1]; destruct (A1 ary Ha) as [x Hx] end.
  apply sf_bind. eapply sf_wp; [eapply wp_mono|].
  - apply (store_ok _ ary x i a W1 Hx). change LONG_MIN with (-2147483648). change (2 ^ 30) with 1073741824. lia.
  - simpl. intros _ s1 (_ & Hi1 & B). rewrite from_end_pos in * by exact Hi.
    destruct (becomes_ok _ _ _ _ B) as [W2 A2]. assert (good s1) as G2 by (split; [assumption | eapply alive_trans; eauto]).
    apply sf_bind. eapply good_step; [exact G2 | eapply good_truncate; [exact G2 | eapply becomes_lookup; exact B |] |].
    + simpl. unfold list_store. destruct (_ <? _)%nat eqn:El.
      * apply Nat.ltb_lt in El. rewrite length_insert. lia.
      * apply Nat.ltb_ge in El. rewrite !length_app. unfold nils. rewrite length_replicate. simpl. lia.
    + intros _ s2 G3. apply IH; [exact G3 | lia].
  - intros e t He. exact He.
  - intros e t He. destruct (index_exn_ok _ _ _ _ _ W1 He) as [W2 A2]. split; [exact W2 | eapply alive_trans; eauto].
Qed.

(** Cutting [delete]'s array. *)
Lemma delete_cut_ok s i2 :
  wf s -> is_Some (abs s !! ary) -> 0 <= i2 ->
  ok_step s
    (rb_ary_modify ary ;;;
     o <- get ary ;;
     (if i2 <? a_len o then
        upd ary (set_len i2) ;;;
        capa <- get_capa ary ;;
        (if (s32 (i2 * 2) <? capa) && (ARY_DEFAULT_SIZE <? capa) then
           REALLOC_N ary (s32 (i2 * 2)) ;;;
           upd ary (set_aux (Capa (s32 (i2 * 2))))
         else ret tt)
      else ret tt)).
Proof.
  intros W [x Hx] Hi. set (Q := fun (_ : unit) s' => wf s' /\ alive s s').
  apply (step_wp _ s Q (fun _ s' => wf s' /\ alive s s')); [| auto | auto].
  apply wp_bind. eapply modify_ok; [exact W | exact Hx | intros; split; [exact W | apply alive_refl] |].
  intros _ s1 o cs c O _. apply wp_bind. eapply focus_get; [apply O|].
  assert (forall t o1 cs1 c1 l1, owned s ary t o1 cs1 c1 l1 -> wf t /\ alive s t) as Hdone.
  { intros t o1 cs1 c1 l1 O1. eapply becomes_ok, owned_becomes; [exact O1 | reflexivity]. }
  wp_if; [|apply wp_ret; unfold Q; eauto].
  apply wp_bind. eapply owned_truncate; [exact O | lia |]. intros s2 O2.
  apply wp_bind. eapply get_capa_ok; [exact O2|]. pose proof (o_room _ _ _ _ _ _ _ O) as Hr.
  pose proof (o_max _ _ _ _ _ _ _ O) as Hm. pose proof (o_len _ _ _ _ _ _ _ O) as Hl.
  change ARY_MAX with 536870912 in Hm.
  rewrite s32_small by lia. wp_if; [|apply wp_ret; unfold Q; eauto].
  eapply grow_ok; [exact O2 | rewrite length_take; change ARY_MAX with 536870912; lia | eauto |].
  intros s3 o3 cs3 O3 _. unfold Q. eauto.
Qed.

End Loops.

(** ** The methods *)

Lemma sf_mono {A} b (m : M A) s (Q Q' : A -> memory -> Prop) :
  safe_from b m s Q -> (forall a t, Q a t -> Q' a t) -> safe_from b m s Q'.
Proof. unfold safe_from. destruct (m s); auto. Qed.

Lemma sf_rebase {A} b b' (m : M A) s (Q : A -> memory -> Prop) :
  alive b b' -> safe_from b' m s Q -> safe_from b m s Q.
Proof.
  unfold safe_from. intros Hb. destruct (m s); auto. intros [W A1]. split; [exact W | eapply alive_trans; eauto].
Qed.

Lemma ok_intro {A} (m : M A) s : safe_from s m s (fun _ => good s) -> ok_step s m.
Proof. unfold safe_from, ok_step, good. now destruct (m s). Qed.

Lemma good_refl s : wf s -> good s s.
Proof. intros W. split; [exact W | apply alive_refl]. Qed.

Lemma good_rebase b b' s : alive b b' -> good b' s -> good b s.
Proof. intros Hb [W A]. split; [exact W | eapply alive_trans; eauto]. Qed.

Section Methods.
Context (rb_yield : VALUE -> M VALUE) (rb_equal : VALUE -> VALUE -> M bool) (s : memory).
Context (Hyield : forall v t, wf t -> alive s t -> ok_step t (rb_yield v)).
Context (Hequal : forall v w t, wf t -> alive s t -> ok_step t (rb_equal v w)).
Context (ary : positive) (W : wf s) (Ha : is_Some (abs s !! ary)).

Hint Resolve good_refl alive_refl Z.le_refl : iter.

(** A method that is a loop [m] and then [k]. *)
Ltac run_loop L :=
  apply sf_bind; eapply sf_mono; [eapply L; eauto with iter | cbv beta; intros].

Lemma each_safe fuel : ok_step s (rb_ary_each rb_yield fuel ary).
Proof. apply ok_intro. unfold rb_ary_each. run_loop each_loop_safe. now apply sf_ret. Qed.

Lemma each_index_safe fuel : ok_step s (rb_ary_each_index rb_yield fuel ary).
Proof. apply ok_intro. unfold rb_ary_each_index. run_loop each_index_loop_safe. now apply sf_ret. Qed.

Lemma reverse_each_safe fuel : ok_step s (rb_ary_reverse_each rb_yield fuel ary).
Proof.
  apply ok_intro. unfold rb_ary_reverse_each. apply sf_bind. apply good_get; [now apply good_refl | exact Ha |].
  intros o x Hn _ _ Hx Hl. apply sf_bind. eapply sf_mono.
  - eapply reverse_each_loop_safe; eauto with iter. lia.
  - cbv beta. intros _ t G. now apply sf_ret.
Qed.

Lemma index_safe fuel val : ok_step s (rb_ary_index rb_equal fuel ary val).
Proof. apply ok_intro. eapply index_loop_safe; eauto with iter. Qed.

Lemma includes_safe fuel item : ok_step s (rb_ary_includes rb_equal fuel ary item).
Proof. apply ok_intro. eapply includes_loop_safe; eauto with iter. Qed.

Lemma collect_bang_safe fuel : ok_step s (rb_ary_collect_bang rb_yield fuel ary).
Proof.
  apply ok_intro. unfold rb_ary_collect_bang. apply sf_bind.
  eapply good_step; [now apply good_refl | now apply step_modify |]. intros _ t G.
  run_loop collect_bang_loop_safe. now apply sf_ret.
Qed.

(** A loop that adds to a new array. *)
Lemma new_loop_safe (m : positive -> M unit) :
  (forall r t, alive s t -> wf t -> is_Some (abs t !! r) -> safe_from t (m r) t (fun _ => good t)) ->
  ok_step s (o <- get ary ;; r <- rb_ary_new2 (a_len o) ;; m r ;;; ret r).
Proof.
  intros Hm. apply ok_intro. apply sf_bind. apply good_get; [now apply good_refl | exact Ha |].
  intros o x Hn _ _ _ _. apply sf_bind. eapply sf_wp; [eapply wp_mono; [now apply new2_ok | | intros e t He; exact He] |].
  - cbv beta. intros r t Hf. destruct (fresh_ok _ _ _ _ _ W Hf) as [Wt At].
    apply sf_bind. eapply sf_rebase; [exact At |]. eapply sf_mono; [apply Hm; auto; eapply fresh_alive; eauto|].
    cbv beta. intros _ t' G. apply sf_ret. eapply good_rebase; eauto.
  - intros e t He. eapply alloc_exn_ok; eauto.
Qed.

Lemma collect_safe fuel : ok_step s (rb_ary_collect rb_yield fuel ary).
Proof. apply new_loop_safe. intros r t A1 Wt Hr. eapply collect_loop_safe; eauto with iter. Qed.

Lemma select_safe fuel : ok_step s (rb_ary_select rb_yield fuel ary).
Proof. apply new_loop_safe. intros r t A1 Wt Hr. eapply select_loop_safe; eauto with iter. Qed.

Lemma reject_bang_safe fuel : ok_step s (rb_ary_reject_bang rb_yield fuel ary).
Proof.
  apply ok_intro. unfold rb_ary_reject_bang. apply sf_bind.
  eapply good_step; [now apply good_refl | now apply step_modify |]. intros _ t G.
  apply sf_bind. eapply sf_mono; [eapply reject_loop_safe; eauto with iter; lia|]. cbv beta. intros i2 t' [G' Hi].
  apply sf_bind. apply good_get; [exact G' | exact Ha |]. intros o x Hn Ho Hv Hx Hl.
  destruct (a_len o =? i2); [now apply sf_ret|]. apply sf_bind. destruct (i2 <? a_len o) eqn:?; breflect.
  - eapply good_step; [exact G' | eapply good_truncate; [exact G' | exact Hx | lia] |]. intros _ t2 G2. now apply sf_ret.
  - now do 2 apply sf_ret.
Qed.

Lemma delete_safe fuel item : ok_step s (rb_ary_delete rb_equal fuel ary item).
Proof.
  apply ok_intro. unfold rb_ary_delete.
  apply sf_bind. eapply sf_mono; [eapply delete_items_loop_safe; eauto with iter; lia|]. cbv beta. intros i2 t [G Hi].
  apply sf_bind. apply good_get; [exact G | exact Ha |]. intros o x Hn Ho Hv Hx Hl.
  destruct (a_len o =? i2); [now apply sf_ret|].
  destruct G as [Wt At]. pose proof (delete_cut_ok ary t i2 Wt (At _ Ha) Hi) as Hcut.
  eapply sf_step in Hcut; [|exact At | intros u t2 W2 A2 _; exact (conj W2 A2)]. revert Hcut.
  unfold safe_from, bindM, ret. destruct (rb_ary_modify ary t) as [u t1| | | |]; auto.
  destruct (get ary t1) as [o1 t2| | | |]; auto. destruct (_ t2) as [u1 t3| | | |]; auto.
Qed.

Lemma equal_safe fuel ary2 : is_Some (abs s !! ary2) -> ok_step s (rb_ary_equal rb_equal fuel ary ary2).
Proof.
  intros H2. apply ok_intro. unfold rb_ary_equal. destruct (_ =? _)%positive; [apply sf_ret; now apply good_refl|].
  apply sf_bind. apply good_get; [now apply good_refl | exact Ha |]. intros o1 x1 _ _ _ _ _.
  apply sf_bind. apply good_get; [now apply good_refl | exact H2 |]. intros o2 x2 _ _ _ _ _.
  destruct (negb _); [apply sf_ret; now apply good_refl|]. eapply equal_loop_safe; eauto with iter.
Qed.

Lemma initialize_safe fuel len : len <= 2 ^ 30 -> ok_step s (initialize_loop rb_yield fuel ary 0 len).
Proof. intros Hlen. apply ok_intro. eapply initialize_loop_safe; eauto with iter. Qed.

End Methods.

(** Whatever the block and [==] do that is safe from [s] on - push to the
    array, cut it, share it or iterate over it again - no method crashes or
    leaves the memory in disorder.  The loops read the length and the pointer
    anew each time. *)
(** C14: The methods of array.c that call back - each, each_index,
    reverse_each, index, includes, collect, collect!, select, reject!, delete,
    ==, and the loop of initialize - keep the invariant of sharing and never
    touch a word outside a block, one that is freed or one that was not
    written, for every block and every == that itself keeps the invariant: it
    may change, shrink or share the array that is being iterated over. *)
Theorem iterators_safe (rb_yield : VALUE -> M VALUE) (rb_equal : VALUE -> VALUE -> M bool)
    (s : memory) (ary ary2 : positive) (val : VALUE) (len : Z) (fuel : nat) :
  wf s -> is_Some (abs s !! ary) -> is_Some (abs s !! ary2) -> len <= 2 ^ 30 ->
  (forall v t, wf t -> alive s t -> ok_step t (rb_yield v)) ->
  (forall v w t, wf t -> alive s t -> ok_step t (rb_equal v w)) ->
  ok_step s (rb_ary_each rb_yield fuel ary) /\
  ok_step s (rb_ary_each_index rb_yield fuel ary) /\
  ok_step s (rb_ary_reverse_each rb_yield fuel ary) /\
  ok_step s (rb_ary_index rb_equal fuel ary val) /\
  ok_step s (rb_ary_includes rb_equal fuel ary val) /\
  ok_step s (rb_ary_collect rb_yield fuel ary) /\
  ok_step s (rb_ary_collect_bang rb_yield fuel ary) /\
  ok_step s (rb_ary_select rb_yield fuel ary) /\
  ok_step s (rb_ary_reject_bang rb_yield fuel ary) /\
  ok_step s (rb_ary_delete rb_equal fuel ary val) /\
  ok_step s (rb_ary_equal rb_equal fuel ary ary2) /\
  ok_step s (initialize_loop rb_yield fuel ary 0 len).
Proof.
  intros W Ha Ha2 Hlen Hy He.
  splits; eauto using each_safe, each_index_safe, reverse_each_safe, index_safe, includes_safe, collect_safe,
    collect_bang_safe, select_safe, reject_bang_safe, delete_safe, equal_safe, initialize_safe.
Qed.

End Safety.

(** ** Blocks without effects *)

Section Pure.
Context {machine : Machine}.

(** The head of a loop. *)
Lemma wp_head {C} t a x (k : RArray -> M C) Q E :
  wf t -> abs t !! a = Some x ->
  (forall o, view t o = Some (elts x) -> a_len o = Z.of_nat (length (elts x)) -> wp (k o) t Q E) ->
  wp (o <- get a ;; k o) t Q E.
Proof.
  intros W Hx Hk. destruct (abs_get _ _ _ Hx) as (o & Ho & Hv & _).
  destruct (ary_len _ _ _ _ W Ho Hv) as [Hl _]. apply wp_bind. eapply wp_get; [exact Ho | auto].
Qed.

Lemma wp_item {C} t o l i (k : VALUE -> M C) Q E v :
  view t o = Some l -> l !! i = Some v -> wp (k v) t Q E -> wp (v <- load (a_ptr o) (Z.of_nat i) ;; k v) t Q E.
Proof.
  intros Hv Hi Hk. apply wp_bind. apply (wp_load_view t o l (Z.of_nat i) v); [exact Hv | lia | now rewrite Nat2Z.id | exact Hk].
Qed.



Lemma becomes_trans s a x t y u : becomes s a x t -> becomes t a y u -> becomes s a y u.
Proof.
  intros [W1 H1] [W2 H2]. split; [exact W2|]. rewrite H2, H1. unfold put_list. simpl.
  rewrite insert_insert_eq. f_equal. lia.
Qed.

Lemma becomes_other s a x t b y : becomes s a x t -> b <> a -> abs s !! b = Some y -> abs t !! b = Some y.
Proof. intros [_ Hs] Hb Hy. injection Hs as -> _. now rewrite lookup_insert_ne by congruence. Qed.

(** Pushing to an array the method has made. *)
Lemma push_fresh_ok s r l v t :
  wf s -> fresh_list s l tainted_by_level r t ->
  wp (rb_ary_push r v) t (fun _ u => fresh_list s (l ++ [v]) tainted_by_level r u) (alloc_exn s).
Proof.
  intros W Hf. pose proof (fresh_kept _ _ _ _ _ W Hf) as K. destruct Hf as [-> B].
  eapply wp_mono; [eapply push_ok; [apply B | eapply becomes_lookup; exact B] | |].
  - intros q u (_ & _ & B2). split; [reflexivity|]. eapply becomes_trans; eauto.
  - intros e u [K2 He]. split; [eapply kept_trans; eauto|]. destruct He as [[He _]|He]; [|exact He].
    unfold modify_error, tainted_by_level in He. simpl in He.
    destruct (3 <=? safe_level) eqn:E3; simpl in He; [discriminate|].
    destruct (4 <=? safe_level) eqn:E4; [breflect; lia | discriminate].
Qed.

Lemma fresh_other s l r t a x :
  wf s -> fresh_list s l tainted_by_level r t -> abs s !! a = Some x -> wf t /\ abs t !! a = Some x.
Proof.
  intros W Hf Hx. pose proof (fresh_kept _ _ _ _ _ W Hf) as [Wt Hs]. split; [exact Wt|].
  eapply lookup_weaken; eauto.
Qed.

Context (f : VALUE -> VALUE).

Lemma collect_loop_ok s a x r : wf s -> abs s !! a = Some x -> forall fuel i t,
  (length (elts x) <= i + fuel)%nat -> (i <= length (elts x))%nat ->
  fresh_list s (map f (take i (elts x))) tainted_by_level r t ->
  wp (collect_loop (fun v => ret (f v)) fuel r a (Z.of_nat i)) t
    (fun _ u => fresh_list s (map f (elts x)) tainted_by_level r u) (alloc_exn s).
Proof.
  intros W Hx. induction fuel as [|fuel IH]; intros i t Hfu Hi F;
    destruct (fresh_other _ _ _ _ _ _ W F Hx) as [Wt Hxt]; simpl;
    (eapply wp_head; [exact Wt | exact Hxt |]); intros o Hv Hl; (wp_if; [|]); try lia.
  - apply wp_ret. now rewrite take_ge in F by lia.
  - destruct (lookup_lt_is_Some_2 (elts x) i) as [v Hget]; [lia|].
    eapply wp_item; [exact Hv | exact Hget |]. apply wp_bind, wp_ret, wp_bind.
    eapply wp_mono; [exact (push_fresh_ok s r _ _ t W F) | | auto]. cbv beta. intros _ u Fu.
    replace (Z.of_nat i + 1) with (Z.of_nat (S i)) by lia. apply IH; [lia | lia |].
    rewrite (take_S_r _ _ _ Hget), map_app. exact Fu.
  - apply wp_ret. now rewrite take_ge in F by lia.
Qed.

Lemma select_loop_ok s a x r : wf s -> abs s !! a = Some x -> forall fuel i t,
  (length (elts x) <= i + fuel)%nat -> (i <= length (elts x))%nat ->
  fresh_list s (List.filter (fun v => RTEST (f v)) (take i (elts x))) tainted_by_level r t ->
  wp (select_loop (fun v => ret (f v)) fuel r a (Z.of_nat i)) t
    (fun _ u => fresh_list s (List.filter (fun v => RTEST (f v)) (elts x)) tainted_by_level r u) (alloc_exn s).
Proof.
  intros W Hx. induction fuel as [|fuel IH]; intros i t Hfu Hi F;
    destruct (fresh_other _ _ _ _ _ _ W F Hx) as [Wt Hxt]; simpl;
    (eapply wp_head; [exact Wt | exact Hxt |]); intros o Hv Hl; (wp_if; [|]); try lia.
  - apply wp_ret. now rewrite take_ge in F by lia.
  - destruct (lookup_lt_is_Some_2 (elts x) i) as [v Hget]; [lia|].
    eapply wp_item; [exact Hv | exact Hget |]. apply wp_bind, wp_ret, wp_bind.
    replace (Z.of_nat i + 1) with (Z.of_nat (S i)) by lia.
    assert (forall u, fresh_list s (List.filter (fun v => RTEST (f v)) (take (S i) (elts x))) tainted_by_level r u ->
      wp (select_loop (fun v => ret (f v)) fuel r a (Z.of_nat (S i))) u
        (fun _ u => fresh_list s (List.filter (fun v => RTEST (f v)) (elts x)) tainted_by_level r u) (alloc_exn s)) as Hnext
      by (intros u Fu; apply IH; [lia | lia | exact Fu]).
    rewrite (take_S_r _ _ _ Hget), List.filter_app in Hnext. simpl in Hnext.
    destruct (RTEST (f v)); [|apply wp_ret, Hnext; now rewrite app_nil_r].
    apply wp_bind. eapply wp_mono; [exact (elt_ok t a x _ Wt Hxt) | | done]. intros e u [-> ->]. rewrite Nat2Z.id, Hget. simpl.
    destruct (Z.of_nat i <? 0) eqn:?; breflect; [lia|]. apply wp_bind.
    eapply wp_mono; [exact (push_fresh_ok s r _ _ t W F) | | auto]. cbv beta. intros _ u Fu. apply wp_ret. auto.
  - apply wp_ret. now rewrite take_ge in F by lia.
Qed.

(** *** Over an array that owns its block *)

Lemma owned_modify s0 a t o cs c l (Q : unit -> memory -> Prop) E :
  owned s0 a t o cs c l -> modify_error (to_list o l) = None -> Q tt t -> wp (rb_ary_modify a) t Q E.
Proof.
  intros O Hm HQ. pose proof (o_focus _ _ _ _ _ _ _ O) as F. unfold rb_ary_modify. apply wp_bind.
  eapply (wp_modify_check t a o l).
  - rewrite (f_arys _ _ _ _ _ F). apply lookup_insert_eq.
  - intros e He. congruence.
  - intros _. apply wp_bind. eapply focus_get; [exact F|]. rewrite (o_capa _ _ _ _ _ _ _ O). now apply wp_ret.
Qed.

(** Then a store below the length changes the element, and nothing can fail. *)
Lemma owned_store_ok s0 a t o cs c l i v (Q : unit -> memory -> Prop) E :
  owned s0 a t o cs c l -> modify_error (to_list o l) = None -> (i < length l)%nat ->
  (forall u o' cs', owned s0 a u o' cs' c (<[i := v]> l) -> to_list o' = to_list o -> Q tt u) ->
  wp (rb_ary_store a (Z.of_nat i) v) t Q E.
Proof.
  intros O Hm Hi HQ. pose proof (o_len _ _ _ _ _ _ _ O) as Hl. pose proof (o_room _ _ _ _ _ _ _ O) as Hr.
  unfold rb_ary_store. apply wp_bind. eapply focus_get; [apply O|]. cbv beta. apply wp_bind.
  wp_if; [lia|]. apply wp_ret. apply wp_bind. eapply owned_modify; [exact O | exact Hm |]. apply wp_bind.
  eapply get_capa_ok; [exact O|]. apply wp_bind. wp_if; [lia|]. apply wp_ret.
  eapply store_put_ok; [exact O | lia |]. intros u o' cs' O' Hf. apply (HQ u o' cs'); [|exact Hf].
  rewrite Nat2Z.id in O'. unfold list_store in O'. destruct (_ <? _)%nat eqn:El; [exact O'|].
  apply Nat.ltb_ge in El. lia.
Qed.

Lemma insert_middle {A} (l1 l2 : list A) x y : <[length l1 := y]> (l1 ++ x :: l2) = (l1 ++ [y]) ++ l2.
Proof. rewrite insert_app_r_alt, Nat.sub_diag by lia. simpl. now rewrite <- app_assoc. Qed.

Lemma collect_bang_loop_ok s a l : forall l2 l1 fuel t o cs c (Q : unit -> memory -> Prop) E,
  owned s a t o cs c (l1 ++ l2) -> modify_error (to_list o l) = None -> (length l2 <= fuel)%nat ->
  (forall u o' cs', owned s a u o' cs' c (l1 ++ map f l2) -> to_list o' = to_list o -> Q tt u) ->
  wp (collect_bang_loop (fun v => ret (f v)) fuel a (Z.of_nat (length l1))) t Q E.
Proof.
  induction l2 as [|v l2 IH]; intros l1 fuel t o cs c Q E O Hm Hfu HQ;
    pose proof (o_len _ _ _ _ _ _ _ O) as Hl; rewrite length_app in Hl; simpl in Hl.
  - destruct fuel; simpl; apply wp_bind; (eapply focus_get; [apply O|]); cbv beta; (wp_if; [lia|]);
      apply wp_ret; eapply HQ; eauto.
  - destruct fuel as [|fuel]; [simpl in Hfu; lia|]. simpl. apply wp_bind. eapply focus_get; [apply O|]. cbv beta.
    wp_if; [|lia]. eapply wp_item; [eapply owned_view; exact O | apply list_lookup_middle; reflexivity |].
    apply wp_bind, wp_ret, wp_bind.
    eapply owned_store_ok; [exact O | exact Hm | rewrite length_app; simpl; lia |]. intros u o' cs' O' Hf.
    rewrite insert_middle in O'.
    replace (Z.of_nat (length l1) + 1) with (Z.of_nat (length (l1 ++ [f v]))) by (rewrite length_app; simpl; lia).
    eapply IH; [exact O' | rewrite Hf; exact Hm | simpl in Hfu; lia |].
    intros w o2 cs2 O2 Hf2. rewrite <- app_assoc in O2. eapply HQ; [exact O2 | congruence].
Qed.

Definition keeps (v : VALUE) : bool := negb (RTEST (f v)).

(** [l1] is kept, [l2] the room that has come free. *)
Lemma reject_loop_ok s a l : forall l3 l1 l2 fuel t o cs c (Q : Z -> memory -> Prop) E,
  owned s a t o cs c (l1 ++ l2 ++ l3) -> modify_error (to_list o l) = None -> (length l3 <= fuel)%nat ->
  (forall u o' cs' l2', owned s a u o' cs' c (l1 ++ List.filter keeps l3 ++ l2') -> to_list o' = to_list o ->
     length (l1 ++ l2 ++ l3) = length (l1 ++ List.filter keeps l3 ++ l2') ->
     Q (Z.of_nat (length (l1 ++ List.filter keeps l3))) u) ->
  wp (reject_loop (fun v => ret (f v)) fuel a (Z.of_nat (length (l1 ++ l2))) (Z.of_nat (length l1))) t Q E.
Proof.
  induction l3 as [|v l3 IH]; intros l1 l2 fuel t o cs c Q E O Hm Hfu HQ;
    pose proof (o_len _ _ _ _ _ _ _ O) as Hl; rewrite !length_app in Hl; simpl in Hl.
  - rewrite app_nil_r in O. destruct fuel; simpl; apply wp_bind; (eapply focus_get; [apply O|]); cbv beta;
      rewrite length_app; (wp_if; [lia|]); apply wp_ret;
      specialize (HQ t o cs l2); simpl in HQ; rewrite !app_nil_r in HQ; apply HQ; auto.
  - destruct fuel as [|fuel]; [simpl in Hfu; lia|]. simpl. apply wp_bind. eapply focus_get; [apply O|]. cbv beta.
    wp_if; [|rewrite length_app in *; lia].
    eapply wp_item; [eapply owned_view; exact O | rewrite app_assoc; apply list_lookup_middle; reflexivity |].
    apply wp_bind, wp_ret. simpl in HQ. simpl in Hfu.
    replace (RTEST (f v)) with (negb (keeps v)) by apply negb_involutive.
    destruct (keeps v); simpl.
    + replace (Z.of_nat (length l1) + 1) with (Z.of_nat (length (l1 ++ [v]))) by (rewrite length_app; simpl; lia).
      assert (forall u o' cs' r, owned s a u o' cs' c ((l1 ++ [v]) ++ r ++ l3) -> to_list o' = to_list o ->
        length r = length l2 ->
        wp (reject_loop (fun v => ret (f v)) fuel a (Z.of_nat (length (l1 ++ l2)) + 1)
              (Z.of_nat (length (l1 ++ [v])))) u Q E) as Hnext.
      { intros u o' cs' r O' Hf Hr.
        replace (Z.of_nat (length (l1 ++ l2)) + 1) with (Z.of_nat (length ((l1 ++ [v]) ++ r)))
          by (rewrite !length_app; simpl; lia).
        eapply IH; [exact O' | rewrite Hf; exact Hm | lia |]. intros w o2 cs2 l2' O2 Hf2 Hlen.
        rewrite <- app_assoc in O2 |- *. eapply HQ; [exact O2 | congruence |].
        rewrite <- !app_assoc in Hlen. rewrite !length_app in *. simpl in *. rewrite ?length_app in *. lia. }
      apply wp_bind. destruct l2 as [|w l2].
      * rewrite app_nil_r at 1. rewrite Z.eqb_refl. apply wp_ret.
        eapply (Hnext t o cs []); [|reflexivity | reflexivity]. now rewrite <- app_assoc.
      * rewrite length_app at 1. destruct (_ =? _) eqn:?; breflect; [simpl in *; lia|].
        eapply owned_store_ok; [exact O | exact Hm | rewrite length_app; simpl; lia |]. intros u o' cs' O' Hf.
        rewrite <- app_comm_cons, insert_middle in O'. eapply (Hnext u o' cs' (l2 ++ [v])); [|exact Hf | rewrite length_app; simpl; lia].
        rewrite <- (app_assoc l2 [v] l3). exact O'.
    + replace (Z.of_nat (length (l1 ++ l2)) + 1) with (Z.of_nat (length (l1 ++ (l2 ++ [v]))))
        by (rewrite !length_app; simpl; lia).
      eapply IH; [rewrite <- app_assoc; exact O | exact Hm | lia |].
      intros u o' cs' l2' O' Hf Hlen. eapply HQ; [exact O' | exact Hf |].
      rewrite <- Hlen, <- app_assoc. reflexivity.
Qed.

(** *** The methods *)

(** [list_find_index p l]: the first index whose element satisfies [p]. *)
Fixpoint list_index (p : VALUE -> bool) (l : list VALUE) : option nat :=
  match l with
  | [] => None
  | v :: l => if p v then Some 0%nat else S <$> list_index p l
  end.

Definition index_value (r : option nat) : VALUE :=
  match r with Some i => Num (Z.of_nat i) | None => Qnil end.

Lemma index_loop_ok (eq : VALUE -> VALUE -> bool) s a x val : wf s -> abs s !! a = Some x -> forall fuel i,
  (length (elts x) <= i + fuel)%nat ->
  wp (index_loop (fun v w => ret (eq v w)) fuel a val (Z.of_nat i)) s
    (fun r t => t = s /\ r = index_value (Nat.add i <$> list_index (fun v => eq v val) (drop i (elts x))))
    (fun _ _ => False).
Proof.
  intros W Hx. induction fuel as [|fuel IH]; intros i Hfu; simpl;
    (eapply wp_head; [exact W | exact Hx |]); intros o Hv Hl; (wp_if; [|]); try lia.
  - apply wp_ret. now rewrite drop_ge by lia.
  - destruct (lookup_lt_is_Some_2 (elts x) i) as [v Hget]; [lia|].
    eapply wp_item; [exact Hv | exact Hget |]. apply wp_bind, wp_ret.
    rewrite (drop_S _ _ _ Hget). simpl. destruct (eq v val).
    + apply wp_ret. simpl. now rewrite Nat.add_0_r.
    + replace (Z.of_nat i + 1) with (Z.of_nat (S i)) by lia. eapply wp_mono; [apply IH; lia | | auto].
      intros r t [-> ->]. split; [reflexivity|]. destruct (list_index _ _); simpl; [|reflexivity]. do 2 f_equal. lia.
  - apply wp_ret. now rewrite drop_ge by lia.
Qed.

Lemma includes_loop_ok (eq : VALUE -> VALUE -> bool) s a x val : wf s -> abs s !! a = Some x -> forall fuel i,
  (length (elts x) <= i + fuel)%nat ->
  wp (includes_loop (fun v w => ret (eq v w)) fuel a val (Z.of_nat i)) s
    (fun r t => t = s /\ r = existsb (fun v => eq v val) (drop i (elts x))) (fun _ _ => False).
Proof.
  intros W Hx. induction fuel as [|fuel IH]; intros i Hfu; simpl;
    (eapply wp_head; [exact W | exact Hx |]); intros o Hv Hl; (wp_if; [|]); try lia.
  - apply wp_ret. now rewrite drop_ge by lia.
  - destruct (lookup_lt_is_Some_2 (elts x) i) as [v Hget]; [lia|].
    eapply wp_item; [exact Hv | exact Hget |]. apply wp_bind, wp_ret.
    rewrite (drop_S _ _ _ Hget). simpl. destruct (eq v val); [now apply wp_ret|].
    replace (Z.of_nat i + 1) with (Z.of_nat (S i)) by lia. apply IH. lia.
  - apply wp_ret. now rewrite drop_ge by lia.
Qed.

(** A method that fills a new array. *)
Lemma new_loop_ok s a x (m : positive -> M unit) l :
  wf s -> abs s !! a = Some x ->
  (forall r t, fresh_list s [] tainted_by_level r t ->
     wp (m r) t (fun _ u => fresh_list s l tainted_by_level r u) (alloc_exn s)) ->
  wp (o <- get a ;; r <- rb_ary_new2 (a_len o) ;; m r ;;; ret r) s
    (fun r u => fresh_list s l tainted_by_level r u) (alloc_exn s).
Proof.
  intros W Hx Hm. destruct (abs_get _ _ _ Hx) as (o & Ho & Hv & _).
  destruct (ary_len _ _ _ _ W Ho Hv) as [Hl Hlb]. apply wp_bind. eapply wp_get; [exact Ho|]. apply wp_bind.
  eapply wp_mono; [apply new2_ok; [exact W | change ARY_MAX with 536870912; lia] | | auto].
  cbv beta. intros r t F. apply wp_bind. eapply wp_mono; [now apply Hm | | auto].
  cbv beta. intros _ u Fu. now apply wp_ret.
Qed.

(** A method that begins with [rb_ary_modify]. *)
Lemma modify_then_ok {A} s a x (k : M A) (Q : A -> memory -> Prop) :
  wf s -> abs s !! a = Some x ->
  (forall t o cs c, owned s a t o cs c (elts x) -> modify_error (to_list o (elts x)) = None ->
     modify_error x = None -> (forall l, to_list o l = with_elts x l) -> wp k t Q (modify_exn s x)) ->
  wp (rb_ary_modify a ;;; k) s Q (modify_exn s x).
Proof.
  intros W Hx Hk. apply wp_bind. eapply modify_ok; [exact W | exact Hx | intros e He; now apply modify_exn_start |].
  intros Hok t o cs c O Hf. assert (forall l, to_list o l = with_elts x l) as Hto by (intros l; now rewrite Hf).
  eapply Hk; [exact O | | exact Hok | exact Hto]. now rewrite Hto, with_elts_id.
Qed.

(** With a block that only computes a value, and fuel for the length of
    the array: collect makes a new array of the block's values in order,
    select one of the elements whose value is true, collect! replaces every
    element by its value and reject! keeps those whose value is not true, in
    order and in place, with nil for no change.  The first two fail only for
    want of memory, the last two only where the array may not be changed, and
    every other array keeps its elements. *)
Theorem pure_blocks_ok s a x fuel :
  wf s -> abs s !! a = Some x -> (length (elts x) <= fuel)%nat ->
  wp (rb_ary_collect (fun v => ret (f v)) fuel a) s
    (fun r u => fresh_list s (map f (elts x)) tainted_by_level r u) (alloc_exn s) /\
  wp (rb_ary_select (fun v => ret (f v)) fuel a) s
    (fun r u => fresh_list s (List.filter (fun v => RTEST (f v)) (elts x)) tainted_by_level r u) (alloc_exn s) /\
  wp (rb_ary_collect_bang (fun v => ret (f v)) fuel a) s
    (fun r u => r = a /\ modify_error x = None /\ becomes s a (with_elts x (map f (elts x))) u) (modify_exn s x) /\
  wp (rb_ary_reject_bang (fun v => ret (f v)) fuel a) s
    (fun r u => modify_error x = None /\ becomes s a (with_elts x (List.filter keeps (elts x))) u /\
       r = if (length (List.filter keeps (elts x)) =? length (elts x))%nat then Qnil else Ary a) (modify_exn s x).
Proof.
  intros W Hx Hfu. splits.
  - apply (new_loop_ok s a x); [exact W | exact Hx |]. intros r t F.
    apply (collect_loop_ok s a x r W Hx fuel 0 t); [exact Hfu | lia | exact F].
  - apply (new_loop_ok s a x); [exact W | exact Hx |]. intros r t F.
    apply (select_loop_ok s a x r W Hx fuel 0 t); [exact Hfu | lia | exact F].
  - apply modify_then_ok; [exact W | exact Hx |]. intros t o cs c O Hm Hok Hto. apply wp_bind.
    eapply (collect_bang_loop_ok s a (elts x) (elts x) []); [exact O | exact Hm | exact Hfu |].
    intros u o' cs' O' Hf. apply wp_ret. splits; auto. eapply owned_becomes; [exact O'|]. now rewrite Hf, Hto.
  - apply modify_then_ok; [exact W | exact Hx |]. intros t o cs c O Hm Hok Hto. apply wp_bind.
    eapply (reject_loop_ok s a (elts x) (elts x) [] []); [exact O | exact Hm | exact Hfu |]. simpl.
    intros u o' cs' r O' Hf Hlen. apply wp_bind. eapply focus_get; [apply O'|].
    pose proof (o_len _ _ _ _ _ _ _ O') as Hl. rewrite <- Hlen in Hl. rewrite length_app in Hlen.
    rewrite Hl. wp_if.
    + assert (r = []) as -> by (apply length_zero_iff_nil; lia). rewrite app_nil_r in O'. apply wp_ret. splits; auto.
      * eapply owned_becomes; [exact O'|]. now rewrite Hf, Hto.
      * destruct (_ =? _)%nat eqn:En; [reflexivity|]. apply Nat.eqb_neq in En. lia.
    + apply wp_bind. wp_if; [|lia]. eapply owned_truncate; [exact O' | lia |]. intros u2 O2.
      rewrite Nat2Z.id, take_app_length in O2. apply wp_ret. splits; auto.
      * eapply owned_becomes; [exact O2|]. unfold to_list at 1. simpl.
        change (to_list o' (List.filter keeps (elts x)) = with_elts x (List.filter keeps (elts x))).
        now rewrite Hf, Hto.
      * destruct (_ =? _)%nat eqn:En; [|reflexivity]. apply Nat.eqb_eq in En. lia.
Qed.

(** With an equality that only computes, index is the place of the first
    element equal to the value, or nil, include? whether there is one, and
    neither changes anything. *)
Theorem pure_searches_ok (eq : VALUE -> VALUE -> bool) s a x val fuel :
  wf s -> abs s !! a = Some x -> (length (elts x) <= fuel)%nat ->
  rb_ary_index (fun v w => ret (eq v w)) fuel a val s =
    Val (index_value (list_index (fun v => eq v val) (elts x))) s /\
  rb_ary_includes (fun v w => ret (eq v w)) fuel a val s = Val (existsb (fun v => eq v val) (elts x)) s.
Proof.
  intros W Hx Hfu.
  pose proof (index_loop_ok eq s a x val W Hx fuel 0 Hfu) as H1. unfold rb_ary_index.
  pose proof (includes_loop_ok eq s a x val W Hx fuel 0 Hfu) as H2. unfold rb_ary_includes.
  unfold wp in H1, H2. simpl in H1, H2. split.
  - destruct (index_loop _ _ _ _ _ _); try done. destruct H1 as [-> ->]. rewrite option_fmap_id. reflexivity.
  - destruct (includes_loop _ _ _ _ _ _); try done. now destruct H2 as [-> ->].
Qed.

End Pure.

(** ** Concrete arrays *)

Definition two : memory := one_array [Num 1; Num 2].

Lemma two_ok : wf two /\ abs two !! 1%positive = Some (mkList [Num 1; Num 2] false false false) /\
  next_ary two = 2%positive.
Proof. apply one_array_ok; [reflexivity | vm_compute; exact I]. Qed.

(** A block that pushes to the array it is called for, and an equality that
    empties it. *)
Definition pushing (v : VALUE) : M VALUE := @rb_ary_push plenty 1 v ;;; ret v.
Definition clearing (v w : VALUE) : M bool := @rb_ary_clear plenty 1 ;;; ret (bool_decide (v = w)).

Lemma step_ret {A C} (m : M A) (a : C) s : ok_step s m -> ok_step s (m ;;; ret a).
Proof. unfold ok_step, bindM, ret. destruct (m s); auto. Qed.

Lemma pushing_ok v t : wf t -> alive two t -> ok_step t (pushing v).
Proof.
  intros W A. apply step_ret, step_push; [exact W | apply A].
  destruct two_ok as (_ & -> & _). eauto.
Qed.

Lemma clearing_ok v w t : wf t -> alive two t -> ok_step t (clearing v w).
Proof.
  intros W A. apply step_ret. destruct two_ok as (_ & H2 & _). destruct (A 1%positive) as [x Hx]; [rewrite H2; eauto|].
  eapply step_wp; [exact (clear_ok t 1%positive x W Hx) | |]; cbv beta.
  - intros r s' H. eapply becomes_ok. apply H.
  - intros e s' [H | (_ & _ & H)]; [eapply modify_exn_ok; eauto | eapply becomes_ok; eauto].
Qed.

(** The block of [each] makes the loop go on for ever; [delete] finds its
    array empty. *)
Lemma iterators_safe_witness :
  ok_step two (@rb_ary_each pushing 5 1) /\
  ok_step two (@rb_ary_collect plenty pushing 5 1) /\
  ok_step two (@rb_ary_delete plenty clearing 5 1 (Num 2)) /\
  @rb_ary_each pushing 5 1 two = Timeout.
Proof.
  destruct two_ok as (W & Hx & _).
  assert (is_Some (abs two !! 1%positive)) as Ha by (rewrite Hx; eauto).
  pose proof (@iterators_safe plenty pushing clearing two 1 1 (Num 2) 3 5 W Ha Ha ltac:(lia) pushing_ok clearing_ok)
    as (H1 & _ & _ & _ & _ & H2 & _ & _ & _ & H3 & _).
  splits; [exact H1 | exact H2 | exact H3 | vm_compute; reflexivity].
Defined.

Definition succ_value (v : VALUE) : VALUE := match v with Num n => Num (n + 1) | _ => Qnil end.
Definition odd_value (v : VALUE) : VALUE :=
  match v with Num n => if Z.odd n then Qtrue else Qfalse | _ => Qnil end.

Lemma pure_blocks_ok_witness :
  wp (@rb_ary_collect plenty (fun v => ret (succ_value v)) 2 1) two
    (fun r u => fresh_list two [Num 2; Num 3] (@tainted_by_level plenty) r u) (alloc_exn two) /\
  wp (@rb_ary_reject_bang plenty (fun v => ret (odd_value v)) 2 1) two
    (fun r u => becomes two 1 (mkList [Num 2] false false false) u /\ r = Ary 1)
    (fun _ _ => True).
Proof.
  destruct two_ok as (W & Hx & _). split.
  - exact (proj1 (@pure_blocks_ok plenty succ_value two 1 _ 2 W Hx ltac:(simpl; lia))).
  - eapply wp_mono;
      [exact (proj2 (proj2 (proj2 (@pure_blocks_ok plenty odd_value two 1 _ 2 W Hx ltac:(simpl; lia))))) | | auto].
    intros r u (_ & B & ->). split; [exact B | reflexivity].
Defined.

Lemma pure_searches_ok_witness :
  @rb_ary_index (fun v w => ret (bool_decide (v = w))) 2 1 (Num 2) two = Val (Num 1) two /\
  @rb_ary_includes (fun v w => ret (bool_decide (v = w))) 2 1 (Num 3) two = Val false two.
Proof.
  destruct two_ok as (W & Hx & _). split.
  - exact (proj1 (@pure_searches_ok (fun v w => bool_decide (v = w)) two 1 _ (Num 2) 2 W Hx ltac:(simpl; lia))).
  - exact (proj2 (@pure_searches_ok (fun v w => bool_decide (v = w)) two 1 _ (Num 3) 2 W Hx ltac:(simpl; lia))).
Defined.

