(* ===== verification/ArrayNest.v ===== *)
(** * Arrays of arrays

    The methods of array.c that look into elements which are arrays - assoc,
    rassoc, zip, transpose, flatten - and those that are other methods on a
    copy.  An element is an array when it is one: [Obj] has no [to_ary]. *)

From Stdlib Require Import ZArith Lia List Bool.
From stdpp Require Import base list gmap.
From S2P Require Import Prelude CInt ArrayMem Array ArrayInv ArrayOps ArrayIter.
Local Open Scope Z_scope.
Local Open Scope array_scope.

Section Nest.
Context {machine : Machine}.

Section Callbacks.
Context (rb_yield : VALUE -> M VALUE) (rb_equal rb_eql : VALUE -> VALUE -> M bool) (rb_hash : VALUE -> M VALUE).

Definition rb_ary_reject (fuel : nat) (ary : positive) : M positive :=
  ary <- rb_ary_dup ary ;;
  _ <- rb_ary_reject_bang rb_yield fuel ary ;;
  ret ary.

Definition rb_ary_delete_if (fuel : nat) (ary : positive) : M positive :=
  _ <- rb_ary_reject_bang rb_yield fuel ary ;;
  ret ary.

(** [assoc] compares element [k = 0] of the arrays, [rassoc] element 1. *)
Fixpoint assoc_loop (fuel : nat) (k : Z) (ary : positive) (key : VALUE) (i : Z) : M VALUE :=
  o <- get ary ;;
  if i <? a_len o then
    match fuel with
    | O => timeout
    | S fuel =>
        v <- load (a_ptr o) i ;;
        found <- match v with
                 | Ary a =>
                     p <- get a ;;
                     if k <? a_len p then w <- load (a_ptr p) k ;; rb_equal w key else ret false
                 | _ => ret false
                 end ;;
        if (found : bool) then ret v else assoc_loop fuel k ary key (i + 1)
    end
  else ret Qnil.

Definition rb_ary_assoc (fuel : nat) (ary : positive) (key : VALUE) : M VALUE := assoc_loop fuel 0 ary key 0.
Definition rb_ary_rassoc (fuel : nat) (ary : positive) (value : VALUE) : M VALUE := assoc_loop fuel 1 ary value 0.

(** Of two arrays; the loop is that of [rb_ary_equal] with [rb_eql]. *)
Definition rb_ary_eql (fuel : nat) (ary1 ary2 : positive) : M bool :=
  if (ary1 =? ary2)%positive then ret true else
  o1 <- get ary1 ;;
  o2 <- get ary2 ;;
  if negb (a_len o1 =? a_len o2) then ret false else
  equal_loop rb_eql fuel ary1 ary2 0.

Fixpoint hash_loop (fuel : nat) (ary : positive) (i h : Z) : M Z :=
  o <- get ary ;;
  if i <? a_len o then
    match fuel with
    | O => timeout
    | S fuel =>
        let h := Z.lor (s32 (Z.shiftl h 1)) (if h <? 0 then 1 else 0) in
        v <- load (a_ptr o) i ;;
        n <- rb_hash v ;;
        n <- NUM2LONG n ;;
        hash_loop fuel ary (i + 1) (Z.lxor h n)
    end
  else ret h.

(** The Fixnum of [h], of which the macro keeps 31 bits. *)
Definition rb_ary_hash (fuel : nat) (ary : positive) : M VALUE :=
  o <- get ary ;;
  h <- hash_loop fuel ary 0 (a_len o) ;;
  ret (Num (FIX2LONG (LONG2FIX h))).

(** One row of [zip]. *)
Fixpoint zip_row (tmp : positive) (argv : list positive) (i : Z) : M unit :=
  match argv with
  | [] => ret tt
  | a :: argv =>
      e <- rb_ary_elt a i ;;
      rb_ary_push tmp e ;;;
      zip_row tmp argv i
  end.

Definition zip_tuple (argv : list positive) (ary : positive) (i : Z) : M positive :=
  tmp <- rb_ary_new2 (Z.of_nat (length argv) + 1) ;;
  zip_row tmp (ary :: argv) i ;;;
  ret tmp.

Fixpoint zip_each_loop (fuel : nat) (argv : list positive) (ary : positive) (i : Z) : M unit :=
  o <- get ary ;;
  if i <? a_len o then
    match fuel with
    | O => timeout
    | S fuel =>
        tmp <- zip_tuple argv ary i ;;
        _ <- rb_yield (Ary tmp) ;;
        zip_each_loop fuel argv ary (i + 1)
    end
  else ret tt.

Fixpoint zip_loop (n : nat) (result : positive) (argv : list positive) (ary : positive) (i : Z) : M unit :=
  match n with
  | O => ret tt
  | S n =>
      tmp <- zip_tuple argv ary i ;;
      rb_ary_push result (Ary tmp) ;;;
      zip_loop n result argv ary (i + 1)
  end.

Fixpoint to_arys (argv : list VALUE) : M (list positive) :=
  match argv with
  | [] => ret []
  | v :: argv => a <- to_ary v ;; l <- to_arys argv ;; ret (a :: l)
  end.

Definition rb_ary_zip_block (fuel : nat) (argv : list VALUE) (ary : positive) : M VALUE :=
  argv <- to_arys argv ;; zip_each_loop fuel argv ary 0 ;;; ret Qnil.

Definition rb_ary_zip (argv : list VALUE) (ary : positive) : M VALUE :=
  argv <- to_arys argv ;;
  o <- get ary ;;
  result <- rb_ary_new2 (a_len o) ;;
  zip_loop (Z.to_nat (a_len o)) result argv ary 0 ;;;
  ret (Ary result).

End Callbacks.

(** ** [transpose] *)

(** [for (j=0; j<elen; j++) rb_ary_store(result, j, rb_ary_new2(alen))] *)
Fixpoint new_columns (n : nat) (result : positive) (alen j : Z) : M unit :=
  match n with
  | O => ret tt
  | S n =>
      c <- rb_ary_new2 alen ;;
      rb_ary_store result j (Ary c) ;;;
      new_columns n result alen (j + 1)
  end.

(** The elements of a row to their columns. *)
Fixpoint store_row (n : nat) (result tmp : positive) (i j : Z) : M unit :=
  match n with
  | O => ret tt
  | S n =>
      c <- rb_ary_elt result j ;;
      c <- match c with Ary c => ret c | _ => crash end ;;
      v <- rb_ary_elt tmp j ;;
      rb_ary_store c i v ;;;
      store_row n result tmp i (j + 1)
  end.

(** Before the first row [first] is [None], then [result] and [elen]. *)
Fixpoint transpose_loop (n : nat) (ary : positive) (alen i : Z) (first : option (positive * Z)) : M positive :=
  match n with
  | O => match first with Some (result, _) => ret result | None => crash end
  | S n =>
      v <- rb_ary_elt ary i ;;
      tmp <- to_ary v ;;
      o <- get tmp ;;
      '(result, elen) <- match first with
                         | None =>
                             result <- rb_ary_new2 (a_len o) ;;
                             new_columns (Z.to_nat (a_len o)) result alen 0 ;;;
                             ret (result, a_len o)
                         | Some (result, elen) =>
                             if negb (elen =? a_len o) then rb_raise IndexError else ret (result, elen)
                         end ;;
      store_row (Z.to_nat elen) result tmp i 0 ;;;
      transpose_loop n ary alen (i + 1) (Some (result, elen))
  end.

Definition rb_ary_transpose (ary : positive) : M positive :=
  o <- get ary ;;
  if a_len o =? 0 then rb_ary_dup ary else
  transpose_loop (Z.to_nat (a_len o)) ary (a_len o) 0 None.

(** ** [flatten] *)

(** The id of an array, and [==] on ids, which are Fixnums. *)
Definition rb_obj_id (a : positive) : VALUE := Num (Z.pos a).
Definition id_equal (v w : VALUE) : M bool := ret (bool_decide (v = w)).

(** [while (i < lim)]; [rec] is the call of [flatten], the result is [lim]. *)
Fixpoint flatten_loop (rec : Z -> positive -> M Z) (n : nat) (ary : positive) (i lim : Z) : M Z :=
  if i <? lim then
    match n with
    | O => timeout
    | S n =>
        e <- rb_ary_elt ary i ;;
        match e with
        | Ary tmp =>
            k <- rec i tmp ;;
            flatten_loop rec n ary (s32 (s32 (i + k) + 1)) (s32 (lim + k))
        | _ => flatten_loop rec n ary (i + 1) lim
        end
    end
  else ret lim.

(** An iteration of the loop takes one element of [ary2]. *)
Fixpoint flatten (depth : nat) (ary : positive) (idx : Z) (ary2 memo : positive) : M Z :=
  match depth with
  | O => timeout
  | S depth =>
      o2 <- get ary2 ;;
      let lim := s32 (idx + a_len o2) in
      let id := rb_obj_id ary2 in
      m <- get memo ;;
      found <- rb_ary_includes id_equal (Z.to_nat (a_len m)) memo id ;;
      if (found : bool) then rb_raise ArgumentError else
      rb_ary_push memo id ;;;
      rb_ary_splice ary idx 1 (Ary ary2) ;;;
      lim <- flatten_loop (fun i tmp => flatten depth ary i tmp memo) (Z.to_nat (a_len o2)) ary idx lim ;;
      _ <- rb_ary_pop memo ;;
      ret (s32 (s32 (lim - idx) - 1))
  end.

(** The result is [mod]. *)
Fixpoint flatten_bang_loop (fuel depth : nat) (ary : positive) (i : Z) (memo : option positive) (mod_ : bool) :
    M bool :=
  o <- get ary ;;
  if i <? a_len o then
    match fuel with
    | O => timeout
    | S fuel =>
        ary2 <- load (a_ptr o) i ;;
        match ary2 with
        | Ary tmp =>
            memo <- match memo with None => rb_ary_new | Some m => ret m end ;;
            k <- flatten depth ary i tmp memo ;;
            flatten_bang_loop fuel depth ary (s32 (s32 (i + k) + 1)) (Some memo) true
        | _ => flatten_bang_loop fuel depth ary (i + 1) memo mod_
        end
    end
  else ret mod_.

Definition rb_ary_flatten_bang (depth : nat) (ary : positive) : M VALUE :=
  o <- get ary ;;
  m <- flatten_bang_loop (Z.to_nat (a_len o)) depth ary 0 None false ;;
  ret (if (m : bool) then Ary ary else Qnil).

Definition rb_ary_flatten (depth : nat) (ary : positive) : M positive :=
  ary <- rb_ary_dup ary ;;
  _ <- rb_ary_flatten_bang depth ary ;;
  ret ary.

(** ** [flatten] is flattening

    [h] has the arrays other than the one that is being flattened. *)

Definition is_ary (v : VALUE) : bool := match v with Ary _ => true | _ => false end.

(** The elements of a list with those of its arrays in their places, and so
    on.  There is no derivation when an array contains itself. *)
Inductive flattens (h : gmap positive alist) : list VALUE -> list VALUE -> Prop :=
  | flattens_nil : flattens h [] []
  | flattens_leaf v l r : is_ary v = false -> flattens h l r -> flattens h (v :: l) (v :: r)
  | flattens_ary t y l r1 r2 :
      h !! t = Some y -> flattens h (elts y) r1 -> flattens h l r2 -> flattens h (Ary t :: l) (r1 ++ r2).

Lemma flattens_leaves h l r : flattens h l r -> forallb (fun v => negb (is_ary v)) r = true.
Proof.
  induction 1; simpl; [reflexivity | now rewrite H | rewrite forallb_app; now apply andb_true_iff].
Qed.

Lemma flattens_unique h l r1 : flattens h l r1 -> forall r2, flattens h l r2 -> r1 = r2.
Proof.
  induction 1 as [| v l r Hv _ IH | t y l ra rb Ht _ IH1 _ IH2]; intros r2 H2.
  - now inversion H2.
  - inversion H2; subst; [|discriminate]. f_equal. auto.
  - inversion H2 as [| | t' y' l' ra' rb' Ht' Ha Hb]; subst; [discriminate|].
    rewrite Ht in Ht'. injection Ht' as <-. f_equal; auto.
Qed.

(** The arrays in [l] are there. *)
Definition known (h : gmap positive alist) (l : list VALUE) : Prop :=
  forall t, Ary t ∈ l -> is_Some (h !! t).

Section Flatten.
Context (h : gmap positive alist) (ary memo : positive) (x : alist) (t0 : bool).
Context (Hx : modify_error x = None) (Hm : modify_error (mkList [] false false t0) = None).
Context (Hne : ary <> memo) (Hary : h !! ary = None) (Hmemo : h !! memo = None).
Context (Hclosed : forall a y, h !! a = Some y -> known h (elts y)).

(** [ary] has the elements [l], the arrays of [path] are being inserted. *)
Definition st (l : list VALUE) (path : list positive) (u : memory) : Prop :=
  wf u /\ abs u = <[memo := mkList (rb_obj_id <$> path) false false t0]> (<[ary := with_elts x l]> h) /\ known h l.

(** What an exception leaves. *)
Definition flatten_exn (e : rb_error) (u : memory) : Prop :=
  size_error e /\ wf u /\ h ⊆ abs u.

Lemma st_ary l path u : st l path u -> abs u !! ary = Some (with_elts x l).
Proof. intros (_ & -> & _). rewrite lookup_insert_ne by congruence. apply lookup_insert_eq. Qed.

Lemma st_memo l path u : st l path u -> abs u !! memo = Some (mkList (rb_obj_id <$> path) false false t0).
Proof. intros (_ & -> & _). apply lookup_insert_eq. Qed.

Lemma st_other l path u t y : st l path u -> h !! t = Some y -> abs u !! t = Some y.
Proof.
  intros (_ & -> & _) Ht. rewrite !lookup_insert_ne; [exact Ht | congruence..].
Qed.

Lemma st_sub l path u : st l path u -> h ⊆ abs u.
Proof. intros S. apply map_subseteq_spec. intros t y Ht. eapply st_other; eauto. Qed.

Lemma st_length l path u : st l path u -> Z.of_nat (length l) < 536870912.
Proof.
  intros S. pose proof (st_ary _ _ _ S) as Ha. destruct S as [W _].
  destruct (abs_get _ _ _ Ha) as (o & Ho & Hv & _). destruct (ary_len _ _ _ _ W Ho Hv). simpl in *. lia.
Qed.

Lemma kept_exn l path u e u' : st l path u -> kept u u' -> size_error e -> flatten_exn e u'.
Proof.
  intros S [W Hs] He. split; [exact He | split; [exact W|]]. etransitivity; [eapply st_sub; exact S | exact Hs].
Qed.

Lemma modify_exn_flatten l path u y e u' :
  st l path u -> modify_error y = None -> modify_exn u y e u' -> flatten_exn e u'.
Proof. intros S Hy [K [[He _]|He]]; [congruence|]. eapply kept_exn; eauto. Qed.

Lemma with_elts_with y l l' : with_elts (with_elts y l) l' = with_elts y l'.
Proof. reflexivity. Qed.

Lemma memo_push_ok l path u t :
  st l path u ->
  wp (rb_ary_push memo (rb_obj_id t)) u (fun _ u' => st l (path ++ [t]) u') flatten_exn.
Proof.
  intros S. pose proof (st_memo _ _ _ S) as Hmm. eapply wp_mono; [exact (push_ok u memo _ _ (proj1 S) Hmm) | |].
  - cbv beta. intros r u' (_ & _ & W' & Hs). injection Hs as Ha _. split; [exact W'|].
    destruct S as (_ & Hu & Hk). split; [|exact Hk]. rewrite Ha, Hu, insert_insert_eq. simpl. now rewrite fmap_app.
  - intros e u' He. eapply modify_exn_flatten; [exact S | | exact He]. exact Hm.
Qed.

Lemma memo_pop_ok l path t u :
  st l (path ++ [t]) u -> wp (rb_ary_pop memo) u (fun _ u' => st l path u') flatten_exn.
Proof.
  intros S. pose proof (st_memo _ _ _ S) as Hmm. eapply wp_mono; [exact (pop_ok u memo _ (proj1 S) Hmm) | |].
  - cbv beta. intros r u' (_ & _ & W' & Hs). injection Hs as Ha _. split; [exact W'|].
    destruct S as (_ & Hu & Hk). split; [|exact Hk]. rewrite Ha, Hu, insert_insert_eq. simpl.
    rewrite fmap_app. change (rb_obj_id <$> [t]) with [rb_obj_id t]. now rewrite removelast_last.
  - intros e u' He. eapply modify_exn_flatten; [exact S | | exact He]. exact Hm.
Qed.

Lemma list_splice_one (pre post : list VALUE) v r :
  list_splice (pre ++ v :: post) (length pre) 1 r = pre ++ r ++ post.
Proof.
  unfold list_splice. rewrite take_app_length. replace (length pre - _)%nat with 0%nat by (rewrite length_app; lia).
  simpl. do 2 f_equal. replace (length pre + 1)%nat with (length (pre ++ [v])) by (rewrite length_app; reflexivity).
  change (v :: post) with ([v] ++ post). rewrite app_assoc. apply drop_app_length.
Qed.

Lemma known_both l1 l2 : known h (l1 ++ l2) <-> known h l1 /\ known h l2.
Proof.
  unfold known. split.
  - intros H. split; intros t Ht; apply H, elem_of_app; auto.
  - intros [H1 H2] t [Ht|Ht]%elem_of_app; auto.
Qed.

Lemma known_cons v l : known h (v :: l) <-> known h [v] /\ known h l.
Proof. apply (known_both [v] l). Qed.

(** An array is put in its place. *)
Lemma expand_ok pre post t y path u :
  st (pre ++ Ary t :: post) path u -> h !! t = Some y ->
  wp (rb_ary_splice ary (Z.of_nat (length pre)) 1 (Ary t)) u (fun _ u' => st (pre ++ elts y ++ post) path u') flatten_exn.
Proof.
  intros S Ht. pose proof (st_ary _ _ _ S) as Ha. pose proof (st_length _ _ _ S) as Hl.
  pose proof (st_other _ _ _ _ _ S Ht) as Hty. destruct (abs_get _ _ _ Hty) as (o & Ho & Hv & _).
  destruct (ary_len _ _ _ _ (proj1 S) Ho Hv) as [Hly Hlb].
  rewrite length_app in Hl. simpl in Hl.
  assert (splice_list (abs u) (Ary t) = Some (elts y)) as Hsp by (simpl; now rewrite Hty).
  eapply wp_mono; [apply (splice_ok u ary _ (Z.of_nat (length pre)) 1 (Ary t) (elts y) (proj1 S) Ha Hsp) | |].
  1-2: change LONG_MIN with (-2147483648); lia.
  1-3: rewrite ?from_end_pos by lia; change LONG_MAX with 2147483647; change (2 ^ 30) with 1073741824;
    change ARY_MAX with 536870912; lia.
  - cbv beta. rewrite from_end_pos by lia. rewrite Nat2Z.id. intros _ u' (_ & _ & _ & W' & Hs). injection Hs as Ha' _.
    split; [exact W'|]. destruct S as (_ & Hu & Hk). split.
    + rewrite Ha', Hu. rewrite insert_insert_ne, insert_insert_eq by congruence. simpl.
      change (Pos.to_nat 1) with 1%nat. now rewrite list_splice_one.
    + apply known_both in Hk as [Hk1 Hk2]. apply known_cons in Hk2 as [_ Hk2].
      apply known_both. split; [exact Hk1|]. apply known_both. split; [eapply Hclosed; eauto | exact Hk2].
  - cbv beta. rewrite from_end_pos by lia. intros e u'. destruct (_ || _) eqn:E.
    { apply orb_true_iff in E as [E|E]; breflect; lia. }
    intros [K [[He _]|He]]; [change (modify_error x = Some e) in He; congruence|]. eapply kept_exn; eauto.
Qed.

Lemma elt_at_ok pre v post path u :
  st (pre ++ v :: post) path u ->
  wp (rb_ary_elt ary (Z.of_nat (length pre))) u (fun e u' => e = v /\ u' = u) flatten_exn.
Proof.
  intros S. eapply wp_mono; [exact (elt_ok u ary _ _ (proj1 S) (st_ary _ _ _ S)) | | done].
  cbv beta. intros e u' [-> ->]. split; [|reflexivity]. destruct (_ <? 0) eqn:?; breflect; [lia|].
  rewrite Nat2Z.id. simpl. now rewrite list_lookup_middle.
Qed.

(** The elements [todo] are gone through; [rec] flattens an array. *)
Lemma flatten_loop_ok rec path post todo : forall pre u,
  (forall pre t post u, is_Some (h !! t) -> st (pre ++ Ary t :: post) path u ->
     wp (rec (Z.of_nat (length pre)) t) u
       (fun k u' => exists r, flattens h [Ary t] r /\ st (pre ++ r ++ post) path u' /\ k = Z.of_nat (length r) - 1)
       flatten_exn) ->
  st (pre ++ todo ++ post) path u ->
  wp (flatten_loop rec (length todo) ary (Z.of_nat (length pre)) (Z.of_nat (length (pre ++ todo)))) u
    (fun lim u' => exists r, flattens h todo r /\ st (pre ++ r ++ post) path u' /\ lim = Z.of_nat (length (pre ++ r)))
    flatten_exn.
Proof.
  induction todo as [|v todo IH]; intros pre u Hrec S; simpl; rewrite length_app; simpl.
  - wp_if; [lia|]. apply wp_ret. exists []. split; [constructor | split; [exact S|]]. rewrite length_app. simpl. lia.
  - wp_if; [|lia]. apply wp_bind. simpl in S. eapply wp_mono; [exact (elt_at_ok _ _ _ _ _ S) | | auto].
    cbv beta. intros e u' [-> ->].
    assert (forall r1 u', flattens h [v] r1 -> st (pre ++ r1 ++ todo ++ post) path u' ->
      wp (flatten_loop rec (length todo) ary (Z.of_nat (length (pre ++ r1))) (Z.of_nat (length ((pre ++ r1) ++ todo)))) u'
        (fun lim u' => exists r, flattens h (v :: todo) r /\ st (pre ++ r ++ post) path u' /\
           lim = Z.of_nat (length (pre ++ r))) flatten_exn) as Hnext.
    { intros r1 u' Hr1 S'. rewrite app_assoc in S'. eapply wp_mono; [apply (IH (pre ++ r1) u' Hrec S') | | auto].
      cbv beta. intros lim w (r2 & Hf & S2 & Hlim). exists (r1 ++ r2). split.
      - inversion Hr1 as [| ? ? ? Hv Hnil | ? ? ? ra rb Ht Ha Hnil]; subst; inversion Hnil; subst.
        + now constructor.
        + rewrite app_nil_r. econstructor; eauto.
      - rewrite <- !app_assoc in *. split; [exact S2 | exact Hlim]. }
    pose proof (st_length _ _ _ S) as Hlen. rewrite length_app in Hlen. simpl in Hlen. rewrite length_app in Hlen.
    destruct v as [| | | n | id | f l ex | t | id].
    7: { apply wp_bind. assert (is_Some (h !! t)) as Ht.
      { destruct S as (_ & _ & Hk). apply known_both in Hk as [_ Hk]. apply Hk. left. }
      eapply wp_mono; [apply Hrec; [exact Ht | exact S] | | auto].
      cbv beta. intros k u' (r1 & Hf & S1 & ->). specialize (Hnext r1 u' Hf S1). rewrite !length_app in Hnext.
      pose proof (st_length _ _ _ S1) as Hlen1. rewrite !length_app in Hlen1.
      rewrite (s32_small (Z.of_nat (length pre) + _)), (s32_small (_ + 1)), s32_small by lia.
      replace (Z.of_nat (length pre) + (Z.of_nat (length r1) - 1) + 1) with (Z.of_nat (length pre + length r1)) by lia.
      replace (Z.of_nat (length pre + Datatypes.S (length todo)) + (Z.of_nat (length r1) - 1))
        with (Z.of_nat (length pre + length r1 + length todo)) by lia. exact Hnext. }
    all: specialize (Hnext [_] u ltac:(constructor; [reflexivity | constructor]) S); rewrite !length_app in Hnext; simpl in Hnext;
      replace (Z.of_nat (length pre) + 1) with (Z.of_nat (length pre + 1)) by lia;
      replace (Z.of_nat (length pre + Datatypes.S (length todo))) with (Z.of_nat (length pre + 1 + length todo)) by lia; exact Hnext.
Qed.

Lemma path_bound (path : list positive) :
  NoDup path -> (forall a, a ∈ path -> is_Some (h !! a)) -> (length path <= size h)%nat.
Proof.
  intros Hnd Hin. rewrite <- (size_dom (D := gset positive) h), <- (size_list_to_set (C := gset positive) path Hnd).
  apply subseteq_size. intros a Ha. apply elem_of_list_to_set in Ha. apply elem_of_dom. auto.
Qed.

Lemma rb_obj_id_inj a b : rb_obj_id a = rb_obj_id b -> a = b.
Proof. unfold rb_obj_id. congruence. Qed.

(** The test for recursion. *)
Lemma includes_id_ok l path u t (k : bool -> M Z) Q :
  st l path u ->
  (t ∈ path -> wp (k true) u Q flatten_exn) -> (t ∉ path -> wp (k false) u Q flatten_exn) ->
  wp (m <- get memo ;;
      found <- rb_ary_includes id_equal (Z.to_nat (a_len m)) memo (rb_obj_id t) ;;
      k found) u Q flatten_exn.
Proof.
  intros S Hyes Hno. pose proof (st_memo _ _ _ S) as Hmm.
  eapply wp_head; [exact (proj1 S) | exact Hmm |]. intros o _ Hl. simpl in Hl. rewrite length_fmap in Hl.
  rewrite Hl, Nat2Z.id. apply wp_bind.
  eapply wp_mono; [apply (includes_loop_ok (fun v w => bool_decide (v = w)) u memo _ (rb_obj_id t) (proj1 S) Hmm
    (length path) 0) | | done].
  - simpl. rewrite length_fmap. lia.
  - cbv beta. intros found u' [-> ->]. simpl. rewrite drop_0. destruct (existsb _ _) eqn:E.
    + apply Hyes. apply existsb_exists in E as (v & Hv & He). apply bool_decide_eq_true in He as ->.
      apply list_elem_of_In, list_elem_of_fmap in Hv as (a & He & Ha). apply rb_obj_id_inj in He as ->. exact Ha.
    + apply Hno. intros Hin. assert (existsb (fun v => bool_decide (v = rb_obj_id t)) (rb_obj_id <$> path) = true) as E2.
      { apply existsb_exists. exists (rb_obj_id t). split; [|now apply bool_decide_eq_true].
        apply list_elem_of_In, list_elem_of_fmap. eauto. }
      congruence.
Qed.

(** With [memo] the path from the top, the depth is bounded by the number of
    arrays. *)
Lemma flatten_ok d : forall path pre t post u,
  NoDup path -> (forall a, a ∈ path -> is_Some (h !! a)) -> (size h < d + length path)%nat ->
  is_Some (h !! t) -> st (pre ++ Ary t :: post) path u ->
  wp (flatten d ary (Z.of_nat (length pre)) t memo) u
    (fun k u' => exists r, flattens h [Ary t] r /\ st (pre ++ r ++ post) path u' /\ k = Z.of_nat (length r) - 1)
    flatten_exn.
Proof.
  induction d as [|d IH]; intros path pre t post u Hnd Hin Hd [y Ht] Hst.
  { pose proof (path_bound path Hnd Hin). lia. }
  simpl. pose proof (st_other _ _ _ _ _ Hst Ht) as Hty.
  eapply wp_head; [exact (proj1 Hst) | exact Hty |]. intros o2 _ Hl2.
  pose proof (st_length _ _ _ Hst) as Hlen. rewrite length_app in Hlen. simpl in Hlen.
  destruct (abs_get _ _ _ Hty) as (o & Ho & Hv & _). destruct (ary_len _ _ _ _ (proj1 Hst) Ho Hv) as [Hly Hlb].
  rewrite Hl2, Nat2Z.id. rewrite s32_small by lia.
  eapply includes_id_ok; [exact Hst | |].
  { intros _. apply wp_raise. split; [right; reflexivity | split; [exact (proj1 Hst) | eapply st_sub; exact Hst]]. }
  intros Hnot. apply wp_bind. eapply wp_mono; [exact (memo_push_ok _ _ _ t Hst) | | auto].
  cbv beta. intros _ u1 S1. apply wp_bind. eapply wp_mono; [exact (expand_ok _ _ _ _ _ _ S1 Ht) | | auto].
  cbv beta. intros _ u2 S2. apply wp_bind.
  replace (Z.of_nat (length pre) + Z.of_nat (length (elts y))) with (Z.of_nat (length (pre ++ elts y)))
    by (rewrite length_app; lia).
  eapply wp_mono; [apply (flatten_loop_ok _ (path ++ [t]) post (elts y) pre u2) | | auto].
  - intros pre' t' post' u' Ht' S'. apply (IH (path ++ [t])); [| | | exact Ht' | exact S'].
    + apply NoDup_app. split; [exact Hnd | split; [|apply NoDup_singleton]].
      intros a Ha ->%list_elem_of_singleton. contradiction.
    + intros a [Ha| ->%list_elem_of_singleton]%elem_of_app; [auto | eauto].
    + rewrite length_app. simpl. lia.
  - exact S2.
  - cbv beta. intros lim u3 (r & Hf & S3 & ->). apply wp_bind.
    eapply wp_mono; [exact (memo_pop_ok _ _ _ _ S3) | | auto]. cbv beta. intros _ u4 S4. apply wp_ret.
    pose proof (st_length _ _ _ S4) as Hlen4. rewrite !length_app in *.
    exists r. split; [|split; [exact S4|]].
    + rewrite <- (app_nil_r r). econstructor; [exact Ht | exact Hf | constructor].
    + rewrite (s32_small (Z.of_nat (length pre + length r) - Z.of_nat (length pre))), s32_small by lia. lia.
Qed.

Lemma flattens_cons v l r1 r2 : flattens h [v] r1 -> flattens h l r2 -> flattens h (v :: l) (r1 ++ r2).
Proof.
  intros Hr1 Hr2. inversion Hr1 as [| ? ? ? Hv Hnil | ? ? ? ra rb Ht Ha Hnil]; subst; inversion Hnil; subst.
  - now constructor.
  - rewrite app_nil_r. econstructor; eauto.
Qed.

Lemma st_item pre v post path u (k : RArray -> M bool) (Q : bool -> memory -> Prop) :
  st (pre ++ v :: post) path u ->
  (forall o, view u o = Some (pre ++ v :: post) -> Z.of_nat (length pre) < a_len o -> wp (k o) u Q flatten_exn) ->
  wp (o <- get ary ;; k o) u Q flatten_exn.
Proof.
  intros Hst Hk. eapply wp_head; [exact (proj1 Hst) | exact (st_ary _ _ _ Hst) |].
  intros o Hv Hl. apply Hk; [exact Hv|]. simpl in Hl. rewrite Hl, length_app. simpl. lia.
Qed.

(** Once there is a [memo]. *)
Lemma flatten_bang_some_ok d todo : (size h < d)%nat -> forall pre u fuel,
  (length todo <= fuel)%nat -> st (pre ++ todo) [] u ->
  wp (flatten_bang_loop fuel d ary (Z.of_nat (length pre)) (Some memo) true) u
    (fun m u' => m = true /\ exists r, flattens h todo r /\ st (pre ++ r) [] u') flatten_exn.
Proof.
  intros Hd. induction todo as [|v todo IH]; intros pre u fuel Hfu Hst.
  - destruct fuel; simpl; (eapply wp_head; [exact (proj1 Hst) | exact (st_ary _ _ _ Hst) |]); intros o _ Hl;
      simpl in Hl; rewrite app_nil_r in Hl; (wp_if; [lia|]); apply wp_ret; (split; [reflexivity|]);
      exists []; (split; [constructor | exact Hst]).
  - simpl in Hfu. destruct fuel as [|fuel]; [lia|]. simpl. eapply st_item; [exact Hst|]. intros o Hv Hlt.
    wp_if; [|lia]. eapply wp_item; [exact Hv | now apply list_lookup_middle |].
    assert (forall r1 u', flattens h [v] r1 -> st (pre ++ r1 ++ todo) [] u' ->
      wp (flatten_bang_loop fuel d ary (Z.of_nat (length (pre ++ r1))) (Some memo) true) u'
        (fun m u' => m = true /\ exists r, flattens h (v :: todo) r /\ st (pre ++ r) [] u') flatten_exn) as Hnext.
    { intros r1 u' Hr1 S'. rewrite app_assoc in S'. eapply wp_mono; [apply (IH (pre ++ r1) u' fuel ltac:(lia) S') | | auto].
      cbv beta. intros m w (-> & r2 & Hf & S2). split; [reflexivity|]. exists (r1 ++ r2).
      split; [now apply flattens_cons | now rewrite app_assoc]. }
    destruct v as [| | | n | id | f l ex | t | id].
    7: { apply wp_bind, wp_ret, wp_bind. assert (is_Some (h !! t)) as Ht.
      { destruct Hst as (_ & _ & Hk). apply known_both in Hk as [_ Hk]. apply Hk. left. }
      eapply wp_mono; [apply (flatten_ok d [] pre t todo u); [constructor | intros a Ha; inversion Ha | simpl; lia | exact Ht | exact Hst] | | auto].
      cbv beta. intros k u' (r1 & Hf & S1 & ->). specialize (Hnext r1 u' Hf S1).
      pose proof (st_length _ _ _ S1) as Hlen1. rewrite !length_app in *.
      rewrite (s32_small (Z.of_nat (length pre) + _)), s32_small by lia.
      replace (Z.of_nat (length pre) + (Z.of_nat (length r1) - 1) + 1) with (Z.of_nat (length pre + length r1)) by lia.
      exact Hnext. }
    all: specialize (Hnext [_] u ltac:(constructor; [reflexivity | constructor]) Hst); rewrite length_app in Hnext; simpl in Hnext;
      replace (Z.of_nat (length pre) + 1) with (Z.of_nat (length pre + 1)) by lia; exact Hnext.
Qed.
End Flatten.

(** A new array can be changed. *)
Lemma fresh_no_error l b : modify_error (mkList l false false (b || tainted_by_level)) = None.
Proof.
  unfold modify_error, tainted_by_level. simpl. destruct (3 <=? safe_level) eqn:E3.
  - rewrite orb_true_r. reflexivity.
  - destruct (4 <=? safe_level) eqn:E4; [breflect; lia | now rewrite andb_false_r].
Qed.

Section FlattenBang.
Context (h : gmap positive alist) (ary : positive) (x : alist) (d : nat).
Context (Hx : modify_error x = None) (Hary : h !! ary = None) (Hd : (size h < d)%nat).
Context (Hclosed : forall a y, h !! a = Some y -> known h (elts y)).

(** Until the first array is met there is no [memo]. *)
Lemma flatten_bang_none_ok todo : forall pre u fuel,
  (length todo <= fuel)%nat -> wf u -> abs u = <[ary := with_elts x (pre ++ todo)]> h -> known h (pre ++ todo) ->
  wp (flatten_bang_loop fuel d ary (Z.of_nat (length pre)) None false) u
    (fun m u' => m = existsb is_ary todo /\ exists r, flattens h todo r /\ wf u' /\
       abs u' !! ary = Some (with_elts x (pre ++ r)) /\ h ⊆ abs u') (flatten_exn h).
Proof.
  induction todo as [|v todo IH]; intros pre u fuel Hfu W Ha Hk.
  - assert (abs u !! ary = Some (with_elts x (pre ++ []))) as Hl0 by (rewrite Ha; apply lookup_insert_eq).
    destruct fuel; simpl; (eapply wp_head; [exact W | exact Hl0 |]); intros o _ Hl;
      simpl in Hl; rewrite app_nil_r in Hl; (wp_if; [lia|]); apply wp_ret; (split; [reflexivity|]);
      exists []; (split; [constructor | split; [exact W | split; [exact Hl0|]]]);
      rewrite Ha; now apply insert_subseteq.
  - assert (abs u !! ary = Some (with_elts x (pre ++ v :: todo))) as Hl0 by (rewrite Ha; apply lookup_insert_eq).
    simpl in Hfu. destruct fuel as [|fuel]; [lia|]. simpl. eapply wp_head; [exact W | exact Hl0 |]. intros o Hv Hl.
    simpl in Hv, Hl. rewrite length_app in Hl. simpl in Hl. wp_if; [|lia].
    eapply wp_item; [exact Hv | now apply list_lookup_middle |].
    assert (is_ary v = false ->
      wp (flatten_bang_loop fuel d ary (Z.of_nat (length pre) + 1) None false) u
        (fun m u' => m = existsb is_ary (v :: todo) /\ exists r, flattens h (v :: todo) r /\ wf u' /\
           abs u' !! ary = Some (with_elts x (pre ++ r)) /\ h ⊆ abs u') (flatten_exn h)) as Hleaf.
    { intros Hv0. replace (Z.of_nat (length pre) + 1) with (Z.of_nat (length (pre ++ [v])))
        by (rewrite length_app; simpl; lia).
      assert ((pre ++ [v]) ++ todo = pre ++ v :: todo) as Happ by now rewrite <- app_assoc.
      eapply wp_mono; [apply (IH (pre ++ [v]) u fuel ltac:(lia) W); now rewrite Happ | | auto].
      cbv beta. intros m u' (-> & r & Hf & W' & Ha' & Hsub). simpl. rewrite Hv0. split; [reflexivity|].
      exists (v :: r). rewrite <- app_assoc in Ha'. split; [now constructor | auto]. }
    destruct v as [| | | n | id | f l ex | t | id].
    7: { clear Hleaf. apply wp_bind. unfold rb_ary_new. eapply wp_mono; [apply (new2_ok u); [exact W | unfold ARY_DEFAULT_SIZE, ARY_MAX; lia] | |].
      2: { cbv beta. intros e u' [K He]. split; [exact He | split; [exact (proj1 K)|]].
        etransitivity; [|exact (proj2 K)]. rewrite Ha. now apply insert_subseteq. }
      cbv beta. intros memo u1 F. pose proof (fresh_kept _ _ _ _ _ W F) as K1.
      destruct F as [-> [W1 Hs1]]. injection Hs1 as Ha1 _.
      assert (next_ary u <> ary) as Hne.
      { intros Heq. rewrite <- Heq, (abs_fresh u W) in Hl0. discriminate. }
      assert (h !! next_ary u = None) as Hmemo.
      { pose proof (abs_fresh u W) as Hfr. rewrite Ha, lookup_insert_ne in Hfr by congruence. exact Hfr. }
      assert (st h ary (next_ary u) x tainted_by_level (pre ++ Ary t :: todo) [] u1) as Hst.
      { split; [exact W1 | split; [|exact Hk]]. rewrite Ha1, Ha. reflexivity. }
      assert (is_Some (h !! t)) as Ht by (apply known_both in Hk as [_ Hk]; apply Hk; left).
      pose proof (fresh_no_error [] false) as Hm. apply wp_bind.
      eapply wp_mono; [apply (flatten_ok h ary (next_ary u) x tainted_by_level Hx Hm (not_eq_sym Hne) Hary Hmemo Hclosed d [] pre t todo u1);
        [constructor | intros a Hin; inversion Hin | simpl; lia | exact Ht | exact Hst] | | auto].
      cbv beta. intros k u2 (r1 & Hf & S1 & ->).
      pose proof (st_length _ _ _ _ _ (not_eq_sym Hne) _ _ _ S1) as Hlen1. rewrite !length_app in Hlen1.
      rewrite (s32_small (Z.of_nat (length pre) + _)), s32_small by lia.
      replace (Z.of_nat (length pre) + (Z.of_nat (length r1) - 1) + 1) with (Z.of_nat (length (pre ++ r1)))
        by (rewrite length_app; lia). rewrite app_assoc in S1.
      eapply wp_mono; [apply (flatten_bang_some_ok h ary (next_ary u) x tainted_by_level Hx Hm (not_eq_sym Hne) Hary Hmemo Hclosed d todo Hd
        (pre ++ r1) u2 fuel ltac:(lia) S1) | | auto].
      cbv beta. intros m u3 (-> & r2 & Hf2 & S2). split; [reflexivity|]. exists (r1 ++ r2).
      split; [now apply flattens_cons | split; [exact (proj1 S2) | split]].
      - rewrite app_assoc. eapply st_ary; [exact (not_eq_sym Hne) | exact S2].
      - eapply st_sub; [| | exact S2]; assumption. }
    all: exact (Hleaf eq_refl).
Qed.

(** [flatten!], of an array that no array contains. *)
Lemma flatten_bang_ok s :
  wf s -> abs s = <[ary := x]> h -> known h (elts x) ->
  wp (rb_ary_flatten_bang d ary) s
    (fun v u => v = (if existsb is_ary (elts x) then Ary ary else Qnil) /\
       exists r, flattens h (elts x) r /\ wf u /\ abs u !! ary = Some (with_elts x r) /\ h ⊆ abs u) (flatten_exn h).
Proof.
  intros W Ha Hk. unfold rb_ary_flatten_bang.
  eapply wp_head; [exact W | rewrite Ha; apply lookup_insert_eq |]. intros o _ Hl. apply wp_bind.
  eapply wp_mono; [apply (flatten_bang_none_ok (elts x) [] s (Z.to_nat (a_len o))) | | auto].
  - rewrite Hl. lia.
  - exact W.
  - simpl. now rewrite with_elts_id.
  - exact Hk.
  - cbv beta. intros m u (-> & r & Hr). apply wp_ret. split; [reflexivity | exists r; exact Hr].
Qed.
End FlattenBang.

Lemma flattens_sub h h' l r : h ⊆ h' -> flattens h l r -> flattens h' l r.
Proof.
  intros Hs. induction 1; [constructor | now constructor | econstructor; eauto using lookup_weaken].
Qed.

(** C15: flatten of any array in any memory without dangling references -
    arrays that share blocks, that occur many times or that contain themselves
    included - comes to its end with a depth of recursion of at most the
    number of arrays plus one, never leaves a block, and changes no array that
    was there.  A new array is returned only where the elements of the array
    can be flattened, which an array containing itself cannot, and it has the
    flattened elements; otherwise the code raises ArgumentError, or
    NoMemoryError. *)
Theorem flatten_flattens s a x d :
  wf s -> abs s !! a = Some x ->
  (forall b y, abs s !! b = Some y -> known (abs s) (elts y)) ->
  (size (abs s) < d)%nat ->
  wp (rb_ary_flatten d a) s
    (fun r u => r = next_ary s /\ wf u /\ abs s ⊆ abs u /\
       exists l, flattens (abs s) (elts x) l /\
         abs u !! r = Some (mkList l false false (l_tainted x || tainted_by_level)))
    (fun e u => size_error e /\ wf u /\ abs s ⊆ abs u).
Proof.
  intros W Hx Hclosed Hd. unfold rb_ary_flatten. apply wp_bind.
  eapply wp_mono; [exact (dup_ok s a x W Hx) | | intros e u [K He]; split; [exact He | exact K]].
  cbv beta. intros r s1 [-> [W1 Hs]]. injection Hs as Ha _.
  pose proof (abs_fresh s W) as Hfr. apply wp_bind.
  set (y := mkList (elts x) false false (l_tainted x || tainted_by_level)) in *.
  eapply wp_mono; [apply (flatten_bang_ok (abs s) (next_ary s) y d (fresh_no_error (elts x) (l_tainted x)) Hfr Hd Hclosed s1 W1 Ha) | | auto].
  - exact (Hclosed a x Hx).
  - cbv beta. intros v u (_ & l & Hf & Wu & Hau & Hsub). apply wp_ret. splits; auto. exists l. split; [exact Hf | exact Hau].
Qed.

End Nest.

(** ** Programs *)

(** [[1, [2, [3]], [3]]], with one array [[3]]; and the same with the outer
    array put into the inner one. *)
Definition nested : M positive :=
  three <- @rb_ary_new4 plenty [Num 3] ;;
  two <- @rb_ary_new4 plenty [Num 2; Ary three] ;;
  @rb_ary_new4 plenty [Num 1; Ary two; Ary three].
Definition nested_memory : memory :=
  match nested empty_memory with Val _ s => s | _ => empty_memory end.

Example flatten_nested :
  match @rb_ary_flatten plenty 4 3 nested_memory with
  | Val r u => elts <$> (abs u !! r) = Some [Num 1; Num 2; Num 3; Num 3]
  | _ => False
  end.
Proof. vm_compute. reflexivity. Qed.

Example flatten_recursive :
  match (@rb_ary_push plenty 1 (Ary 3) ;;; @rb_ary_flatten plenty 4 3) nested_memory with
  | Exn ArgumentError u => elts <$> (abs u !! 3%positive) = Some [Num 1; Ary 2; Ary 1]
  | _ => False
  end.
Proof. vm_compute. reflexivity. Qed.

(** The elements of an array of arrays. *)
Definition rows (r : positive) (u : memory) : option (list (option (list VALUE))) :=
  y ← abs u !! r; Some ((fun v => match v with Ary c => elts <$> (abs u !! c) | _ => None end) <$> elts y).

Example transpose_rows :
  (a <- @rb_ary_new4 plenty [Num 1; Num 2; Num 3] ;;
   b <- @rb_ary_new4 plenty [Num 4; Num 5; Num 6] ;;
   m <- @rb_ary_new4 plenty [Ary a; Ary b] ;;
   t <- @rb_ary_transpose plenty m ;;
   (fun u => Val (rows t u) u)) empty_memory =
  (a <- @rb_ary_new4 plenty [Num 1; Num 2; Num 3] ;;
   b <- @rb_ary_new4 plenty [Num 4; Num 5; Num 6] ;;
   m <- @rb_ary_new4 plenty [Ary a; Ary b] ;;
   @rb_ary_transpose plenty m ;;;
   ret (Some [Some [Num 1; Num 4]; Some [Num 2; Num 5]; Some [Num 3; Num 6]])) empty_memory.
Proof. vm_compute. reflexivity. Qed.

Example zip_rows :
  match (a <- @rb_ary_new4 plenty [Num 1; Num 2; Num 3] ;;
         b <- @rb_ary_new4 plenty [Num 4; Num 5] ;;
         @rb_ary_zip plenty [Ary b] a) empty_memory with
  | Val (Ary t) u => rows t u = Some [Some [Num 1; Num 4]; Some [Num 2; Num 5]; Some [Num 3; Qnil]]
  | _ => False
  end.
Proof. vm_compute. reflexivity. Qed.

Example assoc_finds :
  match (a <- @rb_ary_new4 plenty [Num 1; Sym 1] ;;
         b <- @rb_ary_new4 plenty [Num 2; Sym 2] ;;
         m <- @rb_ary_new4 plenty [Ary a; Num 7; Ary b] ;;
         v <- rb_ary_assoc id_equal 5 m (Num 2) ;;
         w <- rb_ary_rassoc id_equal 5 m (Sym 1) ;;
         ret (v, w)) empty_memory with
  | Val r _ => r = (Ary 2, Ary 1)
  | _ => False
  end.
Proof. vm_compute. reflexivity. Qed.

(** *** The theorem on [flatten], at the nested arrays *)

Lemma new4_run l s r s' :
  wf s -> Z.of_nat (length l) < 2 ^ 30 -> @rb_ary_new4 plenty l s = Val r s' ->
  wf s' /\ r = next_ary s /\ abs s' = <[next_ary s := mkList l false false false]> (abs s) /\
  next_ary s' = Pos.succ (next_ary s).
Proof.
  intros W Hl Hrun. pose proof (@new4_ok plenty s l W Hl) as Hwp. unfold wp in Hwp. rewrite Hrun in Hwp.
  destruct Hwp as [-> [W' Hs]]. injection Hs as Ha Hn. splits; auto. rewrite Hn. lia.
Qed.

Lemma nested_ok :
  wf nested_memory /\
  abs nested_memory = <[3%positive := mkList [Num 1; Ary 2; Ary 1] false false false]>
    (<[2%positive := mkList [Num 2; Ary 1] false false false]>
       (<[1%positive := mkList [Num 3] false false false]> ∅)) /\
  next_ary nested_memory = 4%positive.
Proof.
  assert (exists s, nested empty_memory = Val 3%positive s) as [s Hrun] by (eexists; vm_compute; reflexivity).
  unfold nested_memory. rewrite Hrun. unfold nested in Hrun.
  destruct (@rb_ary_new4 plenty [Num 3] empty_memory) as [r1 s1| | | |] eqn:E1; unfold bindM in Hrun; rewrite E1 in Hrun; try discriminate.
  destruct (new4_run [Num 3] _ _ _ wf_empty ltac:(reflexivity) E1) as (W1 & -> & A1 & N1).
  destruct (@rb_ary_new4 plenty [Num 2; Ary (next_ary empty_memory)] s1) as [r2 s2| | | |] eqn:E2; try discriminate.
  destruct (new4_run [Num 2; Ary _] _ _ _ W1 ltac:(reflexivity) E2) as (W2 & -> & A2 & N2).
  destruct (new4_run [Num 1; Ary _; Ary _] _ _ _ W2 ltac:(reflexivity) Hrun) as (W3 & _ & A3 & N3).
  rewrite N1 in *. rewrite N2 in *. split; [exact W3 | split; [|exact N3]]. rewrite A3, A2, A1. reflexivity.
Qed.

Lemma known_bool h l :
  forallb (fun v => match v with Ary t => match h !! t with Some _ => true | None => false end | _ => true end) l = true ->
  known h l.
Proof.
  intros Hl t Ht. rewrite forallb_forall in Hl. apply list_elem_of_In in Ht. specialize (Hl _ Ht). simpl in Hl.
  destruct (h !! t); [eauto | discriminate].
Qed.

Lemma flatten_flattens_witness :
  wp (@rb_ary_flatten plenty 4 3) nested_memory
    (fun r u => r = 4%positive /\ wf u /\ abs nested_memory ⊆ abs u /\
       exists l, flattens (abs nested_memory) [Num 1; Ary 2; Ary 1] l /\
         abs u !! r = Some (mkList l false false false))
    (fun e u => size_error e /\ wf u /\ abs nested_memory ⊆ abs u).
Proof.
  destruct nested_ok as (W & Ha & Hn). rewrite <- Hn.
  apply (@flatten_flattens plenty nested_memory 3 (mkList [Num 1; Ary 2; Ary 1] false false false) 4 W).
  - rewrite Ha. apply lookup_insert_eq.
  - rewrite Ha. intros b y Hb. rewrite !lookup_insert_Some, lookup_empty in Hb.
    destruct Hb as [[_ <-] | [_ [[_ <-] | [_ [[_ <-] | [_ Hb]]]]]]; [| | |discriminate];
      apply known_bool; vm_compute; reflexivity.
  - rewrite Ha. vm_compute. lia.
Defined.

