(* ===== verification/ArrayBounds.v ===== *)
(** * Arrays: where the checks of array.c end

    The theorems of ArrayRefine.v are about indices and lengths within their
    ranges.  Here is what happens outside: what [rb_ary_store] does for every
    index past the block, the slices longer than their array, and, on concrete
    programs, the other operations whose arithmetic or whose callbacks get
    past the checks. *)

From Stdlib Require Import ZArith Lia List Bool.
From stdpp Require Import base list gmap.
From S2P Require Import Prelude CInt ArrayMem Array ArrayInv ArrayOps ArrayRefine ArrayIter.
Local Open Scope Z_scope.
Local Open Scope array_scope.

(** ** Runs *)

Section Bounds.
Context {machine : Machine}.

Lemma bind_val {A C} (m : M A) (k : A -> M C) s a s' : m s = Val a s' -> bindM m k s = k a s'.
Proof. unfold bindM. now intros ->. Qed.

Lemma bind_crash {A C} (m : M A) (k : A -> M C) s : m s = Crash -> bindM m k s = Crash.
Proof. unfold bindM. now intros ->. Qed.

(** A triple without exceptions is a run. *)
Lemma wp_val {A} (m : M A) s (Q : A -> memory -> Prop) :
  wp m s Q (fun _ _ => False) -> exists a s', m s = Val a s' /\ Q a s'.
Proof. unfold wp. destruct (m s); try done. eauto. Qed.

Lemma wp_run {A} (m : M A) s a s' :
  wp m s (fun r t => r = a /\ t = s') (fun _ _ => False) -> m s = Val a s'.
Proof. intros H%wp_val. destruct H as (? & ? & H & -> & ->). exact H. Qed.

(** A loop that runs off the block. *)
Lemma fill_cells_overrun off size v (cs : list cell) :
  size < 0 \/ Z.of_nat (length cs) < Z.of_nat off + size -> size <> 0 ->
  fill_cells off size v cs = None.
Proof.
  revert off size; induction cs as [|c cs IH]; intros off size H Hz; simpl;
    (destruct (size =? 0) eqn:E0; breflect; [lia|]); [reflexivity|].
  destruct off as [|off].
  - destruct (decide (size = 1)) as [-> | H1]; [simpl in H; lia|]. rewrite IH; [reflexivity | simpl in *; lia | lia].
  - rewrite IH; [reflexivity | simpl in *; lia | exact Hz].
Qed.

Lemma memfill_overrun s0 a s o cs i size v :
  focus s0 a s o cs -> 0 <= i -> size < 0 \/ Z.of_nat (length cs) < i + size -> size <> 0 ->
  memfill (padd (a_ptr o) i) size v s = Crash.
Proof.
  intros F Hi H Hz. unfold memfill. destruct (size =? 0) eqn:E; breflect; [lia|].
  destruct (a_ptr o) as [[b off]|] eqn:Ep; [|reflexivity]. destruct (focus_block _ _ _ _ _ _ _ F Ep) as [-> Hb].
  simpl. erewrite bind_val; [|unfold get_block; now rewrite Hb]. change (0 + i) with i. destruct (i <? 0) eqn:?; breflect; [lia|].
  rewrite fill_cells_overrun; [reflexivity | lia | exact Hz].
Qed.

Lemma store_overrun s0 a s o cs i v :
  focus s0 a s o cs -> 0 <= i -> Z.of_nat (length cs) <= i -> store (a_ptr o) i v s = Crash.
Proof.
  intros F Hi H. unfold store, write_cells.
  destruct (a_ptr o) as [[b off]|] eqn:Ep; [|reflexivity]. destruct (focus_block _ _ _ _ _ _ _ F Ep) as [-> Hb].
  simpl. erewrite bind_val; [|unfold get_block; now rewrite Hb].
  destruct (in_block _ _ _) eqn:E; [|reflexivity]. unfold in_block in E. breflect. simpl in *. lia.
Qed.

(** ** [rb_ary_store], past the block *)

(** The size it asks for. *)
Definition store_capa (c idx : Z) : Z := Z.max (cdiv c 2) ARY_DEFAULT_SIZE + idx.

Context (enough : forall b n, malloc_ok b n = true).

(** With memory for every size, [REALLOC_N] only refuses a negative one. *)
Lemma realloc_run s0 a s o cs n : focus s0 a s o cs -> 0 <= bytes n ->
  exists s' b, REALLOC_N a n s = Val tt s' /\
    focus s0 a s' (set_ptr (Some (b, 0)) o) (resize (cells_of (bytes n)) None cs).
Proof.
  intros F Hn.
  assert (wp (REALLOC_N a n) s (fun _ s' => exists b,
    focus s0 a s' (set_ptr (Some (b, 0)) o) (resize (cells_of (bytes n)) None cs)) (fun e _ => e = NoMemoryError)) as Hwp.
  { eapply focus_realloc; [exact F | reflexivity | lia | eauto]. }
  unfold wp in Hwp. destruct (REALLOC_N a n s) as [[] s' | e s' | | | ] eqn:E; try done.
  - destruct Hwp as [b Hf]. eauto.
  - exfalso. subst e. revert E. unfold REALLOC_N, xrealloc, xmalloc, has_memory, bindM, get_block, crash, rb_raise, upd.
    fold (bytes n). destruct (get a s) as [oo ss | | | | ] eqn:Eg; try done;
      [|unfold get in Eg; destruct (arys s !! a); discriminate].
    assert (bytes n <? 0 = false) as Hb0 by lia.
    rewrite ?Hb0. destruct (a_ptr oo) as [[b off]|]; rewrite ?enough, ?Hb0; simpl.
    + destruct (negb (off =? 0)); [done|]. destruct (blocks ss !! b); [|done]. simpl. destruct (arys ss !! a); done.
    + rewrite ?enough. destruct (arys ss !! a); done.
Qed.

(** The rest of [rb_ary_store], when the new block does not have the word. *)
Lemma store_rest_crash s0 a s o cs idx v :
  focus s0 a s o cs -> 0 <= a_len o <= idx -> Z.of_nat (length cs) <= idx <= LONG_MAX ->
  (o <- get a ;;
   (if a_len o <? idx
    then rb_mem_clear (padd (a_ptr o) (a_len o)) (s32 (s32 (idx - a_len o) + 1))
    else ret tt) ;;;
   (if a_len o <=? idx then upd a (set_len (s32 (idx + 1))) else ret tt) ;;;
   store (a_ptr o) idx v) s = Crash.
Proof.
  intros F Hl Hc. change LONG_MAX with 2147483647 in Hc.
  erewrite bind_val by (apply wp_run; eapply focus_get; [exact F | auto]). cbv beta.
  destruct (a_len o <? idx) eqn:Elt; breflect.
  - apply bind_crash. unfold rb_mem_clear. rewrite (s32_small (idx - a_len o)) by lia.
    destruct (decide (idx - a_len o = 2147483647)) as [He | Hne].
    + rewrite He. change (s32 (2147483647 + 1)) with (-2147483648).
      eapply memfill_overrun; [exact F | lia | left; lia | lia].
    + rewrite s32_small by lia. eapply memfill_overrun; [exact F | lia | lia | lia].
  - erewrite bind_val by reflexivity. destruct (a_len o <=? idx) eqn:Ele; breflect; [|lia].
    assert (exists s', upd a (set_len (s32 (idx + 1))) s = Val tt s' /\ focus s0 a s' (set_len (s32 (idx + 1)) o) cs)
      as (s' & Hu & F').
    { assert (wp (upd a (set_len (s32 (idx + 1)))) s
        (fun _ s' => focus s0 a s' (set_len (s32 (idx + 1)) o) cs) (fun _ _ => False)) as Hwp.
      { eapply focus_upd; [exact F | reflexivity | auto]. }
      apply wp_val in Hwp as ([] & s' & H1 & H2). eauto. }
    erewrite bind_val by exact Hu.
    apply (store_overrun s0 a s' (set_len (s32 (idx + 1)) o) cs idx v F'); lia.
Qed.

(** [rb_ary_store] up to its test of the new size. *)
Lemma store_until_test s a o cs c l idx v :
  owned s a s o cs c l -> modify_error (to_list o l) = None -> c <= idx <= LONG_MAX -> 0 <= idx ->
  rb_ary_store a idx v s =
    (let new_capa := s32 (store_capa c idx) in
     (if s32 (new_capa * 4) <=? new_capa then rb_raise ArgumentError else
      REALLOC_N a new_capa ;;;
      upd a (set_aux (Capa new_capa))) ;;;
     o <- get a ;;
     (if a_len o <? idx
      then rb_mem_clear (padd (a_ptr o) (a_len o)) (s32 (s32 (idx - a_len o) + 1))
      else ret tt) ;;;
     (if a_len o <=? idx then upd a (set_len (s32 (idx + 1))) else ret tt) ;;;
     store (a_ptr o) idx v) s.
Proof.
  intros O Hm Hi Hi0. pose proof (o_focus _ _ _ _ _ _ _ O) as F. unfold rb_ary_store.
  erewrite bind_val by (apply wp_run; eapply focus_get; [exact F | auto]). cbv beta.
  destruct (idx <? 0) eqn:?; breflect; [lia|]. erewrite bind_val by reflexivity.
  erewrite bind_val by (apply wp_run; eapply owned_modify; [exact O | exact Hm | auto]).
  erewrite bind_val by (apply wp_run; eapply get_capa_ok; [exact O | auto]).
  destruct (c <=? idx) eqn:?; breflect; [|lia].
  assert ((if cdiv c 2 <? ARY_DEFAULT_SIZE then ARY_DEFAULT_SIZE else cdiv c 2) + idx = store_capa c idx) as Hn.
  { unfold store_capa. destruct (_ <? _) eqn:?; breflect; lia. }
  cbv zeta. now rewrite Hn.
Qed.

Lemma s32_wrap z k : -2147483648 <= z - k * 4294967296 < 2147483648 -> s32 z = z - k * 4294967296.
Proof.
  intros H. unfold s32. replace (z + 2147483648) with (z - k * 4294967296 + 2147483648 + k * 4294967296) by lia.
  rewrite Z_mod_plus_full, Z.mod_small; lia.
Qed.

Lemma u32_wrap z k : 0 <= z - k * 4294967296 < 4294967296 -> u32 z = z - k * 4294967296.
Proof.
  intros H. unfold u32. replace z with (z - k * 4294967296 + k * 4294967296) at 1 by lia.
  rewrite Z_mod_plus_full, Z.mod_small; lia.
Qed.

Lemma wp_same {A} (m m' : M A) s Q E : m s = m' s -> wp m' s Q E -> wp m s Q E.
Proof. unfold wp. now intros ->. Qed.

(** The block is too small: [n] words wrap to fewer bytes than [idx] needs. *)
Lemma store_small_block s a o cs c l idx v n :
  owned s a s o cs c l -> c <= idx <= LONG_MAX -> n < s32 (n * 4) -> 0 <= bytes n -> Z.of_nat (cells_of (bytes n)) <= idx ->
  ((if s32 (n * 4) <=? n then rb_raise ArgumentError else REALLOC_N a n ;;; upd a (set_aux (Capa n))) ;;;
   o <- get a ;;
   (if a_len o <? idx
    then rb_mem_clear (padd (a_ptr o) (a_len o)) (s32 (s32 (idx - a_len o) + 1))
    else ret tt) ;;;
   (if a_len o <=? idx then upd a (set_len (s32 (idx + 1))) else ret tt) ;;;
   store (a_ptr o) idx v) s = Crash.
Proof.
  intros O Hi Hn Hb Hc. pose proof (o_room _ _ _ _ _ _ _ O) as Hr. pose proof (o_len _ _ _ _ _ _ _ O) as Hl.
  destruct (s32 (n * 4) <=? n) eqn:?; breflect; [lia|].
  destruct (realloc_run s a s o cs n (o_focus _ _ _ _ _ _ _ O) Hb) as (s1 & b & Hrun & F1).
  assert (exists s2, (REALLOC_N a n ;;; upd a (set_aux (Capa n))) s = Val tt s2 /\
    focus s a s2 (set_aux (Capa n) (set_ptr (Some (b, 0)) o)) (resize (cells_of (bytes n)) None cs)) as (s2 & Hrun2 & F2).
  { erewrite bind_val by exact Hrun.
    assert (wp (upd a (set_aux (Capa n))) s1 (fun _ s' => focus s a s' (set_aux (Capa n) (set_ptr (Some (b, 0)) o))
      (resize (cells_of (bytes n)) None cs)) (fun _ _ => False)) as Hwp
      by (eapply focus_upd; [exact F1 | reflexivity | auto]).
    apply wp_val in Hwp as ([] & s' & H1 & H2). eauto. }
  erewrite bind_val by exact Hrun2. eapply store_rest_crash; [exact F2 | simpl; lia |]. rewrite length_resize. lia.
Qed.

(** What [rb_ary_store] does with an index past the block, of [c] words,
    of an array that may be changed, in terms of the size [n] it asks for, the
    larger of c/2 and 16 plus the index: below 2^29 words it stores the
    element, with nil before it, and can only run out of memory; the product
    of [n] and sizeof(VALUE) that the test compares with [n] has wrapped
    below [n] up to 1431655765 words and again from 1610612736 to 2^31, and
    there the code refuses the index; between these, and from 2^31 on, where
    [n] itself is negative, the test passes, the block is given fewer words
    than the index needs, and the code writes past its end. *)
Theorem store_past_block s a x o c idx v :
  wf s -> abs s !! a = Some x -> arys s !! a = Some o -> a_aux o = Capa c -> modify_error x = None ->
  c <= idx <= LONG_MAX ->
  let n := store_capa c idx in
  (n < 2 ^ 29 ->
     wp (rb_ary_store a idx v) s
       (fun _ s' => becomes s a (with_elts x (elts x ++ nils (Z.to_nat idx - length (elts x)) ++ [v])) s')
       (fun e _ => e = NoMemoryError)) /\
  (2 ^ 29 <= n <= 1431655765 \/ 1610612736 <= n < 2 ^ 31 -> rb_ary_store a idx v s = Exn ArgumentError s) /\
  (1431655765 < n < 1610612736 \/ 2 ^ 31 <= n -> rb_ary_store a idx v s = Crash).
Proof.
  intros W Hx Ho Ex Hm Hi n. change LONG_MAX with 2147483647 in Hi.
  change (2 ^ 29) with 536870912. change (2 ^ 31) with 2147483648.
  destruct (focus_start _ _ _ _ W Ho Ex) as (cs & l & O & Hv).
  pose proof (o_room _ _ _ _ _ _ _ O) as Hr. pose proof (o_len _ _ _ _ _ _ _ O) as Hl.
  pose proof (o_max _ _ _ _ _ _ _ O) as Hc. change ARY_MAX with 536870912 in Hc.
  assert (x = to_list o l) as ->.
  { destruct (abs_get _ _ _ Hx) as (o2 & Ho2 & Hv2 & Heq). rewrite Ho in Ho2. injection Ho2 as <-.
    rewrite Hv in Hv2. injection Hv2 as ->. exact Heq. }
  assert (16 + idx <= n <= 268435456 + idx) as Hn.
  { unfold n, store_capa, cdiv, ARY_DEFAULT_SIZE. rewrite Z.quot_div_nonneg by lia.
    pose proof (Z.div_le_upper_bound c 2 268435456). lia. }
  pose proof (store_until_test s a o cs c l idx v O Hm ltac:(change LONG_MAX with 2147483647; lia) ltac:(lia)) as Hrun.
  cbv zeta in Hrun. fold n in Hrun. splits; [intros Hcase | intros Hcase; rewrite Hrun ..].
  - eapply wp_same; [exact Hrun|]. rewrite (s32_small n), (s32_small (n * 4)) by lia. apply wp_bind.
    wp_if; [lia|]. eapply grow_ok; [exact O | change ARY_MAX with 536870912; lia | reflexivity |].
    intros s1 o1 cs1 O1 Hf. eapply store_put_ok; [exact O1 | lia |]. intros s2 o2 cs2 O2 Hf2.
    eapply owned_becomes; [exact O2|]. rewrite Hf2, Hf. unfold list_store.
    destruct (_ <? _)%nat eqn:El; [apply Nat.ltb_lt in El; lia | reflexivity].
  - rewrite (s32_small n) by lia. assert (s32 (n * 4) <= n) as Hle.
    { destruct Hcase; [rewrite (s32_wrap _ 1) | rewrite (s32_wrap _ 2)]; lia. }
    destruct (s32 (n * 4) <=? n) eqn:?; breflect; [reflexivity | lia].
  - destruct Hcase as [Hcase | Hcase].
    + rewrite (s32_small n) by lia. assert (bytes n = n * 4 - 4294967296) as Hb.
      { unfold bytes. rewrite (u32_wrap _ 1), s32_small; lia. }
      eapply store_small_block; [exact O | change LONG_MAX with 2147483647; lia | rewrite (s32_wrap _ 1); lia | lia |].
      rewrite Hb. unfold cells_of. destruct (_ =? 0) eqn:?; breflect; [lia|].
      replace (n * 4 - 4294967296) with ((n - 1073741824) * 4) by lia. rewrite Z.div_mul; lia.
    + rewrite (s32_wrap n 1) by lia. set (m := n - 1 * 4294967296). assert (bytes m = n * 4 - 8589934592) as Hb.
      { unfold bytes, m. rewrite (u32_wrap _ (-2)), s32_small; lia. }
      eapply store_small_block;
        [exact O | change LONG_MAX with 2147483647; lia | unfold m; rewrite (s32_wrap _ (-2)); lia | lia |].
      rewrite Hb. unfold cells_of. destruct (_ =? 0) eqn:?; breflect; [change (1 / 4) with 0; lia|].
      replace (n * 4 - 8589934592) with ((n - 2147483648) * 4) by lia. rewrite Z.div_mul; lia.
Qed.

(** C40: A slice whose start plus length is more than a long can hold is not
    cut at the end of the array: [beg+len] has wrapped below zero, and
    [rb_ary_subseq] makes an array of [len] elements that points into the
    block of the first.  Reading it past the end of the block reads other
    memory. *)
Theorem subseq_past_end s a x beg len :
  wf s -> abs s !! a = Some x -> 0 < beg <= Z.of_nat (length (elts x)) -> len <= LONG_MAX < beg + len ->
  exists r s' b off cs p,
    rb_ary_subseq a beg len s = Val (Ary r) s' /\
    arys s' !! r = Some (mkArray len (Some (b, off)) (Shared p) false false tainted_by_level) /\
    blocks s' !! b = Some cs /\
    (forall i, 0 <= i < len -> Z.of_nat (length cs) <= off + i -> rb_ary_elt r i s' = Crash).
Proof.
  intros W Hx Hbeg Hlen. change LONG_MAX with 2147483647 in Hlen.
  destruct (abs_get _ _ _ Hx) as (o & Ho & Hv & Heq). destruct (ary_len _ _ _ _ W Ho Hv) as [Hl Hlb].
  destruct (a_ptr o) as [[b off]|] eqn:Ep.
  2: { unfold view in Hv. rewrite Ep in Hv. destruct (a_len o =? 0) eqn:?; breflect; [lia | discriminate]. }
  destruct (view_block _ _ _ _ _ Ep Hv) as (cs & Hcs & Hin & _). unfold in_block in Hin. breflect.
  unfold rb_ary_subseq. erewrite bind_val by (unfold get; now rewrite Ho). cbv beta.
  destruct (a_len o <? beg) eqn:?; breflect; [lia|]. destruct (_ || _) eqn:E2.
  { apply orb_true_iff in E2 as [E2|E2]; breflect; lia. }
  rewrite (s32_wrap _ 1) by lia. destruct (a_len o <? _) eqn:?; breflect; [lia|].
  destruct (len =? 0) eqn:?; breflect; [lia|].
  assert (wp (ary_make_shared a) s (fun r s1 => arys s1 = <[a := set_aux (Shared r) o]> (arys s) /\
    blocks s1 = blocks s /\ wf s1) (fun _ _ => False)) as Hwp.
  { eapply wp_make_shared; [exact W | exact Ho | exact Hv |]. auto. }
  apply wp_val in Hwp as (p & s1 & Hrun & Ha1 & Hb1 & W1). erewrite bind_val by exact Hrun.
  erewrite bind_val by (unfold get; now rewrite Ha1, lookup_insert_eq). simpl. rewrite Ep.
  exists (next_ary s1). unfold bindM at 1, ary_alloc, new_ary. unfold bindM at 1, upd at 1. simpl.
  rewrite lookup_insert_eq. unfold bindM at 1, upd at 1. simpl. rewrite lookup_insert_eq.
  unfold bindM at 1, upd at 1. simpl. rewrite lookup_insert_eq. simpl.
  eexists _, b, (off + beg), cs, p. splits.
  - reflexivity.
  - simpl. apply lookup_insert_eq.
  - simpl. now rewrite Hb1.
  - intros i Hi Hend. unfold rb_ary_elt. erewrite bind_val by (unfold get; simpl; now rewrite lookup_insert_eq).
    simpl. destruct (len =? 0) eqn:?; breflect; [lia|].
    destruct (_ || _) eqn:E3; [apply orb_true_iff in E3 as [E3|E3]; breflect; lia|].
    erewrite bind_val by (unfold get_block; simpl; now rewrite Hb1, Hcs). cbv beta.
    rewrite lookup_ge_None_2 by lia. destruct (off + beg + i <? 0); reflexivity.
Qed.
End Bounds.

(** ** Concrete programs *)

Lemma two_ary : arys two !! 1%positive = Some (mkArray 2 (Some (1%positive, 0)) (Capa 2) false false false).
Proof. vm_compute. reflexivity. Qed.

(** [a[600000000] = 5] is refused, [a[2147483647] = 5] writes past the block. *)
Lemma store_past_block_witness :
  @rb_ary_store plenty 1 600000000 (Num 5) two = Exn ArgumentError two /\
  @rb_ary_store plenty 1 2147483647 (Num 5) two = Crash.
Proof.
  destruct two_ok as (W & Hx & _).
  pose proof (@store_past_block plenty (fun _ _ => eq_refl) two 1 _ _ 2 600000000 (Num 5) W Hx two_ary
    eq_refl eq_refl ltac:(vm_compute; split; discriminate)) as (_ & H1 & _).
  pose proof (@store_past_block plenty (fun _ _ => eq_refl) two 1 _ _ 2 2147483647 (Num 5) W Hx two_ary
    eq_refl eq_refl ltac:(vm_compute; split; discriminate)) as (_ & _ & H2).
  split; [apply H1; left | apply H2; right]; vm_compute; (split || idtac); discriminate.
Defined.

(** [a[1, 2147483647]] *)
Lemma subseq_past_end_witness :
  exists r s' b off cs p,
    @rb_ary_subseq plenty 1 1 2147483647 two = Val (Ary r) s' /\
    arys s' !! r = Some (mkArray 2147483647 (Some (b, off)) (Shared p) false false false) /\
    blocks s' !! b = Some cs /\
    (forall i, 0 <= i < 2147483647 -> Z.of_nat (length cs) <= off + i -> rb_ary_elt r i s' = Crash).
Proof.
  destruct two_ok as (W & Hx & _).
  apply (@subseq_past_end plenty two 1 _ 1 2147483647 W Hx); vm_compute; split; (reflexivity || discriminate).
Defined.

(** The elements of the arrays after a run. *)
Definition elements {A} (r : result A) : option (list (positive * list VALUE)) :=
  match r with
  | Val _ s | Exn _ s => Some (map_to_list (elts <$> abs s))
  | _ => None
  end.

(** [rindex] compares the index with the length by [>], so it reads the
    element after the last when the equality has cut the array to there. *)
Example rindex_reads_past_end :
  (a <- @rb_ary_new4 plenty [Num 1; Num 2; Num 3; Num 4] ;;
   b <- @rb_ary_new2 plenty 4 ;;
   @rb_ary_push plenty b (Num 1) ;;;
   @rb_ary_push plenty b (Num 2) ;;;
   rb_ary_rindex (fun _ _ => @rb_ary_replace plenty a (Ary b) ;;; ret false) 10 a (Num 9)) empty_memory = Crash.
Proof. vm_compute. reflexivity. Qed.

(** The block of [fill] has sliced the array: the value is stored in the block
    both share, and the slice, of elements 1 and 2, changes with it. *)
Example fill_writes_shared :
  elements (@rb_ary_fill_block plenty (fun i => @rb_ary_subseq plenty 1 0 2 ;;; ret (Sym 7)) 5 [Num 0; Num 1] 1 two) =
  Some [(2%positive, [Sym 7; Num 2]); (1%positive, [Sym 7; Num 2])].
Proof. vm_compute. reflexivity. Qed.

(** [fill(0, 5)] with a block that reads the array, whose length has grown
    before its elements are written. *)
Example fill_shows_unwritten :
  @rb_ary_fill_block plenty (fun i => @rb_ary_elt 1 4) 5 [Num 0; Num 5] 1 two = Crash.
Proof. vm_compute. reflexivity. Qed.

(** [a[2147483647, 0] = [3]]: the new length wraps below zero, no block is
    asked for, and the words up to the start are cleared. *)
Example splice_writes_past_end :
  @rb_ary_splice plenty 1 2147483647 0 (Num 3) two = Crash.
Proof. vm_compute. reflexivity. Qed.

(** A machine with 64 bytes for a block.  [unshift] sets [aux.capa] before
    the block fails to grow; the next [push] trusts it. *)
Definition small : Machine := {| malloc_ok := fun _ n => n <=? 64; safe_level := 0 |}.

Example unshift_no_memory :
  let full := match @rb_ary_new4 small (repeat Qtrue 16) empty_memory with Val _ s => s | _ => empty_memory end in
  match @rb_ary_unshift small 1 Qnil full with
  | Exn NoMemoryError s => @rb_ary_push small 1 Qnil s = Crash
  | _ => False
  end.
Proof. vm_compute. reflexivity. Qed.

(** [initialize] without arguments empties an array, frozen or not. *)
Example initialize_empties_frozen :
  elements ((@rb_ary_freeze plenty 1 ;;; rb_ary_initialize (machine:=plenty) [] 1) two) = Some [(1%positive, [])].
Proof. vm_compute. reflexivity. Qed.

