(* ===== verification/StrSearch.v ===== *)
(** * Strings: comparing and searching

    string.c and re.c: comparison with and without case, the hash function,
    Karp-Rabin search and the methods that look for a substring.  A string is
    the list of its bytes; a [char] is signed, so a byte from 128 on that is
    converted to an unsigned index lies outside every table. *)

From Stdlib Require Import ZArith Lia List Bool.
From S2P Require Import Prelude CInt.
Import ListNotations.
Local Open Scope Z_scope.
Local Open Scope outcome_scope.

Definition byte (c : Z) : Prop := 0 <= c < 256.
Definition ascii (c : Z) : Prop := 0 <= c < 128.
Definition len (s : list Z) : Z := Z.of_nat (length s).

(** ** Comparison *)

(** The table of chars; from 128 on they are negative. *)
Definition casetable (c : Z) : Z := if (65 <=? c) && (c <=? 90) then c + 32 else s8 c.

(** [memcmp] may read all bytes. *)
Fixpoint first_difference (n : nat) (p1 p2 : list Z) : Z :=
  match n, p1, p2 with
  | S n, a :: p1, b :: p2 => if a =? b then first_difference n p1 p2 else a - b
  | _, _, _ => 0
  end.

Definition memcmp (p1 p2 : list Z) (n : Z) : outcome Z :=
  if (len p1 <? n) || (len p2 <? n) then Undefined else Ok (first_difference (Z.to_nat n) p1 p2).

Fixpoint memcicmp_loop (n : nat) (p1 p2 : list Z) : outcome Z :=
  match n with
  | O => Ok 0
  | S n =>
      match p1, p2 with
      | a :: p1, b :: p2 =>
          if (128 <=? a) || (128 <=? b) then Undefined else
          let tmp := casetable a - casetable b in
          if tmp =? 0 then memcicmp_loop n p1 p2 else Ok tmp
      | _, _ => Undefined
      end
  end.

Definition rb_memcicmp (p1 p2 : list Z) (n : Z) : outcome Z := memcicmp_loop (Z.to_nat n) p1 p2.

Section Search.
(** [$=] *)
Context (ruby_ignorecase : bool).

Definition rb_memcmp (p1 p2 : list Z) (n : Z) : outcome Z :=
  if ruby_ignorecase then rb_memcicmp p1 p2 n else memcmp p1 p2 n.

Definition lesser (a b : Z) : Z := if b <? a then b else a.

Definition cmp_result (retval l1 l2 : Z) : Z :=
  if retval =? 0 then (if l1 =? l2 then 0 else if l2 <? l1 then 1 else -1)
  else if 0 <? retval then 1 else -1.

Definition rb_str_cmp (str1 str2 : list Z) : outcome Z :=
  retval <- rb_memcmp str1 str2 (lesser (len str1) (len str2)) ;;
  Ok (cmp_result retval (len str1) (len str2)).

Definition rb_str_casecmp (str1 str2 : list Z) : outcome Z :=
  retval <- rb_memcicmp str1 str2 (lesser (len str1) (len str2)) ;;
  Ok (cmp_result retval (len str1) (len str2)).

(** Of two strings that are not the same object. *)
Definition rb_str_equal (str1 str2 : list Z) : outcome bool :=
  if negb (len str1 =? len str2) then Ok false else
  c <- rb_str_cmp str1 str2 ;; Ok (c =? 0).

Definition rb_str_eql (str1 str2 : list Z) : outcome bool :=
  if negb (len str1 =? len str2) then Ok false else
  c <- memcmp str1 str2 (lesser (len str1) (len str2)) ;; Ok (c =? 0).

(** [key = key*65599 + *p], of signed chars, in an [int]. *)
Definition rb_str_hash (str : list Z) : Z :=
  let key := fold_left (fun key p => s32 (s32 (key * 65599) + s8 p)) str 0 in
  s32 (key + Z.shiftr key 5).

(** ** Karp-Rabin *)

Definition KR_REHASH (d a b h : Z) : Z := u32 (Z.shiftl h 1 - Z.shiftl a d + b).

Definition kr_key (c : Z) : Z := if ruby_ignorecase then casetable c else c.

(** [for (...; i < d; ++i) h = KR_REHASH(0, x[i], h)] *)
Fixpoint kr_prepare (d : Z) (n : nat) (x : list Z) (h : Z) : outcome Z :=
  match n with
  | O => Ok h
  | S n =>
      match x with
      | [] => Undefined
      | a :: x => kr_prepare d n x (KR_REHASH d 0 (kr_key a) h)
      end
  end.

(** [s] is what is left of [y], from index [i] on. *)
Fixpoint kr_loop (x : list Z) (m d hx : Z) (s : list Z) (i e hy : Z) : outcome Z :=
  differ <- (if negb (hx =? hy) then Ok true else c <- rb_memcmp x s m ;; Ok (negb (c =? 0))) ;;
  if differ : bool then
    if e <=? i then Ok (-1) else
    match s, nth_error s (Z.to_nat d) with
    | a :: s, Some b => kr_loop x m d hx s (i + 1) e (KR_REHASH d (kr_key a) (kr_key b) hy)
    | _, _ => Undefined
    end
  else Ok i.

Definition rb_memsearch (x : list Z) (m : Z) (y : list Z) (n : Z) : outcome Z :=
  if n <? m then Ok (-1) else
  let d := if m <? 31 then m else 31 in
  if n =? m then c <- rb_memcmp x y m ;; Ok (if c =? 0 then 0 else -1) else
  hx <- kr_prepare d (Z.to_nat d) x 0 ;;
  hy <- kr_prepare d (Z.to_nat d) y 0 ;;
  kr_loop x m d hx y 0 (n - m) hy.

(** ** Substrings *)

Definition rb_str_index (str sub : list Z) (offset : Z) : outcome Z :=
  let offset := if offset <? 0 then offset + len str else offset in
  if offset <? 0 then Ok (-1) else
  if s32 (len str - offset) <? len sub then Ok (-1) else
  if len sub =? 0 then Ok offset else
  pos <- rb_memsearch sub (len sub) (skipn (Z.to_nat offset) str) (len str - offset) ;;
  Ok (if pos <? 0 then pos else pos + offset).

(** [while (sbeg <= s)], from [pos] down. *)
Fixpoint rindex_loop (n : nat) (str sub : list Z) : outcome Z :=
  c <- rb_memcmp (skipn n str) sub (len sub) ;;
  if c =? 0 then Ok (Z.of_nat n) else
  match n with
  | O => Ok (-1)
  | S n => rindex_loop n str sub
  end.

Definition rb_str_rindex (str sub : list Z) (pos : Z) : outcome Z :=
  if len str <? len sub then Ok (-1) else
  let pos := if len str - pos <? len sub then len str - len sub else pos in
  if len sub =? 0 then Ok pos else
  if pos <? 0 then Ok (-1) else
  rindex_loop (Z.to_nat pos) str sub.

(** [include?] of a string. *)
Definition rb_str_include (str arg : list Z) : outcome bool :=
  i <- rb_str_index str arg 0 ;; Ok (negb (i =? -1)).

(** ** Specifications *)

(** What is compared: the bytes, or lower case letters for capitals. *)
Definition fold_case (s : list Z) : list Z := map kr_key s.

Fixpoint prefixb (x y : list Z) : bool :=
  match x, y with
  | [], _ => true
  | a :: x, b :: y => (a =? b) && prefixb x y
  | _, [] => false
  end.

(** The first place where [x] occurs in [y]. *)
Fixpoint first_at (x y : list Z) : option nat :=
  if prefixb x y then Some 0%nat else
  match y with
  | [] => None
  | _ :: y => option_map S (first_at x y)
  end.

(** The last place, up to [n]. *)
Fixpoint last_at (x y : list Z) (n : nat) : option nat :=
  if prefixb x (skipn n y) then Some n else
  match n with O => None | S n => last_at x y n end.

Definition place (r : option nat) : Z := match r with Some i => Z.of_nat i | None => -1 end.

(** The bytes that can be compared. *)
Definition comparable (s : list Z) : Prop := Forall (if ruby_ignorecase then ascii else byte) s.

Lemma comparable_byte s : comparable s -> Forall byte s.
Proof.
  unfold comparable. destruct ruby_ignorecase; [|auto].
  apply Forall_impl. unfold ascii, byte. lia.
Qed.

Lemma comparable_skipn n s : comparable s -> comparable (skipn n s).
Proof. apply Forall_skipn'. Qed.

Lemma first_difference_prefix n x y :
  (n <= length x)%nat -> (n <= length y)%nat ->
  (first_difference n x y =? 0) = prefixb (firstn n x) y.
Proof.
  revert x y; induction n as [|n IH]; intros [|a x] [|b y] Hx Hy; simpl in *; try reflexivity; try lia.
  destruct (a =? b) eqn:E; [apply IH; lia|]. apply Z.eqb_neq in E. simpl. apply Z.eqb_neq. lia.
Qed.

(** Comparison fails only where the memory or the table ends. *)
Lemma rb_memcmp_prefix x y :
  comparable x -> comparable y -> (length x <= length y)%nat ->
  exists c, rb_memcmp x y (len x) = Ok c /\ (c =? 0) = prefixb (fold_case x) (fold_case y).
Proof.
  intros Hx Hy Hl. unfold rb_memcmp, fold_case, kr_key. unfold comparable in *. destruct ruby_ignorecase.
  - unfold rb_memcicmp, len. rewrite Nat2Z.id. revert y Hy Hl.
    induction Hx as [|a x Ha _ IH]; intros [|b y] Hy Hl; simpl in *; try lia; eauto.
    inversion Hy as [|? ? Hb Hy']; subst. unfold ascii in *.
    destruct ((128 <=? a) || (128 <=? b)) eqn:E; breflect; [destruct E; breflect; lia|].
    destruct (casetable a - casetable b =? 0) eqn:Et; breflect.
    + replace (casetable a =? casetable b) with true by (symmetry; apply Z.eqb_eq; lia). apply IH; [exact Hy' | lia].
    + eexists. split; [reflexivity|]. replace (casetable a =? casetable b) with false by (symmetry; apply Z.eqb_neq; lia).
      now apply Z.eqb_neq.
  - unfold memcmp, len. rewrite Nat2Z.id. destruct (_ || _) eqn:E; breflect; [destruct E; breflect; lia|].
    eexists. split; [reflexivity|]. rewrite !map_id, first_difference_prefix, firstn_all by lia. reflexivity.
Qed.

Lemma fold_case_length s : length (fold_case s) = length s.
Proof. apply length_map. Qed.

Lemma fold_case_skipn n s : fold_case (skipn n s) = skipn n (fold_case s).
Proof. unfold fold_case. now rewrite skipn_map. Qed.

Lemma prefixb_length x y : prefixb x y = true -> (length x <= length y)%nat.
Proof.
  revert y; induction x as [|a x IH]; intros [|b y] H; simpl in *; try lia; try discriminate.
  apply andb_prop in H as [_ H]. apply IH in H. lia.
Qed.

Lemma prefixb_firstn d x y : prefixb x y = true -> (d <= length x)%nat -> firstn d x = firstn d y.
Proof.
  revert d y; induction x as [|a x IH]; intros d [|b y] H Hd; simpl in *; try discriminate.
  - replace d with 0%nat by lia. reflexivity.
  - replace d with 0%nat by lia. reflexivity.
  - apply andb_prop in H as [Hab H]. apply Z.eqb_eq in Hab as ->.
    destruct d as [|d]; [reflexivity|]. simpl. f_equal. apply IH; [exact H | lia].
Qed.

Lemma first_at_short x y : (length y < length x)%nat -> first_at x y = None.
Proof.
  induction y as [|b y IH]; intros H; simpl in *.
  - destruct (prefixb x []) eqn:E; [|reflexivity]. apply prefixb_length in E. simpl in E. lia.
  - destruct (prefixb x (b :: y)) eqn:E; [apply prefixb_length in E; simpl in E; lia|]. rewrite IH by lia. reflexivity.
Qed.

(** *** The hash *)

Definition kr_val (l : list Z) : Z := fold_left (fun h a => 2 * h + a) l 0.

Lemma kr_val_app l b : kr_val (l ++ [b]) = 2 * kr_val l + b.
Proof. unfold kr_val. now rewrite fold_left_app. Qed.

Lemma kr_fold_shift l h : fold_left (fun h a => 2 * h + a) l h = h * 2 ^ Z.of_nat (length l) + kr_val l.
Proof.
  unfold kr_val. revert h; induction l as [|b l IH]; intros h; [cbn; lia|].
  cbn [fold_left]. rewrite (IH (2 * h + b)), (IH (2 * 0 + b)).
  change (length (b :: l)) with (S (length l)). rewrite Nat2Z.inj_succ, Z.pow_succ_r by lia. lia.
Qed.

Lemma kr_val_cons a l : kr_val (a :: l) = a * 2 ^ Z.of_nat (length l) + kr_val l.
Proof. unfold kr_val at 1. cbn [fold_left]. now rewrite kr_fold_shift. Qed.

Lemma u32_lin a b c : u32 (2 * u32 a - b + c) = u32 (2 * a - b + c).
Proof.
  destruct (u32_eqm a) as [k ->]. unfold u32. replace (2 * (a + k * 4294967296) - b + c)
    with (2 * a - b + c + (2 * k) * 4294967296) by lia. apply Z_mod_plus_full.
Qed.

Lemma KR_REHASH_val d a b h : 0 <= d -> KR_REHASH d a b (u32 h) = u32 (2 * h - a * 2 ^ d + b).
Proof.
  intros Hd. unfold KR_REHASH. rewrite !Z.shiftl_mul_pow2 by lia. change (2 ^ 1) with 2.
  rewrite (Z.mul_comm (u32 h)). apply u32_lin.
Qed.

Lemma kr_prepare_ok d n x pre : 0 <= d -> (n <= length x)%nat ->
  kr_prepare d n x (u32 (kr_val pre)) = Ok (u32 (kr_val (pre ++ fold_case (firstn n x)))).
Proof.
  intros Hd. revert x pre; induction n as [|n IH]; intros x pre Hn; simpl.
  - now rewrite app_nil_r.
  - destruct x as [|a x]; simpl in *; [lia|]. rewrite KR_REHASH_val by exact Hd.
    replace (2 * kr_val pre - 0 * 2 ^ d + kr_key a) with (kr_val (pre ++ [kr_key a])) by (rewrite kr_val_app; lia).
    rewrite IH by lia. now rewrite <- app_assoc.
Qed.

(** The hash of the first [d] bytes. *)
Definition kr_hash (d : nat) (s : list Z) : Z := u32 (kr_val (fold_case (firstn d s))).

Lemma kr_hash_step d a s b :
  nth_error (a :: s) d = Some b ->
  KR_REHASH (Z.of_nat d) (kr_key a) (kr_key b) (kr_hash d (a :: s)) = kr_hash d s.
Proof.
  intros Hb. unfold kr_hash. rewrite KR_REHASH_val by lia.
  destruct d as [|d].
  - simpl in Hb. injection Hb as ->. simpl. unfold kr_val. simpl. unfold u32. f_equal. lia.
  - simpl in Hb. simpl firstn at 1. change (fold_case (a :: firstn d s)) with (kr_key a :: fold_case (firstn d s)).
    rewrite kr_val_cons. rewrite fold_case_length, length_firstn.
    assert (d < length s)%nat as Hd by (apply nth_error_Some; congruence).
    rewrite Nat.min_l by lia.
    assert (firstn (S d) s = firstn d s ++ [b]) as Hf.
    { clear -Hb. revert s Hb; induction d as [|d IH]; intros [|c s] Hb; simpl in *; try discriminate.
      - now injection Hb as ->.
      - f_equal. now apply IH. }
    rewrite Hf. replace (fold_case (firstn d s ++ [b])) with (fold_case (firstn d s) ++ [kr_key b])
      by (unfold fold_case; now rewrite map_app).
    rewrite kr_val_app.
    f_equal. rewrite Nat2Z.inj_succ, Z.pow_succ_r by lia. lia.
Qed.

Lemma kr_loop_ok x d s i e :
  comparable x -> comparable s -> (d <= length x <= length s)%nat ->
  e - i = len s - len x ->
  kr_loop x (len x) (Z.of_nat d) (kr_hash d x) s i e (kr_hash d s) =
  Ok (match first_at (fold_case x) (fold_case s) with Some k => i + Z.of_nat k | None => -1 end).
Proof.
  intros Hx. revert i; induction s as [|a s IH]; intros i Hs Hd He; unfold len in *; simpl in Hd.
  - assert (x = []) as -> by (destruct x; [reflexivity | simpl in Hd; lia]). simpl in Hd.
    replace d with 0%nat by lia. unfold kr_loop. rewrite Z.eqb_refl. simpl.
    unfold rb_memcmp, rb_memcicmp, memcmp. simpl. destruct ruby_ignorecase; simpl; now rewrite Z.add_0_r.
  - destruct (rb_memcmp_prefix x (a :: s) Hx Hs ltac:(simpl; lia)) as (c & Hc & Hp). unfold len in Hc.
    assert (prefixb (fold_case x) (fold_case (a :: s)) = true -> kr_hash d x = kr_hash d (a :: s)) as Hh.
    { intros Hpre. unfold kr_hash, fold_case. rewrite <- !firstn_map. do 2 f_equal.
      apply prefixb_firstn; [exact Hpre | rewrite length_map; lia]. }
    change (first_at (fold_case x) (fold_case (a :: s))) with
      (if prefixb (fold_case x) (fold_case (a :: s)) then Some 0%nat
       else option_map Datatypes.S (first_at (fold_case x) (fold_case s))).
    cbn [kr_loop].
    destruct (prefixb (fold_case x) (fold_case (a :: s))) eqn:Epre.
    + rewrite (Hh eq_refl), Z.eqb_refl. cbn [negb]. cbn iota. rewrite Hc. cbn [bind]. rewrite Hp. cbn.
      now rewrite Z.add_0_r.
    + assert ((if negb (kr_hash d x =? kr_hash d (a :: s)) then Ok true
               else c <- rb_memcmp x (a :: s) (Z.of_nat (length x));; Ok (negb (c =? 0))) = Ok true) as ->.
      { destruct (negb _); [reflexivity|]. rewrite Hc. simpl. now rewrite Hp. }
      simpl bind. cbn iota. destruct (e <=? i) eqn:Ee; breflect.
      * change (length (a :: s)) with (S (length s)) in He.
        rewrite (first_at_short (fold_case x) (fold_case s)); [reflexivity|].
        rewrite !fold_case_length. lia.
      * rewrite Nat2Z.id. change (length (a :: s)) with (S (length s)) in He.
        destruct (nth_error (a :: s) d) as [b|] eqn:Eb.
        2: { apply nth_error_None in Eb. simpl in Eb. lia. }
        rewrite (kr_hash_step d a s b Eb). inversion Hs as [|? ? Ha Hs']; subst.
        unfold len in IH. rewrite IH; [| exact Hs' | lia | lia].
        destruct (first_at (fold_case x) (fold_case s)); simpl; [f_equal; lia | reflexivity].
Qed.

(** The places where a string occurs. *)
Lemma first_at_spec x y k :
  first_at x y = Some k <->
  prefixb x (skipn k y) = true /\ forall j, (j < k)%nat -> prefixb x (skipn j y) = false.
Proof.
  revert k; induction y as [|b y IH]; intros k; cbn [first_at].
  - destruct (prefixb x []) eqn:E.
    + split; [intros H; injection H as <-; split; [exact E | lia]|].
      intros [Hk Hj]. destruct k as [|k]; [reflexivity|]. specialize (Hj 0%nat ltac:(lia)). cbn in Hj. congruence.
    + split; [discriminate|]. intros [Hk _]. rewrite skipn_nil in Hk. congruence.
  - destruct (prefixb x (b :: y)) eqn:E.
    + split; [intros H; injection H as <-; split; [exact E | lia]|].
      intros [Hk Hj]. destruct k as [|k]; [reflexivity|]. specialize (Hj 0%nat ltac:(lia)). cbn in Hj. congruence.
    + destruct k as [|k].
      * split; [destruct (first_at x y); discriminate|]. intros [Hk _]. cbn in Hk. congruence.
      * assert (option_map Datatypes.S (first_at x y) = Some (Datatypes.S k) <-> first_at x y = Some k) as ->.
        { destruct (first_at x y); cbn; split; congruence. }
        rewrite IH. cbn [skipn]. split; intros [Hk Hj]; (split; [exact Hk|]); intros j Hlt.
        -- destruct j as [|j]; [exact E | cbn; apply Hj; lia].
        -- apply (Hj (Datatypes.S j)). lia.
Qed.

Lemma first_at_nil y : first_at [] y = Some 0%nat.
Proof. destruct y; reflexivity. Qed.

Lemma prefixb_eq x y : length x = length y -> prefixb x y = true <-> x = y.
Proof.
  revert y; induction x as [|a x IH]; intros [|b y] H; cbn in *; try discriminate; [tauto|].
  injection H as H. rewrite andb_true_iff, Z.eqb_eq, (IH _ H). split; [intros [-> ->]; reflexivity | intros [= -> ->]; tauto].
Qed.

Lemma first_at_same x y : length x = length y -> first_at x y = if prefixb x y then Some 0%nat else None.
Proof.
  intros H. destruct y as [|b y]; cbn [first_at]; destruct (prefixb x _); try reflexivity.
  rewrite first_at_short by (cbn in H; lia). reflexivity.
Qed.

(** Karp and Rabin's search finds the first occurrence and stays inside both strings. *)
Lemma rb_memsearch_first x y :
  comparable x -> comparable y ->
  rb_memsearch x (len x) y (len y) = Ok (place (first_at (fold_case x) (fold_case y))).
Proof.
  intros Hx Hy. unfold rb_memsearch. destruct (len y <? len x) eqn:E1; breflect; unfold len in *.
  { rewrite first_at_short by (rewrite !fold_case_length; lia). reflexivity. }
  destruct (Z.of_nat (length y) =? Z.of_nat (length x)) eqn:E2; breflect.
  { destruct (rb_memcmp_prefix x y Hx Hy ltac:(lia)) as (c & Hc & Hp). unfold len in Hc. rewrite Hc. cbn [bind].
    rewrite first_at_same, <- Hp by (rewrite !fold_case_length; lia). destruct (c =? 0); reflexivity. }
  set (d := if Z.of_nat (length x) <? 31 then Z.of_nat (length x) else 31).
  assert (0 <= d <= Z.of_nat (length x)) as Hd by (unfold d; destruct (_ <? _) eqn:E; breflect; lia).
  change 0 with (u32 (kr_val [])) at 2. rewrite kr_prepare_ok by lia. cbn [bind app].
  change 0 with (u32 (kr_val [])) at 1. rewrite kr_prepare_ok by lia. cbn [bind app].
  fold (kr_hash (Z.to_nat d) x) (kr_hash (Z.to_nat d) y). rewrite <- (Z2Nat.id d) at 1 by lia.
  pose proof (kr_loop_ok x (Z.to_nat d) y 0 (Z.of_nat (length y) - Z.of_nat (length x)) Hx Hy ltac:(lia)
    ltac:(unfold len; lia)) as H. unfold len in H. rewrite H. unfold place.
  destruct (first_at _ _); reflexivity.
Qed.

(** *** Order *)

Fixpoint lex (x y : list Z) : comparison :=
  match x, y with
  | [], [] => Eq
  | [], _ => Lt
  | _, [] => Gt
  | a :: x, b :: y => match a ?= b with Eq => lex x y | c => c end
  end.

Definition sign (c : comparison) : Z := match c with Eq => 0 | Lt => -1 | Gt => 1 end.

(** The order of the strings compared: the parts of equal length, then the lengths. *)
Lemma cmp_result_cons r l1 l2 : cmp_result r (1 + l1) (1 + l2) = cmp_result r l1 l2.
Proof.
  unfold cmp_result. destruct (r =? 0); [|reflexivity]. destruct (l1 =? l2) eqn:E; breflect.
  - subst. now rewrite Z.eqb_refl.
  - replace (1 + l1 =? 1 + l2) with false by (symmetry; apply Z.eqb_neq; lia).
    destruct (l2 <? l1) eqn:E2; breflect; [|replace (1 + l2 <? 1 + l1) with false by (symmetry; apply Z.ltb_ge; lia); reflexivity].
    now replace (1 + l2 <? 1 + l1) with true by (symmetry; apply Z.ltb_lt; lia).
Qed.

Lemma len_cons a s : len (a :: s) = 1 + len s.
Proof. unfold len. cbn [length]. lia. Qed.

Lemma len_nonneg s : 0 <= len s.
Proof. unfold len. lia. Qed.

Lemma len_app s t : len (s ++ t) = len s + len t.
Proof. unfold len. rewrite length_app. lia. Qed.

Lemma len_eqb_0 s : s <> [] -> (len s =? 0) = false.
Proof. intros H. destruct s as [|c s]; [congruence|]. apply Z.eqb_neq. rewrite len_cons. pose proof (len_nonneg s). lia. Qed.

Lemma lesser_cons l1 l2 : 0 <= l1 -> 0 <= l2 ->
  Z.to_nat (lesser (1 + l1) (1 + l2)) = Datatypes.S (Z.to_nat (lesser l1 l2)).
Proof.
  intros H1 H2. unfold lesser. destruct (l2 <? l1) eqn:E; breflect.
  - replace (1 + l2 <? 1 + l1) with true by (symmetry; apply Z.ltb_lt; lia). lia.
  - replace (1 + l2 <? 1 + l1) with false by (symmetry; apply Z.ltb_ge; lia). lia.
Qed.

Lemma lesser_0_l l : 0 <= l -> lesser 0 l = 0.
Proof. intros H. unfold lesser. destruct (l <? 0) eqn:E; breflect; lia. Qed.

Lemma lesser_0_r l : 0 <= l -> lesser l 0 = 0.
Proof. intros H. unfold lesser. destruct (0 <? l) eqn:E; breflect; lia. Qed.

Lemma cmp_result_shorter l1 l2 : l1 < l2 -> cmp_result 0 l1 l2 = -1.
Proof.
  intros H. unfold cmp_result. cbn. destruct (l1 =? l2) eqn:E; breflect; [lia|]. destruct (l2 <? l1) eqn:E2; breflect; lia.
Qed.

Lemma cmp_result_longer l1 l2 : l2 < l1 -> cmp_result 0 l1 l2 = 1.
Proof.
  intros H. unfold cmp_result. cbn. destruct (l1 =? l2) eqn:E; breflect; [lia|]. destruct (l2 <? l1) eqn:E2; breflect; lia.
Qed.

Lemma cmp_result_sign a b l1 l2 : a <> b -> cmp_result (a - b) l1 l2 = sign (a ?= b).
Proof.
  intros H. unfold cmp_result. destruct (a - b =? 0) eqn:E0; breflect; [lia|]. destruct (0 <? a - b) eqn:E1; breflect.
  - now replace (a ?= b) with Gt by (symmetry; apply Z.compare_gt_iff; lia).
  - now replace (a ?= b) with Lt by (symmetry; apply Z.compare_lt_iff; lia).
Qed.

(** Neither side of a comparison of unequal bytes is [Eq]. *)
Lemma lex_cons_ne a b x y : a <> b -> lex (a :: x) (b :: y) = (a ?= b).
Proof. intros H. cbn [lex]. destruct (a ?= b) eqn:E; [apply Z.compare_eq in E; lia | reflexivity | reflexivity]. Qed.

Lemma memcicmp_lex x y :
  Forall ascii x -> Forall ascii y ->
  exists c, rb_memcicmp x y (lesser (len x) (len y)) = Ok c /\
    cmp_result c (len x) (len y) = sign (lex (map casetable x) (map casetable y)).
Proof.
  intros Hx. unfold rb_memcicmp. revert y. induction Hx as [|a x Ha Hx IH]; intros y Hy.
  - change (len []) with 0. rewrite lesser_0_l by apply len_nonneg. exists 0. split; [reflexivity|].
    destruct y as [|b y]; [reflexivity|]. rewrite len_cons. pose proof (len_nonneg y). apply cmp_result_shorter; lia.
  - destruct Hy as [|b y Hb Hy].
    + change (len []) with 0. rewrite lesser_0_r by apply len_nonneg. exists 0. split; [reflexivity|].
      rewrite len_cons. pose proof (len_nonneg x). apply cmp_result_longer; lia.
    + rewrite !len_cons, lesser_cons by apply len_nonneg. cbn [memcicmp_loop map lex]. unfold ascii in Ha, Hb.
      destruct ((128 <=? a) || (128 <=? b)) eqn:E; breflect; [destruct E; breflect; lia|].
      destruct (casetable a - casetable b =? 0) eqn:Et; breflect.
      * replace (casetable a ?= casetable b) with Eq by (symmetry; apply Z.compare_eq_iff; lia).
        destruct (IH y Hy) as (c & Hc & Hr). exists c. split; [exact Hc|]. now rewrite cmp_result_cons.
      * eexists. split; [reflexivity|]. rewrite cmp_result_sign by lia.
        symmetry. f_equal. apply lex_cons_ne. lia.
Qed.

Lemma first_difference_lex x y :
  cmp_result (first_difference (Z.to_nat (lesser (len x) (len y))) x y) (len x) (len y) = sign (lex x y).
Proof.
  revert y; induction x as [|a x IH]; intros y.
  - change (len []) with 0. rewrite lesser_0_l by apply len_nonneg. destruct y as [|b y]; [reflexivity|].
    rewrite len_cons. pose proof (len_nonneg y). apply cmp_result_shorter; lia.
  - destruct y as [|b y].
    + change (len []) with 0. rewrite lesser_0_r by apply len_nonneg.
      rewrite len_cons. pose proof (len_nonneg x). apply cmp_result_longer; lia.
    + rewrite !len_cons, lesser_cons by apply len_nonneg. cbn [first_difference].
      destruct (a =? b) eqn:Et; breflect.
      * subst. cbn [lex]. rewrite Z.compare_refl, cmp_result_cons. apply IH.
      * now rewrite cmp_result_sign, lex_cons_ne by exact Et.
Qed.

Lemma memcmp_lesser x y :
  memcmp x y (lesser (len x) (len y)) = Ok (first_difference (Z.to_nat (lesser (len x) (len y))) x y).
Proof.
  unfold memcmp. replace (_ || _) with false; [reflexivity|]. symmetry.
  assert (lesser (len x) (len y) <= len x /\ lesser (len x) (len y) <= len y) as [H1 H2]
    by (unfold lesser; destruct (len y <? len x) eqn:E; breflect; lia).
  apply orb_false_iff. split; apply Z.ltb_ge; assumption.
Qed.

Lemma rb_str_cmp_lex x y :
  comparable x -> comparable y -> rb_str_cmp x y = Ok (sign (lex (fold_case x) (fold_case y))).
Proof.
  unfold rb_str_cmp, comparable, fold_case, kr_key, rb_memcmp. destruct ruby_ignorecase; intros Hx Hy.
  - destruct (memcicmp_lex x y Hx Hy) as (c & -> & Hr). cbn [bind]. unfold casetable in *. now rewrite Hr.
  - rewrite memcmp_lesser. cbn [bind]. now rewrite !map_id, first_difference_lex.
Qed.

Lemma lex_eq x y : lex x y = Eq <-> x = y.
Proof.
  revert y; induction x as [|a x IH]; intros [|b y]; cbn; try (split; congruence).
  destruct (a ?= b) eqn:E.
  - apply Z.compare_eq in E as ->. rewrite IH. split; congruence.
  - split; [discriminate|]. intros [= -> ->]. now rewrite Z.compare_refl in E.
  - split; [discriminate|]. intros [= -> ->]. now rewrite Z.compare_refl in E.
Qed.

(** [eql?] is equality of bytes, whatever [$=] is. *)
Lemma rb_str_eql_eq x y : exists r, rb_str_eql x y = Ok r /\ (r = true <-> x = y).
Proof.
  unfold rb_str_eql. destruct (len x =? len y) eqn:E; cbn [negb]; breflect.
  - rewrite memcmp_lesser. cbn [bind]. eexists. split; [reflexivity|].
    unfold lesser. rewrite E, Z.ltb_irrefl. unfold len in *.
    rewrite Nat2Z.id, first_difference_prefix, firstn_all2 by lia. apply prefixb_eq. lia.
  - exists false. split; [reflexivity|]. split; [discriminate|]. intros ->. lia.
Qed.

(** *** [index], [rindex], [include?] *)

Lemma prefixb_app x post : prefixb x (x ++ post) = true.
Proof. induction x as [|a x IH]; cbn; [reflexivity|]. now rewrite Z.eqb_refl. Qed.

Lemma prefixb_split x y : prefixb x y = true -> exists post, y = x ++ post.
Proof.
  revert y; induction x as [|a x IH]; intros y H; [now exists y|]. destruct y as [|b y]; [discriminate|].
  cbn in H. apply andb_prop in H as [Hab H]. apply Z.eqb_eq in Hab as ->. apply IH in H as [post ->]. now exists post.
Qed.

Lemma first_at_none x y : first_at x y = None -> forall k, prefixb x (skipn k y) = true -> False.
Proof.
  induction y as [|b y IH]; cbn [first_at]; destruct (prefixb x _) eqn:E; try discriminate; intros H k Hk.
  - rewrite skipn_nil in Hk. congruence.
  - destruct k as [|k]; [cbn in Hk; congruence|]. destruct (first_at x y); [discriminate|]. now apply (IH eq_refl k).
Qed.

Lemma memcicmp_loop_sym n x y c :
  memcicmp_loop n x y = Ok c -> memcicmp_loop n y x = Ok (- c).
Proof.
  revert x y; induction n as [|n IH]; intros x y; cbn [memcicmp_loop]; [intros [= <-]; reflexivity|].
  destruct x as [|a x], y as [|b y]; try discriminate. rewrite (orb_comm (128 <=? b)).
  destruct (_ || _); [discriminate|]. destruct (casetable a - casetable b =? 0) eqn:E; breflect.
  - replace (casetable b - casetable a =? 0) with true by (symmetry; apply Z.eqb_eq; lia). apply IH.
  - replace (casetable b - casetable a =? 0) with false by (symmetry; apply Z.eqb_neq; lia).
    intros [= <-]. f_equal. lia.
Qed.

Lemma first_difference_sym n x y : first_difference n y x = - first_difference n x y.
Proof.
  revert x y; induction n as [|n IH]; intros [|a x] [|b y]; try reflexivity. cbn [first_difference].
  rewrite (Z.eqb_sym b a). destruct (a =? b); [apply IH | lia].
Qed.

Lemma rb_memcmp_sym x y c :
  (length x <= length y)%nat -> rb_memcmp x y (len x) = Ok c ->
  exists c', rb_memcmp y x (len x) = Ok c' /\ (c' =? 0) = (c =? 0).
Proof.
  intros Hl H. exists (- c). split; [|destruct (c =? 0) eqn:E; breflect; [subst; reflexivity | apply Z.eqb_neq; lia]].
  revert H. unfold rb_memcmp, rb_memcicmp. destruct ruby_ignorecase; [apply memcicmp_loop_sym|].
  unfold memcmp. rewrite (orb_comm (len y <? _)). destruct (_ || _); [discriminate|].
  intros [= <-]. f_equal. apply first_difference_sym.
Qed.

Lemma rb_str_index_first str sub offset :
  comparable str -> comparable sub -> len str < 2 ^ 31 -> 0 <= offset < 2 ^ 31 ->
  rb_str_index str sub offset =
  Ok (if offset <=? len str then
        match first_at (fold_case sub) (skipn (Z.to_nat offset) (fold_case str)) with
        | Some k => offset + Z.of_nat k | None => -1 end
      else -1).
Proof.
  intros Hstr Hsub Hl Ho. unfold rb_str_index.
  assert ((offset <? 0) = false) as E0 by (apply Z.ltb_ge; lia). rewrite E0. cbn zeta iota. rewrite E0.
  pose proof (len_nonneg str). pose proof (len_nonneg sub).
  rewrite s32_small by (change (2 ^ 31) with 2147483648 in *; lia).
  destruct (len str - offset <? len sub) eqn:E1; breflect.
  - destruct (offset <=? len str) eqn:E2; [|reflexivity]. breflect.
    rewrite first_at_short; [reflexivity|]. rewrite length_skipn, !fold_case_length. unfold len in *. lia.
  - replace (offset <=? len str) with true by (symmetry; apply Z.leb_le; lia).
    destruct (len sub =? 0) eqn:E3; breflect.
    + assert (sub = []) as -> by (destruct sub; [reflexivity | rewrite len_cons in *; pose proof (len_nonneg sub); lia]).
      cbn [fold_case map]. rewrite first_at_nil. f_equal. lia.
    + replace (len str - offset) with (len (skipn (Z.to_nat offset) str)) by (unfold len in *; rewrite length_skipn; lia).
      rewrite rb_memsearch_first by auto using comparable_skipn. cbn [bind]. rewrite fold_case_skipn.
      destruct (first_at _ _) as [k|]; cbn [place]; [|reflexivity].
      destruct (Z.of_nat k <? 0) eqn:E4; breflect; [lia|]. f_equal. lia.
Qed.

(** A negative offset counts from the end. *)
Lemma rb_str_index_negative str sub offset :
  - len str <= offset < 0 -> rb_str_index str sub offset = rb_str_index str sub (len str + offset).
Proof.
  intros H. unfold rb_str_index. replace (offset <? 0) with true by (symmetry; apply Z.ltb_lt; lia).
  replace (len str + offset <? 0) with false by (symmetry; apply Z.ltb_ge; lia). cbn zeta.
  now rewrite (Z.add_comm offset).
Qed.

Lemma rb_memcmp_suffix n str sub :
  comparable str -> comparable sub -> (n + length sub <= length str)%nat ->
  exists c, rb_memcmp (skipn n str) sub (len sub) = Ok c /\
    (c =? 0) = prefixb (fold_case sub) (skipn n (fold_case str)).
Proof.
  intros Hstr Hsub Hn. apply (comparable_skipn n) in Hstr. rewrite <- fold_case_skipn.
  assert (length sub <= length (skipn n str))%nat as Hl by (rewrite length_skipn; lia).
  clear Hn. revert Hstr Hl. generalize (skipn n str). intros s Hs Hl.
  destruct (rb_memcmp_prefix sub s Hsub Hs Hl) as (c & Hc & Hp).
  destruct (rb_memcmp_sym sub s c) as (c' & Hc' & H0); [exact Hl | exact Hc|].
  exists c'. split; [exact Hc'|]. now rewrite H0.
Qed.

Lemma rindex_loop_last n str sub :
  comparable str -> comparable sub -> (n + length sub <= length str)%nat ->
  rindex_loop n str sub = Ok (place (last_at (fold_case sub) (fold_case str) n)).
Proof.
  intros Hstr Hsub. induction n as [|n IH]; intros Hn; cbn [rindex_loop last_at].
  - destruct (rb_memcmp_suffix 0 str sub Hstr Hsub Hn) as (c & -> & Hp). cbn [bind]. rewrite <- Hp.
    destruct (c =? 0); reflexivity.
  - destruct (rb_memcmp_suffix (Datatypes.S n) str sub Hstr Hsub Hn) as (c & -> & Hp). cbn [bind]. rewrite <- Hp.
    destruct (c =? 0); [reflexivity | apply IH; lia].
Qed.

Lemma rb_str_rindex_last str sub pos :
  comparable str -> comparable sub -> 0 <= pos <= len str ->
  rb_str_rindex str sub pos =
  Ok (if len str <? len sub then -1
      else place (last_at (fold_case sub) (fold_case str) (Z.to_nat (Z.min pos (len str - len sub))))).
Proof.
  intros Hstr Hsub Hp. unfold rb_str_rindex. destruct (len str <? len sub) eqn:E1; [reflexivity|]. breflect.
  pose proof (len_nonneg sub).
  replace (if len str - pos <? len sub then len str - len sub else pos) with (Z.min pos (len str - len sub))
    by (destruct (len str - pos <? len sub) eqn:E; breflect; lia).
  set (p := Z.min pos (len str - len sub)). destruct (len sub =? 0) eqn:E3; breflect.
  - assert (sub = []) as -> by (destruct sub; [reflexivity | rewrite len_cons in *; pose proof (len_nonneg sub); lia]).
    cbn [fold_case map]. destruct (Z.to_nat p) eqn:En; cbn [last_at prefixb place]; f_equal; lia.
  - replace (p <? 0) with false by (symmetry; apply Z.ltb_ge; lia).
    apply rindex_loop_last; auto. unfold p, len in *. lia.
Qed.

(** [include?] says whether some place of the string starts with the other. *)
Lemma rb_str_include_iff str arg :
  comparable str -> comparable arg -> len str < 2 ^ 31 ->
  exists r, rb_str_include str arg = Ok r /\
    (r = true <-> exists pre post, fold_case str = pre ++ fold_case arg ++ post).
Proof.
  intros Hstr Harg Hl. unfold rb_str_include. pose proof (len_nonneg str).
  rewrite rb_str_index_first by (auto; lia). replace (0 <=? len str) with true by (symmetry; apply Z.leb_le; lia).
  cbn [Z.to_nat skipn bind]. eexists. split; [reflexivity|].
  destruct (first_at (fold_case arg) (fold_case str)) as [k|] eqn:E.
  - replace (0 + Z.of_nat k =? -1) with false by (symmetry; apply Z.eqb_neq; lia). split; [|reflexivity]. intros _.
    apply first_at_spec in E as [E _]. apply prefixb_split in E as [post E].
    exists (firstn k (fold_case str)), post. now rewrite <- E, firstn_skipn.
  - cbn. split; [discriminate|]. intros (pre & post & Hs). exfalso.
    apply (first_at_none _ _ E (length pre)). rewrite Hs, skipn_app, skipn_all, Nat.sub_diag. cbn [skipn app].
    apply prefixb_app.
Qed.

Lemma lex_antisym x y : lex y x = CompOpp (lex x y).
Proof.
  revert y; induction x as [|a x IH]; intros [|b y]; try reflexivity. cbn [lex].
  rewrite (Z.compare_antisym a b). destruct (a ?= b); cbn; [apply IH | reflexivity | reflexivity].
Qed.

(** Less: a proper beginning, or a smaller byte where the strings first differ. *)
Lemma lex_lt x y :
  lex x y = Lt <->
  exists pre, (exists b post, x = pre /\ y = pre ++ b :: post) \/
    exists a b s t, x = pre ++ a :: s /\ y = pre ++ b :: t /\ a < b.
Proof.
  revert y; induction x as [|a x IH]; intros y.
  - destruct y as [|b y]; cbn; (split; [intros H|]).
    + discriminate.
    + intros (pre & [(b & post & <- & Hn) | (a & b & s & t & Hn & _)]); [discriminate | destruct pre; discriminate].
    + exists []. left. now exists b, y.
    + reflexivity.
  - destruct y as [|b y]; cbn [lex].
    { split; [discriminate|]. intros (pre & [(b & post & _ & Hn) | (c & b & s & t & _ & Hn & _)]); destruct pre; discriminate. }
    destruct (a ?= b) eqn:E.
    + apply Z.compare_eq in E as ->. rewrite IH. split.
      * intros (pre & [(c & post & -> & ->) | (c & d & s & t & -> & -> & Hlt)]); exists (b :: pre);
          [left; exists c, post | right; exists c, d, s, t]; auto.
      * intros (pre & [(c & post & <- & Hn) | (c & d & s & t & Hx & Hy & Hlt)]).
        -- injection Hn as ->. exists x. left. exists c, post. auto.
        -- destruct pre as [|p pre]; cbn in Hx, Hy; [injection Hx as <- <-; injection Hy as <- <-; lia|].
           injection Hx as <- ->. injection Hy as ->. exists pre. right. exists c, d, s, t. auto.
    + apply Z.compare_lt_iff in E. split; [intros _; exists []; right; exists a, b, x, y; auto | reflexivity].
    + apply Z.compare_gt_iff in E. split; [discriminate|].
      intros (pre & [(c & post & <- & Hn) | (c & d & s & t & Hx & Hy & Hlt)]); [injection Hn; lia|].
      destruct pre as [|p pre]; cbn in Hx, Hy; [injection Hx as <- <-; injection Hy as <- <-; lia|].
      injection Hx as <- _. injection Hy as -> _. lia.
Qed.
End Search.

(** C16: [rb_memsearch], the Karp-Rabin search under [index], [include?] and [split], gives the first place
    where [x] occurs in [y], letters compared without case when [$=] is set, and -1 exactly when there is
    none; the rolling hash, kept in 32 bits, never hides an occurrence, and neither the search nor the
    comparison reads outside the two strings.  When case is ignored this is for strings of bytes below 128,
    since other bytes index the table of lower case letters with a negative number. *)
Theorem memsearch_first (ignorecase : bool) (x y : list Z) :
  comparable ignorecase x -> comparable ignorecase y ->
  exists r, rb_memsearch ignorecase x (len x) y (len y) = Ok r /\
    ((r = -1 /\ forall k, prefixb (fold_case ignorecase x) (skipn k (fold_case ignorecase y)) = false) \/
     (0 <= r /\ prefixb (fold_case ignorecase x) (skipn (Z.to_nat r) (fold_case ignorecase y)) = true /\
      forall j, (j < Z.to_nat r)%nat -> prefixb (fold_case ignorecase x) (skipn j (fold_case ignorecase y)) = false)).
Proof.
  intros Hx Hy. rewrite rb_memsearch_first by assumption. eexists. split; [reflexivity|].
  destruct (first_at (fold_case ignorecase x) (fold_case ignorecase y)) as [k|] eqn:E; cbn [place].
  - right. split; [lia|]. rewrite Nat2Z.id. now apply first_at_spec.
  - left. split; [reflexivity|]. intros k. destruct (prefixb _ (skipn k _)) eqn:Ek; [|reflexivity].
    destruct (first_at_none _ _ E k Ek).
Qed.

Lemma memsearch_first_witness :
  comparable true [76; 79] /\
  exists r, rb_memsearch true [76; 79] 2 [104; 101; 108; 108; 111] 5 = Ok r /\ 0 <= r.
Proof.
  assert (comparable true [76; 79]) as Hx by (repeat constructor; unfold ascii; lia).
  split; [exact Hx|].
  destruct (memsearch_first true [76; 79] [104; 101; 108; 108; 111] Hx) as (r & Hr & H).
  { repeat constructor; unfold ascii; lia. }
  exists r. split; [exact Hr|]. destruct H as [[_ H] | [H _]]; [specialize (H 3%nat); discriminate | exact H].
Defined.

(** [<=>] is the lexicographic order of the bytes, of the letters without case when [$=] is set:
    it answers 0 only for strings that compare alike, and changes sign when its arguments change sides;
    [eql?] is equality of the bytes whatever [$=] says, and equal strings have one hash. *)
Theorem string_order (ignorecase : bool) (x y : list Z) :
  comparable ignorecase x -> comparable ignorecase y ->
  exists r, rb_str_cmp ignorecase x y = Ok r /\ rb_str_cmp ignorecase y x = Ok (- r) /\
    (r = 0 <-> fold_case ignorecase x = fold_case ignorecase y) /\
    (r = -1 <-> exists pre, (exists b post, fold_case ignorecase x = pre /\ fold_case ignorecase y = pre ++ b :: post) \/
                 exists a b s t, fold_case ignorecase x = pre ++ a :: s /\ fold_case ignorecase y = pre ++ b :: t /\ a < b) /\
    exists e, rb_str_eql x y = Ok e /\ (e = true <-> x = y).
Proof.
  intros Hx Hy. exists (sign (lex (fold_case ignorecase x) (fold_case ignorecase y))).
  split; [now apply rb_str_cmp_lex|]. split; [rewrite rb_str_cmp_lex, lex_antisym by assumption; now destruct (lex _ _)|].
  split; [rewrite <- lex_eq; destruct (lex _ _); cbn; split; congruence|].
  split; [|apply rb_str_eql_eq].
  rewrite <- lex_lt. destruct (lex _ _); cbn; split; congruence.
Qed.

Lemma string_order_witness : comparable false [97; 200] /\ exists r, rb_str_cmp false [97; 200] [97; 201] = Ok r.
Proof.
  assert (comparable false [97; 200]) as Hx by (repeat constructor; unfold byte; lia). split; [exact Hx|].
  destruct (string_order false [97; 200] [97; 201] Hx) as (r & Hr & _); [|now exists r].
  repeat constructor; unfold byte; lia.
Defined.

(** Without case, a byte from 128 on is an index outside the table. *)
Lemma casecmp_high_byte (a b : Z) (x y : list Z) :
  128 <= a \/ 128 <= b -> rb_str_casecmp (a :: x) (b :: y) = Undefined.
Proof.
  intros H. unfold rb_str_casecmp, rb_memcicmp. rewrite !len_cons, lesser_cons by apply len_nonneg.
  cbn [memcicmp_loop]. replace ((128 <=? a) || (128 <=? b)) with true; [reflexivity|].
  symmetry. apply orb_true_iff. rewrite !Z.leb_le. exact H.
Qed.

(** [rindex] and [index] on examples. *)
Example rindex_hello : rb_str_rindex false [104; 101; 108; 108; 111] [108] 5 = Ok 3.
Proof. reflexivity. Qed.

Example index_from_end : rb_str_index false [104; 101; 108; 108; 111] [108] (-2) = Ok 3.
Proof. reflexivity. Qed.

