(* ===== verification/HashTable.v ===== *)
(** * Hashes: tables of entries

    What the operations of st.c do to the entries of a table in which keys may
    be buried, entry by entry, and the pairs a Hash sees of them.  The loop of
    [st_foreach] keeps an invariant of its callback, and sees every entry once
    when the callback keeps the chains. *)

From Stdlib Require Import ZArith Lia List Bool Permutation.
From S2P Require Import Prelude CInt StTable.
Import ListNotations.
Local Open Scope Z_scope.
Local Open Scope outcome_scope.

(** ** Association lists *)

Section Pairs.
Context {T : st_hash_type}.

Definition get_pair (k : Z) (l : list (Z * Z)) : option Z :=
  option_map snd (find (fun p => EQUAL k (fst p)) l).

(** A key that is there keeps its place and its object. *)
Fixpoint set_pair (k v : Z) (l : list (Z * Z)) : list (Z * Z) :=
  match l with
  | [] => []
  | p :: l => if EQUAL k (fst p) then (fst p, v) :: l else p :: set_pair k v l
  end.

(** [k'] is the object that is kept for a new key. *)
Definition store_pair (k k' v : Z) (l : list (Z * Z)) : list (Z * Z) :=
  match get_pair k l with
  | Some _ => set_pair k v l
  | None => (k', v) :: l
  end.

Fixpoint del_pair (k : Z) (l : list (Z * Z)) : list (Z * Z) :=
  match l with
  | [] => []
  | p :: l => if EQUAL k (fst p) then l else p :: del_pair k l
  end.

(** No two keys are equal. *)
Inductive keys_distinct : list (Z * Z) -> Prop :=
  | kd_nil : keys_distinct []
  | kd_cons k v l : get_pair k l = None -> keys_distinct l -> keys_distinct ((k, v) :: l).
End Pairs.

(** ** Chains *)

(** What [st_foreach] walks along: the addresses in the bins. *)
Definition shape (t : st_table) : Z * list (list Z) := (num_bins t, map addrs (bins t)).

Lemma list_set_same {A} (l : list A) i d : list_set l i (nth i l d) = l.
Proof.
  revert i; induction l as [|x l IH]; intros [|i]; cbn [list_set nth]; auto. now rewrite IH.
Qed.

Lemma map_list_set {A B} (f : A -> B) l i x : map f (list_set l i x) = list_set (map f l) i (f x).
Proof. revert i; induction l as [|y l IH]; intros [|i]; cbn [list_set map]; auto. now rewrite IH. Qed.

Lemma shape_set_bin t i l d :
  addrs l = addrs (bin t i) -> shape (add_entries (set_bin t i l) d) = shape t.
Proof.
  intros H. unfold shape, add_entries, set_bin; cbn [num_bins bins]. f_equal.
  rewrite map_list_set, H. unfold bin. rewrite <- (map_nth addrs). apply list_set_same.
Qed.

Lemma shape_addrs t t' : shape t = shape t' -> addrs (all t) = addrs (all t').
Proof.
  intros H. injection H as _ H. unfold all, addrs in *. rewrite !concat_map. exact (f_equal (@concat Z) H).
Qed.

(** ** Entries *)

Section Entries.
Context {T : st_hash_type} {L : HashLaws T}.
Context (never : Z).
Context (never_alone : forall n k, Some never = Some n -> EQUAL n k = true -> k = n).

Notation wf := (wf (Some never)).
Notation valid_key := (valid_key (Some never)).
Notation live := (live (Some never)).

Definition pair_of (e : st_table_entry) : Z * Z := (e_key e, e_record e).

(** The pairs of a table, in the order of [st_foreach]. *)
Definition pairs (t : st_table) : list (Z * Z) := map pair_of (filter live (all t)).

Lemma pairs_count t : wf t -> num_entries t = Z.of_nat (length (pairs t)).
Proof. intros W. rewrite (wf_count _ t W). unfold pairs. now rewrite length_map. Qed.

Lemma get_pairs_list l k :
  valid_key k -> get_pair k (map pair_of (filter live l)) = assoc l k.
Proof.
  intros Hk. unfold get_pair, assoc. induction l as [|e l IH]; cbn [filter find]; auto.
  destruct (live e) eqn:E; cbn [map find].
  - unfold key_is at 1. cbn [pair_of fst]. destruct (EQUAL k (e_key e)); auto.
  - rewrite IH. destruct (key_is k e) eqn:EK; auto.
    apply (key_is_live _ never_alone k e Hk) in EK. congruence.
Qed.

Lemma st_lookup_pairs t k : wf t -> valid_key k -> StTable.st_lookup t k = get_pair k (pairs t).
Proof. intros W Hk. rewrite (st_lookup_spec _ never_alone) by auto. symmetry. now apply get_pairs_list. Qed.

Lemma pairs_app l e m :
  map pair_of (filter live (l ++ e :: m)) =
  map pair_of (filter live l) ++ (if live e then [pair_of e] else []) ++ map pair_of (filter live m).
Proof.
  rewrite filter_app, map_app. cbn [filter]. now destruct (live e).
Qed.

(** The bin with a key that is there. *)
Lemma found_split t k e :
  wf t -> valid_key k -> find (key_is k) (all t) = Some e ->
  exists l1 l2, bin t (bin_pos t (do_hash k)) = l1 ++ e :: l2 /\
    (forall f, In f l1 -> key_is k f = false) /\ key_is k e = true /\ live e = true /\
    (bin_pos t (do_hash k) < length (bins t))%nat.
Proof.
  intros W Hk HF. destruct (found _ never_alone t k e W Hk HF) as (_ & Hl & HE & Hi).
  rewrite <- (find_bin _ never_alone t k W Hk) in HF.
  destruct (find_split _ _ _ HF) as (l1 & l2 & Hb & H1 & H2). exists l1, l2. splits; auto.
Qed.

(** In the bin of a key, [matches] is [key_is]. *)
Lemma matches_bin t k f :
  wf t -> valid_key k -> In f (bin t (bin_pos t (do_hash k))) -> matches (do_hash k) k f = key_is k f.
Proof.
  intros W Hk Hf. unfold matches, key_is. destruct (EQUAL k (e_key f)) eqn:E; [|apply andb_false_r].
  destruct (key_bin _ never_alone t k f W Hk (in_bin_all _ _ _ Hf) E) as [_ ->]. now rewrite Z.eqb_refl.
Qed.

Lemma insert_found t k v e :
  wf t -> valid_key k -> find (key_is k) (all t) = Some e ->
  exists t' A B, StTable.st_insert t k v = Ok (true, t') /\ wf t' /\
    all t = A ++ e :: B /\ all t' = A ++ set_record v e :: B /\
    key_is k e = true /\ live e = true /\ num_entries t' = num_entries t /\ shape t' = shape t.
Proof.
  intros W Hk HF. destruct (found_split t k e W Hk HF) as (l1 & l2 & Hb & H1 & H2 & Hl & Hi).
  set (i := bin_pos t (do_hash k)) in *.
  destruct (update_first_app (matches (do_hash k) k) (set_record v) l1 e l2) as [Hu _].
  { intros y Hy. rewrite (matches_bin t); auto. fold i. rewrite Hb. apply in_app_iff; auto. }
  { rewrite (matches_bin t); auto. fold i. rewrite Hb. apply in_middle; auto. }
  pose proof (wf_replace _ t i l1 e (set_record v e) l2 W Hi Hb eq_refl eq_refl ltac:(auto)) as W'.
  change (live (set_record v e)) with (live e) in W'. rewrite Z.sub_diag in W'.
  destruct (around t i l1 e l2 [set_record v e] Hi Hb) as (A & B & HA & HA'). cbn [app] in HA'.
  exists (add_entries (set_bin t i (l1 ++ set_record v e :: l2)) 0), A, B. splits; auto.
  - unfold StTable.st_insert. rewrite (find_entry_spec _ never_alone), HF by auto. fold i.
    rewrite Hb, Hu. unfold add_entries, set_bin; cbn. do 3 f_equal. lia.
  - cbn. lia.
  - apply shape_set_bin. rewrite Hb. unfold addrs. rewrite !map_app. reflexivity.
Qed.

Lemma delete_found t k e :
  wf t -> valid_key k -> find (key_is k) (all t) = Some e ->
  exists t' A B, st_delete t k = (Some (e_key e, e_record e), t') /\ wf t' /\
    all t = A ++ e :: B /\ all t' = A ++ B /\
    key_is k e = true /\ live e = true /\ num_entries t' = num_entries t - 1.
Proof.
  intros W Hk HF. destruct (found_split t k e W Hk HF) as (l1 & l2 & Hb & H1 & H2 & Hl & Hi).
  set (i := bin_pos t (do_hash k)) in *.
  destruct (update_first_app (key_is k) (fun e => e) l1 e l2 H1 H2) as [_ Hu].
  destruct (around t i l1 e l2 [] Hi Hb) as (A & B & HA & HA'). cbn [app] in HA'.
  exists (add_entries (set_bin t i (l1 ++ l2)) (-1)), A, B. splits; auto.
  - rewrite st_delete_eq. cbv zeta. rewrite (find_bin _ never_alone), HF by auto. fold i.
    now rewrite Hb, Hu.
  - now apply (wf_remove _ t i l1 e l2).
Qed.

Lemma delete_safe_found t k e :
  wf t -> valid_key k -> find (key_is k) (all t) = Some e ->
  exists t' A B, st_delete_safe t k never = (Some (e_key e, e_record e), t') /\ wf t' /\
    all t = A ++ e :: B /\ all t' = A ++ bury never e :: B /\
    key_is k e = true /\ live e = true /\ num_entries t' = num_entries t - 1 /\ shape t' = shape t.
Proof.
  intros W Hk HF. destruct (found_split t k e W Hk HF) as (l1 & l2 & Hb & H1 & H2 & Hl & Hi).
  set (i := bin_pos t (do_hash k)) in *.
  set (p := fun e => negb (e_key e =? never) && EQUAL (e_key e) k).
  assert (Hp : forall f, p f = key_is k f).
  { intros f. unfold p, key_is. rewrite EQUAL_sym. destruct (Z.eqb_spec (e_key f) never) as [->|]; auto.
    cbn [negb andb]. symmetry. now apply never_not_equal. }
  destruct (update_first_app p (bury never) l1 e l2) as [Hu _]; [intros; rewrite Hp; auto|now rewrite Hp|].
  assert (Hbl : live (bury never e) = false) by (cbn; now rewrite Z.eqb_refl).
  pose proof (wf_replace _ t i l1 e (bury never e) l2 W Hi Hb eq_refl eq_refl
    ltac:(rewrite Hbl; discriminate)) as W'. rewrite Hbl, Hl in W'. change (0 - 1) with (-1) in W'.
  destruct (around t i l1 e l2 [bury never e] Hi Hb) as (A & B & HA & HA'). cbn [app] in HA'.
  exists (add_entries (set_bin t i (l1 ++ bury never e :: l2)) (-1)), A, B. splits; auto.
  - unfold st_delete_safe. fold p. rewrite (find_ext_in p (key_is k)) by auto.
    rewrite (find_bin _ never_alone), HF by auto. fold i. now rewrite Hb, Hu.
  - apply shape_set_bin. rewrite Hb. unfold addrs. rewrite !map_app. reflexivity.
Qed.

Lemma delete_none t k :
  wf t -> valid_key k -> find (key_is k) (all t) = None ->
  st_delete t k = (None, t) /\ st_delete_safe t k never = (None, t).
Proof.
  intros W Hk HF. rewrite st_delete_eq. unfold st_delete_safe. cbv zeta. fold (key_is k).
  rewrite (find_bin _ never_alone), HF by auto. split; auto.
  rewrite (find_ext_in _ (key_is k)).
  - now rewrite (find_bin _ never_alone), HF by auto.
  - intros f _. unfold key_is. rewrite EQUAL_sym. destruct (Z.eqb_spec (e_key f) never) as [->|]; auto.
    cbn [negb andb]. symmetry. now apply never_not_equal.
Qed.

(** *** The pairs after an operation *)

Lemma get_pair_app k l m :
  get_pair k (l ++ m) = match get_pair k l with Some v => Some v | None => get_pair k m end.
Proof. unfold get_pair. rewrite find_app. now destruct (find _ l). Qed.

Lemma get_pair_cons k p l : get_pair k (p :: l) = if EQUAL k (fst p) then Some (snd p) else get_pair k l.
Proof. unfold get_pair. cbn [find]. now destruct (EQUAL k (fst p)). Qed.

Lemma set_del_app k v l p m :
  get_pair k l = None -> EQUAL k (fst p) = true ->
  set_pair k v (l ++ p :: m) = l ++ (fst p, v) :: m /\ del_pair k (l ++ p :: m) = l ++ m.
Proof.
  intros Hl Hp. induction l as [|q l IH]; cbn [app set_pair del_pair]; [now rewrite Hp|].
  rewrite get_pair_cons in Hl. destruct (EQUAL k (fst q)); [discriminate|].
  destruct (IH Hl) as [-> ->]. auto.
Qed.

(** An entry with the key of a live one has no other before it. *)
Lemma before_none t k A e B :
  wf t -> valid_key k -> all t = A ++ e :: B -> EQUAL k (e_key e) = true ->
  get_pair k (map pair_of (filter live A)) = None.
Proof.
  intros W Hk HA HE. rewrite get_pairs_list by exact Hk.
  pose proof (wf_distinct _ t W) as HD. destruct (wf_addrs _ t W) as [HN _]. rewrite HA in HD, HN.
  pose proof (assoc_gone _ never_alone A e B k HN HD Hk HE) as HG. unfold assoc in *. rewrite find_app in HG.
  now destruct (find (key_is k) A).
Qed.

Lemma pairs_set t t' k v A e B :
  wf t -> valid_key k -> all t = A ++ e :: B -> all t' = A ++ set_record v e :: B ->
  key_is k e = true -> live e = true -> pairs t' = set_pair k v (pairs t).
Proof.
  intros W Hk HA HA' HE Hl. unfold pairs. rewrite HA, HA', !pairs_app.
  change (live (set_record v e)) with (live e). rewrite Hl. cbn [app].
  destruct (set_del_app k v (map pair_of (filter live A)) (pair_of e) (map pair_of (filter live B))) as [-> _];
    auto. now apply (before_none t k A e B).
Qed.

Lemma pairs_del t t' k A e B :
  wf t -> valid_key k -> all t = A ++ e :: B ->
  map pair_of (filter live (all t')) = map pair_of (filter live (A ++ B)) ->
  key_is k e = true -> live e = true -> pairs t' = del_pair k (pairs t).
Proof.
  intros W Hk HA HA' HE Hl. unfold pairs. rewrite HA', HA, pairs_app, filter_app, map_app, Hl. cbn [app].
  destruct (set_del_app k 0 (map pair_of (filter live A)) (pair_of e) (map pair_of (filter live B))) as [_ ->];
    auto. now apply (before_none t k A e B).
Qed.

Lemma del_pair_none k l : get_pair k l = None -> del_pair k l = l.
Proof.
  induction l as [|p l IH]; cbn [del_pair]; auto. rewrite get_pair_cons.
  destruct (EQUAL k (fst p)); [discriminate|]. intros H. now rewrite IH.
Qed.

Lemma find_pairs t k :
  valid_key k -> get_pair k (pairs t) = option_map e_record (find (key_is k) (all t)).
Proof. intros Hk. unfold pairs. now rewrite get_pairs_list. Qed.

(** ** Tables of a Hash *)

(** An entry takes 16 bytes of an address space of 32 bits. *)
Definition MAX : Z := 268435454.

Record good (t : st_table) : Prop := mkGood {
  good_wf : wf t;
  good_buried : Forall (buried never) (all t);
  good_count : num_entries t <= MAX
}.

Lemma good_in t e : good t -> In e (all t) -> e_key e <> never -> e_record e <> never /\ live e = true.
Proof.
  intros G Hin Hk. pose proof (good_buried t G) as HB. rewrite Forall_forall in HB.
  assert (Hl : live e = true) by (cbn; now apply negb_true_iff, Z.eqb_neq).
  split; auto. intros HR. apply (HB e Hin) in HR. congruence.
Qed.

Lemma buried_bury e : buried never (bury never e).
Proof. unfold buried. cbn. rewrite Z.eqb_refl. split; auto. Qed.

Lemma Forall_replace {A} (P : A -> Prop) l x y m : Forall P (l ++ x :: m) -> P y -> Forall P (l ++ y :: m).
Proof. rewrite !Forall_app, !Forall_cons_iff. tauto. Qed.

Lemma Forall_drop {A} (P : A -> Prop) l x m : Forall P (l ++ x :: m) -> Forall P (l ++ m).
Proof. rewrite !Forall_app, Forall_cons_iff. tauto. Qed.

Lemma good_insert t k v e :
  good t -> valid_key k -> v <> never -> find_entry t (do_hash k) k = Some e ->
  exists t', StTable.st_insert t k v = Ok (true, t') /\ good t' /\ pairs t' = set_pair k v (pairs t) /\
    shape t' = shape t.
Proof.
  intros G Hk Hv HF. pose proof (good_wf t G) as W. rewrite (find_entry_spec _ never_alone) in HF by auto.
  destruct (insert_found t k v e W Hk HF) as (t' & A & B & E & W' & HA & HA' & HE & Hl & HN & HS).
  exists t'. splits; auto.
  - split; auto; [|rewrite HN; apply (good_count t G)]. rewrite HA'. apply (Forall_replace _ A e).
    + rewrite <- HA. apply (good_buried t G).
    + unfold buried. change (live (set_record v e)) with (live e). rewrite Hl. cbn. split; congruence.
  - now apply (pairs_set t t' k v A e B).
Qed.

Lemma good_delete t k :
  good t -> valid_key k ->
  match st_delete t k with
  | (Some (k0, v), t') =>
      good t' /\ pairs t' = del_pair k (pairs t) /\ get_pair k (pairs t) = Some v /\ v <> never
  | (None, t') => get_pair k (pairs t) = None
  end.
Proof.
  intros G Hk. pose proof (good_wf t G) as W. rewrite find_pairs by exact Hk.
  destruct (find (key_is k) (all t)) as [e|] eqn:HF; cbn [option_map].
  - destruct (delete_found t k e W Hk HF) as (t' & A & B & -> & W' & HA & HA' & HE & Hl & HN).
    splits; auto.
    + split; auto; [|pose proof (good_count t G); lia]. rewrite HA'. apply (Forall_drop _ A e).
      rewrite <- HA. apply (good_buried t G).
    + apply (pairs_del t t' k A e B); auto. now rewrite HA'.
    + apply (good_in t e G). { rewrite HA. apply in_middle. auto. }
      intros HK. cbn in Hl. now rewrite HK, Z.eqb_refl in Hl.
  - destruct (delete_none t k W Hk HF) as [-> _]. reflexivity.
Qed.

Lemma good_delete_safe t k :
  good t -> valid_key k ->
  match st_delete_safe t k never with
  | (Some (k0, v), t') =>
      good t' /\ pairs t' = del_pair k (pairs t) /\ get_pair k (pairs t) = Some v /\ v <> never /\
      shape t' = shape t
  | (None, t') => t' = t /\ get_pair k (pairs t) = None
  end.
Proof.
  intros G Hk. pose proof (good_wf t G) as W. rewrite find_pairs by exact Hk.
  destruct (find (key_is k) (all t)) as [e|] eqn:HF; cbn [option_map].
  - destruct (delete_safe_found t k e W Hk HF) as (t' & A & B & -> & W' & HA & HA' & HE & Hl & HN & HS).
    assert (Hbl : live (bury never e) = false) by (cbn; now rewrite Z.eqb_refl).
    splits; auto.
    + split; auto; [|pose proof (good_count t G); lia]. rewrite HA'. apply (Forall_replace _ A e).
      * rewrite <- HA. apply (good_buried t G).
      * apply buried_bury.
    + apply (pairs_del t t' k A e B); auto. rewrite HA', pairs_app, Hbl, filter_app, map_app. reflexivity.
    + apply (good_in t e G). { rewrite HA. apply in_middle. auto. }
      intros HK. cbn in Hl. now rewrite HK, Z.eqb_refl in Hl.
  - destruct (delete_none t k W Hk HF) as [_ ->]. auto.
Qed.

Lemma good_add t k v :
  good t -> num_entries t < MAX -> valid_key k -> v <> never -> get_pair k (pairs t) = None ->
  exists t', StTable.st_add_direct t k v = Ok t' /\ good t' /\ Permutation (pairs t') ((k, v) :: pairs t).
Proof.
  intros G HM Hk Hv HG. pose proof (good_wf t G) as W. unfold StTable.st_add_direct.
  unfold pairs in HG. rewrite get_pairs_list in HG by exact Hk.
  destruct (add_direct_spec _ never_alone t k v W) as (t' & e & E & W' & HP & HK & HV & HN & _); auto.
  { unfold MAX, ENTRIES_MAX in *. lia. }
  assert (Hl : live e = true) by (apply (proj2 (live_valid _ never_alone e)); rewrite HK; exact Hk).
  exists t'. splits; auto.
  - split; auto; [|unfold MAX in *; lia]. rewrite Forall_forall. intros f Hf.
    apply (Permutation_in _ HP) in Hf as [<-|Hf].
    + unfold buried. rewrite Hl, HV. split; congruence.
    + pose proof (good_buried t G) as HB. rewrite Forall_forall in HB. auto.
  - unfold pairs. rewrite <- HK, <- HV. change (e_key e, e_record e) with (pair_of e).
    rewrite <- map_cons. apply Permutation_map.
    replace (e :: filter live (all t)) with (filter live (e :: all t)) by (cbn [filter]; now rewrite Hl).
    clear -HP. induction HP; cbn [filter]; auto.
    + destruct (live x); auto.
    + destruct (live x), (live y); auto. apply perm_swap.
    + etransitivity; eassumption.
Qed.
End Entries.

(** ** More tables of a Hash *)

Section Whole.
Context {T : st_hash_type} {L : HashLaws T}.
Context (never : Z).
Context (never_alone : forall n k, Some never = Some n -> EQUAL n k = true -> k = n).

Notation wf := (wf (Some never)).
Notation valid_key := (valid_key (Some never)).
Notation live := (live (Some never)).
Notation good := (good never).
Notation pairs := (pairs never).

Lemma good_init size :
  0 <= size < 268435456 ->
  exists t, st_init_table_with_size size = Ok t /\ good t /\ pairs t = [] /\ num_entries t = 0.
Proof.
  intros Hs. destruct (st_init_table_with_size_spec (Some never) size Hs) as (t & E & W & HA & _).
  assert (HN : num_entries t = 0) by (rewrite (wf_count _ t W), HA; reflexivity).
  exists t. splits; auto.
  - split; auto; [now rewrite HA|rewrite HN; unfold MAX; lia].
  - unfold pairs, HashTable.pairs. now rewrite HA.
Qed.

Lemma live_pair e : live e = negb (fst (pair_of e) =? never).
Proof. reflexivity. Qed.

(** What a Hash sees of a table depends on its entries only. *)
Lemma good_cleanup t :
  good t ->
  exists t', st_cleanup_safe t never = Ok (Some t') /\ good t' /\ pairs t' = pairs t /\
    Forall (fun e => live e = true) (all t').
Proof.
  intros G. destruct (st_cleanup_safe_spec never never_alone t (good_wf _ t G) (good_buried _ t G))
    as (t' & E & W' & HA & HN & _).
  exists t'. splits; auto.
  - split; auto; [|rewrite HN; apply (good_count _ t G)]. rewrite HA.
    pose proof (good_buried _ t G) as HB. rewrite Forall_forall in *. intros e He.
    apply HB. now apply filter_In in He.
  - unfold pairs, HashTable.pairs. now rewrite HA, filter_twice.
  - rewrite HA, Forall_forall. intros e He. now apply filter_In in He.
Qed.

Lemma good_rehash t :
  good t -> ST_DEFAULT_MAX_DENSITY < cdiv (num_entries t) (num_bins t) ->
  exists t', StTable.rehash t = Ok t' /\ good t' /\ Permutation (pairs t') (pairs t).
Proof.
  intros G Hd. pose proof (good_wf _ t G) as W. pose proof (good_count _ t G) as HM.
  assert (HB : num_bins t < 268435455).
  { pose proof (wf_bins _ t W) as [Hp _]. pose proof (wf_count _ t W) as Hc.
    unfold cdiv, ST_DEFAULT_MAX_DENSITY, MAX in *. rewrite Z.quot_div_nonneg in Hd by lia.
    pose proof (Z.mul_div_le (num_entries t) (num_bins t) Hp). nia. }
  destruct (rehash_spec _ t W HB) as (t' & E & W' & HP & _ & HN & _). exists t'. splits; auto.
  - split; auto; [|rewrite HN; exact HM]. rewrite Forall_forall. intros e He.
    pose proof (good_buried _ t G) as HBu. rewrite Forall_forall in HBu. apply HBu.
    now apply (Permutation_in _ HP).
  - apply Permutation_map. clear -HP. induction HP; cbn [filter]; auto.
    + destruct (live x); auto.
    + destruct (live x), (live y); auto. apply perm_swap.
    + etransitivity; eassumption.
Qed.

Lemma same_bins_pairs r bs :
  Forall2 same_bin r bs -> Permutation (map pair_of (filter live (concat r))) (map pair_of (filter live (concat bs))).
Proof.
  intros HF. pose proof (same_bins_content r bs HF) as HP.
  set (sel := fun c : Z * Z * Z => negb (snd (fst c) =? never)).
  assert (HX : forall l, map pair_of (filter live l) =
      map (fun c : Z * Z * Z => (snd (fst c), snd c)) (filter sel (map content l))).
  { induction l as [|e l IH]; auto. cbn [map filter]. unfold sel at 1. cbn [content fst snd].
    change (live e) with (negb (e_key e =? never)). destruct (e_key e =? never); cbn [negb map]; rewrite IH; auto. }
  rewrite !HX. apply Permutation_map. clear -HP. induction HP; cbn [filter]; auto.
  + destruct (sel x); auto.
  + destruct (sel x), (sel y); auto. apply perm_swap.
  + etransitivity; eassumption.
Qed.

Lemma good_copy t :
  good t -> good (st_copy t) /\ Permutation (pairs (st_copy t)) (pairs t).
Proof.
  intros G. destruct (st_copy_spec _ never_alone t (good_wf _ t G)) as (W' & _ & HF & _ & HN & _).
  split; [split|].
  - exact W'.
  - pose proof (same_bins_content _ _ HF) as HP. pose proof (good_buried _ t G) as HB.
    rewrite Forall_forall in *. intros e He. apply (in_map content) in He.
    apply (Permutation_in _ HP) in He. apply in_map_iff in He as (f & Hc & Hf). specialize (HB f Hf).
    unfold buried in *. rewrite <- (live_content (Some never) f e Hc). injection Hc as _ _ <-. exact HB.
  - rewrite HN. apply (good_count _ t G).
  - now apply same_bins_pairs.
Qed.

(** *** Keys *)

Lemma pairs_distinct t : wf t -> keys_distinct (pairs t).
Proof.
  intros W. unfold pairs, HashTable.pairs. pose proof (wf_distinct _ t W) as HD.
  destruct (wf_addrs _ t W) as [HN _]. clear W. induction (all t) as [|e l IH]; cbn [filter]; [constructor|].
  assert (IH' : keys_distinct (map pair_of (filter live l))).
  { apply IH; [|now inversion HN]. apply (distinct_sub _ (e :: l)); auto. now apply incl_tl, incl_refl. }
  destruct (live e) eqn:E; auto. cbn [map]. constructor; auto.
  pose proof (proj1 (live_valid _ never_alone e) E) as Hk.
  rewrite (get_pairs_list never never_alone) by exact Hk.
  apply (assoc_gone _ never_alone [] e l (e_key e) HN HD Hk). apply EQUAL_refl.
Qed.

Lemma pairs_valid t k v : good t -> In (k, v) (pairs t) -> k <> never /\ v <> never.
Proof.
  intros G H. apply in_map_iff in H as (e & HE & He). injection HE as <- <-. apply filter_In in He as [He Hl].
  assert (Hk : e_key e <> never) by (cbn in Hl; now apply negb_true_iff, Z.eqb_neq in Hl).
  split; auto. now apply (good_in never t e G).
Qed.

Lemma get_pair_in k l v : get_pair k l = Some v -> exists k', In (k', v) l /\ EQUAL k k' = true.
Proof.
  unfold get_pair. destruct (find _ l) as [[k' v']|] eqn:E; [|discriminate]. intros HE; injection HE as ->.
  apply find_some in E as [Hin HE]. eauto.
Qed.

Lemma get_pair_equal k k' l : EQUAL k k' = true -> get_pair k l = get_pair k' l.
Proof.
  intros HE. unfold get_pair. f_equal. apply find_ext_in. intros p _. now apply EQUAL_proper.
Qed.

Lemma get_pair_permutation k l m : keys_distinct l -> Permutation l m -> get_pair k l = get_pair k m.
Proof.
  intros HD HP. unfold get_pair. f_equal. apply find_permutation; auto. clear m HP.
  induction HD as [|k0 v0 l HG HD IH]; intros x y Hx Hy HEx HEy; [contradiction|].
  assert (HC : forall z, In z l -> EQUAL k (fst z) = true -> EQUAL k k0 = true -> False).
  { intros [k1 v1] Hz Hz1 Hk. unfold get_pair in HG. destruct (find _ l) eqn:E; [discriminate|].
    pose proof (find_none _ _ E _ Hz) as HX. cbn [fst] in *.
    assert (same_key k0 k1) by (transitivity k; [now symmetry|exact Hz1]). unfold same_key in *. congruence. }
  destruct Hx as [<-|Hx], Hy as [<-|Hy]; auto; exfalso; eauto.
Qed.

Lemma keys_distinct_permutation l m : Permutation l m -> keys_distinct l -> keys_distinct m.
Proof.
  induction 1 as [|[k v] l m HP IH|[k v] [k' v'] l|l m n H1 IH1 H2 IH2]; intros HD; auto.
  - inversion HD as [|? ? ? HG HD']; subst. constructor; auto. now rewrite <- (get_pair_permutation k l m).
  - inversion HD as [|? ? ? HG HD']; subst. inversion HD' as [|? ? ? HG' HD'']; subst.
    rewrite get_pair_cons in HG. cbn [fst snd] in HG. destruct (EQUAL k' k) eqn:E; [discriminate|].
    constructor; [|now constructor]. rewrite get_pair_cons. cbn [fst snd]. rewrite EQUAL_sym, E. exact HG'.
Qed.

Lemma set_pair_permutation k v l m :
  keys_distinct l -> Permutation l m -> Permutation (set_pair k v l) (set_pair k v m).
Proof.
  intros HD HP. induction HP as [|[k0 v0] l m HP IH|[k1 v1] [k2 v2] l|l m n H1 IH1 H2 IH2]; cbn [set_pair]; auto.
  - inversion HD; subst. cbn [fst]. destruct (EQUAL k k0); auto.
  - inversion HD as [|? ? ? HG HD']; subst. cbn [fst]. destruct (EQUAL k k2) eqn:E2, (EQUAL k k1) eqn:E1; auto using perm_swap.
    exfalso. rewrite get_pair_cons in HG. cbn [fst] in HG.
    assert (same_key k2 k1) as HX by (transitivity k; [now symmetry|exact E1]). unfold same_key in HX. now rewrite HX in HG.
  - etransitivity; [now apply IH1|]. apply IH2. now apply (keys_distinct_permutation l).
Qed.

Lemma del_pair_permutation k l m :
  keys_distinct l -> Permutation l m -> Permutation (del_pair k l) (del_pair k m).
Proof.
  intros HD HP. induction HP as [|[k0 v0] l m HP IH|[k1 v1] [k2 v2] l|l m n H1 IH1 H2 IH2]; cbn [del_pair]; auto.
  - inversion HD; subst. cbn [fst]. destruct (EQUAL k k0); auto.
  - inversion HD as [|? ? ? HG HD']; subst. cbn [fst]. destruct (EQUAL k k2) eqn:E2, (EQUAL k k1) eqn:E1; auto using perm_swap.
    exfalso. rewrite get_pair_cons in HG. cbn [fst] in HG.
    assert (same_key k2 k1) as HX by (transitivity k; [now symmetry|exact E1]). unfold same_key in HX. now rewrite HX in HG.
  - etransitivity; [now apply IH1|]. apply IH2. now apply (keys_distinct_permutation l).
Qed.

Lemma store_pair_permutation k k' v l m :
  keys_distinct l -> Permutation l m -> Permutation (store_pair k k' v l) (store_pair k k' v m).
Proof.
  intros HD HP. unfold store_pair. rewrite (get_pair_permutation k l m HD HP).
  destruct (get_pair k m); auto using set_pair_permutation.
Qed.
End Whole.

(** ** The loop *)

Section Loops.
Context {T : st_hash_type} {St : Type}.
Context (func : option (Z * Z) -> St -> st_table -> outcome (st_retval * St * st_table)).

(** An invariant [I] of the callback holds through the loop and gives [F] at
    its end; the entries it is called with are entries of the table. *)
Section Invariant.
Context (I : St -> st_table -> Prop) (F : St -> Prop).

Definition keeps_invariant : Prop :=
  (forall s t e, I s t -> In e (all t) ->
    match func (Some (e_key e, e_record e)) s t with
    | Ok (ST_CHECK, s', t') => I s' t'
    | Ok (ST_CONTINUE, s', t') => t' = t /\ I s' t'
    | Ok (ST_STOP, s', _) => F s'
    | _ => False
    end) /\
  (forall s t, I s t -> match func None s t with Ok (_, s', _) => F s' | _ => False end) /\
  (forall s t, I s t -> F s).

Definition inv_state (c : fe_state St) : Prop :=
  match c with
  | FE_bin _ s t => I s t
  | FE_at _ _ _ s t => I s t /\ fe_safe c
  | FE_done s _ => F s
  end.

Lemma deref_some t a : deref t a <> None -> exists e, deref t a = Some e /\ In e (all t) /\ e_addr e = a.
Proof.
  unfold deref. destruct (find _ _) as [e|] eqn:E; [|congruence]. intros _. apply find_some in E as [Hin HE].
  exists e. splits; auto. now apply Z.eqb_eq.
Qed.

Lemma in_after_bins t e : In e (all t) -> after_bins (e_addr e) (bins t) <> None.
Proof.
  intros H. apply in_concat_nth in H as (i & Hi & Hin). apply (after_bins_found _ _ i).
  apply existsb_exists. exists e. split; auto. apply Z.eqb_refl.
Qed.

Lemma fe_step_inv c :
  keeps_invariant -> inv_state c ->
  match fe_step func c with Ok c' => inv_state c' | _ => False end.
Proof.
  intros (HC & HN & HF) HI. destruct c as [i s t|i last [a|] s t|s t]; cbn [fe_step].
  - destruct (i <? num_bins t); [|now apply (HF s t)]. split; [exact HI|]. apply head_addr_safe, bin_incl.
  - destruct HI as [HI HS]. destruct (deref_some t a HS) as (e & HD & Hin & Ha). rewrite HD. cbn [bind].
    specialize (HC s t e HI Hin). destruct (func (Some (e_key e, e_record e)) s t) as [[[r s'] t']|er| |];
      cbn [bind]; try contradiction.
    assert (HCont : I s' t' -> after_bins a (bins t') <> None ->
      match fe_continue i a s' t' with Ok c' => inv_state c' | _ => False end).
    { intros HI' HA. unfold fe_continue. destruct (after_bins a (bins t')) as [rest|] eqn:E; [|congruence].
      split; [exact HI'|]. apply head_addr_safe. now apply after_bins_incl in E. }
    destruct r; try contradiction; auto.
    + destruct HC as [-> HI']. apply HCont; auto. rewrite <- Ha. now apply in_after_bins.
    + destruct ((i <? num_bins t') && in_chain a (bin t' (Z.to_nat i))) eqn:E.
      * apply HCont; auto. breflect. now apply (after_bins_found a (bins t') (Z.to_nat i)).
      * specialize (HN s' t' HC). destruct (func None s' t') as [[[r s2] t2]|er| |]; cbn [bind]; try contradiction.
        exact HN.
  - exact (proj1 HI).
  - exact HI.
Qed.

Lemma fe_run_inv n c :
  keeps_invariant -> inv_state c ->
  match fe_run func n c with Ok c' => inv_state c' | _ => False end.
Proof.
  intros HK; revert c; induction n as [|n IH]; intros c HI; cbn [fe_run]; [exact HI|].
  pose proof (fe_step_inv c HK HI) as H. destruct (fe_step func c); cbn [bind]; try contradiction. now apply IH.
Qed.

Lemma st_foreach_inv n t s :
  keeps_invariant -> I s t ->
  match st_foreach func n t s with
  | Ok (Some (s', _)) => F s'
  | Ok None => True
  | _ => False
  end.
Proof.
  intros HK HI. unfold st_foreach. pose proof (fe_run_inv n (FE_bin 0 s t) HK HI) as H.
  destruct (fe_run func n (FE_bin 0 s t)) as [[]| | |]; cbn [bind]; try contradiction; auto.
Qed.
End Invariant.
End Loops.

(** ** The loop over chains that stay *)

Section Visits.
Context {T : st_hash_type} {St : Type}.
Context (func : option (Z * Z) -> St -> st_table -> outcome (st_retval * St * st_table)).

(** The callback for the entries at the given addresses, one after the other,
    each as it is when its turn comes; whether the callback stopped. *)
Fixpoint visit (l : list Z) (s : St) (t : st_table) : outcome (bool * St * st_table) :=
  match l with
  | [] => Ok (false, s, t)
  | a :: l =>
      match deref t a with
      | None => Undefined
      | Some e =>
          '(r, s, t) <- func (Some (e_key e, e_record e)) s t ;;
          match r with
          | ST_STOP => Ok (true, s, t)
          | _ => visit l s t
          end
      end
  end.

Lemma visit_app l m s t :
  visit (l ++ m) s t =
  bind (visit l s t) (fun '(b, s, t) => if b : bool then Ok (true, s, t) else visit m s t).
Proof.
  revert s t; induction l as [|a l IH]; intros s t; cbn [app visit bind]; auto.
  destruct (deref t a) as [e|]; cbn [bind]; auto.
  destruct (func (Some (e_key e, e_record e)) s t) as [[[[] s'] t']| | |]; cbn [bind]; auto.
Qed.

Context (K : St -> st_table -> Prop) (nb : Z) (B : list (list Z)).

(** The callback may change what is in the entries, but not the chains. *)
Definition keeps_chains : Prop :=
  nb = Z.of_nat (length B) /\ NoDup (concat B) /\
  (forall s t, K s t -> shape t = (nb, B)) /\
  (forall s t e, K s t -> In e (all t) ->
    match func (Some (e_key e, e_record e)) s t with
    | Ok (ST_STOP, _, _) => True
    | Ok (ST_DELETE, _, _) => False
    | Ok (_, s', t') => K s' t'
    | _ => False
    end).

Lemma addrs_split l p a q :
  addrs l = p ++ a :: q -> exists l1 e l2, l = l1 ++ e :: l2 /\ addrs l1 = p /\ e_addr e = a /\ addrs l2 = q.
Proof.
  unfold addrs. intros H. apply map_eq_app in H as (l1 & l2 & -> & H1 & H2).
  apply map_eq_cons in H2 as (e & l3 & -> & He & H3). eauto 7.
Qed.

Lemma shape_split (bs : list (list st_table_entry)) B1 l B2 :
  map addrs bs = B1 ++ l :: B2 ->
  exists b1 c b2, bs = b1 ++ c :: b2 /\ map addrs b1 = B1 /\ addrs c = l /\ map addrs b2 = B2.
Proof.
  intros H. apply map_eq_app in H as (b1 & l2 & -> & H1 & H2).
  apply map_eq_cons in H2 as (c & b2 & -> & Hc & H3). eauto 7.
Qed.

Lemma not_at l a : ~ In a (addrs l) -> forall e, In e l -> (e_addr e =? a) = false.
Proof. intros H e He. apply Z.eqb_neq. intros <-. apply H. now apply in_map. Qed.

(** An address of bin [length B1] is in the table, with its chain behind it. *)
Lemma at_address t B1 pre a suf B2 :
  shape t = (nb, B1 ++ (pre ++ a :: suf) :: B2) -> NoDup (concat (B1 ++ (pre ++ a :: suf) :: B2)) ->
  (exists e, deref t a = Some e /\ In e (all t)) /\
  in_chain a (bin t (length B1)) = true /\
  exists rest, after_bins a (bins t) = Some rest /\ addrs rest = suf.
Proof.
  intros HS HN. injection HS as _ HS.
  destruct (shape_split _ _ _ _ HS) as (b1 & c & b2 & Hb & H1 & Hc & H2).
  destruct (addrs_split _ _ _ _ Hc) as (l1 & e & l2 & -> & Hp & He & Hq).
  assert (Hin : In e (all t)).
  { unfold all. rewrite Hb, concat_app. cbn [concat]. rewrite !in_app_iff. cbn. tauto. }
  assert (Hab : ~ In a (addrs (concat b1)) /\ ~ In a pre).
  { rewrite concat_app in HN. cbn [concat] in HN. rewrite <- app_assoc in HN. cbn [app] in HN.
    rewrite app_assoc in HN. apply NoDup_remove_2 in HN.
    assert (HC : addrs (concat b1) = concat B1) by (rewrite <- H1; unfold addrs; apply concat_map).
    rewrite HC. rewrite !in_app_iff in HN. tauto. }
  destruct Hab as [Ha1 Ha2]. splits.
  - destruct (deref_some t a) as (f & Hf & Hfin & _); [|eauto]. rewrite <- He. now apply deref_in.
  - unfold bin. rewrite Hb, <- H1, length_map, nth_middle. apply existsb_exists. exists e.
    rewrite in_app_iff. cbn. rewrite He, Z.eqb_refl. auto.
  - exists l2. split; [|exact Hq]. rewrite Hb, after_bins_app by (apply not_at; exact Ha1).
    cbn [after_bins]. rewrite after_app by (apply not_at; now rewrite Hp). cbn [after].
    now rewrite He, Z.eqb_refl.
Qed.

Lemma addrs_concat bs : addrs (concat bs) = concat (map addrs bs).
Proof. apply concat_map. Qed.

Lemma head_addr_addrs l : head_addr l = hd_error (addrs l).
Proof. now destruct l. Qed.

Lemma visit_keeps l s t :
  keeps_chains -> K s t -> incl l (concat B) ->
  match visit l s t with Ok (b, s', t') => if b : bool then True else K s' t' | _ => False end.
Proof.
  intros (Hnb & HN & HS & HF); revert s t; induction l as [|a l IH]; intros s t HK HI; cbn [visit]; [exact HK|].
  assert (Ha : In a (concat B)) by (apply HI; now left).
  pose proof (HS s t HK) as HSh. unfold shape in HSh. injection HSh as _ HB.
  assert (HD : deref t a <> None).
  { rewrite <- HB, <- addrs_concat in Ha. apply in_map_iff in Ha as (e & <- & He). now apply deref_in. }
  destruct (deref_some t a HD) as (e & -> & Hin & _). specialize (HF s t e HK Hin).
  destruct (func (Some (e_key e, e_record e)) s t) as [[[[] s'] t']| | |]; cbn [bind]; try contradiction; auto;
    apply IH; auto; intros x Hx; apply HI; now right.
Qed.

Lemma visit_inner B1 B2 suf pre s t last :
  keeps_chains -> K s t -> B = B1 ++ (pre ++ suf) :: B2 ->
  fe_run func (S (length suf)) (FE_at (Z.of_nat (length B1)) last (hd_error suf) s t) =
  bind (visit suf s t)
    (fun '(b, s', t') => Ok (if b : bool then FE_done s' t' else FE_bin (Z.of_nat (length B1) + 1) s' t')).
Proof.
  intros (Hnb & HN & HS & HF). revert pre s t last. induction suf as [|a suf IH]; intros pre s t last HK HB.
  { reflexivity. }
  change (fe_run func (S (length (a :: suf))) ?c) with (bind (fe_step func c) (fe_run func (S (length suf)))).
  cbn [hd_error fe_step visit].
  pose proof (fun s0 t0 (HK0 : K s0 t0) => at_address t0 B1 pre a suf B2
    (eq_trans (HS s0 t0 HK0) (f_equal (pair nb) HB)) (eq_ind B (fun b => NoDup (concat b)) HN _ HB)) as HAt.
  destruct (HAt s t HK) as ((e & -> & Hin) & _). specialize (HF s t e HK Hin).
  assert (HC : forall s' t', K s' t' ->
    bind (fe_continue (Z.of_nat (length B1)) a s' t') (fe_run func (S (length suf))) =
    bind (visit suf s' t')
      (fun '(b, s', t') => Ok (if b : bool then FE_done s' t' else FE_bin (Z.of_nat (length B1) + 1) s' t'))).
  { intros s' t' HK'. destruct (HAt s' t' HK') as (_ & _ & rest & HA & Hr). unfold fe_continue.
    rewrite HA. cbn [bind]. rewrite head_addr_addrs, Hr. apply (IH (pre ++ [a])); auto.
    now rewrite <- app_assoc. }
  destruct (func (Some (e_key e, e_record e)) s t) as [[[[] s'] t']| | |]; cbn [bind]; try contradiction; auto.
  - now rewrite fe_run_done.
  - destruct (HAt s' t' HF) as (_ & Hc & _). rewrite Nat2Z.id, Hc.
    pose proof (HS s' t' HF) as HSh. injection HSh as -> _.
    replace (Z.of_nat (length B1) <? nb) with true; [cbn [andb]; auto|].
    symmetry. apply Z.ltb_lt. rewrite Hnb, HB, length_app. cbn. lia.
Qed.

Lemma visit_outer B1 B2 s t :
  keeps_chains -> K s t -> B = B1 ++ B2 ->
  fe_run func (length (concat B2) + 2 * length B2 + 1) (FE_bin (Z.of_nat (length B1)) s t) =
  bind (visit (concat B2) s t) (fun '(_, s', t') => Ok (FE_done s' t')).
Proof.
  intros HKC. pose proof HKC as (Hnb & HN & HS & HF). revert B1 s t; induction B2 as [|l B2 IH]; intros B1 s t HK HB.
  - pose proof (HS s t HK) as HSh. injection HSh as Hn _. cbn. rewrite Hn, Hnb, HB, app_nil_r, Z.ltb_irrefl.
    reflexivity.
  - cbn [concat]. rewrite length_app. cbn [length].
    replace (length l + length (concat B2) + 2 * S (length B2) + 1)%nat
      with (1 + (S (length l) + (length (concat B2) + 2 * length B2 + 1)))%nat by lia.
    rewrite fe_run_add. cbn [fe_run fe_step]. pose proof (HS s t HK) as HSh. injection HSh as Hn Hm. rewrite Hn.
    replace (Z.of_nat (length B1) <? nb) with true
      by (symmetry; apply Z.ltb_lt; rewrite Hnb, HB, length_app; cbn; lia).
    cbn [bind]. rewrite Nat2Z.id, head_addr_addrs.
    assert (Hbin : addrs (bin t (length B1)) = l).
    { unfold bin. rewrite <- (map_nth addrs). change (addrs []) with (@nil Z). rewrite Hm, HB. apply nth_middle. }
    rewrite Hbin, fe_run_add, (visit_inner B1 B2 l [] s t None HKC HK HB), visit_app.
    assert (HI : incl l (concat B)).
    { intros x Hx. rewrite HB, concat_app. cbn [concat]. rewrite !in_app_iff. auto. }
    pose proof (visit_keeps l s t HKC HK HI) as HV.
    destruct (visit l s t) as [[[b s'] t']| | |]; cbn [bind]; auto. destruct b.
    + cbn [bind]. now rewrite fe_run_done.
    + specialize (IH (B1 ++ [l]) s' t' HV). rewrite length_app, <- app_assoc in IH. cbn [length app] in IH.
      rewrite Nat2Z.inj_add in IH. now apply IH.
Qed.

(** The whole loop, which ends. *)
Lemma st_foreach_visits n t s :
  keeps_chains -> K s t -> (length (concat B) + 2 * length B + 1 <= n)%nat ->
  st_foreach func n t s = bind (visit (concat B) s t) (fun '(_, s', t') => Ok (Some (s', t'))).
Proof.
  intros HKC HK Hn. unfold st_foreach.
  replace n with (length (concat B) + 2 * length B + 1 + (n - (length (concat B) + 2 * length B + 1)))%nat by lia.
  change 0 with (Z.of_nat (length (@nil (list Z)))).
  rewrite fe_run_add, (visit_outer [] B s t HKC HK eq_refl).
  destruct (visit (concat B) s t) as [[[b s'] t']| | |]; cbn [bind]; auto. now rewrite fe_run_done.
Qed.
End Visits.
