(* ===== verification/Hash.v ===== *)
(** * Hashes

    src/ruby/hash.c: the class [Hash] over the tables of st.c (StTable).  Hash
    objects and tables are two heaps, so that [rehash], which frees the table a
    loop may be walking over, and methods that keep a table in a local variable
    are seen as they are.  The allocator may give the address of a freed table
    to a new one.  Methods that call a block get it as an argument, any program
    over the memory.  Arrays that are built are lists. *)

From stdpp Require Import base gmap.
From Stdlib Require Import ZArith Lia List Bool.
From S2P Require Import Prelude CInt StrSearch StTable.
Import ListNotations.
Local Open Scope Z_scope.

(** ** Words *)

Definition Qfalse : Z := 0.
Definition Qtrue : Z := 2.
Definition Qnil : Z := 4.
Definition Qundef : Z := 6.

Definition RTEST (v : Z) : bool := negb (Z.land v (Z.lnot Qnil) =? 0).
Definition SYMBOL_P (x : Z) : bool := Z.land x 255 =? 14.
Definition SPECIAL_CONST_P (x : Z) : bool := negb (Z.land x 3 =? 0) || negb (RTEST x).

(** The objects keys and values refer to: the bytes of the strings, and
    whether a string is a direct instance of [String]; where [rb_str_new4] puts
    the frozen copy of a string, which is the string itself when it is frozen;
    and the methods [hash], [eql?] and [==], which have no effects. *)
Class Objects := {
  string_at : Z -> option (bool * list Z);
  rb_str_new4 : Z -> Z;
  hash_method : Z -> Z;
  eql_method : Z -> Z -> bool;
  eq_method : Z -> Z -> bool
}.

(** ** Keys *)

Section Keys.
Context {objects : Objects}.

(** [TYPE(a) == T_STRING] *)
Definition string_of (a : Z) : option (bool * list Z) :=
  if SPECIAL_CONST_P a then None else string_at a.

Definition is_string (a : Z) : bool := match string_of a with Some _ => true | None => false end.

Definition plain_string (a : Z) : option (list Z) :=
  match string_of a with Some (true, s) => Some s | _ => None end.

(** [rb_eql] on two words. *)
Definition rb_eql (a b : Z) : bool := eql_method a b.

Definition rb_equal (a b : Z) : bool := (a =? b) || eq_method a b.

(** [ic] is [$=]. *)
Definition rb_any_cmp (ic : bool) (a b : Z) : outcome Z :=
  if a =? b then Ok 0 else
  if FIXNUM_P a && FIXNUM_P b then Ok (if a =? b then 0 else 1) else
  match plain_string a, plain_string b with
  | Some s, Some t => rb_str_cmp ic s t
  | _, _ =>
      if (a =? Qundef) || (b =? Qundef) then Ok (-1) else
      if SYMBOL_P a && SYMBOL_P b then Ok (if a =? b then 0 else 1) else
      Ok (if rb_eql a b then 0 else 1)
  end.

Definition rb_any_hash (a : Z) : Z :=
  if FIXNUM_P a || SYMBOL_P a then s32 a else
  match string_of a with
  | Some (_, s) => rb_str_hash s
  | None =>
      let hval := hash_method a in
      if FIXABLE hval then hval else hval mod 536870923
  end.

Definition objhash : st_hash_type := {|
  compare a b := match rb_any_cmp false a b with Ok c => c | _ => -1 end;
  hash := rb_any_hash
|}.
End Keys.

#[export] Instance objhash_type {objects : Objects} : st_hash_type | 0 := objhash.

(** ** Memory *)

Record RHash := mkHash {
  tbl : option positive;
  iter_lev : Z;
  ifnone : Z;
  HASH_DELETED : bool;
  HASH_PROC_DEFAULT : bool;
  frozen : bool;
  tainted : bool
}.

Definition set_tbl (a : positive) (o : RHash) : RHash :=
  mkHash (Some a) (iter_lev o) (ifnone o) (HASH_DELETED o) (HASH_PROC_DEFAULT o) (frozen o) (tainted o).
(** [iter_lev] is not wrapped: the stack of the machine holds fewer nested
    loops than an [int] counts. *)
Definition add_iter_lev (d : Z) (o : RHash) : RHash :=
  mkHash (tbl o) (iter_lev o + d) (ifnone o) (HASH_DELETED o) (HASH_PROC_DEFAULT o) (frozen o) (tainted o).
Definition set_ifnone (v : Z) (o : RHash) : RHash :=
  mkHash (tbl o) (iter_lev o) v (HASH_DELETED o) (HASH_PROC_DEFAULT o) (frozen o) (tainted o).
Definition set_deleted (b : bool) (o : RHash) : RHash :=
  mkHash (tbl o) (iter_lev o) (ifnone o) b (HASH_PROC_DEFAULT o) (frozen o) (tainted o).
Definition set_proc_default (b : bool) (o : RHash) : RHash :=
  mkHash (tbl o) (iter_lev o) (ifnone o) (HASH_DELETED o) b (frozen o) (tainted o).
Definition set_frozen (o : RHash) : RHash :=
  mkHash (tbl o) (iter_lev o) (ifnone o) (HASH_DELETED o) (HASH_PROC_DEFAULT o) true (tainted o).
Definition set_tainted (b : bool) (o : RHash) : RHash :=
  mkHash (tbl o) (iter_lev o) (ifnone o) (HASH_DELETED o) (HASH_PROC_DEFAULT o) (frozen o) b.

Record memory := mkMemory {
  hashes : gmap positive RHash;
  tables : gmap positive st_table;
  next_hash : positive
}.

(** Where [malloc] puts the next table, and whether there is room for one
    more entry. *)
Class Machine := {
  new_address : gmap positive st_table -> positive;
  entry_room : st_table -> bool;
  safe_level : Z
}.

(** ** Effects *)

(** An exception leaves the memory as it is at that point.  [Crash] is the use
    of a null pointer or of a freed table, [Timeout] a loop that used up its
    fuel. *)
Inductive result (A : Type) :=
  | Val (a : A) (m : memory)
  | Exn (e : rb_error) (m : memory)
  | Crash
  | Timeout.
Arguments Val {A} a m.
Arguments Exn {A} e m.
Arguments Crash {A}.
Arguments Timeout {A}.

Definition M (A : Type) : Type := memory -> result A.

Definition ret {A} (a : A) : M A := fun m => Val a m.
Definition rb_raise {A} (e : rb_error) : M A := fun m => Exn e m.
Definition crash {A} : M A := fun _ => Crash.
Definition timeout {A} : M A := fun _ => Timeout.

Definition bindM {A B} (c : M A) (k : A -> M B) : M B := fun m =>
  match c m with
  | Val a m' => k a m'
  | Exn e m' => Exn e m'
  | Crash => Crash
  | Timeout => Timeout
  end.

Declare Scope hash_scope.
Delimit Scope hash_scope with hash.
Notation "x <- c ;; k" := (bindM c (fun x => k))
  (at level 62, c at next level, right associativity) : hash_scope.
Notation "' p <- c ;; k" := (bindM c (fun p => k))
  (at level 62, p pattern, c at next level, right associativity) : hash_scope.
Notation "c ;;; k" := (bindM c (fun _ => k))
  (at level 62, right associativity) : hash_scope.
Local Open Scope hash_scope.

(** [ens] runs when [body] returns and when it raises. *)
Definition rb_ensure {A} (body : M A) (ens : M unit) : M A := fun m =>
  match body m with
  | Val a m' => (ens ;;; ret a) m'
  | Exn e m' => (ens ;;; rb_raise e) m'
  | Crash => Crash
  | Timeout => Timeout
  end.

(** [RHASH(h)] *)
Definition get (h : positive) : M RHash := fun m =>
  match hashes m !! h with Some o => Val o m | None => Crash end.

Definition upd (h : positive) (f : RHash -> RHash) : M unit := fun m =>
  match hashes m !! h with
  | Some o => Val tt (mkMemory (<[h := f o]> (hashes m)) (tables m) (next_hash m))
  | None => Crash
  end.

(** [RHASH(h)->tbl], about to be followed. *)
Definition tbl_of (h : positive) : M positive :=
  o <- get h ;; match tbl o with Some a => ret a | None => crash end.

Definition table (a : positive) : M st_table := fun m =>
  match tables m !! a with Some t => Val t m | None => Crash end.

Definition set_table (a : positive) (t : st_table) : M unit := fun m =>
  match tables m !! a with
  | Some _ => Val tt (mkMemory (hashes m) (<[a := t]> (tables m)) (next_hash m))
  | None => Crash
  end.

Section Operations.
Context {objects : Objects} {machine : Machine}.

(** [alloc(st_table)] *)
Definition new_table (t : st_table) : M positive := fun m =>
  let a := new_address (tables m) in
  Val a (mkMemory (hashes m) (<[a := t]> (tables m)) (next_hash m)).

Definition st_free_table (a : positive) : M unit :=
  _ <- table a ;;
  fun m => Val tt (mkMemory (hashes m) (delete a (tables m)) (next_hash m)).

Definition lift {A} (r : outcome A) : M A :=
  match r with Ok a => ret a | Raise e => rb_raise e | _ => crash end.

(** [ADD_DIRECT] rehashes before it asks for the entry. *)
Definition st_add_direct (a : positive) (key value : Z) : M unit :=
  t <- table a ;;
  if entry_room t then
    t' <- lift (StTable.st_add_direct t key value) ;; set_table a t'
  else
    t' <- lift (if ST_DEFAULT_MAX_DENSITY <? cdiv (num_entries t) (num_bins t)
                then StTable.rehash t else Ok t) ;;
    set_table a t' ;;;
    rb_raise NoMemoryError.

Definition st_insert (a : positive) (key value : Z) : M unit :=
  t <- table a ;;
  match find_entry t (do_hash key) key with
  | Some _ => '(_, t') <- lift (StTable.st_insert t key value) ;; set_table a t'
  | None => st_add_direct a key value
  end.

Definition st_lookup (a : positive) (key : Z) : M (option Z) :=
  t <- table a ;; ret (StTable.st_lookup t key).

(** ** Iteration *)

(** The rounds a loop of [st_foreach] may take. *)
Context (fuel : nat).

Section Foreach.
Context {St : Type}.
Context (h : positive) (func : Z -> Z -> St -> M (st_retval * St)).

Definition hash_foreach_iter (key value : Z) (arg : St) : M (st_retval * St) :=
  a <- tbl_of h ;;
  if key =? Qundef then ret (ST_CONTINUE, arg) else
  '(status, arg) <- func key value arg ;;
  a' <- tbl_of h ;;
  if negb (a' =? a)%positive then rb_raise RuntimeError else
  match status with
  | ST_DELETE =>
      t <- table a ;;
      set_table a (snd (st_delete_safe t key Qundef)) ;;;
      upd h (set_deleted true) ;;;
      ret (ST_CHECK, arg)
  | ST_STOP => ret (ST_STOP, arg)
  | _ => ret (ST_CHECK, arg)
  end.

(** The function [st_foreach] calls: its state is the result so far, its table
    what is at the address [a] of the table being walked.  An exception leaves
    the loop like [ST_STOP]; the call with the error notice raises. *)
Definition foreach_func (a : positive) (arg : option (Z * Z)) (s : result St) (t : st_table) :
    outcome (st_retval * result St * st_table) :=
  match s with
  | Val x m =>
      match arg with
      | None => Ok (ST_STOP, Exn RuntimeError m, t)
      | Some (key, value) =>
          match hash_foreach_iter key value x m with
          | Val (r, x') m' =>
              match tables m' !! a with
              | Some t' => Ok (r, Val x' m', t')
              | None => Ok (ST_STOP, Crash, t)
              end
          | Exn e m' => Ok (ST_STOP, Exn e m', t)
          | Crash => Ok (ST_STOP, Crash, t)
          | Timeout => Ok (ST_STOP, Timeout, t)
          end
      end
  | _ => Ok (ST_STOP, s, t)
  end.

Definition hash_foreach_call (arg : St) : M St :=
  a <- tbl_of h ;;
  t <- table a ;;
  fun m =>
    match st_foreach (foreach_func a) fuel t (Val arg m) with
    | Ok (Some (r, _)) => r
    | Ok None => Timeout
    | _ => Crash
    end.

Definition hash_foreach_ensure : M unit :=
  upd h (add_iter_lev (-1)) ;;;
  o <- get h ;;
  if iter_lev o =? 0 then
    if HASH_DELETED o then
      a <- tbl_of h ;;
      t <- table a ;;
      r <- lift (st_cleanup_safe t Qundef) ;;
      match r with
      | Some t' => set_table a t' ;;; upd h (set_deleted false)
      | None => timeout
      end
    else ret tt
  else ret tt.

Definition rb_hash_foreach (arg : St) : M St :=
  upd h (add_iter_lev 1) ;;;
  rb_ensure (hash_foreach_call arg) hash_foreach_ensure.
End Foreach.

(** ** Methods *)

(** What a method yields to its block: one value, the two-element array of a
    pair, two or three values. *)
Inductive yielded :=
  | Yield (v : Z)
  | YieldAssoc (key value : Z)
  | Yield2 (key value : Z)
  | Yield3 (key old new : Z).

(** [rb_funcall(ifnone, id_call, 2, hash, key)] *)
Context (proc_call : Z -> positive -> Z -> M Z).

Definition rb_hash_modify (h : positive) : M unit :=
  o <- get h ;;
  match tbl o with
  | None => rb_raise TypeError
  | Some _ =>
      if frozen o then rb_raise TypeError else
      if negb (tainted o) && (4 <=? safe_level) then rb_raise SecurityError else ret tt
  end.

Definition rb_hash_freeze (h : positive) : M positive :=
  o <- get h ;;
  if frozen o then ret h else
  if (4 <=? safe_level) && negb (tainted o) then rb_raise SecurityError else
  upd h set_frozen ;;; ret h.

Definition hash_alloc : M positive :=
  t <- lift st_init_table ;;
  a <- new_table t ;;
  fun m =>
    let h := next_hash m in
    Val h (mkMemory (<[h := mkHash (Some a) 0 Qnil false false false false]> (hashes m))
             (tables m) (Pos.succ h)).

Definition rb_hash_new : M positive := hash_alloc.

(** The block, as a [Proc], or the arguments. *)
Definition rb_hash_initialize (block : option Z) (argv : list Z) (h : positive) : M positive :=
  rb_hash_modify h ;;;
  match block with
  | Some p =>
      match argv with
      | [] => upd h (set_ifnone p) ;;; upd h (set_proc_default true) ;;; ret h
      | _ => rb_raise ArgumentError
      end
  | None =>
      match argv with
      | [] => upd h (set_ifnone Qnil) ;;; ret h
      | [v] => upd h (set_ifnone v) ;;; ret h
      | _ => rb_raise ArgumentError
      end
  end.

Definition rb_hash_default (h : positive) (key : Z) : M Z :=
  o <- get h ;;
  if HASH_PROC_DEFAULT o then proc_call (ifnone o) h key else ret (ifnone o).

Definition rb_hash_set_default (h : positive) (v : Z) : M Z :=
  rb_hash_modify h ;;;
  upd h (set_ifnone v) ;;;
  upd h (set_proc_default false) ;;;
  ret v.

Definition rb_hash_default_proc (h : positive) : M Z :=
  o <- get h ;; ret (if HASH_PROC_DEFAULT o then ifnone o else Qnil).

Definition rb_hash_aref (h : positive) (key : Z) : M Z :=
  a <- tbl_of h ;;
  r <- st_lookup a key ;;
  match r with Some v => ret v | None => rb_hash_default h key end.

Definition rb_hash_fetch (block : option (yielded -> M Z)) (h : positive) (key : Z) (if_none : option Z) : M Z :=
  a <- tbl_of h ;;
  r <- st_lookup a key ;;
  match r with
  | Some v => ret v
  | None =>
      match block with
      | Some b => b (Yield key)
      | None => match if_none with Some v => ret v | None => rb_raise IndexError end
      end
  end.

Definition rb_hash_aset (h : positive) (key val : Z) : M Z :=
  rb_hash_modify h ;;;
  a <- tbl_of h ;;
  plain <- (if is_string key then r <- st_lookup a key ;; ret (match r with Some _ => true | None => false end)
            else ret true) ;;
  (if plain : bool then st_insert a key val else st_add_direct a (rb_str_new4 key) val) ;;;
  ret val.

Definition rb_hash_has_key (h : positive) (key : Z) : M bool :=
  a <- tbl_of h ;;
  r <- st_lookup a key ;;
  ret (match r with Some _ => true | None => false end).

Definition rb_hash_size (h : positive) : M Z := a <- tbl_of h ;; t <- table a ;; ret (num_entries t).

Definition rb_hash_empty_p (h : positive) : M bool :=
  a <- tbl_of h ;; t <- table a ;; ret (num_entries t =? 0).

Definition rb_hash_delete (block : option (yielded -> M Z)) (h : positive) (key : Z) : M Z :=
  rb_hash_modify h ;;;
  o <- get h ;;
  a <- tbl_of h ;;
  t <- table a ;;
  let otherwise := match block with Some b => b (Yield key) | None => ret Qnil end in
  if 0 <? iter_lev o then
    match st_delete_safe t key Qundef with
    | (Some (_, val), t') => set_table a t' ;;; upd h (set_deleted true) ;;; ret val
    | (None, _) => otherwise
    end
  else
    match st_delete t key with
    | (Some (_, val), t') => set_table a t' ;;; ret val
    | (None, _) => otherwise
    end.

Definition shift_i (key value : Z) (var : option (Z * Z)) : M (st_retval * option (Z * Z)) :=
  if key =? Qundef then ret (ST_CONTINUE, var) else
  match var with
  | Some _ => ret (ST_STOP, var)
  | None => ret (ST_DELETE, Some (key, value))
  end.

(** A pair, or the default value. *)
Definition rb_hash_shift (h : positive) : M (Z * Z + Z) :=
  rb_hash_modify h ;;;
  var <- rb_hash_foreach h shift_i None ;;
  match var with
  | Some p => ret (inl p)
  | None =>
      o <- get h ;;
      if HASH_PROC_DEFAULT o then v <- proc_call (ifnone o) h Qnil ;; ret (inr v) else ret (inr (ifnone o))
  end.

Definition clear_i (key value : Z) (dummy : unit) : M (st_retval * unit) := ret (ST_DELETE, dummy).

Definition rb_hash_clear (h : positive) : M positive :=
  rb_hash_modify h ;;;
  a <- tbl_of h ;;
  t <- table a ;;
  (if 0 <? num_entries t then rb_hash_foreach h clear_i tt else ret tt) ;;;
  ret h.

(** The block of [delete_if] is the block [rb_hash_delete] finds as well. *)
Definition delete_if_i (block : yielded -> M Z) (h : positive) (key value : Z) (arg : unit) : M (st_retval * unit) :=
  if key =? Qundef then ret (ST_CONTINUE, arg) else
  v <- block (Yield2 key value) ;;
  (if RTEST v then rb_hash_delete (Some block) h key else ret Qnil) ;;;
  ret (ST_CONTINUE, arg).

Definition rb_hash_delete_if (block : yielded -> M Z) (h : positive) : M positive :=
  rb_hash_modify h ;;;
  rb_hash_foreach h (delete_if_i block h) tt ;;;
  ret h.

(** [None] for [nil]. *)
Definition rb_hash_reject_bang (block : yielded -> M Z) (h : positive) : M (option positive) :=
  n <- rb_hash_size h ;;
  rb_hash_delete_if block h ;;;
  n' <- rb_hash_size h ;;
  ret (if n =? n' then None else Some h).

Definition replace_i (h : positive) (key val : Z) (arg : unit) : M (st_retval * unit) :=
  (if key =? Qundef then ret Qnil else rb_hash_aset h key val) ;;;
  ret (ST_CONTINUE, arg).

(** [hash2] is a Hash. *)
Definition rb_hash_replace (h h2 : positive) : M positive :=
  if (h =? h2)%positive then ret h else
  rb_hash_clear h ;;;
  rb_hash_foreach h2 (replace_i h) tt ;;;
  o <- get h2 ;;
  upd h (set_ifnone (ifnone o)) ;;;
  o <- get h2 ;;
  upd h (set_proc_default (HASH_PROC_DEFAULT o)) ;;;
  ret h.

(** On a Hash [initialize_copy] is [rb_hash_replace]. *)
Definition rb_obj_dup (h : positive) : M positive :=
  dup <- hash_alloc ;;
  o <- get h ;;
  upd dup (set_tainted (tainted o)) ;;;
  rb_hash_replace dup h ;;;
  ret dup.

Definition rb_hash_reject (block : yielded -> M Z) (h : positive) : M positive :=
  dup <- rb_obj_dup h ;; rb_hash_delete_if block dup.

Definition select_i (block : yielded -> M Z) (key value : Z) (result : list (Z * Z)) : M (st_retval * list (Z * Z)) :=
  if key =? Qundef then ret (ST_CONTINUE, result) else
  v <- block (Yield2 key value) ;;
  ret (ST_CONTINUE, if RTEST v then result ++ [(key, value)] else result).

Definition rb_hash_select (block : yielded -> M Z) (h : positive) : M (list (Z * Z)) :=
  rb_hash_foreach h (select_i block) [].

Definition each_value_i (block : yielded -> M Z) (key value : Z) (arg : unit) : M (st_retval * unit) :=
  if key =? Qundef then ret (ST_CONTINUE, arg) else block (Yield value) ;;; ret (ST_CONTINUE, arg).

Definition rb_hash_each_value (block : yielded -> M Z) (h : positive) : M positive :=
  rb_hash_foreach h (each_value_i block) tt ;;; ret h.

Definition each_key_i (block : yielded -> M Z) (key value : Z) (arg : unit) : M (st_retval * unit) :=
  if key =? Qundef then ret (ST_CONTINUE, arg) else block (Yield key) ;;; ret (ST_CONTINUE, arg).

Definition rb_hash_each_key (block : yielded -> M Z) (h : positive) : M positive :=
  rb_hash_foreach h (each_key_i block) tt ;;; ret h.

Definition each_pair_i (block : yielded -> M Z) (key value : Z) (arg : unit) : M (st_retval * unit) :=
  if key =? Qundef then ret (ST_CONTINUE, arg) else block (Yield2 key value) ;;; ret (ST_CONTINUE, arg).

Definition rb_hash_each_pair (block : yielded -> M Z) (h : positive) : M positive :=
  rb_hash_foreach h (each_pair_i block) tt ;;; ret h.

Definition each_i (block : yielded -> M Z) (key value : Z) (arg : unit) : M (st_retval * unit) :=
  if key =? Qundef then ret (ST_CONTINUE, arg) else block (YieldAssoc key value) ;;; ret (ST_CONTINUE, arg).

Definition rb_hash_each (block : yielded -> M Z) (h : positive) : M positive :=
  rb_hash_foreach h (each_i block) tt ;;; ret h.

Definition to_a_i (key value : Z) (ary : list (Z * Z)) : M (st_retval * list (Z * Z)) :=
  if key =? Qundef then ret (ST_CONTINUE, ary) else ret (ST_CONTINUE, ary ++ [(key, value)]).

Definition rb_hash_to_a (h : positive) : M (list (Z * Z)) := rb_hash_foreach h to_a_i [].

Definition keys_i (key value : Z) (ary : list Z) : M (st_retval * list Z) :=
  if key =? Qundef then ret (ST_CONTINUE, ary) else ret (ST_CONTINUE, ary ++ [key]).

Definition rb_hash_keys (h : positive) : M (list Z) := rb_hash_foreach h keys_i [].

Definition values_i (key value : Z) (ary : list Z) : M (st_retval * list Z) :=
  if key =? Qundef then ret (ST_CONTINUE, ary) else ret (ST_CONTINUE, ary ++ [value]).

Definition rb_hash_values (h : positive) : M (list Z) := rb_hash_foreach h values_i [].

Fixpoint values_at_loop (h : positive) (argv : list Z) (acc : list Z) : M (list Z) :=
  match argv with
  | [] => ret acc
  | k :: argv => v <- rb_hash_aref h k ;; values_at_loop h argv (acc ++ [v])
  end.

Definition rb_hash_values_at (h : positive) (argv : list Z) : M (list Z) := values_at_loop h argv [].

Definition index_i (value0 : Z) (key value : Z) (res : Z) : M (st_retval * Z) :=
  if rb_equal value value0 then ret (ST_STOP, key) else ret (ST_CONTINUE, res).

Definition rb_hash_index (h : positive) (value : Z) : M Z := rb_hash_foreach h (index_i value) Qnil.

Definition rb_hash_search_value (val : Z) (key value : Z) (res : bool) : M (st_retval * bool) :=
  if key =? Qundef then ret (ST_CONTINUE, res) else
  if rb_equal value val then ret (ST_STOP, true) else ret (ST_CONTINUE, res).

Definition rb_hash_has_value (h : positive) (val : Z) : M bool :=
  rb_hash_foreach h (rb_hash_search_value val) false.

(** [a2] is [data->tbl]. *)
Definition equal_i (a2 : positive) (key val1 : Z) (res : bool) : M (st_retval * bool) :=
  if key =? Qundef then ret (ST_CONTINUE, res) else
  r <- st_lookup a2 key ;;
  match r with
  | None => ret (ST_STOP, false)
  | Some val2 => if rb_equal val1 val2 then ret (ST_CONTINUE, res) else ret (ST_STOP, false)
  end.

(** [eql] also compares the default values. *)
Definition hash_equal (h1 h2 : positive) (eql : bool) : M bool :=
  if (h1 =? h2)%positive then ret true else
  n1 <- rb_hash_size h1 ;;
  n2 <- rb_hash_size h2 ;;
  if negb (n1 =? n2) then ret false else
  o1 <- get h1 ;;
  o2 <- get h2 ;;
  if eql && negb (rb_equal (ifnone o1) (ifnone o2) &&
                  Bool.eqb (HASH_PROC_DEFAULT o1) (HASH_PROC_DEFAULT o2)) then ret false else
  a2 <- tbl_of h2 ;;
  rb_hash_foreach h1 (equal_i a2) true.

Definition rb_hash_equal (h1 h2 : positive) : M bool := hash_equal h1 h2 false.
Definition rb_hash_eql (h1 h2 : positive) : M bool := hash_equal h1 h2 true.

(** [h = (h << 1) | (h<0 ? 1 : 0)] on a [long]. *)
Definition rotate (h : Z) : Z := Z.lor (s32 (Z.shiftl h 1)) (if h <? 0 then 1 else 0).

Definition rb_hash_hash_i (key value : Z) (hp : Z) : M (st_retval * Z) :=
  let hp := rotate hp in
  let hp := Z.lxor hp (hash_method key) in
  let hp := rotate hp in
  let hp := Z.lxor hp (hash_method value) in
  ret (ST_CONTINUE, hp).

Definition rb_hash_hash (h : positive) : M Z :=
  n <- rb_hash_size h ;;
  hv <- rb_hash_foreach h rb_hash_hash_i n ;;
  o <- get h ;;
  ret (LONG2FIX (Z.lxor (rotate hv) (hash_method (ifnone o)))).

Definition rb_hash_invert_i (h : positive) (key value : Z) (arg : unit) : M (st_retval * unit) :=
  if key =? Qundef then ret (ST_CONTINUE, arg) else rb_hash_aset h value key ;;; ret (ST_CONTINUE, arg).

Definition rb_hash_invert (h : positive) : M positive :=
  h' <- rb_hash_new ;;
  rb_hash_foreach h (rb_hash_invert_i h') tt ;;;
  ret h'.

Definition rb_hash_update_i (h : positive) (key value : Z) (arg : unit) : M (st_retval * unit) :=
  if key =? Qundef then ret (ST_CONTINUE, arg) else rb_hash_aset h key value ;;; ret (ST_CONTINUE, arg).

Definition rb_hash_update_block_i (block : yielded -> M Z) (h : positive) (key value : Z) (arg : unit) :
    M (st_retval * unit) :=
  if key =? Qundef then ret (ST_CONTINUE, arg) else
  has <- rb_hash_has_key h key ;;
  value <- (if has : bool then old <- rb_hash_aref h key ;; block (Yield3 key old value) else ret value) ;;
  rb_hash_aset h key value ;;;
  ret (ST_CONTINUE, arg).

(** [hash2] is a Hash. *)
Definition rb_hash_update (block : option (yielded -> M Z)) (h1 h2 : positive) : M positive :=
  match block with
  | Some b => rb_hash_foreach h2 (rb_hash_update_block_i b h1) tt
  | None => rb_hash_foreach h2 (rb_hash_update_i h1) tt
  end ;;;
  ret h1.

Definition rb_hash_merge (block : option (yielded -> M Z)) (h1 h2 : positive) : M positive :=
  dup <- rb_obj_dup h1 ;; rb_hash_update block dup h2.

Definition rb_hash_rehash_i (a : positive) (key value : Z) (arg : unit) : M (st_retval * unit) :=
  (if key =? Qundef then ret tt else st_insert a key value) ;;;
  ret (ST_CONTINUE, arg).

(** The new table is allocated before the old one is freed. *)
Definition rb_hash_rehash (h : positive) : M positive :=
  rb_hash_modify h ;;;
  n <- rb_hash_size h ;;
  t <- lift (st_init_table_with_size n) ;;
  a <- new_table t ;;
  rb_hash_foreach h (rb_hash_rehash_i a) tt ;;;
  old <- tbl_of h ;;
  st_free_table old ;;;
  upd h (set_tbl a) ;;;
  ret h.

Fixpoint create_loop (h : positive) (argv : list Z) : M unit :=
  match argv with
  | k :: v :: argv => rb_hash_aset h k v ;;; create_loop h argv
  | _ => ret tt
  end.

(** [Hash[h2]] and [Hash[k, v, ...]]; the table [hash_alloc] gave the copy is
    not freed. *)
Definition rb_hash_s_create (argv : positive + list Z) : M positive :=
  match argv with
  | inl h2 =>
      h <- hash_alloc ;;
      upd h (set_ifnone Qnil) ;;;
      a2 <- tbl_of h2 ;;
      t2 <- table a2 ;;
      a <- new_table (st_copy t2) ;;
      upd h (set_tbl a) ;;;
      ret h
  | inr argv =>
      if negb (Z.of_nat (length argv) mod 2 =? 0) then rb_raise ArgumentError else
      h <- hash_alloc ;;
      create_loop h argv ;;;
      ret h
  end.
End Operations.
