(* ===== verification/HashInv.v ===== *)
(** * Hashes: the invariant of the memory

    What the objects and the machine are expected to do, the invariant of the
    memory of Hash.v, the rules of a small logic, and a rule for each method: it
    keeps the invariant and never crashes, whatever the blocks it calls do. *)

From stdpp Require Import base gmap.
From Stdlib Require Import ZArith Lia List Bool Permutation.
From S2P Require Import Prelude CInt StrSearch StTable HashTable Hash.
Import ListNotations.
Local Open Scope Z_scope.
Local Open Scope hash_scope.

(** ** What the objects and the machine promise *)

(** [eql?] is an equivalence that agrees with [hash], and on Fixnums, Symbols
    and strings it is the method of those classes; the frozen copy of a string
    is a string of the same class with the same bytes. *)
Class ObjectLaws (objects : Objects) : Prop := {
  eql_sym : forall a b, eql_method a b = true -> eql_method b a = true;
  eql_trans : forall a b c, eql_method a b = true -> eql_method b c = true -> eql_method a c = true;
  eql_hash : forall a b, eql_method a b = true -> rb_any_hash a = rb_any_hash b;
  eql_fixnum : forall a b, FIXNUM_P a = true -> FIXNUM_P b = true -> eql_method a b = true -> a = b;
  eql_symbol : forall a b, SYMBOL_P a = true -> SYMBOL_P b = true -> eql_method a b = true -> a = b;
  eql_string : forall a b s t, plain_string a = Some s -> plain_string b = Some t ->
    (eql_method a b = true <-> s = t);
  string_bytes : forall a c s, string_at a = Some (c, s) -> Forall byte s;
  new4_string : forall a, is_string a = true -> string_of (rb_str_new4 a) = string_of a;
  new4_eql : forall a, is_string a = true -> eql_method a (rb_str_new4 a) = true
}.

(** The allocator gives an address that is free; an entry takes 16 bytes of
    an address space of 32 bits. *)
Class MachineLaws (machine : Machine) : Prop := {
  new_address_free : forall ts, ts !! new_address ts = None;
  entry_room_bound : forall t, entry_room t = true -> num_entries t < MAX
}.

Section KeyLaws.
Context {objects : Objects} {laws : ObjectLaws objects}.

Lemma string_of_undef : string_of Qundef = None.
Proof. reflexivity. Qed.

Lemma plain_bytes a s : plain_string a = Some s -> Forall byte s.
Proof.
  unfold plain_string, string_of. destruct (SPECIAL_CONST_P a); [discriminate|].
  destruct (string_at a) as [[[] s']|] eqn:E; try discriminate. intros H; injection H as <-.
  now apply (string_bytes a true).
Qed.

Lemma plain_not_undef a s : plain_string a = Some s -> a <> Qundef.
Proof. intros H ->. discriminate. Qed.

Lemma same_string s t : Forall byte s -> Forall byte t ->
  exists c, rb_str_cmp false s t = Ok c /\ (c = 0 <-> s = t).
Proof.
  intros Hs Ht. rewrite rb_str_cmp_lex by assumption. eexists. split; [reflexivity|].
  unfold fold_case, kr_key. rewrite !map_id, <- lex_eq. destruct (lex s t); cbn; split; congruence.
Qed.

(** [rb_any_cmp] never reads outside a string, and says when [eql?] holds. *)
Lemma rb_any_cmp_eql a b :
  exists c, rb_any_cmp false a b = Ok c /\
    (c = 0 <-> a = b \/ (a <> Qundef /\ b <> Qundef /\ eql_method a b = true)).
Proof.
  unfold rb_any_cmp. destruct (Z.eqb_spec a b) as [->|Hne]; [exists 0; split; auto; split; auto|].
  assert (HF : forall c (P : Prop), c <> 0 -> ~ P -> exists c', Ok c = Ok c' /\ (c' = 0 <-> a = b \/ P)).
  { intros c P Hc HP. exists c. split; [reflexivity|]. tauto. }
  destruct (FIXNUM_P a && FIXNUM_P b) eqn:EF.
  { breflect. apply HF; [discriminate|]. intros (_ & _ & HE). apply Hne. now apply eql_fixnum. }
  clear EF. assert (HR : exists c, (if (a =? Qundef) || (b =? Qundef) then Ok (-1) else
      if SYMBOL_P a && SYMBOL_P b then Ok 1 else Ok (if rb_eql a b then 0 else 1)) = Ok c /\
      (c = 0 <-> a = b \/ (a <> Qundef /\ b <> Qundef /\ eql_method a b = true))).
  { destruct ((a =? Qundef) || (b =? Qundef)) eqn:EU; breflect.
    { apply HF; [discriminate|]. destruct EU; breflect; tauto. }
    destruct (SYMBOL_P a && SYMBOL_P b) eqn:ES; breflect.
    { apply HF; [discriminate|]. intros (_ & _ & HE). apply Hne. now apply eql_symbol. }
    unfold rb_eql. exists (if eql_method a b then 0 else 1). split; [reflexivity|].
    destruct (eql_method a b); split; try discriminate; auto. intros [|(_ & _ & HE)]; [contradiction|discriminate]. }
  destruct (plain_string a) as [s|] eqn:Ea; [|exact HR].
  destruct (plain_string b) as [t|] eqn:Eb; [|exact HR].
  destruct (same_string s t (plain_bytes a s Ea) (plain_bytes b t Eb)) as (c & Hc & Hz).
  exists c. split; [exact Hc|]. rewrite Hz, <- (eql_string a b s t Ea Eb).
  pose proof (plain_not_undef a s Ea). pose proof (plain_not_undef b t Eb). tauto.
Qed.

Lemma compare_eql a b :
  compare a b = 0 <-> a = b \/ (a <> Qundef /\ b <> Qundef /\ eql_method a b = true).
Proof. destruct (rb_any_cmp_eql a b) as (c & Hc & Hz). unfold compare, objhash_type, objhash. now rewrite Hc. Qed.

#[export] Instance objhash_laws : HashLaws objhash_type.
Proof.
  split.
  - intros x y. rewrite !compare_eql. intros [->|(H1 & H2 & H3)]; auto. right. auto using eql_sym.
  - intros x y z. rewrite !compare_eql. intros [->|(H1 & H2 & H3)] [->|(H4 & H5 & H6)]; auto.
    right. eauto using eql_trans.
  - intros x y. rewrite compare_eql. intros [->|(H1 & H2 & H3)]; auto. cbn [hash objhash_type objhash]. f_equal. now apply eql_hash.
Qed.

Lemma undef_alone n k : Some Qundef = Some n -> EQUAL n k = true -> k = n.
Proof.
  intros HE. injection HE as <-. unfold EQUAL. rewrite orb_true_iff, !Z.eqb_eq, compare_eql.
  intros [->|[->|(H & _)]]; auto. contradiction.
Qed.

Lemma valid_undef k : k <> Qundef -> valid_key (Some Qundef) k.
Proof. intros H HE. injection HE as HE. congruence. Qed.

Lemma new4_not_undef k : is_string k = true -> rb_str_new4 k <> Qundef.
Proof.
  intros H HE. pose proof (new4_string k H) as HN. unfold is_string in H. rewrite <- HN, HE in H. discriminate.
Qed.

Lemma new4_equal k : is_string k = true -> EQUAL k (rb_str_new4 k) = true.
Proof.
  intros H. unfold EQUAL. rewrite orb_true_iff, !Z.eqb_eq, compare_eql. right. right. splits.
  - intros ->. discriminate.
  - now apply new4_not_undef.
  - now apply new4_eql.
Qed.
End KeyLaws.

(** ** The invariant of the memory *)

Section Safety.
Context {objects : Objects} {laws : ObjectLaws objects}.
Context {machine : Machine} {mlaws : MachineLaws machine}.

Notation good_table := (good Qundef).
Notation pairs := (pairs Qundef).

(** A Hash has a table of its own, and the flag that asks for a sweep of buried
    entries only while a loop runs over it.  (A copy made by [Hash[]] while a
    loop runs has the buried entries, but not the flag.) *)
Record good_hash (m : memory) (h : positive) (o : RHash) : Prop := mkGoodHash {
  gh_next : (h < next_hash m)%positive;
  gh_lev : 0 <= iter_lev o;
  gh_deleted : iter_lev o = 0 -> HASH_DELETED o = false;
  gh_ifnone : ifnone o <> Qundef;
  gh_table : exists a t, tbl o = Some a /\ tables m !! a = Some t
}.

Record good_mem (m : memory) : Prop := mkGoodMem {
  gm_hash : forall h o, hashes m !! h = Some o -> good_hash m h o;
  gm_table : forall a t, tables m !! a = Some t -> good_table t;
  gm_owner : forall h1 h2 o1 o2 a, hashes m !! h1 = Some o1 -> hashes m !! h2 = Some o2 ->
    tbl o1 = Some a -> tbl o2 = Some a -> h1 = h2
}.

Definition has (m : memory) (h : positive) : Prop := is_Some (hashes m !! h).

(** What code leaves of the Hashes: they stay, with the number of loops that
    run over them; no loop runs over new ones.  When [b], no Hash and no table
    comes or goes, and every Hash keeps its table. *)
Record keeps (b : bool) (m m' : memory) : Prop := mkKeeps {
  kp_old : forall h o, hashes m !! h = Some o ->
    exists o', hashes m' !! h = Some o' /\ iter_lev o' = iter_lev o /\ (b = true -> tbl o' = tbl o);
  kp_new : forall h o', hashes m !! h = None -> hashes m' !! h = Some o' -> iter_lev o' = 0 /\ b = false;
  kp_tables : b = true -> forall a, tables m !! a = None <-> tables m' !! a = None
}.

#[export] Instance keeps_refl b : Reflexive (keeps b).
Proof. intros m. split; [eauto|congruence|tauto]. Qed.

#[export] Instance keeps_trans b : Transitive (keeps b).
Proof.
  intros m1 m2 m3 [A1 A2 A3] [B1 B2 B3]. split.
  - intros h o H. destruct (A1 h o H) as (o' & H' & L & P). destruct (B1 h o' H') as (o2 & H2 & L2 & P2).
    exists o2. splits; auto; [congruence|]. intros Hb. rewrite P2, P; auto.
  - intros h o3 H1 H3. destruct (hashes m2 !! h) as [o2|] eqn:H2; [|eauto].
    destruct (A2 h o2 H1 H2) as [L ->]. destruct (B1 h o2 H2) as (o' & H' & L' & _). split; auto. congruence.
  - intros Hb a. rewrite A3, B3; auto.
Qed.

Lemma keeps_weaken b m m' : keeps true m m' -> keeps b m m'.
Proof.
  intros [A1 A2 A3]. split; auto.
  - intros h o H. destruct (A1 h o H) as (o' & H' & L & P). eauto.
  - intros h o H1 H2. destruct (A2 h o H1 H2). discriminate.
Qed.

Lemma keeps_false b m m' : keeps b m m' -> keeps false m m'.
Proof. intros H. destruct b; auto. now apply (keeps_weaken false). Qed.

Lemma has_keeps b m m' h : keeps b m m' -> has m h -> has m' h.
Proof. intros [A _ _] [o H]. destruct (A h o H) as (o' & H' & _). exists o'. exact H'. Qed.

(** ** Rules *)

(** The exceptions that are expected. *)
Context (E : rb_error -> Prop).

(** [c] never crashes from [m], keeps the invariant, and its value satisfies
    [Q]. *)
Definition spec (b : bool) {A} (m : memory) (c : M A) (Q : A -> memory -> Prop) : Prop :=
  match c m with
  | Val a m' => good_mem m' /\ keeps b m m' /\ Q a m'
  | Exn e m' => E e /\ good_mem m' /\ keeps b m m'
  | Crash => False
  | Timeout => True
  end.

Lemma spec_ret b {A} m (a : A) (Q : A -> memory -> Prop) : good_mem m -> Q a m -> spec b m (ret a) Q.
Proof. intros G H. unfold spec, ret. splits; auto. reflexivity. Qed.

Lemma spec_raise b {A} m e (Q : A -> memory -> Prop) : good_mem m -> E e -> spec b m (rb_raise e) Q.
Proof. intros G HE. unfold spec, rb_raise. splits; auto. reflexivity. Qed.

Lemma spec_bind b {A B} m (c : M A) (k : A -> M B) Q R :
  spec b m c Q ->
  (forall a m', good_mem m' -> keeps b m m' -> Q a m' -> spec b m' (k a) R) ->
  spec b m (bindM c k) R.
Proof.
  unfold spec, bindM. intros HC HK. destruct (c m) as [a m'|e m'| |]; auto.
  destruct HC as (G & Hk & HQ). specialize (HK a m' G Hk HQ).
  destruct (k a m') as [x m2|e m2| |]; auto.
  - destruct HK as (G2 & Hk2 & HR). splits; auto. now transitivity m'.
  - destruct HK as (HE & G2 & Hk2). splits; auto. now transitivity m'.
Qed.

Lemma spec_weaken b {A} m (c : M A) (Q R : A -> memory -> Prop) :
  spec b m c Q -> (forall a m', good_mem m' -> keeps b m m' -> Q a m' -> R a m') -> spec b m c R.
Proof.
  unfold spec. intros H HI. destruct (c m) as [a m'|e m'| |]; auto. destruct H as (G & K & HQ). auto.
Qed.

Lemma spec_any b {A} m (c : M A) Q : spec true m c Q -> spec b m c Q.
Proof.
  unfold spec. intros H. destruct (c m) as [a m'|e m'| |]; auto.
  - destruct H as (G & K & HQ). auto using keeps_weaken.
  - destruct H as (HE & G & K). auto using keeps_weaken.
Qed.

Lemma spec_if b {A} m (x : bool) (c d : M A) Q :
  (x = true -> spec b m c Q) -> (x = false -> spec b m d Q) -> spec b m (if x then c else d) Q.
Proof. destruct x; auto. Qed.

(** *** Reading *)

Lemma get_read b {A} m h (k : RHash -> M A) Q :
  has m h -> (forall o, hashes m !! h = Some o -> spec b m (k o) Q) -> spec b m (x <- get h ;; k x) Q.
Proof. intros [o H] HK. unfold spec, bindM, get. rewrite H. now apply HK. Qed.

Lemma table_read b {A} m a t (k : st_table -> M A) Q :
  tables m !! a = Some t -> spec b m (k t) Q -> spec b m (x <- table a ;; k x) Q.
Proof. intros H HK. unfold spec, bindM, table. now rewrite H. Qed.

Lemma tbl_read b {A} m h (k : positive -> M A) Q :
  good_mem m -> has m h ->
  (forall o a t, hashes m !! h = Some o -> tbl o = Some a -> tables m !! a = Some t -> good_table t ->
    spec b m (k a) Q) ->
  spec b m (a <- tbl_of h ;; k a) Q.
Proof.
  intros G [o H] HK. destruct (gh_table _ _ _ (gm_hash m G h o H)) as (a & t & Ha & Ht).
  specialize (HK o a t H Ha Ht (gm_table m G a t Ht)). unfold spec, bindM at 1, tbl_of, bindM at 1, get.
  rewrite H. cbn beta iota. rewrite Ha. exact HK.
Qed.

(** *** Writing *)

Definition put_hash (h : positive) (o : RHash) (m : memory) : memory :=
  mkMemory (<[h := o]> (hashes m)) (tables m) (next_hash m).
Definition put_table (a : positive) (t : st_table) (m : memory) : memory :=
  mkMemory (hashes m) (<[a := t]> (tables m)) (next_hash m).

(** An update of a Hash that keeps its table and its loops. *)
Definition small (m : memory) (h : positive) (f : RHash -> RHash) : Prop :=
  forall o, hashes m !! h = Some o ->
    tbl (f o) = tbl o /\ iter_lev (f o) = iter_lev o /\ ifnone (f o) <> Qundef /\
    (iter_lev o = 0 -> HASH_DELETED (f o) = false).

(** A Hash object is replaced; it keeps its table. *)
Lemma put_hash_good m h o o' :
  good_mem m -> hashes m !! h = Some o -> tbl o' = tbl o -> 0 <= iter_lev o' -> ifnone o' <> Qundef ->
  (iter_lev o' = 0 -> HASH_DELETED o' = false) -> good_mem (put_hash h o' m).
Proof.
  intros G H Ht Hl Hi Hd. split; cbn [put_hash hashes tables next_hash].
  - intros h' p H'. destruct (decide (h' = h)) as [->|Hn].
    + rewrite lookup_insert_eq in H'. injection H' as <-. destruct (gm_hash m G h o H) as [G1 _ _ _ G5].
      split; cbn [hashes tables next_hash]; rewrite ?Ht; auto.
    + rewrite lookup_insert_ne in H' by congruence. destruct (gm_hash m G h' p H'). now split.
  - exact (gm_table m G).
  - intros h1 h2 o1 o2 a H1 H2 T1 T2.
    assert (HX : forall h0 o0, <[h:=o']> (hashes m) !! h0 = Some o0 -> tbl o0 = Some a ->
      exists o0', hashes m !! h0 = Some o0' /\ tbl o0' = Some a).
    { intros h0 o0 H0 T0. destruct (decide (h0 = h)) as [->|Hn].
      - rewrite lookup_insert_eq in H0. injection H0 as <-. exists o. split; congruence.
      - rewrite lookup_insert_ne in H0 by congruence. eauto. }
    destruct (HX h1 o1 H1 T1) as (p & P1 & P2), (HX h2 o2 H2 T2) as (q & Q1 & Q2).
    exact (gm_owner m G h1 h2 p q a P1 Q1 P2 Q2).
Qed.

Lemma put_hash_keeps b m m2 h o o2 o' l :
  hashes m !! h = Some o -> keeps b (put_hash h (add_iter_lev l o) m) m2 -> hashes m2 !! h = Some o2 ->
  tbl o' = tbl o2 -> iter_lev o' = iter_lev o -> keeps b m (put_hash h o' m2).
Proof.
  intros H [A1 A2 A3] H2 Ht Hl. cbn [put_hash hashes tables] in *. split; cbn [put_hash hashes tables]; auto.
  - intros h' p H'. destruct (decide (h' = h)) as [->|Hn].
    + exists o'. rewrite lookup_insert_eq. rewrite H in H'. injection H' as <-. splits; auto. intros Hb.
      destruct (A1 h (add_iter_lev l o)) as (x & Hx & _ & Hx'); [apply lookup_insert_eq|].
      rewrite H2 in Hx. injection Hx as <-. rewrite Ht. now apply Hx'.
    + rewrite lookup_insert_ne by congruence. apply A1. now rewrite lookup_insert_ne by congruence.
  - intros h' p H1 Hp. destruct (decide (h' = h)) as [->|Hn]; [congruence|].
    rewrite lookup_insert_ne in Hp by congruence. apply (A2 h'); auto. now rewrite lookup_insert_ne by congruence.
Qed.

Lemma add_iter_lev_0 o : add_iter_lev 0 o = o.
Proof. destruct o. unfold add_iter_lev. cbn. now rewrite Z.add_0_r. Qed.

Lemma put_hash_same m h o : hashes m !! h = Some o -> put_hash h o m = m.
Proof. intros H. destruct m. unfold put_hash. cbn in *. now rewrite insert_id. Qed.

Lemma upd_spec m h f : good_mem m -> has m h -> small m h f ->
  spec true m (upd h f) (fun _ m' => exists o, hashes m !! h = Some o /\ m' = put_hash h (f o) m).
Proof.
  intros G [o H] Hf. unfold spec, upd. rewrite H. destruct (Hf o H) as (Ht & Hl & Hi & Hd).
  fold (put_hash h (f o) m). splits; eauto.
  - apply (put_hash_good m h o); auto; rewrite Hl; [|exact Hd]. apply (gh_lev _ _ _ (gm_hash m G h o H)).
  - apply (put_hash_keeps true m m h o o (f o) 0); auto. rewrite add_iter_lev_0, (put_hash_same m h o H). reflexivity.
Qed.

Lemma set_table_spec m a t t' :
  good_mem m -> tables m !! a = Some t -> good_table t' -> 
  spec true m (set_table a t') (fun _ m' => m' = put_table a t' m).
Proof.
  intros G H Gt. unfold spec, set_table. rewrite H. splits.
  - split; cbn [hashes tables next_hash].
    + intros h o Ho. destruct (gm_hash m G h o Ho) as [G1 G2 G3 G4 (a' & t0 & Ha & Ht)].
      split; cbn [hashes tables next_hash]; auto. exists a'.
      destruct (decide (a' = a)) as [->|Hn]; [exists t'; now rewrite lookup_insert_eq|].
      exists t0. now rewrite lookup_insert_ne by congruence.
    + intros a' t0 Ht. destruct (decide (a' = a)) as [->|Hn].
      * rewrite lookup_insert_eq in Ht. now injection Ht as <-.
      * rewrite lookup_insert_ne in Ht by congruence. exact (gm_table m G a' t0 Ht).
    + exact (gm_owner m G).
  - split; cbn [hashes tables]; [eauto|congruence|].
    intros _ a'. destruct (decide (a' = a)) as [->|Hn].
    + rewrite lookup_insert_eq. split; congruence.
    + now rewrite lookup_insert_ne by congruence.
  - reflexivity.
Qed.

Lemma new_table_spec m t :
  good_mem m -> good_table t ->
  spec false m (new_table t) (fun a m' => tables m' !! a = Some t /\ hashes m' = hashes m /\
    (forall h o, hashes m !! h = Some o -> tbl o <> Some a) /\
    (forall a' t', tables m !! a' = Some t' -> a' <> a /\ tables m' !! a' = Some t')).
Proof.
  intros G Gt. unfold spec, new_table. set (a := new_address (tables m)).
  pose proof (new_address_free (tables m)) as HF. fold a in HF.
  assert (HX : forall a' t', tables m !! a' = Some t' -> a' <> a /\ <[a:=t]> (tables m) !! a' = Some t').
  { intros a' t' H'. assert (a' <> a) by congruence. split; auto. now rewrite lookup_insert_ne by congruence. }
  splits.
  - split; cbn [hashes tables next_hash].
    + intros h o Ho. destruct (gm_hash m G h o Ho) as [G1 G2 G3 G4 (a' & t0 & Ha & Ht)].
      split; cbn [hashes tables next_hash]; auto. exists a', t0. split; auto. now apply HX.
    + intros a' t0 Ht. destruct (decide (a' = a)) as [->|Hn].
      * rewrite lookup_insert_eq in Ht. now injection Ht as <-.
      * rewrite lookup_insert_ne in Ht by congruence. exact (gm_table m G a' t0 Ht).
    + exact (gm_owner m G).
  - split; cbn [hashes tables]; [|congruence|discriminate].
    intros h o H. exists o. splits; auto.
  - cbn [tables]. now rewrite lookup_insert_eq.
  - reflexivity.
  - intros h o Ho HT. destruct (gm_hash m G h o Ho) as [_ _ _ _ (a' & t0 & Ha & Ht)].
    destruct (HX a' t0 Ht). congruence.
  - exact HX.
Qed.

(** ** Tables *)

Lemma st_add_direct_spec m a t key v :
  E NoMemoryError -> good_mem m -> tables m !! a = Some t -> key <> Qundef -> v <> Qundef ->
  get_pair key (pairs t) = None ->
  spec true m (Hash.st_add_direct a key v) (fun _ m' => exists t', m' = put_table a t' m /\
    Permutation (pairs t') ((key, v) :: pairs t)).
Proof.
  intros HE G Ht Hk Hv HG. pose proof (gm_table m G a t Ht) as Gt.
  apply (table_read _ m a t); [exact Ht|]. apply spec_if; intros HR.
  - destruct (good_add Qundef undef_alone t key v Gt (entry_room_bound t HR) (valid_undef key Hk) Hv HG)
      as (t' & -> & Gt' & HP). unfold lift.
    apply (spec_weaken _ _ _ _ _ (set_table_spec m a t t' G Ht Gt')). intros _ m' _ _ ->. eauto.
  - assert (HX : exists t', (if ST_DEFAULT_MAX_DENSITY <? cdiv (num_entries t) (num_bins t)
        then StTable.rehash t else Ok t) = Ok t' /\ good_table t').
    { destruct (Z.ltb_spec ST_DEFAULT_MAX_DENSITY (cdiv (num_entries t) (num_bins t))) as [Hd|]; eauto.
      destruct (good_rehash Qundef t Gt Hd) as (t' & H1 & H2 & _). eauto. }
    destruct HX as (t' & -> & Gt'). unfold lift. apply (spec_bind _ m (ret t') _ (fun x m' => x = t' /\ m' = m)).
    { apply spec_ret; auto. }
    intros x m' _ _ [-> ->]. apply (spec_bind _ _ _ _ _ _ (set_table_spec m a t t' G Ht Gt')).
    intros _ m' G' _ _. now apply spec_raise.
Qed.

Lemma st_insert_spec' m a t key v :
  E NoMemoryError -> good_mem m -> tables m !! a = Some t -> key <> Qundef -> v <> Qundef ->
  spec true m (Hash.st_insert a key v) (fun _ m' => exists t', m' = put_table a t' m /\
    Permutation (pairs t') (store_pair key key v (pairs t))).
Proof.
  intros HE G Ht Hk Hv. pose proof (gm_table m G a t Ht) as Gt. pose proof (valid_undef key Hk) as Vk.
  apply (table_read _ m a t); [exact Ht|].
  assert (HF : find_entry t (do_hash key) key = find (key_is key) (all t))
    by (apply (find_entry_spec _ undef_alone); auto using good_wf).
  pose proof (find_pairs Qundef undef_alone t key Vk) as HP. rewrite <- HF in HP. unfold store_pair.
  destruct (find_entry t (do_hash key) key) as [e|] eqn:EF; cbn [option_map] in HP; rewrite HP.
  - destruct (good_insert Qundef undef_alone t key v e Gt Vk Hv EF) as (t' & -> & Gt' & Hp & _). unfold lift.
    apply (spec_weaken _ _ _ _ _ (set_table_spec m a t t' G Ht Gt')). intros _ m' _ _ ->.
    exists t'. now rewrite Hp.
  - now apply st_add_direct_spec.
Qed.

Lemma st_lookup_read b {A} m a t key (k : option Z -> M A) Q :
  good_mem m -> tables m !! a = Some t -> key <> Qundef ->
  spec b m (k (get_pair key (pairs t))) Q -> spec b m (r <- Hash.st_lookup a key ;; k r) Q.
Proof.
  intros G Ht Hk HK. unfold spec, bindM at 1, Hash.st_lookup, bindM at 1, table. rewrite Ht. cbn beta iota. unfold ret.
  rewrite (st_lookup_pairs Qundef undef_alone); [exact HK| |now apply valid_undef].
  now apply good_wf, (gm_table m G a).
Qed.

Lemma get_pair_valid t k v : good_table t -> get_pair k (pairs t) = Some v -> v <> Qundef.
Proof.
  intros G H. apply get_pair_in in H as (k' & H & _). now apply (pairs_valid Qundef t k' v) in H.
Qed.

(** ** Loops *)

(** What holds of the memory while a loop runs that began in [m0]. *)
Record grows (b : bool) (m0 m : memory) : Prop := mkGrows {
  gr_has : forall h, has m0 h -> has m h;
  gr_tbl : b = true -> forall h o, hashes m !! h = Some o ->
    exists o0, hashes m0 !! h = Some o0 /\ tbl o = tbl o0;
  gr_tables : b = true -> forall a, tables m0 !! a = None <-> tables m !! a = None
}.

(** The memory when the loop counter of [h] differs. *)
Lemma keeps_level b m h o d m' :
  hashes m !! h = Some o -> keeps b (put_hash h (add_iter_lev d o) m) m' -> grows b m m'.
Proof.
  intros H [A1 A2 A3]. unfold put_hash in *. cbn [hashes tables] in *. split; auto.
  - intros h' [o' H']. destruct (decide (h' = h)) as [->|Hn].
    + destruct (A1 h (add_iter_lev d o)) as (x & Hx & _); [apply lookup_insert_eq|]. exists x. exact Hx.
    + destruct (A1 h' o') as (x & Hx & _); [now rewrite lookup_insert_ne by congruence|]. exists x. exact Hx.
  - intros Hb h' o' H'. destruct (decide (h' = h)) as [->|Hn].
    + destruct (A1 h (add_iter_lev d o)) as (x & Hx & _ & Ht); [apply lookup_insert_eq|].
      exists o. split; auto. rewrite H' in Hx. injection Hx as ->. now apply Ht.
    + destruct (hashes m !! h') as [o0|] eqn:H0.
      * destruct (A1 h' o0) as (x & Hx & _ & Ht); [now rewrite lookup_insert_ne by congruence|].
        exists o0. split; auto. rewrite H' in Hx. injection Hx as ->. now apply Ht.
      * destruct (A2 h' o'); auto; [now rewrite lookup_insert_ne by congruence|congruence].
Qed.

Section Foreach.
Context {St : Type} (fuel : nat) (b : bool) (h : positive) (func : Z -> Z -> St -> M (st_retval * St)).
Context (Inv : St -> Prop) (m0 : memory).

Hypothesis HE : E RuntimeError.
Hypothesis Hfunc : forall k v x m, good_mem m -> grows b m0 m -> k <> Qundef -> v <> Qundef -> Inv x ->
  spec b m (func k v x) (fun r _ => Inv (snd r)).

(** While the loop runs, its counter is positive. *)
Definition running (m : memory) : Prop := exists o, hashes m !! h = Some o /\ 0 < iter_lev o.

Lemma running_has m : running m -> has m h.
Proof. intros (o & H & _). exists o. exact H. Qed.

Lemma running_keeps b' m m' : keeps b' m m' -> running m -> running m'.
Proof.
  intros [A _ _] (o & H & Hl). destruct (A h o H) as (o' & H' & L & _). exists o'. split; auto. lia.
Qed.

(** The table of [h] is the one at [a]. *)
Definition table_is (a : positive) (m : memory) : Prop :=
  exists o, hashes m !! h = Some o /\ tbl o = Some a.

Lemma tbl_read_is {A} m a (k : positive -> M A) Q :
  table_is a m -> spec b m (k a) Q -> spec b m (x <- tbl_of h ;; k x) Q.
Proof.
  intros (o & H & Ha) HK. unfold spec, bindM at 1, tbl_of, bindM at 1, get. rewrite H. cbn beta iota. rewrite Ha. exact HK.
Qed.

Lemma iter_spec m a k v x :
  good_mem m -> grows b m0 m -> running m -> table_is a m -> (k <> Qundef -> v <> Qundef) -> Inv x ->
  (forall m', keeps b m m' -> grows b m0 m') ->
  spec b m (hash_foreach_iter h func k v x) (fun r m' => Inv (snd r) /\ table_is a m' /\
    match fst r with ST_CONTINUE => m' = m | ST_DELETE => False | _ => True end).
Proof.
  intros G Gr R Ta Hv HI Hgr. unfold hash_foreach_iter. apply (tbl_read_is m a); [exact Ta|].
  apply spec_if; intros EK; breflect; [apply spec_ret; cbn; auto|].
  apply (spec_bind _ _ _ _ _ _ (Hfunc k v x m G Gr EK (Hv EK) HI)). intros [r y] m1 G1 K1 HI1. cbn [snd] in HI1.
  apply (tbl_read b m1 h); [exact G1|now apply (has_keeps b m), running_has|].
  intros o a' t Ho Ha' Ht Gt. apply spec_if; intros EA; [now apply spec_raise|].
  apply negb_false_iff, Pos.eqb_eq in EA. subst a'.
  assert (T1 : table_is a m1) by (exists o; auto).
  assert (HC : forall r', r' = ST_STOP \/ r' = ST_CHECK -> spec b m1 (ret (r', y)) (fun r m' =>
    Inv (snd r) /\ table_is a m' /\ match fst r with ST_CONTINUE => m' = m | ST_DELETE => False | _ => True end)).
  { intros r' Hr'. apply spec_ret; auto. cbn [fst snd]. destruct Hr' as [-> | ->]; auto. }
  destruct r; try (apply HC; now auto).
  apply (table_read b m1 a t); [exact Ht|].
  apply (spec_bind _ _ _ _ (fun _ m' => m' = put_table a (snd (st_delete_safe t k Qundef)) m1)).
  { apply spec_any, (set_table_spec m1 a t); auto.
    pose proof (good_delete_safe Qundef undef_alone t k Gt (valid_undef k EK)) as HD.
    destruct (st_delete_safe t k Qundef) as [[[k0 v0]|] t']; cbn [snd]; [apply HD|now destruct HD as [-> _]]. }
  intros _ m2 G2 K2 ->. set (m2 := put_table a _ m1) in *.
  assert (R2 : running m2) by (apply (running_keeps b m1), (running_keeps b m); auto).
  apply (spec_bind _ _ _ _ (fun _ m' => exists o2, hashes m2 !! h = Some o2 /\ m' = put_hash h (set_deleted true o2) m2)).
  { apply spec_any, upd_spec; [exact G2|now apply running_has|]. destruct R2 as (o2 & H2 & L2).
    intros o3 H3. cbn. splits; auto.
    - now apply (gh_ifnone _ _ _ (gm_hash m2 G2 h o3 H3)).
    - rewrite H2 in H3. injection H3 as <-. lia. }
  intros _ m3 G3 K3 (o2 & Ho2 & ->). apply spec_ret; auto. cbn [fst snd]. splits; auto.
  exists (set_deleted true o2). cbn [put_hash hashes tbl set_deleted]. rewrite lookup_insert_eq. split; auto.
  unfold m2, put_table in Ho2. cbn [hashes] in Ho2. congruence.
Qed.

(** The states of the loop over the table at [a], begun in [m1]. *)
Definition loop_inv (m1 : memory) (a : positive) (s : result St) (t : st_table) : Prop :=
  exists x m, s = Val x m /\ good_mem m /\ keeps b m1 m /\ Inv x /\ table_is a m /\ tables m !! a = Some t.

Definition loop_end (m1 : memory) (s : result St) : Prop :=
  match s with
  | Val x m => good_mem m /\ keeps b m1 m /\ Inv x
  | Exn e m => E e /\ good_mem m /\ keeps b m1 m
  | Crash => False
  | Timeout => True
  end.

Lemma foreach_func_inv m1 a :
  running m1 -> (forall m, keeps b m1 m -> grows b m0 m) ->
  keeps_invariant (foreach_func h func a) (loop_inv m1 a) (loop_end m1).
Proof.
  intros R Hgr. unfold keeps_invariant. splits.
  - intros s t e (x & m & -> & G & K & HI & Ta & Ht) Hin. cbn [foreach_func].
    pose proof (iter_spec m a (e_key e) (e_record e) x G (Hgr m K) (running_keeps b m1 m K R) Ta
      (fun HK => proj1 (good_in Qundef t e (gm_table m G a t Ht) Hin HK)) HI
      (fun m' K' => Hgr m' (keeps_trans b _ _ _ K K'))) as HS.
    unfold spec in HS. destruct (hash_foreach_iter h func (e_key e) (e_record e) x m) as [[r y] m'|er m'| |].
    + destruct HS as (G' & K' & HI' & Ta' & Hr). cbn [fst snd] in *.
      destruct Ta' as (o' & Ho' & Ha'). destruct (gh_table _ _ _ (gm_hash m' G' h o' Ho')) as (a2 & t2 & Ha2 & Ht2).
      rewrite Ha' in Ha2. injection Ha2 as <-. rewrite Ht2.
      assert (HL : loop_inv m1 a (Val y m') t2).
      { exists y, m'. splits; auto; [now transitivity m|exists o'; auto]. }
      destruct r; auto.
      * subst m'. rewrite Ht in Ht2. injection Ht2 as <-. auto.
      * unfold loop_end. splits; auto. now transitivity m.
    + destruct HS as (He & G' & K'). unfold loop_end. splits; auto. now transitivity m.
    + contradiction.
    + exact I.
  - intros s t (x & m & -> & G & K & _). cbn. auto.
  - intros s t (x & m & -> & G & K & HI & _). cbn. auto.
Qed.

Lemma call_spec m1 arg :
  good_mem m1 -> running m1 -> Inv arg -> (forall m, keeps b m1 m -> grows b m0 m) ->
  spec b m1 (hash_foreach_call fuel h func arg) (fun x _ => Inv x).
Proof.
  intros G R HI Hgr. unfold hash_foreach_call. apply (tbl_read b m1 h); [exact G|now apply running_has|].
  intros o a t Ho Ha Ht Gt. apply (table_read b m1 a t); [exact Ht|]. unfold spec.
  pose proof (st_foreach_inv (foreach_func h func a) (loop_inv m1 a) (loop_end m1) fuel t (Val arg m1)
    (foreach_func_inv m1 a R Hgr)) as HF.
  assert (HL : loop_inv m1 a (Val arg m1) t).
  { exists arg, m1. splits; auto; [reflexivity|exists o; auto]. }
  specialize (HF HL). destruct (st_foreach (foreach_func h func a) fuel t (Val arg m1)) as [[[s t']|]|er| |];
    try contradiction; auto.
Qed.
End Foreach.

Lemma ensure_spec b m m2 h o :
  hashes m !! h = Some o -> 0 <= iter_lev o -> good_mem m2 -> keeps b (put_hash h (add_iter_lev 1 o) m) m2 ->
  exists m3, hash_foreach_ensure h m2 = Val tt m3 /\ good_mem m3 /\ keeps b m m3.
Proof.
  intros H Hl G K. destruct (kp_old _ _ _ K h (add_iter_lev 1 o)) as (o2 & H2 & L2 & _).
  { cbn. apply lookup_insert_eq. }
  cbn [add_iter_lev iter_lev] in L2. set (o3 := add_iter_lev (-1) o2).
  assert (L3 : iter_lev o3 = iter_lev o) by (cbn; lia).
  pose proof (gm_hash m2 G h o2 H2) as GH. destruct (gh_table _ _ _ GH) as (a & t & Ha & Ht).
  assert (HE1 : exists m', hash_foreach_ensure h m2 = Val tt m' /\
    (m' = put_hash h o3 m2 /\ (iter_lev o3 = 0 -> HASH_DELETED o3 = false) \/
     exists t', good_table t' /\ m' = put_hash h (set_deleted false o3) (put_table a t' m2))).
  { unfold hash_foreach_ensure, bindM at 1, upd at 1. rewrite H2. unfold bindM at 1, get.
    cbn [hashes]. rewrite lookup_insert_eq. fold o3. destruct (Z.eqb_spec (iter_lev o3) 0) as [E0|E0].
    2:{ eexists. split; [reflexivity|]. left. split; [reflexivity|]. contradiction. }
    destruct (HASH_DELETED o3) eqn:ED.
    2:{ eexists. split; [reflexivity|]. left. auto. }
    unfold bindM at 1, tbl_of, bindM at 1, get. cbn [hashes]. rewrite lookup_insert_eq. change (tbl o3) with (tbl o2).
    rewrite Ha. unfold ret at 1, bindM at 1, table. cbn [tables]. rewrite Ht.
    destruct (good_cleanup Qundef undef_alone t (gm_table m2 G a t Ht)) as (t' & -> & Gt' & _).
    unfold lift, ret, bindM, set_table. cbn [tables hashes next_hash]. rewrite Ht. unfold upd. cbn [hashes tables next_hash].
    rewrite lookup_insert_eq. eexists. split; [reflexivity|]. right. exists t'. split; [exact Gt'|].
    unfold put_hash, put_table. cbn [hashes tables next_hash]. now rewrite insert_insert_eq. }
  destruct HE1 as (m3 & E3 & HC). exists m3. split; [exact E3|].
  destruct HC as [[-> Hd]|(t' & Gt' & ->)].
  - split; [apply (put_hash_good m2 h o2); auto; [lia|apply (gh_ifnone _ _ _ GH)]|].
    now apply (put_hash_keeps b m m2 h o o2 o3 1).
  - pose proof (set_table_spec m2 a t t' G Ht Gt') as HS. unfold spec, set_table in HS. rewrite Ht in HS.
    destruct HS as (G' & K' & _). fold (put_table a t' m2) in G', K'. split.
    + apply (put_hash_good _ h o2); auto; [cbn; lia|apply (gh_ifnone _ _ _ GH)].
    + apply (put_hash_keeps b m (put_table a t' m2) h o o2 (set_deleted false o3) 1); auto.
      transitivity m2; [exact K|]. now apply keeps_weaken.
Qed.

(** The rule for loops: the function may do anything [spec] allows. *)
Lemma foreach_spec {St} fuel b h (func : Z -> Z -> St -> M (st_retval * St)) (Inv : St -> Prop) m arg :
  E RuntimeError -> good_mem m -> has m h -> Inv arg ->
  (forall k v x m', good_mem m' -> grows b m m' -> k <> Qundef -> v <> Qundef -> Inv x ->
    spec b m' (func k v x) (fun r _ => Inv (snd r))) ->
  spec b m (rb_hash_foreach fuel h func arg) (fun x _ => Inv x).
Proof.
  intros HE G [o H] HI Hf. pose proof (gm_hash m G h o H) as GH. pose proof (gh_lev _ _ _ GH) as Hl.
  set (m1 := put_hash h (add_iter_lev 1 o) m).
  assert (G1 : good_mem m1) by (apply (put_hash_good m h o); auto; cbn; [lia|apply (gh_ifnone _ _ _ GH)|lia]).
  assert (Hc : spec b m1 (hash_foreach_call fuel h func arg) (fun x _ => Inv x)).
  { apply (call_spec fuel b h func Inv m); auto.
    - exists (add_iter_lev 1 o). split; [cbn; apply lookup_insert_eq|cbn; lia].
    - intros m' K. now apply (keeps_level b m h o 1). }
  unfold spec, rb_hash_foreach, bindM, upd. rewrite H. fold (put_hash h (add_iter_lev 1 o) m). fold m1.
  unfold rb_ensure, spec, bindM in *. destruct (hash_foreach_call fuel h func arg m1) as [x m2|e m2| |]; auto.
  - destruct Hc as (G2 & K2 & HI2). destruct (ensure_spec b m m2 h o H Hl G2 K2) as (m3 & -> & G3 & K3).
    cbn. auto.
  - destruct Hc as (He & G2 & K2). destruct (ensure_spec b m m2 h o H Hl G2 K2) as (m3 & -> & G3 & K3).
    cbn. auto.
Qed.

(** ** Methods *)

Section Methods.
Context (Eall : forall e, E e) (fuel : nat).
Context (proc_call : Z -> positive -> Z -> M Z).

Definition block_ok (block : yielded -> M Z) : Prop :=
  forall y m, good_mem m -> spec false m (block y) (fun v _ => v <> Qundef).

Hypothesis proc_ok : forall p h k m, good_mem m -> has m h ->
  spec false m (proc_call p h k) (fun v _ => v <> Qundef).

Local Abbreviation any := (fun _ _ => True).

Lemma modify_spec b m h : good_mem m -> has m h -> spec b m (rb_hash_modify h) (fun _ m' => m' = m).
Proof.
  intros G H. unfold rb_hash_modify. apply get_read; [exact H|]. intros o Ho.
  destruct (tbl o); [|now apply spec_raise]. repeat (apply spec_if; intros _; [now apply spec_raise|]).
  now apply spec_ret.
Qed.

(** After the check that a Hash may be modified. *)
Lemma modify_bind b {A} m h (c : M A) Q :
  good_mem m -> has m h -> spec b m c Q -> spec b m (rb_hash_modify h ;;; c) Q.
Proof.
  intros G H HC. apply (spec_bind b m _ _ (fun _ m' => m' = m)); [now apply modify_spec|].
  now intros _ m' _ _ ->.
Qed.

Lemma upd_bind b {A} m h f (c : M A) Q :
  good_mem m -> has m h -> small m h f ->
  (forall m', good_mem m' -> keeps true m m' -> spec b m' c Q) -> spec b m (upd h f ;;; c) Q.
Proof.
  intros G H Hs HC. eapply spec_bind; [apply spec_any, upd_spec; auto|]. intros _ m' G' K' (o & Ho & Hm).
  apply HC; auto. rewrite Hm. pose proof (upd_spec m h f G H Hs) as HU.
  unfold spec, upd in HU. rewrite Ho in HU. apply HU.
Qed.

Lemma set_table_bind b {A} m a t t' (c : M A) Q :
  good_mem m -> tables m !! a = Some t -> good_table t' ->
  (forall m', good_mem m' -> keeps true m m' -> spec b m' c Q) -> spec b m (set_table a t' ;;; c) Q.
Proof.
  intros G Ht Gt HC. pose proof (set_table_spec m a t t' G Ht Gt) as HS.
  eapply spec_bind; [apply spec_any; exact HS|]. intros _ m' G' _ ->. apply HC; auto.
  unfold spec, set_table in HS. rewrite Ht in HS. apply HS.
Qed.

Lemma aset_spec b m h k v :
  good_mem m -> has m h -> k <> Qundef -> v <> Qundef -> spec b m (rb_hash_aset h k v) (fun r _ => r = v).
Proof.
  intros G H Hk Hv. apply modify_bind; auto. apply tbl_read; auto. intros o a t Ho Ha Ht Gt.
  assert (HI : spec b m ((if is_string k then
      r <- Hash.st_lookup a k ;; ret (match r with Some _ => true | None => false end) else ret true))
      (fun x m' => m' = m /\ (x = false -> is_string k = true /\ get_pair k (pairs t) = None))).
  { destruct (is_string k); [|apply spec_ret; auto; now split].
    apply (st_lookup_read b m a t); auto. apply spec_ret; auto. split; auto.
    destruct (get_pair k (pairs t)); [discriminate|auto]. }
  apply (spec_bind _ _ _ _ _ _ HI). intros x m' _ _ [-> Hx].
  apply (spec_bind _ _ _ _ any); [|intros; now apply spec_ret]. apply spec_any. destruct x.
  - eapply spec_weaken; [now apply (st_insert_spec' m a t)|auto].
  - destruct (Hx eq_refl) as [Hs HN]. pose proof (new4_not_undef k Hs) as Hn.
    eapply spec_weaken; [apply (st_add_direct_spec m a t); auto|auto].
    rewrite <- HN. symmetry. apply get_pair_equal. now apply new4_equal.
Qed.

Lemma default_spec m h k :
  good_mem m -> has m h -> spec false m (rb_hash_default proc_call h k) (fun v _ => v <> Qundef).
Proof.
  intros G H. apply get_read; [exact H|]. intros o Ho. apply spec_if; intros _; [now apply proc_ok|].
  apply spec_ret; auto. apply (gh_ifnone _ _ _ (gm_hash m G h o Ho)).
Qed.

Lemma aref_spec m h k :
  good_mem m -> has m h -> k <> Qundef -> spec false m (rb_hash_aref proc_call h k) (fun v _ => v <> Qundef).
Proof.
  intros G H Hk. apply tbl_read; auto. intros o a t Ho Ha Ht Gt. apply (st_lookup_read _ m a t); auto.
  destruct (get_pair k (pairs t)) as [v|] eqn:EV; [|now apply default_spec].
  apply spec_ret; auto. now apply (get_pair_valid t k).
Qed.

Lemma fetch_spec m block h k if_none :
  good_mem m -> has m h -> k <> Qundef -> (forall bk, block = Some bk -> block_ok bk) ->
  spec false m (rb_hash_fetch block h k if_none) any.
Proof.
  intros G H Hk Hb. apply tbl_read; auto. intros o a t Ho Ha Ht Gt. apply (st_lookup_read _ m a t); auto.
  destruct (get_pair k (pairs t)) as [v|]; [now apply spec_ret|]. destruct block as [bk|].
  - eapply spec_weaken; [now apply (Hb bk)|auto].
  - destruct if_none; [now apply spec_ret|now apply spec_raise].
Qed.

Lemma has_key_spec b m h k : good_mem m -> has m h -> k <> Qundef -> spec b m (rb_hash_has_key h k) any.
Proof.
  intros G H Hk. apply tbl_read; auto. intros o a t Ho Ha Ht Gt. apply (st_lookup_read _ m a t); auto.
  now apply spec_ret.
Qed.

Lemma size_spec b m h : good_mem m -> has m h ->
  spec b m (rb_hash_size h) (fun n m' => m' = m /\ 0 <= n <= MAX).
Proof.
  intros G H. apply tbl_read; auto. intros o a t Ho Ha Ht Gt. apply (table_read _ m a t); auto.
  apply spec_ret; auto. split; auto. rewrite (pairs_count Qundef t (good_wf _ t Gt)) at 1.
  pose proof (good_count _ t Gt). lia.
Qed.

Lemma empty_spec b m h : good_mem m -> has m h -> spec b m (rb_hash_empty_p h) any.
Proof.
  intros G H. apply tbl_read; auto. intros o a t Ho Ha Ht Gt. apply (table_read _ m a t); auto.
  now apply spec_ret.
Qed.

Lemma set_deleted_small m h o :
  good_mem m -> hashes m !! h = Some o -> 0 < iter_lev o -> small m h (set_deleted true).
Proof.
  intros G Ho Hl o' Ho'. rewrite Ho in Ho'. injection Ho' as <-. cbn. splits; auto; [|lia].
  apply (gh_ifnone _ _ _ (gm_hash m G h o Ho)).
Qed.

Lemma delete_spec m block h k :
  good_mem m -> has m h -> k <> Qundef -> (forall bk, block = Some bk -> block_ok bk) ->
  spec false m (rb_hash_delete block h k) (fun v _ => v <> Qundef).
Proof.
  intros G H Hk Hb. apply modify_bind; auto. apply get_read; auto. intros o Ho.
  apply tbl_read; auto. intros o' a t Ho' Ha Ht Gt. rewrite Ho in Ho'. injection Ho' as <-.
  apply (table_read _ m a t); auto. cbv zeta.
  assert (HO : spec false m (match block with Some b => b (Yield k) | None => ret Qnil end) (fun v _ => v <> Qundef)).
  { destruct block as [bk|]; [now apply (Hb bk)|now apply spec_ret]. }
  apply spec_if; intros Hl; breflect.
  - pose proof (good_delete_safe Qundef undef_alone t k Gt (valid_undef k Hk)) as HD.
    destruct (st_delete_safe t k Qundef) as [[[k0 v]|] t']; [|exact HO].
    destruct HD as (Gt' & _ & _ & Hv & _). apply (set_table_bind _ m a t); auto. intros m1 G1 K1.
    destruct (kp_old _ _ _ K1 h o Ho) as (o1 & Ho1 & L1 & _).
    apply upd_bind; auto; [now exists o1|apply (set_deleted_small m1 h o1); auto; lia|].
    intros m2 G2 _. now apply spec_ret.
  - pose proof (good_delete Qundef undef_alone t k Gt (valid_undef k Hk)) as HD.
    destruct (st_delete t k) as [[[k0 v]|] t']; [|exact HO].
    destruct HD as (Gt' & _ & _ & Hv). apply (set_table_bind _ m a t); auto. intros m1 G1 K1. now apply spec_ret.
Qed.

(** A loop whose function has no invariant of its own. *)
Lemma loop_spec {St} b m h (func : Z -> Z -> St -> M (st_retval * St)) arg :
  good_mem m -> has m h ->
  (forall k v x m', good_mem m' -> grows b m m' -> k <> Qundef -> v <> Qundef -> spec b m' (func k v x) any) ->
  spec b m (rb_hash_foreach fuel h func arg) any.
Proof. intros G H Hf. eapply (foreach_spec fuel b h func (fun _ => True)); auto. Qed.

Lemma grows_has b m m' h : grows b m m' -> has m h -> has m' h.
Proof. intros [A _ _]. apply A. Qed.

(** A call whose value is not used further. *)
Lemma spec_drop b {A B} m (c : M A) (a : B) (Q : B -> memory -> Prop) :
  (forall m', Q a m') -> spec b m c any -> spec b m (c ;;; ret a) Q.
Proof. intros HQ H. eapply spec_bind; [exact H|]. intros. now apply spec_ret. Qed.

(** The block of an iterator, and then on. *)
Lemma yield_spec {St} m block y (arg : St) :
  block_ok block -> good_mem m -> spec false m (block y ;;; ret (ST_CONTINUE, arg)) any.
Proof. intros Hb G. apply spec_drop; auto. eapply spec_weaken; [now apply Hb|auto]. Qed.

Ltac in_loop :=
  apply loop_spec; auto; let k := fresh "k" in let v := fresh "v" in let x := fresh "x" in
  let m' := fresh "m'" in let G' := fresh "G'" in let Gr := fresh "Gr" in let Hk := fresh "Hk" in
  let Hv := fresh "Hv" in intros k v x m' G' Gr Hk Hv.

Ltac skip_undef := apply spec_if; intros _; [now apply spec_ret|].

Lemma each_value_spec m block h : block_ok block -> good_mem m -> has m h ->
  spec false m (rb_hash_each_value fuel block h) any.
Proof. intros Hb G H. apply spec_drop; auto. in_loop. unfold each_value_i. skip_undef. now apply yield_spec. Qed.

Lemma each_key_spec m block h : block_ok block -> good_mem m -> has m h ->
  spec false m (rb_hash_each_key fuel block h) any.
Proof. intros Hb G H. apply spec_drop; auto. in_loop. unfold each_key_i. skip_undef. now apply yield_spec. Qed.

Lemma each_pair_spec m block h : block_ok block -> good_mem m -> has m h ->
  spec false m (rb_hash_each_pair fuel block h) any.
Proof. intros Hb G H. apply spec_drop; auto. in_loop. unfold each_pair_i. skip_undef. now apply yield_spec. Qed.

Lemma each_spec m block h : block_ok block -> good_mem m -> has m h ->
  spec false m (rb_hash_each fuel block h) any.
Proof. intros Hb G H. apply spec_drop; auto. in_loop. unfold each_i. skip_undef. now apply yield_spec. Qed.

Lemma select_spec m block h : block_ok block -> good_mem m -> has m h ->
  spec false m (rb_hash_select fuel block h) any.
Proof.
  intros Hb G H. unfold rb_hash_select. in_loop. unfold select_i. skip_undef.
  eapply spec_bind; [apply Hb; exact G'|]. intros. now apply spec_ret.
Qed.

Lemma delete_if_spec m block h : block_ok block -> good_mem m -> has m h ->
  spec false m (rb_hash_delete_if fuel block h) any.
Proof.
  intros Hb G H. apply modify_bind; auto. apply spec_drop; auto. in_loop. unfold delete_if_i. skip_undef.
  eapply spec_bind; [apply Hb; exact G'|]. intros r m1 G1 K1 _. apply spec_drop; auto.
  assert (H1 : has m1 h) by (apply (has_keeps false m' m1); auto; now apply (grows_has false m)).
  apply spec_if; intros _; [|now apply spec_ret].
  eapply spec_weaken; [apply delete_spec; auto; intros bk [= <-]; exact Hb|auto].
Qed.

Lemma pure_loop_spec {St} m h (func : Z -> Z -> St -> M (st_retval * St)) arg :
  good_mem m -> has m h ->
  (forall k v x m', good_mem m' -> spec false m' (func k v x) any) ->
  spec false m (rb_hash_foreach fuel h func arg) any.
Proof. intros G H Hf. apply loop_spec; auto. Qed.

Lemma to_a_spec m h : good_mem m -> has m h -> spec false m (rb_hash_to_a fuel h) any.
Proof. intros G H. apply pure_loop_spec; auto. intros. unfold to_a_i. skip_undef. now apply spec_ret. Qed.

Lemma keys_spec m h : good_mem m -> has m h -> spec false m (rb_hash_keys fuel h) any.
Proof. intros G H. apply pure_loop_spec; auto. intros. unfold keys_i. skip_undef. now apply spec_ret. Qed.

Lemma values_spec m h : good_mem m -> has m h -> spec false m (rb_hash_values fuel h) any.
Proof. intros G H. apply pure_loop_spec; auto. intros. unfold values_i. skip_undef. now apply spec_ret. Qed.

Lemma index_spec m h v : good_mem m -> has m h -> spec false m (rb_hash_index fuel h v) any.
Proof.
  intros G H. apply pure_loop_spec; auto. intros. unfold index_i. apply spec_if; intros _; now apply spec_ret.
Qed.

Lemma has_value_spec m h v : good_mem m -> has m h -> spec false m (rb_hash_has_value fuel h v) any.
Proof.
  intros G H. apply pure_loop_spec; auto. intros. unfold rb_hash_search_value. skip_undef.
  apply spec_if; intros _; now apply spec_ret.
Qed.

Lemma hash_hash_spec m h : good_mem m -> has m h -> spec false m (rb_hash_hash fuel h) any.
Proof.
  intros G H. eapply spec_bind; [now apply size_spec|]. intros n m1 G1 K1 [-> _].
  eapply spec_bind; [apply pure_loop_spec; auto; intros; now apply spec_ret|]. intros hv m2 G2 K2 _.
  apply get_read; [now apply (has_keeps false m)|]. intros. now apply spec_ret.
Qed.

Lemma shift_spec m h : good_mem m -> has m h -> spec false m (rb_hash_shift fuel proc_call h) any.
Proof.
  intros G H. apply modify_bind; auto.
  eapply spec_bind; [apply pure_loop_spec; auto; intros k v x m' G'; unfold shift_i; skip_undef;
    destruct x; now apply spec_ret|].
  intros [p|] m1 G1 K1 _; [now apply spec_ret|]. assert (H1 : has m1 h) by now apply (has_keeps false m).
  apply get_read; auto. intros o Ho. apply spec_if; intros _; [|now apply spec_ret].
  eapply spec_bind; [now apply proc_ok|]. intros. now apply spec_ret.
Qed.

Lemma clear_spec b m h : good_mem m -> has m h -> spec b m (rb_hash_clear fuel h) any.
Proof.
  intros G H. apply modify_bind; auto. apply tbl_read; auto. intros o a t Ho Ha Ht Gt.
  apply (table_read _ m a t); auto. apply spec_drop; auto. apply spec_if; intros _; [|now apply spec_ret].
  in_loop. now apply spec_ret.
Qed.

Lemma values_at_spec m h argv acc :
  good_mem m -> has m h -> Forall (fun k => k <> Qundef) argv -> spec false m (values_at_loop proc_call h argv acc) any.
Proof.
  intros G H HF. revert m acc G H. induction HF as [|k argv Hk _ IH]; intros m acc G H; cbn [values_at_loop].
  { now apply spec_ret. }
  eapply spec_bind; [now apply aref_spec|]. intros v m1 G1 K1 _. apply IH; auto. now apply (has_keeps false m).
Qed.

Lemma equal_spec m h1 h2 eql : good_mem m -> has m h1 -> has m h2 -> spec false m (hash_equal fuel h1 h2 eql) any.
Proof.
  intros G H1 H2. apply spec_if; intros _; [now apply spec_ret|].
  eapply spec_bind; [now apply size_spec|]. intros n1 m1 G1 _ [-> _].
  eapply spec_bind; [now apply size_spec|]. intros n2 m1 _ _ [-> _].
  apply spec_if; intros _; [now apply spec_ret|]. apply get_read; auto. intros o1 _. apply get_read; auto. intros o2 _.
  apply spec_if; intros _; [now apply spec_ret|]. apply tbl_read; auto. intros o a t Ho Ha Ht Gt.
  apply spec_any. in_loop. unfold equal_i. skip_undef.
  destruct (tables m' !! a) as [t'|] eqn:Ht'; [|apply (gr_tables _ _ _ Gr eq_refl) in Ht'; congruence].
  apply (st_lookup_read _ m' a t'); auto. destruct (get_pair k (pairs t')); [|now apply spec_ret].
  apply spec_if; intros _; now apply spec_ret.
Qed.

(** *** New Hashes *)

Lemma new_hash_spec m a t o :
  good_mem m -> tables m !! a = Some t -> (forall h o, hashes m !! h = Some o -> tbl o <> Some a) ->
  tbl o = Some a -> iter_lev o = 0 -> HASH_DELETED o = false -> ifnone o <> Qundef ->
  spec false m (fun m => Val (next_hash m) (mkMemory (<[next_hash m := o]> (hashes m)) (tables m) (Pos.succ (next_hash m))))
    (fun h m' => m' = mkMemory (<[h := o]> (hashes m)) (tables m) (Pos.succ h) /\ hashes m !! h = None).
Proof.
  intros G Ht Hfree Ho Hl Hd Hi. assert (HN : hashes m !! next_hash m = None).
  { destruct (hashes m !! next_hash m) as [o'|] eqn:EH; [|reflexivity].
    pose proof (gh_next _ _ _ (gm_hash m G _ _ EH)). lia. }
  unfold spec. splits; auto.
  - split; cbn [hashes tables next_hash].
    + intros h' o' H'. destruct (decide (h' = next_hash m)) as [->|Hn].
      * rewrite lookup_insert_eq in H'. injection H' as <-. split; cbn [hashes tables next_hash]; auto; try lia. eauto.
      * rewrite lookup_insert_ne in H' by congruence. destruct (gm_hash m G h' o' H') as [G1 G2 G3 G4 G5].
        split; cbn [hashes tables next_hash]; auto. lia.
    + exact (gm_table m G).
    + intros h1 h2 o1 o2 a0 H1 H2 T1 T2.
      destruct (decide (h1 = next_hash m)) as [->|Hn1], (decide (h2 = next_hash m)) as [->|Hn2]; auto.
      * rewrite lookup_insert_eq in H1. rewrite lookup_insert_ne in H2 by congruence. injection H1 as <-.
        exfalso. apply (Hfree h2 o2 H2). congruence.
      * rewrite lookup_insert_eq in H2. rewrite lookup_insert_ne in H1 by congruence. injection H2 as <-.
        exfalso. apply (Hfree h1 o1 H1). congruence.
      * rewrite lookup_insert_ne in H1, H2 by congruence. exact (gm_owner m G h1 h2 o1 o2 a0 H1 H2 T1 T2).
  - split; cbn [hashes tables]; [| |discriminate].
    + intros h' o' H'. exists o'. splits; auto. rewrite lookup_insert_ne; congruence.
    + intros h' o' H1 H2. destruct (decide (h' = next_hash m)) as [->|Hn].
      * rewrite lookup_insert_eq in H2. injection H2 as <-. auto.
      * rewrite lookup_insert_ne in H2 by congruence. congruence.
Qed.

Lemma alloc_spec m : good_mem m ->
  spec false m hash_alloc (fun h m' => hashes m !! h = None /\
    exists o a t, hashes m' !! h = Some o /\ tbl o = Some a /\ tables m' !! a = Some t /\ pairs t = []).
Proof.
  intros G. unfold hash_alloc, st_init_table. destruct (good_init Qundef 0 ltac:(lia)) as (t & -> & Gt & Hp & _).
  unfold lift. eapply (spec_bind _ _ _ _ (fun x m' => x = t /\ m' = m)); [now apply spec_ret|].
  intros x m1 _ _ [-> ->]. eapply spec_bind; [now apply new_table_spec|].
  intros a m2 G2 K2 (Ht & Hh & Hfree & _). rewrite <- Hh in Hfree.
  eapply spec_weaken; [apply (new_hash_spec m2 a t (mkHash (Some a) 0 Qnil false false false false)); auto; discriminate|].
  cbv beta. intros h m3 _ _ [-> HN]. rewrite <- Hh. split; [exact HN|].
  exists (mkHash (Some a) 0 Qnil false false false false), a, t. cbn [hashes tables tbl]. rewrite lookup_insert_eq. auto.
Qed.

Lemma alloc_has m : good_mem m -> spec false m hash_alloc (fun h m' => has m' h).
Proof.
  intros G. eapply spec_weaken; [now apply alloc_spec|]. intros h m' _ _ (_ & o & a & t & Ho & _). now exists o.
Qed.

Lemma set_ifnone_small m h v : good_mem m -> v <> Qundef -> small m h (set_ifnone v).
Proof. intros G Hv o Ho. cbn. splits; auto. apply (gh_deleted _ _ _ (gm_hash m G h o Ho)). Qed.

Lemma flag_small m h f :
  good_mem m -> (forall o, tbl (f o) = tbl o /\ iter_lev (f o) = iter_lev o /\ ifnone (f o) = ifnone o /\
    HASH_DELETED (f o) = HASH_DELETED o) -> small m h f.
Proof.
  intros G Hf o Ho. destruct (Hf o) as (-> & -> & -> & ->). pose proof (gm_hash m G h o Ho) as GH.
  splits; auto; apply GH.
Qed.

Lemma replace_spec m h h2 : good_mem m -> has m h -> has m h2 -> spec false m (rb_hash_replace fuel h h2) any.
Proof.
  intros G H H2. apply spec_if; intros _; [now apply spec_ret|].
  eapply spec_bind; [now apply clear_spec|]. intros _ m1 G1 K1 _.
  assert (Hm : has m1 h /\ has m1 h2) by (split; now apply (has_keeps false m)). destruct Hm as [H1 H12].
  eapply spec_bind.
  { in_loop. unfold replace_i. apply spec_drop; auto. apply spec_if; intros _; [now apply spec_ret|].
    eapply spec_weaken; [apply aset_spec; auto; now apply (grows_has false m1)|auto]. }
  intros _ m2 G2 K2 _. assert (Hm : has m2 h /\ has m2 h2) by (split; now apply (has_keeps false m1)).
  destruct Hm as [H3 H4]. apply get_read; auto. intros o Ho. apply upd_bind; auto.
  { apply set_ifnone_small; auto. apply (gh_ifnone _ _ _ (gm_hash m2 G2 h2 o Ho)). }
  intros m3 G3 K3. apply get_read; [now apply (has_keeps true m2)|]. intros o' _.
  apply upd_bind; auto; [now apply (has_keeps true m2)|apply flag_small; auto|]. intros m4 G4 _. now apply spec_ret.
Qed.

Lemma dup_spec m h : good_mem m -> has m h -> spec false m (rb_obj_dup fuel h) (fun d m' => has m' d).
Proof.
  intros G H. eapply spec_bind; [now apply alloc_has|]. intros d m1 G1 K1 Hd.
  assert (H1 : has m1 h) by now apply (has_keeps false m). apply get_read; auto. intros o _.
  apply upd_bind; auto; [now apply flag_small|]. intros m2 G2 K2.
  eapply spec_bind; [apply replace_spec; auto; now apply (has_keeps true m1)|]. intros d' m3 G3 K3 _.
  apply spec_ret; auto. apply (has_keeps false m2 m3); auto. now apply (has_keeps true m1).
Qed.

Lemma reject_spec m block h : block_ok block -> good_mem m -> has m h ->
  spec false m (rb_hash_reject fuel block h) any.
Proof.
  intros Hb G H. eapply spec_bind; [now apply dup_spec|]. intros d m1 G1 K1 Hd. now apply delete_if_spec.
Qed.

Lemma reject_bang_spec m block h : block_ok block -> good_mem m -> has m h ->
  spec false m (rb_hash_reject_bang fuel block h) any.
Proof.
  intros Hb G H. eapply spec_bind; [now apply size_spec|]. intros n m1 _ _ [-> _].
  eapply spec_bind; [now apply delete_if_spec|]. intros _ m1 G1 K1 _.
  eapply spec_bind; [apply size_spec; auto; now apply (has_keeps false m)|]. intros. now apply spec_ret.
Qed.

Lemma invert_spec m h : good_mem m -> has m h -> spec false m (rb_hash_invert fuel h) (fun d m' => has m' d).
Proof.
  intros G H. eapply spec_bind; [now apply alloc_has|]. intros d m1 G1 K1 Hd.
  eapply spec_bind.
  { apply loop_spec; auto; [now apply (has_keeps false m)|]. intros k v x m' G' Gr Hk Hv.
    unfold rb_hash_invert_i. skip_undef. apply spec_drop; auto.
    eapply spec_weaken; [apply aset_spec; auto; now apply (grows_has false m1)|auto]. }
  intros _ m2 G2 K2 _. apply spec_ret; auto. now apply (has_keeps false m1).
Qed.

Lemma update_spec m block h1 h2 :
  (forall bk, block = Some bk -> block_ok bk) -> good_mem m -> has m h1 -> has m h2 ->
  spec false m (rb_hash_update fuel proc_call block h1 h2) (fun d m' => has m' d).
Proof.
  intros Hb G H1 H2. eapply (spec_bind _ _ _ _ (fun _ m' => has m' h1)).
  2:{ intros. now apply spec_ret. }
  assert (HX : forall c, spec false m c any -> spec false m c (fun (_ : unit) m' => has m' h1)).
  { intros c HC. eapply spec_weaken; [exact HC|]. intros. now apply (has_keeps false m). }
  destruct block as [bk|]; apply HX; in_loop.
  - unfold rb_hash_update_block_i. skip_undef. assert (H' : has m' h1) by now apply (grows_has false m).
    eapply spec_bind; [now apply has_key_spec|]. intros hk m1 G1 K1 _. assert (H3 : has m1 h1) by now apply (has_keeps false m').
    eapply (spec_bind _ _ _ _ (fun v _ => v <> Qundef)).
    { destruct hk; [|now apply spec_ret]. eapply spec_bind; [now apply aref_spec|]. intros old m2 G2 K2 _.
      now apply (Hb bk). }
    intros v' m2 G2 K2 Hv'. apply spec_drop; auto.
    eapply spec_weaken; [apply aset_spec; auto; now apply (has_keeps false m1)|auto].
  - unfold rb_hash_update_i. skip_undef. apply spec_drop; auto.
    eapply spec_weaken; [apply aset_spec; auto; now apply (grows_has false m)|auto].
Qed.

Lemma merge_spec m block h1 h2 :
  (forall bk, block = Some bk -> block_ok bk) -> good_mem m -> has m h1 -> has m h2 ->
  spec false m (rb_hash_merge fuel proc_call block h1 h2) (fun d m' => has m' d).
Proof.
  intros Hb G H1 H2. eapply spec_bind; [now apply dup_spec|]. intros d m1 G1 K1 Hd.
  apply update_spec; auto. now apply (has_keeps false m).
Qed.

(** A Hash gets a table nobody has; what its old table was does not matter. *)
Lemma set_tbl_good m h o a t :
  hashes m !! h = Some o -> tables m !! a = Some t -> ifnone o <> Qundef -> 0 <= iter_lev o ->
  (iter_lev o = 0 -> HASH_DELETED o = false) -> (h < next_hash m)%positive ->
  (forall h' o', hashes m !! h' = Some o' -> h' <> h -> good_hash m h' o' /\ tbl o' <> Some a) ->
  (forall a t, tables m !! a = Some t -> good_table t) ->
  (forall h1 h2 o1 o2 a, h1 <> h -> h2 <> h -> hashes m !! h1 = Some o1 -> hashes m !! h2 = Some o2 ->
    tbl o1 = Some a -> tbl o2 = Some a -> h1 = h2) ->
  good_mem (put_hash h (set_tbl a o) m).
Proof.
  intros H Ht Hi Hl Hd Hn Hoth Htab Hown. split; cbn [put_hash hashes tables next_hash].
  - intros h' o' H'. destruct (decide (h' = h)) as [->|Hne].
    + rewrite lookup_insert_eq in H'. injection H' as <-. split; cbn; eauto.
    + rewrite lookup_insert_ne in H' by congruence. destruct (proj1 (Hoth h' o' H' Hne)). now split.
  - exact Htab.
  - intros h1 h2 o1 o2 a0 H1 H2 T1 T2.
    destruct (decide (h1 = h)) as [->|Hn1], (decide (h2 = h)) as [->|Hn2]; auto.
    + rewrite lookup_insert_eq in H1. rewrite lookup_insert_ne in H2 by congruence. injection H1 as <-.
      cbn in T1. injection T1 as <-. exfalso. now apply (proj2 (Hoth h2 o2 H2 Hn2)).
    + rewrite lookup_insert_eq in H2. rewrite lookup_insert_ne in H1 by congruence. injection H2 as <-.
      cbn in T2. injection T2 as <-. exfalso. now apply (proj2 (Hoth h1 o1 H1 Hn1)).
    + rewrite lookup_insert_ne in H1, H2 by congruence. eauto.
Qed.

Lemma set_tbl_keeps m h o a : hashes m !! h = Some o -> keeps false m (put_hash h (set_tbl a o) m).
Proof.
  intros H. split; cbn [put_hash hashes tables]; [| |discriminate].
  - intros h' o' H'. destruct (decide (h' = h)) as [->|Hn].
    + rewrite lookup_insert_eq. exists (set_tbl a o). rewrite H in H'. injection H' as <-. splits; auto. discriminate.
    + rewrite lookup_insert_ne by congruence. exists o'. auto.
  - intros h' o' H1 H2. destruct (decide (h' = h)) as [->|Hn]; [congruence|].
    rewrite lookup_insert_ne in H2 by congruence. congruence.
Qed.

(** Freeing the table of [h] and putting the new one in its place. *)
Lemma swap_table_spec m h a t :
  good_mem m -> has m h -> tables m !! a = Some t -> (forall h o, hashes m !! h = Some o -> tbl o <> Some a) ->
  spec false m (old <- tbl_of h ;; st_free_table old ;;; upd h (set_tbl a) ;;; ret h) any.
Proof.
  intros G H Ht Hfree. apply tbl_read; auto. intros o old t0 Ho Ha Hold _.
  pose proof (gm_hash m G h o Ho) as GH. assert (Hne : old <> a) by (intros ->; exact (Hfree h o Ho Ha)).
  unfold spec, st_free_table, bindM, table, upd, ret. rewrite Hold. cbn [hashes tables next_hash]. rewrite Ho.
  set (m1 := mkMemory (hashes m) (delete old (tables m)) (next_hash m)).
  change (mkMemory (<[h := set_tbl a o]> (hashes m)) (delete old (tables m)) (next_hash m))
    with (put_hash h (set_tbl a o) m1).
  assert (HT : forall a0 t1, a0 <> old -> tables m !! a0 = Some t1 -> tables m1 !! a0 = Some t1).
  { intros a0 t1 Hn H1. cbn. now rewrite lookup_delete_ne by congruence. }
  splits; auto.
  - apply (set_tbl_good m1 h o a t); auto; try apply GH.
    + intros h' o' H' Hn. split; [|now apply (Hfree h')]. destruct (gm_hash m G h' o' H') as [G1 G2 G3 G4 (a' & t' & Ha' & Ht')].
      split; auto. exists a', t'. split; auto. apply HT; auto. intros ->. apply Hn.
      exact (gm_owner m G h' h o' o old H' Ho Ha' Ha).
    + intros a0 t1 H1. destruct (decide (a0 = old)) as [->|Hn].
      * cbn in H1. rewrite lookup_delete_eq in H1. discriminate.
      * cbn in H1. rewrite lookup_delete_ne in H1 by congruence. exact (gm_table m G a0 t1 H1).
    + intros h1 h2 o1 o2 a0 _ _ H1 H2. exact (gm_owner m G h1 h2 o1 o2 a0 H1 H2).
  - destruct (set_tbl_keeps m h o a Ho) as [A1 A2 _]. split; auto. discriminate.
Qed.

Lemma rehash_spec' m h : good_mem m -> has m h -> spec false m (rb_hash_rehash fuel h) any.
Proof.
  intros G H. apply modify_bind; auto. eapply spec_bind; [now apply size_spec|]. intros n m0 _ _ [-> Hn].
  destruct (good_init Qundef n ltac:(unfold MAX in Hn; lia)) as (t & -> & Gt & _).
  unfold lift. eapply (spec_bind _ _ _ _ (fun x m' => x = t /\ m' = m)); [now apply spec_ret|].
  intros x m1 _ _ [-> ->]. eapply spec_bind; [now apply new_table_spec|].
  intros a m1 G1 K1 (Ht & Hh & Hfree & _). rewrite <- Hh in Hfree.
  assert (H1 : has m1 h) by (unfold has; now rewrite Hh).
  assert (HL : spec true m1 (rb_hash_foreach fuel h (rb_hash_rehash_i a) tt) any).
  { in_loop. unfold rb_hash_rehash_i. apply spec_drop; auto. apply spec_if; intros _; [now apply spec_ret|].
    destruct (tables m' !! a) as [t'|] eqn:Ht'; [|apply (gr_tables _ _ _ Gr eq_refl) in Ht'; congruence].
    eapply spec_weaken; [now apply (st_insert_spec' m' a t')|auto]. }
  eapply (spec_bind _ _ _ _ (fun _ m2 => keeps true m1 m2)).
  { apply spec_any. unfold spec in *. destruct (rb_hash_foreach fuel h (rb_hash_rehash_i a) tt m1); auto.
    destruct HL as (A & B & _). auto. }
  intros _ m2 G2 _ K2. destruct (tables m2 !! a) as [t2|] eqn:Ht2; [|apply (kp_tables _ _ _ K2 eq_refl) in Ht2; congruence].
  apply (swap_table_spec m2 h a t2); auto; [now apply (has_keeps true m1)|].
  intros h' o' H' HT. destruct (hashes m1 !! h') as [o1|] eqn:Ho1.
  - destruct (kp_old _ _ _ K2 h' o1 Ho1) as (o2 & Ho2 & _ & HT2). rewrite H' in Ho2. injection Ho2 as <-.
    apply (Hfree h' o1 Ho1). rewrite <- HT2; auto.
  - destruct (kp_new _ _ _ K2 h' o' Ho1 H'). discriminate.
Qed.

Lemma create_loop_spec m h argv :
  good_mem m -> has m h -> Forall (fun k => k <> Qundef) argv -> spec false m (create_loop h argv) any.
Proof.
  intros G H HF. remember (length argv) as n eqn:En. assert (Hn : (length argv <= n)%nat) by lia. clear En.
  revert m argv G H HF Hn. induction n as [|n IH]; intros m [|k [|v argv]] G H HF Hn; cbn [create_loop length] in *;
    try now apply spec_ret; try lia. lia.
  inversion HF as [|? ? Hk HF']; subst. inversion HF' as [|? ? Hv HF'']; subst.
  eapply spec_bind; [now apply aset_spec|]. intros r m1 G1 K1 _. apply IH; auto; [now apply (has_keeps false m)|lia].
Qed.

Lemma s_create_spec m argv :
  good_mem m -> match argv with inl h2 => has m h2 | inr l => Forall (fun k => k <> Qundef) l end ->
  spec false m (rb_hash_s_create argv) (fun d m' => has m' d).
Proof.
  intros G HA. destruct argv as [h2|l]; unfold rb_hash_s_create.
  - eapply spec_bind; [now apply alloc_has|]. intros d m1 G1 K1 Hd. apply upd_bind; auto.
    { now apply set_ifnone_small. }
    intros m2 G2 K2. assert (H2 : has m2 h2) by (apply (has_keeps true m1); auto; now apply (has_keeps false m)).
    assert (Hd2 : has m2 d) by now apply (has_keeps true m1).
    apply tbl_read; auto. intros o2 a2 t2 Ho2 Ha2 Ht2 Gt2. apply (table_read _ m2 a2 t2); auto.
    destruct (good_copy Qundef undef_alone t2 Gt2) as [Gc _].
    eapply spec_bind; [apply new_table_spec; auto|]. intros a m3 G3 K3 (Ht & Hh & Hfree & _). rewrite <- Hh in Hfree.
    destruct Hd2 as [o Ho]. rewrite <- Hh in Ho. pose proof (gm_hash m3 G3 d o Ho) as GH.
    unfold spec, bindM, upd. rewrite Ho. fold (put_hash d (set_tbl a o) m3). cbn. splits.
    + apply (set_tbl_good m3 d o a (st_copy t2)); auto; try apply GH.
      * intros h' o' H' _. split; [now apply gm_hash|now apply (Hfree h')].
      * exact (gm_table m3 G3).
      * intros h1 h3 o1 o3 a0 _ _. apply (gm_owner m3 G3).
    + now apply set_tbl_keeps.
    + exists (set_tbl a o). cbn. apply lookup_insert_eq.
  - apply spec_if; intros _; [now apply spec_raise|]. eapply spec_bind; [now apply alloc_has|].
    intros d m1 G1 K1 Hd. eapply spec_bind; [now apply create_loop_spec|]. intros _ m2 G2 K2 _.
    apply spec_ret; auto. now apply (has_keeps false m1).
Qed.

Lemma freeze_spec m h : good_mem m -> has m h -> spec false m (rb_hash_freeze h) any.
Proof.
  intros G H. apply get_read; auto. intros o _. repeat (apply spec_if; intros _; [now first [apply spec_ret|apply spec_raise]|]).
  apply upd_bind; auto; [now apply flag_small|]. intros. now apply spec_ret.
Qed.

Lemma set_default_spec m h v : good_mem m -> has m h -> v <> Qundef -> spec false m (rb_hash_set_default h v) any.
Proof.
  intros G H Hv. apply modify_bind; auto. apply upd_bind; auto; [now apply set_ifnone_small|]. intros m1 G1 K1.
  apply upd_bind; auto; [now apply (has_keeps true m)|now apply flag_small|]. intros. now apply spec_ret.
Qed.

Lemma initialize_spec m block argv h :
  good_mem m -> has m h -> (forall p, block = Some p -> p <> Qundef) -> Forall (fun k => k <> Qundef) argv ->
  spec false m (rb_hash_initialize block argv h) any.
Proof.
  intros G H Hb HF. apply modify_bind; auto. destruct block as [p|]; destruct argv as [|v [|w argv]];
    try now apply spec_raise.
  - apply upd_bind; auto; [apply set_ifnone_small; auto|]. intros m1 G1 K1.
    apply upd_bind; auto; [now apply (has_keeps true m)|now apply flag_small|]. intros. now apply spec_ret.
  - apply upd_bind; auto; [now apply set_ifnone_small|]. intros. now apply spec_ret.
  - inversion HF; subst. apply upd_bind; auto; [now apply set_ifnone_small|]. intros. now apply spec_ret.
Qed.

Lemma default_proc_spec m h : good_mem m -> has m h -> spec false m (rb_hash_default_proc h) any.
Proof. intros G H. apply get_read; auto. intros. now apply spec_ret. Qed.
End Methods.
End Safety.
