(* ===== verification/HashSafe.v ===== *)
(** * Hashes: programs that never crash

    A language of programs over Hashes, whose blocks and default procs are
    programs again, and the theorem that none of them follows a null pointer or
    a pointer to a freed table or entry, whatever the blocks do to the Hashes
    that are being walked over. *)

From stdpp Require Import base gmap.
From Stdlib Require Import ZArith Lia List Bool Permutation.
From S2P Require Import Prelude CInt StrSearch StTable HashTable Hash HashInv.
Import ListNotations.
Local Open Scope Z_scope.
Local Open Scope hash_scope.

(** ** Programs *)

Inductive call :=
  | New
  | Initialize (h : positive) (block : option Z) (argv : list Z)
  | Create (argv : positive + list Z)
  | Aref (h : positive) (k : Z)
  | Aset (h : positive) (k v : Z)
  | Fetch (h : positive) (k : Z) (if_none : option Z)
  | Has_key (h : positive) (k : Z)
  | Size (h : positive)
  | Is_empty (h : positive)
  | Delete (h : positive) (k : Z)
  | Shift (h : positive)
  | Clear (h : positive)
  | Replace (h h2 : positive)
  | Dup (h : positive)
  | To_a (h : positive)
  | Keys (h : positive)
  | Values (h : positive)
  | Values_at (h : positive) (argv : list Z)
  | Index (h : positive) (v : Z)
  | Has_value (h : positive) (v : Z)
  | Equals (h1 h2 : positive) (eql : bool)
  | Hash_code (h : positive)
  | Invert (h : positive)
  | Update (h1 h2 : positive)
  | Merge (h1 h2 : positive)
  | Rehash (h : positive)
  | Freeze (h : positive)
  | Default (h : positive) (k : Z)
  | Set_default (h : positive) (v : Z)
  | Default_proc (h : positive).

Inductive block_call :=
  | FetchB (h : positive) (k : Z)
  | DeleteB (h : positive) (k : Z)
  | Delete_if (h : positive)
  | Reject_bang (h : positive)
  | Reject (h : positive)
  | Select (h : positive)
  | Each (h : positive)
  | Each_pair (h : positive)
  | Each_key (h : positive)
  | Each_value (h : positive)
  | UpdateB (h1 h2 : positive)
  | MergeB (h1 h2 : positive).

Inductive answer :=
  | Nothing
  | Word (v : Z)
  | Truth (b : bool)
  | Object (h : positive)
  | Words (l : list Z)
  | Pairs (l : list (Z * Z)).

(** A [break] out of a block is an exception caught around the call. *)
Inductive prog :=
  | Return (a : answer)
  | Throw (e : rb_error)
  | Call (c : call) (k : answer -> prog)
  | CallBlock (c : block_call) (body : yielded -> prog) (k : answer -> prog)
  | Rescue (p : prog) (handler : rb_error -> prog) (k : answer -> prog).

Section Programs.
Context {objects : Objects} {machine : Machine}.

(** No expression of a program has the value [Qundef]. *)
Definition word (v : Z) : Z := if v =? Qundef then Qnil else v.

(** The value of a block. *)
Definition to_word (a : answer) : Z :=
  match a with
  | Nothing => Qnil
  | Word v => word v
  | Truth false => Qfalse
  | _ => Qtrue
  end.

(** A method that is sent to what is not a Hash. *)
Definition on {A} (h : positive) (c : M A) : M A := fun m =>
  match hashes m !! h with Some _ => c m | None => Exn TypeError m end.

Definition as_answer {A} (f : A -> answer) (c : M A) : M answer := a <- c ;; ret (f a).

Section Calls.
Context (fuel : nat) (proc_call : Z -> positive -> Z -> M Z).

Definition perform (c : call) : M answer :=
  match c with
  | New => as_answer Object rb_hash_new
  | Initialize h block argv =>
      on h (as_answer Object (rb_hash_initialize (option_map word block) (map word argv) h))
  | Create (inl h2) => on h2 (as_answer Object (rb_hash_s_create (inl h2)))
  | Create (inr l) => as_answer Object (rb_hash_s_create (inr (map word l)))
  | Aref h k => on h (as_answer Word (rb_hash_aref proc_call h (word k)))
  | Aset h k v => on h (as_answer Word (rb_hash_aset h (word k) (word v)))
  | Fetch h k d => on h (as_answer Word (rb_hash_fetch None h (word k) d))
  | Has_key h k => on h (as_answer Truth (rb_hash_has_key h (word k)))
  | Size h => on h (as_answer Word (rb_hash_size h))
  | Is_empty h => on h (as_answer Truth (rb_hash_empty_p h))
  | Delete h k => on h (as_answer Word (rb_hash_delete None h (word k)))
  | Shift h => on h (as_answer (fun r => match r with inl p => Pairs [p] | inr v => Word v end)
                       (rb_hash_shift fuel proc_call h))
  | Clear h => on h (as_answer Object (rb_hash_clear fuel h))
  | Replace h h2 => on h (on h2 (as_answer Object (rb_hash_replace fuel h h2)))
  | Dup h => on h (as_answer Object (rb_obj_dup fuel h))
  | To_a h => on h (as_answer Pairs (rb_hash_to_a fuel h))
  | Keys h => on h (as_answer Words (rb_hash_keys fuel h))
  | Values h => on h (as_answer Words (rb_hash_values fuel h))
  | Values_at h l => on h (as_answer Words (rb_hash_values_at proc_call h (map word l)))
  | Index h v => on h (as_answer Word (rb_hash_index fuel h v))
  | Has_value h v => on h (as_answer Truth (rb_hash_has_value fuel h v))
  | Equals h1 h2 eql => on h1 (on h2 (as_answer Truth (hash_equal fuel h1 h2 eql)))
  | Hash_code h => on h (as_answer Word (rb_hash_hash fuel h))
  | Invert h => on h (as_answer Object (rb_hash_invert fuel h))
  | Update h1 h2 => on h1 (on h2 (as_answer Object (rb_hash_update fuel proc_call None h1 h2)))
  | Merge h1 h2 => on h1 (on h2 (as_answer Object (rb_hash_merge fuel proc_call None h1 h2)))
  | Rehash h => on h (as_answer Object (rb_hash_rehash fuel h))
  | Freeze h => on h (as_answer Object (rb_hash_freeze h))
  | Default h k => on h (as_answer Word (rb_hash_default proc_call h (word k)))
  | Set_default h v => on h (as_answer Word (rb_hash_set_default h (word v)))
  | Default_proc h => on h (as_answer Word (rb_hash_default_proc h))
  end.

Definition perform_block (c : block_call) (block : yielded -> M Z) : M answer :=
  match c with
  | FetchB h k => on h (as_answer Word (rb_hash_fetch (Some block) h (word k) None))
  | DeleteB h k => on h (as_answer Word (rb_hash_delete (Some block) h (word k)))
  | Delete_if h => on h (as_answer Object (rb_hash_delete_if fuel block h))
  | Reject_bang h => on h (as_answer (fun r => match r with Some h => Object h | None => Nothing end)
                             (rb_hash_reject_bang fuel block h))
  | Reject h => on h (as_answer Object (rb_hash_reject fuel block h))
  | Select h => on h (as_answer Pairs (rb_hash_select fuel block h))
  | Each h => on h (as_answer Object (rb_hash_each fuel block h))
  | Each_pair h => on h (as_answer Object (rb_hash_each_pair fuel block h))
  | Each_key h => on h (as_answer Object (rb_hash_each_key fuel block h))
  | Each_value h => on h (as_answer Object (rb_hash_each_value fuel block h))
  | UpdateB h1 h2 => on h1 (on h2 (as_answer Object (rb_hash_update fuel proc_call (Some block) h1 h2)))
  | MergeB h1 h2 => on h1 (on h2 (as_answer Object (rb_hash_merge fuel proc_call (Some block) h1 h2)))
  end.

Definition rescue {A B} (c : M A) (handler : rb_error -> M A) (k : A -> M B) : M B := fun m =>
  match c m with
  | Val a m' => k a m'
  | Exn e m' => (a <- handler e ;; k a) m'
  | Crash => Crash
  | Timeout => Timeout
  end.

Fixpoint exec (p : prog) : M answer :=
  match p with
  | Return a => ret a
  | Throw e => rb_raise e
  | Call c k => a <- perform c ;; exec (k a)
  | CallBlock c body k =>
      a <- perform_block c (fun y => a <- exec (body y) ;; ret (to_word a)) ;; exec (k a)
  | Rescue p handler k => rescue (exec p) (fun e => exec (handler e)) (fun a => exec (k a))
  end.
End Calls.

(** [procs p] is the body of the default proc [p]; [n] bounds how deeply default
    procs call each other, [fuel] the rounds of each loop. *)
Fixpoint run (fuel : nat) (procs : Z -> positive -> Z -> prog) (n : nat) (p : prog) : M answer :=
  match n with
  | O => exec fuel (fun _ _ _ => timeout) p
  | S n => exec fuel (fun i h k => a <- run fuel procs n (procs i h k) ;; ret (to_word a)) p
  end.
End Programs.

(** ** Safety *)

Section Safe.
Context {objects : Objects} {laws : ObjectLaws objects}.
Context {machine : Machine} {mlaws : MachineLaws machine}.

Abbreviation safe := (spec (fun _ => True) false).
Local Abbreviation any := (fun _ _ => True).

Lemma word_ok v : word v <> Qundef.
Proof. unfold word. destruct (Z.eqb_spec v Qundef); [discriminate|assumption]. Qed.

Lemma words_ok l : Forall (fun k => k <> Qundef) (map word l).
Proof. induction l; cbn; constructor; auto using word_ok. Qed.

Lemma to_word_ok a : to_word a <> Qundef.
Proof. destruct a as [|v|[]|h|l|l]; cbn; try discriminate. apply word_ok. Qed.

Lemma on_safe {A} m h (c : M A) (Q : A -> memory -> Prop) :
  good_mem m -> (has m h -> safe m c Q) -> safe m (on h c) Q.
Proof.
  intros G HC. unfold spec, on in *. destruct (hashes m !! h) as [o|] eqn:E.
  - apply HC. now exists o.
  - splits; auto. reflexivity.
Qed.

Lemma as_answer_safe {A} m (f : A -> answer) (c : M A) Q :
  safe m c Q -> safe m (as_answer f c) any.
Proof. intros HC. eapply spec_bind; [exact HC|]. intros. now apply spec_ret. Qed.

(** What runs later is seen from the beginning. *)
Lemma spec_join m {A} m' (c : M A) : keeps false m m' -> safe m' c any ->
  match c m' with
  | Val _ m2 => good_mem m2 /\ keeps false m m2 /\ True
  | Exn _ m2 => True /\ good_mem m2 /\ keeps false m m2
  | Crash => False
  | Timeout => True
  end.
Proof.
  intros K H. unfold spec in H. destruct (c m') as [a m2|e m2| |]; auto; destruct H as (H1 & H2 & H3); splits; auto;
    now transitivity m'.
Qed.

Section Exec.
Context (fuel : nat) (proc_call : Z -> positive -> Z -> M Z).
Hypothesis proc_ok : forall p h k m, good_mem m -> has m h ->
  safe m (proc_call p h k) (fun v _ => v <> Qundef).

Lemma perform_safe c m : good_mem m -> safe m (perform fuel proc_call c) any.
Proof.
  intros G. destruct c; cbn [perform];
    try match goal with |- context [match ?a with inl _ => _ | inr _ => _ end] => destruct a end;
    repeat (apply on_safe; [exact G|intros]); eapply as_answer_safe.
  - now apply alloc_has.
  - apply initialize_spec; auto using words_ok. intros p Hp. destruct block; cbn in Hp; [|discriminate].
    injection Hp as <-. apply word_ok.
  - now apply s_create_spec.
  - apply s_create_spec; auto. apply words_ok.
  - apply aref_spec; auto using word_ok.
  - apply aset_spec; auto using word_ok.
  - apply fetch_spec; auto using word_ok. discriminate.
  - apply has_key_spec; auto using word_ok.
  - now apply size_spec.
  - now apply empty_spec.
  - apply delete_spec; auto using word_ok. discriminate.
  - now apply shift_spec.
  - now apply clear_spec.
  - now apply replace_spec.
  - now apply dup_spec.
  - now apply to_a_spec.
  - now apply keys_spec.
  - now apply values_spec.
  - apply values_at_spec; auto using words_ok.
  - now apply index_spec.
  - now apply has_value_spec.
  - now apply equal_spec.
  - now apply hash_hash_spec.
  - now apply invert_spec.
  - apply update_spec; auto. discriminate.
  - apply merge_spec; auto. discriminate.
  - now apply rehash_spec'.
  - now apply freeze_spec.
  - now apply default_spec.
  - apply set_default_spec; auto using word_ok.
  - now apply default_proc_spec.
Qed.

Lemma perform_block_safe c block m :
  block_ok (fun _ => True) block -> good_mem m -> safe m (perform_block fuel proc_call c block) any.
Proof.
  intros Hb G. assert (HB : forall bk, Some block = Some bk -> block_ok (fun _ => True) bk)
    by (intros bk E; injection E as <-; exact Hb).
  destruct c; cbn [perform_block]; repeat (apply on_safe; [exact G|intros]); eapply as_answer_safe.
  - apply fetch_spec; auto using word_ok.
  - apply delete_spec; auto using word_ok.
  - now apply delete_if_spec.
  - now apply reject_bang_spec.
  - now apply reject_spec.
  - now apply select_spec.
  - now apply each_spec.
  - now apply each_pair_spec.
  - now apply each_key_spec.
  - now apply each_value_spec.
  - now apply update_spec.
  - now apply merge_spec.
Qed.

Lemma exec_safe p m : good_mem m -> safe m (exec fuel proc_call p) any.
Proof.
  revert m. induction p as [a|e|c k IH|c body IHb k IH|p IHp handler IHh k IH]; intros m G; cbn [exec].
  - now apply spec_ret.
  - now apply spec_raise.
  - eapply spec_bind; [now apply perform_safe|]. auto.
  - eapply spec_bind; [apply perform_block_safe; auto|auto].
    intros y m' G'. eapply spec_bind; [now apply IHb|]. intros a m2 G2 _ _. apply spec_ret; auto. apply to_word_ok.
  - specialize (IHp m G). unfold rescue. pose proof (@spec_join m answer) as HJ. unfold spec in *.
    destruct (exec fuel proc_call p m) as [a m'|e m'| |]; auto.
    + destruct IHp as (G' & K' & _). apply (HJ m' (exec fuel proc_call (k a)) K'). now apply IH.
    + destruct IHp as (_ & G' & K'). apply (HJ m' (a <- exec fuel proc_call (handler e) ;; exec fuel proc_call (k a)) K').
      eapply (spec_bind (fun _ => True)); [now apply IHh|]. intros. now apply IH.
Qed.
End Exec.

Lemma run_safe fuel procs n p m : good_mem m -> safe m (run fuel procs n p) any.
Proof.
  revert p m. induction n as [|n IH]; intros p m G; cbn [run]; apply exec_safe; auto; intros i h k m' G' _.
  - exact I.
  - eapply spec_bind; [now apply IH|]. intros a m2 G2 _ _. apply spec_ret; auto. apply to_word_ok.
Qed.
End Safe.

(** *** Properties *)


(** Words 8 and 12 are strings with the same byte; 12 is frozen. *)
Definition sample_string (a : Z) : option (bool * list Z) :=
  if (a =? 8) || (a =? 12) then Some (true, [97]) else None.

Definition sample_objects : Objects := {|
  string_at := sample_string;
  rb_str_new4 a := if a =? 8 then 12 else a;
  hash_method a := a;
  eql_method a b := (a =? b) || (((a =? 8) || (a =? 12)) && ((b =? 8) || (b =? 12)));
  eq_method a b := a =? b
|}.

#[export] Instance sample_object_laws : ObjectLaws sample_objects.
Proof.
  assert (HS : forall a, @is_string sample_objects a = true -> a = 8 \/ a = 12).
  { intros a. unfold is_string, string_of. destruct (SPECIAL_CONST_P a); [discriminate|]. cbn. unfold sample_string.
    destruct ((a =? 8) || (a =? 12)) eqn:E; [|discriminate]. breflect. destruct E; breflect; auto. }
  assert (HE : forall a b, @eql_method sample_objects a b = true <-> a = b \/ ((a = 8 \/ a = 12) /\ (b = 8 \/ b = 12))).
  { intros a b. cbn. rewrite orb_true_iff, andb_true_iff, !orb_true_iff, !Z.eqb_eq. tauto. }
  split; try (intros *; rewrite !HE).
  - intuition congruence.
  - intuition congruence.
  - intros [->|[[-> | ->] [-> | ->]]]; reflexivity.
  - intros Ha Hb [|[[-> | ->] _]]; auto; discriminate.
  - intros Ha Hb [|[[-> | ->] _]]; auto; discriminate.
  - intros Ha Hb.
    assert (HP : forall x u, @plain_string sample_objects x = Some u -> (x = 8 \/ x = 12) /\ u = [97]).
    { intros x u. unfold plain_string. destruct (string_of x) as [[[] w]|] eqn:E; try discriminate.
      intros H; injection H as <-. assert (Hx : x = 8 \/ x = 12) by (apply HS; unfold is_string; now rewrite E).
      split; auto. unfold string_of in E. destruct Hx as [-> | ->]; cbn in E; now injection E as <-. }
    destruct (HP a s Ha) as [H1 ->], (HP b t Hb) as [H2 ->]. intuition.
  - intros a c s. cbn. unfold sample_string. destruct ((a =? 8) || (a =? 12)); [|discriminate].
    intros H; injection H as _ <-. constructor; [unfold byte; lia|constructor].
  - intros a H. destruct (HS a H) as [-> | ->]; reflexivity.
  - intros H. destruct (HS a H) as [-> | ->]; cbn; auto.
Qed.

(** The first address behind all tables. *)
Definition sample_machine : Machine := {|
  new_address ts := foldr (fun p n => Pos.max (Pos.succ (fst p)) n) 1%positive (map_to_list ts);
  entry_room t := num_entries t <? 1000000;
  safe_level := 0
|}.

#[export] Instance sample_machine_laws : MachineLaws sample_machine.
Proof.
  split; cbn.
  - intros ts. destruct (ts !! _) as [t|] eqn:E; [|reflexivity]. exfalso.
    assert (HX : forall (l : list (positive * st_table)) p, In p l ->
      (fst p < foldr (fun p n => Pos.max (Pos.succ (fst p)) n) 1%positive l)%positive).
    { induction l as [|q l IH]; intros p Hp; [destruct Hp|]. cbn [foldr]. destruct Hp as [<-|Hp]; [lia|].
      specialize (IH p Hp). lia. }
    apply elem_of_map_to_list in E. apply list_elem_of_In in E. apply HX in E. cbn [fst] in E. lia.
  - intros t H. apply Z.ltb_lt in H. unfold MAX. lia.
Qed.

Definition empty_memory : memory := mkMemory ∅ ∅ 1.

Lemma empty_good {objects : Objects} : good_mem empty_memory.
Proof. split; cbn; intros *; rewrite lookup_empty; discriminate. Qed.

Definition with_object (a : answer) (f : positive -> prog) : prog :=
  match a with Object h => f h | _ => Throw TypeError end.

(** A loop that deletes its key, stores a new one, deletes everything in a loop
    within, and rehashes. *)
Definition sample_program : prog :=
  Call New (fun a => with_object a (fun h =>
  Call (Aset h 1 11) (fun _ => Call (Aset h 23 13) (fun _ => Call (Aset h 8 15) (fun _ =>
  Rescue
    (CallBlock (Each_pair h)
      (fun y => match y with
                | Yield2 k v =>
                    Call (Delete h k) (fun _ => Call (Aset h (k + 44) v) (fun _ =>
                    CallBlock (Each_key h)
                      (fun _ => CallBlock (Delete_if h) (fun _ => Return (Truth true)) Return)
                      (fun _ => Call (Rehash h) Return)))
                | _ => Return Nothing
                end)
      Return)
    (fun e => Call (Size h) (fun a => Call (Aset h 12 7) (fun _ => Return a)))
    Return))))).

