(* ===== verification/HashWalk.v ===== *)
(** * Hashes: what loops visit and compute

    A loop over a Hash whose function leaves the chains of the table alone ends
    and sees every entry once ([call_visits]); from this, loops that only read,
    loops that delete, and iteration as blocks see it. *)

From stdpp Require Import base gmap.
From Stdlib Require Import ZArith Lia List Bool Permutation.
From S2P Require Import Prelude CInt StrSearch StTable HashTable Hash HashInv HashSafe.
Import ListNotations.
Local Open Scope Z_scope.
Local Open Scope hash_scope.

Section Walk.
Context {objects : Objects} {laws : ObjectLaws objects}.
Context {machine : Machine} {mlaws : MachineLaws machine}.

Notation good_table := (good Qundef).
Notation pairs := (pairs Qundef).
Notation live := (live (Some Qundef)).

(** ** Running operations *)

Lemma run_get {A} h (k : RHash -> M A) m o : hashes m !! h = Some o -> bindM (get h) k m = k o m.
Proof. intros H. unfold bindM, get. now rewrite H. Qed.

Lemma run_upd {A} h f (k : unit -> M A) m o :
  hashes m !! h = Some o -> bindM (upd h f) k m = k tt (put_hash h (f o) m).
Proof. intros H. unfold bindM, upd. now rewrite H. Qed.

Lemma run_tbl {A} h (k : positive -> M A) m o a :
  hashes m !! h = Some o -> tbl o = Some a -> bindM (tbl_of h) k m = k a m.
Proof. intros H Ha. unfold tbl_of, bindM, get. now rewrite H, Ha. Qed.

Lemma run_table {A} a (k : st_table -> M A) m t : tables m !! a = Some t -> bindM (table a) k m = k t m.
Proof. intros H. unfold bindM, table. now rewrite H. Qed.

Lemma run_set_table {A} a t' (k : unit -> M A) m t :
  tables m !! a = Some t -> bindM (set_table a t') k m = k tt (put_table a t' m).
Proof. intros H. unfold bindM, set_table. now rewrite H. Qed.

Lemma run_ret {A B} (x : A) (k : A -> M B) m : bindM (ret x) k m = k x m.
Proof. reflexivity. Qed.

Lemma run_lift {A B} (x : A) (k : A -> M B) m : bindM (lift (Ok x)) k m = k x m.
Proof. reflexivity. Qed.

Lemma run_assoc {A B C} (c : M A) (f : A -> M B) (g : B -> M C) m :
  bindM (bindM c f) g m = bindM c (fun x => bindM (f x) g) m.
Proof. unfold bindM. now destruct (c m). Qed.

Lemma run_lookup {A} a key (k : option Z -> M A) m t :
  good_mem m -> tables m !! a = Some t -> key <> Qundef ->
  bindM (Hash.st_lookup a key) k m = k (get_pair key (pairs t)) m.
Proof.
  intros G Ht Hk. unfold Hash.st_lookup. rewrite run_assoc, (run_table a _ m t Ht), run_ret.
  rewrite (st_lookup_pairs Qundef undef_alone); [reflexivity| |now apply valid_undef].
  now apply good_wf, (gm_table m G a).
Qed.

(** The end of a loop that deleted nothing. *)
Lemma ensure_back h o m :
  0 <= iter_lev o -> (iter_lev o = 0 -> HASH_DELETED o = false) ->
  hash_foreach_ensure h (put_hash h (add_iter_lev 1 o) m) = Val tt (put_hash h o m).
Proof.
  intros Hl Hd. assert (Hb : add_iter_lev (-1) (add_iter_lev 1 o) = o).
  { unfold add_iter_lev. destruct o; cbn. f_equal. lia. }
  assert (EH : forall o' m', hashes (put_hash h o' m') !! h = Some o') by (intros; cbn; apply lookup_insert_eq).
  unfold hash_foreach_ensure. rewrite (run_upd h _ _ _ _ (EH _ _)), Hb.
  assert (HM : put_hash h o (put_hash h (add_iter_lev 1 o) m) = put_hash h o m)
    by (unfold put_hash; cbn; now rewrite insert_insert_eq).
  rewrite HM, (run_get h _ _ _ (EH _ _)). destruct (Z.eqb_spec (iter_lev o) 0) as [E|E]; [|reflexivity].
  now rewrite (Hd E).
Qed.

(** ** Loops over chains that stay *)

Section Visits.
Context {St : Type} (h : positive) (func : Z -> Z -> St -> M (st_retval * St)) (a : positive).

(** The function of the loop for the entries at the given addresses, as they
    are when their turn comes. *)
Fixpoint visit_entries (l : list Z) (x : St) : M St :=
  match l with
  | [] => ret x
  | p :: l =>
      t <- table a ;;
      match deref t p with
      | None => crash
      | Some e =>
          '(r, x) <- hash_foreach_iter h func (e_key e) (e_record e) x ;;
          match r with
          | ST_STOP => ret x
          | _ => visit_entries l x
          end
      end
  end.

Context (P : memory -> Prop) (t0 : st_table).

(** [P] holds while the loop runs, and says that the chains stay. *)
Definition chains_stay : Prop :=
  (forall m, P m -> exists t, tables m !! a = Some t /\ shape t = shape t0) /\
  (forall m t e x, P m -> tables m !! a = Some t -> In e (all t) ->
    match hash_foreach_iter h func (e_key e) (e_record e) x m with
    | Val (r, _) m' => r <> ST_DELETE /\ P m'
    | _ => True
    end).

Definition in_loop (s : result St) (t : st_table) : Prop :=
  exists x m, s = Val x m /\ P m /\ tables m !! a = Some t.

Lemma foreach_keeps_chains :
  good_table t0 -> chains_stay ->
  keeps_chains (foreach_func h func a) in_loop (num_bins t0) (map addrs (bins t0)).
Proof.
  intros G (HS & HF). pose proof (good_wf _ t0 G) as W. destruct (wf_bins _ t0 W) as [Hp HL]. unfold keeps_chains. splits.
  - rewrite length_map. lia.
  - rewrite <- addrs_concat. apply (wf_addrs _ t0 W).
  - intros s t (x & m & -> & HP & Ht). destruct (HS m HP) as (t' & Ht' & HSh). rewrite Ht in Ht'.
    now injection Ht' as <-.
  - intros s t e (x & m & -> & HP & Ht) Hin. cbn [foreach_func]. specialize (HF m t e x HP Ht Hin).
    destruct (hash_foreach_iter h func (e_key e) (e_record e) x m) as [[r x'] m'|er m'| |]; auto.
    destruct HF as [Hr HP']. destruct (HS m' HP') as (t' & Ht' & _). rewrite Ht'.
    destruct r; auto; try (exists x', m'; auto).
Qed.

Lemma visit_is l x m t :
  chains_stay -> good_table t0 -> P m -> tables m !! a = Some t -> incl l (addrs (all t0)) ->
  exists b t', visit (foreach_func h func a) l (Val x m) t = Ok (b, visit_entries l x m, t').
Proof.
  intros HC G. revert x m t; induction l as [|p l IH]; intros x m t HP Ht HI; cbn [visit visit_entries].
  { now exists false, t. }
  pose proof HC as (HS & HF). destruct (HS m HP) as (t' & Ht' & HSh). rewrite Ht in Ht'. injection Ht' as <-.
  assert (Hp : In p (addrs (all t))) by (rewrite (shape_addrs t t0 HSh); apply HI; now left).
  apply in_map_iff in Hp as (e' & He' & Hin'). pose proof (deref_in t e' Hin') as HD. rewrite He' in HD.
  destruct (deref_some t p HD) as (e & E & Hin & _). unfold bindM at 1, table. rewrite Ht, E.
  specialize (HF m t e x HP Ht Hin). cbn [foreach_func]. unfold bindM at 1.
  destruct (hash_foreach_iter h func (e_key e) (e_record e) x m) as [[r x'] m'|er m'| |]; cbn [bind]; eauto.
  destruct HF as [Hr HP']. destruct (HS m' HP') as (t' & Ht' & _). rewrite Ht'. cbn [bind].
  destruct r; try congruence; try (exists true, t'; reflexivity); apply IH; auto; intros q Hq; apply HI; now right.
Qed.

Lemma call_visits fuel m o x :
  chains_stay -> good_table t0 -> P m -> hashes m !! h = Some o -> tbl o = Some a -> tables m !! a = Some t0 ->
  (fe_fuel t0 <= fuel)%nat ->
  hash_foreach_call fuel h func x m = visit_entries (addrs (all t0)) x m.
Proof.
  intros HC G HP Ho Ha Ht Hf. unfold hash_foreach_call, bindM at 1, tbl_of, bindM at 1, get. rewrite Ho, Ha.
  unfold ret at 1, bindM at 1, table. rewrite Ht. cbn beta iota.
  rewrite (st_foreach_visits (foreach_func h func a) in_loop (num_bins t0) (map addrs (bins t0))).
  - rewrite <- addrs_concat. destruct (visit_is (addrs (all t0)) x m t0 HC G HP Ht (incl_refl _)) as (b & t' & E).
    unfold all in E. rewrite E. reflexivity.
  - now apply foreach_keeps_chains.
  - exists x, m. auto.
  - unfold fe_fuel in Hf. rewrite <- addrs_concat. unfold addrs at 1. rewrite !length_map. exact Hf.
Qed.
End Visits.

(** ** Loops that only read *)

Section Pure.
Context {St : Type} (f : Z -> Z -> St -> st_retval * St).

(** What the loop computes from the pairs. *)
Fixpoint fold_pairs (l : list (Z * Z)) (x : St) : St :=
  match l with
  | [] => x
  | (k, v) :: l =>
      match f k v x with
      | (ST_STOP, x) => x
      | (_, x) => fold_pairs l x
      end
  end.

Lemma iter_pure h (func : Z -> Z -> St -> M (st_retval * St)) a m o k v x :
  hashes m !! h = Some o -> tbl o = Some a ->
  (k <> Qundef -> func k v x m = Val (f k v x) m /\ fst (f k v x) <> ST_DELETE) ->
  hash_foreach_iter h func k v x m =
    Val (if k =? Qundef then (ST_CONTINUE, x)
         else match f k v x with (ST_STOP, x) => (ST_STOP, x) | (_, x) => (ST_CHECK, x) end) m.
Proof.
  intros Ho Ha Hf. unfold hash_foreach_iter, bindM at 1, tbl_of, bindM at 1, get. rewrite Ho, Ha. unfold ret at 1.
  destruct (Z.eqb_spec k Qundef) as [->|Hk]; [reflexivity|]. destruct (Hf Hk) as [Hfm Hr].
  unfold bindM. rewrite Hfm. destruct (f k v x) as [[] y]; cbn [fst] in Hr; try contradiction;
    unfold tbl_of, get, bindM; rewrite Ho, Ha; unfold ret; rewrite Pos.eqb_refl; reflexivity.
Qed.

Lemma visit_pure h (func : Z -> Z -> St -> M (st_retval * St)) a m o t l x :
  good_table t -> hashes m !! h = Some o -> tbl o = Some a -> tables m !! a = Some t ->
  (forall k v x, In (k, v) (pairs t) -> func k v x m = Val (f k v x) m /\ fst (f k v x) <> ST_DELETE) ->
  incl l (all t) ->
  visit_entries h func a (addrs l) x m = Val (fold_pairs (map pair_of (filter live l)) x) m.
Proof.
  intros G Ho Ha Ht Hf. revert x; induction l as [|e l IH]; intros x HI; [reflexivity|].
  assert (Hin : In e (all t)) by (apply HI; now left). assert (HI' : incl l (all t)) by (intros q Hq; apply HI; now right).
  cbn [addrs map visit_entries]. unfold bindM at 1, table. rewrite Ht.
  destruct (deref_some t (e_addr e) (deref_in t e Hin)) as (e' & -> & Hin' & He').
  pose proof (NoDup_addr_inj _ e' e (proj1 (wf_addrs _ t (good_wf _ t G))) Hin' Hin He') as ->.
  unfold bindM at 1. rewrite (iter_pure h func a m o); auto.
  2:{ intros Hk. apply Hf. apply in_map_iff. exists e. split; [reflexivity|]. apply filter_In. split; auto.
      apply negb_true_iff, Z.eqb_neq. exact Hk. }
  cbn [filter]. change (live e) with (negb (e_key e =? Qundef)).
  destruct (e_key e =? Qundef); cbn [negb map fold_pairs]; [now apply IH|]. cbn [pair_of].
  destruct (f (e_key e) (e_record e) x) as [[] y]; try reflexivity; now apply IH.
Qed.

(** The whole loop; the memory is as it was. *)
Lemma foreach_pure h (func : Z -> Z -> St -> M (st_retval * St)) fuel m o a t x :
  good_mem m -> hashes m !! h = Some o -> tbl o = Some a -> tables m !! a = Some t ->
  (forall k v x, In (k, v) (pairs t) ->
    func k v x (put_hash h (add_iter_lev 1 o) m) = Val (f k v x) (put_hash h (add_iter_lev 1 o) m) /\
    fst (f k v x) <> ST_DELETE) ->
  (fe_fuel t <= fuel)%nat ->
  rb_hash_foreach fuel h func x m = Val (fold_pairs (pairs t) x) m.
Proof.
  intros G Ho Ha Ht Hf Hfu. set (o1 := add_iter_lev 1 o) in *. set (m1 := put_hash h o1 m) in *.
  pose proof (gm_table m G a t Ht) as Gt. assert (Ho1 : hashes m1 !! h = Some o1) by (cbn; apply lookup_insert_eq).
  unfold rb_hash_foreach, bindM at 1, upd. rewrite Ho. fold o1. change (mkMemory _ _ _) with m1.
  unfold rb_ensure. rewrite (call_visits h func a (fun m' => m' = m1) t fuel m1 o1); auto.
  - rewrite (visit_pure h func a m1 o1 t); auto using incl_refl. fold (pairs t).
    unfold bindM. pose proof (gm_hash m G h o Ho) as GH. unfold m1, o1.
    rewrite ensure_back by apply GH. unfold ret. now rewrite (put_hash_same m h o Ho).
  - split; [intros m' ->; eauto|]. intros m' t' e y -> Ht' Hin.
    assert (t' = t) as -> by (cbn in Ht'; congruence).
    rewrite (iter_pure h func a m1 o1 (e_key e) (e_record e) y Ho1 Ha).
    + destruct (e_key e =? Qundef); [split; [discriminate|reflexivity]|].
      destruct (f (e_key e) (e_record e) y) as [[] z]; split; try discriminate; reflexivity.
    + intros Hk. apply Hf. apply in_map_iff. exists e. split; [reflexivity|]. apply filter_In. split; auto.
      apply negb_true_iff, Z.eqb_neq. exact Hk.
Qed.
End Pure.
(** ** Loops that delete *)

(** No entry is the placeholder of a deleted one. *)
Definition unburied (t : st_table) : Prop := Forall (fun e => e_key e <> Qundef) (all t).

Section Sweep.
Context {St : Type} (h : positive) (func : Z -> Z -> St -> M (st_retval * St)) (sel : Z -> Z -> bool).
Context (a : positive) (m1 : memory) (o1 : RHash).

(** The memory while entries are buried. *)
Definition swept (d : bool) (t : st_table) : memory := put_hash h (set_deleted d o1) (put_table a t m1).

Lemma swept_hash d t : hashes (swept d t) !! h = Some (set_deleted d o1).
Proof. cbn. apply lookup_insert_eq. Qed.

Lemma swept_table d t : tables (swept d t) !! a = Some t.
Proof. cbn. apply lookup_insert_eq. Qed.

(** The function of the loop buries the selected entries, and changes nothing
    else. *)
Definition buries : Prop := forall d t k v x,
  good_table t -> In (k, v) (pairs t) ->
  hash_foreach_iter h func k v x (swept d t) =
    if sel k v then Val (ST_CHECK, x) (swept true (snd (st_delete_safe t k Qundef)))
    else Val (ST_CHECK, x) (swept d t).

Definition sweep (e : st_table_entry) : st_table_entry :=
  if live e && sel (e_key e) (e_record e) then bury Qundef e else e.

Hypothesis Ha : tbl o1 = Some a.

Lemma iter_undef k v x d t : k = Qundef ->
  hash_foreach_iter h func k v x (swept d t) = Val (ST_CONTINUE, x) (swept d t).
Proof.
  intros ->. unfold hash_foreach_iter, bindM at 1, tbl_of, bindM at 1, get. rewrite swept_hash.
  cbn [tbl set_deleted]. now rewrite Ha.
Qed.

Lemma addrs_inj A e B A' f B' :
  NoDup (addrs (A ++ e :: B)) -> A ++ e :: B = A' ++ f :: B' -> e_addr e = e_addr f ->
  A = A' /\ e = f /\ B = B'.
Proof.
  revert A'. induction A as [|x A IH]; intros [|y A'] HN E He; cbn [app] in *.
  - injection E as -> ->. auto.
  - exfalso. injection E as <- ->. inversion HN as [|? ? Hx _]; subst. apply Hx. rewrite He.
    apply in_map, in_app_iff. right. now left.
  - exfalso. injection E as -> <-. inversion HN as [|? ? Hx _]; subst. apply Hx. rewrite <- He.
    apply in_map, in_app_iff. right. now left.
  - injection E as -> E. inversion HN; subst. destruct (IH A') as (-> & -> & ->); auto.
Qed.

(** [st_delete_safe] of the key of an entry buries that entry. *)
Lemma delete_safe_at t pre e suf :
  good_table t -> all t = pre ++ e :: suf -> live e = true ->
  let t' := snd (st_delete_safe t (e_key e) Qundef) in
  good_table t' /\ all t' = pre ++ bury Qundef e :: suf /\ shape t' = shape t.
Proof.
  intros G HA Hl. pose proof (good_wf _ t G) as W. pose proof (proj1 (live_valid _ undef_alone e) Hl) as Vk.
  assert (HF : find (key_is (e_key e)) (all t) = Some e).
  { apply find_unique.
    - rewrite HA. apply in_middle. auto.
    - apply EQUAL_refl.
    - intros y Hy HE. symmetry. apply (wf_distinct _ t W); auto.
      + rewrite HA. apply in_middle. auto.
      + now apply (key_is_live _ undef_alone (e_key e)). }
  destruct (delete_safe_found Qundef undef_alone t (e_key e) e W Vk HF) as (t' & A & B & E & W' & HA1 & HA' & HE & _ & HN & HS).
  pose proof (good_delete_safe Qundef undef_alone t (e_key e) G Vk) as HG. rewrite E in *. cbn [snd] in *.
  destruct HG as (G' & _). splits; auto.
  destruct (addrs_inj A e B pre e suf) as (-> & _ & ->); auto; [|congruence].
  rewrite <- HA1. apply (wf_addrs _ t W).
Qed.

Lemma visit_sweep suf pre d t x :
  buries -> good_table t -> all t = pre ++ suf ->
  exists d' t', visit_entries h func a (addrs suf) x (swept d t) = Val x (swept d' t') /\
    good_table t' /\ all t' = pre ++ map sweep suf /\ shape t' = shape t /\
    (d' = false -> d = false /\ map sweep suf = suf).
Proof.
  intros HB. revert pre d t. induction suf as [|e suf IH]; intros pre d t G HA; [exists d, t; splits; auto|].
  cbn [addrs map visit_entries]. unfold bindM at 1, table. rewrite swept_table.
  assert (Hin : In e (all t)) by (rewrite HA; apply in_middle; auto).
  destruct (deref_some t (e_addr e) (deref_in t e Hin)) as (e' & -> & Hin' & He').
  pose proof (NoDup_addr_inj _ e' e (proj1 (wf_addrs _ t (good_wf _ t G))) Hin' Hin He') as ->.
  unfold bindM at 1. destruct (live e) eqn:Hl.
  - assert (Hp : In (e_key e, e_record e) (pairs t)).
    { apply in_map_iff. exists e. split; [reflexivity|]. apply filter_In. now split. }
    rewrite HB by auto. destruct (sel (e_key e) (e_record e)) eqn:Es.
    + destruct (delete_safe_at t pre e suf G HA Hl) as (G' & HA' & HS').
      destruct (IH (pre ++ [bury Qundef e]) true _ G') as (d' & t' & E & G2 & HA2 & HS2 & HD2).
      { rewrite HA', <- app_assoc. reflexivity. }
      exists d', t'. splits; auto; [|congruence|].
      * rewrite HA2, <- app_assoc. cbn [map]. unfold sweep at 2. rewrite Hl, Es. reflexivity.
      * intros ->. destruct (HD2 eq_refl) as [HD2' _]. discriminate HD2'.
    + destruct (IH (pre ++ [e]) d t G) as (d' & t' & E & G2 & HA2 & HS2 & HD2); [now rewrite HA, <- app_assoc|].
      exists d', t'. assert (HSw : sweep e = e) by (unfold sweep; now rewrite Hl, Es). splits; auto.
      * rewrite HA2, <- app_assoc. cbn [map]. now rewrite HSw.
      * intros HX. destruct (HD2 HX) as [-> HM]. cbn [map]. now rewrite HSw, HM.
  - rewrite iter_undef by (apply negb_false_iff, Z.eqb_eq in Hl; exact Hl).
    destruct (IH (pre ++ [e]) d t G) as (d' & t' & E & G2 & HA2 & HS2 & HD2); [now rewrite HA, <- app_assoc|].
    exists d', t'. assert (HSw : sweep e = e) by (unfold sweep; now rewrite Hl). splits; auto.
    + rewrite HA2, <- app_assoc. cbn [map]. now rewrite HSw.
    + intros HX. destruct (HD2 HX) as [-> HM]. cbn [map]. now rewrite HSw, HM.
Qed.

Lemma sweep_pairs l :
  map pair_of (filter live (map sweep l)) =
  filter (fun p => negb (sel (fst p) (snd p))) (map pair_of (filter live l)).
Proof.
  induction l as [|e l IH]; cbn [map filter]; auto.
  replace (sweep e) with (if live e && sel (e_key e) (e_record e) then bury Qundef e else e) by reflexivity.
  destruct (live e) eqn:Hl; cbn [andb map filter].
  - cbn [pair_of fst snd]. destruct (sel (e_key e) (e_record e)); cbn [negb].
    + change (live (bury Qundef e)) with (negb (Qundef =? Qundef)). rewrite Z.eqb_refl. exact IH.
    + rewrite Hl. cbn [map]. now rewrite IH.
  - rewrite Hl. exact IH.
Qed.
End Sweep.

Lemma put_table_same m a t : tables m !! a = Some t -> put_table a t m = m.
Proof. intros H. destruct m. unfold put_table. cbn in *. now rewrite insert_id. Qed.

Lemma put_hash_put h o o' m : put_hash h o (put_hash h o' m) = put_hash h o m.
Proof. unfold put_hash. cbn. now rewrite insert_insert_eq. Qed.

Lemma put_table_put a t t' m : put_table a t (put_table a t' m) = put_table a t m.
Proof. unfold put_table. cbn. now rewrite insert_insert_eq. Qed.

(** The end of a loop that buried entries. *)
Lemma ensure_swept h m o a d t :
  hashes m !! h = Some o -> tbl o = Some a -> good_table t ->
  exists d' t', hash_foreach_ensure h (swept h a m (add_iter_lev 1 o) d t) =
      Val tt (put_hash h (set_deleted d' o) (put_table a t' m)) /\
    good_table t' /\ pairs t' = pairs t /\ (iter_lev o = 0 -> d' = false) /\
    (iter_lev o = 0 -> (d = false -> unburied t) -> unburied t').
Proof.
  intros Ho Ha G. set (o2 := set_deleted d o).
  assert (Hback : add_iter_lev (-1) (set_deleted d (add_iter_lev 1 o)) = o2).
  { unfold o2, add_iter_lev, set_deleted. destruct o; cbn. f_equal. lia. }
  unfold hash_foreach_ensure. rewrite (run_upd h _ _ _ _ (swept_hash h a m _ d t)), Hback. unfold swept.
  rewrite put_hash_put. set (m2 := put_hash h o2 (put_table a t m)).
  assert (EH : hashes m2 !! h = Some o2) by (cbn; apply lookup_insert_eq).
  assert (ET : tables m2 !! a = Some t) by (cbn; apply lookup_insert_eq).
  rewrite (run_get h _ m2 o2 EH). change (iter_lev o2) with (iter_lev o). change (HASH_DELETED o2) with d.
  destruct (Z.eqb_spec (iter_lev o) 0) as [E0|E0]; [|exists d, t; splits; auto; contradiction].
  destruct d; [|exists false, t; splits; auto].
  destruct (good_cleanup Qundef undef_alone t G) as (t3 & E3 & G3 & HP3 & HC3).
  rewrite (run_tbl h _ m2 o2 a EH Ha), (run_table a _ m2 t ET), E3, run_lift, (run_set_table a t3 _ m2 t ET).
  unfold upd. cbn [hashes put_table]. rewrite EH. exists false, t3. splits; auto.
  2:{ intros _ _. eapply Forall_impl; [|exact HC3]. intros e He. now apply negb_true_iff, Z.eqb_neq in He. }
  f_equal. unfold m2, put_hash, put_table. cbn. now rewrite !insert_insert_eq.
Qed.

(** The whole loop. *)
Lemma foreach_sweep {St} h (func : Z -> Z -> St -> M (st_retval * St)) sel m o a t x :
  good_mem m -> hashes m !! h = Some o -> tbl o = Some a -> tables m !! a = Some t ->
  buries h func sel a m (add_iter_lev 1 o) ->
  exists d t', (forall fuel, (fe_fuel t <= fuel)%nat ->
      rb_hash_foreach fuel h func x m = Val x (put_hash h (set_deleted d o) (put_table a t' m))) /\
    good_table t' /\ pairs t' = filter (fun p => negb (sel (fst p) (snd p))) (pairs t) /\
    (iter_lev o = 0 -> d = false) /\ (iter_lev o = 0 -> unburied t -> unburied t').
Proof.
  intros G Ho Ha Ht HB. pose proof (gm_table m G a t Ht) as Gt. set (o1 := add_iter_lev 1 o) in *.
  assert (Ha1 : tbl o1 = Some a) by exact Ha.
  pose proof (put_table_same m a t Ht) as HT.
  assert (Hstart : put_hash h o1 m = swept h a m o1 (HASH_DELETED o) t).
  { unfold swept. now rewrite HT. }
  destruct (visit_sweep h func sel a m o1 Ha1 (all t) [] (HASH_DELETED o) t x HB Gt eq_refl) as (d & t2 & EV & G2 & HA2 & _ & HD2).
  cbn [app] in HA2. assert (HP2 : pairs t2 = filter (fun p => negb (sel (fst p) (snd p))) (pairs t)).
  { unfold pairs, HashTable.pairs. rewrite HA2. apply sweep_pairs. }
  assert (EC : forall fuel, (fe_fuel t <= fuel)%nat ->
    hash_foreach_call fuel h func x (put_hash h o1 m) = Val x (swept h a m o1 d t2)).
  { intros fuel Hf. rewrite Hstart, (call_visits h func a
      (fun m' => exists d' t', m' = swept h a m o1 d' t' /\ good_table t' /\ shape t' = shape t) t fuel _ (set_deleted (HASH_DELETED o) o1)); auto.
    - split.
      + intros m' (d' & t' & -> & G' & HS'). exists t'. split; [apply swept_table|exact HS'].
      + intros m' t' e y (d' & t'' & -> & G' & HS') Ht' Hin. rewrite swept_table in Ht'. injection Ht' as ->.
        destruct (Z.eqb_spec (e_key e) Qundef) as [HK|HK].
        { rewrite iter_undef by auto. split; [discriminate|]. exists d', t'. auto. }
        assert (Hl : live e = true) by (apply negb_true_iff, Z.eqb_neq; exact HK).
        rewrite HB; auto.
        2:{ apply in_map_iff. exists e. split; [reflexivity|]. apply filter_In. now split. }
        destruct (sel (e_key e) (e_record e)); (split; [discriminate|]); [|exists d', t'; auto].
        apply in_split in Hin as (pre & suf & HA). destruct (delete_safe_at t' pre e suf G' HA Hl) as (G3 & _ & HS3).
        eexists true, _. splits; [reflexivity|exact G3|congruence].
    - exists (HASH_DELETED o), t. auto.
    - apply swept_hash.
    - apply swept_table. }
  destruct (ensure_swept h m o a d t2 Ho Ha G2) as (d3 & t3 & EE & G3 & HP3 & Hd3 & HC3).
  exists d3, t3. splits; auto; [|congruence|].
  2:{ intros E0 HC. apply (HC3 E0). intros Ed. destruct (HD2 Ed) as [_ HM]. unfold unburied. now rewrite HA2, HM. }
  intros fuel Hf.
  unfold rb_hash_foreach. rewrite (run_upd h _ _ m o Ho). fold o1. unfold rb_ensure. rewrite (EC fuel Hf).
  unfold bindM. unfold o1. now rewrite EE.
Qed.

(** ** Methods with a loop *)

(** A Hash and its table. *)
Record owns (m : memory) (h : positive) (o : RHash) (a : positive) (t : st_table) : Prop := mkOwns {
  ow_hash : hashes m !! h = Some o;
  ow_tbl : tbl o = Some a;
  ow_table : tables m !! a = Some t
}.

(** [rb_hash_modify] lets the Hash be changed. *)
Definition modifiable (o : RHash) : Prop :=
  frozen o = false /\ negb (tainted o) && (4 <=? safe_level) = false.

Lemma run_modify {A} h (k : unit -> M A) m o a :
  hashes m !! h = Some o -> tbl o = Some a -> modifiable o -> bindM (rb_hash_modify h) k m = k tt m.
Proof.
  intros H Ha [Hf Hs]. unfold rb_hash_modify. rewrite run_assoc, (run_get h _ m o H), Ha, Hf, Hs. reflexivity.
Qed.

Lemma in_get_pair k v l : In (k, v) l -> get_pair k l <> None.
Proof.
  intros H. unfold get_pair. destruct (find _ l) eqn:E; [discriminate|].
  pose proof (find_none _ _ E _ H) as HX. cbn [fst] in HX. rewrite EQUAL_refl in HX. discriminate.
Qed.

Lemma pairs_delete_safe t k v :
  good_table t -> In (k, v) (pairs t) -> exists k' v', st_delete_safe t k Qundef = (Some (k', v'), snd (st_delete_safe t k Qundef)).
Proof.
  intros G Hin. destruct (pairs_valid Qundef t k v G Hin) as [Hk _].
  pose proof (good_delete_safe Qundef undef_alone t k G (valid_undef k Hk)) as HD.
  destruct (st_delete_safe t k Qundef) as [[[k' v']|] t']; [now exists k', v'|].
  destruct HD as [_ HN]. now apply in_get_pair in Hin.
Qed.

(** [rb_hash_delete] while a loop runs. *)
Lemma delete_swept block h a m1 o1 d t k v :
  tbl o1 = Some a -> 0 < iter_lev o1 -> modifiable o1 -> good_table t -> In (k, v) (pairs t) ->
  exists v', rb_hash_delete block h k (swept h a m1 o1 d t) =
    Val v' (swept h a m1 o1 true (snd (st_delete_safe t k Qundef))).
Proof.
  intros Ha Hl HM G Hin. set (m := swept h a m1 o1 d t). set (o := set_deleted d o1).
  assert (Ho : hashes m !! h = Some o) by apply swept_hash. assert (Ht : tables m !! a = Some t) by apply swept_table.
  unfold rb_hash_delete. rewrite (run_modify h _ m o a Ho Ha HM), (run_get h _ m o Ho), (run_tbl h _ m o a Ho Ha),
    (run_table a _ m t Ht). cbv zeta. change (iter_lev o) with (iter_lev o1).
  rewrite (proj2 (Z.ltb_lt _ _) Hl). destruct (pairs_delete_safe t k v G Hin) as (k' & v' & E).
  set (t' := snd (st_delete_safe t k Qundef)) in *. rewrite E. rewrite (run_set_table a t' _ m t Ht).
  erewrite run_upd; [|exact Ho]. exists v'. unfold ret. f_equal. unfold m, swept, put_hash, put_table. cbn.
  rewrite !insert_insert_eq. reflexivity.
Qed.

Section Filter.
Context (block : yielded -> M Z) (w : Z -> Z -> Z).
Context (block_pure : forall k v m, block (Yield2 k v) m = Val (w k v) m).

Lemma delete_if_buries h a m o :
  tbl o = Some a -> 0 < iter_lev o -> modifiable o ->
  buries h (delete_if_i block h) (fun k v => RTEST (w k v)) a m o.
Proof.
  intros Ha Hl HM d t k v [] G Hin. destruct (pairs_valid Qundef t k v G Hin) as [Hk _].
  apply Z.eqb_neq in Hk. unfold hash_foreach_iter. rewrite (run_tbl h _ _ _ a (swept_hash h a m o d t) Ha), Hk.
  unfold delete_if_i. rewrite Hk. unfold bindM at 1. unfold bindM at 1. rewrite block_pure.
  destruct (RTEST (w k v)).
  - destruct (delete_swept (Some block) h a m o d t k v Ha Hl HM G Hin) as (v' & E). unfold bindM at 1. rewrite E.
    unfold ret at 1. rewrite (run_tbl h _ _ _ a (swept_hash h a m o true _) Ha), Pos.eqb_refl. reflexivity.
  - unfold bindM at 1, ret at 1 2. rewrite (run_tbl h _ _ _ a (swept_hash h a m o d t) Ha), Pos.eqb_refl. reflexivity.
Qed.

Lemma modifiable_level o d : modifiable o -> modifiable (add_iter_lev d o).
Proof. intros H. exact H. Qed.

Lemma delete_if_filters h m o a t :
  good_mem m -> owns m h o a t -> modifiable o ->
  exists d t', (forall fuel, (fe_fuel t <= fuel)%nat ->
      rb_hash_delete_if fuel block h m = Val h (put_hash h (set_deleted d o) (put_table a t' m))) /\
    good_table t' /\ pairs t' = filter (fun p => negb (RTEST (w (fst p) (snd p)))) (pairs t) /\
    (iter_lev o = 0 -> d = false) /\ (iter_lev o = 0 -> unburied t -> unburied t').
Proof.
  intros G [Ho Ha Ht] HM. pose proof (gh_lev _ _ _ (gm_hash m G h o Ho)) as Hl.
  destruct (foreach_sweep h (delete_if_i block h) (fun k v => RTEST (w k v)) m o a t tt G Ho Ha Ht)
    as (d & t' & E & G' & HP & Hd & HU).
  { apply delete_if_buries; auto. cbn. lia. }
  exists d, t'. splits; auto. intros fuel Hf. unfold rb_hash_delete_if. rewrite (run_modify h _ m o a Ho Ha HM).
  unfold bindM. now rewrite E.
Qed.
End Filter.

Lemma clear_buries h a m o :
  tbl o = Some a -> buries h clear_i (fun _ _ => true) a m o.
Proof.
  intros Ha d t k v [] G Hin. destruct (pairs_valid Qundef t k v G Hin) as [Hk _]. apply Z.eqb_neq in Hk.
  unfold hash_foreach_iter. rewrite (run_tbl h _ _ _ a (swept_hash h a m o d t) Ha), Hk. unfold clear_i. rewrite run_ret.
  rewrite (run_tbl h _ _ _ a (swept_hash h a m o d t) Ha), Pos.eqb_refl. cbn [negb].
  rewrite (run_table a _ _ t (swept_table h a m o d t)), (run_set_table a _ _ _ t (swept_table h a m o d t)).
  erewrite run_upd; [|apply swept_hash]. unfold ret. f_equal. unfold swept, put_hash, put_table. cbn.
  now rewrite !insert_insert_eq.
Qed.

Lemma filter_none {A} (l : list A) : filter (fun _ => false) l = [].
Proof. induction l; auto. Qed.

(** [clear] empties the table. *)
Lemma clear_empties h m o a t :
  good_mem m -> owns m h o a t -> modifiable o ->
  exists d t', (forall fuel, (fe_fuel t <= fuel)%nat ->
      rb_hash_clear fuel h m = Val h (put_hash h (set_deleted d o) (put_table a t' m))) /\
    good_table t' /\ pairs t' = [] /\ (iter_lev o = 0 -> d = false).
Proof.
  intros G [Ho Ha Ht] HM. pose proof (gm_table m G a t Ht) as Gt.
  assert (HR : forall fuel, rb_hash_clear fuel h m =
    ((if 0 <? num_entries t then rb_hash_foreach fuel h clear_i tt else ret tt) ;;; ret h) m).
  { intros fuel. unfold rb_hash_clear.
    now rewrite (run_modify h _ m o a Ho Ha HM), (run_tbl h _ m o a Ho Ha), (run_table a _ m t Ht). }
  destruct (Z.ltb_spec 0 (num_entries t)) as [Hn|Hn].
  - destruct (foreach_sweep h clear_i (fun _ _ => true) m o a t tt G Ho Ha Ht) as (d & t' & E & G' & HP & Hd & _).
    { now apply clear_buries. }
    exists d, t'. rewrite filter_none in HP. splits; auto. intros fuel Hf. rewrite HR. unfold bindM. now rewrite E.
  - exists (HASH_DELETED o), t. pose proof (pairs_count Qundef t (good_wf _ t Gt)) as HC. splits; auto.
    + intros fuel _. rewrite HR, (put_table_same m a t Ht), put_hash_same; [reflexivity|]. rewrite Ho. now destruct o.
    + destruct (pairs t); [reflexivity|]. cbn in HC. lia.
    + apply (gh_deleted _ _ _ (gm_hash m G h o Ho)).
Qed.

(** *** Loops that collect *)

Lemma fold_append {B} (g : Z -> Z -> list B) (l : list (Z * Z)) acc :
  fold_pairs (fun k v acc => (ST_CONTINUE, acc ++ g k v)) l acc = acc ++ flat_map (fun p => g (fst p) (snd p)) l.
Proof.
  revert acc; induction l as [|[k v] l IH]; intros acc; cbn [fold_pairs flat_map fst snd].
  - now rewrite app_nil_r.
  - now rewrite IH, app_assoc.
Qed.

(** The loop of a method that reads, on any pair of the table. *)
Lemma reads {St} (f : Z -> Z -> St -> st_retval * St) h (func : Z -> Z -> St -> M (st_retval * St)) fuel m o a t x :
  good_mem m -> owns m h o a t -> (fe_fuel t <= fuel)%nat ->
  (forall k v x m', k <> Qundef -> tables m' = tables m ->
    func k v x m' = Val (f k v x) m' /\ fst (f k v x) <> ST_DELETE) ->
  rb_hash_foreach fuel h func x m = Val (fold_pairs f (pairs t) x) m.
Proof.
  intros G [Ho Ha Ht] Hf HF. apply (foreach_pure f h func fuel m o a t); auto.
  intros k v y Hin. apply HF; [|reflexivity]. now apply (pairs_valid Qundef t k v (gm_table m G a t Ht)).
Qed.

Ltac skip_undef_in :=
  match goal with H : ?k <> Qundef |- context [?k =? Qundef] => rewrite (proj2 (Z.eqb_neq k Qundef) H) end.

Lemma to_a_reads fuel h m o a t :
  good_mem m -> owns m h o a t -> (fe_fuel t <= fuel)%nat -> rb_hash_to_a fuel h m = Val (pairs t) m.
Proof.
  intros G HO Hf. unfold rb_hash_to_a.
  rewrite (reads (fun k v acc => (ST_CONTINUE, acc ++ [(k, v)])) h to_a_i fuel m o a t [] G HO Hf).
  - rewrite (fold_append (fun k v => [(k, v)])). cbn [app]. f_equal. induction (pairs t) as [|[k v] l IH]; cbn; congruence.
  - intros k v x m' Hk _. unfold to_a_i. skip_undef_in. split; [reflexivity|discriminate].
Qed.

Lemma keys_reads fuel h m o a t :
  good_mem m -> owns m h o a t -> (fe_fuel t <= fuel)%nat -> rb_hash_keys fuel h m = Val (map fst (pairs t)) m.
Proof.
  intros G HO Hf. unfold rb_hash_keys.
  rewrite (reads (fun k v acc => (ST_CONTINUE, acc ++ [k])) h keys_i fuel m o a t [] G HO Hf).
  - now rewrite (fold_append (fun k v => [k])).
  - intros k v x m' Hk _. unfold keys_i. skip_undef_in. split; [reflexivity|discriminate].
Qed.

Lemma values_reads fuel h m o a t :
  good_mem m -> owns m h o a t -> (fe_fuel t <= fuel)%nat -> rb_hash_values fuel h m = Val (map snd (pairs t)) m.
Proof.
  intros G HO Hf. unfold rb_hash_values.
  rewrite (reads (fun k v acc => (ST_CONTINUE, acc ++ [v])) h values_i fuel m o a t [] G HO Hf).
  - now rewrite (fold_append (fun k v => [v])).
  - intros k v x m' Hk _. unfold values_i. skip_undef_in. split; [reflexivity|discriminate].
Qed.

Lemma fold_search {B} (p : Z -> Z -> bool) (g : Z -> Z -> B) l x :
  fold_pairs (fun k v x => if p k v then (ST_STOP, g k v) else (ST_CONTINUE, x)) l x =
  match find (fun q => p (fst q) (snd q)) l with Some (k, v) => g k v | None => x end.
Proof. induction l as [|[k v] l IH]; cbn [fold_pairs find fst snd]; auto. now destruct (p k v). Qed.

Lemma index_reads fuel h v0 m o a t :
  good_mem m -> owns m h o a t -> (fe_fuel t <= fuel)%nat ->
  rb_hash_index fuel h v0 m =
    Val (match find (fun q => rb_equal (snd q) v0) (pairs t) with Some (k, _) => k | None => Qnil end) m.
Proof.
  intros G HO Hf. unfold rb_hash_index.
  rewrite (reads (fun k v x => if rb_equal v v0 then (ST_STOP, k) else (ST_CONTINUE, x)) h (index_i v0) fuel m o a t Qnil G HO Hf).
  - now rewrite (fold_search (fun _ v => rb_equal v v0) (fun k _ => k)).
  - intros k v x m' Hk _. unfold index_i. destruct (rb_equal v v0); split; (reflexivity || discriminate).
Qed.

Lemma has_value_reads fuel h v0 m o a t :
  good_mem m -> owns m h o a t -> (fe_fuel t <= fuel)%nat ->
  rb_hash_has_value fuel h v0 m = Val (existsb (fun q => rb_equal (snd q) v0) (pairs t)) m.
Proof.
  intros G HO Hf. unfold rb_hash_has_value.
  rewrite (reads (fun k v x => if rb_equal v v0 then (ST_STOP, true) else (ST_CONTINUE, x)) h (rb_hash_search_value v0) fuel m o a t false G HO Hf).
  - rewrite (fold_search (fun _ v => rb_equal v v0) (fun _ _ => true)). f_equal.
    induction (pairs t) as [|[k v] l IH]; cbn [find existsb fst snd]; auto. now destruct (rb_equal v v0).
  - intros k v x m' Hk _. unfold rb_hash_search_value. skip_undef_in. destruct (rb_equal v v0); split; (reflexivity || discriminate).
Qed.

(** Every pair of the first table is in the second. *)
Definition included (l1 l2 : list (Z * Z)) : bool :=
  forallb (fun p => match get_pair (fst p) l2 with Some v => rb_equal (snd p) v | None => false end) l1.

Lemma equal_reads fuel h1 h2 m o1 a1 t1 o2 a2 t2 eql :
  good_mem m -> h1 <> h2 -> owns m h1 o1 a1 t1 -> owns m h2 o2 a2 t2 -> (fe_fuel t1 <= fuel)%nat ->
  hash_equal fuel h1 h2 eql m =
    Val ((Z.of_nat (length (pairs t1)) =? Z.of_nat (length (pairs t2))) &&
         (negb eql || (rb_equal (ifnone o1) (ifnone o2) && Bool.eqb (HASH_PROC_DEFAULT o1) (HASH_PROC_DEFAULT o2))) &&
         included (pairs t1) (pairs t2)) m.
Proof.
  intros G Hne HO1 HO2 Hf. pose proof HO1 as [Ho1 Ha1 Ht1]. pose proof HO2 as [Ho2 Ha2 Ht2].
  unfold hash_equal. rewrite (proj2 (Pos.eqb_neq h1 h2) Hne). unfold rb_hash_size.
  rewrite run_assoc, (run_tbl h1 _ m o1 a1 Ho1 Ha1), run_assoc, (run_table a1 _ m t1 Ht1), run_ret.
  rewrite run_assoc, (run_tbl h2 _ m o2 a2 Ho2 Ha2), run_assoc, (run_table a2 _ m t2 Ht2), run_ret.
  rewrite (pairs_count Qundef t1 (good_wf _ t1 (gm_table m G a1 t1 Ht1))), (pairs_count Qundef t2 (good_wf _ t2 (gm_table m G a2 t2 Ht2))).
  destruct (_ =? _); cbn [negb andb]; [|reflexivity].
  rewrite (run_get h1 _ m o1 Ho1), (run_get h2 _ m o2 Ho2).
  destruct eql; cbn [andb negb orb]; [destruct (rb_equal _ _ && _); cbn [negb andb]; [|reflexivity]|];
    rewrite (run_tbl h2 _ m o2 a2 Ho2 Ha2);
    rewrite (reads (fun k v x => if negb (match get_pair k (pairs t2) with Some v2 => rb_equal v v2 | None => false end)
      then (ST_STOP, false) else (ST_CONTINUE, x)) h1 (equal_i a2) fuel m o1 a1 t1 true G HO1 Hf).
  1, 3: f_equal; rewrite (fold_search (fun k v => negb (match get_pair k (pairs t2) with Some v2 => rb_equal v v2 | None => false end)) (fun _ _ => false));
    unfold included; induction (pairs t1) as [|[k v] l IH]; cbn [find forallb fst snd]; auto;
    destruct (match get_pair k (pairs t2) with Some _ => _ | None => _ end); auto.
  all: intros k v x m' Hk HT; unfold equal_i; skip_undef_in; unfold Hash.st_lookup; rewrite run_assoc;
    rewrite (run_table a2 _ m' t2) by congruence; rewrite run_ret;
    rewrite (st_lookup_pairs Qundef undef_alone) by (auto using valid_undef; now apply good_wf, (gm_table m G a2));
    destruct (get_pair k (pairs t2)) as [v2|]; [destruct (rb_equal v v2)|]; split; (reflexivity || discriminate).
Qed.

(** ** Iteration as blocks see it *)

(** The block for the entries at the given addresses, in this order, each with
    the key and value it has when its turn comes; entries deleted by then are
    left out. *)
Fixpoint yield_entries (block : yielded -> M Z) (a : positive) (l : list Z) : M unit :=
  match l with
  | [] => ret tt
  | p :: l =>
      t <- table a ;;
      match deref t p with
      | None => crash
      | Some e =>
          (if e_key e =? Qundef then ret Qnil else block (Yield2 (e_key e) (e_record e))) ;;;
          yield_entries block a l
      end
  end.

Section Each.
Context (block : yielded -> M Z) (h a : positive) (t0 : st_table) (P : memory -> Prop).

(** While [P] holds, the Hash keeps its table and the table its chains; blocks
    that neither store new keys nor rehash keep it. *)
Definition undisturbed : Prop :=
  (forall m, P m -> exists o t, owns m h o a t /\ shape t = shape t0) /\
  (forall k v m, P m -> match block (Yield2 k v) m with Val _ m' => P m' | _ => True end).

Lemma each_pair_iter k v m :
  undisturbed -> P m ->
  match (if k =? Qundef then ret Qnil else block (Yield2 k v)) m with
  | Val _ m' => P m' /\ exists r, r <> ST_DELETE /\ r <> ST_STOP /\
      hash_foreach_iter h (each_pair_i block) k v tt m = Val (r, tt) m'
  | Exn e m' => hash_foreach_iter h (each_pair_i block) k v tt m = Exn e m'
  | Crash => hash_foreach_iter h (each_pair_i block) k v tt m = Crash
  | Timeout => hash_foreach_iter h (each_pair_i block) k v tt m = Timeout
  end.
Proof.
  intros (HS & HB) HP. destruct (HS m HP) as (o & t & [Ho Ha Ht] & _).
  unfold hash_foreach_iter. rewrite (run_tbl h _ m o a Ho Ha). unfold each_pair_i. destruct (k =? Qundef).
  - split; [exact HP|]. exists ST_CONTINUE. splits; try discriminate. reflexivity.
  - specialize (HB k v m HP). destruct (block (Yield2 k v) m) as [b m'|e m'| |] eqn:E;
      try (unfold bindM; now rewrite E).
    split; [exact HB|]. destruct (HS m' HB) as (o' & t' & [Ho' Ha' _] & _). exists ST_CHECK. splits; try discriminate.
    rewrite run_assoc. unfold bindM at 1. rewrite E, run_ret, (run_tbl h _ m' o' a Ho' Ha'), Pos.eqb_refl. reflexivity.
Qed.

Lemma each_pair_chains : undisturbed -> chains_stay h (each_pair_i block) a P t0.
Proof.
  intros HU. pose proof HU as (HS & HB). split.
  - intros m HP. destruct (HS m HP) as (o & t & [_ _ Ht] & HSh). eauto.
  - intros m t e [] HP Ht Hin. pose proof (each_pair_iter (e_key e) (e_record e) m HU HP) as HI.
    destruct ((if e_key e =? Qundef then ret Qnil else block (Yield2 (e_key e) (e_record e))) m) as [b m'|er m'| |].
    + destruct HI as (HP' & r & H1 & H2 & ->). auto.
    + now rewrite HI.
    + now rewrite HI.
    + now rewrite HI.
Qed.

Lemma visit_yields l m : undisturbed -> P m ->
  visit_entries h (each_pair_i block) a l tt m = yield_entries block a l m.
Proof.
  intros HU. pose proof HU as (HS & HB). revert m; induction l as [|p l IH]; intros m HP; [reflexivity|].
  cbn [visit_entries yield_entries]. destruct (HS m HP) as (o & t & [Ho Ha Ht] & _).
  rewrite !(run_table a _ m t Ht). destruct (deref t p) as [e|]; [|reflexivity].
  pose proof (each_pair_iter (e_key e) (e_record e) m HU HP) as HI. unfold bindM.
  destruct ((if e_key e =? Qundef then ret Qnil else block (Yield2 (e_key e) (e_record e))) m) as [b m'|er m'| |].
  - destruct HI as (HP' & r & H1 & H2 & ->). destruct r; try contradiction; now apply IH.
  - now rewrite HI.
  - now rewrite HI.
  - now rewrite HI.
Qed.

Lemma each_pair_yields fuel m o :
  good_mem m -> owns m h o a t0 -> (fe_fuel t0 <= fuel)%nat -> undisturbed ->
  P (put_hash h (add_iter_lev 1 o) m) ->
  rb_hash_each_pair fuel block h m =
    (upd h (add_iter_lev 1) ;;; rb_ensure (yield_entries block a (addrs (all t0))) (hash_foreach_ensure h) ;;; ret h) m.
Proof.
  intros G [Ho Ha Ht] Hf HU HP. unfold rb_hash_each_pair, rb_hash_foreach.
  rewrite run_assoc, !(run_upd h _ _ m o Ho). unfold bindM at 1 2, rb_ensure.
  rewrite (call_visits h (each_pair_i block) a P t0 fuel _ (add_iter_lev 1 o)); auto.
  - now rewrite visit_yields.
  - now apply each_pair_chains.
  - now apply (gm_table m G a).
  - cbn. apply lookup_insert_eq.
Qed.
End Each.

(** Deleting inside a loop is such a block. *)
Lemma delete_undisturbed h a m1 o1 k d t :
  tbl o1 = Some a -> 0 < iter_lev o1 -> modifiable o1 -> good_table t -> k <> Qundef ->
  exists v d' t', rb_hash_delete None h k (swept h a m1 o1 d t) = Val v (swept h a m1 o1 d' t') /\
    good_table t' /\ shape t' = shape t.
Proof.
  intros Ha Hl HM G Hk. set (m := swept h a m1 o1 d t). set (o := set_deleted d o1).
  assert (Ho : hashes m !! h = Some o) by apply swept_hash. assert (Ht : tables m !! a = Some t) by apply swept_table.
  unfold rb_hash_delete. rewrite (run_modify h _ m o a Ho Ha HM), (run_get h _ m o Ho), (run_tbl h _ m o a Ho Ha),
    (run_table a _ m t Ht). cbv zeta. change (iter_lev o) with (iter_lev o1).
  rewrite (proj2 (Z.ltb_lt _ _) Hl). pose proof (good_delete_safe Qundef undef_alone t k G (valid_undef k Hk)) as HD.
  destruct (st_delete_safe t k Qundef) as [[[k' v]|] t'].
  - destruct HD as (G' & _ & _ & _ & HS). exists v, true, t'. splits; auto.
    rewrite (run_set_table a t' _ m t Ht). erewrite run_upd; [|exact Ho].
    unfold ret. f_equal. unfold m, swept, put_hash, put_table. cbn. now rewrite !insert_insert_eq.
  - destruct HD as [-> _]. exists Qnil, d, t. splits; auto.
Qed.

Lemma swept_owns m h o a t d t' :
  owns m h o a t -> shape t' = shape t ->
  exists o' u, owns (swept h a m (add_iter_lev 1 o) d t') h o' a u /\ shape u = shape t.
Proof.
  intros [Ho Ha Ht] HS. exists (set_deleted d (add_iter_lev 1 o)), t'. split; [|exact HS].
  split; [apply swept_hash|exact Ha|apply swept_table].
Qed.

(** A block that deletes a key leaves the loop undisturbed. *)
Lemma delete_block_undisturbed h m o a t k :
  owns m h o a t -> 0 <= iter_lev o -> modifiable o -> k <> Qundef ->
  undisturbed (fun _ => rb_hash_delete None h k) h a t
    (fun m' => exists d t', m' = swept h a m (add_iter_lev 1 o) d t' /\ good_table t' /\ shape t' = shape t).
Proof.
  intros Own Hl HM Hk. pose proof Own as [Ho Ha Ht]. split.
  - intros m' (d & t' & -> & G & HS). now apply (swept_owns m h o a t).
  - intros k' v' m' (d & t' & -> & G & HS).
    destruct (delete_undisturbed h a m (add_iter_lev 1 o) k d t' Ha ltac:(cbn; lia) HM G Hk) as (v & d' & u & E & G' & HS').
    rewrite E. exists d', u. splits; auto. congruence.
Qed.

Lemma swept_begin m h o a t :
  owns m h o a t ->
  put_hash h (add_iter_lev 1 o) m = swept h a m (add_iter_lev 1 o) (HASH_DELETED o) t.
Proof.
  intros [Ho Ha Ht]. unfold swept. rewrite (put_table_same m a t Ht). now destruct o.
Qed.
End Walk.

(** *** Properties *)

(** C8: [each_pair] ends whenever its blocks do, and its block sees every entry
    of the table once, in the order of the chains, with the key and value the
    entry has when its turn comes, entries deleted by then left out: for every
    block that keeps the table and its chains, one that reads, changes values
    and deletes keys. *)
Theorem each_pair_sees_all {objects : Objects} {laws : ObjectLaws objects}
    {machine : Machine} {mlaws : MachineLaws machine} block h a t0 P fuel m o :
  good_mem m -> owns m h o a t0 -> (fe_fuel t0 <= fuel)%nat ->
  undisturbed block h a t0 P -> P (put_hash h (add_iter_lev 1 o) m) ->
  NoDup (addrs (all t0)) /\
  rb_hash_each_pair fuel block h m =
    (upd h (add_iter_lev 1) ;;; rb_ensure (yield_entries block a (addrs (all t0))) (hash_foreach_ensure h) ;;; ret h) m.
Proof.
  intros G Own Hf HU HP. split; [|now apply (each_pair_yields block h a t0 P fuel m o)].
  destruct Own as [_ _ Ht]. exact (proj1 (wf_addrs _ t0 (good_wf _ t0 (gm_table m G a t0 Ht)))).
Qed.

(** C9: [delete_if] with a block that has no effects ends, and leaves exactly the
    pairs for which the block is false, in their order, in a memory whose
    invariant holds; when no other loop runs over the Hash and no entry of its
    table was buried before, the buried entries are swept out in the end, and
    the flag that asks for it is cleared. *)
Theorem delete_if_keeps_rest {objects : Objects} {laws : ObjectLaws objects}
    {machine : Machine} {mlaws : MachineLaws machine} block w h m o a t :
  (forall k v m', block (Yield2 k v) m' = Val (w k v) m') ->
  good_mem m -> owns m h o a t -> modifiable o ->
  exists d t', (forall fuel, (fe_fuel t <= fuel)%nat ->
      rb_hash_delete_if fuel block h m = Val h (put_hash h (set_deleted d o) (put_table a t' m))) /\
    pairs Qundef t' = filter (fun p => negb (RTEST (w (fst p) (snd p)))) (pairs Qundef t) /\
    good_mem (put_hash h (set_deleted d o) (put_table a t' m)) /\
    (iter_lev o = 0 -> d = false) /\ (iter_lev o = 0 -> unburied t -> unburied t').
Proof.
  intros Hb G Own HM. destruct (delete_if_filters block w Hb h m o a t G Own HM) as (d & t' & E & G' & HP & Hd & HU).
  exists d, t'. splits; auto. destruct Own as [Ho Ha Ht].
  pose proof (set_table_spec (fun _ => True) m a t t' G Ht G') as HS. unfold spec, set_table in HS.
  rewrite Ht in HS. destruct HS as (G1 & _). pose proof (gm_hash m G h o Ho) as GH.
  apply (put_hash_good _ h o); auto; apply GH.
Qed.

(** A Hash with the keys 1, 12 and 23; 1 and 12 share a bin. *)
Definition sample_hash : prog :=
  Call New (fun a => with_object a (fun h =>
  Call (Aset h 1 11) (fun _ => Call (Aset h 23 13) (fun _ => Call (Aset h 8 15) (fun _ => Return Nothing))))).

Definition sample_memory : memory :=
  match @run sample_objects sample_machine 100 (fun _ _ _ => Return Nothing) 1 sample_hash empty_memory with
  | Val _ m => m
  | _ => empty_memory
  end.

Lemma sample_memory_good : @good_mem sample_objects sample_memory.
Proof.
  pose proof (@run_safe sample_objects sample_object_laws sample_machine sample_machine_laws 100
    (fun _ _ _ => Return Nothing) 1 sample_hash empty_memory empty_good) as H.
  unfold spec, sample_memory in *.
  destruct (@run sample_objects sample_machine 100 (fun _ _ _ => Return Nothing) 1 sample_hash empty_memory) as [v m| | |];
    try apply empty_good. apply H.
Qed.

Definition sample_object : RHash := default (mkHash None 0 Qnil false false false false) (hashes sample_memory !! 1%positive).
Definition sample_table : st_table := default (mkTable 0 0 [] 0) (tables sample_memory !! 1%positive).

Lemma sample_owns : owns sample_memory 1 sample_object 1 sample_table.
Proof. split; vm_compute; reflexivity. Qed.

Lemma each_pair_sees_all_witness :
  let block := fun _ : yielded => @rb_hash_delete sample_objects sample_machine None 1 23 in
  NoDup (addrs (all sample_table)) /\ length (all sample_table) = 3%nat /\
  @rb_hash_each_pair sample_objects 100 block 1 sample_memory =
    (upd 1 (add_iter_lev 1) ;;; rb_ensure (yield_entries block 1 (addrs (all sample_table))) (hash_foreach_ensure 1) ;;; ret 1%positive)
      sample_memory.
Proof.
  intros block. pose proof sample_owns as Own.
  destruct (@each_pair_sees_all sample_objects sample_object_laws sample_machine sample_machine_laws block 1 1 sample_table
    (fun m' => exists d t', m' = swept 1 1 sample_memory (add_iter_lev 1 sample_object) d t' /\
      @good (@objhash_type sample_objects) Qundef t' /\ shape t' = shape sample_table) 100 sample_memory sample_object) as [HN HE].
  - exact sample_memory_good.
  - exact Own.
  - apply Nat.leb_le. vm_compute. reflexivity.
  - apply (delete_block_undisturbed 1 sample_memory sample_object 1 sample_table 23 Own).
    + vm_compute. discriminate.
    + split; vm_compute; reflexivity.
    + discriminate.
  - rewrite (swept_begin sample_memory 1 sample_object 1 sample_table Own).
    exists (HASH_DELETED sample_object), sample_table. splits; auto.
    exact (gm_table sample_memory sample_memory_good 1 sample_table (ow_table _ _ _ _ _ Own)).
  - splits; auto.
Defined.

Lemma delete_if_keeps_rest_witness :
  let w := fun k _ : Z => if k =? 23 then Qtrue else Qnil in
  let block := fun y => ret (match y with Yield2 k v => w k v | _ => Qnil end) in
  exists m', @rb_hash_delete_if sample_objects sample_machine 100 block 1 sample_memory = Val 1%positive m' /\
    option_map (pairs Qundef) (tables m' !! 1%positive) = Some [(12, 15); (1, 11)] /\ @good_mem sample_objects m' /\
    exists t', tables m' !! 1%positive = Some t' /\ unburied t'.
Proof.
  intros w block. pose proof sample_owns as [Ho Ha Ht].
  destruct (@delete_if_keeps_rest sample_objects sample_object_laws sample_machine sample_machine_laws block w 1 sample_memory
    sample_object 1 sample_table) as (d & t' & HE & HP & HG & _ & HU).
  - reflexivity.
  - exact sample_memory_good.
  - exact sample_owns.
  - split; vm_compute; reflexivity.
  - eexists. splits; [apply HE; apply Nat.leb_le; vm_compute; reflexivity| |exact HG|].
    + cbn. rewrite lookup_insert_eq. cbn. rewrite HP. vm_compute. reflexivity.
    + exists t'. split; [cbn; apply lookup_insert_eq|]. apply HU; [vm_compute; reflexivity|].
      unfold unburied. vm_compute. repeat constructor; discriminate.
Defined.
