(* ===== verification/HashMap.v ===== *)
(** * Hashes as maps

    The abstract Hash is a list of pairs with distinct keys whose order does not
    count.  Any sequence of the methods that do not call blocks does on the
    tables what it does on these lists: lookups with defaults, stores with the
    frozen copies of string keys, deletions, [clear], [replace], [dup],
    [update], [merge], [rehash], comparisons. *)

From stdpp Require Import base gmap.
From Stdlib Require Import ZArith Lia List Bool Permutation.
From S2P Require Import Prelude CInt StrSearch StTable HashTable Hash HashInv HashSafe HashWalk.
Import ListNotations.
Local Open Scope Z_scope.
Local Open Scope hash_scope.

(** ** The abstract Hashes *)

Record ahash := mkAhash {
  a_pairs : list (Z * Z);
  a_ifnone : Z;
  a_frozen : bool;
  a_tainted : bool
}.

Record amemory := mkAmemory { a_hashes : gmap positive ahash; a_next : positive }.

Section Abstract.
Context {objects : Objects} {machine : Machine}.

(** The key that is stored. *)
Definition kept (k : Z) : Z := if is_string k then rb_str_new4 k else k.

Definition with_pairs (l : list (Z * Z)) (x : ahash) : ahash :=
  mkAhash l (a_ifnone x) (a_frozen x) (a_tainted x).

Definition a_put (h : positive) (x : ahash) (am : amemory) : amemory :=
  mkAmemory (<[h := x]> (a_hashes am)) (a_next am).

Definition a_new (x : ahash) (am : amemory) : positive * amemory :=
  (a_next am, mkAmemory (<[a_next am := x]> (a_hashes am)) (Pos.succ (a_next am))).

(** The exception of a change that is not allowed. *)
Definition refused (x : ahash) : option rb_error :=
  if a_frozen x then Some TypeError else
  if negb (a_tainted x) && (4 <=? safe_level) then Some SecurityError else None.

(** All pairs of [l2] stored in [l1]. *)
Definition store_all (l2 l1 : list (Z * Z)) : list (Z * Z) :=
  fold_left (fun l p => store_pair (fst p) (kept (fst p)) (snd p) l) l2 l1.

Definition a_size (x : ahash) : Z := Z.of_nat (length (a_pairs x)).

Definition a_equal (x y : ahash) (eql : bool) : bool :=
  (a_size x =? a_size y) && (negb eql || rb_equal (a_ifnone x) (a_ifnone y)) && included (a_pairs x) (a_pairs y).

Abbreviation outcome_of := ((answer * amemory) + rb_error)%type.

(** A method that changes [x]. *)
Definition changing (x : ahash) (r : outcome_of) : outcome_of :=
  match refused x with Some e => inr e | None => r end.

Definition a_receiver (h : positive) (am : amemory) (f : ahash -> outcome_of) : outcome_of :=
  match a_hashes am !! h with Some x => f x | None => inr TypeError end.

Definition a_dup (x : ahash) (am : amemory) : outcome_of :=
  let d := mkAhash (store_all (a_pairs x) []) (a_ifnone x) false (a_tainted x) in
  changing d (let (h, am') := a_new d am in inl (Object h, am')).

Definition a_update (h : positive) (x y : ahash) (am : amemory) : outcome_of :=
  match a_pairs y with
  | [] => inl (Object h, am)
  | l => changing x (inl (Object h, a_put h (with_pairs (store_all l (a_pairs x)) x) am))
  end.

(** The methods on abstract Hashes. *)
Definition a_perform (c : call) (am : amemory) : outcome_of :=
  match c with
  | New => let (h, am') := a_new (mkAhash [] Qnil false false) am in inl (Object h, am')
  | Aref h k => a_receiver h am (fun x =>
      inl (Word (match get_pair (word k) (a_pairs x) with Some v => v | None => a_ifnone x end), am))
  | Fetch h k d => a_receiver h am (fun x =>
      match get_pair (word k) (a_pairs x), d with
      | Some v, _ => inl (Word v, am)
      | None, Some v => inl (Word v, am)
      | None, None => inr IndexError
      end)
  | Aset h k v => a_receiver h am (fun x => changing x
      (inl (Word (word v), a_put h (with_pairs (store_pair (word k) (kept (word k)) (word v) (a_pairs x)) x) am)))
  | Has_key h k => a_receiver h am (fun x =>
      inl (Truth (match get_pair (word k) (a_pairs x) with Some _ => true | None => false end), am))
  | Size h => a_receiver h am (fun x => inl (Word (a_size x), am))
  | Is_empty h => a_receiver h am (fun x => inl (Truth (a_size x =? 0), am))
  | Delete h k => a_receiver h am (fun x => changing x
      (inl (Word (match get_pair (word k) (a_pairs x) with Some v => v | None => Qnil end),
            a_put h (with_pairs (del_pair (word k) (a_pairs x)) x) am)))
  | Clear h => a_receiver h am (fun x => changing x (inl (Object h, a_put h (with_pairs [] x) am)))
  | Replace h h2 => a_receiver h am (fun x => a_receiver h2 am (fun y =>
      if (h =? h2)%positive then inl (Object h, am) else changing x
      (inl (Object h, a_put h (mkAhash (store_all (a_pairs y) []) (a_ifnone y) (a_frozen x) (a_tainted x)) am))))
  | Dup h => a_receiver h am (fun x => a_dup x am)
  | Update h h2 => a_receiver h am (fun x => a_receiver h2 am (fun y => a_update h x y am))
  | Rehash h => a_receiver h am (fun x => changing x (inl (Object h, am)))
  | Equals h h2 eql => a_receiver h am (fun x => a_receiver h2 am (fun y =>
      inl (Truth ((h =? h2)%positive || a_equal x y eql), am)))
  | Freeze h => a_receiver h am (fun x =>
      if a_frozen x then inl (Object h, am) else
      if (4 <=? safe_level) && negb (a_tainted x) then inr SecurityError else
      inl (Object h, a_put h (mkAhash (a_pairs x) (a_ifnone x) true (a_tainted x)) am))
  | Default h k => a_receiver h am (fun x => inl (Word (a_ifnone x), am))
  | Set_default h v => a_receiver h am (fun x => changing x
      (inl (Word (word v), a_put h (mkAhash (a_pairs x) (word v) (a_frozen x) (a_tainted x)) am)))
  | _ => inr RuntimeError
  end.

(** The methods of the abstract machine; a Hash is not updated with itself. *)
Definition is_map_call (c : call) : bool :=
  match c with
  | New | Aref _ _ | Fetch _ _ _ | Aset _ _ _ | Has_key _ _ | Size _ | Is_empty _ | Delete _ _ | Clear _
  | Replace _ _ | Dup _ | Rehash _ | Equals _ _ _ | Freeze _ | Default _ _ | Set_default _ _ => true
  | Update h h2 => negb (h =? h2)%positive
  | _ => false
  end.

(** Programs that call only these. *)
Inductive map_prog : prog -> Prop :=
  | map_return a : map_prog (Return a)
  | map_throw e : map_prog (Throw e)
  | map_call c k : is_map_call c = true -> (forall a, map_prog (k a)) -> map_prog (Call c k).

Fixpoint a_exec (p : prog) (am : amemory) : outcome_of :=
  match p with
  | Return a => inl (a, am)
  | Throw e => inr e
  | Call c k => match a_perform c am with inl (a, am') => a_exec (k a) am' | inr e => inr e end
  | CallBlock _ _ _ | Rescue _ _ _ => inr RuntimeError
  end.
End Abstract.

(** ** Storing pairs *)

Section Stores.
Context {objects : Objects} {laws : ObjectLaws objects}.

Lemma kept_equal k : EQUAL k (kept k) = true.
Proof. unfold kept. destruct (is_string k) eqn:E; [now apply new4_equal|apply EQUAL_refl]. Qed.

Lemma kept_valid k : k <> Qundef -> kept k <> Qundef.
Proof. unfold kept. destruct (is_string k) eqn:E; [intros _; now apply new4_not_undef|auto]. Qed.

Lemma EQUAL_trans_false j k k' : EQUAL k k' = true -> EQUAL j k' = EQUAL j k.
Proof. intros H. apply EQUAL_proper; [reflexivity|]. change (same_key k' k). now symmetry. Qed.

Lemma get_set j k v l :
  get_pair j (set_pair k v l) =
  if EQUAL j k then match get_pair k l with Some _ => Some v | None => get_pair j l end else get_pair j l.
Proof.
  induction l as [|[k0 v0] l IH]; cbn [set_pair]; [now destruct (EQUAL j k)|].
  rewrite !(get_pair_cons k), !(get_pair_cons j). cbn [fst snd]. destruct (EQUAL k k0) eqn:E0.
  - rewrite get_pair_cons. cbn [fst snd]. rewrite (EQUAL_trans_false j k k0 E0). now destruct (EQUAL j k).
  - rewrite get_pair_cons. cbn [fst snd]. rewrite IH. destruct (EQUAL j k) eqn:E; auto.
    replace (EQUAL j k0) with false; [reflexivity|]. rewrite <- E0. symmetry. apply EQUAL_proper; [exact E|reflexivity].
Qed.

Lemma get_store j k k' v l :
  EQUAL k k' = true -> get_pair j (store_pair k k' v l) = if EQUAL j k then Some v else get_pair j l.
Proof.
  intros HE. unfold store_pair. destruct (get_pair k l) as [u|] eqn:EG.
  - rewrite get_set, EG. now destruct (EQUAL j k).
  - rewrite get_pair_cons. cbn [fst snd]. now rewrite (EQUAL_trans_false j k k' HE).
Qed.

Lemma set_distinct k v l : keys_distinct l -> keys_distinct (set_pair k v l).
Proof.
  induction 1 as [|k0 v0 l HG HD IH]; cbn [set_pair fst]; [constructor|].
  destruct (EQUAL k k0) eqn:E; constructor; auto. rewrite get_set, HG. destruct (EQUAL k0 k) eqn:E'; auto.
  rewrite EQUAL_sym in E'. congruence.
Qed.

Lemma store_distinct k k' v l : EQUAL k k' = true -> keys_distinct l -> keys_distinct (store_pair k k' v l).
Proof.
  intros HE HD. unfold store_pair. destruct (get_pair k l) eqn:EG; [now apply set_distinct|].
  constructor; auto. rewrite <- EG. symmetry. now apply get_pair_equal.
Qed.

Lemma del_distinct k l : keys_distinct l -> keys_distinct (del_pair k l).
Proof.
  induction 1 as [|k0 v0 l HG HD IH]; cbn [del_pair fst]; [constructor|].
  destruct (EQUAL k k0); auto. constructor; auto.
  assert (HX : forall j m, get_pair j m = None -> get_pair j (del_pair k m) = None).
  { intros j m. induction m as [|[k1 v1] m IHm]; cbn [del_pair]; auto. rewrite get_pair_cons. cbn [fst snd].
    destruct (EQUAL j k1) eqn:E1; [discriminate|]. intros H. destruct (EQUAL k k1); auto.
    rewrite get_pair_cons. cbn [fst snd]. rewrite E1. auto. }
  auto.
Qed.

Lemma set_set k1 v1 k2 v2 l :
  EQUAL k1 k2 = false -> set_pair k1 v1 (set_pair k2 v2 l) = set_pair k2 v2 (set_pair k1 v1 l).
Proof.
  intros HN. induction l as [|[k v] l IH]; cbn [set_pair fst]; auto.
  destruct (EQUAL k2 k) eqn:E2, (EQUAL k1 k) eqn:E1; cbn [set_pair fst]; rewrite ?E1, ?E2; auto; [|now rewrite IH].
  exfalso. assert (same_key k1 k2) as H by (transitivity k; [exact E1|now symmetry]). unfold same_key in H. congruence.
Qed.

Lemma store_store k1 k1' v1 k2 k2' v2 l :
  EQUAL k1 k1' = true -> EQUAL k2 k2' = true -> EQUAL k1 k2 = false ->
  Permutation (store_pair k1 k1' v1 (store_pair k2 k2' v2 l)) (store_pair k2 k2' v2 (store_pair k1 k1' v1 l)).
Proof.
  intros H1 H2 HN. assert (HN' : EQUAL k2 k1 = false) by (now rewrite EQUAL_sym).
  unfold store_pair at 1 3. rewrite !get_store, HN, HN' by assumption. unfold store_pair.
  destruct (get_pair k1 l) as [u1|] eqn:E1, (get_pair k2 l) as [u2|] eqn:E2.
  - now rewrite set_set.
  - cbn [set_pair fst]. now rewrite (EQUAL_trans_false k1 k2 k2' H2), HN.
  - cbn [set_pair fst]. now rewrite (EQUAL_trans_false k2 k1 k1' H1), HN'.
  - apply perm_swap.
Qed.

Lemma store_all_distinct l2 l1 : keys_distinct l1 -> keys_distinct (store_all l2 l1).
Proof.
  unfold store_all. revert l1; induction l2 as [|p l2 IH]; intros l1 HD; cbn [fold_left]; auto.
  apply IH, store_distinct; auto. apply kept_equal.
Qed.

Lemma store_all_into l2 l1 m1 :
  keys_distinct l1 -> Permutation l1 m1 -> Permutation (store_all l2 l1) (store_all l2 m1).
Proof.
  unfold store_all. revert l1 m1; induction l2 as [|p l2 IH]; intros l1 m1 HD HP; cbn [fold_left]; auto.
  apply IH; [apply store_distinct; auto; apply kept_equal|now apply store_pair_permutation].
Qed.

(** The order in which different keys are stored does not count. *)
Lemma store_all_permutation l2 m2 l1 :
  keys_distinct l2 -> keys_distinct l1 -> Permutation l2 m2 -> Permutation (store_all l2 l1) (store_all m2 l1).
Proof.
  intros HD2 HD1 HP. revert l1 HD2 HD1.
  induction HP as [|[k v] l m HP IH|[k1 v1] [k2 v2] l|l m n H1 IH1 H2 IH2]; intros l1 HD2 HD1.
  - reflexivity.
  - inversion HD2; subst. cbn [store_all fold_left]. apply IH; auto. apply store_distinct; auto. apply kept_equal.
  - inversion HD2 as [|? ? ? HG HD']; subst. rewrite get_pair_cons in HG. cbn [fst snd] in HG.
    destruct (EQUAL k2 k1) eqn:E; [discriminate|]. change (Permutation (store_all l (store_pair k1 (kept k1) v1 (store_pair k2 (kept k2) v2 l1)))
      (store_all l (store_pair k2 (kept k2) v2 (store_pair k1 (kept k1) v1 l1)))).
    apply store_all_into; [repeat (apply store_distinct; [apply kept_equal|]); exact HD1|].
    apply store_store; [apply kept_equal..|]. now rewrite EQUAL_sym.
  - etransitivity; [now apply IH1|]. apply IH2; auto. now apply (keys_distinct_permutation l).
Qed.
End Stores.

(** ** Results with enough fuel *)

Section Concrete.
Context {objects : Objects} {laws : ObjectLaws objects}.
Context {machine : Machine} {mlaws : MachineLaws machine}.

Notation good_table := (good Qundef).
Notation pairs := (pairs Qundef).

(** What is known of a result: the memory that runs out of room is not
    followed further. *)
Definition post {A} (r : result A) (Q : A -> memory -> Prop) (X : rb_error -> Prop) : Prop :=
  match r with
  | Val a m' => Q a m'
  | Exn e m' => e = NoMemoryError \/ X e
  | Crash | Timeout => False
  end.

(** From some fuel on the result is the same. *)
Definition total {A} (m : memory) (c : nat -> M A) (Q : A -> memory -> Prop) (X : rb_error -> Prop) : Prop :=
  exists n r, (forall fuel, (n <= fuel)%nat -> c fuel m = r) /\ post r Q X.

Lemma total_const {A} m (c : M A) Q X : post (c m) Q X -> total m (fun _ => c) Q X.
Proof. intros H. exists 0%nat, (c m). auto. Qed.

Lemma total_ret {A} m (a : A) (Q : A -> memory -> Prop) X : Q a m -> total m (fun _ => ret a) Q X.
Proof. intros H. apply total_const. exact H. Qed.

Lemma total_bind {A B} m (c : nat -> M A) (k : nat -> A -> M B) Q R X :
  total m c Q X -> (forall a m', Q a m' -> total m' (fun fuel => k fuel a) R X) ->
  total m (fun fuel => bindM (c fuel) (k fuel)) R X.
Proof.
  intros (n & r & Hc & HP) HK. destruct r as [a m'|e m'| |]; cbn in HP; try contradiction.
  - destruct (HK a m' HP) as (n' & r & Hk & HR). exists (Nat.max n n'), r. split; [|exact HR].
    intros fuel Hf. unfold bindM. rewrite Hc by lia. apply Hk. lia.
  - exists n, (Exn e m'). split; [|exact HP]. intros fuel Hf. unfold bindM. now rewrite Hc.
Qed.

Lemma total_weaken {A} m (c : nat -> M A) (Q R : A -> memory -> Prop) (X Y : rb_error -> Prop) :
  total m c Q X -> (forall a m', Q a m' -> R a m') -> (forall e, X e -> Y e) -> total m c R Y.
Proof.
  intros (n & r & Hc & HP) HQ HX. exists n, r. split; [exact Hc|].
  destruct r; cbn in *; auto. destruct HP; auto.
Qed.

Lemma total_eq {A} m (c d : nat -> M A) Q X : (forall fuel, c fuel m = d fuel m) -> total m d Q X -> total m c Q X.
Proof. intros HE (n & r & Hc & HP). exists n, r. split; [|exact HP]. intros fuel Hf. rewrite HE. auto. Qed.

(** The value of a call that is known. *)
Lemma total_run {A B} m (c : nat -> M A) (k : nat -> A -> M B) a m' n Q X :
  (forall fuel, (n <= fuel)%nat -> c fuel m = Val a m') -> total m' (fun fuel => k fuel a) Q X ->
  total m (fun fuel => bindM (c fuel) (k fuel)) Q X.
Proof.
  intros HC HK. apply (total_bind m c k (fun a0 m0 => a0 = a /\ m0 = m')).
  - exists n, (Val a m'). split; [exact HC|]. cbn. auto.
  - now intros a0 m0 [-> ->].
Qed.

(** ** Stores *)

Abbreviation no_memory := (fun e => e = NoMemoryError).

Lemma put_table_lookup a t m : tables (put_table a t m) !! a = Some t.
Proof. cbn. apply lookup_insert_eq. Qed.

Lemma spec_post {A} b m (c : M A) Q X :
  spec no_memory b m c Q -> post (c m) (fun a m' => good_mem m' /\ Q a m') X \/ c m = Timeout.
Proof.
  unfold spec, post. destruct (c m) as [a m'|e m'| |]; auto.
  - intros (G & _ & HQ). auto.
  - intros (-> & _). auto.
Qed.

Lemma add_direct_done m a t k v : tables m !! a = Some t -> Hash.st_add_direct a k v m <> Timeout.
Proof.
  intros Ht. unfold Hash.st_add_direct. rewrite (run_table a _ m t Ht). destruct (entry_room t).
  - unfold bindM, lift. destruct (StTable.st_add_direct t k v); try discriminate. unfold ret, set_table. rewrite Ht. discriminate.
  - unfold bindM, lift. destruct (if _ <? _ then _ else _); try discriminate. unfold ret, set_table. rewrite Ht. discriminate.
Qed.

Lemma insert_done m a t k v : tables m !! a = Some t -> Hash.st_insert a k v m <> Timeout.
Proof.
  intros Ht. unfold Hash.st_insert. rewrite (run_table a _ m t Ht).
  destruct (find_entry t (do_hash k) k); [|now apply (add_direct_done m a t)].
  unfold bindM, lift. destruct (StTable.st_insert t k v) as [[b t']| | |]; try discriminate.
  unfold ret, set_table. rewrite Ht. discriminate.
Qed.

(** A change of the table at [a]. *)
Lemma table_post {A} m a l (c : M unit) (v : A) :
  spec no_memory true m c (fun _ m' => exists t', m' = put_table a t' m /\ Permutation (pairs t') l) -> c m <> Timeout ->
  post ((c ;;; ret v) m) (fun r m' => r = v /\ exists t', m' = put_table a t' m /\ good_table t' /\ Permutation (pairs t') l)
    (fun _ => False).
Proof.
  intros HC HT. unfold spec, post, bindM, ret in *. destruct (c m) as [u m'|e m'| |]; auto.
  - destruct HC as (G' & _ & t' & Hm' & HP). split; auto. exists t'. splits; auto.
    apply (gm_table m' G' a). rewrite Hm'. apply put_table_lookup.
  - destruct HC as (-> & _). auto.
Qed.

Lemma aset_run m h o a t k v :
  good_mem m -> owns m h o a t -> modifiable o -> k <> Qundef -> v <> Qundef ->
  post (rb_hash_aset h k v m)
    (fun r m' => r = v /\ exists t', m' = put_table a t' m /\ good_table t' /\
      Permutation (pairs t') (store_pair k (kept k) v (pairs t)))
    (fun _ => False).
Proof.
  intros G [Ho Ha Ht] HM Hk Hv. unfold rb_hash_aset. rewrite (run_modify h _ m o a Ho Ha HM), (run_tbl h _ m o a Ho Ha).
  pose proof (insert_done m a t k v Ht) as HT. pose proof (add_direct_done m a t (rb_str_new4 k) v Ht) as HT1.
  unfold kept in *. destruct (is_string k) eqn:Es.
  - rewrite run_assoc, (run_lookup a k _ m t G Ht Hk), run_ret. destruct (get_pair k (pairs t)) as [u|] eqn:EG.
    + apply table_post; auto. unfold store_pair. rewrite EG.
      pose proof (st_insert_spec' no_memory m a t k v eq_refl G Ht Hk Hv) as HS. unfold store_pair in HS.
      now rewrite EG in HS.
    + apply table_post; auto. unfold store_pair. rewrite EG. apply st_add_direct_spec; auto.
      * now apply new4_not_undef.
      * rewrite <- EG. symmetry. apply get_pair_equal. now apply new4_equal.
  - rewrite run_ret. apply table_post; auto. now apply st_insert_spec'.
Qed.

(** ** Loops that store the pairs of one table in another *)

Section StoreLoop.
Context (h : positive) (func : Z -> Z -> unit -> M (st_retval * unit)) (a : positive) (t : st_table).
Context (b : positive) (m1 : memory) (o1 : RHash).
Context (kp : Z -> Z).

Hypothesis kp_equal : forall k, EQUAL k (kp k) = true.
Hypothesis Hab : a <> b.
Hypothesis Gt : good_table t.
Hypothesis Own : owns m1 h o1 a t.
Hypothesis Hb : is_Some (tables m1 !! b).
Hypothesis Hfunc : forall k v t', In (k, v) (pairs t) -> good_table t' ->
  post (func k v tt (put_table b t' m1))
    (fun r m' => r = (ST_CONTINUE, tt) /\ exists t'', m' = put_table b t'' m1 /\ good_table t'' /\
      Permutation (pairs t'') (store_pair k (kp k) v (pairs t')))
    (fun _ => False).

Definition stored (l2 l1 : list (Z * Z)) : list (Z * Z) :=
  fold_left (fun l p => store_pair (fst p) (kp (fst p)) (snd p) l) l2 l1.

Definition during (m : memory) : Prop := exists t', m = put_table b t' m1 /\ good_table t'.

Lemma during_owns m : during m -> owns m h o1 a t.
Proof.
  intros (t' & -> & _). destruct Own as [Ho Ha Ht]. split; auto. cbn. now rewrite lookup_insert_ne by congruence.
Qed.

Lemma store_iter k v m : (k <> Qundef -> In (k, v) (pairs t)) -> during m ->
  post (hash_foreach_iter h func k v tt m)
    (fun r m' => fst r <> ST_DELETE /\ fst r <> ST_STOP /\ during m')
    (fun _ => False).
Proof.
  intros Hin HD. destruct (during_owns m HD) as [Ho Ha Ht]. unfold hash_foreach_iter. rewrite (run_tbl h _ m o1 a Ho Ha).
  destruct (Z.eqb_spec k Qundef) as [->|Hk]; [cbn; splits; auto; discriminate|].
  destruct HD as (t' & -> & G'). pose proof (Hfunc k v t' (Hin Hk) G') as HF. unfold bindM at 1.
  destruct (func k v tt (put_table b t' m1)) as [r m'|e m'| |]; cbn in HF; try contradiction; [|cbn; auto].
  destruct HF as (-> & t'' & -> & G2 & HP).
  assert (HD2 : during (put_table b t'' m1)) by (exists t''; auto).
  destruct (during_owns _ HD2) as [Ho2 Ha2 _]. rewrite (run_tbl h _ _ o1 a Ho2 Ha2), Pos.eqb_refl. cbn.
  splits; auto; discriminate.
Qed.

Lemma live_in_pairs e : In e (all t) -> e_key e <> Qundef -> In (e_key e, e_record e) (pairs t).
Proof.
  intros Hin Hk. apply in_map_iff. exists e. split; [reflexivity|]. apply filter_In. split; auto.
  apply negb_true_iff, Z.eqb_neq. exact Hk.
Qed.

Lemma store_chains : chains_stay h func a during t.
Proof.
  split.
  - intros m HD. exists t. split; [now apply (during_owns m)|reflexivity].
  - intros m t' e [] HD Ht' Hin. destruct (during_owns m HD) as [Ho Ha Ht]. assert (t' = t) as -> by congruence.
    pose proof (store_iter (e_key e) (e_record e) m (live_in_pairs e Hin) HD) as HI. unfold post in HI.
    destruct (hash_foreach_iter h func (e_key e) (e_record e) tt m) as [[r []] m'|er m'| |]; auto. cbn in HI. tauto.
Qed.

Lemma visit_stores l t' :
  incl l (all t) -> good_table t' -> keys_distinct (pairs t') ->
  post (visit_entries h func a (addrs l) tt (put_table b t' m1))
    (fun _ m' => exists t'', m' = put_table b t'' m1 /\ good_table t'' /\
      Permutation (pairs t'') (stored (map pair_of (filter (live (Some Qundef)) l)) (pairs t')))
    (fun _ => False).
Proof.
  revert t'; induction l as [|e l IH]; intros t' HI G' HDi; [cbn; eauto|].
  assert (Hin : In e (all t)) by (apply HI; now left). assert (HI' : incl l (all t)) by (intros q Hq; apply HI; now right).
  assert (HD : during (put_table b t' m1)) by (exists t'; auto). destruct (during_owns _ HD) as [Ho Ha Ht].
  cbn [addrs map visit_entries filter]. rewrite (run_table a _ _ t Ht).
  destruct (deref_some t (e_addr e) (deref_in t e Hin)) as (e' & -> & Hin' & He').
  pose proof (NoDup_addr_inj _ e' e (proj1 (wf_addrs _ t (good_wf _ t Gt))) Hin' Hin He') as ->.
  unfold hash_foreach_iter. rewrite run_assoc, (run_tbl h _ _ o1 a Ho Ha).
  change (live (Some Qundef) e) with (negb (e_key e =? Qundef)).
  destruct (Z.eqb_spec (e_key e) Qundef) as [HK|HK]; cbn [negb map]; [rewrite run_ret; now apply IH|].
  rewrite run_assoc. pose proof (Hfunc (e_key e) (e_record e) t' (live_in_pairs e Hin HK) G') as HF.
  unfold bindM at 1. destruct (func (e_key e) (e_record e) tt (put_table b t' m1)) as [r m'|er m'| |]; cbn in HF; try contradiction; [|cbn; auto].
  destruct HF as (-> & t'' & -> & G2 & HP).
  assert (HD2 : during (put_table b t'' m1)) by (exists t''; auto). destruct (during_owns _ HD2) as [Ho2 Ha2 _].
  rewrite run_assoc, (run_tbl h _ _ o1 a Ho2 Ha2), Pos.eqb_refl. cbn [negb]. rewrite run_ret.
  assert (HDs : keys_distinct (store_pair (e_key e) (kp (e_key e)) (e_record e) (pairs t')))
    by (apply store_distinct; auto).
  assert (HD3 : keys_distinct (pairs t'')) by (apply (keys_distinct_permutation _ _ (Permutation_sym HP) HDs)).
  pose proof (IH t'' HI' G2 HD3) as HV. fold (addrs l). unfold post in *.
  destruct (visit_entries h func a (addrs l) tt (put_table b t'' m1)) as [[] m'|er m'| |]; auto.
  destruct HV as (t3 & -> & G3 & HP3). exists t3. splits; auto. rewrite HP3. cbn [pair_of map stored fold_left fst snd].
  clear -HP HD3 kp_equal laws. revert HP HD3. generalize (pairs t''), (store_pair (e_key e) (kp (e_key e)) (e_record e) (pairs t')).
  induction (map pair_of (filter (live (Some Qundef)) l)) as [|p q IHq]; intros l1 l2 HP HD; cbn [stored fold_left]; auto.
  apply IHq; [now apply store_pair_permutation|apply store_distinct; auto].
Qed.
End StoreLoop.

Lemma foreach_stores h func m o a t b tb kp :
  good_mem m -> owns m h o a t -> a <> b -> tables m !! b = Some tb ->
  (forall k, EQUAL k (kp k) = true) ->
  (forall k v m', good_mem m' -> grows true m m' -> k <> Qundef -> v <> Qundef ->
    spec (fun _ => True) true m' (func k v tt) (fun _ _ => True)) ->
  (forall k v t', In (k, v) (pairs t) -> good_table t' ->
    post (func k v tt (put_table b t' (put_hash h (add_iter_lev 1 o) m)))
      (fun r m' => r = (ST_CONTINUE, tt) /\ exists t'', m' = put_table b t'' (put_hash h (add_iter_lev 1 o) m) /\
        good_table t'' /\ Permutation (pairs t'') (store_pair k (kp k) v (pairs t')))
      (fun _ => False)) ->
  total m (fun fuel => rb_hash_foreach fuel h func tt)
    (fun _ m' => exists t'', m' = put_table b t'' m /\ good_table t'' /\
      Permutation (pairs t'') (stored kp (pairs t) (pairs tb))) (fun _ => False).
Proof.
  intros G [Ho Ha Ht] Hab Htb Hkp Hsafe Hfunc. set (o1 := add_iter_lev 1 o) in *. set (m1 := put_hash h o1 m) in *.
  pose proof (gm_table m G a t Ht) as Gt. pose proof (gm_table m G b tb Htb) as Gb. pose proof (gm_hash m G h o Ho) as GH.
  assert (Ho1 : hashes m1 !! h = Some o1) by (cbn; apply lookup_insert_eq).
  assert (Own1 : owns m1 h o1 a t) by (split; auto).
  assert (Hm1 : m1 = put_table b tb m1) by (symmetry; apply put_table_same; exact Htb).
  assert (HCall : forall fuel, (fe_fuel t <= fuel)%nat ->
    hash_foreach_call fuel h func tt m1 = visit_entries h func a (addrs (all t)) tt m1).
  { intros fuel Hf. apply (call_visits h func a (during b m1) t fuel m1 o1); auto.
    - apply (store_chains h func a t b m1 o1 kp); auto.
    - exists tb. auto. }
  exists (fe_fuel t), (rb_ensure (visit_entries h func a (addrs (all t)) tt) (hash_foreach_ensure h) m1). split.
  { intros fuel Hf. unfold rb_hash_foreach. rewrite (run_upd h _ _ m o Ho). fold o1 m1. unfold rb_ensure.
    now rewrite (HCall fuel Hf). }
  assert (G1 : good_mem m1).
  { apply (put_hash_good m h o); auto; try apply GH; cbn; pose proof (gh_lev _ _ _ GH); lia. }
  assert (HS : spec (fun _ => True) true m1 (hash_foreach_call (fe_fuel t) h func tt) (fun _ _ => True)).
  { apply (call_spec (fun _ => True) (fe_fuel t) true h func (fun _ => True) m); auto.
    - intros k v [] m' G' Gr Hk Hv _. now apply Hsafe.
    - exists o1. split; auto. cbn. pose proof (gh_lev _ _ _ GH). lia.
    - intros m' K'. now apply (keeps_level true m h o 1). }
  unfold spec in HS. rewrite (HCall _ (le_n _)) in HS.
  pose proof (visit_stores h func a t b m1 o1 kp Hkp Hab Gt Own1 Hfunc (all t) tb (incl_refl _) Gb
    (pairs_distinct Qundef undef_alone tb (good_wf _ tb Gb))) as HV.
  rewrite <- Hm1 in HV. unfold post, rb_ensure in *.
  destruct (visit_entries h func a (addrs (all t)) tt m1) as [[] m'|e m'| |]; try contradiction.
  - destruct HV as (t'' & -> & G2 & HP). unfold bindM.
    change (put_table b t'' m1) with (put_hash h (add_iter_lev 1 o) (put_table b t'' m)).
    rewrite ensure_back by apply GH. unfold ret. exists t''. splits; auto.
    apply put_hash_same. exact Ho.
  - destruct HV as [->|[]]. destruct HS as (_ & G' & K').
    destruct (ensure_spec (fun _ => True) true m m' h o Ho (gh_lev _ _ _ GH) G' K') as (m3 & E3 & _).
    unfold bindM. rewrite E3. cbn. auto.
Qed.
(** ** The relation *)

(** Hash [h] is the abstract Hash [x]. *)
Record hash_rep (m : memory) (am : amemory) (h : positive) (o : RHash) (a : positive) (t : st_table) (x : ahash) : Prop :=
  mkHashRep {
    hr_owns : owns m h o a t;
    hr_abs : a_hashes am !! h = Some x;
    hr_lev : iter_lev o = 0;
    hr_proc : HASH_PROC_DEFAULT o = false;
    hr_ifnone : ifnone o = a_ifnone x;
    hr_frozen : frozen o = a_frozen x;
    hr_tainted : tainted o = a_tainted x;
    hr_pairs : Permutation (pairs t) (a_pairs x)
  }.

Record rep (m : memory) (am : amemory) : Prop := mkRep {
  rep_good : good_mem m;
  rep_next : next_hash m = a_next am;
  rep_none : forall h, hashes m !! h = None <-> a_hashes am !! h = None;
  rep_hash : forall h x, a_hashes am !! h = Some x -> exists o a t, hash_rep m am h o a t x
}.

Lemma rep_get m am h o : rep m am -> hashes m !! h = Some o -> exists a t x, hash_rep m am h o a t x.
Proof.
  intros R Ho. destruct (a_hashes am !! h) as [x|] eqn:E.
  - destruct (rep_hash m am R h x E) as (o' & a & t & HR). exists a, t, x.
    pose proof (ow_hash _ _ _ _ _ (hr_owns _ _ _ _ _ _ _ HR)) as HX. rewrite Ho in HX. injection HX as <-. exact HR.
  - apply (rep_none m am R) in E. congruence.
Qed.

Lemma good_of m am h o a t x : rep m am -> hash_rep m am h o a t x -> good_table t.
Proof. intros R HR. apply (gm_table m (rep_good m am R) a), HR. Qed.

Lemma distinct_of m am h o a t x : rep m am -> hash_rep m am h o a t x -> keys_distinct (pairs t).
Proof. intros R HR. apply (pairs_distinct Qundef undef_alone), good_wf. now apply (good_of m am h o a t x). Qed.

(** Lookups do not depend on the order. *)
Lemma get_of m am h o a t x k : rep m am -> hash_rep m am h o a t x -> get_pair k (pairs t) = get_pair k (a_pairs x).
Proof. intros R HR. apply get_pair_permutation; [now apply (distinct_of m am h o a t x)|apply HR]. Qed.

(** A Hash is changed, and its table. *)
Lemma rep_put m am h o a t x o' t' x' :
  rep m am -> hash_rep m am h o a t x -> good_table t' ->
  tbl o' = Some a -> iter_lev o' = 0 -> HASH_DELETED o' = false -> HASH_PROC_DEFAULT o' = false ->
  ifnone o' = a_ifnone x' -> a_ifnone x' <> Qundef -> frozen o' = a_frozen x' -> tainted o' = a_tainted x' ->
  Permutation (pairs t') (a_pairs x') ->
  rep (put_hash h o' (put_table a t' m)) (a_put h x' am).
Proof.
  intros R HR G' H1 H2 H3 H4 H5 H6 H7 H8 HP. pose proof HR as [[Ho Ha Ht] Hx _ _ _ _ _ _].
  pose proof (set_table_spec (fun _ => True) m a t t' (rep_good m am R) Ht G') as HS. unfold spec, set_table in HS.
  rewrite Ht in HS. destruct HS as (G1 & _). fold (put_table a t' m) in G1. split.
  - apply (put_hash_good _ h o); auto; try congruence; lia.
  - apply (rep_next m am R).
  - intros h'. cbn [put_hash put_table hashes a_put a_hashes]. destruct (decide (h' = h)) as [->|Hn].
    + rewrite !lookup_insert_eq. split; discriminate.
    + rewrite !lookup_insert_ne by congruence. apply (rep_none m am R).
  - intros h' y. cbn [a_put a_hashes]. destruct (decide (h' = h)) as [->|Hn].
    + rewrite lookup_insert_eq. intros E; injection E as <-. exists o', a, t'. split; auto.
      * split; cbn; rewrite ?lookup_insert_eq; auto.
      * cbn. apply lookup_insert_eq.
    + rewrite lookup_insert_ne by congruence. intros Hy. destruct (rep_hash m am R h' y Hy) as (o2 & a2 & t2 & HR2).
      exists o2, a2, t2. destruct HR2 as [[Ho2 Ha2 Ht2] Hx2 B1 B2 B3 B4 B5 B6]. split; auto.
      * split; cbn; rewrite ?lookup_insert_ne; auto; try congruence. intros ->. apply Hn.
        exact (gm_owner m (rep_good m am R) h' h o2 o a2 Ho2 Ho Ha2 Ha).
      * cbn. now rewrite lookup_insert_ne by congruence.
Qed.

(** Only the table is changed. *)
Lemma rep_table m am h o a t x t' l :
  rep m am -> hash_rep m am h o a t x -> good_table t' -> Permutation (pairs t') l ->
  rep (put_table a t' m) (a_put h (with_pairs l x) am).
Proof.
  intros R HR G' HP. pose proof HR as [[Ho Ha Ht] Hx B1 B2 B3 B4 B5 B6].
  pose proof (gm_hash m (rep_good m am R) h o Ho) as GH.
  rewrite <- (put_hash_same (put_table a t' m) h o Ho). apply (rep_put m am h o a t x); auto.
  - now apply (gh_deleted _ _ _ GH).
  - cbn [with_pairs a_ifnone]. rewrite <- B3. apply (gh_ifnone _ _ _ GH).
Qed.

Lemma with_pairs_same x : with_pairs (a_pairs x) x = x.
Proof. now destruct x. Qed.

Lemma a_put_same h x am : a_hashes am !! h = Some x -> a_put h x am = am.
Proof. intros H. unfold a_put. rewrite insert_id by exact H. now destruct am. Qed.

Lemma refused_modifiable m am h o a t x :
  hash_rep m am h o a t x -> (refused x = None <-> modifiable o) /\
  (forall e, refused x = Some e -> forall A (k : unit -> M A), bindM (rb_hash_modify h) k m = Exn e m).
Proof.
  intros [[Ho Ha Ht] _ _ _ _ B4 B5 _]. unfold refused, modifiable. rewrite <- B4, <- B5. split.
  - destruct (frozen o), (negb (tainted o) && (4 <=? safe_level)); split; try discriminate; try tauto; intros [H1 H2]; discriminate.
  - intros e He A k. unfold rb_hash_modify. rewrite run_assoc, (run_get h _ m o Ho), Ha.
    destruct (frozen o); [injection He as <-; reflexivity|].
    destruct (negb (tainted o) && (4 <=? safe_level)); [injection He as <-; reflexivity|discriminate].
Qed.

(** ** Methods against the abstract ones *)

Definition implements {A} (f : A -> answer) (m : memory) (c : nat -> M A) (r : (answer * amemory) + rb_error) : Prop :=
  total m c (fun a m' => exists am', r = inl (f a, am') /\ rep m' am') (fun e => r = inr e).

Lemma implements_answer {A} (f : A -> answer) m (c : nat -> M A) r :
  implements f m c r -> implements (fun x => x) m (fun fuel => as_answer f (c fuel)) r.
Proof.
  intros H. apply (total_bind m c (fun _ a => ret (f a)) _ _ _ H). intros a m' HQ. now apply total_ret.
Qed.

Lemma implements_on {A} (f : A -> answer) m am h (c : nat -> M A) g :
  rep m am -> (forall o a t x, hash_rep m am h o a t x -> implements f m c (g x)) ->
  implements f m (fun fuel => on h (c fuel)) (a_receiver h am g).
Proof.
  intros R HC. unfold a_receiver. destruct (a_hashes am !! h) as [x|] eqn:E.
  - destruct (rep_hash m am R h x E) as (o & a & t & HR). apply (total_eq m _ c); [|now apply (HC o a t x)].
    intros fuel. unfold on. now rewrite (ow_hash _ _ _ _ _ (hr_owns _ _ _ _ _ _ _ HR)).
  - apply (rep_none m am R) in E. exists 0%nat, (Exn TypeError m). split; [|cbn; auto].
    intros fuel _. unfold on. now rewrite E.
Qed.

Lemma implements_modify {A} (f : A -> answer) m am h o a t x (c : nat -> M A) r :
  hash_rep m am h o a t x -> (modifiable o -> implements f m c r) ->
  implements f m (fun fuel => rb_hash_modify h ;;; c fuel) (changing x r).
Proof.
  intros HR HC. destruct (refused_modifiable m am h o a t x HR) as [H1 H2]. unfold changing.
  destruct (refused x) as [e|].
  - exists 0%nat, (Exn e m). split; [|cbn; auto]. intros fuel _. now apply H2.
  - pose proof HR as [[Ho Ha _] _ _ _ _ _ _ _]. apply (total_eq m _ c); [|now apply HC, H1]. intros fuel.
    exact (run_modify h (fun _ => c fuel) m o a Ho Ha (proj1 H1 eq_refl)).
Qed.

(** A call whose value is plain. *)
Lemma implements_val {A} (f : A -> answer) m (c : nat -> M A) v m' am' :
  (forall fuel, c fuel m = Val v m') -> rep m' am' -> implements f m c (inl (f v, am')).
Proof. intros H R. exists 0%nat, (Val v m'). split; [auto|]. cbn. eauto. Qed.
Section Methods.
Context (proc_call : Z -> positive -> Z -> M Z).

Lemma aref_implements m am h o a t x k :
  rep m am -> hash_rep m am h o a t x -> k <> Qundef ->
  implements Word m (fun _ => rb_hash_aref proc_call h k)
    (inl (Word (match get_pair k (a_pairs x) with Some v => v | None => a_ifnone x end), am)).
Proof.
  intros R HR Hk. pose proof HR as [[Ho Ha Ht] Hx B1 B2 B3 B4 B5 B6]. apply (implements_val Word _ _ _ m); auto.
  intros _. unfold rb_hash_aref. rewrite (run_tbl h _ m o a Ho Ha), (run_lookup a k _ m t (rep_good m am R) Ht Hk).
  rewrite (get_of m am h o a t x k R HR). destruct (get_pair k (a_pairs x)); [reflexivity|].
  unfold rb_hash_default. rewrite (run_get h _ m o Ho), B2, B3. reflexivity.
Qed.

Lemma fetch_implements m am h o a t x k d :
  rep m am -> hash_rep m am h o a t x -> k <> Qundef ->
  implements Word m (fun _ => rb_hash_fetch None h k d)
    (match get_pair k (a_pairs x), d with
     | Some v, _ => inl (Word v, am)
     | None, Some v => inl (Word v, am)
     | None, None => inr IndexError
     end).
Proof.
  intros R HR Hk. pose proof HR as [[Ho Ha Ht] Hx B1 B2 B3 B4 B5 B6].
  assert (HE : rb_hash_fetch None h k d m = match get_pair k (a_pairs x), d with
    | Some v, _ => Val v m | None, Some v => Val v m | None, None => Exn IndexError m end).
  { unfold rb_hash_fetch. rewrite (run_tbl h _ m o a Ho Ha), (run_lookup a k _ m t (rep_good m am R) Ht Hk).
    rewrite (get_of m am h o a t x k R HR). now destruct (get_pair k (a_pairs x)), d. }
  destruct (get_pair k (a_pairs x)) as [v|]; [now apply (implements_val Word _ _ _ m)|].
  destruct d as [v|]; [now apply (implements_val Word _ _ _ m)|]. apply total_const. rewrite HE. cbn. auto.
Qed.

Lemma has_key_implements m am h o a t x k :
  rep m am -> hash_rep m am h o a t x -> k <> Qundef ->
  implements Truth m (fun _ => rb_hash_has_key h k)
    (inl (Truth (match get_pair k (a_pairs x) with Some _ => true | None => false end), am)).
Proof.
  intros R HR Hk. pose proof HR as [[Ho Ha Ht] Hx B1 B2 B3 B4 B5 B6]. apply (implements_val Truth _ _ _ m); auto.
  intros _. unfold rb_hash_has_key. rewrite (run_tbl h _ m o a Ho Ha), (run_lookup a k _ m t (rep_good m am R) Ht Hk).
  now rewrite (get_of m am h o a t x k R HR).
Qed.

Lemma size_of m am h o a t x : rep m am -> hash_rep m am h o a t x -> num_entries t = a_size x.
Proof.
  intros R HR. rewrite (pairs_count Qundef t (good_wf _ t (good_of m am h o a t x R HR))). unfold a_size.
  now rewrite (Permutation_length (hr_pairs _ _ _ _ _ _ _ HR)).
Qed.

Lemma size_implements m am h o a t x :
  rep m am -> hash_rep m am h o a t x -> implements Word m (fun _ => rb_hash_size h) (inl (Word (a_size x), am)).
Proof.
  intros R HR. pose proof HR as [[Ho Ha Ht] Hx B1 B2 B3 B4 B5 B6]. apply (implements_val Word _ _ _ m); auto.
  intros _. unfold rb_hash_size. rewrite (run_tbl h _ m o a Ho Ha), (run_table a _ m t Ht).
  now rewrite (size_of m am h o a t x R HR).
Qed.

Lemma empty_implements m am h o a t x :
  rep m am -> hash_rep m am h o a t x ->
  implements Truth m (fun _ => rb_hash_empty_p h) (inl (Truth (a_size x =? 0), am)).
Proof.
  intros R HR. pose proof HR as [[Ho Ha Ht] Hx B1 B2 B3 B4 B5 B6]. apply (implements_val Truth _ _ _ m); auto.
  intros _. unfold rb_hash_empty_p. rewrite (run_tbl h _ m o a Ho Ha), (run_table a _ m t Ht).
  now rewrite (size_of m am h o a t x R HR).
Qed.

Lemma default_implements m am h o a t x k :
  rep m am -> hash_rep m am h o a t x ->
  implements Word m (fun _ => rb_hash_default proc_call h k) (inl (Word (a_ifnone x), am)).
Proof.
  intros R HR. pose proof HR as [[Ho Ha Ht] Hx B1 B2 B3 B4 B5 B6]. apply (implements_val Word _ _ _ m); auto.
  intros _. unfold rb_hash_default. rewrite (run_get h _ m o Ho), B2, B3. reflexivity.
Qed.

Lemma store_of m am h o a t x k v t' :
  rep m am -> hash_rep m am h o a t x ->
  Permutation (pairs t') (store_pair k (kept k) v (pairs t)) ->
  Permutation (pairs t') (store_pair k (kept k) v (a_pairs x)).
Proof.
  intros R HR HP. rewrite HP. apply store_pair_permutation; [now apply (distinct_of m am h o a t x)|apply HR].
Qed.

Lemma aset_implements m am h o a t x k v :
  rep m am -> hash_rep m am h o a t x -> k <> Qundef -> v <> Qundef ->
  implements Word m (fun _ => rb_hash_aset h k v)
    (changing x (inl (Word v, a_put h (with_pairs (store_pair k (kept k) v (a_pairs x)) x) am))).
Proof.
  intros R HR Hk Hv. unfold rb_hash_aset. apply (implements_modify Word m am h o a t x (fun _ => _) _ HR). intros HM.
  pose proof HR as [[Ho Ha Ht] Hx B1 B2 B3 B4 B5 B6].
  apply (total_eq m _ (fun _ => rb_hash_aset h k v)).
  { intros _. unfold rb_hash_aset at 1. now rewrite (run_modify h _ m o a Ho Ha HM). }
  apply total_const. pose proof (aset_run m h o a t k v (rep_good m am R) (hr_owns _ _ _ _ _ _ _ HR) HM Hk Hv) as HS.
  unfold post in *. destruct (rb_hash_aset h k v m) as [r m'|e m'| |]; try contradiction; [|tauto].
  destruct HS as (-> & t' & -> & G' & HP). eexists. split; [reflexivity|].
  apply (rep_table m am h o a t x); auto. now apply (store_of m am h o a t x).
Qed.

Lemma delete_implements m am h o a t x k :
  rep m am -> hash_rep m am h o a t x -> k <> Qundef ->
  implements Word m (fun _ => rb_hash_delete None h k)
    (changing x (inl (Word (match get_pair k (a_pairs x) with Some v => v | None => Qnil end),
                      a_put h (with_pairs (del_pair k (a_pairs x)) x) am))).
Proof.
  intros R HR Hk. unfold rb_hash_delete. apply (implements_modify Word m am h o a t x (fun _ => _) _ HR). intros HM.
  pose proof HR as [[Ho Ha Ht] Hx B1 B2 B3 B4 B5 B6].
  pose proof (good_delete Qundef undef_alone t k (good_of m am h o a t x R HR) (valid_undef k Hk)) as HD.
  assert (HPd : Permutation (del_pair k (pairs t)) (del_pair k (a_pairs x)))
    by (apply del_pair_permutation; auto; now apply (distinct_of m am h o a t x)).
  apply total_const. rewrite (run_get h _ m o Ho), (run_tbl h _ m o a Ho Ha), (run_table a _ m t Ht), B1. cbv zeta.
  change (0 <? 0) with false. cbn iota. rewrite <- (get_of m am h o a t x k R HR).
  destruct (st_delete t k) as [[[k0 v]|] t'].
  - destruct HD as (G' & HP & -> & _). rewrite (run_set_table a t' _ m t Ht). cbn. eexists. split; [reflexivity|].
    apply (rep_table m am h o a t x); auto. now rewrite HP.
  - rewrite HD. cbn. eexists. split; [reflexivity|]. rewrite <- (put_table_same m a t Ht).
    apply (rep_table m am h o a t x); auto; [now apply (good_of m am h o a t x)|]. rewrite <- HPd.
    now rewrite del_pair_none by exact HD.
Qed.

Lemma ifnone_valid m am h o a t x : rep m am -> hash_rep m am h o a t x -> a_ifnone x <> Qundef.
Proof.
  intros R HR. rewrite <- (hr_ifnone _ _ _ _ _ _ _ HR). apply (gh_ifnone m h o).
  apply (gm_hash m (rep_good m am R)), HR.
Qed.

Lemma clear_total m am h o a t x :
  rep m am -> hash_rep m am h o a t x -> modifiable o ->
  exists n m', (forall fuel, (n <= fuel)%nat -> rb_hash_clear fuel h m = Val h m') /\
    rep m' (a_put h (with_pairs [] x) am).
Proof.
  intros R HR HM. destruct (clear_empties h m o a t (rep_good m am R) (hr_owns _ _ _ _ _ _ _ HR) HM) as (d & t' & E & G' & HP & Hd).
  exists (fe_fuel t). eexists. split; [exact E|]. pose proof HR as [[Ho Ha Ht] Hx B1 B2 B3 B4 B5 B6].
  apply (rep_put m am h o a t x); auto; cbn; auto; [now apply (ifnone_valid m am h o a t x)|]. now rewrite HP.
Qed.

Lemma clear_implements m am h o a t x :
  rep m am -> hash_rep m am h o a t x ->
  implements Object m (fun fuel => rb_hash_clear fuel h) (changing x (inl (Object h, a_put h (with_pairs [] x) am))).
Proof.
  intros R HR. unfold rb_hash_clear.
  apply (implements_modify Object m am h o a t x (fun fuel =>
    a <- tbl_of h ;; t <- table a ;; (if 0 <? num_entries t then rb_hash_foreach fuel h clear_i tt else ret tt) ;;; ret h) _ HR).
  intros HM. destruct (clear_total m am h o a t x R HR HM) as (n & m' & E & R').
  exists n, (Val h m'). split; [|cbn; eauto]. intros fuel Hf. rewrite <- (E fuel Hf). unfold rb_hash_clear.
  pose proof HR as [[Ho Ha Ht] _ _ _ _ _ _ _].
  exact (eq_sym (run_modify h (fun _ => a0 <- tbl_of h ;; t0 <- table a0 ;;
    (if 0 <? num_entries t0 then rb_hash_foreach fuel h clear_i tt else ret tt) ;;; ret h) m o a Ho Ha HM)).
Qed.

(** The loop function of [update], [replace] and [invert], with another Hash as
    its target. *)
Lemma target_func m am h o a t x h2 o2 a2 t2 y (func : Z -> Z -> unit -> M (st_retval * unit)) :
  rep m am -> hash_rep m am h o a t x -> hash_rep m am h2 o2 a2 t2 y -> h <> h2 -> modifiable o ->
  (forall k v m', k <> Qundef -> func k v tt m' = (rb_hash_aset h k v ;;; ret (ST_CONTINUE, tt)) m') ->
  total m (fun fuel => rb_hash_foreach fuel h2 func tt)
    (fun _ m' => exists t', m' = put_table a t' m /\ good_table t' /\
      Permutation (pairs t') (store_all (a_pairs y) (a_pairs x))) (fun _ => False).
Proof.
  intros R HR HR2 Hne HM Hf. pose proof HR as [[Ho Ha Ht] _ _ _ _ _ _ _]. pose proof HR2 as [[Ho2 Ha2 Ht2] _ B1 _ _ _ _ HP2].
  pose proof (rep_good m am R) as G. pose proof (gm_hash m G h2 o2 Ho2) as GH2.
  assert (Hab : a2 <> a) by (intros ->; apply Hne; exact (gm_owner m G h h2 o o2 a Ho Ho2 Ha Ha2)).
  eapply total_weaken.
  - apply (foreach_stores h2 func m o2 a2 t2 a t kept); auto using kept_equal.
    + split; auto.
    + intros k v m' G' Gr Hk Hv. assert (Hh : has m' h) by (apply (gr_has _ _ _ Gr); now exists o).
      pose proof (aset_spec (fun _ => True) (fun _ => I) true m' h k v G' Hh Hk Hv) as HS.
      unfold spec in *. rewrite Hf by exact Hk. unfold bindM. destruct (rb_hash_aset h k v m'); cbn; tauto.
    + intros k v t' Hin Gt'. destruct (pairs_valid Qundef t2 k v (good_of m am h2 o2 a2 t2 y R HR2) Hin) as [Hk Hv].
      set (m1 := put_hash h2 (add_iter_lev 1 o2) m). rewrite Hf by exact Hk.
      assert (G1 : good_mem m1).
      { apply (put_hash_good m h2 o2); auto; cbn; try apply GH2; lia. }
      assert (Ht1 : tables m1 !! a = Some t) by exact Ht.
      pose proof (set_table_spec (fun _ => True) m1 a t t' G1 Ht1 Gt') as HS. unfold spec, set_table in HS.
      rewrite Ht1 in HS. destruct HS as (G2 & _). fold (put_table a t' m1) in G2.
      assert (Own : owns (put_table a t' m1) h o a t').
      { split; auto; [cbn; now rewrite lookup_insert_ne by congruence|cbn; apply lookup_insert_eq]. }
      pose proof (aset_run _ h o a t' k v G2 Own HM Hk Hv) as HA. unfold post, bindM in *.
      destruct (rb_hash_aset h k v (put_table a t' m1)) as [r m'|e m'| |]; try contradiction; [|tauto].
      destruct HA as (-> & t'' & -> & G3 & HP). cbn. split; auto. exists t''. splits; auto.
      unfold put_table. cbn. now rewrite insert_insert_eq.
  - cbv beta. intros [] m' (t' & -> & G' & HP). exists t'. splits; auto. rewrite HP.
    change (stored kept) with store_all.
    transitivity (store_all (a_pairs y) (pairs t)).
    + apply store_all_permutation; auto; [now apply (distinct_of m am h2 o2 a2 t2 y)|now apply (distinct_of m am h o a t x)].
    + apply store_all_into; [now apply (distinct_of m am h o a t x)|apply HR].
  - auto.
Qed.

Lemma replace_total m am h o a t x h2 o2 a2 t2 y :
  rep m am -> hash_rep m am h o a t x -> hash_rep m am h2 o2 a2 t2 y -> h <> h2 -> modifiable o ->
  total m (fun fuel => rb_hash_replace fuel h h2)
    (fun r m' => r = h /\
      rep m' (a_put h (mkAhash (store_all (a_pairs y) []) (a_ifnone y) (a_frozen x) (a_tainted x)) am))
    (fun _ => False).
Proof.
  intros R HR HR2 Hne HM. unfold rb_hash_replace. rewrite (proj2 (Pos.eqb_neq h h2) Hne).
  destruct (clear_total m am h o a t x R HR HM) as (n & m1 & E & R1).
  apply (total_run m (fun fuel => rb_hash_clear fuel h) (fun fuel _ => _) h m1 n); [exact E|].
  set (am1 := a_put h (with_pairs [] x) am) in *. pose proof HR as [[Ho Ha Ht] Hx _ _ _ C4 C5 _]. pose proof HR2 as [_ Hy _ _ _ _ _ _].
  destruct (rep_hash m1 am1 R1 h (with_pairs [] x)) as (o1 & a1 & t1 & HR1); [cbn; apply lookup_insert_eq|].
  destruct (rep_hash m1 am1 R1 h2 y) as (o3 & a3 & t3 & HR3); [cbn; now rewrite lookup_insert_ne by congruence|].
  assert (HM1 : modifiable o1).
  { destruct HR1 as [_ _ _ _ _ F4 F5 _]. unfold modifiable. rewrite F4, F5. cbn. now rewrite <- C4, <- C5. }
  apply (total_bind m1 (fun fuel => rb_hash_foreach fuel h2 (replace_i h) tt) (fun fuel _ => _) _ _ _
    (target_func m1 am1 h o1 a1 t1 (with_pairs [] x) h2 o3 a3 t3 y (replace_i h) R1 HR1 HR3 Hne HM1
      ltac:(intros k v m' Hk; unfold replace_i; apply Z.eqb_neq in Hk; now rewrite Hk))).
  intros [] m2 (t' & -> & G' & HP). cbn [with_pairs a_pairs] in HP. apply total_const.
  pose proof HR1 as [[Ho1 Ha1 Ht1] _ D1 D2 D3 D4 D5 D6]. pose proof HR3 as [[Ho3 Ha3 Ht3] _ F1 F2 F3 F4 F5 F6].
  rewrite (run_get h2 _ (put_table a1 t' m1) o3 Ho3), (run_upd h _ _ (put_table a1 t' m1) o1 Ho1).
  set (o4 := set_ifnone (ifnone o3) o1). assert (EH : hashes (put_hash h o4 (put_table a1 t' m1)) !! h = Some o4) by (cbn; apply lookup_insert_eq).
  rewrite (run_get h2 _ _ o3) by (cbn; now rewrite lookup_insert_ne by congruence).
  rewrite (run_upd h _ _ _ o4 EH), put_hash_put. cbn [post ret]. split; auto.
  assert (EA : a_put h (mkAhash (store_all (a_pairs y) []) (a_ifnone y) (a_frozen x) (a_tainted x)) am =
    a_put h (mkAhash (store_all (a_pairs y) []) (a_ifnone y) (a_frozen x) (a_tainted x)) am1).
  { unfold am1, a_put. cbn. now rewrite insert_insert_eq. }
  rewrite EA. apply (rep_put m1 am1 h o1 a1 t1 (with_pairs [] x)); auto; cbn; try congruence.
  - apply (gh_deleted _ _ _ (gm_hash m1 (rep_good m1 am1 R1) h o1 Ho1)). exact D1.
  - now apply (ifnone_valid m1 am1 h2 o3 a3 t3 y).
Qed.

Lemma replace_implements m am h o a t x h2 o2 a2 t2 y :
  rep m am -> hash_rep m am h o a t x -> hash_rep m am h2 o2 a2 t2 y ->
  implements Object m (fun fuel => rb_hash_replace fuel h h2)
    (if (h =? h2)%positive then inl (Object h, am) else changing x
     (inl (Object h, a_put h (mkAhash (store_all (a_pairs y) []) (a_ifnone y) (a_frozen x) (a_tainted x)) am))).
Proof.
  intros R HR HR2. destruct (Pos.eqb_spec h h2) as [->|Hne].
  { apply (implements_val Object _ _ _ m); auto. intros fuel. unfold rb_hash_replace. now rewrite Pos.eqb_refl. }
  destruct (refused_modifiable m am h o a t x HR) as [H1 H2]. unfold changing. destruct (refused x) as [e|].
  - exists 0%nat, (Exn e m). split; [|cbn; auto]. intros fuel _. unfold rb_hash_replace.
    rewrite (proj2 (Pos.eqb_neq h h2) Hne). unfold rb_hash_clear. rewrite run_assoc. now apply H2.
  - eapply total_weaken; [apply (replace_total m am h o a t x h2 o2 a2 t2 y); auto; now apply H1| |contradiction].
    cbv beta. intros r m' [-> R']. eauto.
Qed.

(** A new Hash. *)
Lemma alloc_rep m am :
  rep m am ->
  exists m' o a t, hash_alloc m = Val (a_next am) m' /\ rep m' (snd (a_new (mkAhash [] Qnil false false) am)) /\
    hash_rep m' (snd (a_new (mkAhash [] Qnil false false) am)) (a_next am) o a t (mkAhash [] Qnil false false) /\
    hashes m !! a_next am = None.
Proof.
  intros R. pose proof (rep_good m am R) as G. pose proof (alloc_spec (fun _ => True) m G) as HS.
  assert (HN : hashes m !! next_hash m = None).
  { destruct (hashes m !! next_hash m) as [o'|] eqn:EH; [|reflexivity]. pose proof (gh_next _ _ _ (gm_hash m G _ _ EH)). lia. }
  unfold spec in HS. destruct (good_init Qundef 0 ltac:(lia)) as (t & E & Gt & Hp & _).
  assert (EA : hash_alloc m = Val (next_hash m)
    (mkMemory (<[next_hash m := mkHash (Some (new_address (tables m))) 0 Qnil false false false false]> (hashes m))
       (<[new_address (tables m) := t]> (tables m)) (Pos.succ (next_hash m)))).
  { unfold hash_alloc, st_init_table. rewrite E. reflexivity. }
  rewrite EA in HS. destruct HS as (G' & _). rewrite (rep_next m am R) in *.
  set (m' := mkMemory _ _ _) in *. pose proof (new_address_free (tables m)) as HF.
  assert (HRn : hash_rep m' (snd (a_new (mkAhash [] Qnil false false) am)) (a_next am)
    (mkHash (Some (new_address (tables m))) 0 Qnil false false false false) (new_address (tables m)) t (mkAhash [] Qnil false false)).
  { split; cbn; auto; [split; cbn; auto; apply lookup_insert_eq|apply lookup_insert_eq|now rewrite Hp]. }
  exists m', (mkHash (Some (new_address (tables m))) 0 Qnil false false false false), (new_address (tables m)), t.
  splits; auto. split; auto.
  - intros h. cbn. destruct (decide (h = a_next am)) as [->|Hn]; [rewrite !lookup_insert_eq; split; discriminate|].
    rewrite !lookup_insert_ne by congruence. apply (rep_none m am R).
  - intros h y. cbn [a_new snd a_hashes]. destruct (decide (h = a_next am)) as [->|Hn].
    + rewrite lookup_insert_eq. intros EY; injection EY as <-. eauto.
    + rewrite lookup_insert_ne by congruence. intros Hy. destruct (rep_hash m am R h y Hy) as (o & a & t0 & [[Ho Ha Ht] Hx B1 B2 B3 B4 B5 B6]).
      exists o, a, t0. split; auto.
      * split; auto; cbn; rewrite lookup_insert_ne; auto; congruence.
      * cbn. now rewrite lookup_insert_ne by congruence.
Qed.

Lemma new_implements m am : rep m am ->
  implements Object m (fun _ => rb_hash_new)
    (let (h, am') := a_new (mkAhash [] Qnil false false) am in inl (Object h, am')).
Proof.
  intros R. destruct (alloc_rep m am R) as (m' & o & a & t & E & R' & _).
  apply (implements_val Object _ _ _ m'); auto.
Qed.

Lemma dup_implements m am h o a t x :
  rep m am -> hash_rep m am h o a t x -> implements Object m (fun fuel => rb_obj_dup fuel h) (a_dup x am).
Proof.
  intros R HR. pose proof HR as [[Ho Ha Ht] Hx B1 B2 B3 B4 B5 B6].
  destruct (alloc_rep m am R) as (m1 & o1 & a1 & t1 & E & R1 & HR1 & HN). set (d := a_next am) in *.
  set (am1 := snd (a_new _ am)) in *. assert (Hne : d <> h) by (intros EQ; rewrite EQ, Ho in HN; discriminate). unfold rb_obj_dup.
  apply (total_run m (fun _ => hash_alloc) (fun fuel _ => _) d m1 0%nat); [intros; exact E|].
  assert (Hx1 : a_hashes am1 !! h = Some x) by (cbn; rewrite lookup_insert_ne by exact Hne; exact Hx).
  destruct (rep_hash m1 am1 R1 h x Hx1) as (o2 & a2 & t2 & HR2). pose proof HR2 as [[Ho2 Ha2 Ht2] _ C1 C2 C3 C4 C5 C6].
  pose proof HR1 as [[Ho1 Ha1 Ht1] Hd D1 D2 D3 D4 D5 D6].
  apply (total_eq m1 _ (fun fuel => upd d (set_tainted (tainted o2)) ;;; rb_hash_replace fuel d h ;;; ret d));
    [intros fuel; exact (run_get h _ m1 o2 Ho2)|].
  set (m2 := put_hash d (set_tainted (tainted o2) o1) m1).
  apply (total_eq m1 _ (fun fuel _ => (rb_hash_replace fuel d h ;;; ret d) m2)); [intros fuel; exact (run_upd d _ _ m1 o1 Ho1)|].
  set (y := mkAhash [] Qnil false (a_tainted x)). set (am2 := a_put d y am1).
  assert (R2 : rep m2 am2).
  { unfold m2. rewrite <- (put_table_same m1 a1 t1 Ht1). apply (rep_put m1 am1 d o1 a1 t1 _ _ t1 y R1 HR1); auto; cbn; try discriminate.
    - now apply (good_of m1 am1 d o1 a1 t1 _ R1 HR1).
    - apply (gh_deleted _ _ _ (gm_hash m1 (rep_good m1 am1 R1) d o1 Ho1)). exact D1. }
  destruct (rep_hash m2 am2 R2 d y) as (o3 & a3 & t3 & HR3); [cbn; apply lookup_insert_eq|].
  destruct (rep_hash m2 am2 R2 h x) as (o4 & a4 & t4 & HR4); [cbn; rewrite !lookup_insert_ne by exact Hne; exact Hx|].
  assert (HI : implements Object m2 (fun fuel => rb_hash_replace fuel d h ;;; ret d)
    (if (d =? h)%positive then inl (Object d, am2) else changing y
     (inl (Object d, a_put d (mkAhash (store_all (a_pairs x) []) (a_ifnone x) (a_frozen y) (a_tainted y)) am2)))).
  { apply (total_bind m2 _ (fun _ _ => ret d) _ _ _ (replace_implements m2 am2 d o3 a3 t3 y h o4 a4 t4 x R2 HR3 HR4)).
    intros r m' (am' & E' & R'). apply total_ret. exists am'. split; auto. rewrite E'. unfold changing in E'.
    destruct (d =? h)%positive, (refused y); congruence. }
  rewrite (proj2 (Pos.eqb_neq d h) Hne) in HI. unfold a_dup, changing in *. cbn in HI. unfold refused in *. cbn in *.
  destruct (negb (a_tainted x) && (4 <=? safe_level)); [exact HI|]. unfold am2, am1, a_put in HI. cbn in HI.
  rewrite !insert_insert_eq in HI. exact HI.
Qed.

(** A loop whose function raises at the first pair. *)
Lemma foreach_raises h (func : Z -> Z -> unit -> M (st_retval * unit)) m o a t e :
  good_mem m -> owns m h o a t ->
  (forall k v, In (k, v) (pairs t) ->
    func k v tt (put_hash h (add_iter_lev 1 o) m) = Exn e (put_hash h (add_iter_lev 1 o) m)) ->
  forall fuel, (fe_fuel t <= fuel)%nat ->
  rb_hash_foreach fuel h func tt m = match pairs t with [] => Val tt m | _ => Exn e m end.
Proof.
  intros G [Ho Ha Ht] HF fuel Hfuel. pose proof (gm_hash m G h o Ho) as GH. pose proof (gm_table m G a t Ht) as Gt.
  set (o1 := add_iter_lev 1 o) in *. set (m1 := put_hash h o1 m) in *.
  assert (Ho1 : hashes m1 !! h = Some o1) by (cbn; apply lookup_insert_eq).
  assert (HI : forall e0, hash_foreach_iter h func (e_key e0) (e_record e0) tt m1 =
    if e_key e0 =? Qundef then Val (ST_CONTINUE, tt) m1 else bindM (func (e_key e0) (e_record e0) tt)
      (fun p => let '(status, arg) := p in a' <- tbl_of h ;;
        if negb (a' =? a)%positive then rb_raise RuntimeError else
        match status with
        | ST_DELETE => t0 <- table a ;; set_table a (snd (st_delete_safe t0 (e_key e0) Qundef)) ;;;
            upd h (set_deleted true) ;;; ret (ST_CHECK, arg)
        | ST_STOP => ret (ST_STOP, arg)
        | _ => ret (ST_CHECK, arg)
        end) m1).
  { intros e0. unfold hash_foreach_iter. rewrite (run_tbl h _ m1 o1 a Ho1 Ha). now destruct (e_key e0 =? Qundef). }
  assert (HIn : forall e0, In e0 (all t) -> e_key e0 <> Qundef -> In (e_key e0, e_record e0) (pairs t)).
  { intros e0 Hin Hk. apply in_map_iff. exists e0. split; [reflexivity|]. apply filter_In. split; auto.
    apply negb_true_iff, Z.eqb_neq. exact Hk. }
  assert (HC : chains_stay h func a (eq m1) t).
  { split; [intros m' <-; now exists t|]. intros m' t' e0 [] <- Ht' Hin. assert (t' = t) as -> by (cbn in Ht'; congruence).
    rewrite HI. destruct (Z.eqb_spec (e_key e0) Qundef) as [Hk|Hk]; [split; auto; discriminate|].
    unfold bindM. now rewrite (HF _ _ (HIn e0 Hin Hk)). }
  assert (HV : forall l, incl l (all t) -> visit_entries h func a (addrs l) tt m1 =
    match map pair_of (filter (live (Some Qundef)) l) with [] => Val tt m1 | _ => Exn e m1 end).
  { induction l as [|e0 l IH]; intros HI2; [reflexivity|]. assert (Hin : In e0 (all t)) by (apply HI2; now left).
    cbn [addrs map visit_entries filter]. rewrite (run_table a _ m1 t Ht).
    destruct (deref_some t (e_addr e0) (deref_in t e0 Hin)) as (e' & -> & Hin' & He').
    pose proof (NoDup_addr_inj _ e' e0 (proj1 (wf_addrs _ t (good_wf _ t Gt))) Hin' Hin He') as ->.
    unfold bindM at 1. rewrite HI. change (live (Some Qundef) e0) with (negb (e_key e0 =? Qundef)).
    destruct (Z.eqb_spec (e_key e0) Qundef) as [Hk|Hk]; cbn [negb map].
    - apply IH. intros q Hq. apply HI2. now right.
    - unfold bindM. now rewrite (HF _ _ (HIn e0 Hin Hk)). }
  unfold rb_hash_foreach. rewrite (run_upd h _ _ m o Ho). fold o1 m1. unfold rb_ensure.
  rewrite (call_visits h func a (eq m1) t fuel m1 o1 tt HC Gt eq_refl Ho1 Ha Ht Hfuel), (HV (all t) (incl_refl _)).
  fold (pairs t). pose proof (ensure_back h o m (gh_lev _ _ _ GH) (gh_deleted _ _ _ GH)) as HE. fold o1 m1 in HE.
  destruct (pairs t); unfold bindM; rewrite HE, (put_hash_same m h o Ho); reflexivity.
Qed.

Lemma update_implements m am h o a t x h2 o2 a2 t2 y :
  rep m am -> hash_rep m am h o a t x -> hash_rep m am h2 o2 a2 t2 y -> h <> h2 ->
  implements Object m (fun fuel => rb_hash_update fuel proc_call None h h2) (a_update h x y am).
Proof.
  intros R HR HR2 Hne. pose proof HR as [[Ho Ha Ht] Hx _ _ _ _ _ _]. pose proof HR2 as [Own2 _ _ _ _ _ _ HP2].
  assert (HU : forall k v m', k <> Qundef ->
    rb_hash_update_i h k v tt m' = (rb_hash_aset h k v ;;; ret (ST_CONTINUE, tt)) m').
  { intros k v m' Hk. unfold rb_hash_update_i. apply Z.eqb_neq in Hk. now rewrite Hk. }
  unfold rb_hash_update. destruct (refused_modifiable m am h o a t x HR) as [H1 H2].
  destruct (refused x) as [e|] eqn:ER.
  - set (o3 := add_iter_lev 1 o2). set (m1 := put_hash h2 o3 m).
    assert (HR1 : hash_rep m1 am h o a t x).
    { destruct HR as [_ _ B1 B2 B3 B4 B5 B6]. split; auto. split; auto. cbn. now rewrite lookup_insert_ne by congruence. }
    assert (HF : forall fuel, (fe_fuel t2 <= fuel)%nat -> rb_hash_foreach fuel h2 (rb_hash_update_i h) tt m =
      match pairs t2 with [] => Val tt m | _ => Exn e m end).
    { apply (foreach_raises h2 (rb_hash_update_i h) m o2 a2 t2 e (rep_good m am R) Own2). intros k v Hin.
      destruct (pairs_valid Qundef t2 k v (good_of m am h2 o2 a2 t2 y R HR2) Hin) as [Hk _].
      rewrite HU by exact Hk. unfold rb_hash_aset. rewrite !run_assoc.
      exact (proj2 (refused_modifiable m1 am h o a t x HR1) e ER _ _). }
    unfold a_update, changing. rewrite ER. exists (fe_fuel t2). destruct (pairs t2) as [|p l].
    + apply Permutation_nil in HP2. rewrite HP2. exists (Val h m). split; [|cbn; eauto].
      intros fuel Hf. unfold bindM. now rewrite (HF fuel Hf).
    + destruct (a_pairs y) as [|q l']; [apply Permutation_sym, Permutation_nil in HP2; discriminate|].
      exists (Exn e m). split; [|cbn; auto]. intros fuel Hf. unfold bindM. now rewrite (HF fuel Hf).
  - apply (total_bind m _ (fun _ _ => ret h) _ _ _
      (total_weaken _ _ _ _ _ _ (target_func m am h o a t x h2 o2 a2 t2 y (rb_hash_update_i h) R HR HR2 Hne (proj1 H1 eq_refl) HU)
        (fun _ _ q => q) (fun _ f => False_ind _ f))).
    intros [] m' (t' & -> & G' & HP). apply total_ret. exists (a_put h (with_pairs (store_all (a_pairs y) (a_pairs x)) x) am).
    split; [|now apply (rep_table m am h o a t x)].
    unfold a_update, changing. rewrite ER. destruct (a_pairs y); [|reflexivity].
    cbn. now rewrite with_pairs_same, a_put_same.
Qed.

(** *** Rehash *)

Lemma get_pair_app_none k l r : get_pair k l = None -> get_pair k r = None -> get_pair k (l ++ r) = None.
Proof.
  intros Hl Hr. induction l as [|p l IH]; auto. cbn [app]. rewrite get_pair_cons in *.
  destruct (EQUAL k (fst p)); [discriminate|auto].
Qed.

(** Pairs with new keys are added as they are. *)
Lemma stored_new l r :
  keys_distinct l -> (forall k v, In (k, v) l -> get_pair k r = None) ->
  Permutation (stored (fun k => k) l r) (l ++ r).
Proof.
  intros HD. revert r; induction HD as [|k v l HG HD IH]; intros r HN; [reflexivity|].
  change (stored (fun k => k) ((k, v) :: l) r) with (stored (fun k => k) l (store_pair k k v r)).
  unfold store_pair. rewrite (HN k v) by now left. rewrite IH.
  - symmetry. apply Permutation_middle.
  - intros k' v' Hin. rewrite get_pair_cons. cbn [fst snd]. destruct (EQUAL k' k) eqn:E; [|now apply (HN k' v'); right].
    exfalso. apply (in_get_pair k' v' l Hin). rewrite <- HG. now apply get_pair_equal.
Qed.

Lemma insert_run m a t k v :
  good_mem m -> tables m !! a = Some t -> k <> Qundef -> v <> Qundef ->
  post (rb_hash_rehash_i a k v tt m)
    (fun r m' => r = (ST_CONTINUE, tt) /\ exists t', m' = put_table a t' m /\ good_table t' /\
      Permutation (pairs t') (store_pair k k v (pairs t)))
    (fun _ => False).
Proof.
  intros G Ht Hk Hv. unfold rb_hash_rehash_i. rewrite (proj2 (Z.eqb_neq k Qundef) Hk).
  apply table_post; [now apply st_insert_spec'|now apply (insert_done m a t)].
Qed.

(** The loop of [rehash], into the new table [b]. *)
Lemma rehash_loop m h o a t b tb :
  good_mem m -> owns m h o a t -> a <> b -> tables m !! b = Some tb -> pairs tb = [] ->
  total m (fun fuel => rb_hash_foreach fuel h (rb_hash_rehash_i b) tt)
    (fun _ m' => exists t', m' = put_table b t' m /\ good_table t' /\ Permutation (pairs t') (pairs t)) (fun _ => False).
Proof.
  intros G Own Hab Htb HE. pose proof Own as [Ho Ha Ht]. pose proof (gm_table m G a t Ht) as Gt.
  eapply total_weaken; [apply (foreach_stores h (rb_hash_rehash_i b) m o a t b tb (fun k => k)); auto using EQUAL_refl| |auto].
  - intros k v m' G' Gr Hk Hv. unfold rb_hash_rehash_i. rewrite (proj2 (Z.eqb_neq k Qundef) Hk).
    destruct (tables m' !! b) as [t'|] eqn:Ht'; [|apply (gr_tables _ _ _ Gr eq_refl) in Ht'; congruence].
    apply spec_drop; auto. eapply spec_weaken; [now apply (st_insert_spec' (fun _ => True) m' b t')|auto].
  - intros k v t' Hin Gt'. destruct (pairs_valid Qundef t k v Gt Hin) as [Hk Hv].
    set (m1 := put_hash h (add_iter_lev 1 o) m).
    assert (G1 : good_mem m1).
    { pose proof (gm_hash m G h o Ho) as GH. apply (put_hash_good m h o); auto; cbn; try apply GH; pose proof (gh_lev _ _ _ GH); lia. }
    assert (Hb : tables m1 !! b = Some tb) by exact Htb.
    pose proof (set_table_spec (fun _ => True) m1 b tb t' G1 Hb Gt') as HS. unfold spec, set_table in HS.
    rewrite Hb in HS. destruct HS as (G2 & _). fold (put_table b t' m1) in G2.
    pose proof (insert_run (put_table b t' m1) b t' k v G2 (put_table_lookup b t' m1) Hk Hv) as HI.
    unfold post in *. destruct (rb_hash_rehash_i b k v tt (put_table b t' m1)); auto.
    destruct HI as (-> & t'' & -> & G3 & HP). split; auto. exists t''. splits; auto. apply put_table_put.
  - cbv beta. intros [] m' (t' & -> & G' & HP). exists t'. splits; auto. rewrite HP, HE.
    rewrite stored_new, app_nil_r; auto. now apply (pairs_distinct Qundef undef_alone), good_wf.
Qed.

(** The Hash gets the new table. *)
Lemma rep_swap m am h o a t x b t' m' :
  rep m am -> hash_rep m am h o a t x -> good_mem m' -> next_hash m' = next_hash m ->
  hashes m' = <[h := set_tbl b o]> (hashes m) ->
  (forall c u, c <> a -> tables m !! c = Some u -> tables m' !! c = Some u) -> tables m' !! b = Some t' ->
  Permutation (pairs t') (pairs t) -> rep m' am.
Proof.
  intros R HR G' HN HH HT Hb HP. pose proof HR as [[Ho Ha Ht] Hx B1 B2 B3 B4 B5 B6]. split; auto.
  - rewrite HN. apply (rep_next m am R).
  - intros h'. rewrite HH. destruct (decide (h' = h)) as [->|Hn]; [rewrite lookup_insert_eq, Hx; split; discriminate|].
    rewrite lookup_insert_ne by congruence. apply (rep_none m am R).
  - intros h' y Hy. destruct (decide (h' = h)) as [->|Hn].
    + rewrite Hx in Hy. injection Hy as <-. exists (set_tbl b o), b, t'. split; auto; [|now rewrite HP].
      split; auto. rewrite HH. apply lookup_insert_eq.
    + destruct (rep_hash m am R h' y Hy) as (o2 & a2 & t2 & [[Ho2 Ha2 Ht2] Hx2 C1 C2 C3 C4 C5 C6]).
      exists o2, a2, t2. split; auto. split; auto; [rewrite HH; now rewrite lookup_insert_ne by congruence|].
      apply HT; auto. intros ->. apply Hn. exact (gm_owner m (rep_good m am R) h' h o2 o a Ho2 Ho Ha2 Ha).
Qed.

Lemma rehash_size_ok m am h o a t x : rep m am -> hash_rep m am h o a t x -> 0 <= num_entries t < 268435456.
Proof.
  intros R HR. pose proof (good_of m am h o a t x R HR) as Gt. pose proof (good_count _ t Gt) as HC. unfold MAX in HC.
  rewrite (pairs_count Qundef t (good_wf _ t Gt)) in *. lia.
Qed.

Lemma rehash_implements m am h o a t x :
  rep m am -> hash_rep m am h o a t x ->
  implements Object m (fun fuel => rb_hash_rehash fuel h) (changing x (inl (Object h, am))).
Proof.
  intros R HR. pose proof (rep_good m am R) as G. pose proof HR as [[Ho Ha Ht] Hx B1 B2 B3 B4 B5 B6].
  assert (HA : forall fuel, rb_hash_rehash fuel h m = Timeout \/ rb_hash_rehash fuel h m = Crash \/
    (exists e m', rb_hash_rehash fuel h m = Exn e m') \/ exists v m', rb_hash_rehash fuel h m = Val v m' /\ good_mem m').
  { intros fuel. pose proof (rehash_spec' (fun _ => True) (fun _ => I) fuel m h G (ex_intro _ o Ho)) as HS. unfold spec in HS.
    destruct (rb_hash_rehash fuel h m) as [v m'|e m'| |]; eauto 8. right; right; right. exists v, m'. tauto. }
  destruct (refused_modifiable m am h o a t x HR) as [H1 H2]. unfold changing. destruct (refused x) as [e|].
  { exists 0%nat, (Exn e m). split; [|cbn; auto]. intros fuel _. unfold rb_hash_rehash. now apply H2. }
  set (P := fun m' : memory => good_mem m' -> rep m' am).
  assert (HL : total m (fun fuel => rb_hash_rehash fuel h) (fun r m' => r = h /\ P m') (fun _ => False)).
  { pose proof (rehash_size_ok m am h o a t x R HR) as HN.
    destruct (good_init Qundef (num_entries t) HN) as (tb & E & Gb & Hp & _).
    set (b := new_address (tables m)). pose proof (new_table_spec (fun _ => True) m tb G Gb) as HS.
    unfold spec, new_table in HS. fold b in HS. set (m1 := mkMemory (hashes m) (<[b := tb]> (tables m)) (next_hash m)) in HS.
    destruct HS as (G1 & _ & Hb & _ & Hfree & Hold).
    assert (Hab : a <> b) by exact (proj1 (Hold a t Ht)).
    assert (Own1 : owns m1 h o a t) by (split; auto; exact (proj2 (Hold a t Ht))).
    apply (total_eq m _ (fun fuel _ => (rb_hash_foreach fuel h (rb_hash_rehash_i b) tt ;;; old <- tbl_of h ;;
      st_free_table old ;;; upd h (set_tbl b) ;;; ret h) m1)).
    { intros fuel. unfold rb_hash_rehash. rewrite (run_modify h _ m o a Ho Ha (proj1 H1 eq_refl)). unfold rb_hash_size.
      rewrite run_assoc, (run_tbl h _ m o a Ho Ha), run_assoc, (run_table a _ m t Ht), run_ret, E. reflexivity. }
    apply (total_bind m1 (fun fuel => rb_hash_foreach fuel h (rb_hash_rehash_i b) tt) (fun _ _ => _) _ _ _
      (rehash_loop m1 h o a t b tb G1 Own1 Hab Hb Hp)).
    intros [] m2 (t' & -> & G' & HP). apply total_const.
    rewrite (run_tbl h _ (put_table b t' m1) o a Ho Ha). unfold st_free_table.
    rewrite run_assoc, (run_table a _ _ t) by (cbn; rewrite !lookup_insert_ne by congruence; exact Ht).
    unfold bindM, upd. cbn. rewrite Ho. cbn. split; auto. intros GM. rewrite insert_insert_eq in *.
    eapply (rep_swap m am h o a t x b t'); eauto; cbn; auto.
    - intros c u Hc Hu. rewrite lookup_delete_ne by congruence. rewrite lookup_insert_ne; auto.
      intros <-. exact (proj1 (Hold b u Hu) eq_refl).
    - rewrite lookup_delete_ne by congruence. apply lookup_insert_eq. }
  destruct HL as (n & r & Hr & HP). exists n, r. split; [exact Hr|]. pose proof (HA n) as HX. rewrite (Hr n (le_n n)) in HX.
  destruct r as [v m'|e m'| |]; cbn in *; try contradiction; [|tauto]. destruct HP as [-> HP]. exists am. split; auto.
  apply HP. destruct HX as [HX|[HX|[(e & m2 & HX)|(v & m2 & HX & GM)]]]; try discriminate. now injection HX as _ <-.
Qed.

(** *** Comparisons and flags *)

Lemma included_permutation l1 m1 l2 m2 :
  keys_distinct l2 -> Permutation l1 m1 -> Permutation l2 m2 -> included l1 l2 = included m1 m2.
Proof.
  intros HD H1 H2. unfold included. transitivity (forallb (fun p => match get_pair (fst p) m2 with
    | Some v => rb_equal (snd p) v | None => false end) l1).
  - clear H1 m1. induction l1 as [|p l1 IH]; cbn [forallb]; auto. now rewrite IH, (get_pair_permutation _ l2 m2 HD H2).
  - clear H2 HD. induction H1; cbn [forallb]; auto; [now rewrite IHPermutation|now rewrite !andb_assoc, (andb_comm (match get_pair (fst y) m2 with Some _ => _ | None => _ end))|congruence].
Qed.

Lemma equals_implements m am h o a t x h2 o2 a2 t2 y eql :
  rep m am -> hash_rep m am h o a t x -> hash_rep m am h2 o2 a2 t2 y ->
  implements Truth m (fun fuel => hash_equal fuel h h2 eql) (inl (Truth ((h =? h2)%positive || a_equal x y eql), am)).
Proof.
  intros R HR HR2. destruct (Pos.eqb_spec h h2) as [->|Hne].
  { apply (implements_val Truth _ _ _ m); auto. intros fuel. unfold hash_equal. now rewrite Pos.eqb_refl. }
  exists (fe_fuel t). eexists. split; [intros fuel Hf; apply (equal_reads fuel h h2 m o a t o2 a2 t2 eql (rep_good m am R) Hne); auto; apply HR || apply HR2|].
  cbn. exists am. split; auto. unfold a_equal, a_size.
  destruct HR as [_ _ B1 B2 B3 B4 B5 B6]. pose proof (distinct_of m am h2 o2 a2 t2 y R HR2) as HD.
  destruct HR2 as [_ _ C1 C2 C3 C4 C5 C6].
  rewrite B2, C2, B3, C3, (Permutation_length B6), (Permutation_length C6), (included_permutation _ _ _ _ HD B6 C6).
  cbn. now rewrite andb_true_r.
Qed.

Lemma freeze_implements m am h o a t x :
  rep m am -> hash_rep m am h o a t x ->
  implements Object m (fun _ => rb_hash_freeze h)
    (if a_frozen x then inl (Object h, am) else
     if (4 <=? safe_level) && negb (a_tainted x) then inr SecurityError else
     inl (Object h, a_put h (mkAhash (a_pairs x) (a_ifnone x) true (a_tainted x)) am)).
Proof.
  intros R HR. pose proof HR as [[Ho Ha Ht] Hx B1 B2 B3 B4 B5 B6]. apply total_const. unfold rb_hash_freeze.
  rewrite (run_get h _ m o Ho), B4, B5. destruct (a_frozen x); [cbn; eauto|].
  destruct ((4 <=? safe_level) && negb (a_tainted x)); [cbn; auto|]. rewrite (run_upd h _ _ m o Ho). cbn. eexists. split; [reflexivity|].
  rewrite <- (put_table_same m a t Ht) at 1. apply (rep_put m am h o a t x); auto; cbn; auto.
  - now apply (good_of m am h o a t x).
  - now apply (gh_deleted _ _ _ (gm_hash m (rep_good m am R) h o Ho)).
  - now apply (ifnone_valid m am h o a t x).
Qed.

Lemma set_default_implements m am h o a t x v :
  rep m am -> hash_rep m am h o a t x -> v <> Qundef ->
  implements Word m (fun _ => rb_hash_set_default h v)
    (changing x (inl (Word v, a_put h (mkAhash (a_pairs x) v (a_frozen x) (a_tainted x)) am))).
Proof.
  intros R HR Hv. pose proof HR as [[Ho Ha Ht] Hx B1 B2 B3 B4 B5 B6]. unfold rb_hash_set_default.
  apply (implements_modify Word m am h o a t x (fun _ => _) _ HR). intros HM. apply total_const.
  rewrite (run_upd h _ _ m o Ho), (run_upd h _ _ _ (set_ifnone v o)) by (cbn; apply lookup_insert_eq). rewrite put_hash_put.
  cbn. eexists. split; [reflexivity|]. rewrite <- (put_table_same m a t Ht) at 1. apply (rep_put m am h o a t x); auto.
  - now apply (good_of m am h o a t x).
  - now apply (gh_deleted _ _ _ (gm_hash m (rep_good m am R) h o Ho)).
Qed.

(** ** Programs *)

Lemma perform_implements m am c :
  rep m am -> is_map_call c = true ->
  implements (fun a => a) m (fun fuel => perform fuel proc_call c) (a_perform c am).
Proof.
  intros R HC. destruct c; try discriminate; cbn [perform a_perform];
    repeat (apply implements_on; [exact R|intros]); apply implements_answer.
  - now apply new_implements.
  - eapply aref_implements; eauto using word_ok.
  - eapply aset_implements; eauto using word_ok.
  - eapply fetch_implements; eauto using word_ok.
  - eapply has_key_implements; eauto using word_ok.
  - eapply size_implements; eauto.
  - eapply empty_implements; eauto.
  - eapply delete_implements; eauto using word_ok.
  - eapply clear_implements; eauto.
  - eapply replace_implements; eauto.
  - eapply dup_implements; eauto.
  - eapply equals_implements; eauto.
  - cbn in HC. apply negb_true_iff, Pos.eqb_neq in HC. eapply update_implements; eauto.
  - eapply rehash_implements; eauto.
  - eapply freeze_implements; eauto.
  - eapply default_implements; eauto.
  - eapply set_default_implements; eauto using word_ok.
Qed.

Lemma exec_implements p m am :
  map_prog p -> rep m am -> implements (fun a => a) m (fun fuel => exec fuel proc_call p) (a_exec p am).
Proof.
  intros HP. revert m am. induction HP as [v|er|c k HC HK IH]; intros m am R; cbn [exec a_exec].
  - apply total_ret. eauto.
  - exists 0%nat, (Exn er m). split; [reflexivity|cbn; auto].
  - destruct (perform_implements m am c R HC) as (n & r & Hr & HQ). destruct r as [v m'|e m'| |]; cbn in HQ; try contradiction.
    + destruct HQ as (am' & -> & R'). apply (total_run m _ (fun fuel a => _) v m' n); auto. now apply IH.
    + exists n, (Exn e m'). split; [intros fuel Hf; unfold bindM; now rewrite (Hr fuel Hf)|].
      cbn. destruct HQ as [-> | ->]; auto.
Qed.
End Methods.
End Concrete.

Lemma rep_empty {objects : Objects} : rep empty_memory (mkAmemory ∅ 1).
Proof. split; [apply empty_good|reflexivity|intros h; cbn; now rewrite !lookup_empty|intros h x H; cbn in H; now rewrite lookup_empty in H]. Qed.

(** *** Properties *)

(** C6: a program whose calls are New, [], fetch, []=, has_key?, size, empty?,
    delete, clear, replace, dup, update, rehash, ==, eql?, freeze, default and
    default= ends, and does to the Hashes in memory what it does to lists of
    pairs with distinct keys whose order does not count: it has the same answer
    and leaves Hashes with these pairs, defaults and flags, or it raises the same
    exception, or there is no memory for another entry.  The calls take no block,
    a Hash is not updated with itself and has no default procedure; delete of a
    missing key answers nil, whatever the default is, where its documentation
    promises the default value. *)
Theorem hashes_are_maps {objects : Objects} {laws : ObjectLaws objects}
    {machine : Machine} {mlaws : MachineLaws machine} proc_call p m am :
  map_prog p -> rep m am ->
  exists n r, (forall fuel, (n <= fuel)%nat -> exec fuel proc_call p m = r) /\
    match r with
    | Val a m' => exists am', a_exec p am = inl (a, am') /\ rep m' am'
    | Exn e _ => e = NoMemoryError \/ a_exec p am = inr e
    | Crash | Timeout => False
    end.
Proof. intros HP R. exact (exec_implements proc_call p m am HP R). Qed.

(** Two Hashes; the second gets the pairs of the first, then they differ by a
    deleted key. *)
Definition sample_calls : prog :=
  Call New (fun _ => Call New (fun _ => Call (Aset 1 8 11) (fun _ => Call (Aset 1 23 13) (fun _ =>
  Call (Aset 2 1 15) (fun _ => Call (Update 2 1) (fun _ => Call (Delete 2 1) (fun v => Call (Rehash 2) (fun _ =>
  Call (Equals 1 2 true) (fun b => Call (Dup 1) (fun _ => Call (Delete 3 12) (fun w => Call (Equals 1 3 false) (fun c =>
  Call (Aref 1 12) (fun x => Return (match v, b, w, c, x with
    | Word v, Truth b, Word w, Truth c, Word x => Words [v; if b then 1 else 0; w; if c then 1 else 0; x]
    | _, _, _, _, _ => Nothing end)))))))))))))).

Lemma hashes_are_maps_witness :
  let exec fuel := @exec sample_objects sample_machine fuel (fun _ _ _ => ret Qnil) sample_calls empty_memory in
  match exec 200%nat with Val a _ => a = Words [15; 1; 11; 0; 11] | _ => False end /\
  exists n, (exists m', exec n = Exn NoMemoryError m') \/
    exists m' am', (forall fuel, (n <= fuel)%nat -> exec fuel = Val (Words [15; 1; 11; 0; 11]) m') /\ @rep sample_objects m' am' /\
      a_hashes am' !! 3%positive = Some (mkAhash [(23, 13)] Qnil false false).
Proof.
  intros exec. split; [vm_compute; reflexivity|].
  destruct (@hashes_are_maps sample_objects sample_object_laws sample_machine sample_machine_laws (fun _ _ _ => ret Qnil)
    sample_calls empty_memory (mkAmemory ∅ 1)) as (n & r & HE & HR).
  - unfold sample_calls. do 13 (constructor; [reflexivity|intros ?]). constructor.
  - exact (@rep_empty sample_objects).
  - exists n. destruct r as [a m'|e m'| |]; try contradiction.
    + right. destruct HR as (am' & HA & R). exists m', am'. vm_compute in HA. injection HA as <- <-. splits; auto.
    + left. exists m'. destruct HR as [->|HA]; [exact (HE n (le_n n))|]. vm_compute in HA. discriminate.
Defined.
