(* ===== verification/StrTr.v ===== *)
(** * Strings: sets of characters and translation

    string.c: the sequence a string such as ["a-z"] or ["^aeiou"] stands for
    ([trnext]), the methods [tr] and [tr_s] ([tr_trans]), and the methods that
    take sets of characters: [delete], [squeeze] and [count].  A string is the
    list of its bytes, an array of 256 entries a function of its index. *)

From Stdlib Require Import ZArith Lia List Bool.
From S2P Require Import Prelude CInt StrSearch.
Import ListNotations.
Local Open Scope Z_scope.
Local Open Scope outcome_scope.

(** ** The generator *)

(** [p] is what is left between [p] and [pend]; [gen] says that a range is being run through. *)
Record tr := Tr { gen : bool; now : Z; max : Z; p : list Z }.

(** The branch without a range: the next character, which may start one. *)
Fixpoint trnext_char (t_now t_max : Z) (t_p : list Z) : Z * tr :=
  match t_p with
  | [] => (-1, Tr false t_now t_max [])
  | a :: p1 =>
      let rest now p2 :=
        match p2 with
        | d :: p3 =>
            match p3 with
            | m :: p4 =>
                if d =? 45 then
                  if m <? now then trnext_char now t_max p4 else (now, Tr true now m p4)
                else (now, Tr false now t_max p2)
            | [] => (now, Tr false now t_max p2)
            end
        | [] => (now, Tr false now t_max p2)
        end in
      match p1 with
      | b :: p2 => if a =? 92 then rest b p2 else rest a p1
      | [] => rest a p1
      end
  end.

Definition trnext (t : tr) : Z * tr :=
  if gen t then
    if now t + 1 <? max t then (now t + 1, Tr true (now t + 1) (max t) (p t))
    else (max t, Tr false (now t + 1) (max t) (p t))
  else trnext_char (now t) (max t) (p t).

(** The number of calls [trnext] can still answer. *)
Definition tr_measure (t : tr) : nat :=
  (257 * length (p t) + (if gen t then 1 + Z.to_nat (max t - now t) else 0))%nat.

(** [while ((c = trnext(&t)) >= 0)]: the characters, and what is left of [t]. *)
Fixpoint tr_loop (n : nat) (t : tr) : option (list Z * tr) :=
  match n with
  | O => None
  | S n =>
      let '(c, t) := trnext t in
      if 0 <=? c then option_map (fun '(cs, t) => (c :: cs, t)) (tr_loop n t) else Some ([], t)
  end.

Definition tr_all (t : tr) : option (list Z * tr) := tr_loop (S (tr_measure t)) t.

(** A leading [^], which takes the complement when something follows it. *)
Definition tr_start (s : list Z) : bool * tr :=
  match s with
  | c :: _ :: _ => if c =? 94 then (true, Tr false 0 0 (tl s)) else (false, Tr false 0 0 s)
  | _ => (false, Tr false 0 0 s)
  end.

(** ** Tables of 256 entries *)

Definition set_entry {A} (f : Z -> A) (i : Z) (v : A) : Z -> A := fun j => if j =? i then v else f j.

(** [while ((c = trnext(&tr)) >= 0) buf[c & 0xff] = !cflag] and the intersection. *)
Definition tr_setup_table (str : list Z) (table : Z -> bool) (init : bool) : option (Z -> bool) :=
  let '(cflag, t) := tr_start str in
  let table := if init then fun _ => true else table in
  match tr_all t with
  | Some (cs, _) =>
      let buf := fold_left (fun buf c => set_entry buf (Z.land c 255) (negb cflag)) cs (fun _ => cflag) in
      Some (fun i => table i && buf i)
  | None => None
  end.

(** The loop over the arguments: the first one starts the table. *)
Fixpoint setup_tables (argv : list (list Z)) (table : Z -> bool) (init : bool) : option (Z -> bool) :=
  match argv with
  | [] => Some table
  | s :: argv =>
      match tr_setup_table s table init with
      | Some table => setup_tables argv table false
      | None => None
      end
  end.

(** An array before it is assigned. *)
Definition unset : Z -> bool := fun _ => false.

Fixpoint delete_loop (squeez : Z -> bool) (s : list Z) : bool * list Z :=
  match s with
  | [] => (false, [])
  | c :: s =>
      let '(modify, t) := delete_loop squeez s in
      if squeez (Z.land c 255) then (true, t) else (modify, c :: t)
  end.

(** The second component is the string after the call, the first is false where the method returns [nil]. *)
Definition rb_str_delete_bang (argv : list (list Z)) (str : list Z) : option (outcome (bool * list Z)) :=
  match argv with
  | [] => Some (Raise ArgumentError)
  | _ =>
      match setup_tables argv unset true with
      | None => None
      | Some squeez =>
          if len str =? 0 then Some (Ok (false, str)) else Some (Ok (delete_loop squeez str))
      end
  end.

Fixpoint squeeze_loop (squeez : Z -> bool) (save : Z) (s : list Z) : list Z :=
  match s with
  | [] => []
  | c :: s =>
      let c := Z.land c 255 in
      if negb (c =? save) || negb (squeez c) then c :: squeeze_loop squeez c s
      else squeeze_loop squeez save s
  end.

Definition rb_str_squeeze_bang (argv : list (list Z)) (str : list Z) : option (bool * list Z) :=
  match (match argv with [] => Some (fun _ => true) | _ => setup_tables argv unset true end) with
  | None => None
  | Some squeez =>
      if len str =? 0 then Some (false, str) else
      let t := squeeze_loop squeez (-1) str in
      Some (negb (len t =? len str), t)
  end.

Definition rb_str_count (argv : list (list Z)) (str : list Z) : option (outcome Z) :=
  match argv with
  | [] => Some (Raise ArgumentError)
  | _ =>
      match setup_tables argv unset true with
      | None => None
      | Some table =>
          if len str =? 0 then Some (Ok 0) else
          Some (Ok (fold_left (fun i c => if table (Z.land c 255) : bool then i + 1 else i) str 0))
      end
  end.

(** ** Translation *)

(** The loop that takes one character of each string; past its end the replacement stays at [now]. *)
Fixpoint tr_pairs (n : nat) (trsrc trrepl : tr) (trans : Z -> Z) : option (Z -> Z) :=
  match n with
  | O => None
  | S n =>
      let '(c, trsrc) := trnext trsrc in
      if 0 <=? c then
        let '(r, trrepl) := trnext trrepl in
        let r := if r =? -1 then now trrepl else r in
        tr_pairs n trsrc trrepl (set_entry trans (Z.land c 255) r)
      else Some trans
  end.

Definition tr_table (src repl : list Z) : option (Z -> Z) :=
  let '(cflag, trsrc) := tr_start src in
  let trrepl := Tr false 0 0 repl in
  if cflag : bool then
    match tr_all trsrc, tr_all trrepl with
    | Some (cs, _), Some (_, trrepl) =>
        let trans := fold_left (fun trans c => set_entry trans (Z.land c 255) (-1)) cs (fun _ => 1) in
        Some (fun i => if 0 <=? trans i then now trrepl else trans i)
    | _, _ => None
    end
  else tr_pairs (S (tr_measure trsrc)) trsrc trrepl (fun _ => -1).

Fixpoint tr_loop_s (trans : Z -> Z) (last : Z) (s : list Z) : bool * list Z :=
  match s with
  | [] => (false, [])
  | c0 :: s =>
      let c := trans (Z.land c0 255) in
      if 0 <=? c then
        if last =? c then tr_loop_s trans last s
        else let '(_, t) := tr_loop_s trans c s in (true, Z.land c 255 :: t)
      else let '(modify, t) := tr_loop_s trans (-1) s in (modify, c0 :: t)
  end.

Fixpoint tr_loop_c (trans : Z -> Z) (s : list Z) : bool * list Z :=
  match s with
  | [] => (false, [])
  | c0 :: s =>
      let '(modify, t) := tr_loop_c trans s in
      let c := trans (Z.land c0 255) in
      if 0 <=? c then (true, Z.land c 255 :: t) else (modify, c0 :: t)
  end.

Definition tr_trans (str src repl : list Z) (sflag : bool) : option (outcome (bool * list Z)) :=
  if len str =? 0 then Some (Ok (false, str)) else
  if len repl =? 0 then rb_str_delete_bang [src] str else
  match tr_table src repl with
  | None => None
  | Some trans =>
      Some (Ok (if sflag then
                  let '(modify, t) := tr_loop_s trans (-1) str in (modify || (len t <? len str), t)
                else tr_loop_c trans str))
  end.

(** [tr!], [tr_s!]. *)
Definition rb_str_tr_bang (str src repl : list Z) : option (outcome (bool * list Z)) := tr_trans str src repl false.
Definition rb_str_tr_s_bang (str src repl : list Z) : option (outcome (bool * list Z)) := tr_trans str src repl true.

Example tr_hello : rb_str_tr_bang [104; 101; 108; 108; 111] [97; 45; 121] [98; 45; 122] = Some (Ok (true, [105; 102; 109; 109; 112])).
Proof. vm_compute. reflexivity. Qed.

(** ** Specification: items *)

Inductive item := Single (c : Z) | Range (a m : Z).

(** Reading a string: [\c] is [c], [a-m] a range unless [-] is first or last. *)
Fixpoint items (s : list Z) : list item :=
  match s with
  | [] => []
  | a :: s1 =>
      let rest c s2 :=
        match s2 with
        | d :: m :: s4 => if d =? 45 then Range c m :: items s4 else Single c :: items s2
        | _ => Single c :: items s2
        end in
      match s1 with
      | b :: s2 => if a =? 92 then rest b s2 else rest a s1
      | [] => rest a s1
      end
  end.

(** [n] characters from [a] on. *)
Fixpoint run (a : Z) (n : nat) : list Z :=
  match n with O => [] | S n => a :: run (a + 1) n end.

(** What an item stands for. *)
Definition item_chars (i : item) : list Z :=
  match i with
  | Single c => [c]
  | Range a m => if m <? a then [] else if m =? a then [a; a] else run a (Z.to_nat (m - a + 1))
  end.

Definition chars (s : list Z) : list Z := flat_map item_chars (items s).

(** What [now] is after an item. *)
Definition item_now (i : item) : Z :=
  match i with
  | Single c => c
  | Range a m => if m <? a then a else if m =? a then a + 1 else m
  end.

Definition pad (s : list Z) : Z := fold_left (fun _ i => item_now i) (items s) 0.

(** The generator gives [cs] and stops in state [t']. *)
Inductive yields : tr -> list Z -> tr -> Prop :=
  | yields_end t t' : trnext t = (-1, t') -> yields t [] t'
  | yields_next t c t1 cs t' : trnext t = (c, t1) -> 0 <= c -> yields t1 cs t' -> yields t (c :: cs) t'.

Lemma yields_loop n t cs t' : yields t cs t' -> (length cs < n)%nat -> tr_loop n t = Some (cs, t').
Proof.
  intros H. revert n. induction H as [t t' H | t c t1 cs t' H Hc _ IH]; intros [|n] Hn; cbn in Hn; try lia; cbn [tr_loop].
  - now rewrite H.
  - rewrite H. replace (0 <=? c) with true by (symmetry; apply Z.leb_le; exact Hc).
    rewrite IH by lia. reflexivity.
Qed.

Lemma run_snoc a n : run a (Datatypes.S n) = run a n ++ [a + Z.of_nat n].
Proof.
  revert a; induction n as [|n IH]; intros a; [cbn; now rewrite Z.add_0_r|].
  change (run a (Datatypes.S (Datatypes.S n))) with (a :: run (a + 1) (Datatypes.S n)). rewrite IH.
  replace (a + 1 + Z.of_nat n) with (a + Z.of_nat (Datatypes.S n)) by lia. reflexivity.
Qed.

Lemma run_length a n : length (run a n) = n.
Proof. revert a; induction n; intros; cbn; auto. Qed.

(** A range under way gives what lies between [now] and [max], and [max]. *)
Lemma yields_range k n m p cs t' :
  0 <= n -> m = n + Z.of_nat k + 1 ->
  yields (Tr false m m p) cs t' -> yields (Tr true n m p) (run (n + 1) k ++ m :: cs) t'.
Proof.
  revert n; induction k as [|k IH]; intros n Hn Hm H; cbn [run app].
  - apply yields_next with (t1 := Tr false m m p); [|lia | exact H].
    unfold trnext. cbn [gen now max]. replace (n + 1) with m by lia. now rewrite Z.ltb_irrefl.
  - apply yields_next with (t1 := Tr true (n + 1) m p); [|lia | apply IH; [lia | lia | exact H]].
    unfold trnext. cbn [gen now max]. now replace (n + 1 <? m) with true by (symmetry; apply Z.ltb_lt; lia).
Qed.

(** A whole range: the last [now] is one too high when both ends are the same. *)
Lemma yields_whole a m t_now t_max p cs :
  0 <= a <= m ->
  yields (Tr false (item_now (Range a m)) m p) cs (Tr false t_now t_max []) ->
  yields (Tr true a m p) (tl (item_chars (Range a m)) ++ cs) (Tr false t_now t_max []).
Proof.
  intros Ha H. unfold item_chars, item_now in *. replace (m <? a) with false in * by (symmetry; apply Z.ltb_ge; lia).
  destruct (m =? a) eqn:E; breflect.
  - subst. cbn [tl app]. apply yields_next with (t1 := Tr false (a + 1) a p); [|lia | exact H].
    unfold trnext. cbn [gen now max]. now replace (a + 1 <? a) with false by (symmetry; apply Z.ltb_ge; lia).
  - replace (Z.to_nat (m - a + 1)) with (Datatypes.S (Datatypes.S (Z.to_nat (m - a - 1)))) by lia.
    rewrite run_snoc. cbn [run app tl]. rewrite <- app_assoc. cbn [app].
    replace (a + Z.of_nat (Datatypes.S (Z.to_nat (m - a - 1)))) with m by lia.
    apply yields_range; [lia | lia | exact H].
Qed.

Lemma item_chars_hd a m : a <= m -> item_chars (Range a m) = a :: tl (item_chars (Range a m)).
Proof.
  intros H. unfold item_chars. replace (m <? a) with false by (symmetry; apply Z.ltb_ge; lia).
  destruct (m =? a); [reflexivity|]. now replace (Z.to_nat (m - a + 1)) with (Datatypes.S (Z.to_nat (m - a))) by lia.
Qed.

Lemma yields_ext t u cs t' : trnext t = trnext u -> yields u cs t' -> yields t cs t'.
Proof. intros E H. inversion H; subst; [apply yields_end | eapply yields_next]; try rewrite E; eauto. Qed.

(** The string after its first character [c], [c] taken. *)
Definition items_rest (c : Z) (s2 : list Z) : list item :=
  match s2 with
  | d :: m :: s4 => if d =? 45 then Range c m :: items s4 else Single c :: items s2
  | _ => Single c :: items s2
  end.

Definition trnext_rest (t_max c : Z) (s2 : list Z) : Z * tr :=
  match s2 with
  | d :: m :: p4 =>
      if d =? 45 then if m <? c then trnext_char c t_max p4 else (c, Tr true c m p4)
      else (c, Tr false c t_max s2)
  | _ => (c, Tr false c t_max s2)
  end.

Lemma items_cons a s : items (a :: s) =
  match s with b :: s2 => if a =? 92 then items_rest b s2 else items_rest a s | [] => items_rest a s end.
Proof. destruct s as [|b s]; [reflexivity|]. cbn. destruct (a =? 92); reflexivity. Qed.

Lemma trnext_char_cons t_now t_max a s : trnext_char t_now t_max (a :: s) =
  match s with
  | b :: s2 => if a =? 92 then trnext_rest t_max b s2 else trnext_rest t_max a s
  | [] => trnext_rest t_max a s
  end.
Proof.
  destruct s as [|b s]; [reflexivity|]. cbn. destruct (a =? 92); [|destruct s; reflexivity].
  destruct s as [|d [|m s]]; reflexivity.
Qed.

Lemma items_rest_cases c s2 :
  (exists m s4, s2 = 45 :: m :: s4 /\ items_rest c s2 = Range c m :: items s4) \/
  (items_rest c s2 = Single c :: items s2 /\ forall t_max, trnext_rest t_max c s2 = (c, Tr false c t_max s2)).
Proof.
  destruct s2 as [|d [|m s4]]; [right; split; reflexivity | right; split; reflexivity |].
  cbn [items_rest trnext_rest]. destruct (d =? 45) eqn:E; [apply Z.eqb_eq in E as ->; left; exists m, s4 | right]; split; reflexivity.
Qed.

(** The generator from a character on. *)
Lemma yields_rest c s2 t_now t_max :
  0 <= c ->
  (forall t_now t_max, exists t_max', yields (Tr false t_now t_max s2) (chars s2) (Tr false (fold_left (fun _ => item_now) (items s2) t_now) t_max' [])) ->
  (forall m s4, s2 = 45 :: m :: s4 -> forall t_now t_max, exists t_max',
     yields (Tr false t_now t_max s4) (chars s4) (Tr false (fold_left (fun _ => item_now) (items s4) t_now) t_max' [])) ->
  forall t, trnext t = trnext_rest t_max c s2 ->
  exists t_max', yields t (flat_map item_chars (items_rest c s2))
    (Tr false (fold_left (fun _ => item_now) (items_rest c s2) t_now) t_max' []).
Proof.
  intros Hc H2 H4 t Ht. destruct (items_rest_cases c s2) as [(m & s4 & -> & Hi) | [Hi Hr]]; rewrite Hi; cbn [flat_map fold_left].
  - cbn in Ht. destruct (m <? c) eqn:E.
    + destruct (H4 m s4 eq_refl c t_max) as [t_max' H]. exists t_max'.
      unfold item_chars at 1, item_now at 2. rewrite E. cbn [app]. exact (yields_ext t (Tr false c t_max s4) _ _ Ht H).
    + breflect. destruct (H4 m s4 eq_refl (item_now (Range c m)) m) as [t_max' H]. exists t_max'.
      rewrite item_chars_hd by lia. cbn [app]. apply yields_next with (t1 := Tr true c m s4); [exact Ht | exact Hc |].
      apply yields_whole; [lia | exact H].
  - rewrite Hr in Ht. destruct (H2 c t_max) as [t_max' H]. exists t_max'. cbn [item_chars app item_now].
    apply yields_next with (t1 := Tr false c t_max s2); assumption.
Qed.

(** The generator goes through the items of its string. *)
Lemma yields_chars s : Forall (fun c => 0 <= c) s -> forall t_now t_max, exists t_max',
  yields (Tr false t_now t_max s) (chars s) (Tr false (fold_left (fun _ => item_now) (items s) t_now) t_max' []).
Proof.
  remember (length s) as n eqn:Hn. assert (length s <= n)%nat as Hle by lia. clear Hn.
  revert s Hle; induction n as [|n IH]; intros s Hle Hs t_now t_max.
  - destruct s; [|cbn in Hle; lia]. exists t_max. apply yields_end. reflexivity.
  - destruct Hs as [|a s Ha Hs]; [exists t_max; apply yields_end; reflexivity|]. cbn in Hle.
    unfold chars. rewrite items_cons.
    assert (forall s4, (length s4 <= length s)%nat -> Forall (fun c => 0 <= c) s4 -> forall t_now t_max, exists t_max',
      yields (Tr false t_now t_max s4) (chars s4) (Tr false (fold_left (fun _ => item_now) (items s4) t_now) t_max' [])) as IH'
      by (intros; apply IH; [lia | assumption]).
    pose proof (trnext_char_cons t_now t_max a s) as Ht. destruct s as [|b s2].
    + apply yields_rest with (t_max := t_max); [exact Ha | apply IH'; auto | discriminate | exact Ht].
    + inversion Hs as [|? ? Hb Hs2]; subst. destruct (a =? 92); apply yields_rest with (t_max := t_max); try assumption.
      * apply IH'; [cbn; lia | exact Hs2].
      * intros m s4 ->. apply IH'; [cbn; lia|]. now inversion Hs2 as [|? ? ? H4]; inversion H4.
      * apply IH'; [cbn; lia | exact Hs].
      * intros m s4 [= -> ->]. apply IH'; [cbn; lia|]. now inversion Hs2.
Qed.

Lemma run_bound a n m : a + Z.of_nat n <= m -> Forall (fun c => a <= c < m) (run a n).
Proof.
  revert a; induction n as [|n IH]; intros a H; cbn [run]; constructor; [lia|].
  eapply Forall_impl; [|apply IH; lia]. cbn. lia.
Qed.

(** Items made of bytes. *)
Definition item_ok (i : item) : Prop :=
  match i with Single c => byte c | Range a m => byte a /\ byte m end.

Lemma items_rest_ok c s2 :
  byte c -> Forall byte s2 -> (forall s4, (length s4 <= length s2)%nat -> Forall byte s4 -> Forall item_ok (items s4)) ->
  Forall item_ok (items_rest c s2).
Proof.
  intros Hc H2 IH. destruct (items_rest_cases c s2) as [(m & s4 & -> & ->) | [-> _]].
  - inversion H2 as [|? ? _ H3]; subst. inversion H3; subst. constructor; [split; assumption | apply IH; [cbn; lia | assumption]].
  - constructor; [exact Hc | apply IH; auto].
Qed.

Lemma items_ok s : Forall byte s -> Forall item_ok (items s).
Proof.
  remember (length s) as n eqn:Hn. assert (length s <= n)%nat as Hle by lia. clear Hn.
  revert s Hle; induction n as [|n IH]; intros s Hle Hs; (destruct Hs as [|a s Ha Hs]; [constructor|]); cbn in Hle; [lia|].
  rewrite items_cons. destruct s as [|b s2]; [apply items_rest_ok; auto; intros; apply IH; auto; cbn in *; lia|].
  destruct (a =? 92); apply items_rest_ok; auto; try (inversion Hs; subst; assumption).
  all: intros; apply IH; auto; cbn in *; lia.
Qed.

Lemma items_rest_length c s2 :
  (forall s4, (length s4 <= length s2)%nat -> (length (items s4) <= length s4)%nat) ->
  (length (items_rest c s2) <= Datatypes.S (length s2))%nat.
Proof.
  intros IH. destruct (items_rest_cases c s2) as [(m & s4 & -> & ->) | [-> _]]; cbn [length].
  - specialize (IH s4 ltac:(cbn; lia)). lia.
  - specialize (IH s2 ltac:(lia)). lia.
Qed.

Lemma items_length s : (length (items s) <= length s)%nat.
Proof.
  remember (length s) as n eqn:Hn. assert (length s <= n)%nat as Hle by lia. rewrite Hn. clear Hn.
  revert s Hle; induction n as [|n IH]; intros s Hle; (destruct s as [|a s]; [cbn; lia|]); cbn in Hle; [lia|].
  rewrite items_cons. destruct s as [|b s2]; [cbn; lia|].
  destruct (a =? 92).
  - pose proof (items_rest_length b s2 ltac:(intros; apply IH; cbn in *; lia)). cbn [length]. lia.
  - pose proof (items_rest_length a (b :: s2) ltac:(intros; apply IH; cbn in *; lia)). cbn [length] in *. lia.
Qed.

Lemma item_chars_ok i : item_ok i -> Forall byte (item_chars i) /\ (length (item_chars i) <= 256)%nat.
Proof.
  destruct i as [c | a m]; cbn; [intros Hc; split; [auto | lia]|]. unfold byte. intros [Ha Hm].
  destruct (m <? a) eqn:E1; breflect; [split; [constructor | cbn; lia]|].
  destruct (m =? a) eqn:E2; breflect; [split; [auto | cbn; lia]|].
  split; [eapply Forall_impl; [|apply (run_bound a _ (m + 1)); lia]; cbn; lia | rewrite run_length; lia].
Qed.

Lemma chars_ok s : Forall byte s -> Forall byte (chars s).
Proof.
  intros H. apply items_ok in H. unfold chars. induction H as [|i l Hi _ IH]; cbn; [constructor|].
  apply Forall_app. split; [now apply item_chars_ok | exact IH].
Qed.

Lemma chars_length s : Forall byte s -> (length (chars s) <= 256 * length s)%nat.
Proof.
  intros H. pose proof (items_length s) as Hl. apply items_ok in H. unfold chars.
  assert (length (flat_map item_chars (items s)) <= 256 * length (items s))%nat as Hi; [|lia].
  clear Hl. induction H as [|i l Hi _ IH]; cbn [flat_map length]; [lia|].
  rewrite length_app. apply item_chars_ok in Hi as [_ Hi]. lia.
Qed.

Lemma bytes_nonneg s : Forall byte s -> Forall (fun c => 0 <= c) s.
Proof. apply Forall_impl. unfold byte. lia. Qed.

(** The loops over the characters of a string end, and where they do. *)
Lemma tr_all_chars s : Forall byte s -> exists t, tr_all (Tr false 0 0 s) = Some (chars s, t) /\ now t = pad s.
Proof.
  intros H. destruct (yields_chars s (bytes_nonneg s H) 0 0) as [m Hy]. eexists. split.
  - unfold tr_all. apply (yields_loop _ _ _ _ Hy). pose proof (chars_length s H). unfold tr_measure. cbn [p gen]. lia.
  - reflexivity.
Qed.

(** ** Sets of characters *)

Definition negated (s : list Z) : bool := match s with c :: _ :: _ => c =? 94 | _ => false end.
Definition body (s : list Z) : list Z := if negated s then tl s else s.

Lemma tr_start_eq s : tr_start s = (negated s, Tr false 0 0 (body s)).
Proof. unfold body. destruct s as [|c [|d s]]; try reflexivity. cbn. destruct (c =? 94); reflexivity. Qed.

Lemma body_bytes s : Forall byte s -> Forall byte (body s).
Proof. unfold body. intros H. destruct (negated s); [|exact H]. destruct H; cbn; auto. Qed.

Definition mem (c : Z) (l : list Z) : bool := existsb (Z.eqb c) l.

(** The characters a set argument stands for. *)
Definition in_set (s : list Z) (c : Z) : bool := xorb (negated s) (mem c (chars (body s))).

Lemma land_byte_255 c : byte c -> Z.land c 255 = c.
Proof. intros H. change 255 with (Z.ones 8). rewrite Z.land_ones by lia. apply Z.mod_small. exact H. Qed.

Lemma fold_set_entry {A} (v : A) cs f i :
  Forall byte cs -> fold_left (fun f c => set_entry f (Z.land c 255) v) cs f i = if mem i cs then v else f i.
Proof.
  intros H. revert f; induction H as [|c cs Hc _ IH]; intros f; cbn [fold_left mem existsb]; [reflexivity|].
  rewrite IH, (land_byte_255 c Hc). unfold set_entry. fold (mem i cs). destruct (i =? c), (mem i cs); reflexivity.
Qed.

Lemma tr_setup_table_ok s table init :
  Forall byte s -> exists t, tr_setup_table s table init = Some t /\
    forall i, t i = (init || table i) && in_set s i.
Proof.
  intros H. unfold tr_setup_table. rewrite tr_start_eq.
  destruct (tr_all_chars (body s) (body_bytes s H)) as (t & -> & _). eexists. split; [reflexivity|]. intros i. cbn beta.
  rewrite fold_set_entry by auto using chars_ok, body_bytes. unfold in_set.
  destruct init, (table i), (negated s), (mem i _); reflexivity.
Qed.

(** The characters in every set. *)
Definition in_sets (argv : list (list Z)) (c : Z) : bool := forallb (fun s => in_set s c) argv.

Lemma setup_tables_ok argv table init :
  Forall (Forall byte) argv -> exists t, setup_tables argv table init = Some t /\
    forall i, t i = match argv with [] => table i | _ => (init || table i) && in_sets argv i end.
Proof.
  intros H. revert table init; induction H as [|s argv Hs Hargv IH]; intros table init; cbn [setup_tables].
  - exists table. split; reflexivity.
  - destruct (tr_setup_table_ok s table init Hs) as (t & -> & Ht).
    destruct (IH t false) as (t' & -> & Ht'). exists t'. split; [reflexivity|]. intros i. rewrite Ht', Ht.
    unfold in_sets. cbn [forallb]. destruct argv as [|s' argv]; [now rewrite andb_true_r | cbn [orb]; now rewrite andb_assoc].
Qed.

Lemma setup_tables_first argv : argv <> [] -> Forall (Forall byte) argv ->
  exists t, setup_tables argv unset true = Some t /\ forall i, t i = in_sets argv i.
Proof.
  intros Hne H. destruct (setup_tables_ok argv unset true H) as (t & Ht & Hi). exists t. split; [exact Ht|].
  intros i. rewrite Hi. destruct argv; [congruence | reflexivity].
Qed.

Lemma delete_loop_filter sq s : Forall byte s ->
  delete_loop sq s = (existsb sq s, filter (fun c => negb (sq c)) s).
Proof.
  induction 1 as [|c s Hc _ IH]; cbn [delete_loop existsb filter]; [reflexivity|].
  rewrite IH, (land_byte_255 c Hc). destruct (sq c); reflexivity.
Qed.

Lemma count_loop sq s i : Forall byte s ->
  fold_left (fun i c => if sq (Z.land c 255) : bool then i + 1 else i) s i = i + len (filter sq s).
Proof.
  intros H. revert i; induction H as [|c s Hc _ IH]; intros i; cbn [fold_left filter].
  - change (len []) with 0. lia.
  - rewrite IH, (land_byte_255 c Hc). destruct (sq c); [rewrite len_cons|]; lia.
Qed.

(** The characters of [s] that are not dropped, each seen with the one before it. *)
Definition keep (k : Z -> Z -> bool) (before : list Z) (s : list Z) : list Z :=
  map snd (filter (fun '(a, c) => k a c) (combine before s)).

Lemma squeeze_loop_keep sq save s : Forall byte s ->
  squeeze_loop sq save s = keep (fun a c => negb ((c =? a) && sq c)) (save :: s) s.
Proof.
  unfold keep. intros H. revert save; induction H as [|c s Hc _ IH]; intros save; [reflexivity|].
  cbn [squeeze_loop combine filter]. rewrite (land_byte_255 c Hc), negb_andb.
  destruct (c =? save) eqn:E; cbn [negb orb]; [|cbn [map snd]; now rewrite IH].
  apply Z.eqb_eq in E as ->. destruct (sq save); cbn [negb map snd]; now rewrite IH.
Qed.

Lemma keep_ext k k' a s : (forall x y, k x y = k' x y) -> keep k a s = keep k' a s.
Proof. intros H. unfold keep. f_equal. apply filter_ext. intros [x y]. apply H. Qed.

Lemma filter_partition (f : Z -> bool) s :
  len (filter f s) + len (filter (fun c => negb (f c)) s) = len s.
Proof.
  induction s as [|c s IH]; [reflexivity|]. cbn [filter]. destruct (f c); cbn [negb]; rewrite !len_cons; lia.
Qed.

Lemma filter_length_le' {A} (f : A -> bool) l : (length (filter f l) <= length l)%nat.
Proof. induction l as [|a l IH]; cbn; [lia|]. destruct (f a); cbn; lia. Qed.

(** Characters are dropped or the string is the same. *)
Lemma keep_changed k a s : (length s <= length a)%nat ->
  negb (len (keep k a s) =? len s) = true <-> keep k a s <> s.
Proof.
  intros Hl. rewrite negb_true_iff, Z.eqb_neq. split; [congruence|]. intros Hne E. apply Hne. clear Hne.
  unfold keep, len in *. rewrite length_map in E. apply Nat2Z.inj in E.
  revert a Hl E; induction s as [|c s IH]; intros [|b a] Hl E; cbn [length combine] in *; try reflexivity; try lia.
  cbn [filter] in *. destruct (k b c); cbn [map snd length] in *; [f_equal; apply IH; lia|].
  pose proof (filter_length_le' (fun '(a, c) => k a c) (combine a s)). rewrite length_combine in *. lia.
Qed.

Lemma existsb_ext' {A} (f g : A -> bool) l : (forall a, f a = g a) -> existsb f l = existsb g l.
Proof. intros H. induction l as [|a l IH]; cbn; [reflexivity|]. now rewrite H, IH. Qed.

(** ** Translation *)

(** The place of the last [c]. *)
Fixpoint last_index (c : Z) (l : list Z) : option nat :=
  match l with
  | [] => None
  | a :: l =>
      match last_index c l with
      | Some i => Some (Datatypes.S i)
      | None => if c =? a then Some 0%nat else None
      end
  end.

(** What [tr] makes of a character: [None] where it leaves it alone. *)
Definition tr_char (src repl : list Z) (c : Z) : option Z :=
  if negated src then if mem c (chars (body src)) then None else Some (pad repl)
  else option_map (fun i => nth i (chars repl) (pad repl)) (last_index c (chars (body src))).

Lemma yields_trans t cs t' : yields t cs t' -> trnext t' = (-1, t') ->
  forall n r rs r' trans i, (length cs < n)%nat -> Forall byte cs -> yields r rs r' -> trnext r' = (-1, r') ->
  Forall byte rs ->
  exists f, tr_pairs n t r trans = Some f /\
    f i = match last_index i cs with Some k => nth k rs (now r') | None => trans i end.
Proof.
  induction 1 as [t t' Ht | t c t1 cs t' Ht Hc Hy IH]; intros Hend n r rs r' trans i Hn Hcs Hr Hrend Hrs;
    (destruct n as [|n]; [cbn in Hn; lia|]); cbn in Hn; cbn [tr_pairs]; rewrite Ht.
  - exists trans. split; reflexivity.
  - replace (0 <=? c) with true by (symmetry; apply Z.leb_le; exact Hc). inversion Hcs as [|? ? Hc8 Hcs']; subst.
    rewrite (land_byte_255 c Hc8). specialize (IH Hend n). destruct Hr as [r r' Hr | r c' r1 rs r' Hr Hc' Hr1]; rewrite Hr.
    + cbn [Z.eqb Pos.eqb].
      destruct (IH r' [] r' (set_entry trans c (now r')) i ltac:(lia) Hcs' (yields_end _ _ Hrend) Hrend (Forall_nil _)) as (f & -> & Hf).
      exists f. split; [reflexivity|]. rewrite Hf. cbn [last_index].
      destruct (last_index i cs) as [k|]; [destruct k; reflexivity|]. unfold set_entry. destruct (i =? c); reflexivity.
    + replace (c' =? -1) with false by (symmetry; apply Z.eqb_neq; lia). inversion Hrs as [|? ? _ Hrs']; subst.
      destruct (IH r1 rs r' (set_entry trans c c') i ltac:(lia) Hcs' Hr1 Hrend Hrs') as (f & -> & Hf).
      exists f. split; [reflexivity|]. rewrite Hf. cbn [last_index].
      destruct (last_index i cs) as [k|]; [reflexivity|]. unfold set_entry. destruct (i =? c); reflexivity.
Qed.

Lemma pad_nonneg s : Forall byte s -> 0 <= pad s.
Proof.
  intros H. apply items_ok in H. unfold pad.
  assert (forall z, 0 <= z -> 0 <= fold_left (fun _ => item_now) (items s) z) as Hz; [|apply Hz; lia].
  induction H as [|i l Hi _ IH]; intros z Hz; cbn [fold_left]; [exact Hz|]. apply IH.
  destruct i as [c | a m]; cbn in Hi |- *; unfold byte in Hi; [lia|].
  destruct (m <? a), (m =? a); lia.
Qed.

Lemma tr_char_nonneg src repl c r : Forall byte repl -> tr_char src repl c = Some r -> 0 <= r.
Proof.
  intros H. pose proof (pad_nonneg repl H) as Hp. unfold tr_char. destruct (negated src).
  - destruct (mem _ _); [discriminate|]. intros [= <-]. exact Hp.
  - destruct (last_index _ _) as [k|]; [|discriminate]. cbn [option_map]. intros [= <-].
    destruct (nth_in_or_default k (chars repl) (pad repl)) as [Hi | ->]; [|exact Hp].
    pose proof (chars_ok repl H) as Hc. rewrite Forall_forall in Hc. apply Hc in Hi. unfold byte in Hi. lia.
Qed.

Definition entry (o : option Z) : Z := match o with Some r => r | None => -1 end.

Lemma tr_table_ok src repl : Forall byte src -> Forall byte repl ->
  exists trans, tr_table src repl = Some trans /\ forall i, trans i = entry (tr_char src repl i).
Proof.
  intros Hs Hr. unfold tr_table. rewrite tr_start_eq. apply body_bytes in Hs. unfold tr_char.
  destruct (tr_all_chars repl Hr) as (t & Hrepl & Hpad). destruct (negated src).
  - destruct (tr_all_chars (body src) Hs) as (ts & -> & _). rewrite Hrepl. eexists. split; [reflexivity|].
    intros i. cbn beta. rewrite fold_set_entry by now apply chars_ok.
    destruct (mem i _); [reflexivity | exact Hpad].
  - destruct (yields_chars (body src) (bytes_nonneg _ Hs) 0 0) as [m Hy].
    destruct (yields_chars repl (bytes_nonneg _ Hr) 0 0) as [m' Hy'].
    pose proof (chars_length (body src) Hs) as Hl.
    assert (forall i, exists f, tr_pairs (Datatypes.S (tr_measure (Tr false 0 0 (body src)))) (Tr false 0 0 (body src))
        (Tr false 0 0 repl) (fun _ => -1) = Some f /\
      f i = entry (option_map (fun i => nth i (chars repl) (pad repl)) (last_index i (chars (body src))))) as H.
    { intros i. assert (length (chars (body src)) < Datatypes.S (tr_measure (Tr false 0 0 (body src))))%nat as Hn
        by (unfold tr_measure; cbn [p gen]; lia).
      destruct (yields_trans _ _ _ Hy eq_refl _ _ _ _ (fun _ => -1) i Hn (chars_ok _ Hs) Hy' eq_refl (chars_ok _ Hr)) as (f & Hf & Hi).
      exists f. split; [exact Hf|]. rewrite Hi. destruct (last_index i _); reflexivity. }
    destruct (H 0) as (f & Hf & _). exists f. split; [exact Hf|]. intros i.
    destruct (H i) as (f' & Hf' & Hi). congruence.
Qed.

(** The byte that replaces [c], in memory. *)
Definition tr_out (src repl : list Z) (c : Z) : Z :=
  match tr_char src repl c with Some r => Z.land r 255 | None => c end.

Definition translated (src repl : list Z) (c : Z) : bool :=
  match tr_char src repl c with Some _ => true | None => false end.

Lemma entry_leb src repl c : Forall byte repl -> (0 <=? entry (tr_char src repl c)) = translated src repl c.
Proof.
  intros H. unfold translated. destruct (tr_char src repl c) as [r|] eqn:E; [|reflexivity].
  apply tr_char_nonneg in E; [|exact H]. now apply Z.leb_le.
Qed.

Lemma tr_loop_c_ok src repl trans s : Forall byte repl -> Forall byte s ->
  (forall i, trans i = entry (tr_char src repl i)) ->
  tr_loop_c trans s = (existsb (translated src repl) s, map (tr_out src repl) s).
Proof.
  intros Hr Hs Ht. induction Hs as [|c s Hc _ IH]; cbn [tr_loop_c existsb map]; [reflexivity|].
  rewrite IH, (land_byte_255 c Hc), Ht, entry_leb by exact Hr. unfold translated, tr_out.
  destruct (tr_char src repl c); reflexivity.
Qed.

(** The loop of [tr_s] drops a character translated to what the one before it was translated to. *)
Lemma tr_loop_s_ok src repl trans last s : Forall byte repl -> Forall byte s ->
  (forall i, trans i = entry (tr_char src repl i)) ->
  snd (tr_loop_s trans last s) =
  map (fun o => tr_out src repl (snd o))
    (filter (fun '(a, c) => negb (translated src repl c && (a =? trans c))) (combine (last :: map trans s) s)).
Proof.
  intros Hr Hs Ht. revert last; induction Hs as [|c s Hc _ IH]; intros last; [reflexivity|].
  cbn [tr_loop_s combine map filter]. rewrite (land_byte_255 c Hc), Ht, entry_leb by exact Hr.
  destruct (translated src repl c) eqn:Etr; cbn [andb negb].
  - destruct (last =? entry (tr_char src repl c)) eqn:E; cbn [negb].
    + apply Z.eqb_eq in E as ->. apply IH.
    + specialize (IH (entry (tr_char src repl c))). destruct (tr_loop_s trans _ s) as [m t]. cbn [snd map] in *. rewrite IH.
      f_equal. unfold tr_out, translated in *. destruct (tr_char src repl c); [reflexivity | discriminate].
  - specialize (IH (-1)). destruct (tr_loop_s trans (-1) s) as [m t]. cbn [snd map] in *. rewrite IH.
    unfold tr_out, translated in *. destruct (tr_char src repl c); [discriminate | reflexivity].
Qed.

(** C19: [tr] works position by position.  Whatever [str] and [src] hold, for a [repl] that is not empty, the
    loops over them end; a character listed in [src] becomes the one at the place of its last listing in
    [repl], or the padding when [repl] is too short; with a leading [^] all other characters become the
    padding; the rest stay, and the method answers [nil] exactly when nothing was listed.  A range lists its
    characters in order; the code lists that of a range from a character to itself twice, and none for a range
    that goes down.  The padding is the character the last item of [repl] ends with, but the one after it for a
    range from a character to itself, where the documentation promises the last character, and the begin of a
    range that goes down.  [tr_s] gives the same characters but drops one translated to what the character
    before it was translated to. *)
Theorem tr_positionwise (str src repl : list Z) :
  Forall byte str -> Forall byte src -> Forall byte repl -> repl <> [] ->
  rb_str_tr_bang str src repl = Some (Ok (existsb (translated src repl) str, map (tr_out src repl) str)) /\
  exists m, rb_str_tr_s_bang str src repl =
    Some (Ok (m, map (fun o => tr_out src repl (snd o))
      (filter (fun '(a, c) => negb (translated src repl c && (a =? entry (tr_char src repl c))))
         (combine (-1 :: map (fun c => entry (tr_char src repl c)) str) str)))).
Proof.
  intros Hstr Hsrc Hrepl Hne. unfold rb_str_tr_bang, rb_str_tr_s_bang, tr_trans.
  destruct str as [|c str]; [split; [reflexivity | exists false; reflexivity]|].
  rewrite len_eqb_0 by discriminate.
  replace (len repl =? 0) with false by (now rewrite len_eqb_0).
  destruct (tr_table_ok src repl Hsrc Hrepl) as (trans & -> & Ht). split.
  - now rewrite (tr_loop_c_ok src repl trans) by assumption.
  - pose proof (tr_loop_s_ok src repl trans (-1) (c :: str) Hrepl Hstr Ht) as H.
    destruct (tr_loop_s trans (-1) (c :: str)) as [m t]. cbn [snd] in H. eexists. do 3 f_equal. rewrite H.
    rewrite (map_ext trans _ Ht). f_equal. apply filter_ext. intros [a b]. now rewrite Ht.
Qed.

Lemma tr_positionwise_witness :
  Forall byte [104; 101] /\
  rb_str_tr_bang [104; 101] [101; 108] [105; 112] = Some (Ok (true, [104; 105])).
Proof.
  assert (Forall byte [104; 101]) as H1 by (repeat constructor; unfold byte; lia). split; [exact H1|].
  destruct (tr_positionwise [104; 101] [101; 108] [105; 112] H1) as [H _].
  - repeat constructor; unfold byte; lia.
  - repeat constructor; unfold byte; lia.
  - discriminate.
  - exact H.
Defined.

(** [delete], [count] and [squeeze] agree on what their arguments select, the characters in the
    intersection of the sets: [delete] takes out exactly the characters [count] counts and keeps the others in
    order, [squeeze] drops exactly the selected characters that follow an equal one, each tells the caller
    whether anything changed, and without arguments [delete] and [count] raise [ArgumentError]. *)
Theorem char_sets_agree (argv : list (list Z)) (str : list Z) :
  Forall (Forall byte) argv -> Forall byte str ->
  rb_str_delete_bang argv str =
    Some (match argv with
          | [] => Raise ArgumentError
          | _ => Ok (existsb (in_sets argv) str, filter (fun c => negb (in_sets argv c)) str)
          end) /\
  rb_str_count argv str =
    Some (match argv with
          | [] => Raise ArgumentError
          | _ => Ok (len str - len (filter (fun c => negb (in_sets argv c)) str))
          end) /\
  (exists m t, rb_str_squeeze_bang argv str = Some (m, t) /\ (m = true <-> t <> str) /\
     t = keep (fun a c => negb ((c =? a) && in_sets argv c)) (-1 :: str) str).
Proof.
  intros Hargv Hstr. split; [|split].
  - unfold rb_str_delete_bang. destruct argv as [|s argv]; [reflexivity|].
    destruct (setup_tables_first (s :: argv) ltac:(discriminate) Hargv) as (t & -> & Ht).
    destruct str as [|c str]; [reflexivity|].
    rewrite len_eqb_0 by discriminate.
    rewrite delete_loop_filter by exact Hstr. do 3 f_equal; [now apply existsb_ext' | apply filter_ext; intros a; now rewrite Ht].
  - unfold rb_str_count. destruct argv as [|s argv]; [reflexivity|].
    destruct (setup_tables_first (s :: argv) ltac:(discriminate) Hargv) as (t & -> & Ht).
    destruct str as [|c str]; [reflexivity|].
    rewrite len_eqb_0 by discriminate.
    rewrite count_loop by exact Hstr. do 2 f_equal. rewrite (filter_ext t _ Ht).
    pose proof (filter_partition (in_sets (s :: argv)) (c :: str)). lia.
  - assert (exists sq, (match argv with [] => Some (fun _ => true) | _ => setup_tables argv unset true end) = Some sq /\
      forall i, sq i = in_sets argv i) as (sq & Hsq & Hi).
    { destruct argv as [|s argv]; [exists (fun _ => true); split; reflexivity|]. apply setup_tables_first; [discriminate | exact Hargv]. }
    unfold rb_str_squeeze_bang. rewrite Hsq. destruct str as [|c str].
    { exists false, []. split; [reflexivity|]. split; [split; [discriminate | congruence] | reflexivity]. }
    rewrite len_eqb_0 by discriminate.
    eexists _, _. split; [reflexivity|]. rewrite squeeze_loop_keep by exact Hstr.
    assert (keep (fun a c => negb ((c =? a) && sq c)) (-1 :: c :: str) (c :: str) =
            keep (fun a c => negb ((c =? a) && in_sets argv c)) (-1 :: c :: str) (c :: str)) as ->
      by (apply keep_ext; intros x y; now rewrite Hi).
    split; [|reflexivity]. apply keep_changed. cbn. lia.
Qed.

Lemma char_sets_agree_witness :
  Forall (Forall byte) [[108; 111]; [111]] /\ rb_str_count [[108; 111]; [111]] [104; 111; 108; 111] = Some (Ok 2).
Proof.
  assert (Forall (Forall byte) [[108; 111]; [111]]) as H1 by (repeat constructor; unfold byte; lia). split; [exact H1|].
  destruct (char_sets_agree [[108; 111]; [111]] [104; 111; 108; 111] H1) as (_ & H & _).
  - repeat constructor; unfold byte; lia.
  - exact H.
Defined.

(** A range with equal ends stands for its character twice and pads with the next one. *)
Example tr_equal_ends :
  rb_str_tr_bang [120; 121; 122] [120; 45; 122] [97; 45; 97] = Some (Ok (true, [97; 97; 98])) /\
  rb_str_tr_bang [97; 98] [97; 45; 97; 98] [120; 121; 122] = Some (Ok (true, [121; 122])).
Proof. split; vm_compute; reflexivity. Qed.

