(* ===== verification/StrSucc.v ===== *)
(** * Strings: successors

    string.c: [succ], which counts on the letters and digits of a string as an
    odometer does, and [upto], which runs from one string to another. *)

From Stdlib Require Import ZArith Lia List Bool.
From S2P Require Import Prelude CInt StrSearch BigStr.
Import ListNotations.
Local Open Scope Z_scope.
Local Open Scope outcome_scope.

(** [isalnum] of an ASCII character. *)
Definition ISALNUM (c : Z) : bool := ISDIGIT c || ISLOWER c || ISUPPER c.

(** The character carried to the left, 0 when there is none, and the character left behind. *)
Definition succ_char (c : Z) : Z * Z :=
  if (48 <=? c) && (c <? 57) then (0, c + 1)
  else if c =? 57 then (49, 48)
  else if (97 <=? c) && (c <? 122) then (0, c + 1)
  else if c =? 122 then (97, 97)
  else if (65 <=? c) && (c <? 90) then (0, c + 1)
  else if c =? 90 then (65, 65)
  else (0, c).

(** [s] going down from the last character: [ls] is the string from [s] down to [sbeg], [done] what lies
    to the right of [s].  The results are [c], [n], whether [s < sbeg] and the string. *)
Fixpoint succ_loop (ls done : list Z) (c n : Z) : Z * Z * bool * list Z :=
  match ls with
  | [] => (c, n, true, done)
  | a :: ls =>
      if ISALNUM a then
        let '(r, a) := succ_char a in
        if r =? 0 then (0, n, false, rev_append ls (a :: done))
        else succ_loop ls (a :: done) r (len ls)
      else succ_loop ls (a :: done) c n
  end.

(** The character at [s] is incremented, and the loop goes on while that gives 0. *)
Fixpoint succ_bytes (ls done : list Z) : bool * list Z :=
  match ls with
  | [] => (true, done)
  | a :: ls =>
      let a := u8 (a + 1) in
      if negb (a =? 0) then (false, rev_append ls (a :: done)) else succ_bytes ls (a :: done)
  end.

Definition rb_str_succ (orig : list Z) : list Z :=
  if len orig =? 0 then orig else
  let '(c, n, before, str) := succ_loop (rev orig) [] (-1) 0 in
  let '(c, before, str) :=
    if c =? -1 then let '(before, str) := succ_bytes (rev str) [] in (1, before, str) else (c, before, str) in
  if before : bool then firstn (Z.to_nat n) str ++ c :: skipn (Z.to_nat n) str else str.

(** The strings handed to the block, one that leaves them alone; [after_end] is compared before each. *)
Fixpoint upto_loop (fuel : nat) (ignorecase excl : bool) (current end_ after_end : list Z) : option (outcome (list (list Z))) :=
  match fuel with
  | O => None
  | S fuel =>
      match rb_str_equal ignorecase current after_end with
      | Ok true => Some (Ok [])
      | Ok false =>
          match (if excl then Ok false else rb_str_equal ignorecase current end_) with
          | Ok true => Some (Ok [current])
          | Ok false =>
              let next := rb_str_succ current in
              match (if excl then rb_str_equal ignorecase next end_ else Ok false) with
              | Ok true => Some (Ok [current])
              | Ok false =>
                  if len end_ <? len next then Some (Ok [current]) else
                  option_map (fun o => l <- o ;; Ok (current :: l)) (upto_loop fuel ignorecase excl next end_ after_end)
              | _ => Some Undefined
              end
          | _ => Some Undefined
          end
      | _ => Some Undefined
      end
  end.

Definition rb_str_upto (fuel : nat) (ignorecase : bool) (beg end_ : list Z) (excl : bool) : option (outcome (list (list Z))) :=
  match rb_str_cmp ignorecase beg end_ with
  | Ok n => if (0 <? n) || (excl && (n =? 0)) then Some (Ok [])
            else upto_loop fuel ignorecase excl beg end_ (rb_str_succ end_)
  | _ => Some Undefined
  end.

Example succ_1999zzz : rb_str_succ [49; 57; 57; 57; 122; 122; 122] = [50; 48; 48; 48; 97; 97; 97].
Proof. reflexivity. Qed.

Example succ_ZZZ9999 : rb_str_succ [90; 90; 90; 57; 57; 57; 57] = [65; 65; 65; 65; 48; 48; 48; 48].
Proof. reflexivity. Qed.

Example succ_stars : rb_str_succ [42; 42; 42] = [42; 42; 43].
Proof. reflexivity. Qed.

(** ** Specification: an odometer *)

(** The number of characters of a kind, and which of them [c] is. *)
Definition radix (c : Z) : Z := if ISDIGIT c then 10 else if ISLOWER c || ISUPPER c then 26 else 1.
Definition kind (c : Z) : Z := if ISDIGIT c then 48 else if ISLOWER c then 97 else if ISUPPER c then 65 else c.
Definition digit (c : Z) : Z := c - kind c.

(** How many strings have letters and digits in the same places, and which of them [s] is. *)
Fixpoint capacity (s : list Z) : Z := match s with [] => 1 | c :: s => radix c * capacity s end.
Fixpoint value (s : list Z) : Z := match s with [] => 0 | c :: s => digit c * capacity s + value s end.

Definition has_alnum (s : list Z) : bool := existsb ISALNUM s.
(** Every letter and digit is the last of its kind. *)
Definition full (s : list Z) : bool := forallb (fun c => digit c =? radix c - 1) s.
(** The string with every letter and digit the first of its kind. *)
Definition kinds (s : list Z) : list Z := map kind s.

(** A string without letters and digits, as a number of bytes. *)
Fixpoint number (s : list Z) : Z := match s with [] => 0 | c :: s => c * 256 ^ len s + number s end.

(** *** Characters *)

Lemma char_cases c :
  (48 <= c <= 57 /\ ISALNUM c = true /\ kind c = 48 /\ radix c = 10) \/
  (97 <= c <= 122 /\ ISALNUM c = true /\ kind c = 97 /\ radix c = 26) \/
  (65 <= c <= 90 /\ ISALNUM c = true /\ kind c = 65 /\ radix c = 26) \/
  (ISALNUM c = false /\ kind c = c /\ radix c = 1).
Proof.
  unfold ISALNUM, kind, radix, ISDIGIT, ISLOWER, ISUPPER.
  destruct (48 <=? c) eqn:E1, (c <=? 57) eqn:E2, (97 <=? c) eqn:E3, (c <=? 122) eqn:E4, (65 <=? c) eqn:E5, (c <=? 90) eqn:E6;
    breflect; cbn [andb orb]; lia.
Qed.

Lemma radix_positive c : 0 < radix c.
Proof. destruct (char_cases c) as [H|[H|[H|H]]]; lia. Qed.

Lemma digit_bound c : 0 <= digit c < radix c.
Proof. unfold digit. destruct (char_cases c) as [H|[H|[H|H]]]; lia. Qed.

Lemma kind_cases c : kind c = c \/ (kind c = 48 /\ radix c = 10) \/ (kind c = 97 /\ radix c = 26) \/ (kind c = 65 /\ radix c = 26).
Proof. destruct (char_cases c) as [H|[H|[H|H]]]; lia. Qed.

Lemma kind_kind c : kind (kind c) = kind c.
Proof. destruct (kind_cases c) as [E | [[-> _] | [[-> _] | [-> _]]]]; [now rewrite !E | reflexivity..]. Qed.

Lemma radix_kind c : radix (kind c) = radix c.
Proof. destruct (kind_cases c) as [E | [[-> ->] | [[-> ->] | [-> ->]]]]; [now rewrite E | reflexivity..]. Qed.

(** A letter or digit is followed by the next of its kind, or wraps around and carries. *)
Lemma succ_char_next c : ISALNUM c = true -> digit c < radix c - 1 ->
  succ_char c = (0, c + 1) /\ kind (c + 1) = kind c /\ radix (c + 1) = radix c.
Proof.
  intros Hc Hd. unfold digit in Hd. destruct (char_cases c) as [(H & _ & Hk & Hr)|[(H & _ & Hk & Hr)|[(H & _ & Hk & Hr)|(H & _)]]];
    [| | | congruence]; rewrite Hk, Hr in Hd |- *; unfold succ_char, kind, radix, ISDIGIT, ISLOWER, ISUPPER.
  all: repeat match goal with
       | |- context [?x <=? ?y] => destruct (Z.leb_spec x y); try lia
       | |- context [?x <? ?y] => destruct (Z.ltb_spec x y); try lia
       | |- context [?x =? ?y] => destruct (Z.eqb_spec x y); try lia
       end; cbn [andb orb]; auto.
Qed.

Definition carry_char (c : Z) : Z := if ISDIGIT c then 49 else kind c.

Lemma succ_char_wrap c : ISALNUM c = true -> digit c = radix c - 1 ->
  succ_char c = (carry_char c, kind c) /\ 0 < carry_char c.
Proof.
  intros Hc Hd. unfold digit in Hd. destruct (char_cases c) as [(H & _ & Hk & Hr)|[(H & _ & Hk & Hr)|[(H & _ & Hk & Hr)|(H & _)]]];
    [| | | congruence]; rewrite Hk, Hr in Hd.
  - replace c with 57 by lia. split; [reflexivity | cbn; lia].
  - replace c with 122 by lia. split; [reflexivity | cbn; lia].
  - replace c with 90 by lia. split; [reflexivity | cbn; lia].
Qed.

(** *** Strings *)

Lemma capacity_pos s : 0 < capacity s.
Proof. induction s as [|c s IH]; cbn [capacity]; [lia|]. pose proof (radix_positive c). nia. Qed.

Lemma capacity_app s t : capacity (s ++ t) = capacity s * capacity t.
Proof. induction s as [|c s IH]; cbn [app capacity]; [lia|]. rewrite IH. lia. Qed.

Lemma value_app s t : value (s ++ t) = value s * capacity t + value t.
Proof. induction s as [|c s IH]; cbn [app value]; [lia|]. rewrite IH, capacity_app. lia. Qed.

Lemma value_bound s : 0 <= value s < capacity s.
Proof.
  induction s as [|c s IH]; cbn [value capacity]; [lia|]. pose proof (digit_bound c). pose proof (capacity_pos s). nia.
Qed.

Lemma capacity_kinds s : capacity (kinds s) = capacity s.
Proof. induction s as [|c s IH]; cbn [kinds map capacity]; [reflexivity|]. now rewrite radix_kind, <- IH. Qed.

Lemma value_kinds s : value (kinds s) = 0.
Proof.
  induction s as [|c s IH]; [reflexivity|]. cbn [kinds map value]. fold (kinds s). rewrite IH.
  unfold digit. rewrite kind_kind. lia.
Qed.

Lemma value_full s : full s = true -> value s = capacity s - 1.
Proof.
  induction s as [|c s IH]; intros H; [reflexivity|]. cbn [full forallb] in H. apply andb_prop in H as [Hc H].
  apply Z.eqb_eq in Hc. cbn [value capacity]. rewrite (IH H), Hc. lia.
Qed.

Lemma full_value s : value s = capacity s - 1 -> full s = true.
Proof.
  induction s as [|c s IH]; intros H; [reflexivity|]. cbn [value capacity full forallb] in *.
  pose proof (digit_bound c). pose proof (value_bound s). apply andb_true_intro.
  assert (digit c = radix c - 1) as Hd by nia. split; [now apply Z.eqb_eq|]. apply IH. rewrite Hd in H. lia.
Qed.

Lemma full_app s t : full (s ++ t) = full s && full t.
Proof. apply forallb_app. Qed.

Lemma kinds_app s t : kinds (s ++ t) = kinds s ++ kinds t.
Proof. apply map_app. Qed.

Lemma has_alnum_app s t : has_alnum (s ++ t) = has_alnum s || has_alnum t.
Proof. apply existsb_app. Qed.

Lemma not_alnum c : ISALNUM c = false -> kind c = c /\ digit c = radix c - 1.
Proof. intros H. unfold digit. destruct (char_cases c) as [A|[A|[A|A]]]; [intuition congruence.. |]. lia. Qed.

Lemma kinds_not_alnum s : has_alnum s = false -> kinds s = s.
Proof.
  induction s as [|c s IH]; intros H; [reflexivity|]. cbn [has_alnum existsb] in H. apply orb_false_elim in H as [Hc H].
  cbn [kinds map]. fold (kinds s). rewrite (IH H). now rewrite (proj1 (not_alnum c Hc)).
Qed.

(** Where the loop stops: at the last character that is not the last of its kind. *)
Lemma succ_loop_break ls done c n :
  full (rev ls) = false ->
  exists hi a lo n', rev ls = hi ++ a :: lo /\ ISALNUM a = true /\ digit a < radix a - 1 /\ full lo = true /\
    succ_loop ls done c n = (0, n', false, hi ++ (a + 1) :: kinds lo ++ done).
Proof.
  revert done c n; induction ls as [|a ls IH]; intros done c n H; [discriminate|]. cbn [rev] in *.
  rewrite full_app in H. cbn [full forallb] in H. rewrite andb_true_r in H. fold (full (rev ls)) in H.
  cbn [succ_loop]. destruct (ISALNUM a) eqn:Ea.
  - destruct (Z.eq_dec (digit a) (radix a - 1)) as [Ed|Ed].
    + destruct (succ_char_wrap a Ea Ed) as [-> Hp]. replace (carry_char a =? 0) with false by (symmetry; apply Z.eqb_neq; lia).
      rewrite Ed, Z.eqb_refl, andb_true_r in H. destruct (IH (kind a :: done) (carry_char a) (len ls) H)
        as (hi & b & lo & n' & Hls & Hb & Hd & Hlo & ->).
      exists hi, b, (lo ++ [a]), n'. rewrite Hls, <- app_assoc, full_app, Hlo, kinds_app, <- app_assoc. cbn [full forallb].
      rewrite Ed, Z.eqb_refl. repeat split; auto.
    + pose proof (digit_bound a). destruct (succ_char_next a Ea ltac:(lia)) as [-> _]. cbn [Z.eqb].
      exists (rev ls), a, [], n. rewrite rev_append_rev. repeat split; auto. lia.
  - destruct (not_alnum a Ea) as [Hk Hd]. rewrite Hd, Z.eqb_refl, andb_true_r in H.
    destruct (IH (a :: done) c n H) as (hi & b & lo & n' & Hls & Hb & Hd' & Hlo & ->).
    exists hi, b, (lo ++ [a]), n'. rewrite Hls, <- app_assoc, full_app, Hlo, kinds_app, <- app_assoc. cbn [full forallb].
    rewrite Hd, Z.eqb_refl. change (kinds [a]) with [kind a]. rewrite Hk. repeat split; auto.
Qed.

(** The loop that runs off the string: what was carried last, and from where. *)
Lemma succ_loop_full ls done c n :
  full (rev ls) = true ->
  exists c' n', succ_loop ls done c n = (c', n', true, kinds (rev ls) ++ done) /\
    (has_alnum (rev ls) = false /\ c' = c /\ n' = n \/
     exists hi a lo, rev ls = hi ++ a :: lo /\ has_alnum hi = false /\ ISALNUM a = true /\ c' = carry_char a /\ n' = len hi).
Proof.
  revert done c n; induction ls as [|a ls IH]; intros done c n H; [exists c, n; split; [reflexivity | left; auto]|].
  cbn [rev] in *. rewrite full_app in H. cbn [full forallb] in H. apply andb_prop in H as [H Hd].
  rewrite andb_true_r in Hd. apply Z.eqb_eq in Hd. fold (full (rev ls)) in H. cbn [succ_loop]. destruct (ISALNUM a) eqn:Ea.
  - destruct (succ_char_wrap a Ea Hd) as [-> Hp]. replace (carry_char a =? 0) with false by (symmetry; apply Z.eqb_neq; lia).
    destruct (IH (kind a :: done) (carry_char a) (len ls) H) as (c' & n' & -> & Hcase).
    exists c', n'. rewrite kinds_app, <- app_assoc. split; [reflexivity|]. right.
    destruct Hcase as [(Hno & -> & ->) | (hi & b & lo & Hls & Hhi & Hb & -> & ->)].
    + exists (rev ls), a, []. repeat split; auto. unfold len. now rewrite length_rev.
    + exists hi, b, (lo ++ [a]). rewrite Hls, <- app_assoc. auto.
  - destruct (not_alnum a Ea) as [Hk _]. destruct (IH (a :: done) c n H) as (c' & n' & -> & Hcase).
    exists c', n'. rewrite kinds_app, <- app_assoc. change (kinds [a]) with [kind a]. rewrite Hk. cbn [app]. split; [reflexivity|].
    destruct Hcase as [(Hno & -> & ->) | (hi & b & lo & Hls & Hhi & Hb & -> & ->)]; [left | right].
    + rewrite has_alnum_app, Hno. cbn. now rewrite Ea.
    + exists hi, b, (lo ++ [a]). rewrite Hls, <- app_assoc. auto.
Qed.

Lemma kinds_kinds s : kinds (kinds s) = kinds s.
Proof. unfold kinds. rewrite map_map. apply map_ext, kind_kind. Qed.

(** Counting on. *)
Lemma value_next hi a lo : digit a < radix a - 1 -> ISALNUM a = true -> full lo = true ->
  value (hi ++ (a + 1) :: kinds lo) = value (hi ++ a :: lo) + 1 /\
  kinds (hi ++ (a + 1) :: kinds lo) = kinds (hi ++ a :: lo).
Proof.
  intros Hd Ha Hlo. destruct (succ_char_next a Ha Hd) as (_ & Hk & Hr). split.
  - rewrite !value_app. cbn [value capacity]. rewrite Hr, capacity_kinds, value_kinds, (value_full lo Hlo).
    unfold digit in *. rewrite Hk. lia.
  - rewrite !kinds_app. change (kinds ((a + 1) :: kinds lo)) with (kind (a + 1) :: kinds (kinds lo)).
    now rewrite Hk, kinds_kinds.
Qed.

Lemma rb_str_succ_break s : s <> [] -> full s = false ->
  exists hi a lo, s = hi ++ a :: lo /\ ISALNUM a = true /\ digit a < radix a - 1 /\
    full lo = true /\ rb_str_succ s = hi ++ (a + 1) :: kinds lo.
Proof.
  intros Hne H. unfold rb_str_succ. rewrite len_eqb_0 by exact Hne.
  destruct (succ_loop_break (rev s) [] (-1) 0) as (hi & a & lo & n & Hs & Ha & Hd & Hlo & ->); [now rewrite rev_involutive|].
  rewrite rev_involutive in Hs. exists hi, a, lo. rewrite app_nil_r. auto.
Qed.

Lemma rb_str_succ_count s : s <> [] -> full s = false ->
  value (rb_str_succ s) = value s + 1 /\ kinds (rb_str_succ s) = kinds s.
Proof.
  intros Hne H. destruct (rb_str_succ_break s Hne H) as (hi & a & lo & Hs & Ha & Hd & Hlo & ->).
  subst s. now apply value_next.
Qed.

Lemma rb_str_succ_wrap s : has_alnum s = true -> full s = true ->
  exists hi a lo, s = hi ++ a :: lo /\ has_alnum hi = false /\ ISALNUM a = true /\
    rb_str_succ s = hi ++ carry_char a :: kinds (a :: lo).
Proof.
  intros Hal Hf. unfold rb_str_succ. rewrite len_eqb_0 by (intros ->; discriminate).
  destruct (succ_loop_full (rev s) [] (-1) 0) as (c & n & -> & [(Hno & _) | (hi & a & lo & Hs & Hhi & Ha & -> & ->)]).
  { now rewrite rev_involutive. } { rewrite rev_involutive in Hno. congruence. }
  rewrite rev_involutive in *. exists hi, a, lo. repeat split; auto. rewrite app_nil_r.
  replace (carry_char a =? -1) with false
    by (symmetry; apply Z.eqb_neq; subst s; rewrite full_app in Hf; cbn [full forallb] in Hf; breflect;
        pose proof (succ_char_wrap a Ha ltac:(assumption)); lia).
  subst s. rewrite kinds_app, (kinds_not_alnum hi Hhi). unfold len. rewrite Nat2Z.id, firstn_app, skipn_app, Nat.sub_diag.
  rewrite firstn_all, skipn_all. cbn [firstn skipn app]. now rewrite app_nil_r.
Qed.

(** *** Strings without letters and digits *)

Lemma number_app s t : number (s ++ t) = number s * 256 ^ len t + number t.
Proof.
  induction s as [|c s IH]; cbn [app number]; [lia|]. rewrite IH. unfold len. rewrite length_app, Nat2Z.inj_add, Z.pow_add_r by lia. lia.
Qed.

Definition zeros (s : list Z) : list Z := map (fun _ => 0) s.

Lemma succ_bytes_ok ls done : Forall byte ls ->
  (exists hi a lo, rev ls = hi ++ a :: lo /\ a < 255 /\ Forall (fun c => c = 255) lo /\
     succ_bytes ls done = (false, hi ++ (a + 1) :: zeros lo ++ done)) \/
  (Forall (fun c => c = 255) (rev ls) /\ succ_bytes ls done = (true, zeros ls ++ done)).
Proof.
  intros H. revert done; induction H as [|a ls Ha _ IH]; intros done; cbn [succ_bytes rev]; [right; split; [constructor | reflexivity]|].
  unfold byte in Ha. destruct (Z.eq_dec a 255) as [->|Hne].
  - change (u8 (255 + 1)) with 0. cbn [Z.eqb negb]. destruct (IH (0 :: done)) as [(hi & b & lo & Hs & Hb & Hlo & ->) | [Hall ->]]; [left | right].
    + exists hi, b, (lo ++ [255]). rewrite Hs, <- app_assoc. unfold zeros. rewrite map_app, <- app_assoc. repeat split; auto.
      apply Forall_app. auto.
    + split; [apply Forall_app; auto|]. unfold zeros. cbn [map]. f_equal.
      clear. induction ls as [|c ls IH]; [reflexivity|]. cbn [map app]. f_equal. exact IH.
  - rewrite u8_small by lia. replace (a + 1 =? 0) with false by (symmetry; apply Z.eqb_neq; lia). cbn [negb]. left.
    exists (rev ls), a, []. rewrite rev_append_rev. repeat split; auto. lia.
Qed.

Lemma zeros_number s : number (zeros s) = 0.
Proof. induction s as [|c s IH]; cbn [zeros map number]; [reflexivity|]. fold (zeros s). rewrite IH. lia. Qed.

Lemma len_zeros s : len (zeros s) = len s.
Proof. unfold len, zeros. now rewrite length_map. Qed.

Lemma all_255_number s : Forall (fun c => c = 255) s -> number s = 256 ^ len s - 1.
Proof.
  induction 1 as [|c s -> _ IH]; [reflexivity|]. cbn [number]. rewrite IH, len_cons, Z.pow_add_r by (try apply len_nonneg; lia). lia.
Qed.

Lemma zeros_repeat s : zeros s = repeat 0 (length s).
Proof. induction s as [|c s IH]; cbn; [reflexivity|]. f_equal. exact IH. Qed.

Lemma full_not_alnum s : has_alnum s = false -> full s = true.
Proof.
  induction s as [|c s IH]; intros H; [reflexivity|]. cbn in H. apply orb_false_elim in H as [Hc H].
  cbn. rewrite (proj2 (not_alnum c Hc)), Z.eqb_refl. now apply IH.
Qed.

Lemma rb_str_succ_bytes s : s <> [] -> has_alnum s = false -> Forall byte s ->
  (exists hi a lo, s = hi ++ a :: lo /\ a < 255 /\ Forall (fun c => c = 255) lo /\
     rb_str_succ s = hi ++ (a + 1) :: zeros lo) \/
  (Forall (fun c => c = 255) s /\ rb_str_succ s = 1 :: zeros s).
Proof.
  intros Hne Hal Hb. unfold rb_str_succ. rewrite len_eqb_0 by exact Hne.
  destruct (succ_loop_full (rev s) [] (-1) 0) as (c & n & -> & [(_ & -> & ->) | (hi & a & lo & Hs & _ & Ha & _)]).
  { rewrite rev_involutive. now apply full_not_alnum. }
  2: { rewrite rev_involutive in Hs. subst s. rewrite has_alnum_app in Hal. cbn in Hal. rewrite Ha in Hal.
       now rewrite orb_true_r in Hal. }
  rewrite rev_involutive, app_nil_r, (kinds_not_alnum s Hal). cbn [Z.eqb Pos.eqb].
  destruct (succ_bytes_ok (rev s) []) as [(hi & a & lo & Hs & Ha & Hlo & ->) | [Hall ->]].
  - now apply Forall_rev.
  - left. exists hi, a, lo. rewrite rev_involutive in Hs. now rewrite app_nil_r.
  - right. rewrite rev_involutive in Hall. split; [exact Hall|]. cbn [Z.to_nat firstn skipn app].
    now rewrite app_nil_r, !zeros_repeat, length_rev.
Qed.

(** *** The order of the successors *)

(** Within a length, the strings without letters and digits come first. *)
Definition count (s : list Z) : Z := if has_alnum s then value s else number s.
Definition key (l : Z) (s : list Z) : Z :=
  len s * (2 * 256 ^ l) + (if has_alnum s then 256 ^ l else 0) + count s.

Lemma number_bound s : Forall byte s -> 0 <= number s < 256 ^ len s.
Proof.
  induction 1 as [|c s Hc _ IH]; [cbn; lia|]. cbn [number]. rewrite len_cons, Z.pow_add_r by (try apply len_nonneg; lia).
  unfold byte in Hc. nia.
Qed.

Lemma capacity_bound s : capacity s <= 256 ^ len s.
Proof.
  induction s as [|c s IH]; [cbn; lia|]. cbn [capacity]. rewrite len_cons, Z.pow_add_r by (try apply len_nonneg; lia).
  pose proof (capacity_pos s). assert (radix c <= 256) by (destruct (char_cases c) as [H0|[H0|[H0|H0]]]; lia).
  change (256 ^ 1) with 256. pose proof (radix_positive c). nia.
Qed.

Lemma count_bound l s : Forall byte s -> len s <= l -> 0 <= count s < 256 ^ l.
Proof.
  intros Hb Hl. assert (256 ^ len s <= 256 ^ l) by (apply Z.pow_le_mono_r; lia). unfold count.
  destruct (has_alnum s).
  - pose proof (value_bound s). pose proof (capacity_bound s). lia.
  - pose proof (number_bound s Hb). lia.
Qed.

Lemma key_bound l s : Forall byte s -> len s <= l -> 0 <= key l s < (l + 1) * (2 * 256 ^ l).
Proof. intros Hb Hl. pose proof (count_bound l s Hb Hl). pose proof (len_nonneg s). unfold key. destruct (has_alnum s); nia. Qed.

Lemma ISALNUM_kind c : ISALNUM (kind c) = ISALNUM c.
Proof.
  destruct (char_cases c) as [(_ & A & K & _) | [(_ & A & K & _) | [(_ & A & K & _) | (A & K & _)]]];
    [rewrite K, A; reflexivity.. | now rewrite K].
Qed.

Lemma has_alnum_kinds s : has_alnum (kinds s) = has_alnum s.
Proof.
  induction s as [|c s IH]; [reflexivity|]. unfold has_alnum, kinds in *. cbn [map existsb]. now rewrite ISALNUM_kind, IH.
Qed.

Lemma len_kinds s : len (kinds s) = len s.
Proof. unfold len, kinds. now rewrite length_map. Qed.

Lemma byte_kind c : byte c -> byte (kind c).
Proof. unfold byte. destruct (char_cases c) as [H|[H|[H|H]]]; lia. Qed.

Lemma bytes_kinds s : Forall byte s -> Forall byte (kinds s).
Proof. intros H. apply Forall_map. eapply Forall_impl; [|exact H]. apply byte_kind. Qed.

Lemma byte_carry c : byte c -> byte (carry_char c).
Proof. intros H. unfold carry_char. destruct (ISDIGIT c); [unfold byte; lia | now apply byte_kind]. Qed.

Lemma Forall_mid {A} (P : A -> Prop) hi a lo : Forall P (hi ++ a :: lo) <-> Forall P hi /\ P a /\ Forall P lo.
Proof. rewrite Forall_app, Forall_cons_iff. tauto. Qed.

Lemma key_longer l s t : Forall byte s -> Forall byte t -> len t = len s + 1 -> len t <= l -> key l s < key l t.
Proof.
  intros Hs Ht E Hl. pose proof (count_bound l s Hs ltac:(lia)) as Bs. pose proof (count_bound l t Ht Hl) as Bt.
  unfold key. rewrite E. replace ((len s + 1) * (2 * 256 ^ l)) with (len s * (2 * 256 ^ l) + 2 * 256 ^ l) by lia.
  destruct (has_alnum s), (has_alnum t); lia.
Qed.

(** The successor of a string of bytes: as long or longer by one, and later in the order. *)
Lemma rb_str_succ_key s : s <> [] -> Forall byte s ->
  Forall byte (rb_str_succ s) /\ len s <= len (rb_str_succ s) <= len s + 1 /\ rb_str_succ s <> [] /\
  forall l, len (rb_str_succ s) <= l -> key l s < key l (rb_str_succ s).
Proof.
  intros Hne Hb. destruct (full s) eqn:Ef; [destruct (has_alnum s) eqn:Ea|].
  - destruct (rb_str_succ_wrap s Ea Ef) as (hi & a & lo & -> & Hhi & Ha & Hs). rewrite Hs. clear Hs.
    apply Forall_mid in Hb as (Hbh & Hba & Hbl).
    assert (Forall byte (hi ++ carry_char a :: kinds (a :: lo))) as Hb'
      by (apply Forall_mid; auto using byte_carry, bytes_kinds).
    assert (len (hi ++ carry_char a :: kinds (a :: lo)) = len (hi ++ a :: lo) + 1) as Hl
      by (rewrite !len_app, !len_cons, len_kinds, len_cons; lia).
    split; [exact Hb'|]. split; [lia|]. split; [now destruct hi|]. intros l Hll.
    apply key_longer; auto. now apply Forall_mid.
  - destruct (rb_str_succ_bytes s Hne Ea Hb) as [(hi & a & lo & -> & Hlt & Hlo & Hs) | [Hall Hs]]; rewrite Hs; clear Hs.
    + apply Forall_mid in Hb as (Hbh & Hba & Hbl). unfold byte in Hba.
      assert (Forall byte (hi ++ (a + 1) :: zeros lo)) as Hb'.
      { apply Forall_mid. repeat split; [exact Hbh | lia | lia |]. apply Forall_map, Forall_forall. unfold byte. lia. }
      assert (len (hi ++ (a + 1) :: zeros lo) = len (hi ++ a :: lo)) as Hl by (rewrite !len_app, !len_cons, len_zeros; lia).
      split; [exact Hb'|]. split; [lia|]. split; [now destruct hi|]. intros l Hll. rewrite Hl in Hll.
      pose proof (count_bound l _ Hb' ltac:(lia)). pose proof (count_bound l (hi ++ a :: lo) ltac:(apply Forall_mid; auto) ltac:(lia)).
      unfold key. rewrite Hl, Ea. destruct (has_alnum (hi ++ (a + 1) :: zeros lo)) eqn:Ea'; [lia|].
      unfold count. rewrite Ea, Ea'. rewrite !number_app. cbn [number]. rewrite !len_cons, len_zeros, zeros_number, (all_255_number lo Hlo). lia.
    + assert (Forall byte (1 :: zeros s)) as Hb'.
      { constructor; [unfold byte; lia|]. apply Forall_map, Forall_forall. unfold byte. lia. }
      assert (len (1 :: zeros s) = len s + 1) as Hl by (rewrite len_cons, len_zeros; lia).
      split; [exact Hb'|]. split; [lia|]. split; [discriminate|]. intros l Hll.
      now apply key_longer.
  - destruct (rb_str_succ_count s Hne Ef) as [Hv Hk].
    destruct (rb_str_succ_break s Hne Ef) as (hi & a & lo & -> & Ha & Hd & _ & Hs).
    apply Forall_mid in Hb as (Hbh & Hba & Hbl).
    assert (Forall byte (rb_str_succ (hi ++ a :: lo))) as Hb'.
    { rewrite Hs. apply Forall_mid. split; [exact Hbh|]. split; [|now apply bytes_kinds].
      destruct (succ_char_next a Ha Hd) as (_ & Hk' & Hr). pose proof (digit_bound a). unfold digit in *.
      unfold byte in *. destruct (char_cases (a + 1)) as [H0|[H0|[H0|H0]]]; lia. }
    assert (len (rb_str_succ (hi ++ a :: lo)) = len (hi ++ a :: lo)) as Hl by (rewrite <- len_kinds, Hk; apply len_kinds).
    split; [exact Hb'|]. split; [lia|]. split; [rewrite Hs; now destruct hi|]. intros l Hll.
    assert (has_alnum (hi ++ a :: lo) = true) as E by (rewrite has_alnum_app; cbn; rewrite Ha; apply orb_true_r).
    unfold key, count. rewrite Hl, <- (has_alnum_kinds (rb_str_succ _)), Hk, has_alnum_kinds, E. lia.
Qed.

(** ** [upto] *)

Definition eqs (x y : list Z) : bool := if list_eq_dec Z.eq_dec x y then true else false.

Lemma eqs_iff x y : eqs x y = true <-> x = y.
Proof. unfold eqs. destruct (list_eq_dec Z.eq_dec x y); split; congruence. Qed.

Lemma eqs_ne x y : x <> y -> eqs x y = false.
Proof. unfold eqs. destruct (list_eq_dec Z.eq_dec x y); congruence. Qed.

Lemma rb_str_equal_eqs x y : Forall byte x -> Forall byte y -> rb_str_equal false x y = Ok (eqs x y).
Proof.
  intros Hx Hy. unfold rb_str_equal. destruct (len x =? len y) eqn:E; breflect; cbn [negb].
  - rewrite rb_str_cmp_lex by assumption. cbn [bind]. unfold fold_case, kr_key. rewrite !map_id.
    pose proof (lex_eq x y) as H. destruct (lex x y) eqn:El; cbn [sign Z.eqb].
    + f_equal. symmetry. apply eqs_iff. tauto.
    + f_equal. symmetry. apply eqs_ne. intros Hxy. apply H in Hxy. discriminate.
    + f_equal. symmetry. apply eqs_ne. intros Hxy. apply H in Hxy. discriminate.
  - f_equal. symmetry. apply eqs_ne. intros ->. lia.
Qed.

Definition iter (k : nat) (s : list Z) : list Z := Nat.iter k rb_str_succ s.

Lemma iter_succ k s : iter (Datatypes.S k) s = iter k (rb_str_succ s).
Proof. unfold iter. now rewrite Nat.iter_succ_r. Qed.

Definition good (s : list Z) : Prop := s <> [] /\ Forall byte s.

Lemma good_succ s : good s -> good (rb_str_succ s).
Proof. intros [Hn Hb]. destruct (rb_str_succ_key s Hn Hb) as (H1 & _ & H2 & _). split; assumption. Qed.

Lemma len_iter k s : good s -> good (iter k s) /\ len s <= len (iter k s).
Proof.
  revert s; induction k as [|k IH]; intros s Hs; [cbn; split; [exact Hs | lia]|]. rewrite iter_succ.
  destruct (IH _ (good_succ s Hs)) as [Hg Hl]. split; [exact Hg|].
  destruct Hs as [Hn Hb]. destruct (rb_str_succ_key s Hn Hb) as (_ & H & _). lia.
Qed.

Lemma key_iter k s l : good s -> len (iter (Datatypes.S k) s) <= l -> key l s < key l (iter (Datatypes.S k) s).
Proof.
  revert s; induction k as [|k IH]; intros s [Hn Hb] Hl.
  - now apply rb_str_succ_key.
  - rewrite iter_succ in *. destruct (rb_str_succ_key s Hn Hb) as (_ & _ & _ & Hk).
    pose proof (good_succ s (conj Hn Hb)) as Hg. specialize (IH _ Hg Hl).
    destruct (len_iter (Datatypes.S k) _ Hg) as [_ Hle]. specialize (Hk l ltac:(lia)). lia.
Qed.

(** A string is not its own successor's successor. *)
Lemma iter_ne k s : good s -> iter (Datatypes.S k) s <> s.
Proof.
  intros Hs E. pose proof (key_iter k s (len s) Hs) as H. rewrite E in H. specialize (H ltac:(lia)). lia.
Qed.

(** The calls that are enough. *)
Definition upto_fuel (end_ : list Z) : Z := (len end_ + 1) * (2 * 256 ^ len end_) + 1.

Definition successors (cur : list Z) (n : nat) : list (list Z) := map (fun i => iter i cur) (seq 0 n).

Lemma successors_cons cur n : successors cur (Datatypes.S n) = cur :: successors (rb_str_succ cur) n.
Proof.
  unfold successors. cbn [seq map]. f_equal. rewrite <- seq_shift, map_map. apply map_ext. intros i. apply iter_succ.
Qed.

Section Upto.
Context (excl : bool) (end_ : list Z) (Hend : good end_).

Let budget (cur : list Z) : Z := upto_fuel end_ - key (len end_) cur.

(** Successive strings, the first perhaps longer than the last. *)
Lemma str_upto_loop_ok n cur :
  good cur -> (0 < n)%nat -> (len cur <= len end_ -> budget cur <= Z.of_nat n) ->
  exists m, upto_loop n false excl cur end_ (rb_str_succ end_) = Some (Ok (successors cur m)) /\
    (forall i, (0 < i < m)%nat -> len (iter i cur) <= len end_) /\
    forall k, end_ = iter k cur -> (if excl then 0 < k else 0 <= k)%nat -> m = if excl then k else Datatypes.S k.
Proof.
  revert cur; induction n as [|n IH]; intros cur Hcur Hn Hf; [lia|]. clear Hn.
  pose proof (good_succ _ Hend) as Hae. pose proof (good_succ _ Hcur) as Hnext.
  cbn [upto_loop]. rewrite rb_str_equal_eqs by (apply Hcur || apply Hae).
  destruct (eqs cur (rb_str_succ end_)) eqn:E1.
  { apply eqs_iff in E1. exists 0%nat. split; [reflexivity|]. split; [lia|]. intros k Hk _. exfalso.
    apply (iter_ne k cur Hcur). change (iter (Datatypes.S k) cur) with (rb_str_succ (iter k cur)). now rewrite <- Hk. }
  assert ((if excl then Ok false else rb_str_equal false cur end_) = Ok (negb excl && eqs cur end_)) as ->
    by (destruct excl; [reflexivity | apply rb_str_equal_eqs; [apply Hcur | apply Hend]]).
  destruct (negb excl && eqs cur end_) eqn:E2.
  { apply andb_prop in E2 as [Hx E2]. apply eqs_iff in E2. exists 1%nat. split; [reflexivity|]. split; [lia|].
    intros k Hk _. destruct excl; [discriminate|]. destruct k as [|k]; [reflexivity|].
    destruct (iter_ne k cur Hcur). congruence. }
  assert ((if excl then rb_str_equal false (rb_str_succ cur) end_ else Ok false) = Ok (excl && eqs (rb_str_succ cur) end_)) as ->
    by (destruct excl; [apply rb_str_equal_eqs; [apply Hnext | apply Hend] | reflexivity]).
  destruct (excl && eqs (rb_str_succ cur) end_) eqn:E3.
  { apply andb_prop in E3 as [Hx E3]. apply eqs_iff in E3. exists 1%nat. split; [reflexivity|]. split; [lia|].
    intros k Hk Hk0. rewrite Hx in *. destruct k as [|[|k]]; [lia | reflexivity|]. rewrite iter_succ in Hk.
    destruct (iter_ne k _ Hnext). congruence. }
  assert (forall k, end_ = iter k cur -> (if excl then 0 < k else 0 <= k)%nat ->
    exists j, k = Datatypes.S j /\ end_ = iter j (rb_str_succ cur) /\ (if excl then 0 < j else 0 <= j)%nat) as Hk'.
  { intros k Hk Hk0. destruct k as [|j].
    - exfalso. destruct excl; [lia|]. cbn in Hk. cbn [negb andb] in E2. pose proof (proj2 (eqs_iff cur end_) (eq_sym Hk)). congruence.
    - exists j. rewrite iter_succ in Hk. split; [reflexivity|]. split; [exact Hk|]. destruct excl; [|lia].
      destruct j as [|j]; [|lia]. cbn in Hk. cbn [andb] in E3. pose proof (proj2 (eqs_iff _ _) (eq_sym Hk)). congruence. }
  destruct (len end_ <? len (rb_str_succ cur)) eqn:E4; breflect.
  { exists 1%nat. split; [reflexivity|]. split; [lia|]. intros k Hk Hk0. exfalso.
    destruct (Hk' k Hk Hk0) as (j & _ & Hj & _). destruct (len_iter j _ Hnext) as [_ Hl]. rewrite <- Hj in Hl. lia. }
  destruct (rb_str_succ_key cur (proj1 Hcur) (proj2 Hcur)) as (_ & Hlen & _ & Hkey). specialize (Hkey (len end_) E4).
  specialize (Hf ltac:(lia)). pose proof (key_bound (len end_) _ (proj2 Hnext) E4) as Hb. unfold budget, upto_fuel in *.
  destruct (IH (rb_str_succ cur) Hnext ltac:(lia) ltac:(intros; lia)) as (m & -> & Hm & Hm').
  exists (Datatypes.S m). rewrite successors_cons. split; [reflexivity|]. split.
  - intros i Hi. destruct i as [|[|i]]; [lia | exact E4 | rewrite iter_succ; apply Hm; lia].
  - intros k Hk Hk0. destruct (Hk' k Hk Hk0) as (j & -> & Hj & Hj0). rewrite (Hm' j Hj Hj0). now destruct excl.
Qed.

End Upto.

Lemma upto_loop_empty fuel excl end_ after_end : good end_ -> good after_end ->
  upto_loop fuel false excl [] end_ after_end = None.
Proof.
  intros [He Hbe] [Ha Hba]. induction fuel as [|fuel IH]; [reflexivity|]. cbn [upto_loop].
  change (rb_str_succ []) with (@nil Z). rewrite !rb_str_equal_eqs, !eqs_ne by (auto || congruence).
  destruct excl; pose proof (len_nonneg end_) as Hl; change (len []) with 0;
    (replace (len end_ <? 0) with false by (symmetry; apply Z.ltb_ge; lia)); now rewrite IH.
Qed.

Lemma comparable_bytes s : Forall byte s -> comparable false s.
Proof. auto. Qed.

(** [succ] counts.  Where some letter or digit is not the last of its kind, the successor has the same
    kinds of characters in the same places and is the next of all such strings; where all are the last, they
    become the first of their kinds and the leftmost of them is preceded by the carry, which makes the string
    longer by one; a string without letters and digits is incremented as a number of bytes, first byte most
    significant. *)
Theorem succ_odometer (s : list Z) :
  s <> [] -> Forall byte s ->
  Forall byte (rb_str_succ s) /\
  (has_alnum s = true -> value s < capacity s - 1 ->
     kinds (rb_str_succ s) = kinds s /\ value (rb_str_succ s) = value s + 1) /\
  (has_alnum s = true -> value s = capacity s - 1 ->
     exists hi a lo, s = hi ++ a :: lo /\ has_alnum hi = false /\ ISALNUM a = true /\
       rb_str_succ s = hi ++ carry_char a :: kinds (a :: lo)) /\
  (has_alnum s = false ->
     number (rb_str_succ s) = number s + 1 /\
     len (rb_str_succ s) = if number s =? 256 ^ len s - 1 then len s + 1 else len s).
Proof.
  intros Hne Hb. split; [apply rb_str_succ_key; assumption|]. split; [|split].
  - intros Hal Hv. destruct (full s) eqn:Ef; [apply value_full in Ef; lia|].
    now destruct (rb_str_succ_count s Hne Ef).
  - intros Hal Hv. now apply rb_str_succ_wrap; [|apply full_value].
  - intros Hal. pose proof (number_bound s Hb) as Hn.
    destruct (rb_str_succ_bytes s Hne Hal Hb) as [(hi & a & lo & -> & Ha & Hlo & ->) | [Hall ->]].
    + apply Forall_mid in Hb as (Hbh & Hba & Hbl). pose proof (number_bound hi Hbh) as Hh. unfold byte in Hba.
      rewrite !number_app, !len_app. cbn [number]. rewrite !len_cons, len_zeros, zeros_number, (all_255_number lo Hlo).
      split; [lia|]. rewrite !Z.pow_add_r by (try apply len_nonneg; pose proof (len_nonneg lo); lia).
      assert (0 < 256 ^ len lo) by (apply Z.pow_pos_nonneg; [lia | apply len_nonneg]).
      destruct (_ =? _) eqn:E; breflect; [|lia]. change (256 ^ 1) with 256 in E. exfalso. nia.
    + rewrite (all_255_number s Hall), Z.eqb_refl. cbn [number]. rewrite len_cons, len_zeros, zeros_number. lia.
Qed.

Lemma succ_odometer_witness :
  Forall byte [97; 122] /\ value (rb_str_succ [97; 122]) = 26.
Proof.
  assert (Forall byte [97; 122]) as Hb by (repeat constructor; unfold byte; lia). split; [exact Hb|].
  destruct (succ_odometer [97; 122] ltac:(discriminate) Hb) as (_ & H & _).
  destruct H as [_ H]; [reflexivity | vm_compute; reflexivity | exact H].
Defined.

(** C20: [upto] ends between any two strings that are not empty, within [upto_fuel] rounds, and hands its block
    the start and its successors one after another, perhaps none, none but the first longer than the end; when the end is
    one of the successors and does not come before the start in the order of strings, the block sees
    everything up to it, the end included unless [excl] is set.  From the empty string, its own successor, to
    any other string it never ends.  Case is not ignored ([$=] is not set). *)
Theorem upto_visits (excl : bool) (beg end_ : list Z) (fuel : nat) :
  good end_ -> upto_fuel end_ <= Z.of_nat fuel ->
  (good beg ->
   exists m, rb_str_upto fuel false beg end_ excl = Some (Ok (successors beg m)) /\
    (forall i, (0 < i < m)%nat -> len (iter i beg) <= len end_) /\
    (forall k, end_ = iter k beg -> (if excl then 0 < k else 0 <= k)%nat ->
       lex end_ beg <> Lt -> m = if excl then k else S k)) /\
  rb_str_upto fuel false [] end_ excl = None.
Proof.
  intros Hend Hf. pose proof (good_succ _ Hend) as Hae. split.
  - intros Hbeg. unfold rb_str_upto. rewrite rb_str_cmp_lex by (apply Hbeg || apply Hend).
    unfold fold_case, kr_key. rewrite !map_id.
    assert (0 <= upto_fuel end_ - 1) by (unfold upto_fuel; pose proof (len_nonneg end_); nia).
    destruct (str_upto_loop_ok excl end_ Hend fuel beg Hbeg ltac:(lia)) as (m & Hm & Hlen & Hk).
    { intros Hl. pose proof (key_bound (len end_) beg (proj2 Hbeg) Hl). lia. }
    destruct ((0 <? sign (lex beg end_)) || (excl && (sign (lex beg end_) =? 0))) eqn:E; [|exists m; auto].
    exists 0%nat. split; [reflexivity|]. split; [lia|]. intros k Hk' Hk0 Hlex. exfalso.
    rewrite lex_antisym in Hlex. destruct (lex beg end_) eqn:El; cbn in *.
    + destruct excl; [|discriminate]. apply lex_eq in El. destruct k as [|k]; [lia|]. apply (iter_ne k beg Hbeg). congruence.
    + now destruct excl.
    + congruence.
  - unfold rb_str_upto. rewrite rb_str_cmp_lex by (constructor || apply Hend). destruct Hend as [Hne Hbe].
    destruct end_ as [|c e] eqn:Ee; [congruence|]. cbn [fold_case map lex sign]. 
    replace ((0 <? -1) || (excl && (-1 =? 0))) with false by (destruct excl; reflexivity).
    apply upto_loop_empty; [split; assumption | exact Hae].
Qed.

Lemma upto_visits_witness :
  good [99] /\ exists m, rb_str_upto 2000 false [97] [99] true = Some (Ok (successors [97] m)) /\ m = 2%nat.
Proof.
  assert (good [99]) as Hend by (split; [discriminate | repeat constructor; unfold byte; lia]). split; [exact Hend|].
  destruct (upto_visits true [97] [99] 2000 Hend ltac:(vm_compute; discriminate)) as [H _].
  destruct H as (m & Hm & _ & Hk); [split; [discriminate | repeat constructor; unfold byte; lia]|].
  exists m. split; [exact Hm|]. apply (Hk 2%nat); [reflexivity | lia | vm_compute; discriminate].
Defined.

