(* ===== verification/StrDump.v ===== *)
(** * Strings: literals

    string.c writes a string as a literal ([dump], [inspect]), parse.y reads
    the literal back ([parse_string], [tokadd_string], [read_escape], with the
    digit scanners of util.c).  The lexer is at the end of its input where its
    line ends; [ismbchar] and [mbclen] look a byte up in the table of the
    character encoding (regex.c). *)

From Stdlib Require Import ZArith Lia List Bool.
From S2P Require Import Prelude CInt StrSearch BigStr.
Import ListNotations.
Local Open Scope Z_scope.
Local Open Scope outcome_scope.

(** ** Character encodings *)

Inductive mbctype := MBCTYPE_ASCII | MBCTYPE_EUC | MBCTYPE_SJIS | MBCTYPE_UTF8.

(** The tables, a byte from 0 to 255: how many bytes follow. *)
Definition mbctab_euc (c : Z) : Z := if c =? 142 then 1 else if c =? 143 then 2 else if (161 <=? c) && (c <=? 254) then 1 else 0.
Definition mbctab_sjis (c : Z) : Z := if (129 <=? c) && (c <=? 159) || (224 <=? c) && (c <=? 252) then 1 else 0.
Definition mbctab_utf8 (c : Z) : Z :=
  if c <? 192 then 0 else if c <? 224 then 1 else if c <? 240 then 2 else if c <? 248 then 3
  else if c <? 252 then 4 else if c <? 254 then 5 else 0.

Definition re_mbctab (t : mbctype) (c : Z) : Z :=
  match t with
  | MBCTYPE_ASCII => 0
  | MBCTYPE_EUC => mbctab_euc c
  | MBCTYPE_SJIS => mbctab_sjis c
  | MBCTYPE_UTF8 => mbctab_utf8 c
  end.

Definition ismbchar (t : mbctype) (c : Z) : bool := negb (re_mbctab t c =? 0).
Definition mbclen (t : mbctype) (c : Z) : Z := re_mbctab t c + 1.

(** ** Writing *)

Definition ISPRINT (c : Z) : bool := (32 <=? c) && (c <? 127).
Definition IS_EVSTR (p : list Z) : bool :=
  match p with c :: _ => (c =? 36) || (c =? 64) || (c =? 123) | [] => false end.

(** [sprintf(q, "%03o", c & 0xff)]. *)
Definition octal3 (c : Z) : list Z := [48 + c / 64; 48 + c / 8 mod 8; 48 + c mod 8].

(** The letter after the backslash for the control characters that have one. *)
Definition escape_letter (c : Z) : option Z :=
  if c =? 10 then Some 110 else if c =? 13 then Some 114 else if c =? 9 then Some 116
  else if c =? 12 then Some 102 else if c =? 11 then Some 118 else if c =? 7 then Some 97
  else if c =? 27 then Some 101 else None.

(** The first pass of [dump]: the space a character takes, added up in a
    [long]. *)
Definition dump_char_len (c : Z) (p : list Z) : Z :=
  if (c =? 34) || (c =? 92) then 2
  else if match escape_letter c with Some _ => true | None => false end then 2
  else if c =? 35 then (if IS_EVSTR p then 2 else 1)
  else if ISPRINT c then 1 else 4.

Fixpoint dump_len (p : list Z) (l : Z) : Z :=
  match p with
  | [] => l
  | c :: p => dump_len p (s32 (l + dump_char_len c p))
  end.

(** The second pass. *)
Definition dump_char (c : Z) (p : list Z) : list Z :=
  if (c =? 34) || (c =? 92) then [92; c]
  else if c =? 35 then (if IS_EVSTR p then [92; 35] else [35])
  else if ISPRINT c then [c]
  else match escape_letter c with Some l => [92; l] | None => 92 :: octal3 c end.

(** Each character is written at [q], inside a block of [len] bytes, [room] of them left. *)
Fixpoint dump_loop (p : list Z) (room : Z) : outcome (list Z * Z) :=
  match p with
  | [] => Ok ([], room)
  | c :: p =>
      let s := dump_char c p in
      if room <? len s then Undefined else
      '(q, room) <- dump_loop p (room - len s) ;;
      Ok (s ++ q, room)
  end.

(** [rb_str_new5] refuses a negative size and asks for one byte more. *)
Definition rb_str_dump (str : list Z) : outcome (list Z) :=
  let l := dump_len str 2 in
  if l <? 0 then Raise ArgumentError else
  if s32 (l + 1) <? 0 then Raise NoMemoryError else
  if l <? 1 then Undefined else
  '(q, room) <- dump_loop str (l - 1) ;;
  if room <? 1 then Undefined else Ok (34 :: q ++ [34]).

(** [inspect]: a character of several bytes is copied as its first byte announces. *)
Fixpoint inspect_loop (t : mbctype) (skip : nat) (p : list Z) : outcome (list Z) :=
  match p, skip with
  | _ :: p, S skip => inspect_loop t skip p
  | [], _ => Ok []
  | c :: p', O =>
      if ismbchar t c && negb (len p' =? 0) then
        if len p <? mbclen t c then Undefined else
        r <- inspect_loop t (Z.to_nat (mbclen t c) - 1) p' ;;
        Ok (firstn (Z.to_nat (mbclen t c)) p ++ r)
      else
        let s :=
          if (c =? 34) || (c =? 92) || (c =? 35) && IS_EVSTR p' then [92; c]
          else if ISPRINT c then [c]
          else match escape_letter c with Some l => [92; l] | None => 92 :: octal3 c end in
        r <- inspect_loop t 0 p' ;;
        Ok (s ++ r)
  end.

Definition rb_str_inspect (t : mbctype) (str : list Z) : outcome (list Z) :=
  r <- inspect_loop t 0 str ;; Ok (34 :: r ++ [34]).

(** ** Reading *)

(** util.c, at most [n] digits of a string whose end stops the scan: the value and what follows. *)
Fixpoint scan_oct (n : nat) (s : list Z) (retval : Z) : Z * list Z :=
  match n, s with
  | S n, c :: s' => if (48 <=? c) && (c <=? 55) then scan_oct n s' (u32 (Z.lor (u32 (Z.shiftl retval 3)) (c - 48))) else (retval, s)
  | _, _ => (retval, s)
  end.

(** The place of a digit in ["0123456789abcdef0123456789ABCDEF"]. *)
Definition hexdigit (c : Z) : option Z :=
  if (48 <=? c) && (c <=? 57) then Some (c - 48)
  else if (97 <=? c) && (c <=? 102) then Some (c - 87)
  else if (65 <=? c) && (c <=? 70) then Some (c - 39)
  else None.

Fixpoint scan_hex (n : nat) (s : list Z) (retval : Z) : Z * list Z :=
  match n, s with
  | S n, c :: s' =>
      match hexdigit c with
      | Some i => scan_hex n s' (u32 (Z.lor (u32 (Z.shiftl retval 4)) (Z.land i 15)))
      | None => (retval, s)
      end
  | _, _ => (retval, s)
  end.

(** [lex_p] as what is left of the line; -1 at its end. *)
Definition nextc (s : list Z) : Z * list Z :=
  match s with
  | [] => (-1, [])
  | c :: s' =>
      match s' with
      | d :: s'' => if (c =? 13) && (d =? 10) then (10, s'') else (c, s')
      | [] => (c, s')
      end
  end.

Definition pushback (c : Z) (s : list Z) : list Z := if c =? -1 then s else c :: s.

(** [yyerror]: the program is refused. *)
Definition yyerror {A} : option (outcome A) := Some (Raise SyntaxError).

Fixpoint read_escape (fuel : nat) (s : list Z) : option (outcome (Z * list Z)) :=
  match fuel with
  | O => None
  | S fuel =>
      let '(c, s) := nextc s in
      (** [c] and [C-] *)
      let control s :=
        let '(c, s) := nextc s in
        if c =? 92 then option_map (fun o => '(c, s) <- o ;; Ok (Z.land c 159, s)) (read_escape fuel s)
        else if c =? 63 then Some (Ok (127, s))
        else if c =? -1 then yyerror
        else Some (Ok (Z.land c 159, s)) in
      if c =? 92 then Some (Ok (c, s))
      else if c =? 110 then Some (Ok (10, s))
      else if c =? 116 then Some (Ok (9, s))
      else if c =? 114 then Some (Ok (13, s))
      else if c =? 102 then Some (Ok (12, s))
      else if c =? 118 then Some (Ok (11, s))
      else if c =? 97 then Some (Ok (7, s))
      else if c =? 101 then Some (Ok (27, s))
      else if (48 <=? c) && (c <=? 55) then Some (Ok (scan_oct 3 (pushback c s) 0))
      else if c =? 120 then
        let '(v, s') := scan_hex 2 s 0 in
        if len s' =? len s then yyerror else Some (Ok (v, s'))
      else if c =? 98 then Some (Ok (8, s))
      else if c =? 115 then Some (Ok (32, s))
      else if c =? 77 then
        let '(c, s) := nextc s in
        if negb (c =? 45) then yyerror else
        let '(c, s) := nextc s in
        if c =? 92 then option_map (fun o => '(c, s) <- o ;; Ok (Z.lor c 128, s)) (read_escape fuel s)
        else if c =? -1 then yyerror
        else Some (Ok (Z.lor (Z.land c 255) 128, s))
      else if c =? 67 then
        let '(c, s) := nextc s in
        if negb (c =? 45) then yyerror else control s
      else if c =? 99 then control s
      else if c =? -1 then yyerror
      else Some (Ok (c, s))
  end.

(** [for (i = 0; i < len; i++) { tokadd(c); c = nextc(); }]: what is added, the last character read, and the rest. *)
Fixpoint tokadd_mb (n : nat) (c : Z) (s : list Z) : list Z * Z * list Z :=
  match n with
  | O => ([], c, s)
  | S n => let '(c', s) := nextc s in let '(t, c', s) := tokadd_mb n c' s in (u8 c :: t, c', s)
  end.

(** [tokadd_string] for a double-quoted literal: [func] is [STR_FUNC_EXPAND], [term] the quote, no [paren].
    The results are what is added to the token, the character that ended the loop, and what is left. *)
Fixpoint tokadd_string (t : mbctype) (fuel : nat) (s : list Z) : option (outcome (list Z * Z * list Z)) :=
  match fuel with
  | O => None
  | S fuel =>
      let add c s := option_map (fun o => '(tok, r, s) <- o ;; Ok (u8 c :: tok, r, s)) (tokadd_string t fuel s) in
      let '(c, s) := nextc s in
      if c =? -1 then Some (Ok ([], c, s))
      else if c =? 34 then Some (Ok ([], c, pushback c s))
      else if (c =? 35) && IS_EVSTR s then Some (Ok ([], c, pushback c s))
      else if c =? 92 then
        let '(c, s) := nextc s in
        if c =? 10 then tokadd_string t fuel s
        else if c =? 92 then add c s
        else
          match read_escape (S (length s)) (pushback c s) with
          | None => None
          | Some (Ok (c, s)) => add c s
          | Some (Raise e) => Some (Raise e)
          | Some Undefined => Some Undefined
          | Some Delegate => Some Delegate
          end
      else if ismbchar t c then
        let '(tok, c, s) := tokadd_mb (Z.to_nat (mbclen t c - 1)) c s in
        option_map (fun o => o <- o ;; let '(tok', r, s) := o in Ok (tok ++ tok', r, s)) (add c s)
      else add c s
  end.

Inductive string_token :=
  | tSTRING_END (s : list Z)
  | tSTRING_DVAR (s : list Z)
  | tSTRING_DBEG (s : list Z)
  | tSTRING_CONTENT (tok s : list Z).

(** [parse_string] after the opening quote: a literal is the contents it gives until it gives the end.  A
    string that does not end is refused. *)
Definition parse_string (t : mbctype) (fuel : nat) (s : list Z) : option (outcome string_token) :=
  let '(c, s) := nextc s in
  if c =? 34 then Some (Ok (tSTRING_END s)) else
  let content tok c s :=
    option_map (fun o => '(tok', r, s) <- o ;;
      if r =? -1 then Raise SyntaxError else Ok (tSTRING_CONTENT (tok ++ tok') s)) (tokadd_string t fuel (pushback c s)) in
  if c =? 35 then
    let '(c, s) := nextc s in
    if (c =? 36) || (c =? 64) then Some (Ok (tSTRING_DVAR (pushback c s)))
    else if c =? 123 then Some (Ok (tSTRING_DBEG s))
    else content [35] c s
  else content [] c s.

(** ["\#{\0001"] and back. *)
Example dump_example : rb_str_dump [35; 123; 0; 49] = Ok [34; 92; 35; 123; 92; 48; 48; 48; 49; 34].
Proof. reflexivity. Qed.

Example parse_example :
  parse_string MBCTYPE_UTF8 9 [92; 35; 123; 92; 48; 48; 48; 49; 34] = Some (Ok (tSTRING_CONTENT [35; 123; 0; 49] [34])).
Proof. reflexivity. Qed.

(** ** [dump] *)

(** The two passes agree. *)
Lemma dump_char_len_ok c p : len (dump_char c p) = dump_char_len c p.
Proof.
  unfold dump_char, dump_char_len, escape_letter, ISPRINT.
  destruct ((c =? 34) || (c =? 92)); [reflexivity|].
  destruct (Z.eqb_spec c 35) as [-> | _]; [cbn; destruct (IS_EVSTR p); reflexivity|].
  repeat match goal with
    | |- context [c =? ?y] => destruct (Z.eqb_spec c y); [subst; reflexivity|]
    end.
  destruct ((32 <=? c) && (c <? 127)); reflexivity.
Qed.

Fixpoint dump_body (p : list Z) : list Z := match p with [] => [] | c :: p => dump_char c p ++ dump_body p end.

Lemma dump_len_ok p l : 0 <= l -> l + len (dump_body p) <= LONG_MAX -> dump_len p l = l + len (dump_body p).
Proof.
  unfold LONG_MAX. revert l; induction p as [|c p IH]; intros l Hl; cbn [dump_len dump_body]; [cbn; lia|].
  intros H. pose proof (len_nonneg (dump_body p)). pose proof (len_nonneg (dump_char c p)).
  assert (E : len (dump_char c p ++ dump_body p) = len (dump_char c p) + len (dump_body p))
    by (unfold len; rewrite length_app; lia).
  rewrite E, <- dump_char_len_ok, s32_small, IH in * by lia. lia.
Qed.

Lemma dump_char_short c p : (length (dump_char c p) <= 4)%nat.
Proof. unfold dump_char, octal3. repeat case_if; try (cbn; lia). all: destruct (escape_letter c); cbn; lia. Qed.

Lemma dump_body_length s : (length (dump_body s) <= 4 * length s)%nat.
Proof.
  induction s as [|c s IH]; cbn [dump_body]; [cbn; lia|]. rewrite length_app. pose proof (dump_char_short c s). cbn [length]. lia.
Qed.

Lemma dump_loop_ok p room : len (dump_body p) <= room -> dump_loop p room = Ok (dump_body p, room - len (dump_body p)).
Proof.
  revert room; induction p as [|c p IH]; intros room H; cbn [dump_loop dump_body] in *; [f_equal; f_equal; cbn; lia|].
  assert (len (dump_char c p ++ dump_body p) = len (dump_char c p) + len (dump_body p)) as E
    by (unfold len; rewrite length_app; lia).
  rewrite E in *. pose proof (len_nonneg (dump_body p)).
  replace (room <? len (dump_char c p)) with false by (symmetry; apply Z.ltb_ge; lia).
  rewrite IH by lia. cbn [bind]. do 2 f_equal. lia.
Qed.

Lemma rb_str_dump_ok s : 4 * len s + 2 < LONG_MAX -> rb_str_dump s = Ok (34 :: dump_body s ++ [34]).
Proof.
  intros HL. pose proof (len_nonneg (dump_body s)). pose proof (dump_body_length s) as HB.
  assert (HM : 2 + len (dump_body s) < LONG_MAX) by (unfold len in *; lia).
  unfold rb_str_dump. rewrite dump_len_ok by lia. unfold LONG_MAX in *.
  rewrite (s32_small (2 + len (dump_body s) + 1)) by lia.
  replace (2 + len (dump_body s) <? 0) with false by (symmetry; apply Z.ltb_ge; lia).
  replace (2 + len (dump_body s) + 1 <? 0) with false by (symmetry; apply Z.ltb_ge; lia).
  replace (2 + len (dump_body s) <? 1) with false by (symmetry; apply Z.ltb_ge; lia).
  rewrite dump_loop_ok by lia. cbn [bind].
  destruct (_ <? 1) eqn:E; [apply Z.ltb_lt in E; lia | reflexivity].
Qed.

(** Without characters of several bytes [inspect] is [dump]. *)
Lemma inspect_char_dump c p :
  (if (c =? 34) || (c =? 92) || (c =? 35) && IS_EVSTR p then [92; c]
   else if ISPRINT c then [c] else match escape_letter c with Some l => [92; l] | None => 92 :: octal3 c end) = dump_char c p.
Proof.
  unfold dump_char. destruct ((c =? 34) || (c =? 92)); [reflexivity|]. cbn [orb].
  destruct (Z.eqb_spec c 35) as [-> | _]; [destruct (IS_EVSTR p); reflexivity | reflexivity].
Qed.

Lemma inspect_loop_single t s : (forall c, In c s -> ismbchar t c = false) -> inspect_loop t 0 s = Ok (dump_body s).
Proof.
  induction s as [|c s IH]; intros H; [reflexivity|]. cbn [inspect_loop dump_body].
  rewrite (H c (or_introl eq_refl)). cbn [andb]. rewrite inspect_char_dump, IH by (intros d Hd; apply H; now right).
  reflexivity.
Qed.

(** ** Reading what [dump] wrote *)

Lemma ismbchar_ascii t c : 0 <= c < 128 -> ismbchar t c = false.
Proof.
  intros H. unfold ismbchar. enough (re_mbctab t c = 0) as -> by reflexivity.
  unfold re_mbctab, mbctab_euc, mbctab_sjis, mbctab_utf8. destruct t; repeat match goal with
    | |- context [?x =? ?y] => destruct (Z.eqb_spec x y); try lia
    | |- context [?x <=? ?y] => destruct (Z.leb_spec x y); try lia
    | |- context [?x <? ?y] => destruct (Z.ltb_spec x y); try lia
    end; reflexivity.
Qed.

Lemma nextc_plain c s : c <> 13 -> nextc (c :: s) = (c, s).
Proof. intros H. destruct s as [|d s]; [reflexivity|]. cbn. now replace (c =? 13) with false by (symmetry; apply Z.eqb_neq; lia). Qed.

Definition octal (c : Z) : Prop := 48 <= c <= 55.

Lemma octal3_digits c : byte c -> exists a b d, octal3 c = [a; b; d] /\ octal a /\ octal b /\ octal d /\
  c = 64 * (a - 48) + 8 * (b - 48) + (d - 48).
Proof.
  unfold byte, octal, octal3. intros H. eexists _, _, _. split; [reflexivity|]. Z.div_mod_to_equations. lia.
Qed.

Lemma lor_low a b n : 0 <= n -> 0 <= b < 2 ^ n -> Z.lor (Z.shiftl a n) b = a * 2 ^ n + b.
Proof. intros Hn Hb. rewrite Z.shiftl_mul_pow2, Z.lor_comm, lor_add_low by lia. lia. Qed.

Lemma scan_oct_digit n c s v : octal c -> 0 <= v < 2 ^ 20 -> scan_oct (S n) (c :: s) v = scan_oct n s (8 * v + (c - 48)).
Proof.
  unfold octal. intros Hc Hv. cbn [scan_oct]. replace ((48 <=? c) && (c <=? 55)) with true
    by (symmetry; apply andb_true_intro; split; apply Z.leb_le; lia).
  f_equal. change (2 ^ 20) with 1048576 in Hv. rewrite (u32_small (Z.shiftl v 3)) by (rewrite Z.shiftl_mul_pow2 by lia; change (2 ^ 3) with 8; lia).
  rewrite lor_low by (change (2 ^ 3) with 8; lia). change (2 ^ 3) with 8. rewrite u32_small by lia. lia.
Qed.

(** Three octal digits are read back, whatever follows. *)
Lemma scan_oct_octal3 c s : byte c -> scan_oct 3 (octal3 c ++ s) 0 = (c, s).
Proof.
  intros H. destruct (octal3_digits c H) as (a & b & d & -> & Ha & Hb & Hd & E). cbn [app]. unfold octal in *.
  change (2 ^ 20) with 1048576 in *.
  rewrite !scan_oct_digit by (unfold octal; change (2 ^ 20) with 1048576; lia).
  cbn [scan_oct]. f_equal. lia.
Qed.

(** One more character in the token. *)
Definition tok_cons (c : Z) (o : outcome (list Z * Z * list Z)) : outcome (list Z * Z * list Z) :=
  '(tok, r, s) <- o ;; Ok (u8 c :: tok, r, s).

Lemma tokadd_escape t f x v w w' : x <> 13 -> x <> 10 -> x <> 92 -> x <> -1 ->
  read_escape (S (length w)) (x :: w) = Some (Ok (v, w')) ->
  tokadd_string t (S f) (92 :: x :: w) = option_map (tok_cons v) (tokadd_string t f w').
Proof.
  intros H1 H2 H3 H4 H. cbn [tokadd_string]. rewrite (nextc_plain 92) by lia. cbn [Z.eqb Pos.eqb andb].
  rewrite (nextc_plain x w H1). apply Z.eqb_neq in H2, H3, H4. rewrite H2, H3. unfold pushback. now rewrite H4, H.
Qed.

Lemma tokadd_plain t f c w : 0 <= c < 128 -> c <> 13 -> c <> 34 -> c <> 92 -> (c = 35 -> IS_EVSTR w = false) ->
  tokadd_string t (S f) (c :: w) = option_map (tok_cons c) (tokadd_string t f w).
Proof.
  intros Hc H1 H2 H3 H4. cbn [tokadd_string]. rewrite (nextc_plain c w H1).
  replace (c =? -1) with false by (symmetry; apply Z.eqb_neq; lia).
  replace (c =? 34) with false by (symmetry; apply Z.eqb_neq; lia).
  replace (c =? 92) with false by (symmetry; apply Z.eqb_neq; lia).
  replace ((c =? 35) && IS_EVSTR w) with false
    by (symmetry; destruct (Z.eqb_spec c 35) as [E|E]; [now rewrite H4 | reflexivity]).
  now rewrite ismbchar_ascii.
Qed.

Lemma read_escape_letter n c l w : escape_letter c = Some l -> read_escape (S n) (l :: w) = Some (Ok (c, w)).
Proof.
  unfold escape_letter.
  repeat match goal with
    | |- context [c =? ?y] => destruct (Z.eqb_spec c y); [subst; intros [= <-]; cbn [read_escape]; rewrite nextc_plain by lia; reflexivity|]
    end.
  discriminate.
Qed.

Lemma read_escape_octal n c w : byte c -> read_escape (S n) (octal3 c ++ w) = Some (Ok (c, w)).
Proof.
  intros H. pose proof (scan_oct_octal3 c w H) as Hs. destruct (octal3_digits c H) as (a & b & d & E & Ha & _). rewrite E in *.
  unfold octal in Ha. cbn [app] in *. cbn [read_escape]. rewrite nextc_plain by lia.
  repeat (match goal with |- context [a =? ?y] => replace (a =? y) with false by (symmetry; apply Z.eqb_neq; lia) end).
  replace ((48 <=? a) && (a <=? 55)) with true by (symmetry; apply andb_true_intro; split; apply Z.leb_le; lia).
  unfold pushback. replace (a =? -1) with false by (symmetry; apply Z.eqb_neq; lia). now rewrite Hs.
Qed.

Lemma read_escape_quote n w : read_escape (S n) (34 :: w) = Some (Ok (34, w)).
Proof. cbn [read_escape]. rewrite nextc_plain by lia. reflexivity. Qed.

Lemma read_escape_hash n w : read_escape (S n) (35 :: w) = Some (Ok (35, w)).
Proof. cbn [read_escape]. rewrite nextc_plain by lia. reflexivity. Qed.

(** What [dump] writes for a character is read as that character. *)
Lemma tokadd_dump_char t f c p w : byte c -> (IS_EVSTR p = false -> IS_EVSTR w = false) ->
  tokadd_string t (S f) (dump_char c p ++ w) = option_map (tok_cons c) (tokadd_string t f w).
Proof.
  intros Hc Hw. unfold byte in Hc. unfold dump_char.
  destruct (Z.eqb_spec c 34) as [->|H34]; cbn [orb].
  { apply tokadd_escape; try lia. apply read_escape_quote. }
  destruct (Z.eqb_spec c 92) as [->|H92].
  { cbn [app tokadd_string]. rewrite !nextc_plain by lia. reflexivity. }
  destruct (Z.eqb_spec c 35) as [->|H35].
  { destruct (IS_EVSTR p) eqn:E.
    - apply tokadd_escape; try lia. apply read_escape_hash.
    - apply tokadd_plain; try lia. auto. }
  destruct (ISPRINT c) eqn:Ep.
  { unfold ISPRINT in Ep. breflect. apply tokadd_plain; lia. }
  destruct (escape_letter c) as [l|] eqn:El.
  - assert (97 <= l <= 118) as Hl.
    { revert El. unfold escape_letter. repeat match goal with
        | |- context [c =? ?y] => destruct (c =? y); [intros [= <-]; lia|] end. discriminate. }
    apply tokadd_escape; try lia. now apply read_escape_letter.
  - destruct (octal3_digits c Hc) as (a & b & d & E & Ha & _). unfold octal in Ha. rewrite E. cbn [app].
    apply tokadd_escape; try lia. change (a :: b :: d :: w) with ([a; b; d] ++ w). rewrite <- E. now apply read_escape_octal.
Qed.

Lemma dump_body_evstr p w : Forall byte p -> IS_EVSTR p = false -> IS_EVSTR (dump_body p ++ 34 :: w) = false.
Proof.
  intros Hb H. destruct Hb as [|c p Hc Hb]; [reflexivity|]. cbn [dump_body]. unfold dump_char.
  destruct ((c =? 34) || (c =? 92)); [reflexivity|].
  destruct (c =? 35); [destruct (IS_EVSTR p); reflexivity|].
  destruct (ISPRINT c); [exact H|]. destruct (escape_letter c); reflexivity.
Qed.

Lemma tokadd_dump t s w : Forall byte s -> forall fuel, (length s < fuel)%nat ->
  tokadd_string t fuel (dump_body s ++ 34 :: w) = Some (Ok (s, 34, 34 :: w)).
Proof.
  induction 1 as [|c s Hc Hs IH]; intros [|f] Hf; cbn [length] in Hf; try lia.
  - cbn [dump_body app tokadd_string]. rewrite nextc_plain by lia. reflexivity.
  - cbn [dump_body]. rewrite <- app_assoc, tokadd_dump_char by auto using dump_body_evstr.
    rewrite IH by lia. unfold tok_cons. cbn [option_map bind]. now rewrite u8_small by exact Hc.
Qed.

Lemma dump_body_head c s w : byte c -> exists x y, dump_body (c :: s) ++ 34 :: w = x :: y /\ x <> 13 /\ x <> 34 /\ x <> -1 /\
  (x = 35 -> c = 35 /\ IS_EVSTR s = false /\ y = dump_body s ++ 34 :: w).
Proof.
  intros Hc. unfold byte in Hc. cbn [dump_body]. unfold dump_char.
  destruct (Z.eqb_spec c 34) as [->|H34]; [eexists _, _; split; [reflexivity | lia]|].
  destruct (Z.eqb_spec c 92) as [->|H92]; [eexists _, _; split; [reflexivity | lia]|]. cbn [orb].
  destruct (Z.eqb_spec c 35) as [->|H35].
  { destruct (IS_EVSTR s) eqn:E; eexists _, _; (split; [reflexivity | repeat split; try lia; auto]). }
  destruct (ISPRINT c) eqn:Ep.
  { unfold ISPRINT in Ep. breflect. eexists _, _. split; [reflexivity | lia]. }
  destruct (escape_letter c); eexists _, _; (split; [reflexivity | lia]).
Qed.

(** C17: what [dump] writes, the parser reads back.  For any bytes, as long as four times their number fits
    into a [long] with the quotes, and in every character encoding the two passes of [dump] agree on the size
    of the block, nothing is written past it, and the double-quoted literal it holds is read as exactly the
    string, one piece without interpolation that ends at the closing quote; where every character is a single
    byte and there are less than 2^28 [inspect] writes the same literal. *)
Theorem dump_parses_back (t : mbctype) (str : list Z) (fuel : nat) :
  Forall byte str -> 4 * len str + 2 < LONG_MAX -> (length str < fuel)%nat ->
  exists q, rb_str_dump str = Ok (34 :: q) /\
    parse_string t fuel q = Some (Ok (match str with [] => tSTRING_END [] | _ => tSTRING_CONTENT str [34] end)) /\
    parse_string t fuel [34] = Some (Ok (tSTRING_END [])) /\
    ((forall c, In c str -> ismbchar t c = false) -> len str < 268435456 -> rb_str_inspect t str = Ok (34 :: q)).
Proof.
  intros Hb HL Hf. exists (dump_body str ++ [34]). rewrite rb_str_dump_ok by exact HL. split; [reflexivity|].
  split; [|split; [reflexivity|]].
  2: { intros H _. unfold rb_str_inspect. now rewrite inspect_loop_single. }
  destruct Hb as [|c s Hc Hs]; [reflexivity|].
  pose proof (tokadd_dump t (c :: s) [] ltac:(now constructor) fuel Hf) as Hall. cbn [length] in Hf.
  destruct (dump_body_head c s [] Hc) as (x & y & E & H13 & H34 & Hm1 & H35). rewrite E in *.
  unfold parse_string. rewrite nextc_plain by assumption. apply Z.eqb_neq in H34. rewrite H34.
  destruct (Z.eqb_spec x 35) as [->|_].
  - destruct (H35 eq_refl) as (-> & Hev & ->). clear H35 E Hall.
    pose proof (tokadd_dump t s [] Hs fuel ltac:(lia)) as Hrest.
    pose proof (dump_body_evstr s [] Hs Hev) as Hev'.
    assert (exists x y, dump_body s ++ [34] = x :: y /\ x <> 13 /\ x <> -1) as (x & y & Ey & Hx & Hx1).
    { destruct Hs as [|d s' Hd _]; [exists 34, []; split; [reflexivity | lia]|].
      destruct (dump_body_head d s' [] Hd) as (x & y & -> & ? & ? & ? & _). eauto. }
    rewrite Ey in *. rewrite nextc_plain by assumption. cbn [IS_EVSTR] in Hev'.
    apply orb_false_elim in Hev' as [Hev' H123]. rewrite Hev', H123. unfold pushback.
    apply Z.eqb_neq in Hx1. rewrite Hx1, Hrest. reflexivity.
  - unfold pushback. apply Z.eqb_neq in Hm1. rewrite Hm1, Hall. reflexivity.
Qed.

Lemma dump_parses_back_witness :
  Forall byte [35; 123; 0; 255] /\ exists q, rb_str_dump [35; 123; 0; 255] = Ok (34 :: q).
Proof.
  assert (Forall byte [35; 123; 0; 255]) as Hb by (repeat constructor; unfold byte; lia). split; [exact Hb|].
  destruct (dump_parses_back MBCTYPE_SJIS [35; 123; 0; 255] 5 Hb ltac:(reflexivity) ltac:(cbn; lia)) as (q & Hq & _). now exists q.
Defined.

(** A first byte that announces more bytes than the string has makes [inspect] read past its end. *)
Example inspect_truncated : rb_str_inspect MBCTYPE_UTF8 [227; 129] = Undefined.
Proof. reflexivity. Qed.

