(* ===== verification/StrEdit.v ===== *)
(** * Strings: parts of a string

    string.c: taking and replacing a part ([rb_str_substr], [rb_str_splice]),
    concatenation, repetition, padding, removing line ends, and the case of
    letters.  A string is the list of its bytes; the block of a string that
    is changed in place has the bytes, the NUL after them and the room that
    was allocated.  The check that a string may be changed and the sharing
    of blocks are those of arrays and are left out. *)

From Stdlib Require Import ZArith Lia List Bool.
From S2P Require Import Prelude CInt StrSearch BigStr StrDump.
Import ListNotations.
Local Open Scope Z_scope.
Local Open Scope outcome_scope.

(** ** Blocks *)

(** [ALLOC_N(char, n)], [REALLOC_N]: a negative size is refused. *)
Definition alloc_check (n : Z) : outcome unit := if s32 n <? 0 then Raise NoMemoryError else Ok tt.

(** [n] bytes of [l] from index [i] on, all of them inside. *)
Definition read_bytes (l : list Z) (i n : Z) : outcome (list Z) :=
  if (i <? 0) || (n <? 0) || (len l <? i + n) then Undefined else Ok (firstn (Z.to_nat n) (skipn (Z.to_nat i) l)).

Definition write_bytes (l : list Z) (i : Z) (s : list Z) : outcome (list Z) :=
  if (i <? 0) || (len l <? i + len s) then Undefined
  else Ok (firstn (Z.to_nat i) l ++ s ++ skipn (Z.to_nat (i + len s)) l).

(** [memmove(l + dst, l + src, n)]; a negative [n] is a size larger than any block. *)
Definition memmove (l : list Z) (dst src n : Z) : outcome (list Z) :=
  s <- read_bytes l src n ;; write_bytes l dst s.

(** [str_new]: [len + 1] bytes are allocated, [len] of them copied from [i]. *)
Definition str_new (l : list Z) (i n : Z) : outcome (list Z) :=
  if n <? 0 then Raise ArgumentError else
  _ <- alloc_check (s32 (n + 1)) ;;
  read_bytes l i n.

(** ** Substrings *)

(** [None] is [nil]; a long tail is a string that shares the block. *)
Definition rb_str_substr (str : list Z) (beg n : Z) : outcome (option (list Z)) :=
  if n <? 0 then Ok None else
  if len str <? beg then Ok None else
  let beg' := if beg <? 0 then beg + len str else beg in
  if beg' <? 0 then Ok None else
  let n := if len str <? s32 (beg' + n) then len str - beg' else n in
  let n := if n <? 0 then 0 else n in
  if n =? 0 then Ok (Some []) else
  if (10 <? n) && (s32 (beg' + n) =? len str) then Ok (Some (skipn (Z.to_nat (len str - n)) str)) else
  s <- str_new str beg' n ;; Ok (Some s).

(** [self] says that [val] is [str] itself, whose bytes are then those of the block after the first move. *)
Definition rb_str_splice (str : list Z) (beg n : Z) (val : list Z) (self : bool) : outcome (list Z) :=
  if n <? 0 then Raise IndexError else
  if len str <? beg then Raise IndexError else
  if (beg <? 0) && (len str <? s32 (- beg)) then Raise IndexError else
  let beg := if beg <? 0 then s32 (beg + len str) else beg in
  let n := if len str <? s32 (beg + n) then s32 (len str - beg) else n in
  let capa := s32 (len str + len val - n + 1) in
  _ <- (if n <? len val then alloc_check (s32 (capa + 1)) else Ok tt) ;;
  let block := str ++ 0 :: repeat 0 (if n <? len val then Z.to_nat (capa - len str) else 0) in
  block <- (if negb (len val =? n)
            then memmove block (s32 (beg + len val)) (s32 (beg + n)) (s32 (len str - s32 (beg + n))) else Ok block) ;;
  let val' := if self then firstn (length val) block else val in
  block <- (if 0 <? len val then write_bytes block beg val' else Ok block) ;;
  let newlen := s32 (len str + s32 (len val - n)) in
  block <- write_bytes block newlen [0] ;;
  read_bytes block 0 newlen.

(** ** Concatenation and repetition *)

Definition rb_str_plus (str1 str2 : list Z) : outcome (list Z) :=
  let n := s32 (len str1 + len str2) in
  if n <? 0 then Raise ArgumentError else
  _ <- alloc_check (s32 (n + 1)) ;;
  block <- write_bytes (repeat 0 (Z.to_nat (n + 1))) 0 str1 ;;
  block <- write_bytes block (len str1) str2 ;;
  read_bytes block 0 n.

Fixpoint times_loop (n : nat) (i : Z) (str block : list Z) : outcome (list Z) :=
  match n with
  | O => Ok block
  | S n => block <- write_bytes block (i * len str) str ;; times_loop n (i + 1) str block
  end.

Definition rb_str_times (str : list Z) (times : Z) : outcome (list Z) :=
  if times =? 0 then Ok [] else
  if times <? 0 then Raise ArgumentError else
  if cdiv LONG_MAX times <? len str then Raise ArgumentError else
  let n := s32 (len str * times) in
  if n <? 0 then Raise ArgumentError else
  _ <- alloc_check (s32 (n + 1)) ;;
  block <- times_loop (Z.to_nat times) 0 str (repeat 0 (Z.to_nat (n + 1))) ;;
  read_bytes block 0 n.

(** ** Padding *)

(** [n] bytes of padding: whole copies of [f] while there is room, then its beginning. *)
Fixpoint pad_fill (fuel : nat) (f : list Z) (n : Z) : list Z :=
  match fuel with
  | O => []
  | S fuel => if len f <=? n then f ++ pad_fill fuel f (n - len f) else firstn (Z.to_nat n) f
  end.

(** The two ways of the code: one byte again and again, or a longer string. *)
Definition pad_bytes (f : list Z) (n : Z) : list Z :=
  match f with
  | [c] => repeat c (Z.to_nat n)
  | _ => pad_fill (S (Z.to_nat n)) f n
  end.

Inductive jflag := jl | jr | jc.

Definition rb_str_justify (str : list Z) (width : Z) (pad : option (list Z)) (j : jflag) : outcome (list Z) :=
  if (width <? 0) || (width <=? len str) then Ok str else
  _ <- alloc_check (s32 (width + 1)) ;;
  match pad with
  | Some [] => Raise ArgumentError
  | _ =>
      let f := match pad with Some f => f | None => [32] end in
      let n := width - len str in
      let before := match j with jl => 0 | jr => n | jc => n / 2 end in
      let after := match j with jr => 0 | _ => n - before end in
      Ok ((match j with jl => [] | _ => pad_bytes f before end) ++ str ++
          (match j with jr => [] | _ => pad_bytes f after end))
  end.

(** ** Parts of blocks *)

Lemma len_repeat c n : len (repeat c n) = Z.of_nat n.
Proof. unfold len. now rewrite repeat_length. Qed.

Lemma firstn_len s t : firstn (Z.to_nat (len s)) (s ++ t) = s.
Proof. unfold len. rewrite Nat2Z.id, firstn_app, Nat.sub_diag, firstn_all. apply app_nil_r. Qed.

Lemma skipn_len s t : skipn (Z.to_nat (len s)) (s ++ t) = t.
Proof. unfold len. rewrite Nat2Z.id, skipn_app, Nat.sub_diag, skipn_all. reflexivity. Qed.

Lemma read_bytes_app a x b i n : i = len a -> n = len x -> read_bytes (a ++ x ++ b) i n = Ok x.
Proof.
  intros -> ->. unfold read_bytes. pose proof (len_nonneg a). pose proof (len_nonneg x). pose proof (len_nonneg b).
  rewrite !len_app. replace ((len a <? 0) || (len x <? 0) || (len a + (len x + len b) <? len a + len x)) with false
    by (symmetry; repeat (apply orb_false_iff; split); apply Z.ltb_ge; lia).
  now rewrite skipn_len, firstn_len.
Qed.

Lemma write_bytes_app a x b i s : i = len a -> len x = len s -> write_bytes (a ++ x ++ b) i s = Ok (a ++ s ++ b).
Proof.
  intros -> E. unfold write_bytes. pose proof (len_nonneg a). pose proof (len_nonneg b).
  rewrite !len_app. replace ((len a <? 0) || (len a + (len x + len b) <? len a + len s)) with false
    by (symmetry; apply orb_false_iff; split; apply Z.ltb_ge; lia).
  rewrite firstn_len. replace (len a + len s) with (len (a ++ x)) by (rewrite len_app; lia).
  now rewrite (app_assoc a x b), skipn_len.
Qed.

(** A list cut at [i] and [i + n]. *)
Lemma cut l i n : 0 <= i -> 0 <= n -> i + n <= len l ->
  exists a x b, l = a ++ x ++ b /\ len a = i /\ len x = n.
Proof.
  intros Hi Hn H. exists (firstn (Z.to_nat i) l), (firstn (Z.to_nat n) (skipn (Z.to_nat i) l)), (skipn (Z.to_nat n) (skipn (Z.to_nat i) l)).
  rewrite !firstn_skipn. split; [reflexivity|]. unfold len in *. rewrite !length_firstn, length_skipn. lia.
Qed.

Lemma app_same_len {A} (a b c d : list A) : length a = length c -> a ++ b = c ++ d -> a = c /\ b = d.
Proof.
  revert c; induction a as [|x a IH]; intros [|y c] H E; cbn in *; try discriminate; [auto|].
  injection E as -> E. destruct (IH c ltac:(lia) E) as [-> ->]. auto.
Qed.

Lemma alloc_check_ok n : 0 <= n <= LONG_MAX -> alloc_check n = Ok tt.
Proof.
  intros H. unfold alloc_check, LONG_MAX in *. rewrite s32_small by lia.
  now replace (n <? 0) with false by (symmetry; apply Z.ltb_ge; lia).
Qed.

(** Moving the tail of a string in its block: the first bytes stay. *)
Lemma memmove_tail pre mid tl room v :
  0 <= v -> len pre + v + len tl < len (pre ++ mid ++ tl ++ room) ->
  exists mid' rest, memmove (pre ++ mid ++ tl ++ room) (len pre + v) (len pre + len mid) (len tl) = Ok (pre ++ mid' ++ tl ++ rest) /\
    len mid' = v /\ rest <> [] /\ pre ++ mid' = firstn (Z.to_nat (len pre + v)) (pre ++ mid ++ tl ++ room).
Proof.
  intros Hv H. pose proof (len_nonneg pre). pose proof (len_nonneg tl). unfold memmove.
  rewrite (app_assoc pre mid), (read_bytes_app (pre ++ mid) tl room) by (rewrite ?len_app; reflexivity). cbn [bind].
  rewrite <- app_assoc. destruct (cut (pre ++ mid ++ tl ++ room) (len pre + v) (len tl)) as (a & x & b & E & Ha & Hx); try lia.
  rewrite E, (write_bytes_app a x b) by lia.
  assert (exists mid', a = pre ++ mid' /\ len mid' = v) as (mid' & -> & Hm).
  { exists (skipn (length pre) a). assert (firstn (length pre) a = pre) as Hp.
    { apply (f_equal (firstn (length pre))) in E. rewrite firstn_app, Nat.sub_diag, firstn_all, app_nil_r in E.
      rewrite firstn_app in E. replace (length pre - length a)%nat with 0%nat in E by (unfold len in *; lia).
      cbn [firstn] in E. rewrite app_nil_r in E. now symmetry. }
    split; [pose proof (firstn_skipn (length pre) a) as Hs; rewrite Hp in Hs; now symmetry|]. unfold len in *. rewrite length_skipn. lia. }
  exists mid', b. rewrite <- app_assoc. split; [reflexivity|]. split; [exact Hm|]. split.
  - intros ->. rewrite E, !len_app in H. change (len []) with 0 in H. rewrite len_app in Ha. lia.
  - rewrite <- Ha. now rewrite firstn_len.
Qed.

(** ** Substrings *)

Lemma rb_str_substr_ok str beg n :
  len str < LONG_MAX -> 0 <= n -> - len str <= beg <= len str ->
  let beg' := if beg <? 0 then beg + len str else beg in
  beg' + n <= LONG_MAX ->
  rb_str_substr str beg n = Ok (Some (firstn (Z.to_nat n) (skipn (Z.to_nat beg') str))).
Proof.
  intros Hl Hn Hb beg' Ho. unfold LONG_MAX in *. unfold rb_str_substr. fold beg'.
  assert (0 <= beg' <= len str) as Hb' by (unfold beg'; destruct (beg <? 0) eqn:E; breflect; lia).
  replace (n <? 0) with false by (symmetry; apply Z.ltb_ge; lia).
  replace (len str <? beg) with false by (symmetry; apply Z.ltb_ge; lia).
  replace (beg' <? 0) with false by (symmetry; apply Z.ltb_ge; lia). cbn zeta.
  rewrite (s32_small (beg' + n)) by lia. set (m := if len str <? beg' + n then len str - beg' else n).
  assert (0 <= m <= n /\ beg' + m <= len str /\ (m = n \/ beg' + m = len str)) as (Hm & Hml & Hmn)
    by (unfold m; destruct (len str <? beg' + n) eqn:E; breflect; lia).
  replace (m <? 0) with false by (symmetry; apply Z.ltb_ge; lia). cbn iota.
  assert (firstn (Z.to_nat n) (skipn (Z.to_nat beg') str) = firstn (Z.to_nat m) (skipn (Z.to_nat beg') str)) as ->.
  { destruct Hmn as [-> | E]; [reflexivity|].
    rewrite !firstn_all2; [reflexivity | |]; rewrite length_skipn; unfold len in *; lia. }
  destruct (m =? 0) eqn:E0; breflect; [rewrite E0; reflexivity|].
  rewrite (s32_small (beg' + m)) by lia. destruct ((10 <? m) && (beg' + m =? len str)) eqn:Esh; breflect.
  - do 2 f_equal. replace (len str - m) with beg' by lia. rewrite firstn_all2; [reflexivity|].
    rewrite length_skipn. unfold len in *. lia.
  - unfold str_new. replace (m <? 0) with false by (symmetry; apply Z.ltb_ge; lia).
    rewrite s32_small, alloc_check_ok by (unfold LONG_MAX; lia). cbn [bind]. unfold read_bytes.
    replace ((beg' <? 0) || (m <? 0) || (len str <? beg' + m)) with false
      by (symmetry; repeat (apply orb_false_iff; split); apply Z.ltb_ge; lia).
    reflexivity.
Qed.

Lemma rb_str_substr_nil str beg n : n < 0 \/ len str < beg \/ beg < - len str -> rb_str_substr str beg n = Ok None.
Proof.
  intros H. unfold rb_str_substr. pose proof (len_nonneg str). destruct (n <? 0) eqn:E1; [reflexivity|].
  destruct (len str <? beg) eqn:E2; [reflexivity|]. breflect.
  replace (beg <? 0) with true by (symmetry; apply Z.ltb_lt; lia).
  now replace (beg + len str <? 0) with true by (symmetry; apply Z.ltb_lt; lia).
Qed.

(** The sum that wraps around. *)
Lemma s32_wraps z : LONG_MAX < z <= 2 * LONG_MAX -> s32 z = z - 4294967296.
Proof.
  unfold LONG_MAX, s32. intros H.
  replace (z + 2147483648) with (z + 2147483648 - 4294967296 + 1 * 4294967296) by lia.
  rewrite Z.mod_add by lia. rewrite Z.mod_small by lia. lia.
Qed.

Lemma rb_str_substr_overflow str beg n :
  len str < LONG_MAX -> 0 <= beg <= len str -> n <= LONG_MAX -> LONG_MAX < beg + n ->
  rb_str_substr str beg n = if n =? LONG_MAX then Raise NoMemoryError else Undefined.
Proof.
  intros Hl Hb Hn Ho. unfold rb_str_substr. pose proof (s32_wraps (beg + n) ltac:(lia)) as Hw. unfold LONG_MAX in *.
  replace (n <? 0) with false by (symmetry; apply Z.ltb_ge; lia).
  replace (len str <? beg) with false by (symmetry; apply Z.ltb_ge; lia).
  assert ((beg <? 0) = false) as E by (apply Z.ltb_ge; lia). rewrite E. cbn zeta. rewrite E, Hw.
  replace (len str <? beg + n - 4294967296) with false by (symmetry; apply Z.ltb_ge; lia).
  replace (n <? 0) with false by (symmetry; apply Z.ltb_ge; lia).
  replace (n =? 0) with false by (symmetry; apply Z.eqb_neq; lia). rewrite Hw.
  replace (beg + n - 4294967296 =? len str) with false by (symmetry; apply Z.eqb_neq; lia). rewrite andb_false_r.
  unfold str_new. replace (n <? 0) with false by (symmetry; apply Z.ltb_ge; lia).
  destruct (Z.eqb_spec n 2147483647) as [->|Hne].
  - reflexivity.
  - rewrite s32_small, alloc_check_ok by (unfold LONG_MAX; lia). cbn [bind]. unfold read_bytes.
    replace (len str <? beg + n) with true by (symmetry; apply Z.ltb_lt; lia). now rewrite orb_true_r.
Qed.

(** ** Replacing *)

Lemma write_nul a b : b <> [] -> exists r, write_bytes (a ++ b) (len a) [0] = Ok (a ++ [0] ++ r).
Proof. destruct b as [|x b]; [congruence|]. intros _. exists b. apply (write_bytes_app a [x] b); reflexivity. Qed.

Lemma splice_parts pre mid tl val (self : bool) :
  len pre + len mid + len tl + len val < LONG_MAX - 2 -> (self = true -> val = pre ++ mid ++ tl) ->
  rb_str_splice (pre ++ mid ++ tl) (len pre) (len mid) val self = Ok (pre ++ val ++ tl).
Proof.
  unfold LONG_MAX. intros Hl Hself. set (str := pre ++ mid ++ tl) in *.
  pose proof (len_nonneg pre). pose proof (len_nonneg mid). pose proof (len_nonneg tl). pose proof (len_nonneg val).
  assert (len str = len pre + len mid + len tl) as Hs by (unfold str; rewrite !len_app; lia).
  unfold rb_str_splice. replace (len mid <? 0) with false by (symmetry; apply Z.ltb_ge; lia).
  replace (len str <? len pre) with false by (symmetry; apply Z.ltb_ge; lia).
  replace (len pre <? 0) with false by (symmetry; apply Z.ltb_ge; lia). cbn [andb]. cbn zeta iota.
  rewrite (s32_small (len pre + len mid)) by lia.
  replace (len str <? len pre + len mid) with false by (symmetry; apply Z.ltb_ge; lia). cbn iota.
  rewrite (s32_small (len pre + len mid)), (s32_small (len str + len val - len mid + 1)), (s32_small (len pre + len val)),
    (s32_small (len str - (len pre + len mid))), (s32_small (len val - len mid)), (s32_small (len str + (len val - len mid))),
    (s32_small (len str + len val - len mid + 1 + 1)) by lia.
  replace (if len mid <? len val then alloc_check (len str + len val - len mid + 1 + 1) else Ok tt) with (Ok tt)
    by (destruct (len mid <? len val) eqn:E; [|reflexivity]; breflect; rewrite alloc_check_ok; [reflexivity | unfold LONG_MAX; lia]).
  cbn [bind]. set (room := repeat 0 _).
  assert (len (str ++ 0 :: room) >= len pre + len val + len tl + 1 /\ len room >= 0) as [Hroom _].
  { split; [|pose proof (len_nonneg room); lia]. rewrite len_app, len_cons. unfold room.
    destruct (len mid <? len val) eqn:E; breflect; rewrite len_repeat; lia. }
  assert (exists mid' rest,
    (if negb (len val =? len mid)
     then memmove (str ++ 0 :: room) (len pre + len val) (len pre + len mid) (len str - (len pre + len mid))
     else Ok (str ++ 0 :: room)) = Ok (pre ++ mid' ++ tl ++ rest) /\ len mid' = len val /\ rest <> [] /\
    pre ++ mid' = firstn (Z.to_nat (len pre + len val)) (str ++ 0 :: room)) as (mid' & rest & -> & Hm & Hr & Hf).
  { replace (len str - (len pre + len mid)) with (len tl) by lia.
    assert (str ++ 0 :: room = pre ++ mid ++ tl ++ 0 :: room) as E by (unfold str; now rewrite <- !app_assoc). rewrite E in *.
    destruct (len val =? len mid) eqn:Ev; cbn [negb]; breflect; [|apply memmove_tail; lia].
    exists mid, (0 :: room). split; [reflexivity|]. split; [lia|]. split; [discriminate|].
    rewrite Ev, <- len_app, (app_assoc pre mid), firstn_len. reflexivity. }
  cbn [bind]. replace (if self then firstn (length val) (pre ++ mid' ++ tl ++ rest) else val) with val.
  2: { destruct self; [|reflexivity]. rewrite app_assoc, Hf. rewrite firstn_app, firstn_firstn, Nat.min_l by (unfold len; lia).
       rewrite length_firstn. replace (length val - _)%nat with 0%nat; [cbn [firstn]; rewrite app_nil_r|].
       - rewrite (Hself eq_refl) at 1. rewrite (Hself eq_refl). rewrite firstn_app, Nat.sub_diag, firstn_all. cbn [firstn]. now rewrite app_nil_r.
       - unfold len in *. lia. }
  assert ((if 0 <? len val then write_bytes (pre ++ mid' ++ tl ++ rest) (len pre) val else Ok (pre ++ mid' ++ tl ++ rest)) =
    Ok (pre ++ val ++ tl ++ rest)) as ->.
  { destruct (0 <? len val) eqn:E; breflect; [now apply write_bytes_app|]. unfold len in *.
    destruct val; [|cbn in E; lia]. destruct mid'; [reflexivity | cbn in Hm; lia]. }
  cbn [bind]. replace (len str + (len val - len mid)) with (len (pre ++ val ++ tl)) by (rewrite !len_app; lia).
  replace (pre ++ val ++ tl ++ rest) with ((pre ++ val ++ tl) ++ rest) by now rewrite <- !app_assoc.
  destruct (write_nul (pre ++ val ++ tl) rest Hr) as [r ->]. cbn [bind].
  apply (read_bytes_app [] (pre ++ val ++ tl) ([0] ++ r)); reflexivity.
Qed.

Lemma splice_beg str beg n val self : - len str <= beg < 0 -> len str < LONG_MAX ->
  rb_str_splice str beg n val self = rb_str_splice str (beg + len str) n val self.
Proof.
  unfold LONG_MAX. intros Hb Hl. unfold rb_str_splice. destruct (n <? 0); [reflexivity|].
  replace (len str <? beg) with false by (symmetry; apply Z.ltb_ge; lia).
  replace (len str <? beg + len str) with false by (symmetry; apply Z.ltb_ge; lia).
  replace (beg <? 0) with true by (symmetry; apply Z.ltb_lt; lia).
  replace (beg + len str <? 0) with false by (symmetry; apply Z.ltb_ge; lia).
  rewrite (s32_small (- beg)), (s32_small (beg + len str)) by lia.
  now replace (len str <? - beg) with false by (symmetry; apply Z.ltb_ge; lia).
Qed.

(** A part that would reach past the end is cut off there. *)
Lemma splice_clamp str beg n val self : 0 <= beg <= len str -> len str < beg + n -> beg + n <= LONG_MAX ->
  len str < LONG_MAX -> rb_str_splice str beg n val self = rb_str_splice str beg (len str - beg) val self.
Proof.
  unfold LONG_MAX. intros Hb Hn Ho Hl. unfold rb_str_splice.
  replace (n <? 0) with false by (symmetry; apply Z.ltb_ge; lia).
  replace (len str - beg <? 0) with false by (symmetry; apply Z.ltb_ge; lia).
  replace (len str <? beg) with false by (symmetry; apply Z.ltb_ge; lia).
  replace (beg <? 0) with false by (symmetry; apply Z.ltb_ge; lia). cbn [andb]. cbn zeta iota.
  rewrite (s32_small (beg + n)), (s32_small (beg + (len str - beg))), (s32_small (len str - beg)) by lia.
  replace (len str <? beg + n) with true by (symmetry; apply Z.ltb_lt; lia).
  replace (len str <? beg + (len str - beg)) with false by (symmetry; apply Z.ltb_ge; lia). reflexivity.
Qed.

Lemma str_splice_ok str beg n val self :
  0 <= beg <= len str -> 0 <= n -> beg + n <= LONG_MAX -> len str + len val < LONG_MAX - 2 -> (self = true -> val = str) ->
  rb_str_splice str beg n val self = Ok (firstn (Z.to_nat beg) str ++ val ++ skipn (Z.to_nat (beg + n)) str).
Proof.
  intros Hb Hn Ho Hl Hself. pose proof (len_nonneg val). destruct (Z.le_gt_cases (beg + n) (len str)) as [Hle|Hgt].
  - destruct (cut str beg n ltac:(lia) Hn Hle) as (pre & mid & tl & E & Hpre & Hmid). subst str beg n.
    rewrite !len_app in *. rewrite splice_parts by (auto; lia).
    rewrite firstn_len, <- len_app, (app_assoc pre mid), skipn_len. reflexivity.
  - rewrite splice_clamp by lia. destruct (cut str beg (len str - beg) ltac:(lia) ltac:(lia) ltac:(lia)) as (pre & mid & tl & E & Hpre & Hmid).
    assert (tl = []) as -> by (apply (f_equal len) in E; rewrite !len_app in E; destruct tl; [reflexivity | rewrite len_cons in E; pose proof (len_nonneg tl); lia]).
    rewrite <- Hmid, <- Hpre. rewrite E, splice_parts by (auto; rewrite E in *; rewrite !len_app in *; change (len []) with 0 in *; lia || (intros; now rewrite Hself)).
    rewrite firstn_len. do 3 f_equal. rewrite app_nil_r in *. symmetry. apply skipn_all2. rewrite E in *. unfold len in *. lia.
Qed.

Lemma splice_index_error str beg n val self :
  n < 0 \/ len str < beg \/ LONG_MIN < beg < - len str -> rb_str_splice str beg n val self = Raise IndexError.
Proof.
  unfold LONG_MIN. intros H. unfold rb_str_splice. pose proof (len_nonneg str).
  destruct (n <? 0) eqn:E1; [reflexivity|]. destruct (len str <? beg) eqn:E2; [reflexivity|]. breflect.
  rewrite s32_small by lia. replace (beg <? 0) with true by (symmetry; apply Z.ltb_lt; lia).
  replace (len str <? - beg) with true by (symmetry; apply Z.ltb_lt; lia). reflexivity.
Qed.

Lemma write_bytes_negative l i s : i < 0 -> write_bytes l i s = Undefined.
Proof. intros H. unfold write_bytes. now replace (i <? 0) with true by (symmetry; apply Z.ltb_lt; lia). Qed.

Lemma read_bytes_undefined l i n : read_bytes l i n = Undefined \/ exists s, read_bytes l i n = Ok s.
Proof. unfold read_bytes. destruct (_ || _); eauto. Qed.

Lemma memmove_negative l dst src n : dst < 0 \/ src < 0 -> memmove l dst src n = Undefined.
Proof.
  intros H. unfold memmove. destruct (Z.ltb_spec src 0) as [Hs|Hs].
  - unfold read_bytes. now replace (src <? 0) with true by (symmetry; apply Z.ltb_lt; lia).
  - destruct (read_bytes_undefined l src n) as [-> | [s ->]]; [reflexivity|]. apply write_bytes_negative. lia.
Qed.

(** Sums outside the [long]s: the part begins before the block, or its end does. *)
Lemma splice_overflow str beg n val self :
  0 <= beg <= len str -> n <= LONG_MAX -> LONG_MAX < beg + n -> len str + len val < LONG_MAX - 2 ->
  rb_str_splice str beg n val self = Undefined.
Proof.
  intros Hb Hn Ho Hl. pose proof (len_nonneg val). pose proof (s32_wraps (beg + n) ltac:(lia)) as Hw.
  unfold LONG_MAX in *. unfold rb_str_splice.
  replace (n <? 0) with false by (symmetry; apply Z.ltb_ge; lia).
  replace (len str <? beg) with false by (symmetry; apply Z.ltb_ge; lia).
  replace (beg <? 0) with false by (symmetry; apply Z.ltb_ge; lia). cbn [andb]. cbn zeta iota. rewrite Hw.
  replace (len str <? beg + n - 4294967296) with false by (symmetry; apply Z.ltb_ge; lia). rewrite Hw.
  replace (n <? len val) with false by (symmetry; apply Z.ltb_ge; lia). cbn [bind].
  replace (len val =? n) with false by (symmetry; apply Z.eqb_neq; lia). cbn [negb].
  rewrite memmove_negative by lia. reflexivity.
Qed.

Lemma splice_long_min str n val self :
  0 <= n <= LONG_MAX -> val <> [] -> len str + len val < LONG_MAX - 2 ->
  rb_str_splice str LONG_MIN n val self = Undefined.
Proof.
  intros Hn Hv Hl. unfold LONG_MAX in *. unfold rb_str_splice.
  pose proof (len_nonneg str). assert (0 < len val) by (destruct val; [congruence|]; rewrite len_cons; pose proof (len_nonneg val); lia).
  change (s32 (- LONG_MIN)) with (-2147483648). unfold LONG_MIN.
  replace (n <? 0) with false by (symmetry; apply Z.ltb_ge; lia).
  replace (len str <? -2147483648) with false by (symmetry; apply Z.ltb_ge; lia). cbn [Z.ltb Z.compare andb]. cbn zeta iota.
  rewrite (s32_small (-2147483648 + len str)), (s32_small (-2147483648 + len str + n)) by lia.
  replace (len str <? -2147483648 + len str + n) with false by (symmetry; apply Z.ltb_ge; lia).
  rewrite (s32_small (-2147483648 + len str + len val)) by lia.
  replace (if n <? len val then alloc_check (s32 (s32 (len str + len val - n + 1) + 1)) else Ok tt) with (Ok tt).
  2: { destruct (n <? len val) eqn:E; [|reflexivity]. breflect. rewrite !s32_small, alloc_check_ok by (rewrite ?s32_small; unfold LONG_MAX; lia). reflexivity. }
  cbn [bind]. destruct (len val =? n) eqn:E; cbn [negb bind]; [|now rewrite memmove_negative by lia].
  replace (0 <? len val) with true by (symmetry; apply Z.ltb_lt; lia). now rewrite write_bytes_negative by lia.
Qed.

(** ** The property *)

(** C18: replacing a part of a string changes that part and nothing else, and taking a part leaves the rest.  Indices
    count from the end when negative, a part that reaches past the end is cut off there, an index outside the
    string raises [IndexError] or gives [nil]; the value may be longer or shorter than the part, and may be the
    string itself, whose bytes move while it is read.  That holds while index and length add up to a [long]:
    beyond it, and for the smallest [long] as index, the bounds tests pass and memory outside the block is
    accessed. *)
Theorem splice_replaces (str val : list Z) (beg n : Z) (self : bool) :
  len str + len val < LONG_MAX - 2 -> (self = true -> val = str) -> LONG_MIN <= beg <= LONG_MAX -> LONG_MIN <= n <= LONG_MAX ->
  let beg' := if beg <? 0 then beg + len str else beg in
  (0 <= beg' <= len str /\ 0 <= n ->
     (beg' + n <= LONG_MAX ->
        rb_str_splice str beg n val self = Ok (firstn (Z.to_nat beg') str ++ val ++ skipn (Z.to_nat (beg' + n)) str) /\
        rb_str_substr str beg n = Ok (Some (firstn (Z.to_nat n) (skipn (Z.to_nat beg') str)))) /\
     (LONG_MAX < beg' + n -> rb_str_splice str beg n val self = Undefined)) /\
  (n < 0 \/ len str < beg \/ LONG_MIN < beg < - len str ->
     rb_str_splice str beg n val self = Raise IndexError /\ rb_str_substr str beg n = Ok None) /\
  (beg = LONG_MIN -> 0 <= n -> val <> [] -> rb_str_splice str beg n val self = Undefined).
Proof.
  intros Hl Hself Hbeg Hn beg'. pose proof (len_nonneg str). pose proof (len_nonneg val). split; [|split].
  - intros [Hb Hn0]. assert (rb_str_splice str beg n val self = rb_str_splice str beg' n val self) as E.
    { unfold beg' in *. destruct (beg <? 0) eqn:E; breflect; [|reflexivity]. apply splice_beg; lia. }
    rewrite E. split; intros Ho.
    + split; [apply str_splice_ok; lia || assumption|]. apply rb_str_substr_ok; [lia | lia | | exact Ho].
      clear E Ho. unfold beg' in Hb. destruct (beg <? 0) eqn:Eb; breflect; lia.
    + apply splice_overflow; lia.
  - intros Hr. split; [now apply splice_index_error|]. apply rb_str_substr_nil. lia.
  - intros -> Hn0 Hv. apply splice_long_min; lia || assumption.
Qed.

Lemma splice_replaces_witness :
  len [97; 98; 99] + len [97; 98; 99] < LONG_MAX - 2 /\
  rb_str_splice [97; 98; 99] (-2) 1 [97; 98; 99] true = Ok [97; 97; 98; 99; 99].
Proof.
  assert (len [97; 98; 99] + len [97; 98; 99] < LONG_MAX - 2) as Hl by (vm_compute; reflexivity). split; [exact Hl|].
  destruct (splice_replaces [97; 98; 99] [97; 98; 99] (-2) 1 true Hl ltac:(reflexivity) ltac:(unfold LONG_MIN, LONG_MAX; lia)
    ltac:(unfold LONG_MIN, LONG_MAX; lia)) as [H _].
  destruct H as [H _]; [vm_compute; repeat split; discriminate|].
  destruct H as [H _]; [vm_compute; discriminate | exact H].
Defined.

(** ** Repetition and padding *)

(** [n] copies. *)
Fixpoint copies (n : nat) (s : list Z) : list Z := match n with O => [] | S n => s ++ copies n s end.

(** The first [n] bytes of [s] again and again. *)
Definition cycle (s : list Z) (n : Z) : list Z := firstn (Z.to_nat n) (copies (Z.to_nat n) s).

Lemma len_copies n s : len (copies n s) = Z.of_nat n * len s.
Proof. induction n as [|n IH]; cbn [copies]; [reflexivity|]. rewrite len_app, IH. lia. Qed.

Lemma copies_snoc n s : copies (S n) s = copies n s ++ s.
Proof.
  induction n as [|n IH]; [cbn; now rewrite app_nil_r|].
  change (copies (S (S n)) s) with (s ++ copies (S n) s). rewrite IH at 1. cbn [copies]. now rewrite app_assoc.
Qed.

Lemma copies_loop_ok n k str room : len room = Z.of_nat n * len str + 1 ->
  exists r, len r = 1 /\ times_loop n (Z.of_nat k) str (copies k str ++ room) = Ok (copies (k + n) str ++ r).
Proof.
  revert k room; induction n as [|n IH]; intros k room Hr; cbn [times_loop].
  - exists room. rewrite Nat.add_0_r. split; [lia | reflexivity].
  - pose proof (len_nonneg str). destruct (cut room 0 (len str) ltac:(lia) ltac:(lia) ltac:(lia)) as (a & x & b & -> & Ha & Hx).
    assert (a = []) as -> by (destruct a; [reflexivity | rewrite len_cons in Ha; pose proof (len_nonneg a); lia]).
    cbn [app] in *. rewrite (write_bytes_app (copies k str) x b) by (rewrite ?len_copies; lia). cbn [bind].
    rewrite app_assoc, <- copies_snoc. replace (Z.of_nat k + 1) with (Z.of_nat (S k)) by lia.
    rewrite len_app in Hr. destruct (IH (S k) b ltac:(lia)) as (r & Hr1 & ->). exists r. split; [exact Hr1|].
    do 3 f_equal. lia.
Qed.

Lemma rb_str_times_ok str times : 0 <= times -> len str * times < LONG_MAX ->
  rb_str_times str times = Ok (copies (Z.to_nat times) str).
Proof.
  unfold LONG_MAX. intros Ht Hl. unfold rb_str_times. pose proof (len_nonneg str).
  destruct (Z.eqb_spec times 0) as [->|Hne]; [reflexivity|].
  replace (times <? 0) with false by (symmetry; apply Z.ltb_ge; lia).
  unfold cdiv, LONG_MAX. rewrite Z.quot_div_nonneg by lia.
  replace (2147483647 / times <? len str) with false by (symmetry; apply Z.ltb_ge; apply Z.div_le_lower_bound; lia).
  rewrite s32_small by nia. replace (len str * times <? 0) with false by (symmetry; apply Z.ltb_ge; nia).
  rewrite s32_small, alloc_check_ok by (unfold LONG_MAX; nia). cbn [bind].
  destruct (copies_loop_ok (Z.to_nat times) 0 str (repeat 0 (Z.to_nat (len str * times + 1)))) as (r & Hr & E).
  { rewrite len_repeat. nia. }
  cbn [copies app Z.of_nat] in E. rewrite E. cbn [bind Nat.add].
  apply (read_bytes_app [] (copies (Z.to_nat times) str) r); [reflexivity|]. rewrite len_copies. nia.
Qed.

Lemma rb_str_times_error str times : times < 0 \/ LONG_MAX < len str * times /\ times <= LONG_MAX ->
  rb_str_times str times = Raise ArgumentError.
Proof.
  unfold rb_str_times. intros H. pose proof (len_nonneg str).
  replace (times =? 0) with false by (symmetry; apply Z.eqb_neq; unfold LONG_MAX in *; nia).
  destruct (times <? 0) eqn:E; [reflexivity|]. breflect. destruct H as [H|[H Ht]]; [lia|].
  unfold cdiv. unfold LONG_MAX in *. rewrite Z.quot_div_nonneg by lia.
  replace (2147483647 / times <? len str) with true; [reflexivity|]. symmetry. apply Z.ltb_lt, Z.div_lt_upper_bound; nia.
Qed.

Lemma rb_str_plus_ok s1 s2 : len s1 + len s2 < LONG_MAX -> rb_str_plus s1 s2 = Ok (s1 ++ s2).
Proof.
  unfold LONG_MAX. intros Hl. pose proof (len_nonneg s1). pose proof (len_nonneg s2). unfold rb_str_plus.
  rewrite s32_small by lia. replace (len s1 + len s2 <? 0) with false by (symmetry; apply Z.ltb_ge; lia).
  rewrite s32_small, alloc_check_ok by (unfold LONG_MAX; lia). cbn [bind].
  destruct (cut (repeat 0 (Z.to_nat (len s1 + len s2 + 1))) (len s1) (len s2)) as (a & x & b & E & Ha & Hx); try lia.
  { rewrite len_repeat. lia. }
  rewrite E. pose proof (write_bytes_app [] a (x ++ b) 0 s1 eq_refl ltac:(lia)) as Hw. cbn [app] in Hw. rewrite Hw. cbn [bind].
  rewrite (write_bytes_app s1 x b) by lia. cbn [bind]. rewrite app_assoc.
  apply (read_bytes_app [] (s1 ++ s2) b); [reflexivity | now rewrite len_app].
Qed.

Lemma copies_prefix s n m : (n <= m)%nat -> exists t, copies m s = copies n s ++ t.
Proof.
  intros H. replace m with (n + (m - n))%nat by lia. generalize (m - n)%nat. intros k. exists (copies k s).
  clear. induction n as [|n IH]; [reflexivity|]. cbn [Nat.add copies]. now rewrite IH, app_assoc.
Qed.

(** More copies than needed change nothing. *)
Lemma cycle_more s n k : s <> [] -> (Z.to_nat n <= k)%nat -> firstn (Z.to_nat n) (copies k s) = cycle s n.
Proof.
  intros Hs Hk. unfold cycle. destruct (copies_prefix s _ _ Hk) as [t ->]. rewrite firstn_app.
  assert (Z.to_nat n <= length (copies (Z.to_nat n) s))%nat.
  { pose proof (len_copies (Z.to_nat n) s) as E. assert (1 <= len s) by (destruct s; [congruence|]; rewrite len_cons; pose proof (len_nonneg s); lia).
    unfold len in *. nia. }
  replace (Z.to_nat n - length (copies (Z.to_nat n) s))%nat with 0%nat by lia. cbn [firstn]. apply app_nil_r.
Qed.

Lemma pad_fill_ok fuel f n : f <> [] -> 0 <= n -> n < Z.of_nat fuel -> pad_fill fuel f n = cycle f n.
Proof.
  intros Hf. assert (1 <= len f) by (destruct f; [congruence|]; rewrite len_cons; pose proof (len_nonneg f); lia).
  revert n; induction fuel as [|fuel IH]; intros n Hn Hlt; [lia|]. cbn [pad_fill].
  destruct (len f <=? n) eqn:E; breflect.
  - rewrite IH by lia. rewrite <- (cycle_more f n (S (Z.to_nat n))) by (auto; lia). cbn [copies]. rewrite firstn_app.
    rewrite firstn_all2 by (unfold len in *; lia). f_equal.
    rewrite <- (cycle_more f (n - len f) (Z.to_nat n)) by (auto; lia). f_equal. unfold len. lia.
  - rewrite <- (cycle_more f n (S (Z.to_nat n))) by (auto; lia). cbn [copies]. rewrite firstn_app.
    replace (Z.to_nat n - length f)%nat with 0%nat by (unfold len in *; lia). cbn [firstn]. now rewrite app_nil_r.
Qed.

Lemma copies_one c n : copies n [c] = repeat c n.
Proof. induction n as [|n IH]; cbn; [reflexivity|]. f_equal. exact IH. Qed.

Lemma pad_bytes_ok f n : f <> [] -> 0 <= n -> pad_bytes f n = cycle f n.
Proof.
  intros Hf Hn. unfold pad_bytes. destruct f as [|c [|d f]]; [congruence | |]; [|now apply pad_fill_ok; try lia].
  unfold cycle. rewrite copies_one, firstn_all2; [reflexivity|]. rewrite repeat_length. lia.
Qed.

Lemma len_cycle f n : f <> [] -> 0 <= n -> len (cycle f n) = n.
Proof.
  intros Hf Hn. unfold cycle, len. rewrite length_firstn. pose proof (len_copies (Z.to_nat n) f) as E.
  assert (1 <= len f) by (destruct f; [congruence|]; rewrite len_cons; pose proof (len_nonneg f); lia). unfold len in *. nia.
Qed.

(** the results of [*] and of [ljust], [rjust] and [center] have the size they were allocated for: the first is so
    many copies, a size that is no [long] raises [ArgumentError]; the others are the string with the padding repeated
    on the sides that are to be filled, [center] the shorter one on the left, together of the width asked
    for, and a padding without characters is refused. *)
Theorem repeat_and_pad (str : list Z) (times width : Z) (pad : option (list Z)) (j : jflag) :
  width < LONG_MAX ->
  (0 <= times -> len str * times < LONG_MAX -> rb_str_times str times = Ok (copies (Z.to_nat times) str)) /\
  (times < 0 \/ LONG_MAX < len str * times /\ times <= LONG_MAX -> rb_str_times str times = Raise ArgumentError) /\
  (len str < width ->
     (pad = Some [] -> rb_str_justify str width pad j = Raise ArgumentError) /\
     (pad <> Some [] ->
        exists l r, let f := match pad with Some f => f | None => [32] end in
        rb_str_justify str width pad j = Ok (cycle f l ++ str ++ cycle f r) /\
        len (cycle f l ++ str ++ cycle f r) = width /\ 0 <= l /\ 0 <= r /\
        match j with jl => l = 0 | jr => r = 0 | jc => l = r \/ l + 1 = r end)) /\
  (width <= len str -> rb_str_justify str width pad j = Ok str).
Proof.
  intros Hw. pose proof (len_nonneg str). split; [|split; [|split]].
  - apply rb_str_times_ok.
  - apply rb_str_times_error.
  - intros Hlt. unfold rb_str_justify. unfold LONG_MAX in Hw.
    replace ((width <? 0) || (width <=? len str)) with false by (symmetry; apply orb_false_iff; split; [apply Z.ltb_ge | apply Z.leb_gt]; lia).
    rewrite s32_small, alloc_check_ok by (unfold LONG_MAX; lia). cbn [bind]. split; [intros ->; reflexivity|]. intros Hp.
    set (f := match pad with Some f => f | None => [32] end).
    assert (f <> []) as Hf by (unfold f; destruct pad as [[|c p]|]; congruence).
    assert (forall j, (match pad with Some [] => Raise ArgumentError | _ => j end) = j) as -> by (intros; destruct pad as [[|c p]|]; congruence).
    set (n := width - len str). pose proof (Z.div_mod n 2 ltac:(lia)) as Hdm. pose proof (Z.mod_pos_bound n 2 ltac:(lia)) as Hmod.
    assert (forall l r, 0 <= l -> 0 <= r -> l + r = n -> len (cycle f l ++ str ++ cycle f r) = width) as Hlen
      by (intros; rewrite !len_app, !len_cycle by auto; unfold n in *; lia).
    destruct j; [exists 0, n | exists n, 0 | exists (n / 2), (n - n / 2)]; cbn zeta;
      rewrite ?Z.sub_0_r, ?pad_bytes_ok by (auto; unfold n in *; lia).
    + split; [reflexivity|]. split; [apply Hlen|]; unfold n in *; lia.
    + split; [reflexivity|]. split; [apply Hlen|]; unfold n in *; lia.
    + split; [reflexivity|]. split; [apply Hlen|]; unfold n in *; lia.
  - intros Hle. unfold rb_str_justify. replace (width <=? len str) with true by (symmetry; apply Z.leb_le; lia).
    now rewrite orb_true_r.
Qed.

Lemma repeat_and_pad_witness :
  7 < LONG_MAX /\ exists l r, rb_str_justify [97; 98] 7 (Some [49; 50; 51]) jc = Ok (cycle [49; 50; 51] l ++ [97; 98] ++ cycle [49; 50; 51] r).
Proof.
  assert (7 < LONG_MAX) as H by reflexivity. split; [exact H|].
  destruct (repeat_and_pad [97; 98] 2 7 (Some [49; 50; 51]) jc H) as (_ & _ & Hj & _).
  destruct (Hj ltac:(vm_compute; reflexivity)) as [_ Hj']. destruct (Hj' ltac:(discriminate)) as (l & r & E & _). now exists l, r.
Defined.

(** ** The end of a line *)

(** [chop!]: [None] is [nil]. *)
Definition rb_str_chop_bang (str : list Z) : option (list Z) :=
  if 0 <? len str then
    let n := len str - 1 in
    let n := if (nth (Z.to_nat n) str 0 =? 10) && (0 <? n) && (nth (Z.to_nat (n - 1)) str 0 =? 13) then n - 1 else n in
    Some (firstn (Z.to_nat n) str)
  else None.

Definition smart_chomp (str : list Z) : option (list Z) :=
  let n := len str in
  if nth (Z.to_nat (n - 1)) str 0 =? 10 then
    let n := n - 1 in
    let n := if (0 <? n) && (nth (Z.to_nat (n - 1)) str 0 =? 13) then n - 1 else n in
    Some (firstn (Z.to_nat n) str)
  else if nth (Z.to_nat (n - 1)) str 0 =? 13 then Some (firstn (Z.to_nat (n - 1)) str)
  else None.

(** [while (len>0 && p[len-1] == '\n')]. *)
Fixpoint chomp_loop (n : nat) (str : list Z) : nat :=
  match n with
  | O => O
  | S n' =>
      if nth n' str 0 =? 10 then
        match n' with
        | O => O
        | S n'' => if nth n'' str 0 =? 13 then chomp_loop n'' str else chomp_loop n' str
        end
      else n
  end.

(** [chomp!] with the separator [rs], the default when there is no argument, [nil] when it is [None]. *)
Definition rb_str_chomp_bang (ignorecase : bool) (str : list Z) (rs : option (list Z)) : outcome (option (list Z)) :=
  match rs with
  | None => Ok None
  | Some rs =>
      if len str =? 0 then Ok None else
      if len rs =? 0 then
        let n := chomp_loop (length str) str in
        if Z.of_nat n <? len str then Ok (Some (firstn n str)) else Ok None
      else if len str <? len rs then Ok None else
      let newline := last rs 0 in
      if (len rs =? 1) && (newline =? 10) then Ok (smart_chomp str) else
      if last str 0 =? newline then
        same <- (if len rs <=? 1 then Ok true
                 else c <- rb_memcmp ignorecase rs (skipn (Z.to_nat (len str - len rs)) str) (len rs) ;; Ok (c =? 0)) ;;
        if same : bool then Ok (Some (firstn (Z.to_nat (len str - len rs)) str)) else Ok None
      else Ok None
  end.

(** ** The case of letters *)

(** A loop over the characters: [f] changes single bytes, the bytes of a longer character are skipped. *)
Fixpoint case_loop (t : mbctype) (f : Z -> option Z) (skip : nat) (s : list Z) : bool * list Z :=
  match s, skip with
  | [], _ => (false, [])
  | c :: s, S skip => let '(m, r) := case_loop t f skip s in (m, c :: r)
  | c :: s, O =>
      if ismbchar t c then let '(m, r) := case_loop t f (Z.to_nat (mbclen t c - 1)) s in (m, c :: r)
      else
        let '(m, r) := case_loop t f 0 s in
        match f c with Some d => (true, d :: r) | None => (m, c :: r) end
  end.

Definition to_upper (c : Z) : option Z := if ISLOWER c then Some (c - 32) else None.
Definition to_lower (c : Z) : option Z := if ISUPPER c then Some (c + 32) else None.
Definition swap (c : Z) : option Z := match to_lower c with Some d => Some d | None => to_upper c end.

(** Whether anything changed, and the string. *)
Definition rb_str_upcase_bang (t : mbctype) (str : list Z) : bool * list Z := case_loop t to_upper 0 str.
Definition rb_str_downcase_bang (t : mbctype) (str : list Z) : bool * list Z := case_loop t to_lower 0 str.
Definition rb_str_swapcase_bang (t : mbctype) (str : list Z) : bool * list Z := case_loop t swap 0 str.

Definition rb_str_capitalize_bang (t : mbctype) (str : list Z) : bool * list Z :=
  match str with
  | [] => (false, [])
  | c :: s =>
      let '(m, r) := case_loop t to_lower 0 s in
      match to_upper c with Some d => (true, d :: r) | None => (m, c :: r) end
  end.

(** The single bytes of a string: where [case_loop] looks. *)
Fixpoint singles (t : mbctype) (skip : nat) (s : list Z) : list bool :=
  match s, skip with
  | [], _ => []
  | c :: s, S skip => false :: singles t skip s
  | c :: s, O => if ismbchar t c then false :: singles t (Z.to_nat (mbclen t c - 1)) s else true :: singles t 0 s
  end.

Definition apply_to (f : Z -> option Z) (b : bool) (c : Z) : Z :=
  if b then match f c with Some d => d | None => c end else c.

Definition map2 {A B C} (f : A -> B -> C) (l : list A) (m : list B) : list C := map (fun p => f (fst p) (snd p)) (combine l m).

Lemma case_loop_map t f skip s : snd (case_loop t f skip s) = map2 (apply_to f) (singles t skip s) s.
Proof.
  unfold map2. revert skip; induction s as [|c s IH]; intros [|skip]; cbn [case_loop singles]; try reflexivity.
  - destruct (ismbchar t c).
    + specialize (IH (Z.to_nat (mbclen t c - 1))). destruct (case_loop t f _ s). cbn in *. now rewrite IH.
    + specialize (IH 0%nat). destruct (case_loop t f 0 s). cbn in *. unfold apply_to at 1. destruct (f c); cbn; now f_equal.
  - specialize (IH skip). destruct (case_loop t f skip s). cbn in *. now rewrite IH.
Qed.

Lemma case_loop_modify t f skip s : (forall c d, f c = Some d -> d <> c) ->
  fst (case_loop t f skip s) = true <-> snd (case_loop t f skip s) <> s.
Proof.
  intros Hf. revert skip; induction s as [|c s IH]; intros [|skip]; cbn [case_loop]; try (cbn; split; [discriminate | congruence]).
  - destruct (ismbchar t c).
    + specialize (IH (Z.to_nat (mbclen t c - 1))). destruct (case_loop t f _ s) as [m r]. cbn in *. rewrite IH.
      split; congruence.
    + specialize (IH 0%nat). destruct (case_loop t f 0 s) as [m r]. cbn in *. destruct (f c) as [d|] eqn:E; cbn.
      * split; [|reflexivity]. intros _ H. injection H as H _. now apply (Hf c d).
      * rewrite IH. split; congruence.
  - specialize (IH skip). destruct (case_loop t f skip s) as [m r]. cbn in *. rewrite IH. split; congruence.
Qed.

(** A change that keeps characters single bytes does not move the places of the single bytes. *)
Lemma singles_case t f skip s : (forall c d, ismbchar t c = false -> f c = Some d -> ismbchar t d = false) ->
  singles t skip (snd (case_loop t f skip s)) = singles t skip s.
Proof.
  intros Hf. revert skip; induction s as [|c s IH]; intros [|skip]; cbn [case_loop]; try reflexivity.
  - destruct (ismbchar t c) eqn:E.
    + specialize (IH (Z.to_nat (mbclen t c - 1))). destruct (case_loop t f _ s) as [m r]. cbn in *. rewrite E. now rewrite IH.
    + specialize (IH 0%nat). destruct (case_loop t f 0 s) as [m r]. cbn in *. destruct (f c) as [d|] eqn:Ed; cbn [snd singles].
      * rewrite E, (Hf c d E Ed). now rewrite IH.
      * rewrite E. now rewrite IH.
  - specialize (IH skip). destruct (case_loop t f skip s) as [m r]. cbn in *. now rewrite IH.
Qed.

Lemma to_upper_some c d : to_upper c = Some d -> 97 <= c <= 122 /\ d = c - 32.
Proof. unfold to_upper, ISLOWER. destruct ((97 <=? c) && (c <=? 122)) eqn:E; intros [= <-]; breflect; lia. Qed.

Lemma to_lower_some c d : to_lower c = Some d -> 65 <= c <= 90 /\ d = c + 32.
Proof. unfold to_lower, ISUPPER. destruct ((65 <=? c) && (c <=? 90)) eqn:E; intros [= <-]; breflect; lia. Qed.

Lemma to_upper_none c : ~ 97 <= c <= 122 -> to_upper c = None.
Proof. unfold to_upper, ISLOWER. destruct ((97 <=? c) && (c <=? 122)) eqn:E; [breflect; lia | reflexivity]. Qed.

Lemma to_lower_none c : ~ 65 <= c <= 90 -> to_lower c = None.
Proof. unfold to_lower, ISUPPER. destruct ((65 <=? c) && (c <=? 90)) eqn:E; [breflect; lia | reflexivity]. Qed.

Lemma to_upper_low c : 65 <= c <= 90 -> to_upper (c + 32) = Some c.
Proof. intros H. unfold to_upper, ISLOWER. destruct (_ && _) eqn:E; [f_equal; lia | breflect; lia]. Qed.

Lemma to_lower_up c : 97 <= c <= 122 -> to_lower (c - 32) = Some c.
Proof. intros H. unfold to_lower, ISUPPER. destruct (_ && _) eqn:E; [f_equal; lia | breflect; lia]. Qed.

Lemma swap_some c d : swap c = Some d -> 65 <= c <= 90 /\ d = c + 32 \/ 97 <= c <= 122 /\ d = c - 32.
Proof.
  unfold swap. destruct (to_lower c) eqn:E; [intros [= <-]; left; now apply to_lower_some|].
  intros H. right. now apply to_upper_some.
Qed.

(** What the three changes have in common: letters become other letters. *)
Definition letters (f : Z -> option Z) : Prop := forall c d, f c = Some d -> d <> c /\ 65 <= d <= 122.

Lemma letters_upper : letters to_upper.
Proof. intros c d H. apply to_upper_some in H. lia. Qed.
Lemma letters_lower : letters to_lower.
Proof. intros c d H. apply to_lower_some in H. lia. Qed.
Lemma letters_swap : letters swap.
Proof. intros c d H. apply swap_some in H. lia. Qed.

Lemma singles_letters t f s : letters f -> singles t 0 (snd (case_loop t f 0 s)) = singles t 0 s.
Proof. intros H. apply singles_case. intros c d _ E. apply H in E. apply ismbchar_ascii. lia. Qed.

Lemma length_singles t skip s : length (singles t skip s) = length s.
Proof.
  revert skip; induction s as [|c s IH]; intros [|skip]; cbn [singles length]; auto.
  destruct (ismbchar t c); cbn [length]; auto.
Qed.

Lemma map2_compose f g bs s : length bs = length s ->
  map2 (apply_to g) bs (map2 (apply_to f) bs s) = map2 (fun b c => apply_to g b (apply_to f b c)) bs s.
Proof.
  unfold map2. revert s; induction bs as [|b bs IH]; intros [|c s] H; cbn in *; try discriminate; [reflexivity|].
  f_equal. apply IH. lia.
Qed.

Lemma map2_ext {A B C} (f g : A -> B -> C) l m : (forall a b, f a b = g a b) -> map2 f l m = map2 g l m.
Proof. intros H. unfold map2. apply map_ext. intros [a b]. apply H. Qed.

Lemma map2_snd {A B} (l : list A) (m : list B) : length l = length m -> map2 (fun _ b => b) l m = m.
Proof.
  unfold map2. revert m; induction l as [|a l IH]; intros [|b m] H; cbn in *; try discriminate; [reflexivity|].
  f_equal. apply IH. lia.
Qed.

Lemma nth_map2 f bs s i : length bs = length s -> nth i bs true = false -> nth i (map2 (apply_to f) bs s) 0 = nth i s 0.
Proof.
  unfold map2. revert s i; induction bs as [|b bs IH]; intros [|c s] [|i] H E; cbn in *; try discriminate; try reflexivity.
  - now subst.
  - apply IH; [lia | exact E].
Qed.

(** Two changes after one another work on the same bytes. *)
Lemma case_twice t f g s : letters f ->
  snd (case_loop t g 0 (snd (case_loop t f 0 s))) = map2 (fun b c => apply_to g b (apply_to f b c)) (singles t 0 s) s.
Proof.
  intros Hf. rewrite case_loop_map, singles_letters by exact Hf. rewrite case_loop_map, map2_compose; [reflexivity|].
  apply length_singles.
Qed.

(** [upcase], [downcase] and [swapcase] change letters only, in every character encoding: the bytes of a longer
    character stay as they are and the characters of the string keep their places, [swapcase] undoes itself,
    [upcase] and [downcase] forget what the other did, and each answers [nil] exactly when the string is left as it
    was. *)
Theorem case_changes (t : mbctype) (str : list Z) :
  snd (rb_str_swapcase_bang t (snd (rb_str_swapcase_bang t str))) = str /\
  snd (rb_str_upcase_bang t (snd (rb_str_downcase_bang t str))) = snd (rb_str_upcase_bang t str) /\
  snd (rb_str_downcase_bang t (snd (rb_str_upcase_bang t str))) = snd (rb_str_downcase_bang t str) /\
  (forall f, f = rb_str_upcase_bang \/ f = rb_str_downcase_bang \/ f = rb_str_swapcase_bang ->
     (fst (f t str) = true <-> snd (f t str) <> str) /\
     singles t 0 (snd (f t str)) = singles t 0 str /\
     forall i, nth i (singles t 0 str) true = false -> nth i (snd (f t str)) 0 = nth i str 0).
Proof.
  unfold rb_str_swapcase_bang, rb_str_upcase_bang, rb_str_downcase_bang. split; [|split; [|split]].
  - rewrite case_twice by exact letters_swap.
    etransitivity; [|exact (map2_snd (singles t 0 str) str (length_singles t 0 str))].
    apply map2_ext. intros [|] c; [|reflexivity]. unfold apply_to. destruct (swap c) as [d|] eqn:E; [|now rewrite E].
    destruct (swap_some c d E) as [[H ->] | [H ->]]; unfold swap.
    + now rewrite to_lower_none, to_upper_low by lia.
    + now rewrite to_lower_up by lia.
  - rewrite case_twice by exact letters_lower. rewrite case_loop_map. apply map2_ext. intros [|] c; [|reflexivity].
    unfold apply_to. destruct (to_lower c) as [d|] eqn:E; [|reflexivity]. apply to_lower_some in E as [H ->].
    now rewrite to_upper_low, (to_upper_none c) by lia.
  - rewrite case_twice by exact letters_upper. rewrite case_loop_map. apply map2_ext. intros [|] c; [|reflexivity].
    unfold apply_to. destruct (to_upper c) as [d|] eqn:E; [|reflexivity]. apply to_upper_some in E as [H ->].
    now rewrite to_lower_up, (to_lower_none c) by lia.
  - assert (forall f, letters f -> (fst (case_loop t f 0 str) = true <-> snd (case_loop t f 0 str) <> str) /\
      singles t 0 (snd (case_loop t f 0 str)) = singles t 0 str /\
      forall i, nth i (singles t 0 str) true = false -> nth i (snd (case_loop t f 0 str)) 0 = nth i str 0) as H.
    { intros f Hf. split; [|split].
      - apply case_loop_modify. intros c d E. now apply Hf.
      - now apply singles_letters.
      - intros i. rewrite case_loop_map. apply nth_map2. apply length_singles. }
    intros f [-> | [-> | ->]]; apply H; auto using letters_upper, letters_lower, letters_swap.
Qed.

