(* ===== verification/StrLines.v ===== *)
(** * Strings: lines and fields

    string.c: [each_line], and [split] on white space.  The pointers [s] and
    [p] of the code are indices; the byte after the last is the NUL of the
    block.  The block that takes a line leaves the string alone
    ([str_mod_check] raises otherwise). *)

From Stdlib Require Import ZArith Lia List Bool.
From S2P Require Import Prelude CInt StrSearch BigStr StrDump StrEdit.
Import ListNotations.
Local Open Scope Z_scope.
Local Open Scope outcome_scope.

(** ** Lines *)

(** [*p], up to the NUL. *)
Definition byte_at (str : list Z) (p : nat) : Z := nth p str 0.

(** [while ( *p == '\n') p++]: at most the rest of the string. *)
Fixpoint skip_newlines (fuel : nat) (str : list Z) (p : nat) : nat :=
  match fuel with
  | O => p
  | S fuel => if byte_at str p =? 10 then skip_newlines fuel str (S p) else p
  end.

(** From [s] to [p]. *)
Definition between (str : list Z) (s p : nat) : list Z := firstn (p - s) (skipn s str).

Section Lines.
Context (ignorecase : bool) (str rs : list Z).

(** [p] is behind a separator. *)
Definition at_separator (p : nat) : outcome bool :=
  let newline := if len rs =? 0 then 10 else last rs 0 in
  if (0 <? p)%nat && (byte_at str (p - 1) =? newline) then
    if len rs <=? 1 then Ok true
    else c <- rb_memcmp ignorecase rs (skipn (p - length rs) str) (len rs) ;; Ok (c =? 0)
  else Ok false.

Fixpoint each_line_loop (fuel s p : nat) : option (outcome (list (list Z))) :=
  match fuel with
  | O => None
  | S fuel =>
      if (p <? length str)%nat then
        let check p :=
          match at_separator p with
          | Ok true => option_map (fun o => l <- o ;; Ok (between str s p :: l)) (each_line_loop fuel p (S p))
          | Ok false => each_line_loop fuel s (S p)
          | _ => Some Undefined
          end in
        if (len rs =? 0) && (byte_at str p =? 10) then
          if byte_at str (S p) =? 10 then check (skip_newlines (length str) str (S p)) else each_line_loop fuel s (S (S p))
        else check p
      else if (s =? length str)%nat then Some (Ok [])
      else Some (Ok [between str s (length str)])
  end.

Definition rb_str_each_line : option (outcome (list (list Z))) := each_line_loop (S (length str)) 0 (length rs).

End Lines.

(** ** Fields *)

(** [rb_ary_push(result, rb_str_substr(str, beg, n))]. *)
Definition push_substr (str : list Z) (beg n : Z) (result : list (list Z)) : outcome (list (list Z)) :=
  o <- rb_str_substr str beg n ;;
  match o with Some s => Ok (result ++ [s]) | None => Undefined end.

(** [ptr] is what is left of the string; the results are [beg] and what was pushed. *)
Fixpoint awk_loop (str ptr : list Z) (beg end_ : Z) (skip : bool) (i : Z) (limit : option Z) (result : list (list Z)) :
    outcome (Z * list (list Z)) :=
  match ptr with
  | [] => Ok (beg, result)
  | c :: ptr =>
      if skip then
        if ISSPACE c then awk_loop str ptr (beg + 1) end_ true i limit result
        else if match limit with Some lim => lim <=? i | None => false end then Ok (beg, result)
        else awk_loop str ptr beg (beg + 1) false i limit result
      else
        if ISSPACE c then
          result <- push_substr str beg (end_ - beg) result ;;
          awk_loop str ptr (end_ + 1) end_ true (match limit with Some _ => i + 1 | None => i end) limit result
        else awk_loop str ptr beg (end_ + 1) false i limit result
  end.

(** [while (len > 0 && last is empty) rb_ary_pop(result)]. *)
Fixpoint pop_empty (rev_result : list (list Z)) : list (list Z) :=
  match rev_result with
  | [] :: r => pop_empty r
  | r => r
  end.

(** [split] with [' '], or without a pattern; [limit] is the second argument. *)
Definition rb_str_split_awk (str : list Z) (limit : option Z) : outcome (list (list Z)) :=
  let lim := match limit with Some l => l | None => 0 end in
  let given := match limit with Some l => if l <=? 0 then None else Some l | None => None end in
  if lim =? 1 then Ok (if len str =? 0 then [] else [str]) else
  let i := match limit with Some _ => 1 | None => 0 end in
  '(beg, result) <- awk_loop str str 0 0 true i given [] ;;
  let nil_limit := match given with Some _ => false | None => true end in
  result <-
    (if (0 <? len str) && (negb nil_limit || (beg <? len str) || (lim <? 0)) then
       if len str =? beg then Ok (result ++ [[]]) else push_substr str beg (len str - beg) result
     else Ok result) ;;
  Ok (if nil_limit && (lim =? 0) then rev (pop_empty (rev result)) else result).

(** [" now's  the time"]. *)
Example split_time :
  rb_str_split_awk [32; 110; 111; 119; 32; 32; 116; 104; 101; 32] None = Ok [[110; 111; 119]; [116; 104; 101]] /\
  rb_str_split_awk [32; 110; 111; 119; 32; 32; 116; 104; 101; 32] (Some 2) = Ok [[110; 111; 119]; [116; 104; 101; 32]] /\
  rb_str_split_awk [32; 110; 111; 119; 32; 32; 116; 104; 101; 32] (Some (-1)) = Ok [[110; 111; 119]; [116; 104; 101]; []].
Proof. repeat split. Qed.

(** Separators may overlap: the second line ends inside the first separator. *)
Example lines_overlap :
  rb_str_each_line false [97; 97; 97; 98] [97; 97] = Some (Ok [[97; 97]; [97]; [98]]).
Proof. reflexivity. Qed.

(** ** Lines: proofs *)

Lemma between_rest str s p : (s <= p)%nat -> between str s p ++ skipn p str = skipn s str.
Proof.
  intros H. unfold between. replace (skipn p str) with (skipn (p - s) (skipn s str)) by (rewrite skipn_skipn; f_equal; lia).
  apply firstn_skipn.
Qed.

Lemma skipn_nth str p : (p < length str)%nat -> skipn p str = byte_at str p :: skipn (S p) str.
Proof.
  unfold byte_at. revert p; induction str as [|c str IH]; intros [|p] H; cbn [length] in H; try lia; [reflexivity|].
  cbn [skipn nth]. rewrite IH by lia. reflexivity.
Qed.

Lemma between_snoc str s p : (s <= p < length str)%nat -> between str s (S p) = between str s p ++ [byte_at str p].
Proof.
  intros H. pose proof (between_rest str s p ltac:(lia)) as E1. pose proof (between_rest str s (S p) ltac:(lia)) as E2.
  rewrite (skipn_nth str p) in E1 by lia. rewrite <- E2 in E1.
  apply (app_inv_tail (skipn (S p) str)). rewrite <- E1, <- app_assoc. reflexivity.
Qed.

Lemma between_length str s p : (s <= p <= length str)%nat -> length (between str s p) = (p - s)%nat.
Proof. intros H. unfold between. rewrite length_firstn, length_skipn. lia. Qed.

Lemma between_end str s : between str s (length str) = skipn s str.
Proof. unfold between. apply firstn_all2. rewrite length_skipn. lia. Qed.

Lemma skip_newlines_bound fuel str p : (p <= length str)%nat -> (p <= skip_newlines fuel str p <= length str)%nat.
Proof.
  revert p; induction fuel as [|fuel IH]; intros p Hp; cbn [skip_newlines]; [lia|].
  destruct (byte_at str p =? 10) eqn:E; [|lia]. apply Z.eqb_eq in E.
  assert (p < length str)%nat by (destruct (Nat.lt_ge_cases p (length str)); [assumption|]; unfold byte_at in E; rewrite nth_overflow in E by lia; discriminate).
  specialize (IH (S p) ltac:(lia)). lia.
Qed.

Section LinesProofs.
Context (ignorecase : bool) (str rs : list Z)
  (Hstr : comparable ignorecase str) (Hrs : comparable ignorecase rs).

Lemma at_separator_ok p : (length rs <= p <= length str)%nat -> exists b, at_separator ignorecase str rs p = Ok b /\ (b = true -> (0 < p)%nat).
Proof.
  intros Hp. unfold at_separator.
  destruct ((0 <? p)%nat && _) eqn:E; [|exists false; split; [reflexivity | discriminate]].
  apply andb_prop in E as [Ep _]. apply Nat.ltb_lt in Ep.
  destruct (len rs <=? 1); [exists true; auto|].
  destruct (rb_memcmp_prefix ignorecase rs (skipn (p - length rs) str) Hrs (comparable_skipn _ _ _ Hstr)) as (c & -> & _).
  - rewrite length_skipn. lia.
  - cbn [bind]. eexists. auto.
Qed.

(** What a list of lines from [s] on is. *)
Definition lines_from (s : nat) (o : option (outcome (list (list Z)))) : Prop :=
  exists l, o = Some (Ok l) /\ concat l = skipn s str /\ Forall (fun x => x <> []) l.

Lemma lines_from_step fuel s p :
  (s < p <= length str)%nat -> lines_from p (each_line_loop ignorecase str rs fuel p (S p)) ->
  lines_from s (option_map (fun o => l <- o ;; Ok (between str s p :: l)) (each_line_loop ignorecase str rs fuel p (S p))).
Proof.
  intros Hp (l & -> & Hc & Hf). exists (between str s p :: l). split; [reflexivity|]. cbn [concat].
  split; [rewrite Hc; apply between_rest; lia|]. constructor; [|exact Hf].
  intros E. apply (f_equal (@length Z)) in E. rewrite between_length in E by lia. cbn in E. lia.
Qed.

Lemma each_line_loop_ok fuel s p :
  (s <= length str)%nat -> (s < p \/ s = 0 /\ p = length rs)%nat -> (length rs <= p)%nat ->
  (0 < fuel /\ length str < fuel + p)%nat ->
  lines_from s (each_line_loop ignorecase str rs fuel s p).
Proof.
  revert s p; induction fuel as [|fuel IH]; intros s p Hs Hp Hlen Hf; [lia|]. cbn [each_line_loop].
  destruct (p <? length str)%nat eqn:Ep; [apply Nat.ltb_lt in Ep | apply Nat.ltb_ge in Ep].
  - assert (forall q, (p <= q <= length str)%nat -> lines_from s
      match at_separator ignorecase str rs q with
      | Ok true => option_map (fun o => l <- o ;; Ok (between str s q :: l)) (each_line_loop ignorecase str rs fuel q (S q))
      | Ok false => each_line_loop ignorecase str rs fuel s (S q)
      | _ => Some Undefined
      end) as Hcheck.
    { intros q Hq. destruct (at_separator_ok q ltac:(lia)) as ([|] & -> & Hpos); [|apply IH; lia].
      specialize (Hpos eq_refl). assert (s < q \/ s = q)%nat as [Hsq | ->] by lia.
      - apply lines_from_step; [lia|]. apply IH; lia.
      - destruct Hp as [Hp|[-> ->]]; lia. }
    destruct ((len rs =? 0) && (byte_at str p =? 10)) eqn:E; [|apply Hcheck; lia].
    destruct (byte_at str (S p) =? 10).
    + apply Hcheck. pose proof (skip_newlines_bound (length str) str (S p) ltac:(lia)). lia.
    + apply IH; lia.
  - destruct (Nat.eqb_spec s (length str)) as [->|Hne].
    + exists []. split; [reflexivity|]. rewrite skipn_all. split; [reflexivity | constructor].
    + exists [between str s (length str)]. split; [reflexivity|]. cbn [concat]. rewrite app_nil_r, between_end. split; [reflexivity|].
      constructor; [|constructor]. intros E. apply (f_equal (@length Z)) in E. rewrite length_skipn in E. cbn in E. lia.
Qed.

End LinesProofs.

(** With a separator of one byte: the byte ends each line but perhaps the last and occurs nowhere else. *)
Definition line_of (c : Z) (x : list Z) : Prop := exists w, ~ In c w /\ (x = w ++ [c] \/ x = w).

Lemma each_line_single ignorecase str c fuel s p :
  (s < p)%nat -> (s <= length str)%nat -> (p <= length str -> ~ In c (between str s (p - 1)))%nat -> (p <= S (length str))%nat ->
  (p = S (length str) -> s = length str) ->
  forall l, each_line_loop ignorecase str [c] fuel s p = Some (Ok l) -> Forall (line_of c) l.
Proof.
  revert s p; induction fuel as [|fuel IH]; intros s p Hsp Hs Hno Hp Hend l; [discriminate|]. cbn [each_line_loop].
  destruct (p <? length str)%nat eqn:Ep; [apply Nat.ltb_lt in Ep | apply Nat.ltb_ge in Ep].
  - change (len [c] =? 0) with false. cbn [andb]. unfold at_separator. change (len [c] =? 0) with false.
    change (len [c] <=? 1) with true. cbn [last]. replace (0 <? p)%nat with true by (symmetry; apply Nat.ltb_lt; lia). cbn [andb].
    assert (between str s p = between str s (p - 1) ++ [byte_at str (p - 1)]) as Eb
      by (replace p with (S (p - 1)) at 1 by lia; apply between_snoc; lia).
    specialize (Hno ltac:(lia)). destruct (Z.eqb_spec (byte_at str (p - 1)) c) as [E|E].
    + destruct (each_line_loop ignorecase str [c] fuel p (S p)) as [[l'| | |]|] eqn:El; cbn; try discriminate.
      intros [= <-]. constructor; [exists (between str s (p - 1)); split; [exact Hno|]; left; now rewrite Eb, E|].
      apply (IH p (S p)) with (l := l'); [lia | lia | | lia | lia | exact El].
      intros _. replace (S p - 1)%nat with p by lia. unfold between. rewrite Nat.sub_diag. auto.
    + apply IH; try lia. intros _. replace (S p - 1)%nat with p by lia. rewrite Eb, in_app_iff. cbn. intuition congruence.
  - destruct (Nat.eqb_spec s (length str)) as [->|Hne]; intros [= <-]; constructor; [|constructor].
    assert (p = length str) as -> by lia. specialize (Hno ltac:(lia)).
    assert (between str s (length str) = between str s (length str - 1) ++ [byte_at str (length str - 1)]) as Eb
      by (replace (length str) with (S (length str - 1)) at 1 by lia; apply between_snoc; lia).
    destruct (Z.eqb_spec (byte_at str (length str - 1)) c) as [E|E].
    + exists (between str s (length str - 1)). split; [exact Hno|]. left. now rewrite Eb, E.
    + exists (between str s (length str)). split; [|now right]. rewrite Eb, in_app_iff. cbn. intuition congruence.
Qed.

(** ** Fields: proofs *)

Fixpoint drop_spaces (s : list Z) : list Z :=
  match s with c :: s' => if ISSPACE c then drop_spaces s' else s | [] => [] end.

(** Up to the next space, and what follows it. *)
Fixpoint take_word (s : list Z) : list Z * option (list Z) :=
  match s with
  | [] => ([], None)
  | c :: s => if ISSPACE c then ([], Some s) else let '(w, r) := take_word s in (c :: w, r)
  end.

(** The fields of [s], the last one what is left when [n] have been taken, and empty after a space. *)
Fixpoint fields (fuel : nat) (limit : option Z) (n : Z) (s : list Z) : list (list Z) :=
  match fuel with
  | O => []
  | S fuel =>
      match drop_spaces s with
      | [] => [[]]
      | s' =>
          if match limit with Some lim => lim <=? n | None => false end then [s']
          else match take_word s' with
               | (w, None) => [w]
               | (w, Some r) => w :: fields fuel limit (n + 1) r
               end
      end
  end.

Definition all_fields (limit : option Z) (s : list Z) : list (list Z) := fields (S (length s)) limit 1 s.

Lemma skipn_cons_next str i c ptr : skipn (Z.to_nat i) str = c :: ptr -> 0 <= i ->
  skipn (Z.to_nat (i + 1)) str = ptr /\ i < len str.
Proof.
  intros H Hi. assert (Z.to_nat i < length str)%nat as Hlt.
  { destruct (Nat.lt_ge_cases (Z.to_nat i) (length str)); [assumption|]. rewrite skipn_all2 in H by lia. discriminate. }
  rewrite (skipn_nth str (Z.to_nat i) Hlt) in H. injection H as _ H. split; [|unfold len; lia].
  replace (Z.to_nat (i + 1)) with (S (Z.to_nat i)) by lia. exact H.
Qed.

(** In a word that began at [beg]: it is pushed at the next space. *)
Lemma awk_word str ptr beg end_ i limit result :
  len str < LONG_MAX -> 0 <= beg < end_ -> ptr = skipn (Z.to_nat end_) str -> end_ <= len str ->
  awk_loop str ptr beg end_ false i limit result =
  match take_word ptr with
  | (_, None) => Ok (beg, result)
  | (w, Some r) =>
      awk_loop str r (end_ + len w + 1) (end_ + len w) true (match limit with Some _ => i + 1 | None => i end) limit
        (result ++ [between str (Z.to_nat beg) (Z.to_nat (end_ + len w))])
  end.
Proof.
  intros Hl. revert end_; induction ptr as [|c ptr IH]; intros end_ Hb Hp Hle; [reflexivity|]. cbn [awk_loop take_word].
  destruct (skipn_cons_next str end_ c ptr (eq_sym Hp) ltac:(lia)) as [Hp' Hlt].
  destruct (ISSPACE c).
  - unfold push_substr. rewrite rb_str_substr_ok; try (unfold LONG_MAX in *; lia).
    2: { replace (beg <? 0) with false by (symmetry; apply Z.ltb_ge; lia). lia. }
    replace (beg <? 0) with false by (symmetry; apply Z.ltb_ge; lia). cbn [bind].
    change (len []) with 0. rewrite Z.add_0_r. unfold between. now rewrite Z2Nat.inj_sub by lia.
  - rewrite (IH (end_ + 1)) by (auto; lia). destruct (take_word ptr) as [w [r|]]; [|reflexivity].
    rewrite len_cons. replace (end_ + 1 + len w) with (end_ + (1 + len w)) by lia. reflexivity.
Qed.

Lemma take_word_split s w r : take_word s = (w, r) ->
  match r with Some r => exists c, s = w ++ c :: r | None => s = w end.
Proof.
  revert w r; induction s as [|c s IH]; intros w r H; cbn in H; [now injection H as <- <-|].
  destruct (ISSPACE c); [injection H as <- <-; now exists c|].
  destruct (take_word s) as [w' r'] eqn:E. injection H as <- <-. specialize (IH w' r' eq_refl). destruct r' as [r'|].
  - destruct IH as [d ->]. now exists d.
  - now rewrite IH.
Qed.

(** Between words. *)
Lemma awk_skip str ptr beg end_ i limit result :
  0 <= beg <= len str -> ptr = skipn (Z.to_nat beg) str ->
  exists b, beg <= b <= len str /\ drop_spaces ptr = skipn (Z.to_nat b) str /\
  awk_loop str ptr beg end_ true i limit result =
  match drop_spaces ptr with
  | [] => Ok (b, result)
  | c :: s =>
      if match limit with Some lim => lim <=? i | None => false end then Ok (b, result)
      else awk_loop str s b (b + 1) false i limit result
  end.
Proof.
  revert beg; induction ptr as [|c ptr IH]; intros beg Hb Hp.
  - exists beg. split; [lia|]. split; [exact Hp | reflexivity].
  - destruct (skipn_cons_next str beg c ptr (eq_sym Hp) ltac:(lia)) as [Hp' Hlt]. cbn [awk_loop drop_spaces].
    destruct (ISSPACE c).
    + destruct (IH (beg + 1) ltac:(lia) (eq_sym Hp')) as (b & Hb' & Hd & E). exists b. split; [lia | auto].
    + exists beg. split; [lia|]. split; [exact Hp | reflexivity].
Qed.

Lemma between_take str b c s w : skipn (Z.to_nat b) str = c :: s -> 0 <= b -> (exists t, s = w ++ t) ->
  between str (Z.to_nat b) (Z.to_nat (b + 1 + len w)) = c :: w.
Proof.
  intros H Hb [t ->]. unfold between. rewrite H. replace (Z.to_nat (b + 1 + len w) - Z.to_nat b)%nat with (S (length w)) by (unfold len; lia).
  cbn [firstn]. f_equal. rewrite firstn_app, Nat.sub_diag, firstn_all. apply app_nil_r.
Qed.

Lemma drop_spaces_head s c s' : drop_spaces s = c :: s' -> ISSPACE c = false /\ (length s' < length s)%nat.
Proof.
  induction s as [|d s IH]; cbn; [discriminate|]. destruct (ISSPACE d) eqn:E.
  - intros H. destruct (IH H). split; [assumption | lia].
  - intros [= <- <-]. split; [exact E | lia].
Qed.

(** The loop gives the fields but the last, and where the last one begins. *)
Lemma awk_loop_fields str fuel ptr beg end_ i n limit result :
  len str < LONG_MAX -> 0 <= beg <= len str -> ptr = skipn (Z.to_nat beg) str -> (length ptr < fuel)%nat ->
  (limit <> None -> n = i) ->
  exists b r, awk_loop str ptr beg end_ true i limit result = Ok (b, r) /\ 0 <= b <= len str /\
    r ++ [skipn (Z.to_nat b) str] = result ++ fields fuel limit n ptr.
Proof.
  intros Hl. revert ptr beg end_ i n result; induction fuel as [|fuel IH]; intros ptr beg end_ i n result Hb Hp Hf Hn; [lia|].
  destruct (awk_skip str ptr beg end_ i limit result Hb Hp) as (b & Hbb & Hd & E). rewrite E. clear E. cbn [fields].
  destruct (drop_spaces ptr) as [|c s] eqn:Ed.
  - exists b, result. split; [reflexivity|]. split; [lia|]. now rewrite <- Hd.
  - assert (match limit with Some lim => lim <=? n | None => false end = match limit with Some lim => lim <=? i | None => false end) as ->
      by (destruct limit; [rewrite Hn by discriminate|]; reflexivity).
    destruct (match limit with Some lim => lim <=? i | None => false end).
    { exists b, result. split; [reflexivity|]. split; [lia|]. now rewrite <- Hd. }
    destruct (drop_spaces_head _ _ _ Ed) as [Hc Hlen].
    destruct (skipn_cons_next str b c s (eq_sym Hd) ltac:(lia)) as [Hs Hlt].
    rewrite (awk_word str s b (b + 1)) by (auto; lia). cbn [take_word]. rewrite Hc.
    destruct (take_word s) as [w [r|]] eqn:Ew; apply take_word_split in Ew.
    + destruct Ew as [d ->].
      rewrite (between_take str b c (w ++ d :: r) w) by (auto; try lia; eauto).
      assert (Hr : skipn (Z.to_nat (b + 1 + len w + 1)) str = r /\ b + 1 + len w < len str).
      { apply (skipn_cons_next str (b + 1 + len w) d r); [|pose proof (len_nonneg w); lia].
        replace (Z.to_nat (b + 1 + len w)) with (length w + Z.to_nat (b + 1))%nat by (unfold len; lia).
        rewrite <- skipn_skipn, Hs, skipn_app, skipn_all, Nat.sub_diag. reflexivity. }
      destruct Hr as [Hr Hrl]. rewrite length_app in Hlen. cbn [length] in Hlen. pose proof (len_nonneg w).
      destruct (IH r (b + 1 + len w + 1) (b + 1 + len w) (match limit with Some _ => i + 1 | None => i end) (n + 1)
        (result ++ [c :: w]) ltac:(lia) (eq_sym Hr) ltac:(lia)) as (b' & r' & -> & Hb' & Hr').
      { intros Hne. destruct limit; [|congruence]. now rewrite Hn. }
      exists b', r'. split; [reflexivity|]. split; [exact Hb'|]. now rewrite Hr', <- app_assoc.
    + exists b, result. split; [reflexivity|]. split; [lia|]. now rewrite <- Hd, Ew.
Qed.

Lemma fields_nonempty fuel limit n s : Forall (fun x => x <> []) (removelast (fields fuel limit n s)).
Proof.
  revert n s; induction fuel as [|fuel IH]; intros n s; cbn [fields]; [constructor|].
  destruct (drop_spaces s) as [|c s'] eqn:E; [constructor|].
  destruct (match limit with Some lim => lim <=? n | None => false end); [constructor|].
  destruct (drop_spaces_head _ _ _ E) as [Hc _]. cbn [take_word]. rewrite Hc.
  destruct (take_word s') as [w [r|]]; [|constructor]. specialize (IH (n + 1) r).
  destruct (fields fuel limit (n + 1) r) as [|f fs] eqn:Ef; [constructor|].
  change (removelast ((c :: w) :: f :: fs)) with ((c :: w) :: removelast (f :: fs)).
  constructor; [discriminate | exact IH].
Qed.

Lemma pop_last l x : x <> [] -> rev (pop_empty (rev (l ++ [x]))) = l ++ [x].
Proof. intros H. rewrite rev_app_distr. cbn [rev app]. destruct x; [congruence|]. cbn [pop_empty]. cbn [rev]. now rewrite rev_involutive. Qed.

Lemma pop_none l : Forall (fun x => x <> []) l -> rev (pop_empty (rev l)) = l.
Proof.
  intros H. destruct l as [|y l'] using rev_ind; [reflexivity|].
  apply pop_last. apply Forall_app in H as [_ H]. now inversion H.
Qed.

Definition nonempty (x : list Z) : bool := match x with [] => false | _ => true end.

Lemma filter_all l : Forall (fun x => x <> []) l -> filter nonempty l = l.
Proof. induction 1 as [|x l Hx _ IH]; cbn; [reflexivity|]. destruct x; [congruence|]. cbn. now f_equal. Qed.

(** C21: [split] on white space is splitting into words: white space at the front and between the fields is dropped,
    however long; without a limit (or with 0) the result is the words of the string, a negative limit keeps an
    empty last field after trailing white space, a limit leaves what follows the white space after so many fields
    less one as the last field, untouched, and the empty string has no fields. *)
Theorem split_is_fields (str : list Z) (limit : option Z) :
  len str < LONG_MAX ->
  rb_str_split_awk str limit =
  Ok (match str, limit with
      | [], _ => []
      | _, None => filter nonempty (all_fields None str)
      | _, Some l =>
          if l =? 0 then filter nonempty (all_fields None str)
          else if l =? 1 then [str]
          else if l <? 0 then all_fields None str
          else all_fields (Some l) str
      end).
Proof.
  intros Hl. destruct str as [|c str]; 
    [destruct limit as [l|]; [|reflexivity]; unfold rb_str_split_awk; destruct (l =? 1); [reflexivity|]; cbn;
     destruct (l <=? 0), (l =? 0); reflexivity|].
  set (s := c :: str) in *. assert (0 < len s) as Hpos by (unfold s; rewrite len_cons; pose proof (len_nonneg str); lia).
  assert (forall given i, (given <> None -> i = 1) -> exists b r, awk_loop s s 0 0 true i given [] = Ok (b, r) /\ 0 <= b <= len s /\
    r ++ [skipn (Z.to_nat b) s] = all_fields given s) as Hloop.
  { intros given i Hi. apply (awk_loop_fields s (S (length s)) s 0 0 i 1 given []); auto; try lia.
    intros Hg. now rewrite Hi. }
  assert (forall b r, 0 <= b <= len s -> (if len s =? b then Ok (r ++ [[]]) else push_substr s b (len s - b) r) = Ok (r ++ [skipn (Z.to_nat b) s])) as Hpush.
  { intros b r Hb. destruct (Z.eqb_spec (len s) b) as [E|E].
    - rewrite skipn_all2; [reflexivity|]. unfold len in *. lia.
    - unfold push_substr. rewrite rb_str_substr_ok; try lia; replace (b <? 0) with false by (symmetry; apply Z.ltb_ge; lia).
      + cbn [bind]. rewrite firstn_all2; [reflexivity|]. rewrite length_skipn. unfold len in *. lia.
      + unfold LONG_MAX in *. lia. }
  unfold rb_str_split_awk. replace (len s =? 0) with false by (symmetry; apply Z.eqb_neq; lia).
  replace (0 <? len s) with true by (symmetry; apply Z.ltb_lt; lia). cbn [andb].
  assert (forall i, (b_r <- awk_loop s s 0 0 true i None [];; let '(beg, result) := b_r in
    result <- (if (beg <? len s) || (0 <? 0) then
       if len s =? beg then Ok (result ++ [[]]) else push_substr s beg (len s - beg) result else Ok result) ;;
    Ok (rev (pop_empty (rev result)))) = Ok (filter nonempty (all_fields None s))) as Hnone.
  { intros i. destruct (Hloop None i ltac:(congruence)) as (b & r & E & Hb & Hf). rewrite E. cbn [bind].
    pose proof (fields_nonempty (S (length s)) None 1 s) as Hn. unfold all_fields in Hf. rewrite <- Hf, removelast_last in Hn.
    unfold all_fields. rewrite <- Hf, filter_app, (filter_all r Hn), orb_false_r. destruct (b <? len s) eqn:Eb; breflect.
    - rewrite Hpush by lia. cbn [bind]. assert (skipn (Z.to_nat b) s <> []) as Hne
        by (intros H; apply (f_equal (@length Z)) in H; rewrite length_skipn in H; unfold len in *; cbn [length] in H; lia).
      rewrite pop_last by exact Hne. cbn [filter]. now destruct (skipn (Z.to_nat b) s).
    - cbn [bind]. rewrite skipn_all2 by (unfold len in *; lia). cbn. now rewrite app_nil_r, pop_none. }
  destruct limit as [l|]; [|apply Hnone].
  destruct (Z.eqb_spec l 0) as [->|H0]; [apply Hnone|]. destruct (Z.eqb_spec l 1) as [->|H1]; [reflexivity|].
  destruct (Z.ltb_spec l 0) as [Hneg|Hpos'].
  - replace (l <=? 0) with true by (symmetry; apply Z.leb_le; lia).
    destruct (Hloop None 1 ltac:(congruence)) as (b & r & E & Hb & Hf). rewrite E. cbn [bind negb].
    replace (l <? 0) with true by (symmetry; apply Z.ltb_lt; lia). rewrite orb_true_r, Hpush by lia. cbn [bind andb].
    replace (l =? 0) with false by (symmetry; apply Z.eqb_neq; lia). now rewrite Hf.
  - replace (l <=? 0) with false by (symmetry; apply Z.leb_gt; lia).
    destruct (Hloop (Some l) 1 ltac:(reflexivity)) as (b & r & E & Hb & Hf). rewrite E. cbn [bind negb orb andb].
    rewrite Hpush by lia. cbn [bind]. now rewrite Hf.
Qed.

Lemma split_is_fields_witness :
  len [32; 97; 32; 98] < LONG_MAX /\ rb_str_split_awk [32; 97; 32; 98] None = Ok [[97]; [98]].
Proof.
  assert (len [32; 97; 32; 98] < LONG_MAX) as H by reflexivity. split; [exact H|].
  exact (split_is_fields [32; 97; 32; 98] None H).
Defined.

(** The lines [each_line] hands to its block are the string: with any separator, and in paragraph mode, no line is
    empty and put together they give the string, so the loop ends and loses nothing; with a separator of one
    byte each line ends at its first separator. *)
Theorem each_line_joins (ignorecase : bool) (str rs : list Z) :
  comparable ignorecase str -> comparable ignorecase rs ->
  exists l, rb_str_each_line ignorecase str rs = Some (Ok l) /\ concat l = str /\ Forall (fun x => x <> []) l /\
    forall c, rs = [c] -> Forall (line_of c) l.
Proof.
  intros Hstr Hrs. destruct (each_line_loop_ok ignorecase str rs Hstr Hrs (S (length str)) 0 (length rs)) as (l & Hl & Hc & Hn);
    try lia.
  exists l. split; [exact Hl|]. split; [exact Hc|]. split; [exact Hn|]. intros c ->.
  apply (each_line_single ignorecase str c (S (length str)) 0 1) with (l := l); cbn; try lia. exact Hl.
Qed.

Lemma each_line_joins_witness :
  comparable false [97; 10; 10; 98] /\ exists l, rb_str_each_line false [97; 10; 10; 98] [] = Some (Ok l) /\ concat l = [97; 10; 10; 98].
Proof.
  assert (comparable false [97; 10; 10; 98]) as H by (repeat constructor; unfold byte; lia). split; [exact H|].
  destruct (each_line_joins false [97; 10; 10; 98] [] H ltac:(constructor)) as (l & Hl & Hc & _). now exists l.
Defined.

