(* ===== verification/Sprintf.v ===== *)
(** * Formatted output

    sprintf.c: [rb_f_sprintf] for integers, characters and strings, with the
    buffer it grows by doubling.  Floating point directives and arguments
    that are converted by their own methods are [Delegate].  An [int] that
    overflows wraps around. *)

From Stdlib Require Import ZArith Lia List Bool.
From S2P Require Import Prelude CInt Digits Bignum BigBits BigStr StrDump.
Import ListNotations.
Local Open Scope Z_scope.
Local Open Scope outcome_scope.

(** Integers, and strings; anything else is an [Obj]. *)
Inductive argument := Int (v : VALUE) | Str (s : list Z).

(** ** Results

    [None] is a loop that does not end ([CHECK] with a size that is too large). *)

Definition result (A : Type) : Type := option (outcome A).
Definition done {A} (a : A) : result A := Some (Ok a).
Definition lift {A} (o : outcome A) : result A := Some o.
Definition rbind {A C} (m : result A) (k : A -> result C) : result C :=
  match m with
  | None => None
  | Some (Ok a) => k a
  | Some (Raise e) => Some (Raise e)
  | Some Undefined => Some Undefined
  | Some Delegate => Some Delegate
  end.
Notation "x <<- m ;; k" := (rbind m (fun x => k)) (at level 62, m at next level, right associativity).
Notation "' p <<- m ;; k" := (rbind m (fun p => k)) (at level 62, p pattern, m at next level, right associativity).

(** ** The buffer *)

(** What was written, [blen] bytes, and [bsiz]; the block has [bsiz + 1] bytes. *)
Record buffer := Buffer { out : list Z; bsiz : Z }.
Definition blen (b : buffer) : Z := Z.of_nat (length (out b)).

(** [while (blen + (l) >= bsiz) bsiz*=2]: 32 doublings of an [int] give 0. *)
Fixpoint grow (fuel : nat) (n size : Z) : option Z :=
  if size <=? n then match fuel with O => None | S fuel => grow fuel n (s32 (size * 2)) end else Some size.

Definition CHECK (l : Z) (b : buffer) : result buffer :=
  match grow 40 (s32 (blen b + l)) (bsiz b) with
  | None => None
  | Some size => if size <? 0 then lift (Raise ArgumentError) else done (Buffer (out b) size)
  end.

(** Writing at [blen], where there is room. *)
Definition put (s : list Z) (b : buffer) : result buffer :=
  if bsiz b + 1 <? blen b + Z.of_nat (length s) then lift Undefined else done (Buffer (out b ++ s) (bsiz b)).

Definition PUSH (s : list Z) (b : buffer) : result buffer := b <<- CHECK (Z.of_nat (length s)) b ;; put s b.

(** [while (n-- > 0) buf[blen++] = c]. *)
Definition fill (c n : Z) (b : buffer) : result buffer := put (repeat c (Z.to_nat n)) b.

(** ** Arguments *)

(** [argv] without the format; [posarg] and [nextarg]. *)
Record args := Args { argv : list argument; posarg : Z; nextarg : Z }.

Definition GETNTHARG (nth : Z) (a : args) : outcome argument :=
  if Z.of_nat (length (argv a)) <? nth then Raise ArgumentError else
  match nth_error (argv a) (Z.to_nat (nth - 1)) with Some v => Ok v | None => Undefined end.

Definition GETARG (nextvalue : option argument) (a : args) : outcome (argument * args) :=
  match nextvalue with
  | Some v => Ok (v, a)
  | None =>
      if posarg a <? 0 then Raise ArgumentError else
      let a' := Args (argv a) (nextarg a) (nextarg a + 1) in
      v <- GETNTHARG (nextarg a) a ;; Ok (v, a')
  end.

Definition GETPOSARG (n : Z) (a : args) : outcome (argument * args) :=
  if 0 <? posarg a then Raise ArgumentError else
  if n <? 1 then Raise ArgumentError else
  v <- GETNTHARG n a ;; Ok (v, Args (argv a) (-1) (nextarg a)).

Definition NUM2INT (v : argument) : outcome Z :=
  match v with Int v => NUM2LONG v | Str _ => Raise TypeError end.

(** ** The format *)

(** [*p], the NUL at the end of the format. *)
Definition star (p : list Z) : Z := hd 0 p.

(** [for (; p < end && ISDIGIT( *p ); p++) n = 10 * n + ( *p - '0')]. *)
Fixpoint digits_at (p : list Z) (n : Z) : Z * list Z :=
  match p with
  | c :: p' => if ISDIGIT c then digits_at p' (s32 (10 * n + (c - 48))) else (n, p)
  | [] => (n, [])
  end.

(** [p] at the star, on return where the code leaves it. *)
Definition GETASTER (p : list Z) (nextvalue : option argument) (a : args) : outcome (Z * list Z * args) :=
  let '(n, q) := digits_at (tl p) 0 in
  match q with
  | [] => Raise ArgumentError
  | c :: _ =>
      '(v, a, p) <- (if c =? 36 then '(v, a) <- GETPOSARG n a ;; Ok (v, a, q)
                     else '(v, a) <- GETARG nextvalue a ;; Ok (v, a, p)) ;;
      n <- NUM2INT v ;;
      Ok (n, p, a)
  end.

Definition FSHARP : Z := 1.
Definition FMINUS : Z := 2.
Definition FPLUS : Z := 4.
Definition FZERO : Z := 8.
Definition FSPACE : Z := 16.
Definition FWIDTH : Z := 32.
Definition FPREC : Z := 64.
Definition has (flags f : Z) : bool := negb (Z.land flags f =? 0).

Record spec := Spec { flags : Z; width : Z; prec : Z; nextvalue : option argument }.
Definition add_flag (f : Z) (s : spec) : spec := Spec (Z.lor (flags s) f) (width s) (prec s) (nextvalue s).

(** The [retry] loop up to the letter of the directive, which [p] points to on return. *)
Fixpoint retry (fuel : nat) (p : list Z) (s : spec) (a : args) : result (list Z * spec * args) :=
  match fuel with
  | O => None
  | S fuel =>
      let c := star p in
      if c =? 32 then retry fuel (tl p) (add_flag FSPACE s) a
      else if c =? 35 then retry fuel (tl p) (add_flag FSHARP s) a
      else if c =? 43 then retry fuel (tl p) (add_flag FPLUS s) a
      else if c =? 45 then retry fuel (tl p) (add_flag FMINUS s) a
      else if c =? 48 then retry fuel (tl p) (add_flag FZERO s) a
      else if (49 <=? c) && (c <=? 57) then
        let '(n, q) := digits_at p 0 in
        match q with
        | [] => lift (Raise ArgumentError)
        | d :: q' =>
            if d =? 36 then
              match nextvalue s with
              | Some _ => lift (Raise ArgumentError)
              | None =>
                  '(v, a) <<- lift (GETPOSARG n a) ;;
                  retry fuel q' (Spec (flags s) (width s) (prec s) (Some v)) a
              end
            else retry fuel q (add_flag FWIDTH (Spec (flags s) n (prec s) (nextvalue s))) a
        end
      else if c =? 42 then
        if has (flags s) FWIDTH then lift (Raise ArgumentError) else
        let s := add_flag FWIDTH s in
        '(w, p, a) <<- lift (GETASTER p (nextvalue s) a) ;;
        let s := if w <? 0 then add_flag FMINUS (Spec (flags s) (s32 (- w)) (prec s) (nextvalue s))
                 else Spec (flags s) w (prec s) (nextvalue s) in
        retry fuel (tl p) s a
      else if c =? 46 then
        if has (flags s) FPREC then lift (Raise ArgumentError) else
        let s := add_flag FPREC s in
        let p := tl p in
        if star p =? 42 then
          '(n, p, a) <<- lift (GETASTER p (nextvalue s) a) ;;
          let f := if n <? 0 then Z.ldiff (flags s) FPREC else flags s in
          retry fuel (tl p) (Spec f (width s) n (nextvalue s)) a
        else
          let '(n, p) := digits_at p 0 in
          match p with
          | [] => lift (Raise ArgumentError)
          | _ => retry fuel p (Spec (flags s) (width s) n (nextvalue s)) a
          end
      else done (p, s, a)
  end.

(** ** Integers as text *)

(** The C library's [sprintf] for [%ld], [%lu], [%lo] and [%lx] of a number that is not negative. *)
Fixpoint digits_text (fuel : nat) (base n : Z) (acc : list Z) : list Z :=
  match fuel with
  | O => acc
  | S fuel => let acc := ruby_digitmap (n mod base) :: acc in if n / base =? 0 then acc else digits_text fuel base (n / base) acc
  end.

Definition c_text (base n : Z) : list Z := digits_text 32 base n [].

Definition remove_sign_bits (str : list Z) (base : Z) : list Z :=
  if base =? 16 then skip_while (fun c => c =? 102) str
  else if base =? 8 then skip_while (fun c => c =? 55) (if star str =? 51 then tl str else str)
  else if base =? 2 then skip_while (fun c => c =? 49) str
  else str.

Definition sign_bits (base c : Z) : Z :=
  if base =? 16 then (if c =? 88 then 70 else 102)
  else if base =? 8 then 55
  else if base =? 2 then 49
  else 46.

Definition toupper (c : Z) : Z := if ISLOWER c then c - 32 else c.

Definition directive_base (c : Z) : Z :=
  if c =? 111 then 8 else if (c =? 120) || (c =? 88) then 16 else if (c =? 98) || (c =? 66) then 2 else 10.

Definition directive_prefix (c : Z) : list Z :=
  if c =? 111 then [48] else if c =? 120 then [48; 120] else if c =? 88 then [48; 88]
  else if c =? 98 then [48; 98] else if c =? 66 then [48; 66] else [].

(** [bin_retry]: the integer of an argument. *)
Definition int_argument (val : argument) : outcome VALUE :=
  v <- match val with Str s => rb_str_to_inum s 0 true | Int v => Ok v end ;;
  match v with Obj _ => Delegate | _ => Ok v end.

(** The character for a sign, 0 for none. *)
Definition sign_char (flags : Z) (negative : bool) : Z :=
  if negative then 45 else if has flags FPLUS then 43 else if has flags FSPACE then 32 else 0.

(** The text of a Fixnum [v] and its sign; base 2 is left to the Bignums. *)
Definition fixnum_text (c flags v : Z) (sign : bool) : list Z * Z :=
  let base := directive_base c in
  if sign then (c_text base (if v <? 0 then - v else v), sign_char flags (v <? 0))
  else if v <? 0 then
    let s := remove_sign_bits (c_text base (u32 v)) base in
    let d := if base =? 16 then 102 else if base =? 8 then 55 else 0 in
    let s := if negb (d =? 0) && negb (star s =? d) then d :: s else s in
    (if has flags (FPREC + FZERO) then s else 46 :: 46 :: s, 0)
  else (c_text base v, 0).

(** The text of a Bignum, its sign character. *)
Definition bignum_text (c flags : Z) (b : RBignum) (sgn : bool) : outcome (list Z * Z) :=
  let base := directive_base c in
  if sgn then
    s <- rb_big2str_big b base ;;
    Ok (if star s =? 45 then tl s else s, sign_char flags (star s =? 45))
  else
    ds <- (if sign b then Ok (digits b) else get2comp (digits b) true) ;;
    tmp <- rb_big2str_big (mkBig (sign b) ds) base ;;
    if star tmp =? 45 then
      if base =? 10 then Ok (tmp, 0)
      else
        let s := remove_sign_bits (tl tmp) base in
        let d := if base =? 16 then 102 else if base =? 8 then 55 else 49 in
        let t := if star s =? d then s else d :: s in
        Ok (if has flags (FPREC + FZERO) then t else 46 :: 46 :: t, 0)
    else Ok (tmp, 0).

(** [format_integer]: [filler] is the character between sign and digits. *)
Definition format_integer (c flags width prec : Z) (s : list Z) (sc : Z) (prefix : list Z) (filler : Z) (b : buffer) :
    result buffer :=
  let len := Z.of_nat (length s) in
  let s := if c =? 88 then map toupper s else s in
  let zero := (Z.land flags (FZERO + FPREC) =? FZERO) in
  let prec := if zero then width else if prec <? len then len else prec in
  let width := if zero then 0 else s32 (width - prec) in
  b <<- (if has flags FMINUS then done b else b <<- CHECK width b ;; fill 32 width b) ;;
  b <<- (if sc =? 0 then done b else PUSH [sc] b) ;;
  b <<- (match prefix with [] => done b | _ => PUSH prefix b end) ;;
  b <<- CHECK (s32 (prec - len)) b ;;
  b <<- fill filler (prec - len) b ;;
  b <<- PUSH s b ;;
  if has flags FMINUS then b <<- CHECK width b ;; fill 32 width b
  else CHECK (if 0 <=? width then -1 else s32 (width - 1)) b.

Definition format_int (c : Z) (sp : spec) (val : argument) (b : buffer) : result buffer :=
  let sgn := (c =? 100) || (c =? 105) || has (flags sp) (FPLUS + FSPACE) in
  let prefix := if has (flags sp) FSHARP then directive_prefix c else [] in
  let width := s32 (width sp - Z.of_nat (length prefix)) in
  v <<- lift (int_argument val) ;;
  let base := directive_base c in
  let big b' :=
    '(s, sc) <<- lift (bignum_text c (flags sp) b' sgn) ;;
    let width := if sc =? 0 then width else s32 (width - 1) in
    format_integer c (flags sp) width (prec sp) s sc prefix (if sign b' then 48 else sign_bits base c) b in
  match v with
  | Big b' => big b'
  | Fix v =>
      if base =? 2 then big (rb_int2big v)
      else
        let '(s, sc) := fixnum_text c (flags sp) v sgn in
        let width := if sc =? 0 then width else s32 (width - 1) in
        format_integer c (flags sp) width (prec sp) s sc prefix (if negb sgn && (v <? 0) then sign_bits base c else 48) b
  | Obj _ => lift Delegate
  end.

(** [rb_obj_as_string], [rb_inspect] without characters of several bytes. *)
Definition as_string (inspect : bool) (v : argument) : outcome (list Z) :=
  match v with
  | Str s => if inspect then rb_str_inspect MBCTYPE_ASCII s else Ok s
  | Int (Obj _) => Delegate
  | Int v => rb_big2str v 10
  end.

(** [memcpy(&buf[blen], s, len); blen += len]. *)
Definition memcpy (s : list Z) (len : Z) (b : buffer) : result buffer :=
  if len <? 0 then lift Undefined else put (firstn (Z.to_nat len) s) b.

(** [%s] and [%p]. *)
Definition format_str (sp : spec) (s : list Z) (b : buffer) : result buffer :=
  let l := Z.of_nat (length s) in
  let l := if has (flags sp) FPREC && (prec sp <? l) then prec sp else l in
  if has (flags sp) FWIDTH && (l <? width sp) then
    b <<- CHECK (width sp) b ;;
    let n := width sp - l in
    b <<- (if has (flags sp) FMINUS then done b else fill 32 n b) ;;
    b <<- memcpy s l b ;;
    if has (flags sp) FMINUS then fill 32 n b else done b
  else b <<- CHECK l b ;; memcpy s l b.

Fixpoint spaces (n : nat) (b : buffer) : result buffer :=
  match n with O => done b | S n => b <<- PUSH [32] b ;; spaces n b end.

(** [%c]: [--width > 0] before and after. *)
Definition format_chr (sp : spec) (v : argument) (b : buffer) : result buffer :=
  let n := Z.to_nat (s32 (width sp - 1)) in
  b <<- (if has (flags sp) FMINUS then done b else spaces n b) ;;
  c <<- lift (NUM2INT v) ;;
  b <<- PUSH [Z.land c 255] b ;;
  if has (flags sp) FMINUS then spaces n b else done b.

Definition one_of (c : Z) (l : list Z) : bool := existsb (Z.eqb c) l.

(** The directive [p] points to; what follows it, where the next round starts. *)
Definition directive (p : list Z) (sp : spec) (a : args) (b : buffer) : result (list Z * args * buffer) :=
  let c := star p in
  if one_of c [10; 0; 37] then
    if negb (flags sp =? 0) then lift (Raise ArgumentError)
    else b <<- PUSH [37] b ;; done (if c =? 10 then p else tl p, a, b)
  else if c =? 99 then
    '(v, a) <<- lift (GETARG (nextvalue sp) a) ;;
    b <<- format_chr sp v b ;; done (tl p, a, b)
  else if (c =? 115) || (c =? 112) then
    '(v, a) <<- lift (GETARG (nextvalue sp) a) ;;
    s <<- lift (as_string (c =? 112) v) ;;
    b <<- format_str sp s b ;; done (tl p, a, b)
  else if one_of c [100; 105; 111; 120; 88; 98; 66; 117] then
    '(v, a) <<- lift (GETARG (nextvalue sp) a) ;;
    b <<- format_int c sp v b ;; done (tl p, a, b)
  else if one_of c [102; 103; 71; 101; 69] then lift Delegate
  else lift (Raise ArgumentError).

(** [for (t = p; t < end && *t != '%'; t++)]: the text before the directive, and the rest. *)
Fixpoint upto_percent (p : list Z) : list Z * list Z :=
  match p with
  | [] => ([], [])
  | c :: p' => if c =? 37 then ([], p) else let '(t, r) := upto_percent p' in (c :: t, r)
  end.

Fixpoint sprintf_loop (fuel : nat) (p : list Z) (a : args) (b : buffer) : result (args * buffer) :=
  match fuel with
  | O => None
  | S fuel =>
      match p with
      | [] => done (a, b)
      | _ =>
          let '(t, p) := upto_percent p in
          b <<- PUSH t b ;;
          match p with
          | [] => done (a, b)
          | _ :: p =>
              '(p, sp, a) <<- retry (S (length p)) p (Spec 0 (-1) (-1) None) a ;;
              '(p, a, b) <<- directive p sp a b ;;
              sprintf_loop fuel p a b
          end
      end
  end.

(** [verbose] is [$VERBOSE]. *)
Definition rb_f_sprintf (verbose : bool) (fmt : list Z) (arguments : list argument) : result (list Z) :=
  '(a, b) <<- sprintf_loop (S (length fmt)) fmt (Args arguments 0 1) (Buffer [] 120) ;;
  if verbose && (0 <=? posarg a) && (nextarg a <? Z.of_nat (length arguments) + 1) then lift (Raise ArgumentError)
  else done (out b).

Example sprintf_05d : rb_f_sprintf false [37; 48; 53; 100] [Int (Fix (-123))] = done [45; 48; 49; 50; 51].
Proof. reflexivity. Qed.

(** ["%x %.8b %-6s|%c%%" % [-255, 5, "ab", 65]] *)
Example sprintf_mixed :
  rb_f_sprintf true [37; 120; 32; 37; 46; 56; 98; 32; 37; 45; 54; 115; 124; 37; 99; 37; 37]
    [Int (Fix (-255)); Int (Fix 5); Str [97; 98]; Int (Fix 65)] =
  done [46; 46; 102; 48; 49; 32; 48; 48; 48; 48; 48; 49; 48; 49; 32; 97; 98; 32; 32; 32; 32; 124; 65; 37].
Proof. vm_compute. reflexivity. Qed.


(** [sprintf("%+08b", -5)]: the sign and the ones of the two's complement, -125 when read again. *)
Example sprintf_plus_binary :
  rb_f_sprintf false [37; 43; 48; 56; 98] [Int (Fix (-5))] = done [45; 49; 49; 49; 49; 49; 48; 49] /\
  rb_cstr_to_inum (Some [45; 49; 49; 49; 49; 49; 48; 49]) 2 true = Ok (Fix (-125)).
Proof. split; vm_compute; reflexivity. Qed.

(** [sprintf("%o", -2**50)], [sprintf("%020d", -2**40)] and [sprintf("%u", -2**34)]. *)
Example sprintf_negative_bignums :
  rb_f_sprintf false [37; 111] [Int (Big (mkBig false [0; 0; 0; 4]))] =
    done ([46; 46; 55; 49; 55; 55; 55; 55; 52] ++ repeat 48 16) /\
  rb_f_sprintf false [37; 48; 50; 48; 100] [Int (Big (mkBig false [0; 0; 256]))] =
    done (45 :: repeat 46 6 ++ [49; 48; 57; 57; 53; 49; 49; 54; 50; 55; 55; 55; 54]) /\
  rb_f_sprintf false [37; 117] [Int (Big (mkBig false [0; 0; 4]))] =
    done [45; 50; 56; 49; 52; 53; 55; 55; 57; 54; 56; 52; 49; 52; 55; 50].
Proof. repeat split; vm_compute; reflexivity. Qed.

(** A width of 2013265920 and more doubles [bsiz] to 0 and further. *)
Example CHECK_endless fuel : grow fuel 2013265920 0 = None.
Proof. induction fuel as [|fuel IH]; [reflexivity|exact IH]. Qed.

Example sprintf_endless : rb_f_sprintf false [37; 50; 48; 49; 51; 50; 54; 53; 57; 50; 49; 100] [Int (Fix 1)] = None.
Proof. vm_compute. reflexivity. Qed.

(** ** The buffer as a list *)

Lemma rbind_assoc {A C D} (m : result A) (f : A -> result C) (g : C -> result D) :
  rbind (rbind m f) g = rbind m (fun a => rbind (f a) g).
Proof. now destruct m as [[]|]. Qed.

Lemma rbind_done {A C} (a : A) (k : A -> result C) : rbind (done a) k = k a.
Proof. reflexivity. Qed.

Definition LIMIT : Z := 2013265920.

(** [bsiz] is one of the sizes the doubling passes, and what was written fits. *)
Definition buf_ok (b : buffer) : Prop :=
  (exists k, (k <= 24)%nat /\ bsiz b = 120 * 2 ^ Z.of_nat k) /\ blen b < bsiz b.

Lemma buf_ok_limit b : buf_ok b -> 0 <= blen b < LIMIT.
Proof.
  intros ((k & Hk & HS) & HB). split; [unfold blen; lia|].
  pose proof (Z.pow_le_mono_r 2 (Z.of_nat k) 24 ltac:(lia) ltac:(lia)) as H. change (2 ^ 24) with 16777216 in H.
  unfold LIMIT. lia.
Qed.

Lemma grow_spec n k fuel :
  (k <= 24)%nat -> n < LIMIT -> (24 - k <= fuel)%nat ->
  exists k', (k' <= 24)%nat /\ grow fuel n (120 * 2 ^ Z.of_nat k) = Some (120 * 2 ^ Z.of_nat k') /\ n < 120 * 2 ^ Z.of_nat k'.
Proof.
  unfold LIMIT. intros Hk Hn. revert k Hk; induction fuel as [|fuel IH]; intros k Hk Hf; cbn [grow].
  - replace k with 24%nat in * by lia. change (120 * 2 ^ Z.of_nat 24) with 2013265920.
    replace (2013265920 <=? n) with false by lia. exists 24%nat. now splits.
  - destruct (Z.leb_spec (120 * 2 ^ Z.of_nat k) n) as [HL|HL]; [|now exists k].
    assert (k < 24)%nat.
    { destruct (Nat.eq_dec k 24) as [-> |]; [|lia]. change (120 * 2 ^ Z.of_nat 24) with 2013265920 in HL. lia. }
    replace (s32 (120 * 2 ^ Z.of_nat k * 2)) with (120 * 2 ^ Z.of_nat (S k)).
    + apply IH; lia.
    + rewrite Nat2Z.inj_succ, Z.pow_succ_r by lia.
      pose proof (Z.pow_le_mono_r 2 (Z.of_nat k) 23 ltac:(lia) ltac:(lia)) as H2. change (2 ^ 23) with 8388608 in H2.
      pose proof (Z.pow_pos_nonneg 2 (Z.of_nat k) ltac:(lia) ltac:(lia)). rewrite s32_small; lia.
Qed.

Lemma CHECK_ok l b :
  buf_ok b -> -2147483648 <= l -> blen b + l < LIMIT ->
  exists size, CHECK l b = done (Buffer (out b) size) /\ buf_ok (Buffer (out b) size) /\ blen b + l < size.
Proof.
  intros HB Hl HL. pose proof (buf_ok_limit b HB) as Hlim. destruct HB as ((k & Hk & HS) & Hlt). unfold CHECK.
  unfold LIMIT in *. rewrite s32_small by lia. rewrite HS.
  destruct (grow_spec (blen b + l) k 40 Hk ltac:(unfold LIMIT; lia) ltac:(lia)) as (k' & Hk' & HG & Hn). rewrite HG.
  pose proof (Z.pow_pos_nonneg 2 (Z.of_nat k') ltac:(lia) ltac:(lia)). replace (120 * 2 ^ Z.of_nat k' <? 0) with false by lia.
  exists (120 * 2 ^ Z.of_nat k'). splits; auto. split; [exists k'; split; [exact Hk'|reflexivity]|]. unfold blen in *; cbn [out bsiz].
  destruct (Z.le_gt_cases (bsiz b) (blen b + l)) as [Hge|Hlt']; unfold blen in *; [lia|].
  revert HG. replace 40%nat with (S 39) by reflexivity. cbn [grow].
  replace (120 * 2 ^ Z.of_nat k <=? Z.of_nat (length (out b)) + l) with false by lia. intros [= E]. lia.
Qed.

(** [m] appends [s]. *)
Definition writes (m : result buffer) (b : buffer) (s : list Z) : Prop :=
  exists b', m = done b' /\ out b' = out b ++ s /\ buf_ok b'.

Lemma writes_done b : buf_ok b -> writes (done b) b [].
Proof. intros H. exists b. now rewrite app_nil_r. Qed.

Lemma writes_bind m k b s t :
  writes m b s ->
  (forall b', out b' = out b ++ s -> buf_ok b' -> writes (k b') b' t) ->
  writes (rbind m k) b (s ++ t).
Proof.
  intros (b1 & -> & H1 & O1) H. destruct (H b1 H1 O1) as (b2 & H2 & E2 & O2). exists b2. cbn [rbind].
  rewrite E2, H1, app_assoc. now splits.
Qed.

(** Room for [s] and what a [CHECK] asks for gives [s]. *)
Lemma writes_put l s b :
  buf_ok b -> -2147483648 <= l -> blen b + l < LIMIT -> Z.of_nat (length s) <= Z.max 0 l ->
  writes (rbind (CHECK l b) (put s)) b s.
Proof.
  intros HB Hl HL Hs. destruct (CHECK_ok l b HB Hl HL) as (size & -> & HO & Hsz). cbn [rbind done]. unfold put.
  pose proof HO as [Hsize Hlt]. unfold blen in *; cbn [out bsiz] in *.
  replace (size + 1 <? Z.of_nat (length (out b)) + Z.of_nat (length s)) with false by lia.
  eexists. splits; [reflexivity|reflexivity|]. split; [exact Hsize|]. unfold blen; cbn [out bsiz].
  rewrite length_app. lia.
Qed.

Lemma writes_CHECK l b : buf_ok b -> -2147483648 <= l -> blen b + l < LIMIT -> writes (CHECK l b) b [].
Proof.
  intros HB Hl HL. destruct (CHECK_ok l b HB Hl HL) as (size & -> & HO & _). eexists. rewrite app_nil_r. splits; [reflexivity|reflexivity|exact HO].
Qed.

Lemma writes_PUSH s b : buf_ok b -> blen b + Z.of_nat (length s) < LIMIT -> writes (PUSH s b) b s.
Proof. intros HB HL. apply writes_put; auto; lia. Qed.

Lemma writes_fill l c n b :
  buf_ok b -> -2147483648 <= l -> blen b + l < LIMIT -> n <= Z.max 0 l ->
  writes (rbind (CHECK l b) (fill c n)) b (repeat c (Z.to_nat n)).
Proof. intros HB Hl HL Hn. apply writes_put; auto. rewrite repeat_length. lia. Qed.

Lemma blen_app b b' s : out b' = out b ++ s -> blen b' = blen b + Z.of_nat (length s).
Proof. intros H. unfold blen. rewrite H, length_app. lia. Qed.

(** ** Integers: the field *)

(** What [format_integer] appends, without a buffer. *)
Definition field (c flags width prec : Z) (s : list Z) (sc : Z) (prefix : list Z) (filler : Z) : list Z :=
  let len := Z.of_nat (length s) in
  let zero := (Z.land flags (FZERO + FPREC) =? FZERO) in
  let p := if zero then width else Z.max prec len in
  let pad := repeat 32 (Z.to_nat (if zero then 0 else width - p)) in
  (if has flags FMINUS then [] else pad) ++ (if sc =? 0 then [] else [sc]) ++ prefix ++
  repeat filler (Z.to_nat (p - len)) ++ (if c =? 88 then map toupper s else s) ++
  (if has flags FMINUS then pad else []).

(** Sizes a field may have: a quarter of what the buffer can hold. *)
Definition small (n : Z) : Prop := -16 <= n <= 268435456.

Lemma format_integer_writes c flags width prec s sc prefix filler b :
  buf_ok b -> blen b <= 1073741824 -> small width -> prec <= 268435456 -> Z.of_nat (length s) <= 268435456 -> (length prefix <= 2)%nat ->
  writes (format_integer c flags width prec s sc prefix filler b) b (field c flags width prec s sc prefix filler).
Proof.
  unfold small. intros HB Hb Hw Hp Hs Hpre. unfold format_integer, field.
  set (len := Z.of_nat (length s)) in *. set (zero := (Z.land flags (FZERO + FPREC) =? FZERO)).
  set (s' := if c =? 88 then map toupper s else s).
  assert (Hs' : Z.of_nat (length s') = len) by (unfold s'; destruct (c =? 88); rewrite ?length_map; reflexivity).
  replace (if zero then width else if prec <? len then len else prec) with (if zero then width else Z.max prec len)
    by (destruct zero; [reflexivity|destruct (Z.ltb_spec prec len); lia]).
  set (p := if zero then width else Z.max prec len).
  assert (Hp' : -16 <= p <= 268435456) by (unfold p; destruct zero; lia).
  replace (if zero then 0 else s32 (width - p)) with (if zero then 0 else width - p)
    by (destruct zero; [reflexivity|rewrite s32_small; lia]).
  set (w := if zero then 0 else width - p).
  assert (Hw' : -268435500 <= w <= 268435500) by (unfold w; destruct zero; lia).
  rewrite (s32_small (p - len)) by lia. clearbody len zero s' p w.
  (* the parts in front of the text *)
  apply writes_bind.
  { destruct (has flags FMINUS); [now apply writes_done|]. apply writes_fill; auto; unfold LIMIT; lia. }
  intros b1 E1 O1. apply blen_app in E1.
  assert (H1 : blen b1 <= 1342177324) by (rewrite E1; destruct (has flags FMINUS); rewrite ?repeat_length; cbn [length]; lia).
  apply writes_bind.
  { destruct (sc =? 0); [now apply writes_done|]. apply writes_PUSH; auto. cbn [length]. unfold LIMIT. lia. }
  intros b2 E2 O2. apply blen_app in E2.
  assert (H2 : blen b2 <= 1342177325) by (rewrite E2; destruct (sc =? 0); cbn [length]; lia).
  apply writes_bind.
  { destruct prefix as [|x prefix]; [now apply writes_done|]. apply writes_PUSH; auto. unfold LIMIT. cbn [length] in *. lia. }
  intros b3 E3 O3. apply blen_app in E3.
  rewrite <- rbind_assoc. apply writes_bind.
  { apply writes_fill; auto; unfold LIMIT; lia. }
  intros b4 E4 O4. apply blen_app in E4. rewrite repeat_length in E4.
  apply writes_bind; [apply writes_PUSH; auto; unfold LIMIT; lia|].
  intros b5 E5 O5. apply blen_app in E5.
  destruct (has flags FMINUS).
  - apply writes_fill; auto; unfold LIMIT; lia.
  - apply writes_CHECK; auto; [|unfold LIMIT]; destruct (Z.leb_spec 0 w); rewrite ?s32_small; lia.
Qed.

(** ** Integers: the text *)

Lemma directive_base_bound c : 2 <= directive_base c <= 16.
Proof. unfold directive_base. repeat case_if; lia. Qed.

(** The integers that can be printed. *)
Definition printable (v : VALUE) : Prop :=
  integral v /\ canonical v /\ (forall b, v = Big b -> 16 * len b <= ROOM_MAX).

(** The text of [v], its sign and what fills it up, for all integers. *)
Definition int_text (c flags : Z) (v : VALUE) (sgn : bool) : outcome (list Z * Z) :=
  match v with
  | Fix n => if directive_base c =? 2 then bignum_text c flags (rb_int2big n) sgn else Ok (fixnum_text c flags n sgn)
  | Big b => bignum_text c flags b sgn
  | Obj _ => Delegate
  end.

Definition int_filler (c : Z) (v : VALUE) (sgn : bool) : Z :=
  let base := directive_base c in
  match v with
  | Fix n => if (n <? 0) && ((base =? 2) || negb sgn) then sign_bits base c else 48
  | Big b => if sign b then 48 else sign_bits base c
  | Obj _ => 48
  end.

Definition is_signed (c : Z) (flags : Z) : bool := (c =? 100) || (c =? 105) || has flags (FPLUS + FSPACE).
Definition int_prefix (c : Z) (flags : Z) : list Z := if has flags FSHARP then directive_prefix c else [].

Lemma format_int_text c sp v b :
  integral v ->
  format_int c sp (Int v) b =
    '(s, sc) <<- lift (int_text c (flags sp) v (is_signed c (flags sp))) ;;
    let w := s32 (width sp - Z.of_nat (length (int_prefix c (flags sp)))) in
    format_integer c (flags sp) (if sc =? 0 then w else s32 (w - 1)) (prec sp) s sc (int_prefix c (flags sp))
      (int_filler c v (is_signed c (flags sp))) b.
Proof.
  intros HI. unfold format_int, is_signed, int_prefix, int_filler, int_text, int_argument.
  destruct v as [n|x|o]; [| |contradiction]; cbn [bind lift rbind].
  - destruct (directive_base c =? 2).
    + rewrite int2big_sign, Z.leb_antisym, Bool.andb_true_r. now destruct (n <? 0).
    + cbn [orb]. rewrite andb_comm. now destruct (fixnum_text _ _ _ _).
  - reflexivity.
Qed.

Lemma int2big_length n : (length (digits (rb_int2big n)) <= 2)%nat.
Proof. unfold rb_int2big, rb_uint2big. repeat case_if; cbn; lia. Qed.

Lemma one_digit base n :
  0 <= n < base ->
  [n] <> [] /\ Forall (valid base) [n] /\ horner base [n] 0 = n /\ (n <> 0 -> no_leading_zero [n]) /\ (n = 0 -> [n] = [0]).
Proof.
  intros H. splits; [discriminate|constructor; [exact H|constructor]|reflexivity|now unfold no_leading_zero|now intros ->].
Qed.

Lemma digits_text_spec fuel base n acc :
  2 <= base <= 36 -> 0 <= n < base ^ Z.of_nat (S fuel) ->
  exists l, digits_text (S fuel) base n acc = map ruby_digitmap l ++ acc /\
    l <> [] /\ Forall (valid base) l /\ horner base l 0 = n /\ (n <> 0 -> no_leading_zero l) /\ (n = 0 -> l = [0]).
Proof.
  intros Hb; revert n acc; induction fuel as [|fuel IH]; intros n acc Hn; cbn [digits_text].
  - replace (base ^ Z.of_nat 1) with base in Hn by (change (Z.of_nat 1) with 1; lia).
    rewrite Z.div_small, Z.mod_small by lia. exists [n]. split; [reflexivity|]. apply one_digit; lia.
  - pose proof (Z.div_mod n base ltac:(lia)) as HD. pose proof (Z.mod_pos_bound n base ltac:(lia)) as HM.
    destruct (Z.eqb_spec (n / base) 0) as [E|E].
    + rewrite E in HD. replace (n mod base) with n by lia. exists [n]. split; [reflexivity|]. apply one_digit; lia.
    + assert (Hq : 0 <= n / base < base ^ Z.of_nat (S fuel)).
      { split; [apply Z.div_pos; lia|]. apply Z.div_lt_upper_bound; [lia|].
        rewrite <- Z.pow_succ_r, <- Nat2Z.inj_succ by lia. lia. }
      destruct (IH (n / base) (ruby_digitmap (n mod base) :: acc) Hq) as (l & HT & HN & HF & HV & HZ & _).
      exists (l ++ [n mod base]). cbn [digits_text] in HT. rewrite HT, map_app, <- app_assoc. splits; auto.
      * destruct l; discriminate.
      * apply Forall_app. split; [exact HF|constructor; [unfold valid; lia|constructor]].
      * rewrite horner_app, HV. cbn [horner fold_left]. lia.
      * intros _. specialize (HZ E). unfold no_leading_zero in *. destruct l; [contradiction|exact HZ].
      * intros ->. contradiction E. now rewrite Z.div_0_l by lia.
Qed.

Lemma c_text_printed base n : 2 <= base <= 16 -> 0 <= n < 4294967296 -> printed base (c_text base n) n.
Proof.
  intros Hb Hn.
  destruct (digits_text_spec 31 base n [] ltac:(lia)) as (l & HT & H).
  { pose proof (Z.pow_le_mono_l 2 base 32 ltac:(lia)) as HP. change (2 ^ 32) with 4294967296 in HP.
    change (Z.of_nat 32) with 32. lia. }
  exists l. rewrite app_nil_r in HT. split; [exact HT|exact H].
Qed.

(** [bignum_text] where the number is printed with its own sign. *)
Lemma bignum_text_sign c flags b (sgn : bool) :
  big_ok b -> 16 * len b <= ROOM_MAX -> big_val b <> 0 \/ sign b = true ->
  sgn = true \/ sign b = true ->
  exists cs, bignum_text c flags b sgn = Ok (cs, if sgn then sign_char flags (big_val b <? 0) else 0) /\
    printed (directive_base c) cs (Z.abs (big_val b)).
Proof.
  intros HO HL HZ Hs. pose proof (directive_base_bound c) as Hb. unfold bignum_text. set (base := directive_base c) in *.
  destruct (rb_big2str_big_ok b base ltac:(lia) HO HL HZ) as (cs & HT & HP).
  assert (H45 : (star cs =? 45) = false).
  { destruct HP as (l & -> & HN & HF & _). destruct HF as [|d l Hd _]; [contradiction|]. unfold valid in Hd.
    cbn [map star hd]. unfold ruby_digitmap. destruct (Z.ltb_spec d 10); apply Z.eqb_neq; lia. }
  exists cs. split; [|exact HP]. destruct sgn.
  - rewrite HT. cbn [bind]. destruct (big_val b <? 0); cbn [star hd tl]; [reflexivity|]. now rewrite H45.
  - destruct Hs as [|Hs]; [discriminate|]. rewrite Hs. cbn [bind].
    replace (mkBig true (digits b)) with b by (destruct b; cbn in Hs; now rewrite Hs).
    assert ((big_val b <? 0) = false) as HN.
    { unfold big_val. rewrite Hs. destruct HO as (Hd & _). pose proof (eval_nonneg _ Hd). lia. }
    rewrite HT, HN. cbn [bind]. now rewrite H45.
Qed.

(** A number that is printed with its own sign, or has none. *)
Lemma int_text_sign c flags v (sgn : bool) :
  printable v -> sgn = true \/ 0 <= value v ->
  exists cs, int_text c flags v sgn = Ok (cs, if sgn then sign_char flags (value v <? 0) else 0) /\
    printed (directive_base c) cs (Z.abs (value v)).
Proof.
  intros (HI & HC & HL) Hs. pose proof (directive_base_bound c) as Hb. unfold int_text.
  destruct v as [n|b|o]; [| |contradiction]; cbn [value] in *.
  - assert (HF := HC). cbn in HF. apply FIXABLE_iff in HF.
    destruct (directive_base c =? 2) eqn:E2.
    + destruct (int2big_spec n ltac:(unfold LONG_MIN, LONG_MAX; lia)) as (HO & HV).
      destruct (bignum_text_sign c flags (rb_int2big n) sgn HO) as (cs & HT & HP).
      * unfold len. pose proof (int2big_length n). unfold ROOM_MAX. lia.
      * rewrite int2big_sign, HV. destruct (Z.leb_spec 0 n); [now right|left; lia].
      * destruct Hs as [|Hs]; [now left|]. right. rewrite int2big_sign. lia.
      * exists cs. now rewrite HV in *.
    + unfold fixnum_text. destruct sgn.
      * eexists. split; [reflexivity|]. replace (if n <? 0 then - n else n) with (Z.abs n) by (destruct (Z.ltb_spec n 0); lia).
        apply c_text_printed; lia.
      * destruct Hs; [discriminate|]. replace (n <? 0) with false by lia. eexists. split; [reflexivity|].
        rewrite Z.abs_eq by lia. apply c_text_printed; lia.
  - apply bignum_text_sign; auto with bignum.
    + left. destruct HC as (_ & _ & HF). intros HX. rewrite HX in HF. discriminate.
    + destruct Hs as [|Hs]; [now left|]. right. unfold big_val in *. destruct HC as (Hd & _ & HF).
      destruct (sign b) eqn:E; auto. pose proof (eval_nonneg _ Hd). unfold big_val in HF. rewrite E in HF.
      assert (eval (digits b) = 0) as H0 by lia. rewrite H0 in HF. discriminate.
Qed.

(** ** Signed fields are read back *)

Lemma printed_digit_chars base cs v : 2 <= base <= 36 -> printed base cs v ->
  exists l, digit_chars base cs l /\ cs <> [] /\ horner base l 0 = v.
Proof.
  intros Hb (l & -> & HN & HF & HV & _). exists l. splits; [|destruct l; [contradiction|discriminate]|exact HV].
  unfold digit_chars. clear HN HV. induction HF as [|d l Hd HF IH]; constructor; [|exact IH].
  split; [apply char_digit_digitmap; unfold valid in Hd; lia|exact Hd].
Qed.

Lemma toupper_digit c d : char_digit c = Some d -> char_digit (toupper c) = Some d.
Proof.
  unfold toupper, char_digit, ISASCII, ISDIGIT, ISLOWER, ISUPPER. intros H.
  repeat case_if; try discriminate; try lia; rewrite <- H; f_equal; lia.
Qed.

Lemma upper_digit_chars base c cs l :
  digit_chars base cs l -> digit_chars base (if c =? 88 then map toupper cs else cs) l.
Proof.
  intros H. destruct (c =? 88); [|exact H]. induction H as [|x d cs l [Hx Hd] H IH]; constructor; [|exact IH].
  split; [now apply toupper_digit|exact Hd].
Qed.

Lemma zeros_digit_chars base n cs l :
  2 <= base -> digit_chars base cs l -> digit_chars base (repeat 48 n ++ cs) (repeat 0 n ++ l).
Proof.
  intros Hb H. induction n as [|n IH]; [exact H|]. cbn [repeat app]. constructor; [|exact IH].
  split; [reflexivity|unfold valid; lia].
Qed.

Lemma horner_zeros base n l : horner base (repeat 0 n ++ l) 0 = horner base l 0.
Proof. induction n as [|n IH]; [reflexivity|]. cbn [repeat app]. rewrite horner_cons. exact IH. Qed.

Lemma Forall_space n : Forall (fun c => ISSPACE c = true) (repeat 32 n).
Proof. now apply Forall_repeat'. Qed.

Lemma spaces_end n : number_end (repeat 32 n).
Proof. destruct n; [now left|now right]. Qed.

(** The field of digits [cs] filled with zeros, read in its base. *)
Lemma field_reads c flags width prec cs sc v base :
  2 <= base <= 36 -> printed base cs v -> In sc [0; 43; 45; 32] ->
  small width -> prec <= 268435456 -> Z.of_nat (length cs) <= 4000000 ->
  width + (if sc =? 0 then 0 else 1) <= Z.of_nat (length (field c flags width prec cs sc [] 48)) /\
  returns (rb_cstr_to_inum (Some (field c flags width prec cs sc [] 48)) base true) (if sc =? 45 then - v else v).
Proof.
  unfold small. intros Hb HP Hsc Hw Hp HL. unfold field. cbn [app].
  destruct (printed_digit_chars base cs v Hb HP) as (l & HD & HN & HV). clear HP.
  set (len := Z.of_nat (length cs)) in *. set (zero := (Z.land flags (FZERO + FPREC) =? FZERO)).
  set (p := if zero then width else Z.max prec len).
  assert (Hp' : -16 <= p <= 268435456) by (unfold p; destruct zero; lia).
  set (w := if zero then 0 else width - p).
  set (text := repeat 48 (Z.to_nat (p - len)) ++ (if c =? 88 then map toupper cs else cs)).
  assert (Ht : Z.of_nat (length text) = Z.max p len).
  { unfold text. rewrite length_app, repeat_length. destruct (c =? 88); rewrite ?length_map; unfold len; lia. }
  assert (Hwp : width <= w + Z.max p len /\ w <= 268435456 + 16 /\ w + Z.max p len <= 300000000) by (unfold w, p; destruct zero; lia).
  assert (HT : digit_chars base text (repeat 0 (Z.to_nat (p - len)) ++ l)).
  { apply zeros_digit_chars; [lia|]. now apply upper_digit_chars. }
  assert (HTn : text <> []) by (intros E; rewrite E in Ht; destruct cs; [contradiction|cbn in *; lia]).
  rewrite <- (horner_zeros base (Z.to_nat (p - len)) l) in HV.
  rewrite (app_assoc (repeat 48 (Z.to_nat (p - len)))). fold text.
  set (pad := repeat 32 (Z.to_nat w)).
  set (left := if has flags FMINUS then [] else pad). set (right := if has flags FMINUS then pad else []).
  assert (Hpad : Forall (fun c => ISSPACE c = true) left /\ Forall (fun c => ISSPACE c = true) right /\ number_end right).
  { unfold left, right, pad. destruct (has flags FMINUS); splits; auto using Forall_space, spaces_end; now left. }
  assert (Hlen : Z.of_nat (length left) + Z.of_nat (length right) = Z.max 0 w).
  { unfold left, right, pad. destruct (has flags FMINUS); rewrite repeat_length; cbn [length]; lia. }
  destruct Hpad as (Hl & Hr & He). clearbody len zero w text p left right. split.
  { rewrite !length_app. destruct (Z.eqb_spec sc 0) as [->|]; cbn [length]; lia. }
  assert (H6 : 6 * Z.of_nat (length (text ++ right)) <= LONG_MAX) by (rewrite length_app; unfold LONG_MAX; lia).
  assert (HR : no_bad_rest true right) by (intros _; exact Hr).
  pose proof (fun ws sg Hws Hsg => rb_cstr_to_inum_spec ws sg text _ right base true Hb Hws Hsg HT HTn He HR H6) as R.
  rewrite HV in R. cbn in Hsc. destruct Hsc as [<-|[<-|[<-|[<-|[]]]]]; cbn [Z.eqb].
  - apply (R left []); [exact Hl|now left].
  - apply (R left [43]); [exact Hl|right; now left].
  - apply (R left [45]); [exact Hl|do 2 right; now left].
  - rewrite app_assoc. apply (R (left ++ [32]) []); [|now left]. apply Forall_app. split; [exact Hl|now repeat constructor].
Qed.

Lemma printable_length base cs v : 2 <= base <= 36 -> printable v -> printed base cs (Z.abs (value v)) -> Z.of_nat (length cs) <= 4000000.
Proof.
  intros Hb (HI & HC & HL) (l & -> & HN & HF & HV & HZ & H0). rewrite length_map.
  pose proof (printed_length base l (Z.abs (value v)) ROOM_MAX Hb HF HZ H0 HV (value_room v HI HC HL)) as H.
  change (Z.max 1 ROOM_MAX) with 3319140 in H. lia.
Qed.

Lemma int_text_sc flags (sgn : bool) v :
  let sc := if sgn then sign_char flags (v <? 0) else 0 in
  In sc [0; 43; 45; 32] /\ (sgn = true \/ 0 <= v -> (if sc =? 45 then - Z.abs v else Z.abs v) = v).
Proof.
  cbv zeta. unfold sign_char. destruct sgn.
  - destruct (Z.ltb_spec v 0); [split; [cbn; tauto|cbn; lia]|].
    destruct (has flags FPLUS), (has flags FSPACE); (split; [cbn; tauto|cbn; lia]).
  - split; [now left|]. intros [|]; [discriminate|]. cbn. lia.
Qed.

(** C22: A directive for an integer (d, i, u, o, x, X, b, B) with any flags but
    #, and with a width and a precision of at most 2^28, appends a field that is
    at least as wide as the width and that [Integer()] in the directive's base
    reads back as the same integer, when the number is not negative and has at
    most 3319140 bits, or is a negative Fixnum that is printed with its sign in
    base 8, 10 or 16; the text before the field has at most 2^30 bytes. *)
Theorem sprintf_reads_back c sp v b :
  has (flags sp) FSHARP = false -> printable v ->
  0 <= value v \/ (exists n, v = Fix n) /\ directive_base c <> 2 /\ is_signed c (flags sp) = true ->
  -1 <= width sp <= 268435456 -> prec sp <= 268435456 -> buf_ok b -> blen b <= 1073741824 ->
  exists s b', format_int c sp (Int v) b = done b' /\ out b' = out b ++ s /\ buf_ok b' /\
    width sp <= Z.of_nat (length s) /\ rb_cstr_to_inum (Some s) (directive_base c) true = Ok v.
Proof.
  intros Hsharp HP Hv Hw Hp HB Hb. pose proof (directive_base_bound c) as Hbase. pose proof HP as (HI & HC & _).
  rewrite format_int_text by exact HI. set (sgn := is_signed c (flags sp)) in *.
  assert (Hs : sgn = true \/ 0 <= value v) by tauto.
  destruct (int_text_sign c (flags sp) v sgn HP Hs) as (cs & -> & HT). cbn [lift rbind].
  destruct (int_text_sc (flags sp) sgn (value v)) as (Hsc & Hval). specialize (Hval Hs).
  set (sc := if sgn then sign_char (flags sp) (value v <? 0) else 0) in *.
  assert (Hfill : int_filler c v sgn = 48).
  { unfold int_filler. destruct v as [n|x|o]; [| |contradiction]; cbn [value] in *.
    - destruct (Z.ltb_spec n 0); [|reflexivity]. destruct Hv as [Hv|(_ & Hv & ->)]; [lia|].
      now replace (directive_base c =? 2) with false by lia.
    - destruct Hv as [Hv|((n & E) & _)]; [|discriminate]. destruct (sign x) eqn:E; [reflexivity|].
      destruct HC as (Hd & _ & HF). unfold big_val in *. rewrite E in *. pose proof (eval_nonneg _ Hd).
      assert (eval (digits x) = 0) as H0 by lia. rewrite H0 in HF. discriminate. }
  unfold int_prefix. rewrite Hsharp, Hfill. cbn [length]. rewrite Z.sub_0_r, (s32_small (width sp)), s32_small by lia.
  pose proof (printable_length (directive_base c) cs v ltac:(lia) HP HT) as HL.
  set (w := if sc =? 0 then width sp else width sp - 1).
  assert (Hsw : small w) by (unfold small, w; destruct (sc =? 0); lia).
  destruct (format_integer_writes c (flags sp) w (prec sp) cs sc [] 48 b) as (b' & HW & HO & HK); auto; [lia|].
  destruct (field_reads c (flags sp) w (prec sp) cs sc (Z.abs (value v)) (directive_base c) ltac:(lia) HT Hsc Hsw Hp HL) as (Hlen & z & HR & HIz & HCz & HVz).
  eexists _, b'. splits; [exact HW|exact HO|exact HK| |].
  - revert Hlen. unfold w. destruct (sc =? 0); lia.
  - rewrite HR. f_equal. apply canonical_unique; auto. rewrite HVz. exact Hval.
Qed.

(** ["%+-12.5X|" % -171]: ["-000AB      "]. *)
Lemma sprintf_reads_back_witness :
  exists s b', format_int 88 (Spec (FPLUS + FMINUS + FWIDTH + FPREC) 12 5 None) (Int (Fix (-171))) (Buffer [] 120) = done b' /\
    out b' = [] ++ s /\ buf_ok b' /\ 12 <= Z.of_nat (length s) /\ rb_cstr_to_inum (Some s) 16 true = Ok (Fix (-171)).
Proof.
  apply (sprintf_reads_back 88 (Spec (FPLUS + FMINUS + FWIDTH + FPREC) 12 5 None) (Fix (-171)) (Buffer [] 120)).
  - reflexivity.
  - split; [exact I|split; [reflexivity|discriminate]].
  - right. split; [now exists (-171)|split; [discriminate|reflexivity]].
  - split; discriminate.
  - discriminate.
  - split; [exists 0%nat; split; [lia|reflexivity]|reflexivity].
  - discriminate.
Defined.

(** ** Negative numbers in two's complement *)

(** The number that digits stand for when their first one goes on to the left for ever. *)
Definition complement (base : Z) (l : list Z) : Z := horner base l 0 - base ^ Z.of_nat (length l).

Lemma complement_ones base n l : 2 <= base -> complement base (repeat (base - 1) n ++ l) = complement base l.
Proof.
  intros Hb. induction n as [|n IH]; [reflexivity|]. rewrite <- IH. cbn [repeat app]. unfold complement.
  rewrite horner_cons, horner_acc. cbn [length]. rewrite Nat2Z.inj_succ, Z.pow_succ_r by lia. ring.
Qed.

Definition top_char (base : Z) : Z := ruby_digitmap (base - 1).

(** Dropping the leading top digits, one of which is put back. *)
Lemma drop_top base l :
  2 <= base <= 16 -> Forall (valid base) l ->
  exists l', skip_while (fun c => c =? top_char base) (map ruby_digitmap l) = map ruby_digitmap l' /\
    (star (map ruby_digitmap l') =? top_char base) = false /\ Forall (valid base) l' /\
    complement base l' = complement base l /\ (length l' <= length l)%nat.
Proof.
  intros Hb H. assert (Ht : top_char base <> 0) by (unfold top_char, ruby_digitmap; destruct (Z.ltb_spec (base - 1) 10); lia).
  induction H as [|d l Hd H IH]; [exists []; splits; auto; change (star (map ruby_digitmap [])) with 0; apply Z.eqb_neq; lia|].
  cbn [map skip_while]. unfold valid in Hd. destruct (Z.eqb_spec (ruby_digitmap d) (top_char base)) as [E|E].
  - assert (d = base - 1) as ->.
    { unfold top_char, ruby_digitmap in E. destruct (Z.ltb_spec d 10), (Z.ltb_spec (base - 1) 10); lia. }
    destruct IH as (l' & HS & HN & HF & HC & HL). exists l'. splits; auto; [|cbn [length]; lia]. rewrite HC.
    symmetry. apply (complement_ones base 1). lia.
  - exists (d :: l). cbn [map star hd]. splits; [reflexivity|now apply Z.eqb_neq|constructor; auto|reflexivity|reflexivity].
Qed.

(** As many digits as the power of two has bits. *)
Lemma digit_count base l k p :
  2 <= base -> Forall (valid base) l -> no_leading_zero l -> l <> [] -> horner base l 0 = p ->
  base ^ (k - 1) <= p < base ^ k -> 1 <= k -> Z.of_nat (length l) = k.
Proof.
  intros Hb HF HZ HN HV Hp Hk. pose proof (horner_bound base l ltac:(lia) HF) as HB. destruct HF as [|d l Hd HF]; [contradiction|].
  unfold no_leading_zero, valid in *. cbn [hd] in HZ. pose proof (horner_lower base d l ltac:(lia) ltac:(lia) HF) as HL.
  cbn [length] in *. rewrite HV in *.
  assert (base ^ (k - 1) < base ^ Z.of_nat (S (length l))) as H1 by lia. apply Z.pow_lt_mono_r_iff in H1; [|lia|lia].
  assert (base ^ Z.of_nat (length l) < base ^ k) as H2 by lia. apply Z.pow_lt_mono_r_iff in H2; lia.
Qed.

(** The text of a number of [k] digits whose top digit is not small. *)
Lemma complement_text base cs p k :
  2 <= base <= 16 -> printed base cs p -> base ^ (k - 1) <= p < base ^ k -> 1 <= k ->
  exists l, skip_while (fun c => c =? top_char base) cs = map ruby_digitmap l /\
    (star (map ruby_digitmap l) =? top_char base) = false /\ Forall (valid base) l /\ complement base l = p - base ^ k /\
    Z.of_nat (length l) <= k.
Proof.
  intros Hb (l & -> & HN & HF & HV & HZ & _) Hp Hk.
  pose proof (Z.pow_pos_nonneg base (k - 1) ltac:(lia) ltac:(lia)).
  pose proof (digit_count base l k p ltac:(lia) HF (HZ ltac:(lia)) HN HV Hp Hk) as HL.
  destruct (drop_top base l Hb HF) as (l' & HS & HT & HF' & HC & HL'). exists l'. splits; auto; [|lia].
  rewrite HC. unfold complement. now rewrite HV, HL.
Qed.

(** The dots, unless digits fill the field. *)
Definition dots (flags : Z) : list Z := if has flags (FPREC + FZERO) then [] else [46; 46].

Definition two_or_sixteen (base : Z) : Prop := base = 2 \/ base = 16.

Lemma fixnum_text_negative c flags n :
  directive_base c = 8 \/ directive_base c = 16 -> FIXABLE n = true -> n < 0 ->
  exists l, fixnum_text c flags n false = (dots flags ++ map ruby_digitmap ((directive_base c - 1) :: l), 0) /\
    Forall (valid (directive_base c)) l /\ complement (directive_base c) l = n /\ Z.of_nat (length l) <= ROOM_MAX.
Proof.
  intros Hb HF Hn. apply FIXABLE_iff in HF. unfold fixnum_text, dots. replace (n <? 0) with true by lia.
  assert (Hu : u32 n = n + 4294967296).
  { unfold u32. rewrite <- (Z.mod_add n 1 4294967296), Z.mod_small by lia. lia. }
  assert (Hp := c_text_printed (directive_base c) (u32 n) (directive_base_bound c) ltac:(lia)).
  destruct Hb as [E|E]; rewrite E in *; cbn [Z.eqb Pos.eqb].
  - (* octal: a 3 in front of ten digits *)
    destruct Hp as (l & Hl & HN & HFo & HV & HZ & _).
    pose proof (digit_count 8 l 11 (u32 n) ltac:(lia) HFo (HZ ltac:(lia)) HN HV ltac:(lia) ltac:(lia)) as HL.
    destruct HFo as [|d l Hd HFo]; [contradiction|]. rewrite horner_cons, horner_acc in HV. cbn [length] in HL.
    pose proof (horner_bound 8 l ltac:(lia) HFo) as HBd. replace (Z.of_nat (length l)) with 10 in * by lia.
    change (8 ^ 10) with 1073741824 in *. assert (d = 3) as -> by lia.
    destruct (drop_top 8 l ltac:(lia) HFo) as (l' & HS & HT & HF' & HC & HL'). exists l'. splits; auto; [| |unfold ROOM_MAX; lia].
    + rewrite Hl. unfold remove_sign_bits. cbn [map Z.eqb Pos.eqb]. change (star (ruby_digitmap 3 :: map ruby_digitmap l) =? 51) with true.
      cbn [tl]. change 55 with (top_char 8). rewrite HS. change (top_char 8 =? 0) with false. rewrite HT. cbn [negb andb].
      change (ruby_digitmap (8 - 1)) with (top_char 8). now destruct (has flags (FPREC + FZERO)).
    + rewrite HC. unfold complement. replace (Z.of_nat (length l)) with 10 by lia. change (8 ^ 10) with 1073741824. lia.
  - destruct (complement_text 16 (c_text 16 (u32 n)) (u32 n) 8 ltac:(lia) Hp ltac:(lia) ltac:(lia)) as (l & HS & HT & HF' & HC & HL).
    exists l. splits; auto; [|rewrite HC; change (16 ^ 8) with 4294967296; lia|unfold ROOM_MAX; lia].
    unfold remove_sign_bits. cbn [Z.eqb Pos.eqb]. change 102 with (top_char 16). rewrite HS. change (top_char 16 =? 0) with false.
    rewrite HT. cbn [negb andb map]. change (ruby_digitmap (16 - 1)) with (top_char 16). now destruct (has flags (FPREC + FZERO)).
Qed.

Lemma radix_base base n :
  two_or_sixteen base -> (0 < n)%nat -> exists k, base ^ k = radix n /\ 1 <= k <= 16 * Z.of_nat n /\ 2 * base ^ (k - 1) <= radix n.
Proof.
  intros Hb Hn. assert (exists k, base ^ k = radix n /\ 1 <= k <= 16 * Z.of_nat n) as (k & E & Hk).
  { rewrite radix_shift. destruct Hb as [-> | ->]; [now exists (16 * Z.of_nat n); split; [|lia]|].
    exists (4 * Z.of_nat n). split; [|lia]. change 16 with (2 ^ 4) at 1. rewrite <- Z.pow_mul_r by lia. f_equal. lia. }
  exists k. split; [exact E|split; [exact Hk|]]. rewrite <- E. replace (base ^ k) with (base * base ^ (k - 1)).
  - pose proof (Z.pow_pos_nonneg base (k - 1) ltac:(destruct Hb; lia) ltac:(lia)). destruct Hb as [-> | ->]; lia.
  - rewrite <- Z.pow_succ_r by lia. f_equal. lia.
Qed.

Lemma big_ok_top ds : Forall digit ds -> ds <> [] -> radix (length ds) <= 2 * eval ds -> big_ok (mkBig false ds).
Proof.
  intros HF HN HT. split; [exact HF|split; [exact HN|left]]. cbn [digits]. unfold normalized.
  destruct (exists_last HN) as (t & x & ->). rewrite last_last.
  rewrite eval_snoc, length_app, radix_add in HT. change (radix (length [x])) with (BIGRAD * 1) in HT.
  apply Forall_app in HF as [Ht _]. pose proof (eval_bound t Ht). unfold BIGRAD in HT. intros ->. lia.
Qed.

(** The magnitude the digits of the two's complement print. *)
Lemma twos_printed base ds :
  two_or_sixteen base -> Forall digit ds -> ds <> [] -> radix (length ds) <= 2 * eval ds -> 16 * Z.of_nat (length ds) <= ROOM_MAX ->
  exists cs, rb_big2str_big (mkBig false ds) base = Ok (45 :: cs) /\
    exists l, skip_while (fun c => c =? top_char base) cs = map ruby_digitmap l /\
      (star (map ruby_digitmap l) =? top_char base) = false /\ Forall (valid base) l /\
      complement base l = eval ds - radix (length ds) /\ Z.of_nat (length l) <= ROOM_MAX.
Proof.
  intros Hb HF HN HT HL. pose proof (radix_pos (length ds)). pose proof (eval_bound ds HF) as HB.
  assert (2 <= base <= 16) by (destruct Hb; lia).
  assert (HV : big_val (mkBig false ds) = - eval ds) by reflexivity.
  pose proof (big_ok_top ds HF HN HT) as HO.
  destruct (rb_big2str_big_ok (mkBig false ds) base ltac:(lia) HO HL ltac:(left; lia)) as (cs & HS & HP).
  rewrite HV in *. replace (- eval ds <? 0) with true in HS by lia. exists cs. split; [exact HS|].
  rewrite Z.abs_opp, Z.abs_eq in HP by lia.
  destruct (radix_base base (length ds) Hb) as (k & E & Hk & H2); [destruct ds; [contradiction|cbn; lia]|].
  rewrite <- E in *. destruct (complement_text base cs (eval ds) k ltac:(lia) HP ltac:(lia) ltac:(lia)) as (l & H3 & H4 & H5 & H6 & H7).
  exists l. splits; auto. lia.
Qed.

Lemma remove_sign_bits_top base cs : two_or_sixteen base -> remove_sign_bits cs base = skip_while (fun c => c =? top_char base) cs.
Proof. now intros [-> | ->]. Qed.

Lemma bignum_text_negative c flags b :
  two_or_sixteen (directive_base c) -> big_ok b -> big_val b < 0 -> 16 * len b + 16 <= ROOM_MAX ->
  exists l, bignum_text c flags b false = Ok (dots flags ++ map ruby_digitmap ((directive_base c - 1) :: l), 0) /\
    Forall (valid (directive_base c)) l /\ complement (directive_base c) l = big_val b /\ Z.of_nat (length l) <= ROOM_MAX.
Proof.
  intros Hb (HF & HN & _) Hneg HL. pose proof (eval_nonneg _ HF) as Hpos.
  assert (Hs : sign b = false) by (unfold big_val in Hneg; destruct (sign b); [lia|reflexivity]).
  assert (Hev : 0 < eval (digits b)) by (unfold big_val in Hneg; rewrite Hs in Hneg; lia).
  destruct (twos_spec b HF (or_introl Hev)) as (ds & HT & HF' & HN' & HV & HTop & HLen).
  destruct HTop as [HTop|(_ & HTop)]; [congruence|]. unfold tc, ext in HV. rewrite Hs in HV.
  assert (HL' : 16 * Z.of_nat (length ds) <= ROOM_MAX) by (unfold len in HL; rewrite HLen; destruct (grows b); lia).
  destruct (twos_printed (directive_base c) ds Hb HF' HN' HTop HL') as (cs & HS & l & HD & Hst & HFl & HC & HLl).
  exists l. splits; auto; [|rewrite HC; lia]. unfold bignum_text. unfold twos in HT. rewrite Hs in *. cbn [negb] in HT.
  rewrite HT. cbn [bind]. rewrite HS. cbn [bind star hd tl Z.eqb Pos.eqb]. rewrite (remove_sign_bits_top _ _ Hb), HD.
  change (45 =? 45) with true. cbv iota. unfold dots. destruct Hb as [E|E]; rewrite E in *; cbn [Z.eqb Pos.eqb map];
    [change 49 with (top_char 2)|change 102 with (top_char 16)]; rewrite Hst; now destruct (has flags (FPREC + FZERO)).
Qed.

Lemma int_text_negative c flags v :
  two_or_sixteen (directive_base c) \/ directive_base c = 8 /\ (exists n, v = Fix n) ->
  printable v -> value v < 0 -> (forall b, v = Big b -> 16 * len b + 16 <= ROOM_MAX) ->
  exists l, int_text c flags v false = Ok (dots flags ++ map ruby_digitmap ((directive_base c - 1) :: l), 0) /\
    Forall (valid (directive_base c)) l /\ complement (directive_base c) l = value v /\ Z.of_nat (length l) <= ROOM_MAX.
Proof.
  intros Hb (HI & HC & _) Hneg HL. unfold int_text. destruct v as [n|b|o]; [| |contradiction]; cbn [value] in *.
  - destruct (Z.eqb_spec (directive_base c) 2) as [E|E].
    + apply FIXABLE_iff in HC. destruct (int2big_spec n ltac:(unfold LONG_MIN, LONG_MAX; lia)) as (HO & HV).
      destruct (bignum_text_negative c flags (rb_int2big n)) as (l & HT & H & HC' & HLl); auto; [now left|lia| |].
      * unfold len. pose proof (int2big_length n). unfold ROOM_MAX. lia.
      * exists l. splits; auto. now rewrite HC', HV.
    + destruct (fixnum_text_negative c flags n) as (l & HT & H); auto; [unfold two_or_sixteen in Hb; tauto|].
      exists l. now rewrite HT.
  - destruct Hb as [Hb|(_ & n & E)]; [|discriminate]. apply bignum_text_negative; auto with bignum.
Qed.

Lemma has_prec_zero flags : has flags (FPREC + FZERO) = false -> has flags FPREC = false /\ has flags FZERO = false.
Proof.
  unfold has. intros H. breflect. split; apply negb_false_iff, Z.eqb_eq.
  - change FPREC with (Z.land (FPREC + FZERO) FPREC). now rewrite Z.land_assoc, H.
  - change FZERO with (Z.land (FPREC + FZERO) FZERO). now rewrite Z.land_assoc, H.
Qed.

(** Dots and fill exclude each other. *)
Lemma field_dots c flags width prec d filler :
  (has flags FPREC = false -> prec < 0) ->
  let s := dots flags ++ d in
  exists m n k, field c flags width prec s 0 [] filler =
      repeat 32 m ++ dots flags ++ (repeat filler k ++ if c =? 88 then map toupper d else d) ++ repeat 32 n /\
    width <= Z.of_nat (length (field c flags width prec s 0 [] filler)).
Proof.
  intros Hprec s. unfold field. cbn [Z.eqb app]. set (zero := Z.land flags (FZERO + FPREC) =? FZERO).
  set (p := if zero then width else Z.max prec (Z.of_nat (length s))). set (w := if zero then 0 else width - p).
  exists (if has flags FMINUS then 0%nat else Z.to_nat w), (if has flags FMINUS then Z.to_nat w else 0%nat),
    (Z.to_nat (p - Z.of_nat (length s))).
  assert (Hpad : forall b : bool, (if b then [] else repeat 32 (Z.to_nat w)) = repeat 32 (if b then 0 else Z.to_nat w)) by now intros [].
  assert (Hpad' : forall b : bool, (if b then repeat 32 (Z.to_nat w) else []) = repeat 32 (if b then Z.to_nat w else 0)) by now intros [].
  assert (Hp0 : has flags (FPREC + FZERO) = false -> Z.to_nat (p - Z.of_nat (length s)) = 0%nat).
  { intros E. destruct (has_prec_zero flags E) as [E1 _]. specialize (Hprec E1). unfold p. replace zero with false; [lia|].
    unfold zero. unfold has in E. breflect. now rewrite Z.add_comm, E. }
  rewrite Hpad, Hpad'. split.
  - f_equal. set (k := Z.to_nat (p - Z.of_nat (length s))) in *. rewrite <- app_assoc. unfold s, dots.
    destruct (has flags (FPREC + FZERO)) eqn:E; cbn [app]; [reflexivity|]. rewrite (Hp0 eq_refl). now destruct (c =? 88).
  - rewrite !length_app, !repeat_length. assert (Hup : length (if c =? 88 then map toupper s else s) = length s) by (destruct (c =? 88); rewrite ?length_map; reflexivity).
    rewrite Hup. clearbody s. unfold w, p. destruct (has flags FMINUS), zero; lia.
Qed.

Lemma filler_digit c base :
  directive_base c = base -> base = 2 \/ base = 8 \/ base = 16 -> char_digit (sign_bits base c) = Some (base - 1).
Proof.
  intros <- H. unfold sign_bits. destruct H as [E|[E|E]]; rewrite E; try reflexivity. now destruct (c =? 88).
Qed.

Lemma fill_digit_chars base f n cs l :
  2 <= base -> char_digit f = Some (base - 1) -> digit_chars base cs l ->
  digit_chars base (repeat f n ++ cs) (repeat (base - 1) n ++ l).
Proof.
  intros Hb Hf H. induction n as [|n IH]; [exact H|]. cbn [repeat app]. constructor; [|exact IH].
  split; [exact Hf|unfold valid; lia].
Qed.

Lemma valid_digit_chars base l : 2 <= base <= 36 -> Forall (valid base) l -> digit_chars base (map ruby_digitmap l) l.
Proof.
  intros Hb HF. unfold digit_chars. induction HF as [|d l Hd HF IH]; constructor; [|exact IH].
  split; [apply char_digit_digitmap; unfold valid in Hd; lia|exact Hd].
Qed.

(** C23: A negative number that is printed without a sign (o, x, X, b, B): the
    field is two dots, left out when digits fill it, and digits that stand for
    the number in two's complement when the first of them, the top digit of
    the base, goes on to the left for ever; this holds for any flags but #,
    plus and space and a width and a precision of at most 2^28, in the bases 2
    and 16 for integers of up to 3319124 bits, in base 8 for Fixnums, behind a text of at
    most 2^30 bytes. *)
Theorem sprintf_twos_complement c sp v b :
  (two_or_sixteen (directive_base c) \/ directive_base c = 8 /\ exists n, v = Fix n) ->
  is_signed c (flags sp) = false -> has (flags sp) FSHARP = false -> (has (flags sp) FPREC = false -> prec sp < 0) ->
  printable v -> value v < 0 -> (forall x, v = Big x -> 16 * len x + 16 <= ROOM_MAX) ->
  -1 <= width sp <= 268435456 -> prec sp <= 268435456 -> buf_ok b -> blen b <= 1073741824 ->
  exists m n t l b', format_int c sp (Int v) b = done b' /\
    out b' = out b ++ repeat 32 m ++ dots (flags sp) ++ t ++ repeat 32 n /\ buf_ok b' /\
    digit_chars (directive_base c) t l /\ hd 0 l = directive_base c - 1 /\ complement (directive_base c) l = value v /\
    width sp <= Z.of_nat (length (repeat 32 m ++ dots (flags sp) ++ t ++ repeat 32 n)).
Proof.
  intros Hbase Hsg Hsharp Hprec HP Hneg HL Hw Hp HB Hb. pose proof HP as (HI & HC & _).
  pose proof (directive_base_bound c) as Hbb. set (base := directive_base c) in *.
  assert (H3 : base = 2 \/ base = 8 \/ base = 16) by (unfold two_or_sixteen in Hbase; tauto).
  rewrite format_int_text by exact HI. rewrite Hsg.
  destruct (int_text_negative c (flags sp) v Hbase HP Hneg HL) as (l & -> & HF & HCo & HLl). fold base in HF, HCo |- *.
  cbn [lift rbind Z.eqb]. unfold int_prefix. rewrite Hsharp. cbn [length]. rewrite Z.sub_0_r, s32_small by lia.
  replace (int_filler c v false) with (sign_bits base c).
  2:{ unfold int_filler. fold base. destruct v as [n|x|o]; [| |contradiction]; cbn [value] in Hneg.
      - replace (n <? 0) with true by lia. now rewrite orb_true_r.
      - unfold big_val in Hneg. destruct HC as (Hd & _). pose proof (eval_nonneg _ Hd). destruct (sign x); [lia|reflexivity]. }
  set (d := map ruby_digitmap ((base - 1) :: l)). set (s := dots (flags sp) ++ d).
  assert (HLs : Z.of_nat (length s) <= 4000000).
  { unfold s, d, dots. rewrite length_app, length_map. unfold ROOM_MAX in HLl. destruct (has (flags sp) (FPREC + FZERO)); cbn [length]; lia. }
  destruct (format_integer_writes c (flags sp) (width sp) (prec sp) s 0 [] (sign_bits base c) b) as (b' & HW & HO & HK);
    auto; try (unfold small; lia).
  destruct (field_dots c (flags sp) (width sp) (prec sp) d (sign_bits base c) Hprec) as (m & n & k & HE & Hlen). fold s in HE, Hlen.
  rewrite HE in *. eexists m, n, _, (repeat (base - 1) (S k) ++ l), b'. splits; [exact HW|exact HO|exact HK| |reflexivity| |exact Hlen].
  - replace (S k) with (k + 1)%nat by lia. rewrite repeat_app, <- app_assoc. apply fill_digit_chars; [lia|now apply filler_digit|].
    apply upper_digit_chars, (valid_digit_chars base ((base - 1) :: l)); [lia|]. constructor; [unfold valid; lia|exact HF].
  - rewrite <- HCo. apply complement_ones. lia.
Qed.

(** ["%-10.6x" % -255] : ["ffff01    "]. *)
Lemma sprintf_twos_complement_witness :
  exists m n t l b', format_int 120 (Spec (FMINUS + FWIDTH + FPREC) 10 6 None) (Int (Fix (-255))) (Buffer [] 120) = done b' /\
    out b' = [] ++ repeat 32 m ++ [] ++ t ++ repeat 32 n /\ buf_ok b' /\
    digit_chars 16 t l /\ hd 0 l = 16 - 1 /\ complement 16 l = -255 /\
    10 <= Z.of_nat (length (repeat 32 m ++ [] ++ t ++ repeat 32 n)).
Proof.
  apply (sprintf_twos_complement 120 (Spec (FMINUS + FWIDTH + FPREC) 10 6 None) (Fix (-255)) (Buffer [] 120)).
  - left. now right.
  - reflexivity.
  - reflexivity.
  - discriminate.
  - split; [exact I|split; [reflexivity|discriminate]].
  - reflexivity.
  - discriminate.
  - split; discriminate.
  - discriminate.
  - split; [exists 0%nat; split; [lia|reflexivity]|reflexivity].
  - discriminate.
Defined.
