(* ===== verification/SprintfSafe.v ===== *)
(** * Formatted output: memory safety

    [rb_f_sprintf] ends and stays in its buffer, for formats and arguments of
    bounded size: what a directive appends is bounded, and so is the buffer. *)

From Stdlib Require Import ZArith Lia List Bool.
From S2P Require Import Prelude CInt Digits Bignum BigBits BigStr StrDump Sprintf.
Import ListNotations.
Local Open Scope Z_scope.
Local Open Scope outcome_scope.

(** ** Results that are not undefined

    [hand] is when the work may be handed over. *)

Section Safety.
Context (hand : Prop).

Definition ok_or_raise {A} (m : outcome A) (P : A -> Prop) : Prop :=
  match m with Ok a => P a | Undefined => False | Raise _ => True | Delegate => hand end.

Definition safe {A} (m : result A) (P : A -> Prop) : Prop :=
  match m with Some m => ok_or_raise m P | None => False end.

Lemma ok_or_raise_bind {A C} (m : outcome A) (k : A -> outcome C) P Q :
  ok_or_raise m P -> (forall a, P a -> ok_or_raise (k a) Q) -> ok_or_raise (bind m k) Q.
Proof. destruct m; cbn; auto. Qed.

Lemma safe_bind {A C} (m : result A) (k : A -> result C) P Q :
  safe m P -> (forall a, P a -> safe (k a) Q) -> safe (rbind m k) Q.
Proof. destruct m as [[]|]; cbn; auto. Qed.

Lemma ok_or_raise_weaken {A} (m : outcome A) (P Q : A -> Prop) : ok_or_raise m P -> (forall a, P a -> Q a) -> ok_or_raise m Q.
Proof. destruct m; cbn; auto. Qed.

Lemma safe_weaken {A} (m : result A) (P Q : A -> Prop) : safe m P -> (forall a, P a -> Q a) -> safe m Q.
Proof. destruct m as [[]|]; cbn; auto. Qed.

(** ** Reading any text as an integer *)

(** Integers of bounded size, with room for the digit the complement may add. *)
Definition fits (v : VALUE) : Prop :=
  integral v -> canonical v /\ (forall b, v = Big b -> 16 * len b + 16 <= ROOM_MAX).

Lemma bignorm_fits b : Forall digit (digits b) -> 16 * len b + 16 <= ROOM_MAX -> fits (bignorm (Big b)).
Proof.
  intros HF HL HI. destruct (bignorm_spec b HF) as (_ & HC & _). split; [exact HC|].
  intros b' E. assert (len b' <= len b); [|lia]. unfold len. apply inj_le.
  revert E. unfold bignorm. pose proof (strip_length (digits b)).
  repeat case_if; intros [= <-]; cbn [digits]; lia.
Qed.

Lemma char_digit_range c d : char_digit c = Some d -> 0 <= d < 36.
Proof.
  unfold char_digit, ISASCII, ISDIGIT, ISLOWER, ISUPPER. intros H. repeat case_if; try discriminate; injection H as <-; lia.
Qed.

Definition whole (v : VALUE) : Prop := fits v /\ integral v.

Lemma bignorm_whole b : Forall digit (digits b) -> 16 * len b + 16 <= ROOM_MAX -> whole (bignorm (Big b)).
Proof. intros HF HL. split; [now apply bignorm_fits|]. now apply bignorm_spec. Qed.

(** Whatever the characters are, the digits stay in their block. *)
Lemma parse_loop_safe base bad s zds blen nd :
  2 <= base <= 36 -> Forall digit zds -> zeros_from blen zds -> (blen <= length zds)%nat ->
  (eval zds + 1) * base ^ Z.of_nat (length s) <= radix (length zds) ->
  ok_or_raise (parse_loop base bad s zds blen nd) (fun '(out, _) => Forall digit out /\ length out = length zds).
Proof.
  intros Hb; revert zds blen nd; induction s as [|c s IH]; intros zds blen nd Hd Hz HL HB; cbn [parse_loop]; [now split|].
  cbn [length] in HB. rewrite Nat2Z.inj_succ, Z.pow_succ_r in HB by lia.
  pose proof (eval_nonneg _ Hd). pose proof (Z.pow_pos_nonneg base (Z.of_nat (length s)) ltac:(lia) ltac:(lia)).
  assert (HB' : (eval zds + 1) * base ^ Z.of_nat (length s) <= radix (length zds)) by nia.
  destruct (c =? 95).
  { destruct bad; [destruct nd|]; [exact I|apply IH; auto..]. }
  destruct (char_digit c) as [d|] eqn:Ec; [|now split].
  destruct (Z.leb_spec base d); [now split|]. pose proof (char_digit_range c d Ec).
  destruct (muladd_spec base blen zds d Hb Hd ltac:(lia) Hz HL ltac:(nia)) as (out & b & -> & HF & HLo & HE & Hzo & Hbl).
  cbn [bind]. rewrite <- HLo. apply IH; auto. rewrite HLo, HE. nia.
Qed.

Lemma skip_while_length p s : (length (skip_while p s) <= length s)%nat.
Proof. induction s as [|c s IH]; cbn [skip_while]; [lia|]. destruct (p c); cbn [length]; lia. Qed.

Lemma squeeze_length s : (length (squeeze s) <= length s)%nat.
Proof.
  unfold squeeze. destruct s as [|c s]; [cbn; lia|]. cbn [deref hd]. destruct (Z.eqb_spec c 48) as [->|]; [|lia].
  cbn [skip_while Z.eqb Pos.eqb length]. pose proof (skip_while_length (fun c => c =? 48) s). lia.
Qed.

Lemma bigparse_safe s base bits sgn bad str :
  2 <= base <= 36 -> 0 <= bits <= 1000000 -> base ^ Z.of_nat (length str) <= 2 ^ bits ->
  ok_or_raise (bigparse s base bits sgn bad str) whole.
Proof.
  intros Hb Hbits HB. unfold bigparse, cdiv, BITSPERDIG. rewrite Z.quot_div_nonneg by lia.
  destruct (bad && (deref str =? 95)); [exact I|]. set (n := Z.to_nat (bits / 16 + 1)).
  pose proof (Z.div_mod bits 16 ltac:(lia)). pose proof (Z.mod_pos_bound bits 16 ltac:(lia)).
  assert (Hn : Z.of_nat n = bits / 16 + 1) by (unfold n; rewrite Z2Nat.id by lia; reflexivity).
  eapply ok_or_raise_bind.
  - apply parse_loop_safe; auto with digits.
    + unfold zeros_from. apply Forall_skipn', Forall_repeat'. reflexivity.
    + rewrite repeat_length. lia.
    + rewrite eval_repeat_0, repeat_length, radix_shift, Z.add_0_l, Z.mul_1_l.
      apply Z.le_trans with (2 ^ bits); [exact HB|]. apply Z.pow_le_mono_r; lia.
  - intros (zds, rest) (HF & HL). rewrite repeat_length in HL. destruct (bad && _); [exact I|]. cbn [ok_or_raise].
    apply bignorm_whole; [exact HF|]. unfold len; cbn [digits]. rewrite HL. unfold ROOM_MAX. lia.
Qed.

Lemma tl_length (s : list Z) : (length (tl s) <= length s)%nat.
Proof. destruct s; cbn [tl length]; lia. Qed.

Lemma inum_base_cases s : let b := inum_base 0 s in b = 2 \/ b = 8 \/ b = 10 \/ b = 16.
Proof. unfold inum_base. cbn [Z.leb Z.compare Z.ltb Z.opp]. cbv zeta. repeat case_if; tauto. Qed.

Lemma skip_prefix_length lo up s : (length (skip_prefix lo up s) <= length s)%nat.
Proof.
  unfold skip_prefix. pose proof (tl_length s). pose proof (tl_length (tl s)). destruct (_ && _); lia.
Qed.

Lemma inum_switch_safe base s :
  base = 2 \/ base = 8 \/ base = 10 \/ base = 16 ->
  exists bits t, inum_switch base s = Ok (bits, t) /\ 1 <= bits <= 4 /\ base <= 2 ^ bits /\ (length t <= length s)%nat.
Proof.
  intros [-> | [-> | [-> | ->]]]; cbn [inum_switch Z.eqb Pos.eqb Z.leb Z.compare andb Pos.compare Pos.compare_cont];
    eexists _, _; (split; [reflexivity|split; [lia|split; [lia|apply skip_prefix_length]]]).
Qed.

Lemma inum_safe s : Z.of_nat (length s) <= 65536 -> ok_or_raise (rb_cstr_to_inum (Some s) 0 true) whole.
Proof.
  intros Hs. unfold rb_cstr_to_inum. set (str := skip_while _ s).
  assert (H1 : (length str <= length s)%nat) by apply skip_while_length. clearbody str.
  set (sgn := negb (deref str =? 45)).
  set (str1 := if (deref str =? 43) || (deref str =? 45) then tl str else str).
  assert (H2 : (length str1 <= length s)%nat) by (unfold str1; pose proof (tl_length str); destruct (_ || _); lia).
  clearbody str1 sgn. destruct ((deref str1 =? 43) || (deref str1 =? 45)); [exact I|].
  pose proof (inum_base_cases str1) as Hbase. cbv zeta in Hbase. set (base := inum_base 0 str1) in *. clearbody base.
  destruct (inum_switch_safe base str1 Hbase) as (bits & t & -> & Hbits & Hpow & Ht). cbn [bind].
  assert (Hb : 2 <= base <= 36) by lia.
  pose proof (squeeze_length t) as Hq. set (q := squeeze t) in *. clearbody q.
  rewrite s32_small by nia. set (n := bits * Z.of_nat (length q)).
  assert (Hn : 0 <= n <= 262144) by (unfold n; nia).
  assert (HB : base ^ Z.of_nat (length q) <= 2 ^ n).
  { unfold n. rewrite Z.pow_mul_r by lia. apply Z.pow_le_mono_l. lia. }
  assert (HP : ok_or_raise (bigparse s base n sgn true q) whole) by (apply bigparse_safe; [lia|lia|exact HB]).
  rewrite u32_small by lia. destruct (n <=? 32); [|exact HP].
  destruct (strtoul q base) as (val, e). destruct (deref e =? 95); [exact HP|].
  destruct (true && _); [exact I|]. destruct (POSFIXABLE val); cbn [ok_or_raise].
  - split; [|exact I]. intros _. split; [apply FIX2LONG_fixable|discriminate].
  - apply bignorm_whole; unfold rb_uint2big, set_sign, len; cbn [digits];
      destruct (BIGLO (BIGDN val) =? 0); repeat constructor; try apply BIGLO_digit; try discriminate.
Qed.

Lemma to_cstring_length s : (length (to_cstring s) <= length s)%nat.
Proof. induction s as [|c s IH]; cbn [to_cstring]; [lia|]. destruct (c =? 0); cbn [length]; lia. Qed.

(** An argument that is converted by a method of its own. *)
Definition foreign (v : argument) : bool := match v with Int (Obj _) => true | _ => false end.

Lemma int_argument_safe v :
  match v with Int v => fits v | Str s => Z.of_nat (length s) <= 65536 end -> (foreign v = true -> hand) ->
  ok_or_raise (int_argument v) (fun v => integral v /\ fits v).
Proof.
  intros H HF. unfold int_argument. eapply ok_or_raise_bind with (P := fun w => fits w /\ (foreign (Int w) = true -> hand)).
  - destruct v as [v|s]; [exact (conj H HF)|]. apply ok_or_raise_weaken with whole.
    2:{ intros w (Hw & HI). split; [exact Hw|]. destruct w; [discriminate..|contradiction]. } unfold rb_str_to_inum. destruct (true && _); [exact I|].
    apply inum_safe. pose proof (to_cstring_length s). lia.
  - intros w (Hw & HO). destruct w; cbn; auto.
Qed.

(** ** The texts of the arguments *)

Definition short (s : list Z) : Prop := Z.of_nat (length s) <= 4000010.

Lemma fits_printable v : integral v -> fits v -> printable v.
Proof.
  intros HI H. destruct (H HI) as (HC & HL). split; [exact HI|split; [exact HC|]]. intros b E. specialize (HL b E). lia.
Qed.

Lemma big2str_short b base :
  2 <= base <= 36 -> big_ok b -> 16 * len b <= ROOM_MAX -> big_val b <> 0 \/ sign b = true ->
  exists s, rb_big2str_big b base = Ok s /\ Z.of_nat (length s) <= 4000001.
Proof.
  intros Hb HO HL HZ. destruct (rb_big2str_big_ok b base Hb HO HL HZ) as (cs & HS & l & Hcs & HN & HF & HV & HZl & H0).
  eexists. split; [exact HS|]. assert (Z.of_nat (length cs) <= 4000000).
  { rewrite Hcs, length_map. assert (HM : Z.abs (big_val b) < 2 ^ ROOM_MAX).
    { destruct HO as (Hd & _ & _). pose proof (eval_bound _ Hd) as B. rewrite radix_shift in B. fold (len b) in B.
      pose proof (Z.pow_le_mono_r 2 (16 * len b) ROOM_MAX ltac:(lia) HL). set (P := 2 ^ ROOM_MAX) in *. clearbody P.
      unfold big_val. destruct (sign b); lia. }
    pose proof (printed_length base l _ ROOM_MAX Hb HF HZl H0 HV HM) as H. change (Z.max 1 ROOM_MAX) with 3319140 in H. lia. }
  destruct (big_val b <? 0); cbn [length]; lia.
Qed.

Lemma remove_sign_bits_length s base : (length (remove_sign_bits s base) <= length s)%nat.
Proof.
  unfold remove_sign_bits. repeat case_if; try apply skip_while_length; try lia.
  eapply Nat.le_trans; [apply skip_while_length|apply tl_length].
Qed.

Lemma dots_length flags s : Z.of_nat (length (if has flags (FPREC + FZERO) then s else 46 :: 46 :: s)) <= Z.of_nat (length s) + 2.
Proof. destruct (has _ _); cbn [length]; lia. Qed.

Lemma bignum_text_safe c flags b sgn :
  big_ok b -> 16 * len b + 16 <= ROOM_MAX -> big_val b <> 0 \/ sign b = true ->
  ok_or_raise (bignum_text c flags b sgn) (fun '(s, sc) => short s).
Proof.
  intros HO HL HZ. pose proof (directive_base_bound c) as Hb. unfold bignum_text, short. set (base := directive_base c) in *.
  destruct sgn.
  - destruct (big2str_short b base ltac:(lia) HO ltac:(lia) HZ) as (s & -> & Hs). cbn [bind ok_or_raise].
    pose proof (tl_length s). destruct (star s =? 45); lia.
  - destruct (sign b) eqn:Es; cbn [bind].
    + replace (mkBig true (digits b)) with b by (destruct b; cbn in Es; now rewrite Es).
      destruct (big2str_short b base ltac:(lia) HO ltac:(lia) ltac:(now right)) as (s & -> & Hs). cbn [bind].
      pose proof (remove_sign_bits_length (tl s) base). pose proof (tl_length s).
      destruct (star s =? 45); [destruct (base =? 10)|]; cbn [ok_or_raise]; try lia.
      destruct (star _ =? _); eapply Z.le_trans; try apply dots_length; cbn [length]; lia.
    + destruct HO as (HF & HN & _). destruct HZ as [HZ|]; [|discriminate]. pose proof (eval_nonneg _ HF).
      assert (Hev : 0 < eval (digits b)) by (unfold big_val in HZ; rewrite Es in HZ; lia).
      destruct (twos_spec b HF (or_introl Hev)) as (ds & HT & HF' & HN' & HV & HTop & HLen).
      unfold twos in HT. rewrite Es in HT. cbn [negb] in HT. rewrite HT. cbn [bind].
      destruct HTop as [HTop|(_ & HTop)]; [congruence|].
      assert (HL' : 16 * Z.of_nat (length ds) <= ROOM_MAX) by (unfold len in HL; rewrite HLen; destruct (grows b); lia).
      destruct (big2str_short (mkBig false ds) base) as (s & -> & Hs); [lia|now apply big_ok_top|exact HL'| |].
      { left. unfold big_val; cbn [sign digits]. pose proof (radix_pos (length ds)). lia. }
      cbn [bind]. pose proof (remove_sign_bits_length (tl s) base). pose proof (tl_length s).
      destruct (star s =? 45); [destruct (base =? 10)|]; cbn [ok_or_raise]; try lia.
      destruct (star _ =? _); eapply Z.le_trans; try apply dots_length; cbn [length]; lia.
Qed.

Lemma fixnum_text_short c flags n sgn : FIXABLE n = true -> short (fst (fixnum_text c flags n sgn)).
Proof.
  intros HF. apply FIXABLE_iff in HF. unfold fixnum_text, short. set (base := directive_base c).
  assert (HT : forall m, 0 <= m < 4294967296 -> Z.of_nat (length (c_text base m)) <= 33).
  { intros m Hm. destruct (c_text_printed base m (directive_base_bound c) Hm) as (l & -> & HN & HFl & HV & HZ & H0).
    rewrite length_map. apply (printed_length base l m 33) in HV; auto; [unfold base; pose proof (directive_base_bound c); lia|].
    change (2 ^ 33) with 8589934592. lia. }
  destruct sgn; [cbn [fst]; rewrite HT; destruct (Z.ltb_spec n 0); lia|].
  destruct (Z.ltb_spec n 0); cbn [fst]; [|rewrite HT; lia].
  pose proof (HT (u32 n) (u32_bound n)). pose proof (remove_sign_bits_length (c_text base (u32 n)) base).
  eapply Z.le_trans; [apply dots_length|]. destruct (_ && _); cbn [length]; lia.
Qed.

Lemma int_text_safe c flags v sgn :
  integral v -> fits v -> ok_or_raise (int_text c flags v sgn) (fun '(s, sc) => short s).
Proof.
  intros HI HF. destruct (HF HI) as (HC & HL). unfold int_text. destruct v as [n|b|o]; [| |contradiction].
  - destruct (directive_base c =? 2).
    + apply FIXABLE_iff in HC. destruct (int2big_spec n ltac:(unfold LONG_MIN, LONG_MAX; lia)) as (HO & HV).
      apply bignum_text_safe; [exact HO|unfold len, ROOM_MAX; pose proof (int2big_length n); lia|].
      rewrite int2big_sign, HV. destruct (Z.leb_spec 0 n); [now right|left; lia].
    + cbn [ok_or_raise]. pose proof (fixnum_text_short c flags n sgn HC). now destruct (fixnum_text c flags n sgn).
  - apply bignum_text_safe; auto with bignum. left. destruct HC as (_ & _ & HX). intros E. rewrite E in HX. discriminate.
Qed.

(** ** The format: suffixes of it *)

Definition rest_of (q p : list Z) : Prop := exists r, p = r ++ q.

Lemma rest_refl p : rest_of p p. Proof. now exists []. Qed.
Lemma rest_tl p : rest_of (tl p) p.
Proof. destruct p as [|c p]; [now exists []|now exists [c]]. Qed.
Lemma rest_trans p q r : rest_of p q -> rest_of q r -> rest_of p r.
Proof. intros (x & ->) (y & ->). exists (y ++ x). now rewrite app_assoc. Qed.
Lemma rest_of_length p q : rest_of p q -> (length p <= length q)%nat.
Proof. intros (x & ->). rewrite length_app. lia. Qed.

Lemma digits_at_rest p n : rest_of (snd (digits_at p n)) p.
Proof.
  revert n; induction p as [|c p IH]; intros n; cbn [digits_at]; [apply rest_refl|].
  destruct (ISDIGIT c); [|apply rest_refl]. eapply rest_trans; [apply IH|now exists [c]].
Qed.

Lemma digits_at_digit c p n : ISDIGIT c = true -> rest_of (snd (digits_at (c :: p) n)) p.
Proof. intros H. cbn [digits_at]. rewrite H. apply digits_at_rest. Qed.

Definition MAX : Z := 1048576.

(** Every number a run of digits in the format stands for is small. *)
Fixpoint small_numbers (p : list Z) : bool :=
  match p with
  | [] => true
  | _ :: p' => (0 <=? fst (digits_at p 0)) && (fst (digits_at p 0) <=? MAX) && small_numbers p'
  end.

(** The directives for Floats. *)
Definition float_directive (c : Z) : bool := one_of c [102; 103; 71; 101; 69].

(** [st]: arguments may be used as widths. *)
Definition fmt_ok (st : bool) (p : list Z) : Prop :=
  small_numbers p = true /\ (In 42 p -> st = true) /\ (existsb float_directive p = true -> hand).

Lemma fmt_ok_rest st p q : rest_of q p -> fmt_ok st p -> fmt_ok st q.
Proof.
  intros (r & ->). unfold fmt_ok. induction r as [|c r IH]; cbn [app small_numbers]; [auto|].
  intros (H & HI & HO). apply IH. breflect. splits; auto; [intros HIn; apply HI; now right|].
  intros HE. apply HO. cbn [existsb]. now rewrite HE, orb_true_r.
Qed.

Lemma fmt_ok_number st p : fmt_ok st p -> 0 <= fst (digits_at p 0) <= MAX.
Proof.
  intros (H & _). destruct p as [|c p]; [cbn; unfold MAX; lia|]. cbn [small_numbers] in H. breflect. lia.
Qed.

(** ** Arguments *)

Definition arg_small (st : bool) (v : argument) : Prop :=
  match v with
  | Int v => fits v /\ (st = true -> integral v -> Z.abs (value v) <= MAX)
  | Str s => Z.of_nat (length s) <= 65536
  end.

Definition arg_ok (st : bool) (v : argument) : Prop := arg_small st v /\ (foreign v = true -> hand).

Definition args_ok (st : bool) (a : args) : Prop := Forall (arg_ok st) (argv a) /\ 1 <= nextarg a.

Lemma GETNTHARG_safe st n a : args_ok st a -> 1 <= n -> ok_or_raise (GETNTHARG n a) (arg_ok st).
Proof.
  intros (HA & _) Hn. unfold GETNTHARG. destruct (Z.ltb_spec (Z.of_nat (length (argv a))) n); [exact I|].
  destruct (nth_error (argv a) (Z.to_nat (n - 1))) as [v|] eqn:E.
  - cbn. rewrite Forall_forall in HA. apply HA. eapply nth_error_In, E.
  - apply nth_error_None in E. lia.
Qed.

Definition next_ok (st : bool) (v : option argument) : Prop := match v with Some v => arg_ok st v | None => True end.

Lemma GETARG_safe st nv a :
  next_ok st nv -> args_ok st a -> ok_or_raise (GETARG nv a) (fun '(v, a') => arg_ok st v /\ args_ok st a').
Proof.
  intros Hnv HA. unfold GETARG. destruct nv as [v|]; [now split|]. destruct (posarg a <? 0); [exact I|].
  destruct HA as (HF & Hn). eapply ok_or_raise_bind; [apply (GETNTHARG_safe st); [split; assumption|exact Hn]|].
  intros v Hv. split; [exact Hv|]. split; [exact HF|]. cbn [nextarg]. lia.
Qed.

Lemma GETPOSARG_safe st n a :
  args_ok st a -> ok_or_raise (GETPOSARG n a) (fun '(v, a') => arg_ok st v /\ args_ok st a').
Proof.
  intros HA. unfold GETPOSARG. destruct (0 <? posarg a); [exact I|]. destruct (Z.ltb_spec n 1); [exact I|].
  eapply ok_or_raise_bind; [apply (GETNTHARG_safe st); [exact HA|lia]|].
  intros v Hv. split; [exact Hv|]. split; [apply HA|apply HA].
Qed.

Lemma NUM2INT_safe st v : arg_ok st v -> ok_or_raise (NUM2INT v) (fun n => st = true -> Z.abs n <= MAX).
Proof.
  intros (Hv & HO). destruct v as [v|s]; [|exact I]. destruct Hv as (HF & Hb). unfold NUM2INT, NUM2LONG.
  destruct v as [n|b|o]; [cbn in *; auto| |now apply HO].
  assert (HX : st = true -> False).
  { intros E. specialize (Hb E I). destruct (HF I) as ((_ & _ & HN) & _). cbn [value] in Hb.
    assert (FIXABLE (big_val b) = true) by (apply FIXABLE_iff; unfold MAX in Hb; lia). congruence. }
  unfold rb_big2long, big2ulong. destruct (_ <? len b); [exact I|]. cbn [bind]. destruct (_ && _); [exact I|].
  cbn. intros E. now destruct (HX E).
Qed.

Lemma GETASTER_safe st p nv a :
  fmt_ok st p -> star p = 42 -> next_ok st nv -> args_ok st a ->
  ok_or_raise (GETASTER p nv a) (fun '(n, q, a') => Z.abs n <= MAX /\ q <> [] /\ rest_of q p /\ args_ok st a').
Proof.
  intros (HS & Hst & _) Hp Hnv HA. unfold GETASTER.
  assert (st = true) as E by (apply Hst; destruct p as [|c p]; [discriminate|left; exact Hp]).
  pose proof (digits_at_rest (tl p) 0) as Hsuf. destruct (digits_at (tl p) 0) as (n, q). cbn [snd] in Hsuf.
  destruct q as [|c q]; [exact I|]. assert (Hq : rest_of (c :: q) p) by (eapply rest_trans; [exact Hsuf|apply rest_tl]).
  assert (p <> []) by (intros ->; discriminate).
  eapply ok_or_raise_bind with (P := fun '(v, a', p') => arg_ok st v /\ args_ok st a' /\ p' <> [] /\ rest_of p' p).
  - destruct (c =? 36).
    + eapply ok_or_raise_bind; [apply (GETPOSARG_safe st), HA|]. intros (v, a') (Hv & Ha). cbn. splits; auto. discriminate.
    + eapply ok_or_raise_bind; [apply (GETARG_safe st); assumption|]. intros (v, a') (Hv & Ha). cbn. splits; auto. apply rest_refl.
  - intros ((v, a'), p') (Hv & Ha & HN & Hp'). eapply ok_or_raise_bind; [now apply (NUM2INT_safe st)|].
    intros m Hm. cbn. splits; auto.
Qed.

(** ** Directives *)

Record spec_ok (st : bool) (s : spec) : Prop := {
  width_ok : -1 <= width s <= MAX;
  prec_max : prec s <= MAX;
  prec_min : has (flags s) FPREC = true -> 0 <= prec s;
  nextvalue_ok : next_ok st (nextvalue s)
}.

Lemma has_lor f g h : has (Z.lor f g) h = has f h || has g h.
Proof.
  unfold has. rewrite Z.land_comm, Z.land_lor_distr_r, !(Z.land_comm h), <- negb_andb. f_equal.
  destruct (Z.eqb_spec (Z.lor (Z.land f h) (Z.land g h)) 0) as [E|E].
  - apply Z.lor_eq_0_iff in E as (-> & ->). reflexivity.
  - destruct (Z.eqb_spec (Z.land f h) 0) as [E1|], (Z.eqb_spec (Z.land g h) 0) as [E2|]; try reflexivity.
    rewrite E1, E2 in E. now contradiction E.
Qed.

Lemma has_ldiff f h : has (Z.ldiff f h) h = false.
Proof. unfold has. rewrite Z.ldiff_land, <- Z.land_assoc, (Z.land_comm (Z.lnot h)), Z.land_lnot_diag, Z.land_0_r. reflexivity. Qed.

Lemma spec_ok_flag st f s : has f FPREC = false -> spec_ok st s -> spec_ok st (add_flag f s).
Proof.
  intros Hf [H1 H2 H3 H4]. unfold add_flag. constructor; cbn [width prec flags nextvalue]; auto.
  rewrite has_lor, Hf, orb_false_r. exact H3.
Qed.

Lemma spec_ok_width st w s : -1 <= w <= MAX -> spec_ok st s -> spec_ok st (Spec (flags s) w (prec s) (nextvalue s)).
Proof. intros Hw [H1 H2 H3 H4]. now constructor. Qed.

Lemma spec_ok_prec st f n s :
  (has f FPREC = true -> 0 <= n) -> n <= MAX -> spec_ok st s -> spec_ok st (Spec f (width s) n (nextvalue s)).
Proof. intros Hf Hn [H1 H2 H3 H4]. now constructor. Qed.

Definition after_retry (st : bool) (p : list Z) (r : list Z * spec * args) : Prop :=
  let '(p', s, a) := r in rest_of p' p /\ spec_ok st s /\ args_ok st a.

Lemma after_retry_rest st p q r : rest_of q p -> after_retry st q r -> after_retry st p r.
Proof. destruct r as ((p', s), a). intros Hq (H1 & H2 & H3). split; [|now split]. eapply rest_trans; eauto. Qed.

Lemma rest_tl_length p q : rest_of q p -> q <> [] -> (length (tl q) < length p)%nat.
Proof. intros H HN. apply rest_of_length in H. destruct q; [contradiction|cbn [tl length] in *; lia]. Qed.

Section Retry.
Context (st : bool) (fuel : nat).
Hypothesis IH : forall p s a, (length p < fuel)%nat -> fmt_ok st p -> spec_ok st s -> args_ok st a ->
  safe (retry fuel p s a) (after_retry st p).

(** The next round, further along in the format. *)
Lemma retry_next p q s a :
  rest_of q p -> (length q < fuel)%nat -> fmt_ok st p -> spec_ok st s -> args_ok st a ->
  safe (retry fuel q s a) (after_retry st p).
Proof.
  intros Hq HL Hp Hs Ha. eapply safe_weaken; [apply IH; eauto using fmt_ok_rest|].
  intros r. now apply after_retry_rest.
Qed.

Lemma retry_flag f p s a :
  has f FPREC = false -> p <> [] -> (length p < S fuel)%nat -> fmt_ok st p -> spec_ok st s -> args_ok st a ->
  safe (retry fuel (tl p) (add_flag f s) a) (after_retry st p).
Proof.
  intros Hf HN HL Hp Hs Ha. apply retry_next; auto using rest_tl, spec_ok_flag.
  pose proof (rest_tl_length p p (rest_refl p) HN). lia.
Qed.

Lemma retry_number p s a :
  ISDIGIT (star p) = true -> (length p < S fuel)%nat -> fmt_ok st p -> spec_ok st s -> args_ok st a ->
  safe (let '(n, q) := digits_at p 0 in
      match q with
      | [] => lift (Raise ArgumentError)
      | d :: q' =>
          if d =? 36 then
            match nextvalue s with
            | Some _ => lift (Raise ArgumentError)
            | None =>
                '(v, a) <<- lift (GETPOSARG n a) ;;
                retry fuel q' (Spec (flags s) (width s) (prec s) (Some v)) a
            end
          else retry fuel q (add_flag FWIDTH (Spec (flags s) n (prec s) (nextvalue s))) a
      end) (after_retry st p).
Proof.
  intros Hd HL Hp Hs Ha. destruct p as [|c p0]; [discriminate|]. cbn [star hd] in Hd.
  pose proof (fmt_ok_number st _ Hp) as Hn. pose proof (digits_at_digit c p0 0 Hd) as Hsuf.
  pose proof (digits_at_rest (c :: p0) 0) as Hsuf'.
  destruct (digits_at (c :: p0) 0) as (n, q). cbn [fst snd] in *. cbn [length] in HL. apply rest_of_length in Hsuf.
  destruct q as [|d q]; [exact I|]. destruct (d =? 36).
  - destruct (nextvalue s); [exact I|]. eapply safe_bind; [apply (GETPOSARG_safe st n a Ha)|].
    intros (v, a') (Hv & Ha'). apply retry_next; auto.
    + eapply rest_trans; [|exact Hsuf']. now exists [d].
    + cbn [length] in *. lia.
    + destruct Hs. now constructor.
  - apply retry_next; auto; [cbn [length] in *; lia|]. apply spec_ok_flag; [reflexivity|]. apply spec_ok_width; [lia|exact Hs].
Qed.

Lemma retry_star_width p s a :
  star p = 42 -> (length p < S fuel)%nat -> fmt_ok st p -> spec_ok st s -> args_ok st a ->
  safe ('(w, p, a) <<- lift (GETASTER p (nextvalue s) a) ;;
      let s := if w <? 0 then add_flag FMINUS (Spec (flags s) (s32 (- w)) (prec s) (nextvalue s))
               else Spec (flags s) w (prec s) (nextvalue s) in
      retry fuel (tl p) s a) (after_retry st p).
Proof.
  intros Hc HL Hp Hs Ha. eapply safe_bind; [apply (GETASTER_safe st p _ a Hp Hc); [apply Hs|exact Ha]|].
  intros ((w, q), a') (Hw & HN & Hq & Ha'). apply retry_next; auto.
  - eapply rest_trans; [apply rest_tl|exact Hq].
  - pose proof (rest_tl_length p q Hq HN). lia.
  - unfold MAX in Hw. destruct (Z.ltb_spec w 0); [apply spec_ok_flag; [reflexivity|]|];
      (apply spec_ok_width; [rewrite ?s32_small; unfold MAX; lia|exact Hs]).
Qed.

Lemma retry_prec p s a :
  star p = 46 -> (length p < S fuel)%nat -> fmt_ok st p -> spec_ok st s -> args_ok st a ->
  safe (let s := add_flag FPREC s in
      let p := tl p in
      if star p =? 42 then
        '(n, p, a) <<- lift (GETASTER p (nextvalue s) a) ;;
        let f := if n <? 0 then Z.ldiff (flags s) FPREC else flags s in
        retry fuel (tl p) (Spec f (width s) n (nextvalue s)) a
      else
        let '(n, p) := digits_at p 0 in
        match p with
        | [] => lift (Raise ArgumentError)
        | _ => retry fuel p (Spec (flags s) (width s) n (nextvalue s)) a
        end) (after_retry st p).
Proof.
  intros Hc HL Hp Hs Ha. cbv zeta. destruct p as [|c p]; [discriminate|]. cbn [tl]. cbn [length] in HL.
  assert (Hp1 : rest_of p (c :: p)) by now exists [c]. pose proof (fmt_ok_rest st _ _ Hp1 Hp) as Hp'.
  destruct Hs as [H1 H2 H3 H4]. destruct (Z.eqb_spec (star p) 42) as [E|E].
  - eapply safe_bind; [apply (GETASTER_safe st p _ a Hp' E); [exact H4|exact Ha]|].
    intros ((n, q), a') (Hw & HN & Hq & Ha'). cbv zeta. apply retry_next; auto.
    + eapply rest_trans; [apply rest_tl|]. eapply rest_trans; [exact Hq|exact Hp1].
    + pose proof (rest_tl_length p q Hq HN). lia.
    + unfold MAX in *. constructor; cbn [width prec flags nextvalue add_flag]; auto; try (unfold MAX; lia).
      destruct (Z.ltb_spec n 0); [|auto]. now rewrite has_ldiff.
  - pose proof (fmt_ok_number st p Hp') as Hn. pose proof (digits_at_rest p 0) as Hq.
    destruct (digits_at p 0) as (n, q). cbn [fst snd] in *. destruct q as [|d q]; [exact I|]. apply retry_next; auto.
    + eapply rest_trans; [exact Hq|exact Hp1].
    + apply rest_of_length in Hq. lia.
    + constructor; cbn [width prec flags nextvalue add_flag]; auto; lia.
Qed.
End Retry.

Lemma retry_safe st fuel p s a :
  (length p < fuel)%nat -> fmt_ok st p -> spec_ok st s -> args_ok st a -> safe (retry fuel p s a) (after_retry st p).
Proof.
  revert p s a; induction fuel as [|fuel IH]; intros p s a HL Hp Hs Ha; [lia|].
  assert (HN : forall x, x <> 0 -> star p = x -> p <> []) by (intros x Hx E ->; cbn in E; congruence).
  cbn [retry]. cbv zeta.
  destruct (Z.eqb_spec (star p) 32) as [E|_]; [apply retry_flag; eauto; now apply (HN 32)|].
  destruct (Z.eqb_spec (star p) 35) as [E|_]; [apply retry_flag; eauto; now apply (HN 35)|].
  destruct (Z.eqb_spec (star p) 43) as [E|_]; [apply retry_flag; eauto; now apply (HN 43)|].
  destruct (Z.eqb_spec (star p) 45) as [E|_]; [apply retry_flag; eauto; now apply (HN 45)|].
  destruct (Z.eqb_spec (star p) 48) as [E|_]; [apply retry_flag; eauto; now apply (HN 48)|].
  destruct ((49 <=? star p) && (star p <=? 57)) eqn:Ed.
  { apply (retry_number st fuel IH); auto. unfold ISDIGIT. breflect. apply andb_true_intro. split; lia. }
  destruct (Z.eqb_spec (star p) 42) as [E|_].
  { destruct (has (flags s) FWIDTH); [exact I|].
    apply (retry_star_width st fuel IH p (add_flag FWIDTH s) a); auto. now apply spec_ok_flag. }
  destruct (Z.eqb_spec (star p) 46) as [E|_].
  { destruct (has (flags s) FPREC); [exact I|]. now apply (retry_prec st fuel IH). }
  split; [apply rest_refl|now split].
Qed.

(** ** Output *)

(** At most [n] more bytes. *)
Definition grown (b : buffer) (n : Z) (b' : buffer) : Prop := buf_ok b' /\ blen b' <= blen b + n.

Lemma writes_grown m b s n : writes m b s -> Z.of_nat (length s) <= n -> safe m (grown b n).
Proof.
  intros (b' & -> & E & HO) Hs. cbn. split; [exact HO|]. apply blen_app in E. lia.
Qed.

(** What one directive appends, and 256 of them with the text between. *)
Definition COST : Z := 4194303.
Definition FULL : Z := 1073741824.

Lemma field_length c flags width prec s sc prefix filler n :
  width <= n -> prec <= n -> Z.of_nat (length s) <= n -> (length prefix <= 2)%nat -> 0 <= n ->
  Z.of_nat (length (field c flags width prec s sc prefix filler)) <= n + 3.
Proof.
  intros Hw Hp Hs Hpre Hn. unfold field. rewrite !length_app.
  assert (length (if c =? 88 then map toupper s else s) = length s) as -> by (destruct (c =? 88); rewrite ?length_map; reflexivity).
  rewrite repeat_length. destruct (_ =? FZERO), (has flags FMINUS), (sc =? 0); rewrite ?repeat_length; cbn [length]; lia.
Qed.

Lemma int_prefix_length c flags : (length (int_prefix c flags) <= 2)%nat.
Proof. unfold int_prefix, directive_prefix. repeat case_if; cbn [length]; lia. Qed.

Lemma format_int_obj c sp v b :
  format_int c sp v b = v <<- lift (int_argument v) ;; format_int c sp (Int v) b.
Proof.
  unfold format_int. destruct (int_argument v) as [w| | |] eqn:E; try reflexivity. cbn [lift rbind].
  unfold int_argument in *. destruct v as [v|s].
  - cbn [bind] in E. destruct v; try discriminate; injection E as <-; reflexivity.
  - destruct (rb_str_to_inum s 0 true) as [x| | |]; try discriminate. cbn [bind] in E. destruct x; try discriminate; injection E as <-; reflexivity.
Qed.

Lemma format_int_safe st c sp v b :
  spec_ok st sp -> arg_ok st v -> buf_ok b -> blen b <= FULL -> safe (format_int c sp v b) (grown b COST).
Proof.
  intros [Hw Hp _ _] Hv HB Hb. unfold MAX, FULL in *. rewrite format_int_obj.
  eapply safe_bind; [apply int_argument_safe; [destruct v; apply Hv|apply Hv]|]. clear v Hv.
  intros v (HI & HF). rewrite format_int_text by exact HI.
  eapply safe_bind; [apply (int_text_safe c (flags sp) v _ HI HF)|].
  intros (s, sc) Hs. unfold short in Hs. cbv zeta. pose proof (int_prefix_length c (flags sp)) as Hpre.
  set (w := s32 (width sp - Z.of_nat (length (int_prefix c (flags sp))))).
  assert (Hw' : -3 <= w <= 1048576) by (unfold w; rewrite s32_small; lia). clearbody w.
  eapply writes_grown; [apply format_integer_writes; auto; unfold small; try lia; destruct (sc =? 0); rewrite ?s32_small; lia|].
  eapply Z.le_trans; [apply (field_length _ _ _ _ _ _ _ _ 4000010); auto; try lia; destruct (sc =? 0); rewrite ?s32_small; lia|].
  unfold COST. lia.
Qed.

Lemma format_str_safe st sp s b :
  spec_ok st sp -> short s -> buf_ok b -> blen b <= FULL -> safe (format_str sp s b) (grown b COST).
Proof.
  intros [Hw Hp Hpm _] Hs HB Hb. unfold MAX, FULL, short in *. unfold format_str.
  set (l := if has (flags sp) FPREC && (prec sp <? Z.of_nat (length s)) then prec sp else Z.of_nat (length s)).
  assert (Hl : 0 <= l <= Z.of_nat (length s)).
  { unfold l. destruct (has (flags sp) FPREC); cbn [andb]; [|lia]. specialize (Hpm eq_refl). destruct (Z.ltb_spec (prec sp) (Z.of_nat (length s))); lia. }
  clearbody l. assert (Hf : Z.of_nat (length (firstn (Z.to_nat l) s)) = l) by (rewrite length_firstn; lia).
  assert (HM : forall b, memcpy s l b = put (firstn (Z.to_nat l) s) b) by (intros; unfold memcpy; now replace (l <? 0) with false by lia).
  destruct (has (flags sp) FWIDTH && (l <? width sp)) eqn:E.
  - breflect. set (n := Z.to_nat (width sp - l)).
    destruct (CHECK_ok (width sp) b HB) as (size & -> & HO & Hsz); [lia|unfold LIMIT; lia|]. cbn [rbind done]. cbv zeta.
    set (bs := Buffer (out b) size) in *. assert (Hfill : forall b c t, out b = out bs ++ t -> bsiz b = size ->
      Z.of_nat (length t) + Z.of_nat n <= width sp -> fill c (width sp - l) b = done (Buffer (out b ++ repeat c n) size)).
    { intros b1 c t E1 E2 Ht. unfold fill, put. fold n. unfold blen in *. rewrite E2, E1, length_app, repeat_length.
      match goal with |- context [size + 1 <? ?x] => destruct (Z.ltb_spec (size + 1) x) end; [|reflexivity].
      exfalso. unfold bs in *; cbn [out] in *. lia. }
    assert (Hput : forall b t, out b = out bs ++ t -> bsiz b = size -> Z.of_nat (length t) + l <= width sp ->
      memcpy s l b = done (Buffer (out b ++ firstn (Z.to_nat l) s) size)).
    { intros b1 t E1 E2 Ht. rewrite HM. unfold put. unfold blen in *. rewrite E2, E1, length_app, Hf.
      match goal with |- context [size + 1 <? ?x] => destruct (Z.ltb_spec (size + 1) x) end; [|reflexivity].
      exfalso. unfold bs in *; cbn [out] in *. lia. }
    assert (Hend : forall t, Z.of_nat (length t) = width sp -> safe (done (Buffer (out bs ++ t) size)) (grown b COST)).
    { intros t Ht. cbn [safe done ok_or_raise]. destruct HO as (HS & _). split; [split; [exact HS|]|]; unfold blen in *; cbn [out bsiz bs] in *;
        rewrite length_app; unfold COST; lia. }
    assert (Hn : Z.of_nat n = width sp - l) by (unfold n; lia).
    destruct (has (flags sp) FMINUS); cbn [rbind done].
    + rewrite (Hput bs []) by (rewrite ?app_nil_r; auto; cbn [length]; lia). cbn [rbind done out].
      rewrite (Hfill _ 32 (firstn (Z.to_nat l) s)) by (auto; lia). cbn [out]. rewrite <- app_assoc. apply Hend.
      rewrite length_app, repeat_length. lia.
    + rewrite (Hfill bs 32 []) by (rewrite ?app_nil_r; auto; cbn [length]; lia). cbn [rbind done out].
      rewrite (Hput _ (repeat 32 n)) by (auto; rewrite ?repeat_length; lia). cbn [rbind done out]. rewrite <- app_assoc. apply Hend.
      rewrite length_app, repeat_length. lia.
  - apply writes_grown with (firstn (Z.to_nat l) s); [|unfold COST; lia].
    replace (rbind (CHECK l b) (fun b => memcpy s l b)) with (rbind (CHECK l b) (put (firstn (Z.to_nat l) s)))
      by (destruct (CHECK l b) as [[]|]; cbn; rewrite ?HM; reflexivity).
    apply writes_put; auto; unfold LIMIT; lia.
Qed.

Lemma spaces_writes n b : buf_ok b -> blen b + Z.of_nat n < LIMIT -> writes (spaces n b) b (repeat 32 n).
Proof.
  revert b; induction n as [|n IH]; intros b HB HL; cbn [spaces repeat]; [now apply writes_done|].
  apply (writes_bind _ _ b [32]); [apply writes_PUSH; auto; cbn [length]; lia|].
  intros b' E O. apply blen_app in E. cbn [length] in E. apply IH; auto. lia.
Qed.

Lemma grown_more b b1 b2 n m : grown b n b1 -> grown b1 m b2 -> grown b (n + m) b2.
Proof. intros (_ & H1) (HO & H2). split; [exact HO|]. lia. Qed.

Lemma format_chr_safe st sp v b :
  spec_ok st sp -> arg_ok st v -> buf_ok b -> blen b <= FULL -> safe (format_chr sp v b) (grown b COST).
Proof.
  intros [Hw _ _ _] Hv HB Hb. unfold format_chr. unfold MAX, FULL in *. set (n := Z.to_nat (s32 (width sp - 1))).
  assert (Hn : Z.of_nat n <= 1048576) by (unfold n; rewrite s32_small; lia). clearbody n.
  assert (HS : forall b, buf_ok b -> blen b <= 1080000000 -> safe (spaces n b) (grown b 1048576)).
  { intros b1 H1 H2. apply writes_grown with (repeat 32 n); [apply spaces_writes; auto; unfold LIMIT; lia|rewrite repeat_length; lia]. }
  eapply safe_bind with (P := grown b 1048576).
  { destruct (has (flags sp) FMINUS); [split; [exact HB|lia]|apply HS; auto; lia]. }
  intros b1 (O1 & H1). eapply safe_bind; [apply (NUM2INT_safe st v Hv)|]. intros c _.
  eapply safe_bind with (P := grown b 1048577).
  { eapply safe_weaken; [apply (writes_grown _ b1 [Z.land c 255] 1); [apply writes_PUSH; auto; cbn [length]; unfold LIMIT; lia|cbn; lia]|].
    intros b2 H2. apply (grown_more b b1 b2 1048576 1); [split; auto|exact H2]. }
  intros b2 (O2 & H2). destruct (has (flags sp) FMINUS).
  - eapply safe_weaken; [apply HS; auto; lia|]. intros b3 H3. unfold COST.
    apply (grown_more b b2 b3 1048577 1048576) in H3; [|split; auto]. destruct H3. split; [assumption|lia].
  - split; [exact O2|unfold COST; lia].
Qed.

Lemma big2str_safe v : integral v -> fits v -> ok_or_raise (rb_big2str v 10) short.
Proof.
  intros HI HF. pose proof (fits_printable v HI HF) as HP. pose proof HP as (_ & HC & HL).
  destruct (rb_big2str_ok v 10 ltac:(lia) HI HC HL) as (cs & -> & HT). cbn [ok_or_raise].
  pose proof (printable_length 10 cs v ltac:(lia) HP HT). unfold short. destruct (value v <? 0); cbn [length]; lia.
Qed.

Lemma as_string_safe st inspect v : arg_ok st v -> ok_or_raise (as_string inspect v) short.
Proof.
  intros (Hv & HO). unfold as_string. destruct v as [v|s].
  - destruct Hv as (HF & _). destruct v as [n|b|o]; [now apply big2str_safe..|now apply HO].
  - cbn in Hv. destruct inspect; [|unfold short; cbn; lia].
    unfold rb_str_inspect. rewrite inspect_loop_single by reflexivity. cbn [bind ok_or_raise]. unfold short.
    pose proof (dump_body_length s). cbn [length]. rewrite length_app. cbn [length]. lia.
Qed.

(** ** The loop *)

Lemma directive_safe st p sp a b :
  fmt_ok st p -> spec_ok st sp -> args_ok st a -> buf_ok b -> blen b <= FULL ->
  safe (directive p sp a b) (fun '(p', a', b') => rest_of p' p /\ args_ok st a' /\ grown b COST b').
Proof.
  intros Hp Hs Ha HB Hb. unfold directive. cbv zeta.
  assert (HK : forall p' a', rest_of p' p -> args_ok st a' -> forall m, safe m (grown b COST) ->
    safe (b <<- m ;; done (p', a', b)) (fun '(p', a', b') => rest_of p' p /\ args_ok st a' /\ grown b COST b')).
  { intros p' a' Hp' Ha' m Hm. eapply safe_bind; [exact Hm|]. intros b' Hb'. now split. }
  assert (HG : forall k, (forall v a', arg_ok st v -> args_ok st a' -> safe (k v a') (fun '(p', a', b') => rest_of p' p /\ args_ok st a' /\ grown b COST b')) ->
    safe ('(v, a) <<- lift (GETARG (nextvalue sp) a) ;; k v a) (fun '(p', a', b') => rest_of p' p /\ args_ok st a' /\ grown b COST b')).
  { intros k Hk. eapply safe_bind; [apply (GETARG_safe st); [apply Hs|exact Ha]|]. intros (v, a') (Hv & Ha'). now apply Hk. }
  destruct (one_of (star p) [10; 0; 37]).
  { destruct (negb (flags sp =? 0)); [exact I|].
    apply HK; auto; [destruct (star p =? 10); [apply rest_refl|apply rest_tl]|].
    apply writes_grown with [37]; [apply writes_PUSH; auto; unfold FULL, LIMIT in *; cbn [length]; lia|unfold COST; cbn; lia]. }
  destruct (star p =? 99).
  { apply HG. intros v a' Hv Ha'. apply HK; [apply rest_tl|exact Ha'|]. now apply (format_chr_safe st). }
  destruct ((star p =? 115) || (star p =? 112)).
  { apply HG. intros v a' Hv Ha'. eapply safe_bind; [apply (as_string_safe st _ v Hv)|]. intros s Hs'.
    apply HK; [apply rest_tl|exact Ha'|]. now apply (format_str_safe st). }
  destruct (one_of (star p) [100; 105; 111; 120; 88; 98; 66; 117]).
  { apply HG. intros v a' Hv Ha'. apply HK; [apply rest_tl|exact Ha'|]. now apply (format_int_safe st). }
  destruct (one_of (star p) [102; 103; 71; 101; 69]) eqn:EF; [|exact I]. apply Hp.
  destruct p as [|c p]; [discriminate|]. cbn [existsb]. unfold float_directive at 1. cbn [star hd] in EF. now rewrite EF.
Qed.

Lemma upto_percent_app p : let '(t, q) := upto_percent p in p = t ++ q.
Proof.
  induction p as [|c p IH]; cbn [upto_percent]; [reflexivity|]. destruct (c =? 37); [reflexivity|].
  destruct (upto_percent p) as (t, q). cbn [app]. now rewrite IH.
Qed.

Lemma sprintf_loop_safe st fuel p a b :
  (length p < fuel)%nat -> fmt_ok st p -> args_ok st a -> buf_ok b -> blen b + (COST + 1) * Z.of_nat (length p) <= FULL ->
  safe (sprintf_loop fuel p a b) (fun '(a', b') => blen b' <= FULL).
Proof.
  revert p a b; induction fuel as [|fuel IH]; intros p a b HL Hp Ha HB Hb; [lia|]. cbn [sprintf_loop].
  destruct p as [|c0 p0]; [cbn in *; lia|]. set (p := c0 :: p0) in *. clearbody p.
  pose proof (upto_percent_app p) as Hup. destruct (upto_percent p) as (t, q). unfold FULL, COST in *.
  rewrite Hup, length_app in HL, Hb.
  eapply safe_bind; [apply (writes_grown _ b t (Z.of_nat (length t))); [apply writes_PUSH; auto; unfold LIMIT; lia|lia]|].
  intros b1 (O1 & H1). destruct q as [|c q]; [cbn in *; lia|]. cbn [length] in *.
  assert (Hq : rest_of q p) by (rewrite Hup; exists (t ++ [c]); now rewrite <- app_assoc).
  eapply safe_bind.
  { apply (retry_safe st); [lia|eapply fmt_ok_rest; eauto| |exact Ha].
    constructor; cbn [width prec flags nextvalue]; try (unfold MAX; lia); [discriminate|exact I]. }
  intros ((p1, sp), a1) (Hp1 & Hsp & Ha1).
  eapply safe_bind; [apply (directive_safe st p1 sp a1 b1 (fmt_ok_rest st _ _ (rest_trans _ _ _ Hp1 Hq) Hp) Hsp Ha1 O1); unfold FULL; lia|].
  intros ((p2, a2), b2) (Hp2 & Ha2 & O2 & H2). unfold COST in H2.
  apply rest_of_length in Hp1 as L1. apply rest_of_length in Hp2 as L2.
  apply IH; [lia| |exact Ha2|exact O2|unfold FULL, COST; lia].
  eapply fmt_ok_rest; [|exact Hp]. eapply rest_trans; [exact Hp2|]. eapply rest_trans; [exact Hp1|exact Hq].
Qed.

End Safety.

(** C24: [sprintf] returns or raises, and neither writes outside its buffer nor
    doubles its size for ever: for every format of at most 256 bytes whose
    numbers are at most 2^20, with arguments that are integers of up to
    3319124 bits, strings of at most 65536 bytes, or other objects, when no
    integer larger than 2^20 can become a width or a precision; the text has
    at most 2^30 bytes.  Only when an argument is an object other than these, or
    the format has a letter of a Float directive, the work may be handed over to
    code that is not modelled; it is safe up to there. *)
Theorem sprintf_stays_inside verbose fmt arguments :
  (length fmt <= 256)%nat -> small_numbers fmt = true ->
  Forall (arg_small (existsb (Z.eqb 42) fmt)) arguments ->
  safe (existsb foreign arguments = true \/ existsb float_directive fmt = true)
    (rb_f_sprintf verbose fmt arguments) (fun text => Z.of_nat (length text) <= 1073741824).
Proof.
  intros HL Hn HA. unfold rb_f_sprintf. set (st := existsb (Z.eqb 42) fmt) in *.
  eapply safe_bind; [apply (sprintf_loop_safe _ st)|].
  - lia.
  - split; [exact Hn|split; [|tauto]]. intros HI. apply existsb_exists. exists 42. split; [exact HI|reflexivity].
  - split; [|cbn; lia]. cbn [argv]. rewrite Forall_forall in *. intros v Hv. split; [auto|].
    intros HF. left. apply existsb_exists. eauto.
  - split; [exists 0%nat; split; [lia|reflexivity]|reflexivity].
  - unfold FULL, COST. unfold blen; cbn [out length]. lia.
  - intros (a, b) Hb. destruct (verbose && _ && _); [exact I|]. cbn [safe done ok_or_raise]. exact Hb.
Qed.

(** ["%-*d|%090000d|%s|%c"] with 12, 7, -200, ["ab"] and 65. *)
Definition sample_format : list Z :=
  [37; 45; 42; 100; 124; 37; 48; 57; 48; 48; 48; 48; 100; 124; 37; 115; 124; 37; 99].
Definition sample_arguments : list argument :=
  [Int (Fix 12); Int (Fix 7); Int (Fix (-200)); Str [97; 98]; Int (Fix 65)].

Lemma sprintf_stays_inside_witness :
  safe (existsb foreign sample_arguments = true \/ existsb float_directive sample_format = true)
    (rb_f_sprintf false sample_format sample_arguments) (fun text => Z.of_nat (length text) <= 1073741824).
Proof.
  apply (sprintf_stays_inside false sample_format sample_arguments).
  - apply Nat.leb_le. reflexivity.
  - reflexivity.
  - repeat (constructor; [first [discriminate|split; [intros _; split; [reflexivity|discriminate]|intros _ _; discriminate]]|]). constructor.
Defined.
